(* ===== verification/_CoqProject ===== *)
-Q . S2P
Prelude.v
Types.v
ValidatorSet.v
EpochManager.v
LeaderElection.v
Crypto.v
MultiSig.v
ConsensusTypes.v
ChainConfig.v
Safety.v
Pacemaker.v
VoteState.v
Timestamp.v
BlockPolicy.v
BlockTree.v
BlockTreeInv.v
BlockTreeProps.v
Messages.v
Signing.v
SigningProps.v
ConsensusState.v
EthPolicy.v
EthValidator.v
EthProps.v
EthPolicyProps.v
BlockSync.v
BlockSyncProps.v
StateSync.v
ConsensusProps.v
EthRuns.v
MonadState.v
MonadStateProps.v
Merkle.v
RaptorTables.v
RaptorCode.v
RaptorCodeProps.v
RaptorEncoderProps.v
RaptorStructs.v
RaptorSetProps.v
RaptorHeapProps.v
RaptorMatrixProps.v
RaptorDecoder.v
RaptorDecoderInv.v
RaptorDecoderSteps.v
RaptorDecoderOps.v
RaptorDecoderRecv.v
RaptorDecoderRun.v
RaptorRuns.v
RaptorKernel.v
RaptorProps.v
RaptorCheck.v
F64.v
RaptorcastGroups.v
Raptorcast.v
RaptorcastRecv.v
RaptorcastBuild.v
RaptorcastNop.v
RaptorcastProps.v
RaptorcastSecondary.v
RaptorcastSecondaryProps.v
RaptorcastClientProps.v
PeerDiscovery.v
PeerDiscoveryProps.v
PeerDiscoveryRuns.v
