(* ===== verification/Prelude.v ===== *)
(** * Verification of the MonadBFT consensus node

    The program is a Byzantine fault tolerant consensus node written in Rust.
    Validators vote on the block that the leader of a round proposes; votes of
    two thirds of the stake make a quorum certificate (QC), timeouts of two
    thirds make a timeout certificate (TC), and a block is final when its child
    in the next round has a QC as well.

    ** Parts of the program and the files that model them

    - [Prelude]: outcomes of Rust code ([exec]: a value, a panic, or fuel
      exhausted; [result]: Ok or Err), checked arithmetic at its machine width,
      ordered and hashed iteration of maps, shared lemmas and tactics.
    - [Types]: monad-types/src/lib.rs. Rounds, epochs, sequence numbers, stakes.
    - [ValidatorSet]: monad-validator/src/validator_set.rs and
      validators_epoch_mapping.rs. Stakes, thresholds, the sets per epoch. The
      class [ValidatorSetLaws] is what clients rely on.
    - [EpochManager]: monad-validator/src/epoch_manager.rs.
    - [LeaderElection]: leader_election.rs, simple_round_robin.rs and
      weighted_round_robin.rs of monad-validator/src.
    - [Crypto]: monad-crypto/src/certificate_signature.rs, signing_domain.rs and
      signature_collection.rs as the class [Protocol] with
      [SignatureCollectionLaws] and [EncodingLaws]; the Nop instance.
    - [MultiSig]: monad-multi-sig/src/lib.rs.
    - [ConsensusTypes]: monad-consensus-types/src. Blocks, tips, votes, timeouts,
      certificates, their RLP trees and digests.
    - [ChainConfig]: monad-chain-config/src.
    - [Safety], [Pacemaker], [VoteState]: validation/safety.rs, pacemaker.rs,
      vote_state.rs and no_endorsement_state.rs of monad-consensus/src.
    - [Timestamp]: monad-consensus-state/src/timestamp.rs.
    - [BlockPolicy]: monad-consensus-types/src/block.rs and block_validator.rs;
      the policy and the validator of blocks are interfaces, with the
      pass-through policy and the mock validator as instances.
    - [BlockTree]: monad-blocktree/src/tree.rs and blocktree.rs; the invariant is
      in [BlockTreeInv], the properties in [BlockTreeProps].
    - [Messages], [Signing]: messages/ and validation/ of monad-consensus/src; the
      properties are in [SigningProps].
    - [ConsensusState]: monad-consensus-state/src/lib.rs and command.rs, and
      monad-state/src/consensus.rs for the dispatch of events. A handler is a
      function of the state monad [step]: it may panic, update the state and
      return commands. [ConsensusProps] has the properties of the whole node.
    - [EthPolicy], [EthValidator]: monad-eth-types, monad-eth-block-policy,
      monad-eth-block-validator and monad-system-calls. The Ethereum instances of
      the interfaces of a block policy and a validator; properties in [EthProps]
      and [EthPolicyProps], runs of the node with them in [EthRuns].
    - [BlockSync]: monad-blocksync/src, how a node fetches blocks it lacks and
      answers the requests of others; properties in [BlockSyncProps].
    - [StateSync]: monad-state/src/statesync.rs, the buffer of a syncing node.
    - [MonadState]: lib.rs, consensus.rs, epoch.rs and blocksync.rs of
      monad-state/src, the commands and events of monad-executor-glue/src/lib.rs
      and monad-consensus-types/src/validator_data.rs. The state of the node is
      a record; [update] handles an event and [build] starts the node from a
      forkpoint. [MonadStateProps] has its properties.
    - [Merkle]: monad-merkle/src/lib.rs. Trees, proofs and roots.
    - [RaptorTables], [RaptorCode], [RaptorStructs], [RaptorDecoder]:
      monad-raptor/src. The tables and sequences of the R10 code and its encoder;
      the ordered sets, the heap of buffer weights and the matrices; the decoder
      with peeling, inactivation and elimination. [RaptorCodeProps],
      [RaptorEncoderProps], [RaptorSetProps], [RaptorHeapProps] and
      [RaptorMatrixProps] have the properties of the parts, [RaptorDecoderInv],
      [RaptorDecoderSteps], [RaptorDecoderOps], [RaptorDecoderRecv] and
      [RaptorDecoderRun] the invariant of the decoder and its preservation,
      [RaptorRuns], [RaptorKernel] and [RaptorProps] what it decodes, and
      [RaptorCheck] the checks of debug builds (decoder/check.rs).
    - [F64]: the floats of Rust that are finite and not negative, to the bit.
    - [RaptorcastGroups], [Raptorcast]: util.rs and udp.rs of
      monad-raptorcast/src. Groups of validators and full nodes; a message as
      signed chunks, and the receiver that checks, passes on and decodes them.
      [RaptorcastRecv] has the invariant of the receiver, [RaptorcastBuild] what
      is built, [RaptorcastNop] instances to evaluate, [RaptorcastProps] the
      properties. The state [UdpState] is followed by a ghost map of the symbols
      that were received for every pending message.
    - [RaptorcastSecondary]: publisher.rs, client.rs and group_message.rs of
      monad-raptorcast/src/raptorcast_secondary. The validator that invites full
      nodes into groups ([Publisher]) and the full node that accepts ([Client]);
      properties in [RaptorcastSecondaryProps] and [RaptorcastClientProps].
    - [PeerDiscovery]: lib.rs, message.rs, discovery.rs and driver.rs of
      monad-peer-discovery/src. The record [PeerDiscovery] is the state, a handler
      gives the next one and its commands, and the driver [PeerDiscoveryDriver]
      runs them with its timers. [PeerDiscoveryProps] has the invariants of the
      handlers and of the timers, [PeerDiscoveryRuns] the properties of runs.

    ** What the theorems show

    - The whole node ([ConsensusProps]): over every sequence of events, valid or
      not, it never signs two different votes, votes after timing out, or proposes twice
      in one round ([node_no_equivocation]), and the blocks it finalizes are one
      chain from its root ([node_finalized_chain]); what a validated timeout
      does to the round ([validated_timeout_in_round]).
    - The event loop ([MonadStateProps]): what holds of consensus holds of the
      commands that leave the node, through syncing, going live and every kind of
      event, and the blocks that the ledger is told to be final are one chain
      ([monad_state_consistent]); a start ends ([maybe_start_terminates]).
    - Block sync ([BlockSyncProps]): what it emits is a chain of the length and
      end that were asked for, whatever peers answer ([block_sync_correct]).
    - Ethereum blocks: the validator accepts exactly the valid blocks
      ([eth_validate_correct]); the policy accepts exactly the blocks whose
      senders can pay for all that is ordered and not executed, as far as the
      backend answers ([eth_check_coherency_correct]), and over every run of a
      network every chain is solvent and the only assertion that can fail is the
      one on the number of a block that is checked with none pending
      ([eth_policy_safe]).
    - Agreement: two super majorities share an honest validator
      ([super_majorities_intersect]), so two valid QCs of one round certify one
      block ([qc_agreement]).
    - Validation ([SigningProps]): the verifiers of certificates and messages,
      with their caches, terminate and decide the declarative notion of
      validity; certificates made by the node verify.
    - Termination and totality: the loops that drop invalid signatures
      ([process_vote_correct], [process_remote_timeout_total]) end without
      panic; the walks over the block tree and the buffer do.
    - The block tree ([BlockTreeProps]): insertion, coherency, pruning
      ([prune_correct]) and the committable certificate, against what they mean
      on the chain of blocks.
    - Leaders and epochs: the schedules are fair in proportion to stake
      ([weighted_leader_fair]) or in turn ([round_robin_fair]), and the epoch of a
      round is monotone and stable.
    - Signatures: round trips ([multisig_new_verify_roundtrip],
      [consensus_message_sign_verify]) and separation of the signing domains
      ([signing_domain_separation]).
    - The Raptor code: symbols of an encoder decode to its message, and to nothing
      else ([raptor_roundtrip]); with enough symbols the decoder finds the source
      exactly if the symbols determine it ([raptor_decodes_iff_determined]); every
      run of it is total ([raptor_runs_total]) and passes the checks of its own
      state ([decoder_checks_pass]); its heap and its sets refine a map and a set
      ([weight_map_refines], [ordered_set_equivalent]).
    - Raptorcast: whatever arrives, the receiver does not panic, stays bounded, and
      delivers and passes on nothing that was not signed, and passes on whole
      packets ([raptorcast_receive_safe]); every packet that is built is sent to its
      node and accepted as what it was built from ([raptorcast_build_parse]); a
      message is delivered once its symbols determine it ([raptorcast_delivers]);
      the groups refine the sets of members that the node was told of, and panic
      exactly where these do not fit ([group_map_refines]). Merkle proofs are
      complete, and sound up to a collision of the hash ([merkle_correct]).
    - Groups of full nodes: the publisher does not panic, its groups follow each
      other without overlap, and it invites a node to a group once unless a list it
      is given repeats it ([publisher_schedule_correct]); the client joins only
      groups that it was invited to and accepted ([client_groups_safe]).
    - Peer discovery: whatever arrives, the node and its timers do not panic, and
      an address is trusted only when its node signed it and answered a ping to it
      ([peer_discovery_safe]); a refresh keeps the table bounded and removes no
      validator ([refresh_bounds_peers]).
    - What the code does not do as it says: the theorem
      [promotion_advertises_nothing], and runs that show it, as examples:
      [eth_wrong_number_panics], [late_no_endorsement_panics],
      [validated_timeouts_unverifiable_tc], [done_sync_race], [in_flight_leak],
      [overtaken_vote_misrouted], [batch_mixes_epochs], [group_with_self],
      [prioritized_invited_twice], [ended_group_kept] and
      [late_answers_exceed_size].

    ** Hypotheses and fuel

    Code that is not in the repository is an argument: signature schemes, the
    hash of a tree of RLP items ([EncodingLaws] says it is injective, an
    idealisation of collision resistance), the LRU cache, the ChaCha generators,
    the iteration order of hash maps, the types of alloy, the execution of blocks
    ([Execution]: on a block that can be executed it advances the nonces of
    externally owned accounts and takes no more from them than the highest cost of
    their transactions; of contracts nothing is assumed) and the database, which
    may fail to answer for it. Each property with
    hypotheses has a witness that instantiates them with concrete functions. A
    loop that is not structural has fuel: the number of entries of the map or tree it walks, or of the
    signatures it may drop, plus one, since every turn removes one or goes
    strictly up the tree; the theorems say that this fuel is enough. The mutual
    recursion of the certificate verifiers has depth two, since a certificate
    inside a tip must extend a QC. The start of consensus calls itself once.
    Peeling and reactivation have twice as much fuel as there are intermediate
    symbols, and a run of the decoder six turns for every change of a symbol (to
    inactivated, to used) or of a buffer (to redundant). The eviction from a cache has as much fuel as
    entries, the iteration over a group as much as peers. Of the hash of Merkle
    trees only its length is assumed ([HasherLaws]), of the caches that they keep
    what they do not evict ([LruLaws]), of the conversion of stakes to floats that
    it is monotone ([F64FromLaws]), of the shuffle of validators that it is a
    permutation; the clock is an argument. Of the generator of peer discovery
    [RngCoreLaws] says that its draws leave every set that is not all of u32 and
    that a choice is a part of what it is from, of the delay queue
    [DelayQueueLaws] says that it keeps what was inserted until it is removed or
    expires, and of the interval map [IntervalMapLaws] what it stores. A lookup id
    is drawn until it is new, without a bound that the code knows: the theorems
    say that some fuel is enough and that more gives the same ([settles]). A poll
    of the driver has as much fuel as it has timers.
    [randomize_256] rejects samples without bound, so its fuel is an argument and its theorem says what an accepted sample gives.

    ** Not modelled

    Metrics, tracing, serde and Debug implementations carry no behaviour of the
    protocol. Byte-level RLP, hashing and signatures are third-party code. Of the
    networking stack the sockets (monad-dataplane) and the router of
    monad-raptorcast (lib.rs, message.rs and raptorcast_secondary/mod.rs) are left
    out: sockets and channels around the chunks, groups and peers that are
    modelled. The execution database (monad-triedb), RPC, archive and node binaries
    are input and output around the state machine. The decoding of messages is left
    out with byte-level RLP. *)

From stdpp Require Export base tactics list gmap sets strings sorting numbers.
From stdpp Require Export option fin_maps.
From Stdlib Require Export ZArith Lia.

#[export] Set Default Goal Selector "!".
#[export] Unset Mangle Names.

(** * Outcomes *)

(** A Rust computation returns a value, panics ([assert!], [expect],
    [unwrap], checked arithmetic), or, for a loop translated with fuel,
    exhausts the fuel. *)
Inductive exec (A : Type) : Type :=
| Ret (a : A)
| Panic
| OutOfFuel.
Arguments Ret {A} a.
Arguments Panic {A}.
Arguments OutOfFuel {A}.

(** [Result<T, E>]. *)
Inductive result (T E : Type) : Type :=
| Ok (t : T)
| Err (e : E).
Arguments Ok {T E} t.
Arguments Err {T E} e.

#[global] Instance exec_ret : MRet exec := λ A a, Ret a.
#[global] Instance exec_bind : MBind exec := λ A B f m,
  match m with
  | Ret a => f a
  | Panic => Panic
  | OutOfFuel => OutOfFuel
  end.
#[global] Instance exec_fmap : FMap exec := λ A B f m,
  match m with
  | Ret a => Ret (f a)
  | Panic => Panic
  | OutOfFuel => OutOfFuel
  end.

#[global] Instance result_eq_dec {T E} `{EqDecision T, EqDecision E} :
  EqDecision (result T E).
Proof. solve_decision. Defined.

#[global] Instance exec_eq_dec {A} `{EqDecision A} : EqDecision (exec A).
Proof. solve_decision. Defined.

(** [assert!(b)] *)
Definition assert (b : bool) : exec unit := if b then Ret tt else Panic.

(** [o.expect("..")], [o.unwrap()] *)
Definition expect {A} (o : option A) : exec A :=
  match o with Some a => Ret a | None => Panic end.

(** [r.expect("..")], [r.unwrap()] on a [Result]. *)
Definition unwrap {A E} (r : result A E) : exec A :=
  match r with Ok a => Ret a | Err _ => Panic end.

(** [r?] on a [Result] inside code that may panic. *)
Definition try_bind {A B E} (m : exec (result A E)) (f : A → exec (result B E)) :
  exec (result B E) :=
  match m with
  | Ret (Ok a) => f a
  | Ret (Err e) => Ret (Err e)
  | Panic => Panic
  | OutOfFuel => OutOfFuel
  end.

(** [o.ok_or(e)] *)
Definition ok_or {A E} (o : option A) (e : E) : result A E :=
  match o with Some a => Ok a | None => Err e end.

Declare Scope exec_scope.
Delimit Scope exec_scope with exec.
Notation "x <-? m ; k" := (try_bind m (λ x, k))
  (at level 20, m at level 100, k at level 200, right associativity,
   only parsing) : exec_scope.
Notation "' p <-? m ; k" := (try_bind m (λ x, match x with p => k end))
  (at level 20, p pattern, m at level 100, k at level 200, right associativity,
   only parsing) : exec_scope.
#[global] Open Scope exec_scope.

Definition is_ret {A} (m : exec A) : bool := match m with Ret _ => true | _ => false end.

Lemma is_ret_spec {A} (m : exec A) : is_ret m = true → ∃ a, m = Ret a.
Proof. destruct m; naive_solver. Qed.

Definition is_panic {A} (m : exec A) : bool := match m with Panic => true | _ => false end.

Lemma is_panic_spec {A} (m : exec A) : is_panic m = true → m = Panic.
Proof. by destruct m. Qed.

(** A computation returns a value that passes a test. *)
Definition ret_with {A} (f : A → bool) (m : exec A) : bool :=
  match m with Ret a => f a | _ => false end.

Lemma ret_with_spec {A} (f : A → bool) (m : exec A) :
  ret_with f m = true → ∃ a, m = Ret a ∧ f a = true.
Proof. destruct m; naive_solver. Qed.

(** ** Inversion of outcomes *)

Section exec_lemmas.
Context {A B E : Type}.
Implicit Types (m : exec A) (f : A → exec B).

Lemma bind_Ret_inv f m b : m ≫= f = Ret b → ∃ a, m = Ret a ∧ f a = Ret b.
Proof. destruct m; naive_solver. Qed.

Lemma bind_ext f g m : (∀ a, m = Ret a → f a = g a) → m ≫= f = m ≫= g.
Proof. destruct m; simpl; eauto. Qed.

Lemma bind_Ret f a : Ret a ≫= f = f a.
Proof. done. Qed.

Lemma assert_Ret_inv b u : assert b = Ret u → b = true.
Proof. destruct b; naive_solver. Qed.

Lemma expect_Ret_inv (o : option A) a : expect o = Ret a → o = Some a.
Proof. destruct o; naive_solver. Qed.

Lemma unwrap_Ret_inv (r : result A E) a : unwrap r = Ret a → r = Ok a.
Proof. destruct r; naive_solver. Qed.

Lemma try_bind_Ok_inv (m : exec (result A E)) (f : A → exec (result B E)) b :
  try_bind m f = Ret (Ok b) → ∃ a, m = Ret (Ok a) ∧ f a = Ret (Ok b).
Proof. destruct m as [[]| |]; naive_solver. Qed.

Lemma try_bind_Err_inv (m : exec (result A E)) (f : A → exec (result B E)) e :
  try_bind m f = Ret (Err e) →
  m = Ret (Err e) ∨ ∃ a, m = Ret (Ok a) ∧ f a = Ret (Err e).
Proof. destruct m as [[]| |]; naive_solver. Qed.

Lemma ok_or_Ok_inv (o : option A) (e : E) a : ok_or o e = Ok a → o = Some a.
Proof. destruct o; naive_solver. Qed.

Lemma fmap_Ret_inv (f : A → B) m b : f <$> m = Ret b → ∃ a, m = Ret a ∧ b = f a.
Proof. destruct m; naive_solver. Qed.
End exec_lemmas.

(** [exec_inv] turns every hypothesis saying that a computation returned into
    hypotheses on its parts. *)
Ltac exec_inv_step :=
  match goal with
  | H : mbind _ _ = Ret _ |- _ =>
      let a := fresh "a" in let Ha := fresh "Ha" in
      apply bind_Ret_inv in H as (a & Ha & H)
  | H : try_bind _ _ = Ret (Ok _) |- _ =>
      let a := fresh "a" in let Ha := fresh "Ha" in
      apply try_bind_Ok_inv in H as (a & Ha & H)
  | H : assert _ = Ret _ |- _ => apply assert_Ret_inv in H
  | H : expect _ = Ret _ |- _ => apply expect_Ret_inv in H
  | H : unwrap _ = Ret _ |- _ => apply unwrap_Ret_inv in H
  | H : ok_or _ _ = Ok _ |- _ => apply ok_or_Ok_inv in H
  | H : fmap _ _ = Ret _ |- _ =>
      let a := fresh "a" in let Ha := fresh "Ha" in
      apply fmap_Ret_inv in H as (a & Ha & H)
  | H : Ret _ = Ret _ |- _ => injection H as H
  | H : mret _ = Ret _ |- _ => injection H as H
  | H : Ok _ = Ok _ |- _ => injection H as H
  | H : Err _ = Ok _ |- _ => discriminate H
  | H : Panic = Ret _ |- _ => discriminate H
  | H : OutOfFuel = Ret _ |- _ => discriminate H
  | u : unit |- _ => destruct u
  end.
Ltac exec_inv := repeat (exec_inv_step; simplify_eq/=).

(** A decidable fact on closed terms, by evaluation. *)
Ltac vm_decide := apply (bool_decide_unpack _); vm_compute; exact I.

(** * Machine integers *)

(** [lia] with division and remainder. *)
Ltac dlia := Z.to_euclidean_division_equations; lia.

Definition u64_max : Z := 2 ^ 64 - 1.
Definition u128_max : Z := 2 ^ 128 - 1.
Definition u256_max : Z := 2 ^ 256 - 1.

Definition is_u64 (z : Z) : Prop := (0 ≤ z ≤ u64_max)%Z.
Definition is_u256 (z : Z) : Prop := (0 ≤ z ≤ u256_max)%Z.

(** [checked_add(..).unwrap_or_else(panic)] and [checked_sub] at width [max]. *)
Definition checked_add (max a b : Z) : exec Z :=
  if bool_decide (a + b ≤ max)%Z then Ret (a + b)%Z else Panic.
Definition checked_sub (a b : Z) : exec Z :=
  if bool_decide (b ≤ a)%Z then Ret (a - b)%Z else Panic.

Definition saturating_add (max a b : Z) : Z := Z.min max (a + b).
Definition saturating_sub (a b : Z) : Z := Z.max 0 (a - b).
Definition abs_diff (a b : Z) : Z := Z.abs (a - b).

Lemma checked_add_Ret max a b c :
  checked_add max a b = Ret c ↔ c = (a + b)%Z ∧ (a + b ≤ max)%Z.
Proof. unfold checked_add. case_bool_decide as Hle; split; intros Hc; [by injection Hc as <-|by destruct Hc as [-> _]|done|lia]. Qed.

Lemma checked_add_ok max a b :
  (a + b ≤ max)%Z → checked_add max a b = Ret (a + b)%Z.
Proof. intros. by apply checked_add_Ret. Qed.

Lemma checked_sub_Ret a b c :
  checked_sub a b = Ret c ↔ c = (a - b)%Z ∧ (b ≤ a)%Z.
Proof. unfold checked_sub. case_bool_decide as Hle; split; intros Hc; [by injection Hc as <-|by destruct Hc as [-> _]|done|lia]. Qed.

Lemma checked_sub_ok a b : (b ≤ a)%Z → checked_sub a b = Ret (a - b)%Z.
Proof. intros. by apply checked_sub_Ret. Qed.

(** * Ordered and hashed maps *)

(** [BTreeMap<K, V>] with an integer key: a [gmap] iterated in key order. *)
Definition key_le {V} (x y : Z * V) : Prop := (x.1 ≤ y.1)%Z.
#[global] Instance key_le_dec {V} : RelDecision (@key_le V).
Proof. intros x y. unfold key_le. apply _. Defined.
#[global] Instance key_le_total {V} : Total (@key_le V).
Proof. intros x y. unfold key_le. lia. Qed.
#[global] Instance key_le_trans {V} : Transitive (@key_le V).
Proof. intros x y z. unfold key_le. lia. Qed.

Definition btree_iter {V} (m : gmap Z V) : list (Z * V) :=
  merge_sort key_le (map_to_list m).
Definition btree_keys {V} (m : gmap Z V) : list Z := (btree_iter m).*1.

(** [HashMap] iteration: an order fixed by the hasher, about which nothing is
    known but that every entry occurs once. *)
Class HashOrder := {
  hash_iter {K V : Type} `{Countable K} : gmap K V → list (K * V);
  hash_iter_perm {K V : Type} `{Countable K} (m : gmap K V) :
    hash_iter m ≡ₚ map_to_list m;
}.

(** The order used by concrete evaluations. *)
Definition map_order : HashOrder :=
  {| hash_iter K V _ _ m := map_to_list m;
     hash_iter_perm K V _ _ m := reflexivity _ |}.

Section maps.
Context {V : Type}.
Implicit Types (m : gmap Z V).

Lemma btree_iter_perm m : btree_iter m ≡ₚ map_to_list m.
Proof. apply merge_sort_Permutation. Qed.

Lemma btree_iter_sorted m : StronglySorted key_le (btree_iter m).
Proof. unfold btree_iter. by apply StronglySorted_merge_sort; apply _. Qed.

Lemma elem_of_btree_iter m k v : (k, v) ∈ btree_iter m ↔ m !! k = Some v.
Proof. by rewrite btree_iter_perm, elem_of_map_to_list. Qed.

(** The entries in strictly ascending order are the iteration. *)
Lemma btree_iter_unique m l :
  StronglySorted (λ x y : Z * V, x.1 < y.1)%Z l → (∀ k v, (k, v) ∈ l ↔ m !! k = Some v) → btree_iter m = l.
Proof.
  intros Hs Hl. assert (NoDup l) as Hnd.
  { clear Hl. induction Hs as [|x l Hs IH Hx]; constructor; [|done]. intros Hin. rewrite Forall_forall in Hx.
    specialize (Hx x Hin). lia. }
  assert (btree_iter m ≡ₚ l) as Hp.
  { apply NoDup_Permutation; [|done|].
    - rewrite btree_iter_perm. apply NoDup_map_to_list.
    - intros [k v]. by rewrite Hl, elem_of_btree_iter. }
  eapply (StronglySorted_unique_strong key_le); [|apply btree_iter_sorted| |exact Hp].
  - intros [k1 v1] [k2 v2] H1 H2 Hle Hge. unfold key_le in *. simpl in *. assert (k1 = k2) as <- by lia.
    rewrite elem_of_btree_iter in H1. apply Hl in H2. by simplify_eq.
  - clear -Hs. induction Hs as [|x l Hs IH Hx]; constructor; [done|]. eapply Forall_impl; [exact Hx|].
    intros y. unfold key_le. lia.
Qed.

Lemma btree_keys_perm m : btree_keys m ≡ₚ (map_to_list m).*1.
Proof. unfold btree_keys. by rewrite btree_iter_perm. Qed.

Lemma elem_of_btree_keys m k : k ∈ btree_keys m ↔ is_Some (m !! k).
Proof.
  unfold btree_keys. rewrite list_elem_of_fmap. split.
  - intros ([k' v] & -> & Hin%elem_of_btree_iter). by eexists.
  - intros [v Hv]. exists (k, v). by rewrite elem_of_btree_iter.
Qed.

Lemma NoDup_btree_keys m : NoDup (btree_keys m).
Proof. rewrite btree_keys_perm. apply NoDup_fst_map_to_list. Qed.

Lemma length_btree_keys m : length (btree_keys m) = size m.
Proof.
  unfold btree_keys.
  by rewrite length_fmap, (Permutation_length (btree_iter_perm m)), length_map_to_list.
Qed.

Lemma elem_of_hash_iter `{HashOrder} `{Countable K} (m : gmap K V) k v :
  (k, v) ∈ hash_iter m ↔ m !! k = Some v.
Proof. by rewrite hash_iter_perm, elem_of_map_to_list. Qed.

Lemma NoDup_fst_hash_iter `{HashOrder} `{Countable K} (m : gmap K V) :
  NoDup (hash_iter m).*1.
Proof. rewrite hash_iter_perm. apply NoDup_fst_map_to_list. Qed.
End maps.

(** Keys that are kept stay distinct. *)
Lemma NoDup_omap_fst {K V} (f : K * V → bool) (l : list (K * V)) :
  NoDup l.*1 → NoDup (omap (λ kv, if f kv then Some kv.1 else None) l).
Proof.
  induction l as [|[k v] l IH]; csimpl; [constructor|]. intros [Hk Hnd]%NoDup_cons.
  destruct (f (k, v)); simpl; [|by apply IH]. constructor; [|by apply IH].
  intros ([k' v'] & Hin & Hkv)%list_elem_of_omap. apply Hk. destruct (f (k', v')); simplify_eq/=.
  by apply (list_elem_of_fmap_2 fst _ (k, v')).
Qed.

(** * Sums of integers *)

Definition zsum (l : list Z) : Z := foldr Z.add 0%Z l.

Lemma zsum_nil : zsum [] = 0%Z.
Proof. done. Qed.

Lemma zsum_cons x l : zsum (x :: l) = (x + zsum l)%Z.
Proof. done. Qed.

#[global] Arguments zsum : simpl never.

#[global] Instance zsum_perm : Proper ((≡ₚ) ==> (=)) zsum.
Proof. induction 1; rewrite ?zsum_cons; lia. Qed.

Lemma zsum_app l k : zsum (l ++ k) = (zsum l + zsum k)%Z.
Proof. induction l; simpl; rewrite ?zsum_cons; [done|lia]. Qed.

Lemma zsum_nonneg l : Forall (λ z, 0 ≤ z)%Z l → (0 ≤ zsum l)%Z.
Proof. induction 1; rewrite ?zsum_cons; [done|lia]. Qed.

(** * Lists *)

(** The first element that repeats an earlier one:
    [iter().duplicates().next()] of itertools. *)
Fixpoint first_duplicate_aux `{EqDecision A} (seen l : list A) : option A :=
  match l with
  | [] => None
  | x :: l => if decide (x ∈ seen) then Some x else first_duplicate_aux (x :: seen) l
  end.
Definition first_duplicate `{EqDecision A} (l : list A) : option A :=
  first_duplicate_aux [] l.

(** [unique()] of itertools: the first of equal elements stays. *)
Fixpoint unique_from `{EqDecision A} (seen l : list A) : list A :=
  match l with
  | [] => []
  | x :: l => if bool_decide (x ∈ seen) then unique_from seen l else x :: unique_from (x :: seen) l
  end.
Definition unique `{EqDecision A} (l : list A) : list A := unique_from [] l.

Section lists.
Context {A : Type} `{EqDecision A}.
Implicit Types (l seen : list A).

Lemma unique_from_spec seen l :
  NoDup (unique_from seen l) ∧ ∀ x, x ∈ unique_from seen l ↔ x ∈ l ∧ x ∉ seen.
Proof.
  revert seen. induction l as [|x l IH]; intros seen; simpl; [split; [constructor|set_solver]|].
  case_bool_decide as Hx.
  - destruct (IH seen) as [Hnd Hs]. split; [done|]. set_solver.
  - destruct (IH (x :: seen)) as [Hnd Hs]. split.
    + constructor; [|done]. rewrite Hs. set_solver.
    + intros y. rewrite elem_of_cons, Hs. destruct (decide (y = x)); set_solver.
Qed.
Lemma NoDup_unique l : NoDup (unique l).
Proof. apply unique_from_spec. Qed.
Lemma elem_of_unique l x : x ∈ unique l ↔ x ∈ l.
Proof. unfold unique. rewrite (proj2 (unique_from_spec [] l) x). set_solver. Qed.

Lemma first_duplicate_aux_None seen l :
  first_duplicate_aux seen l = None ↔ NoDup l ∧ (∀ x, x ∈ l → x ∉ seen).
Proof.
  revert seen. induction l as [|x l IH]; intros seen; simpl.
  { split; [intros _; split; [constructor|set_solver]|done]. }
  case_decide as Hx; [set_solver|].
  rewrite IH, NoDup_cons. set_solver.
Qed.

Lemma first_duplicate_None l : first_duplicate l = None ↔ NoDup l.
Proof. unfold first_duplicate. rewrite first_duplicate_aux_None. set_solver. Qed.

Lemma first_duplicate_aux_Some seen l x :
  first_duplicate_aux seen l = Some x → x ∈ l ∧ ¬ (NoDup l ∧ (∀ y, y ∈ l → y ∉ seen)).
Proof.
  revert seen. induction l as [|y l IH]; intros seen; simpl; [done|].
  case_decide as Hy; intros Hx; [simplify_eq; set_solver|].
  apply IH in Hx as [? Hn]. split; [set_solver|].
  intros [[??]%NoDup_cons ?]. apply Hn. set_solver.
Qed.

Lemma first_duplicate_Some l x : first_duplicate l = Some x → x ∈ l ∧ ¬ NoDup l.
Proof. intros [? Hn]%first_duplicate_aux_Some. split; [done|]. set_solver. Qed.
End lists.

Lemma elem_of_concat_map {A B} (f : A → list B) l x : x ∈ concat (map f l) ↔ ∃ a, a ∈ l ∧ x ∈ f a.
Proof.
  rewrite list_elem_of_In, in_concat. setoid_rewrite in_map_iff. setoid_rewrite list_elem_of_In. naive_solver.
Qed.


(** ** Filtering and ordered lists *)

Lemma filter_ext_elem {A} (P Q : A → Prop) `{∀ x, Decision (P x), ∀ x, Decision (Q x)} (l : list A) :
  (∀ x, x ∈ l → P x ↔ Q x) → filter P l = filter Q l.
Proof.
  induction l as [|x l IH]; intros Hl; [done|]. rewrite !filter_cons.
  assert (P x ↔ Q x) by set_solver. rewrite IH by set_solver.
  repeat case_decide; tauto.
Qed.

Lemma filter_all {A} (P : A → Prop) `{∀ x, Decision (P x)} (l : list A) :
  (∀ x, x ∈ l → P x) → filter P l = l.
Proof.
  induction l as [|x l IH]; intros Hl; [done|].
  rewrite filter_cons_True by set_solver. f_equal. set_solver.
Qed.

Lemma last_sorted_max {V} (l : list (Z * V)) x :
  StronglySorted key_le l → last l = Some x → ∀ y, y ∈ l → (y.1 ≤ x.1)%Z.
Proof.
  intros Hs Hl. apply last_Some in Hl as [l' ->]. intros y [Hy| ->%list_elem_of_singleton]%elem_of_app; [|done].
  clear -Hs Hy. induction l' as [|z l' IH]; [set_solver|].
  inversion Hs as [|? ? Hss Hf]; subst. apply elem_of_cons in Hy as [->|Hy]; [|eauto].
  rewrite Forall_forall in Hf. apply (Hf x). set_solver.
Qed.

Lemma StronglySorted_filter_list {A} (R : relation A) (P : A → Prop) `{∀ x, Decision (P x)} l :
  StronglySorted R l → StronglySorted R (filter P l).
Proof.
  induction 1 as [|x l Hl IH Hx]; [constructor|]. rewrite filter_cons. case_decide; [|done].
  constructor; [done|]. apply Forall_forall. rewrite Forall_forall in Hx.
  intros y [_ Hy]%list_elem_of_filter. auto.
Qed.

Lemma filter_none {A} (P : A → Prop) `{∀ x, Decision (P x)} (l : list A) :
  (∀ x, x ∈ l → ¬ P x) → filter P l = [].
Proof.
  induction l as [|x l IH]; intros Hl; [done|].
  rewrite filter_cons_False by set_solver. set_solver.
Qed.

Lemma filter_fmap {A B} (f : A → B) (P : B → Prop) `{∀ x, Decision (P x)} (l : list A) :
  filter P (f <$> l) = f <$> filter (λ x, P (f x)) l.
Proof.
  induction l as [|x l IH]; [done|]. csimpl. rewrite !filter_cons, IH. by case_decide.
Qed.

#[global] Instance concat_perm {A} : Proper ((≡ₚ) ==> (≡ₚ)) (@concat A).
Proof.
  induction 1 as [|x l k _ IH|x y l|l1 l2 l3 _ IH1 _ IH2]; simpl; [done|by rewrite IH| |by trans (concat l2)].
  rewrite !(assoc_L (++)). apply Permutation_app_tail, Permutation_app_comm.
Qed.

(** ** Counting below a bound *)

(** The number of entries with a measure below [r]: what bounds a walk along
    which the measure decreases. *)
Definition count_below {V} (f : V → Z) (m : gmap Z V) (r : Z) : nat :=
  size (filter (λ kv : Z * V, (f kv.2 < r)%Z) m).

Lemma count_below_lt {V} (f : V → Z) (m : gmap Z V) k v r :
  m !! k = Some v → (f v < r)%Z → (count_below f m (f v) < count_below f m r)%nat.
Proof.
  intros Hv Hr. apply map_subset_size. split.
  - apply map_subseteq_spec. intros k' v'. rewrite !map_lookup_filter_Some. simpl. intros [? ?]. split; [done|lia].
  - intros Hsup. assert (filter (λ kv : Z * V, (f kv.2 < r)%Z) m !! k = Some v) as Hin
      by by rewrite map_lookup_filter_Some.
    eapply lookup_weaken in Hsup; [|exact Hin]. rewrite map_lookup_filter_Some in Hsup.
    destruct Hsup as [_ ?]. simpl in *. lia.
Qed.

Lemma count_below_size {V} (f : V → Z) (m : gmap Z V) k v :
  m !! k = Some v → (count_below f m (f v) < size m)%nat.
Proof.
  intros Hv. apply map_subset_size. split; [apply map_filter_subseteq|].
  intros Hsup. eapply lookup_weaken in Hsup; [|exact Hv]. rewrite map_lookup_filter_Some in Hsup.
  destruct Hsup as [_ ?]. simpl in *. lia.
Qed.

(** * Little-endian bytes *)

(** [to_le_bytes] of an unsigned integer of [n] bytes, and [from_le_bytes]. *)
Fixpoint to_le_bytes (n : nat) (z : Z) : list Z :=
  match n with
  | O => []
  | S n => (z mod 256)%Z :: to_le_bytes n (z / 256)%Z
  end.
Definition from_le_bytes (l : list Z) : Z := foldr (λ b acc, b + 256 * acc)%Z 0%Z l.

Lemma length_to_le_bytes n z : length (to_le_bytes n z) = n.
Proof. revert z. induction n; simpl; auto. Qed.

Lemma from_to_le_bytes n z : (0 <= z < 256 ^ Z.of_nat n)%Z → from_le_bytes (to_le_bytes n z) = z.
Proof.
  revert z. induction n as [|n IH]; intros z Hz; [simpl in *; lia|].
  rewrite Nat2Z.inj_succ, Z.pow_succ_r in Hz by lia. cbn [to_le_bytes from_le_bytes foldr].
  change (foldr _ _ (to_le_bytes n (z / 256))) with (from_le_bytes (to_le_bytes n (z / 256))).
  rewrite IH; [pose proof (Z.div_mod z 256); lia|].
  split; [apply Z.div_pos; lia|]. apply Z.div_lt_upper_bound; lia.
Qed.
