(* ===== verification/Types.v ===== *)
(** Scalar types of the protocol (src/monad-types/src/lib.rs): rounds,
    sequence numbers, epochs, stakes and round spans, at their machine width. *)

From S2P Require Import Prelude.

#[local] Open Scope Z_scope.

(** The newtypes over [u64], [U256], public keys and hashes; a public key or a
    hash is the integer its bytes spell, in the order of the bytes. *)
Notation Round := Z (only parsing).
Notation SeqNum := Z (only parsing).
Notation Epoch := Z (only parsing).
Notation Stake := Z (only parsing).
Notation NodeId := Z (only parsing).
Notation PubKey := Z (only parsing).
Notation BlockId := Z (only parsing).

Definition GENESIS_SEQ_NUM : SeqNum := 0.
Definition GENESIS_ROUND : Round := 0.
Definition GENESIS_BLOCK_ID : BlockId := 0.

(** ** Round *)
Definition Round_MIN : Round := 0.
Definition Round_MAX : Round := u64_max.
Definition round_add (a b : Round) : exec Round := checked_add u64_max a b.
Definition round_sub (a b : Round) : exec Round := checked_sub a b.

(** ** Epoch *)
Definition epoch_add (a b : Epoch) : exec Epoch := checked_add u64_max a b.

(** ** SeqNum *)
Definition SeqNum_MAX : SeqNum := u64_max.
Definition seq_num_add (a b : SeqNum) : exec SeqNum := checked_add u64_max a b.
Definition seq_num_sub (a b : SeqNum) : exec SeqNum := checked_sub a b.
Definition seq_num_div (a b : SeqNum) : exec SeqNum :=
  if bool_decide (b = 0) then Panic else Ret (a / b).
Definition seq_num_rem (a b : SeqNum) : exec SeqNum :=
  if bool_decide (b = 0) then Panic else Ret (a mod b).
Definition seq_num_saturating_add (a b : SeqNum) : SeqNum := saturating_add u64_max a b.

(** [(self.0 / epoch_length.0) + 1] on plain [u64]: division by zero panics,
    the addition wraps in a release build. *)
Definition to_epoch (n epoch_length : SeqNum) : exec Epoch :=
  if bool_decide (epoch_length = 0) then Panic
  else Ret ((n / epoch_length + 1) mod 2 ^ 64).

Definition is_epoch_end (n epoch_length : SeqNum) : exec bool :=
  r ← seq_num_rem n epoch_length;
  last ← seq_num_sub epoch_length 1;
  Ret (bool_decide (r = last)).

Definition get_locked_epoch (n epoch_length : SeqNum) : exec Epoch :=
  e ← is_epoch_end n epoch_length;
  _ ← assert e;
  ep ← to_epoch n epoch_length;
  epoch_add ep 1.

(** ** Stake *)
Definition Stake_ZERO : Stake := 0.
Definition stake_add (a b : Stake) : exec Stake := checked_add u256_max a b.
Definition stake_sub (a b : Stake) : exec Stake := checked_sub a b.

(** [impl Sum for Stake]: a checked left fold. *)
Definition stake_sum (l : list Stake) : exec Stake :=
  foldl (λ acc s, a ← acc; stake_add a s) (Ret Stake_ZERO) l.

(** ** RoundSpan *)
Record RoundSpan := mkRoundSpan { span_start : Round; span_end : Round }.

Definition round_span_new (start end_ : Round) : option RoundSpan :=
  if bool_decide (start >= end_) then None else Some (mkRoundSpan start end_).

Definition round_span_single (start : Round) : exec (option RoundSpan) :=
  if bool_decide (start >= Round_MAX) then Ret None
  else e ← round_add start 1; Ret (Some (mkRoundSpan start e)).

Definition round_span_contains (s : RoundSpan) (r : Round) : bool :=
  bool_decide (span_start s <= r) && bool_decide (r < span_end s).

Definition round_span_overlaps (s o : RoundSpan) : bool :=
  bool_decide (span_start s < span_end o) && bool_decide (span_start o < span_end s).

(** * Lemmas *)

Create HintDb monad discriminated.

Lemma round_add_Ret a b c : round_add a b = Ret c ↔ c = a + b ∧ a + b <= u64_max.
Proof. apply checked_add_Ret. Qed.

Lemma round_add_ok a b : a + b <= u64_max → round_add a b = Ret (a + b).
Proof. apply checked_add_ok. Qed.

Lemma seq_num_add_Ret a b c : seq_num_add a b = Ret c ↔ c = a + b ∧ a + b <= u64_max.
Proof. apply checked_add_Ret. Qed.

Lemma seq_num_sub_Ret a b c : seq_num_sub a b = Ret c ↔ c = a - b ∧ b <= a.
Proof. apply checked_sub_Ret. Qed.

Lemma epoch_add_Ret a b c : epoch_add a b = Ret c ↔ c = a + b ∧ a + b <= u64_max.
Proof. apply checked_add_Ret. Qed.

Lemma mapM_epoch_add (l : list Epoch) :
  Forall (λ e, e < u64_max) l → ∃ l', mapM (λ key, epoch_add key 1) l = Ret l'.
Proof.
  induction 1 as [|e l He Hl [l' IH]]; [by eexists|]. cbn [mapM].
  rewrite (checked_add_ok u64_max e 1 : _ → epoch_add e 1 = _) by lia. cbn. rewrite IH. cbn. eauto.
Qed.

Lemma mapM_epoch_add_panic (l : list Epoch) :
  ¬ Forall (λ e, e < u64_max) l → mapM (λ key, epoch_add key 1) l = Panic.
Proof.
  induction l as [|e l IH]; intros Hl; [by destruct Hl|]. cbn [mapM]. unfold epoch_add, checked_add. case_bool_decide as He; [|done].
  cbn [mbind exec_bind]. unfold epoch_add, checked_add in IH. rewrite IH; [done|]. intros Hf. apply Hl. constructor; [lia|done].
Qed.

Lemma to_epoch_ok n len :
  0 <= n < u64_max → 0 < len → to_epoch n len = Ret (n / len + 1).
Proof.
  intros Hn Hlen. unfold to_epoch. rewrite bool_decide_false by lia.
  f_equal. apply Z.mod_small. split.
  - pose proof (Z.div_pos n len). lia.
  - pose proof (Z.div_le_upper_bound n len n). unfold u64_max in *. nia.
Qed.

Lemma is_epoch_end_ok n len :
  0 < len → is_epoch_end n len = Ret (bool_decide (n mod len = len - 1)).
Proof.
  intros Hlen. unfold is_epoch_end, seq_num_rem.
  rewrite bool_decide_false by lia. simpl.
  unfold seq_num_sub, checked_sub. by rewrite bool_decide_true by lia.
Qed.

(** The checked sum of stakes is the integer sum, if that fits. *)
Lemma stake_sum_ok l :
  Forall (λ s, 0 <= s) l → zsum l <= u256_max → stake_sum l = Ret (zsum l).
Proof.
  intros Hl Hmax. unfold stake_sum, Stake_ZERO.
  enough (∀ a, 0 <= a → a + zsum l <= u256_max →
    foldl (λ acc s, a ← acc; stake_add a s) (Ret a) l = Ret (a + zsum l)) as H.
  { by rewrite H by lia. }
  clear Hmax. induction Hl as [|s l Hs Hl IH]; intros a Ha Hmax; simpl in *.
  - rewrite zsum_nil. f_equal. lia.
  - rewrite zsum_cons in *. pose proof (zsum_nonneg l Hl). unfold stake_add at 2.
    rewrite checked_add_ok by lia. rewrite IH by lia. f_equal. lia.
Qed.

(** * Properties *)

(** Epochs cut the sequence numbers into consecutive blocks of
    [epoch_length]: the epoch number advances from [n] to [n + 1] exactly when
    [n] is the boundary block, and [get_locked_epoch] of a boundary block is the
    epoch of its successor. *)
Theorem epoch_boundary (n len : SeqNum)
    (Hn : 0 <= n < u64_max - 1) (Hlen : 0 < len <= u64_max) :
  ∃ e, to_epoch n len = Ret e ∧
    (e - 1) * len <= n < e * len ∧
    to_epoch (n + 1) len = Ret (if bool_decide (n mod len = len - 1) then e + 1 else e) ∧
    is_epoch_end n len = Ret (bool_decide (n mod len = len - 1)) ∧
    get_locked_epoch n len =
      (if bool_decide (n mod len = len - 1) then Ret (e + 1) else Panic).
Proof.
  exists (n / len + 1).
  assert (Hdiv : (n + 1) / len = n / len + if bool_decide (n mod len = len - 1) then 1 else 0).
  { pose proof (Z.div_mod n len). pose proof (Z.mod_pos_bound n len).
    case_bool_decide.
    - symmetry. apply (Z.div_unique _ _ _ 0); lia.
    - symmetry. apply (Z.div_unique _ _ _ (n mod len + 1)); lia. }
  assert (Hle : n / len <= n) by (apply Z.div_le_upper_bound; nia).
  pose proof (Z.div_mod n len). pose proof (Z.mod_pos_bound n len).
  split_and!.
  - apply to_epoch_ok; lia.
  - nia.
  - nia.
  - rewrite to_epoch_ok, Hdiv by lia. f_equal. case_bool_decide; lia.
  - apply is_epoch_end_ok. lia.
  - unfold get_locked_epoch. rewrite is_epoch_end_ok by lia.
    case_bool_decide; simpl; [|done].
    rewrite to_epoch_ok by lia. simpl. unfold epoch_add.
    rewrite checked_add_ok by lia. done.
Qed.

Lemma epoch_boundary_witness :
  ∃ e, to_epoch 99 100 = Ret e ∧ (e - 1) * 100 <= 99 < e * 100 ∧
    to_epoch 100 100 = Ret (e + 1) ∧ is_epoch_end 99 100 = Ret true ∧
    get_locked_epoch 99 100 = Ret (e + 1).
Proof.
  apply (epoch_boundary 99 100); unfold u64_max; lia.
Defined.

(** Two spans overlap exactly when some round lies in both, for spans built
    by [RoundSpan::new]. *)
Theorem round_span_overlaps_spec (a b c d : Round) (s o : RoundSpan)
    (Hs : round_span_new a b = Some s) (Ho : round_span_new c d = Some o) :
  round_span_overlaps s o = true ↔
  ∃ r, round_span_contains s r = true ∧ round_span_contains o r = true.
Proof.
  unfold round_span_new in *. repeat case_bool_decide; simplify_eq.
  unfold round_span_overlaps, round_span_contains; simpl.
  setoid_rewrite andb_true_iff. setoid_rewrite bool_decide_eq_true.
  split; [|intros (r & ? & ?); lia].
  intros. exists (Z.max a c). lia.
Qed.

Lemma round_span_overlaps_spec_witness :
  round_span_overlaps (mkRoundSpan 1 5) (mkRoundSpan 4 9) = true ↔
  ∃ r, round_span_contains (mkRoundSpan 1 5) r = true ∧
       round_span_contains (mkRoundSpan 4 9) r = true.
Proof. apply (round_span_overlaps_spec 1 5 4 9); reflexivity. Defined.
