(* ===== verification/ValidatorSet.v ===== *)
(** Validator sets and their quorums (src/monad-validator/src/validator_set.rs,
    validator_mapping.rs, validators_epoch_mapping.rs). *)

From S2P Require Import Prelude Types.

#[local] Open Scope Z_scope.

Inductive ValidatorSetError :=
| DuplicateValidator (node_id : NodeId).

#[global] Instance ValidatorSetError_eq_dec : EqDecision ValidatorSetError.
Proof. solve_decision. Defined.

(** * The interface of a validator set *)

(** [trait ValidatorSetType]: the operations the consensus components use. *)
Class ValidatorSetType (VT : Type) := {
  get_members : VT → gmap NodeId Stake;
  get_total_stake : VT → Stake;
  has_super_majority_votes : VT → list NodeId → exec (result bool ValidatorSetError);
  has_honest_vote : VT → list NodeId → exec (result bool ValidatorSetError);
}.

(** What a well-formed set promises its users: on distinct addresses both
    thresholds are decided without error or panic, and they are strict two
    thirds and one third of the total stake. *)
Class ValidatorSetLaws (VT : Type) `{ValidatorSetType VT} := {
  vs_wf : VT → Prop;
  vs_weight : VT → list NodeId → Z;
  has_super_majority_votes_spec vs l :
    vs_wf vs → NoDup l →
    has_super_majority_votes vs l =
      Ret (Ok (bool_decide (2 * get_total_stake vs < 3 * vs_weight vs l)));
  has_honest_vote_spec vs l :
    vs_wf vs → NoDup l →
    has_honest_vote vs l =
      Ret (Ok (bool_decide (get_total_stake vs < 3 * vs_weight vs l)));
  vs_weight_perm vs : Proper ((≡ₚ) ==> (=)) (vs_weight vs);
  vs_weight_nil vs : vs_weight vs [] = 0;
  vs_total_nonneg vs : vs_wf vs → 0 <= get_total_stake vs;
  vs_weight_app vs l k : vs_weight vs (l ++ k) = vs_weight vs l + vs_weight vs k;
  vs_weight_bound vs l : vs_wf vs → NoDup l → 0 <= vs_weight vs l <= get_total_stake vs;
}.

(** * The implementation *)

Record ValidatorSet := mkValidatorSet {
  validators : gmap NodeId Stake;
  total_stake : Stake;
}.

(** The loop of [ValidatorSetFactory::create]. *)
Fixpoint create_loop (vs : list (NodeId * Stake)) (vmap : gmap NodeId Stake)
    (total : Stake) : exec (result ValidatorSet ValidatorSetError) :=
  match vs with
  | [] => Ret (Ok (mkValidatorSet vmap total))
  | (node_id, stake) :: vs =>
      match vmap !! node_id with
      | Some _ => Ret (Err (DuplicateValidator node_id))
      | None =>
          total' ← stake_add total stake;
          create_loop vs (<[node_id := stake]> vmap) total'
      end
  end.

Definition create (vs : list (NodeId * Stake)) :
    exec (result ValidatorSet ValidatorSetError) :=
  create_loop vs ∅ Stake_ZERO.

Definition len (vs : ValidatorSet) : nat := size (validators vs).
Definition is_empty (vs : ValidatorSet) : bool := bool_decide (validators vs = ∅).
Definition is_member (vs : ValidatorSet) (addr : NodeId) : bool :=
  bool_decide (is_Some (validators vs !! addr)).

Definition calculate_current_stake (vs : ValidatorSet) (addrs : list NodeId) :
    exec (result Stake ValidatorSetError) :=
  match first_duplicate addrs with
  | Some node => Ret (Err (DuplicateValidator node))
  | None => s ← stake_sum (omap (λ a, validators vs !! a) addrs); Ret (Ok s)
  end.

Definition has_threshold_votes (vs : ValidatorSet) (addrs : list NodeId)
    (threshold : Stake) : exec (result bool ValidatorSetError) :=
  voter_stake <-? calculate_current_stake vs addrs;
  Ret (Ok (bool_decide (threshold <= voter_stake))).

(** [U256] arithmetic wraps. *)
Definition super_majority_threshold (total : Stake) : Stake :=
  (total * 2 mod 2 ^ 256 / 3 + 1) mod 2 ^ 256.
Definition honest_threshold (total : Stake) : Stake :=
  (total / 3 + 1) mod 2 ^ 256.

#[global] Instance ValidatorSet_type : ValidatorSetType ValidatorSet := {|
  get_members := validators;
  get_total_stake := total_stake;
  has_super_majority_votes vs addrs :=
    has_threshold_votes vs addrs (super_majority_threshold (total_stake vs));
  has_honest_vote vs addrs :=
    has_threshold_votes vs addrs (honest_threshold (total_stake vs));
|}.

(** * ValidatorMapping and ValidatorsEpochMapping *)

Record ValidatorMapping := mkValidatorMapping { mapping : gmap NodeId PubKey }.

#[global] Instance ValidatorMapping_eq_dec : EqDecision ValidatorMapping.
Proof. solve_decision. Defined.

(** Collecting into a [BTreeMap]: a later pair with the same key replaces. *)
Definition validator_mapping_new (l : list (NodeId * PubKey)) : ValidatorMapping :=
  mkValidatorMapping (foldl (λ m kv, <[kv.1 := kv.2]> m) ∅ l).

Section epoch_mapping.
Context {VT : Type} `{ValidatorSetType VT}.
(** [VTF::create] *)
Context (factory : list (NodeId * Stake) → exec (result VT ValidatorSetError)).

Record ValidatorsEpochMapping := mkValidatorsEpochMapping {
  validator_map : gmap Epoch (VT * ValidatorMapping);
}.

Definition validators_epoch_mapping_new : ValidatorsEpochMapping :=
  mkValidatorsEpochMapping ∅.

Definition get_val_set (m : ValidatorsEpochMapping) (epoch : Epoch) : option VT :=
  fst <$> validator_map m !! epoch.

Definition get_cert_pubkeys (m : ValidatorsEpochMapping) (epoch : Epoch) :
    option ValidatorMapping :=
  snd <$> validator_map m !! epoch.

Definition epoch_mapping_insert (m : ValidatorsEpochMapping) (epoch : Epoch)
    (val_stakes : list (NodeId * Stake)) (val_cert_pubkeys : ValidatorMapping) :
    exec ValidatorsEpochMapping :=
  created ← factory val_stakes;
  match created with
  | Err _ => Panic
  | Ok vset =>
      match validator_map m !! epoch with
      | None =>
          Ret (mkValidatorsEpochMapping
                 (<[epoch := (vset, val_cert_pubkeys)]> (validator_map m)))
      | Some (old_set, old_mapping) =>
          _ ← assert (bool_decide (get_members old_set = get_members vset));
          _ ← assert (bool_decide (mapping old_mapping = mapping val_cert_pubkeys));
          Ret m
      end
  end.
End epoch_mapping.
Arguments ValidatorsEpochMapping : clear implicits.

(** * Stake behind a list of addresses *)

Definition stake_at (m : gmap NodeId Stake) (a : NodeId) : Z := default 0 (m !! a).
Definition stake_of (m : gmap NodeId Stake) (l : list NodeId) : Z :=
  zsum (stake_at m <$> l).
Definition stake_total (m : gmap NodeId Stake) : Z := zsum (map_to_list m).*2.

(** A set as [create] builds it, below the stake at which [2 * total] wraps. *)
Definition validator_set_wf (vs : ValidatorSet) : Prop :=
  map_Forall (λ _ s, 0 <= s) (validators vs) ∧
  total_stake vs = stake_total (validators vs) ∧
  total_stake vs < 2 ^ 255.

Section stake.
Implicit Types (m : gmap NodeId Stake) (l k : list NodeId).

#[global] Instance stake_of_perm m : Proper ((≡ₚ) ==> (=)) (stake_of m).
Proof. intros l k Hlk. unfold stake_of. by rewrite Hlk. Qed.

Lemma stake_of_app m l k : stake_of m (l ++ k) = stake_of m l + stake_of m k.
Proof. unfold stake_of. rewrite fmap_app. apply zsum_app. Qed.

Lemma stake_of_cons m a l : stake_of m (a :: l) = stake_at m a + stake_of m l.
Proof. done. Qed.

Lemma stake_of_omap m l : zsum (omap (λ a, m !! a) l) = stake_of m l.
Proof.
  induction l as [|a l IH]; [done|]. rewrite stake_of_cons. csimpl.
  unfold stake_at. destruct (m !! a); simpl; rewrite ?zsum_cons, IH; lia.
Qed.

Lemma stake_at_nonneg m a : map_Forall (λ _ s, 0 <= s) m → 0 <= stake_at m a.
Proof. intros Hm. unfold stake_at. destruct (m !! a) eqn:Ha; simpl; [by eapply Hm|lia]. Qed.

Lemma stake_of_nonneg m l : map_Forall (λ _ s, 0 <= s) m → 0 <= stake_of m l.
Proof.
  intros Hm. induction l as [|a l IH]; [done|].
  rewrite stake_of_cons. pose proof (stake_at_nonneg m a Hm). lia.
Qed.

Lemma stake_of_ext m m' l :
  (∀ a, a ∈ l → m !! a = m' !! a) → stake_of m l = stake_of m' l.
Proof.
  induction l as [|a l IH]; intros Hm; [done|]. rewrite !stake_of_cons.
  unfold stake_at. rewrite Hm, IH; set_solver.
Qed.

Lemma stake_total_nonneg m : map_Forall (λ _ s, 0 <= s) m → 0 <= stake_total m.
Proof.
  intros Hm. apply zsum_nonneg, Forall_forall.
  intros s ([a s'] & -> & Ha%elem_of_map_to_list)%list_elem_of_fmap. by eapply Hm.
Qed.

Lemma stake_total_delete m a :
  stake_total m = stake_at m a + stake_total (delete a m).
Proof.
  unfold stake_total, stake_at. destruct (m !! a) as [s|] eqn:Ha; simpl.
  - by rewrite <-(map_to_list_delete m a s Ha).
  - by rewrite delete_id.
Qed.

Lemma stake_total_insert m a s :
  m !! a = None → stake_total (<[a:=s]> m) = s + stake_total m.
Proof. intros Ha. unfold stake_total. by rewrite map_to_list_insert. Qed.

(** Distinct addresses hold at most the total stake. *)
Lemma stake_of_le_total m l :
  map_Forall (λ _ s, 0 <= s) m → NoDup l → stake_of m l <= stake_total m.
Proof.
  intros Hm Hl. revert m Hm. induction Hl as [|a l Ha Hl IH]; intros m Hm.
  { by apply stake_total_nonneg. }
  rewrite stake_of_cons, (stake_total_delete m a).
  rewrite (stake_of_ext m (delete a m)).
  - pose proof (IH (delete a m)) as HIH.
    pose proof (map_Forall_delete _ m a Hm). naive_solver lia.
  - intros b Hb. rewrite lookup_delete_ne; set_solver.
Qed.
End stake.

(** * The implementation meets its interface *)

Lemma calculate_current_stake_ok vs l :
  validator_set_wf vs → NoDup l →
  calculate_current_stake vs l = Ret (Ok (stake_of (validators vs) l)).
Proof.
  intros (Hpos & Htot & Hmax) Hl. unfold calculate_current_stake.
  apply first_duplicate_None in Hl as Hfd. rewrite Hfd.
  rewrite stake_sum_ok, stake_of_omap; [done| |].
  - apply Forall_forall. intros s (a & _ & Ha)%list_elem_of_omap. by eapply Hpos.
  - rewrite stake_of_omap. pose proof (stake_of_le_total (validators vs) l Hpos Hl).
    unfold u256_max. lia.
Qed.

Lemma super_majority_threshold_spec total w :
  0 <= total < 2 ^ 255 →
  super_majority_threshold total <= w ↔ 2 * total < 3 * w.
Proof.
  intros Ht. unfold super_majority_threshold.
  rewrite (Z.mod_small (total * 2)) by lia.
  assert (0 <= total * 2 / 3 < 2 ^ 255) by dlia.
  rewrite Z.mod_small by lia. dlia.
Qed.

Lemma honest_threshold_spec total w :
  0 <= total < 2 ^ 255 → honest_threshold total <= w ↔ total < 3 * w.
Proof.
  intros Ht. unfold honest_threshold.
  assert (0 <= total / 3 < 2 ^ 255) by dlia.
  rewrite Z.mod_small by lia. dlia.
Qed.

#[global] Instance ValidatorSet_laws : ValidatorSetLaws ValidatorSet.
Proof.
  refine {| vs_wf := validator_set_wf; vs_weight vs := stake_of (validators vs) |}.
  - intros vs l Hwf Hl. simpl. unfold has_threshold_votes.
    rewrite calculate_current_stake_ok by done. simpl. do 2 f_equal.
    apply bool_decide_ext, super_majority_threshold_spec.
    destruct Hwf as (Hpos & -> & ?). pose proof (stake_total_nonneg _ Hpos). lia.
  - intros vs l Hwf Hl. simpl. unfold has_threshold_votes.
    rewrite calculate_current_stake_ok by done. simpl. do 2 f_equal.
    apply bool_decide_ext, honest_threshold_spec.
    destruct Hwf as (Hpos & -> & ?). pose proof (stake_total_nonneg _ Hpos). lia.
  - done.
  - intros vs (Hpos & Ht & _). simpl. rewrite Ht. by apply stake_total_nonneg.
  - intros. apply stake_of_app.
  - intros vs l (Hpos & Ht & _) Hl. simpl. rewrite Ht. split.
    + by apply stake_of_nonneg.
    + by apply stake_of_le_total.
Defined.

Lemma create_loop_ok vs vmap total :
  map_Forall (λ _ s, 0 <= s) vmap → total = stake_total vmap →
  NoDup vs.*1 → (∀ a, a ∈ vs.*1 → vmap !! a = None) →
  Forall (λ x, 0 <= x.2) vs → total + zsum vs.*2 <= u256_max →
  ∃ vset, create_loop vs vmap total = Ret (Ok vset) ∧
    map_Forall (λ _ s, 0 <= s) (validators vset) ∧
    total_stake vset = stake_total (validators vset) ∧
    total_stake vset = total + zsum vs.*2 ∧
    (∀ a s, validators vset !! a = Some s ↔ vmap !! a = Some s ∨ (a, s) ∈ vs).
Proof.
  revert vmap total. induction vs as [|[a s] vs IH]; intros vmap total Hpos Ht Hnd Hnew Hs Hmax.
  { exists (mkValidatorSet vmap total). csimpl. rewrite zsum_nil.
    split_and!; [done..|lia|]. intros. set_solver. }
  csimpl in *. rewrite zsum_cons in *. apply NoDup_cons in Hnd as [Ha Hnd]. apply Forall_cons in Hs as [Hs0 Hs].
  assert (0 <= zsum vs.*2) as Hz by (apply zsum_nonneg, Forall_fmap; done).
  rewrite Hnew by set_solver. unfold stake_add.
  rewrite checked_add_ok by (simpl in *; lia). simpl in *.
  destruct (IH (<[a:=s]> vmap) (total + s)) as (vset & -> & ? & ? & ? & Hin).
  - by apply map_Forall_insert_2.
  - rewrite stake_total_insert by (apply Hnew; set_solver). lia.
  - done.
  - intros b Hb. rewrite lookup_insert_ne by set_solver. apply Hnew. set_solver.
  - done.
  - lia.
  - exists vset. split_and!; [done..|lia|]. intros b t. rewrite Hin, elem_of_cons.
    assert (vmap !! a = None) by (apply Hnew; set_solver).
    destruct (decide (a = b)) as [<-|Hab]; simplify_map_eq; naive_solver.
Qed.

Lemma create_loop_dup vs vmap total e :
  create_loop vs vmap total = Ret (Err e) →
  ∃ a, e = DuplicateValidator a ∧ a ∈ vs.*1 ∧ (¬ NoDup vs.*1 ∨ is_Some (vmap !! a)).
Proof.
  revert vmap total. induction vs as [|[a s] vs IH]; intros vmap total; [done|].
  simpl. destruct (vmap !! a) eqn:Ha.
  { intros. exec_inv. exists a. split_and!; [done|set_solver|eauto]. }
  intros He. exec_inv. apply IH in He as (b & -> & Hb & Hor).
  exists b. split_and!; [done|set_solver|].
  destruct (decide (a = b)) as [<-|Hab].
  - left. rewrite NoDup_cons. naive_solver.
  - rewrite lookup_insert_ne in Hor by done. rewrite NoDup_cons. naive_solver.
Qed.

(** * Quorums, against the interface *)

Section quorum.
Context {VT : Type} `{ValidatorSetLaws VT}.
Implicit Types (vs : VT) (l k : list NodeId).

Lemma vs_weight_partition vs l (P : NodeId → Prop) `{∀ x, Decision (P x)} :
  vs_weight vs l =
    vs_weight vs (filter P l) + vs_weight vs (filter (λ x, ¬ P x) l).
Proof.
  rewrite <-vs_weight_app. apply vs_weight_perm.
  induction l as [|x l IH]; [done|]. rewrite !filter_cons.
  case_decide; [rewrite decide_False by tauto|rewrite decide_True by done]; simpl.
  - by constructor.
  - rewrite <-Permutation_middle. by constructor.
Qed.

(** Inclusion-exclusion: what two lists of distinct validators share. *)
Lemma vs_weight_common vs l k :
  vs_wf vs → NoDup l → NoDup k →
  vs_weight vs l + vs_weight vs k <=
    get_total_stake vs + vs_weight vs (filter (.∈ k) l).
Proof.
  intros Hwf Hl Hk. rewrite (vs_weight_partition vs l (.∈ k)).
  enough (vs_weight vs (filter (λ x, x ∉ k) l ++ k) <= get_total_stake vs) as Hle.
  { rewrite vs_weight_app in Hle. lia. }
  apply vs_weight_bound; [done|]. apply NoDup_app. split_and!; [|by intros x [? ?]%list_elem_of_filter|done].
  by apply NoDup_filter.
Qed.

Lemma vs_weight_mono vs l k :
  vs_wf vs → NoDup l → NoDup k → l ⊆ k → vs_weight vs l <= vs_weight vs k.
Proof.
  intros Hwf Hl Hk Hlk. rewrite (vs_weight_partition vs k (.∈ l)).
  assert (filter (.∈ l) k ≡ₚ l) as Hp.
  { apply NoDup_Permutation; [by apply NoDup_filter|done|].
    intros x. rewrite list_elem_of_filter. set_solver. }
  rewrite (vs_weight_perm vs _ _ Hp).
  pose proof (vs_weight_bound vs (filter (λ x, x ∉ l) k) Hwf) as Hb.
  pose proof (NoDup_filter (λ x, x ∉ l) k Hk). naive_solver lia.
Qed.

Lemma super_majority_weight vs l :
  vs_wf vs → NoDup l → has_super_majority_votes vs l = Ret (Ok true) →
  2 * get_total_stake vs < 3 * vs_weight vs l.
Proof.
  intros Hwf Hl Hq. rewrite has_super_majority_votes_spec in Hq by done.
  injection Hq as Hq. by apply bool_decide_eq_true in Hq.
Qed.

(** Two super majorities share validators that a coalition without an honest
    vote cannot contain. *)
Lemma quorum_intersection vs l k byz :
  vs_wf vs → NoDup l → NoDup k → NoDup byz →
  has_super_majority_votes vs l = Ret (Ok true) →
  has_super_majority_votes vs k = Ret (Ok true) →
  has_honest_vote vs byz = Ret (Ok false) →
  has_honest_vote vs (filter (.∈ k) l) = Ret (Ok true) ∧
  ∃ a, a ∈ l ∧ a ∈ k ∧ a ∉ byz.
Proof.
  intros Hwf Hl Hk Hb Hlq%super_majority_weight Hkq%super_majority_weight Hbq; [|done..].
  rewrite has_honest_vote_spec in Hbq by done.
  injection Hbq as Hbq. apply bool_decide_eq_false in Hbq.
  pose proof (NoDup_filter (.∈ k) l Hl) as Hf.
  pose proof (vs_weight_common vs l k Hwf Hl Hk) as Hc.
  rewrite has_honest_vote_spec by done.
  split; [by rewrite bool_decide_true by lia|].
  destruct (decide (Forall (.∈ byz) (filter (.∈ k) l))) as [Hall|Hex].
  - rewrite Forall_forall in Hall.
    pose proof (vs_weight_mono vs _ byz Hwf Hf Hb Hall). lia.
  - apply not_Forall_Exists, Exists_exists in Hex as (a & Ha & Hn); [|apply _].
    exists a. apply list_elem_of_filter in Ha. naive_solver.
Qed.
End quorum.

(** The queries answer only on distinct addresses. *)
Lemma has_threshold_votes_NoDup vs l t b :
  has_threshold_votes vs l t = Ret (Ok b) → NoDup l.
Proof.
  intros Hq. unfold has_threshold_votes, calculate_current_stake in Hq.
  destruct (first_duplicate l) eqn:E; exec_inv. by apply first_duplicate_None.
Qed.

(** * Properties *)

(** C19. Quorum intersection: two lists of distinct validators that both pass
    [has_super_majority_votes] share validators that pass [has_honest_vote]; so a
    coalition that fails [has_honest_vote] does not contain what they share. *)
Theorem super_majorities_intersect (vs : ValidatorSet) (l k byz : list NodeId)
    (Hwf : validator_set_wf vs)
    (Hl : has_super_majority_votes vs l = Ret (Ok true))
    (Hk : has_super_majority_votes vs k = Ret (Ok true))
    (Hbyz : has_honest_vote vs byz = Ret (Ok false)) :
  has_honest_vote vs (filter (.∈ k) l) = Ret (Ok true) ∧
  ∃ a, a ∈ l ∧ a ∈ k ∧ a ∉ byz.
Proof.
  apply (quorum_intersection vs l k byz); try done.
  - exact (has_threshold_votes_NoDup _ _ _ _ Hl).
  - exact (has_threshold_votes_NoDup _ _ _ _ Hk).
  - exact (has_threshold_votes_NoDup _ _ _ _ Hbyz).
Qed.

(** Four validators of equal stake. *)
Definition four_validators : ValidatorSet :=
  mkValidatorSet {[ 1 := 1; 2 := 1; 3 := 1; 4 := 1 ]} 4.

Lemma four_validators_wf : validator_set_wf four_validators.
Proof. split_and!; [|reflexivity|done]. by apply (bool_decide_unpack _). Qed.

Lemma super_majorities_intersect_witness :
  has_honest_vote four_validators (filter (.∈ [2; 3; 4]) [1; 2; 3]) = Ret (Ok true) ∧
  ∃ a, a ∈ [1; 2; 3] ∧ a ∈ [2; 3; 4] ∧ a ∉ [2].
Proof.
  apply (super_majorities_intersect four_validators [1; 2; 3] [2; 3; 4] [2]);
    [apply four_validators_wf|vm_compute; reflexivity..].
Defined.

(** [ValidatorSetFactory::create] on distinct validators whose stakes sum
    below 2^255 returns a well-formed set with exactly these validators; on a
    list with a repeated validator it returns [DuplicateValidator], or panics if
    the stakes read before the repetition overflow. *)
Theorem create_correct (l : list (NodeId * Stake))
    (Hpos : Forall (λ x, 0 <= x.2) l) :
  (NoDup l.*1 → zsum l.*2 < 2 ^ 255 →
    ∃ vs, create l = Ret (Ok vs) ∧ validator_set_wf vs ∧
      total_stake vs = zsum l.*2 ∧
      (∀ a s, validators vs !! a = Some s ↔ (a, s) ∈ l)) ∧
  (∀ e, create l = Ret (Err e) → ¬ NoDup l.*1 ∧ ∃ a, e = DuplicateValidator a ∧ a ∈ l.*1).
Proof.
  split.
  - intros Hnd Hmax.
    destruct (create_loop_ok l ∅ 0) as (vs & Hc & Hp & Ht & Hz & Hin);
      [done|done|done|done|done|unfold u256_max; lia|].
    exists vs. split_and!; [done| |lia|].
    + split_and!; [done..|lia].
    + intros a s. rewrite Hin. set_solver.
  - intros e (a & -> & Ha & [Hn|[? Hx]])%create_loop_dup; [|done]. eauto.
Qed.

Lemma create_correct_witness :
  (NoDup [1; 2] → zsum [5; 7] < 2 ^ 255 →
    ∃ vs, create [(1, 5); (2, 7)] = Ret (Ok vs) ∧ validator_set_wf vs ∧
      total_stake vs = 12 ∧
      (∀ a s, validators vs !! a = Some s ↔ (a, s) ∈ [(1, 5); (2, 7)])) ∧
  (∀ e, create [(1, 5); (2, 7)] = Ret (Err e) →
    ¬ NoDup [1; 2] ∧ ∃ a, e = DuplicateValidator a ∧ a ∈ [1; 2]).
Proof. apply (create_correct [(1, 5); (2, 7)]). repeat constructor; simpl; lia. Defined.

(** On consensus restart the same validator set may be inserted again:
    [ValidatorsEpochMapping::insert] of an epoch already present either changes
    nothing or panics, and never replaces the set an epoch has. *)
Theorem epoch_mapping_insert_stable
    (m m' : ValidatorsEpochMapping ValidatorSet) (e e' : Epoch)
    (stakes : list (NodeId * Stake)) (vm : ValidatorMapping) (v : ValidatorSet)
    (Hins : epoch_mapping_insert create m e stakes vm = Ret m')
    (Hold : get_val_set m e' = Some v) :
  get_val_set m' e' = Some v ∧ get_cert_pubkeys m' e' = get_cert_pubkeys m e' ∧
  is_Some (get_val_set m' e).
Proof.
  unfold epoch_mapping_insert in Hins. exec_inv.
  destruct a as [vset|]; [|done]. unfold get_val_set, get_cert_pubkeys in *.
  destruct (validator_map m !! e) as [[os om]|] eqn:He.
  - exec_inv. rewrite He. eauto.
  - injection Hins as <-. simpl.
    destruct (decide (e = e')) as [->|Hne]; [by rewrite He in Hold|].
    rewrite lookup_insert_eq, lookup_insert_ne by done. eauto.
Qed.

Lemma epoch_mapping_insert_stable_witness :
  let m := mkValidatorsEpochMapping {[ 1 := (four_validators, mkValidatorMapping ∅) ]} in
  let m' := mkValidatorsEpochMapping
    {[ 1 := (four_validators, mkValidatorMapping ∅);
       2 := (mkValidatorSet {[ 9 := 3 ]} 3, mkValidatorMapping ∅) ]} in
  get_val_set m' 1 = Some four_validators ∧ get_cert_pubkeys m' 1 = get_cert_pubkeys m 1 ∧
  is_Some (get_val_set m' 2).
Proof.
  apply (epoch_mapping_insert_stable _ _ 2 1 [(9, 3)] (mkValidatorMapping ∅));
    vm_compute; reflexivity.
Defined.
