(* ===== verification/EpochManager.v ===== *)
(** Epoch starts (src/monad-validator/src/epoch_manager.rs). *)

From S2P Require Import Prelude Types.

#[local] Open Scope Z_scope.

Record EpochManager := mkEpochManager {
  epoch_length : SeqNum;
  epoch_start_delay : Round;
  epoch_starts : gmap Epoch Round;
}.

Definition set_epoch_starts (em : EpochManager) (s : gmap Epoch Round) : EpochManager :=
  mkEpochManager (epoch_length em) (epoch_start_delay em) s.

Definition insert_epoch_start (em : EpochManager) (epoch : Epoch) (round : Round) :
    exec EpochManager :=
  match epoch_starts em !! epoch with
  | None => Ret (set_epoch_starts em (<[epoch := round]> (epoch_starts em)))
  | Some r => _ ← assert (bool_decide (r = round)); Ret em
  end.

Definition epoch_manager_new (epoch_length : SeqNum) (epoch_start_delay : Round)
    (known_epochs : list (Epoch * Round)) : exec EpochManager :=
  foldl (λ acc er, em ← acc; insert_epoch_start em er.1 er.2)
    (Ret (mkEpochManager epoch_length epoch_start_delay ∅)) known_epochs.

Definition schedule_epoch_start (em : EpochManager) (block_num : SeqNum)
    (block_round : Round) : exec EpochManager :=
  is_end ← is_epoch_end block_num (epoch_length em);
  if is_end : bool then
    ep ← to_epoch block_num (epoch_length em);
    next_epoch ← epoch_add ep 1;
    epoch_start_round ← round_add block_round (epoch_start_delay em);
    insert_epoch_start em next_epoch epoch_start_round
  else Ret em.

(** [iter().rfind(..)]: the last entry, in epoch order, started by [round]. *)
Definition get_epoch (em : EpochManager) (round : Round) : option Epoch :=
  fst <$> last (filter (λ er : Epoch * Round, er.2 <= round) (btree_iter (epoch_starts em))).

(** * Lemmas *)

(** [get_epoch] is the greatest epoch that has started. *)
Lemma get_epoch_Some em r e :
  get_epoch em r = Some e ↔
  (∃ s, epoch_starts em !! e = Some s ∧ s <= r) ∧
  (∀ e' s', epoch_starts em !! e' = Some s' → s' <= r → e' <= e).
Proof.
  unfold get_epoch. set (l := filter _ _).
  assert (∀ e s, (e, s) ∈ l ↔ epoch_starts em !! e = Some s ∧ s <= r) as Hl.
  { intros. unfold l. rewrite list_elem_of_filter, elem_of_btree_iter. naive_solver. }
  assert (StronglySorted key_le l) as Hs by apply StronglySorted_filter_list, btree_iter_sorted.
  split.
  - intros ([e0 s] & Hlast & ->)%fmap_Some. simpl. split.
    + exists s. apply Hl. by eapply last_Some_elem_of.
    + intros e' s' He' Hs'. apply (last_sorted_max l _ Hs Hlast (e', s')). by apply Hl.
  - intros [(s & Hin & Hle) Hmax].
    assert ((e, s) ∈ l) as Hel by by apply Hl.
    destruct (last l) as [[e0 s0]|] eqn:Hlast; simpl.
    + f_equal. pose proof (last_sorted_max l _ Hs Hlast _ Hel). simpl in *.
      apply last_Some_elem_of, Hl in Hlast as [??].
      enough (e0 <= e) by lia. eauto.
    + apply last_None in Hlast. by rewrite Hlast, elem_of_nil in Hel.
Qed.

Lemma get_epoch_None em r :
  get_epoch em r = None ↔ ∀ e s, epoch_starts em !! e = Some s → r < s.
Proof.
  unfold get_epoch. rewrite fmap_None, last_None. split.
  - intros Hf e s He. assert ((e, s) ∉ filter (λ er : Z * Z, er.2 <= r) (btree_iter (epoch_starts em))) as Hn.
    { rewrite Hf. apply not_elem_of_nil. }
    rewrite list_elem_of_filter, elem_of_btree_iter in Hn. simpl in *.
    destruct (decide (s <= r)); [tauto|lia].
  - intros Hr. destruct (filter _ _) as [|[e s] l] eqn:Hf; [done|].
    assert ((e, s) ∈ filter (λ er : Z * Z, er.2 <= r) (btree_iter (epoch_starts em))) as Hin.
    { rewrite Hf. left. }
    rewrite list_elem_of_filter, elem_of_btree_iter in Hin. simpl in *.
    destruct Hin as [? Hin]. apply Hr in Hin. lia.
Qed.

(** Epochs start in order. *)
Definition epoch_manager_wf (em : EpochManager) : Prop :=
  ∀ e1 e2 s1 s2, epoch_starts em !! e1 = Some s1 → epoch_starts em !! e2 = Some s2 →
    e1 < e2 → s1 < s2.

Lemma insert_epoch_start_Ret em e r em' :
  insert_epoch_start em e r = Ret em' →
  epoch_starts em' = <[e := r]> (epoch_starts em) ∧
  epoch_length em' = epoch_length em ∧ epoch_start_delay em' = epoch_start_delay em ∧
  (epoch_starts em !! e = None ∨ epoch_starts em !! e = Some r).
Proof.
  unfold insert_epoch_start. destruct (epoch_starts em !! e) as [r'|] eqn:He; intros; exec_inv.
  - apply bool_decide_eq_true in Ha as ->. by rewrite insert_id by done; auto.
  - auto.
Qed.

(** * Properties *)

(** The epoch of a round never decreases with the round, and the answer of
    [get_epoch] is the greatest epoch whose start is not after the round. *)
Theorem get_epoch_monotone (em : EpochManager) (r1 r2 : Round) (e1 : Epoch)
    (Hr : r1 <= r2) (He : get_epoch em r1 = Some e1) :
  ∃ e2, get_epoch em r2 = Some e2 ∧ e1 <= e2 ∧
    (∀ e s, epoch_starts em !! e = Some s → s <= r2 → e <= e2).
Proof.
  apply get_epoch_Some in He as [(s & Hs & Hle) Hmax].
  destruct (get_epoch em r2) as [e2|] eqn:He2.
  - exists e2. apply get_epoch_Some in He2 as [_ Hmax2].
    split_and!; [done|apply (Hmax2 _ s Hs); lia|done].
  - rewrite get_epoch_None in He2. apply He2 in Hs. lia.
Qed.

Lemma get_epoch_monotone_witness :
  let em := mkEpochManager 100 10 {[ 1 := 0; 2 := 110 ]} in
  ∃ e2, get_epoch em 115 = Some e2 ∧ 1 <= e2 ∧
    (∀ e s, epoch_starts em !! e = Some s → s <= 115 → e <= e2).
Proof. apply (get_epoch_monotone _ 50 115 1); [lia|reflexivity]. Defined.

(** Committing a boundary block at round [r] schedules the next epoch at
    [r + epoch_start_delay]: no round below that changes its epoch, every round
    from there on is in an epoch at least the scheduled one, and scheduling the
    same block a second time (a consensus restart) changes nothing. *)
Theorem schedule_epoch_start_correct (em em' : EpochManager) (n : SeqNum) (r : Round)
    (Hn : 0 <= n < u64_max) (Hlen : 0 < epoch_length em)
    (Hsched : schedule_epoch_start em n r = Ret em')
    (Hend : is_epoch_end n (epoch_length em) = Ret true) :
  let next := n / epoch_length em + 2 in
  let start := r + epoch_start_delay em in
  epoch_starts em' !! next = Some start ∧
  (∀ r', r' < start → get_epoch em' r' = get_epoch em r') ∧
  (∀ r', start <= r' → ∃ e, get_epoch em' r' = Some e ∧ next <= e) ∧
  schedule_epoch_start em' n r = Ret em'.
Proof.
  unfold schedule_epoch_start in *. rewrite Hend in Hsched. simpl in Hsched.
  rewrite to_epoch_ok in Hsched by lia. exec_inv.
  apply epoch_add_Ret in Ha as [-> Hmax1]. apply round_add_Ret in Ha0 as [-> Hmax2].
  apply insert_epoch_start_Ret in Hsched as (Hs & Hl & Hd & Hor).
  replace (n / epoch_length em + 1 + 1) with (n / epoch_length em + 2) in * by lia.
  set (next := n / epoch_length em + 2) in *. set (start := r + epoch_start_delay em) in *.
  simpl. split_and!.
  - rewrite Hs. by apply lookup_insert_eq.
  - intros r' Hr'. apply option_eq. intros e. rewrite !get_epoch_Some, Hs.
    split; intros [(s & Hin & Hle) Hmax]; (split; [exists s|intros e' s' He' Hs'; apply (Hmax e' s'); [|done]]).
    + apply lookup_insert_Some in Hin as [[-> <-]|[? ?]]; [lia|done].
    + rewrite lookup_insert_Some. destruct (decide (next = e')) as [<-|]; [|by right].
      destruct Hor; simplify_eq; lia.
    + rewrite lookup_insert_Some. split; [|done]. destruct (decide (next = e)) as [<-|]; [|by right].
      destruct Hor; simplify_eq; lia.
    + apply lookup_insert_Some in He' as [[-> <-]|[? ?]]; [lia|done].
  - intros r' Hr'. destruct (get_epoch em' r') as [e|] eqn:He.
    + exists e. split; [done|]. apply get_epoch_Some in He as [_ Hmax].
      apply (Hmax next start); [rewrite Hs; apply lookup_insert_eq|lia].
    + rewrite get_epoch_None in He. specialize (He next start).
      rewrite Hs, lookup_insert_eq in He. specialize (He eq_refl). lia.
  - rewrite Hl, Hend. simpl. rewrite to_epoch_ok by lia. simpl.
    replace (epoch_add (n / epoch_length em + 1) 1) with (Ret next)
      by (symmetry; apply epoch_add_Ret; lia). simpl.
    rewrite Hd, round_add_ok by lia. simpl. unfold insert_epoch_start.
    rewrite Hs, lookup_insert_eq. by rewrite bool_decide_true.
Qed.

Lemma schedule_epoch_start_correct_witness :
  let em := mkEpochManager 100 10 {[ 1 := 0 ]} in
  let em' := mkEpochManager 100 10 {[ 1 := 0; 2 := 115 ]} in
  epoch_starts em' !! 2 = Some 115 ∧
  (∀ r', r' < 115 → get_epoch em' r' = get_epoch em r') ∧
  (∀ r', 115 <= r' → ∃ e, get_epoch em' r' = Some e ∧ 2 <= e) ∧
  schedule_epoch_start em' 99 105 = Ret em'.
Proof.
  apply (schedule_epoch_start_correct (mkEpochManager 100 10 {[ 1 := 0 ]}) _ 99 105);
    [unfold u64_max; lia|simpl; lia|vm_compute; reflexivity..].
Defined.
