(* ===== verification/LeaderElection.v ===== *)
(** Leader election (src/monad-validator/src/leader_election.rs,
    simple_round_robin.rs, weighted_round_robin.rs): the interface, the round
    robin and the stake-weighted schedule. *)

From S2P Require Import Prelude Types.

#[local] Open Scope Z_scope.

(** [trait LeaderElection] *)
Class LeaderElection := {
  get_leader : Round → gmap NodeId Stake → exec NodeId;
}.

(** What a user of the trait relies on: the leader is a validator. *)
Class LeaderElectionLaws (LT : LeaderElection) := {
  get_leader_member round validators n :
    get_leader round validators = Ret n → ∃ s, validators !! n = Some s ∧ s ≠ 0;
}.

(** * SimpleRoundRobin *)

Definition eligible (validators : gmap NodeId Stake) : list NodeId :=
  omap (λ ns : NodeId * Stake, if bool_decide (ns.2 ≠ Stake_ZERO) then Some ns.1 else None)
    (btree_iter validators).

Definition simple_get_leader (round : Round) (validators : gmap NodeId Stake) : exec NodeId :=
  let validators := eligible validators in
  if bool_decide (length validators = 0%nat) then Panic
  else expect (validators !! Z.to_nat (round mod Z.of_nat (length validators))).

#[export] Instance SimpleRoundRobin : LeaderElection := {| get_leader := simple_get_leader |}.

(** * WeightedRoundRobin *)

(** [slice::binary_search_by] of the standard library. *)
Section binary_search.
Context {A : Type} (f : A → comparison).

Fixpoint binary_search_loop (fuel : nat) (l : list A) (base size : nat) : exec nat :=
  if decide (size <= 1)%nat then Ret base else
  match fuel with
  | O => OutOfFuel
  | S fuel =>
      let half := Nat.div size 2 in
      let mid := (base + half)%nat in
      x ← expect (l !! mid);
      binary_search_loop fuel l (match f x with Gt => base | _ => mid end) (size - half)
  end.

Definition binary_search_by (l : list A) : exec (result nat nat) :=
  match l with
  | [] => Ret (Err 0%nat)
  | _ =>
      base ← binary_search_loop (length l) l 0 (length l);
      x ← expect (l !! base);
      Ret (match f x with
           | Eq => Ok base
           | Lt => Err (S base)
           | Gt => Err base
           end)
  end.
End binary_search.

(** The search both generators end with: the first entry whose bound exceeds
    [stake_index]. *)
Definition stake_bound_search (stake_bounds : list (NodeId * Z)) (stake_index : Z) : exec NodeId :=
  r ← binary_search_by (λ b : NodeId * Z, if bool_decide (b.2 > stake_index) then Gt else Lt)
        stake_bounds;
  match r with
  | Ok _ => Panic
  | Err upper_bound => b ← expect (stake_bounds !! upper_bound); Ret b.1
  end.

(** The [filter_map] of [generate_random_validator_u64], with its captured
    [total_stakes]. *)
Fixpoint stake_bounds_u64 (total_stakes : Z) (validators : list (NodeId * Stake)) :
    exec (list (NodeId * Z) * Z) :=
  match validators with
  | [] => Ret ([], total_stakes)
  | (node_id, stake) :: validators =>
      _ ← assert (bool_decide (stake <= u64_max));
      if bool_decide (stake > 0) then
        total_stakes ← checked_add u64_max total_stakes stake;
        '(bounds, total) ← stake_bounds_u64 total_stakes validators;
        Ret ((node_id, total_stakes) :: bounds, total)
      else stake_bounds_u64 total_stakes validators
  end.

Fixpoint stake_bounds_u256 (total_stake : Z) (validators : list (NodeId * Stake)) :
    list (NodeId * Z) * Z :=
  match validators with
  | [] => ([], total_stake)
  | (node_id, stake) :: validators =>
      if bool_decide (stake > 0) then
        let total_stake := (total_stake + stake) mod 2 ^ 256 in
        let '(bounds, total) := stake_bounds_u256 total_stake validators in
        ((node_id, total_stake) :: bounds, total)
      else stake_bounds_u256 total_stake validators
  end.

Section weighted.
(** [ChaCha20Rng::seed_from_u64(x).gen_range(0..m)] *)
Context (randomize : Z → Z → Z).

Definition generate_random_validator_u64 (round : Round)
    (validators : list (NodeId * Stake)) : exec NodeId :=
  '(stake_bounds, total_stakes) ← stake_bounds_u64 0 validators;
  if bool_decide (stake_bounds = []) then Panic
  else stake_bound_search stake_bounds (randomize round total_stakes).

Definition weighted_get_leader (round : Round) (validators : gmap NodeId Stake) : exec NodeId :=
  generate_random_validator_u64 round (btree_iter validators).

Definition WeightedRoundRobin : LeaderElection := {| get_leader := weighted_get_leader |}.
End weighted.

(** The randomizer is a closure that may advance a generator, whose state is [S]. *)
Definition generate_random_validator_with_randomizer {S} (validators : list (NodeId * Stake))
    (randomize_from_total_stake : Z → exec (Z * S)) : exec (NodeId * S) :=
  let '(stake_bounds, total_stake) := stake_bounds_u256 0 validators in
  if bool_decide (stake_bounds = []) then Panic else
  '(stake_index, s) ← randomize_from_total_stake total_stake;
  node_id ← stake_bound_search stake_bounds stake_index;
  Ret (node_id, s).

Section randomize_256.
(** [gen.gen()] of a generator with state [S]. *)
Context {S : Type} (gen : S → Z * S).

Definition randomize_256_max (m : Z) : Z :=
  (u256_max - (u256_max - m + 1) mod 2 ^ 256 mod m).

(** The [loop], which ends with probability one; [fuel] bounds the draws. *)
Fixpoint randomize_256_loop (fuel : nat) (m max : Z) (s : S) : exec (Z * S) :=
  match fuel with
  | O => OutOfFuel
  | Datatypes.S fuel =>
      let '(r, s) := gen s in
      if bool_decide (r <= max) then Ret (r mod m, s) else randomize_256_loop fuel m max s
  end.

Definition randomize_256_with_rng (fuel : nat) (s : S) (m : Z) : exec (Z * S) :=
  if bool_decide (m = 0) then Panic else randomize_256_loop fuel m (randomize_256_max m) s.

(** The generator after [n] draws. *)
Fixpoint rng_after (n : nat) (s : S) : S :=
  match n with O => s | Datatypes.S n => rng_after n (gen s).2 end.
End randomize_256.

(** * Lemmas *)

#[local] Arguments Nat.div : simpl never.

(** The search returns the partition point. *)
Lemma binary_search_loop_partition {A} (f : A → comparison) l1 l2 fuel base size :
  (∀ x, x ∈ l1 → f x = Lt) → (∀ x, x ∈ l2 → f x = Gt) →
  (1 <= size <= S fuel)%nat → (base + size <= length l1 + length l2)%nat →
  (base = 0 ∨ base < length l1)%nat → (length l1 <= base + size)%nat →
  ∃ b, binary_search_loop f fuel (l1 ++ l2) base size = Ret b ∧
    (b < length l1 + length l2)%nat ∧ (b = 0 ∨ b < length l1)%nat ∧ (length l1 <= S b)%nat.
Proof.
  intros H1 H2. revert base size. induction fuel as [|fuel IH]; intros base size Hs Hlen Hb Hl; simpl.
  { rewrite decide_True by lia. exists base. split_and!; [done|lia..]. }
  case_decide; [exists base; split_and!; [done|lia..]|].
  pose proof (Nat.div_mod_eq size 2). pose proof (Nat.mod_upper_bound size 2).
  set (mid := (base + size / 2)%nat) in *.
  destruct (decide (mid < length l1)%nat) as [Hlt|Hge].
  - destruct (lookup_lt_is_Some_2 l1 mid Hlt) as [x Hx].
    rewrite (lookup_app_l_Some l1 l2 mid x Hx). simpl. rewrite (H1 x) by by eapply list_elem_of_lookup_2.
    apply IH; lia.
  - rewrite lookup_app_r by lia.
    destruct (lookup_lt_is_Some_2 l2 (mid - length l1)) as [x Hx]; [lia|].
    rewrite Hx. simpl. rewrite (H2 x) by by eapply list_elem_of_lookup_2.
    apply IH; lia.
Qed.

Lemma binary_search_by_partition {A} (f : A → comparison) l1 l2 :
  (∀ x, x ∈ l1 → f x = Lt) → (∀ x, x ∈ l2 → f x = Gt) →
  binary_search_by f (l1 ++ l2) = Ret (Err (length l1)).
Proof.
  intros H1 H2. unfold binary_search_by. destruct (l1 ++ l2) as [|x0 l0] eqn:Hl.
  { apply app_nil in Hl as [-> _]. done. }
  assert (length l1 + length l2 = S (length l0))%nat as Hn by by rewrite <-length_app, Hl.
  rewrite <-Hl, length_app.
  destruct (binary_search_loop_partition f l1 l2 (length l1 + length l2) 0 (length l1 + length l2))
    as (b & -> & Hb & Hb1 & Hb2); [done|done|lia..|]. simpl.
  destruct (decide (b < length l1)%nat) as [Hlt|Hge].
  - destruct (lookup_lt_is_Some_2 l1 b Hlt) as [x Hx].
    rewrite (lookup_app_l_Some l1 l2 b x Hx). simpl. rewrite (H1 x) by by eapply list_elem_of_lookup_2.
    do 2 f_equal. lia.
  - rewrite lookup_app_r by lia.
    destruct (lookup_lt_is_Some_2 l2 (b - length l1)) as [x Hx]; [lia|].
    rewrite Hx. simpl. rewrite (H2 x) by by eapply list_elem_of_lookup_2.
    do 2 f_equal. lia.
Qed.

(** The stake intervals, one after the other, as a reference definition. *)
Fixpoint prefix_bounds (t : Z) (l : list (NodeId * Stake)) : list (NodeId * Z) :=
  match l with
  | [] => []
  | (n, s) :: l => if bool_decide (s > 0) then (n, t + s) :: prefix_bounds (t + s) l
                   else prefix_bounds t l
  end.

(** The owner of the [i]-th unit of stake. *)
Fixpoint stake_owner (l : list (NodeId * Stake)) (i : Z) : option NodeId :=
  match l with
  | [] => None
  | (n, s) :: l => if bool_decide (i < s) then Some n else stake_owner l (i - s)
  end.

Definition stakes_nonneg (l : list (NodeId * Stake)) : Prop := Forall (λ ns, 0 <= ns.2) l.

Lemma stakes_sum_nonneg l : stakes_nonneg l → 0 <= zsum l.*2.
Proof. intros Hl. apply zsum_nonneg, Forall_fmap. exact Hl. Qed.

Lemma stake_bounds_u64_ok l t :
  stakes_nonneg l → 0 <= t → t + zsum l.*2 <= u64_max →
  stake_bounds_u64 t l = Ret (prefix_bounds t l, t + zsum l.*2).
Proof.
  intros Hl. revert t. induction Hl as [|[n s] l Hs Hl IH]; intros t Ht Hmax; csimpl in *.
  { rewrite zsum_nil, Z.add_0_r. done. }
  pose proof (stakes_sum_nonneg l Hl). rewrite zsum_cons in *.
  rewrite (bool_decide_true (s <= u64_max)) by lia. simpl. case_bool_decide.
  - rewrite checked_add_ok by lia. simpl. rewrite IH by lia. simpl. do 2 f_equal. lia.
  - rewrite IH by lia. do 2 f_equal. lia.
Qed.

Lemma stake_bounds_u256_ok l t :
  stakes_nonneg l → 0 <= t → t + zsum l.*2 <= u256_max →
  stake_bounds_u256 t l = (prefix_bounds t l, t + zsum l.*2).
Proof.
  intros Hl. revert t. induction Hl as [|[n s] l Hs Hl IH]; intros t Ht Hmax; csimpl in *.
  { rewrite zsum_nil, Z.add_0_r. done. }
  pose proof (stakes_sum_nonneg l Hl). rewrite zsum_cons in *. case_bool_decide.
  - rewrite Z.mod_small by (unfold u256_max in *; lia). rewrite IH by lia. repeat (f_equal; try lia).
  - rewrite IH by lia. f_equal. lia.
Qed.

Lemma prefix_bounds_gt t l b : stakes_nonneg l → b ∈ prefix_bounds t l → t < b.2.
Proof.
  intros Hl. revert t. induction Hl as [|[n s] l Hs Hl IH]; intros t; simpl; [set_solver|].
  case_bool_decide; [|by apply IH]. intros [->|Hb]%elem_of_cons; simpl; [lia|].
  apply IH in Hb. lia.
Qed.

Lemma prefix_bounds_split l t i :
  stakes_nonneg l → 0 <= i < zsum l.*2 →
  ∃ l1 n b l2, prefix_bounds t l = l1 ++ (n, b) :: l2 ∧ stake_owner l i = Some n ∧
    (∀ x, x ∈ l1 → x.2 <= t + i) ∧ (∀ x, x ∈ (n, b) :: l2 → t + i < x.2).
Proof.
  intros Hl. revert t i. induction Hl as [|[n s] l Hs Hl IH]; intros t i Hi; csimpl in *.
  { rewrite zsum_nil in *. lia. }
  rewrite zsum_cons in *. destruct (decide (i < s)) as [His|His].
  - rewrite (bool_decide_true (s > 0)) by lia. rewrite bool_decide_true by lia.
    exists [], n, (t + s), (prefix_bounds (t + s) l). split_and!; [done|done|set_solver|].
    intros x [->|Hx]%elem_of_cons; simpl; [lia|]. apply prefix_bounds_gt in Hx; [lia|done].
  - rewrite (bool_decide_false (i < s)) by lia.
    destruct (IH (t + s) (i - s)) as (l1 & m & b & l2 & Heq & Hown & H1 & H2); [lia|].
    case_bool_decide.
    + exists ((n, t + s) :: l1), m, b, l2. rewrite Heq. split_and!; [done|done| |].
      * intros x [->|Hx]%elem_of_cons; simpl; [lia|]. apply H1 in Hx. lia.
      * intros x Hx. apply H2 in Hx. lia.
    + assert (s = 0) as -> by lia. rewrite !Z.add_0_r in *.
      exists l1, m, b, l2. split_and!; [done|done| |].
      * intros x Hx. apply H1 in Hx. lia.
      * intros x Hx. apply H2 in Hx. lia.
Qed.

Lemma stake_bound_search_owner l i :
  stakes_nonneg l → 0 <= i < zsum l.*2 →
  prefix_bounds 0 l ≠ [] ∧
  stake_bound_search (prefix_bounds 0 l) i = expect (stake_owner l i).
Proof.
  intros Hl Hi. destruct (prefix_bounds_split l 0 i Hl Hi)
    as (l1 & n & b & l2 & -> & -> & H1 & H2).
  split; [by destruct l1|].
  unfold stake_bound_search. rewrite binary_search_by_partition.
  - simpl. by rewrite list_lookup_middle.
  - intros x Hx. apply H1 in Hx. by rewrite bool_decide_false by lia.
  - intros x Hx. apply H2 in Hx. by rewrite bool_decide_true by lia.
Qed.

(** The units of stake owned by [n] are as many as its stake. *)
Definition stake_sum_of (n : NodeId) (l : list (NodeId * Stake)) : Z :=
  zsum (filter (λ ns : NodeId * Stake, ns.1 = n) l).*2.

Lemma stake_owner_count n l :
  stakes_nonneg l →
  Z.of_nat (length (filter (λ i, stake_owner l i = Some n) (seqZ 0 (zsum l.*2)))) =
  stake_sum_of n l.
Proof.
  intros Hl. unfold stake_sum_of. induction Hl as [|[m s] l Hs Hl IH]; [done|].
  csimpl. simpl in Hs. rewrite zsum_cons, seqZ_app by (done || by apply stakes_sum_nonneg).
  rewrite filter_app, length_app, Nat2Z.inj_add.
  replace (seqZ (0 + s) (zsum l.*2)) with (Z.add s <$> seqZ 0 (zsum l.*2))
    by (rewrite fmap_add_seqZ; f_equal; lia).
  rewrite filter_fmap, length_fmap.
  rewrite (filter_ext_elem _ (λ i, stake_owner l i = Some n) (seqZ 0 (zsum l.*2))).
  2:{ intros i Hi%elem_of_seqZ. simpl. rewrite bool_decide_false by lia.
      by replace (s + i - s) with i by lia. }
  rewrite IH. rewrite (filter_cons _ (m, s)). simpl. case_decide as Hm; csimpl.
  - rewrite zsum_cons, (filter_all _ (seqZ 0 s)), length_seqZ; [lia|].
    intros i Hi%elem_of_seqZ. rewrite bool_decide_true by lia. by subst.
  - rewrite filter_none; [simpl; lia|].
    intros i Hi%elem_of_seqZ. rewrite bool_decide_true by lia. naive_solver.
Qed.

Lemma stake_owner_elem l i n :
  0 <= i → stake_owner l i = Some n → ∃ s, (n, s) ∈ l ∧ 0 < s.
Proof.
  revert i. induction l as [|[m s] l IH]; intros i Hi; simpl; [done|].
  case_bool_decide.
  - intros [= ->]. exists s. split; [left|lia].
  - intros (s' & ? & ?)%IH; [|lia]. exists s'. split; [by right|done].
Qed.

Lemma elem_of_eligible m n : n ∈ eligible m ↔ ∃ s, m !! n = Some s ∧ s ≠ 0.
Proof.
  unfold eligible, Stake_ZERO. rewrite list_elem_of_omap. split.
  - intros ([n' s] & Hin%elem_of_btree_iter & Hn). simpl in Hn.
    case_bool_decide; simplify_eq. eauto.
  - intros (s & Hm & Hs). exists (n, s). rewrite elem_of_btree_iter. simpl.
    by rewrite bool_decide_true.
Qed.

#[export] Instance SimpleRoundRobin_laws : LeaderElectionLaws SimpleRoundRobin.
Proof.
  constructor. simpl. intros round m n. unfold simple_get_leader. case_bool_decide; [done|].
  intros Hn. exec_inv. apply elem_of_eligible. by eapply list_elem_of_lookup_2.
Qed.

Lemma weighted_get_leader_owner randomize round m :
  stakes_nonneg (btree_iter m) → zsum (btree_iter m).*2 <= u64_max →
  0 <= randomize round (zsum (btree_iter m).*2) < zsum (btree_iter m).*2 →
  weighted_get_leader randomize round m =
  expect (stake_owner (btree_iter m) (randomize round (zsum (btree_iter m).*2))).
Proof.
  intros Hl Hmax Hr. unfold weighted_get_leader, generate_random_validator_u64.
  rewrite stake_bounds_u64_ok by (done || lia). simpl.
  destruct (stake_bound_search_owner _ _ Hl Hr) as [? <-]. by rewrite bool_decide_false.
Qed.

Lemma stake_sum_of_NoDup l n s : NoDup l.*1 → (n, s) ∈ l → stake_sum_of n l = s.
Proof.
  unfold stake_sum_of. induction l as [|[m t] l IH]; [set_solver|].
  csimpl. intros [Hm Hnd]%NoDup_cons [[= <- <-]|Hin]%elem_of_cons.
  - rewrite filter_cons_True by done. csimpl. rewrite zsum_cons.
    rewrite filter_none; [csimpl; rewrite zsum_nil; lia|].
    intros x Hx <-. apply Hm. by apply list_elem_of_fmap_2.
  - rewrite filter_cons_False; [by apply IH|]. simpl. intros ->. apply Hm.
    by apply (list_elem_of_fmap_2 fst _ (n, s)).
Qed.

Lemma randomize_256_loop_accepts {S} (gen : S → Z * S) fuel n m max s r :
  (n < fuel)%nat → (∀ i, (i < n)%nat → max < (gen (rng_after gen i s)).1) →
  (gen (rng_after gen n s)).1 = r → r <= max →
  randomize_256_loop gen fuel m max s = Ret (r mod m, rng_after gen (1 + n) s).
Proof.
  revert s n. induction fuel as [|fuel IH]; intros s n Hn Hrej Hr Hle; [lia|]. simpl.
  destruct n as [|n]; simpl in Hr.
  - destruct (gen s) as [r' s']. simpl in Hr. subst. by rewrite bool_decide_true.
  - specialize (Hrej 0%nat ltac:(lia)) as H0. simpl in H0. destruct (gen s) as [r' s'] eqn:Hg. simpl in H0.
    rewrite bool_decide_false by lia. apply IH; [lia| |done|done].
    intros i Hi. specialize (Hrej (1 + i)%nat ltac:(lia)). simpl in Hrej. by rewrite Hg in Hrej.
Qed.

Lemma randomize_256_loop_bound {S} (gen : S → Z * S) fuel m max s r s' :
  0 < m → randomize_256_loop gen fuel m max s = Ret (r, s') → 0 <= r < m.
Proof.
  intros Hm. revert s. induction fuel as [|fuel IH]; intros s; simpl; [done|].
  destruct (gen s) as [d s1]. case_bool_decide; [|by apply IH]. intros [= <- _]. by apply Z.mod_pos_bound.
Qed.

Lemma generate_random_validator_owner {S} l (randomize : Z → exec (Z * S)) i s :
  stakes_nonneg l → zsum l.*2 <= u256_max → randomize (zsum l.*2) = Ret (i, s) → 0 <= i < zsum l.*2 →
  generate_random_validator_with_randomizer l randomize = (n ← expect (stake_owner l i); Ret (n, s)).
Proof.
  intros Hl Hmax Hr Hi. unfold generate_random_validator_with_randomizer.
  rewrite stake_bounds_u256_ok, Z.add_0_l by (done || lia).
  destruct (stake_bound_search_owner _ _ Hl Hi) as [? <-]. rewrite bool_decide_false by done. by rewrite Hr.
Qed.

(** The choice is made among the validators with stake. *)
Lemma generate_random_validator_elem {S} l (randomize : Z → exec (Z * S)) i s :
  stakes_nonneg l → zsum l.*2 <= u256_max → randomize (zsum l.*2) = Ret (i, s) → 0 <= i < zsum l.*2 →
  ∃ n stake, generate_random_validator_with_randomizer l randomize = Ret (n, s) ∧ (n, stake) ∈ l ∧ 0 < stake.
Proof.
  intros Hl Hmax Hr Hi. erewrite generate_random_validator_owner by done.
  destruct (prefix_bounds_split _ 0 i Hl Hi) as (_ & n & _ & _ & _ & Hn & _). rewrite Hn.
  destruct (stake_owner_elem l i n ltac:(lia) Hn) as (stake & ? & ?). exists n, stake. done.
Qed.


(** * Properties *)

(** C31. The weighted schedule is fair and total: with the total stake in
    [u64], whatever unit of stake the random generator draws, a leader with
    positive stake is returned (no panic), and out of all the units it can draw
    a validator is elected on exactly as many as its stake. *)
Theorem weighted_leader_fair (m : gmap NodeId Stake) (n : NodeId) (s : Stake) (round : Round)
    (Hm : map_Forall (λ _ s, 0 <= s) m)
    (Hmax : zsum (btree_iter m).*2 <= u64_max)
    (Hn : m !! n = Some s) :
  let total := zsum (btree_iter m).*2 in
  Z.of_nat (length (filter (λ i, weighted_get_leader (λ _ _, i) round m = Ret n) (seqZ 0 total))) = s ∧
  ∀ i, 0 <= i < total →
    ∃ n' s', weighted_get_leader (λ _ _, i) round m = Ret n' ∧ m !! n' = Some s' ∧ 0 < s'.
Proof.
  assert (stakes_nonneg (btree_iter m)) as Hl.
  { apply Forall_forall. intros [n' s'] Hin%elem_of_btree_iter. by apply (Hm n' s'). }
  simpl. split.
  - rewrite (filter_ext_elem _ (λ i, stake_owner (btree_iter m) i = Some n)).
    + rewrite stake_owner_count by done. apply stake_sum_of_NoDup; [apply NoDup_btree_keys|].
      by apply elem_of_btree_iter.
    + intros i Hi%elem_of_seqZ. rewrite weighted_get_leader_owner by (done || lia).
      destruct (stake_owner _ _); naive_solver.
  - intros i Hi. rewrite weighted_get_leader_owner by (done || lia).
    destruct (prefix_bounds_split _ 0 i Hl Hi) as (_ & n' & _ & _ & _ & Hown & _).
    rewrite Hown. apply stake_owner_elem in Hown as (s' & Hin%elem_of_btree_iter & ?); [|lia].
    simpl. eauto.
Qed.

Lemma weighted_leader_fair_witness :
  let m : gmap NodeId Stake := {[ 1 := 3; 2 := 0; 5 := 4 ]} in
  let total := zsum (btree_iter m).*2 in
  Z.of_nat (length (filter (λ i, weighted_get_leader (λ _ _, i) 9 m = Ret 5) (seqZ 0 total))) = 4 ∧
  ∀ i, 0 <= i < total →
    ∃ n' s', weighted_get_leader (λ _ _, i) 9 m = Ret n' ∧ m !! n' = Some s' ∧ 0 < s'.
Proof.
  apply (weighted_leader_fair {[ 1 := 3; 2 := 0; 5 := 4 ]} 5 4 9);
    [by apply (bool_decide_unpack _)|by apply (bool_decide_unpack _)|reflexivity].
Defined.



(** C32. [randomize_256_with_rng] is unbiased: the accepted draws are the range
    [0 .. k * m - 1] for the greatest [k] such that it fits in 256 bits, so each
    result below [m] has exactly [k] accepted draws, fewer than [m] draws are
    rejected, and the loop returns at the first accepted one. *)
Theorem randomize_256_unbiased {S : Type} (gen : S → Z * S) (fuel n : nat) (s : S) (m r : Z)
    (Hm : 0 < m <= u256_max) (Hfuel : (n < fuel)%nat)
    (Hrej : ∀ i, (i < n)%nat → randomize_256_max m < (gen (rng_after gen i s)).1)
    (Hn : (gen (rng_after gen n s)).1 = r) (Hr : 0 <= r <= randomize_256_max m) :
  randomize_256_with_rng gen fuel s m = Ret (r mod m, rng_after gen (1 + n) s) ∧
  0 <= r mod m < m ∧
  ∃ k, randomize_256_max m = k * m - 1 ∧ 0 < k ∧ k * m <= 2 ^ 256 < (k + 1) * m.
Proof.
  split; [|split; [apply Z.mod_pos_bound; lia|]].
  - unfold randomize_256_with_rng. rewrite bool_decide_false by lia. apply randomize_256_loop_accepts; [done..|lia].
  - unfold randomize_256_max, u256_max in *.
    rewrite (Z.mod_small (2 ^ 256 - 1 - m + 1)) by lia.
    replace (2 ^ 256 - 1 - m + 1) with (2 ^ 256 + (-1) * m) by lia. rewrite Z.mod_add by lia.
    exists (2 ^ 256 / m). pose proof (Z.div_mod (2 ^ 256) m). pose proof (Z.mod_pos_bound (2 ^ 256) m).
    split_and!; [lia| |lia|lia]. apply Z.div_str_pos. lia.
Qed.

(** A generator that deals out a list. *)
Definition deal (draws : list Z) : Z * list Z := (default 0 (head draws), tail draws).

Lemma randomize_256_unbiased_witness :
  randomize_256_with_rng deal 5 [2 ^ 256 - 1; 1000; 3] 7 = Ret (1000 mod 7, [3]) ∧
  0 <= 1000 mod 7 < 7 ∧
  ∃ k, randomize_256_max 7 = k * 7 - 1 ∧ 0 < k ∧ k * 7 <= 2 ^ 256 < (k + 1) * 7.
Proof.
  apply (randomize_256_unbiased deal 5 1 [2 ^ 256 - 1; 1000; 3] 7 1000);
    [unfold u256_max; lia|lia| |reflexivity|vm_compute; done].
  intros i Hi. replace i with 0%nat by lia. by vm_compute.
Defined.
