(* ===== verification/Crypto.v ===== *)
(** Signing domains, certificate signatures, signature collections and RLP
    (src/monad-crypto/src/signing_domain.rs and certificate_signature.rs,
    src/monad-validator/src/signature_collection.rs). The signature schemes and
    the RLP byte format are interfaces: a [Protocol] is an instantiation of the
    type parameters [ST], [SCT] and [EPT] of the Rust code. *)

From S2P Require Import Prelude Types ValidatorSet.

#[local] Open Scope Z_scope.

Notation bytes := (list Z).

(** What an [Encodable] writes, before it is laid out as bytes: unsigned
    integers, byte arrays, strings and lists. *)
Inductive rlp :=
| RUint (n : Z)
| RBytes (b : Z)
| RStr (s : bytes)
| RList (l : list rlp).

(** ** Signing domains *)

Inductive SigningDomain :=
| SD_ConsensusMessage
| SD_Tip
| SD_Vote
| SD_Timeout
| SD_NoEndorsement
| SD_RoundSignature
| SD_NameRecord
| SD_RaptorcastAppMessage
| SD_RaptorcastChunk.

#[export] Instance SigningDomain_eq_dec : EqDecision SigningDomain.
Proof. solve_decision. Defined.

(** The bytes of a byte string literal, after its first byte. *)
Fixpoint string_bytes (s : string) : bytes :=
  match s with
  | EmptyString => []
  | String a s => Z.of_N (Ascii.N_of_ascii a) :: string_bytes s
  end.

Definition PREFIX (d : SigningDomain) : bytes :=
  match d with
  | SD_ConsensusMessage => 26 :: string_bytes "monad/consensus-message/1" ++ [10]
  | SD_Tip => 12 :: string_bytes "monad/tip/1" ++ [10]
  | SD_Vote => 13 :: string_bytes "monad/vote/1" ++ [10]
  | SD_Timeout => 16 :: string_bytes "monad/timeout/1" ++ [10]
  | SD_NoEndorsement => 23 :: string_bytes "monad/no-endorsement/1" ++ [10]
  | SD_RoundSignature => 24 :: string_bytes "monad/round-signature/1" ++ [10]
  | SD_NameRecord => 20 :: string_bytes "monad/name-record/1" ++ [10]
  | SD_RaptorcastAppMessage => 31 :: string_bytes "monad/raptorcast-app-message/1" ++ [10]
  | SD_RaptorcastChunk => 25 :: string_bytes "monad/raptorcast-chunk/1" ++ [10]
  end.

(** [assert_signing_prefix], a compile-time assertion of each domain. *)
Definition assert_signing_prefix (d : SigningDomain) : exec unit :=
  prefix_len ← expect (head (PREFIX d));
  _ ← assert (bool_decide (prefix_len < 128));
  _ ← assert (bool_decide (prefix_len = Z.of_nat (length (PREFIX d)) - 1));
  last_byte ← expect (last (PREFIX d));
  assert (bool_decide (last_byte = 10)).

(** ** Signature collections *)

Inductive SignatureCollectionError (S : Type) :=
| NodeIdNotInMapping (l : list (NodeId * S))
| ConflictingSignatures (c : NodeId * S * S)
| InvalidSignaturesCreate (l : list (NodeId * S))
| InvalidSignaturesVerify
| DeserializeError (s : string).
Arguments NodeIdNotInMapping {S} l.
Arguments ConflictingSignatures {S} c.
Arguments InvalidSignaturesCreate {S} l.
Arguments InvalidSignaturesVerify {S}.
Arguments DeserializeError {S} s.

#[export] Instance SignatureCollectionError_eq_dec {S} `{EqDecision S} :
  EqDecision (SignatureCollectionError S).
Proof. solve_decision. Defined.

(** The type parameters of the consensus crates and the trait methods used on
    them: [ST] is the author signature ([CertificateSignatureRecoverable]),
    [SCT] the signature collection ([SignatureCollection]) over
    [SignatureType], and the last three are the [ExecutionProtocol].
    [rlp_bytes] is [alloy_rlp]'s layout and [hash] the hasher. *)
Class Protocol := {
  ST : Type;
  ST_KeyPair : Type;
  SignatureType : Type;
  CertKeyPair : Type;
  SCT : Type;
  ProposedHeader : Type;
  FinalizedHeader : Type;
  ExecutionBody : Type;
  #[global] ST_eq_dec :: EqDecision ST;
  #[global] SignatureType_eq_dec :: EqDecision SignatureType;
  #[global] SCT_eq_dec :: EqDecision SCT;
  #[global] ProposedHeader_eq_dec :: EqDecision ProposedHeader;
  #[global] FinalizedHeader_eq_dec :: EqDecision FinalizedHeader;
  #[global] ExecutionBody_eq_dec :: EqDecision ExecutionBody;
  rlp_bytes : rlp → bytes;
  hash : bytes → Z;
  ST_rlp : ST → rlp;
  SignatureType_rlp : SignatureType → rlp;
  SCT_rlp : SCT → rlp;
  ProposedHeader_rlp : ProposedHeader → rlp;
  FinalizedHeader_rlp : FinalizedHeader → rlp;
  ExecutionBody_rlp : ExecutionBody → rlp;
  st_pubkey : ST_KeyPair → PubKey;
  st_sign : SigningDomain → bytes → ST_KeyPair → ST;
  st_verify : SigningDomain → bytes → ST → PubKey → bool;
  st_recover_pubkey : SigningDomain → bytes → ST → option PubKey;
  cert_sign : SigningDomain → bytes → CertKeyPair → SignatureType;
  cert_verify : SigningDomain → bytes → SignatureType → PubKey → bool;
  cert_validate : SignatureType → bool;
  sct_new : SigningDomain → list (NodeId * SignatureType) → ValidatorMapping → bytes →
    result SCT (SignatureCollectionError SignatureType);
  sct_verify : SigningDomain → SCT → ValidatorMapping → bytes →
    result (list NodeId) (SignatureCollectionError SignatureType);
}.

(** No two validators share a certificate key. *)
Definition mapping_injective (vm : ValidatorMapping) : Prop :=
  ∀ n1 n2 pk, mapping vm !! n1 = Some pk → mapping vm !! n2 = Some pk → n1 = n2.

(** What the protocol relies on of a [SignatureCollection]: creation rejects
    only invalid signatures it was given, and reports them; a created collection
    verifies to the nodes that signed; a verified collection carries a valid
    signature of each node it names, once. *)
Class SignatureCollectionLaws (P : Protocol) := {
  sct_new_invalid d sigs vm msg bad :
    sct_new d sigs vm msg = Err (InvalidSignaturesCreate bad) →
    bad ≠ [] ∧ (∀ ns, ns ∈ bad → ns ∈ sigs) ∧
    ∀ n s pk, (n, s) ∈ bad → mapping vm !! n = Some pk → cert_verify d msg s pk = false;
  sct_new_errors d sigs vm msg e :
    (∀ n, n ∈ sigs.*1 → is_Some (mapping vm !! n)) → NoDup sigs.*1 →
    sct_new d sigs vm msg = Err e → ∃ bad, e = InvalidSignaturesCreate bad;
  sct_new_verify d sigs vm msg sc :
    mapping_injective vm → sct_new d sigs vm msg = Ok sc →
    NoDup sigs.*1 → ∃ nodes, sct_verify d sc vm msg = Ok nodes ∧ nodes ≡ₚ sigs.*1;
  sct_verify_sound d sc vm msg nodes :
    sct_verify d sc vm msg = Ok nodes →
    NoDup nodes ∧
    ∀ n, n ∈ nodes → ∃ pk s, mapping vm !! n = Some pk ∧ cert_verify d msg s pk = true;
  sct_new_empty d msg : ∃ sc, sct_new d [] (mkValidatorMapping ∅) msg = Ok sc;
}.

(** [SCT::new] of no signature and an empty mapping, with the [expect] of the
    genesis certificate. *)
Definition sct_empty `{Protocol} : exec SCT :=
  match sct_new SD_Vote [] (mkValidatorMapping ∅) [] with
  | Ok sc => Ret sc
  | Err _ => Panic
  end.

(** * Properties *)

(** C38. Signing domains are separated: every prefix satisfies its compile-time
    assertion, and a domain prefix followed by a message determines both the
    domain and the message, so a signature made in one domain never covers the
    bytes of another. *)
Theorem signing_domain_separation (d1 d2 : SigningDomain) (m1 m2 : bytes) :
  assert_signing_prefix d1 = Ret tt ∧
  (PREFIX d1 ++ m1 = PREFIX d2 ++ m2 ↔ d1 = d2 ∧ m1 = m2).
Proof.
  split; [by destruct d1|]. split; [|by intros [-> ->]].
  destruct d1, d2; intros Heq;
    (split; [reflexivity|by injection Heq]) || (exfalso; simpl in Heq; congruence).
Qed.
