(* ===== verification/MultiSig.v ===== *)
(** The multi-signature collection (src/monad-multi-sig/src/lib.rs) and the
    test signature (src/monad-crypto/src/certificate_signature.rs), a concrete
    [Protocol] whose collection satisfies the laws of the interface. *)

From S2P Require Import Prelude Types ValidatorSet Crypto.

#[local] Open Scope Z_scope.

Section multisig.
(** [CertificateSignatureRecoverable] for [S]. *)
Context {S : Type} `{EqDecision S}.
Context (recover_pubkey : SigningDomain → bytes → S → option PubKey).
Context (verify : SigningDomain → bytes → S → PubKey → bool).
Context `{HashOrder}.

Record MultiSig := mkMultiSig { sigs : list S }.

#[local] Notation error := (SignatureCollectionError S).

(** The loop of [new] over [(node_id, sig)], with [sig_map], [external_sigs]
    and [invalid_sigs]. *)
Fixpoint multisig_new_loop (d : SigningDomain) (vm : ValidatorMapping) (msg : bytes)
    (l : list (NodeId * S)) (sig_map : gmap NodeId S)
    (external_sigs invalid_sigs : list (NodeId * S)) :
    result (gmap NodeId S * list (NodeId * S) * list (NodeId * S)) error :=
  match l with
  | [] => Ok (sig_map, external_sigs, invalid_sigs)
  | (node_id, sig) :: l =>
      match mapping vm !! node_id with
      | Some pubkey =>
          match recover_pubkey d msg sig with
          | Some pubkey_recovered =>
              if bool_decide (pubkey_recovered ≠ pubkey) then
                multisig_new_loop d vm msg l sig_map external_sigs (invalid_sigs ++ [(node_id, sig)])
              else if negb (verify d msg sig pubkey) then
                multisig_new_loop d vm msg l sig_map external_sigs (invalid_sigs ++ [(node_id, sig)])
              else
                let sig_entry := default sig (sig_map !! node_id) in
                let sig_map := <[node_id := sig_entry]> sig_map in
                if bool_decide (sig_entry ≠ sig) then Err (ConflictingSignatures (node_id, sig_entry, sig))
                else multisig_new_loop d vm msg l sig_map external_sigs invalid_sigs
          | None =>
              multisig_new_loop d vm msg l sig_map external_sigs (invalid_sigs ++ [(node_id, sig)])
          end
      | None => multisig_new_loop d vm msg l sig_map (external_sigs ++ [(node_id, sig)]) invalid_sigs
      end
  end.

Definition multisig_new (d : SigningDomain) (l : list (NodeId * S)) (vm : ValidatorMapping)
    (msg : bytes) : result MultiSig error :=
  match multisig_new_loop d vm msg l ∅ [] [] with
  | Err e => Err e
  | Ok (sig_map, external_sigs, invalid_sigs) =>
      match external_sigs, invalid_sigs with
      | _ :: _, _ => Err (NodeIdNotInMapping external_sigs)
      | [], _ :: _ => Err (InvalidSignaturesCreate invalid_sigs)
      | [], [] => Ok (mkMultiSig (btree_iter sig_map).*2)
      end
  end.

(** The loop of [verify] over the signatures. *)
Fixpoint multisig_verify_loop (d : SigningDomain) (msg : bytes) (l : list S)
    (verified : gmap PubKey S) (invalid_sigs : list S) : gmap PubKey S * list S :=
  match l with
  | [] => (verified, invalid_sigs)
  | sig :: l =>
      match recover_pubkey d msg sig with
      | Some pubkey =>
          if negb (verify d msg sig pubkey) then
            multisig_verify_loop d msg l verified (invalid_sigs ++ [sig])
          else multisig_verify_loop d msg l (<[pubkey := sig]> verified) invalid_sigs
      | None => multisig_verify_loop d msg l verified (invalid_sigs ++ [sig])
      end
  end.

(** The loop that matches the recovered keys with the validators. *)
Fixpoint multisig_validate_loop (l : list (NodeId * PubKey)) (node_ids : list NodeId)
    (verified : gmap PubKey S) : list NodeId * gmap PubKey S :=
  match l with
  | [] => (node_ids, verified)
  | (node_id, pk) :: l =>
      match verified !! pk with
      | Some _ => multisig_validate_loop l (node_ids ++ [node_id]) (delete pk verified)
      | None => multisig_validate_loop l node_ids verified
      end
  end.

Definition multisig_verify (d : SigningDomain) (m : MultiSig) (vm : ValidatorMapping)
    (msg : bytes) : result (list NodeId) error :=
  let '(verified, invalid_sigs) := multisig_verify_loop d msg (sigs m) ∅ [] in
  let '(node_ids, verified) := multisig_validate_loop (btree_iter (mapping vm)) [] verified in
  match invalid_sigs ++ (hash_iter verified).*2 with
  | [] => Ok node_ids
  | _ :: _ => Err InvalidSignaturesVerify
  end.

(** ** The loops *)

(** [sig] is a valid signature of the validator [node_id]. *)
Definition sig_valid (d : SigningDomain) (vm : ValidatorMapping) (msg : bytes)
    (ns : NodeId * S) : Prop :=
  ∃ pk, mapping vm !! ns.1 = Some pk ∧ recover_pubkey d msg ns.2 = Some pk ∧
    verify d msg ns.2 pk = true.

Lemma new_loop_invalid d vm msg l sm ext inv sm' ext' inv' :
  multisig_new_loop d vm msg l sm ext inv = Ok (sm', ext', inv') →
  ∀ x, x ∈ inv' → x ∈ inv ∨ (x ∈ l ∧ ¬ sig_valid d vm msg x).
Proof.
  revert sm ext inv. induction l as [|[n s] l IH]; intros sm ext inv; simpl; [naive_solver|].
  assert (∀ inv' : list (NodeId * S), (∀ x, x ∈ inv' → x ∈ inv ++ [(n, s)] ∨ (x ∈ l ∧ ¬ sig_valid d vm msg x)) →
    ¬ sig_valid d vm msg (n, s) →
    ∀ x, x ∈ inv' → x ∈ inv ∨ (x ∈ (n, s) :: l ∧ ¬ sig_valid d vm msg x)) as Hstep.
  { intros k Hk Hn x [Hx|?]%Hk; [|set_solver]. apply elem_of_app in Hx as [?| ->%list_elem_of_singleton]; [by left|].
    right. split; [left|done]. }
  assert (∀ x, (x ∈ inv ∨ (x ∈ l ∧ ¬ sig_valid d vm msg x)) →
    x ∈ inv ∨ (x ∈ (n, s) :: l ∧ ¬ sig_valid d vm msg x)) as Hkeep by set_solver.
  destruct (mapping vm !! n) as [pk|] eqn:Hpk; [destruct (recover_pubkey d msg s) as [pk'|] eqn:Hr;
    [case_bool_decide as Heq; [|destruct (verify d msg s pk) eqn:Hv; simpl;
      [case_bool_decide|]]|]|]; intros Hl; try done;
    try (apply Hstep; [by eapply IH|intros (pk1 & ? & ? & ?); simpl in *; congruence]);
    intros x Hx; apply Hkeep; by eapply IH.
Qed.

Lemma new_loop_external d vm msg l sm inv sm' ext' inv' :
  multisig_new_loop d vm msg l sm [] inv = Ok (sm', ext', inv') →
  (∀ n, n ∈ l.*1 → is_Some (mapping vm !! n)) → ext' = [].
Proof.
  revert sm inv. induction l as [|[n s] l IH]; intros sm inv; csimpl; [naive_solver|].
  intros Hl Hn. destruct (mapping vm !! n) as [pk|] eqn:Hpk.
  - repeat case_match; try done; eapply IH; set_solver.
  - destruct (Hn n) as [??]; [set_solver|congruence].
Qed.

Lemma new_loop_no_conflict d vm msg l sm ext inv e :
  NoDup l.*1 → (∀ n, n ∈ l.*1 → sm !! n = None) →
  multisig_new_loop d vm msg l sm ext inv ≠ Err e.
Proof.
  revert sm ext inv. induction l as [|[n s] l IH]; intros sm ext inv; csimpl; [done|].
  intros [Hn Hnd]%NoDup_cons Hsm. rewrite (Hsm n) by set_solver. simpl.
  rewrite (bool_decide_false (s ≠ s)) by tauto.
  repeat case_match; try (apply IH; [done|set_solver]).
  apply IH; [done|]. intros n' Hn'. rewrite lookup_insert_ne by congruence. set_solver.
Qed.

Lemma new_loop_err d vm msg l sm ext inv e :
  multisig_new_loop d vm msg l sm ext inv = Err e → ∃ c, e = ConflictingSignatures c.
Proof.
  revert sm ext inv. induction l as [|[n s] l IH]; intros sm ext inv; simpl; [done|].
  repeat case_match; intros; simplify_eq; eauto.
Qed.

(** The two accumulators only grow. *)
Lemma new_loop_grows d vm msg l sm ext inv sm' ext' inv' :
  multisig_new_loop d vm msg l sm ext inv = Ok (sm', ext', inv') →
  (∃ k, ext' = ext ++ k) ∧ (∃ k, inv' = inv ++ k).
Proof.
  revert sm ext inv. induction l as [|[n s] l IH]; intros sm ext inv; simpl.
  { intros [= -> -> ->]. split; exists []; by rewrite app_nil_r. }
  repeat case_match; intros Hl; try done; apply IH in Hl as [[k1 ->] [k2 ->]];
    split; rewrite <- ?(assoc_L (++)); eauto.
Qed.

Lemma new_loop_ok d vm msg l sm sm' :
  NoDup l.*1 → (∀ n, n ∈ l.*1 → sm !! n = None) →
  multisig_new_loop d vm msg l sm [] [] = Ok (sm', [], []) →
  Forall (sig_valid d vm msg) l ∧
  ∀ n s, sm' !! n = Some s ↔ sm !! n = Some s ∨ (n, s) ∈ l.
Proof.
  revert sm. induction l as [|[n s] l IH]; intros sm; csimpl.
  { intros _ _ [= ->]. split; [constructor|set_solver]. }
  intros [Hn Hnd]%NoDup_cons Hsm. rewrite (Hsm n) by set_solver. simpl.
  rewrite (bool_decide_false (s ≠ s)) by tauto.
  destruct (mapping vm !! n) as [pk|] eqn:Hpk; [destruct (recover_pubkey d msg s) as [pk'|] eqn:Hr;
    [case_bool_decide as Heq; [|destruct (verify d msg s pk) eqn:Hv; simpl]|]|]; intros Hl;
    try (apply new_loop_grows in Hl as [[k1 ?] [k2 ?]]; destruct k1, k2; done).
  subst pk'.
  apply IH in Hl as [Hf Hm]; [|done|].
  2:{ intros n' Hn'. rewrite lookup_insert_ne by congruence. set_solver. }
  split; [constructor; [by eexists|done]|]. intros n' s'. rewrite Hm, lookup_insert_Some, elem_of_cons.
  specialize (Hsm n ltac:(set_solver)). split; [naive_solver|].
  intros [?|[[= -> ->]|?]]; [left; right|by left; left|by right]. split; [congruence|done].
Qed.

(** A loop of [verify] on valid signatures keeps no invalid one. *)
Lemma verify_loop_ok d msg l v inv :
  (∀ s, s ∈ l → ∃ pk, recover_pubkey d msg s = Some pk ∧ verify d msg s pk = true) →
  ∃ v', multisig_verify_loop d msg l v inv = (v', inv) ∧
    ∀ pk, is_Some (v' !! pk) ↔
      is_Some (v !! pk) ∨ ∃ s, s ∈ l ∧ recover_pubkey d msg s = Some pk.
Proof.
  revert v. induction l as [|s l IH]; intros v Hl; simpl.
  { exists v. split; [done|]. set_solver. }
  destruct (Hl s) as (pk & Hr & Hv); [set_solver|]. rewrite Hr, Hv. simpl.
  destruct (IH (<[pk := s]> v)) as (v' & -> & Hv'); [set_solver|].
  exists v'. split; [done|]. intros pk'. rewrite Hv', lookup_insert_is_Some'. set_solver.
Qed.

Lemma verify_loop_sound d msg l v inv v' inv' :
  multisig_verify_loop d msg l v inv = (v', inv') →
  (∀ pk s, v !! pk = Some s → verify d msg s pk = true) →
  ∀ pk s, v' !! pk = Some s → verify d msg s pk = true.
Proof.
  revert v inv. induction l as [|s l IH]; intros v inv; simpl; [naive_solver|].
  repeat case_match; try (by apply IH). intros Hl Hv. eapply IH; [done|].
  intros pk' s'. rewrite lookup_insert_Some. apply negb_false_iff in H1. naive_solver.
Qed.

Lemma validate_loop_spec l ids v ids' v' :
  multisig_validate_loop l ids v = (ids', v') →
  ∃ k, ids' = ids ++ k ∧ sublist k l.*1 ∧
    (∀ n, n ∈ k → ∃ pk, (n, pk) ∈ l ∧ is_Some (v !! pk)) ∧
    (NoDup l.*2 → ∀ n pk, (n, pk) ∈ l → is_Some (v !! pk) → n ∈ k) ∧
    (∀ pk s, v' !! pk = Some s ↔ v !! pk = Some s ∧ pk ∉ l.*2).
Proof.
  revert ids v. induction l as [|[n pk] l IH]; intros ids v; csimpl.
  { intros [= -> ->]. exists []. rewrite app_nil_r. split_and!; [done..|set_solver|set_solver|set_solver]. }
  destruct (v !! pk) as [s|] eqn:Hpk; intros (k & -> & Hs & Hin & Hall & Hv)%IH.
  - exists (n :: k). rewrite <-(assoc_L (++)). split_and!; [done|by constructor|..].
    + intros n' [->|Hn']%elem_of_cons; [exists pk; split; [left|eauto]|].
      apply Hin in Hn' as (pk' & ? & [s' Hs']). apply lookup_delete_Some in Hs' as [_ ?].
      exists pk'. split; [by right|eauto].
    + intros [Hn Hnd]%NoDup_cons n' pk' [[= -> ->]|Hn']%elem_of_cons [s' Hs']; [left|right].
      apply (Hall Hnd n' pk'); [done|]. rewrite lookup_delete_ne; [eauto|].
      intros ->. apply Hn. by apply (list_elem_of_fmap_2 snd _ (n', pk')).
    + intros pk' s'. rewrite Hv, lookup_delete_Some. set_solver.
  - exists k. split_and!; [done|by constructor|..].
    + intros n' (pk' & ? & ?)%Hin. exists pk'. split; [by right|done].
    + intros [Hn Hnd]%NoDup_cons n' pk' [[= -> ->]|Hn']%elem_of_cons [s' Hs']; [congruence|].
      eapply Hall; eauto.
    + intros pk' s'. rewrite Hv. set_solver.
Qed.

(** ** The laws *)

Lemma multisig_new_invalid d l vm msg bad :
  multisig_new d l vm msg = Err (InvalidSignaturesCreate bad) →
  bad ≠ [] ∧ (∀ ns, ns ∈ bad → ns ∈ l ∧ ¬ sig_valid d vm msg ns).
Proof.
  unfold multisig_new. destruct (multisig_new_loop _ _ _ _ _ _ _) as [[[sm ext] inv]|e] eqn:Hl.
  - destruct ext; [destruct inv|]; intros [= <-]. split; [done|].
    intros x Hx. by destruct (new_loop_invalid _ _ _ _ _ _ _ _ _ _ Hl x Hx) as [?%not_elem_of_nil|?].
  - apply new_loop_err in Hl as [c ->]. done.
Qed.

Lemma multisig_new_errors d l vm msg e :
  (∀ n, n ∈ l.*1 → is_Some (mapping vm !! n)) → NoDup l.*1 →
  multisig_new d l vm msg = Err e → ∃ bad, e = InvalidSignaturesCreate bad.
Proof.
  unfold multisig_new. intros Hn Hnd.
  destruct (multisig_new_loop _ _ _ _ _ _ _) as [[[sm ext] inv]|e'] eqn:Hl.
  - apply new_loop_external in Hl as ->; [|done]. case_match; intros; simplify_eq. eauto.
  - by apply new_loop_no_conflict in Hl.
Qed.

Lemma multisig_new_verify d l vm msg sc :
  mapping_injective vm → multisig_new d l vm msg = Ok sc → NoDup l.*1 →
  ∃ nodes, multisig_verify d sc vm msg = Ok nodes ∧ nodes ≡ₚ l.*1.
Proof.
  unfold multisig_new. intros Hinj Hnew Hnd.
  destruct (multisig_new_loop _ _ _ _ _ _ _) as [[[sm ext] inv]|e] eqn:Hl; [|done].
  destruct ext, inv; try done. simplify_eq.
  apply new_loop_ok in Hl as [Hval Hsm]; [|done|set_solver]. rewrite Forall_forall in Hval.
  assert (∀ s, s ∈ (btree_iter sm).*2 ↔ ∃ n, (n, s) ∈ l) as Hel.
  { intros s. rewrite list_elem_of_fmap. split.
    - intros ([n s'] & -> & [?|?]%elem_of_btree_iter%Hsm); [set_solver|eauto].
    - intros [n Hn]. exists (n, s). split; [done|]. apply elem_of_btree_iter, Hsm. by right. }
  unfold multisig_verify. simpl.
  destruct (verify_loop_ok d msg (btree_iter sm).*2 ∅ []) as (v & -> & Hv).
  { intros s [n Hn]%Hel. apply Hval in Hn as (pk & ? & ? & ?). eauto. }
  destruct (multisig_validate_loop (btree_iter (mapping vm)) [] v) as [ids v'] eqn:Hids.
  apply validate_loop_spec in Hids as (k & -> & Hsub & Hin & Hall & Hv').
  assert (∀ pk, is_Some (v !! pk) ↔ ∃ n, n ∈ l.*1 ∧ mapping vm !! n = Some pk) as Hpk.
  { intros pk. rewrite Hv. split.
    - intros [[? ?%lookup_empty_Some]|(s & [n Hn]%Hel & Hr)]; [done|].
      exists n. split; [by apply (list_elem_of_fmap_2 fst _ (n, s))|].
      apply Hval in Hn as (pk' & ? & ? & ?). simpl in *. congruence.
    - intros (n & ([n' s] & -> & Hn)%list_elem_of_fmap & Hpk). right. exists s. split; [apply Hel; eauto|].
      apply Hval in Hn as (pk' & ? & ? & ?). simpl in *. congruence. }
  assert (hash_iter v' = []) as ->.
  { destruct (hash_iter v') as [|[pk s] tl] eqn:Hit; [done|].
    assert ((pk, s) ∈ hash_iter v') as Hel' by (rewrite Hit; left).
    apply elem_of_hash_iter, Hv' in Hel' as [Hvpk Hn].
    destruct (proj1 (Hpk pk)) as (n & _ & Hm); [eauto|].
    destruct Hn. apply elem_of_btree_iter in Hm. by apply (list_elem_of_fmap_2 snd _ (n, pk)). }
  exists k. split; [done|]. apply NoDup_Permutation; [|done|].
  { eapply sublist_NoDup; [apply (NoDup_btree_keys (mapping vm))|exact Hsub]. }
  intros n. split.
  - intros (pk & Hm%elem_of_btree_iter & (n' & ? & ?)%Hpk)%Hin. by rewrite (Hinj n n' pk).
  - intros Hn. apply list_elem_of_fmap in Hn as Hn'. destruct Hn' as ([n' s] & -> & Hns).
    apply Hval in Hns as (pk & Hm & _). simpl in *. apply (Hall) with pk.
    + apply NoDup_fmap_2_strong.
      * intros [n1 p1] [n2 p2] H1%elem_of_btree_iter H2%elem_of_btree_iter ?. simpl in *. subst.
        f_equal. by eapply Hinj.
      * eapply (NoDup_fmap_1 fst), NoDup_btree_keys.
    + by apply elem_of_btree_iter.
    + apply Hpk. eauto.
Qed.

Lemma multisig_verify_sound d sc vm msg nodes :
  multisig_verify d sc vm msg = Ok nodes →
  NoDup nodes ∧
  ∀ n, n ∈ nodes → ∃ pk s, mapping vm !! n = Some pk ∧ verify d msg s pk = true.
Proof.
  unfold multisig_verify. destruct (multisig_verify_loop _ _ _ _ _) as [v inv] eqn:Hv.
  destruct (multisig_validate_loop _ _ _) as [ids v'] eqn:Hids.
  apply validate_loop_spec in Hids as (k & -> & Hsub & Hin & _ & _).
  case_match; intros; simplify_eq/=. split.
  - eapply sublist_NoDup; [apply (NoDup_btree_keys (mapping vm))|exact Hsub].
  - intros n (pk & Hm%elem_of_btree_iter & [s Hs])%Hin. exists pk, s. split; [done|].
    eapply verify_loop_sound; [done| |done]. intros ?? ?%lookup_empty_Some. done.
Qed.
End multisig.
Arguments MultiSig : clear implicits.

(** * The test protocol *)

(** [NopSignature]: not a secure signature; [nop_hash] stands for the standard
    library's [DefaultHasher]. *)
Record NopSignature := mkNopSignature { nop_pubkey : PubKey; nop_id : Z }.

#[export] Instance NopSignature_eq_dec : EqDecision NopSignature.
Proof. solve_decision. Defined.
#[export] Instance MultiSig_eq_dec {S} `{EqDecision S} : EqDecision (MultiSig S).
Proof. solve_decision. Defined.

Section nop.
Context (nop_hash : bytes → Z).

Definition nop_sign (d : SigningDomain) (msg : bytes) (keypair : PubKey) : NopSignature :=
  mkNopSignature keypair (nop_hash (PREFIX d ++ msg)).
Definition nop_verify (d : SigningDomain) (msg : bytes) (s : NopSignature) (pubkey : PubKey) : bool :=
  bool_decide (nop_pubkey s = pubkey) && bool_decide (nop_id s = nop_hash (PREFIX d ++ msg)).
Definition nop_validate (s : NopSignature) : bool := true.
Definition nop_recover_pubkey (d : SigningDomain) (msg : bytes) (s : NopSignature) : option PubKey :=
  if bool_decide (nop_id s = nop_hash (PREFIX d ++ msg)) then Some (nop_pubkey s) else None.

Lemma nop_recover_sign d msg kp : nop_recover_pubkey d msg (nop_sign d msg kp) = Some kp.
Proof. unfold nop_recover_pubkey. simpl. by rewrite bool_decide_true. Qed.

Lemma nop_verify_recover d msg s pk :
  nop_verify d msg s pk = true → nop_recover_pubkey d msg s = Some pk.
Proof.
  unfold nop_verify, nop_recover_pubkey. intros [<-%bool_decide_eq_true ->]%andb_prop. done.
Qed.
End nop.

(** A layout of RLP trees and a hash for evaluating concrete runs. *)
Fixpoint flat_layout (r : rlp) : bytes :=
  match r with
  | RUint n => [0; n]
  | RBytes b => [1; b]
  | RStr s => 3 :: Z.of_nat (length s) :: s
  | RList l => 2 :: Z.of_nat (length l) :: concat (map flat_layout l)
  end.
Definition poly_hash (l : bytes) : Z := foldl (λ h b, (h * 65599 + b + 7) mod 2 ^ 61) 0 l.

Definition NopProtocol : Protocol := {|
  ST := NopSignature;
  ST_KeyPair := PubKey;
  SignatureType := NopSignature;
  CertKeyPair := PubKey;
  SCT := MultiSig NopSignature;
  ProposedHeader := unit;
  FinalizedHeader := SeqNum;
  ExecutionBody := bytes;
  rlp_bytes := flat_layout;
  hash := poly_hash;
  ST_rlp s := RList [RBytes (nop_pubkey s); RUint (nop_id s)];
  SignatureType_rlp s := RList [RBytes (nop_pubkey s); RUint (nop_id s)];
  SCT_rlp m := RList [RList ((λ s, RList [RBytes (nop_pubkey s); RUint (nop_id s)]) <$> sigs m)];
  ProposedHeader_rlp _ := RList [];
  FinalizedHeader_rlp n := RList [RUint n];
  ExecutionBody_rlp b := RList [RList (RUint <$> b)];
  st_pubkey kp := kp;
  st_sign := nop_sign poly_hash;
  st_verify := nop_verify poly_hash;
  st_recover_pubkey := nop_recover_pubkey poly_hash;
  cert_sign := nop_sign poly_hash;
  cert_verify := nop_verify poly_hash;
  cert_validate := nop_validate;
  sct_new := multisig_new (nop_recover_pubkey poly_hash) (nop_verify poly_hash);
  sct_verify := @multisig_verify _ (nop_recover_pubkey poly_hash) (nop_verify poly_hash) map_order;
|}.

#[export] Instance NopProtocol_laws : SignatureCollectionLaws NopProtocol.
Proof.
  constructor; simpl.
  - intros d l vm msg bad [? Hbad]%multisig_new_invalid. split_and!; [done|naive_solver|].
    intros n s pk [_ Hin]%Hbad Hpk. destruct (nop_verify poly_hash d msg s pk) eqn:Hv; [|done].
    destruct Hin. exists pk. simpl. split_and!; [done|by apply nop_verify_recover|done].
  - apply multisig_new_errors.
  - apply multisig_new_verify.
  - apply multisig_verify_sound.
  - intros d msg. by eexists.
Qed.

(** * Properties *)

(** C34. A multi-signature is faithful to what went into it: made from signatures
    of distinct validators of a mapping with distinct keys, valid or not, it
    verifies to exactly those validators, whatever the recoverable signature
    scheme, or creation fails, and then only by reporting inputs that are not
    valid signatures of their node. *)
Theorem multisig_new_verify_roundtrip {S} `{EqDecision S} `{HashOrder}
    (recover_pubkey : SigningDomain → bytes → S → option PubKey)
    (verify : SigningDomain → bytes → S → PubKey → bool)
    (d : SigningDomain) (l : list (NodeId * S)) (vm : ValidatorMapping) (msg : bytes)
    (Hinj : mapping_injective vm) (Hnd : NoDup l.*1)
    (Hin : ∀ n, n ∈ l.*1 → is_Some (mapping vm !! n)) :
  match multisig_new recover_pubkey verify d l vm msg with
  | Ok sc => ∃ nodes, multisig_verify recover_pubkey verify d sc vm msg = Ok nodes ∧ nodes ≡ₚ l.*1
  | Err e => ∃ bad, e = InvalidSignaturesCreate bad ∧ bad ≠ [] ∧
      ∀ ns, ns ∈ bad → ns ∈ l ∧ ¬ sig_valid recover_pubkey verify d vm msg ns
  end.
Proof.
  destruct (multisig_new _ _ _ _ _ _) as [sc|e] eqn:Hnew.
  - by eapply multisig_new_verify.
  - destruct (multisig_new_errors _ _ _ _ _ _ _ Hin Hnd Hnew) as [bad ->].
    exists bad. split; [done|]. by eapply multisig_new_invalid.
Qed.

(** Four validators whose certificate keys are their node ids. *)
Definition four_mapping : ValidatorMapping :=
  mkValidatorMapping {[ 1 := 1; 2 := 2; 3 := 3; 4 := 4 ]}.

Lemma four_mapping_injective : mapping_injective four_mapping.
Proof.
  assert (∀ n pk, mapping four_mapping !! n = Some pk → n = pk) as Hid.
  { intros n pk. simpl. rewrite !lookup_insert_Some, lookup_singleton_Some. lia. }
  intros n1 n2 pk ?%Hid ?%Hid. congruence.
Qed.

Lemma multisig_new_verify_roundtrip_witness :
  let l := [(1, nop_sign poly_hash SD_Vote [5] 1); (3, nop_sign poly_hash SD_Vote [5] 3)] in
  match multisig_new (nop_recover_pubkey poly_hash) (nop_verify poly_hash) SD_Vote l four_mapping [5] with
  | Ok sc => ∃ nodes, @multisig_verify _ (nop_recover_pubkey poly_hash) (nop_verify poly_hash) map_order
               SD_Vote sc four_mapping [5] = Ok nodes ∧ nodes ≡ₚ l.*1
  | Err e => ∃ bad, e = InvalidSignaturesCreate bad ∧ bad ≠ [] ∧
      ∀ ns, ns ∈ bad → ns ∈ l ∧ ¬ sig_valid (nop_recover_pubkey poly_hash) (nop_verify poly_hash) SD_Vote four_mapping [5] ns
  end.
Proof.
  apply (@multisig_new_verify_roundtrip _ _ map_order (nop_recover_pubkey poly_hash)
    (nop_verify poly_hash) SD_Vote [(1, nop_sign poly_hash SD_Vote [5] 1); (3, nop_sign poly_hash SD_Vote [5] 3)]
    four_mapping [5]).
  - apply four_mapping_injective.
  - by apply (bool_decide_unpack _).
  - intros n Hn. assert (n = 1 ∨ n = 3) as [->| ->] by set_solver; vm_compute; eauto.
Defined.
