(* ===== verification/ConsensusTypes.v ===== *)
(** The data of the consensus protocol (src/monad-consensus-types/src): votes,
    certificates, block headers, tips, timeouts and checkpoints. *)

From S2P Require Import Prelude Types ValidatorSet Crypto MultiSig.

#[local] Open Scope Z_scope.

(** * Votes and no-endorsements *)

Record Vote := mkVote { vote_id : BlockId; vote_round : Round; vote_epoch : Epoch }.

Record NoEndorsement := mkNoEndorsement {
  ne_epoch : Epoch;
  ne_round : Round;
  ne_tip_qc_round : Round;
}.

Record TimeoutInfo := mkTimeoutInfo {
  tm_epoch : Epoch;
  tm_round : Round;
  tm_high_qc_round : Round;
  tm_high_tip_round : Round;
}.

Definition vote_rlp (v : Vote) : rlp :=
  RList [RBytes (vote_id v); RUint (vote_round v); RUint (vote_epoch v)].
Definition no_endorsement_rlp (m : NoEndorsement) : rlp :=
  RList [RUint (ne_epoch m); RUint (ne_round m); RUint (ne_tip_qc_round m)].
Definition timeout_info_rlp (t : TimeoutInfo) : rlp :=
  RList [RUint (tm_epoch t); RUint (tm_round t); RUint (tm_high_qc_round t);
         RUint (tm_high_tip_round t)].

#[export] Instance Vote_eq_dec : EqDecision Vote.
Proof. solve_decision. Defined.
#[export] Instance NoEndorsement_eq_dec : EqDecision NoEndorsement.
Proof. solve_decision. Defined.
#[export] Instance TimeoutInfo_eq_dec : EqDecision TimeoutInfo.
Proof. solve_decision. Defined.
#[export] Instance Vote_countable : Countable Vote.
Proof.
  refine (inj_countable' (λ v, (vote_id v, vote_round v, vote_epoch v))
    (λ '(i, r, e), mkVote i r e) _). by intros [].
Defined.
#[export] Instance NoEndorsement_countable : Countable NoEndorsement.
Proof.
  refine (inj_countable' (λ m, (ne_epoch m, ne_round m, ne_tip_qc_round m))
    (λ '(e, r, t), mkNoEndorsement e r t) _). by intros [].
Defined.
#[export] Instance TimeoutInfo_countable : Countable TimeoutInfo.
Proof.
  refine (inj_countable' (λ t, (tm_epoch t, tm_round t, tm_high_qc_round t, tm_high_tip_round t))
    (λ '(e, r, q, h), mkTimeoutInfo e r q h) _). by intros [].
Defined.

Record RootInfo := mkRootInfo {
  ri_round : Round;
  ri_seq_num : SeqNum;
  ri_epoch : Epoch;
  ri_block_id : BlockId;
  ri_timestamp_ns : Z;
}.

Record LockedEpoch := mkLockedEpoch { le_epoch : Epoch; le_round : Round }.

Record BlockRange := mkBlockRange { br_last_block_id : BlockId; br_num_blocks : SeqNum }.

#[export] Instance RootInfo_eq_dec : EqDecision RootInfo.
Proof. solve_decision. Defined.
#[export] Instance LockedEpoch_eq_dec : EqDecision LockedEpoch.
Proof. solve_decision. Defined.
#[export] Instance BlockRange_eq_dec : EqDecision BlockRange.
Proof. solve_decision. Defined.
#[export] Instance BlockRange_countable : Countable BlockRange.
Proof.
  refine (inj_countable' (λ r, (br_last_block_id r, br_num_blocks r))
    (λ '(b, n), mkBlockRange b n) _). by intros [].
Defined.

(** validation.rs *)
Inductive ValidationError :=
| InvalidAuthor
| NotWellFormed
| InvalidSignature
| InvalidTcRound
| DuplicateTcTipRound
| InsufficientStake
| ValidatorSetDataUnavailable
| SignaturesDuplicateNode
| InvalidVote
| InvalidVersion
| InvalidEpoch.

#[export] Instance ValidationError_eq_dec : EqDecision ValidationError.
Proof. solve_decision. Defined.

Section types.
Context `{P : Protocol}.

(** * Certificates *)

Record QuorumCertificate := mkQC { qc_info : Vote; qc_signatures : SCT }.

Definition qc_round (qc : QuorumCertificate) : Round := vote_round (qc_info qc).
Definition qc_epoch (qc : QuorumCertificate) : Epoch := vote_epoch (qc_info qc).
Definition qc_block_id (qc : QuorumCertificate) : BlockId := vote_id (qc_info qc).

(** [genesis_qc]; creating the empty signature collection may fail. *)
Definition genesis_qc : exec QuorumCertificate :=
  sigs ← sct_empty;
  Ret (mkQC (mkVote GENESIS_BLOCK_ID GENESIS_ROUND 1) sigs).

(** [Rank] orders certificates by round. *)
Definition rank_cmp (v1 v2 : Vote) : comparison := (vote_round v1 ?= vote_round v2).
Definition rank_gt (q1 q2 : QuorumCertificate) : bool :=
  match rank_cmp (qc_info q1) (qc_info q2) with Gt => true | _ => false end.

Record NoEndorsementCertificate := mkNEC { nec_msg : NoEndorsement; nec_signatures : SCT }.

Record HighTipRoundSigColTuple := mkHighTipRoundSigColTuple {
  htr_high_qc_round : Round;
  htr_high_tip_round : Round;
  htr_sigs : SCT;
}.

Record NoTipCertificate := mkNoTipCertificate {
  nt_epoch : Epoch;
  nt_round : Round;
  nt_tip_rounds : list HighTipRoundSigColTuple;
  nt_high_qc : QuorumCertificate;
}.

Inductive FreshProposalCertificate :=
| FPC_Nec (nec : NoEndorsementCertificate)
| FPC_NoTip (nt : NoTipCertificate).

(** * Blocks *)

Record ConsensusBlockHeader := mkHeader {
  h_block_round : Round;
  h_epoch : Epoch;
  h_qc : QuorumCertificate;
  h_author : NodeId;
  h_seq_num : SeqNum;
  h_timestamp_ns : Z;
  h_round_signature : SignatureType;
  h_delayed_execution_results : list FinalizedHeader;
  h_execution_inputs : ProposedHeader;
  h_block_body_id : Z;
}.

Record ConsensusBlockBody := mkBody { execution_body : ExecutionBody }.

Record ConsensusFullBlock := mkFullBlock {
  fb_header : ConsensusBlockHeader;
  fb_body : ConsensusBlockBody;
}.

Record ConsensusTip := mkTip {
  tip_block_header : ConsensusBlockHeader;
  tip_signature : ST;
  tip_fresh_certificate : option FreshProposalCertificate;
}.

(** * Timeouts *)

Inductive HighExtend :=
| HE_Tip (tip : ConsensusTip)
| HE_Qc (qc : QuorumCertificate).

Inductive HighExtendVote :=
| HEV_Tip (tip : ConsensusTip) (vote_signature : SignatureType)
| HEV_Qc (qc : QuorumCertificate).

Record TimeoutCertificate := mkTC {
  tc_epoch : Epoch;
  tc_round : Round;
  tc_tip_rounds : list HighTipRoundSigColTuple;
  tc_high_extend : HighExtend;
}.

Inductive RoundCertificate :=
| RC_Qc (qc : QuorumCertificate)
| RC_Tc (tc : TimeoutCertificate).

Record Timeout := mkTimeout {
  t_tminfo : TimeoutInfo;
  t_timeout_signature : SignatureType;
  t_high_extend : HighExtendVote;
  t_last_round_certificate : option RoundCertificate;
}.

Record Checkpoint := mkCheckpoint {
  cp_root : BlockId;
  cp_high_certificate : RoundCertificate;
  cp_validator_sets : list LockedEpoch;
}.

#[global] Instance QC_eq_dec : EqDecision QuorumCertificate.
Proof. solve_decision. Defined.
#[global] Instance NEC_eq_dec : EqDecision NoEndorsementCertificate.
Proof. solve_decision. Defined.
#[global] Instance HTR_eq_dec : EqDecision HighTipRoundSigColTuple.
Proof. solve_decision. Defined.
#[global] Instance NTC_eq_dec : EqDecision NoTipCertificate.
Proof. solve_decision. Defined.
#[global] Instance FPC_eq_dec : EqDecision FreshProposalCertificate.
Proof. solve_decision. Defined.
#[global] Instance Header_eq_dec : EqDecision ConsensusBlockHeader.
Proof. solve_decision. Defined.
#[global] Instance Body_eq_dec : EqDecision ConsensusBlockBody.
Proof. solve_decision. Defined.
#[global] Instance Tip_eq_dec : EqDecision ConsensusTip.
Proof. solve_decision. Defined.
#[global] Instance HighExtend_eq_dec : EqDecision HighExtend.
Proof. solve_decision. Defined.
#[global] Instance TC_eq_dec : EqDecision TimeoutCertificate.
Proof. solve_decision. Defined.
#[global] Instance RC_eq_dec : EqDecision RoundCertificate.
Proof. solve_decision. Defined.

(** ** Encodings *)

Definition qc_rlp (qc : QuorumCertificate) : rlp :=
  RList [vote_rlp (qc_info qc); SCT_rlp (qc_signatures qc)].
Definition nec_rlp (nec : NoEndorsementCertificate) : rlp :=
  RList [no_endorsement_rlp (nec_msg nec); SCT_rlp (nec_signatures nec)].
Definition htr_rlp (t : HighTipRoundSigColTuple) : rlp :=
  RList [RUint (htr_high_qc_round t); RUint (htr_high_tip_round t); SCT_rlp (htr_sigs t)].
Definition no_tip_rlp (nt : NoTipCertificate) : rlp :=
  RList [RUint (nt_epoch nt); RUint (nt_round nt); RList (htr_rlp <$> nt_tip_rounds nt);
         qc_rlp (nt_high_qc nt)].
Definition fresh_certificate_rlp (c : FreshProposalCertificate) : rlp :=
  match c with
  | FPC_Nec nec => RList [RUint 1; nec_rlp nec]
  | FPC_NoTip nt => RList [RUint 2; no_tip_rlp nt]
  end.
Definition header_rlp (h : ConsensusBlockHeader) : rlp :=
  RList [RUint (h_block_round h); RUint (h_epoch h); qc_rlp (h_qc h); RBytes (h_author h);
         RUint (h_seq_num h); RUint (h_timestamp_ns h); SignatureType_rlp (h_round_signature h);
         RList (FinalizedHeader_rlp <$> h_delayed_execution_results h);
         ProposedHeader_rlp (h_execution_inputs h); RBytes (h_block_body_id h)].
Definition body_rlp (b : ConsensusBlockBody) : rlp :=
  RList [ExecutionBody_rlp (execution_body b)].
Definition full_block_rlp (b : ConsensusFullBlock) : rlp :=
  RList [header_rlp (fb_header b); body_rlp (fb_body b)].

(** [#[rlp(trailing)]]: an absent last field is left out. *)
Definition trailing {A} (f : A → rlp) (o : option A) : list rlp :=
  match o with Some a => [f a] | None => [] end.

Definition tip_rlp (t : ConsensusTip) : rlp :=
  RList ([header_rlp (tip_block_header t); ST_rlp (tip_signature t)] ++
         trailing fresh_certificate_rlp (tip_fresh_certificate t)).
Definition high_extend_rlp (h : HighExtend) : rlp :=
  match h with
  | HE_Tip tip => RList [RUint 1; tip_rlp tip]
  | HE_Qc qc => RList [RUint 2; qc_rlp qc]
  end.
Definition high_extend_vote_rlp (h : HighExtendVote) : rlp :=
  match h with
  | HEV_Tip tip vote_signature => RList [RUint 1; tip_rlp tip; SignatureType_rlp vote_signature]
  | HEV_Qc qc => RList [RUint 2; qc_rlp qc]
  end.
Definition tc_rlp (tc : TimeoutCertificate) : rlp :=
  RList [RUint (tc_epoch tc); RUint (tc_round tc); RList (htr_rlp <$> tc_tip_rounds tc);
         high_extend_rlp (tc_high_extend tc)].
Definition round_certificate_rlp (c : RoundCertificate) : rlp :=
  match c with
  | RC_Qc qc => RList [RUint 1; qc_rlp qc]
  | RC_Tc tc => RList [RUint 2; tc_rlp tc]
  end.
Definition timeout_rlp (t : Timeout) : rlp :=
  RList ([timeout_info_rlp (t_tminfo t); SignatureType_rlp (t_timeout_signature t);
          high_extend_vote_rlp (t_high_extend t)] ++
         trailing round_certificate_rlp (t_last_round_certificate t)).

(** The bytes that are signed or hashed. *)
Definition vote_digest (v : Vote) : bytes := rlp_bytes (vote_rlp v).
Definition timeout_digest (t : TimeoutInfo) : bytes := rlp_bytes (timeout_info_rlp t).
Definition no_endorsement_digest (m : NoEndorsement) : bytes := rlp_bytes (no_endorsement_rlp m).

(** * Operations *)

Definition header_get_id (h : ConsensusBlockHeader) : BlockId := hash (rlp_bytes (header_rlp h)).
Definition header_get_parent_id (h : ConsensusBlockHeader) : BlockId := qc_block_id (h_qc h).
Definition body_get_id (b : ConsensusBlockBody) : Z := hash (rlp_bytes (body_rlp b)).

(** [get_committable_id]: the commit rule, consecutive rounds. *)
Definition get_committable_id (qc : QuorumCertificate) (qc_parent_block : ConsensusBlockHeader) :
    exec (option BlockId) :=
  _ ← assert (bool_decide (qc_block_id qc = header_get_id qc_parent_block));
  next ← round_add (qc_round (h_qc qc_parent_block)) 1;
  Ret (if bool_decide (qc_round qc = next) then Some (header_get_parent_id qc_parent_block) else None).

(** [RoundSignature::new] and [verify]. *)
Definition round_signature_new (round : Round) (keypair : CertKeyPair) : SignatureType :=
  cert_sign SD_RoundSignature (rlp_bytes (RUint round)) keypair.
Definition round_signature_verify (s : SignatureType) (round : Round) (pubkey : PubKey) : bool :=
  cert_verify SD_RoundSignature (rlp_bytes (RUint round)) s pubkey.

(** [ConsensusFullBlock::new] *)
Definition full_block_new (header : ConsensusBlockHeader) (body : ConsensusBlockBody) :
    option ConsensusFullBlock :=
  if bool_decide (body_get_id body ≠ h_block_body_id header) then None
  else Some (mkFullBlock header body).

Definition fb_id (b : ConsensusFullBlock) : BlockId := header_get_id (fb_header b).
Definition fb_parent_id (b : ConsensusFullBlock) : BlockId := qc_block_id (h_qc (fb_header b)).
Definition fb_body_id (b : ConsensusFullBlock) : Z := h_block_body_id (fb_header b).
Definition fb_block_round (b : ConsensusFullBlock) : Round := h_block_round (fb_header b).
Definition fb_parent_round (b : ConsensusFullBlock) : Round := qc_round (h_qc (fb_header b)).
Definition fb_qc (b : ConsensusFullBlock) : QuorumCertificate := h_qc (fb_header b).
Definition fb_epoch (b : ConsensusFullBlock) : Epoch := h_epoch (fb_header b).
Definition fb_seq_num (b : ConsensusFullBlock) : SeqNum := h_seq_num (fb_header b).
Definition fb_timestamp (b : ConsensusFullBlock) : Z := h_timestamp_ns (fb_header b).
Definition fb_author (b : ConsensusFullBlock) : NodeId := h_author (fb_header b).

(** [ConsensusTip::new] and [signature_author]. *)
Definition tip_new (keypair : ST_KeyPair) (block_header : ConsensusBlockHeader)
    (fresh_certificate : option FreshProposalCertificate) : ConsensusTip :=
  mkTip block_header (st_sign SD_Tip (rlp_bytes (header_rlp block_header)) keypair)
    fresh_certificate.
Definition tip_signature_author (tip : ConsensusTip) : option PubKey :=
  st_recover_pubkey SD_Tip (rlp_bytes (header_rlp (tip_block_header tip))) (tip_signature tip).

(** [HighExtend::partial_cmp]; the ['>'] of the code is [high_extend_gt]. *)
Definition high_extend_partial_cmp (a b : HighExtend) : option comparison :=
  match a, b with
  | HE_Qc q1, HE_Qc q2 =>
      if bool_decide (qc_round q1 = qc_round q2) then None
      else Some (qc_round q1 ?= qc_round q2)
  | HE_Tip t1, HE_Tip t2 =>
      let r1 := h_block_round (tip_block_header t1) in
      let r2 := h_block_round (tip_block_header t2) in
      if bool_decide (r1 = r2) then None else Some (r1 ?= r2)
  | HE_Qc q1, HE_Tip t2 =>
      let r2 := h_block_round (tip_block_header t2) in
      if bool_decide (qc_round q1 = r2) then Some Gt else Some (qc_round q1 ?= r2)
  | HE_Tip t1, HE_Qc q2 =>
      let r1 := h_block_round (tip_block_header t1) in
      if bool_decide (r1 = qc_round q2) then Some Lt else Some (r1 ?= qc_round q2)
  end.
Definition high_extend_gt (a b : HighExtend) : bool :=
  match high_extend_partial_cmp a b with Some Gt => true | _ => false end.

Definition high_extend_qc (h : HighExtend) : QuorumCertificate :=
  match h with HE_Tip tip => h_qc (tip_block_header tip) | HE_Qc qc => qc end.
Definition high_extend_vote_qc (h : HighExtendVote) : QuorumCertificate :=
  match h with HEV_Tip tip _ => h_qc (tip_block_header tip) | HEV_Qc qc => qc end.
(** [From<HighExtendVote> for HighExtend] *)
Definition high_extend_from (h : HighExtendVote) : HighExtend :=
  match h with HEV_Tip tip _ => HE_Tip tip | HEV_Qc qc => HE_Qc qc end.

Definition rc_round (c : RoundCertificate) : Round :=
  match c with RC_Qc qc => qc_round qc | RC_Tc tc => tc_round tc end.
Definition rc_tc (c : RoundCertificate) : option TimeoutCertificate :=
  match c with RC_Qc _ => None | RC_Tc tc => Some tc end.
Definition rc_qc (c : RoundCertificate) : QuorumCertificate :=
  match c with RC_Qc qc => qc | RC_Tc tc => high_extend_qc (tc_high_extend tc) end.

(** [Timeout::new]: a timeout that extends a tip carries a vote for the tip. *)
Definition timeout_new (cert_keypair : CertKeyPair) (timeout : TimeoutInfo)
    (high_extend : HighExtend) (last_round_certificate : option RoundCertificate) : Timeout :=
  let timeout_signature := cert_sign SD_Timeout (timeout_digest timeout) cert_keypair in
  let high_extend :=
    match high_extend with
    | HE_Qc qc => HEV_Qc qc
    | HE_Tip tip =>
        let v := mkVote (header_get_id (tip_block_header tip)) (tm_round timeout) (tm_epoch timeout) in
        HEV_Tip tip (cert_sign SD_Vote (vote_digest v) cert_keypair)
    end in
  mkTimeout timeout timeout_signature high_extend last_round_certificate.

Context `{HashOrder}.

(** The first loop of [TimeoutCertificate::new]: signatures grouped by
    [TimeoutInfo], and the highest extend. *)
Fixpoint tc_new_collect (l : list (NodeId * Timeout))
    (sigs : gmap TimeoutInfo (list (NodeId * SignatureType))) (highest_extend : HighExtend) :
    gmap TimeoutInfo (list (NodeId * SignatureType)) * HighExtend :=
  match l with
  | [] => (sigs, highest_extend)
  | (node_id, timeout) :: l =>
      let entry := default [] (sigs !! t_tminfo timeout) in
      let sigs := <[t_tminfo timeout := entry ++ [(node_id, t_timeout_signature timeout)]]> sigs in
      let timeout_high_extend := high_extend_from (t_high_extend timeout) in
      let highest_extend :=
        if high_extend_gt timeout_high_extend highest_extend then timeout_high_extend
        else highest_extend in
      tc_new_collect l sigs highest_extend
  end.

(** The second loop: one signature collection per [TimeoutInfo]. *)
Fixpoint tc_new_tip_rounds (vm : ValidatorMapping)
    (l : list (TimeoutInfo * list (NodeId * SignatureType))) :
    result (list HighTipRoundSigColTuple) (SignatureCollectionError SignatureType) :=
  match l with
  | [] => Ok []
  | (timeout_info, sigs) :: l =>
      match sct_new SD_Timeout sigs vm (timeout_digest timeout_info) with
      | Err e => Err e
      | Ok sct =>
          match tc_new_tip_rounds vm l with
          | Err e => Err e
          | Ok tip_rounds =>
              Ok (mkHighTipRoundSigColTuple (tm_high_qc_round timeout_info)
                    (tm_high_tip_round timeout_info) sct :: tip_rounds)
          end
      end
  end.

Definition tc_new (epoch : Epoch) (round : Round) (l : list (NodeId * Timeout))
    (vm : ValidatorMapping) :
    exec (result TimeoutCertificate (SignatureCollectionError SignatureType)) :=
  genesis ← genesis_qc;
  let '(sigs, highest_extend) := tc_new_collect l ∅ (HE_Qc genesis) in
  Ret (match tc_new_tip_rounds vm (hash_iter sigs) with
       | Err e => Err e
       | Ok tip_rounds => Ok (mkTC epoch round tip_rounds highest_extend)
       end).
End types.

(** * Lemmas *)

Section lemmas.
Context `{P : Protocol} `{HashOrder}.

(** The order on [HighExtend] compares the rounds, a certificate above a tip of
    the same round. *)
Definition high_extend_rank (h : HighExtend) : Z :=
  match h with
  | HE_Tip tip => 2 * h_block_round (tip_block_header tip)
  | HE_Qc qc => 2 * qc_round qc + 1
  end.

Lemma high_extend_partial_cmp_rank a b :
  high_extend_partial_cmp a b =
  if bool_decide (high_extend_rank a = high_extend_rank b) then None
  else Some (high_extend_rank a ?= high_extend_rank b).
Proof.
  destruct a as [a|a], b as [b|b]; simpl;
    repeat case_bool_decide; try lia; try done; f_equal; symmetry;
    repeat match goal with |- context [?x ?= ?y] => destruct (Z.compare_spec x y) end; done || lia.
Qed.

Lemma high_extend_gt_rank a b :
  high_extend_gt a b = bool_decide (high_extend_rank b < high_extend_rank a).
Proof.
  unfold high_extend_gt. rewrite high_extend_partial_cmp_rank.
  destruct (Z.compare_spec (high_extend_rank a) (high_extend_rank b));
    repeat case_bool_decide; done || lia.
Qed.

(** The signatures of timeouts, node by node. *)
Definition timeout_sig (nt : NodeId * Timeout) : NodeId * SignatureType :=
  (nt.1, t_timeout_signature nt.2).

Lemma map_values_push {K A} `{Countable K} (m : gmap K (list A)) (k : K) (x : A) :
  concat (map_to_list (<[k := default [] (m !! k) ++ [x]]> m)).*2 ≡ₚ
  concat (map_to_list m).*2 ++ [x].
Proof.
  destruct (m !! k) as [g|] eqn:Hk; simpl.
  - rewrite <-(insert_id m k g) at 2 by done. rewrite <-insert_delete_eq.
    rewrite <-(insert_delete_eq m k g).
    rewrite !map_to_list_insert by apply lookup_delete_eq. csimpl.
    rewrite <-!(assoc_L (++)). apply Permutation_app_head, Permutation_app_comm.
  - rewrite map_to_list_insert by done. simpl. apply Permutation_cons_append.
Qed.

Lemma tc_new_collect_perm l sigs h :
  concat (map_to_list (tc_new_collect l sigs h).1).*2 ≡ₚ
  concat (map_to_list sigs).*2 ++ (timeout_sig <$> l).
Proof.
  revert sigs h. induction l as [|[n t] l IH]; intros sigs h; csimpl.
  - by rewrite app_nil_r.
  - rewrite IH, map_values_push. by rewrite <-(assoc_L (++)).
Qed.

Lemma tc_new_collect_groups l sigs h tm g ns :
  (tc_new_collect l sigs h).1 !! tm = Some g → ns ∈ g →
  (∃ g0, sigs !! tm = Some g0 ∧ ns ∈ g0) ∨
  ∃ t, (ns.1, t) ∈ l ∧ t_tminfo t = tm ∧ t_timeout_signature t = ns.2.
Proof.
  revert sigs h. induction l as [|[n t] l IH]; intros sigs h; simpl; [naive_solver|].
  intros Hg Hns. destruct (IH _ _ Hg Hns) as [(g0 & Hg0 & Hin)|(t' & ? & ? & ?)].
  - apply lookup_insert_Some in Hg0 as [[<- <-]|[? ?]]; [|by left; eauto].
    apply elem_of_app in Hin as [Hin| ->%list_elem_of_singleton].
    + destruct (sigs !! t_tminfo t); [by left; eauto|set_solver].
    + right. exists t. split; [left|done].
  - right. exists t'. split; [by right|done].
Qed.

Lemma tc_new_collect_nonempty l sigs h :
  map_Forall (λ _ g, g ≠ []) sigs → map_Forall (λ _ g, g ≠ []) (tc_new_collect l sigs h).1.
Proof.
  revert sigs h. induction l as [|[n t] l IH]; intros sigs h Hs; simpl; [done|].
  apply IH. apply map_Forall_insert_2; [|done]. by destruct (default _ _).
Qed.

Lemma tc_new_collect_highest l sigs h :
  let h' := (tc_new_collect l sigs h).2 in
  (h' = h ∨ ∃ n t, (n, t) ∈ l ∧ h' = high_extend_from (t_high_extend t)) ∧
  high_extend_rank h <= high_extend_rank h' ∧
  (∀ n t, (n, t) ∈ l → high_extend_rank (high_extend_from (t_high_extend t)) <= high_extend_rank h').
Proof.
  revert sigs h. induction l as [|[n t] l IH]; intros sigs h; simpl.
  { split_and!; [by left|done|set_solver]. }
  set (h1 := if high_extend_gt _ _ then _ else _).
  destruct (IH (<[t_tminfo t := default [] (sigs !! t_tminfo t) ++ [(n, t_timeout_signature t)]]> sigs) h1)
    as (Hor & Hle & Hall).
  assert (high_extend_rank h <= high_extend_rank h1 ∧
    high_extend_rank (high_extend_from (t_high_extend t)) <= high_extend_rank h1 ∧
    (h1 = h ∨ h1 = high_extend_from (t_high_extend t))) as (? & ? & ?).
  { unfold h1. rewrite high_extend_gt_rank. case_bool_decide; split_and!; auto; lia. }
  split_and!.
  - destruct Hor as [->|(n' & t' & ? & ->)]; [set_solver|]. right. exists n', t'. split; [by right|done].
  - lia.
  - intros n' t' [[= -> ->]|Hin]%elem_of_cons; [lia|eauto].
Qed.

(** The rounds a signature collection of a timeout certificate is listed with. *)
Definition htr_rounds (t : HighTipRoundSigColTuple) : Round * Round :=
  (htr_high_qc_round t, htr_high_tip_round t).
Definition tminfo_rounds (t : TimeoutInfo) : Round * Round :=
  (tm_high_qc_round t, tm_high_tip_round t).

(** The nodes whose signature over a timeout of the round each collection carries. *)
Definition tip_rounds_signers (vm : ValidatorMapping) (epoch : Epoch) (round : Round)
    (tip_rounds : list HighTipRoundSigColTuple) (signers : list (list NodeId)) : Prop :=
  Forall2 (λ htr nodes,
    sct_verify SD_Timeout (htr_sigs htr) vm
      (timeout_digest (mkTimeoutInfo epoch round (htr_high_qc_round htr) (htr_high_tip_round htr)))
    = Ok nodes) tip_rounds signers.

(** A collection made of the group of each [TimeoutInfo] verifies to the nodes
    of the group. *)
Lemma tc_new_tip_rounds_verify `{!SignatureCollectionLaws P} vm l epoch round tip_rounds :
  mapping_injective vm → NoDup (concat l.*2).*1 →
  (∀ tg, tg ∈ l → tm_epoch tg.1 = epoch ∧ tm_round tg.1 = round) →
  tc_new_tip_rounds vm l = Ok tip_rounds →
  htr_rounds <$> tip_rounds = (tminfo_rounds <$> l.*1) ∧
  ∃ signers, tip_rounds_signers vm epoch round tip_rounds signers ∧
    concat signers ≡ₚ (concat l.*2).*1.
Proof.
  intros Hinj. revert tip_rounds. induction l as [|[tm g] l IH]; intros tip_rounds; csimpl.
  { intros _ _ [= <-]. split; [done|]. exists []. split; [constructor|done]. }
  rewrite fmap_app, NoDup_app. intros (Hg & _ & Hl) Hr.
  destruct (sct_new _ _ _ _) as [sct|e] eqn:Hsct; [|done].
  destruct (tc_new_tip_rounds vm l) as [trs|e] eqn:Htr; [|done]. intros [= <-].
  destruct (IH trs Hl) as (Heq & signers & Hf & Hperm); [set_solver|done|].
  destruct (sct_new_verify _ _ _ _ _ Hinj Hsct Hg) as (nodes & Hv & Hp).
  split; [csimpl; by rewrite Heq|].
  exists (nodes :: signers). split; [|simpl; by rewrite Hp, Hperm].
  constructor; [|done]. simpl. destruct (Hr (tm, g)) as [<- <-]; [left|]. by destruct tm.
Qed.

(** The errors of [TimeoutCertificate::new] are invalid signatures it was given. *)
Lemma tc_new_tip_rounds_Err `{!SignatureCollectionLaws P} vm l e :
  (∀ n, n ∈ (concat l.*2).*1 → is_Some (mapping vm !! n)) → NoDup (concat l.*2).*1 →
  tc_new_tip_rounds vm l = Err e →
  ∃ bad, e = InvalidSignaturesCreate bad ∧ bad ≠ [] ∧ ∀ ns, ns ∈ bad → ns ∈ concat l.*2.
Proof.
  induction l as [|[tm g] l IH]; csimpl; [done|].
  rewrite fmap_app, NoDup_app. intros Hn (Hg & _ & Hl).
  destruct (sct_new _ _ _ _) as [sct|e'] eqn:Hsct.
  - destruct (tc_new_tip_rounds vm l) as [trs|e'] eqn:Htr; [done|]. intros [= ->].
    destruct IH as (bad & ? & ? & Hbad); [set_solver|done|done|].
    exists bad. split_and!; [done..|]. intros ns ?%Hbad. set_solver.
  - intros [= ->]. assert (∀ n, n ∈ g.*1 → is_Some (mapping vm !! n)) as Hng by set_solver.
    destruct (sct_new_errors _ _ _ _ _ Hng Hg Hsct) as [bad ->].
    apply sct_new_invalid in Hsct as (? & Hbad & _). exists bad. split_and!; [done..|].
    intros ns ?%Hbad. set_solver.
Qed.

Lemma genesis_qc_ok `{!SignatureCollectionLaws P} :
  ∃ qc, genesis_qc = Ret qc ∧ qc_round qc = GENESIS_ROUND ∧ qc_block_id qc = GENESIS_BLOCK_ID.
Proof.
  unfold genesis_qc, sct_empty. destruct (sct_new_empty SD_Vote []) as [sc ->]. simpl. by eexists.
Qed.

Lemma tc_new_spec `{!SignatureCollectionLaws P} epoch round l vm tc :
  mapping_injective vm → NoDup l.*1 →
  (∀ n t, (n, t) ∈ l → tm_epoch (t_tminfo t) = epoch ∧ tm_round (t_tminfo t) = round) →
  tc_new epoch round l vm = Ret (Ok tc) →
  tc_epoch tc = epoch ∧ tc_round tc = round ∧
  ((∃ q, genesis_qc = Ret q ∧ tc_high_extend tc = HE_Qc q) ∨
   ∃ n t, (n, t) ∈ l ∧ tc_high_extend tc = high_extend_from (t_high_extend t)) ∧
  (∀ n t, (n, t) ∈ l →
     high_extend_rank (high_extend_from (t_high_extend t)) <= high_extend_rank (tc_high_extend tc)) ∧
  (∀ htr, htr ∈ tc_tip_rounds tc → ∃ n t, (n, t) ∈ l ∧ htr_rounds htr = tminfo_rounds (t_tminfo t)) ∧
  NoDup (htr_rounds <$> tc_tip_rounds tc) ∧
  ∃ signers, tip_rounds_signers vm epoch round (tc_tip_rounds tc) signers ∧
    concat signers ≡ₚ l.*1.
Proof.
  intros Hinj Hnd Hround Htc.
  unfold tc_new in Htc. apply bind_Ret_inv in Htc as (genesis & Hgen & Htc).
  pose proof (tc_new_collect_perm l ∅ (HE_Qc genesis)) as Hperm.
  pose proof (tc_new_collect_highest l ∅ (HE_Qc genesis)) as (Hor & Hle & Hmax).
  pose proof (tc_new_collect_groups l ∅ (HE_Qc genesis)) as Hgr.
  pose proof (tc_new_collect_nonempty l ∅ (HE_Qc genesis) (map_Forall_empty _)) as Hne.
  destruct (tc_new_collect l ∅ (HE_Qc genesis)) as [sigs he] eqn:Hcol. simpl in *.
  destruct (tc_new_tip_rounds vm (hash_iter sigs)) as [trs|e] eqn:Htr; [|done]. simplify_eq/=.
  assert (concat (hash_iter sigs).*2 ≡ₚ timeout_sig <$> l) as Hsigs.
  { by rewrite hash_iter_perm. }
  assert ((concat (hash_iter sigs).*2).*1 ≡ₚ l.*1) as Hnodes.
  { rewrite Hsigs, <-list_fmap_compose. by apply Permutation_refl', list_fmap_ext. }
  assert (∀ tm g, (tm, g) ∈ hash_iter sigs → ∃ n t, (n, t) ∈ l ∧ t_tminfo t = tm) as Hgroup.
  { intros tm g Htm%elem_of_hash_iter. destruct g as [|ns g']; [by apply Hne in Htm|].
    destruct (Hgr tm (ns :: g') ns Htm) as [(? & ?%lookup_empty_Some & _)|(t & Hin & <- & _)];
      [left|done|eauto]. }
  assert (∀ tg, tg ∈ hash_iter sigs → tm_epoch tg.1 = epoch ∧ tm_round tg.1 = round) as Her.
  { intros [tm g] (n & t & Hin & <-)%Hgroup. eauto. }
  destruct (tc_new_tip_rounds_verify vm (hash_iter sigs) epoch round trs) as (Hrs & signers & Hf & Hp);
    [done|by rewrite Hnodes|done|done|].
  split_and!; [done|done| | | | |].
  - destruct Hor as [->|(n & t & ? & ->)]; [left; eauto|right; eauto].
  - intros n t Hin. by apply Hmax in Hin.
  - intros htr Hhtr. assert (htr_rounds htr ∈ (tminfo_rounds <$> (hash_iter sigs).*1)) as Hin.
    { rewrite <-Hrs. by apply list_elem_of_fmap_2. }
    apply list_elem_of_fmap in Hin as (tm & -> & ([tm' g] & -> & Htm)%list_elem_of_fmap).
    apply Hgroup in Htm as (n & t & Hin & <-). eauto.
  - rewrite Hrs. apply NoDup_fmap_2_strong; [|apply NoDup_fst_hash_iter].
    intros tm1 tm2 ([tm1' g1] & -> & Hin1)%list_elem_of_fmap ([tm2' g2] & -> & Hin2)%list_elem_of_fmap Heq.
    apply Her in Hin1 as [? ?]. apply Her in Hin2 as [? ?]. destruct tm1', tm2'. simpl in *.
    unfold tminfo_rounds in Heq. simpl in Heq. congruence.
  - exists signers. split; [done|]. by rewrite Hp.
Qed.

Lemma tc_new_collect_keys l sigs h tm :
  (∃ n t, (n, t) ∈ l ∧ t_tminfo t = tm) ∨ is_Some (sigs !! tm) →
  is_Some ((tc_new_collect l sigs h).1 !! tm).
Proof.
  revert sigs h. induction l as [|[n t] l IH]; intros sigs h; simpl; [intros [(? & ? & ?%elem_of_nil & _)|?]; done|].
  intros Hor. apply IH. destruct (decide (t_tminfo t = tm)) as [<-|Hne].
  - right. rewrite lookup_insert_eq. eauto.
  - rewrite lookup_insert_ne by done. destruct Hor as [(n' & t' & [[= -> ->]|Hin]%elem_of_cons & <-)|?]; eauto.
    done.
Qed.

(** Every timeout is in one of the collections. *)
Lemma tc_new_covers epoch round l vm tc n t :
  tc_new epoch round l vm = Ret (Ok tc) → (n, t) ∈ l →
  tminfo_rounds (t_tminfo t) ∈ htr_rounds <$> tc_tip_rounds tc.
Proof.
  intros Htc Hin. unfold tc_new in Htc. apply bind_Ret_inv in Htc as (genesis & _ & Htc).
  pose proof (tc_new_collect_keys l ∅ (HE_Qc genesis) (t_tminfo t)) as [g Hg]; [eauto|].
  destruct (tc_new_collect l ∅ (HE_Qc genesis)) as [sigs he]. simpl in *.
  destruct (tc_new_tip_rounds vm (hash_iter sigs)) as [trs|e] eqn:Htr; [|done]. simplify_eq/=.
  apply elem_of_hash_iter in Hg. clear -Htr Hg. revert trs Htr.
  induction (hash_iter sigs) as [|[tm g'] its IH]; intros trs; simpl; [by apply elem_of_nil in Hg|].
  destruct (sct_new _ _ _ _); [|done]. destruct (tc_new_tip_rounds vm its) as [trs'|]; [|done]. intros [= <-].
  csimpl. apply elem_of_cons in Hg as [[= <- <-]|Hg]; [by left|]. right. by apply IH.
Qed.

(** With distinct nodes of the mapping, creation fails only on signatures it
    reports. *)
Lemma tc_new_total `{!SignatureCollectionLaws P} epoch round l vm :
  NoDup l.*1 → (∀ n, n ∈ l.*1 → is_Some (mapping vm !! n)) →
  (∃ tc, tc_new epoch round l vm = Ret (Ok tc)) ∨
  ∃ bad, tc_new epoch round l vm = Ret (Err (InvalidSignaturesCreate bad)) ∧
    bad ≠ [] ∧ ∀ ns, ns ∈ bad → ns ∈ timeout_sig <$> l.
Proof.
  intros Hnd Hin. unfold tc_new. destruct genesis_qc_ok as (genesis & -> & _). simpl.
  pose proof (tc_new_collect_perm l ∅ (HE_Qc genesis)) as Hperm.
  destruct (tc_new_collect l ∅ (HE_Qc genesis)) as [sigs he] eqn:Hcol. simpl in *.
  assert (concat (hash_iter sigs).*2 ≡ₚ timeout_sig <$> l) as Hsigs by by rewrite hash_iter_perm.
  assert ((concat (hash_iter sigs).*2).*1 ≡ₚ l.*1) as Hnodes.
  { rewrite Hsigs, <-list_fmap_compose. by apply Permutation_refl', list_fmap_ext. }
  destruct (tc_new_tip_rounds vm (hash_iter sigs)) as [trs|e] eqn:Htr; [by left; eauto|right].
  apply tc_new_tip_rounds_Err in Htr as (bad & -> & ? & Hbad).
  - exists bad. split_and!; [done|done|]. intros ns Hns%Hbad. by rewrite <-Hsigs.
  - intros n. rewrite Hnodes. auto.
  - by rewrite Hnodes.
Qed.
End lemmas.

(** * Properties *)

(** [TimeoutCertificate::new] from timeouts of one round and epoch by
    distinct nodes: the certificate extends one of the timeouts (or genesis) and
    none of them extends higher, and every one of its signature collections
    verifies for the rounds it is listed with, the signers of all of them
    together being exactly the nodes that timed out, each once. *)
Theorem tc_new_correct `{P : Protocol} `{HashOrder} `{!SignatureCollectionLaws P}
    (epoch : Epoch) (round : Round) (l : list (NodeId * Timeout)) (vm : ValidatorMapping)
    (tc : TimeoutCertificate)
    (Hinj : mapping_injective vm) (Hnd : NoDup l.*1)
    (Hround : ∀ n t, (n, t) ∈ l → tm_epoch (t_tminfo t) = epoch ∧ tm_round (t_tminfo t) = round)
    (Htc : tc_new epoch round l vm = Ret (Ok tc)) :
  tc_epoch tc = epoch ∧ tc_round tc = round ∧
  ((∃ q, genesis_qc = Ret q ∧ tc_high_extend tc = HE_Qc q) ∨
   ∃ n t, (n, t) ∈ l ∧ tc_high_extend tc = high_extend_from (t_high_extend t)) ∧
  (∀ n t, (n, t) ∈ l →
     high_extend_gt (high_extend_from (t_high_extend t)) (tc_high_extend tc) = false) ∧
  ∃ signers, tip_rounds_signers vm epoch round (tc_tip_rounds tc) signers ∧
    concat signers ≡ₚ l.*1.
Proof.
  destruct (tc_new_spec epoch round l vm tc) as (? & ? & ? & Hmax & _ & _ & ?); [done..|].
  split_and!; [done|done|done| |done].
  intros n t Hin%Hmax. rewrite high_extend_gt_rank. apply bool_decide_eq_false. lia.
Qed.

(** ** Concrete data *)

Definition nop_genesis_qc : @QuorumCertificate NopProtocol :=
  @mkQC NopProtocol (mkVote GENESIS_BLOCK_ID GENESIS_ROUND 1) (mkMultiSig []).

(** The timeout of round 5 by a node that has seen nothing but genesis. *)
Definition nop_timeout (n : NodeId) : @Timeout NopProtocol :=
  @timeout_new NopProtocol n (mkTimeoutInfo 1 5 0 0) (HE_Qc nop_genesis_qc) None.

Definition nop_timeouts : list (NodeId * @Timeout NopProtocol) :=
  [(1, nop_timeout 1); (2, nop_timeout 2); (4, nop_timeout 4)].

Definition nop_timeout_certificate : @TimeoutCertificate NopProtocol :=
  @mkTC NopProtocol 1 5
    [@mkHighTipRoundSigColTuple NopProtocol 0 0
       (mkMultiSig [t_timeout_signature (nop_timeout 1); t_timeout_signature (nop_timeout 2);
                    t_timeout_signature (nop_timeout 4)])]
    (HE_Qc nop_genesis_qc).

Lemma tc_new_correct_witness :
  let tc := nop_timeout_certificate in
  let l := nop_timeouts in
  tc_epoch tc = 1 ∧ tc_round tc = 5 ∧
  ((∃ q, genesis_qc = Ret q ∧ tc_high_extend tc = HE_Qc q) ∨
   ∃ n t, (n, t) ∈ l ∧ tc_high_extend tc = high_extend_from (t_high_extend t)) ∧
  (∀ n t, (n, t) ∈ l →
     high_extend_gt (high_extend_from (t_high_extend t)) (tc_high_extend tc) = false) ∧
  ∃ signers, tip_rounds_signers four_mapping 1 5 (tc_tip_rounds tc) signers ∧
    concat signers ≡ₚ l.*1.
Proof.
  apply (@tc_new_correct NopProtocol map_order NopProtocol_laws 1 5 nop_timeouts four_mapping).
  - apply four_mapping_injective.
  - by apply (bool_decide_unpack _).
  - intros n t Hin. repeat (apply elem_of_cons in Hin as [[= -> ->]|Hin]; [done|]).
    by apply not_elem_of_nil in Hin.
  - vm_decide.
Defined.

(** The order on what a timeout extends is a strict weak order on rounds in
    which a certificate beats a tip of its round; it never orders two tips, or
    two certificates, of one round. *)
Theorem high_extend_gt_order `{P : Protocol} (a b c : HighExtend) :
  high_extend_gt a a = false ∧
  (high_extend_gt a b = true → high_extend_gt b a = false) ∧
  (high_extend_gt a b = true → high_extend_gt a c = true ∨ high_extend_gt c b = true) ∧
  (high_extend_partial_cmp a b = None ↔
   match a, b with
   | HE_Tip t1, HE_Tip t2 =>
       h_block_round (tip_block_header t1) = h_block_round (tip_block_header t2)
   | HE_Qc q1, HE_Qc q2 => qc_round q1 = qc_round q2
   | _, _ => False
   end).
Proof.
  rewrite !high_extend_gt_rank, high_extend_partial_cmp_rank, !bool_decide_eq_true, !bool_decide_eq_false.
  split_and!; [lia|lia|lia|].
  case_bool_decide as Hr; split; intros Hc; try done; destruct a, b; simpl in *; lia.
Qed.
