(* ===== verification/ChainConfig.v ===== *)
(** Chain configurations and revisions (src/monad-chain-config/src). *)

From S2P Require Import Prelude Types.

#[local] Open Scope Z_scope.

(** [std::time::Duration], in nanoseconds; its arithmetic panics on overflow. *)
Notation Duration := Z (only parsing).
Definition Duration_MAX : Duration := 2 ^ 64 * 10 ^ 9 - 1.
Definition duration_add (a b : Duration) : exec Duration := checked_add Duration_MAX a b.
Definition duration_mul (a : Duration) (n : Z) : exec Duration :=
  if bool_decide (a * n <= Duration_MAX) then Ret (a * n) else Panic.
Definition from_millis (ms : Z) : Duration := ms * 10 ^ 6.

Record ChainParams := mkChainParams {
  tx_limit : Z;
  proposal_gas_limit : Z;
  proposal_byte_limit : Z;
  vote_pace : Duration;
}.

Definition CHAIN_PARAMS_V_0_7_0 : ChainParams :=
  mkChainParams 10000 300000000 4000000 (from_millis 1000).
Definition CHAIN_PARAMS_V_0_8_0 : ChainParams :=
  mkChainParams 5000 150000000 2000000 (from_millis 500).
Definition CHAIN_PARAMS_V_0_10_0 : ChainParams :=
  mkChainParams 5000 150000000 2000000 (from_millis 400).
Definition CHAIN_PARAMS_LATEST : ChainParams := CHAIN_PARAMS_V_0_10_0.

Inductive MonadChainRevision := V_0_7_0 | V_0_8_0 | V_0_10_0.

Definition chain_params (r : MonadChainRevision) : ChainParams :=
  match r with
  | V_0_7_0 => CHAIN_PARAMS_V_0_7_0
  | V_0_8_0 => CHAIN_PARAMS_V_0_8_0
  | V_0_10_0 => CHAIN_PARAMS_V_0_10_0
  end.

(** The derived [Ord]. *)
Definition chain_revision_rank (r : MonadChainRevision) : Z :=
  match r with V_0_7_0 => 0 | V_0_8_0 => 1 | V_0_10_0 => 2 end.

Inductive MonadExecutionRevision := V_ZERO | V_ONE | V_TWO.
Definition execution_revision_rank (r : MonadExecutionRevision) : Z :=
  match r with V_ZERO => 0 | V_ONE => 1 | V_TWO => 2 end.

(** [execution_chain_params().max_code_size] *)
Definition max_code_size (r : MonadExecutionRevision) : Z :=
  match r with V_ZERO => 24 * 1024 | V_ONE => 24 * 1024 | V_TWO => 128 * 1024 end.

(** [trait ChainConfig<CR>]; a revision is used through its parameters. *)
Class ChainConfig := {
  chain_id : Z;
  get_chain_revision : Round → ChainParams;
  get_execution_chain_revision : Z → MonadExecutionRevision;
}.

Record MonadChainConfig := mkMonadChainConfig {
  mcc_chain_id : Z;
  v_0_7_0_activation : Round;
  v_0_8_0_activation : Round;
  v_0_10_0_activation : Round;
  execution_v_one_activation : Z;
  execution_v_two_activation : Z;
}.

Inductive ChainConfigError :=
| WrongOverrideChainId (id : Z)
| UnsupportedChainId (id : Z).

Definition MONAD_MAINNET_CHAIN_ID : Z := 143.
Definition MONAD_TESTNET_CHAIN_ID : Z := 10143.
Definition MONAD_DEVNET_CHAIN_ID : Z := 20143.
Definition MONAD_TESTNET2_CHAIN_ID : Z := 30143.

Definition MONAD_DEVNET_CHAIN_CONFIG : MonadChainConfig :=
  mkMonadChainConfig MONAD_DEVNET_CHAIN_ID Round_MIN Round_MIN Round_MIN 0 0.
Definition MONAD_TESTNET_CHAIN_CONFIG : MonadChainConfig :=
  mkMonadChainConfig MONAD_TESTNET_CHAIN_ID Round_MIN 3263000 32026929 1739559600 1741978800.
Definition MONAD_TESTNET2_CHAIN_CONFIG : MonadChainConfig :=
  mkMonadChainConfig MONAD_TESTNET2_CHAIN_ID Round_MIN Round_MIN 6487752 0 0.
Definition MONAD_MAINNET_CHAIN_CONFIG : MonadChainConfig :=
  mkMonadChainConfig MONAD_MAINNET_CHAIN_ID Round_MIN Round_MIN 15643179 0 0.

Definition monad_chain_config_new (chain_id : Z) (devnet_override : option MonadChainConfig) :
    result MonadChainConfig ChainConfigError :=
  if bool_decide (chain_id = MONAD_MAINNET_CHAIN_ID) then Ok MONAD_MAINNET_CHAIN_CONFIG
  else if bool_decide (chain_id = MONAD_TESTNET_CHAIN_ID) then Ok MONAD_TESTNET_CHAIN_CONFIG
  else if bool_decide (chain_id = MONAD_DEVNET_CHAIN_ID) then
    match devnet_override with
    | None => Ok MONAD_DEVNET_CHAIN_CONFIG
    | Some override_config =>
        if bool_decide (mcc_chain_id override_config ≠ MONAD_DEVNET_CHAIN_ID)
        then Err (WrongOverrideChainId (mcc_chain_id override_config))
        else Ok override_config
    end
  else if bool_decide (chain_id = MONAD_TESTNET2_CHAIN_ID) then Ok MONAD_TESTNET2_CHAIN_CONFIG
  else Err (UnsupportedChainId chain_id).

Definition monad_get_chain_revision (c : MonadChainConfig) (round : Round) : MonadChainRevision :=
  if bool_decide (round >= v_0_10_0_activation c) then V_0_10_0
  else if bool_decide (round >= v_0_8_0_activation c) then V_0_8_0
  else if bool_decide (round >= v_0_7_0_activation c) then V_0_7_0
  else V_0_7_0.

Definition monad_get_execution_chain_revision (c : MonadChainConfig) (execution_timestamp_s : Z) :
    MonadExecutionRevision :=
  if bool_decide (execution_timestamp_s >= execution_v_two_activation c) then V_TWO
  else if bool_decide (execution_timestamp_s >= execution_v_one_activation c) then V_ONE
  else V_ZERO.

Definition MonadChainConfig_type (c : MonadChainConfig) : ChainConfig := {|
  chain_id := mcc_chain_id c;
  get_chain_revision round := chain_params (monad_get_chain_revision c round);
  get_execution_chain_revision := monad_get_execution_chain_revision c;
|}.

(** * Properties *)

(** Revisions never go back: in every configuration a chain can be started
    with, a later round is in the same or a later revision, a later execution
    timestamp in the same or a later execution revision, and the vote pace never
    grows; a configuration whose activations are out of order is no exception. *)
Theorem chain_revision_monotone (c : MonadChainConfig) (r1 r2 : Round) (t1 t2 : Z)
    (Hr : r1 <= r2) (Ht : t1 <= t2) :
  chain_revision_rank (monad_get_chain_revision c r1) <=
    chain_revision_rank (monad_get_chain_revision c r2) ∧
  execution_revision_rank (monad_get_execution_chain_revision c t1) <=
    execution_revision_rank (monad_get_execution_chain_revision c t2) ∧
  vote_pace (chain_params (monad_get_chain_revision c r2)) <=
    vote_pace (chain_params (monad_get_chain_revision c r1)) ∧
  max_code_size (monad_get_execution_chain_revision c t1) <=
    max_code_size (monad_get_execution_chain_revision c t2).
Proof.
  unfold monad_get_chain_revision, monad_get_execution_chain_revision.
  repeat case_bool_decide; vm_compute; split_and!; intuition (discriminate || lia).
Qed.

Lemma chain_revision_monotone_witness :
  chain_revision_rank (monad_get_chain_revision MONAD_TESTNET_CHAIN_CONFIG 3262999) <=
    chain_revision_rank (monad_get_chain_revision MONAD_TESTNET_CHAIN_CONFIG 32026929) ∧
  execution_revision_rank (monad_get_execution_chain_revision MONAD_TESTNET_CHAIN_CONFIG 0) <=
    execution_revision_rank (monad_get_execution_chain_revision MONAD_TESTNET_CHAIN_CONFIG 1739559600) ∧
  vote_pace (chain_params (monad_get_chain_revision MONAD_TESTNET_CHAIN_CONFIG 32026929)) <=
    vote_pace (chain_params (monad_get_chain_revision MONAD_TESTNET_CHAIN_CONFIG 3262999)) ∧
  max_code_size (monad_get_execution_chain_revision MONAD_TESTNET_CHAIN_CONFIG 0) <=
    max_code_size (monad_get_execution_chain_revision MONAD_TESTNET_CHAIN_CONFIG 1739559600).
Proof. apply chain_revision_monotone; lia. Defined.
