(* ===== verification/Safety.v ===== *)
(** The stateful safety checks of a node
    (src/monad-consensus/src/validation/safety.rs): what it has voted for,
    declined to endorse, proposed and asked to recover. *)

From S2P Require Import Prelude Types ValidatorSet Crypto MultiSig ConsensusTypes.

#[local] Open Scope Z_scope.

Definition HANDLED_PROPOSAL_CACHE_SIZE : nat := 100.

Record HighNoEndorse := mkHighNoEndorse { hne_round : Round; hne_tip : BlockId }.

(** [BTreeSet::pop_first] *)
Definition btree_set_min (s : gset Z) : option Z := head (merge_sort Z.le (elements s)).
Definition pop_first (s : gset Z) : gset Z :=
  match btree_set_min s with Some x => s ∖ {[ x ]} | None => s end.

Section safety.
Context `{P : Protocol}.

Record Safety := mkSafety {
  maybe_high_tip : option ConsensusTip;
  high_certificate_qc_round : Round;
  highest_vote : Round;
  highest_no_endorse : HighNoEndorse;
  highest_propose : Round;
  highest_recovery_request : Round;
  handled_proposals : gset Round;
}.

Definition safety_default : Safety :=
  mkSafety None GENESIS_ROUND GENESIS_ROUND (mkHighNoEndorse GENESIS_ROUND GENESIS_BLOCK_ID)
    GENESIS_ROUND GENESIS_ROUND ∅.

Definition safety_new (high_certificate : RoundCertificate) (high_tip : option ConsensusTip) :
    exec Safety :=
  current_round ← round_add (rc_round high_certificate) 1;
  Ret (mkSafety high_tip (qc_round (rc_qc high_certificate)) current_round
         (mkHighNoEndorse current_round GENESIS_BLOCK_ID) current_round current_round ∅).

Definition set_highest_vote (s : Safety) (r : Round) : Safety :=
  mkSafety (maybe_high_tip s) (high_certificate_qc_round s) r (highest_no_endorse s)
    (highest_propose s) (highest_recovery_request s) (handled_proposals s).
Definition set_high_tip (s : Safety) (t : option ConsensusTip) : Safety :=
  mkSafety t (high_certificate_qc_round s) (highest_vote s) (highest_no_endorse s)
    (highest_propose s) (highest_recovery_request s) (handled_proposals s).
Definition set_high_certificate_qc_round (s : Safety) (r : Round) : Safety :=
  mkSafety (maybe_high_tip s) r (highest_vote s) (highest_no_endorse s)
    (highest_propose s) (highest_recovery_request s) (handled_proposals s).
Definition set_highest_no_endorse (s : Safety) (n : HighNoEndorse) : Safety :=
  mkSafety (maybe_high_tip s) (high_certificate_qc_round s) (highest_vote s) n
    (highest_propose s) (highest_recovery_request s) (handled_proposals s).
Definition set_highest_propose (s : Safety) (r : Round) : Safety :=
  mkSafety (maybe_high_tip s) (high_certificate_qc_round s) (highest_vote s)
    (highest_no_endorse s) r (highest_recovery_request s) (handled_proposals s).
Definition set_highest_recovery_request (s : Safety) (r : Round) : Safety :=
  mkSafety (maybe_high_tip s) (high_certificate_qc_round s) (highest_vote s)
    (highest_no_endorse s) (highest_propose s) r (handled_proposals s).
Definition set_handled_proposals (s : Safety) (h : gset Round) : Safety :=
  mkSafety (maybe_high_tip s) (high_certificate_qc_round s) (highest_vote s)
    (highest_no_endorse s) (highest_propose s) (highest_recovery_request s) h.

Definition safety_process_certificate (s : Safety) (certificate : RoundCertificate) : Safety :=
  let s := if bool_decide (qc_round (rc_qc certificate) > high_certificate_qc_round s)
           then set_high_certificate_qc_round s (qc_round (rc_qc certificate)) else s in
  match maybe_high_tip s with
  | Some tip =>
      if bool_decide (h_block_round (tip_block_header tip) <= high_certificate_qc_round s)
      then set_high_tip s None else s
  | None => s
  end.

Definition is_safe_to_vote (s : Safety) (round : Round) (last_round_tc_tip : option BlockId) : bool :=
  if bool_decide (round = hne_round (highest_no_endorse s)) &&
     bool_decide (last_round_tc_tip ≠ Some (hne_tip (highest_no_endorse s)))
  then false
  else bool_decide (round > highest_vote s).

Definition safety_vote (s : Safety) (round : Round) (last_round_tc_tip : option BlockId)
    (tip : ConsensusTip) : exec Safety :=
  _ ← assert (is_safe_to_vote s round last_round_tc_tip);
  let s := set_highest_vote s round in
  Ret (if bool_decide (h_block_round (tip_block_header tip) > high_certificate_qc_round s)
       then set_high_tip s (Some tip) else set_high_tip s None).

Definition is_safe_to_no_endorse (s : Safety) (round : Round) : bool :=
  bool_decide (round > Z.max (hne_round (highest_no_endorse s)) (highest_vote s)).

Definition safety_no_endorse (s : Safety) (round : Round) (tip : BlockId) : exec Safety :=
  _ ← assert (is_safe_to_no_endorse s round);
  Ret (set_highest_no_endorse s (mkHighNoEndorse round tip)).

Definition safety_timeout (s : Safety) (round : Round) : exec Safety :=
  _ ← assert (bool_decide (round >= highest_vote s));
  Ret (set_highest_vote s round).

Definition is_safe_to_propose (s : Safety) (round : Round) : bool :=
  bool_decide (round > Z.max (highest_propose s) (highest_vote s)).

Definition safety_propose (s : Safety) (round : Round) : exec Safety :=
  _ ← assert (is_safe_to_propose s round);
  Ret (set_highest_propose s round).

Definition is_safe_to_recovery_request (s : Safety) (round : Round) : bool :=
  bool_decide (round > highest_recovery_request s).

Definition safety_recovery_request (s : Safety) (round : Round) : exec Safety :=
  _ ← assert (is_safe_to_recovery_request s round);
  Ret (set_highest_recovery_request s round).

Definition is_safe_to_handle_proposal (s : Safety) (round : Round) : bool :=
  bool_decide (round ∉ handled_proposals s).

(** The [while] loop that bounds [handled_proposals]. *)
Fixpoint trim_handled (fuel : nat) (h : gset Round) : exec (gset Round) :=
  if bool_decide (HANDLED_PROPOSAL_CACHE_SIZE < size h)%nat then
    match fuel with
    | O => OutOfFuel
    | S fuel => trim_handled fuel (pop_first h)
    end
  else Ret h.

Definition safety_handle_proposal (s : Safety) (round : Round) : exec Safety :=
  _ ← assert (is_safe_to_handle_proposal s round);
  let h := {[ round ]} ∪ handled_proposals s in
  h ← trim_handled (size h) h;
  Ret (set_handled_proposals s h).

(** ** Sequences of operations *)

Inductive SafetyOp :=
| OpCertificate (c : RoundCertificate)
| OpVote (round : Round) (last_round_tc_tip : option BlockId) (tip : ConsensusTip)
| OpNoEndorse (round : Round) (tip : BlockId)
| OpTimeout (round : Round)
| OpPropose (round : Round)
| OpRecoveryRequest (round : Round)
| OpHandleProposal (round : Round).

Definition safety_step (s : Safety) (op : SafetyOp) : exec Safety :=
  match op with
  | OpCertificate c => Ret (safety_process_certificate s c)
  | OpVote r tc_tip tip => safety_vote s r tc_tip tip
  | OpNoEndorse r tip => safety_no_endorse s r tip
  | OpTimeout r => safety_timeout s r
  | OpPropose r => safety_propose s r
  | OpRecoveryRequest r => safety_recovery_request s r
  | OpHandleProposal r => safety_handle_proposal s r
  end.

Fixpoint safety_run (s : Safety) (ops : list SafetyOp) : exec Safety :=
  match ops with
  | [] => Ret s
  | op :: ops => s ← safety_step s op; safety_run s ops
  end.

Definition vote_rounds : list SafetyOp → list Round :=
  omap (λ op, match op with OpVote r _ _ => Some r | _ => None end).
Definition no_endorse_rounds : list SafetyOp → list Round :=
  omap (λ op, match op with OpNoEndorse r _ => Some r | _ => None end).
Definition propose_rounds : list SafetyOp → list Round :=
  omap (λ op, match op with OpPropose r => Some r | _ => None end).
Definition recovery_rounds : list SafetyOp → list Round :=
  omap (λ op, match op with OpRecoveryRequest r => Some r | _ => None end).
End safety.

(** * Lemmas *)

Section lemmas.
Context `{P : Protocol}.
Implicit Types (s : Safety) (op : SafetyOp) (ops : list SafetyOp).

Lemma btree_set_min_spec (h : gset Z) :
  match btree_set_min h with
  | Some x => x ∈ h ∧ ∀ y, y ∈ h → x <= y
  | None => h = ∅
  end.
Proof.
  unfold btree_set_min. pose proof (merge_sort_Permutation Z.le (elements h)) as Hp.
  assert (StronglySorted Z.le (merge_sort Z.le (elements h))) as Hs.
  { apply StronglySorted_merge_sort; apply _. }
  destruct (merge_sort Z.le (elements h)) as [|x l]; simpl.
  - apply Permutation_nil_l in Hp. by apply leibniz_equiv, elements_empty_inv.
  - split; [apply elem_of_elements; rewrite <-Hp; left|].
    intros y Hy. apply elem_of_elements in Hy. rewrite <-Hp in Hy.
    apply elem_of_cons in Hy as [->|Hy]; [done|].
    apply StronglySorted_inv in Hs as [_ Hf]. rewrite Forall_forall in Hf. by apply Hf.
Qed.

(** The trimming loop ends within its fuel and keeps the highest rounds. *)
Lemma trim_handled_spec fuel (h : gset Z) :
  (size h <= fuel + HANDLED_PROPOSAL_CACHE_SIZE)%nat →
  ∃ h', trim_handled fuel h = Ret h' ∧ h' ⊆ h ∧
    size h' = Nat.min (size h) HANDLED_PROPOSAL_CACHE_SIZE ∧
    ∀ x y, x ∈ h → x ∉ h' → y ∈ h' → x < y.
Proof.
  revert h. induction fuel as [|fuel IH]; intros h Hf; simpl.
  { rewrite bool_decide_false by lia. exists h. split_and!; [done|done|lia|done]. }
  case_bool_decide as Hsz; [|exists h; split_and!; [done|done|lia|done]].
  unfold pop_first. pose proof (btree_set_min_spec h) as Hmin.
  destruct (btree_set_min h) as [m|].
  2:{ subst h. rewrite size_empty in Hsz. lia. }
  destruct Hmin as [Hm Hmin].
  assert (size (h ∖ {[ m ]}) = size h - 1)%nat as Hsize.
  { rewrite size_difference by set_solver. by rewrite size_singleton. }
  destruct (IH (h ∖ {[ m ]})) as (h' & -> & Hsub & Hs' & Hlt); [lia|].
  exists h'. split_and!; [done|set_solver|rewrite Hs'; unfold HANDLED_PROPOSAL_CACHE_SIZE in *; lia|].
  intros x y Hx Hnx Hy. destruct (decide (x = m)) as [->|].
  - assert (y ≠ m) by set_solver. assert (m <= y) by set_solver. lia.
  - apply Hlt; set_solver.
Qed.

(** What one operation does to the high-water marks. *)
Lemma safety_step_marks s op s' :
  safety_step s op = Ret s' →
  (highest_vote s <= highest_vote s' ∧
   ∀ r, (match op with OpVote r _ _ => Some r | _ => None end) = Some r →
     highest_vote s < r <= highest_vote s') ∧
  (hne_round (highest_no_endorse s) <= hne_round (highest_no_endorse s') ∧
   ∀ r, (match op with OpNoEndorse r _ => Some r | _ => None end) = Some r →
     hne_round (highest_no_endorse s) < r <= hne_round (highest_no_endorse s')) ∧
  (highest_propose s <= highest_propose s' ∧
   ∀ r, (match op with OpPropose r => Some r | _ => None end) = Some r →
     highest_propose s < r <= highest_propose s') ∧
  (highest_recovery_request s <= highest_recovery_request s' ∧
   ∀ r, (match op with OpRecoveryRequest r => Some r | _ => None end) = Some r →
     highest_recovery_request s < r <= highest_recovery_request s').
Proof.
  destruct op; simpl; intros Hs;
    unfold safety_vote, safety_no_endorse, safety_timeout, safety_propose,
      safety_recovery_request, safety_handle_proposal in *; exec_inv;
    unfold safety_process_certificate, is_safe_to_vote, is_safe_to_no_endorse, is_safe_to_propose,
      is_safe_to_recovery_request in *;
    repeat case_match; simplify_eq/=; rewrite ?bool_decide_eq_true in *;
    split_and!; intros; simplify_eq/=; try lia.
Qed.

Lemma safety_run_rounds (f : Safety → Z) (g : SafetyOp → option Round) s ops s' :
  (∀ s op s', safety_step s op = Ret s' →
     f s <= f s' ∧ ∀ r, g op = Some r → f s < r <= f s') →
  safety_run s ops = Ret s' →
  StronglySorted Z.lt (omap g ops) ∧ (∀ r, r ∈ omap g ops → f s < r) ∧ f s <= f s'.
Proof.
  intros Hfg. revert s. induction ops as [|op ops IH]; intros s; csimpl.
  { intros [= ->]. split_and!; [constructor|set_solver|lia]. }
  intros (s1 & Hs1 & Hrun)%bind_Ret_inv. apply Hfg in Hs1 as [Hle Hop].
  destruct (IH s1 Hrun) as (Hss & Hall & Hle').
  destruct (g op) as [r|]; [destruct (Hop r eq_refl)|].
  - split_and!; [constructor; [done|]| |lia].
    + apply Forall_forall. intros r' Hr'%Hall. lia.
    + intros r' [->|Hr'%Hall]%elem_of_cons; lia.
  - split_and!; [done| |lia]. intros r' Hr'%Hall. lia.
Qed.

Lemma safety_run_app s ops1 ops2 :
  safety_run s (ops1 ++ ops2) = (s1 ← safety_run s ops1; safety_run s1 ops2).
Proof.
  revert s. induction ops1 as [|op ops1 IH]; intros s; simpl; [done|].
  destruct (safety_step s op); simpl; [apply IH|done..].
Qed.

Lemma safety_run_no_endorse s ops s' :
  no_endorse_rounds ops = [] → safety_run s ops = Ret s' →
  highest_no_endorse s' = highest_no_endorse s.
Proof.
  revert s. induction ops as [|op ops IH]; intros s; csimpl; [naive_solver|].
  intros Hno (s1 & Hs1 & Hrun)%bind_Ret_inv.
  assert (highest_no_endorse s1 = highest_no_endorse s ∧ no_endorse_rounds ops = []) as [<- Hno'].
  { destruct op; simpl in *; try done; (split; [|done]);
      unfold safety_vote, safety_timeout, safety_propose,
        safety_recovery_request, safety_handle_proposal in *; exec_inv;
      unfold safety_process_certificate; repeat case_match; done. }
  eauto.
Qed.

Lemma voted_before_no_endorse s s' pre r mid r' tip post op :
  safety_run s (pre ++ op :: mid ++ OpNoEndorse r' tip :: post) = Ret s' →
  (op = OpTimeout r ∨ ∃ t b, op = OpVote r t b) → r < r'.
Proof.
  rewrite safety_run_app. intros (s1 & _ & Hrun)%bind_Ret_inv Hop. simpl in Hrun.
  apply bind_Ret_inv in Hrun as (s2 & Hs2 & Hrun).
  rewrite safety_run_app in Hrun. apply bind_Ret_inv in Hrun as (s3 & Hs3 & Hrun).
  simpl in Hrun. apply bind_Ret_inv in Hrun as (s4 & Hs4 & _).
  assert (r <= highest_vote s2).
  { destruct Hop as [->|(t & b & ->)]; simpl in Hs2.
    - unfold safety_timeout in Hs2. exec_inv. lia.
    - apply (safety_step_marks s1 (OpVote r t b)) in Hs2 as ((_ & Hr) & _).
      specialize (Hr r eq_refl). lia. }
  assert (highest_vote s2 <= highest_vote s3).
  { eapply (safety_run_rounds highest_vote _ _ _ _ (λ s op s' H, proj1 (safety_step_marks s op s' H))
      Hs3). }
  simpl in Hs4. unfold safety_no_endorse, is_safe_to_no_endorse in Hs4. exec_inv.
  apply bool_decide_eq_true in Ha. lia.
Qed.

Lemma no_endorsed_before_vote s s' pre r tip mid tc_tip b post :
  safety_run s (pre ++ OpNoEndorse r tip :: mid ++ OpVote r tc_tip b :: post) = Ret s' →
  no_endorse_rounds mid = [] → tc_tip = Some tip.
Proof.
  rewrite safety_run_app. intros (s1 & _ & Hrun)%bind_Ret_inv Hmid. simpl in Hrun.
  apply bind_Ret_inv in Hrun as (s2 & Hs2 & Hrun).
  rewrite safety_run_app in Hrun. apply bind_Ret_inv in Hrun as (s3 & Hs3 & Hrun).
  simpl in Hrun. apply bind_Ret_inv in Hrun as (s4 & Hs4 & _).
  assert (highest_no_endorse s3 = mkHighNoEndorse r tip) as Hne.
  { rewrite (safety_run_no_endorse _ _ _ Hmid Hs3).
    unfold safety_no_endorse in Hs2. exec_inv. done. }
  unfold safety_vote, is_safe_to_vote in Hs4. rewrite Hne in Hs4. simpl in Hs4. exec_inv.
  rewrite bool_decide_true in Ha by done. simpl in Ha.
  by case_bool_decide as Heq.
Qed.
End lemmas.

(** * Properties *)

(** No equivocation by the safety module: along any sequence of its
    operations that does not trip an assertion, the rounds voted for, the rounds
    not endorsed, the rounds proposed and the rounds of recovery requests are
    each strictly increasing and above where they started; no round is left
    un-endorsed once voted for or timed out; and a vote in a round whose
    timeout certificate was not endorsed carries that certificate's tip, unless
    a later round was not endorsed in between. *)
Theorem safety_no_equivocation `{P : Protocol} (s s' : Safety) (ops : list SafetyOp)
    (Hrun : safety_run s ops = Ret s') :
  (StronglySorted Z.lt (vote_rounds ops) ∧ ∀ r, r ∈ vote_rounds ops → highest_vote s < r) ∧
  (StronglySorted Z.lt (no_endorse_rounds ops) ∧
   ∀ r, r ∈ no_endorse_rounds ops → hne_round (highest_no_endorse s) < r) ∧
  (StronglySorted Z.lt (propose_rounds ops) ∧ ∀ r, r ∈ propose_rounds ops → highest_propose s < r) ∧
  (StronglySorted Z.lt (recovery_rounds ops) ∧
   ∀ r, r ∈ recovery_rounds ops → highest_recovery_request s < r) ∧
  (∀ pre r mid r' tip post op,
     ops = pre ++ op :: mid ++ OpNoEndorse r' tip :: post →
     (op = OpTimeout r ∨ ∃ t b, op = OpVote r t b) → r < r') ∧
  (∀ pre r tip mid tc_tip b post,
     ops = pre ++ OpNoEndorse r tip :: mid ++ OpVote r tc_tip b :: post →
     no_endorse_rounds mid = [] → tc_tip = Some tip).
Proof.
  pose proof (λ s op s' H, safety_step_marks s op s' H) as Hm.
  destruct (safety_run_rounds highest_vote _ s ops s' (λ s op s' H, proj1 (Hm s op s' H)) Hrun)
    as (Hv1 & Hv2 & _).
  destruct (safety_run_rounds (λ s, hne_round (highest_no_endorse s)) _ s ops s'
    (λ s op s' H, proj1 (proj2 (Hm s op s' H))) Hrun) as (Hn1 & Hn2 & _).
  destruct (safety_run_rounds highest_propose _ s ops s'
    (λ s op s' H, proj1 (proj2 (proj2 (Hm s op s' H)))) Hrun) as (Hp1 & Hp2 & _).
  destruct (safety_run_rounds highest_recovery_request _ s ops s'
    (λ s op s' H, proj2 (proj2 (proj2 (Hm s op s' H)))) Hrun) as (Hr1 & Hr2 & _).
  split_and!; [done..| |].
  - intros pre r mid r' tip post op -> Hop.
    by eapply voted_before_no_endorse in Hrun.
  - intros pre r tip mid tc_tip b post -> Hmid.
    by eapply no_endorsed_before_vote in Hrun.
Qed.

(** A certificate and a tip for concrete runs: the tip of round 5 over genesis. *)
Definition nop_header (round seq_num : Z) (qc : @QuorumCertificate NopProtocol) :
    @ConsensusBlockHeader NopProtocol :=
  @mkHeader NopProtocol round 1 qc 1 seq_num (1000 * round)
    (@round_signature_new NopProtocol round 1) [] tt (body_get_id (P := NopProtocol) (mkBody (P := NopProtocol) [])).
Definition nop_tip : @ConsensusTip NopProtocol :=
  @tip_new NopProtocol 1 (nop_header 5 1 nop_genesis_qc) None.
Definition nop_safety_ops : list (@SafetyOp NopProtocol) :=
  [OpNoEndorse 5 77; OpVote 5 (Some 77) nop_tip; OpTimeout 5;
   OpCertificate (RC_Tc nop_timeout_certificate); OpPropose 6; OpNoEndorse 6 78].

Lemma safety_no_equivocation_witness :
  ∃ s', safety_run (P := NopProtocol) safety_default nop_safety_ops = Ret s' ∧
  StronglySorted Z.lt (vote_rounds nop_safety_ops) ∧ 5 < 6 ∧ Some 77 = Some 77.
Proof.
  destruct (is_ret_spec (safety_run (P := NopProtocol) safety_default nop_safety_ops)) as [s' Hs'];
    [vm_compute; reflexivity|].
  exists s'. split; [exact Hs'|].
  destruct (safety_no_equivocation (P := NopProtocol) safety_default s' nop_safety_ops Hs')
    as ((? & _) & _ & _ & _ & Hne & Htip).
  split; [assumption|]. split.
  - apply (Hne [OpNoEndorse 5 77] 5
      [OpTimeout 5; OpCertificate (RC_Tc nop_timeout_certificate); OpPropose 6] 6 78 []
      (OpVote 5 (Some 77) nop_tip)); [reflexivity|eauto].
  - apply (Htip [] 5 77 [] (Some 77) nop_tip
      [OpTimeout 5; OpCertificate (RC_Tc nop_timeout_certificate); OpPropose 6; OpNoEndorse 6 78]);
      reflexivity.
Defined.

(** The cache of handled proposals is bounded and loses only the lowest
    rounds: handling a proposal that is safe to handle always succeeds, leaves at
    most [HANDLED_PROPOSAL_CACHE_SIZE] rounds, and every round it forgets is
    below every round it keeps. *)
Theorem handle_proposal_bounded `{P : Protocol} (s : Safety) (round : Round)
    (Hsafe : is_safe_to_handle_proposal s round = true) :
  ∃ s', safety_handle_proposal s round = Ret s' ∧
    (size (handled_proposals s') <= HANDLED_PROPOSAL_CACHE_SIZE)%nat ∧
    handled_proposals s' ⊆ {[ round ]} ∪ handled_proposals s ∧
    (∀ x y, x ∈ {[ round ]} ∪ handled_proposals s → x ∉ handled_proposals s' →
       y ∈ handled_proposals s' → x < y) ∧
    highest_vote s' = highest_vote s ∧ maybe_high_tip s' = maybe_high_tip s.
Proof.
  unfold safety_handle_proposal. rewrite Hsafe. simpl.
  destruct (trim_handled_spec (size ({[ round ]} ∪ handled_proposals s))
    ({[ round ]} ∪ handled_proposals s)) as (h & -> & Hsub & Hsize & Hlt); [lia|].
  eexists. split; [done|]. simpl. split_and!; [rewrite Hsize; lia|done..].
Qed.

Lemma handle_proposal_bounded_witness :
  ∃ s', safety_handle_proposal (P := NopProtocol) safety_default 5 = Ret s' ∧
    (size (handled_proposals s') <= HANDLED_PROPOSAL_CACHE_SIZE)%nat ∧
    handled_proposals s' ⊆ {[ 5 ]} ∪ ∅ ∧
    (∀ x y, x ∈ {[ 5 ]} ∪ (∅ : gset Z) → x ∉ handled_proposals s' →
       y ∈ handled_proposals s' → x < y) ∧
    highest_vote s' = GENESIS_ROUND ∧ maybe_high_tip s' = None.
Proof. apply (handle_proposal_bounded (P := NopProtocol) safety_default 5). reflexivity. Defined.
