(* ===== verification/Pacemaker.v ===== *)
(** The pacemaker (src/monad-consensus/src/pacemaker.rs): the current round, the
    certificate that entered it, and the timeouts collected in it. *)

From S2P Require Import Prelude Types ValidatorSet EpochManager Crypto MultiSig ConsensusTypes.
From S2P Require Import ChainConfig Safety.

#[local] Open Scope Z_scope.

Inductive PhaseHonest := PhaseHonest_Zero | PhaseHonest_One.

#[export] Instance PhaseHonest_eq_dec : EqDecision PhaseHonest.
Proof. solve_decision. Defined.

Section pacemaker.
Context `{P : Protocol} `{HashOrder} `{CCT : ChainConfig}.
Context {VT : Type} `{ValidatorSetType VT}.

Record Pacemaker := mkPacemaker {
  pm_delta : Duration;
  pm_local_processing : Duration;
  pm_current_epoch : Epoch;
  pm_high_certificate : RoundCertificate;
  pm_pending_timeouts : gmap NodeId Timeout;
  pm_phase : PhaseHonest;
}.

Inductive PacemakerCommand :=
| EnterRound (epoch : Epoch) (round : Round) (certificate : RoundCertificate)
| PrepareTimeout (timeout : TimeoutInfo) (high_extend : HighExtend)
    (last_round_certificate : option RoundCertificate)
| Schedule (round : Round) (duration : Duration)
| ScheduleReset.

Definition set_pm_phase (pm : Pacemaker) (ph : PhaseHonest) : Pacemaker :=
  mkPacemaker (pm_delta pm) (pm_local_processing pm) (pm_current_epoch pm)
    (pm_high_certificate pm) (pm_pending_timeouts pm) ph.
Definition set_pm_pending (pm : Pacemaker) (m : gmap NodeId Timeout) : Pacemaker :=
  mkPacemaker (pm_delta pm) (pm_local_processing pm) (pm_current_epoch pm)
    (pm_high_certificate pm) m (pm_phase pm).

Definition pacemaker_new (delta local_processing : Duration) (epoch_manager : EpochManager)
    (high_certificate : RoundCertificate) : exec Pacemaker :=
  current_round ← round_add (rc_round high_certificate) 1;
  current_epoch ← expect (get_epoch epoch_manager current_round);
  Ret (mkPacemaker delta local_processing current_epoch high_certificate ∅ PhaseHonest_Zero).

Definition get_current_round (pm : Pacemaker) : exec Round :=
  round_add (rc_round (pm_high_certificate pm)) 1.

Definition get_round_timer (pm : Pacemaker) (round : Round) : exec Duration :=
  let vote_delay := vote_pace (get_chain_revision round) in
  d3 ← duration_mul (pm_delta pm) 3;
  d ← duration_add d3 vote_delay;
  duration_add d (pm_local_processing pm).

Definition pm_process_certificate (pm : Pacemaker) (epoch_manager : EpochManager) (safety : Safety)
    (certificate : RoundCertificate) : exec (Pacemaker * Safety * list PacemakerCommand) :=
  if bool_decide (rc_round certificate <= rc_round (pm_high_certificate pm))
  then Ret (pm, safety, [])
  else
    let safety := safety_process_certificate safety certificate in
    current_round ← round_add (rc_round certificate) 1;
    current_epoch ← expect (get_epoch epoch_manager current_round);
    let pm := mkPacemaker (pm_delta pm) (pm_local_processing pm) current_epoch certificate ∅
                PhaseHonest_Zero in
    duration ← get_round_timer pm current_round;
    Ret (pm, safety,
         [EnterRound current_epoch current_round certificate; Schedule current_round duration]).

Definition local_timeout_round (pm : Pacemaker) (safety : Safety) :
    exec (Safety * list PacemakerCommand) :=
  current_round ← get_current_round pm;
  safety ← safety_timeout safety current_round;
  let high_extend :=
    match maybe_high_tip safety with
    | Some tip => HE_Tip tip
    | None => HE_Qc (rc_qc (pm_high_certificate pm))
    end in
  let '(high_tip_round, high_extend_qc_round) :=
    match high_extend with
    | HE_Tip tip => (h_block_round (tip_block_header tip), qc_round (h_qc (tip_block_header tip)))
    | HE_Qc qc => (GENESIS_ROUND, qc_round qc)
    end in
  let timeout := mkTimeoutInfo (pm_current_epoch pm) current_round high_extend_qc_round high_tip_round in
  next ← round_add high_extend_qc_round 1;
  let last_round_rc :=
    if bool_decide (next = current_round) then None else Some (pm_high_certificate pm) in
  duration ← get_round_timer pm current_round;
  Ret (safety,
       [ScheduleReset; PrepareTimeout timeout high_extend last_round_rc;
        Schedule current_round duration]).

Definition process_local_timeout (pm : Pacemaker) (safety : Safety) :
    exec (Pacemaker * Safety * list PacemakerCommand) :=
  let pm := set_pm_phase pm PhaseHonest_One in
  '(safety, cmds) ← local_timeout_round pm safety;
  Ret (pm, safety, cmds).

(** [handle_invalid_timeout]; the evidence it returns is empty. *)
Definition handle_invalid_timeout (pm : Pacemaker)
    (invalid_timeouts : list (NodeId * SignatureType)) : Pacemaker :=
  set_pm_pending pm (foldl (λ m ns, delete ns.1 m) (pm_pending_timeouts pm) invalid_timeouts).

(** The [while] loop of [process_remote_timeout]. *)
Fixpoint tc_loop (fuel : nat) (epoch_manager : EpochManager) (validators : VT)
    (validator_mapping : ValidatorMapping) (epoch : Epoch) (round : Round)
    (pm : Pacemaker) (safety : Safety) (timeouts : list NodeId) (cmds : list PacemakerCommand) :
    exec (Pacemaker * Safety * list PacemakerCommand) :=
  if bool_decide (pm_phase pm ≠ PhaseHonest_One) then Ret (pm, safety, cmds) else
  sm ← has_super_majority_votes validators timeouts;
  super_majority ← unwrap sm;
  if negb super_majority then Ret (pm, safety, cmds) else
  match fuel with
  | O => OutOfFuel
  | S fuel =>
      tc ← tc_new epoch round (btree_iter (pm_pending_timeouts pm)) validator_mapping;
      match tc with
      | Ok tc =>
          '(pm, safety, c) ← pm_process_certificate pm epoch_manager safety (RC_Tc tc);
          _ ← assert (bool_decide (pm_phase pm = PhaseHonest_Zero));
          tc_loop fuel epoch_manager validators validator_mapping epoch round pm safety timeouts
            (cmds ++ c)
      | Err (InvalidSignaturesCreate invalid_sigs) =>
          let pm := handle_invalid_timeout pm invalid_sigs in
          let timeouts := btree_keys (pm_pending_timeouts pm) in
          tc_loop fuel epoch_manager validators validator_mapping epoch round pm safety timeouts cmds
      | Err _ => Panic
      end
  end.

Definition process_remote_timeout (pm : Pacemaker) (epoch_manager : EpochManager)
    (validators : VT) (validator_mapping : ValidatorMapping) (safety : Safety)
    (author : NodeId) (timeout_msg : Timeout) :
    exec (Pacemaker * Safety * list PacemakerCommand) :=
  let tm_info := t_tminfo timeout_msg in
  current_round ← get_current_round pm;
  if bool_decide (tm_round tm_info < current_round) then Ret (pm, safety, []) else
  _ ← assert (bool_decide (tm_round tm_info = current_round));
  let pm := set_pm_pending pm (<[author := timeout_msg]> (pm_pending_timeouts pm)) in
  let timeouts := btree_keys (pm_pending_timeouts pm) in
  '(pm, safety, cmds) ←
    (if bool_decide (pm_phase pm = PhaseHonest_Zero) then
       hv ← has_honest_vote validators timeouts;
       honest ← unwrap hv;
       if honest : bool then
         '(safety, cmds) ← local_timeout_round pm safety;
         Ret (set_pm_phase pm PhaseHonest_One, safety, cmds)
       else Ret (pm, safety, [])
     else Ret (pm, safety, []));
  tc_loop (size (pm_pending_timeouts pm) + 2) epoch_manager validators validator_mapping
    (tm_epoch tm_info) (tm_round tm_info) pm safety timeouts cmds.
End pacemaker.

(** * Votes cast *)

(** A node signs votes in two places: [try_vote] votes for a tip in the current
    round, and a timeout that extends a tip carries a vote for the tip. The
    steps below are the operations on the pacemaker and the safety module that
    the consensus state performs, with the votes they sign. *)

Section votes.
Context `{P : Protocol} `{HashOrder} `{CCT : ChainConfig}.
Context {VT : Type} `{ValidatorSetType VT}.

Definition tip_id (tip : ConsensusTip) : BlockId := header_get_id (tip_block_header tip).

(** The votes inside the timeouts that [Timeout::new] makes of the commands. *)
Definition timeout_votes : list PacemakerCommand → list Vote :=
  omap (λ c, match c with
             | PrepareTimeout tm (HE_Tip tip) _ => Some (mkVote (tip_id tip) (tm_round tm) (tm_epoch tm))
             | _ => None
             end).

Inductive VoteOp :=
| VOCertificate (em : EpochManager) (c : RoundCertificate)
| VOVote (last_round_tc_tip : option BlockId) (tip : ConsensusTip)
| VOLocalTimeout
| VORemoteTimeout (em : EpochManager) (validators : VT) (vm : ValidatorMapping)
    (author : NodeId) (msg : Timeout).

Definition vote_step (pm : Pacemaker) (s : Safety) (op : VoteOp) :
    exec (Pacemaker * Safety * list Vote) :=
  match op with
  | VOCertificate em c =>
      '(pm, s, cmds) ← pm_process_certificate pm em s c; Ret (pm, s, timeout_votes cmds)
  | VOVote tc_tip tip =>
      r ← get_current_round pm;
      s ← safety_vote s r tc_tip tip;
      Ret (pm, s, [mkVote (tip_id tip) r (pm_current_epoch pm)])
  | VOLocalTimeout =>
      '(pm, s, cmds) ← process_local_timeout pm s; Ret (pm, s, timeout_votes cmds)
  | VORemoteTimeout em vs vm author msg =>
      '(pm, s, cmds) ← process_remote_timeout pm em vs vm s author msg;
      Ret (pm, s, timeout_votes cmds)
  end.

Fixpoint vote_run (pm : Pacemaker) (s : Safety) (ops : list VoteOp) :
    exec (Pacemaker * Safety * list Vote) :=
  match ops with
  | [] => Ret (pm, s, [])
  | op :: ops =>
      '(pm, s, votes) ← vote_step pm s op;
      '(pm, s, votes') ← vote_run pm s ops;
      Ret (pm, s, votes ++ votes')
  end.

(** ** The operations, inverted *)

Lemma pm_process_certificate_Ret pm em s c pm' s' cmds :
  pm_process_certificate pm em s c = Ret (pm', s', cmds) →
  (rc_round c <= rc_round (pm_high_certificate pm) ∧ pm' = pm ∧ s' = s ∧ cmds = []) ∨
  (rc_round (pm_high_certificate pm) < rc_round c ∧ s' = safety_process_certificate s c ∧
   ∃ e d, get_epoch em (rc_round c + 1) = Some e ∧
     pm' = mkPacemaker (pm_delta pm) (pm_local_processing pm) e c ∅ PhaseHonest_Zero ∧
     cmds = [EnterRound e (rc_round c + 1) c; Schedule (rc_round c + 1) d]).
Proof.
  unfold pm_process_certificate. case_bool_decide; intros; exec_inv; [by left|right].
  apply round_add_Ret in Ha as [-> _]. split_and!; [lia|done|]. eauto.
Qed.

Lemma local_timeout_round_Ret pm s s' cmds :
  local_timeout_round pm s = Ret (s', cmds) →
  let r := rc_round (pm_high_certificate pm) + 1 in
  highest_vote s <= r ∧ s' = set_highest_vote s r ∧
  timeout_votes cmds =
    match maybe_high_tip s with
    | Some tip => [mkVote (tip_id tip) r (pm_current_epoch pm)]
    | None => []
    end.
Proof.
  unfold local_timeout_round, get_current_round, safety_timeout. intros Hl. exec_inv.
  apply round_add_Ret in Ha as [-> _]. apply bool_decide_eq_true in Ha1.
  destruct (maybe_high_tip s); exec_inv; split_and!; done || lia.
Qed.

(** ** The invariant *)

(** No vote is above the current round or above [highest_vote], votes of the
    current round are for the tip a timeout would carry, and two votes of one
    round are the same vote. *)
Record vote_inv (pm : Pacemaker) (s : Safety) (log : list Vote) : Prop := {
  vi_current : highest_vote s <= rc_round (pm_high_certificate pm) + 1;
  vi_highest v : v ∈ log → vote_round v <= highest_vote s;
  vi_tip v tip : v ∈ log → vote_round v = rc_round (pm_high_certificate pm) + 1 →
    maybe_high_tip s = Some tip → vote_id v = tip_id tip;
  vi_epoch v : v ∈ log → vote_round v = rc_round (pm_high_certificate pm) + 1 →
    vote_epoch v = pm_current_epoch pm;
  vi_single v1 v2 : v1 ∈ log → v2 ∈ log → vote_round v1 = vote_round v2 → v1 = v2;
}.

Lemma safety_process_certificate_vote s c :
  highest_vote (safety_process_certificate s c) = highest_vote s.
Proof. unfold safety_process_certificate. by repeat case_match. Qed.

Lemma vote_inv_certificate pm em s c pm' s' cmds log :
  pm_process_certificate pm em s c = Ret (pm', s', cmds) → vote_inv pm s log →
  vote_inv pm' s' log ∧ timeout_votes cmds = [].
Proof.
  intros [(_ & -> & -> & ->)|(Hlt & -> & e & d & _ & -> & ->)]%pm_process_certificate_Ret Hinv;
    [done|].
  destruct Hinv as [Hcur Hhigh Htip Hep Hsing]. split; [|done].
  assert (∀ v, v ∈ log → vote_round v ≠ rc_round c + 1) as Hno.
  { intros v Hv%Hhigh. lia. }
  constructor; simpl; rewrite ?safety_process_certificate_vote; [lia|done| | |done].
  - intros v tip Hv Hr. by apply Hno in Hv.
  - intros v Hv Hr. by apply Hno in Hv.
Qed.

Lemma vote_inv_pending pm s log m : vote_inv pm s log → vote_inv (set_pm_pending pm m) s log.
Proof. intros []. by constructor. Qed.

Lemma vote_inv_phase pm s log ph : vote_inv pm s log → vote_inv (set_pm_phase pm ph) s log.
Proof. intros []. by constructor. Qed.

Lemma vote_inv_timeout pm s s' cmds log :
  local_timeout_round pm s = Ret (s', cmds) → vote_inv pm s log →
  vote_inv pm s' (log ++ timeout_votes cmds).
Proof.
  intros (Hle & -> & ->)%local_timeout_round_Ret [Hcur Hhigh Htip Hep Hsing].
  set (r := rc_round (pm_high_certificate pm) + 1) in *.
  set (new := match maybe_high_tip s with Some tip => [mkVote (tip_id tip) r (pm_current_epoch pm)] | None => [] end).
  assert (∀ v, v ∈ new → vote_round v = r ∧ vote_epoch v = pm_current_epoch pm ∧
    ∃ tip, maybe_high_tip s = Some tip ∧ vote_id v = tip_id tip) as Hnew.
  { unfold new. destruct (maybe_high_tip s) as [tip|]; [|set_solver].
    intros v ->%list_elem_of_singleton. split_and!; [done|done|eauto]. }
  assert (∀ v w, v ∈ log → w ∈ new → vote_round v = vote_round w → v = w) as Hmix.
  { intros [vi vr ve] [wi wr we] Hv (Hr & He & tip & Ht & Hi)%Hnew Heq. simpl in *. subst.
    specialize (Htip _ tip Hv eq_refl Ht). specialize (Hep _ Hv eq_refl). simpl in *. by subst. }
  constructor; simpl.
  - lia.
  - intros v [Hv%Hhigh|Hv%Hnew]%elem_of_app; [lia|naive_solver lia].
  - intros v tip [Hv|Hv]%elem_of_app; [eauto|]. apply Hnew in Hv. naive_solver.
  - intros v [Hv|Hv]%elem_of_app; [eauto|]. apply Hnew in Hv. naive_solver.
  - intros v1 v2 [H1|H1]%elem_of_app [H2|H2]%elem_of_app Heq; [eauto|eauto|symmetry; eauto|].
    revert H1 H2. unfold new. destruct (maybe_high_tip s); set_solver.
Qed.

Lemma vote_inv_vote pm s s' tc_tip tip log :
  safety_vote s (rc_round (pm_high_certificate pm) + 1) tc_tip tip = Ret s' →
  vote_inv pm s log →
  vote_inv pm s' (log ++ [mkVote (tip_id tip) (rc_round (pm_high_certificate pm) + 1) (pm_current_epoch pm)]).
Proof.
  set (r := rc_round (pm_high_certificate pm) + 1).
  intros Hv [Hcur Hhigh Htip Hep Hsing]. fold r in Hcur, Htip, Hep.
  assert (highest_vote s < r ∧ highest_vote s' = r ∧
    ∀ t, maybe_high_tip s' = Some t → t = tip) as (Hlt & Hs' & Ht).
  { unfold safety_vote, is_safe_to_vote in Hv. exec_inv.
    repeat case_match; rewrite ?bool_decide_eq_true in *; simplify_eq/=; split_and!;
      first [done|lia|naive_solver]. }
  assert (∀ v, v ∈ log → vote_round v < r) as Hold by (intros v ?%Hhigh; lia).
  constructor; fold r; rewrite ?Hs'.
  - lia.
  - intros v [Hin%Hold| ->%list_elem_of_singleton]%elem_of_app; simpl; lia.
  - intros v t [Hin%Hold| ->%list_elem_of_singleton]%elem_of_app Hr Hm; [lia|].
    by rewrite (Ht _ Hm).
  - intros v [Hin%Hold| ->%list_elem_of_singleton]%elem_of_app Hr; [lia|done].
  - intros v1 v2 [H1|H1]%elem_of_app [H2|H2]%elem_of_app Heq; [eauto|..];
      try apply list_elem_of_singleton in H1; try apply list_elem_of_singleton in H2; subst; simpl in *;
      [apply Hold in H1; lia|apply Hold in H2; lia|done].
Qed.

Lemma vote_inv_tc_loop fuel em vs vm e r pm s ts cmds pm' s' cmds' log :
  tc_loop fuel em vs vm e r pm s ts cmds = Ret (pm', s', cmds') → vote_inv pm s log →
  vote_inv pm' s' log ∧ timeout_votes cmds' = timeout_votes cmds.
Proof.
  revert pm s ts cmds. induction fuel as [|fuel IH]; intros pm s ts cmds; simpl;
    (case_bool_decide; [intros; exec_inv; done|]);
    intros (sm & _ & (b & _ & Hl)%bind_Ret_inv)%bind_Ret_inv Hinv;
    (destruct b; simpl in Hl; [|by exec_inv]); [done|].
  apply bind_Ret_inv in Hl as (tc & _ & Hl). destruct tc as [tc|[]]; try done.
  - apply bind_Ret_inv in Hl as ([[pm1 s1] c] & Hpc & (_ & _ & Hl)%bind_Ret_inv).
    eapply vote_inv_certificate in Hpc as [Hinv1 Hc]; [|done].
    apply IH in Hl as [? ->]; [|done]. split; [done|].
    unfold timeout_votes in *. by rewrite omap_app, Hc, app_nil_r.
  - eapply IH; [done|]. by apply vote_inv_pending.
Qed.

Lemma vote_inv_step pm s op pm' s' votes log :
  vote_step pm s op = Ret (pm', s', votes) → vote_inv pm s log →
  vote_inv pm' s' (log ++ votes).
Proof.
  destruct op as [em c|tc_tip tip| |em vs vm author msg]; simpl; intros Hstep Hinv.
  - apply bind_Ret_inv in Hstep as ([[pm1 s1] c1] & Hpc & [= -> -> <-]).
    eapply vote_inv_certificate in Hpc as [? ->]; [|done]. by rewrite app_nil_r.
  - unfold get_current_round in Hstep. exec_inv. apply round_add_Ret in Ha as [-> _].
    by eapply vote_inv_vote.
  - apply bind_Ret_inv in Hstep as ([[pm1 s1] c1] & Hpl & [= -> -> <-]).
    unfold process_local_timeout in Hpl. apply bind_Ret_inv in Hpl as ([s2 c2] & Hlt & [= <- -> ->]).
    eapply vote_inv_timeout; [done|]. by apply vote_inv_phase.
  - apply bind_Ret_inv in Hstep as ([[pm1 s1] c1] & Hpr & [= -> -> <-]).
    unfold process_remote_timeout in Hpr. apply bind_Ret_inv in Hpr as (r & _ & Hpr).
    case_bool_decide; [exec_inv; by rewrite app_nil_r|].
    apply bind_Ret_inv in Hpr as (_ & _ & ([[pm2 s2] c2] & Hmid & Hloop)%bind_Ret_inv).
    assert (vote_inv pm2 s2 (log ++ timeout_votes c2)) as Hinv2.
    { apply (vote_inv_pending _ _ _ (<[author := msg]> (pm_pending_timeouts pm))) in Hinv.
      case_bool_decide; [|exec_inv; by rewrite app_nil_r].
      apply bind_Ret_inv in Hmid as (hv & _ & (b & _ & Hmid)%bind_Ret_inv).
      destruct b; [|exec_inv; by rewrite app_nil_r].
      apply bind_Ret_inv in Hmid as ([s3 c3] & Hlt & [= <- -> ->]).
      apply vote_inv_phase. by eapply vote_inv_timeout. }
    by eapply vote_inv_tc_loop in Hloop as [? ->].
Qed.

Lemma vote_inv_run pm s ops pm' s' votes log :
  vote_run pm s ops = Ret (pm', s', votes) → vote_inv pm s log →
  vote_inv pm' s' (log ++ votes).
Proof.
  revert pm s votes log. induction ops as [|op ops IH]; intros pm s votes log; simpl.
  { intros [= -> -> <-]. by rewrite app_nil_r. }
  intros ([[pm1 s1] v1] & Hs & ([[pm2 s2] v2] & Hr & [= -> -> <-])%bind_Ret_inv)%bind_Ret_inv Hinv.
  eapply vote_inv_step in Hs; [|done]. rewrite (assoc_L (++)). eauto.
Qed.

(** A node that starts from a certificate has cast no vote. *)
Lemma vote_inv_init em c delta lp tip pm s :
  pacemaker_new delta lp em c = Ret pm → safety_new c tip = Ret s → vote_inv pm s [].
Proof.
  unfold pacemaker_new, safety_new. intros. exec_inv.
  apply round_add_Ret in Ha as [-> _]. constructor; simpl; [lia|set_solver..].
Qed.
End votes.

(** * Timeouts to certificates *)

Section remote.
Context `{P : Protocol} `{HashOrder} `{!SignatureCollectionLaws P} `{CCT : ChainConfig}.
Context {VT : Type} `{ValidatorSetLaws VT}.

(** Durations that do not overflow the round timer. *)
Definition timers_ok (pm : Pacemaker) : Prop :=
  0 <= pm_delta pm ∧ 0 <= pm_local_processing pm ∧
  ∀ r, 0 <= vote_pace (get_chain_revision r) ∧
    3 * pm_delta pm + vote_pace (get_chain_revision r) + pm_local_processing pm <= Duration_MAX.

Lemma get_round_timer_ok pm r : timers_ok pm → ∃ d, get_round_timer pm r = Ret d.
Proof.
  intros (? & ? & Hr). destruct (Hr r) as [? ?]. unfold get_round_timer, duration_mul.
  rewrite bool_decide_true by lia. simpl. unfold duration_add.
  rewrite checked_add_ok by lia. simpl. rewrite checked_add_ok by lia. eauto.
Qed.

(** What the rest of the node guarantees when it hands over a timeout: the
    pending timeouts are of the current round and epoch and by nodes of the
    mapping, and rounds and epochs are within range. *)
Record pacemaker_ready (em : EpochManager) (vm : ValidatorMapping) (pm : Pacemaker) (s : Safety) :
    Prop := {
  pr_pending n t : pm_pending_timeouts pm !! n = Some t →
    is_Some (mapping vm !! n) ∧
    tm_round (t_tminfo t) = rc_round (pm_high_certificate pm) + 1 ∧
    tm_epoch (t_tminfo t) = pm_current_epoch pm;
  pr_vote : highest_vote s <= rc_round (pm_high_certificate pm) + 1;
  pr_round : rc_round (pm_high_certificate pm) + 2 <= u64_max;
  pr_qc : qc_round (rc_qc (pm_high_certificate pm)) + 1 <= u64_max;
  pr_tip tip : maybe_high_tip s = Some tip → qc_round (h_qc (tip_block_header tip)) + 1 <= u64_max;
  pr_epoch : is_Some (get_epoch em (rc_round (pm_high_certificate pm) + 2));
  pr_timers : timers_ok pm;
}.

(** The outcome of handling a timeout: the round stays, or it advances by a
    certificate signed by a super majority. *)
Definition timeout_outcome (vs : VT) (vm : ValidatorMapping) (pm pm' : Pacemaker)
    (cmds : list PacemakerCommand) : Prop :=
  let round := rc_round (pm_high_certificate pm) + 1 in
  pm_high_certificate pm' = pm_high_certificate pm ∨
  ∃ tc signers e,
    pm_high_certificate pm' = RC_Tc tc ∧ tc_round tc = round ∧
    tc_epoch tc = pm_current_epoch pm ∧
    EnterRound e (round + 1) (RC_Tc tc) ∈ cmds ∧
    tip_rounds_signers vm (pm_current_epoch pm) round (tc_tip_rounds tc) signers ∧
    NoDup (concat signers) ∧ has_super_majority_votes vs (concat signers) = Ret (Ok true) ∧
    pm_pending_timeouts pm' = ∅ ∧ pm_phase pm' = PhaseHonest_Zero.

Lemma pm_process_certificate_ok em pm s c e :
  rc_round (pm_high_certificate pm) < rc_round c → rc_round c + 1 <= u64_max →
  get_epoch em (rc_round c + 1) = Some e → timers_ok pm →
  ∃ d, pm_process_certificate pm em s c =
    Ret (mkPacemaker (pm_delta pm) (pm_local_processing pm) e c ∅ PhaseHonest_Zero,
         safety_process_certificate s c,
         [EnterRound e (rc_round c + 1) c; Schedule (rc_round c + 1) d]).
Proof.
  intros Hlt Hmax He Ht. unfold pm_process_certificate.
  rewrite bool_decide_false by lia. rewrite round_add_ok by lia. simpl. rewrite He. simpl.
  destruct (get_round_timer_ok (mkPacemaker (pm_delta pm) (pm_local_processing pm) e c ∅ PhaseHonest_Zero)
    (rc_round c + 1)) as [d ->]; [exact Ht|]. by exists d.
Qed.

Lemma foldl_delete_lookup {A} (l : list (NodeId * A)) {B} (m : gmap NodeId B) n :
  foldl (λ m ns, delete ns.1 m) m l !! n = if decide (n ∈ l.*1) then None else m !! n.
Proof.
  revert m. induction l as [|[k a] l IH]; intros m; csimpl; [done|]. rewrite IH.
  destruct (decide (n = k)) as [->|].
  - rewrite lookup_delete_eq, (decide_True (P := k ∈ k :: l.*1)) by set_solver. by case_decide.
  - rewrite lookup_delete_ne by done. repeat case_decide; set_solver.
Qed.

Lemma handle_invalid_shrinks pm bad :
  bad ≠ [] → (∀ ns, ns ∈ bad → ns ∈ timeout_sig <$> btree_iter (pm_pending_timeouts pm)) →
  let m := pm_pending_timeouts (handle_invalid_timeout pm bad) in
  m ⊆ pm_pending_timeouts pm ∧ (size m < size (pm_pending_timeouts pm))%nat.
Proof.
  intros Hne Hbad. simpl. set (m := foldl _ _ _).
  assert (m ⊆ pm_pending_timeouts pm) as Hsub.
  { apply map_subseteq_spec. intros n t. unfold m. rewrite foldl_delete_lookup. by case_decide. }
  split; [done|]. apply map_subset_size. split; [done|]. intros Hsup.
  destruct bad as [|[n sig] bad]; [done|].
  destruct (list_elem_of_fmap_1 _ _ _ (Hbad (n, sig) ltac:(left))) as ([n' t] & [= -> ->] & Hin).
  apply elem_of_btree_iter in Hin. eapply lookup_weaken in Hsup; [|exact Hin].
  unfold m in Hsup. rewrite foldl_delete_lookup, decide_True in Hsup by (csimpl; left). done.
Qed.

Lemma tc_loop_total fuel em vs vm pm s cmds :
  vs_wf vs → mapping_injective vm → pacemaker_ready em vm pm s →
  (size (pm_pending_timeouts pm) < fuel)%nat →
  ∃ pm' s' cmds',
    tc_loop fuel em vs vm (pm_current_epoch pm) (rc_round (pm_high_certificate pm) + 1) pm s
      (btree_keys (pm_pending_timeouts pm)) cmds = Ret (pm', s', cmds') ∧
    timeout_outcome vs vm pm pm' cmds'.
Proof.
  intros Hvs Hinj. revert pm cmds. induction fuel as [|fuel IH]; intros pm cmds Hr Hf; [lia|].
  simpl. case_bool_decide as Hph; [eexists _, _, _; split; [done|by left]|].
  pose proof (NoDup_btree_keys (pm_pending_timeouts pm)) as Hnd.
  rewrite has_super_majority_votes_spec by done. simpl.
  case_bool_decide as Hq; simpl; [|eexists _, _, _; split; [done|by left]].
  assert (∀ n, n ∈ btree_keys (pm_pending_timeouts pm) → is_Some (mapping vm !! n)) as Hmem.
  { intros n [t Ht]%elem_of_btree_keys. by apply Hr in Ht as [? _]. }
  destruct (tc_new_total (pm_current_epoch pm) (rc_round (pm_high_certificate pm) + 1)
    (btree_iter (pm_pending_timeouts pm)) vm Hnd Hmem) as [[tc Htc]|(bad & Hbad & Hne & Hsub)].
  - rewrite Htc. simpl. apply tc_new_spec in Htc as (Htce & Htcr & _ & _ & _ & _ & signers & Hs & Hperm);
      [|done|done|intros n t Hin%elem_of_btree_iter; apply Hr in Hin as (_ & ? & ?); done].
    destruct (pr_epoch _ _ _ _ Hr) as [e He].
    destruct (pm_process_certificate_ok em pm s (RC_Tc tc) e) as [d Hpc];
      [simpl; lia|pose proof (pr_round _ _ _ _ Hr); simpl; lia| |by apply Hr|].
    { simpl. rewrite Htcr. by replace (_ + 1 + 1) with (rc_round (pm_high_certificate pm) + 2) by lia. }
    rewrite Hpc. simpl. destruct fuel; simpl; (eexists _, _, _; split; [done|]); right;
      exists tc, signers, e; (split_and!; [done|done|done| |done|by rewrite Hperm| |done|done]);
      try (rewrite has_super_majority_votes_spec by (done || by rewrite Hperm);
           rewrite (vs_weight_perm vs _ _ Hperm); by rewrite bool_decide_true);
      rewrite Htcr; apply elem_of_app; right; left.
  - rewrite Hbad. simpl. destruct (handle_invalid_shrinks pm bad Hne Hsub) as [Hss Hlt].
    destruct (IH (handle_invalid_timeout pm bad) cmds) as (pm' & s' & cmds' & Heq & Hout).
    + destruct Hr as [Hp ? ? ? ? ? ?]. constructor; simpl; try done.
      intros n t Hn. apply Hp. by eapply lookup_weaken.
    + lia.
    + exists pm', s', cmds'. split; [exact Heq|exact Hout].
Qed.

Lemma local_timeout_round_ok em vm pm s :
  pacemaker_ready em vm pm s →
  ∃ cmds, local_timeout_round pm s =
    Ret (set_highest_vote s (rc_round (pm_high_certificate pm) + 1), cmds).
Proof.
  intros Hr. pose proof (pr_round _ _ _ _ Hr). pose proof (pr_vote _ _ _ _ Hr).
  pose proof (pr_qc _ _ _ _ Hr). pose proof (pr_tip _ _ _ _ Hr) as Htip.
  unfold local_timeout_round, get_current_round, safety_timeout.
  rewrite round_add_ok by lia. simpl. rewrite bool_decide_true by lia. simpl.
  destruct (get_round_timer_ok pm (rc_round (pm_high_certificate pm) + 1)) as [d Hd]; [by apply Hr|].
  destruct (maybe_high_tip s) as [tip|] eqn:Ht; simpl.
  - specialize (Htip tip eq_refl). rewrite round_add_ok by lia. simpl. rewrite Hd. simpl. eauto.
  - rewrite round_add_ok by lia. simpl. rewrite Hd. simpl. eauto.
Qed.

Lemma pacemaker_ready_vote em vm pm s :
  pacemaker_ready em vm pm s →
  pacemaker_ready em vm (set_pm_phase pm PhaseHonest_One)
    (set_highest_vote s (rc_round (pm_high_certificate pm) + 1)).
Proof. intros []. constructor; simpl; try done. Qed.
End remote.

(** * Properties *)

(** A node never votes twice in a round: from a start at any certificate,
    whatever certificates, proposals to vote on, local timeouts and timeouts of
    others come in whatever order, two votes it signs for one round, directly or
    inside a timeout message, are the same vote (same block and epoch). *)
Theorem no_double_vote `{P : Protocol} `{HashOrder} `{CCT : ChainConfig} {VT : Type}
    `{ValidatorSetType VT} (delta local_processing : Duration) (em : EpochManager)
    (c : RoundCertificate) (pm pm' : Pacemaker) (s s' : Safety) (ops : list VoteOp)
    (votes : list Vote)
    (Hpm : pacemaker_new delta local_processing em c = Ret pm)
    (Hs : safety_new c None = Ret s)
    (Hrun : vote_run pm s ops = Ret (pm', s', votes)) :
  (∀ v1 v2, v1 ∈ votes → v2 ∈ votes → vote_round v1 = vote_round v2 → v1 = v2) ∧
  (∀ v, v ∈ votes → vote_round v <= highest_vote s') ∧
  highest_vote s' <= rc_round (pm_high_certificate pm') + 1.
Proof.
  pose proof (vote_inv_run _ _ _ _ _ _ [] Hrun (vote_inv_init _ _ _ _ _ _ _ Hpm Hs)) as [? ? ? ? ?].
  auto.
Qed.

(** ** Concrete data *)

Definition nop_epoch_manager : EpochManager := mkEpochManager 1000 50 {[ 1 := 0 ]}.
Definition nop_chain : ChainConfig := MonadChainConfig_type MONAD_DEVNET_CHAIN_CONFIG.
Definition nop_qc (round : Round) (id : BlockId) : @QuorumCertificate NopProtocol :=
  @mkQC NopProtocol (mkVote id round 1) (mkMultiSig []).
Definition nop_pacemaker (round : Round) (m : gmap NodeId (@Timeout NopProtocol)) (ph : PhaseHonest) :
    @Pacemaker NopProtocol :=
  @mkPacemaker NopProtocol (from_millis 100) (from_millis 100) 1 (RC_Qc (nop_qc (round - 1) 42)) m ph.
Definition nop_safety (round : Round) : @Safety NopProtocol :=
  @mkSafety NopProtocol None (round - 1) round (mkHighNoEndorse round GENESIS_BLOCK_ID) round round ∅.
Definition nop_vote_ops : list (@VoteOp NopProtocol ValidatorSet) :=
  [VOCertificate nop_epoch_manager (RC_Qc (nop_qc 5 42)); VOVote None (@tip_new NopProtocol 1 (nop_header 6 1 (nop_qc 5 42)) None);
   VOLocalTimeout; VOLocalTimeout].

Lemma no_double_vote_witness :
  ∃ pm' s' votes,
    @vote_run NopProtocol map_order nop_chain ValidatorSet _ (nop_pacemaker 5 ∅ PhaseHonest_Zero)
      (nop_safety 5) nop_vote_ops = Ret (pm', s', votes) ∧ length votes = 3%nat ∧
    (∀ v1 v2, v1 ∈ votes → v2 ∈ votes → vote_round v1 = vote_round v2 → v1 = v2) ∧
    (∀ v, v ∈ votes → vote_round v <= highest_vote s') ∧
    highest_vote s' <= rc_round (pm_high_certificate pm') + 1.
Proof.
  destruct (ret_with_spec (λ r, bool_decide (length r.2 = 3%nat))
    (@vote_run NopProtocol map_order nop_chain ValidatorSet _ (nop_pacemaker 5 ∅ PhaseHonest_Zero)
      (nop_safety 5) nop_vote_ops)) as ([[pm' s'] votes] & Hrun & Hlen%bool_decide_eq_true);
    [vm_compute; reflexivity|].
  exists pm', s', votes. split; [exact Hrun|]. split; [exact Hlen|].
  eapply (no_double_vote (from_millis 100) (from_millis 100) nop_epoch_manager (RC_Qc (nop_qc 4 42))
    (nop_pacemaker 5 ∅ PhaseHonest_Zero)); [reflexivity|reflexivity|exact Hrun].
Defined.

(** C24. Timeouts of a round are counted to the end: a timeout of a known
    validator in the current round is always handled without panic and without
    running out of iterations, bad signatures included, and if the round
    advances it is by a timeout certificate for that round whose signature
    collections verify to distinct validators that are a super majority. *)
Theorem process_remote_timeout_total `{P : Protocol} `{HashOrder} `{!SignatureCollectionLaws P}
    `{CCT : ChainConfig} {VT : Type} `{ValidatorSetLaws VT}
    (em : EpochManager) (vs : VT) (vm : ValidatorMapping) (pm : Pacemaker) (s : Safety)
    (author : NodeId) (msg : Timeout)
    (Hvs : vs_wf vs) (Hinj : mapping_injective vm) (Hready : pacemaker_ready em vm pm s)
    (Hauthor : is_Some (mapping vm !! author))
    (Hround : tm_round (t_tminfo msg) <= rc_round (pm_high_certificate pm) + 1)
    (Hepoch : tm_epoch (t_tminfo msg) = pm_current_epoch pm) :
  ∃ pm' s' cmds,
    process_remote_timeout pm em vs vm s author msg = Ret (pm', s', cmds) ∧
    timeout_outcome vs vm pm pm' cmds.
Proof.
  unfold process_remote_timeout, get_current_round. pose proof (pr_round _ _ _ _ Hready).
  rewrite round_add_ok by lia. simpl. case_bool_decide as Hlt.
  { eexists _, _, _. split; [done|by left]. }
  assert (tm_round (t_tminfo msg) = rc_round (pm_high_certificate pm) + 1) as Hr by lia.
  rewrite (bool_decide_true (tm_round (t_tminfo msg) = rc_round (pm_high_certificate pm) + 1)) by done.
  simpl. set (pm1 := set_pm_pending pm _).
  assert (pacemaker_ready em vm pm1 s) as Hready1.
  { destruct Hready as [Hp ? ? ? ? ? ?]. constructor; simpl; try done.
    intros n t [[<- <-]|[_ Ht]]%lookup_insert_Some; [done|eauto]. }
  rewrite Hepoch, Hr. case_bool_decide as Hph.
  - rewrite has_honest_vote_spec by (done || apply NoDup_btree_keys). simpl.
    case_bool_decide; simpl.
    + destruct (local_timeout_round_ok em vm pm1 s Hready1) as [c1 ->]. simpl.
      apply (tc_loop_total _ em vs vm (set_pm_phase pm1 PhaseHonest_One));
        [done|done|exact (pacemaker_ready_vote em vm pm1 s Hready1)|simpl; lia].
    + apply (tc_loop_total _ em vs vm pm1); [done|done|done|simpl; lia].
  - apply (tc_loop_total _ em vs vm pm1); [done|done|done|simpl; lia].
Qed.

Lemma nop_pacemaker_ready :
  @pacemaker_ready NopProtocol nop_chain nop_epoch_manager four_mapping
    (nop_pacemaker 5 {[ 1 := nop_timeout 1; 2 := nop_timeout 2 ]} PhaseHonest_One) (nop_safety 5).
Proof.
  constructor.
  - intros n t Ht. simpl in Ht. rewrite lookup_insert_Some, lookup_singleton_Some in Ht.
    destruct Ht as [[<- <-]|[_ [<- <-]]]; (split; [vm_compute; eauto|done]).
  - done.
  - done.
  - done.
  - done.
  - vm_compute. eauto.
  - split; [done|]. split; [done|]. intros r. unfold get_chain_revision. simpl.
    unfold monad_get_chain_revision. repeat case_bool_decide; done.
Qed.

Lemma process_remote_timeout_total_witness :
  ∃ pm' s' cmds,
    @process_remote_timeout NopProtocol map_order nop_chain ValidatorSet _
      (nop_pacemaker 5 {[ 1 := nop_timeout 1; 2 := nop_timeout 2 ]} PhaseHonest_One)
      nop_epoch_manager four_validators four_mapping (nop_safety 5) 4 (nop_timeout 4) =
      Ret (pm', s', cmds) ∧
    timeout_outcome four_validators four_mapping
      (nop_pacemaker 5 {[ 1 := nop_timeout 1; 2 := nop_timeout 2 ]} PhaseHonest_One) pm' cmds.
Proof.
  apply (@process_remote_timeout_total NopProtocol map_order NopProtocol_laws nop_chain ValidatorSet _
    ValidatorSet_laws).
  - exact four_validators_wf.
  - exact four_mapping_injective.
  - exact nop_pacemaker_ready.
  - vm_compute. eauto.
  - done.
  - reflexivity.
Defined.
