(* ===== verification/VoteState.v ===== *)
(** Collecting votes into quorum certificates and no-endorsements into
    no-endorsement certificates (src/monad-consensus/src/vote_state.rs and
    no_endorsement_state.rs). The command types of both files have no
    constructor, so the command lists they return are always empty and left out. *)

From S2P Require Import Prelude Types ValidatorSet Crypto MultiSig ConsensusTypes.

#[local] Open Scope Z_scope.

Section collect.
Context `{P : Protocol}.
Context {VT : Type} `{ValidatorSetType VT}.

Record VoteMessage := mkVoteMessage { vm_vote : Vote; vm_sig : SignatureType }.

Record NoEndorsementMessage := mkNoEndorsementMessage {
  nm_msg : NoEndorsement;
  nm_signature : SignatureType;
}.

(** A signature joins the [HashSet] of a node. *)
Definition hash_set_insert (s : SignatureType) (l : list SignatureType) : list SignatureType :=
  if decide (s ∈ l) then l else s :: l.

(** [handle_invalid_vote] and [handle_invalid_no_endorsement] *)
Definition retain_valid (pending : gmap NodeId SignatureType)
    (invalid : list (NodeId * SignatureType)) : gmap NodeId SignatureType :=
  filter (λ ns : NodeId * SignatureType, ns.1 ∉ invalid.*1) pending.

(** The [while] loop of [process_vote] and of [process_no_endorsement]: create a
    signature collection while a super majority is pending, dropping invalid
    signatures. [current] is the assertion [round >= self.earliest_round]. *)
Fixpoint collect_loop (fuel : nat) (d : SigningDomain) (validators : VT)
    (validator_mapping : ValidatorMapping) (current : bool) (msg : bytes)
    (pending : gmap NodeId SignatureType) : exec (option SCT * gmap NodeId SignatureType) :=
  sm ← has_super_majority_votes validators (btree_keys pending);
  super_majority ← unwrap sm;
  if negb super_majority then Ret (None, pending) else
  match fuel with
  | O => OutOfFuel
  | S fuel =>
      _ ← assert current;
      match sct_new d (btree_iter pending) validator_mapping msg with
      | Ok sigcol => Ret (Some sigcol, pending)
      | Err (InvalidSignaturesCreate invalid_sigs) =>
          collect_loop fuel d validators validator_mapping current msg (retain_valid pending invalid_sigs)
      | Err _ => Panic
      end
  end.

(** * Votes *)

Record RoundVoteState := mkRoundVoteState {
  rvs_pending_votes : gmap Vote (gmap NodeId SignatureType);
  rvs_node_votes : gmap NodeId (list SignatureType);
}.

Record VoteState := mkVoteState {
  vs_pending_votes : gmap Round RoundVoteState;
  vs_earliest_round : Round;
}.

Definition vote_state_new (round : Round) : VoteState := mkVoteState ∅ round.

Definition process_vote (st : VoteState) (author : NodeId) (vote_msg : VoteMessage)
    (validators : VT) (validator_mapping : ValidatorMapping) :
    exec (option QuorumCertificate * VoteState) :=
  let vote := vm_vote vote_msg in
  let round := vote_round vote in
  if bool_decide (round < vs_earliest_round st) then Ret (None, st) else
  let round_state := default (mkRoundVoteState ∅ ∅) (vs_pending_votes st !! round) in
  let node_votes :=
    <[author := hash_set_insert (vm_sig vote_msg) (default [] (rvs_node_votes round_state !! author))]>
      (rvs_node_votes round_state) in
  let round_pending_votes :=
    <[author := vm_sig vote_msg]> (default ∅ (rvs_pending_votes round_state !! vote)) in
  '(sigcol, round_pending_votes) ←
    collect_loop (S (size round_pending_votes)) SD_Vote validators validator_mapping
      (bool_decide (round >= vs_earliest_round st)) (vote_digest vote) round_pending_votes;
  let pending_votes :=
    <[round := mkRoundVoteState (<[vote := round_pending_votes]> (rvs_pending_votes round_state)) node_votes]>
      (vs_pending_votes st) in
  match sigcol with
  | Some sigcol =>
      earliest_round ← round_add round 1;
      Ret (Some (mkQC vote sigcol), mkVoteState pending_votes earliest_round)
  | None => Ret (None, mkVoteState pending_votes (vs_earliest_round st))
  end.

Definition vote_state_start_new_round (st : VoteState) (new_round : Round) : VoteState :=
  mkVoteState (filter (λ kv : Round * RoundVoteState, kv.1 >= new_round) (vs_pending_votes st)) new_round.

(** * No-endorsements *)

Record RoundNoEndorsementState := mkRoundNoEndorsementState {
  rne_qc_round_no_endorsements : gmap Round (gmap NodeId SignatureType);
  rne_node_no_endorsements : gmap NodeId (list SignatureType);
  rne_certificate : option NoEndorsementCertificate;
}.

Record NoEndorsementState := mkNoEndorsementState {
  nes_pending : gmap Round RoundNoEndorsementState;
  nes_earliest_round : Round;
}.

Definition no_endorsement_state_new (round : Round) : NoEndorsementState :=
  mkNoEndorsementState ∅ round.

Definition process_no_endorsement (st : NoEndorsementState) (author : NodeId)
    (no_endorsement_msg : NoEndorsementMessage) (validators : VT)
    (validator_mapping : ValidatorMapping) :
    exec (option NoEndorsementCertificate * NoEndorsementState) :=
  let no_endorsement := nm_msg no_endorsement_msg in
  let round := ne_round no_endorsement in
  if bool_decide (round < nes_earliest_round st) then Ret (None, st) else
  let round_state := default (mkRoundNoEndorsementState ∅ ∅ None) (nes_pending st !! round) in
  let node_votes :=
    <[author := hash_set_insert (nm_signature no_endorsement_msg)
                  (default [] (rne_node_no_endorsements round_state !! author))]>
      (rne_node_no_endorsements round_state) in
  let qc_round := ne_tip_qc_round no_endorsement in
  let pending :=
    <[author := nm_signature no_endorsement_msg]>
      (default ∅ (rne_qc_round_no_endorsements round_state !! qc_round)) in
  '(sigcol, pending) ←
    collect_loop (S (size pending)) SD_NoEndorsement validators validator_mapping
      (bool_decide (round >= nes_earliest_round st)) (no_endorsement_digest no_endorsement) pending;
  let by_qc_round := <[qc_round := pending]> (rne_qc_round_no_endorsements round_state) in
  match sigcol with
  | Some sigcol =>
      let nec := mkNEC no_endorsement sigcol in
      earliest_round ← round_add round 1;
      _ ← assert (bool_decide (rne_certificate round_state = None));
      Ret (Some nec,
           mkNoEndorsementState
             (<[round := mkRoundNoEndorsementState by_qc_round node_votes (Some nec)]> (nes_pending st))
             earliest_round)
  | None =>
      Ret (None,
           mkNoEndorsementState
             (<[round := mkRoundNoEndorsementState by_qc_round node_votes (rne_certificate round_state)]>
                (nes_pending st))
             (nes_earliest_round st))
  end.

Definition no_endorsement_start_new_round (st : NoEndorsementState) (new_round : Round) :
    NoEndorsementState :=
  mkNoEndorsementState
    (filter (λ kv : Round * RoundNoEndorsementState, kv.1 >= new_round) (nes_pending st)) new_round.

Definition get_nec (st : NoEndorsementState) (round : Round) : option NoEndorsementCertificate :=
  nes_pending st !! round ≫= rne_certificate.
End collect.

(** * Lemmas *)

Section lemmas.
Context `{P : Protocol} `{!SignatureCollectionLaws P}.
Context {VT : Type} `{ValidatorSetLaws VT}.

Lemma retain_valid_lookup pending bad n s :
  retain_valid pending bad !! n = Some s ↔ pending !! n = Some s ∧ n ∉ bad.*1.
Proof. unfold retain_valid. by rewrite map_lookup_filter_Some. Qed.

Lemma retain_valid_shrinks pending bad :
  bad ≠ [] → (∀ ns, ns ∈ bad → ns ∈ btree_iter pending) →
  (size (retain_valid pending bad) < size pending)%nat.
Proof.
  intros Hne Hbad. apply map_subset_size. split.
  - apply map_subseteq_spec. intros n s [? _]%retain_valid_lookup. done.
  - intros Hsup. destruct bad as [|[n s] bad]; [done|].
    assert (pending !! n = Some s) as Hn by (apply elem_of_btree_iter, Hbad; left).
    eapply lookup_weaken in Hsup; [|exact Hn]. apply retain_valid_lookup in Hsup as [_ Hnot].
    apply Hnot. csimpl. left.
Qed.

(** The signatures of [pending] are by nodes of the mapping. *)
Definition nodes_known (vm : ValidatorMapping) (pending : gmap NodeId SignatureType) : Prop :=
  ∀ n s, pending !! n = Some s → is_Some (mapping vm !! n).

(** What a collection made by the loop promises. *)
Definition quorum_collection (d : SigningDomain) (vs : VT) (vm : ValidatorMapping) (msg : bytes)
    (sc : SCT) : Prop :=
  ∃ nodes, sct_verify d sc vm msg = Ok nodes ∧ NoDup nodes ∧
    has_super_majority_votes vs nodes = Ret (Ok true).

(** The loop always ends; it keeps every valid signature, returns a verified
    quorum, and gives up only when what is left is no super majority. *)
Lemma collect_loop_spec fuel d vs vm msg pending :
  vs_wf vs → mapping_injective vm → nodes_known vm pending → (size pending < fuel)%nat →
  ∃ osc pending',
    collect_loop fuel d vs vm true msg pending = Ret (osc, pending') ∧ pending' ⊆ pending ∧
    (∀ n s pk, pending !! n = Some s → mapping vm !! n = Some pk → cert_verify d msg s pk = true →
       pending' !! n = Some s) ∧
    match osc with
    | Some sc => quorum_collection d vs vm msg sc
    | None => has_super_majority_votes vs (btree_keys pending') = Ret (Ok false)
    end.
Proof.
  intros Hvs Hinj. revert pending. induction fuel as [|fuel IH]; intros pending Hk Hf; [lia|]. simpl.
  pose proof (NoDup_btree_keys pending) as Hnd.
  destruct (has_super_majority_votes vs (btree_keys pending)) as [[b|]| |] eqn:Hq;
    rewrite has_super_majority_votes_spec in Hq by done; try done. simpl.
  destruct b; simpl.
  2:{ exists None, pending. split_and!; [done|done|done|].
      by rewrite has_super_majority_votes_spec. }
  destruct (sct_new d (btree_iter pending) vm msg) as [sc|e] eqn:Hsc.
  - destruct (sct_new_verify _ _ _ _ _ Hinj Hsc Hnd) as (nodes & Hv & Hp).
    exists (Some sc), pending. split_and!; [done|done|done|]. exists nodes.
    split_and!; [done|by rewrite Hp|]. rewrite has_super_majority_votes_spec by (done || by rewrite Hp).
    by rewrite (vs_weight_perm vs _ _ Hp).
  - destruct (sct_new_errors d (btree_iter pending) vm msg e) as [bad ->]; [|done|done|].
    { intros n [s Hs]%elem_of_btree_keys. eauto. }
    apply sct_new_invalid in Hsc as (Hne & Hin & Hinv).
    destruct (IH (retain_valid pending bad)) as (osc & p' & Hl & Hsub & Hval & Hres).
    + intros n s [? _]%retain_valid_lookup. eauto.
    + pose proof (retain_valid_shrinks pending bad Hne Hin). lia.
    + exists osc, p'. split_and!; [done| | |done].
      * etrans; [done|]. apply map_subseteq_spec. intros n s [? _]%retain_valid_lookup. done.
      * intros n s pk Hn Hpk Hok. apply (Hval n s pk); [|done|done]. apply retain_valid_lookup.
        split; [done|]. intros ([n' s'] & -> & Hbad)%list_elem_of_fmap. simpl in *.
        assert (pending !! n' = Some s') as Hn' by by apply elem_of_btree_iter, Hin.
        simplify_eq. specialize (Hinv _ _ _ Hbad Hpk). congruence.
Qed.

(** ** Votes *)

(** The pending votes of a round are votes of the round, each by a validator of
    the vote's epoch. *)
Definition vote_state_inv (vms : Epoch → ValidatorMapping) (st : VoteState) : Prop :=
  ∀ r rs v m, vs_pending_votes st !! r = Some rs → rvs_pending_votes rs !! v = Some m →
    vote_round v = r ∧ nodes_known (vms (vote_epoch v)) m.

(** The signatures pending for a vote. *)
Definition votes_for (st : VoteState) (v : Vote) : gmap NodeId SignatureType :=
  default ∅ (vs_pending_votes st !! vote_round v ≫= λ rs, rvs_pending_votes rs !! v).

Lemma votes_for_known vms st v :
  vote_state_inv vms st → nodes_known (vms (vote_epoch v)) (votes_for st v).
Proof.
  intros Hinv n s. unfold votes_for.
  destruct (vs_pending_votes st !! vote_round v) as [rs|] eqn:Hrs; simpl; [|done].
  destruct (rvs_pending_votes rs !! v) as [m|] eqn:Hm; simpl; [|done].
  by apply (Hinv _ _ _ _ Hrs Hm).
Qed.

Lemma process_vote_spec vms st author msg vs :
  let v := vm_vote msg in
  let pending := <[author := vm_sig msg]> (votes_for st v) in
  vs_wf vs → mapping_injective (vms (vote_epoch v)) → vote_state_inv vms st →
  is_Some (mapping (vms (vote_epoch v)) !! author) → vote_round v + 1 <= u64_max →
  vs_earliest_round st <= vote_round v →
  ∃ oqc st', process_vote st author msg vs (vms (vote_epoch v)) = Ret (oqc, st') ∧
    vote_state_inv vms st' ∧ votes_for st' v ⊆ pending ∧
    (∀ n s pk, pending !! n = Some s → mapping (vms (vote_epoch v)) !! n = Some pk →
       cert_verify SD_Vote (vote_digest v) s pk = true → votes_for st' v !! n = Some s) ∧
    match oqc with
    | Some qc => qc_info qc = v ∧ vs_earliest_round st' = vote_round v + 1 ∧
        quorum_collection SD_Vote vs (vms (vote_epoch v)) (vote_digest v) (qc_signatures qc)
    | None => vs_earliest_round st' = vs_earliest_round st ∧
        has_super_majority_votes vs (btree_keys (votes_for st' v)) = Ret (Ok false)
    end.
Proof.
  intros v pending Hvs Hinj Hinv Hauthor Hmax Hearly.
  assert (nodes_known (vms (vote_epoch v)) pending) as Hknown.
  { intros n s [[<- _]|[_ Hn]]%lookup_insert_Some; [done|]. by eapply votes_for_known. }
  unfold process_vote. fold v. rewrite bool_decide_false by lia.
  rewrite (bool_decide_true (vote_round v >= vs_earliest_round st)) by lia.
  set (rs := default _ _).
  assert (<[author := vm_sig msg]> (default ∅ (rvs_pending_votes rs !! v)) = pending) as ->.
  { unfold pending, votes_for, rs. by destruct (vs_pending_votes st !! vote_round v). }
  destruct (collect_loop_spec (S (size pending)) SD_Vote vs (vms (vote_epoch v)) (vote_digest v) pending)
    as (osc & p' & -> & Hsub & Hval & Hres); [done|done|done|lia|]. simpl.
  set (st' := mkVoteState (<[vote_round v := mkRoundVoteState (<[v := p']> (rvs_pending_votes rs)) _]> _)).
  assert (∀ e, votes_for (st' e) v = p') as Hfor.
  { intros e. unfold votes_for. simpl. rewrite lookup_insert_eq. simpl. by rewrite lookup_insert_eq. }
  assert (∀ e, vote_state_inv vms (st' e)) as Hinv'.
  { intros e r rs' w m. simpl. intros [[<- <-]|[_ Hr]]%lookup_insert_Some Hm; [|by eapply Hinv].
    simpl in Hm. apply lookup_insert_Some in Hm as [[<- <-]|[_ Hm]].
    - split; [done|]. intros n s Hn. eapply Hknown. by eapply lookup_weaken.
    - unfold rs in Hm. destruct (vs_pending_votes st !! vote_round v) as [rs0|] eqn:Hrs0; [|done].
      by eapply Hinv. }
  destruct osc as [sc|]; [rewrite round_add_ok by lia; simpl|];
    (eexists _, _; split; [reflexivity|]); rewrite Hfor; split_and!; done || apply Hinv'.
Qed.

(** A certificate is made only for a round not below [earliest_round], which it
    moves past the round. *)
Lemma process_vote_earliest st author msg vs vm oqc st' :
  process_vote st author msg vs vm = Ret (oqc, st') →
  match oqc with
  | Some qc => vs_earliest_round st <= qc_round qc ∧ vs_earliest_round st' = qc_round qc + 1
  | None => vs_earliest_round st' = vs_earliest_round st
  end.
Proof.
  unfold process_vote. case_bool_decide; [intros; by exec_inv|].
  intros ([osc p] & _ & Hres)%bind_Ret_inv. destruct osc; exec_inv; [|done].
  apply round_add_Ret in Ha as [-> _]. unfold qc_round. simpl. lia.
Qed.

(** ** No-endorsements *)

(** The no-endorsements of a round are by validators of the round's epoch, and a
    round whose certificate is made is below [earliest_round]. *)
Definition no_endorsement_state_inv (vms : Round → ValidatorMapping) (st : NoEndorsementState) : Prop :=
  ∀ r rs, nes_pending st !! r = Some rs →
    (∀ q m, rne_qc_round_no_endorsements rs !! q = Some m → nodes_known (vms r) m) ∧
    (is_Some (rne_certificate rs) → r < nes_earliest_round st).

(** The signatures pending for a no-endorsement. *)
Definition no_endorsements_for (st : NoEndorsementState) (m : NoEndorsement) : gmap NodeId SignatureType :=
  default ∅ (nes_pending st !! ne_round m ≫= λ rs, rne_qc_round_no_endorsements rs !! ne_tip_qc_round m).

Lemma process_no_endorsement_spec vms st author msg vs :
  let m := nm_msg msg in
  let pending := <[author := nm_signature msg]> (no_endorsements_for st m) in
  vs_wf vs → mapping_injective (vms (ne_round m)) → no_endorsement_state_inv vms st →
  is_Some (mapping (vms (ne_round m)) !! author) → ne_round m + 1 <= u64_max →
  nes_earliest_round st <= ne_round m →
  ∃ onec st', process_no_endorsement st author msg vs (vms (ne_round m)) = Ret (onec, st') ∧
    no_endorsement_state_inv vms st' ∧
    (∀ n s pk, pending !! n = Some s → mapping (vms (ne_round m)) !! n = Some pk →
       cert_verify SD_NoEndorsement (no_endorsement_digest m) s pk = true →
       no_endorsements_for st' m !! n = Some s) ∧
    match onec with
    | Some nec => nec_msg nec = m ∧ nes_earliest_round st' = ne_round m + 1 ∧
        get_nec st' (ne_round m) = Some nec ∧
        quorum_collection SD_NoEndorsement vs (vms (ne_round m)) (no_endorsement_digest m)
          (nec_signatures nec)
    | None => nes_earliest_round st' = nes_earliest_round st ∧
        has_super_majority_votes vs (btree_keys (no_endorsements_for st' m)) = Ret (Ok false)
    end.
Proof.
  intros m pending Hvs Hinj Hinv Hauthor Hmax Hearly.
  set (rs := default (mkRoundNoEndorsementState ∅ ∅ None) (nes_pending st !! ne_round m)).
  assert ((∀ q m', rne_qc_round_no_endorsements rs !! q = Some m' → nodes_known (vms (ne_round m)) m') ∧
    rne_certificate rs = None) as [Hq Hcert].
  { unfold rs. destruct (nes_pending st !! ne_round m) as [rs0|] eqn:Hrs0; simpl; [|done].
    destruct (Hinv _ _ Hrs0) as [? Hc]. split; [done|].
    destruct (rne_certificate rs0); [|done]. specialize (Hc ltac:(eauto)). lia. }
  assert (pending = <[author := nm_signature msg]>
    (default ∅ (rne_qc_round_no_endorsements rs !! ne_tip_qc_round m))) as Hpend.
  { unfold pending, no_endorsements_for, rs. by destruct (nes_pending st !! ne_round m). }
  assert (nodes_known (vms (ne_round m)) pending) as Hknown.
  { rewrite Hpend. intros n s [[<- _]|[_ Hn]]%lookup_insert_Some; [done|].
    destruct (rne_qc_round_no_endorsements rs !! ne_tip_qc_round m) eqn:He; [|done]. by eapply Hq. }
  unfold process_no_endorsement. fold m. rewrite bool_decide_false by lia.
  rewrite (bool_decide_true (ne_round m >= nes_earliest_round st)) by lia. fold rs. rewrite <-Hpend.
  destruct (collect_loop_spec (S (size pending)) SD_NoEndorsement vs (vms (ne_round m))
    (no_endorsement_digest m) pending) as (osc & p' & -> & Hsub & Hval & Hres); [done|done|done|lia|].
  simpl. set (nv := <[author := hash_set_insert _ _]> _). set (st' := λ c e, mkNoEndorsementState (<[ne_round m := mkRoundNoEndorsementState
    (<[ne_tip_qc_round m := p']> (rne_qc_round_no_endorsements rs)) nv c]> (nes_pending st)) e).
  assert (∀ c e, no_endorsements_for (st' c e) m = p') as Hfor.
  { intros c e. unfold no_endorsements_for. simpl. rewrite lookup_insert_eq. simpl.
    by rewrite lookup_insert_eq. }
  assert (∀ c e, nes_earliest_round st <= e → (is_Some c → ne_round m < e) →
    no_endorsement_state_inv vms (st' c e)) as Hinv'.
  { intros c e Hle Hc r rs'. simpl. intros [[<- <-]|[_ Hr]]%lookup_insert_Some; simpl.
    - split; [|done]. intros q m' [[_ <-]|[_ Hm]]%lookup_insert_Some; [|by eapply Hq].
      intros n s Hn. eapply Hknown. by eapply lookup_weaken.
    - destruct (Hinv _ _ Hr) as [? Hlt]. split; [done|]. intros ?%Hlt. lia. }
  destruct osc as [sc|].
  - rewrite round_add_ok by lia. simpl. rewrite Hcert. simpl.
    exists (Some (mkNEC m sc)), (st' (Some (mkNEC m sc)) (ne_round m + 1)). rewrite Hfor.
    split_and!; [done|apply Hinv'; lia|done|done|done| |done].
    unfold get_nec. simpl. by rewrite lookup_insert_eq.
  - exists None, (st' (rne_certificate rs) (nes_earliest_round st)). rewrite Hfor.
    split_and!; [done|apply Hinv'; [lia|rewrite Hcert; by intros [? ?]]|done|done|done].
Qed.
End lemmas.

(** * Sequences of votes and rounds *)

Section runs.
Context `{P : Protocol}.
Context {VT : Type} `{ValidatorSetType VT}.

(** The life of a [VoteState]: votes come in, and rounds start, in order. *)
Inductive vote_state_steps : VoteState → list QuorumCertificate → VoteState → Prop :=
| steps_refl st : vote_state_steps st [] st
| steps_vote st author msg validators vm oqc st1 qcs st2 :
    process_vote st author msg validators vm = Ret (oqc, st1) →
    vote_state_steps st1 qcs st2 →
    vote_state_steps st (option_list oqc ++ qcs) st2
| steps_new_round st r qcs st2 :
    vs_earliest_round st <= r →
    vote_state_steps (vote_state_start_new_round st r) qcs st2 →
    vote_state_steps st qcs st2.

Lemma vote_state_steps_rounds st qcs st' :
  vote_state_steps st qcs st' →
  StronglySorted Z.lt (qc_round <$> qcs) ∧
  (∀ qc, qc ∈ qcs → vs_earliest_round st <= qc_round qc < vs_earliest_round st') ∧
  vs_earliest_round st <= vs_earliest_round st'.
Proof.
  induction 1 as [st|st author msg vs vm oqc st1 qcs st2 Hv _ (Hs & Hall & Hle)|st r qcs st2 Hr _ (Hs & Hall & Hle)].
  - split_and!; [constructor|set_solver|lia].
  - apply process_vote_earliest in Hv. destruct oqc as [qc|]; csimpl; [destruct Hv|].
    + split_and!; [constructor; [done|]| |lia].
      * apply Forall_forall. intros r (q & -> & Hq%Hall)%list_elem_of_fmap. lia.
      * intros q [->|Hq%Hall]%elem_of_cons; lia.
    + rewrite <-Hv. done.
  - simpl in *. split_and!; [done| |lia]. intros qc Hq%Hall. lia.
Qed.
End runs.

(** * Properties *)

(** At most one certificate per round: over any sequence of votes and new
    rounds in order, the certificates a [VoteState] makes have strictly
    increasing rounds, none below where it started and none at or above where it
    ends. *)
Theorem one_qc_per_round `{P : Protocol} {VT : Type} `{ValidatorSetType VT}
    (st st' : VoteState) (qcs : list QuorumCertificate)
    (Hsteps : vote_state_steps st qcs st') :
  StronglySorted Z.lt (qc_round <$> qcs) ∧
  (∀ qc, qc ∈ qcs → vs_earliest_round st <= qc_round qc < vs_earliest_round st').
Proof. apply vote_state_steps_rounds in Hsteps as (? & ? & _). done. Qed.

(** C23. Processing a vote of a known validator never panics or loops, drops only
    invalid signatures, and returns a certificate exactly when the pending
    votes for that block still are a super majority: the certificate is for the
    vote and its signatures verify to distinct validators with more than two
    thirds of the stake. *)
Theorem process_vote_correct `{P : Protocol} `{!SignatureCollectionLaws P} {VT : Type}
    `{ValidatorSetLaws VT} (vms : Epoch → ValidatorMapping) (st : VoteState) (author : NodeId)
    (msg : VoteMessage) (vs : VT)
    (Hvs : vs_wf vs) (Hinj : mapping_injective (vms (vote_epoch (vm_vote msg))))
    (Hinv : vote_state_inv vms st)
    (Hauthor : is_Some (mapping (vms (vote_epoch (vm_vote msg))) !! author))
    (Hmax : vote_round (vm_vote msg) + 1 <= u64_max)
    (Hearly : vs_earliest_round st <= vote_round (vm_vote msg)) :
  let v := vm_vote msg in
  let pending := <[author := vm_sig msg]> (votes_for st v) in
  ∃ oqc st', process_vote st author msg vs (vms (vote_epoch v)) = Ret (oqc, st') ∧
    vote_state_inv vms st' ∧ votes_for st' v ⊆ pending ∧
    (∀ n s pk, pending !! n = Some s → mapping (vms (vote_epoch v)) !! n = Some pk →
       cert_verify SD_Vote (vote_digest v) s pk = true → votes_for st' v !! n = Some s) ∧
    match oqc with
    | Some qc => qc_info qc = v ∧ vs_earliest_round st' = vote_round v + 1 ∧
        quorum_collection SD_Vote vs (vms (vote_epoch v)) (vote_digest v) (qc_signatures qc)
    | None => vs_earliest_round st' = vs_earliest_round st ∧
        has_super_majority_votes vs (btree_keys (votes_for st' v)) = Ret (Ok false)
    end.
Proof. by apply process_vote_spec. Qed.

(** Processing a no-endorsement of a known validator never panics or loops,
    drops only invalid signatures, and returns a certificate exactly when the
    pending no-endorsements for that round and tip certificate still are a super
    majority; the certificate verifies and is the one [get_nec] returns. *)
Theorem process_no_endorsement_correct `{P : Protocol} `{!SignatureCollectionLaws P} {VT : Type}
    `{ValidatorSetLaws VT} (vms : Round → ValidatorMapping) (st : NoEndorsementState)
    (author : NodeId) (msg : NoEndorsementMessage) (vs : VT)
    (Hvs : vs_wf vs) (Hinj : mapping_injective (vms (ne_round (nm_msg msg))))
    (Hinv : no_endorsement_state_inv vms st)
    (Hauthor : is_Some (mapping (vms (ne_round (nm_msg msg))) !! author))
    (Hmax : ne_round (nm_msg msg) + 1 <= u64_max)
    (Hearly : nes_earliest_round st <= ne_round (nm_msg msg)) :
  let m := nm_msg msg in
  let pending := <[author := nm_signature msg]> (no_endorsements_for st m) in
  ∃ onec st', process_no_endorsement st author msg vs (vms (ne_round m)) = Ret (onec, st') ∧
    no_endorsement_state_inv vms st' ∧
    (∀ n s pk, pending !! n = Some s → mapping (vms (ne_round m)) !! n = Some pk →
       cert_verify SD_NoEndorsement (no_endorsement_digest m) s pk = true →
       no_endorsements_for st' m !! n = Some s) ∧
    match onec with
    | Some nec => nec_msg nec = m ∧ nes_earliest_round st' = ne_round m + 1 ∧
        get_nec st' (ne_round m) = Some nec ∧
        quorum_collection SD_NoEndorsement vs (vms (ne_round m)) (no_endorsement_digest m)
          (nec_signatures nec)
    | None => nes_earliest_round st' = nes_earliest_round st ∧
        has_super_majority_votes vs (btree_keys (no_endorsements_for st' m)) = Ret (Ok false)
    end.
Proof. by apply process_no_endorsement_spec. Qed.

(** ** Concrete data *)

#[local] Existing Instances NopProtocol map_order.

Definition nop_vote : Vote := mkVote 42 5 1.
Definition nop_vote_message (n : NodeId) : @VoteMessage NopProtocol :=
  @mkVoteMessage NopProtocol nop_vote (nop_sign poly_hash SD_Vote (@vote_digest NopProtocol nop_vote) n).
Definition nop_no_endorsement (round : Round) : NoEndorsement := mkNoEndorsement 1 round 3.
Definition nop_no_endorsement_message (round : Round) (n : NodeId) : @NoEndorsementMessage NopProtocol :=
  @mkNoEndorsementMessage NopProtocol (nop_no_endorsement round)
    (nop_sign poly_hash SD_NoEndorsement (@no_endorsement_digest NopProtocol (nop_no_endorsement round)) n).

(** Three votes of four validators, one after the other. *)
Definition nop_three_votes : exec (option (@QuorumCertificate NopProtocol) * @VoteState NopProtocol) :=
  '(_, st) ← process_vote (vote_state_new 5) 1 (nop_vote_message 1) four_validators four_mapping;
  '(_, st) ← process_vote st 2 (nop_vote_message 2) four_validators four_mapping;
  process_vote st 3 (nop_vote_message 3) four_validators four_mapping.

Lemma one_qc_per_round_witness :
  ∃ (qcs : list (@QuorumCertificate NopProtocol)) (st' : @VoteState NopProtocol),
    qcs ≠ [] ∧ StronglySorted Z.lt (qc_round <$> qcs) ∧
    (∀ qc, qc ∈ qcs → 5 <= qc_round qc < vs_earliest_round st').
Proof.
  destruct (ret_with_spec (λ r, bool_decide (is_Some r.1)) nop_three_votes)
    as ([oqc st3] & H3 & [qc Hqc]%bool_decide_eq_true); [vm_compute; reflexivity|].
  unfold nop_three_votes in H3. simpl in Hqc.
  apply bind_Ret_inv in H3 as ([o1 st1] & H1 & H3). apply bind_Ret_inv in H3 as ([o2 st2] & H2 & H3).
  exists (option_list o1 ++ option_list o2 ++ option_list oqc ++ []), st3.
  split; [subst oqc; by destruct o1, o2|].
  apply (one_qc_per_round (vote_state_new 5)).
  eapply steps_vote; [exact H1|]. eapply steps_vote; [exact H2|].
  eapply steps_vote; [exact H3|]. apply steps_refl.
Defined.

Lemma vote_state_inv_new `{P : Protocol} vms r : vote_state_inv vms (vote_state_new r).
Proof. intros ???? Hr. simpl in Hr. by apply lookup_empty_Some in Hr. Qed.

Lemma no_endorsement_state_inv_new `{P : Protocol} vms r :
  no_endorsement_state_inv vms (no_endorsement_state_new r).
Proof. intros ?? Hr. simpl in Hr. by apply lookup_empty_Some in Hr. Qed.

Lemma process_vote_correct_witness :
  let st := @vote_state_new NopProtocol 5 in
  let v := nop_vote in
  let pending := <[1 := vm_sig (nop_vote_message 1)]> (votes_for st v) in
  ∃ oqc st', process_vote st 1 (nop_vote_message 1) four_validators four_mapping = Ret (oqc, st') ∧
    vote_state_inv (λ _, four_mapping) st' ∧ votes_for st' v ⊆ pending ∧
    (∀ n s pk, pending !! n = Some s → mapping four_mapping !! n = Some pk →
       cert_verify SD_Vote (vote_digest v) s pk = true → votes_for st' v !! n = Some s) ∧
    match oqc with
    | Some qc => qc_info qc = v ∧ vs_earliest_round st' = 6 ∧
        quorum_collection SD_Vote four_validators four_mapping (vote_digest v) (qc_signatures qc)
    | None => vs_earliest_round st' = 5 ∧
        has_super_majority_votes four_validators (btree_keys (votes_for st' v)) = Ret (Ok false)
    end.
Proof.
  apply (process_vote_correct (P := NopProtocol) (λ _, four_mapping) (vote_state_new 5) 1
    (nop_vote_message 1) four_validators).
  - exact four_validators_wf.
  - exact four_mapping_injective.
  - apply vote_state_inv_new.
  - vm_compute. eauto.
  - done.
  - done.
Defined.

Lemma process_no_endorsement_correct_witness :
  let st := @no_endorsement_state_new NopProtocol 8 in
  let m := nop_no_endorsement 8 in
  let pending := <[1 := nm_signature (nop_no_endorsement_message 8 1)]> (no_endorsements_for st m) in
  ∃ onec st',
    process_no_endorsement st 1 (nop_no_endorsement_message 8 1) four_validators four_mapping =
      Ret (onec, st') ∧
    no_endorsement_state_inv (λ _, four_mapping) st' ∧
    (∀ n s pk, pending !! n = Some s → mapping four_mapping !! n = Some pk →
       cert_verify SD_NoEndorsement (no_endorsement_digest m) s pk = true →
       no_endorsements_for st' m !! n = Some s) ∧
    match onec with
    | Some nec => nec_msg nec = m ∧ nes_earliest_round st' = 9 ∧ get_nec st' 8 = Some nec ∧
        quorum_collection SD_NoEndorsement four_validators four_mapping (no_endorsement_digest m)
          (nec_signatures nec)
    | None => nes_earliest_round st' = 8 ∧
        has_super_majority_votes four_validators (btree_keys (no_endorsements_for st' m)) = Ret (Ok false)
    end.
Proof.
  apply (process_no_endorsement_correct (P := NopProtocol) (λ _, four_mapping)
    (no_endorsement_state_new 8) 1 (nop_no_endorsement_message 8 1) four_validators).
  - exact four_validators_wf.
  - exact four_mapping_injective.
  - apply no_endorsement_state_inv_new.
  - vm_compute. eauto.
  - done.
  - done.
Defined.

(** Three no-endorsements for round 8 make its certificate while the node is in
    round 5; the node then enters round 6, and the fourth comes in. *)
Definition nop_three_no_endorsements : exec NoEndorsementState :=
  let st := no_endorsement_state_new 5 in
  '(_, st) ← process_no_endorsement st 1 (nop_no_endorsement_message 8 1) four_validators four_mapping;
  '(_, st) ← process_no_endorsement st 2 (nop_no_endorsement_message 8 2) four_validators four_mapping;
  '(_, st) ← process_no_endorsement st 3 (nop_no_endorsement_message 8 3) four_validators four_mapping;
  Ret st.

Definition nop_late_no_endorsement (new_round : option Round) :
    exec (option NoEndorsementCertificate) :=
  st ← nop_three_no_endorsements;
  let st := match new_round with Some r => no_endorsement_start_new_round st r | None => st end in
  '(nec, _) ← process_no_endorsement st 4 (nop_no_endorsement_message 8 4) four_validators four_mapping;
  Ret nec.

(** The assertion that a round has one no-endorsement certificate can fail.
    Three of four validators make the certificate of round 8 while the node is in
    round 5; a fourth no-endorsement is then ignored. But if the node enters
    round 6 in between, [start_new_round] takes [earliest_round] back below 8,
    and the fourth no-endorsement panics. *)
Example late_no_endorsement_panics :
  ret_with (λ st, bool_decide (is_Some (get_nec st 8)) && bool_decide (nes_earliest_round st = 9))
    nop_three_no_endorsements = true ∧
  nop_late_no_endorsement None = Ret None ∧
  nop_late_no_endorsement (Some 6) = Panic.
Proof. split; [vm_compute; reflexivity|]. split; vm_decide. Qed.
