(* ===== verification/Timestamp.v ===== *)
(** Block timestamps (src/monad-consensus-state/src/timestamp.rs). *)

From S2P Require Import Prelude Types.

#[local] Open Scope Z_scope.

Inductive TimestampAdjustmentDirection := Forward | Backward.

Record TimestampAdjustment := mkTimestampAdjustment {
  ta_delta : Z;
  ta_direction : TimestampAdjustmentDirection;
}.

Record BlockTimestamp := mkBlockTimestamp {
  local_time_ns : Z;
  max_delta_ns : Z;
  latency_estimate_ns : Z;
}.

Definition block_timestamp_new (max_delta_ns latency_estimate_ns : Z) : exec BlockTimestamp :=
  _ ← assert (bool_decide (latency_estimate_ns > 0));
  Ret (mkBlockTimestamp 0 max_delta_ns latency_estimate_ns).

Definition update_time (b : BlockTimestamp) (time : Z) : BlockTimestamp :=
  mkBlockTimestamp time (max_delta_ns b) (latency_estimate_ns b).

Definition get_current_time (b : BlockTimestamp) : Z := local_time_ns b.

(** [prev_block_ts + 1] on [u128], which wraps in a release build. *)
Definition get_valid_block_timestamp (b : BlockTimestamp) (prev_block_ts : Z) : Z :=
  if bool_decide (local_time_ns b <= prev_block_ts) then (prev_block_ts + 1) mod 2 ^ 128
  else local_time_ns b.

Definition valid_bounds (b : BlockTimestamp) (timestamp vote_delay_ns : Z) : bool :=
  let max_delta_ns := saturating_add u128_max (max_delta_ns b) vote_delay_ns in
  let lower_bound := saturating_sub (local_time_ns b) max_delta_ns in
  let upper_bound := saturating_add u128_max (local_time_ns b) max_delta_ns in
  bool_decide (lower_bound <= timestamp) && bool_decide (timestamp <= upper_bound).

Definition valid_block_timestamp (b : BlockTimestamp) (prev_block_ts curr_block_ts vote_delay_ns : Z)
    (is_reproposal : bool) : option TimestampAdjustment :=
  if is_reproposal then
    if bool_decide (curr_block_ts > prev_block_ts) && bool_decide (curr_block_ts < local_time_ns b)
    then Some (mkTimestampAdjustment 0 Forward) else None
  else if bool_decide (curr_block_ts < prev_block_ts) then None
  else if bool_decide (curr_block_ts - prev_block_ts = 0) then None
  else if negb (valid_bounds b curr_block_ts vote_delay_ns) then None
  else
    let adjustment := abs_diff (local_time_ns b) curr_block_ts in
    let adjustment := saturating_sub adjustment (latency_estimate_ns b) in
    if bool_decide (curr_block_ts > local_time_ns b)
    then Some (mkTimestampAdjustment adjustment Forward)
    else Some (mkTimestampAdjustment adjustment Backward).

(** * Lemmas *)

(** The saturating bounds are the exact ones on [u128]. *)
Lemma valid_bounds_spec b ts vd :
  0 <= local_time_ns b <= u128_max → 0 <= max_delta_ns b <= u128_max → 0 <= vd <= u128_max →
  0 <= ts <= u128_max →
  valid_bounds b ts vd = bool_decide (Z.abs (ts - local_time_ns b) <= max_delta_ns b + vd).
Proof.
  intros. unfold valid_bounds, saturating_add, saturating_sub.
  repeat case_bool_decide; simpl; try done; lia.
Qed.

(** * Properties *)

(** A fresh block's timestamp is accepted exactly when it is after its
    parent's and within [max_delta + vote_delay] of the local clock, a
    reproposal's exactly when it is between its parent's and the local clock;
    the adjustment is bounded by that distance less the latency estimate, and
    the timestamp a leader picks is accepted by a node with the same clock. *)
Theorem valid_block_timestamp_spec (b : BlockTimestamp) (prev curr vote_delay : Z)
    (Hlocal : 0 <= local_time_ns b <= u128_max) (Hdelta : 0 <= max_delta_ns b <= u128_max)
    (Hlat : 0 < latency_estimate_ns b) (Hvd : 0 <= vote_delay <= u128_max)
    (Hprev : 0 <= prev < u128_max) (Hcurr : 0 <= curr <= u128_max) :
  (is_Some (valid_block_timestamp b prev curr vote_delay false) ↔
     prev < curr ∧ Z.abs (curr - local_time_ns b) <= max_delta_ns b + vote_delay) ∧
  (is_Some (valid_block_timestamp b prev curr vote_delay true) ↔
     prev < curr < local_time_ns b) ∧
  (∀ a, valid_block_timestamp b prev curr vote_delay false = Some a →
     ta_delta a = Z.max 0 (Z.abs (curr - local_time_ns b) - latency_estimate_ns b) ∧
     (ta_direction a = Forward ↔ local_time_ns b < curr)) ∧
  (prev + 1 <= local_time_ns b + max_delta_ns b + vote_delay →
   is_Some (valid_block_timestamp b prev (get_valid_block_timestamp b prev) vote_delay false)).
Proof.
  assert (0 <= get_valid_block_timestamp b prev <= u128_max ∧ prev < get_valid_block_timestamp b prev ∧
    (get_valid_block_timestamp b prev = prev + 1 ∧ local_time_ns b <= prev ∨
     get_valid_block_timestamp b prev = local_time_ns b)) as (? & ? & ?).
  { unfold get_valid_block_timestamp, u128_max in *.
    case_bool_decide; [rewrite Z.mod_small by lia|]; lia. }
  unfold valid_block_timestamp. rewrite !valid_bounds_spec by lia.
  unfold saturating_sub, abs_diff. split_and!.
  - repeat case_bool_decide; simpl; split; intros Hs; try (by destruct Hs); eauto; lia.
  - repeat case_bool_decide; simpl; split; intros Hs; try (by destruct Hs); eauto; lia.
  - intros a. repeat case_bool_decide; simpl; intros; simplify_eq/=; split; intuition (done || lia).
  - intros. repeat case_bool_decide; simpl; eauto; lia.
Qed.

Lemma valid_block_timestamp_spec_witness :
  let b := mkBlockTimestamp 1000 100 10 in
  (is_Some (valid_block_timestamp b 950 1050 20 false) ↔ 950 < 1050 ∧ Z.abs (1050 - 1000) <= 100 + 20) ∧
  (is_Some (valid_block_timestamp b 950 1050 20 true) ↔ 950 < 1050 < 1000) ∧
  (∀ a, valid_block_timestamp b 950 1050 20 false = Some a →
     ta_delta a = Z.max 0 (Z.abs (1050 - 1000) - 10) ∧ (ta_direction a = Forward ↔ 1000 < 1050)) ∧
  (950 + 1 <= 1000 + 100 + 20 →
   is_Some (valid_block_timestamp b 950 (get_valid_block_timestamp b 950) 20 false)).
Proof.
  apply (valid_block_timestamp_spec (mkBlockTimestamp 1000 100 10) 950 1050 20);
    unfold u128_max; simpl; lia.
Defined.
