(* ===== verification/BlockPolicy.v ===== *)
(** Block policies (src/monad-consensus-types/src/block.rs): how the contents of
    a block are checked against the chain it extends, and the pass-through
    policy. *)

From S2P Require Import Prelude Types ValidatorSet Crypto MultiSig ConsensusTypes.

#[local] Open Scope Z_scope.

(** src/monad-state-backend/src/lib.rs *)
Inductive StateBackendError := NotAvailableYet | NeverAvailable.

Inductive BlockPolicyError :=
| BlockNotCoherent
| PolicyStateBackendError (e : StateBackendError)
| TimestampError
| ExecutionResultMismatch.

(** [trait BlockPolicy]: [BPT] is the policy's own state, [SBT] the state
    backend, and [vb_block] the [Deref] of a validated block. *)
Class BlockPolicy `{P : Protocol} := {
  ValidatedBlock : Type;
  BPT : Type;
  SBT : Type;
  vb_block : ValidatedBlock → ConsensusFullBlock;
  check_coherency : BPT → ValidatedBlock → list ValidatedBlock → RootInfo → SBT →
    exec (result unit BlockPolicyError);
  get_expected_execution_results : BPT → SeqNum → list ValidatedBlock → SBT →
    exec (result (list FinalizedHeader) StateBackendError);
  update_committed_block : BPT → ValidatedBlock → exec BPT;
  policy_reset : BPT → list ValidatedBlock → exec BPT;
}.

Section accessors.
Context `{BP : BlockPolicy}.

Definition vb_id (b : ValidatedBlock) : BlockId := fb_id (vb_block b).
Definition vb_parent_id (b : ValidatedBlock) : BlockId := fb_parent_id (vb_block b).
Definition vb_body_id (b : ValidatedBlock) : Z := fb_body_id (vb_block b).
Definition vb_block_round (b : ValidatedBlock) : Round := fb_block_round (vb_block b).
Definition vb_parent_round (b : ValidatedBlock) : Round := fb_parent_round (vb_block b).
Definition vb_qc (b : ValidatedBlock) : QuorumCertificate := fb_qc (vb_block b).
Definition vb_epoch (b : ValidatedBlock) : Epoch := fb_epoch (vb_block b).
Definition vb_seq_num (b : ValidatedBlock) : SeqNum := fb_seq_num (vb_block b).
Definition vb_timestamp (b : ValidatedBlock) : Z := fb_timestamp (vb_block b).
Definition vb_header (b : ValidatedBlock) : ConsensusBlockHeader := fb_header (vb_block b).
Definition vb_body (b : ValidatedBlock) : ConsensusBlockBody := fb_body (vb_block b).
End accessors.

(** [PassthruBlockPolicy] *)
Section passthru.
Context `{P : Protocol}.

Definition passthru_check_coherency (block : ConsensusFullBlock)
    (extending_blocks : list ConsensusFullBlock) (blocktree_root : RootInfo) :
    exec (result unit BlockPolicyError) :=
  let '(extending_seq_num, extending_timestamp) :=
    match last extending_blocks with
    | Some extended_block => (fb_seq_num extended_block, fb_timestamp extended_block)
    | None => (ri_seq_num blocktree_root, 0)
    end in
  next ← seq_num_add extending_seq_num 1;
  if bool_decide (fb_seq_num block ≠ next) then Ret (Err BlockNotCoherent)
  else if bool_decide (fb_timestamp block <= extending_timestamp) then Ret (Err TimestampError)
  else if bool_decide (h_delayed_execution_results (fb_header block) ≠ [])
  then Ret (Err ExecutionResultMismatch)
  else Ret (Ok tt).

Definition PassthruBlockPolicy : @BlockPolicy P := {|
  ValidatedBlock := ConsensusFullBlock;
  BPT := unit;
  SBT := unit;
  vb_block b := b;
  check_coherency _ b ext root _ := passthru_check_coherency b ext root;
  get_expected_execution_results _ _ _ _ := Ret (Ok []);
  update_committed_block p _ := Ret p;
  policy_reset p _ := Ret p;
|}.
End passthru.
