(* ===== verification/BlockTree.v ===== *)
(** The tree of uncommitted blocks (src/monad-blocktree/src/tree.rs and
    blocktree.rs). *)

From S2P Require Import Prelude Types ValidatorSet Crypto MultiSig ConsensusTypes BlockPolicy.

#[local] Open Scope Z_scope.

Section tree.
Context `{BP : BlockPolicy} `{HashOrder}.

(** * Tree *)

Record BlockTreeEntry := mkEntry {
  validated_block : ValidatedBlock;
  entry_is_coherent : bool;
  children_blocks : list BlockId;
}.

Record BlockBodyIndex := mkBodyIndex {
  index_body : ConsensusBlockBody;
  active_blocks : gset BlockId;
}.

Record Tree := mkTree {
  tree_entries : gmap BlockId BlockTreeEntry;
  tree_payloads : gmap Z BlockBodyIndex;
}.

Definition tree_default : Tree := mkTree ∅ ∅.

Definition tree_set_coherent (t : Tree) (block_id : BlockId) (coherent : bool) : option Tree :=
  e ← tree_entries t !! block_id;
  Some (mkTree (<[block_id := mkEntry (validated_block e) coherent (children_blocks e)]> (tree_entries t))
          (tree_payloads t)).

Definition tree_remove (t : Tree) (block_id : BlockId) : exec (option BlockTreeEntry * Tree) :=
  match tree_entries t !! block_id with
  | None => Ret (None, t)
  | Some removed =>
      let entries := delete block_id (tree_entries t) in
      let payload_id := vb_body_id (validated_block removed) in
      payload_index ← expect (tree_payloads t !! payload_id);
      _ ← assert (bool_decide (block_id ∈ active_blocks payload_index));
      let active := active_blocks payload_index ∖ {[ block_id ]} in
      let payloads :=
        if bool_decide (active = ∅) then delete payload_id (tree_payloads t)
        else <[payload_id := mkBodyIndex (index_body payload_index) active]> (tree_payloads t) in
      Ret (Some removed, mkTree entries payloads)
  end.

(** The ids of the blocks of the tree that extend [id]. *)
Definition find_children (entries : gmap BlockId BlockTreeEntry) (id : BlockId) : list BlockId :=
  omap (λ be : BlockId * BlockTreeEntry,
          if bool_decide (vb_parent_id (validated_block be.2) = id) then Some be.1 else None)
    (hash_iter entries).

Definition tree_insert (t : Tree) (block : ValidatedBlock) : exec Tree :=
  let new_block_id := vb_id block in
  let parent_id := vb_parent_id block in
  let body_id := vb_body_id block in
  let new_block_entry := mkEntry block false (find_children (tree_entries t) new_block_id) in
  _ ← assert (bool_decide (tree_entries t !! new_block_id = None));
  let entries := <[new_block_id := new_block_entry]> (tree_entries t) in
  let entries :=
    match entries !! parent_id with
    | Some p =>
        <[parent_id := mkEntry (validated_block p) (entry_is_coherent p)
                         (children_blocks p ++ [new_block_id])]> entries
    | None => entries
    end in
  let index := default (mkBodyIndex (vb_body block) ∅) (tree_payloads t !! body_id) in
  _ ← assert (bool_decide (new_block_id ∉ active_blocks index));
  Ret (mkTree entries
         (<[body_id := mkBodyIndex (index_body index) ({[ new_block_id ]} ∪ active_blocks index)]>
            (tree_payloads t))).

Definition tree_get_payload (t : Tree) (block_body_id : Z) : option ConsensusBlockBody :=
  index_body <$> tree_payloads t !! block_body_id.

(** * BlockTree *)

Record Root := mkRoot { root_info : RootInfo; root_children : list BlockId }.

Record BlockTree := mkBlockTree { bt_root : Root; bt_tree : Tree }.

Definition block_tree_new (root : RootInfo) : BlockTree := mkBlockTree (mkRoot root []) tree_default.

Definition bt_root_id (bt : BlockTree) : BlockId := ri_block_id (root_info (bt_root bt)).
Definition bt_entries (bt : BlockTree) : gmap BlockId BlockTreeEntry := tree_entries (bt_tree bt).
Definition get_root_seq_num (bt : BlockTree) : SeqNum := ri_seq_num (root_info (bt_root bt)).
Definition get_root_timestamp (bt : BlockTree) : Z := ri_timestamp_ns (root_info (bt_root bt)).

Definition is_coherent (bt : BlockTree) (b : BlockId) : bool :=
  if bool_decide (b = bt_root_id bt) then true
  else match bt_entries bt !! b with
       | Some e => entry_is_coherent e
       | None => false
       end.

(** The loop of [prune] up the branch: [commit] is collected from the new root
    down to the block above the root. *)
Fixpoint prune_loop (fuel : nat) (root_id : BlockId) (t : Tree) (entry_to_commit : BlockTreeEntry)
    (commit : list ValidatedBlock) : exec (list ValidatedBlock * Tree) :=
  _ ← assert (entry_is_coherent entry_to_commit);
  let validated_block := validated_block entry_to_commit in
  let parent_id := vb_parent_id validated_block in
  let commit := commit ++ [validated_block] in
  if bool_decide (parent_id = root_id) then Ret (commit, t) else
  match fuel with
  | O => OutOfFuel
  | S fuel =>
      '(removed, t) ← tree_remove t parent_id;
      entry_to_commit ← expect removed;
      prune_loop fuel root_id t entry_to_commit commit
  end.

Fixpoint remove_all (t : Tree) (ids : list BlockId) : exec Tree :=
  match ids with
  | [] => Ret t
  | id :: ids => '(_, t) ← tree_remove t id; remove_all t ids
  end.

Definition blocks_to_delete (t : Tree) (round : Round) : list BlockId :=
  omap (λ be : BlockId * BlockTreeEntry,
          if bool_decide (vb_parent_round (validated_block be.2) < round) then Some be.1 else None)
    (hash_iter (tree_entries t)).

Definition prune (bt : BlockTree) (new_root : BlockId) : exec (list ValidatedBlock * BlockTree) :=
  _ ← assert (is_coherent bt new_root);
  if bool_decide (new_root = bt_root_id bt) then Ret ([], bt) else
  '(removed, t) ← tree_remove (bt_tree bt) new_root;
  new_root_entry ← expect removed;
  '(commit, t) ← prune_loop (size (bt_entries bt)) (bt_root_id bt) t new_root_entry [];
  let b := validated_block new_root_entry in
  t ← remove_all t (blocks_to_delete t (vb_block_round b));
  let root :=
    mkRoot (mkRootInfo (vb_block_round b) (vb_seq_num b) (vb_epoch b) (vb_id b) (vb_timestamp b))
      (children_blocks new_root_entry) in
  Ret (reverse commit, mkBlockTree root t).

Definition is_valid_to_insert (bt : BlockTree) (h : ConsensusBlockHeader) : bool :=
  bool_decide (bt_entries bt !! header_get_id h = None) &&
  bool_decide (h_block_round h > ri_round (root_info (bt_root bt))).

Definition block_tree_add (bt : BlockTree) (block : ValidatedBlock) : exec BlockTree :=
  if negb (is_valid_to_insert bt (vb_header block)) then Ret bt else
  t ← tree_insert (bt_tree bt) block;
  let root :=
    if bool_decide (vb_parent_id block = bt_root_id bt)
    then mkRoot (root_info (bt_root bt)) (root_children (bt_root bt) ++ [vb_id block])
    else bt_root bt in
  Ret (mkBlockTree root t).

(** The loop of [get_blocks_on_path_from_root]. *)
Fixpoint path_loop (fuel : nat) (bt : BlockTree) (visit : BlockId) (blocks : list ValidatedBlock) :
    exec (option (list ValidatedBlock)) :=
  match bt_entries bt !! visit with
  | None => Ret None
  | Some e =>
      let btb := validated_block e in
      let blocks := blocks ++ [btb] in
      if bool_decide (vb_parent_id btb = bt_root_id bt) then Ret (Some (reverse blocks)) else
      match fuel with
      | O => OutOfFuel
      | S fuel => path_loop fuel bt (vb_parent_id btb) blocks
      end
  end.

Definition get_blocks_on_path_from_root (bt : BlockTree) (b : BlockId) :
    exec (option (list ValidatedBlock)) :=
  if bool_decide (b = bt_root_id bt) then Ret (Some [])
  else path_loop (size (bt_entries bt)) bt b [].

(** [iter().find(..)] over the path, looking up each block's entry. *)
Fixpoint find_incoherent (bt : BlockTree) (path : list ValidatedBlock) :
    exec (option ValidatedBlock) :=
  match path with
  | [] => Ret None
  | b :: path =>
      e ← expect (bt_entries bt !! vb_id b);
      if negb (entry_is_coherent e) then Ret (Some b) else find_incoherent bt path
  end.

(** The [while] loop of [try_update_coherency]: breadth first from the first
    incoherent block. *)
Fixpoint coherency_loop (fuel : nat) (bt : BlockTree) (policy : BPT) (state_backend : SBT)
    (queue : list BlockId) (retval : list ValidatedBlock) : exec (list ValidatedBlock * BlockTree) :=
  match queue with
  | [] => Ret (retval, bt)
  | next_block_id :: queue =>
      match fuel with
      | O => OutOfFuel
      | S fuel =>
          path ← get_blocks_on_path_from_root bt next_block_id;
          extending_blocks ← expect path;
          next_block ← expect (last extending_blocks);
          let extending_blocks := take (length extending_blocks - 1) extending_blocks in
          r ← check_coherency policy next_block extending_blocks (root_info (bt_root bt)) state_backend;
          match r with
          | Ok _ =>
              t ← expect (tree_set_coherent (bt_tree bt) next_block_id true);
              let bt := mkBlockTree (bt_root bt) t in
              e ← expect (bt_entries bt !! next_block_id);
              coherency_loop fuel bt policy state_backend (queue ++ children_blocks e)
                (retval ++ [next_block])
          | Err _ => coherency_loop fuel bt policy state_backend queue retval
          end
      end
  end.

Definition try_update_coherency (bt : BlockTree) (block_id : BlockId) (policy : BPT)
    (state_backend : SBT) : exec (list ValidatedBlock * BlockTree) :=
  path ← get_blocks_on_path_from_root bt block_id;
  match path with
  | None => Ret ([], bt)
  | Some path_from_root =>
      incoherent ← find_incoherent bt path_from_root;
      match incoherent with
      | None => Ret ([], bt)
      | Some b => coherency_loop (S (size (bt_entries bt))) bt policy state_backend [vb_id b] []
      end
  end.

(** The [while let] loop of [get_high_committable_qc]. *)
Fixpoint committable_loop (fuel : nat) (bt : BlockTree) (iter : list BlockId)
    (high_commit_qc : option QuorumCertificate) : exec (option QuorumCertificate) :=
  match iter with
  | [] => Ret high_commit_qc
  | bid :: iter =>
      match fuel with
      | O => OutOfFuel
      | S fuel =>
          block ← expect (bt_entries bt !! bid);
          let iter := iter ++ children_blocks block in
          let qc := vb_qc (validated_block block) in
          if (match high_commit_qc with
              | Some high => bool_decide (qc_round high >= qc_round qc)
              | None => false
              end)
          then committable_loop fuel bt iter high_commit_qc
          else
          match bt_entries bt !! qc_block_id qc with
          | None => committable_loop fuel bt iter high_commit_qc
          | Some qc_parent_block =>
              committable ← get_committable_id qc (vb_header (validated_block qc_parent_block));
              match committable with
              | None => committable_loop fuel bt iter high_commit_qc
              | Some committable_block_id =>
                  if bool_decide (committable_block_id = bt_root_id bt)
                  then committable_loop fuel bt iter high_commit_qc
                  else if negb (is_coherent bt committable_block_id)
                  then committable_loop fuel bt iter high_commit_qc
                  else committable_loop fuel bt iter (Some qc)
              end
          end
      end
  end.

Definition get_high_committable_qc (bt : BlockTree) : exec (option QuorumCertificate) :=
  committable_loop (S (size (bt_entries bt))) bt (root_children (bt_root bt)) None.

(** The [while let] loop of [maybe_fill_path_to_root]. *)
Fixpoint fill_path_loop (fuel : nat) (bt : BlockTree) (maybe_unknown_bid : BlockId)
    (num_blocks : SeqNum) : exec (option BlockRange) :=
  match bt_entries bt !! maybe_unknown_bid with
  | None => Ret (Some (mkBlockRange maybe_unknown_bid num_blocks))
  | Some known =>
      let b := validated_block known in
      if bool_decide (vb_parent_id b = bt_root_id bt) then Ret None else
      match fuel with
      | O => OutOfFuel
      | S fuel =>
          d ← seq_num_sub (vb_seq_num b) (get_root_seq_num bt);
          n ← seq_num_sub (Z.max d 2) 1;
          fill_path_loop fuel bt (vb_parent_id b) n
      end
  end.

Definition maybe_fill_path_to_root (bt : BlockTree) (qc : QuorumCertificate) :
    exec (option BlockRange) :=
  if bool_decide (ri_round (root_info (bt_root bt)) >= qc_round qc) ||
     bool_decide (bt_root_id bt = qc_block_id qc)
  then Ret None
  else fill_path_loop (size (bt_entries bt)) bt (qc_block_id qc) 1.

Definition get_seq_num_of_qc (bt : BlockTree) (qc : QuorumCertificate) : option SeqNum :=
  if bool_decide (bt_root_id bt = qc_block_id qc) then Some (get_root_seq_num bt)
  else (λ e, vb_seq_num (validated_block e)) <$> bt_entries bt !! qc_block_id qc.

Definition get_timestamp_of_qc (bt : BlockTree) (qc : QuorumCertificate) : option Z :=
  if bool_decide (bt_root_id bt = qc_block_id qc) then Some (get_root_timestamp bt)
  else (λ e, vb_timestamp (validated_block e)) <$> bt_entries bt !! qc_block_id qc.

Definition get_block_round_of_qc (bt : BlockTree) (qc : QuorumCertificate) : option Round :=
  if bool_decide (bt_root_id bt = qc_block_id qc) then Some (ri_round (root_info (bt_root bt)))
  else (λ e, vb_block_round (validated_block e)) <$> bt_entries bt !! qc_block_id qc.

Definition bt_get_block (bt : BlockTree) (block_id : BlockId) : option ValidatedBlock :=
  validated_block <$> bt_entries bt !! block_id.
Definition bt_get_payload (bt : BlockTree) (block_body_id : Z) : option ConsensusBlockBody :=
  tree_get_payload (bt_tree bt) block_body_id.
Definition bt_get_entry (bt : BlockTree) (block_id : BlockId) : option BlockTreeEntry :=
  bt_entries bt !! block_id.

(** The [while let] loop of [get_parent_block_chain], towards the parents. *)
Fixpoint chain_loop (fuel : nat) (bt : BlockTree) (last_block : ValidatedBlock)
    (chain : list ValidatedBlock) : exec (list ValidatedBlock) :=
  match bt_entries bt !! vb_parent_id last_block with
  | None => Ret chain
  | Some parent =>
      match fuel with
      | O => OutOfFuel
      | S fuel => chain_loop fuel bt (validated_block parent) (chain ++ [validated_block parent])
      end
  end.

Definition get_parent_block_chain (bt : BlockTree) (block_id : BlockId) :
    exec (list ValidatedBlock) :=
  match bt_entries bt !! block_id with
  | None => Ret []
  | Some base_block =>
      chain ← chain_loop (size (bt_entries bt)) bt (validated_block base_block)
                [validated_block base_block];
      Ret (reverse chain)
  end.
End tree.
