(* ===== verification/BlockTreeInv.v ===== *)
(** The invariant of the block tree, preserved by every operation, and what the
    operations of src/monad-blocktree/src/blocktree.rs do: the path to the root,
    adding, coherency, committing. *)

From S2P Require Import Prelude Types ValidatorSet Crypto MultiSig ConsensusTypes BlockPolicy.
From S2P Require Import BlockTree.

#[local] Open Scope Z_scope.

Section inv.
Context `{BP : BlockPolicy} `{HashOrder}.
Implicit Types (t : Tree) (bt : BlockTree) (b : ValidatedBlock) (e : BlockTreeEntry).

(** * The invariant *)

(** Each block is stored under its id, and the payload index has exactly the
    bodies of the stored blocks, each with the blocks that use it. *)
Record tree_inv (t : Tree) : Prop := {
  ti_key id e : tree_entries t !! id = Some e → vb_id (validated_block e) = id;
  ti_payload id e : tree_entries t !! id = Some e →
    ∃ idx, tree_payloads t !! vb_body_id (validated_block e) = Some idx ∧ id ∈ active_blocks idx;
  ti_active pid idx : tree_payloads t !! pid = Some idx →
    active_blocks idx ≠ ∅ ∧
    ∀ id, id ∈ active_blocks idx →
      ∃ e, tree_entries t !! id = Some e ∧ vb_body_id (validated_block e) = pid;
}.

(** The tree without the coherency flags. *)
Definition shape (bt : BlockTree) : gmap BlockId (ValidatedBlock * list BlockId) :=
  (λ e, (validated_block e, children_blocks e)) <$> bt_entries bt.

(** [l] lists, once each, the blocks of [m] that extend [id]. *)
Definition children_of (m : gmap BlockId (ValidatedBlock * list BlockId)) (id : BlockId)
    (l : list BlockId) : Prop :=
  NoDup l ∧ ∀ c, c ∈ l ↔ ∃ b ch, m !! c = Some (b, ch) ∧ vb_parent_id b = id.

(** Rounds decrease towards the root, and the child lists are exact. *)
Record shape_inv (root_id : BlockId) (root_ch : list BlockId)
    (m : gmap BlockId (ValidatedBlock * list BlockId)) : Prop := {
  si_root : m !! root_id = None;
  si_rounds id b ch : m !! id = Some (b, ch) →
    vb_parent_round b < vb_block_round b <= u64_max;
  si_parent id b ch p pch : m !! id = Some (b, ch) → m !! vb_parent_id b = Some (p, pch) →
    vb_block_round p <= vb_parent_round b;
  si_children id b ch : m !! id = Some (b, ch) → children_of m id ch;
  si_root_children : children_of m root_id root_ch;
}.

(** A coherent block extends the root or a coherent block. *)
Definition coherent_closed (bt : BlockTree) : Prop :=
  ∀ id e, bt_entries bt !! id = Some e → entry_is_coherent e = true →
    is_coherent bt (vb_parent_id (validated_block e)) = true.

Record bt_inv (bt : BlockTree) : Prop := {
  bi_tree : tree_inv (bt_tree bt);
  bi_shape : shape_inv (bt_root_id bt) (root_children (bt_root bt)) (shape bt);
  bi_coherent : coherent_closed bt;
}.

Lemma shape_lookup bt id b ch :
  shape bt !! id = Some (b, ch) ↔
  ∃ e, bt_entries bt !! id = Some e ∧ validated_block e = b ∧ children_blocks e = ch.
Proof. unfold shape. rewrite lookup_fmap, fmap_Some. naive_solver. Qed.

Lemma shape_lookup_entry bt id e :
  bt_entries bt !! id = Some e → shape bt !! id = Some (validated_block e, children_blocks e).
Proof. intros He. apply shape_lookup. eauto. Qed.

(** * Removing entries *)

Lemma tree_remove_spec t id e :
  tree_inv t → tree_entries t !! id = Some e →
  ∃ t', tree_remove t id = Ret (Some e, t') ∧ tree_inv t' ∧
    tree_entries t' = delete id (tree_entries t).
Proof.
  intros [Hkey Hpay Hact] He. unfold tree_remove. rewrite He.
  destruct (Hpay _ _ He) as (idx & Hidx & Hin). rewrite Hidx. simpl.
  rewrite (bool_decide_true (id ∈ active_blocks idx)) by done. simpl. eexists. split; [reflexivity|]. split; [|done].
  destruct (Hact _ _ Hidx) as [_ Hidx2].
  assert (∀ id' e', delete id (tree_entries t) !! id' = Some e' →
    id' ≠ id ∧ tree_entries t !! id' = Some e') as Hdel.
  { intros id' e' [? ?]%lookup_delete_Some. split; congruence. }
  constructor; simpl.
  - intros id' e' [_ He']%Hdel. eauto.
  - intros id' e' [Hne He']%Hdel. destruct (Hpay _ _ He') as (idx' & Hidx' & Hin').
    destruct (decide (vb_body_id (validated_block e') = vb_body_id (validated_block e))) as [Heq|Hneq].
    + rewrite Heq in *. simplify_eq. rewrite bool_decide_false by set_solver.
      eexists. rewrite lookup_insert_eq. split; [done|]. simpl. set_solver.
    + exists idx'. split; [|done]. case_bool_decide; [rewrite lookup_delete_ne by done|
        rewrite lookup_insert_ne by done]; done.
  - intros pid idx' Hp. assert (∀ idx0, tree_payloads t !! pid = Some idx0 →
      pid ≠ vb_body_id (validated_block e) → active_blocks idx0 ≠ ∅ ∧ ∀ id0, id0 ∈ active_blocks idx0 →
      ∃ e0, delete id (tree_entries t) !! id0 = Some e0 ∧ vb_body_id (validated_block e0) = pid) as Hother.
    { intros idx0 Hidx0 Hne. destruct (Hact _ _ Hidx0) as [? Hall]. split; [done|].
      intros id0 (e0 & He0 & Hb0)%Hall. exists e0. split; [|done].
      rewrite lookup_delete_ne; [done|]. intros <-. simplify_eq. }
    case_bool_decide as Hemp.
    + apply lookup_delete_Some in Hp as [? ?]. eauto.
    + apply lookup_insert_Some in Hp as [[<- <-]|[? ?]]; [|eauto]. simpl. split; [done|].
      intros id0 [Hid0 Hne]%elem_of_difference. apply Hidx2 in Hid0 as (e0 & He0 & Hb0).
      exists e0. split; [|done]. rewrite lookup_delete_ne; [done|set_solver].
Qed.

(** Entries with the given ids taken out. *)
Definition without {A} (ids : list BlockId) (m : gmap BlockId A) : gmap BlockId A :=
  filter (λ kv : BlockId * A, kv.1 ∉ ids) m.

Lemma without_lookup {A} ids (m : gmap BlockId A) id a :
  without ids m !! id = Some a ↔ m !! id = Some a ∧ id ∉ ids.
Proof. unfold without. by rewrite map_lookup_filter_Some. Qed.

Lemma without_delete {A} id ids (m : gmap BlockId A) :
  without ids (delete id m) = without (id :: ids) m.
Proof.
  apply map_eq. intros k. apply option_eq. intros a.
  rewrite !without_lookup, lookup_delete_Some. set_solver.
Qed.

Lemma without_nil {A} (m : gmap BlockId A) : without [] m = m.
Proof. apply map_eq. intros k. apply option_eq. intros a. rewrite without_lookup. set_solver. Qed.

Lemma without_absent {A} id ids (m : gmap BlockId A) :
  m !! id = None → without (id :: ids) m = without ids m.
Proof.
  intros Hid. apply map_eq. intros k. apply option_eq. intros a.
  rewrite !without_lookup. split; [set_solver|]. intros [Hk ?]. split; [done|].
  intros [->|?]%elem_of_cons; [congruence|done].
Qed.

Lemma remove_all_spec t ids :
  tree_inv t →
  ∃ t', remove_all t ids = Ret t' ∧ tree_inv t' ∧ tree_entries t' = without ids (tree_entries t).
Proof.
  revert t. induction ids as [|id ids IH]; intros t Ht; simpl.
  { exists t. rewrite without_nil. done. }
  destruct (tree_entries t !! id) as [e|] eqn:He.
  - destruct (tree_remove_spec t id e Ht He) as (t1 & -> & Ht1 & He1). simpl.
    destruct (IH t1 Ht1) as (t2 & -> & Ht2 & He2). exists t2. split; [done|]. split; [done|].
    by rewrite He2, He1, without_delete.
  - unfold tree_remove. rewrite He. simpl. destruct (IH t Ht) as (t2 & -> & Ht2 & He2).
    exists t2. split; [done|]. split; [done|]. by rewrite He2, without_absent.
Qed.

(** * Paths *)

(** [l] is the list of blocks from just above the root up to [id]. *)
Inductive path_to (m : gmap BlockId (ValidatedBlock * list BlockId)) (root_id : BlockId) :
    BlockId → list ValidatedBlock → Prop :=
| path_root id b ch : m !! id = Some (b, ch) → vb_parent_id b = root_id → path_to m root_id id [b]
| path_step id b ch l : m !! id = Some (b, ch) → vb_parent_id b ≠ root_id →
    path_to m root_id (vb_parent_id b) l → path_to m root_id id (l ++ [b]).

Lemma path_to_last m r id l : path_to m r id l → ∃ b ch l', l = l' ++ [b] ∧ m !! id = Some (b, ch).
Proof. destruct 1 as [id b ch Hb _|id b ch l Hb _ _]; [by exists b, ch, []|by exists b, ch, l]. Qed.

Lemma path_to_det m r id l1 l2 : path_to m r id l1 → path_to m r id l2 → l1 = l2.
Proof.
  intros Hp. revert l2. induction Hp as [id b ch Hb Hr|id b ch l Hb Hr Hp IH]; intros l2 Hp2;
    inversion Hp2; simplify_eq; [done|]. f_equal. eauto.
Qed.

(** The number of blocks below a round: what bounds every walk to the root. *)
Definition below (m : gmap BlockId (ValidatedBlock * list BlockId)) (r : Round) : nat :=
  count_below (λ v, vb_block_round v.1) m r.

Lemma below_lt m id b ch r :
  m !! id = Some (b, ch) → vb_block_round b < r → (below m (vb_block_round b) < below m r)%nat.
Proof. apply (count_below_lt (λ v : ValidatedBlock * list BlockId, vb_block_round v.1) m id (b, ch)). Qed.

Lemma below_size m id b ch : m !! id = Some (b, ch) → (below m (vb_block_round b) < size m)%nat.
Proof. apply (count_below_size (λ v : ValidatedBlock * list BlockId, vb_block_round v.1) m id (b, ch)). Qed.

Lemma size_shape bt : size (shape bt) = size (bt_entries bt).
Proof. unfold shape. by rewrite map_size_fmap. Qed.

Section walks.
Context (bt : BlockTree).
Context (Hsh : shape_inv (bt_root_id bt) (root_children (bt_root bt)) (shape bt)).

(** A step towards the root goes to a lower round. *)
Lemma parent_below id b ch p pch :
  shape bt !! id = Some (b, ch) → shape bt !! vb_parent_id b = Some (p, pch) →
  (below (shape bt) (vb_block_round p) < below (shape bt) (vb_block_round b))%nat.
Proof.
  intros Hb Hp. eapply below_lt; [done|].
  pose proof (si_rounds _ _ _ Hsh _ _ _ Hb). pose proof (si_parent _ _ _ Hsh _ _ _ _ _ Hb Hp). lia.
Qed.

Lemma path_loop_spec fuel id blocks :
  (∀ b ch, shape bt !! id = Some (b, ch) → (below (shape bt) (vb_block_round b) < fuel)%nat) →
  match path_loop fuel bt id blocks with
  | Ret (Some l) => ∃ l', path_to (shape bt) (bt_root_id bt) id l' ∧ l = l' ++ reverse blocks
  | Ret None => ∀ l', ¬ path_to (shape bt) (bt_root_id bt) id l'
  | _ => False
  end.
Proof.
  revert id blocks. induction fuel as [|fuel IH]; intros id blocks Hf; simpl;
    (destruct (bt_entries bt !! id) as [e|] eqn:He;
     [|intros l' Hp; inversion Hp as [??? Hb|???? Hb]; apply shape_lookup in Hb as (? & ? & _); congruence]);
    apply shape_lookup_entry in He; specialize (Hf _ _ He); [lia|].
  case_bool_decide as Hr.
  { exists [validated_block e]. split; [by eapply path_root|by rewrite reverse_app]. }
  specialize (IH (vb_parent_id (validated_block e)) (blocks ++ [validated_block e])).
  destruct (path_loop fuel bt _ _) as [[l|]| |].
  - destruct IH as (l' & Hl' & ->).
    { intros p pch Hp. pose proof (parent_below _ _ _ _ _ He Hp). lia. }
    exists (l' ++ [validated_block e]). split; [by eapply path_step|].
    by rewrite reverse_app, <-(assoc_L (++)).
  - intros l' Hp. inversion Hp as [|???? Hb _ Hpar]; simplify_eq. eapply IH; [|done].
    intros p pch Hpp. pose proof (parent_below _ _ _ _ _ He Hpp). lia.
  - apply IH. intros p pch Hp. pose proof (parent_below _ _ _ _ _ He Hp). lia.
  - apply IH. intros p pch Hp. pose proof (parent_below _ _ _ _ _ He Hp). lia.
Qed.

(** [get_blocks_on_path_from_root] decides whether there is a path, and finds it. *)
Lemma get_blocks_on_path_spec id :
  ∃ o, get_blocks_on_path_from_root bt id = Ret o ∧
    ∀ l, o = Some l ↔ (id = bt_root_id bt ∧ l = []) ∨ path_to (shape bt) (bt_root_id bt) id l.
Proof.
  unfold get_blocks_on_path_from_root. case_bool_decide as Hid.
  - exists (Some []). split; [done|]. intros l. split; [naive_solver|].
    intros [[_ ->]|Hp]; [done|].
    inversion Hp as [??? Hb|???? Hb]; subst; by rewrite (si_root _ _ _ Hsh) in Hb.
  - pose proof (path_loop_spec (size (bt_entries bt)) id []) as Hl.
    assert (∀ b ch, shape bt !! id = Some (b, ch) →
      (below (shape bt) (vb_block_round b) < size (bt_entries bt))%nat) as Hf.
    { intros b ch Hb. rewrite <-size_shape. by eapply below_size. }
    destruct (path_loop _ bt id []) as [[l|]| |]; [|..]; try (by destruct (Hl Hf)).
    + destruct (Hl Hf) as (l' & Hp & ->). rewrite app_nil_r. exists (Some l'). split; [done|].
      intros l. split; [intros [= ->]; auto|]. intros [[? _]|Hp2]; [done|].
      by rewrite (path_to_det _ _ _ _ _ Hp Hp2).
    + exists None. split; [done|]. intros l. split; [done|]. intros [[? _]|Hp]; [done|].
      by apply Hl in Hp.
Qed.

Lemma path_to_get id l :
  path_to (shape bt) (bt_root_id bt) id l → get_blocks_on_path_from_root bt id = Ret (Some l).
Proof.
  intros Hp. destruct (get_blocks_on_path_spec id) as (o & -> & Ho).
  f_equal. apply Ho. by right.
Qed.

(** Rounds go up along a path, so its blocks are distinct. *)
Lemma path_to_rounds id l :
  path_to (shape bt) (bt_root_id bt) id l →
  ∃ b ch, shape bt !! id = Some (b, ch) ∧ last l = Some b ∧
    ∀ b', b' ∈ l → vb_block_round b' <= vb_block_round b.
Proof.
  induction 1 as [id b ch Hb Hr|id b ch l Hb Hr Hp (p & pch & Hpp & _ & IH)].
  - exists b, ch. split_and!; [done|done|]. intros b' ->%list_elem_of_singleton. done.
  - exists b, ch. split_and!; [done|by rewrite last_snoc|].
    intros b' [Hb'| ->%list_elem_of_singleton]%elem_of_app; [|done]. apply IH in Hb'.
    pose proof (si_rounds _ _ _ Hsh _ _ _ Hb). pose proof (si_parent _ _ _ Hsh _ _ _ _ _ Hb Hpp). lia.
Qed.

Lemma path_to_length id l b ch :
  path_to (shape bt) (bt_root_id bt) id l → shape bt !! id = Some (b, ch) →
  (length l <= S (below (shape bt) (vb_block_round b)))%nat.
Proof.
  intros Hp. revert b ch. induction Hp as [id b ch Hb Hr|id b ch l Hb Hr Hp IH]; intros b' ch' Hb';
    simplify_eq; [simpl; lia|].
  rewrite length_app. simpl. destruct (path_to_rounds _ _ Hp) as (p & pch & Hpp & _).
  specialize (IH _ _ Hpp). pose proof (parent_below _ _ _ _ _ Hb Hpp). lia.
Qed.

Context (Ht : tree_inv (bt_tree bt)).

Lemma shape_key id b ch : shape bt !! id = Some (b, ch) → vb_id b = id.
Proof. intros (e & He & <- & _)%shape_lookup. by eapply (ti_key _ Ht). Qed.

(** The blocks of a path are blocks of the tree, stored under their ids. *)
Lemma path_to_elem id l b :
  path_to (shape bt) (bt_root_id bt) id l → b ∈ l → ∃ ch, shape bt !! vb_id b = Some (b, ch).
Proof.
  induction 1 as [id b' ch Hb Hr|id b' ch l Hb Hr Hp IH].
  - intros ->%list_elem_of_singleton. rewrite (shape_key _ _ _ Hb). eauto.
  - intros [Hl| ->%list_elem_of_singleton]%elem_of_app; [eauto|]. rewrite (shape_key _ _ _ Hb). eauto.
Qed.

(** The end of a path is not among the blocks before it. *)
Lemma path_to_fresh id l b ch :
  path_to (shape bt) (bt_root_id bt) (vb_parent_id b) l → shape bt !! id = Some (b, ch) →
  id ∉ vb_id <$> l.
Proof.
  intros Hp Hb (b' & -> & Hb')%list_elem_of_fmap.
  destruct (path_to_elem _ _ _ Hp Hb') as [ch' Hsb']. simplify_eq.
  destruct (path_to_rounds _ _ Hp) as (p & pch & Hpp & _ & Hle). apply Hle in Hb'.
  pose proof (si_rounds _ _ _ Hsh _ _ _ Hb). pose proof (si_parent _ _ _ Hsh _ _ _ _ _ Hb Hpp). lia.
Qed.

(** ** Committing *)

Definition coherent_block (b : ValidatedBlock) : Prop :=
  ∃ e, bt_entries bt !! vb_id b = Some e ∧ validated_block e = b ∧ entry_is_coherent e = true.

Lemma prune_loop_path id l :
  path_to (shape bt) (bt_root_id bt) id l →
  ∀ t e fuel commit, bt_entries bt !! id = Some e → (∀ b, b ∈ l → coherent_block b) → tree_inv t →
    tree_entries t !! id = None →
    (∀ b, b ∈ l → vb_id b ≠ id → tree_entries t !! vb_id b = bt_entries bt !! vb_id b) →
    (length l <= S fuel)%nat →
    ∃ t', prune_loop fuel (bt_root_id bt) t e commit = Ret (commit ++ reverse l, t') ∧ tree_inv t' ∧
      tree_entries t' = without (vb_id <$> l) (tree_entries t).
Proof.
  induction 1 as [id b ch Hb Hr|id b ch l Hb Hr Hp IH]; intros t e fuel commit He Hcoh Hti Hnone Hag Hlen.
  - pose proof (shape_key _ _ _ Hb) as Hid. destruct (Hcoh b) as (e' & He' & Hve & Hc); [left|].
    assert (e' = e) as -> by congruence. exists t.
    destruct fuel; simpl; rewrite Hc, Hve; simpl; rewrite bool_decide_true by done;
      (split; [done|]); (split; [done|]); csimpl; rewrite without_absent, without_nil by congruence; done.
  - pose proof (shape_key _ _ _ Hb) as Hid. destruct (Hcoh b) as (e' & He' & Hve & Hc); [set_solver|].
    assert (e' = e) as -> by congruence.
    destruct (path_to_rounds _ _ Hp) as (p & pch & Hpp & Hlast & _).
    pose proof (shape_key _ _ _ Hpp) as Hpid.
    assert (p ∈ l) as Hpl by by apply last_Some_elem_of.
    pose proof (path_to_fresh _ _ _ _ Hp Hb) as Hfresh.
    assert (∀ b', b' ∈ l → vb_id b' ≠ id) as Hne.
    { intros b' Hb' <-. apply Hfresh. by apply list_elem_of_fmap_2. }
    apply shape_lookup in Hpp as (ep & Hep & Hvp & _).
    assert (tree_entries t !! vb_parent_id b = Some ep) as Htp.
    { rewrite <-Hpid, Hag, Hpid by (set_solver || auto). done. }
    rewrite length_app in Hlen. simpl in Hlen.
    destruct fuel as [|fuel]; [destruct l; [by apply not_elem_of_nil in Hpl|simpl in Hlen; lia]|].
    simpl. rewrite Hc, Hve. simpl. rewrite bool_decide_false by done.
    destruct (tree_remove_spec t _ _ Hti Htp) as (t1 & -> & Hti1 & Ht1). simpl.
    destruct (IH t1 ep fuel (commit ++ [b])) as (t2 & -> & Hti2 & Ht2); [done|set_solver|done| | |lia|].
    + by rewrite Ht1, lookup_delete_eq.
    + intros b' Hb' Hnp. rewrite Ht1, lookup_delete_ne by congruence. apply Hag; [set_solver|auto].
    + exists t2. split; [by rewrite reverse_app, <-(assoc_L (++))|]. split; [done|].
      rewrite Ht2, Ht1, without_delete. apply map_eq. intros k. apply option_eq. intros a.
      rewrite !without_lookup, fmap_app. csimpl. split.
      * intros [Hk Hn]. split; [done|]. intros [?|Heq%list_elem_of_singleton]%elem_of_app; [set_solver|].
        congruence.
      * intros [Hk Hn]. split; [done|]. intros [->|?]%elem_of_cons; [|set_solver].
        apply Hn. apply elem_of_app. left. rewrite <-Hpid. by apply list_elem_of_fmap_2.
Qed.
End walks.

Lemma coherent_path bt id e :
  bt_inv bt → bt_entries bt !! id = Some e → entry_is_coherent e = true →
  ∃ l, path_to (shape bt) (bt_root_id bt) id l ∧ ∀ b, b ∈ l → coherent_block bt b.
Proof.
  intros [Ht Hsh Hco].
  remember (below (shape bt) (vb_block_round (validated_block e))) as n eqn:Hn. revert id e Hn.
  induction (lt_wf n) as [n _ IH]. intros id e -> He Hc.
  pose proof (shape_lookup_entry _ _ _ He) as Hs. pose proof (Hco _ _ He Hc) as Hpar.
  assert (coherent_block bt (validated_block e)) as Hcb.
  { exists e. by rewrite (ti_key _ Ht _ _ He). }
  unfold is_coherent in Hpar. case_bool_decide as Hr.
  - exists [validated_block e]. split; [by eapply path_root|]. intros b ->%list_elem_of_singleton. done.
  - destruct (bt_entries bt !! vb_parent_id (validated_block e)) as [p|] eqn:Hp; [|done].
    pose proof (shape_lookup_entry _ _ _ Hp) as Hsp.
    destruct (IH _ (parent_below bt Hsh _ _ _ _ _ Hs Hsp) _ _ eq_refl Hp Hpar) as (l & Hl & Hall).
    exists (l ++ [validated_block e]). split; [by eapply path_step|].
    intros b [?| ->%list_elem_of_singleton]%elem_of_app; auto.
Qed.

(** The parent of a block of a path is on the path, or is the root. *)
Lemma path_parent bt id l b :
  tree_inv (bt_tree bt) → shape_inv (bt_root_id bt) (root_children (bt_root bt)) (shape bt) →
  path_to (shape bt) (bt_root_id bt) id l → b ∈ l →
  vb_parent_id b = bt_root_id bt ∨ vb_parent_id b ∈ vb_id <$> l.
Proof.
  intros Ht Hsh. induction 1 as [id b' ch Hb Hr|id b' ch l Hb Hr Hp IH].
  - intros ->%list_elem_of_singleton. by left.
  - intros [Hl| ->%list_elem_of_singleton]%elem_of_app.
    + destruct (IH Hl) as [?|?]; [by left|right]. rewrite fmap_app. set_solver.
    + right. destruct (path_to_rounds bt Hsh _ _ Hp) as (p & pch & Hpp & Hlast & _).
      rewrite <-(shape_key bt Ht _ _ _ Hpp), fmap_app. apply elem_of_app. left.
      by apply list_elem_of_fmap_2, last_Some_elem_of.
Qed.

Lemma elem_of_blocks_to_delete t r id :
  id ∈ blocks_to_delete t r ↔
  ∃ e, tree_entries t !! id = Some e ∧ vb_parent_round (validated_block e) < r.
Proof.
  unfold blocks_to_delete. rewrite list_elem_of_omap. split.
  - intros ([id' e] & Hin%elem_of_hash_iter & Hif). simpl in *. case_bool_decide; simplify_eq. eauto.
  - intros (e & He & Hr). exists (id, e). rewrite elem_of_hash_iter. simpl. by rewrite bool_decide_true.
Qed.

(** No certificate of a round from [r] on is for a block that does not extend
    [new_root], among the blocks whose parent is known: what the agreement of
    the protocol guarantees of a committed block of round [r]. *)
Definition no_fork_past (bt : BlockTree) (new_root : BlockId) (r : Round) : Prop :=
  ∀ id e, bt_entries bt !! id = Some e → r <= vb_parent_round (validated_block e) →
    vb_parent_id (validated_block e) ≠ bt_root_id bt ∧
    ∀ p, bt_entries bt !! vb_parent_id (validated_block e) = Some p →
      vb_parent_id (validated_block e) = new_root ∨ r <= vb_parent_round (validated_block p).

(** What is left of the tree by a prune: the blocks off the committed path
    certified from the new root's round on. *)
Definition pruned (bt bt' : BlockTree) (l : list ValidatedBlock) (r : Round) : Prop :=
  ∀ id e, bt_entries bt' !! id = Some e ↔
    bt_entries bt !! id = Some e ∧ id ∉ vb_id <$> l ∧ r <= vb_parent_round (validated_block e).

Lemma pruned_shape bt bt' l r :
  pruned bt bt' l r →
  ∀ id b ch, shape bt' !! id = Some (b, ch) ↔
    shape bt !! id = Some (b, ch) ∧ id ∉ vb_id <$> l ∧ r <= vb_parent_round b.
Proof.
  intros Hpr id b ch. rewrite !shape_lookup. unfold pruned in Hpr. setoid_rewrite Hpr. naive_solver.
Qed.

(** A child of the new root, or of a block that stays, stays. *)
Lemma pruned_child bt bt' id b ch l p pb pch c b' ch' :
  tree_inv (bt_tree bt) → shape_inv (bt_root_id bt) (root_children (bt_root bt)) (shape bt) →
  path_to (shape bt) (bt_root_id bt) id l → shape bt !! id = Some (b, ch) →
  pruned bt bt' l (vb_block_round b) →
  shape bt !! p = Some (pb, pch) →
  p = id ∨ (p ∉ vb_id <$> l ∧ vb_block_round b <= vb_parent_round pb) →
  shape bt !! c = Some (b', ch') → vb_parent_id b' = p → shape bt' !! c = Some (b', ch').
Proof.
  intros Ht Hsh Hp Hb Hpr Hpb Hkeep Hc Hpar. apply (pruned_shape _ _ _ _ Hpr).
  destruct (path_to_rounds bt Hsh _ _ Hp) as (b0 & ch0 & Hb0 & _ & Hle). simplify_eq.
  pose proof (si_parent _ _ _ Hsh _ _ _ _ _ Hc Hpb). pose proof (si_rounds _ _ _ Hsh _ _ _ Hpb).
  pose proof (si_rounds _ _ _ Hsh _ _ _ Hc).
  split; [done|]. split.
  - intros (b1 & -> & Hb1)%list_elem_of_fmap.
    destruct (path_to_elem bt Ht _ _ _ Hp Hb1) as [ch1 Hs1]. simplify_eq.
    destruct Hkeep as [Heq|[Hnp _]].
    + rewrite Heq in Hpb. simplify_eq. apply Hle in Hb1. lia.
    + destruct (path_parent bt _ _ _ Ht Hsh Hp Hb1) as [Hroot|?]; [|done].
      rewrite Hroot, (si_root _ _ _ Hsh) in Hpb. done.
  - destruct Hkeep as [Heq|[_ ?]]; [rewrite Heq in Hpb; simplify_eq|]; lia.
Qed.

Lemma prune_shape_inv bt bt' id b ch l :
  tree_inv (bt_tree bt) → shape_inv (bt_root_id bt) (root_children (bt_root bt)) (shape bt) →
  path_to (shape bt) (bt_root_id bt) id l → shape bt !! id = Some (b, ch) →
  pruned bt bt' l (vb_block_round b) → shape_inv id ch (shape bt').
Proof.
  intros Ht Hsh Hp Hb Hpr. pose proof (pruned_shape _ _ _ _ Hpr) as Hps.
  destruct (path_to_rounds bt Hsh _ _ Hp) as (b0 & ch0 & Hb0 & Hlast & Hle). simplify_eq.
  assert (∀ p pb pch, shape bt !! p = Some (pb, pch) →
    p = id ∨ (p ∉ vb_id <$> l ∧ vb_block_round b <= vb_parent_round pb) →
    children_of (shape bt') p pch) as Hchild.
  { intros p pb pch Hpb Hkeep. destruct (si_children _ _ _ Hsh _ _ _ Hpb) as [Hnd Hch].
    split; [done|]. intros c. rewrite Hch. split; intros (b' & ch' & Hc & Hpar); exists b', ch'; split; try done.
    - by apply (pruned_child bt bt' id b ch l p pb pch).
    - by apply Hps in Hc as [? _]. }
  constructor.
  - destruct (shape bt' !! id) as [[b' ch']|] eqn:He; [|done]. apply Hps in He as (_ & Hn & _).
    destruct Hn. rewrite <-(shape_key bt Ht _ _ _ Hb).
    by apply list_elem_of_fmap_2, last_Some_elem_of.
  - intros k b' ch' [Hk _]%Hps. by eapply (si_rounds _ _ _ Hsh).
  - intros k b' ch' p pch [Hk _]%Hps [Hpp _]%Hps. by eapply (si_parent _ _ _ Hsh).
  - intros k b' ch' (Hk & Hn & Hr)%Hps. eapply Hchild; [done|by right].
  - eapply Hchild; [done|by left].
Qed.

Lemma prune_coherent_closed bt bt' id b ch l :
  bt_inv bt → path_to (shape bt) (bt_root_id bt) id l → shape bt !! id = Some (b, ch) →
  no_fork_past bt id (vb_block_round b) → pruned bt bt' l (vb_block_round b) →
  bt_root_id bt' = id → coherent_closed bt'.
Proof.
  intros [Ht Hsh Hco] Hp Hb Hnf Hpr Hroot k e Hk Hc. apply Hpr in Hk as (Hk & Hn & Hr).
  destruct (path_to_rounds bt Hsh _ _ Hp) as (b0 & ch0 & Hb0 & _ & Hle). simplify_eq.
  destruct (Hnf _ _ Hk Hr) as [Hnr Hpar]. pose proof (Hco _ _ Hk Hc) as Hcp.
  unfold is_coherent in *. rewrite bool_decide_false in Hcp by done.
  case_bool_decide; [done|].
  destruct (bt_entries bt !! vb_parent_id (validated_block e)) as [p|] eqn:Hpe; [|done].
  destruct (Hpar p eq_refl) as [?|Hpr']; [done|].
  assert (bt_entries bt' !! vb_parent_id (validated_block e) = Some p) as ->; [|done].
  apply Hpr. split; [done|]. split; [|done].
  intros (b1 & Heq & Hb1)%list_elem_of_fmap.
  destruct (path_to_elem bt Ht _ _ _ Hp Hb1) as [ch1 Hs1].
  pose proof (si_rounds _ _ _ Hsh _ _ _ Hs1).
  apply shape_lookup_entry in Hpe. rewrite Heq in Hpe. simplify_eq. apply Hle in Hb1. lia.
Qed.

(** What extends the new root stays, on the rest of its path. *)
Lemma prune_branches bt bt' id b ch l k path :
  tree_inv (bt_tree bt) → shape_inv (bt_root_id bt) (root_children (bt_root bt)) (shape bt) →
  path_to (shape bt) (bt_root_id bt) id l → shape bt !! id = Some (b, ch) →
  pruned bt bt' l (vb_block_round b) → path ≠ [] →
  path_to (shape bt) (bt_root_id bt) k (l ++ path) → path_to (shape bt') id k path.
Proof.
  intros Ht Hsh Hp Hb Hpr. pose proof (prune_shape_inv _ _ _ _ _ _ Ht Hsh Hp Hb Hpr) as Hsh'.
  remember (l ++ path) as full eqn:Hfull. intros Hne Hk. revert path Hfull Hne.
  induction Hk as [k c cch Hc Hroot|k c cch l0 Hc Hroot Hk IH]; intros path Hfull Hne;
    destruct (exists_last Hne) as (path' & x & ->); rewrite app_assoc in Hfull.
  - apply (app_inj_tail []) in Hfull as [Hnil _]. symmetry in Hnil. apply app_eq_nil in Hnil as [-> _].
    destruct (path_to_last _ _ _ _ Hp) as (? & ? & ? & []%app_cons_not_nil & _).
  - apply app_inj_tail in Hfull as [-> <-]. destruct (decide (path' = [])) as [->|Hne'].
    + rewrite app_nil_r in Hk. destruct (path_to_last _ _ _ _ Hp) as (y & ych & l1 & -> & Hy).
      destruct (path_to_last _ _ _ _ Hk) as (z & zch & l2 & [_ ->]%app_inj_tail & Hz).
      pose proof (shape_key bt Ht _ _ _ Hz) as Hkey.
      pose proof (shape_key bt Ht _ _ _ Hy) as Hkey'. assert (vb_parent_id c = id) as Hpar by congruence.
      simpl. eapply path_root; [|done]. by eapply (pruned_child bt bt' id b ch _ id); eauto.
    + pose proof (IH path' eq_refl Hne') as Hpar. destruct (path_to_last _ _ _ _ Hpar) as (p & pch & l1 & _ & Hpp).
      assert (vb_parent_id c ≠ id) by (intros Heq; rewrite Heq, (si_root _ _ _ Hsh') in Hpp; done).
      eapply path_step; [|done|done]. apply (pruned_shape _ _ _ _ Hpr) in Hpp as (? & ? & ?).
      eapply (pruned_child bt bt' id b ch _ (vb_parent_id c)); eauto.
Qed.

Lemma prune_spec bt new_root e :
  bt_inv bt → bt_entries bt !! new_root = Some e → entry_is_coherent e = true →
  ∃ l bt', prune bt new_root = Ret (l, bt') ∧ path_to (shape bt) (bt_root_id bt) new_root l ∧
    tree_inv (bt_tree bt') ∧ shape_inv (bt_root_id bt') (root_children (bt_root bt')) (shape bt') ∧
    bt_root_id bt' = new_root ∧
    ri_round (root_info (bt_root bt')) = vb_block_round (validated_block e) ∧
    pruned bt bt' l (vb_block_round (validated_block e)).
Proof.
  intros Hinv He Hc. destruct (coherent_path bt _ _ Hinv He Hc) as (l & Hp & Hcoh).
  pose proof Hinv as [Ht Hsh Hco]. pose proof (shape_lookup_entry _ _ _ He) as Hs.
  assert (new_root ≠ bt_root_id bt) as Hne.
  { intros ->. by rewrite (si_root _ _ _ Hsh) in Hs. }
  unfold prune, is_coherent. rewrite bool_decide_false by done. rewrite He, Hc. simpl.
  destruct (tree_remove_spec _ _ _ Ht He) as (t1 & -> & Ht1 & He1). simpl.
  destruct (prune_loop_path bt Hsh Ht _ _ Hp t1 e (size (bt_entries bt)) []) as (t2 & -> & Ht2 & He2);
    [done|done|done|by rewrite He1, lookup_delete_eq| | |].
  { intros b Hb Hn. by rewrite He1, lookup_delete_ne by done. }
  { pose proof (path_to_length bt Hsh _ _ _ _ Hp Hs). pose proof (below_size _ _ _ _ Hs).
    rewrite size_shape in *. lia. }
  simpl. set (r := vb_block_round (validated_block e)).
  destruct (remove_all_spec t2 (blocks_to_delete t2 r) Ht2) as (t3 & -> & Ht3 & He3). simpl.
  set (bt' := mkBlockTree _ t3).
  assert (bt_root_id bt' = new_root) as Hroot by exact (ti_key _ Ht _ _ He).
  assert (pruned bt bt' l r) as Hpr.
  { intros k a. unfold bt_entries at 1. simpl. rewrite He3, without_lookup, elem_of_blocks_to_delete, He2,
      without_lookup, He1, lookup_delete_Some. split.
    - intros [[[Hk ?] ?] Hn]. split_and!; [done|done|]. apply Z.nlt_ge. intros Hlt. apply Hn.
      exists a. rewrite without_lookup, lookup_delete_Some. done.
    - intros (Hk & Hn & Hr). assert (new_root ≠ k).
      { intros ->. apply Hn. destruct (path_to_rounds bt Hsh _ _ Hp) as (b0 & ? & Hb0 & Hl & _).
        rewrite <-(shape_key bt Ht _ _ _ Hb0). by apply list_elem_of_fmap_2, last_Some_elem_of. }
      split_and!; [done|done|done|]. intros (a' & Ha' & Hlt).
      rewrite without_lookup, lookup_delete_Some in Ha'. destruct Ha' as [[_ Ha'] _].
      unfold bt_entries in Hk. assert (a = a') as <- by congruence. lia. }
  exists l, bt'. split; [by rewrite reverse_involutive|].
  split_and!; [done|done| |done|done|done].
  rewrite Hroot. simpl. by eapply prune_shape_inv.
Qed.


(** * Adding *)

(** What a well-formed block satisfies of the tree it is added to: its id is
    new, and the rounds of its certificate and of the certificates for it are
    in order. *)
Record addable (bt : BlockTree) (b : ValidatedBlock) : Prop := {
  ad_root : vb_id b ≠ bt_root_id bt;
  ad_self : vb_parent_id b ≠ vb_id b;
  ad_rounds : vb_parent_round b < vb_block_round b <= u64_max;
  ad_parent p : bt_entries bt !! vb_parent_id b = Some p →
    vb_block_round (validated_block p) <= vb_parent_round b;
  ad_children id e : bt_entries bt !! id = Some e → vb_parent_id (validated_block e) = vb_id b →
    vb_block_round b <= vb_parent_round (validated_block e);
}.

(** [m'] is [m] with [b] inserted, and its id appended to its parent's children. *)
Definition shape_inserted (m m' : gmap BlockId (ValidatedBlock * list BlockId)) (b : ValidatedBlock)
    (ch : list BlockId) : Prop :=
  ∀ k b' ch', m' !! k = Some (b', ch') ↔
    (k = vb_id b ∧ b' = b ∧ ch' = ch) ∨
    (k ≠ vb_id b ∧ ∃ c0, m !! k = Some (b', c0) ∧
       ch' = if decide (k = vb_parent_id b) then c0 ++ [vb_id b] else c0).

Lemma children_of_inserted m m' b ch k l :
  shape_inserted m m' b ch → m !! vb_id b = None → children_of m k l →
  children_of m' k (if decide (k = vb_parent_id b) then l ++ [vb_id b] else l).
Proof.
  intros Hm Hnone [Hnd Hl]. assert (vb_id b ∉ l) as Hfresh.
  { intros (? & ? & ? & _)%Hl. congruence. }
  assert (∀ c, (∃ b' ch', m' !! c = Some (b', ch') ∧ vb_parent_id b' = k) ↔
    (c = vb_id b ∧ vb_parent_id b = k) ∨ c ∈ l) as Hc.
  { intros c. rewrite Hl. split.
    - intros (b' & ch' & [(-> & -> & _)|(Hne & c0 & Hk & _)]%Hm & Hp); [by left|right; eauto].
    - intros [[-> Hp]|(b' & ch' & Hk & Hp)].
      + exists b, ch. split; [|done]. apply Hm. by left.
      + exists b', (if decide (c = vb_parent_id b) then ch' ++ [vb_id b] else ch'). split; [|done].
        apply Hm. right. split; [congruence|eauto]. }
  unfold children_of. setoid_rewrite Hc. destruct (decide (k = vb_parent_id b)) as [->|Hne].
  - split; [apply NoDup_app; set_solver by (apply NoDup_singleton || auto)|set_solver].
  - split; [done|]. intros c. split; [by right|]. intros [[_ ?]|?]; [congruence|done].
Qed.

Lemma shape_inserted_inv r rch m m' b ch :
  shape_inv r rch m → shape_inserted m m' b ch → m !! vb_id b = None → vb_id b ≠ r →
  vb_parent_id b ≠ vb_id b → vb_parent_round b < vb_block_round b <= u64_max →
  (∀ p pch, m !! vb_parent_id b = Some (p, pch) → vb_block_round p <= vb_parent_round b) →
  (∀ k b' ch', m !! k = Some (b', ch') → vb_parent_id b' = vb_id b → vb_block_round b <= vb_parent_round b') →
  children_of m (vb_id b) ch →
  shape_inv r (if decide (r = vb_parent_id b) then rch ++ [vb_id b] else rch) m'.
Proof.
  intros [Hroot Hrounds Hparent Hchildren Hrch] Hm Hnone Hr Hself Hb Hpar Hkids Hch.
  pose proof (λ k l, children_of_inserted m m' b ch k l Hm Hnone) as Hins.
  constructor.
  - destruct (m' !! r) as [[b' ch']|] eqn:He; [|done].
    apply Hm in He as [[? _]|(_ & c0 & ? & _)]; congruence.
  - intros k b' ch' [(-> & -> & _)|(_ & c0 & ? & _)]%Hm; eauto.
  - intros k b' ch' p pch [(-> & -> & _)|(Hk & c0 & Hb' & _)]%Hm
      [(Heq & -> & _)|(Hp & c1 & Hb'' & _)]%Hm; eauto.
    naive_solver lia.
  - intros k b' ch' [(-> & -> & ->)|(Hk & c0 & Hb' & ->)]%Hm; [|by eapply Hins, Hchildren].
    apply Hins in Hch. by rewrite decide_False in Hch.
  - by apply Hins.
Qed.

Lemma elem_of_find_children entries id c :
  c ∈ find_children entries id ↔
  ∃ e, entries !! c = Some e ∧ vb_parent_id (validated_block e) = id.
Proof.
  unfold find_children. rewrite list_elem_of_omap. split.
  - intros ([id' e] & Hin%elem_of_hash_iter & Hif). simpl in *. case_bool_decide; simplify_eq. eauto.
  - intros (e & He & Hr). exists (c, e). rewrite elem_of_hash_iter. simpl. by rewrite bool_decide_true.
Qed.

Lemma NoDup_find_children entries id : NoDup (find_children entries id).
Proof.
  apply (NoDup_omap_fst (λ be : BlockId * BlockTreeEntry, bool_decide (vb_parent_id (validated_block be.2) = id))).
  apply NoDup_fst_hash_iter.
Qed.

Lemma find_children_of bt id : children_of (shape bt) id (find_children (bt_entries bt) id).
Proof.
  split; [apply NoDup_find_children|]. intros c. rewrite elem_of_find_children. split.
  - intros (e & He & Hp). eauto using shape_lookup_entry.
  - intros (b & ch & (e & He & <- & _)%shape_lookup & Hp). eauto.
Qed.

(** The parent's child list as [tree_insert] leaves it. *)
Definition with_child (e : BlockTreeEntry) (par c : BlockId) (k : BlockId) : BlockTreeEntry :=
  if decide (k = par) then mkEntry (validated_block e) (entry_is_coherent e) (children_blocks e ++ [c])
  else e.

Lemma with_child_block e par c k : validated_block (with_child e par c k) = validated_block e.
Proof. unfold with_child. by case_decide. Qed.

Lemma with_child_coherent e par c k : entry_is_coherent (with_child e par c k) = entry_is_coherent e.
Proof. unfold with_child. by case_decide. Qed.

Lemma tree_insert_spec t b :
  tree_inv t → tree_entries t !! vb_id b = None → vb_parent_id b ≠ vb_id b →
  ∃ t', tree_insert t b = Ret t' ∧
    tree_entries t' !! vb_id b = Some (mkEntry b false (find_children (tree_entries t) (vb_id b))) ∧
    (∀ k, k ≠ vb_id b →
       tree_entries t' !! k = (λ e, with_child e (vb_parent_id b) (vb_id b) k) <$> tree_entries t !! k) ∧
    tree_payloads t' !! vb_body_id b = Some (
      let idx := default (mkBodyIndex (vb_body b) ∅) (tree_payloads t !! vb_body_id b) in
      mkBodyIndex (index_body idx) ({[ vb_id b ]} ∪ active_blocks idx)) ∧
    (∀ p, p ≠ vb_body_id b → tree_payloads t' !! p = tree_payloads t !! p).
Proof.
  intros Ht Hnone Hself. unfold tree_insert. rewrite (bool_decide_true _ Hnone). simpl.
  rewrite lookup_insert_ne by done.
  set (idx := default _ _). assert (vb_id b ∉ active_blocks idx) as Hidx.
  { unfold idx. destruct (tree_payloads t !! vb_body_id b) as [i|] eqn:Hi; simpl; [|set_solver].
    intros Hin. destruct (proj2 (ti_active _ Ht _ _ Hi) _ Hin) as (e & ? & _). congruence. }
  rewrite (bool_decide_true _ Hidx). simpl. eexists. split; [reflexivity|]. simpl.
  split_and!.
  - case_match; rewrite ?lookup_insert_ne by done; by rewrite lookup_insert_eq.
  - intros k Hk. destruct (tree_entries t !! vb_parent_id b) as [p|] eqn:Hp.
    + destruct (decide (k = vb_parent_id b)) as [->|Hne].
      * rewrite lookup_insert_eq, Hp. simpl. unfold with_child. by rewrite decide_True.
      * rewrite !lookup_insert_ne by done. destruct (tree_entries t !! k); [|done]. simpl.
        unfold with_child. by rewrite decide_False.
    + rewrite lookup_insert_ne by done. destruct (tree_entries t !! k) eqn:?; [|done]. simpl.
      unfold with_child. rewrite decide_False by congruence. done.
  - by rewrite lookup_insert_eq.
  - intros p Hp. by rewrite lookup_insert_ne.
Qed.

Lemma tree_insert_inv t b t' :
  tree_inv t → tree_entries t !! vb_id b = None → vb_parent_id b ≠ vb_id b →
  tree_insert t b = Ret t' → tree_inv t'.
Proof.
  intros Ht Hnone Hself Hi.
  destruct (tree_insert_spec t b Ht Hnone Hself) as (t0 & Hi' & He & Hother & Hp & Hpo).
  rewrite Hi in Hi'. injection Hi' as <-.
  assert (∀ k e, tree_entries t' !! k = Some e →
    (k = vb_id b ∧ validated_block e = b) ∨
    ∃ e0, tree_entries t !! k = Some e0 ∧ validated_block e0 = validated_block e) as Hinv.
  { intros k e Hk. destruct (decide (k = vb_id b)) as [->|Hne]; [left|right].
    - rewrite He in Hk. by simplify_eq.
    - rewrite Hother in Hk by done. apply fmap_Some in Hk as (e0 & ? & ->).
      exists e0. by rewrite with_child_block. }
  assert (∀ k e0, tree_entries t !! k = Some e0 →
    ∃ e, tree_entries t' !! k = Some e ∧ validated_block e = validated_block e0) as Hmono.
  { intros k e0 Hk. rewrite Hother by congruence. rewrite Hk. eexists. split; [done|apply with_child_block]. }
  constructor.
  - intros k e [[-> ->]|(e0 & He0 & <-)]%Hinv; [done|]. by eapply (ti_key _ Ht).
  - intros k e Hk. destruct (decide (vb_body_id (validated_block e) = vb_body_id b)) as [Heq|Hne].
    + rewrite Heq, Hp. eexists. split; [done|]. simpl. destruct (Hinv _ _ Hk) as [[-> _]|(e0 & He0 & Hv)]; [set_solver|].
      destruct (ti_payload _ Ht _ _ He0) as (idx & Hidx & Hin).
      rewrite Hv, Heq in Hidx. rewrite Hidx. simpl. set_solver.
    + rewrite Hpo by done. destruct (Hinv _ _ Hk) as [[_ Hv]|(e0 & He0 & Hv)]; [congruence|].
      rewrite <-Hv. by eapply (ti_payload _ Ht).
  - intros pid idx Hidx. destruct (decide (pid = vb_body_id b)) as [->|Hne].
    + rewrite Hp in Hidx. simplify_eq/=. split; [set_solver|].
      intros k [->%elem_of_singleton|Hin]%elem_of_union; [eauto|].
      destruct (tree_payloads t !! vb_body_id b) as [i|] eqn:Hi'; simpl in Hin; [|set_solver].
      destruct (proj2 (ti_active _ Ht _ _ Hi') _ Hin) as (e0 & He0 & Hb0).
      destruct (Hmono _ _ He0) as (e & ? & Hv). exists e. by rewrite Hv.
    + rewrite Hpo in Hidx by done. destruct (ti_active _ Ht _ _ Hidx) as [? Hall]. split; [done|].
      intros k (e0 & He0 & Hb0)%Hall. destruct (Hmono _ _ He0) as (e & ? & Hv). exists e. by rewrite Hv.
Qed.

Lemma tree_insert_shape bt root b t' :
  tree_inv (bt_tree bt) → bt_entries bt !! vb_id b = None → vb_parent_id b ≠ vb_id b →
  tree_insert (bt_tree bt) b = Ret t' →
  shape_inserted (shape bt) (shape (mkBlockTree root t')) b (find_children (bt_entries bt) (vb_id b)).
Proof.
  intros Ht Hnone Hself Hi.
  destruct (tree_insert_spec _ b Ht Hnone Hself) as (t0 & Hi' & He & Hother & _).
  rewrite Hi in Hi'. injection Hi' as <-.
  intros k b' ch'. rewrite shape_lookup. unfold bt_entries. simpl. split.
  - intros (e & Hk & <- & <-). destruct (decide (k = vb_id b)) as [->|Hne].
    { rewrite He in Hk. simplify_eq. by left. }
    rewrite Hother in Hk by done. apply fmap_Some in Hk as (e0 & He0 & ->). right. split; [done|].
    exists (children_blocks e0). rewrite with_child_block. split; [by apply shape_lookup_entry|].
    unfold with_child. by case_decide.
  - intros [(-> & -> & ->)|(Hne & c0 & (e0 & He0 & <- & <-)%shape_lookup & ->)]; [eauto|].
    rewrite Hother by done. unfold bt_entries in He0. rewrite He0. eexists. split; [done|].
    rewrite with_child_block. split; [done|]. unfold with_child. by case_decide.
Qed.

Lemma block_tree_add_spec bt b :
  bt_inv bt → addable bt b →
  ∃ bt', block_tree_add bt b = Ret bt' ∧ bt_inv bt' ∧
    root_info (bt_root bt') = root_info (bt_root bt) ∧
    if is_valid_to_insert bt (vb_header b)
    then bt_get_block bt' (vb_id b) = Some b ∧
         (∀ id, id ≠ vb_id b → bt_get_block bt' id = bt_get_block bt id) ∧
         (∀ id, is_coherent bt' id = is_coherent bt id)
    else bt' = bt.
Proof.
  intros Hinv [Hroot Hself Hrounds Hpar Hkids]. pose proof Hinv as [Ht Hsh Hco]. unfold block_tree_add.
  destruct (is_valid_to_insert bt (vb_header b)) eqn:Hv; simpl; [|by exists bt].
  apply andb_true_iff in Hv as [Hnone%bool_decide_eq_true _]. change (header_get_id _) with (vb_id b) in Hnone.
  destruct (tree_insert_spec _ b Ht Hnone Hself) as (t' & Hti & He & Hother & _).
  rewrite Hti. simpl. eexists. split; [reflexivity|]. set (bt' := mkBlockTree _ t').
  assert (root_info (bt_root bt') = root_info (bt_root bt)) as Hri by (simpl; by case_bool_decide).
  assert (bt_root_id bt' = bt_root_id bt) as Hrid by (unfold bt_root_id; by rewrite Hri).
  assert (∀ id, is_coherent bt' id = is_coherent bt id) as Hcoh.
  { intros id. unfold is_coherent. rewrite Hrid. case_bool_decide as Hid; [done|].
    destruct (decide (id = vb_id b)) as [->|Hne].
    - unfold bt_entries in *. simpl. by rewrite He, Hnone.
    - unfold bt_entries in *. simpl. rewrite Hother by done.
      destruct (tree_entries (bt_tree bt) !! id); [|done]. simpl. apply with_child_coherent. }
  split_and!; [|done| | |done].
  - constructor; [by eapply tree_insert_inv| |].
    + replace (root_children (bt_root bt')) with
        (if decide (bt_root_id bt = vb_parent_id b) then root_children (bt_root bt) ++ [vb_id b]
         else root_children (bt_root bt)) by (simpl; case_decide; case_bool_decide; simpl; congruence).
      rewrite Hrid. eapply (shape_inserted_inv _ _ _ _ _ (find_children (bt_entries bt) (vb_id b)) Hsh);
        try done; [| | | |apply find_children_of].
      * by eapply tree_insert_shape.
      * unfold shape. by rewrite lookup_fmap, Hnone.
      * intros p pch (e & Hp & <- & _)%shape_lookup. auto.
      * intros k b' ch' (e & Hk & <- & _)%shape_lookup. eauto.
    + intros id e Hid Hc. rewrite Hcoh. destruct (decide (id = vb_id b)) as [->|Hne].
      { unfold bt_entries in Hid. simpl in Hid. rewrite He in Hid. by simplify_eq. }
      unfold bt_entries in Hid. simpl in Hid. rewrite Hother in Hid by done.
      apply fmap_Some in Hid as (e0 & He0 & ->). rewrite with_child_block. rewrite with_child_coherent in Hc.
      by eapply Hco.
  - unfold bt_get_block, bt_entries. simpl. by rewrite He.
  - intros id Hne. unfold bt_get_block, bt_entries. simpl. rewrite Hother by done.
    destruct (tree_entries (bt_tree bt) !! id); [|done]. simpl. by rewrite with_child_block.
Qed.

(** * Coherency *)

Lemma is_coherent_entry bt id e :
  id ≠ bt_root_id bt → bt_entries bt !! id = Some e → is_coherent bt id = entry_is_coherent e.
Proof. intros Hid He. unfold is_coherent. by rewrite bool_decide_false, He by done. Qed.

Lemma shape_not_root bt id b ch :
  bt_inv bt → shape bt !! id = Some (b, ch) → id ≠ bt_root_id bt.
Proof. intros Hinv Hs ->. by rewrite (si_root _ _ _ (bi_shape _ Hinv)) in Hs. Qed.

(** A coherent block in the tree has a coherent parent. *)
Lemma coherent_parent bt id b ch :
  bt_inv bt → shape bt !! id = Some (b, ch) → is_coherent bt id = true →
  is_coherent bt (vb_parent_id b) = true.
Proof.
  intros Hinv Hs Hc. pose proof (shape_not_root _ _ _ _ Hinv Hs).
  apply shape_lookup in Hs as (e & He & <- & _). rewrite (is_coherent_entry _ _ e) in Hc by done.
  by eapply (bi_coherent _ Hinv).
Qed.

Lemma coherent_on_path bt id l :
  bt_inv bt → path_to (shape bt) (bt_root_id bt) id l → is_coherent bt id = true →
  ∀ b, b ∈ l → is_coherent bt (vb_id b) = true.
Proof.
  intros Hinv. induction 1 as [id b ch Hb Hr|id b ch l Hb Hr Hp IH]; intros Hc b';
    rewrite ?elem_of_app, list_elem_of_singleton.
  - intros ->. by rewrite (shape_key bt (bi_tree _ Hinv) _ _ _ Hb).
  - intros [?| ->]; [apply IH; [by eapply coherent_parent|done]|].
    by rewrite (shape_key bt (bi_tree _ Hinv) _ _ _ Hb).
Qed.

(** Setting a flag keeps everything but the flag. *)
Lemma set_coherent_spec bt id e :
  bt_inv bt → bt_entries bt !! id = Some e → is_coherent bt (vb_parent_id (validated_block e)) = true →
  ∃ t, tree_set_coherent (bt_tree bt) id true = Some t ∧
    let bt' := mkBlockTree (bt_root bt) t in
    bt_inv bt' ∧ shape bt' = shape bt ∧
    bt_entries bt' !! id = Some (mkEntry (validated_block e) true (children_blocks e)) ∧
    ∀ k, is_coherent bt' k = is_coherent bt k || bool_decide (k = id).
Proof.
  intros Hinv He Hpar. pose proof Hinv as [Ht Hsh Hco].
  unfold tree_set_coherent, bt_entries in *. rewrite He. simpl.
  eexists. split; [reflexivity|]. set (bt' := mkBlockTree _ _). simpl.
  assert (id ≠ bt_root_id bt) as Hid by by eapply shape_not_root, shape_lookup_entry.
  assert (shape bt' = shape bt) as Hshape.
  { unfold shape, bt_entries. simpl. rewrite fmap_insert. apply insert_id. rewrite lookup_fmap.
    unfold bt_entries in He. by rewrite He. }
  assert (∀ k, is_coherent bt' k = is_coherent bt k || bool_decide (k = id)) as Hcoh.
  { intros k. unfold is_coherent. change (bt_root_id bt') with (bt_root_id bt). case_bool_decide; [done|].
    unfold bt_entries. simpl. destruct (decide (k = id)) as [->|Hne].
    - rewrite lookup_insert_eq, (bool_decide_true (id = id)) by done. simpl. by rewrite orb_true_r.
    - rewrite lookup_insert_ne, (bool_decide_false (k = id)) by done. by rewrite orb_false_r. }
  split_and!; [|done|by rewrite lookup_insert_eq|done].
  constructor; [|by rewrite Hshape|].
  - destruct Ht as [Hkey Hpay Hact]. constructor; simpl.
    + intros k e' [[<- <-]|[_ Hk]]%lookup_insert_Some; simpl; eauto.
    + intros k e' [[<- <-]|[_ Hk]]%lookup_insert_Some; simpl; eauto.
    + intros pid idx Hidx. destruct (Hact _ _ Hidx) as [? Hall]. split; [done|].
      intros k (e' & He' & Hb)%Hall. destruct (decide (k = id)) as [->|Hne].
      * rewrite lookup_insert_eq. simplify_eq. eauto.
      * rewrite lookup_insert_ne by done. eauto.
  - intros k e' Hk Hc. rewrite Hcoh. unfold bt_entries in Hk. simpl in Hk.
    apply lookup_insert_Some in Hk as [[<- <-]|[_ Hk]]; simpl; [by rewrite Hpar|].
    by rewrite (Hco _ _ Hk Hc).
Qed.

(** The policy accepts a block on top of the blocks between it and the root. *)
Definition accepted (bt : BlockTree) (policy : BPT) (sb : SBT) (b : ValidatedBlock) : Prop :=
  ∃ ext, path_to (shape bt) (bt_root_id bt) (vb_id b) (ext ++ [b]) ∧
    check_coherency policy b ext (root_info (bt_root bt)) sb = Ret (Ok tt).

(** The policy decides on every branch of the tree. *)
Definition policy_total (bt : BlockTree) (policy : BPT) (sb : SBT) : Prop :=
  ∀ b ext, path_to (shape bt) (bt_root_id bt) (vb_id b) (ext ++ [b]) →
    ∃ r, check_coherency policy b ext (root_info (bt_root bt)) sb = Ret r.

Section coherency.
Context (bt0 : BlockTree) (Hinv0 : bt_inv bt0) (policy : BPT) (sb : SBT).
Context (Hpolicy : policy_total bt0 policy sb).
Context (s : BlockId) (Hs : is_coherent bt0 s = false).

(** The state of the search from [s]: [V] is visited, [Q] is the queue, [l] the
    blocks accepted so far. *)
Record search_inv (V Q : list BlockId) (bt : BlockTree) (l : list ValidatedBlock) : Prop := {
  sv_root : bt_root bt = bt_root bt0;
  sv_shape : shape bt = shape bt0;
  sv_inv : bt_inv bt;
  sv_nodup : NoDup (V ++ Q);
  sv_mem x : x ∈ V ++ Q → ∃ b ch, shape bt0 !! x = Some (b, ch) ∧
    is_coherent bt (vb_parent_id b) = true ∧ is_coherent bt0 x = false ∧
    (∃ path, path_to (shape bt0) (bt_root_id bt0) x path) ∧
    (x = s ∨ vb_parent_id b ∈ V);
  sv_start : s ∈ V ++ Q;
  sv_coherent x : is_coherent bt x = true ↔ is_coherent bt0 x = true ∨ x ∈ vb_id <$> l;
  sv_accepted x b ch : x ∈ V → shape bt0 !! x = Some (b, ch) → x ∈ vb_id <$> l ↔ accepted bt0 policy sb b;
  sv_visited x : x ∈ vb_id <$> l → x ∈ V;
  sv_children x b ch c : x ∈ vb_id <$> l → shape bt0 !! x = Some (b, ch) → c ∈ ch → c ∈ V ++ Q;
}.

(** The children of the block being accepted have not been seen. *)
Lemma search_fresh V x Q bt l b ch :
  search_inv V (x :: Q) bt l → shape bt0 !! x = Some (b, ch) →
  ∀ c, c ∈ ch → c ∉ V ++ x :: Q.
Proof.
  intros Hv Hx c Hc Hin. destruct (si_children _ _ _ (bi_shape _ Hinv0) _ _ _ Hx) as [_ Hch].
  apply Hch in Hc as (b' & ch' & Hb' & Hpar).
  assert (x ∉ V) as HxV.
  { pose proof (sv_nodup _ _ _ _ Hv) as (_ & Hd & _)%NoDup_app. set_solver. }
  destruct (sv_mem _ _ _ _ Hv x) as (_ & _ & _ & _ & Hx0 & _); [set_solver|].
  destruct (sv_mem _ _ _ _ Hv c Hin) as (b1 & ch1 & Hb1 & Hco & _ & _ & Hor).
  rewrite Hb' in Hb1. injection Hb1 as <- <-. rewrite Hpar in *.
  destruct Hor as [->|HV]; [|done].
  apply (sv_coherent _ _ _ _ Hv) in Hco as [Hco|Hl%(sv_visited _ _ _ _ Hv)]; [congruence|done].
Qed.

(** The block [x] is popped, with the path the code finds. *)
Lemma search_path V x Q bt l :
  search_inv V (x :: Q) bt l →
  ∃ b ch ext, shape bt0 !! x = Some (b, ch) ∧ path_to (shape bt0) (bt_root_id bt0) x (ext ++ [b]) ∧
    get_blocks_on_path_from_root bt x = Ret (Some (ext ++ [b])).
Proof.
  intros Hv. destruct (sv_mem _ _ _ _ Hv x) as (b & ch & Hb & _ & _ & [path Hp] & _); [set_solver|].
  destruct (path_to_last _ _ _ _ Hp) as (b' & ch' & ext & -> & Hb'). rewrite Hb in Hb'. injection Hb' as <- <-.
  exists b, ch, ext. split_and!; [done|done|].
  apply path_to_get; [apply Hv|]. unfold bt_root_id. by rewrite (sv_shape _ _ _ _ Hv), (sv_root _ _ _ _ Hv).
Qed.

Lemma accepted_path x b ch ext :
  shape bt0 !! x = Some (b, ch) → path_to (shape bt0) (bt_root_id bt0) x (ext ++ [b]) →
  accepted bt0 policy sb b ↔ check_coherency policy b ext (root_info (bt_root bt0)) sb = Ret (Ok tt).
Proof.
  intros Hb Hp. pose proof (shape_key bt0 (bi_tree _ Hinv0) _ _ _ Hb) as Hid.
  unfold accepted. rewrite Hid. split; [|eauto].
  intros (ext' & Hp' & Hc). pose proof (path_to_det _ _ _ _ _ Hp Hp') as [-> _]%app_inj_2; done.
Qed.

Lemma search_reject V x Q bt l b ch :
  search_inv V (x :: Q) bt l → shape bt0 !! x = Some (b, ch) → ¬ accepted bt0 policy sb b →
  search_inv (V ++ [x]) Q bt l.
Proof.
  intros Hv Hx Hna. pose proof (sv_nodup _ _ _ _ Hv) as Hnd.
  assert ((V ++ [x]) ++ Q = V ++ x :: Q) as Happ by by rewrite <-(assoc_L (++)).
  destruct Hv. constructor; rewrite ?Happ; try done.
  - intros y Hy. destruct (sv_mem0 y Hy) as (b' & ch' & ? & ? & ? & ? & Hor).
    exists b', ch'. split_and!; try done. destruct Hor; [by left|right; set_solver].
  - intros y b' ch' [Hy| ->%list_elem_of_singleton]%elem_of_app Hb'; [eauto|]. simplify_eq.
    split; [|done]. intros Hl%sv_visited0. apply NoDup_app in Hnd as (_ & Hd & _). set_solver.
  - intros y Hy%sv_visited0. set_solver.
Qed.

Lemma search_accept V x Q bt l b ch :
  search_inv V (x :: Q) bt l → shape bt0 !! x = Some (b, ch) → accepted bt0 policy sb b →
  ∃ t, tree_set_coherent (bt_tree bt) x true = Some t ∧
    let bt' := mkBlockTree (bt_root bt) t in
    (∃ e, bt_entries bt' !! x = Some e ∧ children_blocks e = ch) ∧
    search_inv (V ++ [x]) (Q ++ ch) bt' (l ++ [b]).
Proof.
  intros Hv Hx Ha. pose proof (search_fresh _ _ _ _ _ _ _ Hv Hx) as Hfresh.
  pose proof (shape_key bt0 (bi_tree _ Hinv0) _ _ _ Hx) as Hid.
  destruct (sv_mem _ _ _ _ Hv x) as (b0 & ch0 & Hb0 & Hpar & Hx0 & Hpath & Hor); [set_solver|].
  rewrite Hx in Hb0. injection Hb0 as <- <-.
  pose proof Hx as Hx'. rewrite <-(sv_shape _ _ _ _ Hv) in Hx'. apply shape_lookup in Hx' as (e & He & Hve & Hce).
  destruct (set_coherent_spec bt x e) as (t & Ht & Hinv' & Hsh' & He' & Hcoh); [apply Hv|done|by rewrite Hve|].
  exists t. split; [done|]. set (bt' := mkBlockTree _ t) in *. simpl. split; [eauto|].
  destruct (si_children _ _ _ (bi_shape _ Hinv0) _ _ _ Hx) as [Hchnd Hch].
  assert ((V ++ [x]) ++ Q ++ ch = (V ++ x :: Q) ++ ch) as Happ by by rewrite <-!(assoc_L (++)).
  pose proof (sv_nodup _ _ _ _ Hv) as Hnd. destruct Hv.
  assert (∀ y, is_coherent bt y = true → is_coherent bt' y = true) as Hmono.
  { intros y Hy. rewrite Hcoh, Hy. done. }
  assert (vb_id <$> (l ++ [b]) = (vb_id <$> l) ++ [x]) as Hids by by rewrite fmap_app, <-Hid.
  constructor; rewrite ?Happ, ?Hids.
  - done.
  - by rewrite Hsh'.
  - done.
  - apply NoDup_app. split_and!; [done| |done]. set_solver.
  - intros y [Hy|Hy]%elem_of_app.
    + destruct (sv_mem0 y Hy) as (b' & ch' & ? & ? & ? & ? & Hor'). exists b', ch'.
      split_and!; auto. destruct Hor'; [by left|right; set_solver].
    + pose proof Hy as (b' & ch' & Hb' & Hp')%Hch. exists b', ch'. split_and!; [done| | | |].
      * rewrite Hp', Hcoh. apply orb_true_iff. right. by apply bool_decide_eq_true.
      * apply not_true_iff_false. intros Hc. eapply coherent_parent in Hc; [|done|done]. congruence.
      * destruct Hpath as [path Hpath]. exists (path ++ [b']). eapply path_step; [done| |by rewrite Hp'].
        rewrite Hp'. by eapply shape_not_root.
      * right. set_solver.
  - set_solver.
  - intros y. rewrite Hcoh, orb_true_iff, sv_coherent0, bool_decide_eq_true. set_solver.
  - intros y b' ch' [Hy| ->%list_elem_of_singleton]%elem_of_app Hb'.
    + rewrite <-(sv_accepted0 _ _ _ Hy Hb'). apply NoDup_app in Hnd as (_ & Hd & _). set_solver.
    + simplify_eq. split; [done|set_solver].
  - intros y [Hy%sv_visited0|Hy]%elem_of_app; set_solver.
  - intros y b' ch' c [Hy| ->%list_elem_of_singleton]%elem_of_app Hb' Hc.
    + specialize (sv_children0 _ _ _ _ Hy Hb' Hc). set_solver.
    + simplify_eq. set_solver.
Qed.

Lemma search_size V Q bt l : search_inv V Q bt l → (length (V ++ Q) <= size (bt_entries bt0))%nat.
Proof.
  intros Hv. rewrite <-size_shape, <-size_dom, <-(size_list_to_set (C := gset BlockId)) by apply Hv.
  apply subseteq_size. intros x Hx%elem_of_list_to_set.
  destruct (sv_mem _ _ _ _ Hv x Hx) as (b & ch & Hb & _). by apply elem_of_dom_2 in Hb.
Qed.

(** The search ends, with every block it reached visited. *)
Lemma coherency_loop_spec fuel V Q bt l :
  search_inv V Q bt l → (size (bt_entries bt0) < fuel + length V)%nat →
  ∃ V' bt' l', coherency_loop fuel bt policy sb Q l = Ret (l', bt') ∧ search_inv V' [] bt' l'.
Proof.
  revert V Q bt l. induction fuel as [|fuel IH]; intros V [|x Q] bt l Hv Hf; simpl; try by exists V, bt, l.
  { apply search_size in Hv. rewrite length_app in Hv. simpl in Hv. lia. }
  destruct (search_path _ _ _ _ _ Hv) as (b & ch & ext & Hb & Hp & ->). simpl.
  rewrite last_snoc. simpl. rewrite length_app, Nat.add_sub, take_app_length, (sv_root _ _ _ _ Hv).
  pose proof (accepted_path _ _ _ _ Hb Hp) as Hacc.
  destruct (Hpolicy b ext) as [[[]|err] Hr];
    [by rewrite (shape_key bt0 (bi_tree _ Hinv0) _ _ _ Hb)|..]; rewrite Hr in *; simpl.
  - destruct (search_accept _ _ _ _ _ _ _ Hv Hb) as (t & -> & (e & He & Hce) & Hv'); [by apply Hacc|]. simpl.
    rewrite <-(sv_root _ _ _ _ Hv). rewrite He. simpl. rewrite Hce. apply (IH _ _ _ _ Hv').
    rewrite length_app. simpl. lia.
  - apply (IH (V ++ [x])); [|rewrite length_app; simpl; lia]. eapply search_reject; [done..|].
    rewrite Hacc. done.
Qed.

(** A block above [s] whose branch is accepted has been reached. *)
Lemma search_reached V bt l id path :
  search_inv V [] bt l → path_to (shape bt0) (bt_root_id bt0) id path → s ∈ vb_id <$> path →
  (∀ b, b ∈ path → is_coherent bt0 (vb_id b) = true ∨ accepted bt0 policy sb b) →
  id ∈ vb_id <$> l.
Proof.
  clear Hpolicy Hs.
  intros Hv. pose proof (sv_start _ _ _ _ Hv) as HsV. rewrite app_nil_r in HsV.
  assert (∀ x b ch, x ∈ V → shape bt0 !! x = Some (b, ch) →
    is_coherent bt0 (vb_id b) = true ∨ accepted bt0 policy sb b → x ∈ vb_id <$> l) as Hacc.
  { intros x b ch HxV Hb Hor. eapply (sv_accepted _ _ _ _ Hv); [done..|].
    rewrite (shape_key bt0 (bi_tree _ Hinv0) _ _ _ Hb) in Hor.
    destruct (sv_mem _ _ _ _ Hv x) as (_ & _ & _ & _ & Hx0 & _); [by rewrite app_nil_r|].
    destruct Hor; [congruence|done]. }
  induction 1 as [id b ch Hb Hr|id b ch path Hb Hr Hp IH]; intros Hin Hall;
    pose proof (shape_key bt0 (bi_tree _ Hinv0) _ _ _ Hb) as Hid.
  - csimpl in Hin. rewrite list_elem_of_singleton, Hid in Hin. subst. eapply Hacc; [done..|]. apply Hall. set_solver.
  - rewrite fmap_app, elem_of_app in Hin. csimpl in Hin. rewrite list_elem_of_singleton, Hid in Hin.
    eapply (Hacc id); [|done|apply Hall; set_solver].
    destruct Hin as [Hin|<-]; [|done].
    rewrite <-(app_nil_r V). destruct (path_to_last _ _ _ _ Hp) as (p & pch & ? & _ & Hpp).
    eapply (sv_children _ _ _ _ Hv); [apply IH; [done|set_solver]|done|].
    apply (si_children _ _ _ (bi_shape _ Hinv0) _ _ _ Hpp). eauto.
Qed.

End coherency.
Lemma path_to_prefix bt id pre b post :
  tree_inv (bt_tree bt) → path_to (shape bt) (bt_root_id bt) id (pre ++ b :: post) →
  path_to (shape bt) (bt_root_id bt) (vb_id b) (pre ++ [b]).
Proof.
  intros Ht Hp. remember (pre ++ b :: post) as l eqn:Hl. revert pre b post Hl.
  induction Hp as [id b' ch Hb Hr|id b' ch l Hb Hr Hp IH]; intros pre b post Hl.
  - destruct pre as [|? [|]]; simplify_eq/=. rewrite (shape_key bt Ht _ _ _ Hb). by eapply path_root.
  - destruct post as [|c post _] using rev_ind.
    + apply app_inj_tail in Hl as [-> ->]. rewrite (shape_key bt Ht _ _ _ Hb). by eapply path_step.
    + rewrite app_comm_cons, (assoc_L (++)) in Hl. apply app_inj_tail in Hl as [-> ->]. eauto.
Qed.

Lemma find_incoherent_spec bt path :
  (∀ b, b ∈ path → vb_id b ≠ bt_root_id bt ∧ is_Some (bt_entries bt !! vb_id b)) →
  ∃ o, find_incoherent bt path = Ret o ∧
    match o with
    | Some b => ∃ pre post, path = pre ++ b :: post ∧ is_coherent bt (vb_id b) = false ∧
                  ∀ b', b' ∈ pre → is_coherent bt (vb_id b') = true
    | None => ∀ b', b' ∈ path → is_coherent bt (vb_id b') = true
    end.
Proof.
  induction path as [|b path IH]; intros Hall; simpl; [exists None; split; [done|set_solver]|].
  destruct (Hall b) as [Hid [e He]]; [set_solver|]. rewrite He. simpl.
  pose proof (is_coherent_entry _ _ _ Hid He) as Hc.
  destruct (entry_is_coherent e) eqn:Hce; simpl.
  - destruct IH as ([b'|] & -> & Ho); [set_solver|eexists; split; [done|]..].
    + destruct Ho as (pre & post & -> & Hb' & Hpre). exists (b :: pre), post. split_and!; [done|done|].
      intros ? [->|?]%elem_of_cons; auto.
    + intros ? [->|?]%elem_of_cons; auto.
  - exists (Some b). split; [done|]. exists [], path. split_and!; [done|done|set_solver].
Qed.

Lemma search_start bt id pre b post :
  bt_inv bt → path_to (shape bt) (bt_root_id bt) id (pre ++ b :: post) →
  is_coherent bt (vb_id b) = false → (∀ b', b' ∈ pre → is_coherent bt (vb_id b') = true) →
  ∀ policy sb, search_inv bt policy sb (vb_id b) [] [vb_id b] bt [].
Proof.
  intros Hinv Hp Hb Hpre policy sb. pose proof (bi_tree _ Hinv) as Ht.
  pose proof (path_to_prefix _ _ _ _ _ Ht Hp) as Hpb.
  constructor; try done; simpl; try set_solver.
  - apply NoDup_singleton.
  - intros x ->%list_elem_of_singleton. destruct (path_to_last _ _ _ _ Hpb) as (b1 & ch & pre1 & Heq & Hs).
    apply app_inj_tail in Heq as [<- <-]. exists b, ch. split_and!; [done| |done|by eexists|by left].
    inversion Hpb as [id' b1 ch1 Hb1 Hr Hid Heq|id' b1 ch1 l1 Hb1 Hr Hp1 Hid Heq].
    + rewrite Hb1 in Hs. simplify_eq. unfold is_coherent. by rewrite bool_decide_true.
    + apply app_inj_tail in Heq as [-> ->]. destruct (path_to_last _ _ _ _ Hp1) as (p & pch & l' & -> & Hpp).
      rewrite <-(shape_key bt Ht _ _ _ Hpp). apply Hpre. set_solver.
Qed.

(** What [try_update_coherency] does: it changes nothing but the coherency
    flags; the blocks it reports are the blocks that become coherent, each
    accepted on top of its branch; and the requested block ends up coherent
    precisely when every block of its branch was coherent or is accepted. *)
Record coherency_updated (bt : BlockTree) (id : BlockId) (policy : BPT) (sb : SBT)
    (l : list ValidatedBlock) (bt' : BlockTree) : Prop := {
  cu_inv : bt_inv bt';
  cu_root : bt_root bt' = bt_root bt;
  cu_shape : shape bt' = shape bt;
  cu_coherent k : is_coherent bt' k = true ↔ is_coherent bt k = true ∨ k ∈ vb_id <$> l;
  cu_new k : k ∈ vb_id <$> l → is_coherent bt k = false ∧
    ∃ b, bt_get_block bt k = Some b ∧ accepted bt policy sb b;
  cu_branch path : path_to (shape bt) (bt_root_id bt) id path →
    is_coherent bt' id = true ↔
    ∀ b, b ∈ path → is_coherent bt (vb_id b) = true ∨ accepted bt policy sb b;
}.

Lemma coherency_unchanged bt id policy sb :
  bt_inv bt →
  (∀ path, path_to (shape bt) (bt_root_id bt) id path →
     ∀ b, b ∈ path → is_coherent bt (vb_id b) = true) →
  coherency_updated bt id policy sb [] bt.
Proof.
  intros Hinv Hall. constructor; try done; [set_solver|set_solver|].
  intros path Hp. split; [by left; eapply Hall|]. intros _.
  destruct (path_to_last _ _ _ _ Hp) as (b & ch & l' & -> & Hb).
  rewrite <-(shape_key bt (bi_tree _ Hinv) _ _ _ Hb). eapply Hall; [done|set_solver].
Qed.

Lemma search_updated bt id policy sb s path V l bt' :
  bt_inv bt → path_to (shape bt) (bt_root_id bt) id path → s ∈ vb_id <$> path →
  search_inv bt policy sb s V [] bt' l → coherency_updated bt id policy sb l bt'.
Proof.
  intros Hinv Hp Hs Hv. pose proof Hinv as [Ht Hsh _]. pose proof (sv_coherent _ _ _ _ _ _ _ _ Hv) as Hcoh.
  constructor; [apply Hv..|done| |].
  - intros k Hk. pose proof (sv_visited _ _ _ _ _ _ _ _ Hv _ Hk) as HkV.
    destruct (sv_mem _ _ _ _ _ _ _ _ Hv k) as (c & ch & Hc & _ & Hk0 & _); [by rewrite app_nil_r|].
    split; [done|]. exists c. split; [|by eapply (sv_accepted _ _ _ _ _ _ _ _ Hv)].
    apply shape_lookup in Hc as (e & He & <- & _). unfold bt_get_block. by rewrite He.
  - intros path' Hp'. rewrite (path_to_det _ _ _ _ _ Hp' Hp) in *. clear Hp'. split.
    + intros Hc c Hcp. assert (is_coherent bt' (vb_id c) = true) as [?|Hl]%Hcoh.
      { eapply coherent_on_path; [apply Hv| |done|done].
        unfold bt_root_id. by rewrite (sv_shape _ _ _ _ _ _ _ _ Hv), (sv_root _ _ _ _ _ _ _ _ Hv). }
      { by left. }
      right. destruct (path_to_elem bt Ht _ _ _ Hp Hcp) as [ch Hsc].
      eapply (sv_accepted _ _ _ _ _ _ _ _ Hv); [by apply (sv_visited _ _ _ _ _ _ _ _ Hv)|done|done].
    + intros Hall. apply Hcoh. right. by eapply search_reached.
Qed.

Lemma try_update_coherency_spec bt id policy sb :
  bt_inv bt → policy_total bt policy sb →
  ∃ l bt', try_update_coherency bt id policy sb = Ret (l, bt') ∧
    coherency_updated bt id policy sb l bt'.
Proof.
  intros Hinv Hpol. pose proof Hinv as [Ht Hsh _]. unfold try_update_coherency.
  remember (S (size (bt_entries bt))) as fuel eqn:Hfuel.
  destruct (get_blocks_on_path_spec bt Hsh id) as (o & -> & Ho). simpl.
  destruct o as [path|].
  2: { exists [], bt. split; [done|]. apply coherency_unchanged; [done|]. intros path Hp.
       assert (None = Some path) by (apply Ho; by right). done. }
  destruct (proj1 (Ho path) eq_refl) as [[-> ->]|Hp].
  { simpl. exists [], bt. split; [done|]. apply coherency_unchanged; [done|]. intros path Hp.
    assert (Some [] = Some path) as [= <-] by (apply Ho; by right). set_solver. }
  destruct (find_incoherent_spec bt path) as ([b|] & -> & Hf); simpl.
  - intros b Hb. destruct (path_to_elem bt Ht _ _ _ Hp Hb) as [ch Hs]. split; [by eapply shape_not_root|].
    apply shape_lookup in Hs as (e & -> & _). eauto.
  - destruct Hf as (pre & post & -> & Hb & Hpre).
    pose proof (search_start bt id pre b post Hinv Hp Hb Hpre policy sb) as Hst.
    destruct (coherency_loop_spec bt Hinv policy sb Hpol (vb_id b) Hb fuel _ _ _ _ Hst)
      as (V & bt' & l & -> & Hv); [simpl; lia|].
    exists l, bt'. split; [done|]. eapply search_updated; [done..| |done].
    apply list_elem_of_fmap_2. set_solver.
  - exists [], bt. split; [done|]. apply coherency_unchanged; [done|]. intros path' Hp'.
    by rewrite (path_to_det _ _ _ _ _ Hp' Hp).
Qed.
(** * Committable certificates *)

(** [qc] commits the parent of the block it certifies: the certified block is in
    the tree, was certified in the round after its parent's certificate, and its
    parent is a coherent block above the root. *)
Definition committable (bt : BlockTree) (qc : QuorumCertificate) : Prop :=
  ∃ p, bt_entries bt !! qc_block_id qc = Some p ∧
    qc_round qc = vb_parent_round (validated_block p) + 1 ∧
    vb_parent_id (validated_block p) ≠ bt_root_id bt ∧
    is_coherent bt (vb_parent_id (validated_block p)) = true.

Definition high_committable (bt : BlockTree) (V : list BlockId) (o : option QuorumCertificate) : Prop :=
  (∀ qc, o = Some qc → committable bt qc ∧
     ∃ x e, x ∈ V ∧ bt_entries bt !! x = Some e ∧ vb_qc (validated_block e) = qc) ∧
  (∀ x e, x ∈ V → bt_entries bt !! x = Some e → committable bt (vb_qc (validated_block e)) →
     ∃ qc, o = Some qc ∧ qc_round (vb_qc (validated_block e)) <= qc_round qc).

Section committable.
Context (bt : BlockTree) (Hinv : bt_inv bt).

Record bfs_inv (V Q : list BlockId) : Prop := {
  bf_nodup : NoDup (V ++ Q);
  bf_mem x : x ∈ V ++ Q → ∃ b ch path, shape bt !! x = Some (b, ch) ∧
    path_to (shape bt) (bt_root_id bt) x path ∧ (vb_parent_id b = bt_root_id bt ∨ vb_parent_id b ∈ V);
  bf_root c : c ∈ root_children (bt_root bt) → c ∈ V ++ Q;
  bf_children x b ch c : x ∈ V → shape bt !! x = Some (b, ch) → c ∈ ch → c ∈ V ++ Q;
}.

Lemma bfs_start : bfs_inv [] (root_children (bt_root bt)).
Proof.
  destruct (si_root_children _ _ _ (bi_shape _ Hinv)) as [Hnd Hch]. constructor; simpl; try set_solver.
  intros x (b & ch & Hb & Hp)%Hch. exists b, ch, [b]. split_and!; [done|by eapply path_root|by left].
Qed.

Lemma bfs_step V x Q b ch :
  bfs_inv V (x :: Q) → shape bt !! x = Some (b, ch) → bfs_inv (V ++ [x]) (Q ++ ch).
Proof.
  intros [Hnd Hmem Hroot Hkids] Hx.
  destruct (si_children _ _ _ (bi_shape _ Hinv) _ _ _ Hx) as [Hchnd Hch].
  assert ((V ++ [x]) ++ Q ++ ch = (V ++ x :: Q) ++ ch) as Happ by by rewrite <-!(assoc_L (++)).
  pose proof (shape_not_root _ _ _ _ Hinv Hx) as Hxr.
  assert (x ∉ V) as HxV by (apply NoDup_app in Hnd as (_ & Hd & _); set_solver).
  constructor; rewrite ?Happ.
  - apply NoDup_app. split_and!; [done| |done]. intros c Hc (b' & ch' & Hb' & Hp)%Hch.
    destruct (Hmem c Hc) as (b1 & ch1 & path & Hb1 & _ & Hor). rewrite Hb' in Hb1. injection Hb1 as <- <-.
    rewrite Hp in Hor. by destruct Hor.
  - intros y [Hy|Hy]%elem_of_app.
    + destruct (Hmem y Hy) as (b' & ch' & path & ? & ? & Hor). exists b', ch', path.
      split_and!; [done|done|]. destruct Hor; [by left|right; set_solver].
    + apply Hch in Hy as (b' & ch' & Hb' & Hp').
      destruct (Hmem x) as (_ & _ & path & _ & Hp & _); [set_solver|].
      exists b', ch', (path ++ [b']). split_and!; [done| |right; set_solver].
      eapply path_step; [done|congruence|by rewrite Hp'].
  - set_solver.
  - intros y b' ch' c [Hy| ->%list_elem_of_singleton]%elem_of_app Hb' Hc.
    + specialize (Hkids _ _ _ _ Hy Hb' Hc). set_solver.
    + simplify_eq. set_solver.
Qed.

(** At the end everything connected to the root has been visited. *)
Lemma bfs_complete V x path :
  bfs_inv V [] → path_to (shape bt) (bt_root_id bt) x path → x ∈ V.
Proof.
  intros [_ _ Hroot Hkids]. rewrite app_nil_r in *.
  induction 1 as [id b ch Hb Hr|id b ch l Hb Hr Hp IH].
  - apply Hroot. apply (si_root_children _ _ _ (bi_shape _ Hinv)). eauto.
  - destruct (path_to_last _ _ _ _ Hp) as (p & pch & ? & _ & Hpp). eapply (Hkids _ _ _ id IH Hpp).
    apply (si_children _ _ _ (bi_shape _ Hinv) _ _ _ Hpp). eauto.
Qed.

Lemma bfs_size V Q : bfs_inv V Q → (length (V ++ Q) <= size (bt_entries bt))%nat.
Proof.
  intros Hv. rewrite <-size_shape, <-size_dom, <-(size_list_to_set (C := gset BlockId)) by apply Hv.
  apply subseteq_size. intros x Hx%elem_of_list_to_set.
  destruct (bf_mem _ _ Hv x Hx) as (b & ch & ? & Hb & _). by apply elem_of_dom_2 in Hb.
Qed.

(** One visit: what the body of the loop does with the certificate of a block. *)
Lemma committable_id_spec x e p :
  bt_entries bt !! x = Some e → bt_entries bt !! vb_parent_id (validated_block e) = Some p →
  get_committable_id (vb_qc (validated_block e)) (vb_header (validated_block p)) =
    Ret (if bool_decide (vb_parent_round (validated_block e) = vb_parent_round (validated_block p) + 1)
         then Some (vb_parent_id (validated_block p)) else None).
Proof.
  intros He Hp. unfold get_committable_id.
  change (qc_block_id _) with (vb_parent_id (validated_block e)).
  change (header_get_id _) with (vb_id (validated_block p)).
  rewrite (ti_key _ (bi_tree _ Hinv) _ _ Hp), bool_decide_true by done. simpl.
  pose proof (si_rounds _ _ _ (bi_shape _ Hinv) _ _ _ (shape_lookup_entry _ _ _ Hp)) as Hr.
  change (qc_round (h_qc _)) with (vb_parent_round (validated_block p)).
  assert (round_add (vb_parent_round (validated_block p)) 1 =
    Ret (vb_parent_round (validated_block p) + 1)) as -> by (apply round_add_Ret; lia).
  done.
Qed.
Lemma high_keep V x e o :
  bt_entries bt !! x = Some e →
  (committable bt (vb_qc (validated_block e)) →
     ∃ qc, o = Some qc ∧ qc_round (vb_qc (validated_block e)) <= qc_round qc) →
  high_committable bt V o → high_committable bt (V ++ [x]) o.
Proof.
  intros He Hk [H1 H2]. split.
  - intros qc Hqc. destruct (H1 _ Hqc) as (? & y & e' & ? & ? & ?). split; [done|].
    exists y, e'. split_and!; [set_solver|done|done].
  - intros y e' [Hy| ->%list_elem_of_singleton]%elem_of_app He'; [eauto|]. simplify_eq. done.
Qed.

Lemma high_take V x e o :
  bt_entries bt !! x = Some e → committable bt (vb_qc (validated_block e)) →
  (∀ qc, o = Some qc → qc_round qc < qc_round (vb_qc (validated_block e))) →
  high_committable bt V o → high_committable bt (V ++ [x]) (Some (vb_qc (validated_block e))).
Proof.
  intros He Hc Hlt [H1 H2]. split.
  - intros qc [= <-]. split; [done|]. exists x, e. split_and!; [set_solver|done|done].
  - intros y e' [Hy| ->%list_elem_of_singleton]%elem_of_app He' Hc'; eexists; (split; [done|]).
    + destruct (H2 _ _ Hy He' Hc') as (qc & Ho & Hle). specialize (Hlt _ Ho). lia.
    + simplify_eq. lia.
Qed.

(** The loop ends with the highest committable certificate of what it visits. *)
Lemma committable_loop_spec fuel V Q o :
  bfs_inv V Q → high_committable bt V o → (size (bt_entries bt) < fuel + length V)%nat →
  ∃ V' o', committable_loop fuel bt Q o = Ret o' ∧ bfs_inv V' [] ∧ high_committable bt V' o'.
Proof.
  revert V Q o. induction fuel as [|fuel IH]; intros V [|x Q] o Hv Hh Hf; simpl; try by exists V, o.
  { apply bfs_size in Hv. rewrite length_app in Hv. simpl in Hv. lia. }
  destruct (bf_mem _ _ Hv x) as (b & ch & path & Hb & _); [set_solver|].
  pose proof (bfs_step _ _ _ _ _ Hv Hb) as Hv'. apply shape_lookup in Hb as (e & He & <- & <-). rewrite He. simpl.
  set (qc := vb_qc (validated_block e)).
  assert (∀ o', high_committable bt (V ++ [x]) o' →
    ∃ V' o'', committable_loop fuel bt (Q ++ children_blocks e) o' = Ret o'' ∧ bfs_inv V' [] ∧
      high_committable bt V' o'') as Hnext.
  { intros o' Ho'. apply (IH (V ++ [x])); [done|done|rewrite length_app; simpl; lia]. }
  destruct (match o with Some high => _ | None => false end) eqn:Hskip.
  { apply Hnext, (high_keep _ _ _ _ He); [|done]. intros _. destruct o as [high|]; [|done].
    apply bool_decide_eq_true in Hskip. eexists. split; [done|]. fold qc. lia. }
  assert (∀ high, o = Some high → qc_round high < qc_round qc) as Hlt.
  { intros high ->. apply bool_decide_eq_false in Hskip. lia. }
  change (qc_block_id qc) with (vb_parent_id (validated_block e)).
  destruct (bt_entries bt !! vb_parent_id (validated_block e)) as [p|] eqn:Hp.
  2: { apply Hnext, (high_keep _ _ _ _ He); [|done]. intros (p & Hp' & _).
       change (bt_entries bt !! vb_parent_id (validated_block e) = Some p) in Hp'. congruence. }
  pose proof (committable_id_spec _ _ _ He Hp) as Hgc. fold qc in Hgc. rewrite Hgc. clear Hgc. simpl.
  assert (committable bt qc ↔ qc_round qc = vb_parent_round (validated_block p) + 1 ∧
    vb_parent_id (validated_block p) ≠ bt_root_id bt ∧
    is_coherent bt (vb_parent_id (validated_block p)) = true) as Hcom.
  { unfold committable. change (qc_block_id qc) with (vb_parent_id (validated_block e)). rewrite Hp. naive_solver. }
  change (vb_parent_round (validated_block e)) with (qc_round qc).
  case_bool_decide as H1; [|apply Hnext, (high_keep _ _ _ _ He); [fold qc; tauto|done]].
  case_bool_decide as H2; [apply Hnext, (high_keep _ _ _ _ He); [fold qc; tauto|done]|].
  destruct (is_coherent bt (vb_parent_id (validated_block p))) eqn:H3; simpl.
  - apply Hnext. eapply (high_take _ _ _ o); [done|by apply Hcom|done|done].
  - apply Hnext, (high_keep _ _ _ _ He); [|done]. fold qc. rewrite Hcom. by intros (_ & _ & ?).
Qed.

End committable.

End inv.
