(* ===== verification/BlockTreeProps.v ===== *)
(** The contract of the block tree: what each public operation of
    src/monad-blocktree/src/blocktree.rs promises to the consensus state, and
    what holds of a tree over its whole life. *)

From S2P Require Import Prelude Types ValidatorSet Crypto MultiSig ConsensusTypes BlockPolicy.
From S2P Require Import Safety Pacemaker BlockTree BlockTreeInv.

#[local] Open Scope Z_scope.

Section props.
Context `{BP : BlockPolicy} `{HashOrder}.
Implicit Types (bt : BlockTree) (b : ValidatedBlock) (e : BlockTreeEntry).

(** ** Committing *)

(** [l] is a chain of blocks from just above [r] up to [id]. *)
Fixpoint linked (r : BlockId) (l : list ValidatedBlock) (id : BlockId) : Prop :=
  match l with
  | [] => r = id
  | b :: l => vb_parent_id b = r ∧ linked (vb_id b) l id
  end.

Lemma linked_app r l1 m l2 id : linked r l1 m → linked m l2 id → linked r (l1 ++ l2) id.
Proof.
  revert r. induction l1 as [|b l1 IH]; intros r; simpl; [by intros ->|]. intros [? ?] ?. split; [done|auto].
Qed.

Lemma path_to_linked bt id l :
  tree_inv (bt_tree bt) → path_to (shape bt) (bt_root_id bt) id l → linked (bt_root_id bt) l id.
Proof.
  intros Ht. induction 1 as [id b ch Hb Hr|id b ch l Hb Hr Hp IH]; simpl.
  - split; [done|]. by eapply shape_key.
  - eapply linked_app; [done|]. split; [done|]. by eapply shape_key.
Qed.

(** C27. [prune] commits a branch. On a coherent block of a well-formed tree it
    returns, without hitting one of its assertions, exactly the blocks of
    [get_blocks_on_path_from_root] from the root up to that block, in that
    order, each the parent of the next. The block becomes the root, and what is
    left are exactly the blocks off the committed branch whose parent's round is
    not below the round of the new root; every branch above the new root is
    among it, with its path. The indices of the tree stay exact: each body is
    held by the blocks that have it, and each list of children names once each
    the blocks that extend a block. Blocks of other forks may be left too, where
    their parent's round is late enough. The coherency flags of those need a
    condition on the tree: if no block that is left extends the old root, and
    every one whose parent is known extends the new root or another that is left
    (no certificate from the round of the new root on is for a block off its
    branch), then the coherent blocks of the new tree extend the root or a
    coherent block again. *)
Theorem prune_correct bt new_root e :
  bt_inv bt → bt_entries bt !! new_root = Some e → entry_is_coherent e = true →
  ∃ l bt', prune bt new_root = Ret (l, bt') ∧
    get_blocks_on_path_from_root bt new_root = Ret (Some l) ∧
    last l = Some (validated_block e) ∧ linked (bt_root_id bt) l new_root ∧
    bt_root_id bt' = new_root ∧
    ri_round (root_info (bt_root bt')) = vb_block_round (validated_block e) ∧
    (∀ id a, bt_entries bt' !! id = Some a ↔
       bt_entries bt !! id = Some a ∧ id ∉ vb_id <$> l ∧
       vb_block_round (validated_block e) <= vb_parent_round (validated_block a)) ∧
    (∀ id path, path ≠ [] → get_blocks_on_path_from_root bt id = Ret (Some (l ++ path)) →
       get_blocks_on_path_from_root bt' id = Ret (Some path)) ∧
    tree_inv (bt_tree bt') ∧ shape_inv (bt_root_id bt') (root_children (bt_root bt')) (shape bt') ∧
    (no_fork_past bt new_root (vb_block_round (validated_block e)) → coherent_closed bt').
Proof.
  intros Hinv He Hc. destruct (prune_spec bt new_root e Hinv He Hc) as (l & bt' & Hp & Hpath & Ht' & Hs' & Hr & Hrd & Hpr).
  pose proof (shape_lookup_entry _ _ _ He) as Hse. pose proof Hinv as [Ht Hsh _].
  destruct (path_to_rounds bt Hsh _ _ Hpath) as (b & ch & Hb & Hl & _). rewrite Hse in Hb. simplify_eq.
  exists l, bt'. split_and!; try done; [by eapply path_to_get|by apply path_to_linked| |intros Hnf; by eapply prune_coherent_closed].
  intros id path Hne Hid. destruct (get_blocks_on_path_spec bt Hsh id) as (o & Ho & Hspec).
  rewrite Hid in Ho. simplify_eq. destruct (proj1 (Hspec _) eq_refl) as [[_ Hnil]|Hto].
  { by apply app_eq_nil in Hnil as [_ ->]. }
  apply path_to_get; [done|]. by eapply prune_branches.
Qed.

(** [add] inserts a well-formed block that is new and above the root, and
    changes no other block and no coherency; any other block it ignores. It
    never hits an assertion and keeps the tree well formed. *)
Theorem block_tree_add_correct bt b :
  bt_inv bt → addable bt b →
  ∃ bt', block_tree_add bt b = Ret bt' ∧ bt_inv bt' ∧
    root_info (bt_root bt') = root_info (bt_root bt) ∧
    if is_valid_to_insert bt (vb_header b)
    then bt_get_block bt' (vb_id b) = Some b ∧
         (∀ id, id ≠ vb_id b → bt_get_block bt' id = bt_get_block bt id) ∧
         (∀ id, is_coherent bt' id = is_coherent bt id)
    else bt' = bt.
Proof. apply block_tree_add_spec. Qed.

(** [try_update_coherency] returns on every tree. It changes nothing but
    coherency flags; the blocks it reports are exactly the blocks that become
    coherent, each accepted by the block policy on top of its branch; and the
    requested block ends up coherent precisely when every block of its branch
    was coherent before or is accepted. *)
Theorem try_update_coherency_correct bt id policy sb :
  bt_inv bt → policy_total bt policy sb →
  ∃ l bt', try_update_coherency bt id policy sb = Ret (l, bt') ∧
    bt_inv bt' ∧ bt_root bt' = bt_root bt ∧ shape bt' = shape bt ∧
    (∀ k, is_coherent bt' k = true ↔ is_coherent bt k = true ∨ k ∈ vb_id <$> l) ∧
    (∀ k, k ∈ vb_id <$> l → is_coherent bt k = false ∧
       ∃ b, bt_get_block bt k = Some b ∧ accepted bt policy sb b) ∧
    (∀ path, get_blocks_on_path_from_root bt id = Ret (Some path) →
       is_coherent bt' id = true ↔
       ∀ b, b ∈ path → is_coherent bt (vb_id b) = true ∨ accepted bt policy sb b).
Proof.
  intros Hinv Hpol. destruct (try_update_coherency_spec bt id policy sb Hinv Hpol) as (l & bt' & Hr & Hu).
  exists l, bt'. split_and!; [done|apply Hu..|].
  destruct (get_blocks_on_path_spec bt (bi_shape _ Hinv) id) as (o & -> & Ho).
  intros path [= ->]. destruct (proj1 (Ho path) eq_refl) as [[-> ->]|Hp]; [|by apply Hu].
  split; [set_solver|]. intros _. unfold is_coherent.
  replace (bt_root_id bt') with (bt_root_id bt) by (unfold bt_root_id; by rewrite (cu_root _ _ _ _ _ _ Hu)).
  by rewrite bool_decide_true.
Qed.

(** [get_high_committable_qc] returns, and finds the committable certificate
    of highest round among those carried by blocks connected to the root: it
    returns one if there is one, and what it returns commits the parent of the
    block it certifies, which is coherent and not the root. *)
Theorem get_high_committable_qc_correct bt :
  bt_inv bt →
  ∃ o, get_high_committable_qc bt = Ret o ∧
    (∀ qc, o = Some qc → committable bt qc ∧
       ∃ id path b, get_blocks_on_path_from_root bt id = Ret (Some (path ++ [b])) ∧ vb_qc b = qc) ∧
    (∀ id path b, path_to (shape bt) (bt_root_id bt) id (path ++ [b]) → committable bt (vb_qc b) →
       ∃ qc, o = Some qc ∧ qc_round (vb_qc b) <= qc_round qc).
Proof.
  intros Hinv. destruct (committable_loop_spec bt Hinv (S (size (bt_entries bt))) [] _ None (bfs_start bt Hinv))
    as (V & o & Hr & Hv & Hh1 & Hh2); [split; set_solver|simpl; lia|].
  exists o. split_and!; [done| |].
  - intros qc Hqc. destruct (Hh1 _ Hqc) as (Hc & x & e & HxV & He & Hq). split; [done|].
    destruct (bf_mem _ _ _ Hv x) as (b & ch & path & Hb & Hp & _); [by rewrite app_nil_r|].
    destruct (path_to_last _ _ _ _ Hp) as (b' & ch' & l' & -> & Hb').
    exists x, l', b'. split; [by apply path_to_get; [apply Hinv|]|].
    apply shape_lookup in Hb' as (e' & He' & <- & _). congruence.
  - intros id path b Hp Hc. pose proof (bfs_complete _ Hinv _ _ _ Hv Hp) as HxV.
    destruct (path_to_last _ _ _ _ Hp) as (b' & ch' & l' & Heq & Hb'). apply app_inj_tail in Heq as [-> <-].
    apply shape_lookup in Hb' as (e' & He' & <- & _). eauto.
Qed.
(** ** Missing ancestors *)

(** [a] is [id] or an ancestor of it above the root [r], all blocks before [a]
    being in the tree. *)
Inductive extends (m : gmap BlockId (ValidatedBlock * list BlockId)) (r : BlockId) :
    BlockId → BlockId → Prop :=
| extends_refl id : extends m r id id
| extends_step id b ch a : m !! id = Some (b, ch) → vb_parent_id b ≠ r →
    extends m r (vb_parent_id b) a → extends m r id a.

(** A block with a path to the root has no missing ancestor. *)
Lemma extends_path m r id a path :
  extends m r id a → path_to m r id path → is_Some (m !! a).
Proof.
  intros Hext. revert path. induction Hext as [id|id b ch a Hb Hr Hext IH]; intros path Hp.
  - destruct (path_to_last _ _ _ _ Hp) as (b & ch & ? & _ & Hb). eauto.
  - inversion Hp; simplify_eq; eauto.
Qed.

(** The answer to whether the path from [id] to the root is complete. *)
Definition path_answer (bt : BlockTree) (id : BlockId) (o : option BlockRange) : Prop :=
  match o with
  | None => ∃ path, path_to (shape bt) (bt_root_id bt) id path
  | Some r => extends (shape bt) (bt_root_id bt) id (br_last_block_id r) ∧ bt_entries bt !! br_last_block_id r = None ∧
      1 <= br_num_blocks r
  end.

Lemma fill_path_loop_spec bt fuel id n :
  bt_inv bt →
  (∀ k e, bt_entries bt !! k = Some e → get_root_seq_num bt <= vb_seq_num (validated_block e)) →
  (∀ b ch, shape bt !! id = Some (b, ch) → (below (shape bt) (vb_block_round b) < fuel)%nat) →
  1 <= n →
  ∃ o, fill_path_loop fuel bt id n = Ret o ∧ path_answer bt id o.
Proof.
  intros Hinv Hseq. revert id n. induction fuel as [|fuel IH]; intros id n Hf Hn; simpl;
    (destruct (bt_entries bt !! id) as [e|] eqn:He; [|eexists; split; [done|]; split_and!; [constructor|done|done]]);
    pose proof (shape_lookup_entry _ _ _ He) as Hs; specialize (Hf _ _ Hs); [lia|].
  case_bool_decide as Hr.
  { exists None. split; [done|]. exists [validated_block e]. by eapply path_root. }
  pose proof (Hseq _ _ He) as Hle. rewrite (proj2 (seq_num_sub_Ret _ _ _) (conj eq_refl Hle)). simpl.
  assert (∀ d, seq_num_sub (Z.max d 2) 1 = Ret (Z.max d 2 - 1)) as Hsub.
  { intros d. apply seq_num_sub_Ret. lia. }
  rewrite Hsub. simpl.
  destruct (IH (vb_parent_id (validated_block e)) (Z.max (vb_seq_num (validated_block e) - get_root_seq_num bt) 2 - 1))
    as (o & -> & Ho).
  { intros p pch Hp. pose proof (parent_below bt (bi_shape _ Hinv) _ _ _ _ _ Hs Hp). lia. }
  { lia. }
  exists o. split; [done|]. destruct o as [r|]; simpl in *.
  - destruct Ho as (? & ? & ?). split_and!; [by eapply extends_step|done|done].
  - destruct Ho as [path Hp]. exists (path ++ [validated_block e]). by eapply path_step.
Qed.

(** [maybe_fill_path_to_root] returns. For a certificate above the root it
    asks for nothing exactly when the certified block has a path to the root in
    the tree; otherwise it asks for the first ancestor that is missing. *)
Theorem maybe_fill_path_to_root_correct bt qc :
  bt_inv bt →
  (∀ id e, bt_entries bt !! id = Some e → get_root_seq_num bt <= vb_seq_num (validated_block e)) →
  ri_round (root_info (bt_root bt)) < qc_round qc → bt_root_id bt ≠ qc_block_id qc →
  ∃ o, maybe_fill_path_to_root bt qc = Ret o ∧
    (o = None ↔ ∃ path, get_blocks_on_path_from_root bt (qc_block_id qc) = Ret (Some path)) ∧
    ∀ r, o = Some r → extends (shape bt) (bt_root_id bt) (qc_block_id qc) (br_last_block_id r) ∧
      bt_get_block bt (br_last_block_id r) = None ∧ 1 <= br_num_blocks r.
Proof.
  intros Hinv Hseq Hr Hid. unfold maybe_fill_path_to_root.
  rewrite (bool_decide_false (_ >= _)), (bool_decide_false (bt_root_id bt = _)) by (done || lia). simpl.
  destruct (fill_path_loop_spec bt (size (bt_entries bt)) (qc_block_id qc) 1 Hinv Hseq) as (o & -> & Ho); [|lia|].
  { intros b ch Hb. rewrite <-size_shape. by eapply below_size. }
  exists o. split_and!; [done| |].
  - destruct (get_blocks_on_path_spec bt (bi_shape _ Hinv) (qc_block_id qc)) as (o' & -> & Ho').
    destruct o as [r|]; simpl in Ho.
    + split; [done|]. intros [path [= ->]]. destruct (proj1 (Ho' path) eq_refl) as [[? _]|Hp]; [congruence|].
      destruct Ho as (Hext & Hnone & _). destruct (extends_path _ _ _ _ _ Hext Hp) as [[b ch] Hb].
      apply shape_lookup in Hb as (? & ? & _). congruence.
    + destruct Ho as [path Hp]. split; [|done]. intros _. exists path. f_equal. apply Ho'. by right.
  - intros r ->. destruct Ho as (? & Hn & ?). split_and!; [done| |done]. unfold bt_get_block. by rewrite Hn.
Qed.

(** ** Small trees *)

Lemma block_tree_new_inv root : bt_inv (block_tree_new root).
Proof.
  assert (shape (block_tree_new root) = ∅) as Hs by apply fmap_empty.
  assert (∀ id, bt_entries (block_tree_new root) !! id = None) as He by (intros; apply lookup_empty).
  constructor.
  - unfold bt_entries in He. constructor; try (intros *; by rewrite He).
    intros pid idx Hp. assert (@None BlockBodyIndex = Some idx) by (rewrite <-Hp; symmetry; apply lookup_empty). done.
  - rewrite Hs. constructor; try done.
    split; [apply NoDup_nil_2|]. intros c. rewrite elem_of_nil. setoid_rewrite lookup_empty. naive_solver.
  - intros id e. by rewrite He.
Qed.

(** A tree with one block on its root. *)
Definition one_block (root : RootInfo) (b : ValidatedBlock) (coherent : bool) : BlockTree :=
  mkBlockTree (mkRoot root [vb_id b])
    (mkTree {[ vb_id b := mkEntry b coherent [] ]} {[ vb_body_id b := mkBodyIndex (vb_body b) {[ vb_id b ]} ]}).

Section one_block.
Context (root : RootInfo) (b : ValidatedBlock) (coherent : bool).

Lemma one_block_lookup id e :
  bt_entries (one_block root b coherent) !! id = Some e ↔ id = vb_id b ∧ e = mkEntry b coherent [].
Proof. unfold bt_entries. simpl. rewrite lookup_singleton_Some. naive_solver. Qed.

Lemma one_block_shape id b' ch :
  shape (one_block root b coherent) !! id = Some (b', ch) ↔ id = vb_id b ∧ b' = b ∧ ch = [].
Proof. rewrite shape_lookup. setoid_rewrite one_block_lookup. naive_solver. Qed.

Context (Hpar : vb_parent_id b = ri_block_id root) (Hid : vb_id b ≠ ri_block_id root).
Context (Hr : vb_parent_round b < vb_block_round b <= u64_max).

Lemma one_block_inv : bt_inv (one_block root b coherent).
Proof.
  pose proof one_block_lookup as Hl. pose proof one_block_shape as Hs. unfold bt_entries in Hl. constructor.
  - constructor.
    + intros id e [-> ->]%Hl. done.
    + intros id e [-> ->]%Hl. simpl. eexists. rewrite lookup_singleton_eq. split; [done|]. simpl. set_solver.
    + intros pid idx. simpl. rewrite lookup_singleton_Some. intros [<- <-]. simpl. split; [set_solver|].
      intros id ->%elem_of_singleton. eexists. rewrite lookup_singleton_eq. done.
  - constructor.
    + apply eq_None_ne_Some. intros [b' ch]. rewrite Hs. intros [? _]. by apply Hid.
    + intros id b' ch (_ & -> & _)%Hs. done.
    + intros id b' ch p pch (_ & -> & _)%Hs (Heq & _)%Hs. congruence.
    + intros id b' ch (-> & -> & ->)%Hs. split; [apply NoDup_nil_2|]. intros c. rewrite elem_of_nil.
      setoid_rewrite Hs. split; [done|]. intros (? & ? & (-> & -> & _) & ?). congruence.
    + split; [apply NoDup_singleton|]. intros c. simpl. rewrite list_elem_of_singleton. setoid_rewrite Hs.
      naive_solver.
  - intros id e [-> ->]%Hl _. unfold is_coherent. simpl. rewrite Hpar. by rewrite bool_decide_true.
Qed.

Lemma one_block_path id l :
  path_to (shape (one_block root b coherent)) (ri_block_id root) id l → id = vb_id b ∧ l = [b].
Proof.
  inversion 1 as [? b' ch Hb|? b' ch l' Hb Hne]; apply one_block_shape in Hb as (-> & -> & _); [done|].
  by rewrite Hpar in Hne.
Qed.
End one_block.

End props.

(** * Concrete runs *)

Section witnesses.
#[local] Existing Instances NopProtocol map_order.
#[local] Instance nop_policy : @BlockPolicy NopProtocol := PassthruBlockPolicy.

Definition nop_root : RootInfo := mkRootInfo 0 0 1 GENESIS_BLOCK_ID 0.
Definition nop_block (round seq_num : Z) (qc : QuorumCertificate) : ConsensusFullBlock :=
  mkFullBlock (nop_header round seq_num qc) (mkBody (P := NopProtocol) []).
Definition nop_b1 : ValidatedBlock := nop_block 1 1 nop_genesis_qc.

Lemma nop_b1_ok :
  vb_parent_id nop_b1 = ri_block_id nop_root ∧ vb_id nop_b1 ≠ ri_block_id nop_root ∧
  vb_parent_round nop_b1 < vb_block_round nop_b1 <= u64_max.
Proof.
  split; [reflexivity|]. split; [vm_decide|]. change (0 < 1 <= u64_max). unfold u64_max. lia.
Qed.

Lemma nop_one_inv c : bt_inv (one_block nop_root nop_b1 c).
Proof. apply one_block_inv; apply nop_b1_ok. Qed.

Lemma nop_addable : addable (block_tree_new nop_root) nop_b1.
Proof.
  destruct nop_b1_ok as (Hp & Hid & Hr). constructor; [exact Hid|rewrite Hp; intros Heq; apply Hid; symmetry; exact Heq|exact Hr|..].
  - intros p. unfold bt_entries. simpl. rewrite lookup_empty. discriminate 1.
  - intros id e. unfold bt_entries. simpl. rewrite lookup_empty. discriminate 1.
Qed.

(** Whether a block may be added, computed. *)
Definition addableb (bt : BlockTree) (b : ValidatedBlock) : bool :=
  bool_decide (vb_id b ≠ bt_root_id bt) && bool_decide (vb_parent_id b ≠ vb_id b) &&
  bool_decide (vb_parent_round b < vb_block_round b <= u64_max) &&
  bool_decide (map_Forall (λ id e,
    (id = vb_parent_id b → vb_block_round (validated_block e) <= vb_parent_round b) ∧
    (vb_parent_id (validated_block e) = vb_id b → vb_block_round b <= vb_parent_round (validated_block e)))
    (bt_entries bt)).

Lemma addableb_spec bt b : addableb bt b = true → addable bt b.
Proof.
  unfold addableb. rewrite !andb_true_iff, !bool_decide_eq_true. intros [[[? ?] ?] Hall].
  constructor; [done..| |].
  - intros p Hp. by apply (Hall _ _ Hp).
  - intros id e Hp. by apply (Hall _ _ Hp).
Qed.

Definition added (b : ValidatedBlock) (bt : BlockTree) : BlockTree :=
  match block_tree_add bt b with Ret bt' => bt' | _ => bt end.

Lemma added_inv b bt : addableb bt b = true → bt_inv bt → bt_inv (added b bt).
Proof.
  intros Ha%addableb_spec Hinv. unfold added. by destruct (block_tree_add_spec bt b Hinv Ha) as (bt' & -> & ? & _).
Qed.

Definition made_coherent (id : BlockId) (bt : BlockTree) : BlockTree :=
  match try_update_coherency bt id tt tt with Ret (_, bt') => bt' | _ => bt end.

Definition numbers_small (bt : BlockTree) : bool :=
  bool_decide (ri_seq_num (root_info (bt_root bt)) < u64_max) &&
  bool_decide (map_Forall (λ _ e, vb_seq_num (validated_block e) < u64_max) (bt_entries bt)).

Lemma passthru_total b ext root :
  match last ext with Some x => fb_seq_num x | None => ri_seq_num root end < u64_max →
  ∃ r, passthru_check_coherency (P := NopProtocol) b ext root = Ret r.
Proof.
  intros Hn. unfold passthru_check_coherency, seq_num_add. destruct (last ext) as [x|]; cbv beta iota;
    rewrite checked_add_ok by lia; simpl; repeat case_bool_decide; eauto.
Qed.

Lemma passthru_policy_total bt : numbers_small bt = true → bt_inv bt → policy_total bt tt tt.
Proof.
  unfold numbers_small. rewrite andb_true_iff, !bool_decide_eq_true. intros [Hroot Hall] Hinv b ext Hp.
  assert (match last ext with Some x => vb_seq_num x | None => ri_seq_num (root_info (bt_root bt)) end < u64_max) as Hn.
  { destruct (last ext) as [x|] eqn:Hx; [|done].
    destruct (path_to_elem bt (bi_tree _ Hinv) _ _ x Hp) as [ch Hs].
    { apply elem_of_app. left. by apply last_Some_elem_of. }
    apply shape_lookup in Hs as (e & He & <- & _). exact (Hall _ _ He). }
  by apply passthru_total.
Qed.

Lemma made_coherent_inv id bt : numbers_small bt = true → bt_inv bt → bt_inv (made_coherent id bt).
Proof.
  intros Hn Hinv. unfold made_coherent.
  destruct (try_update_coherency_spec bt id tt tt Hinv (passthru_policy_total _ Hn Hinv)) as (l & bt' & -> & Hu).
  apply Hu.
Qed.

(** Three blocks in consecutive rounds: the certificate in the third commits the
    first. A fourth, of a later round, forks from the root. *)
Definition nop_b2 : ValidatedBlock := nop_block 2 2 (nop_qc 1 (vb_id nop_b1)).
Definition nop_b3 : ValidatedBlock := nop_block 3 3 (nop_qc 2 (vb_id nop_b2)).
Definition nop_fork : ValidatedBlock := nop_block 4 1 nop_genesis_qc.

(** The four blocks, the third added before the first two, and all coherent. *)
Definition nop_forked : BlockTree :=
  made_coherent (vb_id nop_fork) (made_coherent (vb_id nop_b3)
    (added nop_fork (added nop_b2 (added nop_b1 (added nop_b3 (block_tree_new nop_root)))))).

Lemma nop_forked_inv : bt_inv nop_forked.
Proof.
  do 2 (apply made_coherent_inv; [vm_decide|]). do 4 (apply added_inv; [vm_decide|]). apply block_tree_new_inv.
Qed.

Lemma nop_forked_no_fork : no_fork_past nop_forked (vb_id nop_b2) (vb_block_round nop_b2).
Proof.
  assert (map_Forall (λ _ e, 2 <= vb_parent_round (validated_block e) →
    vb_parent_id (validated_block e) = vb_id nop_b2) (bt_entries nop_forked)) as Hall by vm_decide.
  intros id e He Hr. pose proof (Hall _ _ He Hr) as Hpar. rewrite Hpar. split; [vm_decide|]. intros p _. left. reflexivity.
Qed.

#[local] Instance nop_block_eq_dec : EqDecision ValidatedBlock.
Proof. change (EqDecision (ConsensusFullBlock (P := NopProtocol))). solve_decision. Defined.

Lemma nop_forked_b2 :
  ∃ e, bt_entries nop_forked !! vb_id nop_b2 = Some e ∧ entry_is_coherent e = true ∧ validated_block e = nop_b2.
Proof.
  assert (match bt_entries nop_forked !! vb_id nop_b2 with
          | Some e => entry_is_coherent e && bool_decide (validated_block e = nop_b2) | None => false end = true)
    as Hb by (vm_compute; reflexivity).
  destruct (bt_entries nop_forked !! vb_id nop_b2) as [e|]; [|discriminate Hb].
  apply andb_prop in Hb as [Hc Hb]. exists e. split_and!; [reflexivity|exact Hc|exact (bool_decide_eq_true_1 _ Hb)].
Qed.

Lemma nop_forked_path id path :
  ret_with (λ o, bool_decide (o = Some path)) (get_blocks_on_path_from_root nop_forked id) = true →
  get_blocks_on_path_from_root nop_forked id = Ret (Some path).
Proof. intros (o & -> & Ho)%ret_with_spec. f_equal. exact (bool_decide_eq_true_1 _ Ho). Qed.

Lemma nop_forked_fork :
  ∃ e, bt_entries nop_forked !! vb_id nop_fork = Some e ∧ vb_parent_round (validated_block e) = 0.
Proof.
  assert (match bt_entries nop_forked !! vb_id nop_fork with
          | Some e => bool_decide (vb_parent_round (validated_block e) = 0) | None => false end = true)
    as Hb by (vm_compute; reflexivity).
  destruct (bt_entries nop_forked !! vb_id nop_fork) as [e|]; [|discriminate Hb].
  exists e. split; [reflexivity|exact (bool_decide_eq_true_1 _ Hb)].
Qed.

(** The second block of the tree with four is committed: the first two are
    returned, the third stays and the fork, which was in the tree, goes. *)
Lemma prune_correct_witness :
  ∃ bt', prune nop_forked (vb_id nop_b2) = Ret ([nop_b1; nop_b2], bt') ∧
    get_blocks_on_path_from_root bt' (vb_id nop_b3) = Ret (Some [nop_b3]) ∧
    bt_entries nop_forked !! vb_id nop_fork ≠ None ∧ bt_entries bt' !! vb_id nop_fork = None ∧
    coherent_closed bt'.
Proof.
  destruct nop_forked_b2 as (e & He & Hc & Hb).   destruct nop_forked_fork as (f & Hf & Hf0).
  pose proof (nop_forked_path (vb_id nop_b2) [nop_b1; nop_b2] ltac:(vm_compute; reflexivity)) as Hp2.
  pose proof (nop_forked_path (vb_id nop_b3) ([nop_b1; nop_b2] ++ [nop_b3]) ltac:(vm_compute; reflexivity)) as Hp3.
  destruct (prune_correct nop_forked (vb_id nop_b2) e nop_forked_inv He Hc)
    as (l & bt' & Hp & Hpath & _ & _ & _ & _ & Hkept & Habove & _ & _ & Hcoh).
  rewrite Hb in Hkept, Hcoh. assert (l = [nop_b1; nop_b2]) as -> by congruence.
  exists bt'. split; [exact Hp|]. split; [|split; [|split]].
  - apply Habove; [discriminate|exact Hp3].
  - rewrite Hf. discriminate.
  - destruct (bt_entries bt' !! vb_id nop_fork) as [a|] eqn:Ha; [|reflexivity].
    destruct (proj1 (Hkept _ _) Ha) as (Ha' & _ & Hr). assert (a = f) as -> by congruence.
    rewrite Hf0 in Hr. exfalso. apply Hr. reflexivity.
  - exact (Hcoh nop_forked_no_fork).
Defined.

Lemma block_tree_add_correct_witness :
  ∃ bt', block_tree_add (block_tree_new nop_root) nop_b1 = Ret bt' ∧ bt_get_block bt' (vb_id nop_b1) = Some nop_b1.
Proof.
  destruct (block_tree_add_correct (block_tree_new nop_root) nop_b1) as (bt' & Hr & _ & _ & Hv).
  - apply block_tree_new_inv.
  - apply nop_addable.
  - exists bt'. split; [exact Hr|].
    assert (is_valid_to_insert (block_tree_new nop_root) (vb_header nop_b1) = true) as Hval by vm_decide.
    rewrite Hval in Hv. apply Hv.
Defined.

Lemma nop_policy_total c : policy_total (one_block nop_root nop_b1 c) tt tt.
Proof.
  intros b ext [Hb Hl]%one_block_path; [|apply nop_b1_ok]. apply (app_inj_tail ext []) in Hl as [-> ->].
  eexists. reflexivity.
Qed.

Lemma try_update_coherency_correct_witness :
  ∃ l bt', try_update_coherency (one_block nop_root nop_b1 false) (vb_id nop_b1) tt tt = Ret (l, bt') ∧
    is_coherent bt' (vb_id nop_b1) = true.
Proof.
  destruct (try_update_coherency_correct (one_block nop_root nop_b1 false) (vb_id nop_b1) tt tt)
    as (l & bt' & Hr & _ & _ & _ & _ & _ & Hp).
  - apply nop_one_inv.
  - apply nop_policy_total.
  - exists l, bt'. split; [exact Hr|]. destruct nop_b1_ok as (Hpar & Hid & Hrounds).
    assert (path_to (shape (one_block nop_root nop_b1 false)) (ri_block_id nop_root) (vb_id nop_b1) ([] ++ [nop_b1])) as Hpath.
    { eapply path_root; [rewrite one_block_shape; split_and!; reflexivity|exact Hpar]. }
    apply (Hp [nop_b1]).
    + apply (path_to_get _ (bi_shape _ (nop_one_inv false))), Hpath.
    + intros b ->%list_elem_of_singleton. right. exists []. split; [exact Hpath|reflexivity].
Defined.

Lemma get_high_committable_qc_correct_witness :
  ∃ o, get_high_committable_qc (one_block nop_root nop_b1 true) = Ret o ∧
    ∀ qc, o = Some qc → committable (one_block nop_root nop_b1 true) qc.
Proof.
  destruct (get_high_committable_qc_correct (one_block nop_root nop_b1 true) (nop_one_inv true)) as (o & Hr & Ho & _).
  exists o. split; [exact Hr|]. intros qc Hqc. apply (Ho qc Hqc).
Defined.

Lemma maybe_fill_path_to_root_correct_witness :
  ∃ r, maybe_fill_path_to_root (one_block nop_root nop_b1 true) (nop_qc 5 42) = Ret (Some r) ∧
    bt_get_block (one_block nop_root nop_b1 true) (br_last_block_id r) = None.
Proof.
  destruct (maybe_fill_path_to_root_correct (one_block nop_root nop_b1 true) (nop_qc 5 42)) as (o & Hr & Ho & Hs).
  - apply nop_one_inv.
  - intros id e. rewrite one_block_lookup. intros [_ ->]. change (0 <= 1). lia.
  - change (0 < 5). lia.
  - vm_decide.
  - destruct o as [r|].
    + exists r. split; [exact Hr|]. apply (Hs r eq_refl).
    + exfalso. destruct (proj1 Ho eq_refl) as [path Hp].
      destruct (get_blocks_on_path_spec _ (bi_shape _ (nop_one_inv true)) (qc_block_id (nop_qc 5 42))) as (o & Hq & Hpath).
      rewrite Hp in Hq. injection Hq as <-. destruct (proj1 (Hpath path) eq_refl) as [[Heq _]|Hto].
      * revert Heq. vm_decide.
      * apply one_block_path in Hto as [Heq _]; [|apply nop_b1_ok]. revert Heq. vm_decide.
Defined.

Definition nop_three_chain : exec (option Round * list Round * list Round) :=
  bt ← block_tree_add (block_tree_new nop_root) nop_b3;
  bt ← block_tree_add bt nop_b1;
  bt ← block_tree_add bt nop_b2;
  '(coherent, bt) ← try_update_coherency bt (vb_id nop_b2) tt tt;
  qc ← get_high_committable_qc bt;
  '(committed, _) ← prune bt (vb_id nop_b1);
  Ret (option_map qc_round qc, map vb_block_round coherent, map vb_block_round committed).

Example nop_three_chain_commits : nop_three_chain = Ret (Some 2, [1; 2; 3], [1]).
Proof. vm_decide. Qed.

End witnesses.
