(* ===== verification/Messages.v ===== *)
(** The messages of the consensus protocol
    (src/monad-consensus/src/messages/message.rs and consensus_message.rs) and
    the wrappers that record how far a message has been checked
    (src/monad-consensus/src/validation/signing.rs). *)

From S2P Require Import Prelude Types ValidatorSet Crypto MultiSig ConsensusTypes VoteState.

#[local] Open Scope Z_scope.

Section messages.
Context `{P : Protocol}.

Definition vote_message_new (vote : Vote) (key : CertKeyPair) : VoteMessage :=
  mkVoteMessage vote (cert_sign SD_Vote (vote_digest vote) key).

Definition no_endorsement_message_new (no_endorsement : NoEndorsement) (key : CertKeyPair) :
    NoEndorsementMessage :=
  mkNoEndorsementMessage no_endorsement
    (cert_sign SD_NoEndorsement (no_endorsement_digest no_endorsement) key).

(** [TimeoutMessage] wraps a timeout. *)
Record TimeoutMessage := mkTimeoutMessage { timeout_of : Timeout }.

Definition timeout_message_new (cert_keypair : CertKeyPair) (timeout : TimeoutInfo)
    (high_extend : HighExtend) (last_round_certificate : option RoundCertificate) : TimeoutMessage :=
  mkTimeoutMessage (timeout_new cert_keypair timeout high_extend last_round_certificate).

Record ProposalMessage := mkProposalMessage {
  p_proposal_round : Round;
  p_proposal_epoch : Epoch;
  p_tip : ConsensusTip;
  p_block_body : ConsensusBlockBody;
  p_last_round_tc : option TimeoutCertificate;
}.

Record AdvanceRoundMessage := mkAdvanceRoundMessage { ar_last_round_certificate : RoundCertificate }.

Record RoundRecoveryMessage := mkRoundRecoveryMessage {
  rr_round : Round;
  rr_epoch : Epoch;
  rr_tc : TimeoutCertificate;
}.

Inductive ProtocolMessage :=
| PM_Proposal (m : ProposalMessage)
| PM_Vote (m : VoteMessage)
| PM_Timeout (m : TimeoutMessage)
| PM_RoundRecovery (m : RoundRecoveryMessage)
| PM_NoEndorsement (m : NoEndorsementMessage)
| PM_AdvanceRound (m : AdvanceRoundMessage).

Record ConsensusMessage := mkConsensusMessage { cm_version : Z; cm_message : ProtocolMessage }.

Definition cm_get_round (m : ConsensusMessage) : Round :=
  match cm_message m with
  | PM_Proposal p => p_proposal_round p
  | PM_Vote v => vote_round (vm_vote v)
  | PM_Timeout t => tm_round (t_tminfo (timeout_of t))
  | PM_RoundRecovery r => rr_round r
  | PM_NoEndorsement n => ne_round (nm_msg n)
  | PM_AdvanceRound n => rc_round (ar_last_round_certificate n)
  end.

(** ** Encodings *)

Definition vote_message_rlp (m : VoteMessage) : rlp :=
  RList [vote_rlp (vm_vote m); SignatureType_rlp (vm_sig m)].
Definition no_endorsement_message_rlp (m : NoEndorsementMessage) : rlp :=
  RList [no_endorsement_rlp (nm_msg m); SignatureType_rlp (nm_signature m)].
Definition timeout_message_rlp (m : TimeoutMessage) : rlp := timeout_rlp (timeout_of m).
Definition proposal_message_rlp (m : ProposalMessage) : rlp :=
  RList ([RUint (p_proposal_round m); RUint (p_proposal_epoch m); tip_rlp (p_tip m);
          body_rlp (p_block_body m)] ++ trailing tc_rlp (p_last_round_tc m)).
Definition advance_round_message_rlp (m : AdvanceRoundMessage) : rlp :=
  RList [round_certificate_rlp (ar_last_round_certificate m)].
Definition round_recovery_message_rlp (m : RoundRecoveryMessage) : rlp :=
  RList [RUint (rr_round m); RUint (rr_epoch m); tc_rlp (rr_tc m)].

Definition PROTOCOL_MESSAGE_NAME : bytes := string_bytes "ProtocolMessage".

Definition protocol_message_rlp (m : ProtocolMessage) : rlp :=
  let name := RStr PROTOCOL_MESSAGE_NAME in
  match m with
  | PM_Proposal m => RList [name; RUint 1; proposal_message_rlp m]
  | PM_Vote m => RList [name; RUint 2; vote_message_rlp m]
  | PM_Timeout m => RList [name; RUint 3; timeout_message_rlp m]
  | PM_RoundRecovery m => RList [name; RUint 4; round_recovery_message_rlp m]
  | PM_NoEndorsement m => RList [name; RUint 5; no_endorsement_message_rlp m]
  | PM_AdvanceRound m => RList [name; RUint 6; advance_round_message_rlp m]
  end.

Definition consensus_message_rlp (m : ConsensusMessage) : rlp :=
  RList [RUint (cm_version m); protocol_message_rlp (cm_message m)].

(** ** Checked messages *)

Record Unverified (M : Type) := mkUnverified { uv_obj : M; uv_author_signature : ST }.
Record Verified (M : Type) := mkVerified { vf_author : NodeId; vf_message : Unverified M }.
Record Unvalidated (M : Type) := mkUnvalidated { unvalidated_obj : M }.
Record Validated (M : Type) := mkValidated { validated_message : Unvalidated M }.
Arguments mkUnverified {M} _ _.
Arguments uv_obj {M} _.
Arguments uv_author_signature {M} _.
Arguments mkVerified {M} _ _.
Arguments vf_author {M} _.
Arguments vf_message {M} _.
Arguments mkUnvalidated {M} _.
Arguments unvalidated_obj {M} _.
Arguments mkValidated {M} _.
Arguments validated_message {M} _.

(** [Verified::new]: sign a message as its author. *)
Definition verified_new {M} (encode : M → rlp) (msg : M) (keypair : ST_KeyPair) : Verified M :=
  let rlp_msg := rlp_bytes (encode msg) in
  mkVerified (st_pubkey keypair) (mkUnverified msg (st_sign SD_ConsensusMessage rlp_msg keypair)).

(** [From<Verified<S, Validated<M>>> for Unverified<S, Unvalidated<M>>] *)
Definition unverified_from {M} (v : Verified (Validated M)) : Unverified (Unvalidated M) :=
  mkUnverified (validated_message (uv_obj (vf_message v))) (uv_author_signature (vf_message v)).

(** [ConsensusMessage::sign] *)
Definition consensus_message_sign (m : ConsensusMessage) (keypair : ST_KeyPair) :
    Verified (Validated ConsensusMessage) :=
  verified_new (λ v, consensus_message_rlp (unvalidated_obj (validated_message v)))
    (mkValidated (mkUnvalidated m)) keypair.

(** [into_inner]: the author and the message. *)
Definition verified_into_inner (v : Verified (Validated ConsensusMessage)) : NodeId * ProtocolMessage :=
  (vf_author v, cm_message (unvalidated_obj (validated_message (uv_obj (vf_message v))))).

Definition is_proposal (v : Unverified (Unvalidated ConsensusMessage)) : bool :=
  match cm_message (unvalidated_obj (uv_obj v)) with PM_Proposal _ => true | _ => false end.
End messages.
Arguments mkUnverified {P M} _ _.
Arguments uv_obj {P M} _.
Arguments uv_author_signature {P M} _.
Arguments mkVerified {P M} _ _.
Arguments vf_author {P M} _.
Arguments vf_message {P M} _.
Arguments mkUnvalidated {M} _.
Arguments unvalidated_obj {M} _.
Arguments mkValidated {M} _.
Arguments validated_message {M} _.
