(* ===== verification/Signing.v ===== *)
(** Verifying certificates and validating messages
    (src/monad-consensus/src/validation/signing.rs and certificate_cache.rs).
    Validation threads the certificate cache, may reject with an [Error] and
    may panic; the cache keeps what was put in it when validation rejects. *)

From S2P Require Import Prelude Types ValidatorSet EpochManager LeaderElection Crypto MultiSig.
From S2P Require Import ConsensusTypes VoteState Messages.

#[local] Open Scope Z_scope.

(** [lru::LruCache<Vec<u8>, ()>]: a set of keys that may forget. *)
Class LruCache := {
  lru : Type;
  lru_new : Z → lru;
  lru_put : lru → bytes → lru;
  lru_contains : lru → bytes → bool;
}.

(** A cache contains only keys put in it. *)
Class LruCacheLaws (L : LruCache) := {
  lru_contains_new n k : lru_contains (lru_new n) k = false;
  lru_contains_put c k k' : lru_contains (lru_put c k) k' = true → k' = k ∨ lru_contains c k' = true;
}.

(** * The certificate cache *)

Section cache.
Context `{P : Protocol} `{L : LruCache}.

Record CertificateCache := mkCertificateCache { qc_lru : lru; tc_lru : lru; nec_lru : lru }.

Definition QC_CACHE_CAPACITY : Z := 1000.
Definition TC_CACHE_CAPACITY : Z := 1000.
Definition NEC_CACHE_CAPACITY : Z := 1000.

Definition certificate_cache_default : CertificateCache :=
  mkCertificateCache (lru_new QC_CACHE_CAPACITY) (lru_new TC_CACHE_CAPACITY) (lru_new NEC_CACHE_CAPACITY).

Definition cache_validated_qc (c : CertificateCache) (qc : QuorumCertificate) : CertificateCache :=
  mkCertificateCache (lru_put (qc_lru c) (rlp_bytes (qc_rlp qc))) (tc_lru c) (nec_lru c).
Definition qc_is_cached_validated (c : CertificateCache) (qc : QuorumCertificate) : bool :=
  lru_contains (qc_lru c) (rlp_bytes (qc_rlp qc)).
Definition cache_validated_tc (c : CertificateCache) (tc : TimeoutCertificate) : CertificateCache :=
  mkCertificateCache (qc_lru c) (lru_put (tc_lru c) (rlp_bytes (tc_rlp tc))) (nec_lru c).
Definition tc_is_cached_validated (c : CertificateCache) (tc : TimeoutCertificate) : bool :=
  lru_contains (tc_lru c) (rlp_bytes (tc_rlp tc)).
Definition cache_validated_nec (c : CertificateCache) (nec : NoEndorsementCertificate) : CertificateCache :=
  mkCertificateCache (qc_lru c) (tc_lru c) (lru_put (nec_lru c) (rlp_bytes (nec_rlp nec))).
Definition nec_is_cached_validated (c : CertificateCache) (nec : NoEndorsementCertificate) : bool :=
  lru_contains (nec_lru c) (rlp_bytes (nec_rlp nec)).

(** ** Validation with a cache *)

Definition validation (A : Type) : Type := CertificateCache → exec (result A ValidationError * CertificateCache).

Definition v_ret {A} (a : A) : validation A := λ c, Ret (Ok a, c).
Definition v_err {A} (e : ValidationError) : validation A := λ c, Ret (Err e, c).
(** [m?] *)
Definition v_bind {A B} (m : validation A) (f : A → validation B) : validation B := λ c,
  match m c with
  | Ret (Ok a, c) => f a c
  | Ret (Err e, c) => Ret (Err e, c)
  | Panic => Panic
  | OutOfFuel => OutOfFuel
  end.
(** Code that does not touch the cache. *)
Definition v_exec {A} (m : exec A) : validation A := λ c, a ← m; Ret (Ok a, c).
Definition v_try {A} (m : exec (result A ValidationError)) : validation A := λ c, r ← m; Ret (r, c).
Definition v_result {A} (r : result A ValidationError) : validation A := λ c, Ret (r, c).
Definition v_modify (f : CertificateCache → CertificateCache) : validation unit := λ c, Ret (Ok tt, f c).
(** [if b { return Err(e) }] *)
Definition v_reject_if (b : bool) (e : ValidationError) : validation unit := if b then v_err e else v_ret tt.
End cache.

Notation "'let?' x := m 'in' k" := (v_bind m (λ x, k))
  (at level 200, x name, m at level 100, k at level 200, only parsing).
Notation "'let?' ' p := m 'in' k" := (v_bind m (λ x, match x with p => k end))
  (at level 200, p pattern, m at level 100, k at level 200, only parsing).

(** [map_err(|_| e)] *)
Definition map_err {A E E'} (r : result A E) (e : E') : result A E' :=
  match r with Ok a => Ok a | Err _ => Err e end.

(** * Verifying certificates *)

Section verify.
Context `{P : Protocol} `{L : LruCache}.
Context {VT : Type} `{ValidatorSetType VT}.

(** The type of the [epoch_to_validators] closures. *)
Definition EpochToValidators : Type :=
  Epoch → Round → exec (result (VT * ValidatorMapping * NodeId) ValidationError).

Definition epoch_to_validators `{LT : LeaderElection} (epoch_manager : EpochManager)
    (val_epoch_map : ValidatorsEpochMapping VT) : EpochToValidators := λ epoch round,
  e <-? Ret (ok_or (get_epoch epoch_manager round) InvalidEpoch);
  if bool_decide (epoch ≠ e) then Ret (Err InvalidEpoch) else
  validator_set <-? Ret (ok_or (get_val_set val_epoch_map epoch) ValidatorSetDataUnavailable);
  validator_cert_pubkeys <-? Ret (ok_or (get_cert_pubkeys val_epoch_map epoch) ValidatorSetDataUnavailable);
  leader ← get_leader round (get_members validator_set);
  Ret (Ok (validator_set, validator_cert_pubkeys, leader)).

Context (etv : EpochToValidators).

(** [match validators.has_super_majority_votes(&node_ids) { .. }?] *)
Definition require_super_majority (validators : VT) (node_ids : list NodeId) : validation unit :=
  v_try (r ← has_super_majority_votes validators node_ids;
         Ret (match r with
              | Err (DuplicateValidator _) => Err SignaturesDuplicateNode
              | Ok false => Err InsufficientStake
              | Ok true => Ok tt
              end)).

Definition verify_qc (qc : QuorumCertificate) : validation unit := λ cert_cache,
  if qc_is_cached_validated cert_cache qc then Ret (Ok tt, cert_cache) else
  (let? '(validators, validator_mapping, _) := v_try (etv (qc_epoch qc) (qc_round qc)) in
   if bool_decide (qc_round qc = GENESIS_ROUND) then
     let? genesis := v_exec genesis_qc in
     v_reject_if (bool_decide (qc ≠ genesis)) InvalidSignature
   else
   let? node_ids := v_result (map_err (sct_verify SD_Vote (qc_signatures qc) validator_mapping
                                         (vote_digest (qc_info qc))) InvalidSignature) in
   let? _ := require_super_majority validators node_ids in
   v_modify (λ c, cache_validated_qc c qc)) cert_cache.

Definition verify_nec (nec : NoEndorsementCertificate) : validation unit := λ cert_cache,
  if nec_is_cached_validated cert_cache nec then Ret (Ok tt, cert_cache) else
  (let? '(validators, validator_mapping, _) :=
     v_try (etv (ne_epoch (nec_msg nec)) (ne_round (nec_msg nec))) in
   let? node_ids := v_result (map_err (sct_verify SD_NoEndorsement (nec_signatures nec) validator_mapping
                                         (no_endorsement_digest (nec_msg nec))) InvalidSignature) in
   let? _ := require_super_majority validators node_ids in
   v_modify (λ c, cache_validated_nec c nec)) cert_cache.

(** What the loop of [verify_tc] over [tip_rounds] accumulates. *)
Record TipRounds := mkTipRounds {
  tr_node_ids : list NodeId;
  tr_highest_qc_round : Round;
  tr_highest_tip_round : Round;
  tr_seen_tip_rounds : gset (Round * Round);
  tr_seen_node_ids : gset NodeId;
}.

(** The loop over the signers of one collection: [None] on a node seen before. *)
Fixpoint insert_signers (seen : gset NodeId) (signers : list NodeId) : option (gset NodeId) :=
  match signers with
  | [] => Some seen
  | signer :: signers =>
      if decide (signer ∈ seen) then None else insert_signers ({[ signer ]} ∪ seen) signers
  end.

Fixpoint verify_tip_rounds (epoch : Epoch) (round : Round) (validator_mapping : ValidatorMapping)
    (tip_rounds : list HighTipRoundSigColTuple) (st : TipRounds) : result TipRounds ValidationError :=
  match tip_rounds with
  | [] => Ok st
  | t :: tip_rounds =>
      let rounds := (htr_high_qc_round t, htr_high_tip_round t) in
      if bool_decide (htr_high_qc_round t >= round) then Err InvalidTcRound
      else if decide (rounds ∈ tr_seen_tip_rounds st) then Err DuplicateTcTipRound
      else
        let td := mkTimeoutInfo epoch round (htr_high_qc_round t) (htr_high_tip_round t) in
        match sct_verify SD_Timeout (htr_sigs t) validator_mapping (timeout_digest td) with
        | Err _ => Err InvalidSignature
        | Ok signers =>
            match insert_signers (tr_seen_node_ids st) signers with
            | None => Err SignaturesDuplicateNode
            | Some seen_node_ids =>
                verify_tip_rounds epoch round validator_mapping tip_rounds
                  (mkTipRounds (tr_node_ids st ++ signers)
                     (if bool_decide (htr_high_qc_round t > tr_highest_qc_round st)
                      then htr_high_qc_round t else tr_highest_qc_round st)
                     (if bool_decide (htr_high_tip_round t > tr_highest_tip_round st)
                      then htr_high_tip_round t else tr_highest_tip_round st)
                     ({[ rounds ]} ∪ tr_seen_tip_rounds st)
                     seen_node_ids)
            end
        end
  end.

(** The last check of [verify_tc]: the certificate extends the highest round its
    signers saw. *)
Definition check_high_extend (high_extend : HighExtend) (highest_qc_round highest_tip_round : Round) :
    validation unit :=
  match high_extend with
  | HE_Qc qc =>
      let? _ := v_reject_if (bool_decide (qc_round qc ≠ highest_qc_round)) NotWellFormed in
      v_reject_if (bool_decide (highest_tip_round > highest_qc_round)) NotWellFormed
  | HE_Tip tip =>
      let? _ := v_reject_if (bool_decide (h_block_round (tip_block_header tip) ≠ highest_tip_round))
                  NotWellFormed in
      v_reject_if (bool_decide (highest_qc_round >= highest_tip_round)) NotWellFormed
  end.

(** [verify_tc], given [verify_high_extend]. *)
Definition verify_tc_using (verify_high_extend : HighExtend → validation unit)
    (tc : TimeoutCertificate) : validation unit := λ cert_cache,
  if tc_is_cached_validated cert_cache tc then Ret (Ok tt, cert_cache) else
  (let? '(validators, validator_mapping, _) := v_try (etv (tc_epoch tc) (tc_round tc)) in
   let? st := v_result (verify_tip_rounds (tc_epoch tc) (tc_round tc) validator_mapping (tc_tip_rounds tc)
                          (mkTipRounds [] GENESIS_ROUND GENESIS_ROUND ∅ ∅)) in
   let? _ := require_super_majority validators (tr_node_ids st) in
   let? _ := verify_high_extend (tc_high_extend tc) in
   let? _ := check_high_extend (tc_high_extend tc) (tr_highest_qc_round st) (tr_highest_tip_round st) in
   v_modify (λ c, cache_validated_tc c tc)) cert_cache.

(** [verify_tip], given [verify_tc]. *)
Definition verify_tip_using (verify_tc : TimeoutCertificate → validation unit)
    (tip : ConsensusTip) : validation unit :=
  let h := tip_block_header tip in
  let? '(_, _, leader) := v_try (etv (h_epoch h) (h_block_round h)) in
  let? tip_author := v_result (ok_or (tip_signature_author tip) InvalidSignature) in
  let? _ := v_reject_if (bool_decide (tip_author ≠ leader) || bool_decide (tip_author ≠ h_author h))
              InvalidAuthor in
  let? _ := verify_qc (h_qc h) in
  let? _ := match tip_fresh_certificate tip with
            | Some (FPC_Nec nec) => verify_nec nec
            | Some (FPC_NoTip nt) =>
                verify_tc (mkTC (nt_epoch nt) (nt_round nt) (nt_tip_rounds nt) (HE_Qc (nt_high_qc nt)))
            | None => v_ret tt
            end in
  let? next := v_exec (round_add (qc_round (h_qc h)) 1) in
  if bool_decide (h_block_round h = next) then
    v_reject_if (bool_decide (is_Some (tip_fresh_certificate tip))) NotWellFormed
  else
    match tip_fresh_certificate tip with
    | None => v_err NotWellFormed
    | Some (FPC_Nec nec) =>
        let? _ := v_reject_if (bool_decide (ne_round (nec_msg nec) ≠ h_block_round h)) NotWellFormed in
        v_reject_if (bool_decide (ne_tip_qc_round (nec_msg nec) ≠ qc_round (h_qc h))) NotWellFormed
    | Some (FPC_NoTip nt) =>
        let? next := v_exec (round_add (nt_round nt) 1) in
        let? _ := v_reject_if (bool_decide (next ≠ h_block_round h)) NotWellFormed in
        v_reject_if (bool_decide (qc_round (nt_high_qc nt) ≠ qc_round (h_qc h))) NotWellFormed
    end.

Definition verify_high_extend_using (verify_tc : TimeoutCertificate → validation unit)
    (high_extend : HighExtend) : validation unit :=
  match high_extend with
  | HE_Qc qc => verify_qc qc
  | HE_Tip tip => verify_tip_using verify_tc tip
  end.

(** The recursion of [verify_tc], [verify_high_extend] and [verify_tip]; a
    certificate inside a tip extends a QC, so depth two is enough. *)
Fixpoint verify_tc_fuel (fuel : nat) (tc : TimeoutCertificate) : validation unit :=
  match fuel with
  | O => λ _, OutOfFuel
  | S fuel => verify_tc_using (verify_high_extend_using (verify_tc_fuel fuel)) tc
  end.

Definition verify_tc : TimeoutCertificate → validation unit := verify_tc_fuel 2.
Definition verify_tip : ConsensusTip → validation unit := verify_tip_using (verify_tc_fuel 1).
Definition verify_high_extend : HighExtend → validation unit := verify_high_extend_using (verify_tc_fuel 1).
End verify.

(** * Validating messages *)

Section validate.
Context `{P : Protocol} `{L : LruCache}.
Context {VT : Type} `{ValidatorSetType VT} `{LT : LeaderElection}.
Context (epoch_manager : EpochManager) (val_epoch_map : ValidatorsEpochMapping VT).

Definition etv : EpochToValidators := epoch_to_validators epoch_manager val_epoch_map.

(** [verify_epoch] of every message. *)
Definition verify_epoch (round : Round) (epoch : Epoch) : result unit ValidationError :=
  match get_epoch epoch_manager round with
  | Some e => if bool_decide (epoch = e) then Ok tt else Err InvalidEpoch
  | None => Err InvalidEpoch
  end.

Definition verify_round_certificate (c : RoundCertificate) : validation unit :=
  match c with
  | RC_Tc tc => verify_tc etv tc
  | RC_Qc qc => verify_qc etv qc
  end.

Definition well_formed_proposal (m : ProposalMessage) : exec (result unit ValidationError) :=
  let h := tip_block_header (p_tip m) in
  if bool_decide (h_block_body_id h ≠ body_get_id (p_block_body m)) then Ret (Err NotWellFormed) else
  next ← round_add (qc_round (h_qc h)) 1;
  if bool_decide (p_proposal_round m = next) then
    Ret (if bool_decide (is_Some (p_last_round_tc m)) then Err NotWellFormed else Ok tt)
  else
    Ret (match p_last_round_tc m with
         | None => Err NotWellFormed
         | Some tc =>
             match tc_high_extend tc with
             | HE_Qc tc_qc =>
                 if bool_decide (qc_round tc_qc ≠ qc_round (h_qc h)) then Err NotWellFormed else Ok tt
             | HE_Tip tc_tip =>
                 if bool_decide (tc_tip = p_tip m) then Ok tt
                 else if bool_decide (p_proposal_round m ≠ h_block_round h) then Err NotWellFormed
                 else if bool_decide (qc_round (h_qc (tip_block_header tc_tip)) ≠ qc_round (h_qc h))
                 then Err NotWellFormed
                 else Ok tt
             end
         end).

Definition proposal_validate (m : ProposalMessage) : validation unit :=
  let? _ := match p_last_round_tc m with
            | Some tc =>
                let? _ := verify_tc etv tc in
                let? next := v_exec (round_add (tc_round tc) 1) in
                v_reject_if (bool_decide (p_proposal_round m ≠ next)) NotWellFormed
            | None => v_ret tt
            end in
  let? _ := verify_tip etv (p_tip m) in
  let? _ := v_try (well_formed_proposal m) in
  v_result (verify_epoch (p_proposal_round m) (p_proposal_epoch m)).

Definition vote_validate (m : VoteMessage) : validation unit :=
  let? _ := v_reject_if (negb (cert_validate (vm_sig m))) InvalidSignature in
  v_result (verify_epoch (vote_round (vm_vote m)) (vote_epoch (vm_vote m))).

Definition well_formed_timeout (m : TimeoutMessage) : exec (result unit ValidationError) :=
  let timeout := timeout_of m in
  next ← round_add (qc_round (high_extend_vote_qc (t_high_extend timeout))) 1;
  Ret (if bool_decide (tm_round (t_tminfo timeout) = next) then
         if bool_decide (is_Some (t_last_round_certificate timeout)) then Err NotWellFormed else Ok tt
       else
         match t_last_round_certificate timeout with
         | None => Err NotWellFormed
         | Some _ => Ok tt
         end).

Definition timeout_validate (m : TimeoutMessage) : validation unit :=
  let timeout := timeout_of m in
  let tminfo := t_tminfo timeout in
  let? _ := v_reject_if (negb (cert_validate (t_timeout_signature timeout))) InvalidSignature in
  let? _ := match t_last_round_certificate timeout with
            | Some round_certificate =>
                let? _ := verify_round_certificate round_certificate in
                let? next := v_exec (round_add (rc_round round_certificate) 1) in
                v_reject_if (bool_decide (tm_round tminfo ≠ next)) NotWellFormed
            | None => v_ret tt
            end in
  let? _ := verify_high_extend etv (high_extend_from (t_high_extend timeout)) in
  let? _ := match t_high_extend timeout with
            | HEV_Qc qc =>
                let? _ := v_reject_if (bool_decide (tm_high_tip_round tminfo ≠ GENESIS_ROUND)) NotWellFormed in
                v_reject_if (bool_decide (tm_high_qc_round tminfo ≠ qc_round qc)) NotWellFormed
            | HEV_Tip tip _ =>
                let r := h_block_round (tip_block_header tip) in
                let? _ := v_reject_if (bool_decide (tm_high_tip_round tminfo ≠ r)) NotWellFormed in
                v_reject_if (bool_decide (tm_high_qc_round tminfo >= r)) NotWellFormed
            end in
  let? _ := v_try (well_formed_timeout m) in
  v_result (verify_epoch (tm_round tminfo) (tm_epoch tminfo)).

Definition well_formed_round_recovery (m : RoundRecoveryMessage) : exec (result unit ValidationError) :=
  next ← round_add (tc_round (rr_tc m)) 1;
  Ret (if bool_decide (rr_round m ≠ next) then Err InvalidTcRound else
       match tc_high_extend (rr_tc m) with HE_Qc _ => Err NotWellFormed | HE_Tip _ => Ok tt end).

Definition round_recovery_validate (m : RoundRecoveryMessage) : validation unit :=
  let? _ := verify_tc etv (rr_tc m) in
  let? _ := v_try (well_formed_round_recovery m) in
  v_result (verify_epoch (rr_round m) (rr_epoch m)).

Definition no_endorsement_validate (m : NoEndorsementMessage) : validation unit :=
  v_result (verify_epoch (ne_round (nm_msg m)) (ne_epoch (nm_msg m))).

Definition advance_round_validate (m : AdvanceRoundMessage) : validation unit :=
  verify_round_certificate (ar_last_round_certificate m).

(** [Verified::<Unvalidated<ConsensusMessage>>::validate] *)
Definition validate (v : Verified (Unvalidated ConsensusMessage)) (client_version : Z) :
    validation (Verified (Validated ConsensusMessage)) :=
  let msg := unvalidated_obj (uv_obj (vf_message v)) in
  if bool_decide (cm_version msg ≠ client_version) then v_err InvalidVersion else
  let? _ := match cm_message msg with
            | PM_Proposal m => proposal_validate m
            | PM_Vote m => vote_validate m
            | PM_Timeout m => timeout_validate m
            | PM_RoundRecovery m => round_recovery_validate m
            | PM_NoEndorsement m => no_endorsement_validate m
            | PM_AdvanceRound m => advance_round_validate m
            end in
  v_ret (mkVerified (vf_author v)
           (mkUnverified (mkValidated (mkUnvalidated msg)) (uv_author_signature (vf_message v)))).

(** ** Verifying the author *)

(** [ValidatorPubKey::valid_pubkey] *)
Definition valid_pubkey (pk : PubKey) (validators : gmap NodeId Stake) : result PubKey ValidationError :=
  if bool_decide (is_Some (validators !! pk)) then Ok pk else Err InvalidAuthor.

(** [Unverified::verify]: the author is the validator whose key signed. *)
Definition unverified_verify (u : Unverified (Unvalidated ConsensusMessage)) :
    result (Verified (Unvalidated ConsensusMessage)) ValidationError :=
  let obj := unvalidated_obj (uv_obj u) in
  match get_epoch epoch_manager (cm_get_round obj) with
  | None => Err InvalidEpoch
  | Some epoch =>
      match get_val_set val_epoch_map epoch with
      | None => Err ValidatorSetDataUnavailable
      | Some validator_set =>
          match st_recover_pubkey SD_ConsensusMessage (rlp_bytes (consensus_message_rlp obj))
                  (uv_author_signature u) with
          | None => Err InvalidSignature
          | Some pk =>
              match valid_pubkey pk (get_members validator_set) with
              | Err e => Err e
              | Ok author => Ok (mkVerified author u)
              end
          end
      end
  end.
End validate.
