(* ===== verification/SigningProps.v ===== *)
(** What verification and validation of certificates and messages decide:
    declarative validity of certificates, the soundness of the certificate
    cache, and agreement of quorum certificates. *)

From S2P Require Import Prelude Types ValidatorSet EpochManager LeaderElection Crypto MultiSig.
From S2P Require Import ConsensusTypes ChainConfig Safety Pacemaker VoteState Messages Signing.

#[local] Open Scope Z_scope.

(** RLP encodings of certificates are unambiguous: [alloy_rlp] decodes what it
    encodes. *)
Class EncodingLaws (P : Protocol) := {
  #[global] qc_bytes_inj :: Inj (=) (=) (λ qc : QuorumCertificate, rlp_bytes (qc_rlp qc));
  #[global] tc_bytes_inj :: Inj (=) (=) (λ tc : TimeoutCertificate, rlp_bytes (tc_rlp tc));
  #[global] nec_bytes_inj :: Inj (=) (=) (λ nec : NoEndorsementCertificate, rlp_bytes (nec_rlp nec));
}.

Section valid.
Context `{P : Protocol} {VT : Type} `{ValidatorSetType VT}.
Context (etv : EpochToValidators (VT := VT)).

(** * Validity *)

(** A super majority of the validators of the round signed [msg]. *)
Definition quorum_signed (d : SigningDomain) (epoch : Epoch) (round : Round) (sc : SCT) (msg : bytes) : Prop :=
  ∃ vs vm leader nodes, etv epoch round = Ret (Ok (vs, vm, leader)) ∧
    sct_verify d sc vm msg = Ok nodes ∧ has_super_majority_votes vs nodes = Ret (Ok true).

Definition qc_valid (qc : QuorumCertificate) : Prop :=
  if bool_decide (qc_round qc = GENESIS_ROUND)
  then genesis_qc = Ret qc ∧ ∃ x, etv (qc_epoch qc) (qc_round qc) = Ret (Ok x)
  else quorum_signed SD_Vote (qc_epoch qc) (qc_round qc) (qc_signatures qc) (vote_digest (qc_info qc)).

Definition nec_valid (nec : NoEndorsementCertificate) : Prop :=
  quorum_signed SD_NoEndorsement (ne_epoch (nec_msg nec)) (ne_round (nec_msg nec)) (nec_signatures nec)
    (no_endorsement_digest (nec_msg nec)).

Definition highest (f : HighTipRoundSigColTuple → Round) (l : list HighTipRoundSigColTuple) : Round :=
  foldl (λ m t, Z.max m (f t)) GENESIS_ROUND l.

(** A super majority signed timeouts of the round, one each, all of them from
    lower certificates. *)
Definition tc_signed (tc : TimeoutCertificate) : Prop :=
  ∃ vs vm leader signers, etv (tc_epoch tc) (tc_round tc) = Ret (Ok (vs, vm, leader)) ∧
    tip_rounds_signers vm (tc_epoch tc) (tc_round tc) (tc_tip_rounds tc) signers ∧
    NoDup (concat signers) ∧ has_super_majority_votes vs (concat signers) = Ret (Ok true) ∧
    NoDup (htr_rounds <$> tc_tip_rounds tc) ∧
    ∀ t, t ∈ tc_tip_rounds tc → htr_high_qc_round t < tc_round tc.

(** The certificate extends the highest of what its signers reported. *)
Definition extends_highest (tc : TimeoutCertificate) : Prop :=
  let hq := highest htr_high_qc_round (tc_tip_rounds tc) in
  let ht := highest htr_high_tip_round (tc_tip_rounds tc) in
  match tc_high_extend tc with
  | HE_Qc qc => qc_round qc = hq ∧ ht <= hq
  | HE_Tip tip => h_block_round (tip_block_header tip) = ht ∧ hq < ht
  end.

Definition tc_valid_using (high_extend_valid : HighExtend → Prop) (tc : TimeoutCertificate) : Prop :=
  tc_signed tc ∧ high_extend_valid (tc_high_extend tc) ∧ extends_highest tc.

Definition no_tip_tc (nt : NoTipCertificate) : TimeoutCertificate :=
  mkTC (nt_epoch nt) (nt_round nt) (nt_tip_rounds nt) (HE_Qc (nt_high_qc nt)).

(** A tip is signed by the leader of its round, its author, and it extends the
    QC of the round before or has a certificate that allows it not to. *)
Definition tip_valid (tip : ConsensusTip) : Prop :=
  let h := tip_block_header tip in
  (∃ vs vm leader, etv (h_epoch h) (h_block_round h) = Ret (Ok (vs, vm, leader)) ∧
     tip_signature_author tip = Some leader ∧ h_author h = leader) ∧
  qc_valid (h_qc h) ∧
  match tip_fresh_certificate tip with
  | None => h_block_round h = qc_round (h_qc h) + 1
  | Some (FPC_Nec nec) =>
      nec_valid nec ∧ h_block_round h ≠ qc_round (h_qc h) + 1 ∧
      ne_round (nec_msg nec) = h_block_round h ∧ ne_tip_qc_round (nec_msg nec) = qc_round (h_qc h)
  | Some (FPC_NoTip nt) =>
      tc_valid_using (λ he, he = HE_Qc (nt_high_qc nt) ∧ qc_valid (nt_high_qc nt)) (no_tip_tc nt) ∧
      h_block_round h ≠ qc_round (h_qc h) + 1 ∧
      nt_round nt + 1 = h_block_round h ∧ qc_round (nt_high_qc nt) = qc_round (h_qc h)
  end.

Definition high_extend_valid (he : HighExtend) : Prop :=
  match he with HE_Qc qc => qc_valid qc | HE_Tip tip => tip_valid tip end.

Definition tc_valid : TimeoutCertificate → Prop := tc_valid_using high_extend_valid.

Context `{L : LruCache}.

(** * The cache *)

(** Everything in the cache is valid. *)
Record cache_sound (c : CertificateCache) : Prop := {
  cs_qc qc : qc_is_cached_validated c qc = true → qc_valid qc;
  cs_tc tc : tc_is_cached_validated c tc = true → tc_valid tc;
  cs_nec nec : nec_is_cached_validated c nec = true → nec_valid nec;
}.

Lemma certificate_cache_default_sound `{!LruCacheLaws L} : cache_sound certificate_cache_default.
Proof.
  constructor; intros ?; unfold qc_is_cached_validated, tc_is_cached_validated, nec_is_cached_validated;
    simpl; by rewrite lru_contains_new.
Qed.

(** [m] returns on every sound cache, keeps it sound and accepts exactly when [Q]. *)
Definition decides (m : validation unit) (Q : Prop) : Prop :=
  ∀ c, cache_sound c → ∃ r c', m c = Ret (r, c') ∧ cache_sound c' ∧ (r = Ok tt ↔ Q).

Lemma decides_iff m Q Q' : (Q ↔ Q') → decides m Q → decides m Q'.
Proof. intros HQ Hm c Hc. destruct (Hm c Hc) as (r & c' & ? & ? & Hr). exists r, c'. by rewrite <-HQ. Qed.

Lemma decides_ret : decides (v_ret tt) True.
Proof. intros c Hc. by exists (Ok tt), c. Qed.

Lemma decides_err e : decides (v_err e) False.
Proof. intros c Hc. by exists (Err e), c. Qed.

Lemma decides_reject_if b e : decides (v_reject_if b e) (b = false).
Proof. destruct b; [eapply decides_iff, decides_err|eapply decides_iff, decides_ret]; done. Qed.

Lemma decides_seq m1 m2 Q1 Q2 :
  decides m1 Q1 → (Q1 → decides m2 Q2) → decides (v_bind m1 (λ _, m2)) (Q1 ∧ Q2).
Proof.
  intros H1 H2 c Hc. destruct (H1 c Hc) as (r & c1 & Hm1 & Hc1 & Hr). unfold v_bind. rewrite Hm1.
  destruct r as [[]|e].
  - destruct (H2 (proj1 Hr eq_refl) c1 Hc1) as (r2 & c2 & -> & Hc2 & Hr2). exists r2, c2.
    split_and!; [done|done|]. rewrite Hr2. tauto.
  - exists (Err e), c1. split_and!; [done|done|]. split; [done|]. intros [?%Hr _]. done.
Qed.

Lemma decides_result {A} (r : result A ValidationError) (f : A → validation unit) Q :
  (∀ a, r = Ok a → decides (f a) (Q a)) → decides (v_bind (v_result r) f) (∃ a, r = Ok a ∧ Q a).
Proof.
  intros Hf. destruct r as [a|e].
  - eapply decides_iff; [|by apply (Hf a)]. naive_solver.
  - eapply decides_iff; [|apply (decides_err e)]. naive_solver.
Qed.

Lemma decides_try {A} (m : exec (result A ValidationError)) r (f : A → validation unit) Q :
  m = Ret r → (∀ a, r = Ok a → decides (f a) (Q a)) →
  decides (v_bind (v_try m) f) (∃ a, m = Ret (Ok a) ∧ Q a).
Proof.
  intros -> Hf. eapply decides_iff; [|exact (decides_result r f Q Hf)]. naive_solver.
Qed.

Lemma decides_try_unit (m : exec (result unit ValidationError)) r :
  m = Ret r → decides (v_try m) (m = Ret (Ok tt)).
Proof.
  intros -> c Hc. exists r, c. split_and!; [done|done|naive_solver].
Qed.

Lemma decides_exec {A} (m : exec A) a (f : A → validation unit) Q :
  m = Ret a → decides (f a) Q → decides (v_bind (v_exec m) f) Q.
Proof. intros ->. done. Qed.

Lemma decides_modify f : (∀ c, cache_sound c → cache_sound (f c)) → decides (v_modify f) True.
Proof. intros Hf c Hc. exists (Ok tt), (f c). split_and!; auto. done. Qed.
End valid.

(** * Verification decides validity *)

Section decide.
Context `{P : Protocol} `{!SignatureCollectionLaws P} `{!EncodingLaws P}.
Context {VT : Type} `{ValidatorSetLaws VT} `{L : LruCache} `{!LruCacheLaws L}.
Context (etv : EpochToValidators (VT := VT)).

(** The lookup of validators returns, and finds well-formed sets. *)
Definition etv_ok : Prop :=
  ∀ e r, ∃ x, etv e r = Ret x ∧ ∀ vs vm leader, x = Ok (vs, vm, leader) → vs_wf vs.

(** The certificates of a tip are not for the last round a [u64] can hold. *)
Definition tip_in_range (tip : ConsensusTip) : Prop :=
  qc_round (h_qc (tip_block_header tip)) < u64_max ∧
  ∀ nt, tip_fresh_certificate tip = Some (FPC_NoTip nt) → nt_round nt < u64_max.
Definition high_extend_in_range (he : HighExtend) : Prop :=
  match he with HE_Qc _ => True | HE_Tip tip => tip_in_range tip end.

Context (Hetv : etv_ok).
Notation decides := (decides etv).

Lemma cache_qc_sound c qc : cache_sound etv c → qc_valid etv qc → cache_sound etv (cache_validated_qc c qc).
Proof.
  intros [Hqc Htc Hnec] Hv. constructor; [|exact Htc|exact Hnec].
  intros qc' [Heq|?]%lru_contains_put; [|by apply Hqc]. by apply (inj (λ q, rlp_bytes (qc_rlp q))) in Heq as ->.
Qed.

Lemma cache_tc_sound c tc : cache_sound etv c → tc_valid etv tc → cache_sound etv (cache_validated_tc c tc).
Proof.
  intros [Hqc Htc Hnec] Hv. constructor; [exact Hqc| |exact Hnec].
  intros tc' [Heq|?]%lru_contains_put; [|by apply Htc]. by apply (inj (λ t, rlp_bytes (tc_rlp t))) in Heq as ->.
Qed.

Lemma cache_nec_sound c nec : cache_sound etv c → nec_valid etv nec → cache_sound etv (cache_validated_nec c nec).
Proof.
  intros [Hqc Htc Hnec] Hv. constructor; [exact Hqc|exact Htc|].
  intros nec' [Heq|?]%lru_contains_put; [|by apply Hnec]. by apply (inj (λ n, rlp_bytes (nec_rlp n))) in Heq as ->.
Qed.

(** A cached answer is skipped over; the rest decides. *)
Lemma decides_cached (b : CertificateCache → bool) m Q :
  (∀ c, cache_sound etv c → b c = true → Q) → decides m Q →
  decides (λ c, if b c then Ret (Ok tt, c) else m c) Q.
Proof.
  intros Hb Hm c Hc. destruct (b c) eqn:Hbc; [|by apply Hm].
  exists (Ok tt), c. split_and!; [done|done|]. split; [|done]. intros _. by eapply Hb.
Qed.

Lemma require_super_majority_decides vs nodes :
  vs_wf vs → NoDup nodes →
  decides (require_super_majority vs nodes) (has_super_majority_votes vs nodes = Ret (Ok true)).
Proof.
  intros Hvs Hnd. unfold require_super_majority. rewrite has_super_majority_votes_spec by done. simpl.
  eapply decides_iff; [|by eapply decides_try_unit]. case_bool_decide; naive_solver.
Qed.

(** The three lines shared by the certificates over one message. *)
Lemma quorum_signed_decides d epoch round sc msg f :
  (∀ c, cache_sound etv c → quorum_signed etv d epoch round sc msg → cache_sound etv (f c)) →
  decides (let? '(validators, validator_mapping, _) := v_try (etv epoch round) in
           let? node_ids := v_result (map_err (sct_verify d sc validator_mapping msg) InvalidSignature) in
           let? _ := require_super_majority validators node_ids in
           v_modify f) (quorum_signed etv d epoch round sc msg).
Proof.
  intros Hf. destruct (Hetv epoch round) as (x & Hx & Hwf).
  eapply decides_iff; [|eapply (decides_try etv _ x _ (λ y, ∃ nodes,
    map_err (sct_verify d sc y.1.2 msg) InvalidSignature = Ok nodes ∧
    has_super_majority_votes y.1.1 nodes = Ret (Ok true) ∧ True)); [exact Hx|]].
  - unfold quorum_signed. rewrite Hx. split.
    + intros ([[vs vm] leader] & ? & nodes & Hn & Hs & _). exists vs, vm, leader, nodes. split_and!; [done| |done].
      simpl in Hn. by destruct (sct_verify d sc vm msg); simplify_eq/=.
    + intros (vs & vm & leader & nodes & ? & Hn & Hs). exists (vs, vm, leader). split; [done|].
      exists nodes. simpl. by rewrite Hn.
  - intros [[vs vm] leader] ->. simpl. apply (decides_result etv). intros nodes Hn.
    destruct (sct_verify d sc vm msg) as [nodes'|] eqn:Hv; simplify_eq/=.
    apply decides_seq; [apply require_super_majority_decides; [by eapply Hwf|by eapply sct_verify_sound]|].
    intros Hs. apply decides_modify. intros c Hc. apply Hf; [done|]. exists vs, vm, leader, nodes. by rewrite Hx.
Qed.

Lemma verify_nec_decides nec : decides (verify_nec etv nec) (nec_valid etv nec).
Proof.
  apply decides_cached; [intros c Hc; apply (cs_nec _ _ Hc)|]. apply quorum_signed_decides.
  intros c Hc Hq. by apply cache_nec_sound.
Qed.

Lemma verify_qc_decides qc : decides (verify_qc etv qc) (qc_valid etv qc).
Proof.
  apply decides_cached; [intros c Hc; apply (cs_qc _ _ Hc)|].
  unfold qc_valid. case_bool_decide as Hg.
  - destruct (Hetv (qc_epoch qc) (qc_round qc)) as (x & Hx & _).
    destruct genesis_qc_ok as (g & Hgen & _).
    eapply decides_iff; [|eapply (decides_try etv _ x _ (λ _, genesis_qc = Ret qc)); [exact Hx|]].
    + naive_solver.
    + intros [[vs vm] leader] _. eapply decides_exec; [exact Hgen|].
      eapply decides_iff; [|apply decides_reject_if]. rewrite Hgen, bool_decide_eq_false. split.
      * intros Hq. f_equal. symmetry. by apply dec_stable.
      * intros [= ->]. tauto.
  - apply quorum_signed_decides. intros c Hc Hq. apply cache_qc_sound; [done|].
    unfold qc_valid. by rewrite bool_decide_false.
Qed.
(** ** Timeout certificates *)

Lemma insert_signers_Some seen l s :
  insert_signers seen l = Some s ↔ NoDup l ∧ (∀ n, n ∈ l → n ∉ seen) ∧ s = list_to_set l ∪ seen.
Proof.
  revert seen. induction l as [|n l IH]; intros seen; simpl.
  - rewrite (left_id_L ∅ (∪)). split; [|naive_solver].
    intros [= ->]. split_and!; [apply NoDup_nil_2|set_solver|done].
  - case_decide as Hn; [split; [done|set_solver]|]. rewrite IH, NoDup_cons. split.
    + intros (Hnd & Hall & ->). split_and!; [set_solver|done|set_solver|set_solver].
    + intros ((Hnl & Hnd) & Hall & ->). split_and!; [done|set_solver|set_solver].
Qed.

(** What the loop of [verify_tc] checks of the collections, from a state [st]. *)
Record tip_rounds_ok (vm : ValidatorMapping) (epoch : Epoch) (round : Round)
    (l : list HighTipRoundSigColTuple) (st : TipRounds) (signers : list (list NodeId)) : Prop := {
  tro_signers : tip_rounds_signers vm epoch round l signers;
  tro_round t : t ∈ l → htr_high_qc_round t < round;
  tro_nodup : NoDup (htr_rounds <$> l);
  tro_seen t : t ∈ l → htr_rounds t ∉ tr_seen_tip_rounds st;
  tro_nodes : NoDup (concat signers);
  tro_fresh n : n ∈ concat signers → n ∉ tr_seen_node_ids st;
}.

Lemma tip_rounds_ok_cons vm epoch round t l st nodes signers st' :
  tr_seen_tip_rounds st' = {[ htr_rounds t ]} ∪ tr_seen_tip_rounds st →
  tr_seen_node_ids st' = list_to_set nodes ∪ tr_seen_node_ids st →
  tip_rounds_ok vm epoch round (t :: l) st (nodes :: signers) ↔
  sct_verify SD_Timeout (htr_sigs t) vm
    (timeout_digest (mkTimeoutInfo epoch round (htr_high_qc_round t) (htr_high_tip_round t))) = Ok nodes ∧
  htr_high_qc_round t < round ∧ htr_rounds t ∉ tr_seen_tip_rounds st ∧
  NoDup nodes ∧ (∀ n, n ∈ nodes → n ∉ tr_seen_node_ids st) ∧
  tip_rounds_ok vm epoch round l st' signers.
Proof.
  intros Htr Hn. split.
  - intros [Hs Hr Hnd Hseen Hnodes Hfresh]. unfold tip_rounds_signers in Hs. inversion Hs; subst. csimpl in *.
    apply NoDup_cons in Hnd as [Hnt Hnd]. apply NoDup_app in Hnodes as (Hn1 & Hn2 & Hn3).
    split_and!; [done|set_solver|set_solver|done|set_solver|].
    constructor; [done|set_solver|done| |done|rewrite Hn; set_solver].
    intros u Hu. rewrite Htr. intros [Heq%elem_of_singleton|?]%elem_of_union; [|set_solver].
    apply Hnt. rewrite <-Heq. by apply list_elem_of_fmap_2.
  - intros (Hv & Hr & Hns & Hn1 & Hn2 & [Hs Hr' Hnd Hseen Hnodes Hfresh]). constructor; csimpl.
    + by constructor.
    + set_solver.
    + apply NoDup_cons. split; [|done]. intros (u & Heq & Hu)%list_elem_of_fmap.
      apply (Hseen u Hu). rewrite Htr, Heq. set_solver.
    + intros u [->|Hu]%elem_of_cons; [done|]. apply Hseen in Hu. rewrite Htr in Hu. set_solver.
    + apply NoDup_app. split_and!; [done| |done]. intros n ? Hc%Hfresh. rewrite Hn in Hc. set_solver.
    + intros n [?|Hc%Hfresh]%elem_of_app; [auto|]. rewrite Hn in Hc. set_solver.
Qed.

Lemma verify_tip_rounds_spec vm epoch round l st :
  match verify_tip_rounds epoch round vm l st with
  | Ok st' => ∃ signers, tip_rounds_ok vm epoch round l st signers ∧
      tr_node_ids st' = tr_node_ids st ++ concat signers ∧
      tr_highest_qc_round st' = foldl (λ m t, Z.max m (htr_high_qc_round t)) (tr_highest_qc_round st) l ∧
      tr_highest_tip_round st' = foldl (λ m t, Z.max m (htr_high_tip_round t)) (tr_highest_tip_round st) l
  | Err _ => ∀ signers, ¬ tip_rounds_ok vm epoch round l st signers
  end.
Proof.
  revert st. induction l as [|t l IH]; intros st; simpl.
  { exists []. split_and!; try done; [|by rewrite app_nil_r].
    constructor; simpl; try set_solver; apply NoDup_nil_2 || constructor. }
  assert (∀ signers, tip_rounds_ok vm epoch round (t :: l) st signers → ∃ nodes signers',
    signers = nodes :: signers' ∧ sct_verify SD_Timeout (htr_sigs t) vm
      (timeout_digest (mkTimeoutInfo epoch round (htr_high_qc_round t) (htr_high_tip_round t))) = Ok nodes) as Hcons.
  { intros signers [Hs _ _ _ _ _]. inversion Hs; subst. eauto. }
  case_bool_decide as Hr.
  { intros signers [_ Hr' _ _ _ _]. specialize (Hr' t). set_solver by lia. }
  case_decide as Hseen.
  { intros signers [_ _ _ Hs _ _]. specialize (Hs t). set_solver. }
  destruct (sct_verify SD_Timeout (htr_sigs t) vm _) as [nodes|e] eqn:Hv.
  2: { intros signers (nodes & signers' & _ & Hv')%Hcons. congruence. }
  destruct (insert_signers (tr_seen_node_ids st) nodes) as [seen|] eqn:Hins.
  - apply insert_signers_Some in Hins as (Hnd & Hfresh & ->).
    set (st1 := mkTipRounds _ _ _ _ _).
    pose proof (λ nodes signers, tip_rounds_ok_cons vm epoch round t l st nodes signers st1 eq_refl) as Hc.
    specialize (IH st1). destruct (verify_tip_rounds epoch round vm l st1) as [st'|e].
    + destruct IH as (signers & Hok & Hn & Hq & Ht). exists (nodes :: signers). split_and!.
      * apply Hc; [done|]. split_and!; try done. lia.
      * rewrite Hn. simpl. by rewrite (assoc_L (++)).
      * rewrite Hq. simpl. f_equal. case_bool_decide; lia.
      * rewrite Ht. simpl. f_equal. case_bool_decide; lia.
    + intros signers Hok. destruct (Hcons _ Hok) as (nodes' & signers' & -> & Hv').
      assert (nodes' = nodes) as -> by congruence. apply Hc in Hok; [|done]. eapply IH. apply Hok.
  - intros signers Hok. destruct (Hcons _ Hok) as (nodes' & signers' & -> & Hv').
    assert (nodes' = nodes) as -> by congruence.
    apply (tip_rounds_ok_cons _ _ _ _ _ _ _ _ (mkTipRounds [] 0 0 _ _) eq_refl eq_refl) in Hok
      as (_ & _ & _ & Hnd & Hfresh & _).
    assert (insert_signers (tr_seen_node_ids st) nodes = Some (list_to_set nodes ∪ tr_seen_node_ids st)) as Hs
      by by apply insert_signers_Some. congruence.
Qed.

Lemma check_high_extend_decides he hq ht :
  decides (check_high_extend he hq ht)
    (match he with
     | HE_Qc qc => qc_round qc = hq ∧ ht <= hq
     | HE_Tip tip => h_block_round (tip_block_header tip) = ht ∧ hq < ht
     end).
Proof.
  destruct he; (eapply decides_iff; [|apply decides_seq; [apply decides_reject_if|intros _; apply decides_reject_if]]);
    rewrite !bool_decide_eq_false; split; intros [? ?]; split; lia || auto.
Qed.

Lemma tip_rounds_signers_det vm epoch round l s1 s2 :
  tip_rounds_signers vm epoch round l s1 → tip_rounds_signers vm epoch round l s2 → s1 = s2.
Proof.
  unfold tip_rounds_signers. intros Hs1. revert s2.
  induction Hs1 as [|????? ? IH]; intros s2 Hs2; inversion Hs2; subst; [done|].
  f_equal; [congruence|by apply IH].
Qed.

Lemma verify_tc_using_decides vhe hev tc :
  decides (vhe (tc_high_extend tc)) (hev (tc_high_extend tc)) →
  (tc_valid etv tc ↔ tc_valid_using etv hev tc) →
  decides (verify_tc_using etv vhe tc) (tc_valid_using etv hev tc).
Proof.
  intros Hvhe Hiff. apply decides_cached; [intros c Hc Hcached; by apply Hiff, (cs_tc _ _ Hc)|].
  destruct (Hetv (tc_epoch tc) (tc_round tc)) as (x & Hx & Hwf).
  set (st0 := mkTipRounds [] GENESIS_ROUND GENESIS_ROUND ∅ ∅).
  eapply decides_iff; [|eapply (decides_try etv _ x _ (λ y, ∃ st,
    verify_tip_rounds (tc_epoch tc) (tc_round tc) y.1.2 (tc_tip_rounds tc) st0 = Ok st ∧
    has_super_majority_votes y.1.1 (tr_node_ids st) = Ret (Ok true) ∧
    hev (tc_high_extend tc) ∧ _ ∧ True)); [exact Hx|]].
  2: { intros [[vs vm] leader] ->. simpl. apply (decides_result etv). intros st Hst.
       pose proof (verify_tip_rounds_spec vm (tc_epoch tc) (tc_round tc) (tc_tip_rounds tc) st0) as Hspec.
       rewrite Hst in Hspec. destruct Hspec as (signers & Hok & Hn & Hq & Ht). simpl in Hn.
       apply decides_seq; [apply require_super_majority_decides; [by eapply Hwf|rewrite Hn; apply Hok]|]. intros Hs.
       apply decides_seq; [exact Hvhe|]. intros Hhe.
       apply decides_seq; [rewrite Hq, Ht; apply check_high_extend_decides|]. intros Hext.
       apply decides_modify. intros c Hc. apply cache_tc_sound; [done|]. apply Hiff.
       split_and!; [|done|done]. rewrite Hn in Hs.
       exists vs, vm, leader, signers. destruct Hok. by split_and!. }
  rewrite Hx. split.
  - intros ([[vs vm] leader] & Hy & st & Hst & Hs & Hhe & Hext & _). injection Hy as ->.
    pose proof (verify_tip_rounds_spec vm (tc_epoch tc) (tc_round tc) (tc_tip_rounds tc) st0) as Hspec.
    simpl in Hst, Hs. rewrite Hst in Hspec. destruct Hspec as (signers & Hok & Hn & _). simpl in Hn.
    split_and!; [|done|exact Hext]. rewrite Hn in Hs.
    exists vs, vm, leader, signers. destruct Hok. by split_and!.
  - intros ((vs & vm & leader & signers & Hy & Hts & Hnd & Hs & Hndr & Hlt) & Hhe & Hext).
    rewrite Hx in Hy. injection Hy as ->. exists (vs, vm, leader). split; [done|]. simpl.
    assert (tip_rounds_ok vm (tc_epoch tc) (tc_round tc) (tc_tip_rounds tc) st0 signers) as Hok
      by (constructor; try done; set_solver).
    pose proof (verify_tip_rounds_spec vm (tc_epoch tc) (tc_round tc) (tc_tip_rounds tc) st0) as Hspec.
    destruct (verify_tip_rounds _ _ _ _ _) as [st|e]; [|by apply Hspec in Hok].
    destruct Hspec as (signers' & [Hts' _ _ _ _ _] & Hn & _). exists st. split_and!; try done.
    rewrite Hn. simpl. by rewrite (tip_rounds_signers_det _ _ _ _ _ _ Hts' Hts).
Qed.

(** The timeout certificate of a no-tip certificate needs one level only. *)
Lemma verify_no_tip_decides fuel nt :
  decides (verify_tc_fuel etv (S fuel) (no_tip_tc nt))
    (tc_valid_using etv (λ he, he = HE_Qc (nt_high_qc nt) ∧ qc_valid etv (nt_high_qc nt)) (no_tip_tc nt)).
Proof.
  apply verify_tc_using_decides.
  - simpl. eapply decides_iff; [|apply verify_qc_decides]. tauto.
  - unfold tc_valid, tc_valid_using. simpl. tauto.
Qed.

Lemma next_round r : r < u64_max → round_add r 1 = Ret (r + 1).
Proof. intros Hr. apply round_add_Ret. lia. Qed.

(** The last part of [verify_tip]: the rounds of the fresh certificate. *)
Definition fresh_ok (tip : ConsensusTip) : Prop :=
  let h := tip_block_header tip in
  match tip_fresh_certificate tip with
  | None => h_block_round h = qc_round (h_qc h) + 1
  | Some (FPC_Nec nec) =>
      h_block_round h ≠ qc_round (h_qc h) + 1 ∧
      ne_round (nec_msg nec) = h_block_round h ∧ ne_tip_qc_round (nec_msg nec) = qc_round (h_qc h)
  | Some (FPC_NoTip nt) =>
      h_block_round h ≠ qc_round (h_qc h) + 1 ∧
      nt_round nt + 1 = h_block_round h ∧ qc_round (nt_high_qc nt) = qc_round (h_qc h)
  end.

Lemma fresh_ok_decides tip :
  tip_in_range tip →
  let h := tip_block_header tip in
  decides (if bool_decide (h_block_round h = qc_round (h_qc h) + 1) then
             v_reject_if (bool_decide (is_Some (tip_fresh_certificate tip))) NotWellFormed
           else
             match tip_fresh_certificate tip with
             | None => v_err NotWellFormed
             | Some (FPC_Nec nec) =>
                 let? _ := v_reject_if (bool_decide (ne_round (nec_msg nec) ≠ h_block_round h)) NotWellFormed in
                 v_reject_if (bool_decide (ne_tip_qc_round (nec_msg nec) ≠ qc_round (h_qc h))) NotWellFormed
             | Some (FPC_NoTip nt) =>
                 let? next := v_exec (round_add (nt_round nt) 1) in
                 let? _ := v_reject_if (bool_decide (next ≠ h_block_round h)) NotWellFormed in
                 v_reject_if (bool_decide (qc_round (nt_high_qc nt) ≠ qc_round (h_qc h))) NotWellFormed
             end) (fresh_ok tip).
Proof.
  intros [_ Hnt] h. unfold fresh_ok. fold h. case_bool_decide as Hr.
  - eapply decides_iff; [|apply decides_reject_if]. rewrite bool_decide_eq_false, <-eq_None_not_Some.
    destruct (tip_fresh_certificate tip) as [[]|]; naive_solver.
  - destruct (tip_fresh_certificate tip) as [[nec|nt]|] eqn:Hf.
    + eapply decides_iff; [|apply decides_seq; [apply decides_reject_if|intros _; apply decides_reject_if]].
      rewrite !bool_decide_eq_false. split; [intros [? ?]|intros (? & ? & ?)]; split_and!; try lia; intros ?; lia.
    + eapply decides_exec; [by apply next_round, Hnt|].
      eapply decides_iff; [|apply decides_seq; [apply decides_reject_if|intros _; apply decides_reject_if]].
      rewrite !bool_decide_eq_false. split; [intros [? ?]|intros (? & ? & ?)]; split_and!; try lia; intros ?; lia.
    + eapply decides_iff; [|apply decides_err]. done.
Qed.

Lemma verify_tip_using_decides fuel tip :
  tip_in_range tip →
  decides (verify_tip_using etv (verify_tc_fuel etv (S fuel)) tip) (tip_valid etv tip).
Proof.
  intros Hrange. unfold verify_tip_using, tip_valid. set (h := tip_block_header tip).
  destruct (Hetv (h_epoch h) (h_block_round h)) as (x & Hx & _).
  set (fresh_valid := match tip_fresh_certificate tip with
    | None => True
    | Some (FPC_Nec nec) => nec_valid etv nec
    | Some (FPC_NoTip nt) =>
        tc_valid_using etv (λ he, he = HE_Qc (nt_high_qc nt) ∧ qc_valid etv (nt_high_qc nt)) (no_tip_tc nt)
    end).
  eapply decides_iff; [|eapply (decides_try etv _ x _ (λ y, ∃ author,
    ok_or (tip_signature_author tip) InvalidSignature = Ok author ∧
    (bool_decide (author ≠ y.2) || bool_decide (author ≠ h_author h) = false ∧
     qc_valid etv (h_qc h) ∧ fresh_valid ∧ fresh_ok tip))); [exact Hx|]].
  - rewrite Hx. unfold fresh_ok, fresh_valid. fold h. split.
    + intros ([[vs vm] leader] & Hy & author & Ha & [Hl Hau]%orb_false_iff & Hq & Hf & Hok).
      apply bool_decide_eq_false, dec_stable in Hl as ->. apply bool_decide_eq_false, dec_stable in Hau.
      simpl in *. split_and!; [|done|].
      * exists vs, vm, leader. split_and!; [done|by destruct (tip_signature_author tip); simplify_eq/=|done].
      * destruct (tip_fresh_certificate tip) as [[]|]; tauto.
    + intros ((vs & vm & leader & Hy & Ha & Hau) & Hq & Hf). exists (vs, vm, leader). split; [done|].
      exists leader. rewrite Ha. split; [done|]. simpl. rewrite Hau.
      split_and!; [by rewrite bool_decide_eq_false_2 by tauto|done|..];
        destruct (tip_fresh_certificate tip) as [[]|]; tauto.
  - intros [[vs vm] leader] _. apply (decides_result etv). intros author _.
    apply decides_seq; [apply decides_reject_if|]. intros _.
    apply decides_seq; [apply verify_qc_decides|]. intros Hq.
    apply decides_seq.
    { unfold fresh_valid. destruct (tip_fresh_certificate tip) as [[nec|nt]|];
        [apply verify_nec_decides|apply verify_no_tip_decides|apply decides_ret]. }
    intros Hf. eapply decides_exec; [apply next_round, Hrange|]. by apply fresh_ok_decides.
Qed.

Lemma verify_high_extend_decides he :
  high_extend_in_range he → decides (verify_high_extend etv he) (high_extend_valid etv he).
Proof. intros ?. destruct he; [by apply verify_tip_using_decides|apply verify_qc_decides]. Qed.

Lemma verify_tip_decides tip : tip_in_range tip → decides (verify_tip etv tip) (tip_valid etv tip).
Proof. apply verify_tip_using_decides. Qed.

Lemma verify_tc_decides tc :
  high_extend_in_range (tc_high_extend tc) → decides (verify_tc etv tc) (tc_valid etv tc).
Proof. intros ?. apply verify_tc_using_decides; [by apply verify_high_extend_decides|done]. Qed.
End decide.

(** * Messages *)

Section messages.
Context `{P : Protocol} `{!SignatureCollectionLaws P} `{!EncodingLaws P}.
Context {VT : Type} `{ValidatorSetLaws VT} `{LT : LeaderElection} `{L : LruCache} `{!LruCacheLaws L}.
Context (em : EpochManager) (vem : ValidatorsEpochMapping VT).
Notation etv := (etv em vem).

Definition round_certificate_valid (c : RoundCertificate) : Prop :=
  match c with RC_Qc qc => qc_valid etv qc | RC_Tc tc => tc_valid etv tc end.

(** A proposal for a round comes from the leader of the block's round, and is
    justified by a QC of the round before, or by a TC of the round before whose
    high extend it follows. *)
Definition proposal_valid (m : ProposalMessage) : Prop :=
  let tip := p_tip m in
  let h := tip_block_header tip in
  tip_valid etv tip ∧ h_block_body_id h = body_get_id (p_block_body m) ∧
  get_epoch em (p_proposal_round m) = Some (p_proposal_epoch m) ∧
  match p_last_round_tc m with
  | None => p_proposal_round m = qc_round (h_qc h) + 1
  | Some tc =>
      tc_valid etv tc ∧ p_proposal_round m = tc_round tc + 1 ∧ p_proposal_round m ≠ qc_round (h_qc h) + 1 ∧
      match tc_high_extend tc with
      | HE_Qc qc => qc_round qc = qc_round (h_qc h)
      | HE_Tip tc_tip => tc_tip = tip ∨
          p_proposal_round m = h_block_round h ∧
          qc_round (h_qc (tip_block_header tc_tip)) = qc_round (h_qc h)
      end
  end.

(** A timeout proves that its round may be entered, and reports the rounds of
    what it extends. *)
Definition timeout_valid (m : TimeoutMessage) : Prop :=
  let t := timeout_of m in
  let i := t_tminfo t in
  cert_validate (t_timeout_signature t) = true ∧
  high_extend_valid etv (high_extend_from (t_high_extend t)) ∧
  get_epoch em (tm_round i) = Some (tm_epoch i) ∧
  match t_high_extend t with
  | HEV_Qc qc => tm_high_tip_round i = GENESIS_ROUND ∧ tm_high_qc_round i = qc_round qc
  | HEV_Tip tip _ => tm_high_tip_round i = h_block_round (tip_block_header tip) ∧
      tm_high_qc_round i < h_block_round (tip_block_header tip)
  end ∧
  match t_last_round_certificate t with
  | None => tm_round i = qc_round (high_extend_vote_qc (t_high_extend t)) + 1
  | Some c => round_certificate_valid c ∧ tm_round i = rc_round c + 1 ∧
      tm_round i ≠ qc_round (high_extend_vote_qc (t_high_extend t)) + 1
  end.

Context (Hetv : etv_ok etv).
Notation decides := (decides etv).

Lemma verify_epoch_decides round epoch :
  decides (v_result (verify_epoch em round epoch)) (get_epoch em round = Some epoch).
Proof.
  intros c Hc. eexists _, c. split_and!; [done|done|]. unfold verify_epoch.
  destruct (get_epoch em round) as [e|]; [|naive_solver]. case_bool_decide; naive_solver.
Qed.

(** The rounds a proposal adds one to. *)
Definition proposal_in_range (m : ProposalMessage) : Prop :=
  tip_in_range (p_tip m) ∧
  ∀ tc, p_last_round_tc m = Some tc → high_extend_in_range (tc_high_extend tc) ∧ tc_round tc < u64_max.

Lemma well_formed_proposal_ok m :
  qc_round (h_qc (tip_block_header (p_tip m))) < u64_max →
  let h := tip_block_header (p_tip m) in
  ∃ r, well_formed_proposal m = Ret r ∧
    (r = Ok tt ↔ h_block_body_id h = body_get_id (p_block_body m) ∧
     match p_last_round_tc m with
     | None => p_proposal_round m = qc_round (h_qc h) + 1
     | Some tc =>
         p_proposal_round m ≠ qc_round (h_qc h) + 1 ∧
         match tc_high_extend tc with
         | HE_Qc qc => qc_round qc = qc_round (h_qc h)
         | HE_Tip tc_tip => tc_tip = p_tip m ∨
             p_proposal_round m = h_block_round h ∧
             qc_round (h_qc (tip_block_header tc_tip)) = qc_round (h_qc h)
         end
     end).
Proof.
  intros Hq%next_round h. fold h in Hq. unfold well_formed_proposal. fold h. rewrite Hq.
  case_bool_decide; [eexists; split; [done|]; naive_solver|]. simpl.
  destruct (p_last_round_tc m) as [tc|]; [destruct (tc_high_extend tc) as [tip|qc]|];
    repeat case_bool_decide; eexists; (split; [done|]); naive_solver.
Qed.

Lemma proposal_validate_decides m :
  proposal_in_range m → decides (proposal_validate em vem m) (proposal_valid m).
Proof.
  intros [Htip Htc]. destruct (well_formed_proposal_ok m (proj1 Htip)) as (r & Hr & Hok).
  set (Q1 := match p_last_round_tc m with
    | Some tc => tc_valid etv tc ∧ p_proposal_round m = tc_round tc + 1
    | None => True
    end).
  assert (decides (match p_last_round_tc m with
    | Some tc =>
        let? _ := verify_tc etv tc in
        let? next := v_exec (round_add (tc_round tc) 1) in
        v_reject_if (bool_decide (p_proposal_round m ≠ next)) NotWellFormed
    | None => v_ret tt
    end) Q1) as H1.
  { unfold Q1. destruct (p_last_round_tc m) as [tc|]; [|apply decides_ret].
    destruct (Htc tc eq_refl) as [Hhe Hmax]. apply decides_seq; [by apply verify_tc_decides|].
    intros _. eapply decides_exec; [by apply next_round|]. eapply decides_iff; [|apply decides_reject_if].
    rewrite bool_decide_eq_false. split; [apply dec_stable|tauto]. }
  eapply decides_iff; [|apply decides_seq; [exact H1|intros _];
    apply decides_seq; [by apply verify_tip_decides|intros _];
    apply decides_seq; [by eapply decides_try_unit|intros _; apply verify_epoch_decides]].
  rewrite Hr. unfold proposal_valid, Q1. split.
  - intros (HQ1 & Ht & [= Hrok] & He). apply Hok in Hrok as [Hb Hm]. split_and!; try done.
    destruct (p_last_round_tc m); [|done]. tauto.
  - intros (Ht & Hb & He & Hm). split_and!; try done.
    + destruct (p_last_round_tc m); [|done]. tauto.
    + f_equal. apply Hok. split; [done|]. destruct (p_last_round_tc m); [|done]. tauto.
Qed.
(** The rounds a timeout adds one to. *)
Definition round_certificate_in_range (c : RoundCertificate) : Prop :=
  rc_round c < u64_max ∧
  match c with RC_Qc _ => True | RC_Tc tc => high_extend_in_range (tc_high_extend tc) end.

Definition timeout_in_range (m : TimeoutMessage) : Prop :=
  let t := timeout_of m in
  high_extend_in_range (high_extend_from (t_high_extend t)) ∧
  qc_round (high_extend_vote_qc (t_high_extend t)) < u64_max ∧
  ∀ c, t_last_round_certificate t = Some c → round_certificate_in_range c.

Lemma verify_round_certificate_decides c :
  round_certificate_in_range c → decides (verify_round_certificate em vem c) (round_certificate_valid c).
Proof. destruct c; intros [_ ?]; [by apply verify_qc_decides|by apply verify_tc_decides]. Qed.

Lemma well_formed_timeout_ok m :
  qc_round (high_extend_vote_qc (t_high_extend (timeout_of m))) < u64_max →
  let t := timeout_of m in
  let next := qc_round (high_extend_vote_qc (t_high_extend t)) + 1 in
  ∃ r, well_formed_timeout m = Ret r ∧
    (r = Ok tt ↔ if decide (is_Some (t_last_round_certificate t)) then tm_round (t_tminfo t) ≠ next
                 else tm_round (t_tminfo t) = next).
Proof.
  intros Hq. simpl. unfold well_formed_timeout. rewrite (next_round _ Hq). simpl.
  eexists. split; [done|]. case_bool_decide; destruct (t_last_round_certificate _);
    repeat case_bool_decide; case_decide; naive_solver.
Qed.

Lemma timeout_validate_decides m :
  timeout_in_range m → decides (timeout_validate em vem m) (timeout_valid m).
Proof.
  intros (Hhe & Hq & Hrc). destruct (well_formed_timeout_ok m Hq) as (r & Hr & Hok).
  set (t := timeout_of m) in *. set (i := t_tminfo t) in *.
  set (Q2 := match t_last_round_certificate t with
    | Some c => round_certificate_valid c ∧ tm_round i = rc_round c + 1 | None => True end).
  set (Q4 := match t_high_extend t with
    | HEV_Qc qc => tm_high_tip_round i = GENESIS_ROUND ∧ tm_high_qc_round i = qc_round qc
    | HEV_Tip tip _ => tm_high_tip_round i = h_block_round (tip_block_header tip) ∧
        tm_high_qc_round i < h_block_round (tip_block_header tip) end).
  eapply decides_iff; [|unfold timeout_validate; fold t i; apply decides_seq; [apply decides_reject_if|intros _];
    apply decides_seq; [apply (decides_iff _ _ Q2); [reflexivity|]|intros _];
    [|apply decides_seq; [by apply verify_high_extend_decides|intros _];
      apply decides_seq; [apply (decides_iff _ _ Q4); [reflexivity|]|intros _];
      [|apply decides_seq; [by eapply decides_try_unit|intros _; apply verify_epoch_decides]]]].
  - rewrite Hr. unfold timeout_valid. fold t i. unfold Q2. rewrite negb_false_iff.
    split.
    + intros (Hs & H2 & Hh & H4 & [= Hrok] & He). apply Hok in Hrok. split_and!; try done.
      destruct (t_last_round_certificate t); case_decide as Hd; naive_solver.
    + intros (Hs & Hh & He & H4 & H2). split_and!; try done.
      * destruct (t_last_round_certificate t); [|done]. tauto.
      * f_equal. apply Hok. destruct (t_last_round_certificate t); case_decide as Hd; naive_solver.
  - unfold Q2. destruct (t_last_round_certificate t) as [c|]; [|apply decides_ret].
    pose proof (Hrc c eq_refl) as Hc. apply decides_seq; [by apply verify_round_certificate_decides|].
    intros _. eapply decides_exec; [apply next_round, Hc|]. eapply decides_iff; [|apply decides_reject_if].
    rewrite bool_decide_eq_false. split; [apply dec_stable|tauto].
  - unfold Q4. destruct (t_high_extend t);
      (eapply decides_iff; [|apply decides_seq; [apply decides_reject_if|intros _; apply decides_reject_if]]);
      rewrite !bool_decide_eq_false; split; intros [? ?]; split; lia || auto.
Qed.

(** ** Certificates made of validated timeouts *)

Lemma foldl_max_spec {A} (f : A → Z) l m :
  let r := foldl (λ m t, Z.max m (f t)) m l in
  m <= r ∧ (∀ t, t ∈ l → f t <= r) ∧ (r = m ∨ ∃ t, t ∈ l ∧ f t = r).
Proof.
  revert m. induction l as [|x l IH]; intros m; simpl; [split_and!; [done|set_solver|by left]|].
  destruct (IH (Z.max m (f x))) as (Hle & Hall & Hor). split_and!.
  - lia.
  - intros t [->|?]%elem_of_cons; [lia|auto].
  - destruct Hor as [Hr|(t & ? & ?)]; [|right; exists t; split; [by right|done]].
    destruct (Z.max_spec m (f x)) as [[_ Hm]|[_ Hm]]; [right; exists x; split; [left|congruence]|left; congruence].
Qed.

(** What each timeout reports is below what the certificate extends. *)
Lemma timeout_reports_below t he :
  let i := t_tminfo t in
  0 <= tm_high_qc_round i →
  match t_high_extend t with
  | HEV_Qc qc => tm_high_tip_round i = GENESIS_ROUND ∧ tm_high_qc_round i = qc_round qc
  | HEV_Tip tip _ => tm_high_tip_round i = h_block_round (tip_block_header tip) ∧
      tm_high_qc_round i < h_block_round (tip_block_header tip)
  end →
  high_extend_rank (high_extend_from (t_high_extend t)) <= high_extend_rank he →
  match he with
  | HE_Qc qc => tm_high_qc_round i <= qc_round qc ∧ tm_high_tip_round i <= qc_round qc
  | HE_Tip tip => tm_high_qc_round i < h_block_round (tip_block_header tip) ∧
      tm_high_tip_round i <= h_block_round (tip_block_header tip)
  end.
Proof.
  intros i Hnn Hrep Hrank. unfold GENESIS_ROUND in *.
  destruct (t_high_extend t), he; simpl in *; lia.
Qed.

(** The timeouts a node collects for a round: validated, of one round and epoch,
    and reporting a certificate of a lower round. *)
Definition collected (epoch : Epoch) (round : Round) (l : list (NodeId * Timeout)) : Prop :=
  ∀ n t, (n, t) ∈ l → timeout_valid (mkTimeoutMessage t) ∧
    tm_epoch (t_tminfo t) = epoch ∧ tm_round (t_tminfo t) = round ∧
    0 <= tm_high_qc_round (t_tminfo t) < round.

Lemma collected_below epoch round l he n t :
  collected epoch round l → (n, t) ∈ l →
  high_extend_rank (high_extend_from (t_high_extend t)) <= high_extend_rank he →
  match he with
  | HE_Qc qc => tm_high_qc_round (t_tminfo t) <= qc_round qc ∧ tm_high_tip_round (t_tminfo t) <= qc_round qc
  | HE_Tip tip => tm_high_qc_round (t_tminfo t) < h_block_round (tip_block_header tip) ∧
      tm_high_tip_round (t_tminfo t) <= h_block_round (tip_block_header tip)
  end.
Proof.
  intros Hl Hin. destruct (Hl n t Hin) as ((_ & _ & _ & Hrep & _) & _ & _ & Hnn).
  apply timeout_reports_below; [lia|done].
Qed.

(** The certificate extends what one of the timeouts extends. *)
Lemma collected_high_extend epoch round l he :
  collected epoch round l → l ≠ [] →
  (∃ q, genesis_qc = Ret q ∧ he = HE_Qc q) ∨ (∃ n t, (n, t) ∈ l ∧ he = high_extend_from (t_high_extend t)) →
  (∀ n t, (n, t) ∈ l → high_extend_rank (high_extend_from (t_high_extend t)) <= high_extend_rank he) →
  ∃ n t, (n, t) ∈ l ∧ he = high_extend_from (t_high_extend t).
Proof.
  intros Hl Hne [(q & Hgen & ->)|?] Hmax; [|done].
  destruct genesis_qc_ok as (q' & Hgen' & Hq0 & _). rewrite Hgen in Hgen'. injection Hgen' as <-.
  destruct l as [|[n t] l']; [done|]. exists n, t. assert ((n, t) ∈ (n, t) :: l') as Hin by left. split; [done|].
  pose proof (collected_below _ _ _ _ _ _ Hl Hin (Hmax _ _ Hin)) as [Hq Ht].
  destruct (Hl n t Hin) as ((_ & Hhe & _ & Hrep & _) & _ & _ & Hnn). simpl in *. rewrite Hq0 in *.
  unfold GENESIS_ROUND in *. destruct (t_high_extend t) as [tip vs|qc]; simpl in *; [lia|].
  unfold qc_valid, GENESIS_ROUND in Hhe. rewrite bool_decide_true in Hhe by lia. destruct Hhe as [Hg _]. congruence.
Qed.

Lemma elem_highest f g l u : u ∈ l → f u = g → g <= highest f l.
Proof. intros Hu <-. by apply (foldl_max_spec f l GENESIS_ROUND). Qed.

(** What the timeouts report determines the highest rounds of the collections. *)
Lemma collected_extends_highest epoch round l tc :
  collected epoch round l →
  (∃ n t, (n, t) ∈ l ∧ tc_high_extend tc = high_extend_from (t_high_extend t)) →
  (∀ n t, (n, t) ∈ l → high_extend_rank (high_extend_from (t_high_extend t)) <= high_extend_rank (tc_high_extend tc)) →
  (∀ u, u ∈ tc_tip_rounds tc → ∃ n t, (n, t) ∈ l ∧ htr_rounds u = tminfo_rounds (t_tminfo t)) →
  (∀ n t, (n, t) ∈ l → tminfo_rounds (t_tminfo t) ∈ htr_rounds <$> tc_tip_rounds tc) →
  extends_highest tc.
Proof.
  intros Hl (n & t & Hin & Heq) Hmax Hrounds Hcov. destruct (Hl n t Hin) as ((_ & _ & _ & Hrep & _) & _ & _ & Hnn).
  apply Hcov in Hin as (u & Hu & Huin)%list_elem_of_fmap. unfold htr_rounds, tminfo_rounds in Hu. injection Hu as Huq Hut.
  pose proof (elem_highest htr_high_qc_round _ _ _ Huin (eq_sym Huq)) as Hlq.
  pose proof (elem_highest htr_high_tip_round _ _ _ Huin (eq_sym Hut)) as Hlt.
  assert (∀ u, u ∈ tc_tip_rounds tc → match tc_high_extend tc with
    | HE_Qc qc => htr_high_qc_round u <= qc_round qc ∧ htr_high_tip_round u <= qc_round qc
    | HE_Tip tip => htr_high_qc_round u < h_block_round (tip_block_header tip) ∧
        htr_high_tip_round u <= h_block_round (tip_block_header tip)
    end) as Hb.
  { intros v (n' & t' & Hin' & Hv)%Hrounds. unfold htr_rounds, tminfo_rounds in Hv. injection Hv as -> ->.
    eapply collected_below; [done|done|by eapply Hmax]. }
  unfold extends_highest.
  destruct (foldl_max_spec htr_high_qc_round (tc_tip_rounds tc) GENESIS_ROUND) as (_ & _ & Hq).
  destruct (foldl_max_spec htr_high_tip_round (tc_tip_rounds tc) GENESIS_ROUND) as (_ & _ & Ht).
  fold (highest htr_high_qc_round (tc_tip_rounds tc)) in Hq.
  fold (highest htr_high_tip_round (tc_tip_rounds tc)) in Ht.
  unfold GENESIS_ROUND in *. simpl in Hrep. rewrite Heq in *.
  destruct (t_high_extend t) as [tip sig|qc]; simpl in *;
    destruct Hq as [Hq|(v & Hv & Hq)], Ht as [Ht|(w & Hw & Ht)];
    try (pose proof (Hb _ Hv)); try (pose proof (Hb _ Hw)); lia.
Qed.

Lemma tc_new_valid `{HashOrder} epoch round l vs vm leader tc :
  etv epoch round = Ret (Ok (vs, vm, leader)) → vs_wf vs → mapping_injective vm → NoDup l.*1 →
  has_super_majority_votes vs l.*1 = Ret (Ok true) → collected epoch round l →
  tc_new epoch round l vm = Ret (Ok tc) → tc_valid etv tc.
Proof.
  intros He Hvs Hinj Hnd Hsm Hl Htc.
  destruct (tc_new_spec epoch round l vm tc Hinj Hnd) as (Hte & Htr & Hor & Hmax & Hrounds & Hndr & signers & Hts & Hp);
    [intros n t Hin; destruct (Hl n t Hin) as (_ & ? & ? & _); done|done|].
  assert (NoDup (concat signers)) as Hnds by by rewrite Hp.
  assert (l ≠ []) as Hne.
  { intros ->. rewrite has_super_majority_votes_spec in Hsm by done. simpl in Hsm. rewrite vs_weight_nil in Hsm.
    pose proof (vs_total_nonneg vs Hvs). case_bool_decide; [lia|done]. }
  pose proof (collected_high_extend _ _ _ _ Hl Hne Hor Hmax) as Hext. split_and!.
  - exists vs, vm, leader, signers. rewrite Hte, Htr. split_and!; [done|done|done| |done|].
    + rewrite has_super_majority_votes_spec in Hsm |- * by done. by rewrite (vs_weight_perm vs _ _ Hp).
    + intros u (n & t & Hin & Heq)%Hrounds. destruct (Hl n t Hin) as (_ & _ & Htm & ?).
      unfold htr_rounds, tminfo_rounds in Heq. simplify_eq. lia.
  - destruct Hext as (n & t & Hin & ->). by destruct (Hl n t Hin) as ((_ & ? & _) & _).
  - eapply collected_extends_highest; [done|done|done|done|]. intros n t. by apply (tc_new_covers epoch round l vm tc n).
Qed.
End messages.

(** * Agreement *)

(** The votes a node signs over its life, started at some certificate. *)
Definition vote_log `{P : Protocol} `{HashOrder} `{CCT : ChainConfig} (VT : Type)
    `{ValidatorSetType VT} (votes : list Vote) : Prop :=
  ∃ delta local_processing em c pm s (ops : list (VoteOp (VT := VT))) pm' s',
    pacemaker_new delta local_processing em c = Ret pm ∧ safety_new c None = Ret s ∧
    vote_run pm s ops = Ret (pm', s', votes).

Lemma vote_log_once `{P : Protocol} `{HashOrder} `{CCT : ChainConfig} {VT : Type}
    `{ValidatorSetType VT} votes v1 v2 :
  vote_log VT votes → v1 ∈ votes → v2 ∈ votes → vote_round v1 = vote_round v2 → v1 = v2.
Proof.
  intros (delta & lp & em & c & pm & s & ops & pm' & s' & Hpm & Hs & Hrun).
  destruct (vote_inv_run _ _ _ _ _ _ [] Hrun (vote_inv_init _ _ _ _ _ _ _ Hpm Hs)). eauto.
Qed.

(** C20. Agreement within a round: two valid quorum certificates of one round and
    epoch are for the same vote, hence the same block, as long as the faulty
    validators have at most a third of the stake, every other validator runs the
    voting code of the node, and no signature of a vote it did not cast is in
    the certificates. *)
Theorem qc_agreement `{P : Protocol} `{!SignatureCollectionLaws P} `{HashOrder} `{CCT : ChainConfig}
    {VT : Type} `{ValidatorSetLaws VT}
    (etv : EpochToValidators (VT := VT)) (qc1 qc2 : QuorumCertificate) (vs : VT) (vm : ValidatorMapping)
    (leader : NodeId) (byz : list NodeId) (votes : NodeId → list Vote)
    (Hqc1 : qc_valid etv qc1) (Hqc2 : qc_valid etv qc2)
    (Hround : qc_round qc1 = qc_round qc2) (Hepoch : qc_epoch qc1 = qc_epoch qc2)
    (Hetv : etv (qc_epoch qc1) (qc_round qc1) = Ret (Ok (vs, vm, leader))) (Hvs : vs_wf vs)
    (Hbyz : NoDup byz) (Hfew : has_honest_vote vs byz = Ret (Ok false))
    (Hhonest : ∀ n, n ∉ byz → vote_log VT (votes n))
    (Hunforged : ∀ qc nodes n, qc = qc1 ∨ qc = qc2 →
       sct_verify SD_Vote (qc_signatures qc) vm (vote_digest (qc_info qc)) = Ok nodes →
       n ∈ nodes → n ∉ byz → qc_info qc ∈ votes n) :
  qc_info qc1 = qc_info qc2.
Proof.
  unfold qc_valid in *. rewrite <-Hround, <-Hepoch in Hqc2. case_bool_decide.
  { destruct Hqc1 as [Hg1 _], Hqc2 as [Hg2 _]. congruence. }
  destruct Hqc1 as (vs1 & vm1 & l1 & nodes1 & He1 & Hn1 & Hs1).
  destruct Hqc2 as (vs2 & vm2 & l2 & nodes2 & He2 & Hn2 & Hs2).
  rewrite Hetv in He1, He2. simplify_eq.
  destruct (quorum_intersection vs1 nodes1 nodes2 byz) as (_ & n & Hin1 & Hin2 & Hn); try done.
  { by eapply sct_verify_sound. } { by eapply sct_verify_sound. }
  eapply vote_log_once; [by apply (Hhonest n)|eauto..|exact Hround].
Qed.

(** * Properties *)

(** [verify_qc] decides validity of quorum certificates: with a cache that
    holds only valid certificates it returns, without panic, keeps the cache
    so, and accepts exactly the genesis certificate and the certificates whose
    signatures verify to a super majority of the validators of their round. *)
Theorem verify_qc_correct `{P : Protocol} `{!SignatureCollectionLaws P} `{!EncodingLaws P}
    {VT : Type} `{ValidatorSetLaws VT} `{L : LruCache} `{!LruCacheLaws L}
    (etv : EpochToValidators (VT := VT)) (cache : CertificateCache) (qc : QuorumCertificate)
    (Hetv : etv_ok etv) (Hcache : cache_sound etv cache) :
  ∃ r cache', verify_qc etv qc cache = Ret (r, cache') ∧ cache_sound etv cache' ∧
    (r = Ok tt ↔ qc_valid etv qc).
Proof. by apply verify_qc_decides. Qed.

(** C21. [verify_tc] decides validity of timeout certificates, whatever is nested
    in them: it returns within the recursion depth it is given, keeps the cache
    sound, and accepts exactly the certificates for which a super majority of
    distinct validators signed timeouts of the round, and which extend a valid
    QC or tip that is the highest of what the signers reported. *)
Theorem verify_tc_correct `{P : Protocol} `{!SignatureCollectionLaws P} `{!EncodingLaws P}
    {VT : Type} `{ValidatorSetLaws VT} `{L : LruCache} `{!LruCacheLaws L}
    (etv : EpochToValidators (VT := VT)) (cache : CertificateCache) (tc : TimeoutCertificate)
    (Hetv : etv_ok etv) (Hcache : cache_sound etv cache)
    (Hrange : high_extend_in_range (tc_high_extend tc)) :
  ∃ r cache', verify_tc etv tc cache = Ret (r, cache') ∧ cache_sound etv cache' ∧
    (r = Ok tt ↔ tc_valid etv tc).
Proof. by apply verify_tc_decides. Qed.

(** C22. A proposal is accepted exactly when its block was signed by the leader
    of the block's round on a valid certificate, its body is the one the header
    names, its epoch is the one scheduled for its round, and it is justified by
    a QC of the round before, or by a TC of the round before whose high tip it
    repeats or whose high QC it extends with a fresh block. *)
Theorem proposal_validate_correct `{P : Protocol} `{!SignatureCollectionLaws P} `{!EncodingLaws P}
    {VT : Type} `{ValidatorSetLaws VT} `{LT : LeaderElection} `{L : LruCache} `{!LruCacheLaws L}
    (em : EpochManager) (vem : ValidatorsEpochMapping VT) (cache : CertificateCache) (m : ProposalMessage)
    (Hetv : etv_ok (etv em vem)) (Hcache : cache_sound (etv em vem) cache) (Hrange : proposal_in_range m) :
  ∃ r cache', proposal_validate em vem m cache = Ret (r, cache') ∧ cache_sound (etv em vem) cache' ∧
    (r = Ok tt ↔ proposal_valid em vem m).
Proof. by apply proposal_validate_decides. Qed.

(** A timeout is accepted exactly when what it extends is valid, the rounds
    it reports are those of what it extends, its epoch is the one scheduled for
    its round, and the round may be entered: by the QC it extends or by a valid
    certificate of the round before. *)
Theorem timeout_validate_correct `{P : Protocol} `{!SignatureCollectionLaws P} `{!EncodingLaws P}
    {VT : Type} `{ValidatorSetLaws VT} `{LT : LeaderElection} `{L : LruCache} `{!LruCacheLaws L}
    (em : EpochManager) (vem : ValidatorsEpochMapping VT) (cache : CertificateCache) (m : TimeoutMessage)
    (Hetv : etv_ok (etv em vem)) (Hcache : cache_sound (etv em vem) cache) (Hrange : timeout_in_range m) :
  ∃ r cache', timeout_validate em vem m cache = Ret (r, cache') ∧ cache_sound (etv em vem) cache' ∧
    (r = Ok tt ↔ timeout_valid em vem m).
Proof. by apply timeout_validate_decides. Qed.

(** What nodes build, nodes accept: the certificate [TimeoutCertificate::new]
    makes of validated timeouts of a super majority passes [verify_tc] at any
    node with a sound cache, provided each reports a QC of a round below the one
    timed out. *)
Theorem tc_new_verifies `{P : Protocol} `{!SignatureCollectionLaws P} `{!EncodingLaws P} `{HashOrder}
    {VT : Type} `{ValidatorSetLaws VT} `{LT : LeaderElection} `{L : LruCache} `{!LruCacheLaws L}
    (em : EpochManager) (vem : ValidatorsEpochMapping VT) (cache : CertificateCache)
    (epoch : Epoch) (round : Round) (l : list (NodeId * Timeout)) (vs : VT) (vm : ValidatorMapping)
    (leader : NodeId) (tc : TimeoutCertificate)
    (Hetv : etv_ok (etv em vem)) (Hcache : cache_sound (etv em vem) cache)
    (Hvals : etv em vem epoch round = Ret (Ok (vs, vm, leader))) (Hinj : mapping_injective vm)
    (Hnd : NoDup l.*1) (Hsm : has_super_majority_votes vs l.*1 = Ret (Ok true))
    (Hl : collected em vem epoch round l) (Hrange : high_extend_in_range (tc_high_extend tc))
    (Htc : tc_new epoch round l vm = Ret (Ok tc)) :
  ∃ cache', verify_tc (etv em vem) tc cache = Ret (Ok tt, cache').
Proof.
  destruct (verify_tc_decides (etv em vem) Hetv tc Hrange cache Hcache) as (r & cache' & Hr & _ & Hiff).
  exists cache'. rewrite Hr. do 2 f_equal. apply Hiff.
  destruct (Hetv epoch round) as (x & Hx & Hwf). rewrite Hvals in Hx. injection Hx as <-.
  eapply tc_new_valid; try done. by eapply Hwf.
Qed.

(** C35. A consensus message of a round whose epoch and validators are known, signed
    by one of these validators, verifies to that validator, where the key can be
    recovered from a signature made with it; and whatever verifies is unchanged
    and was signed, by key recovery, by a validator of the epoch of its round. *)
Theorem consensus_message_sign_verify `{P : Protocol} {VT : Type} `{ValidatorSetType VT}
    (em : EpochManager) (vem : ValidatorsEpochMapping VT) (m : ConsensusMessage) (kp : ST_KeyPair)
    (epoch : Epoch) (vs : VT)
    (Hrecover : ∀ d msg kp, st_recover_pubkey d msg (st_sign d msg kp) = Some (st_pubkey kp))
    (Hepoch : get_epoch em (cm_get_round m) = Some epoch) (Hvs : get_val_set vem epoch = Some vs)
    (Hmember : is_Some (get_members vs !! st_pubkey kp)) :
  unverified_verify em vem (unverified_from (consensus_message_sign m kp)) =
    Ok (mkVerified (st_pubkey kp) (unverified_from (consensus_message_sign m kp))) ∧
  ∀ u v, unvalidated_obj (uv_obj u) = m → unverified_verify em vem u = Ok v →
    vf_message v = u ∧ is_Some (get_members vs !! vf_author v) ∧
    st_recover_pubkey SD_ConsensusMessage (rlp_bytes (consensus_message_rlp m)) (uv_author_signature u) =
      Some (vf_author v).
Proof.
  unfold unverified_verify, valid_pubkey. split.
  - simpl. rewrite Hepoch, Hvs, Hrecover. by rewrite bool_decide_true.
  - intros u v -> Hv. rewrite Hepoch, Hvs in Hv.
    destruct (st_recover_pubkey _ _ _) as [pk|]; [|done]. case_bool_decide as Hm; [|done]. by simplify_eq/=.
Qed.

(** ** Concrete data *)

(** [flat_layout] can be read back. *)
Lemma flat_layout_prefix r1 r2 s1 s2 :
  flat_layout r1 ++ s1 = flat_layout r2 ++ s2 → r1 = r2 ∧ s1 = s2.
Proof.
  revert r1 r2 s1 s2. fix IH 1. intros [n|b|s|l] [n'|b'|s'|l'] s1 s2 Heq; simpl in Heq; try discriminate Heq.
  - by injection Heq as -> ->.
  - by injection Heq as -> ->.
  - injection Heq as Hlen%Nat2Z.inj Heq. apply app_inj_1 in Heq as [-> ->]; done.
  - injection Heq as Hlen%Nat2Z.inj Heq. cut (l = l' ∧ s1 = s2); [by intros [-> ->]|].
    revert l' Hlen Heq. induction l as [|r l IHl]; intros [|r' l'] Hlen Heq; try discriminate Hlen; [done|].
    simpl in Heq. rewrite <-!(assoc_L (++)) in Heq. apply IH in Heq as [-> Heq].
    apply IHl in Heq as [-> ->]; [done|]. by injection Hlen.
Qed.

#[export] Instance flat_layout_inj : Inj (=) (=) flat_layout.
Proof. intros r1 r2 Heq. by apply (flat_layout_prefix r1 r2 [] []); rewrite !app_nil_r. Qed.

(** Encoders of the data the certificates are made of determine what they encode,
    if those of the type parameters do. *)
Section tree_inj.
Context `{P : Protocol}.
Context `{!Inj (=) (=) ST_rlp, !Inj (=) (=) SignatureType_rlp, !Inj (=) (=) SCT_rlp}.
Context `{!Inj (=) (=) ProposedHeader_rlp, !Inj (=) (=) FinalizedHeader_rlp}.

(** Equal trees have equal parts. *)
Ltac tree_inj :=
  let Heq := fresh in intros Heq; simpl in Heq; injection Heq; clear Heq; intros; subst; repeat f_equal;
  solve [done | by apply (inj SCT_rlp) | by apply (inj ST_rlp) | by apply (inj SignatureType_rlp)
        | by apply (inj ProposedHeader_rlp) | by apply (inj (fmap FinalizedHeader_rlp)) | eauto].

#[local] Instance qc_rlp_inj : Inj (=) (=) qc_rlp.
Proof. intros [[] s] [[] s']. tree_inj. Qed.
#[local] Instance nec_rlp_inj : Inj (=) (=) nec_rlp.
Proof. intros [[] s] [[] s']. tree_inj. Qed.
#[local] Instance htr_rlp_inj : Inj (=) (=) htr_rlp.
Proof. intros [q t s] [q' t' s']. tree_inj. Qed.

Lemma htrs_rlp_inj (l l' : list HighTipRoundSigColTuple) : htr_rlp <$> l = htr_rlp <$> l' → l = l'.
Proof. apply (inj (fmap htr_rlp)). Qed.
#[local] Hint Resolve htrs_rlp_inj : core.

#[local] Instance header_rlp_inj : Inj (=) (=) header_rlp.
Proof. intros [r e [[] qs] a n ts rs de ei bi] [r' e' [[] qs'] a' n' ts' rs' de' ei' bi']. tree_inj. Qed.
#[local] Instance fresh_certificate_rlp_inj : Inj (=) (=) fresh_certificate_rlp.
Proof.
  intros [[[] s]|[e r l [[] qs]]] [[[] s']|[e' r' l' [[] qs']]]; [tree_inj|discriminate 1|discriminate 1|tree_inj].
Qed.
#[local] Instance tip_rlp_inj : Inj (=) (=) tip_rlp.
Proof.
  intros [h s f] [h' s' f'] Heq. unfold tip_rlp in Heq. simpl in Heq.
  assert (∀ a b c a' b' c', RList (a :: b :: c) = RList (a' :: b' :: c') → a = a' ∧ b = b' ∧ c = c') as Hinj
    by (intros; simplify_eq; done).
  apply Hinj in Heq as (Hh%(inj header_rlp) & Hs%(inj ST_rlp) & Hf). subst. f_equal.
  destruct f, f'; simpl in Hf; try discriminate Hf; [|done].
  assert (∀ a a' : rlp, [a] = [a'] → a = a') as Hsing by (intros; congruence).
  by apply Hsing, (inj fresh_certificate_rlp) in Hf as ->.
Qed.
#[local] Instance high_extend_rlp_inj : Inj (=) (=) high_extend_rlp.
Proof.
  intros [t|q] [t'|q'] Heq; try discriminate Heq;
    assert (∀ a b b' : rlp, RList [a; b] = RList [a; b'] → b = b') as Hinj by (intros; congruence);
    apply Hinj in Heq; f_equal; [by apply (inj tip_rlp)|by apply (inj qc_rlp)].
Qed.
#[local] Instance tc_rlp_inj : Inj (=) (=) tc_rlp.
Proof.
  intros [e r l he] [e' r' l' he'] Heq.
  assert (∀ e r l e' r' l' (a a' : rlp),
    RList [RUint e; RUint r; RList l; a] = RList [RUint e'; RUint r'; RList l'; a'] →
    e = e' ∧ r = r' ∧ l = l' ∧ a = a') as Hinj by (intros; simplify_eq; done).
  apply Hinj in Heq as (He & Hr & Hl%htrs_rlp_inj & Hh%(inj high_extend_rlp)). simpl in *. by subst.
Qed.

Lemma encoding_laws_of_inj `{!Inj (=) (=) rlp_bytes} : EncodingLaws P.
Proof.
  split; intros ?? Heq%(inj rlp_bytes);
    [by apply (inj qc_rlp)|by apply (inj tc_rlp)|by apply (inj nec_rlp)].
Qed.
End tree_inj.

#[export] Instance NopProtocol_encoding : EncodingLaws NopProtocol.
Proof.
  apply (@encoding_laws_of_inj NopProtocol).
  - intros [] []. simpl. by intros [= -> ->].
  - intros [] []. simpl. by intros [= -> ->].
  - intros [l] [l']. simpl. intros [= Hl]. f_equal.
    eapply list_fmap_eq_inj; [|exact Hl]. intros [] []. simpl. by intros [= -> ->].
  - by intros [] [].
  - intros n n' [=]. done.
  - apply flat_layout_inj.
Qed.

(** A bounded cache that forgets the oldest keys. *)
#[export] Instance list_lru : LruCache := {|
  lru := Z * list bytes;
  lru_new n := (n, []);
  lru_put c k := (c.1, take (Z.to_nat c.1) (k :: filter (λ k', k' ≠ k) c.2));
  lru_contains c k := bool_decide (k ∈ c.2);
|}.

#[export] Instance list_lru_laws : LruCacheLaws list_lru.
Proof.
  split.
  - intros n k. apply bool_decide_eq_false. simpl. apply not_elem_of_nil.
  - intros c k k' Hk%bool_decide_eq_true. simpl in Hk. apply elem_of_take in Hk as (i & Hi & _).
    apply list_elem_of_lookup_2, elem_of_cons in Hi as [->|Hi]; [by left|right].
    apply list_elem_of_filter in Hi as [_ Hi]. by apply bool_decide_eq_true.
Qed.

Section witnesses.
#[local] Existing Instances NopProtocol map_order nop_chain SimpleRoundRobin.

Definition nop_val_map : ValidatorsEpochMapping ValidatorSet :=
  mkValidatorsEpochMapping {[ 1 := (four_validators, four_mapping) ]}.
Definition nop_etv : EpochToValidators := etv nop_epoch_manager nop_val_map.

Lemma four_leader r : ∃ n, simple_get_leader r (validators four_validators) = Ret n.
Proof.
  unfold simple_get_leader.
  assert (eligible (validators four_validators) = [1; 2; 3; 4]) as -> by (vm_compute; reflexivity).
  cbn [length]. pose proof (Z.mod_pos_bound r 4 ltac:(lia)) as Hm. change (Z.of_nat 4) with 4.
  revert Hm. generalize (r mod 4). intros i Hi.
  assert (i = 0 ∨ i = 1 ∨ i = 2 ∨ i = 3) as [->|[->|[->| ->]]] by lia; by eexists.
Qed.

Lemma nop_etv_ok : etv_ok nop_etv.
Proof.
  intros e r. unfold nop_etv, etv, epoch_to_validators.
  destruct (get_epoch nop_epoch_manager r) as [e'|]; simpl; [|by eexists].
  case_bool_decide; [by eexists|].
  destruct (decide (e = 1)) as [->|Hne].
  2: { unfold get_val_set. simpl. rewrite lookup_singleton_ne by done. by eexists. }
  assert (get_val_set nop_val_map 1 = Some four_validators) as -> by (vm_compute; reflexivity).
  assert (get_cert_pubkeys nop_val_map 1 = Some four_mapping) as -> by (vm_compute; reflexivity).
  destruct (four_leader r) as [n Hn]. cbn [try_bind ok_or].
  change (get_leader _ _) with (simple_get_leader r (validators four_validators)). rewrite Hn. eexists. split; [reflexivity|].
  intros vs vm leader [= <- _ _]. exact four_validators_wf.
Qed.

Lemma nop_cache_sound : cache_sound nop_etv certificate_cache_default.
Proof. apply certificate_cache_default_sound. apply _. Qed.

(** A certificate for [v] with the signatures of [signers]. *)
Definition nop_signed_qc (signers : list NodeId) (v : Vote) : QuorumCertificate :=
  mkQC (P := NopProtocol) v
    (mkMultiSig (map (λ n, nop_sign poly_hash SD_Vote (vote_digest (P := NopProtocol) v) n) signers)).

Lemma verify_qc_correct_witness :
  qc_valid nop_etv (nop_signed_qc [1; 2; 3] nop_vote) ∧ ¬ qc_valid nop_etv (nop_signed_qc [1; 2] nop_vote).
Proof.
  split.
  - destruct (verify_qc_correct nop_etv certificate_cache_default (nop_signed_qc [1; 2; 3] nop_vote)
      nop_etv_ok nop_cache_sound) as (r & c & Hr & _ & Hiff).
    apply Hiff. destruct (ret_with_spec (λ x, bool_decide (x.1 = Ok tt))
      (verify_qc nop_etv (nop_signed_qc [1; 2; 3] nop_vote) certificate_cache_default))
      as (x & Hx & Hok%bool_decide_eq_true); [vm_compute; reflexivity|].
    rewrite Hr in Hx. injection Hx as <-. exact Hok.
  - destruct (verify_qc_correct nop_etv certificate_cache_default (nop_signed_qc [1; 2] nop_vote)
      nop_etv_ok nop_cache_sound) as (r & c & Hr & _ & Hiff).
    rewrite <-Hiff. destruct (ret_with_spec (λ x, bool_decide (x.1 ≠ Ok tt))
      (verify_qc nop_etv (nop_signed_qc [1; 2] nop_vote) certificate_cache_default))
      as (x & Hx & Hok%bool_decide_eq_true); [vm_compute; reflexivity|].
    rewrite Hr in Hx. injection Hx as <-. exact Hok.
Defined.

Lemma verify_tc_correct_witness : tc_valid nop_etv nop_timeout_certificate.
Proof.
  destruct (verify_tc_correct nop_etv certificate_cache_default nop_timeout_certificate
    nop_etv_ok nop_cache_sound I) as (r & c & Hr & _ & Hiff).
  apply Hiff. destruct (ret_with_spec (λ x, bool_decide (x.1 = Ok tt))
    (verify_tc nop_etv nop_timeout_certificate certificate_cache_default))
    as (x & Hx & Hok%bool_decide_eq_true); [vm_compute; reflexivity|].
  rewrite Hr in Hx. injection Hx as <-. exact Hok.
Defined.

(** The block of round 8 by its leader, on a certificate of round 7. *)
Definition nop_tip8 : ConsensusTip :=
  tip_new (P := NopProtocol) 1 (nop_header 8 1 (nop_signed_qc [1; 2; 3] (mkVote 42 7 1))) None.
Definition nop_proposal : ProposalMessage :=
  mkProposalMessage (P := NopProtocol) 8 1 nop_tip8 (mkBody (P := NopProtocol) []) None.

Lemma nop_tip8_in_range : tip_in_range nop_tip8.
Proof. split; [change (7 < u64_max); unfold u64_max; lia|discriminate 1]. Qed.

Lemma proposal_validate_correct_witness : proposal_valid nop_epoch_manager nop_val_map nop_proposal.
Proof.
  destruct (proposal_validate_correct nop_epoch_manager nop_val_map certificate_cache_default nop_proposal
    nop_etv_ok nop_cache_sound) as (r & c & Hr & _ & Hiff); [split; [exact nop_tip8_in_range|discriminate 1]|].
  apply Hiff. destruct (ret_with_spec (λ x, bool_decide (x.1 = Ok tt))
    (proposal_validate nop_epoch_manager nop_val_map nop_proposal certificate_cache_default))
    as (x & Hx & Hok%bool_decide_eq_true); [vm_compute; reflexivity|].
  rewrite Hr in Hx. injection Hx as <-. exact Hok.
Defined.
(** The timeout of round 1 by a node that has seen nothing but genesis. *)
Definition nop_timeout1 (n : NodeId) : Timeout :=
  timeout_new (P := NopProtocol) n (mkTimeoutInfo 1 1 0 0) (HE_Qc nop_genesis_qc) None.

Lemma nop_timeout1_in_range n : timeout_in_range (mkTimeoutMessage (nop_timeout1 n)).
Proof. split; [exact I|]. split; [change (0 < u64_max); unfold u64_max; lia|discriminate 1]. Qed.

Lemma nop_timeout1_accepted n : n ∈ [1; 2; 3] →
  ret_with (λ x, bool_decide (x.1 = Ok tt))
    (timeout_validate nop_epoch_manager nop_val_map (mkTimeoutMessage (nop_timeout1 n)) certificate_cache_default) = true.
Proof. intros Hn. repeat (apply elem_of_cons in Hn as [->|Hn]; [vm_compute; reflexivity|]). by apply elem_of_nil in Hn. Qed.

Lemma timeout_validate_correct_witness :
  timeout_valid nop_epoch_manager nop_val_map (mkTimeoutMessage (nop_timeout1 2)).
Proof.
  destruct (timeout_validate_correct nop_epoch_manager nop_val_map certificate_cache_default
    (mkTimeoutMessage (nop_timeout1 2)) nop_etv_ok nop_cache_sound (nop_timeout1_in_range 2)) as (r & c & Hr & _ & Hiff).
  apply Hiff. destruct (ret_with_spec _ _ (nop_timeout1_accepted 2 ltac:(set_solver)))
    as (x & Hx & Hok%bool_decide_eq_true).
  rewrite Hr in Hx. injection Hx as <-. exact Hok.
Defined.

Lemma nop_timeout1_valid n : n ∈ [1; 2; 3] →
  timeout_valid nop_epoch_manager nop_val_map (mkTimeoutMessage (nop_timeout1 n)).
Proof.
  intros Hn. destruct (timeout_validate_decides nop_epoch_manager nop_val_map nop_etv_ok
    _ (nop_timeout1_in_range n) _ nop_cache_sound) as (r & c & Hr & _ & Hiff).
  apply Hiff. destruct (ret_with_spec _ _ (nop_timeout1_accepted n Hn)) as (x & Hx & Hok%bool_decide_eq_true).
  rewrite Hr in Hx. injection Hx as <-. exact Hok.
Qed.

Definition nop_timeouts1 : list (NodeId * Timeout) := [(1, nop_timeout1 1); (2, nop_timeout1 2); (3, nop_timeout1 3)].
Definition nop_tc1 : TimeoutCertificate :=
  mkTC (P := NopProtocol) 1 1
    [mkHighTipRoundSigColTuple (P := NopProtocol) 0 0
       (mkMultiSig [t_timeout_signature (nop_timeout1 1); t_timeout_signature (nop_timeout1 2);
                    t_timeout_signature (nop_timeout1 3)])]
    (HE_Qc nop_genesis_qc).

Lemma tc_new_verifies_witness :
  ∃ cache', verify_tc nop_etv nop_tc1 certificate_cache_default = Ret (Ok tt, cache').
Proof.
  apply (tc_new_verifies nop_epoch_manager nop_val_map certificate_cache_default 1 1 nop_timeouts1
    four_validators four_mapping 2 nop_tc1).
  - exact nop_etv_ok.
  - exact nop_cache_sound.
  - vm_compute; reflexivity.
  - exact four_mapping_injective.
  - by apply (bool_decide_unpack _).
  - vm_compute; reflexivity.
  - intros n t Hin. assert (∃ m, m ∈ [1; 2; 3] ∧ t = nop_timeout1 m) as (m & Hm & ->).
    { repeat (apply elem_of_cons in Hin as [[= -> ->]|Hin]; [eexists; split; [|reflexivity]; set_solver|]).
      by apply elem_of_nil in Hin. }
    split; [exact (nop_timeout1_valid m Hm)|]. split; [reflexivity|]. split; [reflexivity|].
    change (0 <= 0 < 1). lia.
  - exact I.
  - vm_decide.
Defined.

(** The vote in round 6 of a node that ran [nop_vote_ops]. *)
Definition nop_vote6 : Vote := mkVote (tip_id (tip_new (P := NopProtocol) 1 (nop_header 6 1 (nop_qc 5 42)) None)) 6 1.

Lemma qc_agreement_witness :
  ∃ votes, vote_log ValidatorSet votes ∧ nop_vote6 ∈ votes ∧
    qc_info (nop_signed_qc [1; 2; 3] nop_vote6) = qc_info (nop_signed_qc [1; 2; 4] nop_vote6).
Proof.
  destruct (ret_with_spec (λ r, bool_decide (nop_vote6 ∈ r.2))
    (vote_run (nop_pacemaker 5 ∅ PhaseHonest_Zero) (nop_safety 5) nop_vote_ops))
    as ([[pm' s'] votes] & Hrun & Hin%bool_decide_eq_true); [vm_compute; reflexivity|].
  assert (vote_log ValidatorSet votes) as Hlog.
  { exists (from_millis 100), (from_millis 100), nop_epoch_manager, (RC_Qc (nop_qc 4 42)),
      (nop_pacemaker 5 ∅ PhaseHonest_Zero), (nop_safety 5), nop_vote_ops, pm', s'.
    split; [reflexivity|]. split; [reflexivity|exact Hrun]. }
  assert (∀ signers, signers ∈ [[1; 2; 3]; [1; 2; 4]] → qc_valid nop_etv (nop_signed_qc signers nop_vote6)) as Hvalid.
  { intros signers Hs. destruct (verify_qc_decides nop_etv nop_etv_ok (nop_signed_qc signers nop_vote6) _ nop_cache_sound)
      as (r & c & Hr & _ & Hiff). apply Hiff.
    assert (ret_with (λ x, bool_decide (x.1 = Ok tt))
      (verify_qc nop_etv (nop_signed_qc signers nop_vote6) certificate_cache_default) = true) as Hok.
    { repeat (apply elem_of_cons in Hs as [->|Hs]; [vm_compute; reflexivity|]). by apply elem_of_nil in Hs. }
    apply ret_with_spec in Hok as (x & Hx & Hok%bool_decide_eq_true). rewrite Hr in Hx. injection Hx as <-. exact Hok. }
  exists votes. split; [exact Hlog|]. split; [exact Hin|].
  apply (qc_agreement nop_etv (nop_signed_qc [1; 2; 3] nop_vote6) (nop_signed_qc [1; 2; 4] nop_vote6)
    four_validators four_mapping 3 [4] (λ _, votes)).
  - apply Hvalid. set_solver.
  - apply Hvalid. set_solver.
  - reflexivity.
  - reflexivity.
  - vm_compute; reflexivity.
  - exact four_validators_wf.
  - by apply (bool_decide_unpack _).
  - vm_compute; reflexivity.
  - intros n _. exact Hlog.
  - intros qc nodes n [-> | ->] _ _ _; exact Hin.
Defined.

Lemma consensus_message_sign_verify_witness :
  let m := mkConsensusMessage (P := NopProtocol) 1 (PM_Vote (nop_vote_message 1)) in
  unverified_verify nop_epoch_manager nop_val_map (unverified_from (consensus_message_sign m 1)) =
    Ok (mkVerified 1 (unverified_from (consensus_message_sign m 1))).
Proof.
  intros m. apply (consensus_message_sign_verify nop_epoch_manager nop_val_map m 1 1 four_validators).
  - intros d msg kp. exact (nop_recover_sign poly_hash d msg kp).
  - vm_compute; reflexivity.
  - vm_compute; reflexivity.
  - vm_compute; eauto.
Defined.

(** ** A certificate of validated timeouts that does not verify *)

(** Validation bounds the QC round a timeout reports by its tip, not by the round
    timed out. Node 4, the leader of round 3, times out round 1 with its tip of
    round 3, reporting a QC of round 2. *)
Definition nop_no_tip2 : NoTipCertificate :=
  mkNoTipCertificate (P := NopProtocol) 1 2
    [mkHighTipRoundSigColTuple (P := NopProtocol) 0 0
       (mkMultiSig (map (λ n, nop_sign poly_hash SD_Timeout
                                (timeout_digest (P := NopProtocol) (mkTimeoutInfo 1 2 0 0)) n) [1; 2; 3]))]
    nop_genesis_qc.
Definition nop_tip3 : ConsensusTip :=
  tip_new (P := NopProtocol) 4
    (mkHeader (P := NopProtocol) 3 1 nop_genesis_qc 4 1 3000 (round_signature_new (P := NopProtocol) 3 4) [] tt
       (body_get_id (P := NopProtocol) (mkBody (P := NopProtocol) [])))
    (Some (FPC_NoTip nop_no_tip2)).
Definition nop_early_timeout : Timeout :=
  timeout_new (P := NopProtocol) 4 (mkTimeoutInfo 1 1 2 3) (HE_Tip nop_tip3) None.

Definition nop_unverifiable_tc : exec (list (result unit ValidationError) * result unit ValidationError) :=
  '(r1, c) ← timeout_validate nop_epoch_manager nop_val_map (mkTimeoutMessage (nop_timeout1 1)) certificate_cache_default;
  '(r2, c) ← timeout_validate nop_epoch_manager nop_val_map (mkTimeoutMessage (nop_timeout1 2)) c;
  '(r4, c) ← timeout_validate nop_epoch_manager nop_val_map (mkTimeoutMessage nop_early_timeout) c;
  tc ← tc_new 1 1 [(1, nop_timeout1 1); (2, nop_timeout1 2); (4, nop_early_timeout)] four_mapping;
  tc ← unwrap tc;
  '(r, _) ← verify_tc nop_etv tc c;
  Ret ([r1; r2; r4], r).

(** Three timeouts that each pass validation make a certificate that
    [verify_tc] rejects. *)
Example validated_timeouts_unverifiable_tc :
  nop_unverifiable_tc = Ret ([Ok tt; Ok tt; Ok tt], Err InvalidTcRound).
Proof. vm_decide. Qed.

End witnesses.
