(* ===== verification/ConsensusState.v ===== *)
(** The consensus state machine of a node
    (src/monad-consensus-state/src/lib.rs and command.rs): the handlers of
    messages, timers and synced blocks, and the commands they output. The
    mutable references of [ConsensusStateWrapper] are the state of a small
    state monad, the others its environment; metrics and tracing are left out. *)

From S2P Require Import Prelude Types ValidatorSet EpochManager LeaderElection Crypto MultiSig.
From S2P Require Import ConsensusTypes ChainConfig Safety Pacemaker VoteState Timestamp BlockPolicy.
From S2P Require Import BlockTree Messages.

#[local] Open Scope Z_scope.

(** ** Block validators *)

Inductive BlockValidationError :=
| SystemTxnError
| TxnError
| RandaoError
| HeaderError
| PayloadError
| HeaderPayloadMismatchError
| BlockTimestampError.

(** [trait BlockValidator]: header, body, author key, transaction limit, gas
    limit, byte limit, code size. *)
Class BlockValidator `{BP : BlockPolicy} := {
  block_validate : ConsensusBlockHeader → ConsensusBlockBody → option PubKey → Z → Z → Z → Z →
    exec (result ValidatedBlock BlockValidationError);
}.

(** [MockValidator] *)
Definition MockValidator `{P : Protocol} : @BlockValidator P PassthruBlockPolicy :=
  Build_BlockValidator P PassthruBlockPolicy
    (λ header body _ _ _ _ _, Ret (ok_or (full_block_new header body) HeaderPayloadMismatchError)).

(** [RouterTarget]; the completion channel of a TCP message is not modelled. *)
Inductive RouterTarget :=
| Broadcast (epoch : Epoch)
| Raptorcast (epoch : Epoch)
| PointToPoint (to : NodeId)
| TcpPointToPoint (to : NodeId).

Inductive OptimisticPolicyCommit `{BP : BlockPolicy} :=
| Proposed (block : ValidatedBlock)
| Finalized (block : ValidatedBlock).

(** ** Commands *)

Section command.
Context `{BP : BlockPolicy}.

Inductive ConsensusCommand :=
| CC_EnterRound (epoch : Epoch) (round : Round)
| CC_Publish (target : RouterTarget) (message : Verified (Validated ConsensusMessage))
| CC_PublishToFullNodes (epoch : Epoch) (message : Verified (Validated ConsensusMessage))
| CC_Schedule (round : Round) (duration : Duration)
| CC_ScheduleReset
| CC_CreateProposal (epoch : Epoch) (round : Round) (seq_num : SeqNum) (high_qc : QuorumCertificate)
    (round_signature : SignatureType) (last_round_tc : option TimeoutCertificate)
    (fresh_proposal_certificate : option FreshProposalCertificate)
    (tx_limit proposal_gas_limit proposal_byte_limit : Z) (beneficiary : Z) (timestamp_ns : Z)
    (extending_blocks : list ValidatedBlock) (delayed_execution_results : list FinalizedHeader)
| CC_CommitBlocks (commit : OptimisticPolicyCommit)
| CC_RequestSync (range : BlockRange)
| CC_CancelSync (range : BlockRange)
| CC_RequestStateSync (root : ConsensusBlockHeader) (high_qc : QuorumCertificate)
| CC_TimestampUpdate (adjustment : TimestampAdjustment)
| CC_ScheduleVote (duration : Duration) (round : Round).

(** [ConsensusCommand::from_pacemaker_command] *)
Definition from_pacemaker_command (keypair : ST_KeyPair) (cert_keypair : CertKeyPair) (version : Z)
    (cmd : PacemakerCommand) : list ConsensusCommand :=
  match cmd with
  | EnterRound epoch round high_certificate =>
      [CC_EnterRound epoch round;
       CC_PublishToFullNodes epoch
         (consensus_message_sign
            (mkConsensusMessage version (PM_AdvanceRound (mkAdvanceRoundMessage high_certificate))) keypair)]
  | PrepareTimeout timeout high_extend last_round_certificate =>
      [CC_Publish (Broadcast (tm_epoch timeout))
         (consensus_message_sign
            (mkConsensusMessage version
               (PM_Timeout (timeout_message_new cert_keypair timeout high_extend last_round_certificate))) keypair)]
  | Schedule round duration => [CC_Schedule round duration]
  | ScheduleReset => [CC_ScheduleReset]
  end.
End command.

(** ** State *)

Definition NUM_LEADERS_FORWARD_TXS : nat := 3.
Definition NUM_LEADERS_SELF_UPCOMING : nat := 3.
Definition FUTURE_VOTE_BOUND : Round := 10.

Record BlockSyncRequestStatus := mkBlockSyncRequestStatus {
  bsr_range : BlockRange;
  bsr_cancel_round : Round;
}.

Inductive OutgoingVoteStatus :=
| TimerFired
| VoteReady (v : Vote).

Record ConsensusConfig := mkConsensusConfig {
  cfg_execution_delay : SeqNum;
  cfg_delta : Duration;
  cfg_live_to_statesync_threshold : SeqNum;
  cfg_statesync_to_live_threshold : SeqNum;
  cfg_start_execution_threshold : SeqNum;
  cfg_timestamp_latency_estimate_ns : Z;
}.

Section state.
Context `{BP : BlockPolicy} `{BVT : !BlockValidator} `{HashOrder}.
Context {VT : Type} `{ValidatorSetType VT} `{LT : LeaderElection} `{CCT : ChainConfig}.

Record ConsensusState := mkConsensusState {
  pending_block_tree : BlockTree;
  vote_state : VoteState;
  no_endorsement_state : NoEndorsementState;
  scheduled_vote : option OutgoingVoteStatus;
  safety : Safety;
  pacemaker : Pacemaker;
  block_sync_requests : gmap BlockId BlockSyncRequestStatus;
}.

(** The fields of the wrapper behind [&mut]. *)
Record Node := mkNode {
  consensus : ConsensusState;
  epoch_manager : EpochManager;
  block_policy : BPT;
}.

(** The other fields of the wrapper. *)
Record Env := mkEnv {
  state_backend : SBT;
  val_epoch_map : ValidatorsEpochMapping VT;
  version : Z;
  block_timestamp : BlockTimestamp;
  beneficiary : Z;
  nodeid : NodeId;
  config : ConsensusConfig;
  keypair : ST_KeyPair;
  cert_keypair : CertKeyPair;
}.

(** [ConsensusState::new] *)
Definition consensus_state_new (em : EpochManager) (config : ConsensusConfig) (root : RootInfo)
    (high_certificate : RoundCertificate) : exec ConsensusState :=
  pacemaker ← pacemaker_new (cfg_delta config) (cfg_delta config) em high_certificate;
  round ← get_current_round pacemaker;
  safety ← safety_new high_certificate None;
  Ret (mkConsensusState (block_tree_new root) (vote_state_new round) (no_endorsement_state_new round)
         None safety pacemaker ∅).
End state.

(** * Handlers *)

Section handlers.
Context `{BP : BlockPolicy} `{BVT : !BlockValidator} `{HashOrder}.
Context {VT : Type} `{ValidatorSetType VT} `{LT : LeaderElection} `{CCT : ChainConfig}.
Notation Node := (@Node _ BP).
Notation ConsensusState := (@ConsensusState _ BP).

(** A step of the state machine: [&mut self], which may panic. *)
Definition step (A : Type) : Type := Node → exec (A * Node).
#[local] Instance step_ret : MRet step := λ A a n, Ret (a, n).
#[local] Instance step_bind : MBind step := λ A B f m n, '(a, n) ← m n; f a n.

Definition lift {A} (m : exec A) : step A := λ n, a ← m; Ret (a, n).
Definition get {A} (f : Node → A) : step A := λ n, Ret (f n, n).
Definition modify_consensus (f : ConsensusState → ConsensusState) : step unit := λ n,
  Ret (tt, mkNode (f (consensus n)) (epoch_manager n) (block_policy n)).

Definition set_block_tree (t : BlockTree) : step unit := modify_consensus (λ c,
  mkConsensusState t (vote_state c) (no_endorsement_state c) (scheduled_vote c) (safety c) (pacemaker c)
    (block_sync_requests c)).
Definition set_vote_state (v : VoteState) : step unit := modify_consensus (λ c,
  mkConsensusState (pending_block_tree c) v (no_endorsement_state c) (scheduled_vote c) (safety c) (pacemaker c)
    (block_sync_requests c)).
Definition set_no_endorsement_state (v : NoEndorsementState) : step unit := modify_consensus (λ c,
  mkConsensusState (pending_block_tree c) (vote_state c) v (scheduled_vote c) (safety c) (pacemaker c)
    (block_sync_requests c)).
Definition set_scheduled_vote (v : option OutgoingVoteStatus) : step unit := modify_consensus (λ c,
  mkConsensusState (pending_block_tree c) (vote_state c) (no_endorsement_state c) v (safety c) (pacemaker c)
    (block_sync_requests c)).
Definition set_safety (s : Safety) : step unit := modify_consensus (λ c,
  mkConsensusState (pending_block_tree c) (vote_state c) (no_endorsement_state c) (scheduled_vote c) s
    (pacemaker c) (block_sync_requests c)).
Definition set_pacemaker (p : Pacemaker) (s : Safety) : step unit := modify_consensus (λ c,
  mkConsensusState (pending_block_tree c) (vote_state c) (no_endorsement_state c) (scheduled_vote c) s p
    (block_sync_requests c)).
Definition set_block_sync_requests (m : gmap BlockId BlockSyncRequestStatus) : step unit := modify_consensus (λ c,
  mkConsensusState (pending_block_tree c) (vote_state c) (no_endorsement_state c) (scheduled_vote c) (safety c)
    (pacemaker c) m).
Definition set_epoch_manager (em : EpochManager) : step unit := λ n,
  Ret (tt, mkNode (consensus n) em (block_policy n)).
Definition set_block_policy (p : BPT) : step unit := λ n,
  Ret (tt, mkNode (consensus n) (epoch_manager n) p).

Definition get_safety : step Safety := get (λ n, safety (consensus n)).
Definition get_pacemaker : step Pacemaker := get (λ n, pacemaker (consensus n)).
Definition get_tree : step BlockTree := get (λ n, pending_block_tree (consensus n)).
Definition get_requests : step (gmap BlockId BlockSyncRequestStatus) := get (λ n, block_sync_requests (consensus n)).
Definition current_round : step Round := λ n,
  r ← get_current_round (pacemaker (consensus n)); Ret (r, n).

(** ** Block sync requests *)

Definition request_blocks_if_missing_ancestor : step (list ConsensusCommand) :=
  pm ← get_pacemaker;
  tree ← get_tree;
  requests ← get_requests;
  let high_qc := rc_qc (pm_high_certificate pm) in
  missing ← lift (maybe_fill_path_to_root tree high_qc);
  match missing with
  | None => mret []
  | Some range =>
      _ ← lift (assert (bool_decide (br_num_blocks range ≠ 0)));
      if bool_decide (is_Some (requests !! br_last_block_id range)) then mret [] else
      _ ← set_block_sync_requests
            (<[br_last_block_id range := mkBlockSyncRequestStatus range (qc_round high_qc)]> requests);
      mret [CC_RequestSync range]
  end.

Definition request_tip_if_missing : step (list ConsensusCommand) :=
  pm ← get_pacemaker;
  tree ← get_tree;
  requests ← get_requests;
  match pm_high_certificate pm with
  | RC_Tc tc =>
      match tc_high_extend tc with
      | HE_Tip tip =>
          let tip_id := header_get_id (tip_block_header tip) in
          if bool_decide (is_Some (bt_get_block tree tip_id)) then mret []
          else if bool_decide (is_Some (requests !! tip_id)) then mret []
          else
            let range := mkBlockRange tip_id 1 in
            _ ← set_block_sync_requests
                  (<[tip_id := mkBlockSyncRequestStatus range (h_block_round (tip_block_header tip))]> requests);
            mret [CC_RequestSync range]
      | HE_Qc _ => mret []
      end
  | RC_Qc _ => mret []
  end.

Context (env : Env (VT := VT)).

Definition from_pacemaker (cmds : list PacemakerCommand) : list ConsensusCommand :=
  concat (map (from_pacemaker_command (keypair env) (cert_keypair env) (version env)) cmds).

Definition sign_message (m : ProtocolMessage) : Verified (Validated ConsensusMessage) :=
  consensus_message_sign (mkConsensusMessage (version env) m) (keypair env).

(** The [get_leader] and [lookup_leader] closures. *)
Definition leader_of (round : Round) : step NodeId :=
  em ← get epoch_manager;
  epoch ← lift (expect (get_epoch em round));
  validator_set ← lift (expect (get_val_set (val_epoch_map env) epoch));
  lift (get_leader round (get_members validator_set)).

(** ** Committing *)

(** The loop of [try_commit] over the committed blocks. *)
Fixpoint commit_blocks (blocks : list ValidatedBlock) : step (list ConsensusCommand) :=
  match blocks with
  | [] => mret []
  | block :: blocks =>
      policy ← get block_policy;
      policy ← lift (update_committed_block policy block);
      _ ← set_block_policy policy;
      em ← get epoch_manager;
      em ← lift (schedule_epoch_start em (vb_seq_num block) (vb_block_round block));
      _ ← set_epoch_manager em;
      cmds ← commit_blocks blocks;
      mret (CC_CommitBlocks (Finalized block) :: cmds)
  end.

Definition try_commit (qc : QuorumCertificate) : step (list ConsensusCommand) :=
  tree ← get_tree;
  match bt_get_block tree (qc_block_id qc) with
  | None => mret []
  | Some qc_parent =>
      committable ← lift (get_committable_id qc (vb_header qc_parent));
      match committable with
      | None => mret []
      | Some committable_block_id =>
          if negb (is_coherent tree committable_block_id) then mret [] else
          '(blocks_to_commit, tree) ← lift (prune tree committable_block_id);
          _ ← set_block_tree tree;
          commit_blocks blocks_to_commit
      end
  end.

Definition cs_try_update_coherency (updated_block_id : BlockId) : step (list ConsensusCommand) :=
  tree ← get_tree;
  policy ← get block_policy;
  '(newly_coherent, tree) ← lift (try_update_coherency tree updated_block_id policy (state_backend env));
  _ ← set_block_tree tree;
  high_commit_qc ← lift (get_high_committable_qc tree);
  cmds ← match high_commit_qc with
         | Some qc => try_commit qc
         | None => mret []
         end;
  mret (map (λ b, CC_CommitBlocks (Proposed b)) newly_coherent ++ cmds).

Definition maybe_statesync : step (list ConsensusCommand) :=
  tree ← get_tree;
  pm ← get_pacemaker;
  match get_seq_num_of_qc tree (rc_qc (pm_high_certificate pm)) with
  | None => mret []
  | Some high_qc_seq_num =>
      limit ← lift (seq_num_add (get_root_seq_num tree) (cfg_live_to_statesync_threshold (config env)));
      if bool_decide (limit > high_qc_seq_num) then mret [] else lift Panic
  end.
(** ** Proposing *)

(** The first [match] of [try_propose]: what a proposal extends, the certificate
    that allows a fresh proposal, and the TC of the last round. *)
Definition proposal_basis (round : Round) (high_certificate : RoundCertificate) (nes : NoEndorsementState) :
    HighExtend * option FreshProposalCertificate * option TimeoutCertificate :=
  match high_certificate with
  | RC_Tc tc =>
      let last_round_tc := Some tc in
      match get_nec nes round with
      | Some nec => (HE_Qc (high_extend_qc (tc_high_extend tc)), Some (FPC_Nec nec), last_round_tc)
      | None =>
          match tc_high_extend tc with
          | HE_Tip tip => (HE_Tip tip, None, last_round_tc)
          | HE_Qc qc =>
              (HE_Qc qc,
               Some (FPC_NoTip (mkNoTipCertificate (tc_epoch tc) (tc_round tc) (tc_tip_rounds tc) qc)),
               last_round_tc)
          end
      end
  | RC_Qc qc => (HE_Qc qc, None, None)
  end.

(** The branch of [try_propose] that reproposes a tip, or asks for its recovery. *)
Definition repropose (round : Round) (tip : ConsensusTip) (last_round_tc : option TimeoutCertificate) :
    step (list ConsensusCommand) :=
  let tip_id := header_get_id (tip_block_header tip) in
  cmds ← cs_try_update_coherency tip_id;
  tree ← get_tree;
  s ← get_safety;
  pm ← get_pacemaker;
  let is_votable_ts := bool_decide (h_timestamp_ns (tip_block_header tip) < get_current_time (block_timestamp env)) in
  if negb (is_coherent tree tip_id) || negb is_votable_ts then
    if negb (is_safe_to_recovery_request s round) then mret cmds else
    s ← lift (safety_recovery_request s round);
    _ ← set_safety s;
    tc ← lift (expect last_round_tc);
    round ← current_round;
    mret (cmds ++ [CC_Publish (Broadcast (pm_current_epoch pm))
                     (sign_message (PM_RoundRecovery (mkRoundRecoveryMessage round (pm_current_epoch pm) tc)))])
  else
    s ← lift (safety_propose s round);
    _ ← set_safety s;
    block ← lift (expect (bt_get_block tree tip_id));
    round ← current_round;
    mret (cmds ++ [CC_Publish (Raptorcast (pm_current_epoch pm))
                     (sign_message (PM_Proposal (mkProposalMessage round (pm_current_epoch pm) tip (vb_body block)
                                                       last_round_tc)))]).

(** The branch of [try_propose] that asks the transaction pool for a block. *)
Definition propose_fresh (epoch : Epoch) (round : Round) (qc : QuorumCertificate)
    (fresh_proposal_certificate : option FreshProposalCertificate)
    (last_round_tc : option TimeoutCertificate) : step (list ConsensusCommand) :=
  cmds ← cs_try_update_coherency (qc_block_id qc);
  tree ← get_tree;
  if negb (is_coherent tree (qc_block_id qc)) then mret cmds else
  let round_signature := round_signature_new round (cert_keypair env) in
  path ← lift (get_blocks_on_path_from_root tree (qc_block_id qc));
  pending_blocktree_blocks ← lift (expect path);
  '(try_propose_seq_num, timestamp_ns) ←
    match last pending_blocktree_blocks with
    | Some extending_block =>
        n ← lift (seq_num_add (vb_seq_num extending_block) 1);
        mret (n, get_valid_block_timestamp (block_timestamp env) (vb_timestamp extending_block))
    | None =>
        n ← lift (seq_num_add (get_root_seq_num tree) 1);
        mret (n, get_valid_block_timestamp (block_timestamp env) (get_root_timestamp tree))
    end;
  policy ← get block_policy;
  results ← lift (get_expected_execution_results policy try_propose_seq_num pending_blocktree_blocks
                    (state_backend env));
  match results with
  | Err _ => mret cmds
  | Ok delayed_execution_results =>
      s ← get_safety;
      s ← lift (safety_propose s round);
      _ ← set_safety s;
      let params := get_chain_revision round in
      mret (cmds ++ [CC_CreateProposal epoch round try_propose_seq_num qc round_signature last_round_tc
                       fresh_proposal_certificate (tx_limit params) (proposal_gas_limit params)
                       (proposal_byte_limit params) (beneficiary env) timestamp_ns
                       pending_blocktree_blocks delayed_execution_results])
  end.

Definition try_propose : step (list ConsensusCommand) :=
  round ← current_round;
  em ← get epoch_manager;
  epoch ← lift (expect (get_epoch em round));
  validator_set ← lift (expect (get_val_set (val_epoch_map env) epoch));
  leader ← lift (get_leader round (get_members validator_set));
  if bool_decide (nodeid env ≠ leader) then mret [] else
  cmds ← request_tip_if_missing;
  s ← get_safety;
  if negb (is_safe_to_propose s round) then mret cmds else
  pm ← get_pacemaker;
  nes ← get (λ n, no_endorsement_state (consensus n));
  let '(high_extend, fresh_proposal_certificate, last_round_tc) :=
    proposal_basis round (pm_high_certificate pm) nes in
  cmds' ← match high_extend with
          | HE_Tip tip => repropose round tip last_round_tc
          | HE_Qc qc => propose_fresh epoch round qc fresh_proposal_certificate last_round_tc
          end;
  mret (cmds ++ cmds').

(** ** Certificates *)

(** The loop of [process_qc] that cancels obsolete block sync requests. *)
Fixpoint cancel_requests (to_cancel : list BlockId) : step (list ConsensusCommand) :=
  match to_cancel with
  | [] => mret []
  | block_id :: to_cancel =>
      requests ← get_requests;
      canceled_request ← lift (expect (requests !! block_id));
      _ ← set_block_sync_requests (delete block_id requests);
      cmds ← cancel_requests to_cancel;
      mret (CC_CancelSync (bsr_range canceled_request) :: cmds)
  end.

(** The call of [Pacemaker::process_certificate] in [process_qc] and [process_tc]. *)
Definition advance_round (certificate : RoundCertificate) : step (list ConsensusCommand) :=
  pm ← get_pacemaker;
  s ← get_safety;
  em ← get epoch_manager;
  '(pm, s, cmds) ← lift (pm_process_certificate pm em s certificate);
  _ ← set_pacemaker pm s;
  mret (from_pacemaker cmds).

Definition process_qc (qc : QuorumCertificate) : step (list ConsensusCommand) :=
  round ← current_round;
  if bool_decide (qc_round qc < round) then mret [] else
  cmds1 ← try_commit qc;
  tree ← get_tree;
  requests ← get_requests;
  let to_cancel :=
    omap (λ bs : BlockId * BlockSyncRequestStatus,
            if bool_decide (bsr_cancel_round bs.2 <= ri_round (root_info (bt_root tree))) then Some bs.1 else None)
      (btree_iter requests) in
  cmds2 ← cancel_requests to_cancel;
  cmds3 ← maybe_statesync;
  cmds4 ← advance_round (RC_Qc qc);
  cmds5 ← request_blocks_if_missing_ancestor;
  round ← current_round;
  vs ← get (λ n, vote_state (consensus n));
  _ ← set_vote_state (vote_state_start_new_round vs round);
  nes ← get (λ n, no_endorsement_state (consensus n));
  _ ← set_no_endorsement_state (no_endorsement_start_new_round nes round);
  cmds6 ← try_propose;
  mret (cmds1 ++ cmds2 ++ cmds3 ++ cmds4 ++ cmds5 ++ cmds6).

Definition process_tc (tc : TimeoutCertificate) : step (list ConsensusCommand) :=
  round ← current_round;
  if bool_decide (tc_round tc < round) then mret [] else
  cmds ← advance_round (RC_Tc tc);
  cmds' ← try_propose;
  mret (cmds ++ cmds').

(** ** Voting *)

Definition send_vote_and_reset_timer (round : Round) (vote : Vote) : step (list ConsensusCommand) :=
  let vote_msg := vote_message_new vote (cert_keypair env) in
  let message := sign_message (PM_Vote vote_msg) in
  next_round ← lift (round_add round 1);
  next_leader ← leader_of next_round;
  current_leader ← leader_of round;
  _ ← set_scheduled_vote None;
  mret ([CC_Publish (PointToPoint next_leader) message] ++
        (if bool_decide (current_leader ≠ next_leader)
         then [CC_Publish (PointToPoint current_leader) message] else []) ++
        [CC_ScheduleVote (vote_pace (get_chain_revision next_round)) next_round]).

Definition try_vote (last_round_tc : option TimeoutCertificate) (tip : ConsensusTip) :
    step (list ConsensusCommand) :=
  let h := tip_block_header tip in
  proposal_round ← current_round;
  tree ← get_tree;
  match get_timestamp_of_qc tree (h_qc h), get_block_round_of_qc tree (h_qc h) with
  | Some parent_timestamp, Some parent_block_round =>
      let is_reproposal := bool_decide (proposal_round ≠ h_block_round h) in
      match valid_block_timestamp (block_timestamp env) parent_timestamp (h_timestamp_ns h)
              (vote_pace (get_chain_revision proposal_round)) is_reproposal with
      | None => mret []
      | Some _ =>
          if negb (is_coherent tree (header_get_id h)) then mret [] else
          let last_round_tc_tip :=
            tc ← last_round_tc;
            match tc_high_extend tc with
            | HE_Qc _ => None
            | HE_Tip tc_tip => Some (header_get_id (tip_block_header tc_tip))
            end in
          s ← get_safety;
          if negb (is_safe_to_vote s proposal_round last_round_tc_tip) then mret [] else
          s ← lift (safety_vote s proposal_round last_round_tc_tip tip);
          _ ← set_safety s;
          pm ← get_pacemaker;
          let v := mkVote (header_get_id h) proposal_round (pm_current_epoch pm) in
          scheduled ← get (λ n, scheduled_vote (consensus n));
          let schedule :=
            next ← lift (round_add parent_block_round 1);
            if bool_decide (next ≠ proposal_round)
            then send_vote_and_reset_timer proposal_round v
            else _ ← set_scheduled_vote (Some (VoteReady v)); mret [] in
          match scheduled with
          | Some TimerFired => send_vote_and_reset_timer proposal_round v
          | Some (VoteReady r) =>
              if bool_decide (vote_round r >= vote_round v) then lift Panic else schedule
          | None => schedule
          end
      end
  | _, _ => mret []
  end.

Definition handle_vote_timer (round : Round) : step (list ConsensusCommand) :=
  scheduled ← get (λ n, scheduled_vote (consensus n));
  match scheduled with
  | Some (VoteReady v) => send_vote_and_reset_timer round v
  | _ => _ ← set_scheduled_vote (Some TimerFired); mret []
  end.

(** ** Blocks *)

(** [u64::try_from(timestamp_ns / 1_000_000_000).unwrap_or(u64::MAX)] *)
Definition timestamp_s (timestamp_ns : Z) : Z :=
  let s := timestamp_ns / 1000000000 in if bool_decide (s <= u64_max) then s else u64_max.

Definition validate_block (header : ConsensusBlockHeader) (body : ConsensusBlockBody) :
    step (option ValidatedBlock) :=
  tree ← get_tree;
  match bt_get_block tree (header_get_id header) with
  | Some validated =>
      mret (if bool_decide (vb_body_id validated ≠ body_get_id body) then None else Some validated)
  | None =>
      let block_round := h_block_round header in
      block_round_leader ← leader_of block_round;
      if bool_decide (h_author header ≠ block_round_leader) then mret None else
      let params := get_chain_revision block_round in
      let code_size := max_code_size (get_execution_chain_revision (timestamp_s (h_timestamp_ns header))) in
      pubkeys ← lift (expect (get_cert_pubkeys (val_epoch_map env) (h_epoch header)));
      author_pubkey ← lift (expect (mapping pubkeys !! h_author header));
      validated ← lift (block_validate header body (Some author_pubkey) (tx_limit params)
                          (proposal_gas_limit params) (proposal_byte_limit params) code_size);
      mret (match validated with Ok block => Some block | Err _ => None end)
  end.

Definition try_add_and_commit_blocktree (block : ValidatedBlock)
    (vote : option (Round * option TimeoutCertificate * ConsensusTip)) : step (list ConsensusCommand) :=
  tree ← get_tree;
  tree ← lift (block_tree_add tree block);
  _ ← set_block_tree tree;
  cmds1 ← cs_try_update_coherency (vb_id block);
  cmds2 ← match vote with
          | Some (proposal_round, last_round_tc, tip) =>
              round ← current_round;
              if bool_decide (proposal_round = round) then
                _ ← lift (assert (bool_decide (header_get_id (tip_block_header tip) = vb_id block)));
                try_vote last_round_tc tip
              else mret []
          | None => mret []
          end;
  cmds3 ← try_propose;
  cmds4 ← maybe_statesync;
  cmds5 ← request_blocks_if_missing_ancestor;
  mret (cmds1 ++ cmds2 ++ cmds3 ++ cmds4 ++ cmds5).

(** ** Messages *)

Definition handle_timeout_expiry (timeout_round : Round) : step (list ConsensusCommand) :=
  round ← current_round;
  if bool_decide (timeout_round < round) then mret [] else
  pm ← get_pacemaker;
  s ← get_safety;
  '(pm, s, cmds) ← lift (process_local_timeout pm s);
  _ ← set_pacemaker pm s;
  mret (from_pacemaker cmds).

Definition handle_proposal_message (author : NodeId) (p : ProposalMessage) : step (list ConsensusCommand) :=
  tree ← get_tree;
  if bool_decide (p_proposal_round p <= ri_round (root_info (bt_root tree))) then mret [] else
  em ← get epoch_manager;
  epoch ← lift (expect (get_epoch em (p_proposal_round p)));
  validator_set ← lift (expect (get_val_set (val_epoch_map env) epoch));
  cmds1 ← process_qc (h_qc (tip_block_header (p_tip p)));
  cmds2 ← match p_last_round_tc p with
          | Some last_round_tc => process_tc last_round_tc
          | None => mret []
          end;
  pacemaker_round ← current_round;
  let proposal_round := p_proposal_round p in
  expected_leader ← lift (get_leader proposal_round (get_members validator_set));
  if bool_decide (proposal_round > pacemaker_round) || bool_decide (author ≠ expected_leader)
  then mret (cmds1 ++ cmds2) else
  s ← get_safety;
  if negb (is_safe_to_handle_proposal s proposal_round) then mret (cmds1 ++ cmds2) else
  s ← lift (safety_handle_proposal s proposal_round);
  _ ← set_safety s;
  validated ← validate_block (tip_block_header (p_tip p)) (p_block_body p);
  match validated with
  | None => mret (cmds1 ++ cmds2)
  | Some block =>
      cmds3 ← try_add_and_commit_blocktree block (Some (p_proposal_round p, p_last_round_tc p, p_tip p));
      mret (cmds1 ++ cmds2 ++ cmds3)
  end.

Definition handle_vote_message (author : NodeId) (vote_msg : VoteMessage) : step (list ConsensusCommand) :=
  let vote_round := vote_round (vm_vote vote_msg) in
  round ← current_round;
  if bool_decide (vote_round < round) then mret [] else
  bound ← lift (round_add round FUTURE_VOTE_BOUND);
  if bool_decide (vote_round > bound) then mret [] else
  em ← get epoch_manager;
  epoch ← lift (expect (get_epoch em vote_round));
  validator_set ← lift (expect (get_val_set (val_epoch_map env) epoch));
  validator_mapping ← lift (expect (get_cert_pubkeys (val_epoch_map env) epoch));
  vs ← get (λ n, vote_state (consensus n));
  '(maybe_qc, vs) ← lift (process_vote vs author vote_msg validator_set validator_mapping);
  _ ← set_vote_state vs;
  match maybe_qc with
  | None => mret []
  | Some qc =>
      cmds1 ← process_qc qc;
      cmds2 ← try_propose;
      vote_round_leader ← lift (get_leader vote_round (get_members validator_set));
      pm ← get_pacemaker;
      mret (cmds1 ++ cmds2 ++
            if bool_decide (nodeid env = vote_round_leader)
            then [CC_Publish (Broadcast (pm_current_epoch pm))
                    (sign_message (PM_AdvanceRound (mkAdvanceRoundMessage (RC_Qc qc))))]
            else [])
  end.

(** The certificates and the vote that a timeout carries. *)
Definition process_timeout_certificates (author : NodeId) (timeout : Timeout) : step (list ConsensusCommand) :=
  let tminfo := t_tminfo timeout in
  cmds1 ← process_qc (high_extend_vote_qc (t_high_extend timeout));
  cmds2 ← match t_high_extend timeout with
          | HEV_Tip tip vote_signature =>
              handle_vote_message author
                (mkVoteMessage (mkVote (header_get_id (tip_block_header tip)) (tm_round tminfo) (tm_epoch tminfo))
                   vote_signature)
          | HEV_Qc _ => mret []
          end;
  cmds3 ← match t_last_round_certificate timeout with
          | Some (RC_Tc tc) => process_tc tc
          | Some (RC_Qc qc) => process_qc qc
          | None => mret []
          end;
  mret (cmds1 ++ cmds2 ++ cmds3).

Definition handle_timeout_message (author : NodeId) (timeout_message : TimeoutMessage) :
    step (list ConsensusCommand) :=
  let timeout := timeout_of timeout_message in
  let tminfo := t_tminfo timeout in
  round ← current_round;
  if bool_decide (tm_round tminfo < round) then mret [] else
  em ← get epoch_manager;
  epoch ← lift (expect (get_epoch em (tm_round tminfo)));
  validator_set ← lift (expect (get_val_set (val_epoch_map env) epoch));
  validator_mapping ← lift (expect (get_cert_pubkeys (val_epoch_map env) epoch));
  cmds ← process_timeout_certificates author timeout;
  pm ← get_pacemaker;
  s ← get_safety;
  em ← get epoch_manager;
  '(pm, s, pm_cmds) ← lift (process_remote_timeout pm em validator_set validator_mapping s author timeout);
  _ ← set_pacemaker pm s;
  cmds' ← try_propose;
  mret (cmds ++ from_pacemaker pm_cmds ++ cmds').

Definition handle_round_recovery_message (author : NodeId) (round_recovery : RoundRecoveryMessage) :
    step (list ConsensusCommand) :=
  em ← get epoch_manager;
  epoch ← lift (expect (get_epoch em (rr_round round_recovery)));
  validator_set ← lift (expect (get_val_set (val_epoch_map env) epoch));
  cmds ← process_tc (rr_tc round_recovery);
  pacemaker_round ← current_round;
  let round := rr_round round_recovery in
  expected_leader ← lift (get_leader pacemaker_round (get_members validator_set));
  if bool_decide (round ≠ pacemaker_round) || bool_decide (author ≠ expected_leader) then mret cmds else
  match tc_high_extend (rr_tc round_recovery) with
  | HE_Qc _ => mret cmds
  | HE_Tip tip =>
      let tip_id := header_get_id (tip_block_header tip) in
      tree ← get_tree;
      if is_coherent tree tip_id &&
         bool_decide (h_timestamp_ns (tip_block_header tip) < get_current_time (block_timestamp env))
      then mret cmds else
      s ← get_safety;
      if is_safe_to_no_endorse s round then
        s ← lift (safety_no_endorse s round tip_id);
        _ ← set_safety s;
        mret (cmds ++
          [CC_Publish (PointToPoint author)
             (sign_message (PM_NoEndorsement
                (no_endorsement_message_new
                   (mkNoEndorsement epoch round (qc_round (h_qc (tip_block_header tip)))) (cert_keypair env))))])
      else mret cmds
  end.

Definition handle_no_endorsement_message (author : NodeId) (no_endorsement_msg : NoEndorsementMessage) :
    step (list ConsensusCommand) :=
  let msg_round := ne_round (nm_msg no_endorsement_msg) in
  round ← current_round;
  if bool_decide (msg_round < round) then mret [] else
  bound ← lift (round_add round FUTURE_VOTE_BOUND);
  if bool_decide (msg_round > bound) then mret [] else
  em ← get epoch_manager;
  epoch ← lift (expect (get_epoch em msg_round));
  validator_set ← lift (expect (get_val_set (val_epoch_map env) epoch));
  validator_mapping ← lift (expect (get_cert_pubkeys (val_epoch_map env) epoch));
  nes ← get (λ n, no_endorsement_state (consensus n));
  '(maybe_nec, nes) ← lift (process_no_endorsement nes author no_endorsement_msg validator_set validator_mapping);
  _ ← set_no_endorsement_state nes;
  match maybe_nec with
  | Some _ => try_propose
  | None => mret []
  end.

Definition handle_advance_round_message (author : NodeId) (advance_round_msg : AdvanceRoundMessage) :
    step (list ConsensusCommand) :=
  match ar_last_round_certificate advance_round_msg with
  | RC_Tc tc => process_tc tc
  | RC_Qc qc => process_qc qc
  end.

(** The loop of [handle_block_sync]. *)
Fixpoint block_sync_loop (full_blocks : list ConsensusFullBlock) : step (list ConsensusCommand) :=
  match full_blocks with
  | [] => mret []
  | full_block :: full_blocks =>
      tree ← get_tree;
      if negb (is_valid_to_insert tree (fb_header full_block)) then block_sync_loop full_blocks else
      validated ← validate_block (fb_header full_block) (fb_body full_block);
      match validated with
      | None => mret []
      | Some block =>
          cmds ← try_add_and_commit_blocktree block None;
          cmds' ← block_sync_loop full_blocks;
          mret (cmds ++ cmds')
      end
  end.

Definition handle_block_sync (block_range : BlockRange) (full_blocks : list ConsensusFullBlock) :
    step (list ConsensusCommand) :=
  requests ← get_requests;
  if bool_decide (requests !! br_last_block_id block_range = None) then mret [] else
  cmds ← block_sync_loop full_blocks;
  requests ← get_requests;
  _ ← set_block_sync_requests (delete (br_last_block_id block_range) requests);
  mret cmds.

(** ** Checkpoints and upcoming leaders *)

Definition checkpoint_locked_epoch (em : EpochManager) (epoch : Epoch) : option LockedEpoch :=
  _ ← get_val_set (val_epoch_map env) epoch;
  round ← epoch_starts em !! epoch;
  Some (mkLockedEpoch epoch round).

Definition checkpoint (n : Node) : exec Checkpoint :=
  let root := root_info (bt_root (pending_block_tree (consensus n))) in
  let base_epoch := ri_epoch root in
  base ← expect (checkpoint_locked_epoch (epoch_manager n) base_epoch);
  next_epoch ← epoch_add base_epoch 1;
  Ret (mkCheckpoint (ri_block_id root) (pm_high_certificate (pacemaker (consensus n)))
         (base :: option_list (checkpoint_locked_epoch (epoch_manager n) next_epoch))).

(** [compute_upcoming_leader_round_pairs]: [num_rounds] rounds from the current
    one, or from the next. The rounds are counted on a plain [u64]. *)
Fixpoint leader_round_pairs (num_rounds : nat) (round : Round) : step (list (NodeId * Round)) :=
  match num_rounds with
  | O => mret []
  | S num_rounds =>
      leader ← leader_of round;
      pairs ← leader_round_pairs num_rounds ((round + 1) mod 2 ^ 64);
      mret ((leader, round) :: pairs)
  end.

Definition compute_upcoming_leader_round_pairs (include_current_round : bool) (num_rounds : nat) :
    step (list (NodeId * Round)) :=
  round ← current_round;
  leader_round_pairs num_rounds (if include_current_round then round else (round + 1) mod 2 ^ 64).

Definition iter_upcoming_self_leader_rounds : step (list Round) :=
  pairs ← compute_upcoming_leader_round_pairs true NUM_LEADERS_SELF_UPCOMING;
  mret (omap (λ nr : NodeId * Round, if bool_decide (nr.1 = nodeid env) then Some nr.2 else None) pairs).

Definition iter_future_other_leaders : step (list NodeId) :=
  pairs ← compute_upcoming_leader_round_pairs false NUM_LEADERS_FORWARD_TXS;
  mret (unique (omap (λ nr : NodeId * Round, if bool_decide (nr.1 ≠ nodeid env) then Some nr.1 else None) pairs)).

End handlers.

(** * Events *)

(** What a live node reacts to (src/monad-state/src/consensus.rs): a verified
    message, a timer, blocks from block sync. *)
Inductive ConsensusEvent `{P : Protocol} :=
| EvMessage (author : NodeId) (message : ProtocolMessage)
| EvTimeout (round : Round)
| EvBlockSync (block_range : BlockRange) (full_blocks : list ConsensusFullBlock)
| EvSendVote (round : Round).

Section events.
Context `{BP : BlockPolicy} `{BVT : !BlockValidator} `{HashOrder}.
Context {VT : Type} `{ValidatorSetType VT} `{LT : LeaderElection} `{CCT : ChainConfig}.

(** The dispatch of [ConsensusChildState::update]. *)
Definition handle_event (env : Env (VT := VT)) (event : ConsensusEvent) : step (list ConsensusCommand) :=
  match event with
  | EvMessage author (PM_Proposal msg) => handle_proposal_message env author msg
  | EvMessage author (PM_Vote msg) => handle_vote_message env author msg
  | EvMessage author (PM_Timeout msg) => handle_timeout_message env author msg
  | EvMessage author (PM_RoundRecovery msg) => handle_round_recovery_message env author msg
  | EvMessage author (PM_NoEndorsement msg) => handle_no_endorsement_message env author msg
  | EvMessage author (PM_AdvanceRound msg) => handle_advance_round_message env author msg
  | EvTimeout round => handle_timeout_expiry env round
  | EvBlockSync block_range full_blocks => handle_block_sync env block_range full_blocks
  | EvSendVote round => handle_vote_timer env round
  end.

(** A sequence of events; the environment may change between them. *)
Fixpoint handle_events (events : list (Env (VT := VT) * ConsensusEvent)) (n : Node) :
    exec (list ConsensusCommand * Node) :=
  match events with
  | [] => Ret ([], n)
  | (env, event) :: events =>
      '(cmds, n) ← handle_event env event n;
      '(cmds', n) ← handle_events events n;
      Ret (cmds ++ cmds', n)
  end.
End events.
