(* ===== verification/EthPolicy.v ===== *)
(** Ethereum blocks: src/monad-eth-types/src/lib.rs, and the block policy of
    src/monad-eth-block-policy/src/lib.rs that checks the nonces and balances of
    a proposed block against the chain it extends. Execution is [execution_delay]
    blocks behind consensus, so the policy keeps the nonces and the highest costs
    of the blocks that are committed and perhaps not executed. *)

From S2P Require Import Prelude Types ValidatorSet Crypto MultiSig ConsensusTypes BlockPolicy.

#[local] Open Scope Z_scope.

(** Plain [u64] arithmetic of a release build. *)
Definition wrap64 (z : Z) : Z := z mod 2 ^ 64.

Definition is_some_and {A} (f : A → bool) (o : option A) : bool :=
  match o with Some a => f a | None => false end.

(** * Transactions *)

Notation Address := Z (only parsing).
Notation Nonce := Z (only parsing).
Notation Balance := Z (only parsing).

Definition BASE_FEE_PER_GAS : Z := 50000000000.

(** [TxEnvelope] and [Header] of alloy, with what the code asks of them:
    [normalize_s().is_some()], the [Transaction] accessors, the type of the
    envelope, its length, the recovery of its signer; the root of a list of
    transactions and two constants. *)
Class EthTypes := {
  TxEnvelope : Type;
  #[global] TxEnvelope_eq_dec :: EqDecision TxEnvelope;
  tx_high_s : TxEnvelope → bool;
  tx_chain_id : TxEnvelope → option Z;
  tx_max_priority_fee_per_gas : TxEnvelope → option Z;
  tx_max_fee_per_gas : TxEnvelope → Z;
  tx_gas_price : TxEnvelope → option Z;
  tx_is_create : TxEnvelope → bool;
  tx_input : TxEnvelope → bytes;
  tx_gas_limit : TxEnvelope → Z;
  tx_nonce : TxEnvelope → Nonce;
  tx_value : TxEnvelope → Z;
  tx_access_list : TxEnvelope → option (list (Address * list Z));
  tx_is_legacy : TxEnvelope → bool;
  tx_is_eip4844 : TxEnvelope → bool;
  tx_is_eip7702 : TxEnvelope → bool;
  tx_length : TxEnvelope → Z;
  secp256k1_recover : TxEnvelope → option Address;
  tx_rlp : TxEnvelope → rlp;
  calculate_transaction_root : list TxEnvelope → Z;
  EMPTY_OMMER_ROOT_HASH : Z;
  EMPTY_WITHDRAWALS : Z;
  EthHeader : Type;
  #[global] EthHeader_eq_dec :: EqDecision EthHeader;
  eth_header_rlp : EthHeader → rlp;
}.

(** The widths of the accessors. *)
Class EthTypesLaws `{X : EthTypes} := {
  tx_gas_limit_u64 tx : is_u64 (tx_gas_limit tx);
  tx_nonce_u64 tx : is_u64 (tx_nonce tx);
  tx_max_fee_u128 tx : 0 <= tx_max_fee_per_gas tx <= u128_max;
  tx_value_u256 tx : is_u256 (tx_value tx);
  tx_length_u64 tx : is_u64 (tx_length tx);
}.

(** [Recovered<TxEnvelope>] *)
Record RecoveredTx `{X : EthTypes} := mkRecoveredTx { rtx : TxEnvelope; rtx_signer : Address }.
#[global] Arguments mkRecoveredTx {X} _ _.

Inductive TransactionError :=
| InvalidChainId
| MaxPriorityFeeTooHigh
| InitCodeLimitExceeded
| GasLimitTooLow
| GasLimitTooHigh
| UnsupportedTransactionType.

Section transactions.
Context `{X : EthTypes}.
Implicit Types (tx : TxEnvelope).

Definition compute_intrinsic_gas tx : Z :=
  let input := tx_input tx in
  let zero_data_len := Z.of_nat (length (filter (λ v, v = 0) input)) in
  let len := Z.of_nat (length input) in
  let access_list := default [] (tx_access_list tx) in
  let accessed_slots := zsum (map (λ item, Z.of_nat (length item.2)) access_list) in
  wrap64 (21000 + zero_data_len * 4 + (len - zero_data_len) * 16 +
          (if tx_is_create tx then 32000 + (len + 31) / 32 * 2 else 0) +
          Z.of_nat (length access_list) * 2400 + accessed_slots * 1900).

(** The [expect] is that the product of a [u64] and a [u128] fits a [U256]. *)
Definition compute_txn_max_value tx : exec Z :=
  let gas_cost := tx_gas_limit tx * tx_max_fee_per_gas tx in
  _ ← assert (bool_decide (gas_cost <= u256_max));
  Ret (saturating_add u256_max (tx_value tx) gas_cost).

Definition static_validate_transaction tx (chain_id proposal_gas_limit max_code_size : Z) :
    result unit TransactionError :=
  if tx_high_s tx then Err UnsupportedTransactionType
  else if is_some_and (λ id, bool_decide (id ≠ chain_id)) (tx_chain_id tx) then Err InvalidChainId
  else if is_some_and (λ fee, bool_decide (fee > tx_max_fee_per_gas tx)) (tx_max_priority_fee_per_gas tx)
  then Err MaxPriorityFeeTooHigh
  else if tx_is_create tx && bool_decide (Z.of_nat (length (tx_input tx)) > wrap64 (2 * max_code_size))
  then Err InitCodeLimitExceeded
  else if bool_decide (tx_gas_limit tx < compute_intrinsic_gas tx) then Err GasLimitTooLow
  else if bool_decide (tx_gas_limit tx > proposal_gas_limit) then Err GasLimitTooHigh
  else if tx_is_eip4844 tx || tx_is_eip7702 tx then Err UnsupportedTransactionType
  else Ok tt.
End transactions.

(** * Blocks *)

Record EthAccount := mkEthAccount { acc_nonce : Nonce; acc_balance : Balance; acc_code_hash : option Z }.

(** Byte arrays are the integers that they spell. *)
Record ProposedEthHeader := mkProposedEthHeader {
  peh_ommers_hash : Z;
  peh_beneficiary : Address;
  peh_transactions_root : Z;
  peh_difficulty : Z;
  peh_number : Z;
  peh_gas_limit : Z;
  peh_timestamp : Z;
  peh_extra_data : Z;
  peh_mix_hash : Z;
  peh_nonce : Z;
  peh_base_fee_per_gas : Z;
  peh_withdrawals_root : Z;
  peh_blob_gas_used : Z;
  peh_excess_blob_gas : Z;
  peh_parent_beacon_block_root : Z;
}.

(** [Ommer] and [Withdrawal] have no fields. *)
Record EthBlockBody `{X : EthTypes} := mkEthBlockBody {
  transactions : list TxEnvelope;
  ommers : list unit;
  withdrawals : list unit;
}.
#[global] Arguments mkEthBlockBody {X} _ _ _.

#[export] Instance ProposedEthHeader_eq_dec : EqDecision ProposedEthHeader.
Proof. solve_decision. Defined.
#[export] Instance EthBlockBody_eq_dec `{X : EthTypes} : EqDecision EthBlockBody.
Proof. solve_decision. Defined.

Definition proposed_eth_header_rlp (h : ProposedEthHeader) : rlp :=
  RList [RBytes (peh_ommers_hash h); RBytes (peh_beneficiary h); RBytes (peh_transactions_root h);
         RUint (peh_difficulty h); RUint (peh_number h); RUint (peh_gas_limit h); RUint (peh_timestamp h);
         RBytes (peh_extra_data h); RBytes (peh_mix_hash h); RBytes (peh_nonce h); RUint (peh_base_fee_per_gas h);
         RBytes (peh_withdrawals_root h); RUint (peh_blob_gas_used h); RUint (peh_excess_blob_gas h);
         RBytes (peh_parent_beacon_block_root h)].
Definition eth_block_body_rlp `{X : EthTypes} (b : EthBlockBody) : rlp :=
  RList [RList (map tx_rlp (transactions b)); RList (map (λ _, RList []) (ommers b));
         RList (map (λ _, RList []) (withdrawals b))].

(** [EthExecutionProtocol]: the protocol [P] with Ethereum headers and bodies. *)
Definition EthExecutionProtocol (P : Protocol) `{X : EthTypes} : Protocol := {|
  ST := @ST P; ST_KeyPair := @ST_KeyPair P; SignatureType := @SignatureType P; CertKeyPair := @CertKeyPair P;
  SCT := @SCT P;
  ProposedHeader := ProposedEthHeader; FinalizedHeader := EthHeader; ExecutionBody := EthBlockBody;
  rlp_bytes := @rlp_bytes P; hash := @hash P;
  ST_rlp := @ST_rlp P; SignatureType_rlp := @SignatureType_rlp P; SCT_rlp := @SCT_rlp P;
  ProposedHeader_rlp := proposed_eth_header_rlp; FinalizedHeader_rlp := eth_header_rlp;
  ExecutionBody_rlp := eth_block_body_rlp;
  st_pubkey := @st_pubkey P; st_sign := @st_sign P; st_verify := @st_verify P;
  st_recover_pubkey := @st_recover_pubkey P;
  cert_sign := @cert_sign P; cert_verify := @cert_verify P; cert_validate := @cert_validate P;
  sct_new := @sct_new P; sct_verify := @sct_verify P;
|}.

(** A protocol on Ethereum blocks: what it signs with, and the types of alloy. *)
Class EthProtocol := {
  eth_base : Protocol;
  #[global] eth_types :: EthTypes;
}.
#[export] Instance eth_protocol `{E : EthProtocol} : Protocol := EthExecutionProtocol eth_base.

(** src/monad-system-calls/src/lib.rs: there is no system call yet. *)
Definition SYSTEM_SENDER_ETH_ADDRESS : Address := 0x6f49a8F621353f12378d0046E7d7e4b9B249DC9e.
Inductive SystemCall : Set := .
Inductive SystemTransaction : Set := .
Definition sys_txn_signer (t : SystemTransaction) : Address := SYSTEM_SENDER_ETH_ADDRESS.
Definition sys_txn_nonce (t : SystemTransaction) : Nonce := 0.
Definition sys_txn_length (t : SystemTransaction) : Z := 0.

(** The trait [StateBackend] of src/monad-state-backend/src/lib.rs, as far as
    Ethereum blocks are concerned. *)
Class EthStateBackend `{X : EthTypes} := {
  EthSBT : Type;
  get_account_statuses : EthSBT → BlockId → SeqNum → bool → list Address →
    result (list (option EthAccount)) StateBackendError;
  get_execution_result : EthSBT → BlockId → SeqNum → bool → result EthHeader StateBackendError;
}.

Section policy.
Context `{E : EthProtocol} `{SB : !EthStateBackend}.

Record EthValidatedBlock := mkEthValidatedBlock {
  evb_block : ConsensusFullBlock;
  system_txns : list SystemTransaction;
  validated_txns : list RecoveredTx;
  nonces : gmap Address Nonce;
  txn_fees : gmap Address Balance;
}.

Definition evb_seq_num (b : EthValidatedBlock) : SeqNum := fb_seq_num (evb_block b).
Definition evb_id (b : EthValidatedBlock) : BlockId := fb_id (evb_block b).
Definition get_total_gas (b : EthValidatedBlock) : Z :=
  foldl (λ acc t, wrap64 (acc + tx_gas_limit (rtx t))) 0 (validated_txns b).

(** [get_account_nonces] of a block and of a list of blocks. *)
Definition get_account_nonces (b : EthValidatedBlock) : gmap Address Nonce := (λ n, wrap64 (n + 1)) <$> nonces b.
Definition get_blocks_account_nonces (blocks : list EthValidatedBlock) : gmap Address Nonce :=
  foldl (λ acc b, get_account_nonces b ∪ acc) ∅ blocks.

(** ** Committed blocks *)

Record CommittedBlock := mkCommittedBlock {
  cb_block_id : BlockId;
  cb_round : Round;
  cb_nonces : gmap Address Nonce;
  cb_fees : gmap Address Balance;
}.
Record CommittedBlkBuffer := mkCommittedBlkBuffer { cbb_blocks : gmap SeqNum CommittedBlock; cbb_size : Z }.

Definition buffer_new (size : Z) : CommittedBlkBuffer := mkCommittedBlkBuffer ∅ size.

Fixpoint nonce_loop (eth_address : Address) (maybe_account_nonce : option Nonce)
    (blocks : list (SeqNum * CommittedBlock)) : exec (option Nonce) :=
  match blocks with
  | [] => Ret maybe_account_nonce
  | (_, block) :: blocks =>
      match cb_nonces block !! eth_address with
      | Some nonce =>
          _ ← assert (if maybe_account_nonce is Some old then bool_decide (nonce > old) else true);
          nonce_loop eth_address (Some nonce) blocks
      | None => nonce_loop eth_address maybe_account_nonce blocks
      end
  end.
Definition get_nonce (c : CommittedBlkBuffer) (eth_address : Address) : exec (option Nonce) :=
  nonce_loop eth_address None (btree_iter (cbb_blocks c)).

(** [compute_txn_fee]: the fees, and the next block number to validate. *)
Fixpoint txn_fee_loop (eth_address : Address) (txn_fee : Balance) (next_validate : SeqNum)
    (blocks : list (SeqNum * CommittedBlock)) : exec (Balance * SeqNum) :=
  match blocks with
  | [] => Ret (txn_fee, next_validate)
  | (cache_seq_num, block) :: blocks =>
      _ ← assert (bool_decide (next_validate = cache_seq_num));
      next ← seq_num_add next_validate 1;
      txn_fee_loop eth_address (saturating_add u256_max txn_fee (default 0 (cb_fees block !! eth_address))) next blocks
  end.
Definition compute_txn_fee (c : CommittedBlkBuffer) (base_seq_num : SeqNum) (eth_address : Address) :
    exec (Balance * SeqNum) :=
  next_validate ← seq_num_add base_seq_num 1;
  txn_fee_loop eth_address 0 next_validate
    (filter (λ kv : SeqNum * CommittedBlock, next_validate <= kv.1) (btree_iter (cbb_blocks c))).

(** [split_off(&divider)] once the buffer is full. *)
Definition buffer_purge (c : CommittedBlkBuffer) (block_number : SeqNum) : exec CommittedBlkBuffer :=
  if bool_decide (Z.of_nat (size (cbb_blocks c)) >= saturating_add u64_max (cbb_size c) (cbb_size c)) then
    first ← expect (head (btree_keys (cbb_blocks c)));
    divider ← seq_num_add first (cbb_size c);
    let blocks := filter (λ kv : SeqNum * CommittedBlock, divider <= kv.1) (cbb_blocks c) in
    last_block_num ← expect (last (btree_keys blocks));
    next ← seq_num_add last_block_num 1;
    _ ← assert (bool_decide (next = block_number));
    _ ← assert (bool_decide (Z.of_nat (size blocks) = cbb_size c));
    Ret (mkCommittedBlkBuffer blocks (cbb_size c))
  else Ret c.

Definition committed_of (block : EthValidatedBlock) : CommittedBlock :=
  mkCommittedBlock (evb_id block) (fb_block_round (evb_block block)) (get_account_nonces block) (txn_fees block).

Definition buffer_update_committed_block (c : CommittedBlkBuffer) (block : EthValidatedBlock) :
    exec CommittedBlkBuffer :=
  let block_number := evb_seq_num block in
  _ ← match last (btree_keys (cbb_blocks c)) with
      | Some last_block_num =>
          next ← seq_num_add last_block_num 1;
          assert (bool_decide (next = block_number))
      | None => Ret tt
      end;
  c ← buffer_purge c block_number;
  _ ← assert (bool_decide (cbb_blocks c !! block_number = None));
  Ret (mkCommittedBlkBuffer (<[block_number := committed_of block]> (cbb_blocks c)) (cbb_size c)).
(** ** The policy *)

Record EthBlockPolicy := mkEthBlockPolicy {
  last_commit : SeqNum;
  committed_cache : CommittedBlkBuffer;
  execution_delay : SeqNum;
  chain_id : Z;
}.

Definition eth_block_policy_new (last_commit : SeqNum) (execution_delay chain_id : Z) : EthBlockPolicy :=
  mkEthBlockPolicy last_commit (buffer_new execution_delay) execution_delay chain_id.

Record BlockLookupIndex := mkBlockLookupIndex { bli_block_id : BlockId; bli_seq_num : SeqNum; bli_is_finalized : bool }.

Definition get_block_index (p : EthBlockPolicy) (extending_blocks : option (list EthValidatedBlock))
    (base_seq_num : SeqNum) : exec (result BlockLookupIndex StateBackendError) :=
  if bool_decide (base_seq_num <= last_commit p) then
    if bool_decide (base_seq_num = GENESIS_SEQ_NUM)
    then Ret (Ok (mkBlockLookupIndex GENESIS_BLOCK_ID GENESIS_SEQ_NUM true))
    else
      committed_block ← expect (cbb_blocks (committed_cache p) !! base_seq_num);
      Ret (Ok (mkBlockLookupIndex (cb_block_id committed_block) base_seq_num true))
  else
    match extending_blocks with
    | Some extending_blocks =>
        proposed_block ← expect (head (filter (λ block, evb_seq_num block = base_seq_num) extending_blocks));
        Ret (Ok (mkBlockLookupIndex (evb_id proposed_block) base_seq_num false))
    | None => Ret (Err NotAvailableYet)
    end.

Definition policy_account_statuses (p : EthBlockPolicy) (state_backend : EthSBT)
    (extending_blocks : option (list EthValidatedBlock)) (addresses : list Address) (base_seq_num : SeqNum) :
    exec (result (list (option EthAccount)) StateBackendError) :=
  block_index <-? get_block_index p extending_blocks base_seq_num;
  Ret (get_account_statuses state_backend (bli_block_id block_index) base_seq_num (bli_is_finalized block_index)
         addresses).

(** [seq_num.max(delay) - delay] *)
Definition base_of (p : EthBlockPolicy) (consensus_block_seq_num : SeqNum) : SeqNum :=
  Z.max consensus_block_seq_num (execution_delay p) - execution_delay p.

(** [zip_eq] *)
Definition zip_eq {A B} (l : list A) (k : list B) : exec (list (A * B)) :=
  _ ← assert (bool_decide (length l = length k));
  Ret (zip l k).

(** The nonces found in the blocks after the state, and the addresses they are
    not found for. *)
Fixpoint cached_nonces (p : EthBlockPolicy) (pending : gmap Address Nonce) (addresses : list Address)
    (account_nonces : gmap Address Nonce) (cache_misses : list Address) :
    exec (gmap Address Nonce * list Address) :=
  match addresses with
  | [] => Ret (account_nonces, cache_misses)
  | address :: addresses =>
      match pending !! address with
      | Some nonce => cached_nonces p pending addresses (<[address := nonce]> account_nonces) cache_misses
      | None =>
          committed ← get_nonce (committed_cache p) address;
          match committed with
          | Some nonce => cached_nonces p pending addresses (<[address := nonce]> account_nonces) cache_misses
          | None => cached_nonces p pending addresses account_nonces (cache_misses ++ [address])
          end
      end
  end.

Definition get_account_base_nonces (p : EthBlockPolicy) (consensus_block_seq_num : SeqNum) (state_backend : EthSBT)
    (extending_blocks : list EthValidatedBlock) (addresses : list Address) :
    exec (result (gmap Address Nonce) StateBackendError) :=
  '(account_nonces, cache_misses) ←
    cached_nonces p (get_blocks_account_nonces extending_blocks) (unique addresses) ∅ [];
  cache_miss_statuses <-? policy_account_statuses p state_backend (Some extending_blocks) cache_misses
                            (base_of p consensus_block_seq_num);
  found ← zip_eq cache_misses cache_miss_statuses;
  Ret (Ok (foldl (λ m kv, <[kv.1 := match kv.2 with Some status => acc_nonce status | None => 0 end]> m)
             account_nonces found)).

(** The fees of the pending blocks from [next_validate] on. *)
Fixpoint pending_fee_loop (address : Address) (txn_fee : Balance) (next_validate : SeqNum)
    (blocks : list EthValidatedBlock) : exec Balance :=
  match blocks with
  | [] => Ret txn_fee
  | block :: blocks =>
      _ ← assert (bool_decide (next_validate = evb_seq_num block));
      next ← seq_num_add next_validate 1;
      pending_fee_loop address (saturating_add u256_max txn_fee (default 0 (txn_fees block !! address))) next blocks
  end.
Fixpoint skip_while {A} (f : A → bool) (l : list A) : list A :=
  match l with
  | [] => []
  | x :: l' => if f x then skip_while f l' else l
  end.

Definition account_base_balance (p : EthBlockPolicy) (base_seq_num : SeqNum)
    (extending_blocks : option (list EthValidatedBlock)) (address : Address) (account_balance : Balance) :
    exec Balance :=
  '(txn_fee_committed, next_validate) ← compute_txn_fee (committed_cache p) base_seq_num address;
  account_balance ← checked_sub account_balance txn_fee_committed;
  txn_fee_pending ←
    match extending_blocks with
    | Some blocks =>
        pending_fee_loop address 0 next_validate
          (skip_while (λ block, bool_decide (evb_seq_num block < next_validate)) blocks)
    | None => Ret 0
    end;
  checked_sub account_balance txn_fee_pending.
Fixpoint base_balances_loop (p : EthBlockPolicy) (base_seq_num : SeqNum)
    (extending_blocks : option (list EthValidatedBlock)) (l : list (Address * Balance)) (acc : gmap Address Balance) :
    exec (gmap Address Balance) :=
  match l with
  | [] => Ret acc
  | (address, balance) :: l =>
      balance ← account_base_balance p base_seq_num extending_blocks address balance;
      base_balances_loop p base_seq_num extending_blocks l (<[address := balance]> acc)
  end.
Definition compute_account_base_balances (p : EthBlockPolicy) (consensus_block_seq_num : SeqNum)
    (state_backend : EthSBT) (extending_blocks : option (list EthValidatedBlock)) (addresses : list Address) :
    exec (result (gmap Address Balance) StateBackendError) :=
  let base_seq_num := base_of p consensus_block_seq_num in
  let addresses := unique addresses in
  statuses <-? policy_account_statuses p state_backend extending_blocks addresses base_seq_num;
  l ← zip_eq addresses (map (λ s, match s with Some status => acc_balance status | None => 0 end) statuses);
  balances ← base_balances_loop p base_seq_num extending_blocks l ∅;
  Ret (Ok balances).

(** ** Coherency *)

(** [?] of a [StateBackendError] where a [BlockPolicyError] is returned. *)
Definition backend_error {A} (r : result A StateBackendError) : result A BlockPolicyError :=
  match r with Ok a => Ok a | Err e => Err (PolicyStateBackendError e) end.

Definition eth_expected_execution_results (p : EthBlockPolicy) (block_seq_num : SeqNum)
    (extending_blocks : list EthValidatedBlock) (state_backend : EthSBT) :
    exec (result (list EthHeader) StateBackendError) :=
  if bool_decide (block_seq_num < execution_delay p) then Ret (Ok []) else
  base_seq_num ← seq_num_sub block_seq_num (execution_delay p);
  block_index <-? get_block_index p (Some extending_blocks) base_seq_num;
  Ret (match get_execution_result state_backend (bli_block_id block_index) (bli_seq_num block_index)
               (bli_is_finalized block_index) with
       | Ok header => Ok [header]
       | Err e => Err e
       end).

(** The two loops over the transactions of the block. *)
Fixpoint system_txns_loop (account_nonces : gmap Address Nonce) (txns : list SystemTransaction) :
    exec (result (gmap Address Nonce) BlockPolicyError) :=
  match txns with
  | [] => Ret (Ok account_nonces)
  | txn :: txns =>
      expected_nonce ← expect (account_nonces !! sys_txn_signer txn);
      if bool_decide (sys_txn_nonce txn ≠ expected_nonce) then Ret (Err BlockNotCoherent) else
      system_txns_loop (<[sys_txn_signer txn := wrap64 (expected_nonce + 1)]> account_nonces) txns
  end.
Fixpoint txns_loop (account_nonces : gmap Address Nonce) (account_balances : gmap Address Balance)
    (txns : list RecoveredTx) : exec (result unit BlockPolicyError) :=
  match txns with
  | [] => Ret (Ok tt)
  | txn :: txns =>
      let eth_address := rtx_signer txn in
      expected_nonce ← expect (account_nonces !! eth_address);
      if bool_decide (tx_nonce (rtx txn) ≠ expected_nonce) then Ret (Err BlockNotCoherent) else
      account_balance ← expect (account_balances !! eth_address);
      txn_fee ← compute_txn_max_value (rtx txn);
      if bool_decide (account_balance >= txn_fee) then
        txns_loop (<[eth_address := wrap64 (expected_nonce + 1)]> account_nonces)
          (<[eth_address := account_balance - txn_fee]> account_balances) txns
      else Ret (Err BlockNotCoherent)
  end.

Definition tx_signers (block : EthValidatedBlock) : list Address :=
  map rtx_signer (validated_txns block) ++ map sys_txn_signer (system_txns block).

Definition eth_check_coherency (p : EthBlockPolicy) (block : EthValidatedBlock)
    (extending_blocks : list EthValidatedBlock) (blocktree_root : RootInfo) (state_backend : EthSBT) :
    exec (result unit BlockPolicyError) :=
  let first_block := default block (head extending_blocks) in
  first ← seq_num_add (last_commit p) 1;
  _ ← assert (bool_decide (evb_seq_num first_block = first));
  let '(extending_seq_num, extending_timestamp) :=
    match last extending_blocks with
    | Some extended_block => (evb_seq_num extended_block, fb_timestamp (evb_block extended_block))
    | None => (ri_seq_num blocktree_root, 0)
    end in
  next ← seq_num_add extending_seq_num 1;
  if bool_decide (evb_seq_num block ≠ next) then Ret (Err BlockNotCoherent) else
  if bool_decide (fb_timestamp (evb_block block) <= extending_timestamp) then Ret (Err TimestampError) else
  expected_execution_results <-?
    backend_error <$> eth_expected_execution_results p (evb_seq_num block) extending_blocks state_backend;
  if bool_decide (h_delayed_execution_results (fb_header (evb_block block)) ≠ expected_execution_results)
  then Ret (Err ExecutionResultMismatch) else
  account_nonces <-?
    backend_error <$> get_account_base_nonces p (evb_seq_num block) state_backend extending_blocks (tx_signers block);
  account_balances <-?
    backend_error <$> compute_account_base_balances p (evb_seq_num block) state_backend (Some extending_blocks)
                        (tx_signers block);
  account_nonces <-? system_txns_loop account_nonces (system_txns block);
  txns_loop account_nonces account_balances (validated_txns block).

Definition eth_update_committed_block (p : EthBlockPolicy) (block : EthValidatedBlock) : exec EthBlockPolicy :=
  next ← seq_num_add (last_commit p) 1;
  _ ← assert (bool_decide (evb_seq_num block = next));
  cache ← buffer_update_committed_block (committed_cache p) block;
  Ret (mkEthBlockPolicy (evb_seq_num block) cache (execution_delay p) (chain_id p)).

Fixpoint reset_loop (p : EthBlockPolicy) (blocks : list EthValidatedBlock) : exec EthBlockPolicy :=
  match blocks with
  | [] => Ret p
  | block :: blocks =>
      cache ← buffer_update_committed_block (committed_cache p) block;
      reset_loop (mkEthBlockPolicy (evb_seq_num block) cache (execution_delay p) (chain_id p)) blocks
  end.
Definition eth_reset (p : EthBlockPolicy) (last_delay_committed_blocks : list EthValidatedBlock) :
    exec EthBlockPolicy :=
  reset_loop (mkEthBlockPolicy (last_commit p) (buffer_new (cbb_size (committed_cache p))) (execution_delay p)
                (chain_id p)) last_delay_committed_blocks.

(** [impl BlockPolicy for EthBlockPolicy] *)
Definition EthPolicy : @BlockPolicy eth_protocol := {|
  ValidatedBlock := EthValidatedBlock;
  BPT := EthBlockPolicy;
  SBT := EthSBT;
  vb_block := evb_block;
  check_coherency := eth_check_coherency;
  get_expected_execution_results := eth_expected_execution_results;
  update_committed_block := eth_update_committed_block;
  policy_reset := eth_reset;
|}.
End policy.
