(* ===== verification/EthValidator.v ===== *)
(** Validation of Ethereum blocks: src/monad-eth-block-validator/src/lib.rs and
    src/monad-system-calls/src. *)

From S2P Require Import Prelude Types ValidatorSet LeaderElection Crypto MultiSig ConsensusTypes ChainConfig.
From S2P Require Import BlockPolicy ConsensusState EthPolicy.

#[local] Open Scope Z_scope.

(** * System transactions *)

Inductive SystemTransactionError :=
| UnexpectedSenderAddress
| InvalidTxType
| NonZeroGasPrice
| NonZeroGasLimit
| InvalidTxKind
| NonZeroValue
| UnexpectedDestAddress (expected : Address)
| UnexpectedInput (expected : bytes).

Inductive SystemTransactionValidationError :=
| MissingSystemTransaction
| UnexpectedSystemTransaction
| NonSequentialNonces
| SystemTransactionError_ (e : SystemTransactionError).

Section system.
Context `{E : EthProtocol}.

Definition is_system_sender (address : Address) : bool := bool_decide (address = SYSTEM_SENDER_ETH_ADDRESS).
Definition is_restricted_system_call (txn : RecoveredTx) : bool := false.
Definition generate_system_calls_from_header (header : ConsensusBlockHeader) : list SystemCall := [].

Definition static_validate_system_transaction (txn : RecoveredTx) : result unit SystemTransactionError :=
  if negb (is_system_sender (rtx_signer txn)) then Err UnexpectedSenderAddress
  else if negb (tx_is_legacy (rtx txn)) then Err InvalidTxType
  else if bool_decide (tx_gas_price (rtx txn) ≠ Some 0) then Err NonZeroGasPrice
  else if bool_decide (tx_gas_limit (rtx txn) ≠ 0) then Err NonZeroGasLimit
  else if tx_is_create (rtx txn) then Err InvalidTxKind
  else if bool_decide (tx_value (rtx txn) ≠ 0) then Err NonZeroValue
  else Ok tt.
Definition validate_system_transaction_input (expected : SystemCall) (txn : RecoveredTx) :
    result SystemTransaction SystemTransactionError := Err NonZeroValue.
Definition validate_system_transaction (expected : SystemCall) (txn : RecoveredTx) :
    result SystemTransaction SystemTransactionError :=
  match static_validate_system_transaction txn with
  | Ok _ => validate_system_transaction_input expected txn
  | Err e => Err e
  end.

(** The loop over the expected calls, which takes transactions from the front. *)
Fixpoint extract_loop (calls : list SystemCall) (txns : list RecoveredTx) (curr_nonce : option Nonce)
    (validated : list SystemTransaction) :
    result (list SystemTransaction * list RecoveredTx) SystemTransactionValidationError :=
  match calls with
  | [] => Ok (validated, txns)
  | call :: calls =>
      match txns with
      | [] => Err MissingSystemTransaction
      | txn :: txns =>
          match validate_system_transaction call txn with
          | Err e => Err (SystemTransactionError_ e)
          | Ok sys_txn =>
              if is_some_and (λ old, bool_decide (tx_nonce (rtx txn) ≠ wrap64 (old + 1))) curr_nonce
              then Err NonSequentialNonces
              else extract_loop calls txns (Some (tx_nonce (rtx txn))) (validated ++ [sys_txn])
          end
      end
  end.
Definition validate_and_extract_system_transactions (header : ConsensusBlockHeader) (txns : list RecoveredTx) :
    result (list SystemTransaction * list RecoveredTx) SystemTransactionValidationError :=
  match extract_loop (generate_system_calls_from_header header) txns None [] with
  | Err e => Err e
  | Ok (sys_txns, txns) =>
      if existsb (λ txn, is_system_sender (rtx_signer txn) || is_restricted_system_call txn) txns
      then Err UnexpectedSystemTransaction
      else Ok (sys_txns, txns)
  end.
End system.

(** * The validator *)

Section validator.
Context `{E : EthProtocol} `{SB : !EthStateBackend}.
#[local] Existing Instance EthPolicy.
(** [EthValidator::chain_id] *)
Context (validator_chain_id : Z).

Fixpoint system_nonces (nonces : gmap Address Nonce) (txns : list SystemTransaction) :
    result (gmap Address Nonce) BlockValidationError :=
  match txns with
  | [] => Ok nonces
  | txn :: txns =>
      if is_some_and (λ old, bool_decide (sys_txn_nonce txn ≠ wrap64 (old + 1))) (nonces !! sys_txn_signer txn)
      then Err SystemTxnError
      else system_nonces (<[sys_txn_signer txn := sys_txn_nonce txn]> nonces) txns
  end.

(** The loop over the user transactions. *)
Fixpoint eth_txns_loop (proposal_gas_limit max_code_size : Z) (nonces : gmap Address Nonce)
    (txn_fees : gmap Address Balance) (txns : list RecoveredTx) :
    exec (result (gmap Address Nonce * gmap Address Balance) BlockValidationError) :=
  match txns with
  | [] => Ret (Ok (nonces, txn_fees))
  | txn :: txns =>
      let signer := rtx_signer txn in
      match static_validate_transaction (rtx txn) validator_chain_id proposal_gas_limit max_code_size with
      | Err _ => Ret (Err TxnError)
      | Ok _ =>
          if bool_decide (tx_max_fee_per_gas (rtx txn) < BASE_FEE_PER_GAS) then Ret (Err TxnError)
          else if is_some_and (λ old, bool_decide (tx_nonce (rtx txn) ≠ wrap64 (old + 1))) (nonces !! signer)
          then Ret (Err TxnError)
          else
            max_value ← compute_txn_max_value (rtx txn);
            eth_txns_loop proposal_gas_limit max_code_size (<[signer := tx_nonce (rtx txn)]> nonces)
              (<[signer := saturating_add u256_max (default 0 (txn_fees !! signer)) max_value]> txn_fees) txns
      end
  end.

(** [iter().map(..).sum()] of [u64] or [usize] *)
Definition sum_u64 (l : list Z) : Z := foldl (λ acc z, wrap64 (acc + z)) 0 l.

Definition validate_block_body (header : ConsensusBlockHeader) (body : ConsensusBlockBody)
    (tx_limit proposal_gas_limit proposal_byte_limit max_code_size : Z) :
    exec (result (list SystemTransaction * list RecoveredTx * gmap Address Nonce * gmap Address Balance)
            BlockValidationError) :=
  let eth_body : EthBlockBody := execution_body body in
  if bool_decide (ommers eth_body ≠ []) then Ret (Err PayloadError)
  else if bool_decide (withdrawals eth_body ≠ []) then Ret (Err PayloadError)
  else if bool_decide (Z.of_nat (length (transactions eth_body)) > tx_limit) then Ret (Err TxnError)
  else
    match mapM (λ tx, mkRecoveredTx tx <$> secp256k1_recover tx) (transactions eth_body) with
    | None => Ret (Err TxnError)
    | Some recovered_txns =>
        match validate_and_extract_system_transactions header recovered_txns with
        | Err _ => Ret (Err SystemTxnError)
        | Ok (system_txns, eth_txns) =>
            nonces <-? Ret (system_nonces ∅ system_txns);
            '(nonces, txn_fees) <-? eth_txns_loop proposal_gas_limit max_code_size nonces ∅ eth_txns;
            let total_gas := sum_u64 (map (λ t, tx_gas_limit (rtx t)) eth_txns) in
            let proposal_size := wrap64 (sum_u64 (map sys_txn_length system_txns) +
                                         sum_u64 (map (λ t, tx_length (rtx t)) eth_txns)) in
            if bool_decide (total_gas > proposal_gas_limit) then Ret (Err TxnError)
            else if bool_decide (proposal_size > proposal_byte_limit) then Ret (Err TxnError)
            else Ret (Ok (system_txns, eth_txns, nonces, txn_fees))
        end
    end.

(** [RoundSignature::get_hash] *)
Definition round_signature_get_hash (s : SignatureType) : Z := hash (rlp_bytes (SignatureType_rlp s)).

Definition validate_block_header (header : ConsensusBlockHeader) (body : ConsensusBlockBody)
    (author_pubkey : option PubKey) (proposal_gas_limit : Z) : result unit BlockValidationError :=
  let h : ProposedEthHeader := h_execution_inputs header in
  let eth_body : EthBlockBody := execution_body body in
  if bool_decide (h_block_body_id header ≠ body_get_id body) then Err HeaderPayloadMismatchError
  else if is_some_and (λ pk, negb (round_signature_verify (h_round_signature header) (h_block_round header) pk))
            author_pubkey then Err RandaoError
  else if bool_decide (peh_ommers_hash h ≠ EMPTY_OMMER_ROOT_HASH) then Err HeaderError
  else if bool_decide (peh_transactions_root h ≠ calculate_transaction_root (transactions eth_body))
  then Err HeaderError
  else if bool_decide (peh_withdrawals_root h ≠ EMPTY_WITHDRAWALS) then Err HeaderError
  else if bool_decide (peh_difficulty h ≠ 0) then Err HeaderError
  else if bool_decide (peh_number h ≠ h_seq_num header) then Err HeaderError
  else if bool_decide (peh_gas_limit h ≠ proposal_gas_limit) then Err HeaderError
  else if bool_decide (peh_timestamp h ≠ h_timestamp_ns header / 1000000000) then Err HeaderError
  else if bool_decide (peh_mix_hash h ≠ round_signature_get_hash (h_round_signature header)) then Err HeaderError
  else if bool_decide (peh_nonce h ≠ 0) then Err HeaderError
  else if bool_decide (peh_extra_data h ≠ 0) then Err HeaderError
  else if bool_decide (peh_base_fee_per_gas h ≠ BASE_FEE_PER_GAS) then Err HeaderError
  else if bool_decide (peh_blob_gas_used h ≠ 0) then Err HeaderError
  else if bool_decide (peh_excess_blob_gas h ≠ 0) then Err HeaderError
  else if bool_decide (peh_parent_beacon_block_root h ≠ 0) then Err HeaderError
  else Ok tt.

Definition eth_validate (header : ConsensusBlockHeader) (body : ConsensusBlockBody) (author_pubkey : option PubKey)
    (tx_limit proposal_gas_limit proposal_byte_limit max_code_size : Z) :
    exec (result EthValidatedBlock BlockValidationError) :=
  _ <-? Ret (validate_block_header header body author_pubkey proposal_gas_limit);
  validated ← validate_block_body header body tx_limit proposal_gas_limit proposal_byte_limit max_code_size;
  match validated with
  | Ok (system_txns, validated_txns, nonces, txn_fees) =>
      Ret (match full_block_new header body with
           | Some block => Ok (mkEthValidatedBlock block system_txns validated_txns nonces txn_fees)
           | None => Err HeaderPayloadMismatchError
           end)
  | Err _ => Ret (Err PayloadError)
  end.

Definition EthValidator : @BlockValidator eth_protocol EthPolicy :=
  Build_BlockValidator eth_protocol EthPolicy eth_validate.
End validator.
