(* ===== verification/EthProps.v ===== *)
(** Properties of Ethereum blocks: what the validator accepts, and that the
    checks of the block policy keep every sender able to pay for all the
    transactions that are ordered and not yet executed. *)

From S2P Require Import Prelude Types ValidatorSet LeaderElection Crypto MultiSig ConsensusTypes ChainConfig.
From S2P Require Import BlockPolicy ConsensusState EthPolicy EthValidator.

#[local] Open Scope Z_scope.

(** * Transactions of a sender *)

Lemma wrap64_range z : is_u64 (wrap64 z).
Proof. unfold is_u64, u64_max, wrap64. pose proof (Z.mod_pos_bound z (2 ^ 64)). lia. Qed.

Section senders.
Context `{X : EthTypes} `{!EthTypesLaws}.
Implicit Types (txns : list RecoveredTx) (a : Address).

(** The highest cost of a transaction. *)
Definition max_value (tx : TxEnvelope) : Z :=
  Z.min u256_max (tx_value tx + tx_gas_limit tx * tx_max_fee_per_gas tx).

Lemma compute_txn_max_value_ok tx : compute_txn_max_value tx = Ret (max_value tx).
Proof.
  unfold compute_txn_max_value. destruct (tx_gas_limit_u64 tx), (tx_max_fee_u128 tx).
  rewrite bool_decide_true; [done|].
  assert (tx_gas_limit tx * tx_max_fee_per_gas tx <= u64_max * u128_max) by nia.
  unfold u64_max, u128_max, u256_max in *. lia.
Qed.

Lemma max_value_nonneg tx : 0 <= max_value tx.
Proof.
  unfold max_value. destruct (tx_gas_limit_u64 tx), (tx_max_fee_u128 tx), (tx_value_u256 tx).
  assert (0 <= u256_max) by done. nia.
Qed.

(** The nonces that a sender uses, and the highest cost of its transactions. *)
Definition nonces_of a txns : list Nonce := map (λ t, tx_nonce (rtx t)) (filter (λ t, rtx_signer t = a) txns).
Definition cost a txns : Z := zsum (map (λ t, max_value (rtx t)) (filter (λ t, rtx_signer t = a) txns)).

Lemma nonces_of_cons a t txns :
  nonces_of a (t :: txns) = if decide (rtx_signer t = a) then tx_nonce (rtx t) :: nonces_of a txns else nonces_of a txns.
Proof. unfold nonces_of. rewrite filter_cons. by case_decide. Qed.

Lemma cost_cons a t txns :
  cost a (t :: txns) = (if decide (rtx_signer t = a) then max_value (rtx t) else 0) + cost a txns.
Proof. unfold cost. rewrite filter_cons. case_decide; simpl; rewrite ?zsum_cons; lia. Qed.

Lemma cost_nonneg a txns : 0 <= cost a txns.
Proof.
  unfold cost. apply zsum_nonneg. apply Forall_fmap, Forall_true. intros t. apply max_value_nonneg.
Qed.

Lemma cost_no_txns a txns : nonces_of a txns = [] → cost a txns = 0.
Proof. unfold nonces_of, cost. by intros ->%fmap_nil_inv. Qed.

(** Nonces in sequence from [n]. *)
Fixpoint consecutive_from (n : Nonce) (l : list Nonce) : Prop :=
  match l with
  | [] => True
  | m :: l => m = n ∧ consecutive_from (wrap64 (n + 1)) l
  end.
End senders.

(** * Validation *)

Section validation.
Context `{E : EthProtocol} `{!EthTypesLaws}.
Implicit Types (txns : list RecoveredTx) (a : Address).

(** The nonces after [n] when the sender is known, any sequence otherwise. *)
Definition sequential (start : option Nonce) (l : list Nonce) : Prop :=
  match start, l with
  | Some n, l => consecutive_from (wrap64 (n + 1)) l
  | None, [] => True
  | None, m :: l => consecutive_from (wrap64 (m + 1)) l
  end.

Lemma sequential_cons start m l :
  sequential start (m :: l) ↔
  is_some_and (λ old, bool_decide (m ≠ wrap64 (old + 1))) start = false ∧ sequential (Some m) l.
Proof.
  destruct start as [n|]; simpl; [|naive_solver]. rewrite bool_decide_eq_false. split.
  - intros [-> Hc]. naive_solver.
  - intros [Hm Hc]. apply dec_stable in Hm. by subst.
Qed.

(** What the validator records of the transactions. *)
Definition last_nonce a (txns : list RecoveredTx) : option Nonce := last (nonces_of a txns).
Definition recorded_fee a (txns : list RecoveredTx) : option Balance :=
  match nonces_of a txns with [] => None | _ => Some (Z.min u256_max (cost a txns)) end.

Definition txn_ok (chain_id gas_limit code_size : Z) (t : RecoveredTx) : Prop :=
  static_validate_transaction (rtx t) chain_id gas_limit code_size = Ok tt ∧
  BASE_FEE_PER_GAS <= tx_max_fee_per_gas (rtx t).

Lemma last_nonce_cons a t txns :
  last_nonce a (t :: txns) =
    if decide (rtx_signer t = a) then Some (default (tx_nonce (rtx t)) (last_nonce a txns)) else last_nonce a txns.
Proof.
  unfold last_nonce. rewrite nonces_of_cons. case_decide; [|done]. rewrite last_cons. by destruct (last _).
Qed.

(** The saturating fee of a sender that has paid [f] already. *)
Definition fee_after (f : option Balance) a txns : option Balance :=
  match nonces_of a txns with [] => f | _ => Some (Z.min u256_max (default 0 f + cost a txns)) end.

Lemma fee_after_cons f a t txns : (∀ x, f = Some x → 0 <= x) →
  fee_after f a (t :: txns) =
    fee_after (if decide (rtx_signer t = a) then Some (saturating_add u256_max (default 0 f) (max_value (rtx t))) else f)
      a txns.
Proof.
  intros Hf. unfold fee_after, saturating_add. rewrite nonces_of_cons, cost_cons. case_decide; [|done].
  assert (0 <= default 0 f) by (destruct f; simpl; [by apply Hf|done]).
  pose proof (max_value_nonneg (rtx t)). pose proof (cost_nonneg a txns). destruct (nonces_of a txns) eqn:Hn; simpl.
  - rewrite (cost_no_txns _ _ Hn). f_equal. lia.
  - f_equal. lia.
Qed.

(** All transactions are good, and the nonces of every sender in sequence. *)
Definition txns_ok (chain_id gas_limit code_size : Z) (nonces : gmap Address Nonce) txns : Prop :=
  Forall (txn_ok chain_id gas_limit code_size) txns ∧ ∀ a, sequential (nonces !! a) (nonces_of a txns).

Lemma txns_ok_cons chain_id gas_limit code_size nonces t txns :
  txns_ok chain_id gas_limit code_size nonces (t :: txns) ↔
  txn_ok chain_id gas_limit code_size t ∧
  is_some_and (λ old, bool_decide (tx_nonce (rtx t) ≠ wrap64 (old + 1))) (nonces !! rtx_signer t) = false ∧
  txns_ok chain_id gas_limit code_size (<[rtx_signer t := tx_nonce (rtx t)]> nonces) txns.
Proof.
  unfold txns_ok. rewrite Forall_cons. split.
  - intros [[Ht Htxns] Hs]. pose proof (Hs (rtx_signer t)) as Hst. rewrite nonces_of_cons, decide_True in Hst by done.
    apply sequential_cons in Hst as [Hold Hst]. split_and!; try done. intros a. specialize (Hs a).
    rewrite nonces_of_cons in Hs. case_decide; [subst; by rewrite lookup_insert_eq|by rewrite lookup_insert_ne].
  - intros (Ht & Hold & Htxns & Hs). split; [done|]. intros a. rewrite nonces_of_cons. specialize (Hs a).
    case_decide as Ha; [subst|by rewrite lookup_insert_ne in Hs]. rewrite lookup_insert_eq in Hs.
    by apply sequential_cons.
Qed.

Lemma eth_txns_loop_spec chain_id gas_limit code_size nonces fees txns :
  (∀ a x, fees !! a = Some x → 0 <= x) →
  ∃ r, eth_txns_loop chain_id gas_limit code_size nonces fees txns = Ret r ∧
    match r with
    | Ok (nonces', fees') =>
        txns_ok chain_id gas_limit code_size nonces txns ∧
        (∀ a, nonces' !! a = union (last_nonce a txns) (nonces !! a)) ∧
        (∀ a, fees' !! a = fee_after (fees !! a) a txns)
    | Err _ => ¬ txns_ok chain_id gas_limit code_size nonces txns
    end.
Proof.
  revert nonces fees. induction txns as [|t txns IH]; intros nonces fees Hf; simpl.
  { eexists. split; [done|]. simpl. split_and!; [by split; [constructor|intros a; destruct (nonces !! a)]| |done].
    intros a. by destruct (nonces !! a). }
  destruct (static_validate_transaction _ _ _ _) as [[]|e] eqn:Hst.
  2:{ eexists. split; [done|]. intros [[Hs _] _]%txns_ok_cons. congruence. }
  case_bool_decide as Hbase.
  { eexists. split; [done|]. intros [[_ Hs] _]%txns_ok_cons. lia. }
  destruct (is_some_and _ (nonces !! rtx_signer t)) eqn:Hold.
  { eexists. split; [done|]. intros (_ & Hs & _)%txns_ok_cons. congruence. }
  rewrite compute_txn_max_value_ok, bind_Ret. edestruct IH as (r & Hr & Hspec); [|exists r; split; [exact Hr|]].
  { intros a x. destruct (decide (a = rtx_signer t)) as [->|Hne].
    - rewrite lookup_insert_eq. intros [= <-]. unfold saturating_add. pose proof (max_value_nonneg (rtx t)).
      assert (0 <= default 0 (fees !! rtx_signer t)) by (destruct (fees !! rtx_signer t) eqn:Hx; simpl; [by eapply Hf|done]).
      assert (0 <= u256_max) by done. lia.
    - rewrite lookup_insert_ne by done. apply Hf. }
  clear Hr. destruct r as [[nonces' fees']|e].
  - destruct Hspec as (Hok & Hn & Hfs). split_and!; [by apply txns_ok_cons; split_and!; [split; [done|lia]|..]| |]; intros a.
    + rewrite Hn, last_nonce_cons. case_decide; [subst; rewrite lookup_insert_eq|by rewrite lookup_insert_ne].
      by destruct (last_nonce (rtx_signer t) txns), (nonces !! rtx_signer t).
    + rewrite Hfs, fee_after_cons by (by apply Hf). case_decide; [subst; by rewrite lookup_insert_eq|].
      by rewrite lookup_insert_ne.
  - intros (_ & _ & Hok)%txns_ok_cons. done.
Qed.
(** What the validator records in a block of its transactions. *)
Definition summary_ok (b : EthValidatedBlock) : Prop :=
  (∀ a, nonces b !! a = last_nonce a (validated_txns b)) ∧ ∀ a, txn_fees b !! a = recorded_fee a (validated_txns b).

Record header_ok (header : ConsensusBlockHeader) (body : ConsensusBlockBody) (author : option PubKey) (gas_limit : Z) :
    Prop := {
  hok_body : h_block_body_id header = body_get_id body;
  hok_randao pk : author = Some pk → round_signature_verify (h_round_signature header) (h_block_round header) pk = true;
  hok_inputs : h_execution_inputs header =
    mkProposedEthHeader EMPTY_OMMER_ROOT_HASH (peh_beneficiary (h_execution_inputs header))
      (calculate_transaction_root (transactions (execution_body body))) 0 (h_seq_num header) gas_limit
      (h_timestamp_ns header / 1000000000) 0 (round_signature_get_hash (h_round_signature header)) 0
      BASE_FEE_PER_GAS EMPTY_WITHDRAWALS 0 0 0;
}.

Lemma validate_block_header_spec header body author gas_limit :
  validate_block_header header body author gas_limit = Ok tt ↔ header_ok header body author gas_limit.
Proof.
  unfold validate_block_header. destruct (h_execution_inputs header) as [] eqn:Hin.
  cbn -[round_signature_verify round_signature_get_hash body_get_id]. split.
  - intros Hok. repeat (case_bool_decide; [done|]). destruct (is_some_and _ author) eqn:Ha; [done|].
    repeat (case_bool_decide; [done|]). constructor; rewrite ?Hin; simpl; [naive_solver| |by f_equal; naive_solver].
    intros pk ->. simpl in Ha. by apply negb_false_iff.
  - intros [Hb Hr Hi]. rewrite Hin in Hi. cbn -[round_signature_get_hash] in Hi. injection Hi as -> -> -> -> -> -> -> -> -> -> -> -> -> ->.
    rewrite bool_decide_false by (intros Hne; by apply Hne). replace (is_some_and _ author) with false.
    + repeat rewrite bool_decide_false by (intros Hne; by apply Hne). done.
    + destruct author as [pk|]; [|done]. cbn [is_some_and]. by rewrite Hr.
Qed.

Lemma sum_u64_wrap l : sum_u64 l = wrap64 (zsum l).
Proof.
  unfold sum_u64. assert (∀ acc, foldl (λ acc z, wrap64 (acc + z)) (wrap64 acc) l = wrap64 (acc + zsum l)) as Hs.
  { induction l as [|z l IH]; intros acc; simpl; [by rewrite zsum_nil, Z.add_0_r|].
    replace (wrap64 (wrap64 acc + z)) with (wrap64 (acc + z)) by (unfold wrap64; by rewrite Z.add_mod_idemp_l).
    rewrite IH, zsum_cons. f_equal. lia. }
  apply (Hs 0).
Qed.

Lemma sum_u64_exact l : 0 <= zsum l <= u64_max → sum_u64 l = zsum l.
Proof. intros Hl. rewrite sum_u64_wrap. apply Z.mod_small. unfold u64_max in Hl. lia. Qed.

Lemma no_system_txns (l : list SystemTransaction) : l = [].
Proof. by destruct l as [|[]]. Qed.

Record body_ok (chain_id : Z) (body : ConsensusBlockBody) (tx_limit gas_limit byte_limit code_size : Z)
    (txns : list RecoveredTx) : Prop := {
  bok_ommers : ommers (execution_body body) = [];
  bok_withdrawals : withdrawals (execution_body body) = [];
  bok_count : Z.of_nat (length txns) <= tx_limit;
  bok_signed : Forall2 (λ tx t, rtx t = tx ∧ secp256k1_recover tx = Some (rtx_signer t))
    (transactions (execution_body body)) txns;
  bok_users t : t ∈ txns → rtx_signer t ≠ SYSTEM_SENDER_ETH_ADDRESS;
  bok_txns : txns_ok chain_id gas_limit code_size ∅ txns;
  bok_gas : zsum (map (λ t, tx_gas_limit (rtx t)) txns) <= gas_limit;
  bok_size : zsum (map (λ t, tx_length (rtx t)) txns) <= byte_limit;
}.

Lemma recover_all_spec txs txns :
  mapM (λ tx, mkRecoveredTx tx <$> secp256k1_recover tx) txs = Some txns ↔
  Forall2 (λ tx t, rtx t = tx ∧ secp256k1_recover tx = Some (rtx_signer t)) txs txns.
Proof.
  rewrite mapM_Some. split; intros Hall; eapply Forall2_impl; try exact Hall; intros tx [tx' signer]; simpl.
  - destruct (secp256k1_recover tx); simpl; naive_solver.
  - by intros [-> ->].
Qed.

Lemma extract_spec header txns :
  (validate_and_extract_system_transactions header txns = Ok ([], txns) ∧
   ∀ t, t ∈ txns → rtx_signer t ≠ SYSTEM_SENDER_ETH_ADDRESS) ∨
  ((∃ e, validate_and_extract_system_transactions header txns = Err e) ∧
   ∃ t, t ∈ txns ∧ rtx_signer t = SYSTEM_SENDER_ETH_ADDRESS).
Proof.
  unfold validate_and_extract_system_transactions. cbn [generate_system_calls_from_header extract_loop].
  destruct (existsb _ txns) eqn:Hex.
  - right. split; [by eexists|]. apply existsb_exists in Hex as (t & Hin & Ht). exists t.
    split; [by apply list_elem_of_In|]. rewrite orb_false_r in Ht. by apply bool_decide_eq_true in Ht.
  - left. split; [done|]. intros t Hin Ht. apply not_true_iff_false in Hex. apply Hex, existsb_exists. exists t.
    split; [by apply list_elem_of_In|]. rewrite orb_false_r. by apply bool_decide_eq_true.
Qed.

Lemma txns_ok_gas chain_id gas_limit code_size nonces txns :
  txns_ok chain_id gas_limit code_size nonces txns →
  0 <= zsum (map (λ t, tx_gas_limit (rtx t)) txns) <= Z.of_nat (length txns) * gas_limit.
Proof.
  intros [Hall _]. induction Hall as [|t txns [Ht _] Hall IH]; simpl; [done|]. rewrite zsum_cons.
  assert (tx_gas_limit (rtx t) <= gas_limit).
  { unfold static_validate_transaction in Ht. repeat case_match; try done. by case_bool_decide; [done|lia]. }
  pose proof (tx_gas_limit_u64 (rtx t)) as [??]. lia.
Qed.

Lemma txns_size_nonneg txns : 0 <= zsum (map (λ t, tx_length (rtx t)) txns).
Proof. apply zsum_nonneg, Forall_fmap, Forall_true. intros t. apply tx_length_u64. Qed.

(** What a result of [validate_block_body] says of the body. *)
Definition body_validated (chain_id : Z) (body : ConsensusBlockBody) (tx_limit gas_limit byte_limit code_size : Z)
    (r : result (list SystemTransaction * list RecoveredTx * gmap Address Nonce * gmap Address Balance)
           BlockValidationError) : Prop :=
  match r with
  | Ok (_, txns, nonces, fees) =>
      body_ok chain_id body tx_limit gas_limit byte_limit code_size txns ∧
      (∀ a, nonces !! a = last_nonce a txns) ∧ (∀ a, fees !! a = recorded_fee a txns)
  | Err _ => ∀ txns, ¬ body_ok chain_id body tx_limit gas_limit byte_limit code_size txns
  end.

Lemma body_rejected chain_id body tx_limit gas_limit byte_limit code_size txns e :
  mapM (λ tx, mkRecoveredTx tx <$> secp256k1_recover tx) (transactions (execution_body body)) = Some txns →
  ¬ body_ok chain_id body tx_limit gas_limit byte_limit code_size txns →
  ∃ r, Ret (Err e) = Ret r ∧ body_validated chain_id body tx_limit gas_limit byte_limit code_size r.
Proof.
  intros Htxns Hno. eexists. split; [done|]. intros txns' Hok. pose proof (bok_signed _ _ _ _ _ _ _ Hok) as Hs.
  apply recover_all_spec in Hs. naive_solver.
Qed.

Lemma txns_sizes txs txns :
  Forall2 (λ tx t, rtx t = tx ∧ secp256k1_recover tx = Some (rtx_signer t)) txs txns →
  map (λ t, tx_length (rtx t)) txns = map tx_length txs.
Proof. induction 1 as [|tx t txs txns [<- _] _ IH]; simpl; [done|by f_equal]. Qed.

Lemma validate_block_body_spec chain_id header body tx_limit gas_limit byte_limit code_size :
  0 <= tx_limit → 0 <= gas_limit → tx_limit * gas_limit <= u64_max →
  zsum (map tx_length (transactions (execution_body body))) <= u64_max →
  ∃ r, validate_block_body chain_id header body tx_limit gas_limit byte_limit code_size = Ret r ∧
    body_validated chain_id body tx_limit gas_limit byte_limit code_size r.
Proof.
  intros Htl Hgl Hgas Hsize. unfold validate_block_body.
  case_bool_decide; [eexists; split; [done|]; by intros txns [? _ _ _ _ _ _ _]|].
  case_bool_decide; [eexists; split; [done|]; by intros txns [_ ? _ _ _ _ _ _]|].
  case_bool_decide as Hcount.
  { eexists. split; [done|]. intros txns [_ _ Hc Hs _ _ _ _]. apply Forall2_length in Hs. lia. }
  destruct (mapM _ _) as [txns|] eqn:Hrec.
  2:{ eexists. split; [done|]. intros txns [_ _ _ Hs _ _ _ _]. apply recover_all_spec in Hs. congruence. }
  pose proof (λ e, body_rejected chain_id body tx_limit gas_limit byte_limit code_size txns e Hrec) as Hreject.
  apply recover_all_spec in Hrec as Hsigned. pose proof (Forall2_length _ _ _ Hsigned) as Hlen.
  destruct (extract_spec header txns) as [[-> Husers]|[[e ->] (t & Hin & Ht)]].
  2:{ apply Hreject. intros Hok. by apply (bok_users _ _ _ _ _ _ _ Hok t). }
  cbn [system_nonces try_bind].
  destruct (eth_txns_loop_spec chain_id gas_limit code_size ∅ ∅ txns) as ([[nonces fees]|e] & -> & Hspec); [done| |];
    cbn [try_bind].
  2:{ apply Hreject. intros Hok. apply Hspec, (bok_txns _ _ _ _ _ _ _ Hok). }
  destruct Hspec as (Hok & Hn & Hf). pose proof (txns_ok_gas _ _ _ _ _ Hok) as Hg. rewrite <-Hlen in Hg.
  pose proof (txns_size_nonneg txns) as Hnn. rewrite <-(txns_sizes _ _ Hsigned) in Hsize.
  rewrite (sum_u64_exact (map (λ t, tx_gas_limit (rtx t)) txns)) by nia.
  rewrite (sum_u64_exact (map (λ t, tx_length (rtx t)) txns)) by lia.
  replace (wrap64 (sum_u64 (map sys_txn_length []) + _)) with (zsum (map (λ t, tx_length (rtx t)) txns))
    by (symmetry; apply Z.mod_small; unfold u64_max in Hsize; cbn; lia).
  case_bool_decide; [apply Hreject; intros Hok'; pose proof (bok_gas _ _ _ _ _ _ _ Hok'); lia|].
  case_bool_decide; [apply Hreject; intros Hok'; pose proof (bok_size _ _ _ _ _ _ _ Hok'); lia|].
  eexists. split; [done|]. split_and!.
  - constructor; try done; try lia; by apply dec_stable.
  - intros a. rewrite Hn, lookup_empty. by destruct (last_nonce a txns).
  - intros a. rewrite Hf, lookup_empty. unfold fee_after, recorded_fee. by destruct (nonces_of a txns).
Qed.

End validation.

(** C26. [EthValidator::validate] never panics and accepts exactly the blocks whose
    header matches the body and the protocol, whose transactions are signed, not
    sent by the system, statically valid and within the limits of count, gas and
    size, and in which the nonces of every sender follow each other. Of an
    accepted block it records the last nonce of every sender and the highest
    cost of its transactions. *)
Theorem eth_validate_correct `{E : EthProtocol} `{!EthTypesLaws} (chain_id : Z)
    (header : ConsensusBlockHeader) (body : ConsensusBlockBody) (author : option PubKey)
    (tx_limit gas_limit byte_limit code_size : Z)
    (Htx : 0 <= tx_limit) (Hgas : 0 <= gas_limit) (Hfits : tx_limit * gas_limit <= u64_max)
    (Hsize : zsum (map tx_length (transactions (execution_body body))) <= u64_max) :
  ∃ r, eth_validate chain_id header body author tx_limit gas_limit byte_limit code_size = Ret r ∧
    ∀ b, r = Ok b ↔
      evb_block b = mkFullBlock header body ∧ header_ok header body author gas_limit ∧
      body_ok chain_id body tx_limit gas_limit byte_limit code_size (validated_txns b) ∧ summary_ok b.
Proof.
  unfold eth_validate. destruct (validate_block_header header body author gas_limit) as [[]|e] eqn:Hh; cbn [try_bind].
  2:{ eexists. split; [done|]. intros b. split; [done|]. intros (_ & Hok%validate_block_header_spec & _). congruence. }
  apply validate_block_header_spec in Hh.
  destruct (validate_block_body_spec chain_id header body tx_limit gas_limit byte_limit code_size)
    as ([[[[sys txns] nonces] fees]|e] & -> & Hb); try done; rewrite bind_Ret; eexists; (split; [done|]); intros b.
  - destruct Hb as (Hb & Hn & Hf). unfold full_block_new. rewrite bool_decide_false
      by (intros Hne; by apply Hne, eq_sym, (hok_body _ _ _ _ Hh)). split; [by intros [= <-]|].
    destruct b as [fb sys' txns' nonces' fees']. unfold summary_ok. simpl. intros (-> & _ & Hb' & Hn' & Hf').
    assert (txns' = txns) as ->.
    { apply bok_signed, recover_all_spec in Hb. apply bok_signed, recover_all_spec in Hb'. congruence. }
    f_equal. f_equal; [by rewrite (no_system_txns sys), (no_system_txns sys')|..];
      apply map_eq; intros a; congruence.
  - split; [done|]. intros (_ & _ & Hok & _). by apply Hb in Hok.
Qed.


(** * Concrete blocks *)

(** Transactions with the fields that matter, at their width. Account 99 is a
    contract, which signs nothing. *)
Definition demo_contract : Address := 99.
Record DemoTx := mkDemoTx { dt_signer : Address; dt_nonce : Z; dt_value : Z; dt_gas : Z; dt_fee : Z }.
#[local] Instance DemoTx_eq_dec : EqDecision DemoTx.
Proof. solve_decision. Defined.

Definition demo_types : EthTypes := {|
  TxEnvelope := DemoTx;
  tx_high_s _ := false; tx_chain_id _ := None; tx_max_priority_fee_per_gas _ := None;
  tx_max_fee_per_gas t := dt_fee t mod 2 ^ 128; tx_gas_price _ := None; tx_is_create _ := false; tx_input _ := [];
  tx_gas_limit t := wrap64 (dt_gas t); tx_nonce t := wrap64 (dt_nonce t); tx_value t := dt_value t mod 2 ^ 256;
  tx_access_list _ := None; tx_is_legacy _ := true; tx_is_eip4844 _ := false; tx_is_eip7702 _ := false;
  tx_length _ := 100; 
  secp256k1_recover t := if bool_decide (dt_signer t = demo_contract) then None else Some (dt_signer t);
  tx_rlp t := RList [RBytes (dt_signer t); RUint (dt_nonce t); RUint (dt_value t); RUint (dt_gas t); RUint (dt_fee t)];
  calculate_transaction_root l := Z.of_nat (length l); EMPTY_OMMER_ROOT_HASH := 1; EMPTY_WITHDRAWALS := 2;
  EthHeader := Z; eth_header_rlp n := RUint n;
|}.
#[export] Instance demo_protocol : EthProtocol := {| eth_base := NopProtocol; eth_types := demo_types |}.
#[export] Instance demo_types_laws : EthTypesLaws.
Proof.
  constructor; intros tx; simpl; try apply wrap64_range.
  - pose proof (Z.mod_pos_bound (dt_fee tx) (2 ^ 128)). unfold u128_max. lia.
  - pose proof (Z.mod_pos_bound (dt_value tx) (2 ^ 256)). unfold is_u256, u256_max. lia.
  - by unfold is_u64, u64_max.
Qed.

(** A block of the given number, in the round of the same number, with one
    transaction of sender 7; the leaders of the rounds are nodes 1 to 4. *)
Definition demo_tx (nonce : Z) : RecoveredTx := mkRecoveredTx (mkDemoTx 7 nonce 1000 21000 50000000000) 7.
Definition demo_body (nonce : Z) : ConsensusBlockBody (P := eth_protocol) :=
  mkBody (P := eth_protocol) (mkEthBlockBody [rtx (demo_tx nonce)] [] []).
Definition demo_header (round number nonce : Z) (results : list Z) : ConsensusBlockHeader (P := eth_protocol) :=
  let author := round mod 4 + 1 in
  let randao := round_signature_new (P := eth_protocol) round author in
  mkHeader (P := eth_protocol) round 1 (mkQC (P := eth_protocol) (mkVote GENESIS_BLOCK_ID 0 1) (mkMultiSig [])) author number
    (1000 * number) randao results
    (mkProposedEthHeader 1 0 1 0 number 150000000 0 0 (round_signature_get_hash randao) 0 BASE_FEE_PER_GAS 2 0 0 0)
    (body_get_id (demo_body nonce)).
Definition demo_block (round number nonce : Z) (results : list Z) : EthValidatedBlock :=
  mkEthValidatedBlock (mkFullBlock (demo_header round number nonce results) (demo_body nonce)) [] [demo_tx nonce]
    {[7 := nonce]} {[7 := 1000 + 21000 * 50000000000]}.

(** Validation of the block as a proposal of the given author. *)
Definition demo_validate (author : NodeId) : exec (result EthValidatedBlock BlockValidationError) :=
  eth_validate 20143 (demo_header 1 1 0 []) (demo_body 0) (Some author) 5000 150000000 2000000 131072.
Definition demo_accepted (author : NodeId) : option (list (Address * Z)) :=
  match demo_validate author with Ret (Ok b) => Some (map_to_list (nonces b)) | _ => None end.

Lemma eth_validate_correct_witness :
  header_ok (demo_header 1 1 0 []) (demo_body 0) (Some 2) 150000000 ∧
  (∃ b, demo_validate 2 = Ret (Ok b) ∧ summary_ok b) ∧ demo_accepted 2 = Some [(7, 0)] ∧ demo_accepted 3 = None.
Proof.
  pose proof (eth_validate_correct 20143 (demo_header 1 1 0 []) (demo_body 0) (Some 2) 5000 150000000 2000000 131072
    ltac:(lia) ltac:(lia) ltac:(by vm_compute) ltac:(by vm_compute)) as (r & Hr & Hok).
  assert (demo_accepted 2 = Some [(7, 0)]) as Ha by (vm_compute; reflexivity).
  unfold demo_accepted, demo_validate in Ha. rewrite Hr in Ha. destruct r as [b|e]; [|discriminate].
  destruct (proj1 (Hok b) eq_refl) as (_ & Hh & _ & Hs).
  split; [exact Hh|]. split; [exists b; split; [exact Hr|exact Hs]|]. split; vm_compute; reflexivity.
Defined.
