(* ===== verification/EthPolicyProps.v ===== *)
(** Properties of the Ethereum block policy: as long as execution charges a sender
    no more than what its transactions may cost, the checks of consensus keep
    every sender solvent over the blocks that are ordered and not executed, and
    no assertion of the policy fails but one: a check with no block pending stops
    the node on a block that is not numbered after the last commit. *)

From S2P Require Import Prelude Types ValidatorSet LeaderElection Crypto MultiSig ConsensusTypes ChainConfig.
From S2P Require Import BlockPolicy ConsensusState EthPolicy EthValidator EthProps.

#[local] Open Scope Z_scope.

(** * Execution *)

(** Accounts hold machine integers. *)
Definition account_ok (x : EthAccount) : Prop := is_u64 (acc_nonce x) ∧ is_u256 (acc_balance x).

(** What the validator makes sure of for the transactions of a block (see
    [validated_signed]): their senders signed them, and none of them gives code to an
    account (EIP-7702). No transaction uses the last nonce (EIP-2681). *)
Record signed_ok `{E : EthProtocol} (b : EthValidatedBlock) : Prop := {
  sg_recovered t : t ∈ validated_txns b → secp256k1_recover (rtx t) = Some (rtx_signer t);
  sg_no_code t : t ∈ validated_txns b → tx_is_eip7702 (rtx t) = false;
  sg_nonces t : t ∈ validated_txns b → tx_nonce (rtx t) < u64_max;
}.

Lemma validated_signed `{E : EthProtocol} chain_id body tx_limit gas_limit byte_limit code_size b :
  body_ok chain_id body tx_limit gas_limit byte_limit code_size (validated_txns b) →
  (∀ t, t ∈ validated_txns b → tx_nonce (rtx t) < u64_max) → signed_ok b.
Proof.
  intros Hb Hn. constructor; [| |done].
  - intros t [i Hi]%list_elem_of_lookup. destruct (Forall2_lookup_r _ _ _ _ _ (bok_signed _ _ _ _ _ _ _ Hb) Hi) as (tx & _ & -> & ?). done.
  - intros t Ht. destruct (bok_txns _ _ _ _ _ _ _ Hb) as [Hall _]. rewrite Forall_forall in Hall. destruct (Hall t Ht) as [Hs _].
    destruct (tx_is_eip7702 (rtx t)) eqn:Hcode; [|done]. unfold static_validate_transaction in Hs. rewrite Hcode, orb_true_r in Hs.
    by repeat case_match.
Qed.

(** A block that can be executed on the accounts [s]: the nonces of every sender
    continue that of its account, and it can pay for all its transactions. *)
Record executable `{E : EthProtocol} (external : Address → Prop) (s : Address → EthAccount) (b : EthValidatedBlock) : Prop := {
  ex_accounts a : external a → account_ok (s a);
  ex_signed : signed_ok b;
  ex_nonces a : external a → consecutive_from (acc_nonce (s a)) (nonces_of a (validated_txns b));
  ex_costs a : external a → cost a (validated_txns b) <= acc_balance (s a);
}.

(** What is known of the execution of a block, which is that of Ethereum. Externally
    owned accounts are the ones with a key; they have no code and get none. On a
    block that can be executed, the nonce of such an account is one above that of
    its last transaction, or is not changed if it has none; and it is charged at
    most the highest cost of its transactions, since only its own transactions
    spend from it. Of contracts nothing is assumed. *)
Class Execution `{E : EthProtocol} := {
  external : Address → Prop;
  recovered_external tx a : secp256k1_recover tx = Some a → external a;
  execute : (Address → EthAccount) → EthValidatedBlock → Address → EthAccount;
  execute_external s b a :
    executable external s b → external a →
    acc_nonce (execute s b a) =
      match last_nonce a (validated_txns b) with Some n => wrap64 (n + 1) | None => acc_nonce (s a) end ∧
    is_u256 (acc_balance (execute s b a)) ∧
    acc_balance (s a) - cost a (validated_txns b) <= acc_balance (execute s b a);
}.

(** What a backend answers for an account that does not exist. *)
Definition account_of (o : option EthAccount) : EthAccount := default (mkEthAccount 0 0 None) o.

Section world.
Context `{E : EthProtocol} `{SB : !EthStateBackend} `{!EthTypesLaws} `{X : !Execution}.
(** The accounts at genesis. *)
Context (s0 : Address → EthAccount) (s0_ok : ∀ a, account_ok (s0 a)).
Implicit Types (chain : list EthValidatedBlock) (b : EthValidatedBlock) (a : Address) (p : EthBlockPolicy).

Definition state_of chain : Address → EthAccount := foldl execute s0 chain.
Definition cost_of a chain : Z := zsum (map (λ b, cost a (validated_txns b)) chain).

Lemma state_of_snoc chain b : state_of (chain ++ [b]) = execute (state_of chain) b.
Proof. unfold state_of. by rewrite foldl_snoc. Qed.

Lemma cost_of_app a l k : cost_of a (l ++ k) = cost_of a l + cost_of a k.
Proof. unfold cost_of. by rewrite map_app, zsum_app. Qed.

Lemma cost_of_cons a b l : cost_of a (b :: l) = cost a (validated_txns b) + cost_of a l.
Proof. done. Qed.

Lemma cost_of_nil a : cost_of a [] = 0.
Proof. done. Qed.

Lemma cost_of_nonneg a l : 0 <= cost_of a l.
Proof. apply zsum_nonneg, Forall_fmap, Forall_true. intros b. apply cost_nonneg. Qed.

(** The account nonce that a list of blocks leaves behind. *)
Definition latest a (l : list EthValidatedBlock) : option Nonce :=
  foldl (λ acc b, match get_account_nonces b !! a with Some n => Some n | None => acc end) None l.

Lemma latest_snoc a l b :
  latest a (l ++ [b]) = match get_account_nonces b !! a with Some n => Some n | None => latest a l end.
Proof. unfold latest. by rewrite foldl_snoc. Qed.

Lemma latest_app a l k : latest a (l ++ k) = union (latest a k) (latest a l).
Proof.
  induction k as [|b k IH] using rev_ind; [rewrite app_nil_r; by destruct (latest a l)|].
  rewrite (assoc_L (++)), !latest_snoc, IH. by destruct (get_account_nonces b !! a), (latest a l).
Qed.

Lemma get_blocks_account_nonces_latest l a : get_blocks_account_nonces l !! a = latest a l.
Proof.
  unfold get_blocks_account_nonces, latest. induction l as [|b l IH] using rev_ind; [apply lookup_empty|].
  rewrite !foldl_snoc, lookup_union, IH. destruct (get_account_nonces b !! a); by destruct (foldl _ None l).
Qed.

(** Block [b] after the blocks [pre]: it is validated and numbered, the nonces of
    its senders follow those of the accounts, and every sender can pay for the
    blocks that are not executed when it is checked. *)
Definition nonces_follow pre b : Prop :=
  ∀ a, external a → consecutive_from (acc_nonce (state_of pre a)) (nonces_of a (validated_txns b)).
Definition solvent (delay : nat) chain : Prop :=
  let base := (length chain - delay)%nat in
  ∀ a, external a → cost_of a (drop base chain) <= acc_balance (state_of (take base chain) a).

Record block_ok (delay : nat) pre b : Prop := {
  bk_summary : summary_ok b;
  bk_signed : signed_ok b;
  bk_seq_num : evb_seq_num b = Z.of_nat (length pre) + 1;
  bk_nonces : nonces_follow pre b;
  bk_solvent : solvent delay (pre ++ [b]);
}.
Definition coherent_chain (delay : nat) chain : Prop :=
  ∀ k b, chain !! k = Some b → block_ok delay (take k chain) b.

Lemma coherent_chain_snoc delay chain b :
  coherent_chain delay (chain ++ [b]) ↔ coherent_chain delay chain ∧ block_ok delay chain b.
Proof.
  split.
  - intros Hc. split.
    + intros k b' Hk. specialize (Hc k b'). rewrite take_app_le in Hc by (apply lookup_lt_Some in Hk; lia).
      apply Hc. by apply lookup_app_l_Some.
    + specialize (Hc (length chain) b). rewrite take_app_length in Hc. apply Hc. by apply list_lookup_middle.
  - intros [Hc Hb] k b' [Hk|[Hk Hb']]%lookup_app_Some.
    + rewrite take_app_le by (apply lookup_lt_Some in Hk; lia). by apply Hc.
    + apply list_lookup_singleton_Some in Hb' as [Hz <-]. replace k with (length chain) by lia.
      by rewrite take_app_length.
Qed.

Lemma coherent_chain_take delay chain k : coherent_chain delay chain → coherent_chain delay (take k chain).
Proof.
  intros Hc j b Hj. pose proof (lookup_lt_Some _ _ _ Hj) as Hlt. rewrite length_take in Hlt.
  apply lookup_take_Some in Hj as [Hj ?]. rewrite take_take, Nat.min_l by lia. by apply Hc.
Qed.

Lemma coherent_chain_app delay pre l : coherent_chain delay (pre ++ l) → coherent_chain delay pre.
Proof. intros Hc. rewrite <-(take_app_length pre l). by apply coherent_chain_take. Qed.

(** ** Execution of a coherent chain *)

(** Of an externally owned account no more is charged than its transactions cost. *)
Definition charged_at_most chain a : Prop :=
  ∀ k, (k <= length chain)%nat →
    acc_balance (state_of (take k chain) a) - cost_of a (drop k chain) <= acc_balance (state_of chain a).

Lemma executable_next delay pre b :
  (0 < delay)%nat → (∀ a, external a → account_ok (state_of pre a) ∧ charged_at_most pre a) → block_ok delay pre b →
  executable external (state_of pre) b.
Proof.
  intros Hd Hpre [_ Hsigned _ Hnon Hsol]. constructor; [intros a Ha; by apply Hpre|done|done|]. intros a Ha.
  specialize (Hsol a Ha). rewrite length_app in Hsol. simpl in Hsol.
  rewrite drop_app_le, cost_of_app, cost_of_cons, (cost_of_nil a), take_app_le in Hsol by lia.
  pose proof (proj2 (Hpre a Ha) (length pre + 1 - delay)%nat ltac:(lia)). lia.
Qed.

Lemma chain_states delay chain :
  (0 < delay)%nat → coherent_chain delay chain → ∀ a, external a → account_ok (state_of chain a) ∧ charged_at_most chain a.
Proof using All.
  intros Hd. induction chain as [|b chain IH] using rev_ind; intros Hc a Ha.
  { split; [apply s0_ok|]. intros k _. rewrite take_nil, drop_nil, (cost_of_nil a). lia. }
  apply coherent_chain_snoc in Hc as [Hc Hb]. specialize (IH Hc).
  destruct (execute_external _ b a (executable_next delay chain b Hd IH Hb) Ha) as (Hn & Hu & Hbal). destruct (IH a Ha) as [[Hnon _] Hcharged].
  rewrite <-state_of_snoc in *. split; [split; [|done]|].
  - rewrite Hn. destruct (last_nonce _ _); [apply wrap64_range|done].
  - intros k Hk. rewrite length_app in Hk. simpl in Hk. destruct (decide (k = S (length chain))) as [->|Hne].
    + rewrite take_ge, drop_ge by (rewrite length_app; simpl; lia). rewrite (cost_of_nil a). lia.
    + rewrite take_app_le, drop_app_le, cost_of_app, cost_of_cons, (cost_of_nil a) by lia. specialize (Hcharged k ltac:(lia)). lia.
Qed.

Lemma state_ok delay chain a :
  (0 < delay)%nat → coherent_chain delay chain → external a → account_ok (state_of chain a).
Proof using All. intros Hd Hc Ha. by apply (chain_states delay chain Hd Hc a Ha). Qed.

(** ** Nonces *)

Lemma account_nonces_lookup b a :
  summary_ok b → get_account_nonces b !! a = (λ n, wrap64 (n + 1)) <$> last_nonce a (validated_txns b).
Proof. intros [Hn _]. unfold get_account_nonces. by rewrite lookup_fmap, Hn. Qed.

Lemma state_nonce_snoc delay pre b a :
  (0 < delay)%nat → coherent_chain delay (pre ++ [b]) → external a →
  acc_nonce (state_of (pre ++ [b]) a) = default (acc_nonce (state_of pre a)) (get_account_nonces b !! a).
Proof using All.
  intros Hd [Hc Hb]%coherent_chain_snoc Ha.
  destruct (execute_external _ b a (executable_next delay pre b Hd (chain_states delay pre Hd Hc) Hb) Ha) as [Hn _].
  rewrite state_of_snoc, Hn, (account_nonces_lookup _ _ (bk_summary _ _ _ Hb)). by destruct (last_nonce _ _).
Qed.

Lemma state_nonce delay pre l a :
  (0 < delay)%nat → coherent_chain delay (pre ++ l) → external a →
  acc_nonce (state_of (pre ++ l) a) = default (acc_nonce (state_of pre a)) (latest a l).
Proof using All.
  intros Hd Hc Ha. induction l as [|b l IH] using rev_ind; [by rewrite app_nil_r|]. rewrite (assoc_L (++)) in *.
  rewrite (state_nonce_snoc delay) by done. rewrite latest_snoc, IH by (by eapply coherent_chain_app).
  by destruct (get_account_nonces b !! a).
Qed.

Lemma state_nonce_split delay chain k a :
  (0 < delay)%nat → coherent_chain delay chain → external a →
  acc_nonce (state_of chain a) = default (acc_nonce (state_of (take k chain) a)) (latest a (drop k chain)).
Proof using All. intros Hd Hc Ha. rewrite <-(state_nonce delay) by (by rewrite ?take_drop). by rewrite take_drop. Qed.

Lemma consecutive_last n l m :
  0 <= n → Forall (λ x, x < u64_max) l → consecutive_from n l → last l = Some m → n <= m < u64_max.
Proof.
  revert n. induction l as [|x l IH]; intros n Hn Hall; [done|]. intros [-> Hc]. inversion Hall as [|? ? Hx Hall']; subst.
  rewrite last_cons. destruct (last l) as [m'|] eqn:Hl; intros [= <-]; [|lia].
  assert (wrap64 (n + 1) = n + 1) as Hw by (apply Z.mod_small; unfold u64_max in Hx; lia). rewrite Hw in Hc.
  assert (n + 1 <= m' < u64_max) by (apply IH; [lia|done..]). lia.
Qed.

(** The account nonce of a sender goes up. *)
Lemma account_nonce_increases delay pre b a n :
  block_ok delay pre b → external a → 0 <= acc_nonce (state_of pre a) → get_account_nonces b !! a = Some n →
  acc_nonce (state_of pre a) < n.
Proof.
  intros [Hs Hsigned _ Hnon _] Ha Hnn. rewrite (account_nonces_lookup _ _ Hs). unfold last_nonce.
  destruct (last _) as [m|] eqn:Hl; [|done]. intros [= <-].
  assert (acc_nonce (state_of pre a) <= m < u64_max) as Hm.
  { eapply consecutive_last; [done| |by apply Hnon|done]. apply Forall_fmap, Forall_forall. intros t Ht.
    apply list_elem_of_filter in Ht as [_ Ht]. by apply (sg_nonces _ Hsigned). }
  assert (wrap64 (m + 1) = m + 1) as -> by (apply Z.mod_small; unfold u64_max in Hm; lia). lia.
Qed.

(** ** The cache *)

Fixpoint indexed (k : SeqNum) (l : list EthValidatedBlock) : list (SeqNum * CommittedBlock) :=
  match l with
  | [] => []
  | b :: l => (k, committed_of b) :: indexed (k + 1) l
  end.

(** [m] holds the blocks [l] from number [k0] on. *)
Definition caches (m : gmap SeqNum CommittedBlock) (k0 : SeqNum) (l : list EthValidatedBlock) : Prop :=
  ∀ k, m !! k = if bool_decide (k0 <= k) then committed_of <$> l !! Z.to_nat (k - k0) else None.

Lemma elem_of_indexed k0 l k v :
  (k, v) ∈ indexed k0 l ↔ k0 <= k ∧ committed_of <$> l !! Z.to_nat (k - k0) = Some v.
Proof.
  revert k0. induction l as [|b l IH]; intros k0; simpl.
  - split; [by intros ?%not_elem_of_nil|by intros [_ ?]].
  - rewrite elem_of_cons, IH. split.
    + intros [[= -> ->]|[Hle Hv]]; [by replace (Z.to_nat (k0 - k0)) with 0%nat by lia|]. split; [lia|].
      by replace (Z.to_nat (k - k0)) with (S (Z.to_nat (k - (k0 + 1)))) by lia.
    + intros [Hle Hv]. destruct (decide (k = k0)) as [->|Hne].
      * replace (Z.to_nat (k0 - k0)) with 0%nat in Hv by lia. simpl in Hv. left. naive_solver.
      * right. split; [lia|]. by replace (Z.to_nat (k - k0)) with (S (Z.to_nat (k - (k0 + 1)))) in Hv by lia.
Qed.

Lemma indexed_sorted k0 l : StronglySorted (λ x y : SeqNum * CommittedBlock, x.1 < y.1) (indexed k0 l).
Proof.
  revert k0. induction l as [|b l IH]; intros k0; simpl; constructor; [done|].
  apply Forall_forall. intros [k v] [Hle _]%elem_of_indexed. simpl. lia.
Qed.

Lemma caches_iter m k0 l : caches m k0 l → btree_iter m = indexed k0 l.
Proof.
  intros Hm. apply btree_iter_unique; [apply indexed_sorted|]. intros k v. rewrite elem_of_indexed, Hm.
  case_bool_decide; naive_solver.
Qed.

Lemma coherent_summaries delay chain : coherent_chain delay chain → Forall summary_ok chain.
Proof.
  intros Hc. apply Forall_forall. intros b [k Hk]%list_elem_of_lookup. apply (bk_summary _ _ _ (Hc _ _ Hk)).
Qed.

Lemma coherent_head delay pre b l :
  coherent_chain delay (pre ++ b :: l) → block_ok delay pre b ∧ coherent_chain delay ((pre ++ [b]) ++ l).
Proof.
  intros Hc. split; [|by rewrite <-(assoc_L (++))]. specialize (Hc (length pre) b). rewrite take_app_length in Hc.
  apply Hc. by apply list_lookup_middle.
Qed.

Lemma nonce_loop_spec delay pre l a start k :
  (0 < delay)%nat → coherent_chain delay (pre ++ l) → external a → (∀ old, start = Some old → old = acc_nonce (state_of pre a)) →
  nonce_loop a start (indexed k l) = Ret (union (latest a l) start).
Proof using All.
  intros Hd Hc Ha. revert pre start k Hc. induction l as [|b l IH]; intros pre start k Hc Hstart; simpl; [by destruct start|].
  pose proof (coherent_chain_app _ _ _ Hc) as Hpre. apply coherent_head in Hc as [Hb Hc].
  change (cb_nonces (committed_of b)) with (get_account_nonces b).
  change (b :: l) with ([b] ++ l). rewrite latest_app. unfold latest at 2. simpl.
  pose proof (state_nonce_snoc delay pre b a Hd (coherent_chain_app _ _ _ Hc) Ha) as Hnext.
  destruct (get_account_nonces b !! a) as [n|] eqn:Hn; simpl in Hnext.
  - replace (match start with Some old => bool_decide (n > old) | None => true end) with true.
    + simpl. erewrite IH; [|exact Hc|].
      * by destruct (latest a l), start.
      * intros old [= <-]. by rewrite Hnext.
    + destruct start as [old|]; [|done]. symmetry. apply bool_decide_eq_true. rewrite (Hstart old) by done.
      apply Z.lt_gt. eapply account_nonce_increases; [done|done|by eapply state_ok|done].
  - erewrite IH; [|exact Hc|].
    + by destruct (latest a l), start.
    + intros old ->. rewrite Hnext. by apply Hstart.
Qed.

(** ** Fees *)

Definition fees_of a (l : list EthValidatedBlock) : Z := zsum (map (λ b, default 0 (txn_fees b !! a)) l).

Lemma fee_nonneg b a : summary_ok b → 0 <= default 0 (txn_fees b !! a).
Proof.
  intros [_ Hf]. rewrite Hf. unfold recorded_fee. pose proof (cost_nonneg a (validated_txns b)).
  assert (0 <= u256_max) by done. destruct (nonces_of _ _); simpl; lia.
Qed.

Lemma fees_of_nonneg a l : Forall summary_ok l → 0 <= fees_of a l.
Proof.
  intros Hl. apply zsum_nonneg, Forall_fmap. eapply Forall_impl; [exact Hl|]. intros b Hb. by apply fee_nonneg.
Qed.

Lemma txn_fee_loop_spec l a fee k :
  Forall summary_ok l → 0 <= fee <= u256_max → k + Z.of_nat (length l) <= u64_max →
  txn_fee_loop a fee k (indexed k l) = Ret (Z.min u256_max (fee + fees_of a l), k + Z.of_nat (length l)).
Proof.
  revert fee k. induction l as [|b l IH]; intros fee k; simpl.
  - intros _ Hfee _. unfold fees_of, zsum. simpl. do 2 f_equal; lia.
  - intros [Hb Hl]%Forall_cons Hfee Hk. rewrite bool_decide_true by done. simpl.
    unfold seq_num_add. rewrite checked_add_ok by lia. simpl. pose proof (fee_nonneg b a Hb). unfold saturating_add.
    rewrite IH; [|done|lia|lia]. pose proof (fees_of_nonneg a l Hl). unfold fees_of in *. simpl. rewrite zsum_cons.
    f_equal. f_equal; lia.
Qed.

Lemma pending_fee_loop_spec l a fee k :
  Forall summary_ok l → (∀ i b, l !! i = Some b → evb_seq_num b = k + Z.of_nat i) →
  0 <= fee <= u256_max → k + Z.of_nat (length l) <= u64_max →
  pending_fee_loop a fee k l = Ret (Z.min u256_max (fee + fees_of a l)).
Proof.
  revert fee k. induction l as [|b l IH]; intros fee k; simpl.
  - intros _ _ Hfee _. unfold fees_of, zsum. simpl. f_equal. lia.
  - intros [Hb Hl]%Forall_cons Hseq Hfee Hk.
    rewrite bool_decide_true by (rewrite (Hseq 0%nat b) by done; lia). simpl.
    unfold seq_num_add. rewrite checked_add_ok by lia. simpl. pose proof (fee_nonneg b a Hb). unfold saturating_add.
    rewrite IH; [|done| |lia|lia].
    + pose proof (fees_of_nonneg a l Hl). unfold fees_of in *. simpl. rewrite zsum_cons. f_equal. lia.
    + intros i b' Hi. rewrite (Hseq (S i) b') by done. lia.
Qed.

(** In a coherent block no fee saturates. *)
Lemma block_fee delay pre b a :
  (0 < delay)%nat → coherent_chain delay pre → block_ok delay pre b → external a →
  default 0 (txn_fees b !! a) = cost a (validated_txns b).
Proof using All.
  intros Hd Hc Hb Ha. destruct (bk_summary _ _ _ Hb) as [_ Hf]. rewrite Hf. unfold recorded_fee.
  destruct (nonces_of a (validated_txns b)) eqn:Hn; [by rewrite (cost_no_txns _ _ Hn)|]. simpl.
  pose proof (ex_costs _ _ _ (executable_next delay pre b Hd (chain_states delay pre Hd Hc) Hb) a Ha).
  destruct (proj2 (state_ok delay pre a Hd Hc Ha)). lia.
Qed.

Lemma fees_are_costs delay pre l a :
  (0 < delay)%nat → coherent_chain delay (pre ++ l) → external a → fees_of a l = cost_of a l.
Proof using All.
  intros Hd Hc Ha. revert pre Hc. induction l as [|b l IH]; intros pre Hc; [done|]. pose proof (coherent_chain_app _ _ _ Hc) as Hpre.
  apply coherent_head in Hc as [Hb Hc]. rewrite cost_of_cons, <-(IH _ Hc), <-(block_fee _ _ _ a Hd Hpre Hb Ha). done.
Qed.

(** Senders that are solvent now are so when one more block is executed. *)
Lemma solvent_next delay chain a :
  (0 < delay)%nat → coherent_chain delay chain → external a →
  cost_of a (drop (S (length chain) - delay) chain) <= acc_balance (state_of (take (S (length chain) - delay) chain) a).
Proof using All.
  intros Hd Hc Ha. destruct (decide (length chain = 0)%nat) as [->%nil_length_inv|Hne].
  { rewrite drop_nil, take_nil. apply s0_ok. }
  assert (solvent delay chain) as Hs.
  { induction chain as [|b chain _] using rev_ind; [done|]. apply coherent_chain_snoc in Hc as [_ Hb]. apply Hb. }
  specialize (Hs a Ha). destruct (decide (length chain < delay)%nat) as [Hlt|Hge].
  { replace (S (length chain) - delay)%nat with (length chain - delay)%nat by lia. done. }
  set (base := (length chain - delay)%nat) in *. replace (S (length chain) - delay)%nat with (S base) by lia.
  destruct (lookup_lt_is_Some_2 chain base) as [x Hx]; [lia|]. rewrite (drop_S _ _ _ Hx), cost_of_cons in Hs.
  destruct (chain_states delay (take (S base) chain) Hd (coherent_chain_take _ _ _ Hc) a Ha) as [_ Hcharged].
  specialize (Hcharged base ltac:(rewrite length_take; lia)). rewrite take_take, Nat.min_l in Hcharged by lia.
  assert (drop base (take (S base) chain) = [x]) as Hlast.
  { rewrite (take_S_r _ _ _ Hx). apply drop_app_length'. rewrite length_take. lia. }
  rewrite Hlast, cost_of_cons, (cost_of_nil a) in Hcharged. lia.
Qed.

(** ** Reading the policy *)

(** The policy has committed the first [c] blocks of [chain]; its cache reaches
    back far enough for the block that is checked next. *)
Record policy_ok (delay : nat) p chain (c : nat) : Prop := {
  po_pos : (0 < delay)%nat;
  po_delay : execution_delay p = Z.of_nat delay;
  po_size : cbb_size (committed_cache p) = Z.of_nat delay;
  po_commit : last_commit p = Z.of_nat c;
  po_length : (c <= length chain)%nat;
  po_cache : ∃ lo : nat, (lo <= c - delay)%nat ∧ (c - lo <= 2 * delay)%nat ∧
    caches (cbb_blocks (committed_cache p)) (Z.of_nat lo + 1) (drop lo (take c chain));
  po_chain : coherent_chain delay chain;
  po_bound : Z.of_nat (length chain) < u64_max;
}.

Lemma filter_indexed k0 k l :
  k0 <= k → filter (λ kv : SeqNum * CommittedBlock, k <= kv.1) (indexed k0 l) = indexed k (drop (Z.to_nat (k - k0)) l).
Proof.
  revert k0. induction l as [|b l IH]; intros k0 Hle; simpl; [by rewrite drop_nil|]. rewrite filter_cons.
  case_decide as Hk; simpl in Hk.
  - assert (k = k0) as -> by lia. replace (Z.to_nat (k0 - k0)) with 0%nat by lia. simpl. f_equal.
    rewrite filter_all; [done|]. intros [k v] [Hk' _]%elem_of_indexed. simpl. lia.
  - rewrite IH by lia. by replace (Z.to_nat (k - k0)) with (S (Z.to_nat (k - (k0 + 1)))) by lia.
Qed.

Lemma seq_num_at delay chain i b : coherent_chain delay chain → chain !! i = Some b → evb_seq_num b = Z.of_nat i + 1.
Proof.
  intros Hc Hi. rewrite (bk_seq_num _ _ _ (Hc _ _ Hi)), length_take. apply lookup_lt_Some in Hi. lia.
Qed.

Lemma skip_while_numbered l k k' :
  (∀ i b, l !! i = Some b → evb_seq_num b = k + Z.of_nat i) → k <= k' →
  skip_while (λ b, bool_decide (evb_seq_num b < k')) l = drop (Z.to_nat (k' - k)) l.
Proof.
  revert k. induction l as [|b l IH]; intros k Hl Hle; simpl; [by rewrite drop_nil|].
  rewrite (Hl 0%nat b) by done. case_bool_decide as Hk.
  - rewrite (IH (k + 1)); [|intros i b' Hi; rewrite (Hl (S i) b') by done; lia|lia].
    by replace (Z.to_nat (k' - k)) with (S (Z.to_nat (k' - (k + 1)))) by lia.
  - by replace (Z.to_nat (k' - k)) with 0%nat by lia.
Qed.

Lemma fees_of_nil a : fees_of a [] = 0.
Proof. done. Qed.

Lemma fees_of_app a l k : fees_of a (l ++ k) = fees_of a l + fees_of a k.
Proof. unfold fees_of. by rewrite map_app, zsum_app. Qed.

(** The blocks after [base], committed or pending. *)
Lemma fees_split a chain base c :
  fees_of a (drop base (take c chain)) + fees_of a (drop (base `max` c) chain) = fees_of a (drop base chain).
Proof.
  rewrite <-(take_drop c chain) at 3. destruct (decide (base <= c)%nat) as [Hle|Hgt].
  - replace (base `max` c)%nat with c by lia. destruct (decide (c <= length chain)%nat).
    + rewrite drop_app_le by (rewrite length_take; lia). by rewrite fees_of_app.
    + rewrite (drop_ge chain c), app_nil_r by lia. rewrite take_ge, (fees_of_nil a) by lia. lia.
  - replace (base `max` c)%nat with base by lia. rewrite take_drop.
    rewrite (drop_ge (take c chain)) by (rewrite length_take; lia). rewrite (fees_of_nil a). lia.
Qed.

Lemma compute_txn_fee_spec delay p chain c base a :
  policy_ok delay p chain c → (c - delay <= base <= length chain)%nat →
  compute_txn_fee (committed_cache p) (Z.of_nat base) a =
    Ret (Z.min u256_max (fees_of a (drop base (take c chain))), Z.of_nat (base `max` c) + 1).
Proof.
  intros [Hd _ _ _ Hlen (lo & Hlo & _ & Hcache) Hc Hbound] Hbase. unfold compute_txn_fee, seq_num_add.
  rewrite checked_add_ok by lia. rewrite bind_Ret, (caches_iter _ _ _ Hcache), filter_indexed by lia.
  replace (Z.to_nat (Z.of_nat base + 1 - (Z.of_nat lo + 1))) with (base - lo)%nat by lia.
  rewrite drop_drop. replace (lo + (base - lo))%nat with base by lia.
  assert (Forall summary_ok (drop base (take c chain))).
  { apply Forall_drop, Forall_take. by eapply coherent_summaries. }
  rewrite txn_fee_loop_spec; [|done|split; [done|by unfold u256_max]|rewrite length_drop, length_take; lia].
  rewrite length_drop, length_take. f_equal. f_equal; lia.
Qed.

Lemma pending_numbered delay chain c i b :
  coherent_chain delay chain → drop c chain !! i = Some b → evb_seq_num b = Z.of_nat c + 1 + Z.of_nat i.
Proof. intros Hc. rewrite lookup_drop. intros Hi. rewrite (seq_num_at _ _ _ _ Hc Hi). lia. Qed.

Lemma account_base_balance_spec delay p chain c a bal :
  policy_ok delay p chain c → external a → let base := (S (length chain) - delay)%nat in
  cost_of a (drop base chain) <= bal <= u256_max →
  account_base_balance p (Z.of_nat base) (Some (drop c chain)) a bal = Ret (bal - cost_of a (drop base chain)).
Proof using All.
  intros Hp Ha base Hbal. destruct (Hp) as [Hd _ _ _ Hlen _ Hc Hbound]. unfold account_base_balance.
  erewrite compute_txn_fee_spec; [|done|lia]. rewrite bind_Ret.
  pose proof (coherent_summaries _ _ Hc) as Hsum.
  pose proof (fees_of_nonneg a _ (Forall_drop _ base _ (Forall_take _ c _ Hsum))).
  pose proof (fees_of_nonneg a _ (Forall_drop _ (base `max` c) _ Hsum)).
  pose proof (fees_split a chain base c) as Hsplit.
  rewrite (fees_are_costs delay (take base chain) (drop base chain) a Hd) in Hsplit by (done || by rewrite take_drop).
  rewrite (Z.min_r u256_max) by lia. rewrite checked_sub_ok by lia. rewrite bind_Ret.
  rewrite (skip_while_numbered _ (Z.of_nat c + 1)); [|intros i b; by eapply pending_numbered|lia].
  rewrite drop_drop. replace (c + Z.to_nat _)%nat with (base `max` c)%nat by lia.
  rewrite pending_fee_loop_spec.
  - rewrite bind_Ret. rewrite Z.min_r, checked_sub_ok by lia. f_equal. lia.
  - by apply Forall_drop.
  - intros i b Hi. rewrite (pending_numbered _ _ _ _ _ Hc Hi). lia.
  - by unfold u256_max.
  - rewrite length_drop. lia.
Qed.

(** ** The state backend *)

Definition id_at chain (k : nat) : BlockId :=
  match k with O => GENESIS_BLOCK_ID | S j => default GENESIS_BLOCK_ID (evb_id <$> chain !! j) end.

(** What a backend answers about the blocks of [chain] is what their execution
    gives. It may fail to answer any query. *)
Definition backend_ok (sb : EthSBT) chain : Prop :=
  ∀ k fin addrs l,
    (k <= length chain)%nat → get_account_statuses sb (id_at chain k) (Z.of_nat k) fin addrs = Ok l →
    Forall2 (λ a o, acc_nonce (account_of o) = acc_nonce (state_of (take k chain) a) ∧
                    acc_balance (account_of o) = acc_balance (state_of (take k chain) a)) addrs l.

(** It answers a query about some of [addrs] with [e]: the accounts after the block
    that the next one is checked against. *)
Definition unavailable (delay : nat) (sb : EthSBT) chain (c : nat) (addrs : list Address) (e : StateBackendError) : Prop :=
  let base := (S (length chain) - delay)%nat in
  ∃ addrs', (∀ a, a ∈ addrs' → a ∈ addrs) ∧
    get_account_statuses sb (id_at chain base) (Z.of_nat base) (bool_decide (base <= c)%nat) addrs' = Err e.

Lemma head_filter_numbered l k i b :
  (∀ i b, l !! i = Some b → evb_seq_num b = k + Z.of_nat i) → l !! i = Some b →
  head (filter (λ b, evb_seq_num b = k + Z.of_nat i) l) = Some b.
Proof.
  revert k i. induction l as [|x l IH]; intros k i Hl Hi; [done|]. rewrite filter_cons, (Hl 0%nat x) by done.
  destruct i as [|i].
  - rewrite decide_True by lia. by injection Hi as ->.
  - rewrite decide_False by lia. replace (k + Z.of_nat (S i)) with (k + 1 + Z.of_nat i) by lia.
    apply IH; [|done]. intros j b' Hj. rewrite (Hl (S j) b') by done. lia.
Qed.

Lemma get_block_index_spec delay p chain c :
  policy_ok delay p chain c → let base := (S (length chain) - delay)%nat in
  get_block_index p (Some (drop c chain)) (Z.of_nat base) =
    Ret (Ok (mkBlockLookupIndex (id_at chain base) (Z.of_nat base) (bool_decide (base <= c)%nat))).
Proof.
  intros [Hd _ _ Hcommit Hlen (lo & Hlo & _ & Hcache) Hc Hbound] base. unfold get_block_index. rewrite Hcommit.
  destruct (decide (base <= c)%nat) as [Hle|Hgt].
  - rewrite (bool_decide_true _ Hle), (bool_decide_true (Z.of_nat base <= _)) by lia.
    destruct base as [|j] eqn:Hb; [done|]. unfold GENESIS_SEQ_NUM.
    rewrite bool_decide_false by lia. rewrite Hcache, bool_decide_true by lia.
    replace (Z.to_nat (Z.of_nat (S j) - (Z.of_nat lo + 1))) with (j - lo)%nat by lia.
    rewrite lookup_drop, lookup_take_lt by lia. replace (lo + (j - lo))%nat with j by lia.
    destruct (lookup_lt_is_Some_2 chain j) as [b Hj]; [lia|]. simpl. by rewrite Hj.
  - rewrite (bool_decide_false _ Hgt), (bool_decide_false (Z.of_nat base <= _)) by lia.
    destruct base as [|j] eqn:Hb; [lia|].
    destruct (lookup_lt_is_Some_2 chain j) as [b Hj]; [lia|].
    assert (head (filter (λ b, evb_seq_num b = Z.of_nat (S j)) (drop c chain)) = Some b) as ->.
    { replace (Z.of_nat (S j)) with (Z.of_nat c + 1 + Z.of_nat (j - c)) by lia. apply head_filter_numbered.
      - intros i b' Hi. by eapply pending_numbered.
      - rewrite lookup_drop. by replace (c + (j - c))%nat with j by lia. }
    simpl. by rewrite Hj.
Qed.

Lemma base_of_next delay p chain c :
  policy_ok delay p chain c → base_of p (Z.of_nat (length chain) + 1) = Z.of_nat (S (length chain) - delay).
Proof. intros [Hd Hdelay _ _ _ _ _ _]. unfold base_of. rewrite Hdelay. lia. Qed.

Lemma statuses_spec delay p chain c sb addrs :
  policy_ok delay p chain c → let base := (S (length chain) - delay)%nat in
  policy_account_statuses p sb (Some (drop c chain)) addrs (Z.of_nat base) =
    Ret (get_account_statuses sb (id_at chain base) (Z.of_nat base) (bool_decide (base <= c)%nat) addrs).
Proof. intros Hp. cbv zeta. unfold policy_account_statuses. by rewrite (get_block_index_spec _ _ _ _ Hp). Qed.

(** ** Base nonces and balances *)

Lemma latest_drop_None chain a lo base :
  (lo <= base)%nat → latest a (drop lo chain) = None → latest a (drop base chain) = None.
Proof.
  intros Hle. rewrite <-(take_drop (base - lo) (drop lo chain)), drop_drop, latest_app.
  replace (lo + (base - lo))%nat with base by lia.
  by destruct (latest a (drop base chain)), (latest a (take _ _)).
Qed.

Lemma get_nonce_spec delay p chain c lo a :
  policy_ok delay p chain c → external a → (lo <= c - delay)%nat →
  caches (cbb_blocks (committed_cache p)) (Z.of_nat lo + 1) (drop lo (take c chain)) →
  get_nonce (committed_cache p) a = Ret (latest a (drop lo (take c chain))).
Proof using All.
  intros [Hd _ _ _ Hlen _ Hc _] Ha Hlo Hcache. unfold get_nonce. rewrite (caches_iter _ _ _ Hcache).
  rewrite (nonce_loop_spec delay (take lo chain)); [by destruct (latest a (drop lo (take c chain)))|done| |done|done].
  replace (take lo chain) with (take lo (take c chain)) by (rewrite take_take; f_equal; lia).
  rewrite take_drop. by apply coherent_chain_take.
Qed.

(** The nonces found in the blocks from [lo] on. *)
Lemma cached_nonces_spec delay p chain c lo addrs m misses :
  policy_ok delay p chain c → Forall external addrs → (lo <= c - delay)%nat →
  caches (cbb_blocks (committed_cache p)) (Z.of_nat lo + 1) (drop lo (take c chain)) →
  ∃ m', cached_nonces p (get_blocks_account_nonces (drop c chain)) addrs m misses =
      Ret (m', misses ++ filter (λ a, latest a (drop lo chain) = None) addrs) ∧
    ∀ a, m' !! a = if bool_decide (a ∈ addrs) then union (latest a (drop lo chain)) (m !! a) else m !! a.
Proof using All.
  intros Hp Hext Hlo Hcache. destruct (Hp) as [Hd _ _ _ Hlen _ Hc _].
  assert (Hfound : ∀ a, latest a (drop lo chain) = union (latest a (drop c chain)) (latest a (drop lo (take c chain)))).
  { intros a. rewrite <-latest_app. rewrite <-(take_drop c chain) at 1. by rewrite drop_app_le by (rewrite length_take; lia). }
  revert m misses. induction Hext as [|a addrs Hxa Hext IH]; intros m misses; simpl.
  { exists m. by rewrite app_nil_r. }
  rewrite filter_cons, get_blocks_account_nonces_latest. pose proof (Hfound a) as Ha.
  pose proof (get_nonce_spec delay p chain c lo a Hp Hxa Hlo Hcache) as Hget.
  assert (Hstep : ∀ (n : Nonce), latest a (drop lo chain) = Some n →
    ∃ m', cached_nonces p (get_blocks_account_nonces (drop c chain)) addrs (<[a := n]> m) misses =
        Ret (m', misses ++ if decide (latest a (drop lo chain) = None)
                           then a :: filter (λ a, latest a (drop lo chain) = None) addrs
                           else filter (λ a, latest a (drop lo chain) = None) addrs) ∧
      ∀ a', m' !! a' = if bool_decide (a' ∈ a :: addrs) then union (latest a' (drop lo chain)) (m !! a') else m !! a').
  { intros n Hn. rewrite decide_False by congruence. destruct (IH (<[a := n]> m) misses) as (m' & -> & Hm').
    exists m'. split; [done|]. intros a'. rewrite Hm'. destruct (decide (a' = a)) as [->|Hne].
    - rewrite (bool_decide_true (a ∈ a :: addrs)) by set_solver. rewrite lookup_insert_eq, Hn.
      case_bool_decide; by destruct (m !! a).
    - rewrite lookup_insert_ne by done. by rewrite (bool_decide_ext (a' ∈ a :: addrs) (a' ∈ addrs)) by set_solver. }
  destruct (latest a (drop c chain)) as [n|]; [apply Hstep; rewrite Ha; by destruct (latest a (drop lo (take c chain)))|].
  rewrite Hget, bind_Ret. destruct (latest a (drop lo (take c chain))) as [n|]; [apply Hstep; by rewrite Ha|].
  rewrite decide_True by (by rewrite Ha). destruct (IH m (misses ++ [a])) as (m' & -> & Hm').
  exists m'. rewrite <-(assoc_L (++)). split; [done|]. intros a'. rewrite Hm'. destruct (decide (a' = a)) as [->|Hne].
  - rewrite (bool_decide_true (a ∈ a :: addrs)) by set_solver. rewrite Ha. case_bool_decide; by destruct (m !! a).
  - by rewrite (bool_decide_ext (a' ∈ a :: addrs) (a' ∈ addrs)) by set_solver.
Qed.

Lemma statuses_nonces addrs l (m : gmap Address Nonce) (g : Address → Nonce) a :
  Forall2 (λ a o, acc_nonce (account_of o) = g a) addrs l →
  foldl (λ m kv, <[kv.1 := match kv.2 with Some status => acc_nonce status | None => 0 end]> m) m (zip addrs l) !! a =
    if bool_decide (a ∈ addrs) then Some (g a) else m !! a.
Proof.
  intros Hall. revert m. induction Hall as [|x o addrs l Hx Hall IH]; intros m; simpl; [done|]. rewrite IH.
  replace (match o with Some status => acc_nonce status | None => 0 end) with (g x) by (by rewrite <-Hx; destruct o).
  destruct (decide (a = x)) as [->|Hne].
  - rewrite lookup_insert_eq, (bool_decide_true (x ∈ x :: addrs)) by set_solver. by case_bool_decide.
  - rewrite lookup_insert_ne by done. by rewrite (bool_decide_ext (a ∈ x :: addrs) (a ∈ addrs)) by set_solver.
Qed.

Lemma base_nonces_spec delay p chain c sb addrs :
  policy_ok delay p chain c → backend_ok sb chain → Forall external addrs →
  ∃ r, get_account_base_nonces p (Z.of_nat (length chain) + 1) sb (drop c chain) addrs = Ret r ∧
    match r with
    | Ok m => ∀ a, a ∈ addrs → m !! a = Some (acc_nonce (state_of chain a))
    | Err e => unavailable delay sb chain c addrs e
    end.
Proof using All.
  intros Hp Hb Hext. destruct (Hp) as [Hd _ _ _ Hlen (lo & Hlo & _ & Hcache) Hc _].
  unfold get_account_base_nonces. rewrite Forall_forall in Hext.
  destruct (cached_nonces_spec delay p chain c lo (unique addrs) ∅ [] Hp) as (m & -> & Hm); [|done..|].
  { apply Forall_forall. intros a Ha. rewrite elem_of_unique in Ha. by apply Hext. }
  rewrite bind_Ret, (base_of_next _ _ _ _ Hp), (statuses_spec _ _ _ _ _ _ Hp). simpl app. set (misses := filter _ _).
  destruct (get_account_statuses _ _ _ _ misses) as [l|e] eqn:Hl; cbn [try_bind].
  2:{ eexists. split; [done|]. exists misses. split; [|done]. intros a [_ Ha]%list_elem_of_filter. by apply elem_of_unique. }
  apply Hb in Hl; [|lia]. unfold zip_eq. rewrite bool_decide_true by (by eapply Forall2_length). cbn [assert mbind exec_bind].
  eexists. split; [done|]. intros a Ha.
  rewrite (statuses_nonces _ _ _ (λ a, acc_nonce (state_of (take (S (length chain) - delay) chain) a)))
    by (eapply Forall2_impl; [exact Hl|by intros ? ? [? _]]).
  clear Hl. subst misses. case_bool_decide as Hin.
  - apply list_elem_of_filter in Hin as [Hno _].
    rewrite (state_nonce_split delay chain (S (length chain) - delay) a Hd Hc) by auto.
    by rewrite (latest_drop_None _ _ lo) by (done || lia).
  - rewrite list_elem_of_filter, elem_of_unique in Hin. rewrite Hm, bool_decide_true by (by apply elem_of_unique).
    rewrite lookup_empty, (state_nonce_split delay chain lo a Hd Hc) by auto.
    destruct (latest a (drop lo chain)); [done|naive_solver].
Qed.

Lemma base_balances_loop_spec delay p chain c addrs l acc :
  policy_ok delay p chain c → Forall external addrs → let base := (S (length chain) - delay)%nat in
  Forall2 (λ a bal, bal = acc_balance (state_of (take base chain) a)) addrs l →
  ∃ m, base_balances_loop p (Z.of_nat base) (Some (drop c chain)) (zip addrs l) acc = Ret m ∧
    ∀ a, m !! a = if bool_decide (a ∈ addrs)
                  then Some (acc_balance (state_of (take base chain) a) - cost_of a (drop base chain)) else acc !! a.
Proof using All.
  intros Hp Hext. cbv zeta. intros Hall. destruct (Hp) as [Hd _ _ _ _ _ Hc _].
  revert acc. induction Hall as [|x bal addrs l -> Hall IH]; intros acc; simpl; [by exists acc|]. apply Forall_cons in Hext as [Hx Hext].
  rewrite (account_base_balance_spec _ _ _ _ _ _ Hp Hx)
    by (split; [by apply solvent_next|apply (state_ok delay); [done|by apply coherent_chain_take|done]]).
  rewrite bind_Ret. edestruct IH as (m & -> & Hm); [done|]. exists m. split; [done|]. intros a. rewrite Hm.
  destruct (decide (a = x)) as [->|Hne].
  - rewrite lookup_insert_eq, (bool_decide_true (x ∈ x :: addrs)) by set_solver. by case_bool_decide.
  - rewrite lookup_insert_ne by done. by rewrite (bool_decide_ext (a ∈ x :: addrs) (a ∈ addrs)) by set_solver.
Qed.

Lemma base_balances_spec delay p chain c sb addrs :
  policy_ok delay p chain c → backend_ok sb chain → Forall external addrs → let base := (S (length chain) - delay)%nat in
  ∃ r, compute_account_base_balances p (Z.of_nat (length chain) + 1) sb (Some (drop c chain)) addrs = Ret r ∧
    match r with
    | Ok m => ∀ a, m !! a = if bool_decide (a ∈ addrs)
                then Some (acc_balance (state_of (take base chain) a) - cost_of a (drop base chain)) else None
    | Err e => unavailable delay sb chain c addrs e
    end.
Proof using All.
  intros Hp Hb Hext. cbv zeta. unfold compute_account_base_balances. cbv zeta.
  rewrite (base_of_next _ _ _ _ Hp), (statuses_spec _ _ _ _ _ _ Hp).
  destruct (get_account_statuses _ _ _ _ (unique addrs)) as [l|e] eqn:Hl; cbn [try_bind].
  2:{ eexists. split; [done|]. exists (unique addrs). split; [|done]. intros a. by rewrite elem_of_unique. }
  pose proof (po_pos _ _ _ _ Hp). apply Hb in Hl; [|lia]. unfold zip_eq.
  rewrite bool_decide_true by (rewrite length_map; by eapply Forall2_length). cbn [assert mbind exec_bind].
  edestruct (base_balances_loop_spec delay p chain c (unique addrs)) as (m & -> & Hm); [done| | |].
  - rewrite Forall_forall in *. intros a Ha. rewrite elem_of_unique in Ha. by apply Hext.
  - apply Forall2_fmap_r. eapply Forall2_impl; [exact Hl|]. intros a o [_ <-]. by destruct o.
  - eexists. split; [done|]. cbn. intros a. rewrite Hm.
    by rewrite (bool_decide_ext (a ∈ unique addrs) (a ∈ addrs)) by apply elem_of_unique.
Qed.

(** ** Checking a block *)

Lemma txns_loop_spec (nonces : gmap Address Nonce) (balances : gmap Address Balance) txns :
  (∀ t, t ∈ txns → is_Some (nonces !! rtx_signer t) ∧ is_Some (balances !! rtx_signer t)) →
  (∀ a bal, balances !! a = Some bal → 0 <= bal) →
  ∃ r, txns_loop nonces balances txns = Ret r ∧
    (r = Ok tt ↔ ∀ a n bal, nonces !! a = Some n → balances !! a = Some bal →
                   consecutive_from n (nonces_of a txns) ∧ cost a txns <= bal).
Proof.
  revert nonces balances. induction txns as [|t txns IH]; intros nonces balances Hin Hpos; simpl.
  { eexists. split; [done|]. split; [|done]. intros _ a n bal Hn Hbal. split; [done|]. by eapply Hpos. }
  destruct (Hin t) as [[n Hn] [bal Hbal]]; [set_solver|]. rewrite Hn. simpl.
  case_bool_decide as Hnonce.
  { eexists. split; [done|]. split; [done|]. intros Hall. destruct (Hall _ _ _ Hn Hbal) as [Hc _].
    rewrite nonces_of_cons, decide_True in Hc by done. by destruct Hc. }
  rewrite Hbal, compute_txn_max_value_ok. simpl. pose proof (max_value_nonneg (rtx t)). case_bool_decide as Hfee.
  2:{ eexists. split; [done|]. split; [done|]. intros Hall. destruct (Hall _ _ _ Hn Hbal) as [_ Hc].
      rewrite cost_cons, decide_True in Hc by done. pose proof (cost_nonneg (rtx_signer t) txns). lia. }
  edestruct IH as (r & -> & Hr); [| |exists r; split; [done|]; rewrite Hr; clear IH Hr].
  { intros t' Ht'. rewrite !lookup_insert_is_Some'. destruct (Hin t'); [by apply elem_of_cons; right|]. by split; right. }
  { intros a bal' [[_ <-]|[_ Hb]]%lookup_insert_Some; [lia|by eapply Hpos]. }
  split; intros Hall a n' bal' Hn' Hbal'; (destruct (decide (rtx_signer t = a)) as [<-|Hne]).
  - specialize (Hall (rtx_signer t) (wrap64 (n + 1)) (bal - max_value (rtx t))). rewrite !lookup_insert_eq in Hall.
    rewrite nonces_of_cons, cost_cons, !decide_True by done. destruct Hall as [Hc Hcost]; [done..|].
    simplify_eq. simpl. split; [by split|lia].
  - specialize (Hall a n' bal'). rewrite !lookup_insert_ne in Hall by done.
    rewrite nonces_of_cons, cost_cons, !decide_False by done. by apply Hall.
  - rewrite lookup_insert_eq in Hn', Hbal'. destruct (Hall _ _ _ Hn Hbal) as [Hc Hcost].
    rewrite nonces_of_cons, decide_True in Hc by done. rewrite cost_cons, decide_True in Hcost by done.
    destruct Hc as [_ Hc]. injection Hn' as <-. injection Hbal' as <-. split; [done|lia].
  - rewrite lookup_insert_ne in Hn', Hbal' by done. specialize (Hall a n' bal' Hn' Hbal').
    by rewrite nonces_of_cons, cost_cons, !decide_False in Hall by done.
Qed.

Definition expected_results (delay : nat) sb chain (c : nat) : result (list EthHeader) StateBackendError :=
  let base := (S (length chain) - delay)%nat in
  if bool_decide (S (length chain) < delay)%nat then Ok []
  else match get_execution_result sb (id_at chain base) (Z.of_nat base) (bool_decide (base <= c)%nat) with
       | Ok header => Ok [header]
       | Err e => Err e
       end.

(** [b] may follow [chain], of which [c] blocks are committed. *)
Record eth_coherent (delay : nat) sb chain (c : nat) b : Prop := {
  ec_seq_num : evb_seq_num b = Z.of_nat (length chain) + 1;
  ec_timestamp :
    match last (drop c chain) with Some e => fb_timestamp (evb_block e) | None => 0 end < fb_timestamp (evb_block b);
  ec_results : expected_results delay sb chain c = Ok (h_delayed_execution_results (fb_header (evb_block b)));
  ec_nonces : nonces_follow chain b;
  ec_solvent : solvent delay (chain ++ [b]);
}.

Lemma expected_results_spec delay p chain c sb :
  policy_ok delay p chain c →
  eth_expected_execution_results p (Z.of_nat (length chain) + 1) (drop c chain) sb = Ret (expected_results delay sb chain c).
Proof.
  intros Hp. destruct (Hp) as [Hd Hdelay _ _ _ _ _ _]. unfold eth_expected_execution_results, expected_results. rewrite Hdelay.
  destruct (decide (S (length chain) < delay)%nat).
  - by rewrite !bool_decide_true by lia.
  - rewrite (bool_decide_false (S (length chain) < delay)%nat), bool_decide_false by lia.
    unfold seq_num_sub. rewrite checked_sub_ok, bind_Ret by lia.
    replace (Z.of_nat (length chain) + 1 - Z.of_nat delay) with (Z.of_nat (S (length chain) - delay)) by lia.
    by rewrite (get_block_index_spec _ _ _ _ Hp).
Qed.

Lemma last_pending delay p chain c e :
  policy_ok delay p chain c → last (drop c chain) = Some e → evb_seq_num e = Z.of_nat (length chain).
Proof.
  intros Hp He. rewrite last_lookup, lookup_drop in He. rewrite (seq_num_at _ _ _ _ (po_chain _ _ _ _ Hp) He).
  rewrite length_drop. apply lookup_lt_Some in He. rewrite length_drop in He. lia.
Qed.

Lemma system_txns_loop_nil m l : system_txns_loop m l = Ret (Ok m).
Proof. by rewrite (no_system_txns l). Qed.

Lemma elem_of_tx_signers b a : a ∈ tx_signers b ↔ ∃ t, t ∈ validated_txns b ∧ rtx_signer t = a.
Proof.
  unfold tx_signers. rewrite (no_system_txns (system_txns b)). simpl. rewrite app_nil_r, list_elem_of_fmap. naive_solver.
Qed.

Lemma not_sender a b : a ∉ tx_signers b → nonces_of a (validated_txns b) = [].
Proof.
  intros Ha. unfold nonces_of. rewrite filter_none; [done|]. intros t Ht Hs. apply Ha, elem_of_tx_signers. by exists t.
Qed.

(** What the loop over the transactions checks. *)
Lemma txns_loop_coherent delay p chain c b (nonces : gmap Address Nonce) (balances : gmap Address Balance) :
  policy_ok delay p chain c → (∀ a, a ∈ tx_signers b → external a) → let base := (S (length chain) - delay)%nat in
  (∀ a, a ∈ tx_signers b → nonces !! a = Some (acc_nonce (state_of chain a))) →
  (∀ a, balances !! a = if bool_decide (a ∈ tx_signers b)
          then Some (acc_balance (state_of (take base chain) a) - cost_of a (drop base chain)) else None) →
  ∃ r, txns_loop nonces balances (validated_txns b) = Ret r ∧
    (r = Ok tt ↔ nonces_follow chain b ∧ solvent delay (chain ++ [b])).
Proof using All.
  intros Hp Hext. cbv zeta. intros Hn Hbal. destruct (Hp) as [Hd _ _ _ _ _ Hc _].
  assert (Hsolvent : ∀ a, cost_of a (drop (S (length chain) - delay) (chain ++ [b])) =
    cost_of a (drop (S (length chain) - delay) chain) + cost a (validated_txns b)).
  { intros a. rewrite drop_app_le, cost_of_app, cost_of_cons, (cost_of_nil a) by lia. lia. }
  destruct (txns_loop_spec nonces balances (validated_txns b)) as (r & Hr & Hiff).
  { intros t Ht. assert (rtx_signer t ∈ tx_signers b) as Hs by (apply elem_of_tx_signers; by exists t).
    rewrite (Hn _ Hs), Hbal, bool_decide_true by done. by split; eexists. }
  { intros a bal. rewrite Hbal. case_bool_decide as Ha; [|done]. intros [= <-]. pose proof (solvent_next delay chain a Hd Hc (Hext a Ha)). lia. }
  exists r. split; [done|]. rewrite Hiff. clear Hr Hiff. unfold solvent. rewrite length_app. simpl.
  replace (length chain + 1)%nat with (S (length chain)) by lia. rewrite take_app_le by lia. split.
  - intros Hall. assert (∀ a, nonces_of a (validated_txns b) ≠ [] →
      consecutive_from (acc_nonce (state_of chain a)) (nonces_of a (validated_txns b)) ∧
      cost a (validated_txns b) <=
        acc_balance (state_of (take (S (length chain) - delay) chain) a) - cost_of a (drop (S (length chain) - delay) chain))
      as Hsender.
    { intros a Hne. assert (a ∈ tx_signers b) as Ha by (apply dec_stable; by intros ?%not_sender).
      apply Hall; [by apply Hn|]. by rewrite Hbal, bool_decide_true. }
    split; intros a Hxa; (destruct (decide (nonces_of a (validated_txns b) = [])) as [Hno|Hne]; [|by destruct (Hsender a Hne); rewrite ?Hsolvent; try lia]).
    + by rewrite Hno.
    + rewrite Hsolvent, (cost_no_txns _ _ Hno). pose proof (solvent_next delay chain a Hd Hc Hxa). lia.
  - intros [Hnon Hsol] a n bal Hna Hba. rewrite Hbal in Hba. case_bool_decide as Ha; [|done].
    rewrite (Hn a Ha) in Hna. simplify_eq. split; [by apply Hnon, Hext|]. specialize (Hsol a (Hext a Ha)). rewrite Hsolvent in Hsol. lia.
Qed.

Lemma first_pending delay p chain c e :
  policy_ok delay p chain c → head (drop c chain) = Some e → evb_seq_num e = Z.of_nat c + 1.
Proof.
  intros Hp. rewrite head_lookup, lookup_drop, Nat.add_0_r. apply (seq_num_at _ _ _ _ (po_chain _ _ _ _ Hp)).
Qed.

(** What [check_coherency] may answer: that the block is accepted only if it is
    coherent; that it is rejected only if it is not, or if the backend does not
    answer; and that the node is stopped only by a block that is first and not
    numbered after the last commit. *)
Definition check_answer (delay : nat) sb chain (c : nat) b (r : exec (result unit BlockPolicyError)) : Prop :=
  match r with
  | Ret (Ok _) => eth_coherent delay sb chain c b
  | Ret (Err e) =>
      ¬ eth_coherent delay sb chain c b ∨ ∃ e', e = PolicyStateBackendError e' ∧ unavailable delay sb chain c (tx_signers b) e'
  | Panic => drop c chain = [] ∧ evb_seq_num b ≠ Z.of_nat c + 1
  | OutOfFuel => False
  end.

(** The checks after the first assertion. *)
Lemma eth_check_numbered delay p chain c sb b root :
  policy_ok delay p chain c → backend_ok sb chain → ri_seq_num root = Z.of_nat c → signed_ok b →
  evb_seq_num (default b (head (drop c chain))) = Z.of_nat c + 1 →
  ∃ r, eth_check_coherency p b (drop c chain) root sb = Ret r ∧ check_answer delay sb chain c b (Ret r).
Proof using All.
  intros Hp Hb Hroot Hsigned Hhead. destruct (Hp) as [Hd _ _ Hcommit Hlen _ Hc Hbound]. unfold eth_check_coherency.
  rewrite Hcommit. unfold seq_num_add. rewrite checked_add_ok, bind_Ret by lia.
  rewrite bool_decide_true by done. cbn [assert]. rewrite bind_Ret.
  set (parent := match last (drop c chain) with Some e => _ | None => _ end).
  assert (parent = (Z.of_nat (length chain), match last (drop c chain) with Some e => fb_timestamp (evb_block e) | None => 0 end)) as ->.
  { subst parent. destruct (last (drop c chain)) as [e|] eqn:He; [by rewrite (last_pending _ _ _ _ _ Hp He)|].
    apply last_None in He. rewrite Hroot. f_equal. assert (length (drop c chain) = 0)%nat as Hl by (by rewrite He).
    rewrite length_drop in Hl. lia. }
  assert (∀ a, a ∈ tx_signers b → external a) as Hext.
  { intros a (t & Ht & <-)%elem_of_tx_signers. by apply (recovered_external (rtx t)), (sg_recovered _ Hsigned). }
  assert (Forall external (tx_signers b)) as Hext' by (by apply Forall_forall).
  rewrite checked_add_ok, bind_Ret by lia.
  case_bool_decide as Hseq; [eexists; split; [done|]; left; by intros [? _ _ _ _]|].
  case_bool_decide as Htime; [eexists; split; [done|]; left; intros [_ ? _ _ _]; lia|].
  rewrite Hseq, (expected_results_spec _ _ _ _ _ Hp).
  destruct (expected_results delay sb chain c) as [results|e] eqn:Hres; cbn [fmap exec_fmap backend_error try_bind].
  2:{ eexists. split; [done|]. left. intros [_ _ ? _ _]. congruence. }
  case_bool_decide as Hmatch.
  { eexists. split; [done|]. left. intros [_ _ Hr _ _]. rewrite Hres in Hr. injection Hr as Hr. by destruct Hmatch. }
  destruct (base_nonces_spec _ _ _ _ _ _ Hp Hb Hext') as ([nonces|e] & -> & Hn); cbn [fmap exec_fmap backend_error try_bind];
    [|eexists; split; [done|]; right; by exists e].
  destruct (base_balances_spec _ _ _ _ _ _ Hp Hb Hext') as ([balances|e] & -> & Hbal); cbn [fmap exec_fmap backend_error try_bind];
    [|eexists; split; [done|]; right; by exists e].
  rewrite system_txns_loop_nil. cbn [try_bind].
  destruct (txns_loop_coherent _ _ _ _ b _ _ Hp Hext Hn Hbal) as (r & -> & Hiff). exists r. split; [done|]. destruct r as [[]|e].
  - destruct (proj1 Hiff eq_refl). constructor; try done; [lia|by rewrite Hres, Hmatch].
  - left. intros [_ _ _ Hnon Hsol]. by discriminate (proj2 Hiff (conj Hnon Hsol)).
Qed.

Lemma eth_check_spec delay p chain c sb b root :
  policy_ok delay p chain c → backend_ok sb chain → ri_seq_num root = Z.of_nat c → signed_ok b →
  check_answer delay sb chain c b (eth_check_coherency p b (drop c chain) root sb) ∧
  (eth_check_coherency p b (drop c chain) root sb = Panic ↔ drop c chain = [] ∧ evb_seq_num b ≠ Z.of_nat c + 1).
Proof using All.
  intros Hp Hb Hroot Hsigned.
  assert (evb_seq_num (default b (head (drop c chain))) = Z.of_nat c + 1 →
    ¬ (drop c chain = [] ∧ evb_seq_num b ≠ Z.of_nat c + 1)) as Hnot by (by intros Hh [Hnil Hne]; rewrite Hnil in Hh).
  destruct (decide (evb_seq_num (default b (head (drop c chain))) = Z.of_nat c + 1)) as [Hhead|Hhead].
  - destruct (eth_check_numbered delay p chain c sb b root Hp Hb Hroot Hsigned Hhead) as (r & -> & Hr).
    split; [done|]. split; [done|]. intros Hx. by destruct (Hnot Hhead).
  - assert (drop c chain = [] ∧ evb_seq_num b ≠ Z.of_nat c + 1) as Hbad.
    { destruct (drop c chain) as [|e l] eqn:Hd; [by split|]. destruct Hhead. simpl. eapply first_pending; [done|]. by rewrite Hd. }
    assert (eth_check_coherency p b (drop c chain) root sb = Panic) as ->; [|by split].
    unfold eth_check_coherency. rewrite (po_commit _ _ _ _ Hp). pose proof (po_bound _ _ _ _ Hp). pose proof (po_length _ _ _ _ Hp).
    unfold seq_num_add. rewrite checked_add_ok, bind_Ret by lia. by rewrite bool_decide_false.
Qed.

(** ** Committing blocks *)

Lemma indexed_keys k l : (indexed k l).*1 = map (λ i, k + Z.of_nat i) (seq 0 (length l)).
Proof.
  revert k. induction l as [|b l IH]; intros k; csimpl; [done|]. rewrite IH, Z.add_0_r. f_equal.
  rewrite <-fmap_S_seq. rewrite <-list_fmap_compose. apply list_fmap_ext. intros j i _. simpl. lia.
Qed.

Lemma caches_keys m k l : caches m k l → btree_keys m = map (λ i, k + Z.of_nat i) (seq 0 (length l)).
Proof. intros Hm. unfold btree_keys. by rewrite (caches_iter _ _ _ Hm), indexed_keys. Qed.

Lemma caches_size m k l : caches m k l → size m = length l.
Proof. intros Hm. by rewrite <-length_btree_keys, (caches_keys _ _ _ Hm), length_map, length_seq. Qed.

Lemma caches_last m k l :
  caches m k l → l ≠ [] → last (btree_keys m) = Some (k + Z.of_nat (length l) - 1).
Proof.
  intros Hm Hl. rewrite (caches_keys _ _ _ Hm). destruct l as [|b l _] using rev_ind; [done|].
  rewrite length_app, Nat.add_comm. cbn [length Nat.add]. rewrite seq_S, map_app. cbn [map]. rewrite last_snoc.
  f_equal. lia.
Qed.

Lemma caches_filter m k0 k l :
  caches m k0 l → k0 <= k →
  caches (filter (λ kv : SeqNum * CommittedBlock, k <= kv.1) m) k (drop (Z.to_nat (k - k0)) l).
Proof.
  intros Hm Hle i. rewrite map_lookup_filter, Hm. destruct (decide (k <= i)) as [Hi|Hi].
  - rewrite !bool_decide_true, lookup_drop by lia.
    replace (Z.to_nat (k - k0) + Z.to_nat (i - k))%nat with (Z.to_nat (i - k0)) by lia.
    destruct (l !! _); simpl; [|done]. by rewrite option_guard_True.
  - rewrite (bool_decide_false (k <= i)) by done. case_bool_decide; [|done]. destruct (l !! _); simpl; [|done].
    by rewrite option_guard_False.
Qed.

Lemma caches_insert m k0 l b :
  caches m k0 l → caches (<[k0 + Z.of_nat (length l) := committed_of b]> m) k0 (l ++ [b]).
Proof.
  intros Hm k. destruct (decide (k = k0 + Z.of_nat (length l))) as [->|Hne].
  - rewrite lookup_insert_eq, bool_decide_true by lia.
    replace (Z.to_nat (k0 + Z.of_nat (length l) - k0)) with (length l) by lia. by rewrite list_lookup_middle.
  - rewrite lookup_insert_ne, Hm by done. case_bool_decide; [|done]. destruct (decide (Z.to_nat (k - k0) < length l)%nat).
    + by rewrite lookup_app_l.
    + by rewrite !lookup_ge_None_2 by (rewrite ?length_app; simpl; lia).
Qed.

(** The cache after [buffer_update_committed_block]: it drops half of its blocks
    when it is full. *)
Lemma buffer_update_spec (delay : nat) cache lo l b :
  (0 < delay)%nat → cbb_size cache = Z.of_nat delay → caches (cbb_blocks cache) (Z.of_nat lo + 1) l →
  (length l <= 2 * delay)%nat → Z.of_nat (lo + length l) < u64_max →
  evb_seq_num b = Z.of_nat (lo + length l) + 1 →
  ∃ cut blocks, (cut = 0 ∧ length l < 2 * delay ∨ cut = delay ∧ length l = 2 * delay)%nat ∧
    buffer_update_committed_block cache b = Ret (mkCommittedBlkBuffer blocks (Z.of_nat delay)) ∧
    caches blocks (Z.of_nat (lo + cut) + 1) (drop cut l ++ [b]).
Proof.
  intros Hd Hsize Hm Hlen Hbound Hseq. unfold buffer_update_committed_block.
  assert (Hlast : match last (btree_keys (cbb_blocks cache)) with
                  | Some n => next ← seq_num_add n 1; assert (bool_decide (next = evb_seq_num b)) | None => Ret tt end = Ret tt).
  { destruct (decide (l = [])) as [->|Hne]; [by rewrite (caches_keys _ _ _ Hm)|].
    rewrite (caches_last _ _ _ Hm Hne). unfold seq_num_add. rewrite checked_add_ok, bind_Ret by lia.
    by rewrite bool_decide_true by lia. }
  rewrite Hlast, bind_Ret. unfold buffer_purge. rewrite (caches_size _ _ _ Hm), Hsize. unfold saturating_add.
  destruct (decide (length l = 2 * delay)%nat) as [Hfull|Hnot].
  - exists delay. rewrite bool_decide_true by lia. rewrite (caches_keys _ _ _ Hm), Hfull.
    destruct delay as [|d]; [lia|]. cbn [Nat.mul Nat.add seq map head expect]. rewrite bind_Ret.
    unfold seq_num_add. rewrite !checked_add_ok, bind_Ret by lia.
    pose proof (caches_filter _ _ (Z.of_nat lo + 1 + Z.of_nat 0 + Z.of_nat (S d)) _ Hm) as Hm'.
    replace (Z.to_nat _) with (S d) in Hm' by lia. specialize (Hm' ltac:(lia)).
    assert (length (drop (S d) l) = S d) as Hdl by (rewrite length_drop; lia).
    rewrite (caches_last _ _ _ Hm') by (intros Hnil; by rewrite Hnil in Hdl). cbn [expect]. rewrite bind_Ret.
    rewrite checked_add_ok, bind_Ret by lia. rewrite (caches_size _ _ _ Hm'), !bool_decide_true by lia.
    cbn [assert mbind exec_bind cbb_blocks cbb_size].
    rewrite bool_decide_true by (rewrite Hm', bool_decide_true, lookup_ge_None_2 by lia; done).
    eexists. split; [by right|]. split; [done|].
    replace (evb_seq_num b) with (Z.of_nat (lo + S d) + 1 + Z.of_nat (length (drop (S d) l))) by lia.
    apply caches_insert. by replace (Z.of_nat (lo + S d) + 1) with (Z.of_nat lo + 1 + Z.of_nat 0 + Z.of_nat (S d)) by lia.
  - exists 0%nat. rewrite bool_decide_false, bind_Ret by lia.
    rewrite bool_decide_true by (rewrite Hm, bool_decide_true, lookup_ge_None_2 by lia; done). cbn [assert]. rewrite bind_Ret.
    eexists. split; [left; lia|]. split; [by rewrite Hsize|]. rewrite Nat.add_0_r, drop_0.
    replace (evb_seq_num b) with (Z.of_nat lo + 1 + Z.of_nat (length l)) by lia. by apply caches_insert.
Qed.

Lemma take_S_drop chain lo c b :
  (lo <= c)%nat → chain !! c = Some b → drop lo (take (S c) chain) = drop lo (take c chain) ++ [b].
Proof.
  intros Hle Hb. rewrite (take_S_r _ _ _ Hb). apply drop_app_le. rewrite length_take.
  apply lookup_lt_Some in Hb. lia.
Qed.

(** The cache of a policy that has committed [c] blocks, after one more. *)
Lemma cache_update (delay : nat) cache chain lo c b :
  (0 < delay)%nat → cbb_size cache = Z.of_nat delay → (lo <= c <= length chain)%nat → (c - lo <= 2 * delay)%nat →
  caches (cbb_blocks cache) (Z.of_nat lo + 1) (drop lo (take c chain)) →
  Z.of_nat (length chain) < u64_max → chain !! c = Some b → evb_seq_num b = Z.of_nat c + 1 →
  ∃ lo' blocks, buffer_update_committed_block cache b = Ret (mkCommittedBlkBuffer blocks (Z.of_nat delay)) ∧
    (lo' = lo ∨ lo' = c - delay ∧ c - lo = 2 * delay)%nat ∧ (lo' <= S c)%nat ∧ (S c - lo' <= 2 * delay)%nat ∧
    caches blocks (Z.of_nat lo' + 1) (drop lo' (take (S c) chain)).
Proof.
  intros Hd Hsize Hlo Hfit Hcache Hbound Hb Hseq. assert (length (drop lo (take c chain)) = c - lo)%nat as Hl
    by (rewrite length_drop, length_take; lia).
  destruct (buffer_update_spec delay cache lo (drop lo (take c chain)) b) as (cut & blocks & Hcut & -> & Hblocks);
    try done; rewrite ?Hl; try lia. rewrite Hl in Hcut.
  exists (lo + cut)%nat, blocks. split; [done|]. split; [lia|]. split; [lia|]. split; [lia|].
  rewrite take_S_drop with (b := b) by (done || lia). by rewrite <-drop_drop.
Qed.

Lemma eth_update_spec delay p chain c b :
  policy_ok delay p chain c → chain !! c = Some b →
  ∃ p', eth_update_committed_block p b = Ret p' ∧ policy_ok delay p' chain (S c).
Proof.
  intros [Hd Hdelay Hsize Hcommit Hlen (lo & Hlo & Hfit & Hcache) Hc Hbound] Hb.
  pose proof (seq_num_at _ _ _ _ Hc Hb) as Hseq. pose proof (lookup_lt_Some _ _ _ Hb) as Hlt.
  unfold eth_update_committed_block. rewrite Hcommit. unfold seq_num_add. rewrite checked_add_ok, bind_Ret by lia.
  rewrite bool_decide_true by lia. cbn [assert]. rewrite bind_Ret.
  destruct (cache_update delay (committed_cache p) chain lo c b) as (lo' & blocks & -> & Hlo' & _ & Hfit' & Hblocks);
    try done; [lia|].
  rewrite bind_Ret. eexists. split; [done|]. constructor; try done; simpl; [lia|].
  exists lo'. split_and!; [lia|lia|done].
Qed.

(** A fresh policy that is given the last [delay] of [c] committed blocks. *)
Lemma reset_loop_spec (delay : nat) p chain lo c n :
  (0 < delay)%nat → cbb_size (committed_cache p) = Z.of_nat delay → execution_delay p = Z.of_nat delay →
  coherent_chain delay chain → Z.of_nat (length chain) < u64_max → (lo <= c)%nat → (c + n <= length chain)%nat →
  (n = 0%nat → last_commit p = Z.of_nat c) → (c + n - lo <= delay)%nat →
  caches (cbb_blocks (committed_cache p)) (Z.of_nat lo + 1) (drop lo (take c chain)) →
  ∃ p', reset_loop p (drop c (take (c + n) chain)) = Ret p' ∧ last_commit p' = Z.of_nat (c + n) ∧
    execution_delay p' = Z.of_nat delay ∧ cbb_size (committed_cache p') = Z.of_nat delay ∧
    caches (cbb_blocks (committed_cache p')) (Z.of_nat lo + 1) (drop lo (take (c + n) chain)).
Proof.
  intros Hd. revert p c. induction n as [|n IH]; intros p c Hsize Hdelay Hc Hbound Hlo Hlen Hcommit Hfit Hcache.
  { rewrite Nat.add_0_r, drop_ge by (rewrite length_take; lia). simpl. exists p. by rewrite Hcommit. }
  destruct (lookup_lt_is_Some_2 chain c) as [b Hb]; [lia|].
  rewrite (drop_S (take (c + S n) chain) b c) by (rewrite lookup_take_lt by lia; done). cbn [reset_loop].
  pose proof (seq_num_at _ _ _ _ Hc Hb) as Hseq.
  destruct (cache_update delay (committed_cache p) chain lo c b) as (lo' & blocks & -> & Hlo' & _ & Hfit' & Hblocks);
    try done; [lia|lia|].
  assert (lo' = lo) as -> by lia. rewrite bind_Ret. replace (c + S n)%nat with (S c + n)%nat by lia.
  apply IH; try done; simpl; try lia.
Qed.

Lemma eth_reset_spec (delay : nat) chain_id chain c :
  (0 < delay)%nat → coherent_chain delay chain → Z.of_nat (length chain) < u64_max → (c <= length chain)%nat →
  ∃ p, eth_reset (eth_block_policy_new GENESIS_SEQ_NUM (Z.of_nat delay) chain_id) (drop (c - delay) (take c chain)) = Ret p ∧
    policy_ok delay p (take c chain) c.
Proof.
  intros Hd Hc Hbound Hlen. unfold eth_reset, eth_block_policy_new.
  destruct (reset_loop_spec delay (mkEthBlockPolicy GENESIS_SEQ_NUM (buffer_new (Z.of_nat delay)) (Z.of_nat delay) chain_id)
    chain (c - delay) (c - delay) (c - (c - delay))) as (p & Hr & Hcommit & Hdelay & Hsize & Hcache); try done; try lia.
  { unfold GENESIS_SEQ_NUM. simpl. lia. }
  { intros k. rewrite drop_ge by (rewrite length_take; lia). simpl. rewrite lookup_empty. by case_bool_decide. }
  replace (c - delay + (c - (c - delay)))%nat with c in * by lia. exists p. split; [exact Hr|].
  constructor; try done; try (rewrite length_take; lia).
  - exists (c - delay)%nat. rewrite take_take, Nat.min_id. split_and!; [lia|lia|done].
  - by apply coherent_chain_take.
Qed.
End world.

(** * Properties *)

Section reachable.
Context `{E : EthProtocol} `{SB : !EthStateBackend} `{X : !Execution} (s0 : Address → EthAccount).
Context (delay : nat) (chain_id : Z).

(** The policies of a network, each with the chain that its node knows and the
    number of committed blocks: a node starts at genesis, or with the last
    committed blocks of another; it checks a block on top of its chain, commits
    a block, and leaves a fork. *)
Inductive eth_reachable : EthBlockPolicy → list EthValidatedBlock → nat → Prop :=
| er_new : eth_reachable (eth_block_policy_new GENESIS_SEQ_NUM (Z.of_nat delay) chain_id) [] 0
| er_reset p p' chain c :
    eth_reachable p chain c →
    eth_reset (eth_block_policy_new GENESIS_SEQ_NUM (Z.of_nat delay) chain_id) (drop (c - delay) (take c chain)) =
      Ret p' →
    eth_reachable p' (take c chain) c
| er_check p chain c sb root b :
    eth_reachable p chain c → backend_ok s0 sb chain → ri_seq_num root = Z.of_nat c → summary_ok b →
    signed_ok b → Z.of_nat (length chain) + 1 < u64_max →
    eth_check_coherency p b (drop c chain) root sb = Ret (Ok tt) →
    eth_reachable p (chain ++ [b]) c
| er_commit p p' chain c b :
    eth_reachable p chain c → chain !! c = Some b → eth_update_committed_block p b = Ret p' →
    eth_reachable p' chain (S c)
| er_fork p chain c k : eth_reachable p chain c → (c <= k)%nat → eth_reachable p (take k chain) c.

Lemma policy_ok_take p chain c k :
  policy_ok s0 delay p chain c → (c <= k)%nat → policy_ok s0 delay p (take k chain) c.
Proof.
  intros [Hd Hdelay Hsize Hcommit Hlen (lo & Hlo & Hfit & Hcache) Hc Hbound] Hk.
  constructor; try done; try (rewrite length_take; lia).
  - exists lo. rewrite take_take, Nat.min_l by lia. done.
  - by apply coherent_chain_take.
Qed.

Lemma policy_ok_snoc p chain c b :
  policy_ok s0 delay p chain c → block_ok s0 delay chain b → Z.of_nat (length chain) + 1 < u64_max →
  policy_ok s0 delay p (chain ++ [b]) c.
Proof.
  intros [Hd Hdelay Hsize Hcommit Hlen (lo & Hlo & Hfit & Hcache) Hc Hbound] Hb Hlt.
  constructor; try done; try (rewrite length_app; simpl; lia).
  - exists lo. by rewrite take_app_le by lia.
  - by apply coherent_chain_snoc.
Qed.

Lemma eth_reachable_ok `{!EthTypesLaws} p chain c :
  (0 < delay)%nat → (∀ a, account_ok (s0 a)) →
  eth_reachable p chain c → policy_ok s0 delay p chain c.
Proof.
  intros Hd Hs0. induction 1 as [|p p' chain c _ IH Hr|p chain c sb root b _ IH Hbe Hroot Hsum Hsigned Hlt Hcheck
    |p p' chain c b _ IH Hb Hup|p chain c k _ IH Hk].
  - constructor; try done. exists 0%nat. split_and!; [lia|lia|]. intros k. simpl.
    rewrite lookup_empty. by case_bool_decide.
  - destruct IH as [_ _ _ _ Hlen _ Hc Hbound]. destruct (eth_reset_spec s0 delay chain_id chain c Hd Hc Hbound Hlen) as (q & Hq & Hok).
    rewrite Hq in Hr. by injection Hr as <-.
  - destruct (eth_check_spec s0 Hs0 delay p chain c sb b root IH Hbe Hroot Hsigned) as [Hans _].
    rewrite Hcheck in Hans. destruct Hans. by apply policy_ok_snoc.
  - destruct (eth_update_spec s0 delay p chain c b IH Hb) as (q & Hq & Hok). rewrite Hq in Hup. by injection Hup as <-.
  - by apply policy_ok_take.
Qed.
End reachable.

(** C25. [check_coherency] decides on every validated block. It accepts only a block
    whose number and time follow its parent's, which carries the execution result
    of the block [execution_delay] before it, in which the nonces of every sender
    continue those of its account after the whole chain, and after which every
    sender can pay the highest cost of all its transactions in the blocks that the
    result does not cover. It rejects such a block only with an error of the state
    backend, when that does not answer about its senders. It panics exactly if no
    block is pending and the block is not numbered after the last commit. The block
    is signed by its senders, which are externally owned accounts, gives no code to
    an account and does not use the last nonce; execution is that of Ethereum on
    such accounts, and the backend answers, if at all, what execution gives. *)
Theorem eth_check_coherency_correct `{E : EthProtocol} `{SB : !EthStateBackend} `{!EthTypesLaws} `{X : !Execution}
    (s0 : Address → EthAccount) (delay : nat) (p : EthBlockPolicy) (chain : list EthValidatedBlock) (c : nat)
    (sb : EthSBT) (root : RootInfo) (b : EthValidatedBlock) (Hs0 : ∀ a, account_ok (s0 a))
    (Hp : policy_ok s0 delay p chain c) (Hbackend : backend_ok s0 sb chain) (Hroot : ri_seq_num root = Z.of_nat c)
    (Hsigned : signed_ok b) :
  check_answer s0 delay sb chain c b (eth_check_coherency p b (drop c chain) root sb) ∧
  (eth_check_coherency p b (drop c chain) root sb = Panic ↔ drop c chain = [] ∧ evb_seq_num b ≠ Z.of_nat c + 1).
Proof. by apply eth_check_spec. Qed.

(** C4. Whatever validated blocks the nodes of a network check, commit, abandon and
    hand to each other: at every block of every chain, every externally owned
    account, so every sender, can pay the highest cost of all its transactions that
    are ordered and not executed; and none of the assertions of the policy fails on
    the next commit or on a reset, and on the next check only the one on the first
    block: it stops the node exactly if no block is pending and the checked block is
    not numbered after the last commit. The blocks are signed by their senders, give
    no code to an account and do not use the last nonce; execution is that of
    Ethereum on externally owned accounts, and the backends answer, if at all, what
    execution gives. *)
Theorem eth_policy_safe `{E : EthProtocol} `{SB : !EthStateBackend} `{!EthTypesLaws} `{X : !Execution}
    (s0 : Address → EthAccount) (delay : nat) (chain_id : Z) (p : EthBlockPolicy) (chain : list EthValidatedBlock)
    (c : nat) (Hdelay : (0 < delay)%nat) (Hs0 : ∀ a, account_ok (s0 a))
    (Hreach : eth_reachable s0 delay chain_id p chain c) :
  (∀ k, (0 < k <= length chain)%nat → solvent s0 delay (take k chain)) ∧
  (∀ sb root b, backend_ok s0 sb chain → ri_seq_num root = Z.of_nat c → signed_ok b →
     (∃ r, eth_check_coherency p b (drop c chain) root sb = Ret r) ∨
     eth_check_coherency p b (drop c chain) root sb = Panic ∧ drop c chain = [] ∧ evb_seq_num b ≠ Z.of_nat c + 1) ∧
  (∀ b, chain !! c = Some b → ∃ p', eth_update_committed_block p b = Ret p') ∧
  ∃ p', eth_reset (eth_block_policy_new GENESIS_SEQ_NUM (Z.of_nat delay) chain_id) (drop (c - delay) (take c chain)) =
    Ret p'.
Proof.
  pose proof (eth_reachable_ok s0 delay chain_id p chain c Hdelay Hs0 Hreach) as Hp. split_and!.
  - intros k Hk. destruct k as [|k]; [lia|]. destruct (lookup_lt_is_Some_2 chain k) as [b Hb]; [lia|].
    rewrite (take_S_r _ _ _ Hb). apply (bk_solvent _ _ _ _ (po_chain _ _ _ _ _ Hp _ _ Hb)).
  - intros sb root b Hbe Hroot Hsigned. destruct (eth_check_spec s0 Hs0 delay p chain c sb b root) as [Hans _]; [done..|].
    destruct (eth_check_coherency _ _ _ _ _) as [r| |]; [left; by exists r|by right|done].
  - intros b Hb. destruct (eth_update_spec s0 delay p chain c b Hp Hb) as (p' & Hp' & _). eauto.
  - destruct Hp as [_ _ _ _ Hlen _ Hc Hbound]. destruct (eth_reset_spec s0 delay chain_id chain c Hdelay Hc Hbound Hlen) as (q & Hq & _). eauto.
Qed.

(** * Concrete runs *)

(** Execution takes the highest cost, and the backend executes the chain. The
    contract creates another and loses its balance in every block. *)
Definition demo_execute (s : Address → EthAccount) (b : EthValidatedBlock) (a : Address) : EthAccount :=
  if bool_decide (a = demo_contract) then mkEthAccount (acc_nonce (s a) + 1) 0 None else
  mkEthAccount (match last_nonce a (validated_txns b) with Some n => wrap64 (n + 1) | None => acc_nonce (s a) end)
    (acc_balance (s a) - cost a (validated_txns b)) None.
#[export] Instance demo_execution : Execution.
Proof.
  refine {| external a := a ≠ demo_contract; execute := demo_execute |}.
  { intros tx a. simpl. case_bool_decide; [done|]. by intros [= <-]. }
  intros s b a Hex Ha. unfold demo_execute.
  rewrite bool_decide_false by done. cbn [acc_nonce acc_balance]. destruct (ex_accounts _ _ _ Hex a Ha) as [_ [Hlo Hhi]].
  pose proof (ex_costs _ _ _ Hex a Ha). pose proof (cost_nonneg a (validated_txns b)). unfold is_u256. lia.
Defined.
Definition demo_genesis (a : Address) : EthAccount := mkEthAccount 0 (10 ^ 20) None.
#[export] Instance demo_backend : EthStateBackend := {|
  EthSBT := list EthValidatedBlock;
  get_account_statuses sb _ k _ addrs := Ok (map (λ a, Some (state_of demo_genesis (take (Z.to_nat k) sb) a)) addrs);
  get_execution_result _ _ k _ := Ok k;
|}.

Lemma demo_genesis_ok a : account_ok (demo_genesis a).
Proof. split; split; unfold u64_max, u256_max; simpl; lia. Qed.

Lemma demo_backend_ok chain : backend_ok demo_genesis chain chain.
Proof.
  intros k fin addrs l Hk [= <-]. apply Forall2_fmap_r, Forall2_same_length_lookup_2; [done|].
  intros i x y Hx Hy. simplify_eq. by rewrite Nat2Z.id.
Qed.

Definition demo_policy (delay : nat) : EthBlockPolicy := eth_block_policy_new GENESIS_SEQ_NUM (Z.of_nat delay) 20143.
Definition demo_root : RootInfo := mkRootInfo 0 0 1 GENESIS_BLOCK_ID 0.
Definition demo_db : EthSBT := [].
Definition demo_check (number nonce : Z) (results : list Z) : exec (result unit BlockPolicyError) :=
  eth_check_coherency (demo_policy 1) (demo_block 1 number nonce results) [] demo_root demo_db.

Lemma demo_policy_ok (delay : nat) : (0 < delay)%nat → policy_ok demo_genesis delay (demo_policy delay) [] 0.
Proof. intros Hd. apply (eth_reachable_ok _ _ 20143); [done|apply demo_genesis_ok|]. apply er_new. Qed.

Lemma demo_summary_ok round number results : summary_ok (demo_block round number 0 results).
Proof.
  assert (∀ a, nonces_of a [demo_tx 0] = if decide (7 = a) then [0] else []) as Hn by (intros a; by rewrite nonces_of_cons).
  split; intros a; cbn [nonces txn_fees demo_block validated_txns]; unfold last_nonce, recorded_fee; rewrite Hn;
    case_decide as Ha; subst; by rewrite ?lookup_singleton_eq, ?lookup_singleton_ne.
Qed.

Lemma demo_signed_ok round number nonce results :
  wrap64 nonce < u64_max → signed_ok (demo_block round number nonce results).
Proof. intros Hn. constructor; intros t ->%list_elem_of_singleton; [reflexivity|reflexivity|exact Hn]. Qed.

(** A block is accepted and one with another nonce is not, because it is not
    coherent; one with another number stops the node. *)
Lemma eth_check_coherency_correct_witness :
  demo_check 1 0 [0] = Ret (Ok tt) ∧ eth_coherent demo_genesis 1 demo_db [] 0 (demo_block 1 1 0 [0]) ∧
  demo_check 1 1 [0] = Ret (Err BlockNotCoherent) ∧ ¬ eth_coherent demo_genesis 1 demo_db [] 0 (demo_block 1 1 1 [0]) ∧
  demo_check 2 0 [0] = Panic.
Proof.
  assert (demo_check 1 0 [0] = Ret (Ok tt)) as Hgood by (vm_compute; reflexivity).
  assert (demo_check 1 1 [0] = Ret (Err BlockNotCoherent)) as Hbad by (vm_compute; reflexivity).
  pose proof (λ b, eth_check_coherency_correct demo_genesis 1 (demo_policy 1) [] 0 demo_db demo_root b demo_genesis_ok
    (demo_policy_ok 1 ltac:(lia)) (demo_backend_ok []) eq_refl) as Hc.
  destruct (Hc (demo_block 1 1 0 [0]) (demo_signed_ok 1 1 0 [0] ltac:(reflexivity))) as [Hok _].
  destruct (Hc (demo_block 1 1 1 [0]) (demo_signed_ok 1 1 1 [0] ltac:(reflexivity))) as [Hok' _].
  destruct (Hc (demo_block 1 2 0 [0]) (demo_signed_ok 1 2 0 [0] ltac:(reflexivity))) as [_ Hpanic].
  change (eth_check_coherency _ _ _ _ _) with (demo_check 1 0 [0]) in Hok. rewrite Hgood in Hok.
  change (eth_check_coherency _ _ _ _ _) with (demo_check 1 1 [0]) in Hok'. rewrite Hbad in Hok'.
  split; [exact Hgood|]. split; [exact Hok|]. split; [exact Hbad|]. split.
  - destruct Hok' as [Hno|(e & He & _)]; [exact Hno|discriminate He].
  - apply Hpanic. split; [reflexivity|]. vm_compute. discriminate.
Defined.

Lemma eth_policy_safe_witness :
  ∃ p, eth_reachable demo_genesis 1 20143 p [demo_block 1 1 0 [0]] 1 ∧
    solvent demo_genesis 1 [demo_block 1 1 0 [0]] ∧
    ∃ p', eth_reset (demo_policy 1) [demo_block 1 1 0 [0]] = Ret p'.
Proof.
  assert (eth_reachable demo_genesis 1 20143 (demo_policy 1) [demo_block 1 1 0 [0]] 0) as Hr.
  { apply (er_check demo_genesis 1 20143 (demo_policy 1) [] 0 demo_db demo_root).
    - apply er_new.
    - apply demo_backend_ok.
    - reflexivity.
    - apply demo_summary_ok.
    - apply demo_signed_ok. by vm_compute.
    - by vm_compute.
    - vm_compute. reflexivity. }
  pose proof (eth_policy_safe demo_genesis 1 20143 _ _ 0 ltac:(lia) demo_genesis_ok Hr) as (_ & _ & Hu & _).
  destruct (Hu (demo_block 1 1 0 [0]) eq_refl) as [p Hp].
  assert (eth_reachable demo_genesis 1 20143 p [demo_block 1 1 0 [0]] 1) as Hr1 by (eapply er_commit; [exact Hr|reflexivity|exact Hp]).
  pose proof (eth_policy_safe demo_genesis 1 20143 _ _ 1 ltac:(lia) demo_genesis_ok Hr1) as (Hs & _ & _ & Hreset).
  exists p. split; [exact Hr1|]. split; [|exact Hreset]. apply (Hs 1%nat). simpl. lia.
Defined.
