(* ===== verification/BlockSync.v ===== *)
(** Block sync (src/monad-blocksync/src/blocksync.rs and messages/message.rs):
    fetching ranges of missing blocks from the ledger and from peers, and
    answering the requests of peers. *)

From S2P Require Import Prelude Types ValidatorSet LeaderElection Crypto MultiSig ConsensusTypes BlockPolicy BlockTree.

#[local] Open Scope Z_scope.

Definition BLOCKSYNC_MAX_PAYLOAD_REQUESTS : Z := 10.

Inductive BlockSyncSelfRequester := RequesterConsensus | RequesterStateSync.
#[export] Instance BlockSyncSelfRequester_eq_dec : EqDecision BlockSyncSelfRequester.
Proof. solve_decision. Defined.

(** messages/message.rs *)
Inductive BlockSyncRequestMessage :=
| BSR_Headers (block_range : BlockRange)
| BSR_Payload (payload_id : Z).

Record SelfRequest := mkSelfRequest {
  sr_requester : BlockSyncSelfRequester;
  sr_to : option NodeId;
}.
#[export] Instance SelfRequest_eq_dec : EqDecision SelfRequest.
Proof. solve_decision. Defined.

(** [ChaCha8Rng], with the two ways it is used: [slice.choose(rng)], as the
    index it picks below a length, and [gen()] of a [U256]. [rng_fuel] bounds
    the draws that [randomize_256_with_rng] may reject. *)
Class Rng := {
  rng_state : Type;
  rng_choose : rng_state → nat → nat * rng_state;
  rng_gen : rng_state → Z * rng_state;
  rng_seed : rng_state;
  rng_fuel : nat;
}.

Section blocksync.
Context `{BP : BlockPolicy} `{HashOrder} `{R : Rng}.
Context {VT : Type} `{ValidatorSetType VT}.

Inductive BlockSyncHeadersResponse :=
| HR_Found (block_range : BlockRange) (headers : list ConsensusBlockHeader)
| HR_NotAvailable (block_range : BlockRange).
Inductive BlockSyncBodyResponse :=
| BR_Found (payload : ConsensusBlockBody)
| BR_NotAvailable (payload_id : Z).
Inductive BlockSyncResponseMessage :=
| BSR_HeadersResponse (response : BlockSyncHeadersResponse)
| BSR_PayloadResponse (response : BlockSyncBodyResponse).

Definition get_block_range (r : BlockSyncHeadersResponse) : BlockRange :=
  match r with HR_Found block_range _ => block_range | HR_NotAvailable block_range => block_range end.
Definition get_payload_id (r : BlockSyncBodyResponse) : Z :=
  match r with BR_Found payload => body_get_id payload | BR_NotAvailable payload_id => payload_id end.

Inductive BlockSyncCommand :=
| BSC_SendRequest (to : NodeId) (request : BlockSyncRequestMessage)
| BSC_ScheduleTimeout (request : BlockSyncRequestMessage)
| BSC_ResetTimeout (request : BlockSyncRequestMessage)
| BSC_SendResponse (to : NodeId) (response : BlockSyncResponseMessage)
| BSC_FetchHeaders (block_range : BlockRange)
| BSC_FetchPayload (payload_id : Z)
| BSC_Emit (requester : BlockSyncSelfRequester) (block_range : BlockRange)
    (full_blocks : list ConsensusFullBlock).

Record SelfCompletedHeader := mkSelfCompletedHeader {
  ch_requester : BlockSyncSelfRequester;
  ch_blocks : list (ConsensusBlockHeader * option ConsensusBlockBody);
  ch_payload_cache : gmap Z ConsensusBlockBody;
}.

Record BlockSync := mkBlockSync {
  headers_requests : gmap BlockRange (gmap NodeId (list ConsensusBlockHeader));
  payload_requests : gmap Z (gmap NodeId unit);
  self_headers_requests : gmap BlockRange SelfRequest;
  self_payload_requests : gmap Z (option SelfRequest);
  self_payload_requests_in_flight : Z;
  self_completed_headers_requests : gmap BlockRange SelfCompletedHeader;
  self_request_mode : BlockSyncSelfRequester;
  override_peers : list NodeId;
  bs_rng : rng_state;
}.

Definition block_sync_new (override_peers : list NodeId) : BlockSync :=
  mkBlockSync ∅ ∅ ∅ ∅ 0 ∅ RequesterStateSync override_peers rng_seed.

Definition set_override_peers (bs : BlockSync) (override_peers : list NodeId) : BlockSync :=
  mkBlockSync (headers_requests bs) (payload_requests bs) (self_headers_requests bs) (self_payload_requests bs)
    (self_payload_requests_in_flight bs) (self_completed_headers_requests bs) (self_request_mode bs)
    (unique override_peers) (bs_rng bs).

(** Assignments to single fields. *)
Definition set_headers_requests m (bs : BlockSync) : BlockSync :=
  mkBlockSync m (payload_requests bs) (self_headers_requests bs) (self_payload_requests bs)
    (self_payload_requests_in_flight bs) (self_completed_headers_requests bs) (self_request_mode bs)
    (override_peers bs) (bs_rng bs).
Definition set_payload_requests m (bs : BlockSync) : BlockSync :=
  mkBlockSync (headers_requests bs) m (self_headers_requests bs) (self_payload_requests bs)
    (self_payload_requests_in_flight bs) (self_completed_headers_requests bs) (self_request_mode bs)
    (override_peers bs) (bs_rng bs).
Definition set_self_headers m (bs : BlockSync) : BlockSync :=
  mkBlockSync (headers_requests bs) (payload_requests bs) m (self_payload_requests bs)
    (self_payload_requests_in_flight bs) (self_completed_headers_requests bs) (self_request_mode bs)
    (override_peers bs) (bs_rng bs).
Definition set_self_payloads m (bs : BlockSync) : BlockSync :=
  mkBlockSync (headers_requests bs) (payload_requests bs) (self_headers_requests bs) m
    (self_payload_requests_in_flight bs) (self_completed_headers_requests bs) (self_request_mode bs)
    (override_peers bs) (bs_rng bs).
Definition set_in_flight n (bs : BlockSync) : BlockSync :=
  mkBlockSync (headers_requests bs) (payload_requests bs) (self_headers_requests bs) (self_payload_requests bs)
    n (self_completed_headers_requests bs) (self_request_mode bs) (override_peers bs) (bs_rng bs).
Definition set_completed m (bs : BlockSync) : BlockSync :=
  mkBlockSync (headers_requests bs) (payload_requests bs) (self_headers_requests bs) (self_payload_requests bs)
    (self_payload_requests_in_flight bs) m (self_request_mode bs) (override_peers bs) (bs_rng bs).
Definition set_request_mode mode (bs : BlockSync) : BlockSync :=
  mkBlockSync (headers_requests bs) (payload_requests bs) (self_headers_requests bs) (self_payload_requests bs)
    (self_payload_requests_in_flight bs) (self_completed_headers_requests bs) mode (override_peers bs) (bs_rng bs).
Definition set_rng g (bs : BlockSync) : BlockSync :=
  mkBlockSync (headers_requests bs) (payload_requests bs) (self_headers_requests bs) (self_payload_requests bs)
    (self_payload_requests_in_flight bs) (self_completed_headers_requests bs) (self_request_mode bs)
    (override_peers bs) g.

Definition clear_self_requests (bs : BlockSync) : BlockSync :=
  mkBlockSync (headers_requests bs) (payload_requests bs) ∅ ∅ 0 ∅ (self_request_mode bs) (override_peers bs) (bs_rng bs).

Definition self_request_exists (bs : BlockSync) (block_range : BlockRange) : bool :=
  bool_decide (is_Some (self_headers_requests bs !! block_range)) ||
  bool_decide (is_Some (self_completed_headers_requests bs !! block_range)).

Inductive BlockCache :=
| BC_BlockTree (blocktree : BlockTree)
| BC_BlockBuffer (payloads : gmap Z ConsensusBlockBody).

(** The fields of [BlockSyncWrapper] beside the state. *)
Record BlockSyncEnv := mkBlockSyncEnv {
  block_cache : BlockCache;
  bs_nodeid : NodeId;
  bs_current_epoch : Epoch;
  bs_val_epoch_map : ValidatorsEpochMapping VT;
}.

(** * Requests *)

Definition handle_self_request (bs : BlockSync) (requester : BlockSyncSelfRequester) (block_range : BlockRange) :
    list BlockSyncCommand * BlockSync :=
  if bool_decide (br_num_blocks block_range = 0) then ([], bs) else
  let bs := if bool_decide (requester ≠ self_request_mode bs)
            then set_request_mode requester (clear_self_requests bs) else bs in
  if self_request_exists bs block_range then ([], bs) else
  ([BSC_FetchHeaders block_range],
   set_self_headers (<[block_range := mkSelfRequest requester None]> (self_headers_requests bs)) bs).

Definition handle_self_cancel_request (bs : BlockSync) (requester : BlockSyncSelfRequester)
    (block_range : BlockRange) : BlockSync :=
  let bs :=
    match self_headers_requests bs !! block_range with
    | Some entry => if bool_decide (sr_requester entry = requester)
                    then set_self_headers (delete block_range (self_headers_requests bs)) bs else bs
    | None => bs
    end in
  match self_completed_headers_requests bs !! block_range with
  | Some entry => if bool_decide (ch_requester entry = requester)
                  then set_completed (delete block_range (self_completed_headers_requests bs)) bs else bs
  | None => bs
  end.

Definition get_cached_payload (env : BlockSyncEnv) (bs : BlockSync) (payload_id : Z) : option ConsensusBlockBody :=
  match (match block_cache env with
         | BC_BlockBuffer full_blocks => full_blocks !! payload_id
         | BC_BlockTree blocktree => bt_get_payload blocktree payload_id
         end) with
  | Some payload => Some payload
  | None => head (omap (λ kc : BlockRange * SelfCompletedHeader, ch_payload_cache kc.2 !! payload_id)
                    (hash_iter (self_completed_headers_requests bs)))
  end.

(** [rev().take(n).rev()] *)
Definition take_last {A} (n : nat) (l : list A) : list A := reverse (take n (reverse l)).

Definition handle_peer_request (env : BlockSyncEnv) (bs : BlockSync) (sender : NodeId)
    (request : BlockSyncRequestMessage) : exec (list BlockSyncCommand * BlockSync) :=
  match request with
  | BSR_Headers block_range =>
      if bool_decide (br_num_blocks block_range = 0) then Ret ([], bs) else
      cached_blocks ←
        match block_cache env with
        | BC_BlockTree blocktree =>
            chain ← get_parent_block_chain blocktree (br_last_block_id block_range);
            Ret (take_last (Z.to_nat (br_num_blocks block_range)) (map vb_header chain))
        | BC_BlockBuffer _ => Ret []
        end;
      if bool_decide (Z.of_nat (length cached_blocks) = br_num_blocks block_range) then
        _ ← assert (bool_decide (Some (br_last_block_id block_range) = header_get_id <$> last cached_blocks));
        Ret ([BSC_SendResponse sender (BSR_HeadersResponse (HR_Found block_range cached_blocks))], bs)
      else
        let last_block_id_to_fetch :=
          match head cached_blocks with
          | Some block => header_get_parent_id block
          | None => br_last_block_id block_range
          end in
        num_blocks ← seq_num_sub (br_num_blocks block_range) (Z.of_nat (length cached_blocks));
        let ledger_fetch_range := mkBlockRange last_block_id_to_fetch num_blocks in
        let entry := default ∅ (headers_requests bs !! ledger_fetch_range) in
        Ret ([BSC_FetchHeaders ledger_fetch_range],
             set_headers_requests
               (<[ledger_fetch_range := <[sender := cached_blocks]> entry]> (headers_requests bs)) bs)
  | BSR_Payload payload_id =>
      match get_cached_payload env bs payload_id with
      | Some cached_payload =>
          Ret ([BSC_SendResponse sender (BSR_PayloadResponse (BR_Found cached_payload))], bs)
      | None =>
          let entry := default ∅ (payload_requests bs !! payload_id) in
          Ret ([BSC_FetchPayload payload_id],
               set_payload_requests (<[payload_id := <[sender := tt]> entry]> (payload_requests bs)) bs)
      end
  end.

(** * Choosing a peer *)

Definition choose_weighted (validators : list (NodeId * Stake)) (g : rng_state) : exec (NodeId * rng_state) :=
  generate_random_validator_with_randomizer validators
    (λ total_stake, randomize_256_with_rng rng_gen rng_fuel g total_stake).

Definition pick_peer (env : BlockSyncEnv) (override_peers : list NodeId) (g : rng_state) :
    exec (NodeId * rng_state) :=
  let self_node_id := bs_nodeid env in
  if negb (bool_decide (override_peers = []) || bool_decide (override_peers = [self_node_id])) then
    let remote_peers := filter (λ p, p ≠ self_node_id) override_peers in
    _ ← assert (bool_decide (remote_peers ≠ []));
    let '(i, g) := rng_choose g (length remote_peers) in
    peer ← expect (remote_peers !! i);
    Ret (peer, g)
  else
    validators ← expect (get_val_set (bs_val_epoch_map env) (bs_current_epoch env));
    let members := filter (λ ps : NodeId * Stake, ps.1 ≠ self_node_id) (btree_iter (get_members validators)) in
    _ ← assert (bool_decide (members ≠ []));
    choose_weighted members g.

(** Asking a peer: the choice, the request and its timeout. *)
Definition request_peer (env : BlockSyncEnv) (bs : BlockSync) (request : BlockSyncRequestMessage) :
    exec (NodeId * list BlockSyncCommand * BlockSync) :=
  '(to, g) ← pick_peer env (override_peers bs) (bs_rng bs);
  Ret (to, [BSC_SendRequest to request; BSC_ScheduleTimeout request], set_rng g bs).

(** * Responses to own requests *)

(** The QCs of the headers point to the headers before them. *)
Fixpoint headers_linked (headers : list ConsensusBlockHeader) : bool :=
  match headers with
  | parent :: ((child :: _) as headers) =>
      bool_decide (header_get_id parent = header_get_parent_id child) && headers_linked headers
  | _ => true
  end.

Definition verify_block_headers (block_range : BlockRange) (block_headers : list ConsensusBlockHeader) : exec bool :=
  if bool_decide (Z.of_nat (length block_headers) ≠ br_num_blocks block_range) then Ret false else
  last_header ← expect (last block_headers);
  if bool_decide (br_last_block_id block_range ≠ header_get_id last_header) then Ret false
  else Ret (headers_linked block_headers).

(** A payload put where the headers of a completed range miss it, and in the
    cache of the range if any does. *)
Definition misses_payload (payload_id : Z) (bp : ConsensusBlockHeader * option ConsensusBlockBody) : bool :=
  bool_decide (h_block_body_id bp.1 = payload_id) && bool_decide (bp.2 = None).
Definition fill_payload (payload_id : Z) (payload : ConsensusBlockBody) (c : SelfCompletedHeader) :
    SelfCompletedHeader :=
  mkSelfCompletedHeader (ch_requester c)
    (map (λ bp, if misses_payload payload_id bp then (bp.1, Some payload) else bp) (ch_blocks c))
    (if existsb (misses_payload payload_id) (ch_blocks c)
     then <[payload_id := payload]> (ch_payload_cache c) else ch_payload_cache c).
Definition fill_all (payload_id : Z) (payload : ConsensusBlockBody) (bs : BlockSync) : BlockSync :=
  set_completed (fill_payload payload_id payload <$> self_completed_headers_requests bs) bs.

(** Full blocks of a completed range. *)
Fixpoint full_blocks_of (blocks : list (ConsensusBlockHeader * option ConsensusBlockBody)) :
    exec (list ConsensusFullBlock) :=
  match blocks with
  | [] => Ret []
  | (block, payload) :: blocks =>
      payload ← expect payload;
      full_block ← expect (full_block_new block payload);
      full_blocks ← full_blocks_of blocks;
      Ret (full_block :: full_blocks)
  end.

Definition is_completed (c : SelfCompletedHeader) : bool :=
  forallb (λ bp : ConsensusBlockHeader * option ConsensusBlockBody, bool_decide (is_Some bp.2)) (ch_blocks c).

Fixpoint completed_loop (completed_ranges : list BlockRange) (bs : BlockSync) (cmds : list BlockSyncCommand) :
    exec (list BlockSyncCommand * BlockSync) :=
  match completed_ranges with
  | [] => Ret (cmds, bs)
  | completed_range :: completed_ranges =>
      completed_header ← expect (self_completed_headers_requests bs !! completed_range);
      let bs := set_completed (delete completed_range (self_completed_headers_requests bs)) bs in
      full_blocks ← full_blocks_of (ch_blocks completed_header);
      completed_loop completed_ranges bs
        (cmds ++ [BSC_Emit (ch_requester completed_header) completed_range full_blocks])
  end.

Definition handle_completed_ranges (bs : BlockSync) : exec (list BlockSyncCommand * BlockSync) :=
  let completed_ranges :=
    omap (λ kc : BlockRange * SelfCompletedHeader, if is_completed kc.2 then Some kc.1 else None)
      (hash_iter (self_completed_headers_requests bs)) in
  completed_loop completed_ranges bs [].

(** The first loop of [try_initiate_payload_requests_for_self]. *)
Definition use_cached (env : BlockSyncEnv) (bs : BlockSync) (payload_id : Z) : BlockSync :=
  match get_cached_payload env bs payload_id with
  | Some payload =>
      fill_all payload_id payload (set_self_payloads (delete payload_id (self_payload_requests bs)) bs)
  | None => bs
  end.

(** [self_payload_requests.iter_mut().find(|(_, req)| req.is_none())] *)
Definition next_uninitiated (bs : BlockSync) : option Z :=
  head (omap (λ kr : Z * option SelfRequest, if bool_decide (kr.2 = None) then Some kr.1 else None)
          (hash_iter (self_payload_requests bs))).

(** The [while] loop: one more request in flight each time. *)
Fixpoint initiate_loop (fuel : nat) (bs : BlockSync) (cmds : list BlockSyncCommand) :
    exec (list BlockSyncCommand * BlockSync) :=
  if negb (bool_decide (self_payload_requests_in_flight bs < BLOCKSYNC_MAX_PAYLOAD_REQUESTS)) then Ret (cmds, bs) else
  match next_uninitiated bs with
  | None => Ret (cmds, bs)
  | Some payload_id =>
      match fuel with
      | O => OutOfFuel
      | S fuel =>
          let bs := set_self_payloads
                      (<[payload_id := Some (mkSelfRequest (self_request_mode bs) None)]> (self_payload_requests bs)) bs in
          initiate_loop fuel (set_in_flight (self_payload_requests_in_flight bs + 1) bs)
            (cmds ++ [BSC_FetchPayload payload_id])
      end
  end.

Definition try_initiate_payload_requests_for_self (env : BlockSyncEnv) (bs : BlockSync) :
    exec (list BlockSyncCommand * BlockSync) :=
  let payload_ids_to_request := (hash_iter (self_payload_requests bs)).*1 in
  let bs := foldl (use_cached env) bs payload_ids_to_request in
  '(cmds, bs) ← initiate_loop (Z.to_nat BLOCKSYNC_MAX_PAYLOAD_REQUESTS) bs [];
  '(cmds', bs) ← handle_completed_ranges bs;
  Ret (cmds ++ cmds', bs).

(** The payloads of new headers are requested, unless they are already. *)
Definition add_payload_requests (headers : list ConsensusBlockHeader) (m : gmap Z (option SelfRequest)) :
    gmap Z (option SelfRequest) :=
  foldl (λ m block, match m !! h_block_body_id block with
                    | Some _ => m
                    | None => <[h_block_body_id block := None]> m
                    end) m headers.

Definition handle_headers_response_for_self (env : BlockSyncEnv) (bs : BlockSync) (sender : option NodeId)
    (headers_response : BlockSyncHeadersResponse) : exec (list BlockSyncCommand * BlockSync) :=
  let block_range := get_block_range headers_response in
  match self_headers_requests bs !! block_range with
  | None => Ret ([], bs)
  | Some self_request =>
      '(cmds, bs) ←
        match headers_response with
        | HR_Found block_range block_headers =>
            _ ← assert (bool_decide (sr_requester self_request = self_request_mode bs));
            verified ← verify_block_headers block_range block_headers;
            if verified : bool then
              let cmds := if bool_decide (is_Some sender) then [BSC_ResetTimeout (BSR_Headers block_range)] else [] in
              let bs := set_self_headers (delete block_range (self_headers_requests bs)) bs in
              let bs := set_self_payloads (add_payload_requests block_headers (self_payload_requests bs)) bs in
              let completed := mkSelfCompletedHeader (self_request_mode bs) (map (λ block, (block, None)) block_headers) ∅ in
              Ret (cmds, set_completed (<[block_range := completed]> (self_completed_headers_requests bs)) bs)
            else
              _ ← assert (bool_decide (is_Some sender));
              Ret ([], bs)
        | HR_NotAvailable block_range =>
            if bool_decide (is_Some sender) then Ret ([], bs) else
            if negb (bool_decide (sr_to self_request = None)) then Ret ([], bs) else
            '(to, cmds, bs) ← request_peer env bs (BSR_Headers block_range);
            Ret (cmds, set_self_headers (<[block_range := mkSelfRequest (sr_requester self_request) (Some to)]>
                                           (self_headers_requests bs)) bs)
        end;
      '(cmds', bs) ← try_initiate_payload_requests_for_self env bs;
      Ret (cmds ++ cmds', bs)
  end.

(** [self_payload_requests_in_flight] is a [usize]. *)
Definition handle_payload_response_for_self (env : BlockSyncEnv) (bs : BlockSync) (sender : option NodeId)
    (payload_response : BlockSyncBodyResponse) : exec (list BlockSyncCommand * BlockSync) :=
  let payload_id := get_payload_id payload_response in
  match self_payload_requests bs !! payload_id with
  | None | Some None => Ret ([], bs)
  | Some (Some self_request) =>
      '(cmds, bs) ←
        match payload_response with
        | BR_Found payload =>
            _ ← assert (bool_decide (sr_requester self_request = self_request_mode bs));
            in_flight ← checked_sub (self_payload_requests_in_flight bs) 1;
            let bs := set_in_flight in_flight bs in
            let cmds := if bool_decide (is_Some sender) then [BSC_ResetTimeout (BSR_Payload payload_id)] else [] in
            let bs := set_self_payloads (delete payload_id (self_payload_requests bs)) bs in
            Ret (cmds, fill_all payload_id payload bs)
        | BR_NotAvailable payload_id =>
            if bool_decide (is_Some sender) then Ret ([], bs) else
            if negb (bool_decide (sr_to self_request = None)) then Ret ([], bs) else
            '(to, cmds, bs) ← request_peer env bs (BSR_Payload payload_id);
            Ret (cmds, set_self_payloads (<[payload_id := Some (mkSelfRequest (sr_requester self_request) (Some to))]>
                                            (self_payload_requests bs)) bs)
        end;
      '(cmds1, bs) ← handle_completed_ranges bs;
      '(cmds2, bs) ← try_initiate_payload_requests_for_self env bs;
      Ret (cmds ++ cmds1 ++ cmds2, bs)
  end.

(** * Responses from the ledger and from peers *)

(** The answers to the peers that wait for a range of the ledger. *)
Fixpoint respond_headers (block_range : BlockRange) (headers_response : BlockSyncHeadersResponse)
    (requesters : list (NodeId * list ConsensusBlockHeader)) : exec (list BlockSyncCommand) :=
  match requesters with
  | [] => Ret []
  | (requester, cached_blocks) :: requesters =>
      num_blocks ← seq_num_add (br_num_blocks block_range) (Z.of_nat (length cached_blocks));
      let requested_block_range :=
        mkBlockRange (match last cached_blocks with
                      | Some block => header_get_id block
                      | None => br_last_block_id block_range
                      end) num_blocks in
      response ←
        match headers_response with
        | HR_Found _ requested_blocks =>
            let requested_blocks := requested_blocks ++ cached_blocks in
            _ ← assert (headers_linked requested_blocks);
            Ret (HR_Found requested_block_range requested_blocks)
        | HR_NotAvailable _ => Ret (HR_NotAvailable requested_block_range)
        end;
      cmds ← respond_headers block_range headers_response requesters;
      Ret (BSC_SendResponse requester (BSR_HeadersResponse response) :: cmds)
  end.

Definition handle_ledger_response (env : BlockSyncEnv) (bs : BlockSync) (response : BlockSyncResponseMessage) :
    exec (list BlockSyncCommand * BlockSync) :=
  match response with
  | BSR_HeadersResponse headers_response =>
      let block_range := get_block_range headers_response in
      let requesters := default ∅ (headers_requests bs !! block_range) in
      let bs := set_headers_requests (delete block_range (headers_requests bs)) bs in
      cmds ← respond_headers block_range headers_response (btree_iter requesters);
      '(cmds', bs) ← handle_headers_response_for_self env bs None headers_response;
      Ret (cmds ++ cmds', bs)
  | BSR_PayloadResponse payload_response =>
      let payload_id := get_payload_id payload_response in
      let requesters := default ∅ (payload_requests bs !! payload_id) in
      let bs := set_payload_requests (delete payload_id (payload_requests bs)) bs in
      let cmds := map (λ requester, BSC_SendResponse requester (BSR_PayloadResponse payload_response))
                    (btree_keys requesters) in
      '(cmds', bs) ← handle_payload_response_for_self env bs None payload_response;
      Ret (cmds ++ cmds', bs)
  end.

Definition handle_peer_response (env : BlockSyncEnv) (bs : BlockSync) (sender : NodeId)
    (response : BlockSyncResponseMessage) : exec (list BlockSyncCommand * BlockSync) :=
  match response with
  | BSR_HeadersResponse headers_response => handle_headers_response_for_self env bs (Some sender) headers_response
  | BSR_PayloadResponse payload_response => handle_payload_response_for_self env bs (Some sender) payload_response
  end.

Definition handle_timeout (env : BlockSyncEnv) (bs : BlockSync) (request : BlockSyncRequestMessage) :
    exec (list BlockSyncCommand * BlockSync) :=
  match request with
  | BSR_Headers block_range =>
      match self_headers_requests bs !! block_range with
      | Some (mkSelfRequest requester (Some _)) =>
          '(to, cmds, bs) ← request_peer env bs request;
          Ret (cmds, set_self_headers (<[block_range := mkSelfRequest requester (Some to)]>
                                         (self_headers_requests bs)) bs)
      | _ => Ret ([], bs)
      end
  | BSR_Payload payload_id =>
      match self_payload_requests bs !! payload_id with
      | Some (Some (mkSelfRequest requester (Some _))) =>
          '(to, cmds, bs) ← request_peer env bs request;
          Ret (cmds, set_self_payloads (<[payload_id := Some (mkSelfRequest requester (Some to))]>
                                          (self_payload_requests bs)) bs)
      | _ => Ret ([], bs)
      end
  end.

(** The events of block sync, as monad-state/src/blocksync.rs dispatches them. *)
Inductive BlockSyncEvent :=
| BSE_Request (sender : NodeId) (request : BlockSyncRequestMessage)
| BSE_SelfRequest (requester : BlockSyncSelfRequester) (block_range : BlockRange)
| BSE_SelfCancelRequest (requester : BlockSyncSelfRequester) (block_range : BlockRange)
| BSE_SelfResponse (response : BlockSyncResponseMessage)
| BSE_Response (sender : NodeId) (response : BlockSyncResponseMessage)
| BSE_Timeout (request : BlockSyncRequestMessage).

Definition block_sync_update (env : BlockSyncEnv) (bs : BlockSync) (event : BlockSyncEvent) :
    exec (list BlockSyncCommand * BlockSync) :=
  match event with
  | BSE_Request sender request => handle_peer_request env bs sender request
  | BSE_SelfRequest requester block_range => Ret (handle_self_request bs requester block_range)
  | BSE_SelfCancelRequest requester block_range => Ret ([], handle_self_cancel_request bs requester block_range)
  | BSE_SelfResponse response => handle_ledger_response env bs response
  | BSE_Response sender response => handle_peer_response env bs sender response
  | BSE_Timeout request => handle_timeout env bs request
  end.
End blocksync.
