(* ===== verification/BlockSyncProps.v ===== *)
(** Properties of block sync: what it hands to consensus and to peers, whatever
    the peers answer. *)

From S2P Require Import Prelude Types ValidatorSet LeaderElection Crypto MultiSig ConsensusTypes.
From S2P Require Import BlockPolicy BlockTree BlockTreeInv Safety Pacemaker BlockSync.

#[local] Open Scope Z_scope.

(** What is known of the generator: choices are in range, and one of the
    [rng_fuel] next draws is accepted. *)
Class RngLaws `{R : Rng} := {
  rng_choose_lt g n : (0 < n)%nat → ((rng_choose g n).1 < n)%nat;
  rng_accepts g m : 0 < m <= u256_max →
    ∃ n, (n < rng_fuel)%nat ∧
      (∀ i, (i < n)%nat → randomize_256_max m < (rng_gen (rng_after rng_gen i g)).1) ∧
      (rng_gen (rng_after rng_gen n g)).1 <= randomize_256_max m;
}.

Section props.
Context `{BP : BlockPolicy} `{HashOrder} `{R : Rng} `{!RngLaws}.
Context {VT : Type} `{ValidatorSetType VT}.
(** What peers asked this node for, and what this node asked itself for. *)
Context (asked : NodeId → BlockSyncRequestMessage → Prop).
Context (wanted : BlockSyncSelfRequester → BlockRange → Prop).
Implicit Types (bs : BlockSync) (env : BlockSyncEnv (VT := VT)).

(** * The environment *)

(** Payloads are filed under their ids. *)
Definition cache_ok (c : BlockCache) : Prop :=
  match c with
  | BC_BlockTree bt => bt_inv bt ∧ ∀ pid p, bt_get_payload bt pid = Some p → body_get_id p = pid
  | BC_BlockBuffer m => ∀ pid p, m !! pid = Some p → body_get_id p = pid
  end.

(** Another validator has stake. *)
Definition peers_ok env : Prop :=
  ∃ v, get_val_set (bs_val_epoch_map env) (bs_current_epoch env) = Some v ∧
    map_Forall (λ _ s, 0 <= s) (get_members v) ∧
    zsum (btree_iter (get_members v)).*2 <= u256_max ∧
    ∃ n s, get_members v !! n = Some s ∧ n ≠ bs_nodeid env ∧ 0 < s.

Record env_ok env : Prop := {
  eo_cache : cache_ok (block_cache env);
  eo_peers : peers_ok env;
}.

(** * The invariant *)

Definition verified (range : BlockRange) (headers : list ConsensusBlockHeader) : Prop :=
  verify_block_headers range headers = Ret true.

Definition in_flight (m : gmap Z (option SelfRequest)) : Z :=
  Z.of_nat (size (filter (λ kr : Z * option SelfRequest, is_Some kr.2) m)).

Definition bodies_ok (l : list (ConsensusBlockHeader * option ConsensusBlockBody)) : Prop :=
  ∀ h p, (h, Some p) ∈ l → body_get_id p = h_block_body_id h.

Record completed_ok (mode : BlockSyncSelfRequester) (range : BlockRange) (c : SelfCompletedHeader) : Prop := {
  co_requester : ch_requester c = mode;
  co_wanted : wanted mode range;
  co_verified : verified range (ch_blocks c).*1;
  co_bodies : bodies_ok (ch_blocks c);
  co_cache pid p : ch_payload_cache c !! pid = Some p → body_get_id p = pid;
}.

(** Missing payloads have a request. *)
Definition requested (payloads : gmap Z (option SelfRequest)) (c : SelfCompletedHeader) : Prop :=
  ∀ h, (h, None) ∈ ch_blocks c → is_Some (payloads !! h_block_body_id h).

(** What waits for [range] from the ledger to answer peer [n]. *)
Definition serving (range : BlockRange) (n : NodeId) (cached : list ConsensusBlockHeader) : Prop :=
  0 < br_num_blocks range ∧ br_num_blocks range + Z.of_nat (length cached) <= u64_max ∧
  headers_linked cached = true ∧
  (∀ h, head cached = Some h → header_get_parent_id h = br_last_block_id range) ∧
  asked n (BSR_Headers (mkBlockRange
    (match last cached with Some h => header_get_id h | None => br_last_block_id range end)
    (br_num_blocks range + Z.of_nat (length cached)))).

Record bs_inv bs : Prop := {
  bi_headers range r : self_headers_requests bs !! range = Some r →
    sr_requester r = self_request_mode bs ∧ br_num_blocks range ≠ 0 ∧ wanted (self_request_mode bs) range;
  bi_payload_mode pid r : self_payload_requests bs !! pid = Some (Some r) → sr_requester r = self_request_mode bs;
  bi_in_flight : in_flight (self_payload_requests bs) <= self_payload_requests_in_flight bs
                 <= BLOCKSYNC_MAX_PAYLOAD_REQUESTS;
  bi_completed range c : self_completed_headers_requests bs !! range = Some c →
    completed_ok (self_request_mode bs) range c;
  bi_requested range c : self_completed_headers_requests bs !! range = Some c → requested (self_payload_requests bs) c;
  bi_serving range m n cached : headers_requests bs !! range = Some m → m !! n = Some cached → serving range n cached;
  bi_payload_asked pid m n : payload_requests bs !! pid = Some m → is_Some (m !! n) → asked n (BSR_Payload pid);
  bi_peers : NoDup (override_peers bs);
}.

(** What a full range handed on is. *)
Record verified_chain (range : BlockRange) (blocks : list ConsensusFullBlock) : Prop := {
  vc_length : Z.of_nat (length blocks) = br_num_blocks range;
  vc_last : fb_id <$> last blocks = Some (br_last_block_id range);
  vc_linked i b b' : blocks !! i = Some b → blocks !! S i = Some b' → fb_parent_id b' = fb_id b;
  vc_bodies b : b ∈ blocks → body_get_id (fb_body b) = fb_body_id b;
}.

Definition cmd_ok (c : BlockSyncCommand) : Prop :=
  match c with
  | BSC_Emit requester range blocks => wanted requester range ∧ verified_chain range blocks
  | BSC_SendResponse to (BSR_HeadersResponse r) =>
      asked to (BSR_Headers (get_block_range r)) ∧
      match r with HR_Found range headers => verified range headers | _ => True end
  | BSC_SendResponse to (BSR_PayloadResponse r) => asked to (BSR_Payload (get_payload_id r))
  | _ => True
  end.

(** [m] returns, and keeps the invariant. *)
Definition bs_spec (m : exec (list BlockSyncCommand * BlockSync)) : Prop :=
  ∃ cmds bs, m = Ret (cmds, bs) ∧ bs_inv bs ∧ Forall cmd_ok cmds.

Lemma bs_spec_bind m k :
  bs_spec m → (∀ cmds bs, bs_inv bs → Forall cmd_ok cmds → bs_spec (k (cmds, bs))) → bs_spec (m ≫= k).
Proof. intros (cmds & bs & -> & Hinv & Hc) Hk. by apply Hk. Qed.

Lemma bs_spec_ret cmds bs : bs_inv bs → Forall cmd_ok cmds → bs_spec (Ret (cmds, bs)).
Proof. intros. by exists cmds, bs. Qed.

(** * Counting requests in flight *)

Lemma in_flight_nonneg m : 0 <= in_flight m.
Proof. unfold in_flight. lia. Qed.

Lemma in_flight_insert_None m k : m !! k = None → in_flight (<[k := None]> m) = in_flight m.
Proof.
  intros Hk. unfold in_flight. rewrite map_filter_insert_False by by intros [? ?].
  by rewrite delete_id.
Qed.

Lemma in_flight_insert_Some m k r : in_flight (<[k := Some r]> m) <= in_flight m + 1.
Proof.
  unfold in_flight. rewrite map_filter_insert_True by by eexists. rewrite map_size_insert.
  destruct (filter _ m !! k); simpl; lia.
Qed.

Lemma in_flight_update m k r r' : m !! k = Some (Some r) → in_flight (<[k := Some r']> m) = in_flight m.
Proof.
  intros Hk. unfold in_flight. rewrite map_filter_insert_True by by eexists. rewrite map_size_insert.
  rewrite (map_lookup_filter_Some_2 _ m k (Some r)); [done|done|by eexists].
Qed.

Lemma in_flight_delete m k : in_flight (delete k m) <= in_flight m.
Proof.
  unfold in_flight. rewrite map_filter_delete, map_size_delete. destruct (filter _ m !! k); simpl; lia.
Qed.

Lemma in_flight_delete_Some m k r : m !! k = Some (Some r) → in_flight (delete k m) = in_flight m - 1.
Proof.
  intros Hk. unfold in_flight. rewrite map_filter_delete, map_size_delete.
  assert (filter (λ kr : Z * option SelfRequest, is_Some kr.2) m !! k = Some (Some r)) as Hf.
  { apply map_lookup_filter_Some_2; [done|by eexists]. }
  rewrite Hf. assert (size (filter (λ kr : Z * option SelfRequest, is_Some kr.2) m) ≠ 0%nat); [|simpl; lia].
  intros Hz%map_size_empty_inv. by rewrite Hz in Hf.
Qed.

(** * Choosing a peer *)

Lemma randomize_ok g m :
  0 < m <= u256_max → ∃ i g', randomize_256_with_rng rng_gen rng_fuel g m = Ret (i, g') ∧ 0 <= i < m.
Proof.
  intros Hm. destruct (rng_accepts g m Hm) as (n & Hn & Hrej & Hacc).
  unfold randomize_256_with_rng. rewrite bool_decide_false by lia.
  rewrite (randomize_256_loop_accepts _ _ n _ _ _ _ Hn Hrej eq_refl Hacc). eexists _, _. split; [done|]. apply Z.mod_pos_bound. lia.
Qed.

Lemma stakes_filter (f : NodeId * Stake → Prop) `{!∀ x, Decision (f x)} l :
  stakes_nonneg l → stakes_nonneg (filter f l) ∧ zsum (filter f l).*2 <= zsum l.*2.
Proof.
  intros Hl. induction Hl as [|[n s] l Hs Hl [IH1 IH2]]; [by split; [constructor|]|]. simpl in Hs.
  rewrite filter_cons. case_decide; csimpl; rewrite ?zsum_cons; split; try (by constructor); lia || done.
Qed.

Lemma stakes_sum_ge l n s : stakes_nonneg l → (n, s) ∈ l → s <= zsum l.*2.
Proof.
  intros Hl. induction Hl as [|[n' s'] l Hs Hl IH]; [by intros ?%elem_of_nil|]. simpl in Hs. csimpl. rewrite zsum_cons.
  pose proof (stakes_sum_nonneg l Hl). intros [[= -> ->]|Hin%IH]%elem_of_cons; lia.
Qed.

Lemma members_stakes (m : gmap NodeId Stake) : map_Forall (λ _ s, 0 <= s) m → stakes_nonneg (btree_iter m).
Proof. intros Hm. apply Forall_forall. intros [n s] Hin%elem_of_btree_iter. by apply (Hm n s). Qed.

(** Block sync never asks itself. *)
Lemma pick_peer_ok env peers g :
  peers_ok env → NoDup peers → ∃ to g', pick_peer env peers g = Ret (to, g') ∧ to ≠ bs_nodeid env.
Proof.
  intros (v & Hv & Hpos & Hmax & n & s & Hn & Hne & Hs) Hnd. unfold pick_peer.
  destruct (negb _) eqn:Hcond.
  - apply negb_true_iff, orb_false_iff in Hcond as [Hp1%bool_decide_eq_false Hp2%bool_decide_eq_false].
    set (remote := filter _ peers). assert (remote ≠ []) as Hrem.
    { intros Hnil. assert (∀ q, q ∈ peers → q = bs_nodeid env) as Hall.
      { intros q Hq. destruct (decide (q = bs_nodeid env)) as [|Hq']; [done|].
        assert (q ∈ remote) as Hr by by apply list_elem_of_filter. rewrite Hnil in Hr. by apply elem_of_nil in Hr. }
      destruct peers as [|p [|q peers]]; [done| |].
      - apply Hp2. by rewrite (Hall p) by set_solver.
      - apply NoDup_cons in Hnd as [Hp _]. apply Hp. rewrite (Hall p), (Hall q) by set_solver. set_solver. }
    rewrite bool_decide_true by done. simpl. pose proof (rng_choose_lt g (length remote)) as Hi.
    destruct (rng_choose g (length remote)) as [i g']. simpl in Hi.
    destruct (lookup_lt_is_Some_2 remote i) as [to Hto]. { apply Hi. by destruct remote; [|simpl; lia]. }
    rewrite Hto. simpl. eexists _, _. split; [done|].
    apply list_elem_of_lookup_2, list_elem_of_filter in Hto. tauto.
  - rewrite Hv. simpl. set (members := filter _ _).
    assert ((n, s) ∈ members) as Hin. { apply list_elem_of_filter. by rewrite elem_of_btree_iter. }
    rewrite bool_decide_true by (intros Hnil; rewrite Hnil in Hin; by apply elem_of_nil in Hin). simpl.
    destruct (stakes_filter (λ ps : NodeId * Stake, ps.1 ≠ bs_nodeid env) _ (members_stakes _ Hpos)) as [Hm1 Hm2].
    fold members in Hm1, Hm2. pose proof (stakes_sum_ge _ _ _ Hm1 Hin).
    destruct (randomize_ok g (zsum members.*2)) as (i & g' & Hr & Hi); [lia|].
    destruct (generate_random_validator_elem members (λ t, randomize_256_with_rng rng_gen rng_fuel g t) i g' Hm1 ltac:(lia) Hr Hi)
      as (to & st & Hgen & Hto & _). unfold choose_weighted. rewrite Hgen.
    eexists _, _. split; [done|]. apply list_elem_of_filter in Hto. tauto.
Qed.

Lemma request_peer_ok env bs request :
  peers_ok env → NoDup (override_peers bs) →
  ∃ to g, request_peer env bs request =
    Ret (to, [BSC_SendRequest to request; BSC_ScheduleTimeout request], set_rng g bs).
Proof.
  intros He Hnd. unfold request_peer. destruct (pick_peer_ok env _ (bs_rng bs) He Hnd) as (to & g & -> & _).
  by eexists _, _.
Qed.

(** * Payloads *)

Lemma get_cached_payload_id env bs pid p :
  cache_ok (block_cache env) → bs_inv bs → get_cached_payload env bs pid = Some p → body_get_id p = pid.
Proof.
  intros Hc Hinv. unfold get_cached_payload.
  destruct (match block_cache env with BC_BlockTree _ => _ | BC_BlockBuffer _ => _ end) as [q|] eqn:Hq.
  { intros [= <-]. unfold cache_ok in Hc. destruct (block_cache env); [by apply Hc|by apply Hc]. }
  intros ([range c] & Hin & Hp)%head_Some_elem_of%list_elem_of_omap.
  apply elem_of_hash_iter in Hin. simpl in Hp. by eapply co_cache; [eapply bi_completed|].
Qed.

Lemma fill_payload_fst pid p c : (ch_blocks (fill_payload pid p c)).*1 = (ch_blocks c).*1.
Proof.
  simpl. rewrite <-list_fmap_compose. apply list_fmap_ext. intros i [h o] _. simpl. by destruct (misses_payload _ _).
Qed.

Lemma fill_payload_elem pid p c h o :
  (h, o) ∈ ch_blocks (fill_payload pid p c) →
  (h, o) ∈ ch_blocks c ∧ (o = None → h_block_body_id h ≠ pid) ∨ h_block_body_id h = pid ∧ o = Some p.
Proof.
  intros ([h' o'] & Heq & Hin)%list_elem_of_fmap. unfold misses_payload in Heq. simpl in Heq.
  do 2 case_bool_decide; simpl in Heq; simplify_eq; naive_solver.
Qed.

Lemma fill_payload_ok mode range pid p c :
  body_get_id p = pid → completed_ok mode range c → completed_ok mode range (fill_payload pid p c).
Proof.
  intros Hp [Hr Hw Hv Hb Hc]. constructor; [done|done|by rewrite fill_payload_fst| |].
  - intros h q [[Hin _]|[-> [= ->]]]%fill_payload_elem; [by apply Hb|done].
  - simpl. intros pid' q. destruct (existsb _ _); [|by apply Hc].
    rewrite lookup_insert_Some. intros [[<- <-]|[_ ?]]; [done|by apply Hc].
Qed.

Lemma fill_payload_requested pid p c m : requested m c → requested (delete pid m) (fill_payload pid p c).
Proof.
  intros Hreq h [[Hin Hne]|[_ ?]]%fill_payload_elem; [|done].
  rewrite lookup_delete_ne by (symmetry; by apply Hne). by apply Hreq.
Qed.

(** A payload is removed from the requests once it is in every range that
    misses it. *)
Lemma fill_all_inv bs pid p n :
  bs_inv bs → body_get_id p = pid →
  in_flight (delete pid (self_payload_requests bs)) <= n <= BLOCKSYNC_MAX_PAYLOAD_REQUESTS →
  bs_inv (fill_all pid p (set_self_payloads (delete pid (self_payload_requests bs)) (set_in_flight n bs))).
Proof.
  intros [Hh Hpm Hf Hc Hr Hs Hpa Hpe] Hp Hn. constructor; simpl; try done.
  - intros pid' r [_ ?]%lookup_delete_Some. eauto.
  - intros range c. rewrite lookup_fmap, fmap_Some. intros (c' & Hc' & ->). apply fill_payload_ok; eauto.
  - intros range c. rewrite lookup_fmap, fmap_Some. intros (c' & Hc' & ->). apply fill_payload_requested; eauto.
Qed.

Lemma use_cached_inv env bs pid : cache_ok (block_cache env) → bs_inv bs → bs_inv (use_cached env bs pid).
Proof.
  intros He Hinv. unfold use_cached. destruct (get_cached_payload env bs pid) as [p|] eqn:Hp; [|done].
  assert (bs = set_in_flight (self_payload_requests_in_flight bs) bs) as Heq by by destruct bs.
  rewrite Heq at 2. apply fill_all_inv; [done|by eapply get_cached_payload_id|].
  pose proof (bi_in_flight _ Hinv). pose proof (in_flight_delete (self_payload_requests bs) pid). lia.
Qed.

(** * Completed ranges *)

Lemma headers_linked_lookup hs :
  headers_linked hs = true →
  ∀ i h h', hs !! i = Some h → hs !! S i = Some h' → header_get_parent_id h' = header_get_id h.
Proof.
  induction hs as [|h1 [|h2 hs] IH]; intros Hl i h h' Hi Hi'; [done|by destruct i|].
  simpl in Hl. apply andb_prop in Hl as [Hb%bool_decide_eq_true Hl].
  destruct i as [|i]; [by simplify_eq/=|]. by eapply (IH Hl i).
Qed.

Lemma verified_spec range hs :
  verified range hs ↔
  Z.of_nat (length hs) = br_num_blocks range ∧ header_get_id <$> last hs = Some (br_last_block_id range) ∧
  headers_linked hs = true.
Proof.
  unfold verified, verify_block_headers. case_bool_decide as Hlen; [by split; [|intros (? & _)]|].
  destruct (last hs) as [h|]; simpl; [|by split; [|intros (_ & ? & _)]].
  case_bool_decide as Hid; [split; [done|intros (_ & [= Heq] & _); congruence]|]. rewrite Hid.
  split; [by intros [= ->]|by intros (_ & _ & ->)].
Qed.

Lemma full_blocks_of_spec blocks :
  bodies_ok blocks → (∀ h, (h, None) ∉ blocks) →
  ∃ l, full_blocks_of blocks = Ret l ∧ fb_header <$> l = blocks.*1 ∧
    ∀ b, b ∈ l → body_get_id (fb_body b) = fb_body_id b.
Proof.
  induction blocks as [|[h [p|]] blocks IH]; intros Hb Hn; [exists []; set_solver| |].
  - assert (body_get_id p = h_block_body_id h) as Hp by by apply Hb; left.
    simpl. unfold full_block_new. rewrite bool_decide_false by congruence. simpl.
    destruct IH as (l & -> & Hl & Hbl).
    { intros h' p' Hin. apply Hb. by right. } { intros h' Hin. apply (Hn h'). by right. }
    eexists. split; [done|]. csimpl. split; [by f_equal|]. intros b [->|Hin]%elem_of_cons; [done|by apply Hbl].
  - destruct (Hn h). by left.
Qed.

Lemma verified_chain_intro range l :
  verified range (fb_header <$> l) → (∀ b, b ∈ l → body_get_id (fb_body b) = fb_body_id b) → verified_chain range l.
Proof.
  intros (Hlen & Hlast & Hlink)%verified_spec Hb. rewrite length_fmap in Hlen. constructor; [done| | |done].
  - rewrite fmap_last in Hlast. by destruct (last l).
  - intros i b b' Hi Hi'. eapply (headers_linked_lookup _ Hlink i (fb_header b) (fb_header b'));
      by rewrite list_lookup_fmap, ?Hi, ?Hi'.
Qed.

Lemma is_completed_spec c : is_completed c = true → ∀ h, (h, None) ∉ ch_blocks c.
Proof.
  unfold is_completed. rewrite forallb_forall. intros Hall h Hin%list_elem_of_In.
  by specialize (Hall _ Hin).
Qed.

Lemma set_completed_inv bs m :
  bs_inv bs → (∀ range c, m !! range = Some c → self_completed_headers_requests bs !! range = Some c) →
  bs_inv (set_completed m bs).
Proof. intros [] Hm. constructor; simpl; eauto. Qed.

Lemma completed_loop_spec ranges bs cmds :
  bs_inv bs → NoDup ranges →
  (∀ r, r ∈ ranges → ∃ c, self_completed_headers_requests bs !! r = Some c ∧ is_completed c = true) →
  Forall cmd_ok cmds → bs_spec (completed_loop ranges bs cmds).
Proof.
  revert bs cmds. induction ranges as [|r ranges IH]; intros bs cmds Hinv Hnd Hall Hcmds; simpl; [by apply bs_spec_ret|].
  apply NoDup_cons in Hnd as [Hr Hnd]. destruct (Hall r) as (c & Hc & Hcomp); [by left|]. rewrite Hc. simpl.
  pose proof (bi_completed _ Hinv _ _ Hc) as Hok.
  destruct (full_blocks_of_spec (ch_blocks c)) as (l & -> & Hl & Hb); [apply Hok|by apply is_completed_spec|]. simpl.
  apply IH; [|done| |].
  - apply set_completed_inv; [done|]. by intros ? ? [_ ?]%lookup_delete_Some.
  - intros r' Hr'. simpl. rewrite lookup_delete_ne by set_solver. apply Hall. by right.
  - apply Forall_app. split; [done|]. constructor; [|done]. simpl. destruct Hok as [Hreq Hw Hv _ _]. rewrite Hreq.
    split; [done|]. apply verified_chain_intro; [by rewrite Hl|done].
Qed.

Lemma handle_completed_ranges_spec bs : bs_inv bs → bs_spec (handle_completed_ranges bs).
Proof.
  intros Hinv. unfold handle_completed_ranges. apply completed_loop_spec; [done| | |done].
  - apply NoDup_omap_fst. apply NoDup_fst_hash_iter.
  - intros r ([r' c] & Hin%elem_of_hash_iter & Hr)%list_elem_of_omap. simpl in Hr.
    destruct (is_completed c) eqn:Hc; simplify_eq. eauto.
Qed.

(** * Initiating requests *)

Lemma next_uninitiated_Some bs pid :
  next_uninitiated bs = Some pid → self_payload_requests bs !! pid = Some None.
Proof.
  intros ([pid' o] & Hin%elem_of_hash_iter & Ho)%head_Some_elem_of%list_elem_of_omap. simpl in Ho.
  case_bool_decide; by simplify_eq.
Qed.

(** A request that is updated stays a request. *)
Lemma update_payload_inv bs pid r n :
  bs_inv bs → is_Some (self_payload_requests bs !! pid) → sr_requester r = self_request_mode bs →
  in_flight (<[pid := Some r]> (self_payload_requests bs)) <= n <= BLOCKSYNC_MAX_PAYLOAD_REQUESTS →
  bs_inv (set_in_flight n (set_self_payloads (<[pid := Some r]> (self_payload_requests bs)) bs)).
Proof.
  intros [Hh Hpm Hf Hc Hr Hs Hpa Hpe] Hpid Hmode Hn. constructor; simpl; try done.
  - intros pid' r'. rewrite lookup_insert_Some. intros [[_ [= <-]]|[_ ?]]; [done|eauto].
  - intros range c Hrange h Hin. rewrite lookup_insert. case_decide; [by eexists|]. by eapply Hr.
Qed.

Lemma initiate_loop_spec fuel bs cmds :
  bs_inv bs → Forall cmd_ok cmds →
  BLOCKSYNC_MAX_PAYLOAD_REQUESTS - self_payload_requests_in_flight bs <= Z.of_nat fuel →
  bs_spec (initiate_loop fuel bs cmds).
Proof.
  revert bs cmds. induction fuel as [|fuel IH]; intros bs cmds Hinv Hcmds Hf; simpl;
    (case_bool_decide as Hlt; simpl; [|by apply bs_spec_ret]); [lia|].
  destruct (next_uninitiated bs) as [pid|] eqn:Hn; [|by apply bs_spec_ret].
  apply next_uninitiated_Some in Hn. apply IH; [|apply Forall_app_2; [done|by repeat constructor]|simpl; lia].
  apply (update_payload_inv bs pid _ _ Hinv); [by eexists|done|].
  pose proof (bi_in_flight _ Hinv). pose proof (in_flight_insert_Some (self_payload_requests bs) pid
    (mkSelfRequest (self_request_mode bs) None)). simpl. unfold BLOCKSYNC_MAX_PAYLOAD_REQUESTS in *. lia.
Qed.

Lemma try_initiate_spec env bs :
  cache_ok (block_cache env) → bs_inv bs → bs_spec (try_initiate_payload_requests_for_self env bs).
Proof.
  intros He Hinv. unfold try_initiate_payload_requests_for_self.
  assert (∀ l, bs_inv (foldl (use_cached env) bs l)) as Hfold.
  { intros l. revert bs Hinv. induction l as [|pid l IH]; intros bs Hinv; [done|]. apply IH. by apply use_cached_inv. }
  apply bs_spec_bind.
  - apply initiate_loop_spec; [done|done|]. pose proof (bi_in_flight _ (Hfold (hash_iter (self_payload_requests bs)).*1)).
    pose proof (in_flight_nonneg (self_payload_requests (foldl (use_cached env) bs (hash_iter (self_payload_requests bs)).*1))).
    unfold BLOCKSYNC_MAX_PAYLOAD_REQUESTS in *. lia.
  - intros cmds bs1 Hinv1 Hcmds. apply bs_spec_bind; [by apply handle_completed_ranges_spec|].
    intros cmds2 bs2 Hinv2 Hcmds2. apply bs_spec_ret; [done|by apply Forall_app].
Qed.

(** * Responses to own requests *)

Lemma add_payload_requests_spec headers m :
  in_flight (add_payload_requests headers m) = in_flight m ∧
  (∀ pid r, add_payload_requests headers m !! pid = Some (Some r) → m !! pid = Some (Some r)) ∧
  (∀ pid, is_Some (m !! pid) ∨ pid ∈ h_block_body_id <$> headers → is_Some (add_payload_requests headers m !! pid)).
Proof.
  revert m. induction headers as [|h headers IH]; intros m; simpl; [split_and!; [done|done|set_solver]|].
  destruct (m !! h_block_body_id h) as [o|] eqn:Hm.
  - destruct (IH m) as (Hf & Hs & Hi). split_and!; [done|done|]. intros pid Hpid. apply Hi.
    destruct Hpid as [?|[->|?]%elem_of_cons]; [by left|by left|by right].
  - destruct (IH (<[h_block_body_id h := None]> m)) as (Hf & Hs & Hi).
    split_and!; [by rewrite Hf, in_flight_insert_None| |].
    + intros pid r Hr%Hs. by apply lookup_insert_Some in Hr as [[_ ?]|[_ ?]].
    + intros pid Hpid. apply Hi. rewrite lookup_insert. case_decide; [left; by eexists|].
      destruct Hpid as [?|[->|?]%elem_of_cons]; [by left|done|by right].
Qed.

Lemma set_rng_inv g bs : bs_inv bs → bs_inv (set_rng g bs).
Proof. by intros []. Qed.

Lemma update_header_inv bs range requester to :
  bs_inv bs → requester = self_request_mode bs → is_Some (self_headers_requests bs !! range) →
  bs_inv (set_self_headers (<[range := mkSelfRequest requester to]> (self_headers_requests bs)) bs).
Proof.
  intros [Hh Hpm Hf Hc Hr Hs Hpa Hpe] -> [r' Hr']. constructor; simpl; try done.
  intros range' r. rewrite lookup_insert_Some. intros [[<- <-]|[_ ?]]; [|eauto]. split; [done|]. by apply (Hh _ _ Hr').
Qed.

Lemma found_headers_inv bs range headers :
  bs_inv bs → is_Some (self_headers_requests bs !! range) → verified range headers →
  let completed := mkSelfCompletedHeader (self_request_mode bs) (map (λ block, (block, None)) headers) ∅ in
  bs_inv (set_completed (<[range := completed]> (self_completed_headers_requests bs))
    (set_self_payloads (add_payload_requests headers (self_payload_requests bs))
      (set_self_headers (delete range (self_headers_requests bs)) bs))).
Proof.
  intros [Hh Hpm Hf Hc Hr Hs Hpa Hpe] [r Hrange] Hv.
  destruct (add_payload_requests_spec headers (self_payload_requests bs)) as (Haf & Has & Hai).
  constructor; simpl; try done.
  - intros range' r' [_ ?]%lookup_delete_Some. eauto.
  - intros pid r' ?%Has. eauto.
  - by rewrite Haf.
  - intros range' c. rewrite lookup_insert_Some. intros [[<- <-]|[_ ?]]; [|eauto].
    constructor; simpl; [done|by apply (Hh _ _ Hrange)| | |done].
    + rewrite <-list_fmap_compose. simpl. by rewrite list_fmap_id.
    + by intros h p (? & [= -> ?] & _)%list_elem_of_fmap.
  - intros range' c. rewrite lookup_insert_Some. intros [[<- <-]|[_ Hc']] h Hin; apply Hai.
    + right. apply list_elem_of_fmap in Hin as (h' & [= ->] & Hin). by apply list_elem_of_fmap_2.
    + left. by eapply Hr.
Qed.

(** The part of a handler before it starts more payload requests. *)
Lemma then_initiate env m :
  cache_ok (block_cache env) → bs_spec m →
  bs_spec ('(cmds, bs) ← m; '(cmds', bs) ← try_initiate_payload_requests_for_self env bs; Ret (cmds ++ cmds', bs)).
Proof.
  intros He Hm. apply bs_spec_bind; [done|]. intros cmds bs Hinv Hcmds. apply bs_spec_bind; [by apply try_initiate_spec|].
  intros cmds' bs' Hinv' Hcmds'. apply bs_spec_ret; [done|by apply Forall_app].
Qed.

Lemma verify_block_headers_total range headers :
  br_num_blocks range ≠ 0 → ∃ b, verify_block_headers range headers = Ret b.
Proof.
  intros Hn. unfold verify_block_headers. case_bool_decide as Hlen; [by eexists|].
  destruct headers as [|h headers]; [simpl in *; lia|]. destruct (last (h :: headers)) eqn:Hl; [|by apply last_None in Hl].
  simpl. case_bool_decide; by eexists.
Qed.

Lemma headers_response_spec env bs sender response :
  env_ok env → bs_inv bs →
  (∀ range headers, sender = None → response = HR_Found range headers → verified range headers) →
  bs_spec (handle_headers_response_for_self env bs sender response).
Proof.
  intros [He Hp] Hinv Hledger. unfold handle_headers_response_for_self.
  destruct (self_headers_requests bs !! get_block_range response) as [r|] eqn:Hr; [|by apply bs_spec_ret].
  apply then_initiate; [done|]. destruct (bi_headers _ Hinv _ _ Hr) as (Hmode & Hnum & _).
  destruct response as [range headers|range]; simpl in *.
  - rewrite (bool_decide_true _ Hmode). simpl. destruct (verify_block_headers_total range headers Hnum) as [b Hb]. rewrite Hb.
    destruct b; simpl.
    + apply bs_spec_ret; [by apply found_headers_inv|]. destruct (bool_decide _); by repeat constructor.
    + destruct sender as [n|]; simpl; [by apply bs_spec_ret|].
      specialize (Hledger _ _ eq_refl eq_refl). unfold verified in Hledger. congruence.
  - case_bool_decide; [by apply bs_spec_ret|]. destruct (negb _); [by apply bs_spec_ret|].
    destruct (request_peer_ok env bs (BSR_Headers range) Hp (bi_peers _ Hinv)) as (to & g & ->). simpl.
    apply bs_spec_ret; [|by repeat constructor]. by apply (update_header_inv (set_rng g bs)); [apply set_rng_inv|..|eexists].
Qed.

Lemma payload_response_spec env bs sender response :
  env_ok env → bs_inv bs → bs_spec (handle_payload_response_for_self env bs sender response).
Proof.
  intros [He Hp] Hinv. unfold handle_payload_response_for_self.
  destruct (self_payload_requests bs !! get_payload_id response) as [[r|]|] eqn:Hr; [|by apply bs_spec_ret..].
  apply bs_spec_bind.
  - pose proof (bi_payload_mode _ Hinv _ _ Hr) as Hmode. pose proof (bi_in_flight _ Hinv) as Hf.
    destruct response as [p|pid]; simpl in *.
    + rewrite (bool_decide_true _ Hmode). simpl. pose proof (in_flight_delete_Some _ _ _ Hr) as Hd.
      pose proof (in_flight_nonneg (delete (body_get_id p) (self_payload_requests bs))).
      rewrite (proj2 (checked_sub_Ret _ _ _) (conj eq_refl (ltac:(lia) : 1 <= self_payload_requests_in_flight bs))).
      simpl. apply bs_spec_ret; [|destruct (bool_decide _); by repeat constructor].
      apply (fill_all_inv bs (body_get_id p) p); [done|done|lia].
    + case_bool_decide; [by apply bs_spec_ret|]. destruct (negb _); [by apply bs_spec_ret|].
      destruct (request_peer_ok env bs (BSR_Payload pid) Hp (bi_peers _ Hinv)) as (to & g & ->). simpl.
      apply bs_spec_ret; [|by repeat constructor].
      apply (update_payload_inv (set_rng g bs) pid _ (self_payload_requests_in_flight bs));
        [by apply set_rng_inv|by eexists|done|]. simpl. by rewrite (in_flight_update _ _ _ _ Hr).
  - intros cmds bs1 Hinv1 Hcmds1. apply bs_spec_bind; [by apply handle_completed_ranges_spec|].
    intros cmds2 bs2 Hinv2 Hcmds2. apply bs_spec_bind; [by apply try_initiate_spec|].
    intros cmds3 bs3 Hinv3 Hcmds3. apply bs_spec_ret; [done|]. by repeat apply Forall_app_2.
Qed.

Lemma timeout_spec env bs request : env_ok env → bs_inv bs → bs_spec (handle_timeout env bs request).
Proof.
  intros [He Hp] Hinv. unfold handle_timeout.
  destruct (request_peer_ok env bs request Hp (bi_peers _ Hinv)) as (to & g & Hreq). destruct request as [range|pid].
  - destruct (self_headers_requests bs !! range) as [[requester [n|]]|] eqn:Hr; [|by apply bs_spec_ret..].
    destruct (bi_headers _ Hinv _ _ Hr) as (Hmode & _). simpl in Hmode. rewrite Hreq. simpl.
    apply bs_spec_ret; [|by repeat constructor]. by apply (update_header_inv (set_rng g bs)); [apply set_rng_inv|..|eexists].
  - destruct (self_payload_requests bs !! pid) as [[[requester [n|]]|]|] eqn:Hr; [|by apply bs_spec_ret..].
    pose proof (bi_payload_mode _ Hinv _ _ Hr) as Hmode. pose proof (bi_in_flight _ Hinv) as Hf. rewrite Hreq. simpl.
    apply bs_spec_ret; [|by repeat constructor].
    apply (update_payload_inv (set_rng g bs) pid _ (self_payload_requests_in_flight bs));
      [by apply set_rng_inv|by eexists|done|]. simpl. by rewrite (in_flight_update _ _ _ _ Hr).
Qed.

(** * Serving peers *)

Lemma headers_linked_cons h hs :
  (∀ h', head hs = Some h' → header_get_parent_id h' = header_get_id h) → headers_linked hs = true →
  headers_linked (h :: hs) = true.
Proof.
  intros Hh Hl. destruct hs as [|h' hs]; [done|]. change (bool_decide (header_get_id h = header_get_parent_id h') &&
    headers_linked (h' :: hs) = true). rewrite Hl, andb_true_r. apply bool_decide_eq_true. symmetry. by apply Hh.
Qed.

Lemma headers_linked_tail h hs : headers_linked (h :: hs) = true → headers_linked hs = true.
Proof. destruct hs as [|h' hs]; [done|]. intros [_ ?]%andb_prop. done. Qed.

Lemma headers_linked_drop n hs : headers_linked hs = true → headers_linked (drop n hs) = true.
Proof.
  revert n. induction hs as [|h hs IH]; intros n Hl; [by destruct n|]. destruct n as [|n]; [done|].
  apply IH. by eapply headers_linked_tail.
Qed.

Lemma headers_linked_app l1 l2 :
  headers_linked l1 = true → headers_linked l2 = true →
  (∀ a b, last l1 = Some a → head l2 = Some b → header_get_parent_id b = header_get_id a) →
  headers_linked (l1 ++ l2) = true.
Proof.
  induction l1 as [|h l1 IH]; intros Hl1 Hl2 Hj; [done|]. simpl. apply headers_linked_cons.
  - intros h' Hh'. destruct l1 as [|h1 l1]; [by apply Hj|]. injection Hh' as <-.
    apply andb_prop in Hl1 as [Hb%bool_decide_eq_true _]. done.
  - apply IH; [by eapply headers_linked_tail|done|]. intros a b Ha Hb. apply Hj; [|done].
    by destruct l1.
Qed.

Lemma take_last_drop {A} n (l : list A) : take_last n l = drop (length l - n) l.
Proof. unfold take_last. by rewrite take_reverse, reverse_involutive. Qed.

Lemma last_drop_ne {A} n (l : list A) : drop n l ≠ [] → last (drop n l) = last l.
Proof.
  intros Hne. rewrite <-(take_drop n l) at 2. rewrite last_app.
  destruct (last (drop n l)) eqn:Hl; [done|by apply last_None in Hl].
Qed.

Lemma chain_loop_spec bt fuel b acc rest :
  bt_inv bt → reverse acc = b :: rest → headers_linked (map vb_header (reverse acc)) = true →
  (below (shape bt) (vb_block_round b) <= fuel)%nat →
  (∃ e, bt_entries bt !! vb_id b = Some e ∧ validated_block e = b) →
  ∃ chain l, chain_loop fuel bt b acc = Ret chain ∧ reverse chain = l ++ reverse acc ∧
    headers_linked (map vb_header (reverse chain)) = true.
Proof.
  intros Hbt. revert b acc rest. induction fuel as [|fuel IH]; intros b acc rest Hacc Hl Hf (e & He & Hb); simpl;
    (destruct (bt_entries bt !! vb_parent_id b) as [p|] eqn:Hp; [|by exists acc, []]);
    pose proof (shape_lookup_entry _ _ _ He) as Hs; pose proof (shape_lookup_entry _ _ _ Hp) as Hsp; rewrite Hb in Hs;
    pose proof (parent_below bt (bi_shape _ Hbt) _ _ _ _ _ Hs Hsp) as Hlt; [lia|].
  pose proof (ti_key _ (bi_tree _ Hbt) _ _ Hp) as Hkey.
  destruct (IH (validated_block p) (acc ++ [validated_block p]) (b :: rest)) as (chain & l & Hc & Hr & Hlink).
  - by rewrite reverse_app, Hacc.
  - rewrite reverse_app. simpl. rewrite Hacc in Hl |- *. apply headers_linked_cons; [|done].
    intros h [= <-]. symmetry. exact Hkey.
  - lia.
  - exists p. rewrite Hkey. done.
  - exists chain, (l ++ [validated_block p]). split_and!; [done| |done].
    by rewrite Hr, reverse_app, <-(assoc_L (++)).
Qed.

Lemma get_parent_block_chain_spec bt id :
  bt_inv bt → ∃ chain, get_parent_block_chain bt id = Ret chain ∧ headers_linked (map vb_header chain) = true ∧
    (chain ≠ [] → header_get_id <$> last (map vb_header chain) = Some id).
Proof.
  intros Hbt. unfold get_parent_block_chain. destruct (bt_entries bt !! id) as [e|] eqn:He; [|by exists []].
  pose proof (ti_key _ (bi_tree _ Hbt) _ _ He) as Hkey. pose proof (shape_lookup_entry _ _ _ He) as Hs.
  destruct (chain_loop_spec bt (size (bt_entries bt)) (validated_block e) [validated_block e] [])
    as (chain & l & -> & Hr & Hl); [done..| | |].
  - rewrite <-size_shape. pose proof (below_size _ _ _ _ Hs). lia.
  - exists e. by rewrite Hkey.
  - exists (reverse chain). split; [done|]. split; [done|]. intros _. rewrite Hr.
    rewrite map_app. simpl. rewrite last_snoc. simpl. f_equal. exact Hkey.
Qed.

Lemma cached_headers_spec env range :
  cache_ok (block_cache env) → 0 < br_num_blocks range →
  ∃ cached,
    match block_cache env with
    | BC_BlockTree blocktree =>
        chain ← get_parent_block_chain blocktree (br_last_block_id range);
        Ret (take_last (Z.to_nat (br_num_blocks range)) (map vb_header chain))
    | BC_BlockBuffer _ => Ret []
    end = Ret cached ∧ headers_linked cached = true ∧ Z.of_nat (length cached) <= br_num_blocks range ∧
    (cached ≠ [] → header_get_id <$> last cached = Some (br_last_block_id range)).
Proof.
  intros Hc Hn. destruct (block_cache env) as [bt|m]; [|exists []; split_and!; [done|done|simpl; lia|done]].
  destruct Hc as [Hbt _]. destruct (get_parent_block_chain_spec bt (br_last_block_id range) Hbt) as (chain & -> & Hl & Hlast).
  simpl. eexists. split; [done|]. rewrite take_last_drop. split; [by apply headers_linked_drop|].
  rewrite length_drop, length_map. split; [lia|]. intros Hne. rewrite last_drop_ne by done.
  apply Hlast. intros ->. by destruct (Z.to_nat _).
Qed.

Lemma peer_request_spec env bs sender request :
  cache_ok (block_cache env) → bs_inv bs → asked sender request →
  (∀ range, request = BSR_Headers range → is_u64 (br_num_blocks range)) →
  bs_spec (handle_peer_request env bs sender request).
Proof.
  intros Hc Hinv Hasked Hu. unfold handle_peer_request. destruct request as [range|pid].
  - specialize (Hu _ eq_refl). unfold is_u64 in Hu. case_bool_decide as Hz; [by apply bs_spec_ret|].
    destruct (cached_headers_spec env range Hc ltac:(lia)) as (cached & -> & Hl & Hlen & Hlast). simpl.
    case_bool_decide as Hall.
    + assert (cached ≠ []) as Hne by (intros ->; simpl in *; lia). specialize (Hlast Hne).
      rewrite bool_decide_true by done. simpl. apply bs_spec_ret; [done|].
      constructor; [|done]. split; [done|]. by apply verified_spec.
    + rewrite (proj2 (seq_num_sub_Ret _ _ _) (conj eq_refl Hlen)). simpl. apply bs_spec_ret; [|by repeat constructor].
      set (range' := mkBlockRange _ _).
      assert (serving range' sender cached) as Hserv.
      { split_and!; simpl; [lia|lia|done|by intros h ->|].
        replace (br_num_blocks range - Z.of_nat (length cached) + Z.of_nat (length cached)) with (br_num_blocks range) by lia.
        destruct range as [id num]; simpl in *. destruct (last cached) as [h|] eqn:Hh.
        - specialize (Hlast ltac:(by intros ->)). by injection Hlast as ->.
        - by apply last_None in Hh as ->. }
      destruct Hinv as [Hh Hpm Hf Hcm Hr Hs Hpa Hpe]. constructor; simpl; try done.
      intros range1 m n cached1. rewrite lookup_insert_Some. intros [[<- <-]|[_ Hm]]; [|by eapply Hs].
      rewrite lookup_insert_Some. intros [[<- <-]|[_ Hm]]; [done|].
      destruct (headers_requests bs !! range') as [m'|] eqn:Hm'; simpl in Hm; [by eapply Hs|by rewrite lookup_empty in Hm].
  - destruct (get_cached_payload env bs pid) as [p|] eqn:Hp.
    + apply bs_spec_ret; [done|]. constructor; [|done]. simpl. by rewrite (get_cached_payload_id env bs pid p).
    + apply bs_spec_ret; [|by repeat constructor]. destruct Hinv as [Hh Hpm Hf Hcm Hr Hs Hpa Hpe]. constructor; simpl; try done.
      intros pid1 m n. rewrite lookup_insert_Some. intros [[<- <-]|[_ Hm]]; [|by eapply Hpa].
      rewrite lookup_insert. case_decide; [by subst|]. intros Hm.
      destruct (payload_requests bs !! pid) as [m'|] eqn:Hm'; simpl in Hm; [by eapply Hpa|].
      rewrite lookup_empty in Hm. by destruct Hm.
Qed.

Lemma respond_headers_spec range response requesters :
  get_block_range response = range →
  (∀ range headers, response = HR_Found range headers → verified range headers) →
  Forall (λ nc : NodeId * list ConsensusBlockHeader, serving range nc.1 nc.2) requesters →
  ∃ cmds, respond_headers range response requesters = Ret cmds ∧ Forall cmd_ok cmds.
Proof.
  intros Hrange Hv Hall. induction Hall as [|[n cached] l (Hpos & Hlen & Hl & Hh & Ha) Hall IH]; simpl in *; [by exists []|].
  destruct IH as (cmds & -> & Hcmds). rewrite (proj2 (seq_num_add_Ret _ _ _) (conj eq_refl Hlen)). simpl.
  destruct response as [range' headers|range']; simpl in Hrange; subst; simpl; [|eexists; by split; [|constructor]].
  specialize (Hv _ _ eq_refl). apply verified_spec in Hv as (Hvlen & Hvlast & Hvl).
  assert (headers_linked (headers ++ cached) = true) as Hlink.
  { apply headers_linked_app; [done|done|]. intros a b Ha' Hb. rewrite (Hh b Hb). rewrite Ha' in Hvlast. by injection Hvlast. }
  rewrite Hlink. simpl. eexists. split; [done|]. constructor; [|done]. split; [done|]. apply verified_spec. simpl.
  split_and!; [rewrite length_app; lia| |done]. rewrite last_app. destruct (last cached); [done|exact Hvlast].
Qed.

Lemma ledger_response_spec env bs response :
  env_ok env → bs_inv bs →
  (∀ range headers, response = BSR_HeadersResponse (HR_Found range headers) → verified range headers) →
  bs_spec (handle_ledger_response env bs response).
Proof.
  intros He Hinv Hv. unfold handle_ledger_response. destruct response as [response|response].
  - set (requesters := default ∅ (headers_requests bs !! get_block_range response)).
    destruct (respond_headers_spec (get_block_range response) response (btree_iter requesters)) as (cmds & -> & Hcmds);
      [done|by intros ? ? ->; eapply Hv| |].
    { apply Forall_forall. intros [n cached] Hin%elem_of_btree_iter. simpl. unfold requesters in Hin.
      destruct (headers_requests bs !! _) as [m|] eqn:Hm; simpl in Hin; [by eapply bi_serving|by rewrite lookup_empty in Hin]. }
    simpl. apply bs_spec_bind.
    + apply headers_response_spec; [done| |by intros ? ? _ ->; eapply Hv].
      destruct Hinv as [Hh Hpm Hf Hcm Hr Hs Hpa Hpe]. constructor; simpl; try done.
      intros range m n cached [_ ?]%lookup_delete_Some. by eapply Hs.
    + intros cmds' bs' Hinv' Hcmds'. apply bs_spec_ret; [done|by apply Forall_app].
  - apply bs_spec_bind.
    + apply payload_response_spec; [done|]. destruct Hinv as [Hh Hpm Hf Hcm Hr Hs Hpa Hpe]. constructor; simpl; try done.
      intros pid m n [_ ?]%lookup_delete_Some. by eapply Hpa.
    + intros cmds' bs' Hinv' Hcmds'. apply bs_spec_ret; [done|]. apply Forall_app. split; [|done].
      apply Forall_forall. intros c (n & -> & Hn%elem_of_btree_keys)%list_elem_of_fmap. simpl.
      destruct (payload_requests bs !! _) as [m|] eqn:Hm; simpl in Hn; [by eapply (bi_payload_asked _ Hinv)|].
      rewrite lookup_empty in Hn. by destruct Hn.
Qed.

Lemma self_request_inv bs requester range :
  bs_inv bs → wanted requester range → bs_inv (handle_self_request bs requester range).2.
Proof.
  intros Hinv Hw. unfold handle_self_request. case_bool_decide as Hz; [done|].
  set (bs1 := if bool_decide (requester ≠ _) then _ else bs). assert (bs_inv bs1 ∧ self_request_mode bs1 = requester) as [Hinv1 Hmode].
  { unfold bs1. case_bool_decide as Hm; [|by split]. split; [|done].
    destruct Hinv as [Hh Hpm Hf Hcm Hr Hs Hpa Hpe]. constructor; simpl; try done. }
  destruct (self_request_exists bs1 range); [done|]. destruct Hinv1 as [Hh Hpm Hf Hcm Hr Hs Hpa Hpe].
  constructor; simpl; try done. intros range' r. rewrite lookup_insert_Some. intros [[<- <-]|[_ ?]]; [|eauto].
  by rewrite Hmode.
Qed.

Lemma self_cancel_inv bs requester range : bs_inv bs → bs_inv (handle_self_cancel_request bs requester range).
Proof.
  intros Hinv. unfold handle_self_cancel_request.
  assert (∀ bs1, bs_inv bs1 →
    bs_inv (match self_completed_headers_requests bs1 !! range with
            | Some entry => if bool_decide (ch_requester entry = requester)
                            then set_completed (delete range (self_completed_headers_requests bs1)) bs1 else bs1
            | None => bs1
            end)) as Hcomp.
  { intros bs1 Hinv1. destruct (self_completed_headers_requests bs1 !! range); [|done]. case_bool_decide; [|done].
    apply set_completed_inv; [done|]. by intros ? ? [_ ?]%lookup_delete_Some. }
  apply Hcomp. clear Hcomp. destruct (self_headers_requests bs !! range); [|done]. case_bool_decide; [|done].
  destruct Hinv as [Hh Hpm Hf Hcm Hr Hs Hpa Hpe]. constructor; simpl; try done.
  intros range' r' [_ ?]%lookup_delete_Some. eauto.
Qed.

(** The ledger answers with the range it was asked for. *)
Definition ledger_ok (response : BlockSyncResponseMessage) : Prop :=
  match response with BSR_HeadersResponse (HR_Found range headers) => verified range headers | _ => True end.

Definition event_ok (event : BlockSyncEvent) : Prop :=
  match event with
  | BSE_Request sender request =>
      asked sender request ∧ match request with BSR_Headers range => is_u64 (br_num_blocks range) | _ => True end
  | BSE_SelfRequest requester range => wanted requester range
  | BSE_SelfResponse response => ledger_ok response
  | _ => True
  end.

Lemma block_sync_update_spec env bs event :
  env_ok env → bs_inv bs → event_ok event → bs_spec (block_sync_update env bs event).
Proof.
  intros He Hinv Hev. destruct event as [sender request|requester range|requester range|response|sender response|request]; simpl in *.
  - apply peer_request_spec; [apply He|done|tauto|]. intros range ->. tauto.
  - destruct (handle_self_request bs requester range) as [cmds bs'] eqn:Hs. apply bs_spec_ret.
    + change bs' with (cmds, bs').2. rewrite <-Hs. by apply self_request_inv.
    + unfold handle_self_request in Hs. repeat case_match; simplify_eq; by repeat constructor.
  - apply bs_spec_ret; [by apply self_cancel_inv|done].
  - apply ledger_response_spec; [done|done|]. by intros range headers ->.
  - destruct response; simpl; [by apply headers_response_spec|by apply payload_response_spec].
  - by apply timeout_spec.
Qed.

(** * Runs *)

(** Events, and a change of the configured peers. *)
Inductive BlockSyncInput :=
| BSI_Event (event : BlockSyncEvent)
| BSI_OverridePeers (peers : list NodeId).

Definition input_ok (i : BlockSyncInput) : Prop :=
  match i with BSI_Event event => event_ok event | BSI_OverridePeers _ => True end.

Fixpoint block_sync_run bs (inputs : list (BlockSyncEnv (VT := VT) * BlockSyncInput)) :
    exec (list BlockSyncCommand * BlockSync) :=
  match inputs with
  | [] => Ret ([], bs)
  | (env, BSI_OverridePeers peers) :: inputs => block_sync_run (set_override_peers bs peers) inputs
  | (env, BSI_Event event) :: inputs =>
      '(cmds, bs) ← block_sync_update env bs event;
      '(cmds', bs) ← block_sync_run bs inputs;
      Ret (cmds ++ cmds', bs)
  end.

Lemma block_sync_run_spec bs inputs :
  bs_inv bs → Forall (λ ei, env_ok ei.1 ∧ input_ok ei.2) inputs → bs_spec (block_sync_run bs inputs).
Proof.
  intros Hinv Hall. revert bs Hinv. induction Hall as [|[env i] inputs [He Hi] Hall IH]; intros bs Hinv; simpl;
    [by apply bs_spec_ret|]. destruct i as [event|peers]; simpl in *.
  - apply bs_spec_bind; [by apply block_sync_update_spec|]. intros cmds bs1 Hinv1 Hcmds.
    apply bs_spec_bind; [by apply IH|]. intros cmds2 bs2 Hinv2 Hcmds2. apply bs_spec_ret; [done|by apply Forall_app].
  - apply IH. destruct Hinv as [Hh Hpm Hf Hcm Hr Hs Hpa Hpe]. constructor; simpl; try done. apply NoDup_unique.
Qed.

Lemma block_sync_new_inv peers : NoDup peers → bs_inv (block_sync_new peers).
Proof. intros Hnd. by constructor; simpl. Qed.
End props.

(** * Properties *)

Section runs.
Context `{BP : BlockPolicy} {VT : Type}.
Implicit Types (inputs : list (BlockSyncEnv (VT := VT) * BlockSyncInput)).

Definition asked_in inputs (n : NodeId) (request : BlockSyncRequestMessage) : Prop :=
  ∃ env, (env, BSI_Event (BSE_Request n request)) ∈ inputs.
Definition wanted_in inputs (requester : BlockSyncSelfRequester) (range : BlockRange) : Prop :=
  ∃ env, (env, BSI_Event (BSE_SelfRequest requester range)) ∈ inputs.

(** Counts in messages are 64 bits wide, and the ledger answers with the range it
    was asked for. Nothing is said of what peers answer. *)
Definition input_fits (i : BlockSyncInput) : Prop :=
  match i with
  | BSI_Event (BSE_Request _ (BSR_Headers range)) => is_u64 (br_num_blocks range)
  | BSI_Event (BSE_SelfResponse response) => ledger_ok response
  | _ => True
  end.

Lemma input_fits_ok inputs env i :
  (env, i) ∈ inputs → input_fits i → input_ok (asked_in inputs) (wanted_in inputs) i.
Proof.
  intros Hin Hi. destruct i as [[? []| | | | |]|]; simpl in *; unfold asked_in, wanted_in; eauto.
Qed.
End runs.

(** C29. Block sync is safe against its peers. Whatever requests, answers and
    timeouts arrive, in any order and from anyone, it does not panic; every
    range it hands to consensus or to state sync was asked for by it, and is a
    chain of exactly the blocks of the range, each with the payload its header
    names; every answer to a peer is to a request of that peer, and headers in
    it pass the peer's own verification; at most ten payload requests are
    counted in flight; and every payload missing from a range whose headers are
    known has a request. *)
Theorem block_sync_correct `{BP : BlockPolicy} `{HashOrder} `{R : Rng} `{!RngLaws} {VT : Type} `{ValidatorSetType VT}
    (peers : list NodeId) (inputs : list (BlockSyncEnv (VT := VT) * BlockSyncInput))
    (Hpeers : NoDup peers) (Henv : Forall (λ ei, env_ok ei.1) inputs) (Hinputs : Forall (λ ei, input_fits ei.2) inputs) :
  ∃ cmds bs, block_sync_run (block_sync_new peers) inputs = Ret (cmds, bs) ∧
    Forall (cmd_ok (asked_in inputs) (wanted_in inputs)) cmds ∧
    0 <= self_payload_requests_in_flight bs <= BLOCKSYNC_MAX_PAYLOAD_REQUESTS ∧
    ∀ range c h, self_completed_headers_requests bs !! range = Some c → (h, None) ∈ ch_blocks c →
      is_Some (self_payload_requests bs !! h_block_body_id h).
Proof.
  destruct (block_sync_run_spec (asked_in inputs) (wanted_in inputs) (block_sync_new peers) inputs) as (cmds & bs & Hr & Hinv & Hc).
  - by apply block_sync_new_inv.
  - apply Forall_forall. intros [env i] Hin. rewrite Forall_forall in Henv, Hinputs.
    split; [by apply (Henv _ Hin)|]. eapply input_fits_ok; [done|]. by apply (Hinputs _ Hin).
  - exists cmds, bs. split_and!; [done|done|..].
    + pose proof (bi_in_flight _ _ _ Hinv). pose proof (in_flight_nonneg (self_payload_requests bs)). lia.
    + apply (bi_in_flight _ _ _ Hinv).
    + intros range c h Hr' Hh. by eapply (bi_requested _ _ _ Hinv).
Qed.

(** ** Concrete runs *)

Section witnesses.
#[local] Existing Instances NopProtocol map_order.
#[local] Instance nop_policy : @BlockPolicy NopProtocol := PassthruBlockPolicy.

#[local] Instance fixed_rng : Rng :=
  {| rng_state := unit; rng_choose g _ := (0%nat, g); rng_gen g := (0, g); rng_seed := tt; rng_fuel := 1 |}.
#[local] Instance fixed_rng_laws : RngLaws.
Proof.
  constructor; simpl; [lia|]. intros g m Hm. exists 0%nat. split_and!; [lia|lia|].
  unfold randomize_256_max, u256_max in *. pose proof (Z.mod_pos_bound ((2 ^ 256 - 1 - m + 1) mod 2 ^ 256) m). lia.
Qed.

Definition bs_body (n : Z) : ConsensusBlockBody := mkBody (P := NopProtocol) [n].
Definition bs_header (n : Z) (parent : BlockId) : ConsensusBlockHeader :=
  let h := nop_header n n (nop_qc (n - 1) parent) in
  @mkHeader NopProtocol (h_block_round h) (h_epoch h) (h_qc h) (h_author h) (h_seq_num h) (h_timestamp_ns h)
    (h_round_signature h) (h_delayed_execution_results h) (h_execution_inputs h) (body_get_id (bs_body n)).

(** Headers of rounds [n], [n + 1], ... *)
Fixpoint bs_chain (n : Z) (parent : BlockId) (k : nat) {struct k} : list ConsensusBlockHeader :=
  match k with
  | O => []
  | S k => let h := bs_header n parent in h :: bs_chain (n + 1) (header_get_id h) k
  end.
Definition bs_range (hs : list ConsensusBlockHeader) : BlockRange :=
  mkBlockRange (default 0 (header_get_id <$> last hs)) (Z.of_nat (length hs)).

Definition bs_env (c : BlockCache) : BlockSyncEnv :=
  mkBlockSyncEnv c 1 1 (mkValidatorsEpochMapping {[ 1 := (four_validators, mkValidatorMapping ∅) ]}).

Lemma bs_env_ok c : cache_ok c → env_ok (bs_env c).
Proof.
  intros Hc. constructor; [done|]. exists four_validators. split; [reflexivity|].
  split; [vm_decide|]. split; [vm_decide|]. exists 2, 1. split; [reflexivity|]. split; [discriminate 1|lia].
Qed.

(** The node misses two blocks: its ledger does not have them, a peer sends wrong
    headers first, and another the right ones. *)
Definition bs_two : list ConsensusBlockHeader := bs_chain 7 42 2.
Definition bs_events : list BlockSyncEvent :=
  [BSE_SelfRequest RequesterConsensus (bs_range bs_two);
   BSE_Request 3 (BSR_Headers (bs_range bs_two));
   BSE_SelfResponse (BSR_HeadersResponse (HR_NotAvailable (bs_range bs_two)));
   BSE_Response 2 (BSR_HeadersResponse (HR_Found (bs_range bs_two) (bs_chain 7 43 2)));
   BSE_Timeout (BSR_Headers (bs_range bs_two));
   BSE_Response 2 (BSR_HeadersResponse (HR_Found (bs_range bs_two) bs_two));
   BSE_SelfResponse (BSR_PayloadResponse (BR_Found (bs_body 7)));
   BSE_SelfResponse (BSR_PayloadResponse (BR_NotAvailable (body_get_id (bs_body 8))));
   BSE_Response 4 (BSR_PayloadResponse (BR_Found (bs_body 8)))].
Definition bs_inputs : list (BlockSyncEnv * BlockSyncInput) :=
  map (λ e, (bs_env (BC_BlockBuffer ∅), BSI_Event e)) bs_events.

(** The full blocks emitted for a range. *)
Definition emitted (range : BlockRange) (cmds : list BlockSyncCommand) : list ConsensusFullBlock :=
  concat (map (λ c, match c with
                    | BSC_Emit _ range' blocks => if bool_decide (range' = range) then blocks else []
                    | _ => []
                    end) cmds).

Lemma block_sync_correct_witness :
  ∃ cmds bs, block_sync_run (block_sync_new [1; 3]) bs_inputs = Ret (cmds, bs) ∧
    length (emitted (bs_range bs_two) cmds) = 2%nat ∧
    Forall (cmd_ok (asked_in bs_inputs) (wanted_in bs_inputs)) cmds.
Proof.
  destruct (ret_with_spec (λ cb : list BlockSyncCommand * BlockSync,
      bool_decide (length (emitted (bs_range bs_two) cb.1) = 2%nat))
    (block_sync_run (block_sync_new [1; 3]) bs_inputs)) as ([cmds bs] & Hrun & Hem); [vm_compute; reflexivity|].
  destruct (block_sync_correct (VT := ValidatorSet) [1; 3] bs_inputs) as (cmds' & bs' & Hrun' & Hc & _).
  - vm_decide.
  - apply Forall_forall. intros ei (e & -> & _)%list_elem_of_fmap. apply bs_env_ok. intros pid p.
    rewrite lookup_empty. discriminate 1.
  - repeat constructor; simpl; try exact I; vm_decide.
  - rewrite Hrun in Hrun'. injection Hrun' as <- <-. exists cmds, bs. split; [exact Hrun|].
    split; [|exact Hc]. apply bool_decide_eq_true in Hem. exact Hem.
Defined.

(** Ten blocks reach the block tree while their payloads are being fetched. *)
Definition leak_headers : list ConsensusBlockHeader := bs_chain 7 42 10.
Definition leak_next : list ConsensusBlockHeader :=
  bs_chain 17 (default 0 (header_get_id <$> last leak_headers)) 1.
Definition leak_tree : exec BlockTree :=
  foldl (λ bt h, bt ← bt; block_tree_add bt (mkFullBlock h (bs_body (h_block_round h))))
    (Ret (block_tree_new (mkRootInfo 0 0 1 GENESIS_BLOCK_ID 0))) leak_headers.

Definition leak_run : exec (list BlockSyncCommand * BlockSync) :=
  blocktree ← leak_tree;
  let env := bs_env (BC_BlockTree blocktree) in
  '(_, bs) ← block_sync_run (block_sync_new []) (map (λ e, (bs_env (BC_BlockBuffer ∅), BSI_Event e))
    [BSE_SelfRequest RequesterConsensus (bs_range leak_headers);
     BSE_SelfResponse (BSR_HeadersResponse (HR_Found (bs_range leak_headers) leak_headers))]);
  '(_, bs) ← block_sync_run bs
    [(env, BSI_Event (BSE_SelfResponse (BSR_PayloadResponse (BR_NotAvailable (body_get_id (bs_body 7))))))];
  block_sync_run bs (map (λ e, (env, BSI_Event e))
    [BSE_SelfRequest RequesterConsensus (bs_range leak_next);
     BSE_SelfResponse (BSR_HeadersResponse (HR_Found (bs_range leak_next) leak_next))]).

Definition fetched (cmds : list BlockSyncCommand) : list Z :=
  omap (λ c, match c with BSC_FetchPayload pid => Some pid | _ => None end) cmds.

(** Requests in flight are forgotten without being uncounted when their
    payloads turn up in the block tree. After ten of them the counter stays at its
    limit with no request outstanding: the headers of a further block arrive,
    its payload is needed, and no request for it is made. *)
Example in_flight_leak :
  ∃ cmds bs, leak_run = Ret (cmds, bs) ∧ fetched cmds = [] ∧
    self_payload_requests bs = {[ body_get_id (bs_body 17) := None ]} ∧
    self_payload_requests_in_flight bs = BLOCKSYNC_MAX_PAYLOAD_REQUESTS.
Proof.
  destruct (ret_with_spec (λ cb : list BlockSyncCommand * BlockSync,
    bool_decide (fetched cb.1 = []) && bool_decide (self_payload_requests cb.2 = {[ body_get_id (bs_body 17) := None ]}) &&
    bool_decide (self_payload_requests_in_flight cb.2 = BLOCKSYNC_MAX_PAYLOAD_REQUESTS)) leak_run)
    as ([cmds bs] & Hrun & [[Hf Hp]%andb_prop Hn]%andb_prop); [vm_compute; reflexivity|].
  apply bool_decide_eq_true in Hf, Hp, Hn. exists cmds, bs. repeat split; assumption.
Qed.
End witnesses.
