(* ===== verification/StateSync.v ===== *)
(** The buffer of blocks seen while a node syncs its state
    (src/monad-state/src/statesync.rs): the blocks at and below the root that
    consensus will start from, and the proposals seen meanwhile. *)

From S2P Require Import Prelude Types ValidatorSet Crypto MultiSig ConsensusTypes Safety Pacemaker VoteState Messages.

#[local] Open Scope Z_scope.

Section buffer.
Context `{P : Protocol} `{HashOrder}.

Definition GENESIS_TIMESTAMP : Z := 0.

(** [max_buffered_proposals] is a [usize]: 64 bits. *)
Record BlockBuffer := mkBlockBuffer {
  max_buffered_proposals : Z;
  resync_threshold : SeqNum;
  state_root_delay : SeqNum;
  bb_root : BlockId;
  full_blocks : gmap BlockId ConsensusFullBlock;
  payload_cache : gmap Z ConsensusBlockBody;
  block_headers : gmap BlockId ConsensusBlockHeader;
  proposal_buffer : list (NodeId * ProposalMessage);
}.

Definition block_buffer_new (state_root_delay : SeqNum) (root : BlockId) (resync_threshold : SeqNum) : BlockBuffer :=
  mkBlockBuffer resync_threshold resync_threshold state_root_delay root ∅ ∅ ∅ [].

Definition buffer_root_info (b : BlockBuffer) : option RootInfo :=
  if bool_decide (bb_root b = GENESIS_BLOCK_ID)
  then Some (mkRootInfo GENESIS_ROUND GENESIS_SEQ_NUM 1 GENESIS_BLOCK_ID GENESIS_TIMESTAMP)
  else
    root ← full_blocks b !! bb_root b;
    Some (mkRootInfo (fb_block_round root) (fb_seq_num root) (fb_epoch root) (fb_id root) (fb_timestamp root)).

Definition root_seq_num (b : BlockBuffer) : option SeqNum := ri_seq_num <$> buffer_root_info b.

Definition root_delayed_execution_result (b : BlockBuffer) : option (list FinalizedHeader) :=
  (λ root, h_delayed_execution_results (fb_header root)) <$> full_blocks b !! bb_root b.

(** [handle_proposal]: a new sync target, if the proposal finalizes a block far
    enough above the root. *)
Definition buffer_handle_proposal (b : BlockBuffer) (author : NodeId) (proposal : ProposalMessage) :
    exec (option (ConsensusBlockHeader * QuorumCertificate) * BlockBuffer) :=
  match root_seq_num b with
  | None => Ret (None, b)
  | Some root_seq_num =>
      let header := tip_block_header (p_tip proposal) in
      if bool_decide (h_seq_num header < root_seq_num) then Ret (None, b) else
      let proposal_qc := h_qc header in
      let headers := <[header_get_id header := header]> (block_headers b) in
      let buffer := proposal_buffer b ++ [(author, proposal)] in
      let buffer := if bool_decide (Z.of_nat (length buffer) > max_buffered_proposals b) then tail buffer else buffer in
      let b := mkBlockBuffer (max_buffered_proposals b) (resync_threshold b) (state_root_delay b) (bb_root b)
                 (full_blocks b) (payload_cache b) headers buffer in
      match headers !! qc_block_id proposal_qc with
      | None => Ret (None, b)
      | Some qc_parent_block =>
          committable ← get_committable_id proposal_qc qc_parent_block;
          match committable ≫= λ id, headers !! id with
          | None => Ret (None, b)
          | Some finalized_block =>
              limit ← seq_num_add root_seq_num (resync_threshold b);
              if bool_decide (h_seq_num finalized_block <= limit) then Ret (None, b)
              else Ret (Some (finalized_block, proposal_qc), b)
          end
      end
  end.

Definition buffer_handle_blocksync (b : BlockBuffer) (block : ConsensusFullBlock) : BlockBuffer :=
  if (match root_seq_num b with Some r => bool_decide (fb_seq_num block > r) | None => false end) then b
  else
    mkBlockBuffer (max_buffered_proposals b) (resync_threshold b) (state_root_delay b) (bb_root b)
      (<[fb_id block := block]> (full_blocks b)) (<[fb_body_id block := fb_body block]> (payload_cache b))
      (block_headers b) (proposal_buffer b).

(** [HashMap::retain] with a predicate that may panic. *)
Fixpoint retain_loop {V} (keep : V → exec bool) (l : list (Z * V)) (m : gmap Z V) : exec (gmap Z V) :=
  match l with
  | [] => Ret m
  | (k, v) :: l => b ← keep v; retain_loop keep l (if b : bool then m else delete k m)
  end.
Definition hash_retain {V} (keep : V → exec bool) (m : gmap Z V) : exec (gmap Z V) :=
  retain_loop keep (hash_iter m) m.

(** The buffered proposals at or below the new root become full blocks. *)
Definition insert_proposal (new_root : ConsensusBlockHeader) (blocks : gmap BlockId ConsensusFullBlock)
    (sp : NodeId * ProposalMessage) : gmap BlockId ConsensusFullBlock :=
  let header := tip_block_header (p_tip sp.2) in
  if bool_decide (h_seq_num header <= h_seq_num new_root) then
    match full_block_new header (p_block_body sp.2) with
    | Some full_block => <[header_get_id header := full_block]> blocks
    | None => blocks
    end
  else blocks.

Definition payloads_of (blocks : gmap BlockId ConsensusFullBlock) : gmap Z ConsensusBlockBody :=
  foldl (λ m kb, <[fb_body_id kb.2 := fb_body kb.2]> m) ∅ (hash_iter blocks).

Definition re_root (b : BlockBuffer) (new_root : ConsensusBlockHeader) : exec BlockBuffer :=
  blocks ← hash_retain (λ block, s ← seq_num_add (fb_seq_num block) (state_root_delay b);
                                 Ret (bool_decide (s >= h_seq_num new_root))) (full_blocks b);
  let blocks := foldl (insert_proposal new_root) blocks (proposal_buffer b) in
  headers ← hash_retain (λ h, Ret (bool_decide (h_seq_num h >= h_seq_num new_root))) (block_headers b);
  Ret (mkBlockBuffer (max_buffered_proposals b) (resync_threshold b) (state_root_delay b) (header_get_id new_root)
         blocks (payloads_of blocks) headers (proposal_buffer b)).

(** The [while let] loop of [root_parent_chain]: one visit per block, and one to
    find the end. *)
Fixpoint parent_chain_loop (fuel : nat) (blocks : gmap BlockId ConsensusFullBlock) (next_block_id : BlockId)
    (chain : list ConsensusFullBlock) : exec (list ConsensusFullBlock) :=
  match blocks !! next_block_id with
  | None => Ret chain
  | Some block =>
      match fuel with
      | O => OutOfFuel
      | S fuel => parent_chain_loop fuel blocks (fb_parent_id block) (chain ++ [block])
      end
  end.

Definition root_parent_chain (b : BlockBuffer) : exec (list ConsensusFullBlock) :=
  parent_chain_loop (size (full_blocks b)) (full_blocks b) (bb_root b) [].

Definition needs_blocksync (b : BlockBuffer) : exec (option BlockRange) :=
  if bool_decide (bb_root b = GENESIS_BLOCK_ID) then Ret None else
  chain ← root_parent_chain b;
  match last chain with
  | None => Ret (Some (mkBlockRange (bb_root b) (state_root_delay b)))
  | Some block =>
      let len := Z.of_nat (length chain) in
      if bool_decide (len < state_root_delay b) then
        num ← seq_num_sub (state_root_delay b) len;
        Ret (Some (mkBlockRange (fb_parent_id block) num))
      else Ret None
  end.
End buffer.

(** * Lemmas *)

Section lemmas.
Context `{P : Protocol} `{HashOrder}.
Implicit Types (b : BlockBuffer) (blocks : gmap BlockId ConsensusFullBlock).

(** [chain] follows parents from [id] to [last_parent]. *)
Fixpoint follows (id : BlockId) (chain : list ConsensusFullBlock) (last_parent : BlockId) : Prop :=
  match chain with
  | [] => last_parent = id
  | block :: chain => fb_id block = id ∧ follows (fb_parent_id block) chain last_parent
  end.

(** Every block is found under its id, and its payload in the cache. *)
Record buffer_inv b : Prop := {
  bi_keys id block : full_blocks b !! id = Some block → fb_id block = id;
  bi_payloads id block : full_blocks b !! id = Some block → is_Some (payload_cache b !! fb_body_id block);
}.

(** Parents are proposed in earlier rounds. *)
Definition rounds_decrease blocks : Prop :=
  ∀ id block parent, blocks !! id = Some block → blocks !! fb_parent_id block = Some parent →
    fb_block_round parent < fb_block_round block.

Lemma parent_chain_loop_spec fuel blocks id acc :
  (∀ id block, blocks !! id = Some block → fb_id block = id) → rounds_decrease blocks →
  (∀ block, blocks !! id = Some block → (count_below fb_block_round blocks (fb_block_round block) < fuel)%nat) →
  ∃ chain last_parent, parent_chain_loop fuel blocks id acc = Ret (acc ++ chain) ∧
    follows id chain last_parent ∧ blocks !! last_parent = None ∧
    Forall (λ block, blocks !! fb_id block = Some block) chain.
Proof.
  intros Hk Hdec. revert id acc. induction fuel as [|fuel IH]; intros id acc Hf; simpl;
    (destruct (blocks !! id) as [block|] eqn:Hb; [|exists [], id; by rewrite app_nil_r]); specialize (Hf _ eq_refl);
    [lia|].
  destruct (IH (fb_parent_id block) (acc ++ [block])) as (chain & lp & -> & Hc & Hl & Hin).
  { intros p Hp. pose proof (count_below_lt fb_block_round blocks _ p _ Hp (Hdec _ _ _ Hb Hp)). lia. }
  pose proof (Hk _ _ Hb) as Hid. exists (block :: chain), lp. rewrite <- (assoc_L (++)). split_and!; [done|done|done|].
  constructor; [by rewrite Hid|done].
Qed.

Lemma root_parent_chain_spec b :
  buffer_inv b → rounds_decrease (full_blocks b) →
  ∃ chain last_parent, root_parent_chain b = Ret chain ∧ follows (bb_root b) chain last_parent ∧
    full_blocks b !! last_parent = None ∧ Forall (λ block, full_blocks b !! fb_id block = Some block) chain.
Proof.
  intros Hinv Hdec. destruct (parent_chain_loop_spec (size (full_blocks b)) (full_blocks b) (bb_root b) [])
    as (chain & lp & Hr & Hrest); [apply Hinv|done| |by exists chain, lp].
  intros block Hb. by eapply count_below_size.
Qed.

Lemma follows_last id chain lp block : follows id chain lp → last chain = Some block → lp = fb_parent_id block.
Proof.
  revert id. induction chain as [|b [|b' chain] IH]; intros id Hf Hl; [done| |by eapply IH; [apply Hf|]].
  destruct Hf as [_ ->]. by injection Hl as ->.
Qed.

Lemma retain_loop_lookup {V} (keep : V → exec bool) l (m m' : gmap Z V) k v :
  retain_loop keep l m = Ret m' → m' !! k = Some v → m !! k = Some v.
Proof.
  revert m. induction l as [|[k' v'] l IH]; intros m; simpl; [by intros [= ->]|].
  intros (b & _ & Hl)%bind_Ret_inv Hv. apply (IH _ Hl) in Hv. destruct b; [done|].
  by apply lookup_delete_Some in Hv as [_ ?].
Qed.

Lemma payloads_of_lookup blocks id block :
  blocks !! id = Some block → is_Some (payloads_of blocks !! fb_body_id block).
Proof.
  intros Hb. unfold payloads_of.
  assert ((id, block) ∈ hash_iter blocks) as Hin by by apply elem_of_hash_iter.
  revert Hin. generalize (hash_iter blocks) as l. intros l.
  assert (∀ m : gmap Z ConsensusBlockBody, (id, block) ∈ l ∨ is_Some (m !! fb_body_id block) →
    is_Some (foldl (λ m kb, <[fb_body_id kb.2 := fb_body kb.2]> m) m l !! fb_body_id block)) as Hl; [|by auto].
  induction l as [|[k c] l IH]; intros m Hor; simpl.
  { destruct Hor as [?%elem_of_nil|?]; [done|done]. }
  apply IH. destruct Hor as [[[= -> ->]|?]%elem_of_cons|Hm]; [|by left|];
    right; rewrite lookup_insert; case_decide; by eauto.
Qed.

Lemma insert_proposals_keys new_root l blocks :
  (∀ id block, blocks !! id = Some block → fb_id block = id) →
  ∀ id block, foldl (insert_proposal new_root) blocks l !! id = Some block → fb_id block = id.
Proof.
  revert blocks. induction l as [|[s p] l IH]; intros blocks Hk; simpl; [done|]. apply IH. intros id block.
  unfold insert_proposal, full_block_new. simpl. repeat case_bool_decide; try apply Hk.
  rewrite lookup_insert_Some. intros [[<- <-]|[_ ?]]; [done|eauto].
Qed.
End lemmas.

(** * Properties *)

(** The operations that change a buffer. *)
Inductive BufferOp `{P : Protocol} :=
| BO_Proposal (author : NodeId) (proposal : ProposalMessage)
| BO_BlockSync (block : ConsensusFullBlock)
| BO_ReRoot (new_root : ConsensusBlockHeader).

Definition buffer_step `{P : Protocol} `{HashOrder} (b : BlockBuffer) (op : BufferOp) : exec BlockBuffer :=
  match op with
  | BO_Proposal author proposal => '(_, b) ← buffer_handle_proposal b author proposal; Ret b
  | BO_BlockSync block => Ret (buffer_handle_blocksync b block)
  | BO_ReRoot new_root => re_root b new_root
  end.

Lemma buffer_step_inv `{P : Protocol} `{HashOrder} b op b' :
  buffer_step b op = Ret b' → buffer_inv b → buffer_inv b'.
Proof.
  intros Hs Hinv. destruct op as [author p|block|new_root]; simpl in Hs.
  - apply bind_Ret_inv in Hs as ([o b1] & Hs & [= ->]). unfold buffer_handle_proposal in Hs.
    destruct (root_seq_num b); [|by exec_inv]. case_bool_decide; [by exec_inv|].
    assert (full_blocks b' = full_blocks b ∧ payload_cache b' = payload_cache b) as [Hf Hp].
    { repeat (case_match || exec_inv); simplify_eq; done. }
    destruct Hinv. constructor; rewrite Hf, ?Hp; done.
  - exec_inv. unfold buffer_handle_blocksync. destruct (match root_seq_num b with Some _ => _ | None => _ end); [done|].
    destruct Hinv as [Hk Hp]. constructor; simpl; intros id x; rewrite lookup_insert_Some.
    + intros [[<- <-]|[_ ?]]; [done|eauto].
    + intros Hx. rewrite lookup_insert. case_decide; [by eexists|]. destruct Hx as [[_ <-]|[_ Hx]]; [done|eauto].
  - unfold re_root in Hs. exec_inv. constructor; simpl.
    + apply insert_proposals_keys. intros id x Hx. eapply retain_loop_lookup in Hx; [|done]. by apply Hinv.
    + apply payloads_of_lookup.
Qed.

Fixpoint buffer_run `{P : Protocol} `{HashOrder} (b : BlockBuffer) (ops : list BufferOp) : exec BlockBuffer :=
  match ops with
  | [] => Ret b
  | op :: ops => b ← buffer_step b op; buffer_run b ops
  end.

Lemma buffer_run_inv `{P : Protocol} `{HashOrder} b ops b' :
  buffer_run b ops = Ret b' → buffer_inv b → buffer_inv b'.
Proof.
  revert b. induction ops as [|op ops IH]; intros b; simpl; [by intros [= ->]|].
  intros (b1 & Hs & Hr)%bind_Ret_inv Hinv. eapply IH; [done|]. by eapply buffer_step_inv.
Qed.

(** State sync asks for the right blocks. Whatever proposals, synced blocks
    and new targets a buffer has seen, if its blocks extend blocks of earlier
    rounds then [needs_blocksync] returns. It asks for nothing exactly when the
    root is the genesis block or the blocks known from the root down are at
    least [state_root_delay]; and what it asks for is the first missing
    ancestor of the root, and as many blocks as are missing. *)
Theorem needs_blocksync_correct `{P : Protocol} `{HashOrder} (delay threshold : SeqNum) (root : BlockId)
    (ops : list BufferOp) (b : BlockBuffer)
    (Hrun : buffer_run (block_buffer_new delay root threshold) ops = Ret b)
    (Hrounds : rounds_decrease (full_blocks b)) :
  ∃ chain missing o,
    root_parent_chain b = Ret chain ∧ needs_blocksync b = Ret o ∧
    follows (bb_root b) chain missing ∧ full_blocks b !! missing = None ∧
    (o = None ↔ bb_root b = GENESIS_BLOCK_ID ∨ chain ≠ [] ∧ state_root_delay b <= Z.of_nat (length chain)) ∧
    (∀ range, o = Some range → br_last_block_id range = missing ∧
       br_num_blocks range + Z.of_nat (length chain) = state_root_delay b).
Proof.
  assert (buffer_inv b) as Hinv by by eapply buffer_run_inv.
  destruct (root_parent_chain_spec b Hinv Hrounds) as (chain & missing & Hr & Hf & Hm & _).
  unfold needs_blocksync. rewrite Hr. simpl. case_bool_decide as Hroot.
  { exists chain, missing, None. naive_solver. }
  destruct (last chain) as [block|] eqn:Hl.
  - assert (chain ≠ []) by by intros ->. case_bool_decide as Hlt.
    + rewrite (proj2 (seq_num_sub_Ret _ _ _) (conj eq_refl (Z.lt_le_incl _ _ Hlt))). simpl.
      eexists chain, missing, _. split_and!; [done|done|done|done|split; [done|intros [?|[_ ?]]; [done|lia]]|].
      intros range [= <-]. simpl. split; [symmetry; by eapply follows_last|lia].
    + exists chain, missing, None. split_and!; [done|done|done|done| |done]. split; [|done]. right. split; [done|lia].
  - apply last_None in Hl as ->. simpl in Hf. eexists [], missing, _. split_and!; [done|done|done|done|naive_solver|].
    intros range [= <-]. simpl. split; [done|lia].
Qed.

(** ** Concrete run *)

(** [rounds_decrease], as a check. *)
Definition parent_earlier `{P : Protocol} (blocks : gmap BlockId ConsensusFullBlock) (block : ConsensusFullBlock) : bool :=
  match blocks !! fb_parent_id block with
  | Some parent => bool_decide (fb_block_round parent < fb_block_round block)
  | None => true
  end.

Lemma rounds_decrease_check `{P : Protocol} (blocks : gmap BlockId ConsensusFullBlock) :
  map_Forall (λ _ block, parent_earlier blocks block = true) blocks → rounds_decrease blocks.
Proof.
  intros Hm id block parent Hb Hp. specialize (Hm id block Hb). unfold parent_earlier in Hm.
  rewrite Hp in Hm. by apply bool_decide_eq_true in Hm.
Qed.

Section witnesses.
#[local] Existing Instances NopProtocol map_order.

Definition nop_sync_block (round : Z) (qc : QuorumCertificate) : ConsensusFullBlock :=
  mkFullBlock (nop_header round round qc) (mkBody (P := NopProtocol) []).
Definition nop_sync_1 : ConsensusFullBlock := nop_sync_block 7 (nop_qc 6 42).
Definition nop_sync_2 : ConsensusFullBlock := nop_sync_block 8 (nop_qc 7 (fb_id nop_sync_1)).

Lemma needs_blocksync_correct_witness :
  ∃ b range, buffer_run (block_buffer_new 3 (fb_id nop_sync_2) 10) [BO_BlockSync nop_sync_2; BO_BlockSync nop_sync_1] = Ret b ∧
    needs_blocksync b = Ret (Some range) ∧ full_blocks b !! br_last_block_id range = None.
Proof.
  destruct (ret_with_spec (λ b : BlockBuffer,
      bool_decide (map_Forall (λ _ block, parent_earlier (full_blocks b) block = true) (full_blocks b)) &&
      ret_with (λ o : option BlockRange, bool_decide (is_Some o)) (needs_blocksync b))
    (buffer_run (block_buffer_new 3 (fb_id nop_sync_2) 10) [BO_BlockSync nop_sync_2; BO_BlockSync nop_sync_1]))
    as (b & Hrun & [Hdec Hret]%andb_prop); [vm_compute; reflexivity|].
  apply bool_decide_eq_true, rounds_decrease_check in Hdec.
  destruct (needs_blocksync_correct 3 10 (fb_id nop_sync_2) _ b Hrun Hdec) as (chain & missing & o & _ & Hn & _ & Hm & _ & Ho).
  rewrite Hn in Hret. destruct o as [range|]; [|discriminate Hret].
  exists b, range. split; [exact Hrun|]. split; [exact Hn|].
  destruct (Ho range eq_refl) as [-> _]. exact Hm.
Defined.
End witnesses.
