(* ===== verification/ConsensusProps.v ===== *)
(** Properties of the consensus state machine over every sequence of events: a
    node never contradicts itself in what it signs, and the blocks it finalizes
    form one chain. The events are arbitrary: nothing is assumed of the messages,
    of their authors, or of the block policy. *)

From S2P Require Import Prelude Types ValidatorSet EpochManager LeaderElection Crypto MultiSig.
From S2P Require Import ConsensusTypes ChainConfig Safety Pacemaker VoteState Timestamp BlockPolicy.
From S2P Require Import BlockTree BlockTreeInv BlockTreeProps Messages Signing SigningProps ConsensusState.

#[local] Open Scope Z_scope.
#[local] Existing Instances step_ret step_bind.

(** * What a node signs and commits *)

Section actions.
Context `{BP : BlockPolicy}.

Inductive Action :=
| AEnterRound (round : Round)
| AVote (v : Vote)
| ANoEndorse (round : Round)
| APropose (round : Round)
| ARecover (round : Round)
| AFinalize (b : ValidatedBlock).

Definition message_action (m : ProtocolMessage) : option Action :=
  match m with
  | PM_Proposal p => Some (APropose (p_proposal_round p))
  | PM_Vote m => Some (AVote (vm_vote m))
  | PM_Timeout m =>
      let t := timeout_of m in
      match t_high_extend t with
      | HEV_Tip tip _ => Some (AVote (mkVote (tip_id tip) (tm_round (t_tminfo t)) (tm_epoch (t_tminfo t))))
      | HEV_Qc _ => None
      end
  | PM_RoundRecovery m => Some (ARecover (rr_round m))
  | PM_NoEndorsement m => Some (ANoEndorse (ne_round (nm_msg m)))
  | PM_AdvanceRound _ => None
  end.

(** Full nodes are sent certificates and, relayed, the proposals of others. *)
Definition command_action (c : ConsensusCommand) : option Action :=
  match c with
  | CC_EnterRound _ round => Some (AEnterRound round)
  | CC_Publish _ m => message_action (verified_into_inner m).2
  | CC_CreateProposal _ round _ _ _ _ _ _ _ _ _ _ _ _ => Some (APropose round)
  | CC_CommitBlocks (Finalized b) => Some (AFinalize b)
  | _ => None
  end.

Definition actions : list ConsensusCommand → list Action := omap command_action.

Definition finalized : list Action → list ValidatedBlock :=
  omap (λ a, match a with AFinalize b => Some b | _ => None end).

Definition pacemaker_action (c : PacemakerCommand) : option Action :=
  match c with
  | EnterRound _ round _ => Some (AEnterRound round)
  | PrepareTimeout tm (HE_Tip tip) _ => Some (AVote (mkVote (tip_id tip) (tm_round tm) (tm_epoch tm)))
  | _ => None
  end.
Definition pacemaker_actions : list PacemakerCommand → list Action := omap pacemaker_action.

(** [b] may be done after [a]: votes of one round are one vote, a round voted
    for is neither proposed nor left un-endorsed afterwards, and rounds entered,
    proposed, left un-endorsed and recovered only go up. *)
Definition may_follow (a b : Action) : Prop :=
  match a, b with
  | AVote v, AVote w => vote_round v = vote_round w → v = w
  | AVote v, ANoEndorse r | AVote v, APropose r => vote_round v < r
  | AEnterRound r, AEnterRound r' | ANoEndorse r, ANoEndorse r' | APropose r, APropose r'
  | ARecover r, ARecover r' => r < r'
  | _, _ => True
  end.
End actions.

(** * Signing *)

Section core.
Context `{BP : BlockPolicy} `{HashOrder} `{CCT : ChainConfig}.
Context {VT : Type} `{ValidatorSetType VT}.
Implicit Types (pm : Pacemaker) (s : Safety) (log : list Action) (sched : option OutgoingVoteStatus).

(** The high-water mark that covers an action done. *)
Definition within pm s (a : Action) : Prop :=
  match a with
  | AEnterRound r => r <= rc_round (pm_high_certificate pm) + 1
  | ANoEndorse r => r <= hne_round (highest_no_endorse s)
  | APropose r => r <= highest_propose s
  | ARecover r => r <= highest_recovery_request s
  | AVote _ | AFinalize _ => True
  end.

(** The votes signed so far include the published ones and the scheduled one. *)
Record core_inv pm s sched log : Prop := {
  co_votes : ∃ votes, vote_inv pm s votes ∧ (∀ v, AVote v ∈ log → v ∈ votes) ∧
    (∀ v, sched = Some (VoteReady v) → v ∈ votes);
  co_follow : StronglySorted may_follow log;
  co_within a : a ∈ log → within pm s a;
}.

Lemma StronglySorted_snoc {A} (R : relation A) l x :
  StronglySorted R l → (∀ y, y ∈ l → R y x) → StronglySorted R (l ++ [x]).
Proof.
  induction 1 as [|y l Hl IH Hy]; intros Hx; simpl; [repeat constructor|].
  constructor; [set_solver|]. apply Forall_app. split; [done|]. constructor; [set_solver|done].
Qed.

(** An action other than a vote is done only above its mark. *)
Lemma core_snoc pm s pm' s' sched sched' log a :
  core_inv pm s sched log → core_inv pm' s' sched' log →
  (match a with
   | AEnterRound r => rc_round (pm_high_certificate pm) + 1 < r
   | ANoEndorse r => Z.max (hne_round (highest_no_endorse s)) (highest_vote s) < r
   | APropose r => Z.max (highest_propose s) (highest_vote s) < r
   | ARecover r => highest_recovery_request s < r
   | AVote _ => False
   | AFinalize _ => True
   end) → within pm' s' a → core_inv pm' s' sched' (log ++ [a]).
Proof.
  intros [(votes & Hv & Hpub & _) _ Hw] [(votes' & Hv' & Hpub' & Hs') Hf' Hw'] Ha Hin. constructor.
  - exists votes'. split_and!; [done| |done]. intros v [?| <-%list_elem_of_singleton]%elem_of_app; [eauto|done].
  - apply StronglySorted_snoc; [done|]. intros b Hb. specialize (Hw b Hb).
    destruct b as [|v| | | |], a; simpl in *; try done; try lia;
      (assert (vote_round v <= highest_vote s) by by apply (vi_highest _ _ _ Hv), Hpub); lia.
  - intros b [?| ->%list_elem_of_singleton]%elem_of_app; [eauto|done].
Qed.

(** A scheduled vote can be published. *)
Lemma core_send pm s v log :
  core_inv pm s (Some (VoteReady v)) log → core_inv pm s (Some (VoteReady v)) (log ++ [AVote v]).
Proof.
  intros [(votes & Hv & Hpub & Hs) Hf Hw]. specialize (Hs v eq_refl) as Hin. constructor.
  - exists votes. split_and!; [done| |done]. intros w [?|[= <-]%list_elem_of_singleton]%elem_of_app; eauto.
  - apply StronglySorted_snoc; [done|]. intros b Hb. destruct b as [|w| | | |]; simpl; try done.
    intros Hr. by apply (vi_single _ _ _ Hv w v); [apply Hpub| |].
  - intros b [?| ->%list_elem_of_singleton]%elem_of_app; [eauto|done].
Qed.

(** A scheduled vote can be dropped. *)
Lemma core_unschedule pm s sched sched' log :
  core_inv pm s sched log → (∀ v, sched' ≠ Some (VoteReady v)) → core_inv pm s sched' log.
Proof. intros [(votes & Hv & Hpub & Hs) Hf Hw] Hn. constructor; [|done|done]. exists votes. naive_solver. Qed.

(** A change of the safety module that concerns no vote and lowers no mark. *)
Lemma core_marks pm s s' sched log :
  core_inv pm s sched log → highest_vote s' = highest_vote s → maybe_high_tip s' = maybe_high_tip s →
  hne_round (highest_no_endorse s) <= hne_round (highest_no_endorse s') →
  highest_propose s <= highest_propose s' → highest_recovery_request s <= highest_recovery_request s' →
  core_inv pm s' sched log.
Proof.
  intros [(votes & [] & Hpub & Hs) Hf Hw] Hv Ht Hn Hp Hr. constructor; [|done|].
  - exists votes. split_and!; [|done|done]. constructor; rewrite ?Hv, ?Ht; auto.
  - intros a Ha%Hw. destruct a; simpl in *; lia.
Qed.

Ltac by_marks :=
  unfold safety_propose, safety_recovery_request, safety_no_endorse, safety_handle_proposal,
    is_safe_to_propose, is_safe_to_recovery_request, is_safe_to_no_endorse in *;
  intros; exec_inv; rewrite ?bool_decide_eq_true in *;
  first [eapply core_snoc; [eassumption| |simpl; lia|simpl; lia]|idtac];
  eapply core_marks; [eassumption|simpl; done || lia..].

Lemma core_propose pm s s' sched log r :
  safety_propose s r = Ret s' → core_inv pm s sched log → core_inv pm s' sched (log ++ [APropose r]).
Proof. by_marks. Qed.

Lemma core_recovery pm s s' sched log r :
  safety_recovery_request s r = Ret s' → core_inv pm s sched log → core_inv pm s' sched (log ++ [ARecover r]).
Proof. by_marks. Qed.

Lemma core_no_endorse pm s s' sched log r tip :
  safety_no_endorse s r tip = Ret s' → core_inv pm s sched log → core_inv pm s' sched (log ++ [ANoEndorse r]).
Proof. by_marks. Qed.

Lemma core_handle_proposal pm s s' sched log r :
  safety_handle_proposal s r = Ret s' → core_inv pm s sched log → core_inv pm s' sched log.
Proof. by_marks. Qed.
(** ** The pacemaker *)

Lemma pacemaker_actions_app c1 c2 :
  pacemaker_actions (c1 ++ c2) = pacemaker_actions c1 ++ pacemaker_actions c2.
Proof. apply omap_app. Qed.

(** A change of pacemaker and safety module that signs nothing. *)
Lemma core_silent pm s pm' s' sched log :
  core_inv pm s sched log → (∀ votes, vote_inv pm s votes → vote_inv pm' s' votes) →
  (∀ a, within pm s a → within pm' s' a) → core_inv pm' s' sched log.
Proof.
  intros [(votes & Hv & Hpub & Hs) Hf Hw] Hvi Hwi. constructor; [|done|by eauto].
  exists votes. auto.
Qed.

Lemma core_certificate pm em s c pm' s' cmds sched log :
  pm_process_certificate pm em s c = Ret (pm', s', cmds) → core_inv pm s sched log →
  core_inv pm' s' sched (log ++ pacemaker_actions cmds).
Proof.
  intros Hp Hc. pose proof (λ votes Hv, proj1 (vote_inv_certificate _ _ _ _ _ _ _ votes Hp Hv)) as Hvi.
  apply pm_process_certificate_Ret in Hp as [(_ & -> & -> & ->)|(Hlt & -> & e & d & _ & -> & ->)].
  { by rewrite app_nil_r. }
  simpl. eapply (core_snoc _ _ _ _ _ _ _ (AEnterRound _) Hc); simpl; [|lia|lia].
  eapply core_silent; [done|done|]. intros a.
  unfold safety_process_certificate; destruct a; repeat case_match; simpl; lia.
Qed.

Lemma core_local_timeout pm s s' cmds sched log :
  local_timeout_round pm s = Ret (s', cmds) → core_inv pm s sched log →
  core_inv pm s' sched (log ++ pacemaker_actions cmds).
Proof.
  intros Hl Hc. pose proof (λ votes, vote_inv_timeout _ _ _ _ votes Hl) as Hvi.
  assert (∃ ov, timeout_votes cmds = option_list ov ∧ pacemaker_actions cmds = AVote <$> option_list ov) as (ov & Hov & ->).
  { unfold local_timeout_round in Hl. exec_inv. destruct (maybe_high_tip a0) as [t|]; exec_inv;
      [by eexists (Some _)|by exists None]. }
  rewrite Hov in Hvi. apply local_timeout_round_Ret in Hl as (_ & -> & _).
  destruct Hc as [(votes & Hv & Hpub & Hs) Hf Hw]. specialize (Hvi _ Hv). constructor.
  - exists (votes ++ option_list ov). split_and!; [done| |].
    + intros v [?|(w & [= ->] & ?)%list_elem_of_fmap]%elem_of_app; apply elem_of_app; auto.
    + intros v ?. apply elem_of_app. auto.
  - destruct ov as [w|]; simpl in *; [|by rewrite app_nil_r]. apply StronglySorted_snoc; [done|].
    intros b Hb. destruct b as [|v| | | |]; simpl; try done. intros Hr.
    apply (vi_single _ _ _ Hvi); [apply elem_of_app; auto|set_solver|done].
  - intros a [Ha%Hw|(w & -> & _)%list_elem_of_fmap]%elem_of_app; [by destruct a|done].
Qed.

Lemma core_phase pm s sched log ph : core_inv pm s sched log → core_inv (set_pm_phase pm ph) s sched log.
Proof. intros Hc. eapply core_silent; [done|intros; by apply vote_inv_phase|by intros []]. Qed.

Lemma core_pending pm s sched log m : core_inv pm s sched log → core_inv (set_pm_pending pm m) s sched log.
Proof. intros Hc. eapply core_silent; [done|intros; by apply vote_inv_pending|by intros []]. Qed.

Lemma core_tc_loop fuel em vs vm e r pm s ts cmds pm' s' cmds' sched log :
  tc_loop fuel em vs vm e r pm s ts cmds = Ret (pm', s', cmds') →
  core_inv pm s sched (log ++ pacemaker_actions cmds) →
  core_inv pm' s' sched (log ++ pacemaker_actions cmds').
Proof.
  revert pm s ts cmds. induction fuel as [|fuel IH]; intros pm s ts cmds; simpl;
    (case_bool_decide; [intros; exec_inv; done|]);
    intros (sm & _ & (b & _ & Hl)%bind_Ret_inv)%bind_Ret_inv Hc;
    (destruct b; simpl in Hl; [|by exec_inv]); [done|].
  apply bind_Ret_inv in Hl as (tc & _ & Hl). destruct tc as [tc|[]]; try done.
  - apply bind_Ret_inv in Hl as ([[pm1 s1] c] & Hpc & (_ & _ & Hl)%bind_Ret_inv).
    eapply core_certificate in Hpc; [|done]. rewrite <- (assoc_L (++)), <- pacemaker_actions_app in Hpc. eauto.
  - eapply IH; [done|]. by apply core_pending.
Qed.

Lemma core_remote_timeout pm em vs vm s author msg pm' s' cmds sched log :
  process_remote_timeout pm em vs vm s author msg = Ret (pm', s', cmds) → core_inv pm s sched log →
  core_inv pm' s' sched (log ++ pacemaker_actions cmds).
Proof.
  unfold process_remote_timeout. intros (r & _ & Hr)%bind_Ret_inv Hc.
  case_bool_decide; [exec_inv; by rewrite app_nil_r|].
  apply bind_Ret_inv in Hr as (_ & _ & ([[pm2 s2] c2] & Hmid & Hloop)%bind_Ret_inv).
  eapply core_tc_loop; [done|]. clear Hloop.
  apply (core_pending _ _ _ _ (<[author := msg]> (pm_pending_timeouts pm))) in Hc.
  case_bool_decide; [|exec_inv; by rewrite app_nil_r].
  apply bind_Ret_inv in Hmid as (hv & _ & (b & _ & Hmid)%bind_Ret_inv).
  destruct b; [|exec_inv; by rewrite app_nil_r].
  apply bind_Ret_inv in Hmid as ([s3 c3] & Hlt & [= <- -> ->]).
  apply core_phase. by eapply core_local_timeout.
Qed.

(** Voting in the current round schedules the vote. *)
Lemma core_vote pm s s' tc_tip tip sched log :
  let r := rc_round (pm_high_certificate pm) + 1 in
  safety_vote s r tc_tip tip = Ret s' → core_inv pm s sched log →
  core_inv pm s' (Some (VoteReady (mkVote (tip_id tip) r (pm_current_epoch pm)))) log.
Proof.
  intros r Hs [(votes & Hv & Hpub & _) Hf Hw]. pose proof (vote_inv_vote _ _ _ _ _ _ Hs Hv) as Hv'.
  fold r in Hv'. constructor; [|done|].
  - eexists. split_and!; [exact Hv'| |]; intros v Hin; apply elem_of_app; [auto|].
    right. simplify_eq. set_solver.
  - intros a Ha%Hw. unfold safety_vote in Hs. exec_inv. destruct a; repeat case_match; done.
Qed.

End core.

(** * Committing *)

(** What finality needs of a tree: its blocks are found under their ids. *)
Section chain.
Context `{BP : BlockPolicy} `{HashOrder}.
Implicit Types (t : Tree) (bt : BlockTree).

Definition keys_ok t : Prop := ∀ id e, tree_entries t !! id = Some e → vb_id (validated_block e) = id.

Lemma tree_remove_keys t id o t' :
  tree_remove t id = Ret (o, t') → keys_ok t → keys_ok t' ∧ ∀ e, o = Some e → vb_id (validated_block e) = id.
Proof.
  unfold tree_remove. intros Hr Hk. destruct (tree_entries t !! id) as [e|] eqn:He; exec_inv; [|naive_solver].
  split; [|naive_solver]. intros k e'. simpl. rewrite lookup_delete_Some. naive_solver.
Qed.

Lemma remove_all_keys t ids t' : remove_all t ids = Ret t' → keys_ok t → keys_ok t'.
Proof.
  revert t. induction ids as [|id ids IH]; intros t; simpl; [naive_solver|].
  intros ([o t1] & Hr & Hl)%bind_Ret_inv Hk. eapply IH; [done|]. by eapply tree_remove_keys.
Qed.

Lemma tree_insert_keys t b t' : tree_insert t b = Ret t' → keys_ok t → keys_ok t'.
Proof.
  unfold tree_insert. intros Hr Hk. exec_inv. set (m := <[vb_id b := _]> (tree_entries t)).
  assert (∀ k e, m !! k = Some e → vb_id (validated_block e) = k) as Hm.
  { intros k e. unfold m. rewrite lookup_insert_Some. naive_solver. }
  intros k e. simpl. destruct (m !! vb_parent_id b) as [p|] eqn:Hp; [|apply Hm].
  rewrite lookup_insert_Some. naive_solver.
Qed.

Lemma block_tree_add_keys bt b bt' :
  block_tree_add bt b = Ret bt' → keys_ok (bt_tree bt) → keys_ok (bt_tree bt') ∧ bt_root_id bt' = bt_root_id bt.
Proof.
  unfold block_tree_add. intros Hr Hk. case_match; [by exec_inv|]. exec_inv.
  split; [by eapply tree_insert_keys|]. unfold bt_root_id. simpl. by case_bool_decide.
Qed.

Lemma set_coherent_keys t id c t' : tree_set_coherent t id c = Some t' → keys_ok t → keys_ok t'.
Proof.
  unfold tree_set_coherent. intros (e & He & [= <-])%bind_Some Hk k e'. simpl. rewrite lookup_insert_Some.
  naive_solver.
Qed.

Lemma coherency_loop_keys fuel bt policy sb queue acc l bt' :
  coherency_loop fuel bt policy sb queue acc = Ret (l, bt') → keys_ok (bt_tree bt) →
  keys_ok (bt_tree bt') ∧ bt_root_id bt' = bt_root_id bt.
Proof.
  revert bt queue acc. induction fuel as [|fuel IH]; intros bt [|id queue] acc; simpl; intros Hr Hk; try by exec_inv.
  do 4 (apply bind_Ret_inv in Hr as (? & ? & Hr)). case_match; [|eauto].
  do 2 (apply bind_Ret_inv in Hr as (? & ? & Hr)). exec_inv.
  apply IH in Hr as [? ->]; [done|]. by eapply set_coherent_keys.
Qed.

Lemma try_update_coherency_keys bt id policy sb l bt' :
  try_update_coherency bt id policy sb = Ret (l, bt') → keys_ok (bt_tree bt) →
  keys_ok (bt_tree bt') ∧ bt_root_id bt' = bt_root_id bt.
Proof.
  unfold try_update_coherency. intros (o & _ & Hr)%bind_Ret_inv Hk. destruct o; [|by exec_inv].
  apply bind_Ret_inv in Hr as (o & _ & Hr). destruct o; [|by exec_inv]. by eapply coherency_loop_keys.
Qed.

Lemma prune_loop_linked fuel r t e acc l t' :
  prune_loop fuel r t e acc = Ret (l, t') → keys_ok t →
  keys_ok t' ∧ ∃ l', l = acc ++ l' ∧ linked r (reverse l') (vb_id (validated_block e)).
Proof.
  revert t e acc. induction fuel as [|fuel IH]; intros t e acc; simpl;
    intros (? & _ & Hr)%bind_Ret_inv Hk; (case_bool_decide; [exec_inv; split; [done|]; by eexists [_]|]); [done|].
  apply bind_Ret_inv in Hr as ([o t1] & Hrm & (e1 & ->%expect_Ret_inv & Hr)%bind_Ret_inv).
  apply tree_remove_keys in Hrm as [Hk1 Hid]; [|done]. specialize (Hid e1 eq_refl).
  apply IH in Hr as (? & l' & -> & Hl); [|done]. split; [done|]. exists (validated_block e :: l').
  rewrite <- (assoc_L (++)). split; [done|]. rewrite reverse_cons. eapply linked_app; [done|]. by rewrite Hid.
Qed.

Lemma prune_linked bt id l bt' :
  prune bt id = Ret (l, bt') → keys_ok (bt_tree bt) →
  keys_ok (bt_tree bt') ∧ linked (bt_root_id bt) l (bt_root_id bt').
Proof.
  unfold prune. intros (? & _ & Hr)%bind_Ret_inv Hk. case_bool_decide; [by exec_inv|].
  apply bind_Ret_inv in Hr as ([o t1] & Hrm & (e1 & ->%expect_Ret_inv & Hr)%bind_Ret_inv).
  apply tree_remove_keys in Hrm as [Hk1 _]; [|done].
  apply bind_Ret_inv in Hr as ([c t2] & Hl & (t3 & Hra & [= <- <-])%bind_Ret_inv).
  apply prune_loop_linked in Hl as (Hk2 & l' & -> & Hl); [|done]. simpl.
  split; [by eapply remove_all_keys|]. done.
Qed.
End chain.

(** * Handlers *)

Section node.
Context `{BP : BlockPolicy} `{BVT : !BlockValidator} `{HashOrder}.
Context {VT : Type} `{ValidatorSetType VT} `{LT : LeaderElection} `{CCT : ChainConfig}.
Context (root : BlockId).
Notation Node := (@Node _ BP).
Implicit Types (n : Node) (log pre : list Action) (env : Env (VT := VT)).

Record node_inv n log : Prop := {
  ni_core : core_inv (pacemaker (consensus n)) (safety (consensus n)) (scheduled_vote (consensus n)) log;
  ni_keys : keys_ok (bt_tree (pending_block_tree (consensus n)));
  ni_chain : linked root (finalized log) (bt_root_id (pending_block_tree (consensus n)));
}.

(** [quiet m]: a step that keeps the invariant and does nothing. [emits pre m]:
    a step that keeps it, [pre] having been done already, its commands being all
    that is done. *)
Definition quiet {A} (m : step A) : Prop :=
  ∀ n a n' log, m n = Ret (a, n') → node_inv n log → node_inv n' log.
Definition emits pre (m : step (list ConsensusCommand)) : Prop :=
  ∀ n cmds n' log, m n = Ret (cmds, n') → node_inv n (log ++ pre) → node_inv n' (log ++ actions cmds).

(** ** Rules *)

Lemma actions_app c1 c2 : actions (c1 ++ c2) = actions c1 ++ actions c2.
Proof. apply omap_app. Qed.

Lemma finalized_app l1 l2 : finalized (l1 ++ l2) = finalized l1 ++ finalized l2.
Proof. apply omap_app. Qed.

Lemma step_bind_Ret_inv {A B} (m : step A) (f : A → step B) n b n' :
  (m ≫= f) n = Ret (b, n') → ∃ a n1, m n = Ret (a, n1) ∧ f a n1 = Ret (b, n').
Proof. unfold mbind at 1, step_bind. intros ([a n1] & ? & ?)%bind_Ret_inv. eauto. Qed.

Lemma lift_Ret_inv {A} (m : exec A) n a n' : lift m n = Ret (a, n') → m = Ret a ∧ n' = n.
Proof. unfold lift. intros. exec_inv. done. Qed.

Lemma quiet_ret {A} (a : A) : quiet (mret a).
Proof. by intros n b n' log [= <- <-]. Qed.

Lemma quiet_lift {A} (m : exec A) : quiet (lift m).
Proof. by intros n a n' log [_ ->]%lift_Ret_inv. Qed.

Lemma quiet_get {A} (f : Node → A) : quiet (get f).
Proof. by intros n a n' log [= <- <-]. Qed.

Lemma quiet_current_round : quiet current_round.
Proof. intros n a n' log Hr. unfold current_round in Hr. by exec_inv. Qed.

Lemma quiet_bind {A B} (m : step A) (f : A → step B) : quiet m → (∀ a, quiet (f a)) → quiet (m ≫= f).
Proof. intros Hm Hf n b n' log (a & n1 & ? & ?)%step_bind_Ret_inv ?. eapply Hf; [done|]. by eapply Hm. Qed.

Lemma emits_ret pre cmds : actions cmds = pre → emits pre (mret cmds).
Proof. by intros <- n c n' log [= <- <-]. Qed.

Lemma emits_panic pre : emits pre (lift Panic).
Proof. by intros n c n' log [? _]%lift_Ret_inv. Qed.

Lemma emits_quiet {A} pre (m : step A) f : quiet m → (∀ a, emits pre (f a)) → emits pre (m ≫= f).
Proof. intros Hm Hf n b n' log (a & n1 & ? & ?)%step_bind_Ret_inv ?. eapply Hf; [done|]. by eapply Hm. Qed.

Lemma emits_bind pre m f :
  emits [] m → (∀ cmds, emits (pre ++ actions cmds) (f cmds)) → emits pre (m ≫= f).
Proof.
  intros Hm Hf n b n' log (c & n1 & Hmn & ?)%step_bind_Ret_inv Hinv. eapply Hf; [done|].
  rewrite (assoc_L (++)). eapply Hm; [done|]. by rewrite app_nil_r.
Qed.

(** A change of the fields that the invariant does not mention. *)
Lemma node_inv_frame n n' log :
  node_inv n log → pending_block_tree (consensus n') = pending_block_tree (consensus n) →
  pacemaker (consensus n') = pacemaker (consensus n) → safety (consensus n') = safety (consensus n) →
  scheduled_vote (consensus n') = scheduled_vote (consensus n) → node_inv n' log.
Proof. intros [] Ht Hp Hs Hv. constructor; rewrite ?Ht, ?Hp, ?Hs, ?Hv; done. Qed.

Lemma quiet_frame {A} (m : step A) :
  (∀ n a n', m n = Ret (a, n') →
     pending_block_tree (consensus n') = pending_block_tree (consensus n) ∧
     pacemaker (consensus n') = pacemaker (consensus n) ∧ safety (consensus n') = safety (consensus n) ∧
     scheduled_vote (consensus n') = scheduled_vote (consensus n)) → quiet m.
Proof. intros Hm n a n' log (? & ? & ? & ?)%Hm ?. by eapply node_inv_frame. Qed.

Lemma quiet_vote_state v : quiet (set_vote_state v).
Proof. apply quiet_frame. by intros n a n' [= <- <-]. Qed.
Lemma quiet_no_endorsement_state v : quiet (set_no_endorsement_state v).
Proof. apply quiet_frame. by intros n a n' [= <- <-]. Qed.
Lemma quiet_requests m : quiet (set_block_sync_requests m).
Proof. apply quiet_frame. by intros n a n' [= <- <-]. Qed.
Lemma quiet_epoch_manager em : quiet (set_epoch_manager em).
Proof. apply quiet_frame. by intros n a n' [= <- <-]. Qed.
Lemma quiet_block_policy p : quiet (set_block_policy p).
Proof. apply quiet_frame. by intros n a n' [= <- <-]. Qed.
End node.

Create HintDb quiet.
#[export] Hint Resolve quiet_ret quiet_lift quiet_get quiet_current_round quiet_vote_state
  quiet_no_endorsement_state quiet_requests quiet_epoch_manager quiet_block_policy : quiet.
#[export] Hint Extern 1 (quiet _ get_safety) => apply quiet_get : quiet.
#[export] Hint Extern 1 (quiet _ get_pacemaker) => apply quiet_get : quiet.
#[export] Hint Extern 1 (quiet _ get_tree) => apply quiet_get : quiet.
#[export] Hint Extern 1 (quiet _ get_requests) => apply quiet_get : quiet.
#[export] Hint Extern 2 (quiet _ (mbind _ _)) => apply quiet_bind; [|intros] : quiet.
#[export] Hint Extern 3 (quiet _ (match ?x with _ => _ end)) => destruct x : quiet.
Create HintDb emits.

(** Follow a step to its end: quiet parts by [quiet], calls of other handlers by
    [emits], and every branch of the code. *)
Ltac emit_step :=
  match goal with
  | |- emits _ _ (mret _) =>
      apply emits_ret; repeat case_match; rewrite ?actions_app, ?app_nil_r, <- ?(assoc_L (++)); reflexivity
  | |- emits _ _ (lift Panic) => apply emits_panic
  | |- emits _ _ (mbind _ get_safety) => fail 1
  | |- emits _ _ (mbind _ _) =>
      first [apply emits_quiet; [solve [eauto with quiet]|intros]
            |apply emits_bind; [solve [eauto with emits]|intros]
            |apply emits_bind; [match goal with |- context [match ?x with _ => _ end] => destruct x end;
                                solve [eauto with emits|apply emits_ret; reflexivity]|intros]]
  | |- emits _ _ (match ?x with _ => _ end) => destruct x
  | |- emits _ [] _ => solve [eauto with emits]
  end.
Ltac emit := repeat (emit_step; cbn beta match).

(** Invert a sequence of reads and writes. *)
Ltac step_inv :=
  repeat match goal with
  | H : mbind (M := step) _ _ _ = Ret _ |- _ => apply step_bind_Ret_inv in H as (? & ? & ? & H)
  | H : lift _ _ = Ret _ |- _ => apply lift_Ret_inv in H as [? ->]
  | H : get _ _ = Ret _ |- _ => injection H as <- <-
  | H : get_safety _ = Ret _ |- _ => injection H as <- <-
  | H : get_pacemaker _ = Ret _ |- _ => injection H as <- <-
  | H : get_tree _ = Ret _ |- _ => injection H as <- <-
  | H : get_requests _ = Ret _ |- _ => injection H as <- <-
  | H : set_block_tree _ _ = Ret _ |- _ => injection H as <- <-
  | H : set_safety _ _ = Ret _ |- _ => injection H as <- <-
  | H : set_pacemaker _ _ _ = Ret _ |- _ => injection H as <- <-
  | H : set_scheduled_vote _ _ = Ret _ |- _ => injection H as <- <-
  | H : set_block_policy _ _ = Ret _ |- _ => injection H as <- <-
  | H : set_epoch_manager _ _ = Ret _ |- _ => injection H as <- <-
  | H : mret (M := step) _ _ = Ret _ |- _ => injection H as <- <-
  | H : current_round _ = Ret _ |- _ =>
      unfold current_round, get_current_round in H; apply bind_Ret_inv in H as (? & [-> _]%round_add_Ret & [= <- <-])
  end; simpl in *.

(** Split on the branch taken. *)
Ltac branch H :=
  match type of H with (match ?x with _ => _ end) _ = _ => let E := fresh "E" in destruct x eqn:E end.

(** Branches in which nothing is done. *)
Ltac idle H :=
  repeat (step_inv; first [branch H; [|by step_inv; rewrite app_nil_r]|branch H; [by step_inv; rewrite app_nil_r|]]).

Section handlers_inv.
Context `{BP : BlockPolicy} `{BVT : !BlockValidator} `{HashOrder}.
Context {VT : Type} `{ValidatorSetType VT} `{LT : LeaderElection} `{CCT : ChainConfig}.
Context (root : BlockId) (env : Env (VT := VT)).

Lemma quiet_leader_of round : quiet root (leader_of env round).
Proof. unfold leader_of. eauto 10 with quiet. Qed.
#[local] Hint Resolve quiet_leader_of : quiet.

Lemma emits_request_blocks : emits root [] request_blocks_if_missing_ancestor.
Proof. unfold request_blocks_if_missing_ancestor. emit. Qed.

Lemma emits_request_tip : emits root [] request_tip_if_missing.
Proof. unfold request_tip_if_missing. emit. Qed.
#[local] Hint Resolve emits_request_blocks emits_request_tip : emits.

(** ** Committing *)

Lemma core_finalize pm s sched log blocks :
  core_inv pm s sched log → core_inv pm s sched (log ++ (AFinalize <$> blocks)).
Proof.
  intros Hc. induction blocks as [|b blocks IH] using rev_ind; [by rewrite app_nil_r|].
  rewrite fmap_app, (assoc_L (++)). by eapply core_snoc.
Qed.

Lemma finalized_fmap blocks : finalized (AFinalize <$> blocks) = blocks.
Proof. induction blocks as [|b blocks IH]; csimpl; [done|]. by f_equal. Qed.

Lemma commit_blocks_spec blocks n cmds n' :
  commit_blocks blocks n = Ret (cmds, n') →
  actions cmds = AFinalize <$> blocks ∧ consensus n' = consensus n.
Proof.
  revert n cmds. induction blocks as [|b blocks IH]; intros n cmds Hc; simpl in Hc; step_inv; [done|].
  select (commit_blocks _ _ = Ret _) (fun Hc => apply IH in Hc as [Ha ->]). csimpl. by rewrite <- Ha.
Qed.

Lemma emits_try_commit qc : emits root [] (try_commit qc).
Proof.
  unfold try_commit. intros n cmds n' log Hr Hinv. rewrite app_nil_r in Hinv. step_inv.
  branch Hr; [|step_inv; by rewrite app_nil_r]. step_inv.
  branch Hr; [|step_inv; by rewrite app_nil_r].
  branch Hr; [step_inv; by rewrite app_nil_r|]. step_inv. branch Hr. step_inv.
  apply commit_blocks_spec in Hr as [-> Hn'].
  select (prune _ _ = Ret _) (fun Hp => apply prune_linked in Hp as [Hk Hl]; [|apply Hinv]). constructor; rewrite Hn'; simpl.
  - apply core_finalize, Hinv.
  - done.
  - rewrite finalized_app, finalized_fmap. eapply linked_app; [apply Hinv|done].
Qed.
#[local] Hint Resolve emits_try_commit : emits.

Lemma node_inv_tree n n' log :
  node_inv root n log → keys_ok (bt_tree (pending_block_tree (consensus n'))) →
  bt_root_id (pending_block_tree (consensus n')) = bt_root_id (pending_block_tree (consensus n)) →
  pacemaker (consensus n') = pacemaker (consensus n) → safety (consensus n') = safety (consensus n) →
  scheduled_vote (consensus n') = scheduled_vote (consensus n) → node_inv root n' log.
Proof. intros [] Hk Ht Hp Hs Hv. constructor; rewrite ?Ht, ?Hp, ?Hs, ?Hv; done. Qed.

Lemma actions_proposed (l : list ValidatedBlock) cmds :
  actions (map (λ b, CC_CommitBlocks (Proposed b)) l ++ cmds) = actions cmds.
Proof. induction l as [|b l IH]; [done|]. exact IH. Qed.

Lemma emits_update_coherency id : emits root [] (cs_try_update_coherency env id).
Proof.
  unfold cs_try_update_coherency. intros n cmds n' log Hr Hinv. rewrite app_nil_r in Hinv. step_inv.
  branch Hr. step_inv. rewrite actions_proposed.
  select (try_update_coherency _ _ _ _ = Ret _) (fun Hu => apply try_update_coherency_keys in Hu as [Hk Hroot];
    [|apply Hinv]).
  match goal with Hc : _ ?n1 = Ret (?c, _) |- node_inv _ _ (_ ++ actions ?c) =>
    rename Hc into Hcommit; assert (node_inv root n1 log) as Hinv1 by by eapply node_inv_tree
  end.
  branch Hcommit; [|step_inv; by rewrite app_nil_r].
  eapply emits_try_commit; [done|]. by rewrite app_nil_r.
Qed.
#[local] Hint Resolve emits_update_coherency : emits.

Lemma emits_maybe_statesync : emits root [] (maybe_statesync env).
Proof. unfold maybe_statesync. emit. Qed.
#[local] Hint Resolve emits_maybe_statesync : emits.

Lemma emits_cancel_requests ids : emits root [] (cancel_requests ids).
Proof. induction ids as [|id ids IH]; simpl; emit. Qed.
#[local] Hint Resolve emits_cancel_requests : emits.

(** ** Proposing *)

(** Steps that sign: a change of the safety module with the action it allows. *)
Lemma node_inv_safety n s log new :
  node_inv root n log → finalized new = [] →
  core_inv (pacemaker (consensus n)) s (scheduled_vote (consensus n)) (log ++ new) →
  ∀ n', set_safety s n = Ret (tt, n') → node_inv root n' (log ++ new).
Proof.
  intros [Hc Hk Hl] Hf Hs n' [= <-]. constructor; simpl; [done|done|].
  by rewrite finalized_app, Hf, app_nil_r.
Qed.


(** Committing, and asking for blocks, leave the round alone. *)
Lemma try_commit_pacemaker qc n cmds n' :
  try_commit qc n = Ret (cmds, n') → pacemaker (consensus n') = pacemaker (consensus n).
Proof.
  unfold try_commit. intros Hr. step_inv. branch Hr; [|by step_inv]. step_inv. branch Hr; [|by step_inv].
  branch Hr; [by step_inv|]. step_inv. branch Hr. step_inv. by apply commit_blocks_spec in Hr as [_ ->].
Qed.

Lemma update_coherency_pacemaker id n cmds n' :
  cs_try_update_coherency env id n = Ret (cmds, n') → pacemaker (consensus n') = pacemaker (consensus n).
Proof.
  unfold cs_try_update_coherency. intros Hr. step_inv. branch Hr. step_inv.
  match goal with Hc : _ _ = Ret (_, ?n') |- pacemaker (consensus ?n') = _ => branch Hc; [|by step_inv] end.
  match goal with Hc : try_commit _ _ = Ret _ |- _ => by apply try_commit_pacemaker in Hc end.
Qed.

Lemma request_tip_pacemaker n cmds n' :
  request_tip_if_missing n = Ret (cmds, n') → pacemaker (consensus n') = pacemaker (consensus n).
Proof.
  unfold request_tip_if_missing. intros Hr. step_inv. repeat (branch Hr; try by step_inv).
  apply step_bind_Ret_inv in Hr as (? & ? & [= <- <-] & [= <- <-]). done.
Qed.

Lemma repropose_inv round tip tc n cmds n' log :
  repropose env round tip tc n = Ret (cmds, n') → round = rc_round (pm_high_certificate (pacemaker (consensus n))) + 1 →
  node_inv root n log → node_inv root n' (log ++ actions cmds).
Proof.
  unfold repropose. intros (c1 & n1 & Hu & Hr)%step_bind_Ret_inv Hround Hinv.
  rewrite <- (update_coherency_pacemaker _ _ _ _ Hu) in Hround.
  pose proof (emits_update_coherency _ _ _ _ log Hu) as Hinv1. rewrite app_nil_r in Hinv1.
  specialize (Hinv1 Hinv). clear Hu Hinv.
  step_inv. branch Hr; [branch Hr|]; step_inv; [done|..];
    rewrite actions_app; csimpl; rewrite (assoc_L (++)), <- Hround;
    (eapply node_inv_safety; [done|done| |done]); 
    [by eapply core_recovery; [|apply Hinv1]|by eapply core_propose; [|apply Hinv1]].
Qed.


(** Code that asks the safety module, and signs what it allows: [s] is the
    safety module read. *)
Definition emits_with (s : Safety) pre (m : step (list ConsensusCommand)) : Prop :=
  ∀ n cmds n' log, m n = Ret (cmds, n') → safety (consensus n) = s →
    node_inv root n (log ++ pre) → node_inv root n' (log ++ actions cmds).

Lemma emits_get_safety pre k : (∀ s, emits_with s pre (k s)) → emits root pre (s ← get_safety; k s).
Proof. intros Hk n cmds n' log (s & n1 & [= <- <-] & Hr)%step_bind_Ret_inv Hinv. by eapply Hk. Qed.

Lemma emits_with_emits s pre m : emits root pre m → emits_with s pre m.
Proof. intros Hm n cmds n' log Hr _. by apply Hm. Qed.

Lemma emits_sign s f new pre k :
  (∀ pm s s' sched log, f s = Ret s' → core_inv pm s sched log → core_inv pm s' sched (log ++ new)) →
  finalized new = [] → emits root (pre ++ new) k →
  emits_with s pre (s ← lift (f s); _ ← set_safety s; k).
Proof.
  intros Hf Hnew Hk n cmds n' log Hr <- Hinv.
  apply step_bind_Ret_inv in Hr as (s & n1 & [Hs ->]%lift_Ret_inv & Hr).
  apply step_bind_Ret_inv in Hr as ([] & n1 & Hset & Hr).
  eapply Hk; [done|]. rewrite (assoc_L (++)). eapply node_inv_safety; [done|done| |done].
  eapply Hf; [done|apply Hinv].
Qed.

Lemma emits_propose_fresh epoch round qc fpc tc : emits root [] (propose_fresh env epoch round qc fpc tc).
Proof.
  unfold propose_fresh. emit. apply emits_get_safety. intros s.
  apply (emits_sign s (λ s, safety_propose s round) [APropose round]); [intros; by eapply core_propose|done|]. emit.
Qed.

#[local] Hint Resolve emits_propose_fresh : emits.

Lemma emits_try_propose : emits root [] (try_propose env).
Proof.
  unfold try_propose. intros n cmds n' log Hr Hinv. rewrite app_nil_r in Hinv. step_inv.
  branch Hr; [step_inv; by rewrite app_nil_r|].
  apply step_bind_Ret_inv in Hr as (c1 & n1 & Ht & Hr).
  pose proof (request_tip_pacemaker _ _ _ Ht) as Hpm.
  pose proof (emits_request_tip _ _ _ log Ht) as Hinv1. rewrite app_nil_r in Hinv1. specialize (Hinv1 Hinv).
  step_inv. branch Hr; [by step_inv|]. step_inv. branch Hr. branch Hr. step_inv.
  rewrite actions_app, (assoc_L (++)).
  match goal with Hc : match ?h with HE_Qc _ => _ | HE_Tip _ => _ end _ = Ret _ |- _ => destruct h end;
    [eapply repropose_inv; [done|by rewrite Hpm|done]|].
  eapply emits_propose_fresh; [done|by rewrite app_nil_r].
Qed.
#[local] Hint Resolve emits_try_propose : emits.

(** ** Certificates *)

Lemma actions_from_pacemaker cmds : actions (from_pacemaker env cmds) = pacemaker_actions cmds.
Proof.
  induction cmds as [|c cmds IH]; [done|]. unfold from_pacemaker. simpl. rewrite actions_app.
  fold (from_pacemaker env cmds). rewrite IH. by destruct c as [|? []| |].
Qed.

(** Steps that change the pacemaker. *)
Lemma node_inv_pacemaker n pm s log new :
  node_inv root n log → finalized new = [] →
  core_inv pm s (scheduled_vote (consensus n)) (log ++ new) →
  ∀ n', set_pacemaker pm s n = Ret (tt, n') → node_inv root n' (log ++ new).
Proof.
  intros [Hc Hk Hl] Hf Hs n' [= <-]. constructor; simpl; [done|done|].
  by rewrite finalized_app, Hf, app_nil_r.
Qed.

Lemma finalized_pacemaker cmds : finalized (pacemaker_actions cmds) = [].
Proof. induction cmds as [|c cmds IH]; [done|]. by destruct c as [|? []| |]. Qed.

Lemma emits_advance_round c : emits root [] (advance_round env c).
Proof.
  unfold advance_round. intros n cmds n' log Hr Hinv. rewrite app_nil_r in Hinv. step_inv.
  branch Hr. branch Hr. step_inv. rewrite actions_from_pacemaker.
  eapply node_inv_pacemaker; [done|apply finalized_pacemaker| |done]. subst. eapply core_certificate; [done|apply Hinv].
Qed.
#[local] Hint Resolve emits_advance_round : emits.

Lemma emits_process_qc qc : emits root [] (process_qc env qc).
Proof. unfold process_qc. emit. Qed.
#[local] Hint Resolve emits_process_qc : emits.

Lemma emits_process_tc tc : emits root [] (process_tc env tc).
Proof. unfold process_tc. emit. Qed.
#[local] Hint Resolve emits_process_tc : emits.

(** ** Voting *)

(** A vote that is scheduled, or could be, is sent once or twice. *)
Lemma send_vote_inv round v n cmds n' nv log :
  send_vote_and_reset_timer env round v n = Ret (cmds, n') →
  set_scheduled_vote (Some (VoteReady v)) n = Ret (tt, nv) → node_inv root nv log →
  node_inv root n' (log ++ actions cmds).
Proof.
  unfold send_vote_and_reset_timer, leader_of. intros Hr [= <-] [Hc Hk Hl]. step_inv.
  match goal with |- node_inv _ _ (_ ++ ?l) =>
    assert (core_inv (pacemaker (consensus n)) (safety (consensus n)) (Some (VoteReady v)) (log ++ l) ∧
      finalized l = []) as [Hcl Hf]
  end.
  { apply core_send in Hc as Hc1. apply core_send in Hc1 as Hc2. rewrite <- (assoc_L (++)) in Hc2.
    by case_bool_decide. }
  subst. constructor; simpl.
  - by eapply core_unschedule.
  - done.
  - by rewrite finalized_app, Hf, app_nil_r.
Qed.

Lemma emits_handle_vote_timer round : emits root [] (handle_vote_timer env round).
Proof.
  unfold handle_vote_timer. intros n cmds n' log Hr Hinv. rewrite app_nil_r in Hinv. step_inv.
  assert (∀ n1, set_scheduled_vote (Some TimerFired) n = Ret (tt, n1) → node_inv root n1 log) as Hfired.
  { intros n1 [= <-]. destruct Hinv. constructor; simpl; [by eapply core_unschedule|done|done]. }
  branch Hr; [branch Hr|]; [step_inv; rewrite app_nil_r; by apply Hfired| |step_inv; rewrite app_nil_r; by apply Hfired].
  eapply send_vote_inv; [done|done|]. eapply node_inv_frame; [done|done|done|done|]. simpl. by rewrite E.
Qed.

Lemma emits_try_vote tc tip : emits root [] (try_vote env tc tip).
Proof.
  unfold try_vote. intros n cmds n' log Hr Hinv. rewrite app_nil_r in Hinv. idle Hr. step_inv.
  set (v := mkVote _ _ _) in Hr.
  assert (∀ n1 nv, set_safety x n = Ret (tt, n1) → set_scheduled_vote (Some (VoteReady v)) n1 = Ret (tt, nv) →
    node_inv root nv log) as Hv.
  { intros n1 nv [= <-] [= <-]. constructor; simpl; [by eapply core_vote; [|apply Hinv]|apply Hinv..]. }
  specialize (Hv _ _ eq_refl eq_refl).
  branch Hr; [branch Hr|]; [by eapply send_vote_inv|branch Hr; [by step_inv|]|];
    (step_inv; branch Hr; [by eapply send_vote_inv|]; step_inv; by rewrite app_nil_r).
Qed.

#[local] Hint Resolve emits_handle_vote_timer emits_try_vote : emits.

(** ** Blocks and messages *)

Lemma quiet_validate_block header body : quiet root (validate_block env header body).
Proof. unfold validate_block. eauto 20 with quiet. Qed.
#[local] Hint Resolve quiet_validate_block : quiet.

(** The sequence that updates the tree. *)
Lemma emits_tree (f : BlockTree → exec BlockTree) pre k :
  (∀ bt bt', f bt = Ret bt' → keys_ok (bt_tree bt) → keys_ok (bt_tree bt') ∧ bt_root_id bt' = bt_root_id bt) →
  emits root pre k → emits root pre (tree ← get_tree; tree ← lift (f tree); _ ← set_block_tree tree; k).
Proof.
  intros Hf Hk n cmds n' log Hr Hinv.
  apply step_bind_Ret_inv in Hr as (t & n1 & [= <- <-] & Hr).
  apply step_bind_Ret_inv in Hr as (t & n1 & [Ht ->]%lift_Ret_inv & Hr).
  apply step_bind_Ret_inv in Hr as ([] & n1 & [= <-] & Hr).
  apply Hf in Ht as [? ?]; [|apply Hinv]. eapply Hk; [done|]. by eapply node_inv_tree.
Qed.

Lemma emits_try_add block vote : emits root [] (try_add_and_commit_blocktree env block vote).
Proof.
  unfold try_add_and_commit_blocktree.
  apply (emits_tree (λ t, block_tree_add t block)); [intros ? ? Ht; by apply (block_tree_add_keys _ _ _ Ht)|].
  apply emits_bind; [eauto with emits|intros]. apply emits_bind; [destruct vote as [[[]]|]; emit|intros]. emit.
Qed.

#[local] Hint Resolve emits_try_add : emits.

Lemma emits_timeout_expiry round : emits root [] (handle_timeout_expiry env round).
Proof.
  unfold handle_timeout_expiry, process_local_timeout. intros n cmds n' log Hr Hinv.
  rewrite app_nil_r in Hinv. idle Hr. step_inv. branch Hr. branch Hr. step_inv. exec_inv.
  rewrite actions_from_pacemaker. destruct a as [s2 c2]. exec_inv.
  eapply node_inv_pacemaker; [done|apply finalized_pacemaker| |done].
  eapply core_local_timeout; [done|]. apply core_phase, Hinv.
Qed.

Lemma emits_proposal author p : emits root [] (handle_proposal_message env author p).
Proof.
  unfold handle_proposal_message. emit. apply emits_get_safety. intros s.
  case_match; [apply emits_with_emits; emit|].
  apply (emits_sign s (λ s, safety_handle_proposal s _) []); [|done|rewrite app_nil_r; emit].
  intros. rewrite app_nil_r. by eapply core_handle_proposal.
Qed.

Lemma emits_vote author m : emits root [] (handle_vote_message env author m).
Proof. unfold handle_vote_message. emit. Qed.
#[local] Hint Resolve emits_vote : emits.

Lemma emits_round_recovery author m : emits root [] (handle_round_recovery_message env author m).
Proof.
  unfold handle_round_recovery_message. emit. apply emits_get_safety. intros s.
  case_match; [|apply emits_with_emits; emit].
  apply (emits_sign s (λ s, safety_no_endorse s _ _) [ANoEndorse (rr_round m)]);
    [intros; by eapply core_no_endorse|done|emit].
Qed.

Lemma emits_no_endorsement author m : emits root [] (handle_no_endorsement_message env author m).
Proof. unfold handle_no_endorsement_message. emit. Qed.

Lemma emits_advance author m : emits root [] (handle_advance_round_message env author m).
Proof. unfold handle_advance_round_message. emit. Qed.

Lemma emits_block_sync_loop blocks : emits root [] (block_sync_loop env blocks).
Proof. induction blocks as [|b blocks IH]; simpl; emit. Qed.
#[local] Hint Resolve emits_block_sync_loop : emits.

Lemma emits_block_sync range blocks : emits root [] (handle_block_sync env range blocks).
Proof. unfold handle_block_sync. emit. Qed.

(** Counting a timeout. *)
Lemma emits_remote_timeout pre vs vm author timeout k :
  (∀ cmds, emits root (pre ++ pacemaker_actions cmds) (k cmds)) →
  emits root pre (pm ← get_pacemaker; s ← get_safety; em ← get epoch_manager;
    '(pm, s, cmds) ← lift (process_remote_timeout pm em vs vm s author timeout);
    _ ← set_pacemaker pm s; k cmds).
Proof.
  intros Hk n cmds n' log Hr Hinv.
  do 3 (apply step_bind_Ret_inv in Hr as (? & ? & [= <- <-] & Hr)).
  apply step_bind_Ret_inv in Hr as ([[pm s] c] & n1 & [Hp ->]%lift_Ret_inv & Hr).
  apply step_bind_Ret_inv in Hr as ([] & n1 & Hset & Hr).
  eapply Hk; [done|]. rewrite (assoc_L (++)).
  eapply node_inv_pacemaker; [done|apply finalized_pacemaker| |done].
  eapply core_remote_timeout; [done|apply Hinv].
Qed.

Lemma emits_timeout_certificates author t : emits root [] (process_timeout_certificates env author t).
Proof.
  unfold process_timeout_certificates. apply emits_bind; [eauto with emits|intros cmds1].
  apply emits_bind; [destruct (t_high_extend _); emit|intros cmds2].
  apply emits_bind; [destruct (t_last_round_certificate _) as [[]|]; emit|intros cmds3]. emit.
Qed.
#[local] Hint Resolve emits_timeout_certificates : emits.

Lemma emits_timeout author m : emits root [] (handle_timeout_message env author m).
Proof.
  unfold handle_timeout_message. do 7 (emit_step; cbn beta).
  apply emits_remote_timeout. intros pm_cmds. apply emits_bind; [eauto with emits|intros cmds'].
  apply emits_ret. by rewrite !actions_app, actions_from_pacemaker, <- !(assoc_L (++)).
Qed.

End handlers_inv.

(** * Rounds *)

(** No step lowers the round, and a certificate that is processed is left
    behind. *)
Section rounds.
Context `{BP : BlockPolicy} `{BVT : !BlockValidator} `{HashOrder}.
Context {VT : Type} `{ValidatorSetType VT} `{LT : LeaderElection} `{CCT : ChainConfig}.
Notation Node := (@Node _ BP).

Definition high_round (n : Node) : Round := rc_round (pm_high_certificate (pacemaker (consensus n))).

Definition monotone {A} (m : step A) : Prop :=
  ∀ n a n', m n = Ret (a, n') → high_round n <= high_round n'.

Lemma monotone_ret {A} (a : A) : monotone (mret a).
Proof. by intros n b n' [= <- <-]. Qed.

Lemma monotone_lift {A} (m : exec A) : monotone (lift m).
Proof. by intros n a n' [_ ->]%lift_Ret_inv. Qed.

Lemma monotone_get {A} (f : Node → A) : monotone (get f).
Proof. by intros n a n' [= <- <-]. Qed.

Lemma monotone_current_round : monotone current_round.
Proof. intros n a n' Hr. unfold current_round in Hr. by exec_inv. Qed.

Lemma monotone_bind {A B} (m : step A) (f : A → step B) : monotone m → (∀ a, monotone (f a)) → monotone (m ≫= f).
Proof.
  intros Hm Hf n b n' (a & n1 & H1 & H2)%step_bind_Ret_inv. apply Hm in H1. apply Hf in H2. lia.
Qed.

(** What sets anything but the pacemaker. *)
Lemma monotone_modify f :
  (∀ c, pacemaker (f c) = pacemaker c) → monotone (modify_consensus f).
Proof. intros Hf n a n' [= <- <-]. unfold high_round. simpl. by rewrite Hf. Qed.

Lemma monotone_epoch_manager em : monotone (set_epoch_manager em).
Proof. by intros n a n' [= <- <-]. Qed.

Lemma monotone_block_policy p : monotone (set_block_policy p).
Proof. by intros n a n' [= <- <-]. Qed.
End rounds.

Create HintDb monotone.
#[export] Hint Resolve monotone_ret monotone_lift monotone_get monotone_current_round monotone_epoch_manager
  monotone_block_policy : monotone.
#[export] Hint Extern 1 (monotone get_safety) => apply monotone_get : monotone.
#[export] Hint Extern 1 (monotone get_pacemaker) => apply monotone_get : monotone.
#[export] Hint Extern 1 (monotone get_tree) => apply monotone_get : monotone.
#[export] Hint Extern 1 (monotone get_requests) => apply monotone_get : monotone.
#[export] Hint Extern 1 (monotone (set_safety _)) => apply monotone_modify; reflexivity : monotone.
#[export] Hint Extern 1 (monotone (set_block_tree _)) => apply monotone_modify; reflexivity : monotone.
#[export] Hint Extern 1 (monotone (set_vote_state _)) => apply monotone_modify; reflexivity : monotone.
#[export] Hint Extern 1 (monotone (set_no_endorsement_state _)) => apply monotone_modify; reflexivity : monotone.
#[export] Hint Extern 1 (monotone (set_block_sync_requests _)) => apply monotone_modify; reflexivity : monotone.

(** Follow every branch of a step. *)
Ltac mono :=
  repeat first
    [ solve [eauto 1 with monotone]
    | match goal with
      | |- monotone (mbind _ _) => apply monotone_bind; [|intros ?]
      | |- monotone (match ?x with _ => _ end) => destruct x
      | |- monotone (let '_ := ?x in _) => destruct x
      end ].

Section advance.
Context `{BP : BlockPolicy} `{BVT : !BlockValidator} `{HashOrder}.
Context {VT : Type} `{ValidatorSetType VT} `{LT : LeaderElection} `{CCT : ChainConfig}.
Context (env : Env (VT := VT)).

Lemma monotone_leader_of r : monotone (leader_of env r).
Proof. unfold leader_of. mono. Qed.

Lemma monotone_commit_blocks blocks : monotone (commit_blocks blocks).
Proof. induction blocks; simpl; mono. Qed.
#[local] Hint Resolve monotone_leader_of monotone_commit_blocks : monotone.

Lemma monotone_try_commit qc : monotone (try_commit qc).
Proof. unfold try_commit. mono. Qed.
#[local] Hint Resolve monotone_try_commit : monotone.

Lemma monotone_update_coherency id : monotone (cs_try_update_coherency env id).
Proof. unfold cs_try_update_coherency. mono. Qed.
#[local] Hint Resolve monotone_update_coherency : monotone.

Lemma monotone_request_tip : monotone request_tip_if_missing.
Proof. unfold request_tip_if_missing. mono. Qed.
Lemma monotone_request_blocks : monotone request_blocks_if_missing_ancestor.
Proof. unfold request_blocks_if_missing_ancestor. mono. Qed.
Lemma monotone_statesync : monotone (maybe_statesync env).
Proof. unfold maybe_statesync. mono. Qed.
Lemma monotone_cancel ids : monotone (cancel_requests ids).
Proof. induction ids; simpl; mono. Qed.
#[local] Hint Resolve monotone_request_tip monotone_request_blocks monotone_statesync monotone_cancel : monotone.

Lemma monotone_try_propose : monotone (try_propose env).
Proof. unfold try_propose, repropose, propose_fresh. mono. Qed.
#[local] Hint Resolve monotone_try_propose : monotone.

(** Processing a certificate. *)
Lemma advance_round_reaches c n cmds n' :
  advance_round env c n = Ret (cmds, n') → rc_round c <= high_round n' ∧ high_round n <= high_round n'.
Proof.
  unfold advance_round, high_round. intros Hr. step_inv. branch Hr. branch Hr. step_inv. subst.
  match goal with Hp : pm_process_certificate _ _ _ _ = Ret _ |- _ =>
    apply pm_process_certificate_Ret in Hp as [(? & -> & _)|(? & _ & ? & ? & _ & -> & _)] end; simpl; lia.
Qed.

Lemma monotone_advance_round c : monotone (advance_round env c).
Proof. intros n a n' Hr. apply (advance_round_reaches c n a n' Hr). Qed.
#[local] Hint Resolve monotone_advance_round : monotone.

Lemma monotone_process_qc qc : monotone (process_qc env qc).
Proof. unfold process_qc. mono. Qed.
Lemma monotone_process_tc tc : monotone (process_tc env tc).
Proof. unfold process_tc. mono. Qed.
#[local] Hint Resolve monotone_process_qc monotone_process_tc : monotone.

Lemma monotone_handle_vote author m : monotone (handle_vote_message env author m).
Proof. unfold handle_vote_message. mono. Qed.
#[local] Hint Resolve monotone_handle_vote : monotone.

(** A step that starts with [m] ends no lower than [m] does. *)
Lemma reaches_bind {A B} (m : step A) (f : A → step B) r :
  (∀ n a n', m n = Ret (a, n') → r <= high_round n') → (∀ a, monotone (f a)) →
  ∀ n b n', (m ≫= f) n = Ret (b, n') → r <= high_round n'.
Proof.
  intros Hm Hf n b n' (a & n1 & H1 & H2)%step_bind_Ret_inv. apply Hm in H1. apply Hf in H2. lia.
Qed.

(** One that ends with [f] ends no lower than [f] does. *)
Lemma reaches_then {A B} (m : step A) (f : A → step B) r :
  (∀ a n b n', f a n = Ret (b, n') → r <= high_round n') →
  ∀ n b n', (m ≫= f) n = Ret (b, n') → r <= high_round n'.
Proof. intros Hf n b n' (a & n1 & _ & H2)%step_bind_Ret_inv. by eapply Hf. Qed.

(** Code that only goes on from a certificate at or above the round. *)
Lemma reaches_guard {A} (r : Round) (k : step (list A)) :
  (∀ n a n', k n = Ret (a, n') → r <= high_round n') →
  ∀ n a n', (round ← current_round; if bool_decide (r < round) then mret [] else k) n = Ret (a, n') →
  r <= high_round n'.
Proof.
  intros Hk n a n' (round & n1 & Hc & Hr)%step_bind_Ret_inv.
  unfold current_round, get_current_round in Hc. apply bind_Ret_inv in Hc as (? & [-> _]%round_add_Ret & [= <- <-]).
  case_bool_decide; [|by eapply Hk]. injection Hr as <- <-. unfold high_round. lia.
Qed.

Lemma process_qc_reaches qc n cmds n' :
  process_qc env qc n = Ret (cmds, n') → qc_round qc <= high_round n'.
Proof.
  revert n cmds n'. unfold process_qc. apply reaches_guard. do 5 (apply reaches_then; intros ?).
  apply reaches_bind; [|intros; mono]. intros n cmds n' Hr. apply (advance_round_reaches _ _ _ _ Hr).
Qed.

Lemma process_tc_reaches tc n cmds n' :
  process_tc env tc n = Ret (cmds, n') → tc_round tc <= high_round n'.
Proof.
  revert n cmds n'. unfold process_tc. apply reaches_guard.
  apply reaches_bind; [|intros; mono]. intros n cmds n' Hr. apply (advance_round_reaches _ _ _ _ Hr).
Qed.

(** The round before a timeout is certified by what it carries. *)
Lemma timeout_certificates_reach author t r n cmds n' :
  match t_last_round_certificate t with
  | None => r = qc_round (high_extend_vote_qc (t_high_extend t))
  | Some c => r = rc_round c
  end →
  process_timeout_certificates env author t n = Ret (cmds, n') → r <= high_round n'.
Proof.
  intros Hr. revert n cmds n'. unfold process_timeout_certificates.
  destruct (t_last_round_certificate t) as [[qc|tc]|]; subst r.
  - do 2 (apply reaches_then; intros ?). apply reaches_bind; [|intros; mono]. apply process_qc_reaches.
  - do 2 (apply reaches_then; intros ?). apply reaches_bind; [|intros; mono]. apply process_tc_reaches.
  - apply reaches_bind; [apply process_qc_reaches|]. intros. mono.
Qed.
End advance.

(** * Properties *)

Section run.
Context `{BP : BlockPolicy} `{BVT : !BlockValidator} `{HashOrder}.
Context {VT : Type} `{ValidatorSetType VT} `{LT : LeaderElection} `{CCT : ChainConfig}.

Lemma emits_event root (env : Env (VT := VT)) event : emits root [] (handle_event env event).
Proof.
  destruct event as [author []|round|range blocks|round]; simpl.
  - apply emits_proposal.
  - apply emits_vote.
  - apply emits_timeout.
  - apply emits_round_recovery.
  - apply emits_no_endorsement.
  - apply emits_advance.
  - apply emits_timeout_expiry.
  - apply emits_block_sync.
  - apply emits_handle_vote_timer.
Qed.

Lemma events_inv root events n cmds n' log :
  handle_events (VT := VT) events n = Ret (cmds, n') → node_inv root n log → node_inv root n' (log ++ actions cmds).
Proof.
  revert n cmds log. induction events as [|[env event] events IH]; intros n cmds log; simpl.
  { intros [= <- <-]. by rewrite app_nil_r. }
  intros ([c1 n1] & Hh & ([c2 n2] & Hr & [= <- <-])%bind_Ret_inv)%bind_Ret_inv Hinv.
  rewrite actions_app, (assoc_L (++)). eapply IH; [done|].
  eapply emits_event; [done|]. by rewrite app_nil_r.
Qed.

Lemma node_inv_new em config root c state policy :
  consensus_state_new em config root c = Ret state →
  node_inv (ri_block_id root) (mkNode state em policy) [].
Proof.
  unfold consensus_state_new. intros (pm & Hpm & (r & _ & (s & Hs & [= <-])%bind_Ret_inv)%bind_Ret_inv)%bind_Ret_inv.
  constructor; simpl; [|intros id e He; unfold tree_default in He; simpl in He; by rewrite lookup_empty in He|done]. constructor; [|constructor|set_solver].
  exists []. split; [by eapply vote_inv_init|set_solver].
Qed.
End run.

(** C1. A node never contradicts itself. Take a node that starts from any
    certificate and reacts to any sequence of messages (from anyone, with any
    contents), timers and synced blocks without panicking. Then of any two
    statements it signs, the later does not contradict the earlier: two votes of
    one round, sent or carried by timeouts, are the same vote; a round it voted
    for it never proposes in or refuses to endorse afterwards; and the rounds it
    enters, proposes in, refuses to endorse in, and asks to recover, are each
    strictly increasing. *)
Theorem node_no_equivocation `{BP : BlockPolicy} `{BVT : !BlockValidator} `{HashOrder}
    {VT : Type} `{ValidatorSetType VT} `{LT : LeaderElection} `{CCT : ChainConfig}
    (em : EpochManager) (config : ConsensusConfig) (root : RootInfo) (c : RoundCertificate)
    (state : ConsensusState) (policy : BPT) (events : list (Env (VT := VT) * ConsensusEvent))
    (cmds : list ConsensusCommand) (n : Node)
    (Hnew : consensus_state_new em config root c = Ret state)
    (Hrun : handle_events events (mkNode state em policy) = Ret (cmds, n)) :
  StronglySorted may_follow (actions cmds).
Proof.
  eapply events_inv in Hrun; [|by eapply node_inv_new]. apply (ni_core _ _ _ Hrun).
Qed.

(** C2. Finality. Whatever a node reacts to without panicking, the blocks it
    finalizes form one chain: the first extends the root it started from, each
    other extends the one finalized before it, and the last is the root of its
    block tree. *)
Theorem node_finalized_chain `{BP : BlockPolicy} `{BVT : !BlockValidator} `{HashOrder}
    {VT : Type} `{ValidatorSetType VT} `{LT : LeaderElection} `{CCT : ChainConfig}
    (em : EpochManager) (config : ConsensusConfig) (root : RootInfo) (c : RoundCertificate)
    (state : ConsensusState) (policy : BPT) (events : list (Env (VT := VT) * ConsensusEvent))
    (cmds : list ConsensusCommand) (n : Node)
    (Hnew : consensus_state_new em config root c = Ret state)
    (Hrun : handle_events events (mkNode state em policy) = Ret (cmds, n)) :
  linked (ri_block_id root) (finalized (actions cmds)) (bt_root_id (pending_block_tree (consensus n))).
Proof.
  eapply events_inv in Hrun; [|by eapply node_inv_new]. apply (ni_chain _ _ _ Hrun).
Qed.

Lemma v_bind_Ok_inv `{P : Protocol} `{L : LruCache} {A B} (m : validation A) (f : A → validation B) c b c' :
  v_bind m f c = Ret (Ok b, c') → ∃ a c1, m c = Ret (Ok a, c1) ∧ f a c1 = Ret (Ok b, c').
Proof. unfold v_bind. destruct (m c) as [[[a|e] c1]| |]; naive_solver. Qed.

(** An accepted timeout carries a certificate of the round before it. *)
Lemma timeout_validate_rounds `{P : Protocol} `{L : LruCache} {VT : Type} `{ValidatorSetType VT}
    `{LT : LeaderElection} (em : EpochManager) (vem : ValidatorsEpochMapping VT) m (c c' : CertificateCache) u :
  timeout_validate em vem m c = Ret (Ok u, c') →
  match t_last_round_certificate (timeout_of m) with
  | None => tm_round (t_tminfo (timeout_of m)) = qc_round (high_extend_vote_qc (t_high_extend (timeout_of m))) + 1
  | Some rc => tm_round (t_tminfo (timeout_of m)) = rc_round rc + 1
  end.
Proof.
  unfold timeout_validate. intros (? & c1 & _ & Hv)%v_bind_Ok_inv.
  apply v_bind_Ok_inv in Hv as (? & c2 & Hlast & Hv).
  do 2 (apply v_bind_Ok_inv in Hv as (? & ? & _ & Hv)). apply v_bind_Ok_inv in Hv as (? & ? & Hwf & _).
  destruct (t_last_round_certificate (timeout_of m)) as [rc|] eqn:Hrc.
  - apply v_bind_Ok_inv in Hlast as (? & ? & _ & Hlast). apply v_bind_Ok_inv in Hlast as (next & ? & Hn & Hlast).
    unfold v_exec in Hn. apply bind_Ret_inv in Hn as (? & [-> _]%round_add_Ret & [= <- <-]).
    unfold v_reject_if in Hlast. case_bool_decide; [done|lia].
  - unfold v_try, well_formed_timeout in Hwf. rewrite Hrc in Hwf. exec_inv.
    apply round_add_Ret in Ha0 as [-> _]. case_bool_decide; [done|]. done.
Qed.

(** C28. A timeout that was accepted by validation never trips the pacemaker's
    assertion on its round: once the certificates it carries are processed, the
    node is in the round of the timeout, or past it. *)
Theorem validated_timeout_in_round `{BP : BlockPolicy} `{BVT : !BlockValidator} `{L : LruCache} `{HashOrder}
    {VT : Type} `{ValidatorSetType VT} `{LT : LeaderElection} `{CCT : ChainConfig}
    (em : EpochManager) (vem : ValidatorsEpochMapping VT) (m : TimeoutMessage) (c c' : CertificateCache)
    (env : Env (VT := VT)) (author : NodeId) (n n' : Node) (cmds : list ConsensusCommand)
    (Hvalid : timeout_validate em vem m c = Ret (Ok tt, c'))
    (Hcert : process_timeout_certificates env author (timeout_of m) n = Ret (cmds, n')) :
  ∀ round, get_current_round (pacemaker (consensus n')) = Ret round → tm_round (t_tminfo (timeout_of m)) <= round.
Proof.
  intros round [-> _]%round_add_Ret. apply timeout_validate_rounds in Hvalid.
  assert (tm_round (t_tminfo (timeout_of m)) - 1 <= high_round n'); [|unfold high_round in *; lia].
  eapply timeout_certificates_reach; [|exact Hcert]. destruct (t_last_round_certificate (timeout_of m)); lia.
Qed.

(** ** Concrete runs *)

Section witnesses.
#[local] Existing Instances NopProtocol map_order nop_chain.
#[local] Instance nop_policy : @BlockPolicy NopProtocol := PassthruBlockPolicy.
#[local] Instance nop_validator : @BlockValidator NopProtocol PassthruBlockPolicy := MockValidator.

(** Node 1 of four validators, at time 2500. Validator 2 leads round 1, and so on
    in turn. *)
Definition nop_env : Env (VT := ValidatorSet) :=
  mkEnv (VT := ValidatorSet) tt nop_val_map 1 (mkBlockTimestamp 2500 100000 1) 0 1
    (mkConsensusConfig 3 (from_millis 100) 600 300 300 1) 1 1.
Definition nop_leader (round : Round) : NodeId := round mod 4 + 1.
Definition nop_led_header (round seq_num : Z) (qc : QuorumCertificate) : ConsensusBlockHeader :=
  mkHeader (P := NopProtocol) round 1 qc (nop_leader round) seq_num (1000 * round)
    (round_signature_new (P := NopProtocol) round (nop_leader round)) [] tt
    (body_get_id (P := NopProtocol) (mkBody (P := NopProtocol) [])).
Definition nop_h1 : ConsensusBlockHeader := nop_led_header 1 1 nop_genesis_qc.
Definition nop_h2 : ConsensusBlockHeader := nop_led_header 2 2 (nop_qc 1 (header_get_id nop_h1)).
Definition nop_h3 : ConsensusBlockHeader := nop_led_header 3 3 (nop_qc 2 (header_get_id nop_h2)).
Definition nop_propose (h : ConsensusBlockHeader) : ConsensusEvent :=
  EvMessage (nop_leader (h_block_round h))
    (PM_Proposal (mkProposalMessage (P := NopProtocol) (h_block_round h) 1
       (tip_new (P := NopProtocol) (nop_leader (h_block_round h)) h None) (mkBody (P := NopProtocol) []) None)).

(** The first three leaders propose; the node votes, times out in round 3, and its
    vote timer fires. *)
Definition nop_events : list (Env (VT := ValidatorSet) * ConsensusEvent) :=
  map (λ e, (nop_env, e)) [nop_propose nop_h1; nop_propose nop_h2; EvSendVote 2; nop_propose nop_h3;
                           EvTimeout 3; EvSendVote 3].
Definition nop_start : exec ConsensusState :=
  consensus_state_new nop_epoch_manager (config nop_env) nop_root (RC_Qc nop_genesis_qc).

Definition nop_run (events : list (Env (VT := ValidatorSet) * ConsensusEvent)) :
    exec (list ConsensusCommand * Node) :=
  state ← nop_start; handle_events events (mkNode state nop_epoch_manager tt).

Lemma nop_run_inv events cmds n :
  nop_run events = Ret (cmds, n) →
  ∃ state, nop_start = Ret state ∧ handle_events events (mkNode state nop_epoch_manager tt) = Ret (cmds, n).
Proof. apply bind_Ret_inv. Qed.

Lemma node_no_equivocation_witness :
  ∃ cmds n, nop_run nop_events = Ret (cmds, n) ∧ length (actions cmds) = 8%nat ∧
    StronglySorted may_follow (actions cmds).
Proof.
  destruct (ret_with_spec (λ r, bool_decide (length (actions r.1) = 8%nat)) (nop_run nop_events))
    as ([cmds n] & Hrun & Hlen%bool_decide_eq_true); [vm_compute; reflexivity|].
  exists cmds, n. split; [exact Hrun|]. split; [exact Hlen|].
  destruct (nop_run_inv _ _ _ Hrun) as (state & Hnew & Hev).
  exact (node_no_equivocation nop_epoch_manager (config nop_env) nop_root (RC_Qc nop_genesis_qc) state tt
    nop_events cmds n Hnew Hev).
Defined.

Lemma node_finalized_chain_witness :
  ∃ cmds n, nop_run nop_events = Ret (cmds, n) ∧ length (finalized (actions cmds)) = 1%nat ∧
    linked GENESIS_BLOCK_ID (finalized (actions cmds)) (bt_root_id (pending_block_tree (consensus n))).
Proof.
  destruct (ret_with_spec (λ r, bool_decide (length (finalized (actions r.1)) = 1%nat)) (nop_run nop_events))
    as ([cmds n] & Hrun & Hlen%bool_decide_eq_true); [vm_compute; reflexivity|].
  exists cmds, n. split; [exact Hrun|]. split; [exact Hlen|].
  destruct (nop_run_inv _ _ _ Hrun) as (state & Hnew & Hev).
  exact (node_finalized_chain nop_epoch_manager (config nop_env) nop_root (RC_Qc nop_genesis_qc) state tt
    nop_events cmds n Hnew Hev).
Defined.

#[local] Existing Instance list_lru.

Definition nop_timeout_run : exec (list ConsensusCommand * Node) :=
  state ← nop_start;
  process_timeout_certificates nop_env 2 (nop_timeout1 2) (mkNode (BP := nop_policy) state nop_epoch_manager tt).

Lemma validated_timeout_in_round_witness :
  ∃ cmds n', nop_timeout_run = Ret (cmds, n') ∧
    ∀ round, get_current_round (pacemaker (consensus n')) = Ret round → 1 <= round.
Proof.
  destruct (is_ret_spec nop_timeout_run) as ([cmds n'] & Hrun); [vm_compute; reflexivity|].
  exists cmds, n'. split; [exact Hrun|]. apply bind_Ret_inv in Hrun as (state & _ & Hrun).
  destruct (ret_with_spec _ _ (nop_timeout1_accepted 2 ltac:(set_solver))) as ([r c'] & Hv & Hok%bool_decide_eq_true).
  simpl in Hok. subst r.
  exact (validated_timeout_in_round nop_epoch_manager nop_val_map (mkTimeoutMessage (nop_timeout1 2))
    certificate_cache_default c' nop_env 2 (mkNode (BP := nop_policy) state nop_epoch_manager tt) n' cmds Hv Hrun).
Defined.

(** The node votes in round 2, which starts its vote timer for round 3. The
    certificate of round 3 overtakes the proposal, so it votes next in round 4,
    and then the timer fires. *)
Definition nop_h4 : ConsensusBlockHeader := nop_led_header 4 4 (nop_qc 3 (header_get_id nop_h3)).
Definition nop_overtaken : list ConsensusEvent :=
  [nop_propose nop_h1; nop_propose nop_h2; EvSendVote 2;
   EvMessage 4 (PM_AdvanceRound (mkAdvanceRoundMessage (RC_Qc (nop_qc 3 (header_get_id nop_h3)))));
   nop_propose nop_h3; nop_propose nop_h4].

(** The votes of a list of commands, with whom they are sent to. *)
Definition sent_votes (cmds : list ConsensusCommand) : list (NodeId * Round) :=
  omap (λ c, match c with
             | CC_Publish (PointToPoint to) m =>
                 match (verified_into_inner m).2 with PM_Vote m => Some (to, vote_round (vm_vote m)) | _ => None end
             | _ => None
             end) cmds.

(** The votes sent when the timer of [round] fires after those events. *)
Definition nop_timer_votes (round : Round) : exec (list (NodeId * Round)) :=
  '(cmds, n) ← nop_run (map (λ e, (nop_env, e)) nop_overtaken);
  '(cmds', _) ← handle_event nop_env (EvSendVote round) n;
  Ret (sent_votes cmds').

(** A vote sent by a timer goes to the leaders of the timer's round, not of its
    own: the vote of round 4 reaches the leaders of rounds 4 and 3, and not the
    leader of round 5, which a timer for round 4 would send it to. *)
Example overtaken_vote_misrouted :
  nop_timer_votes 3 = Ret [(nop_leader 4, 4); (nop_leader 3, 4)] ∧
  nop_timer_votes 4 = Ret [(nop_leader 5, 4); (nop_leader 4, 4)].
Proof. split; vm_decide. Qed.
End witnesses.
