(* ===== verification/EthRuns.v ===== *)
(** Runs of the consensus state machine with the Ethereum block policy and
    validator. *)

From S2P Require Import Prelude Types ValidatorSet EpochManager LeaderElection Crypto MultiSig.
From S2P Require Import ConsensusTypes ChainConfig Safety Pacemaker VoteState Timestamp BlockPolicy.
From S2P Require Import BlockTree BlockTreeInv BlockTreeProps Messages Signing SigningProps ConsensusState.
From S2P Require Import EthPolicy EthValidator EthProps EthPolicyProps.

#[local] Open Scope Z_scope.
#[local] Existing Instances step_ret step_bind.

Section runs.
#[local] Existing Instances eth_protocol map_order nop_chain SimpleRoundRobin list_lru.
#[local] Instance demo_block_policy : @BlockPolicy eth_protocol := EthPolicy.
#[local] Instance demo_block_validator : @BlockValidator eth_protocol EthPolicy := EthValidator 20143.

(** Node 1 of four validators at genesis. *)
Definition demo_env : Env (VT := ValidatorSet) :=
  mkEnv (VT := ValidatorSet) demo_db nop_val_map 1 (mkBlockTimestamp 2500 100000 1) 0 1
    (mkConsensusConfig 1 (from_millis 100) 600 300 300 1) 1 1.
Definition demo_genesis_qc : QuorumCertificate := h_qc (demo_header 1 1 0 [0]).
Definition demo_start : exec Node :=
  state ← consensus_state_new nop_epoch_manager (config demo_env) demo_root (RC_Qc demo_genesis_qc);
  Ret (mkNode state nop_epoch_manager (demo_policy 1)).

(** The proposal of the leader of round 1, node 2, for a block with the given number. *)
Definition demo_proposal (number : Z) : ProposalMessage :=
  mkProposalMessage 1 1 (tip_new (P := eth_protocol) 2 (demo_header 1 number 0 [0]) None) (demo_body 0) None.
Definition demo_validated (number : Z) : exec (result unit ValidationError) :=
  '(r, _) ← proposal_validate nop_epoch_manager nop_val_map (demo_proposal number) certificate_cache_default;
  Ret r.
Definition demo_handle (number : Z) : exec (list ConsensusCommand * Node) :=
  n ← demo_start; handle_event demo_env (EvMessage 2 (PM_Proposal (demo_proposal number))) n.

(** A leader that gives its first block a wrong number stops every node that
    hears it: the proposal passes validation, and the assertion at the start of
    [check_coherency] fails, before the comparison that would reject the block.
    The same proposal with the right number is handled. *)
Example eth_wrong_number_panics :
  demo_validated 1 = Ret (Ok tt) ∧ is_ret (demo_handle 1) = true ∧
  demo_validated 2 = Ret (Ok tt) ∧ demo_check 2 0 [0] = Panic ∧ demo_handle 2 = Panic.
Proof. split_and!; [vm_compute; reflexivity..|]. apply is_panic_spec. vm_compute. reflexivity. Qed.
End runs.
