(* ===== verification/MonadState.v ===== *)
(** The top-level state machine of a node (src/monad-state/src): it starts by
    syncing, becomes live, dispatches events to consensus, block sync, state sync
    and the epoch tracker, and turns their commands into commands of the
    executors (src/monad-executor-glue/src/lib.rs). *)

From S2P Require Import Prelude Types ValidatorSet EpochManager LeaderElection Crypto MultiSig.
From S2P Require Import ConsensusTypes ChainConfig Safety Pacemaker VoteState Timestamp BlockPolicy.
From S2P Require Import BlockTree Messages Signing ConsensusState BlockSync StateSync.

#[local] Open Scope Z_scope.

(** * Validator sets *)

(** src/monad-consensus-types/src/validator_data.rs *)
Record ValidatorData := mkValidatorData {
  vd_node_id : NodeId;
  vd_stake : Stake;
  vd_cert_pubkey : PubKey;
}.
Record ValidatorSetDataWithEpoch := mkValidatorSetDataWithEpoch {
  vse_epoch : Epoch;
  vse_validators : list ValidatorData;
}.
Definition get_stakes (l : list ValidatorData) : list (NodeId * Stake) := map (λ v, (vd_node_id v, vd_stake v)) l.
Definition get_cert_pubkeys_of (l : list ValidatorData) : list (NodeId * PubKey) :=
  map (λ v, (vd_node_id v, vd_cert_pubkey v)) l.

(** [ValidatorMapping::new]: [into_iter().collect()] *)
Definition validator_mapping_new (l : list (NodeId * PubKey)) : ValidatorMapping :=
  mkValidatorMapping (foldl (λ m np, <[np.1 := np.2]> m) ∅ l).

(** [ValidatorsConfig::get_validator_set]: the set of the greatest epoch at or
    below [epoch]. *)
Definition config_validator_set (validators : gmap Epoch (list ValidatorData)) (epoch : Epoch) :
    exec (list ValidatorData) :=
  kv ← expect (last (filter (λ kv : Epoch * list ValidatorData, 0 <= kv.1 <= epoch) (btree_iter validators)));
  Ret kv.2.
Fixpoint get_locked_validator_sets (validators : gmap Epoch (list ValidatorData)) (locked : list LockedEpoch) :
    exec (list ValidatorSetDataWithEpoch) :=
  match locked with
  | [] => Ret []
  | l :: locked =>
      set ← config_validator_set validators (le_epoch l);
      sets ← get_locked_validator_sets validators locked;
      Ret (mkValidatorSetDataWithEpoch (le_epoch l) set :: sets)
  end.

(** * Forkpoints *)

Inductive ForkpointValidationError :=
| TooFewValidatorSets
| TooManyValidatorSets
| ValidatorSetsNotConsecutive
| InvalidValidatorSetStartEpoch
| InvalidQC
| InvalidHighCertificate.

Section forkpoint.
Context `{P : Protocol} `{L : LruCache}.
Context {VT : Type} `{ValidatorSetType VT} `{LT : LeaderElection}.
Context (factory : list (NodeId * Stake) → exec (result VT ValidatorSetError)).

Definition forkpoint_genesis : exec Checkpoint :=
  qc ← genesis_qc;
  Ret (mkCheckpoint GENESIS_BLOCK_ID (RC_Qc qc) [mkLockedEpoch 1 GENESIS_ROUND]).

Definition get_epoch_starts (cp : Checkpoint) : list (Epoch * Round) :=
  map (λ e, (le_epoch e, le_round e)) (cp_validator_sets cp).

(** [validator_sets.iter().zip(validator_sets.iter().skip(1)).all(..)] *)
Fixpoint sets_consecutive (sets : list LockedEpoch) : exec bool :=
  match sets with
  | set_1 :: ((set_2 :: _) as sets) =>
      next ← epoch_add (le_epoch set_1) 1;
      if bool_decide (next = le_epoch set_2) && bool_decide (le_round set_1 < le_round set_2)
      then sets_consecutive sets else Ret false
  | _ => Ret true
  end.

(** The map from epochs to validator sets that [validate] builds. *)
Fixpoint locked_validators (l : list ValidatorSetDataWithEpoch) : exec (gmap Epoch (VT * ValidatorMapping)) :=
  match l with
  | [] => Ret ∅
  | locked :: l =>
      created ← factory (get_stakes (vse_validators locked));
      vset ← unwrap created;
      m ← locked_validators l;
      (* later entries of a [collect] replace earlier ones *)
      Ret (m ∪ {[ vse_epoch locked := (vset, validator_mapping_new (get_cert_pubkeys_of (vse_validators locked))) ]})
  end.

Definition forkpoint_etv (validators : gmap Epoch (VT * ValidatorMapping)) : EpochToValidators := λ epoch round,
  match validators !! epoch with
  | None => Ret (Err ValidatorSetDataUnavailable)
  | Some (vset, vmap) =>
      leader ← get_leader round (get_members vset);
      Ret (Ok (vset, vmap, leader))
  end.

Definition forkpoint_validate (cp : Checkpoint) (locked_validator_sets : list ValidatorSetDataWithEpoch) :
    exec (result unit ForkpointValidationError) :=
  if bool_decide (cp_validator_sets cp = []) then Ret (Err TooFewValidatorSets) else
  if bool_decide (2 < length (cp_validator_sets cp))%nat then Ret (Err TooManyValidatorSets) else
  _ ← assert (bool_decide (length (cp_validator_sets cp) = length locked_validator_sets));
  consecutive ← sets_consecutive (cp_validator_sets cp);
  if negb consecutive then Ret (Err ValidatorSetsNotConsecutive) else
  _ ← assert (forallb (λ lf : ValidatorSetDataWithEpoch * LockedEpoch, bool_decide (vse_epoch lf.1 = le_epoch lf.2))
                (zip locked_validator_sets (cp_validator_sets cp)));
  validators ← locked_validators locked_validator_sets;
  match cp_high_certificate cp with
  | RC_Qc qc =>
      '(r, _) ← verify_qc (forkpoint_etv validators) qc certificate_cache_default;
      Ret (map_err r InvalidQC)
  | RC_Tc tc =>
      '(r, _) ← verify_tc (forkpoint_etv validators) tc certificate_cache_default;
      Ret (map_err r InvalidHighCertificate)
  end.
End forkpoint.

(** * Commands and events *)

(** Data that the state machine passes on without looking at it: messages of the
    state-sync protocol and entries of the peer table. *)
Class Externals := {
  StateSyncNetworkMessage : Type;
  PeerEntry : Type;
}.

(** src/monad-state-backend/src/lib.rs: what the top level reads of the database. *)
Class StateBackend `{BP : BlockPolicy} := {
  raw_read_earliest_finalized_block : SBT → option SeqNum;
  raw_read_latest_finalized_block : SBT → option SeqNum;
}.

Inductive TimeoutVariant :=
| TV_Pacemaker
| TV_BlockSync (request : BlockSyncRequestMessage)
| TV_SendVote.

Inductive Role := FullNode | Validator.
#[export] Instance Role_eq_dec : EqDecision Role.
Proof. solve_decision. Defined.

Inductive DbSyncStatus := DbWaiting | DbStarted | DbDone.
#[export] Instance DbSyncStatus_eq_dec : EqDecision DbSyncStatus.
Proof. solve_decision. Defined.

Section commands.
Context `{BP : BlockPolicy} `{X : Externals}.

Inductive VerifiedMonadMessage :=
| VM_Consensus (m : Verified (Validated ConsensusMessage))
| VM_BlockSyncRequest (m : BlockSyncRequestMessage)
| VM_BlockSyncResponse (m : BlockSyncResponseMessage)
| VM_ForwardedTx (txs : list bytes)
| VM_StateSyncMessage (m : StateSyncNetworkMessage).

Inductive MonadMessage :=
| MM_Consensus (m : Unverified (Unvalidated ConsensusMessage))
| MM_BlockSyncRequest (m : BlockSyncRequestMessage)
| MM_BlockSyncResponse (m : BlockSyncResponseMessage)
| MM_ForwardedTx (txs : list bytes)
| MM_StateSyncMessage (m : StateSyncNetworkMessage).

(** [From<VerifiedMonadMessage> for MonadMessage] *)
Definition monad_message_from (m : VerifiedMonadMessage) : MonadMessage :=
  match m with
  | VM_Consensus m => MM_Consensus (unverified_from m)
  | VM_BlockSyncRequest m => MM_BlockSyncRequest m
  | VM_BlockSyncResponse m => MM_BlockSyncResponse m
  | VM_ForwardedTx txs => MM_ForwardedTx txs
  | VM_StateSyncMessage m => MM_StateSyncMessage m
  end.

(** [ConsensusEvent], with messages as they arrive. *)
Inductive ConsensusInput :=
| CE_Message (sender : NodeId) (unverified_message : Unverified (Unvalidated ConsensusMessage))
| CE_Timeout (round : Round)
| CE_BlockSync (block_range : BlockRange) (full_blocks : list ConsensusFullBlock)
| CE_SendVote (round : Round).

Inductive MempoolEvent :=
| MP_Proposal (epoch : Epoch) (round : Round) (seq_num : SeqNum) (high_qc : QuorumCertificate) (timestamp_ns : Z)
    (round_signature : SignatureType) (delayed_execution_results : list FinalizedHeader)
    (proposed_header : ProposedHeader) (proposed_body : ExecutionBody)
    (last_round_tc : option TimeoutCertificate) (fresh_proposal_certificate : option FreshProposalCertificate)
| MP_ForwardedTxs (sender : NodeId) (txs : list bytes)
| MP_ForwardTxs (txs : list bytes).

Inductive StateSyncEvent :=
| SS_Inbound (sender : NodeId) (message : StateSyncNetworkMessage)
| SS_Outbound (to : NodeId) (message : StateSyncNetworkMessage)
| SS_RequestSync (root : ConsensusBlockHeader) (high_qc : QuorumCertificate)
| SS_DoneSync (n : SeqNum)
| SS_BlockSync (block_range : BlockRange) (full_blocks : list ConsensusFullBlock).

(** Responses with metrics are without their contents. *)
Inductive ControlPanelEvent :=
| CP_GetMetrics
| CP_ClearMetrics
| CP_UpdateLogFilter (filter : string)
| CP_GetPeersRequest
| CP_GetPeersResponse (peers : list PeerEntry)
| CP_GetFullNodesRequest
| CP_GetFullNodesResponse (nodes : list NodeId)
| CP_ReloadConfigRequest
| CP_ReloadConfigResponse (response : string).

Inductive ConfigEvent :=
| CF_ConfigUpdate (full_nodes blocksync_override_peers : list NodeId)
| CF_LoadError (err_msg : string)
| CF_KnownPeersUpdate (known_peers : list PeerEntry).

Inductive MonadEvent :=
| ME_Consensus (e : ConsensusInput)
| ME_BlockSync (e : BlockSyncEvent)
| ME_Validator (vset : ValidatorSetDataWithEpoch)
| ME_Mempool (e : MempoolEvent)
| ME_StateSync (e : StateSyncEvent)
| ME_ControlPanel (e : ControlPanelEvent)
| ME_TimestampUpdate (t : Z)
| ME_Config (e : ConfigEvent).

(** [Message::event] *)
Definition message_event (m : MonadMessage) (from : NodeId) : MonadEvent :=
  match m with
  | MM_Consensus msg => ME_Consensus (CE_Message from msg)
  | MM_BlockSyncRequest request => ME_BlockSync (BSE_Request from request)
  | MM_BlockSyncResponse response => ME_BlockSync (BSE_Response from response)
  | MM_ForwardedTx txs => ME_Mempool (MP_ForwardedTxs from txs)
  | MM_StateSyncMessage msg => ME_StateSync (SS_Inbound from msg)
  end.

Inductive OptimisticCommit :=
| OC_Proposed (block : ConsensusFullBlock)
| OC_Finalized (block : ConsensusFullBlock).

Inductive RouterCommand :=
| RC_Publish (target : RouterTarget) (message : VerifiedMonadMessage)
| RC_PublishToFullNodes (epoch : Epoch) (message : VerifiedMonadMessage)
| RC_AddEpochValidatorSet (epoch : Epoch) (validator_set : list (NodeId * Stake))
| RC_UpdateCurrentRound (epoch : Epoch) (round : Round)
| RC_GetPeers
| RC_UpdatePeers (peers : list PeerEntry)
| RC_GetFullNodes
| RC_UpdateFullNodes (nodes : list NodeId).

Inductive TimerCommand :=
| TC_Schedule (duration : Duration) (variant : TimeoutVariant) (on_timeout : MonadEvent)
| TC_ScheduleReset (variant : TimeoutVariant).

Inductive LedgerCommand :=
| LC_LedgerCommit (commit : OptimisticCommit)
| LC_LedgerFetchHeaders (block_range : BlockRange)
| LC_LedgerFetchPayload (payload_id : Z).

Inductive TxPoolCommand :=
| TP_BlockCommit (blocks : list ValidatedBlock)
| TP_CreateProposal (epoch : Epoch) (round : Round) (seq_num : SeqNum) (high_qc : QuorumCertificate)
    (round_signature : SignatureType) (last_round_tc : option TimeoutCertificate)
    (fresh_proposal_certificate : option FreshProposalCertificate)
    (tx_limit proposal_gas_limit proposal_byte_limit : Z) (beneficiary : Z) (timestamp_ns : Z)
    (extending_blocks : list ValidatedBlock) (delayed_execution_results : list FinalizedHeader)
| TP_InsertForwardedTxs (sender : NodeId) (txs : list bytes)
| TP_EnterRound (epoch : Epoch) (round : Round) (upcoming_leader_rounds : list Round)
| TP_Reset (last_delay_committed_blocks : list ValidatedBlock).

Inductive StateSyncCommand :=
| SC_RequestSync (header : FinalizedHeader)
| SC_Message (to : NodeId) (message : StateSyncNetworkMessage)
| SC_StartExecution.

Inductive Command :=
| C_Router (c : RouterCommand)
| C_Timer (c : TimerCommand)
| C_Ledger (c : LedgerCommand)
| C_Checkpoint (root_seq_num : SeqNum) (checkpoint : Checkpoint)
| C_ValSetNotifyFinalized (seq_num : SeqNum)
| C_TimestampAdjust (adjustment : TimestampAdjustment)
| C_TxPool (c : TxPoolCommand)
| C_ControlPanel (c : ControlPanelEvent)
| C_Loopback (e : MonadEvent)
| C_StateSync (c : StateSyncCommand)
| C_ConfigReload.

(** [From<WrappedConsensusCommand> for Vec<Command>] *)
Definition from_consensus_command (upcoming_leader_rounds : list Round) (command : ConsensusCommand) : list Command :=
  match command with
  | CC_EnterRound epoch round =>
      [C_Router (RC_UpdateCurrentRound epoch round); C_TxPool (TP_EnterRound epoch round upcoming_leader_rounds)]
  | CC_Publish target message => [C_Router (RC_Publish target (VM_Consensus message))]
  | CC_PublishToFullNodes epoch message => [C_Router (RC_PublishToFullNodes epoch (VM_Consensus message))]
  | CC_Schedule round duration => [C_Timer (TC_Schedule duration TV_Pacemaker (ME_Consensus (CE_Timeout round)))]
  | CC_ScheduleReset => [C_Timer (TC_ScheduleReset TV_Pacemaker)]
  | CC_CreateProposal epoch round seq_num high_qc round_signature last_round_tc fresh_proposal_certificate
      tx_limit proposal_gas_limit proposal_byte_limit beneficiary timestamp_ns extending_blocks delayed_execution_results =>
      [C_TxPool (TP_CreateProposal epoch round seq_num high_qc round_signature last_round_tc fresh_proposal_certificate
                   tx_limit proposal_gas_limit proposal_byte_limit beneficiary timestamp_ns extending_blocks
                   delayed_execution_results)]
  | CC_CommitBlocks (Proposed block) => [C_Ledger (LC_LedgerCommit (OC_Proposed (vb_block block)))]
  | CC_CommitBlocks (Finalized block) =>
      [C_Ledger (LC_LedgerCommit (OC_Finalized (vb_block block))); C_TxPool (TP_BlockCommit [block]);
       C_ValSetNotifyFinalized (vb_seq_num block)]
  | CC_RequestSync block_range => [C_Loopback (ME_BlockSync (BSE_SelfRequest RequesterConsensus block_range))]
  | CC_CancelSync block_range => [C_Loopback (ME_BlockSync (BSE_SelfCancelRequest RequesterConsensus block_range))]
  | CC_RequestStateSync root high_qc => [C_Loopback (ME_StateSync (SS_RequestSync root high_qc))]
  | CC_TimestampUpdate t => [C_TimestampAdjust t]
  | CC_ScheduleVote duration round => [C_Timer (TC_Schedule duration TV_SendVote (ME_Consensus (CE_SendVote round)))]
  end.

(** [From<WrappedBlockSyncCommand> for Vec<Command>] *)
Definition from_block_sync_command (request_timeout : Duration) (command : BlockSyncCommand) : list Command :=
  match command with
  | BSC_SendRequest to request => [C_Router (RC_Publish (TcpPointToPoint to) (VM_BlockSyncRequest request))]
  | BSC_ScheduleTimeout request =>
      [C_Timer (TC_Schedule request_timeout (TV_BlockSync request) (ME_BlockSync (BSE_Timeout request)))]
  | BSC_ResetTimeout request => [C_Timer (TC_ScheduleReset (TV_BlockSync request))]
  | BSC_SendResponse to response => [C_Router (RC_Publish (TcpPointToPoint to) (VM_BlockSyncResponse response))]
  | BSC_FetchHeaders block_range => [C_Ledger (LC_LedgerFetchHeaders block_range)]
  | BSC_FetchPayload payload_id => [C_Ledger (LC_LedgerFetchPayload payload_id)]
  | BSC_Emit RequesterStateSync block_range full_blocks =>
      [C_Loopback (ME_StateSync (SS_BlockSync block_range full_blocks))]
  | BSC_Emit RequesterConsensus block_range full_blocks =>
      [C_Loopback (ME_Consensus (CE_BlockSync block_range full_blocks))]
  end.
End commands.

(** * State *)

Section state.
Context `{BP : BlockPolicy} `{BVT : !BlockValidator} `{L : LruCache} `{HashOrder} `{R : Rng} `{X : Externals} `{SB : !StateBackend}.
Context {VT : Type} `{ValidatorSetType VT} `{LT : LeaderElection} `{CCT : ChainConfig}.
Context (factory : list (NodeId * Stake) → exec (result VT ValidatorSetError)).
Notation ConsensusState := (@ConsensusState _ BP).

Inductive ConsensusMode :=
| CM_Sync (high_certificate : RoundCertificate) (block_buffer : BlockBuffer) (db_status : DbSyncStatus)
    (updating_target : bool)
| CM_Live (consensus : ConsensusState).

Definition start_sync (high_certificate : RoundCertificate) (block_buffer : BlockBuffer) : ConsensusMode :=
  CM_Sync high_certificate block_buffer DbWaiting false.

Definition mode_current_epoch (m : ConsensusMode) : Epoch :=
  match m with
  | CM_Sync (RC_Qc qc) _ _ _ => qc_epoch qc
  | CM_Sync (RC_Tc tc) _ _ _ => tc_epoch tc
  | CM_Live c => pm_current_epoch (pacemaker c)
  end.

(** The fields behind shared references of the child states are one [Env]. *)
Record MonadState := mkMonadState {
  ms_env : Env (VT := VT);
  ms_consensus : ConsensusMode;
  ms_certificate_cache : CertificateCache;
  ms_block_sync : BlockSync;
  ms_epoch_manager : EpochManager;
  ms_block_policy : BPT;
}.

Definition set_env (env : Env (VT := VT)) (ms : MonadState) : MonadState :=
  mkMonadState env (ms_consensus ms) (ms_certificate_cache ms) (ms_block_sync ms) (ms_epoch_manager ms) (ms_block_policy ms).
Definition set_mode (m : ConsensusMode) (ms : MonadState) : MonadState :=
  mkMonadState (ms_env ms) m (ms_certificate_cache ms) (ms_block_sync ms) (ms_epoch_manager ms) (ms_block_policy ms).
Definition set_cache (c : CertificateCache) (ms : MonadState) : MonadState :=
  mkMonadState (ms_env ms) (ms_consensus ms) c (ms_block_sync ms) (ms_epoch_manager ms) (ms_block_policy ms).
Definition set_block_sync (bs : BlockSync) (ms : MonadState) : MonadState :=
  mkMonadState (ms_env ms) (ms_consensus ms) (ms_certificate_cache ms) bs (ms_epoch_manager ms) (ms_block_policy ms).
Definition set_policy (p : BPT) (ms : MonadState) : MonadState :=
  mkMonadState (ms_env ms) (ms_consensus ms) (ms_certificate_cache ms) (ms_block_sync ms) (ms_epoch_manager ms) p.

Definition set_env_validators (v : ValidatorsEpochMapping VT) (e : Env (VT := VT)) : Env (VT := VT) :=
  mkEnv (state_backend e) v (version e) (block_timestamp e) (beneficiary e) (nodeid e) (config e) (keypair e) (cert_keypair e).
Definition set_env_timestamp (t : BlockTimestamp) (e : Env (VT := VT)) : Env (VT := VT) :=
  mkEnv (state_backend e) (val_epoch_map e) (version e) t (beneficiary e) (nodeid e) (config e) (keypair e) (cert_keypair e).
(** The database moves on by itself. *)
Definition set_env_backend (s : SBT) (e : Env (VT := VT)) : Env (VT := VT) :=
  mkEnv s (val_epoch_map e) (version e) (block_timestamp e) (beneficiary e) (nodeid e) (config e) (keypair e) (cert_keypair e).

(** A live node as the consensus handlers see it, and back. *)
Definition ms_node (ms : MonadState) (c : ConsensusState) : Node := mkNode c (ms_epoch_manager ms) (ms_block_policy ms).
Definition set_node (n : Node) (ms : MonadState) : MonadState :=
  mkMonadState (ms_env ms) (CM_Live (consensus n)) (ms_certificate_cache ms) (ms_block_sync ms) (epoch_manager n)
    (block_policy n).

(** ** ConsensusChildState *)

Definition get_role (ms : MonadState) : exec Role :=
  match ms_consensus ms with
  | CM_Sync _ _ _ _ => Ret FullNode
  | CM_Live _ =>
      validator_set ← expect (get_val_set (val_epoch_map (ms_env ms)) (mode_current_epoch (ms_consensus ms)));
      Ret (if bool_decide (is_Some (get_members validator_set !! nodeid (ms_env ms))) then Validator else FullNode)
  end.

Definition get_self_stake_bps (ms : MonadState) : exec Z :=
  match ms_consensus ms with
  | CM_Sync _ _ _ _ => Ret 0
  | CM_Live _ =>
      validator_set ← expect (get_val_set (val_epoch_map (ms_env ms)) (mode_current_epoch (ms_consensus ms)));
      match get_members validator_set !! nodeid (ms_env ms) with
      | Some self_stake =>
          let total_stake := get_total_stake validator_set in
          let scaled := self_stake * 10000 mod 2 ^ 256 in
          _ ← assert (bool_decide (total_stake ≠ 0));
          let bps := scaled / total_stake + (if bool_decide (scaled mod total_stake = 0) then 0 else 1) in
          _ ← assert (bool_decide (bps <= u64_max));
          Ret bps
      | None => Ret 0
      end
  end.

Definition allowed_for (role : Role) (cmd : ConsensusCommand) : bool :=
  match role with
  | Validator => true
  | FullNode =>
      match cmd with
      | CC_Publish _ _ | CC_PublishToFullNodes _ _ => false
      | CC_CreateProposal _ _ _ _ _ _ _ _ _ _ _ _ _ _ => false
      | _ => true
      end
  end.
Definition filter_cmds (ms : MonadState) (cmds : list ConsensusCommand) : exec (list ConsensusCommand) :=
  role ← get_role ms;
  Ret (filter (λ c, allowed_for role c = true) cmds).

(** [wrap] and the conversion to commands of the executors. *)
Definition wrap_command (ms : MonadState) (cmd : ConsensusCommand) : exec (list Command) :=
  upcoming_leader_rounds ←
    match ms_consensus ms with
    | CM_Sync _ _ _ _ => Ret []
    | CM_Live c => '(rounds, _) ← iter_upcoming_self_leader_rounds (ms_env ms) (ms_node ms c); Ret rounds
    end;
  Ret (from_consensus_command upcoming_leader_rounds cmd).
Fixpoint wrap_commands (ms : MonadState) (cmds : list ConsensusCommand) : exec (list Command) :=
  match cmds with
  | [] => Ret []
  | cmd :: cmds =>
      wrapped ← wrap_command ms cmd;
      rest ← wrap_commands ms cmds;
      Ret (wrapped ++ rest)
  end.

(** The sender of a message is not compared with its author. *)
Definition verify_and_validate_consensus_message (ms : MonadState)
    (message : Unverified (Unvalidated ConsensusMessage)) :
    exec (option (Verified (Validated ConsensusMessage)) * CertificateCache) :=
  match unverified_verify (ms_epoch_manager ms) (val_epoch_map (ms_env ms)) message with
  | Err _ => Ret (None, ms_certificate_cache ms)
  | Ok verified_message =>
      '(r, cache) ← validate (ms_epoch_manager ms) (val_epoch_map (ms_env ms)) verified_message
                      (version (ms_env ms)) (ms_certificate_cache ms);
      Ret (match r with Ok m => Some m | Err _ => None end, cache)
  end.

(** [ConsensusChildState::update] of a live node; the proposals it accepts are
    also passed on to full nodes. *)
Definition live_update (ms : MonadState) (c : ConsensusState) (event : ConsensusInput) :
    exec (list ConsensusCommand * MonadState) :=
  let run (event : ConsensusEvent) (ms : MonadState) :=
    '(cmds, n) ← handle_event (ms_env ms) event (ms_node ms c); Ret (cmds, set_node n ms) in
  match event with
  | CE_Message sender unverified_message =>
      '(verified, cache) ← verify_and_validate_consensus_message ms unverified_message;
      let ms := set_cache cache ms in
      match verified with
      | None => Ret ([], ms)
      | Some verified_message =>
          let '(author, protocol_message) := verified_into_inner verified_message in
          '(cmds, ms) ← run (EvMessage author protocol_message) ms;
          Ret (match protocol_message with
               | PM_Proposal msg => cmds ++ [CC_PublishToFullNodes (p_proposal_epoch msg) verified_message]
               | _ => cmds
               end, ms)
      end
  | CE_Timeout round => run (EvTimeout round) ms
  | CE_BlockSync block_range full_blocks => run (EvBlockSync block_range full_blocks) ms
  | CE_SendVote round => run (EvSendVote round) ms
  end.

(** [ConsensusChildState::update] of a syncing node: proposals are buffered, and
    may move the target of the sync. *)
Definition sync_update (ms : MonadState) (high_certificate : RoundCertificate) (block_buffer : BlockBuffer)
    (db_status : DbSyncStatus) (updating_target : bool) (event : ConsensusInput) :
    exec (list ConsensusCommand * MonadState) :=
  match event with
  | CE_Message sender unverified_message =>
      '(verified, cache) ← verify_and_validate_consensus_message ms unverified_message;
      let ms := set_cache cache ms in
      match verified_into_inner <$> verified with
      | Some (author, PM_Proposal proposal) =>
          '(target, block_buffer) ← buffer_handle_proposal block_buffer author proposal;
          match target with
          | Some (new_root, new_high_qc) =>
              Ret (if updating_target then [] else [CC_RequestStateSync new_root new_high_qc],
                   set_mode (CM_Sync high_certificate block_buffer db_status true) ms)
          | None => Ret ([], set_mode (CM_Sync high_certificate block_buffer db_status updating_target) ms)
          end
      | _ => Ret ([], ms)
      end
  | _ => Ret ([], ms)
  end.

Definition consensus_child_update (ms : MonadState) (event : ConsensusInput) :
    exec (list ConsensusCommand * MonadState) :=
  match ms_consensus ms with
  | CM_Live c =>
      '(cmds, ms) ← live_update ms c event;
      cmds ← filter_cmds ms cmds;
      Ret (cmds, ms)
  | CM_Sync high_certificate block_buffer db_status updating_target =>
      sync_update ms high_certificate block_buffer db_status updating_target event
  end.

Definition ms_checkpoint (ms : MonadState) : exec (list Command) :=
  match ms_consensus ms with
  | CM_Sync _ _ _ _ => Ret []
  | CM_Live c =>
      cp ← checkpoint (ms_env ms) (ms_node ms c);
      Ret [C_Checkpoint (ri_seq_num (root_info (bt_root (pending_block_tree c)))) cp]
  end.
(** Proposals are put together from what the transaction pool made. *)
Definition handle_mempool_event (ms : MonadState) (event : MempoolEvent) : exec (list Command) :=
  match ms_consensus ms with
  | CM_Sync _ _ _ _ =>
      match event with
      | MP_Proposal _ _ _ _ _ _ _ _ _ _ _ => Panic
      | MP_ForwardedTxs _ _ | MP_ForwardTxs _ => Ret []
      end
  | CM_Live c =>
      let env := ms_env ms in
      match event with
      | MP_Proposal epoch round seq_num high_qc timestamp_ns round_signature delayed_execution_results
          proposed_header proposed_body last_round_tc fresh_proposal_certificate =>
          let block_body := mkBody proposed_body in
          let block_header :=
            mkHeader round epoch high_qc (nodeid env) seq_num timestamp_ns round_signature delayed_execution_results
              proposed_header (body_get_id block_body) in
          let p := mkProposalMessage round epoch (tip_new (keypair env) block_header fresh_proposal_certificate)
                     block_body last_round_tc in
          let msg := consensus_message_sign (mkConsensusMessage (version env) (PM_Proposal p)) (keypair env) in
          Ret [C_Router (RC_Publish (Raptorcast epoch) (VM_Consensus msg))]
      | MP_ForwardedTxs sender txs => Ret [C_TxPool (TP_InsertForwardedTxs sender txs)]
      | MP_ForwardTxs txs =>
          '(targets, _) ← iter_future_other_leaders env (ms_node ms c);
          Ret (map (λ target, C_Router (RC_Publish (PointToPoint target) (VM_ForwardedTx txs))) targets)
      end
  end.

(** ** BlockSyncChildState *)

Definition block_sync_child_update (ms : MonadState) (event : BlockSyncEvent) : exec (list Command * MonadState) :=
  let cache :=
    match ms_consensus ms with
    | CM_Sync _ block_buffer _ _ => BC_BlockBuffer (payload_cache block_buffer)
    | CM_Live c => BC_BlockTree (pending_block_tree c)
    end in
  let env := mkBlockSyncEnv cache (nodeid (ms_env ms)) (mode_current_epoch (ms_consensus ms)) (val_epoch_map (ms_env ms)) in
  '(cmds, bs) ← block_sync_update env (ms_block_sync ms) event;
  let request_timeout := 7 * cfg_delta (config (ms_env ms)) in
  _ ← assert (bool_decide (cmds = []) || bool_decide (request_timeout <= Duration_MAX));
  Ret (concat (map (from_block_sync_command request_timeout) cmds), set_block_sync bs ms).

(** ** EpochChildState *)

Definition epoch_child_update (ms : MonadState) (vset : ValidatorSetDataWithEpoch) : exec (list Command * MonadState) :=
  let stakes := get_stakes (vse_validators vset) in
  val_epoch_map ← epoch_mapping_insert factory (val_epoch_map (ms_env ms)) (vse_epoch vset) stakes
                    (validator_mapping_new (get_cert_pubkeys_of (vse_validators vset)));
  Ret ([C_Router (RC_AddEpochValidatorSet (vse_epoch vset) stakes)],
       set_env (set_env_validators val_epoch_map (ms_env ms)) ms).

(** ** Consensus events *)

Definition takes_checkpoint (c : ConsensusCommand) : bool :=
  match c with CC_EnterRound _ _ | CC_CommitBlocks (Finalized _) => true | _ => false end.
Definition enters_round (c : ConsensusCommand) : bool := match c with CC_EnterRound _ _ => true | _ => false end.

Definition update_consensus (ms : MonadState) (event : ConsensusInput) : exec (list Command * MonadState) :=
  '(consensus_cmds, ms) ← consensus_child_update ms event;
  cmds ← wrap_commands ms consensus_cmds;
  _ ← (if existsb enters_round consensus_cmds then get_self_stake_bps ms else Ret 0);
  cp ← (if existsb takes_checkpoint consensus_cmds then ms_checkpoint ms else Ret []);
  Ret (cmds ++ cp, ms).

(** ** Starting consensus *)

(** [last_delay_committed_blocks]. [rev] of [take] of [map] validates every block
    of the chain, unless none is taken. *)
Fixpoint validate_committed (chain : list ConsensusFullBlock) : exec (list ValidatedBlock) :=
  match chain with
  | [] => Ret []
  | full_block :: chain =>
      let header := fb_header full_block in
      let params := get_chain_revision (h_block_round header) in
      let timestamp_s := h_timestamp_ns header / 1000000000 in
      _ ← assert (bool_decide (timestamp_s <= u64_max));
      let code_size := max_code_size (get_execution_chain_revision timestamp_s) in
      validated ← block_validate header (fb_body full_block) None (tx_limit params) (proposal_gas_limit params)
                    (proposal_byte_limit params) code_size;
      block ← unwrap validated;
      blocks ← validate_committed chain;
      Ret (block :: blocks)
  end.
Definition last_committed (delay : SeqNum) (chain : list ConsensusFullBlock) : exec (list ValidatedBlock) :=
  if bool_decide (delay = 0) then Ret [] else
  blocks ← validate_committed chain;
  Ret (reverse (take (Z.to_nat delay) blocks)).

Definition committed_commands (block : ValidatedBlock) : list Command :=
  [C_Ledger (LC_LedgerCommit (OC_Proposed (vb_block block)));
   C_Ledger (LC_LedgerCommit (OC_Finalized (vb_block block)));
   C_ValSetNotifyFinalized (vb_seq_num block)].

Definition handle_validated_proposal (ms : MonadState) (author : NodeId) (proposal : ProposalMessage) :
    exec (list Command * MonadState) :=
  match ms_consensus ms with
  | CM_Sync _ _ _ _ => Panic
  | CM_Live c =>
      '(cmds, n) ← handle_event (ms_env ms) (EvMessage author (PM_Proposal proposal)) (ms_node ms c);
      let ms := set_node n ms in
      cmds ← filter_cmds ms cmds;
      cmds ← wrap_commands ms cmds;
      Ret (cmds, ms)
  end.
Fixpoint handle_cached_proposals (ms : MonadState) (proposals : list (NodeId * ProposalMessage)) :
    exec (list Command * MonadState) :=
  match proposals with
  | [] => Ret ([], ms)
  | (sender, proposal) :: proposals =>
      '(cmds, ms) ← handle_validated_proposal ms sender proposal;
      '(cmds', ms) ← handle_cached_proposals ms proposals;
      Ret (cmds ++ cmds', ms)
  end.

(** Block sync from the high certificate. *)
Definition request_missing (ms : MonadState) : exec (list Command * MonadState) :=
  match ms_consensus ms with
  | CM_Sync _ _ _ _ => Panic
  | CM_Live c =>
      '(cmds, n) ← request_blocks_if_missing_ancestor (ms_node ms c);
      let ms := set_node n ms in
      cmds ← wrap_commands ms cmds;
      Ret (cmds, ms)
  end.

(** [maybe_start_consensus] once the blocks and the database are there. *)
Definition start_consensus (ms : MonadState) (high_certificate : RoundCertificate) (block_buffer : BlockBuffer)
    (root_info : RootInfo) (root_parent_chain : list ConsensusFullBlock) : exec (list Command * MonadState) :=
  blocks ← last_committed (cfg_execution_delay (config (ms_env ms))) root_parent_chain;
  policy ← policy_reset (ms_block_policy ms) blocks;
  let ms := set_policy policy ms in
  let commands := C_TxPool (TP_Reset blocks) :: concat (map committed_commands blocks) in
  let cached_proposals := proposal_buffer block_buffer in
  consensus ← consensus_state_new (ms_epoch_manager ms) (config (ms_env ms)) root_info high_certificate;
  current_round ← get_current_round (pacemaker consensus);
  let ms := set_mode (CM_Live consensus) ms in
  '(cmds1, ms) ← update_consensus ms (CE_Timeout current_round);
  '(cmds2, ms) ← handle_cached_proposals ms cached_proposals;
  '(cmds3, ms) ← request_missing ms;
  Ret (commands ++ [C_StateSync SC_StartExecution] ++ cmds1 ++ cmds2 ++ cmds3, ms).

(** [root.max(delay) - delay] *)
Definition state_root_target (root delay : SeqNum) : SeqNum := Z.max root delay - delay.

Section maybe_start.
Context (maybe_start_consensus : MonadState → exec (list Command * MonadState)).

(** [StateSyncEvent::DoneSync] *)
Definition done_sync_with (n : SeqNum) (ms : MonadState) : exec (list Command * MonadState) :=
  match ms_consensus ms with
  | CM_Live _ => Panic
  | CM_Sync high_certificate block_buffer db_status updating_target =>
      _ ← assert (bool_decide (db_status = DbStarted));
      let delay := cfg_execution_delay (config (ms_env ms)) in
      match (λ root, state_root_target root delay) <$> root_seq_num block_buffer with
      | Some target =>
          if bool_decide (n >= target) then
            _ ← assert (bool_decide (n = target));
            earliest ← expect (raw_read_earliest_finalized_block (state_backend (ms_env ms)));
            _ ← assert (bool_decide (earliest <= n));
            latest ← expect (raw_read_latest_finalized_block (state_backend (ms_env ms)));
            _ ← assert (bool_decide (latest >= n));
            maybe_start_consensus (set_mode (CM_Sync high_certificate block_buffer DbDone updating_target) ms)
          else Ret ([], ms)
      | None => Ret ([], ms)
      end
  end.

Definition maybe_start_with (ms : MonadState) : exec (list Command * MonadState) :=
  match ms_consensus ms with
  | CM_Live _ => Panic
  | CM_Sync high_certificate block_buffer db_status updating_target =>
      chain ← root_parent_chain block_buffer;
      missing ← needs_blocksync block_buffer;
      match missing with
      | Some block_range => block_sync_child_update ms (BSE_SelfRequest RequesterStateSync block_range)
      | None =>
          root_info ← expect (buffer_root_info block_buffer);
          let root_seq_num := ri_seq_num root_info in
          match db_status with
          | DbWaiting =>
              let ms := set_mode (CM_Sync high_certificate block_buffer DbStarted updating_target) ms in
              let delay := cfg_execution_delay (config (ms_env ms)) in
              let state_root_seq_num := state_root_target root_seq_num delay in
              let latest_block := raw_read_latest_finalized_block (state_backend (ms_env ms)) in
              _ ← assert (bool_decide (default 0 latest_block <= root_seq_num));
              if bool_decide (latest_block = None) || bool_decide (default 0 latest_block < state_root_seq_num) then
                delayed_execution_result ← expect (root_delayed_execution_result block_buffer);
                match delayed_execution_result with
                | [header] => Ret ([C_StateSync (SC_RequestSync header)], ms)
                | _ => Panic
                end
              else
                earliest ← expect (raw_read_earliest_finalized_block (state_backend (ms_env ms)));
                _ ← assert (bool_decide (earliest <= state_root_seq_num));
                done_sync_with state_root_seq_num ms
          | DbStarted => Ret ([], ms)
          | DbDone => start_consensus ms high_certificate block_buffer root_info chain
          end
      end
  end.
End maybe_start.

(** [maybe_start_consensus] calls itself through [DoneSync], once: it starts the
    sync of the database, which is done already, and then starts consensus. *)
Fixpoint maybe_start_fuel (fuel : nat) (ms : MonadState) : exec (list Command * MonadState) :=
  match fuel with
  | O => OutOfFuel
  | S fuel => maybe_start_with (maybe_start_fuel fuel) ms
  end.
Definition maybe_start_consensus : MonadState → exec (list Command * MonadState) := maybe_start_fuel 2.

(** ** Update *)

Definition update_state_sync (ms : MonadState) (event : StateSyncEvent) : exec (list Command * MonadState) :=
  match event with
  | SS_Inbound sender message => Ret ([C_StateSync (SC_Message sender message)], ms)
  | SS_Outbound to message => Ret ([C_Router (RC_Publish (TcpPointToPoint to) (VM_StateSyncMessage message))], ms)
  | SS_RequestSync new_root new_high_qc =>
      match ms_consensus ms with
      | CM_Live _ => Panic
      | CM_Sync _ block_buffer _ _ =>
          block_buffer ← re_root block_buffer new_root;
          maybe_start_consensus (set_mode (CM_Sync (RC_Qc new_high_qc) block_buffer DbWaiting false) ms)
      end
  | SS_DoneSync n => done_sync_with maybe_start_consensus n ms
  | SS_BlockSync _ full_blocks =>
      match ms_consensus ms with
      | CM_Live _ => Ret ([], ms)
      | CM_Sync high_certificate block_buffer db_status updating_target =>
          let block_buffer := foldl buffer_handle_blocksync block_buffer full_blocks in
          maybe_start_consensus (set_mode (CM_Sync high_certificate block_buffer db_status updating_target) ms)
      end
  end.

Definition update_control_panel (event : ControlPanelEvent) : list Command :=
  match event with
  | CP_GetPeersRequest => [C_Router RC_GetPeers]
  | CP_GetFullNodesRequest => [C_Router RC_GetFullNodes]
  | CP_ReloadConfigRequest => [C_ConfigReload]
  | response => [C_ControlPanel response]
  end.

Definition update_config (ms : MonadState) (event : ConfigEvent) : list Command * MonadState :=
  match event with
  | CF_ConfigUpdate full_nodes blocksync_override_peers =>
      ([C_Router (RC_UpdateFullNodes full_nodes); C_ControlPanel (CP_ReloadConfigResponse "Success")],
       set_block_sync (set_override_peers (ms_block_sync ms) blocksync_override_peers) ms)
  | CF_LoadError err_msg => ([C_ControlPanel (CP_ReloadConfigResponse err_msg)], ms)
  | CF_KnownPeersUpdate known_peers => ([C_Router (RC_UpdatePeers known_peers)], ms)
  end.

Definition update (ms : MonadState) (event : MonadEvent) : exec (list Command * MonadState) :=
  match event with
  | ME_Consensus event => update_consensus ms event
  | ME_BlockSync event => block_sync_child_update ms event
  | ME_Validator vset => epoch_child_update ms vset
  | ME_Mempool event => cmds ← handle_mempool_event ms event; Ret (cmds, ms)
  | ME_StateSync event => update_state_sync ms event
  | ME_ControlPanel event => Ret (update_control_panel event, ms)
  | ME_TimestampUpdate t => Ret ([], set_env (set_env_timestamp (update_time (block_timestamp (ms_env ms)) t) (ms_env ms)) ms)
  | ME_Config event => Ret (update_config ms event)
  end.

(** ** Build *)

Fixpoint add_validators (ms : MonadState) (sets : list ValidatorSetDataWithEpoch) : exec (list Command * MonadState) :=
  match sets with
  | [] => Ret ([], ms)
  | vset :: sets =>
      '(cmds, ms) ← update ms (ME_Validator vset);
      '(cmds', ms) ← add_validators ms sets;
      Ret (cmds ++ cmds', ms)
  end.

(** [MonadStateBuilder::build]; the node's id is the public key of [key]. *)
Definition build (forkpoint : Checkpoint) (locked_epoch_validators : list ValidatorSetDataWithEpoch)
    (key : ST_KeyPair) (certkey : CertKeyPair) (epoch_length : SeqNum) (epoch_start_delay : Round)
    (beneficiary : Z) (block_sync_override_peers : list NodeId) (consensus_config : ConsensusConfig)
    (version : Z) (backend : SBT) (policy : BPT) : exec (list Command * MonadState) :=
  validated ← forkpoint_validate factory forkpoint locked_epoch_validators;
  _ ← unwrap validated;
  em ← epoch_manager_new epoch_length epoch_start_delay (get_epoch_starts forkpoint);
  timestamp ← block_timestamp_new (5 * cfg_delta consensus_config) (cfg_timestamp_latency_estimate_ns consensus_config);
  let env := mkEnv backend validators_epoch_mapping_new version timestamp beneficiary (st_pubkey key) consensus_config
               key certkey in
  let mode := start_sync (cp_high_certificate forkpoint)
                (block_buffer_new (cfg_execution_delay consensus_config) (cp_root forkpoint)
                   (cfg_statesync_to_live_threshold consensus_config)) in
  let ms := mkMonadState env mode certificate_cache_default (block_sync_new block_sync_override_peers) em policy in
  '(cmds, ms) ← add_validators ms locked_epoch_validators;
  '(cmds', ms) ← maybe_start_consensus ms;
  Ret (cmds ++ cmds', ms).

(** A run of the node: before each event the database may have moved on. *)
Fixpoint monad_run (ms : MonadState) (inputs : list (SBT * MonadEvent)) : exec (list Command * MonadState) :=
  match inputs with
  | [] => Ret ([], ms)
  | (backend, event) :: inputs =>
      '(cmds, ms) ← update (set_env (set_env_backend backend (ms_env ms)) ms) event;
      '(cmds', ms) ← monad_run ms inputs;
      Ret (cmds ++ cmds', ms)
  end.

End state.
