(* ===== verification/MonadStateProps.v ===== *)
(** Properties of the top-level state machine, from its start through syncing to
    a live node. *)

From S2P Require Import Prelude Types ValidatorSet EpochManager LeaderElection Crypto MultiSig.
From S2P Require Import ConsensusTypes ChainConfig Safety Pacemaker VoteState Timestamp BlockPolicy.
From S2P Require Import BlockTree BlockTreeProps Messages Signing SigningProps ConsensusState ConsensusProps.
From S2P Require Import BlockSync StateSync MonadState.

#[local] Open Scope Z_scope.
#[local] Existing Instances step_ret step_bind.

(** A validated block is the header and the body that were validated. *)
Class BlockValidatorLaws `{BVT : BlockValidator} := {
  block_validate_block header body key a b c d block :
    block_validate header body key a b c d = Ret (Ok block) → vb_block block = mkFullBlock header body;
}.

(** * What a node does, from its commands *)

Section actions.
Context `{BP : BlockPolicy} `{X : Externals}.

(** A proposal is signed when the transaction pool answers the command to make
    one, so the command counts. *)
Definition ms_action (c : Command) : option Action :=
  match c with
  | C_Router (RC_UpdateCurrentRound _ round) => Some (AEnterRound round)
  | C_Router (RC_Publish _ (VM_Consensus m)) =>
      match (verified_into_inner m).2 with PM_Proposal _ => None | m => message_action m end
  | C_TxPool (TP_CreateProposal _ round _ _ _ _ _ _ _ _ _ _ _ _) => Some (APropose round)
  | C_TxPool (TP_BlockCommit [b]) => Some (AFinalize b)
  | _ => None
  end.
Definition ms_actions : list Command → list Action := omap ms_action.

(** The blocks the ledger is told to be final. *)
Definition ledger_finalized : list Command → list ConsensusFullBlock :=
  omap (λ c, match c with C_Ledger (LC_LedgerCommit (OC_Finalized b)) => Some b | _ => None end).

(** Commands that say nothing in the name of a validator and commit nothing. *)
Definition silent (c : Command) : bool :=
  match c with
  | C_Router (RC_Publish _ (VM_Consensus _)) | C_Router (RC_PublishToFullNodes _ _)
  | C_Router (RC_UpdateCurrentRound _ _) | C_TxPool _ | C_Ledger (LC_LedgerCommit _) => false
  | _ => true
  end.

Lemma ms_actions_app l1 l2 : ms_actions (l1 ++ l2) = ms_actions l1 ++ ms_actions l2.
Proof. apply omap_app. Qed.
Lemma ledger_finalized_app l1 l2 : ledger_finalized (l1 ++ l2) = ledger_finalized l1 ++ ledger_finalized l2.
Proof. apply omap_app. Qed.

(** Nothing is done that counts. *)
Definition inert (l : list Command) : Prop := ms_actions l = [] ∧ ledger_finalized l = [].

Lemma inert_app l1 l2 : inert l1 → inert l2 → inert (l1 ++ l2).
Proof. intros [Ha1 Hf1] [Ha2 Hf2]. split; [by rewrite ms_actions_app, Ha1, Ha2|by rewrite ledger_finalized_app, Hf1, Hf2]. Qed.

Lemma inert_Forall l : Forall (λ c, inert [c]) l → inert l.
Proof. induction 1 as [|c l Hc Hl IH]; [done|]. by apply (inert_app [c] l). Qed.

Lemma silent_inert l : Forall (λ c, silent c = true) l → inert l.
Proof.
  intros Hl. apply inert_Forall. eapply Forall_impl; [exact Hl|]. intros c Hc. simpl in Hc.
  destruct c as [[? []| | | | | | |]| |[[]| |]| | | | | | | |]; by simplify_eq.
Qed.

Lemma from_consensus_command_actions rounds c :
  ms_actions (from_consensus_command rounds c) `sublist_of` actions [c] ∧
  ledger_finalized (from_consensus_command rounds c) = vb_block <$> finalized (actions [c]).
Proof.
  unfold ms_actions, actions, ledger_finalized, finalized.
  destruct c as [|target message| | | | |[]| | | | |]; simpl; try (split; [by repeat constructor|done]).
  destruct (cm_message _) as [p|v|t|rr|ne|ar]; simpl; try (split; [by repeat constructor|done]).
  destruct (t_high_extend (timeout_of t)); simpl; (split; [by repeat constructor|done]).
Qed.

Lemma from_block_sync_silent t c : Forall (λ c, silent c = true) (from_block_sync_command t c).
Proof. destruct c as [| | | | | |[]]; by repeat constructor. Qed.

Lemma from_block_sync_all_silent t cmds :
  Forall (λ c, silent c = true) (concat (map (from_block_sync_command t) cmds)).
Proof.
  induction cmds as [|c cmds IH]; [constructor|]. simpl. apply Forall_app. split; [apply from_block_sync_silent|done].
Qed.
End actions.

(** * The invariant *)

Section inv.
Context `{BP : BlockPolicy} `{BVT : !BlockValidator} `{!BlockValidatorLaws} `{L : LruCache} `{HashOrder} `{R : Rng}.
Context `{X : Externals} `{SB : !StateBackend}.
Context {VT : Type} `{ValidatorSetType VT} `{LT : LeaderElection} `{CCT : ChainConfig}.
Context (factory : list (NodeId * Stake) → exec (result VT ValidatorSetError)).
Implicit Types (ms : MonadState (VT := VT)) (hist cmds : list Command) (n : Node) (log : list Action).

(** What a live node has done fits its consensus state, and its final blocks are
    the ones it started from and then those consensus finalized. *)
Definition live_inv n hist : Prop :=
  ∃ root start committed log, node_inv root n log ∧ ms_actions hist `sublist_of` log ∧
    linked start committed root ∧ ledger_finalized hist = vb_block <$> committed ++ finalized log.

Definition ms_inv ms hist : Prop :=
  match ms_consensus ms with
  | CM_Sync _ block_buffer _ _ => buffer_inv block_buffer ∧ Forall (λ c, silent c = true) hist
  | CM_Live c => live_inv (ms_node ms c) hist
  end.

Definition ms_ok hist (m : exec (list Command * MonadState)) : Prop :=
  ∀ cmds ms', m = Ret (cmds, ms') → ms_inv ms' (hist ++ cmds).

Lemma live_inv_inert n hist cmds : inert cmds → live_inv n hist → live_inv n (hist ++ cmds).
Proof.
  intros [Ha Hf] (root & start & committed & log & Hn & Hs & Hl & Hfin). exists root, start, committed, log.
  rewrite ms_actions_app, ledger_finalized_app, Ha, Hf, !app_nil_r. done.
Qed.

Lemma ms_inv_silent ms hist cmds : Forall (λ c, silent c = true) cmds → ms_inv ms hist → ms_inv ms (hist ++ cmds).
Proof.
  intros Hc. unfold ms_inv. destruct (ms_consensus ms).
  - intros [? ?]. split; [done|by apply Forall_app].
  - by apply live_inv_inert, silent_inert.
Qed.

(** Commands of a step of consensus, some of them held back. *)
Lemma live_inv_step n n' hist (m : step (list ConsensusCommand)) ccmds ccmds' cmds :
  live_inv n hist → (∀ root, emits root [] m) → m n = Ret (ccmds, n') →
  actions ccmds' `sublist_of` actions ccmds → finalized (actions ccmds') = finalized (actions ccmds) →
  ms_actions cmds `sublist_of` actions ccmds' → ledger_finalized cmds = vb_block <$> finalized (actions ccmds') →
  live_inv n' (hist ++ cmds).
Proof.
  intros (root & start & committed & log & Hn & Hs & Hl & Hfin) Hm Hrun Hsub Hfa Hcs Hcf.
  exists root, start, committed, (log ++ actions ccmds). split_and!.
  - eapply Hm; [done|]. by rewrite app_nil_r.
  - rewrite ms_actions_app. apply sublist_app; [done|by etrans].
  - done.
  - rewrite ledger_finalized_app, Hfin, Hcf, Hfa, finalized_app, !fmap_app, (assoc_L (++)). done.
Qed.

Lemma actions_cons (c : ConsensusCommand) ccmds : actions (c :: ccmds) = actions [c] ++ actions ccmds.
Proof. exact (actions_app [c] ccmds). Qed.

Lemma wrap_commands_actions ms ccmds cmds :
  wrap_commands ms ccmds = Ret cmds →
  ms_actions cmds `sublist_of` actions ccmds ∧ ledger_finalized cmds = vb_block <$> finalized (actions ccmds).
Proof.
  revert cmds. induction ccmds as [|c ccmds IH]; intros cmds; cbn [wrap_commands]; [by intros [= <-]|].
  intros (wrapped & Hw & (rest & Hr & [= <-])%bind_Ret_inv)%bind_Ret_inv. unfold wrap_command in Hw.
  apply bind_Ret_inv in Hw as (rounds & _ & [= <-]). destruct (IH _ Hr) as [IH1 IH2].
  destruct (from_consensus_command_actions rounds c) as [Hc1 Hc2].
  rewrite (actions_cons c ccmds), finalized_app, ms_actions_app, ledger_finalized_app, fmap_app.
  split; [by apply sublist_app|by rewrite Hc2, IH2].
Qed.

Lemma filter_actions role ccmds :
  actions (filter (λ c, allowed_for role c = true) ccmds) `sublist_of` actions ccmds ∧
  finalized (actions (filter (λ c, allowed_for role c = true) ccmds)) = finalized (actions ccmds).
Proof.
  induction ccmds as [|c ccmds [IH1 IH2]]; [done|]. rewrite filter_cons.
  rewrite (actions_cons c ccmds), finalized_app. case_decide as Hc.
  - rewrite (actions_cons c (filter _ ccmds)), finalized_app, IH2. split; [by apply sublist_app|done].
  - rewrite IH2. split; [by apply sublist_inserts_l|].
    destruct role; [|done]. destruct c; try done; simpl. unfold actions. simpl.
    destruct (message_action _) as [[]|] eqn:Hm; try done.
    exfalso. destruct (cm_message _); simpl in Hm; try done. by destruct (t_high_extend _).
Qed.

Lemma filter_cmds_actions ms ccmds ccmds' :
  filter_cmds ms ccmds = Ret ccmds' →
  actions ccmds' `sublist_of` actions ccmds ∧ finalized (actions ccmds') = finalized (actions ccmds).
Proof. unfold filter_cmds. intros (role & _ & [= <-])%bind_Ret_inv. apply filter_actions. Qed.

Lemma actions_relay (ccmds : list ConsensusCommand) epoch m : actions (ccmds ++ [CC_PublishToFullNodes epoch m]) = actions ccmds.
Proof. rewrite actions_app. unfold actions at 2. simpl. by rewrite app_nil_r. Qed.

(** ** Consensus events *)

(** What an event of a live node does to it. *)
Lemma live_update_step ms c event ccmds ms' :
  ms_consensus ms = CM_Live c → live_update ms c event = Ret (ccmds, ms') →
  ∃ m ccmds0 n, (∀ root, emits root [] m) ∧ m (ms_node ms c) = Ret (ccmds0, n) ∧ actions ccmds = actions ccmds0 ∧
    ms_consensus ms' = CM_Live (consensus n) ∧ ms_node ms' (consensus n) = n.
Proof.
  intros Hc. assert (∀ ev ms1, ms_node ms1 c = ms_node ms c →
    ('(cmds, n) ← handle_event (ms_env ms1) ev (ms_node ms1 c); Ret (cmds, set_node n ms1)) = Ret (ccmds, ms') →
    ∃ m ccmds0 n, (∀ root, emits root [] m) ∧ m (ms_node ms c) = Ret (ccmds0, n) ∧ ccmds = ccmds0 ∧
      ms_consensus ms' = CM_Live (consensus n) ∧ ms_node ms' (consensus n) = n) as Hrun.
  { intros ev ms1 Hms1 ([cmds n] & Hh & [= <- <-])%bind_Ret_inv. rewrite Hms1 in Hh.
    exists (handle_event (ms_env ms1) ev), cmds, n. split_and!; [intros root; apply emits_event|done|done|done|by destruct n]. }
  unfold live_update. destruct event as [sender u|round|range blocks|round].
  - intros ([verified cache] & Hv & Hrest)%bind_Ret_inv.
    destruct verified as [vm|].
    + destruct (verified_into_inner vm) as [author pm]. apply bind_Ret_inv in Hrest as ([cmds ms1] & Hh & [= <- <-]).
      apply bind_Ret_inv in Hh as ([cmds' n] & Hh & [= <- <-]).
      exists (handle_event (ms_env (set_cache cache ms)) (EvMessage author pm)), cmds', n.
      split_and!; [intros root; apply emits_event|done| |done|by destruct n].
      destruct pm; try done. apply actions_relay.
    + injection Hrest as <- <-. exists (mret []), [], (ms_node ms c). split_and!; [|done|done| |done].
      * intros root. by apply emits_ret.
      * done.
  - intros (m & c0 & n & ? & ? & -> & ? & ?)%Hrun; [|done]. by exists m, c0, n.
  - intros (m & c0 & n & ? & ? & -> & ? & ?)%Hrun; [|done]. by exists m, c0, n.
  - intros (m & c0 & n & ? & ? & -> & ? & ?)%Hrun; [|done]. by exists m, c0, n.
Qed.

Lemma checkpoint_silent ms cmds : ms_checkpoint ms = Ret cmds → Forall (λ c, silent c = true) cmds.
Proof.
  unfold ms_checkpoint. destruct (ms_consensus ms); [by intros [= <-]|].
  intros (cp & _ & [= <-])%bind_Ret_inv. by repeat constructor.
Qed.

(** The end of every handler of a live node: commands held back, then wrapped. *)
Lemma filter_wrap_inv n hist m ccmds0 ccmds ms' c ccmds' cmds :
  live_inv n hist → (∀ root, emits root [] m) → m n = Ret (ccmds0, ms_node ms' c) → actions ccmds = actions ccmds0 →
  filter_cmds ms' ccmds = Ret ccmds' → wrap_commands ms' ccmds' = Ret cmds → live_inv (ms_node ms' c) (hist ++ cmds).
Proof.
  intros Hinv Hm Hrun Ha [Hf1 Hf2]%filter_cmds_actions [Hw1 Hw2]%wrap_commands_actions. rewrite Ha in Hf1, Hf2.
  by eapply live_inv_step.
Qed.

Lemma sync_update_ok ms hc buf db u event ccmds ms' hist :
  ms_consensus ms = CM_Sync hc buf db u → ms_inv ms hist → sync_update ms hc buf db u event = Ret (ccmds, ms') →
  ms_inv ms' hist ∧ (∃ hc buf db u, ms_consensus ms' = CM_Sync hc buf db u) ∧
  (ccmds = [] ∨ ∃ root qc, ccmds = [CC_RequestStateSync root qc]).
Proof.
  intros Hm Hinv. unfold sync_update.
  assert (∀ cc ms1, Ret (cc, ms1) = Ret (ccmds, ms') → ms_consensus ms1 = ms_consensus ms →
    cc = [] → ms_inv ms' hist ∧ (∃ hc buf db u, ms_consensus ms' = CM_Sync hc buf db u) ∧
    (ccmds = [] ∨ ∃ root qc, ccmds = [CC_RequestStateSync root qc])) as Hsame.
  { intros cc ms1 [= <- <-] Hms1 ->. split_and!; [|rewrite Hms1, Hm; by eauto|by left].
    unfold ms_inv in *. rewrite Hms1. by rewrite Hm in *. }
  destruct event as [sender um|round|range blocks|round]; [|by intros Hr; eapply Hsame..].
  intros ([verified cache] & _ & Hrest)%bind_Ret_inv.
  destruct (verified_into_inner <$> verified) as [[author pm]|]; [|by eapply Hsame].
  destruct pm as [p| | | | |]; try (by eapply Hsame).
  apply bind_Ret_inv in Hrest as ([target buf'] & Hb & Hrest).
  assert (buffer_inv buf') as Hbuf.
  { eapply (buffer_step_inv buf (BO_Proposal author p)); [simpl; by rewrite Hb|].
    unfold ms_inv in Hinv. rewrite Hm in Hinv. apply Hinv. }
  assert (Forall (λ c, silent c = true) hist) by (unfold ms_inv in Hinv; rewrite Hm in Hinv; apply Hinv).
  destruct target as [[root qc]|]; injection Hrest as <- <-; (split_and!; [done|simpl; by eauto|]);
    [destruct u; [by left|right; by eauto]|by left].
Qed.

Lemma update_consensus_ok ms hist event : ms_inv ms hist → ms_ok hist (update_consensus ms event).
Proof.
  intros Hinv cmds ms'. unfold update_consensus.
  intros ([ccmds ms1] & Hc & (wrapped & Hw & (bps & _ & (cp & Hcp & [= <- <-])%bind_Ret_inv)%bind_Ret_inv)%bind_Ret_inv)%bind_Ret_inv.
  rewrite (assoc_L (++)). apply ms_inv_silent.
  { destruct (existsb _ _); [by eapply checkpoint_silent|by injection Hcp as <-]. }
  unfold consensus_child_update in Hc. destruct (ms_consensus ms) as [hc buf db u|c] eqn:Hm.
  - destruct (sync_update_ok _ _ _ _ _ _ _ _ hist Hm Hinv Hc) as (Hinv1 & (hc' & buf' & db' & u' & Hm1) & Hcc).
    apply ms_inv_silent; [|done]. destruct Hcc as [->|(root & qc & ->)]; simpl in Hw; exec_inv; [constructor|].
    unfold wrap_command in *. exec_inv. by repeat constructor.
  - apply bind_Ret_inv in Hc as ([ccmds0 ms2] & Hl & (ccmds1 & Hf & [= <- <-])%bind_Ret_inv).
    destruct (live_update_step _ _ _ _ _ Hm Hl) as (m & c0 & n & Hem & Hrun & Ha & Hm2 & Hn).
    unfold ms_inv in *. rewrite Hm in Hinv. rewrite Hm2. rewrite <-Hn in Hrun. by eapply filter_wrap_inv.
Qed.

(** ** Starting consensus *)

Lemma handle_cached_proposals_ok proposals ms hist :
  (∃ c, ms_consensus ms = CM_Live c) → ms_inv ms hist →
  ∀ cmds ms', handle_cached_proposals ms proposals = Ret (cmds, ms') →
    ms_inv ms' (hist ++ cmds) ∧ ∃ c, ms_consensus ms' = CM_Live c.
Proof.
  revert ms hist. induction proposals as [|[sender p] proposals IH]; intros ms hist Hlive Hinv cmds ms'; cbn [handle_cached_proposals].
  { intros [= <- <-]. by rewrite app_nil_r. }
  intros ([cmds1 ms1] & Hp1 & ([cmds2 ms2] & Hp2 & [= <- <-])%bind_Ret_inv)%bind_Ret_inv. rewrite (assoc_L (++)).
  unfold handle_validated_proposal in Hp1. destruct (ms_consensus ms) as [|c] eqn:Hm; [done|].
  apply bind_Ret_inv in Hp1 as ([ccmds n] & Hh & (ccmds' & Hf & (w & Hw & [= <- <-])%bind_Ret_inv)%bind_Ret_inv).
  apply (IH (set_node n ms) (hist ++ w)); [by eexists| |done]. unfold ms_inv in *. rewrite Hm in Hinv. simpl.
  eapply (filter_wrap_inv (ms_node ms c) hist (handle_event (ms_env ms) (EvMessage sender (PM_Proposal p))) ccmds ccmds
    (set_node n ms) (consensus n)); [done|intros root; apply emits_event| |done|done|done]. by destruct n.
Qed.

Lemma request_missing_ok ms hist :
  (∃ c, ms_consensus ms = CM_Live c) → ms_inv ms hist → ms_ok hist (request_missing ms).
Proof.
  intros [c Hm] Hinv cmds ms'. unfold request_missing. rewrite Hm.
  intros ([ccmds n] & Hr & (w & Hw & [= <- <-])%bind_Ret_inv)%bind_Ret_inv.
  unfold ms_inv in *. rewrite Hm in Hinv. simpl. destruct (wrap_commands_actions _ _ _ Hw).
  eapply (live_inv_step _ _ _ request_blocks_if_missing_ancestor); [done|intros root; apply emits_request_blocks| |done..].
  by destruct n.
Qed.

Lemma parent_chain_loop_follows fuel blocks id acc chain :
  (∀ id block, blocks !! id = Some block → fb_id block = id) →
  parent_chain_loop fuel blocks id acc = Ret chain → ∃ l lp, chain = acc ++ l ∧ follows id l lp.
Proof.
  intros Hk. revert id acc. induction fuel as [|fuel IH]; intros id acc; simpl;
    (destruct (blocks !! id) as [b|] eqn:Hb; [|intros [= <-]; exists [], id; by rewrite app_nil_r]); [done|].
  intros (l & lp & -> & Hf)%IH. exists (b :: l), lp. rewrite <-(assoc_L (++)). split; [done|]. split; [by eapply Hk|done].
Qed.

Lemma validate_committed_blocks chain blocks : validate_committed chain = Ret blocks → vb_block <$> blocks = chain.
Proof.
  revert blocks. induction chain as [|[h b] chain IH]; intros blocks; simpl; [by intros [= <-]|]. intros. exec_inv.
  apply block_validate_block in Ha0. f_equal; [done|by apply IH].
Qed.

(** The blocks committed at the start end with the root. *)
Lemma last_committed_linked delay chain root lp blocks :
  follows root chain lp → last_committed delay chain = Ret blocks → ∃ start, linked start blocks root.
Proof.
  unfold last_committed. case_bool_decide; [intros _ [= <-]; by exists root|].
  intros Hf (l & Hv & [= <-])%bind_Ret_inv. apply validate_committed_blocks in Hv as <-.
  generalize (Z.to_nat delay) as k. revert root Hf. induction l as [|b l IH]; intros root Hf k; [exists root; by rewrite take_nil|].
  destruct k as [|k]; [by exists root|]. destruct Hf as [Hid Hf]. simpl. rewrite reverse_cons.
  destruct (IH _ Hf k) as [start Hs]. exists start. eapply linked_app; [done|]. split; [done|]. exact Hid.
Qed.

Lemma committed_commands_ledger (blocks : list ValidatedBlock) :
  ms_actions (concat (map committed_commands blocks)) = [] ∧
  ledger_finalized (concat (map committed_commands blocks)) = vb_block <$> blocks.
Proof. induction blocks as [|b blocks [IH1 IH2]]; [done|]. split; [exact IH1|]. simpl. f_equal. exact IH2. Qed.

Definition is_live ms : Prop := ∃ c, ms_consensus ms = CM_Live c.

Lemma update_consensus_live ms event cmds ms' :
  is_live ms → update_consensus ms event = Ret (cmds, ms') → is_live ms'.
Proof.
  intros [c Hm]. unfold update_consensus.
  intros ([ccmds ms1] & Hc & (wrapped & Hw & (bps & _ & (cp & Hcp & [= <- <-])%bind_Ret_inv)%bind_Ret_inv)%bind_Ret_inv)%bind_Ret_inv.
  unfold consensus_child_update in Hc. rewrite Hm in Hc.
  apply bind_Ret_inv in Hc as ([ccmds0 ms2] & Hl & (ccmds1 & Hf & [= <- <-])%bind_Ret_inv).
  destruct (live_update_step _ _ _ _ _ Hm Hl) as (m & c0 & n & _ & _ & _ & Hm2 & _). by eexists.
Qed.

Lemma start_consensus_ok ms hist hc buf ri chain lp :
  Forall (λ c, silent c = true) hist → follows (ri_block_id ri) chain lp → ms_ok hist (start_consensus ms hc buf ri chain).
Proof.
  intros Hsil Hf cmds ms'. unfold start_consensus.
  intros (blocks & Hb & Hrest)%bind_Ret_inv. destruct (last_committed_linked _ _ _ _ _ Hf Hb) as [start Hlinked].
  apply bind_Ret_inv in Hrest as (policy & _ & Hrest). apply bind_Ret_inv in Hrest as (state & Hnew & Hrest).
  apply bind_Ret_inv in Hrest as (round & _ & Hrest). apply bind_Ret_inv in Hrest as ([cmds1 ms1] & Hu1 & Hrest).
  apply bind_Ret_inv in Hrest as ([cmds2 ms2] & Hu2 & Hrest). apply bind_Ret_inv in Hrest as ([cmds3 ms3] & Hu3 & [= <- <-]).
  set (ms0 := set_mode (CM_Live state) (set_policy policy ms)) in *.
  set (startup := C_TxPool (TP_Reset blocks) :: concat (map committed_commands blocks) ++ [C_StateSync SC_StartExecution]).
  assert (ms_inv ms0 (hist ++ startup)) as Hinv0.
  { unfold ms_inv. simpl. exists (ri_block_id ri), start, blocks, []. destruct (silent_inert _ Hsil) as [Ha Hfin].
    destruct (committed_commands_ledger blocks) as [Hca Hcf].
    split_and!; [by eapply node_inv_new| |done|]; unfold startup.
    - rewrite ms_actions_app, Ha. change (ms_actions (concat (map committed_commands blocks) ++ [C_StateSync SC_StartExecution]) `sublist_of` []).
      rewrite ms_actions_app, Hca. done.
    - rewrite ledger_finalized_app, Hfin, app_nil_r.
      change (ledger_finalized (concat (map committed_commands blocks) ++ [C_StateSync SC_StartExecution]) = vb_block <$> blocks).
      rewrite ledger_finalized_app, Hcf. apply app_nil_r. }
  apply (update_consensus_ok _ _ (CE_Timeout round)) in Hinv0 as Hinv1. specialize (Hinv1 _ _ Hu1).
  assert (is_live ms1) as Hl1 by (eapply update_consensus_live; [|done]; by eexists).
  destruct (handle_cached_proposals_ok _ _ _ Hl1 Hinv1 _ _ Hu2) as [Hinv2 Hl2].
  pose proof (request_missing_ok _ _ Hl2 Hinv2 _ _ Hu3) as Hinv3. unfold startup in Hinv3.
  rewrite <-!(assoc_L (++)) in Hinv3. simpl in Hinv3. rewrite <-!(assoc_L (++)) in Hinv3. exact Hinv3.
Qed.

Lemma block_sync_child_ok ms hist event : ms_inv ms hist → ms_ok hist (block_sync_child_update ms event).
Proof.
  intros Hinv cmds ms'. unfold block_sync_child_update.
  intros ([bcmds bs] & _ & (u & _ & [= <- <-])%bind_Ret_inv)%bind_Ret_inv.
  apply ms_inv_silent; [apply from_block_sync_all_silent|]. unfold ms_inv in *. simpl. by destruct (ms_consensus ms).
Qed.

Lemma buffer_root_follows b ri chain :
  buffer_inv b → buffer_root_info b = Some ri → root_parent_chain b = Ret chain → ∃ lp, follows (ri_block_id ri) chain lp.
Proof.
  intros Hinv Hri Hc. unfold root_parent_chain in Hc. apply parent_chain_loop_follows in Hc as (l & lp & -> & Hf); [|apply Hinv].
  exists lp. enough (ri_block_id ri = bb_root b) as -> by done. unfold buffer_root_info in Hri. case_bool_decide as Hroot.
  - by injection Hri as <-.
  - destruct (full_blocks b !! bb_root b) as [root|] eqn:Hb; [|done]. injection Hri as <-. simpl. by apply Hinv.
Qed.

(** A syncing node whose status changes. *)
Lemma ms_inv_sync ms hist hc buf db u :
  buffer_inv buf → Forall (λ c, silent c = true) hist → ms_inv (set_mode (CM_Sync hc buf db u) ms) hist.
Proof. done. Qed.

Lemma done_sync_ok (start : MonadState → exec (list Command * MonadState)) ms hist target :
  (∀ ms, ms_inv ms hist → ms_ok hist (start ms)) → ms_inv ms hist → ms_ok hist (done_sync_with start target ms).
Proof.
  intros Hstart Hinv cmds ms'. unfold done_sync_with. destruct (ms_consensus ms) as [hc buf db u|c] eqn:Hm; [|done].
  assert (∀ cs, ms_inv ms hist → Ret ([], ms) = Ret (cs, ms') → ms_inv ms' (hist ++ cs)) as Hsame.
  { intros cs ? [= <- <-]. by rewrite app_nil_r. }
  assert (buffer_inv buf ∧ Forall (λ c, silent c = true) hist) as [Hb Hs] by (unfold ms_inv in Hinv; by rewrite Hm in Hinv).
  intros (u1 & _ & Hrest)%bind_Ret_inv. destruct (_ <$> root_seq_num buf) as [t|]; [|by apply Hsame].
  case_bool_decide; [|by apply Hsame]. exec_inv. eapply Hstart; [by apply ms_inv_sync|done].
Qed.

Lemma maybe_start_ok fuel ms hist : ms_inv ms hist → ms_ok hist (maybe_start_fuel fuel ms).
Proof.
  revert ms. induction fuel as [|fuel IH]; intros ms Hinv cmds ms'; cbn [maybe_start_fuel]; [done|]. unfold maybe_start_with.
  destruct (ms_consensus ms) as [hc buf db u|c] eqn:Hm; [|done].
  assert (buffer_inv buf ∧ Forall (λ c, silent c = true) hist) as [Hb Hs] by (unfold ms_inv in Hinv; by rewrite Hm in Hinv).
  intros (chain & Hchain & (missing & _ & Hrest)%bind_Ret_inv)%bind_Ret_inv. destruct missing as [range|].
  { by eapply block_sync_child_ok. }
  apply bind_Ret_inv in Hrest as (ri & Hri%expect_Ret_inv & Hrest). destruct db.
  - apply bind_Ret_inv in Hrest as (u1 & _ & Hrest). destruct (_ || _).
    + apply bind_Ret_inv in Hrest as (hs & _ & Hrest). destruct hs as [|h [|]]; [done| |done]. injection Hrest as <- <-.
      apply ms_inv_silent; [by repeat constructor|done].
    + apply bind_Ret_inv in Hrest as (e & _ & (u2 & _ & Hrest)%bind_Ret_inv).
      eapply (done_sync_ok (maybe_start_fuel fuel)); [by apply IH| |done]. by apply ms_inv_sync.
  - injection Hrest as <- <-. by rewrite app_nil_r.
  - destruct (buffer_root_follows buf ri chain Hb Hri Hchain) as [lp Hf]. by eapply start_consensus_ok.
Qed.

(** ** Events *)

Lemma set_env_inv env ms hist : ms_inv ms hist → ms_inv (set_env env ms) hist.
Proof. unfold ms_inv. simpl. by destruct (ms_consensus ms). Qed.

Lemma epoch_child_ok ms hist vset : ms_inv ms hist → ms_ok hist (epoch_child_update factory ms vset).
Proof.
  intros Hinv cmds ms'. unfold epoch_child_update. intros (m & _ & [= <- <-])%bind_Ret_inv.
  apply ms_inv_silent; [by repeat constructor|]. by apply set_env_inv.
Qed.

(** Proposals are signed on request, and counted when they are requested. *)
Lemma mempool_ok ms hist event cmds : ms_inv ms hist → handle_mempool_event ms event = Ret cmds → ms_inv ms (hist ++ cmds).
Proof.
  intros Hinv. unfold handle_mempool_event. unfold ms_inv in *. destruct (ms_consensus ms) as [hc buf db u|c] eqn:Hm.
  - destruct event; [done|..]; intros [= <-]; by rewrite app_nil_r.
  - destruct event; [intros [= <-]; by apply live_inv_inert|intros [= <-]; by apply live_inv_inert|].
    intros ([targets n] & _ & [= <-])%bind_Ret_inv. apply live_inv_inert; [|done]. apply inert_Forall, Forall_forall.
    intros x (t & -> & _)%list_elem_of_fmap. done.
Qed.

Lemma state_sync_ok ms hist event : ms_inv ms hist → ms_ok hist (update_state_sync ms event).
Proof.
  intros Hinv cmds ms'. unfold update_state_sync. destruct event as [sender m|to m|root qc|n|range blocks].
  - intros [= <- <-]. by apply ms_inv_silent; [repeat constructor|].
  - intros [= <- <-]. by apply ms_inv_silent; [repeat constructor|].
  - destruct (ms_consensus ms) as [hc buf db u|c] eqn:Hm; [|done]. intros (buf' & Hb & Hstart)%bind_Ret_inv.
    unfold ms_inv in Hinv. rewrite Hm in Hinv. destruct Hinv as [Hbuf Hs]. eapply maybe_start_ok; [|done].
    apply ms_inv_sync; [|done]. by eapply (buffer_step_inv buf (BO_ReRoot root)).
  - apply done_sync_ok; [|done]. intros ms1 Hms1. by apply maybe_start_ok.
  - destruct (ms_consensus ms) as [hc buf db u|c] eqn:Hm; [|intros [= <- <-]; by rewrite app_nil_r].
    unfold ms_inv in Hinv. rewrite Hm in Hinv. destruct Hinv as [Hbuf Hs]. intros Hstart. eapply maybe_start_ok; [|done].
    apply ms_inv_sync; [|done]. clear Hm Hstart. revert buf Hbuf.
    induction blocks as [|b blocks IH]; intros buf Hbuf; [done|]. apply IH. by eapply (buffer_step_inv buf (BO_BlockSync b)).
Qed.

Lemma update_ok ms hist event : ms_inv ms hist → ms_ok hist (update factory ms event).
Proof.
  intros Hinv. destruct event as [e|e|vset|e|e|e|t|e]; simpl.
  - by apply update_consensus_ok.
  - by apply block_sync_child_ok.
  - by apply epoch_child_ok.
  - intros cmds ms' (cs & Hm & [= <- <-])%bind_Ret_inv. by eapply mempool_ok.
  - by apply state_sync_ok.
  - intros cmds ms' [= <- <-]. apply ms_inv_silent; [|done]. destruct e; by repeat constructor.
  - intros cmds ms' [= <- <-]. rewrite app_nil_r. by apply set_env_inv.
  - intros cmds ms' He. injection He as He. destruct e; simplify_eq/=; (apply ms_inv_silent; [by repeat constructor|]); [|done..].
    unfold ms_inv in *. simpl. by destruct (ms_consensus ms).
Qed.

Lemma monad_run_ok inputs ms hist : ms_inv ms hist → ms_ok hist (monad_run factory ms inputs).
Proof.
  revert ms hist. induction inputs as [|[backend event] inputs IH]; intros ms hist Hinv cmds ms'; cbn [monad_run].
  { intros [= <- <-]. by rewrite app_nil_r. }
  intros ([cmds1 ms1] & Hu & ([cmds2 ms2] & Hr & [= <- <-])%bind_Ret_inv)%bind_Ret_inv. rewrite (assoc_L (++)).
  eapply IH; [|done]. eapply update_ok; [|done]. by apply set_env_inv.
Qed.

Lemma add_validators_ok sets ms hist : ms_inv ms hist → ms_ok hist (add_validators factory ms sets).
Proof.
  revert ms hist. induction sets as [|vset sets IH]; intros ms hist Hinv cmds ms'; cbn [add_validators].
  { intros [= <- <-]. by rewrite app_nil_r. }
  intros ([cmds1 ms1] & Hu & ([cmds2 ms2] & Hr & [= <- <-])%bind_Ret_inv)%bind_Ret_inv. rewrite (assoc_L (++)).
  eapply IH; [|done]. by eapply update_ok.
Qed.

Lemma build_ok forkpoint sets key certkey el ed ben peers cfg ver backend policy :
  ms_ok [] (build factory forkpoint sets key certkey el ed ben peers cfg ver backend policy).
Proof.
  intros cmds ms'. unfold build. intros Hb. do 4 (apply bind_Ret_inv in Hb as (? & _ & Hb)).
  apply bind_Ret_inv in Hb as ([cmds1 ms1] & Ha & ([cmds2 ms2] & Hm & [= <- <-])%bind_Ret_inv).
  rewrite (assoc_L (++)). eapply maybe_start_ok; [|done]. eapply (add_validators_ok sets); [|done].
  split; [|constructor]. by constructor; simpl; intros id block; rewrite lookup_empty.
Qed.
End inv.

(** * Properties *)

Lemma StronglySorted_sublist {A} (R : relation A) l1 l2 : l1 `sublist_of` l2 → StronglySorted R l2 → StronglySorted R l1.
Proof.
  induction 1 as [|x l1 l2 Hs IH|x l1 l2 Hs IH]; intros Hl; [done|..]; inversion Hl as [|? ? Hl2 Hx]; subst; [|by apply IH].
  constructor; [by apply IH|]. rewrite Forall_forall in *. intros y Hy. apply Hx. by eapply elem_of_sublist.
Qed.

Lemma linked_lookup `{BP : BlockPolicy} start l id i b b' :
  linked start l id → (vb_block <$> l) !! i = Some b → (vb_block <$> l) !! S i = Some b' → fb_parent_id b' = fb_id b.
Proof.
  revert start i. induction l as [|c [|c' l] IH]; intros start i Hl; [done|by destruct i|]. destruct Hl as [_ Hl].
  destruct i as [|i]; [|by apply (IH _ i Hl)]. intros [= <-] [= <-]. apply Hl.
Qed.

(** C3. The node as a whole is consistent from its start on. Let it be built from
    any forkpoint, and then react to any events (messages, timers, results of
    block sync and state sync, changes of configuration, of the validator sets
    and of the database) without panicking. Then what it signs and enters never
    contradicts what it did before, in the sense of [may_follow]; every block
    that the ledger is told to be final, whether found by state sync or committed
    by consensus, extends the final block before it; and as long as it is not
    live it publishes no consensus message, proposes nothing and commits
    nothing. *)
Theorem monad_state_consistent `{BP : BlockPolicy} `{BVT : !BlockValidator} `{!BlockValidatorLaws} `{L : LruCache}
    `{HashOrder} `{R : Rng} `{X : Externals} `{SB : !StateBackend}
    {VT : Type} `{ValidatorSetType VT} `{LT : LeaderElection} `{CCT : ChainConfig}
    (factory : list (NodeId * Stake) → exec (result VT ValidatorSetError))
    (forkpoint : Checkpoint) (sets : list ValidatorSetDataWithEpoch) (key : ST_KeyPair) (certkey : CertKeyPair)
    (epoch_length : SeqNum) (epoch_start_delay : Round) (beneficiary : Z) (peers : list NodeId)
    (config : ConsensusConfig) (version : Z) (backend : SBT) (policy : BPT)
    (inputs : list (SBT * MonadEvent)) (cmds1 cmds2 : list Command) (ms1 ms2 : MonadState)
    (Hbuild : build factory forkpoint sets key certkey epoch_length epoch_start_delay beneficiary peers config
                version backend policy = Ret (cmds1, ms1))
    (Hrun : monad_run factory ms1 inputs = Ret (cmds2, ms2)) :
  StronglySorted may_follow (ms_actions (cmds1 ++ cmds2)) ∧
  (∀ i b b', ledger_finalized (cmds1 ++ cmds2) !! i = Some b → ledger_finalized (cmds1 ++ cmds2) !! S i = Some b' →
     fb_parent_id b' = fb_id b) ∧
  (¬ is_live ms2 → Forall (λ c, silent c = true) (cmds1 ++ cmds2)).
Proof.
  apply build_ok in Hbuild. apply (monad_run_ok _ _ _ _ Hbuild) in Hrun. simpl in Hrun. unfold ms_inv in Hrun.
  destruct (ms_consensus ms2) as [hc buf db u|c] eqn:Hm.
  - destruct Hrun as [_ Hs]. destruct (silent_inert _ Hs) as [Ha Hf]. rewrite Ha, Hf. split_and!; [constructor|done|done].
  - destruct Hrun as (root & start & committed & log & Hn & Hsub & Hl & Hf). split_and!.
    + eapply StronglySorted_sublist; [done|]. apply (ni_core _ _ _ Hn).
    + rewrite Hf. intros i b b'. eapply linked_lookup. eapply linked_app; [done|]. apply (ni_chain _ _ _ Hn).
    + intros Hnl. destruct Hnl. by eexists.
Qed.

(** C30. [maybe_start_consensus] calls itself through [DoneSync] at most once: what a
    third call would do, here an arbitrary computation [k], does not matter in
    any state, so its recursion ends within the fuel. *)
Theorem maybe_start_terminates `{BP : BlockPolicy} `{BVT : !BlockValidator} `{L : LruCache}
    `{HashOrder} `{R : Rng} `{X : Externals} `{SB : !StateBackend}
    {VT : Type} `{ValidatorSetType VT} `{LT : LeaderElection} `{CCT : ChainConfig}
    (k : MonadState → exec (list Command * MonadState)) (ms : MonadState (VT := VT)) :
  maybe_start_with (maybe_start_with k) ms = maybe_start_consensus ms.
Proof.
  unfold maybe_start_consensus. cbn [maybe_start_fuel]. unfold maybe_start_with at 1 3.
  destruct (ms_consensus ms) as [hc buf db u|c]; [|reflexivity].
  apply bind_ext; intros chain Hc. apply bind_ext; intros [range|] Hn; [reflexivity|].
  apply bind_ext; intros ri Hri. destruct db; [|reflexivity|reflexivity].
  apply bind_ext; intros ? _. destruct (_ || _); [reflexivity|].
  apply bind_ext; intros ? _. apply bind_ext; intros ? _. unfold done_sync_with. cbn [ms_consensus set_mode].
  destruct (_ <$> root_seq_num buf) as [t|]; [|reflexivity]. destruct (bool_decide _); [|reflexivity].
  do 5 (apply bind_ext; intros ? _). unfold maybe_start_with. cbn [ms_consensus set_mode].
  rewrite Hc, Hn, Hri. reflexivity.
Qed.

(** ** Concrete runs *)

Section witnesses.
#[local] Existing Instances NopProtocol map_order nop_chain list_lru.
#[local] Instance top_policy : @BlockPolicy NopProtocol := PassthruBlockPolicy.
#[local] Instance top_validator : @BlockValidator NopProtocol PassthruBlockPolicy := MockValidator.
#[local] Instance top_validator_laws : BlockValidatorLaws.
Proof.
  constructor. intros header body key a b c d block. simpl. unfold full_block_new. case_bool_decide; simpl; [done|].
  by intros [= <-].
Qed.
#[local] Instance top_rng : Rng :=
  {| rng_state := unit; rng_choose g _ := (0%nat, g); rng_gen g := (0, g); rng_seed := tt; rng_fuel := 1 |}.
#[local] Instance top_externals : Externals := {| StateSyncNetworkMessage := unit; PeerEntry := unit |}.

(** A database that has finalized one block, or nothing. *)
Definition top_backend (n : option SeqNum) : @StateBackend NopProtocol PassthruBlockPolicy :=
  Build_StateBackend NopProtocol PassthruBlockPolicy (λ _, n) (λ _, n).

Definition top_sets : list ValidatorSetDataWithEpoch :=
  [mkValidatorSetDataWithEpoch 1 [mkValidatorData 1 1 1; mkValidatorData 2 1 2; mkValidatorData 3 1 3; mkValidatorData 4 1 4]].
Definition top_config (delay : SeqNum) : ConsensusConfig := mkConsensusConfig delay (from_millis 100) 900 600 300 1.
Definition top_message (n : NodeId) (m : ProtocolMessage) : @MonadEvent NopProtocol _ :=
  ME_Consensus (CE_Message n (unverified_from (consensus_message_sign (P := NopProtocol)
    (mkConsensusMessage (P := NopProtocol) 1 m) n))).

(** Node 1 starts at the genesis block and is live at once; it times out in round
    1, whose leader proposes late, and then follows the leaders of rounds 2 and 3. *)
Definition top_qc (h : ConsensusBlockHeader) : QuorumCertificate :=
  nop_signed_qc [2; 3; 4] (mkVote (header_get_id h) (h_block_round h) 1).
Definition top_h2 : ConsensusBlockHeader := nop_led_header 2 2 (top_qc nop_h1).
Definition top_h3 : ConsensusBlockHeader := nop_led_header 3 3 (top_qc top_h2).
Definition top_proposal (h : ConsensusBlockHeader) : MonadEvent :=
  let leader := nop_leader (h_block_round h) in
  top_message leader (PM_Proposal (mkProposalMessage (P := NopProtocol) (h_block_round h) 1
    (tip_new (P := NopProtocol) leader h None) (mkBody (P := NopProtocol) []) None)).
Definition top_inputs : list (SBT * MonadEvent) :=
  map (λ e, (tt, e)) (ME_TimestampUpdate 2500 :: map top_proposal [nop_h1; top_h2; top_h3] ++ [ME_Consensus (CE_Timeout 3)]).
Definition top_build (backend : StateBackend) (root : BlockId) (delay : SeqNum) : exec (list Command * MonadState) :=
  build (SB := backend) (VT := ValidatorSet) create
    (mkCheckpoint (P := NopProtocol) root (RC_Qc nop_genesis_qc) [mkLockedEpoch 1 GENESIS_ROUND])
    top_sets 1 1 1000 50 0 [] (top_config delay) 1 tt tt.
Definition top_run : exec (list Command * list Command * MonadState) :=
  '(cmds1, ms1) ← top_build (top_backend (Some 0)) GENESIS_BLOCK_ID 3;
  '(cmds2, ms2) ← monad_run (SB := top_backend (Some 0)) create ms1 top_inputs;
  Ret (cmds1, cmds2, ms2).

Lemma monad_state_consistent_witness :
  ∃ cmds1 cmds2 ms, top_run = Ret (cmds1, cmds2, ms) ∧ length (ms_actions (cmds1 ++ cmds2)) = 4%nat ∧
    StronglySorted may_follow (ms_actions (cmds1 ++ cmds2)).
Proof.
  destruct (ret_with_spec (λ r : list Command * list Command * MonadState,
      bool_decide (length (ms_actions (r.1.1 ++ r.1.2)) = 4%nat)) top_run)
    as ([[cmds1 cmds2] ms] & Hrun & Hlen%bool_decide_eq_true); [vm_compute; reflexivity|].
  exists cmds1, cmds2, ms. split; [exact Hrun|]. split; [exact Hlen|]. unfold top_run in Hrun.
  apply bind_Ret_inv in Hrun as ([c1 ms1] & Hb & Hrun). apply bind_Ret_inv in Hrun as ([c2 ms2] & Hr & Heq).
  injection Heq as -> -> ->. apply (monad_state_consistent create _ _ _ _ _ _ _ _ _ _ _ _ _ _ _ _ _ Hb Hr).
Defined.

(** A node that starts far behind, at block 100, and is told of block 200 while it
    synchronises the state of block 100. *)
Definition race_block (n : SeqNum) (qc : QuorumCertificate) : ConsensusFullBlock :=
  let body := mkBody (P := NopProtocol) [] in
  mkFullBlock (P := NopProtocol)
    (mkHeader (P := NopProtocol) n 1 qc (nop_leader n) n (1000 * n)
      (round_signature_new (P := NopProtocol) n (nop_leader n)) [n - 1] tt (body_get_id (P := NopProtocol) body)) body.
Definition race_100 : ConsensusFullBlock := race_block 100 (nop_qc 99 99).
Definition race_200 : ConsensusFullBlock := race_block 200 (nop_qc 199 199).
Definition race_requests (cmds : list Command) : list FinalizedHeader :=
  omap (λ c, match c with C_StateSync (SC_RequestSync h) => Some h | _ => None end) cmds.
Definition race_run (events : list MonadEvent) : exec (list FinalizedHeader) :=
  '(cmds1, ms1) ← top_build (top_backend None) (fb_id race_100) 1;
  '(cmds2, ms2) ← monad_run (SB := top_backend None) create ms1 (map (λ e, (tt, e)) events);
  Ret (race_requests (cmds1 ++ cmds2)).
Definition race_prefix : list MonadEvent :=
  [ME_StateSync (SS_BlockSync (mkBlockRange (fb_id race_100) 1) [race_100]);
   ME_StateSync (SS_RequestSync (fb_header race_200) (nop_qc 200 (fb_id race_200)))].

(** A [DoneSync] that was under way when the node chose a new target stops the
    node: after it has asked for the state of block 99 and then been given block
    200 as its root, it is stopped by the answer to its first request as long as
    the block of the new root is missing, and drops that answer once it is not. *)
Example done_sync_race :
  race_run race_prefix = Ret [99] ∧
  race_run (race_prefix ++ [ME_StateSync (SS_DoneSync 99)]) = Panic ∧
  race_run (race_prefix ++ [ME_StateSync (SS_BlockSync (mkBlockRange (fb_id race_200) 1) [race_200]);
                            ME_StateSync (SS_DoneSync 99)]) = Ret [99; 199].
Proof. split_and!; vm_decide. Qed.
End witnesses.
