(* ===== verification/Merkle.v ===== *)
(** Merkle trees (src/monad-merkle/src/lib.rs): the tree over the chunks of a
    message, the proofs that go with the chunks, and their check. The hasher of
    src/monad-crypto/src/hasher.rs is a parameter. *)

From S2P Require Import Prelude Types ValidatorSet Crypto.

#[local] Open Scope Z_scope.

Notation Hash := bytes (only parsing).
Notation MerkleHash := bytes (only parsing).

(** [HasherType]: [hasher data] hashes the concatenation of the updates. *)
Class Hasher := hasher : bytes → Hash.
Class HasherLaws `{Hasher} := hasher_length data : length (hasher data) = 32%nat.

Definition checked_pow (max a b : Z) : option Z := if bool_decide (a ^ b <= max) then Some (a ^ b) else None.
Definition u16_max : Z := 2 ^ 16 - 1.

Section merkle.
Context `{H : Hasher}.

Definition hash_to_merkle (h : Hash) : MerkleHash := take 20 h.

(** The hash of an inner node: both children in order. *)
Definition merkle_node (left right : MerkleHash) : MerkleHash := hash_to_merkle (hasher (left ++ right)).

Definition parent_idx (idx : Z) : option Z := if bool_decide (1 <= idx) then Some ((idx - 1) / 2) else None.
Definition sibling_idx (idx : Z) : option Z :=
  parent_idx ← parent_idx idx;
  Some (2 * parent_idx + (1 + idx mod 2)).

Record MerkleProof := mkMerkleProof { tree_leaf_idx : Z; siblings : list MerkleHash }.

Definition new_from_leaf_idx (siblings : list MerkleHash) (leaf_idx : Z) : option MerkleProof :=
  num_leaves ← checked_pow u16_max 2 (Z.of_nat (length siblings));
  tree_len ← (if bool_decide (2 * num_leaves <= u16_max) then Some (2 * num_leaves) else None);
  tree_len ← (if bool_decide (1 <= tree_len) then Some (tree_len - 1) else None);
  let tree_leaf_start_idx := tree_len - num_leaves in
  Some (mkMerkleProof (tree_leaf_start_idx + leaf_idx) siblings).

(** The loop over the siblings from the leaf up. *)
Fixpoint compute_root_loop (merkle_hash : MerkleHash) (current_idx : option Z) (siblings : list MerkleHash) :
    option MerkleHash :=
  match siblings with
  | [] => Some merkle_hash
  | sibling :: siblings =>
      idx ← current_idx;
      let merkle_hash := if bool_decide (idx mod 2 = 1) then merkle_node merkle_hash sibling
                         else merkle_node sibling merkle_hash in
      compute_root_loop merkle_hash (parent_idx idx) siblings
  end.
Definition compute_root (p : MerkleProof) (leaf : Hash) : option MerkleHash :=
  compute_root_loop (hash_to_merkle leaf) (Some (tree_leaf_idx p)) (reverse (siblings p)).

Record MerkleTree := mkMerkleTree { tree_leaf_start_idx : Z; tree : list MerkleHash }.

(** [MerkleHash::default()] *)
Definition merkle_default : MerkleHash := replicate 20 0.

(** The inner nodes below [n], from the last to the root. *)
Fixpoint build_loop (n : nat) (tree : list MerkleHash) : exec (list MerkleHash) :=
  match n with
  | O => Ret tree
  | S idx =>
      left ← expect (tree !! (2 * idx + 1)%nat);
      right ← expect (tree !! (2 * idx + 2)%nat);
      build_loop idx (<[idx := merkle_node left right]> tree)
  end.

(** [tree[start..].iter_mut().zip(leaves)] *)
Definition fill_leaves (num_leaves : nat) (leaves : list Hash) : list MerkleHash :=
  let set := take num_leaves (map hash_to_merkle leaves) in
  set ++ replicate (num_leaves - length set) merkle_default.

Definition new_with_depth (leaves : list Hash) (depth : Z) : exec MerkleTree :=
  height ← checked_sub depth 1;
  let num_leaves := 2 ^ height in
  let tree_len := 2 * num_leaves - 1 in
  _ ← assert (bool_decide (tree_len <= u16_max));
  let tree_leaf_start_idx := tree_len - num_leaves in
  let tree := replicate (Z.to_nat tree_leaf_start_idx) merkle_default ++ fill_leaves (Z.to_nat num_leaves) leaves in
  tree ← build_loop (Z.to_nat tree_leaf_start_idx) tree;
  Ret (mkMerkleTree tree_leaf_start_idx tree).

(** [leaves.len().next_power_of_two().ilog2() + 1] *)
Definition merkle_tree_new (leaves : list Hash) : exec MerkleTree :=
  let depth := Z.log2_up (Z.of_nat (length leaves)) + 1 in
  _ ← assert (bool_decide (depth <= 255));
  new_with_depth leaves depth.

Definition merkle_root (t : MerkleTree) : exec MerkleHash := expect (tree t !! 0%nat).

(** The siblings of [current_idx] and of the nodes above it, going up. *)
Fixpoint siblings_loop (fuel : nat) (t : MerkleTree) (current_idx : Z) : exec (list MerkleHash) :=
  match fuel with
  | O => OutOfFuel
  | S fuel =>
      match sibling_idx current_idx with
      | None => Ret []
      | Some sibling_idx =>
          up ← expect (parent_idx current_idx);
          sibling ← expect (tree t !! Z.to_nat sibling_idx);
          rest ← siblings_loop fuel t up;
          Ret (sibling :: rest)
      end
  end.
Definition merkle_proof (t : MerkleTree) (leaf_idx : Z) : exec MerkleProof :=
  let tree_leaf_idx := tree_leaf_start_idx t + leaf_idx in
  siblings ← siblings_loop (S (length (tree t))) t tree_leaf_idx;
  Ret (mkMerkleProof tree_leaf_idx (reverse siblings)).

(** * Properties *)

(** An inner node is the hash of its children. *)
Definition built (tr : list MerkleHash) (idx : nat) : Prop :=
  ∃ l r, tr !! (2 * idx + 1)%nat = Some l ∧ tr !! (2 * idx + 2)%nat = Some r ∧ tr !! idx = Some (merkle_node l r).

Lemma build_loop_spec n start tr :
  (n <= start)%nat → (2 * start < length tr)%nat → (∀ idx, (n <= idx < start)%nat → built tr idx) →
  ∃ tr', build_loop n tr = Ret tr' ∧ length tr' = length tr ∧ (∀ idx, (idx < start)%nat → built tr' idx) ∧
    ∀ j, (n <= j)%nat → tr' !! j = tr !! j.
Proof.
  revert tr. induction n as [|idx IH]; intros tr Hn Hlen Hb.
  { exists tr. split_and!; try done. intros j Hj. apply Hb. lia. }
  destruct (lookup_lt_is_Some_2 tr (2 * idx + 1)) as [l Hl]; [lia|].
  destruct (lookup_lt_is_Some_2 tr (2 * idx + 2)) as [r Hr]; [lia|]. cbn [build_loop].
  rewrite Hl, Hr. cbn [expect]. rewrite !bind_Ret.
  destruct (IH (<[idx := merkle_node l r]> tr)) as (tr' & -> & Hlen' & Hb' & Hsame).
  - lia.
  - rewrite length_insert. lia.
  - intros j Hj. destruct (decide (j = idx)) as [->|Hne].
    + exists l, r. rewrite list_lookup_insert_eq, !list_lookup_insert_ne by lia. done.
    + destruct (Hb j) as (l' & r' & Hl' & Hr' & Hj'); [lia|]. exists l', r'. rewrite !list_lookup_insert_ne by lia. done.
  - exists tr'. rewrite length_insert in Hlen'. split_and!; try done.
    intros j Hj. rewrite Hsame by lia. apply list_lookup_insert_ne. lia.
Qed.

(** What a tree of the given depth is: [2 ^ (depth - 1)] leaves under the nodes
    that hash them. *)
Record tree_ok (t : MerkleTree) (height : nat) : Prop := {
  tok_start : tree_leaf_start_idx t = 2 ^ Z.of_nat height - 1;
  tok_length : Z.of_nat (length (tree t)) = 2 * 2 ^ Z.of_nat height - 1;
  tok_built idx : Z.of_nat idx < tree_leaf_start_idx t → built (tree t) idx;
}.

Lemma lookup_fill_leaves n leaves (i : nat) :
  (i < n)%nat → fill_leaves n leaves !! i = Some (default merkle_default (hash_to_merkle <$> leaves !! i)).
Proof.
  intros Hi. unfold fill_leaves. rewrite lookup_app. rewrite lookup_take_lt by done.
  change (map hash_to_merkle leaves) with (hash_to_merkle <$> leaves). rewrite list_lookup_fmap.
  destruct (leaves !! i) eqn:Hl; simpl; [done|].
  apply lookup_ge_None in Hl. apply lookup_replicate. rewrite length_take, length_fmap. split; [done|lia].
Qed.

Lemma length_fill_leaves n leaves : length (fill_leaves n leaves) = n.
Proof. unfold fill_leaves. rewrite length_app, length_replicate, length_take. lia. Qed.

Lemma new_with_depth_spec leaves (height : nat) :
  (height < 16)%nat →
  ∃ t, new_with_depth leaves (Z.of_nat height + 1) = Ret t ∧ tree_ok t height ∧
    ∀ i, 0 <= i < 2 ^ Z.of_nat height →
      tree t !! Z.to_nat (tree_leaf_start_idx t + i) =
        Some (default merkle_default (hash_to_merkle <$> leaves !! Z.to_nat i)).
Proof.
  intros Hh. unfold new_with_depth. rewrite checked_sub_ok, bind_Ret by lia.
  replace (Z.of_nat height + 1 - 1) with (Z.of_nat height) by lia.
  assert (2 ^ Z.of_nat height <= 2 ^ 15) as Hmax by (apply Z.pow_le_mono_r; lia).
  pose proof (Z.pow_pos_nonneg 2 (Z.of_nat height)) as Hpos. set (n := 2 ^ Z.of_nat height) in *.
  rewrite bool_decide_true by (unfold u16_max; lia). cbn [assert]. rewrite bind_Ret.
  replace (2 * n - 1 - n) with (n - 1) by lia.
  destruct (build_loop_spec (Z.to_nat (n - 1)) (Z.to_nat (n - 1))
    (replicate (Z.to_nat (n - 1)) merkle_default ++ fill_leaves (Z.to_nat n) leaves))
    as (tr & -> & Hlen & Hb & Hsame); [done| |lia|].
  { rewrite length_app, length_replicate, length_fill_leaves. lia. }
  rewrite length_app, length_replicate, length_fill_leaves in Hlen. rewrite bind_Ret. eexists. split; [done|].
  split; [constructor; simpl; [done|lia|]|].
  - intros idx Hidx. apply Hb. lia.
  - simpl. intros i Hi. rewrite Hsame by lia. rewrite lookup_app_r by (rewrite length_replicate; lia).
    rewrite length_replicate. replace (Z.to_nat (n - 1 + i) - Z.to_nat (n - 1))%nat with (Z.to_nat i) by lia.
    apply lookup_fill_leaves. lia.
Qed.

(** The children of the parent of a node that is not the root. *)
Lemma node_parent t height (idx : Z) h :
  tree_ok t height → 1 <= idx → tree t !! Z.to_nat idx = Some h →
  ∃ sib, tree t !! Z.to_nat (2 * ((idx - 1) / 2) + (1 + idx mod 2)) = Some sib ∧
    tree t !! Z.to_nat ((idx - 1) / 2) =
      Some (if bool_decide (idx mod 2 = 1) then merkle_node h sib else merkle_node sib h).
Proof.
  intros [Hs Hlen Hb] Hidx Hh. apply lookup_lt_Some in Hh as Hlt.
  assert (0 <= (idx - 1) / 2 ∧ 2 * ((idx - 1) / 2) <= idx - 1) as [Hp0 Hp] by dlia.
  destruct (Hb (Z.to_nat ((idx - 1) / 2))) as (l & r & Hl & Hr & Hn); [lia|]. rewrite Hn.
  case_bool_decide as Hodd.
  - replace (2 * Z.to_nat ((idx - 1) / 2) + 1)%nat with (Z.to_nat idx) in Hl by dlia.
    exists r. rewrite Hodd. split; [rewrite <-Hr; f_equal; lia|congruence].
  - replace (2 * Z.to_nat ((idx - 1) / 2) + 2)%nat with (Z.to_nat idx) in Hr by dlia.
    exists l. replace (idx mod 2) with 0 by dlia. split; [rewrite <-Hl; f_equal; lia|congruence].
Qed.

Lemma siblings_loop_spec t height fuel (idx : Z) h :
  tree_ok t height → 0 <= idx < Z.of_nat fuel → tree t !! Z.to_nat idx = Some h →
  ∃ sibs, siblings_loop fuel t idx = Ret sibs ∧ Z.of_nat (length sibs) = Z.log2 (idx + 1) ∧
    compute_root_loop h (Some idx) sibs = tree t !! 0%nat.
Proof.
  intros Ht. revert idx h. induction fuel as [|fuel IH]; intros idx h [Hidx Hfuel] Hh; [lia|].
  cbn [siblings_loop]. unfold sibling_idx, parent_idx. case_bool_decide as H1; cbn.
  2:{ assert (idx = 0) as -> by lia. exists []. done. }
  destruct (node_parent t height idx h) as (sib & Hsib & Hp); try done. rewrite Hsib. cbn.
  destruct (IH ((idx - 1) / 2) _ ltac:(dlia) Hp) as (sibs & -> & Hlen & Hroot). cbn. eexists. split; [done|]. split.
  - cbn [length]. rewrite Nat2Z.inj_succ, Hlen. replace ((idx - 1) / 2 + 1) with ((idx + 1) / 2) by dlia.
    change 2 with (2 ^ 1). rewrite <-Z.shiftr_div_pow2, Z.log2_shiftr by lia.
    assert (Z.log2 2 <= Z.log2 (idx + 1)) by (apply Z.log2_le_mono; lia). simpl in *. lia.
  - cbn [compute_root_loop]. cbn. unfold parent_idx. by rewrite (bool_decide_true (1 <= idx)) by done.
Qed.

(** ** Soundness *)

(** Two inputs of the hasher with the same truncated hash. *)
Definition collide (xy : bytes * bytes) : Prop :=
  xy.1 ≠ xy.2 ∧ hash_to_merkle (hasher xy.1) = hash_to_merkle (hasher xy.2).
#[export] Instance collide_dec xy : Decision (collide xy).
Proof. unfold collide. apply _. Defined.

(** The collision that a false proof reveals: where its path, from the hash [h]
    at [idx], first agrees with the tree. *)
Fixpoint find_collision (t : MerkleTree) (h : MerkleHash) (idx : Z) (sibs : list MerkleHash) : option (bytes * bytes) :=
  match sibs with
  | [] => None
  | s :: sibs =>
      let up := (idx - 1) / 2 in
      let claimed := if bool_decide (idx mod 2 = 1) then h ++ s else s ++ h in
      let actual := default [] (tree t !! Z.to_nat (2 * up + 1)) ++ default [] (tree t !! Z.to_nat (2 * up + 2)) in
      if bool_decide (collide (claimed, actual)) then Some (claimed, actual)
      else find_collision t (hash_to_merkle (hasher claimed)) up sibs
  end.

(** All hashes have the length of a [MerkleHash]. *)
Lemma find_collision_spec `{!HasherLaws} t height sibs (h v root : MerkleHash) (idx idx' m : Z) :
  tree_ok t height → Forall (λ s, length s = 20%nat) (tree t) → Forall (λ s, length s = 20%nat) sibs →
  length h = 20%nat → tree t !! Z.to_nat idx = Some v → 0 <= idx → 0 <= m →
  idx' = idx + m * 2 ^ Z.of_nat (length sibs) → 2 ^ Z.of_nat (length sibs) <= idx + 1 < 2 * 2 ^ Z.of_nat (length sibs) →
  compute_root_loop h (Some idx') sibs = Some root → tree t !! 0%nat = Some root →
  h = v ∨ ∃ xy, find_collision t h idx sibs = Some xy ∧ collide xy.
Proof.
  intros Ht Htree Hsibs. revert h v idx idx'. induction Hsibs as [|s sibs Hs Hsibs IH];
    intros h v idx idx' Hh Hv Hidx Hm Hidx' Hlevel Hroot Hr.
  { simpl in *. assert (idx = 0) as -> by lia. left. change (Z.to_nat 0) with 0%nat in Hv. congruence. }
  cbn [length] in *. rewrite Nat2Z.inj_succ, Z.pow_succ_r in * by lia. set (n := 2 ^ Z.of_nat (length sibs)) in *.
  assert (1 <= n) by (apply (Z.pow_le_mono_r 2 0); lia).
  destruct (node_parent t height idx v) as (sib & Hsib & Hp); [done|lia|done|].
  cbn [compute_root_loop find_collision] in *. cbn in Hroot. unfold parent_idx in Hroot.
  rewrite (bool_decide_true (1 <= idx')) in Hroot by nia. replace ((idx' - 1) / 2) with ((idx - 1) / 2 + m * n) in Hroot by dlia.
  replace (idx' mod 2) with (idx mod 2) in Hroot
    by (subst idx'; replace (idx + m * (2 * n)) with (idx + (m * n) * 2) by lia; by rewrite Z.mod_add).
  set (claimed := if bool_decide (idx mod 2 = 1) then h ++ s else s ++ h).
  replace (if bool_decide (idx mod 2 = 1) then merkle_node h s else merkle_node s h)
    with (hash_to_merkle (hasher claimed)) in Hroot by (unfold claimed, merkle_node; by case_bool_decide).
  set (actual := default [] _ ++ default [] _).
  assert (actual = if bool_decide (idx mod 2 = 1) then v ++ sib else sib ++ v) as Ha.
  { subst actual. case_bool_decide as Hodd.
    - replace (2 * ((idx - 1) / 2) + 1) with idx by dlia. rewrite Hodd in Hsib.
      replace (2 * ((idx - 1) / 2) + (1 + 1)) with (2 * ((idx - 1) / 2) + 2) in Hsib by lia. by rewrite Hv, Hsib.
    - replace (idx mod 2) with 0 in Hsib by dlia. replace (2 * ((idx - 1) / 2) + 2) with idx by dlia.
      rewrite Z.add_0_r in Hsib. by rewrite Hv, Hsib. }
  destruct (decide (collide (claimed, actual))) as [Hc|Hc];
    [rewrite (bool_decide_true _ Hc); right; eauto|rewrite (bool_decide_false _ Hc)].
  destruct (IH (hash_to_merkle (hasher claimed)) (hash_to_merkle (hasher actual)) ((idx - 1) / 2)
    ((idx - 1) / 2 + m * n)) as [Heq|?]; [| | |done|done|dlia|done|done| |by right].
  - unfold hash_to_merkle. rewrite length_take, hasher_length. done.
  - rewrite Hp, Ha. unfold merkle_node. by case_bool_decide.
  - dlia.
  - left. destruct (decide (claimed = actual)) as [Hca|Hca]; [|by destruct Hc].
    pose proof (Forall_lookup_1 _ _ _ _ Htree Hv) as Hlv. pose proof (Forall_lookup_1 _ _ _ _ Htree Hsib) as Hls.
    subst claimed. rewrite Ha in Hca. clear -Hca Hlv Hls Hh Hs. simpl in *.
    case_bool_decide; apply app_inj_1 in Hca; naive_solver lia.
Qed.

Lemma tree_lengths `{!HasherLaws} t height leaves :
  tree_ok t height → Forall (λ l, length l = 32%nat) leaves →
  (∀ i, 0 <= i < 2 ^ Z.of_nat height →
    tree t !! Z.to_nat (tree_leaf_start_idx t + i) =
      Some (default merkle_default (hash_to_merkle <$> leaves !! Z.to_nat i))) →
  Forall (λ s, length s = 20%nat) (tree t).
Proof.
  intros [Hs Hlen Hb] Hl Hleaves. apply Forall_lookup_2. intros j v Hj. apply lookup_lt_Some in Hj as Hlt.
  destruct (decide (Z.of_nat j < tree_leaf_start_idx t)) as [Hlo|Hhi].
  - destruct (Hb j Hlo) as (l & r & _ & _ & Hv). rewrite Hv in Hj. injection Hj as <-.
    unfold merkle_node, hash_to_merkle. by rewrite length_take, hasher_length.
  - specialize (Hleaves (Z.of_nat j - tree_leaf_start_idx t) ltac:(lia)).
    replace (Z.to_nat (tree_leaf_start_idx t + _)) with j in Hleaves by lia. rewrite Hleaves in Hj. injection Hj as <-.
    destruct (leaves !! _) as [l|] eqn:Hli; [|done]. simpl. unfold hash_to_merkle.
    by rewrite length_take, (Forall_lookup_1 _ _ _ _ Hl Hli).
Qed.

Lemma new_from_leaf_idx_spec sibs i :
  (length sibs < 15)%nat → new_from_leaf_idx sibs i = Some (mkMerkleProof (2 ^ Z.of_nat (length sibs) - 1 + i) sibs).
Proof.
  intros Hlen. unfold new_from_leaf_idx, checked_pow.
  assert (2 ^ Z.of_nat (length sibs) <= 2 ^ 14) as Hmax by (apply Z.pow_le_mono_r; lia).
  pose proof (Z.pow_pos_nonneg 2 (Z.of_nat (length sibs))) as Hpos. set (n := 2 ^ _) in *.
  rewrite bool_decide_true by (unfold u16_max; lia). cbn. rewrite bool_decide_true by (unfold u16_max; lia). cbn.
  rewrite bool_decide_true by lia. cbn. do 2 f_equal. lia.
Qed.

Lemma siblings_in_tree fuel t idx sibs : siblings_loop fuel t idx = Ret sibs → Forall (λ s, s ∈ tree t) sibs.
Proof.
  revert idx sibs. induction fuel as [|fuel IH]; intros idx sibs Hs; [done|]. cbn [siblings_loop] in Hs.
  destruct (sibling_idx idx) as [j|]; exec_inv; [|constructor]. constructor; [by eapply list_elem_of_lookup_2|by eapply IH].
Qed.

(** The proof of a leaf, rebuilt from its siblings, leads to the root. *)
Lemma merkle_complete t height (leaves : list Hash) root i leaf :
  (height < 15)%nat → tree_ok t height → tree t !! 0%nat = Some root →
  (∀ i, 0 <= i < 2 ^ Z.of_nat height →
    tree t !! Z.to_nat (tree_leaf_start_idx t + i) =
      Some (default merkle_default (hash_to_merkle <$> leaves !! Z.to_nat i))) →
  0 <= i < 2 ^ Z.of_nat height → leaves !! Z.to_nat i = Some leaf →
  ∃ p, merkle_proof t i = Ret p ∧ Z.of_nat (length (siblings p)) = Z.of_nat height ∧
    new_from_leaf_idx (siblings p) i = Some p ∧ compute_root p leaf = Some root.
Proof.
  intros Hh Hok Hroot Hlookup Hi Hleaf. destruct (Hok) as [Hs Hlen _]. specialize (Hlookup i Hi). rewrite Hleaf in Hlookup. simpl in Hlookup.
  unfold merkle_proof.
  destruct (siblings_loop_spec t height (S (length (tree t))) (tree_leaf_start_idx t + i) (hash_to_merkle leaf))
    as (sibs & -> & Hsibs & Hr); [done|lia|done|]. rewrite bind_Ret. eexists. split; [done|]. cbn [siblings].
  assert (Z.of_nat (length sibs) = Z.of_nat height) as Hl
    by (rewrite Hsibs; apply Z.log2_unique; [lia|rewrite <-Z.add_1_r, Z.pow_add_r by lia; lia]).
  rewrite length_reverse. split; [done|]. split.
  - rewrite new_from_leaf_idx_spec by (rewrite length_reverse; lia). by rewrite length_reverse, Hl, Hs.
  - unfold compute_root. cbn [tree_leaf_idx siblings]. rewrite reverse_involutive. by rewrite Hr.
Qed.
End merkle.

(** C10. Proofs of a Merkle tree are complete and sound. The proof of a leaf is
    rebuilt from its siblings and the index of the leaf, and leads to the root.
    A proof of the right height that leads to the root of the tree is of the
    leaf with its index, up to the number of leaves, or it reveals two inputs of
    the hasher with the same hash. *)
Theorem merkle_correct `{H : Hasher} `{!HasherLaws} (leaves : list Hash) (depth : Z)
    (Hleaves : Forall (λ l, length l = 32%nat) leaves) (Hdepth : 1 <= depth <= 15) :
  ∃ t root, new_with_depth leaves depth = Ret t ∧ merkle_root t = Ret root ∧
    (∀ i leaf, 0 <= i < 2 ^ (depth - 1) → leaves !! Z.to_nat i = Some leaf →
       ∃ p, merkle_proof t i = Ret p ∧ Z.of_nat (length (siblings p)) = depth - 1 ∧
         new_from_leaf_idx (siblings p) i = Some p ∧ compute_root p leaf = Some root) ∧
    (∀ i leaf sibs p, 0 <= i → length leaf = 32%nat → Z.of_nat (length sibs) = depth - 1 →
       Forall (λ s, length s = 20%nat) sibs →
       new_from_leaf_idx sibs i = Some p → compute_root p leaf = Some root →
       let idx := i mod 2 ^ (depth - 1) in
       hash_to_merkle leaf = default merkle_default (hash_to_merkle <$> leaves !! Z.to_nat idx) ∨
       ∃ xy, find_collision t (hash_to_merkle leaf) (tree_leaf_start_idx t + idx) (reverse sibs) = Some xy ∧ collide xy).
Proof.
  destruct (Z_of_nat_complete (depth - 1)) as [height Hh]; [lia|]. replace depth with (Z.of_nat height + 1) in * by lia.
  destruct (new_with_depth_spec leaves height) as (t & Ht & Hok & Hlookup); [lia|]. rewrite Z.add_simpl_r.
  pose proof (Z.pow_pos_nonneg 2 (Z.of_nat height)) as Hpos. destruct (Hok) as [Hs Hlen _].
  destruct (lookup_lt_is_Some_2 (tree t) 0) as [root Hroot]; [lia|].
  exists t, root. split; [done|]. split; [unfold merkle_root; by rewrite Hroot|]. split.
  - intros i leaf Hi Hleaf. apply (merkle_complete t height leaves); done || lia.
  - intros i leaf sibs p Hi Hleaf Hsibs Hall Hp Hr. rewrite new_from_leaf_idx_spec in Hp by lia. injection Hp as <-.
    unfold compute_root in Hr. cbn [tree_leaf_idx siblings] in Hr. rewrite Hsibs in Hr.
    pose proof (Z.mod_pos_bound i (2 ^ Z.of_nat height) ltac:(lia)) as Hmod.
    refine (find_collision_spec t height (reverse sibs) (hash_to_merkle leaf) _ root _ (2 ^ Z.of_nat height - 1 + i)
      (i / 2 ^ Z.of_nat height) Hok (tree_lengths t height leaves Hok Hleaves Hlookup) _ _ (Hlookup _ Hmod) _ _ _ _ Hr Hroot).
    + by apply Forall_reverse.
    + unfold hash_to_merkle. by rewrite length_take, Hleaf.
    + lia.
    + apply Z.div_pos; lia.
    + rewrite length_reverse, Hsibs, Hs. pose proof (Z.div_mod i (2 ^ Z.of_nat height)). lia.
    + rewrite length_reverse, Hsibs. lia.
Qed.

(** ** A concrete tree *)

(** A polynomial checksum of 32 bytes. *)
Definition nop_hasher : Hasher := λ data, to_le_bytes 32 (foldl (λ acc b, (257 * acc + b + 1) mod 2 ^ 256) 7 data).
#[export] Instance nop_hasher_laws : @HasherLaws nop_hasher.
Proof. intros data. apply length_to_le_bytes. Qed.

Definition nop_leaves : list Hash := [nop_hasher [1]; nop_hasher [2]; nop_hasher [3]].

Lemma merkle_correct_witness :
  ∃ t root, new_with_depth (H := nop_hasher) nop_leaves 3 = Ret t ∧ merkle_root t = Ret root ∧
    ∃ p, merkle_proof t 2 = Ret p ∧ compute_root (H := nop_hasher) p (nop_hasher [3]) = Some root.
Proof.
  assert (Forall (λ l, length l = 32%nat) nop_leaves) as Hl by (repeat constructor).
  destruct (merkle_correct (H := nop_hasher) nop_leaves 3 Hl ltac:(lia)) as (t & root & Ht & Hr & Hc & _).
  exists t, root. split; [exact Ht|]. split; [exact Hr|].
  destruct (Hc 2 (nop_hasher [3]) ltac:(lia) eq_refl) as (p & Hp & _ & _ & Hroot). exists p. split; [exact Hp|exact Hroot].
Defined.
