(* ===== verification/RaptorCode.v ===== *)
(** The Raptor code of RFC 5053 and its encoder (src/monad-raptor/src/r10 and
    r10/nonsystematic/encoder.rs, binary_search.rs and xor_eq.rs): the parameters
    of a code, the rows of its matrix and the symbols it sends. *)

From S2P Require Import Prelude Types ValidatorSet Crypto RaptorTables.

#[local] Open Scope Z_scope.

(** * Helpers *)

(** A loop of at most [2 ^ n] turns: [f] goes on with [inl] or stops with [inr]. *)
Fixpoint iter_until {A B} (n : nat) (f : A → A + B) (a : A) : A + B :=
  match n with
  | O => f a
  | S n => match iter_until n f a with inl a => iter_until n f a | inr b => inr b end
  end.

(** [smallest_integer_satisfying]: the binary search, with the interval it ends on. *)
Fixpoint search_loop (fuel : nat) (condition : nat → bool) (lower upper : nat) : nat * nat :=
  match fuel with
  | O => (lower, upper)
  | S fuel =>
      if bool_decide (lower < upper)%nat then
        let pivot := ((lower + upper) / 2)%nat in
        if condition pivot then search_loop fuel condition lower pivot
        else search_loop fuel condition (S pivot) upper
      else (lower, upper)
  end.
Definition smallest_integer_satisfying (from to : nat) (condition : nat → bool) : option nat :=
  let '(lower, upper) := search_loop (to - from) condition from to in
  if bool_decide (lower = upper ∧ upper < to)%nat then Some upper else None.

(** [count_ones] *)
Fixpoint pos_ones (p : positive) : Z :=
  match p with xH => 1 | xO p => pos_ones p | xI p => 1 + pos_ones p end.
Definition count_ones (z : Z) : Z := match z with Zpos p => pos_ones p | _ => 0 end.

(** * The parameters (parameters.rs, systematic_index.rs) *)

Definition SOURCE_SYMBOLS_MIN : Z := 1.
Definition SOURCE_SYMBOLS_MAX : Z := 8192.

Record CodeParameters := mkCodeParameters {
  num_source_symbols : nat;
  num_ldpc_symbols : nat;
  num_half_symbols : nat;
  num_intermediate_symbols : nat;
  num_intermediate_symbols_prime : Z;
  systematic_index : Z;
}.

Definition determine_x (num_source_symbols : Z) : option Z :=
  Z.of_nat <$> smallest_integer_satisfying 4 130
    (λ pivot, bool_decide (Z.of_nat pivot * (Z.of_nat pivot - 1) >= 2 * num_source_symbols)).

Definition smallest_prime_greater_or_equal (prime_min : Z) : option Z :=
  index ← smallest_integer_satisfying 0 (length SMALL_PRIMES)
    (λ pivot, bool_decide (default 0 (SMALL_PRIMES !! pivot) >= prime_min));
  SMALL_PRIMES !! index.

Definition determine_num_ldpc_symbols (num_source_symbols x : Z) : option Z :=
  smallest_prime_greater_or_equal ((num_source_symbols + 99) / 100 + x).

(** Products and quotients of [u32], for [n] up to 16. *)
Definition choose (n k : Z) : Z :=
  let up := foldl Z.mul 1 (map Z.of_nat (seq (Z.to_nat (k + 1)) (Z.to_nat (n - k)))) in
  foldl Z.div up (map Z.of_nat (seq 2 (Z.to_nat (n - k - 1)))).

Definition determine_num_half_symbols (num_source_symbols num_ldpc_symbols : Z) : option Z :=
  Z.of_nat <$> smallest_integer_satisfying 5 17
    (λ pivot, bool_decide (choose (Z.of_nat pivot) ((Z.of_nat pivot + 1) / 2) >= num_source_symbols + num_ldpc_symbols)).

Definition determine_systematic_index (num_source_symbols : Z) : option Z :=
  SYSTEMATIC_INDEX !! Z.to_nat (num_source_symbols - SOURCE_SYMBOLS_MIN).

Definition code_parameters_new (num_source_symbols : Z) : option CodeParameters :=
  if bool_decide (SOURCE_SYMBOLS_MIN <= num_source_symbols <= SOURCE_SYMBOLS_MAX) then
    x ← determine_x num_source_symbols;
    num_ldpc_symbols ← determine_num_ldpc_symbols num_source_symbols x;
    num_half_symbols ← determine_num_half_symbols num_source_symbols num_ldpc_symbols;
    let num_intermediate_symbols := num_source_symbols + num_ldpc_symbols + num_half_symbols in
    num_intermediate_symbols_prime ← smallest_prime_greater_or_equal num_intermediate_symbols;
    systematic_index ← determine_systematic_index num_source_symbols;
    Some (mkCodeParameters (Z.to_nat num_source_symbols) (Z.to_nat num_ldpc_symbols) (Z.to_nat num_half_symbols)
            (Z.to_nat num_intermediate_symbols) num_intermediate_symbols_prime systematic_index)
  else None.

(** * The matrix (ldpc.rs, half.rs, rand.rs, degree.rs, lt.rs) *)

(** A call [set_element(i, j)] is the pair [(i, j)], in order. *)

Definition ldpc_triple (p : CodeParameters) (source_symbol : nat) : list nat :=
  let s := num_ldpc_symbols p in
  let a := (1 + (source_symbol / s) mod (s - 1))%nat in
  let b1 := (source_symbol mod s)%nat in
  let b2 := ((b1 + a) mod s)%nat in
  let b3 := ((b2 + a) mod s)%nat in
  [b1; b2; b3].
Definition g_ldpc (p : CodeParameters) : list (nat * nat) :=
  flat_map (λ i, map (λ el, (el, i)) (merge_sort le (ldpc_triple p i))) (seq 0 (num_source_symbols p)).

(** The next Gray code with [h_prime] ones, from the counter [i], and the counter
    after it. *)
Definition m_next (h_prime i : Z) : exec (Z * Z) :=
  match iter_until 16 (λ i, let g_i := Z.lxor i (Z.shiftr i 1) in
                            if bool_decide (count_ones g_i = h_prime) then inr (g_i, i + 1) else inl (i + 1)) i with
  | inl _ => OutOfFuel
  | inr r => Ret r
  end.
Fixpoint half_loop (p : CodeParameters) (h_prime i : Z) (js : list nat) : exec (list (nat * nat)) :=
  match js with
  | [] => Ret []
  | j :: js =>
      '(m, i) ← m_next h_prime i;
      rest ← half_loop p h_prime i js;
      Ret (map (λ h, (h, j)) (filter (λ h, Z.testbit m (Z.of_nat h) = true) (seq 0 (num_half_symbols p))) ++ rest)
  end.
Definition g_half (p : CodeParameters) : exec (list (nat * nat)) :=
  half_loop p (Z.shiftr (Z.of_nat (num_half_symbols p) + 1) 1) 0 (seq 0 (num_source_symbols p + num_ldpc_symbols p)).

(** [Rand] and [Deg] of the RFC. *)
Definition raptor_rand (x i m : Z) : exec Z :=
  v0 ← expect (V0 !! Z.to_nat (Z.land (x + i) 0xff));
  v1 ← expect (V1 !! Z.to_nat (Z.land (Z.shiftr x 8 + i) 0xff));
  Ret (Z.lxor v0 v1 mod m).

Definition MAX_DEGREE : Z := 40.
Definition deg (v : Z) : exec Z :=
  if bool_decide (v <= 10240) then Ret 1
  else if bool_decide (v <= 491581) then Ret 2
  else if bool_decide (v <= 712793) then Ret 3
  else if bool_decide (v <= 831694) then Ret 4
  else if bool_decide (v <= 948445) then Ret 10
  else if bool_decide (v <= 1032188) then Ret 11
  else if bool_decide (v <= 1048575) then Ret 40
  else Panic.

Definition MAX_TRIPLES : Z := 65521.

Definition trip (p : CodeParameters) (encoding_symbol_id : Z) : exec (Z * Z * Z) :=
  _ ← assert (bool_decide (encoding_symbol_id < MAX_TRIPLES));
  let q := 65521 in
  let a := (53591 + systematic_index p * 997) mod q in
  let b := (10267 * (systematic_index p + 1)) mod q in
  let y := (b + encoding_symbol_id * a) mod q in
  v ← raptor_rand y 0 (Z.shiftl 1 20);
  d ← deg v;
  a ← raptor_rand y 1 (num_intermediate_symbols_prime p - 1);
  b ← raptor_rand y 2 (num_intermediate_symbols_prime p);
  Ret (d, 1 + a, b).

(** [while b >= L { b = (b + a) % L' }] *)
Fixpoint lt_skip (fuel : nat) (p : CodeParameters) (a b : Z) : exec Z :=
  if bool_decide (b < Z.of_nat (num_intermediate_symbols p)) then Ret b
  else match fuel with
       | O => OutOfFuel
       | S fuel => lt_skip fuel p a ((b + a) mod num_intermediate_symbols_prime p)
       end.
Fixpoint lt_loop (n : nat) (p : CodeParameters) (a b : Z) : exec (list Z) :=
  match n with
  | O => Ret []
  | S n =>
      b ← lt_skip (Z.to_nat (num_intermediate_symbols_prime p)) p a b;
      rest ← lt_loop n p a ((b + a) mod num_intermediate_symbols_prime p);
      Ret (b :: rest)
  end.
Definition lt_sequence_op (p : CodeParameters) (encoding_symbol_id : nat) : exec (list nat) :=
  _ ← assert (bool_decide (Z.of_nat encoding_symbol_id <= 65535));
  '(d, a, b) ← trip p (Z.of_nat encoding_symbol_id);
  let num_symbols := Nat.min (Z.to_nat d) (num_intermediate_symbols p) in
  symbols ← lt_loop num_symbols p a b;
  Ret (merge_sort le (map Z.to_nat symbols)).

(** [a_common] (a.rs): the constraints. *)
Definition a_common (p : CodeParameters) : exec (list (nat * nat)) :=
  let k := num_source_symbols p in
  let s := num_ldpc_symbols p in
  half ← g_half p;
  Ret (g_ldpc p ++ map (λ i, (i, k + i))%nat (seq 0 s) ++
       map (λ ij, (s + ij.1, ij.2))%nat half ++ map (λ i, (s + i, k + s + i))%nat (seq 0 (num_half_symbols p))).

(** * Symbols (xor_eq.rs) *)

Notation symbol := bytes (only parsing).

Definition xor_bytes : symbol → symbol → symbol := zip_with Z.lxor.

Definition MAX_SOURCES : nat := 6.
Definition xor_eq (dst : symbol) (src : list symbol) : exec symbol :=
  _ ← assert (bool_decide (1 <= length src <= MAX_SOURCES)%nat);
  _ ← assert (forallb (λ s, bool_decide (length dst = length s)) src);
  Ret (foldl xor_bytes dst src).

(** [l.chunks(n)], for [n] not zero *)
Fixpoint chunks_aux {A} (fuel n : nat) (l : list A) : list (list A) :=
  match fuel, l with
  | S fuel, _ :: _ => take n l :: chunks_aux fuel n (drop n l)
  | _, _ => []
  end.
Definition chunks {A} (n : nat) (l : list A) : list (list A) := chunks_aux (length l) n l.

Fixpoint xor_chunks (dst : symbol) (l : list (list symbol)) : exec symbol :=
  match l with
  | [] => Ret dst
  | chunk :: l => dst ← xor_eq dst chunk; xor_chunks dst l
  end.
Definition xor_sources (dst : symbol) (src : list symbol) : exec symbol := xor_chunks dst (chunks MAX_SOURCES src).

(** * The encoder (encoder.rs) *)

Record Encoder := mkEncoder {
  src : bytes;
  symbol_len : nat;
  params : CodeParameters;
  num_full_source_symbols : nat;
  derived_symbols : list symbol;
}.

(** [&src[index * symbol_len..(index + 1) * symbol_len]] *)
Definition full_symbol (src : bytes) (symbol_len index : nat) : symbol := take symbol_len (drop (index * symbol_len) src).

(** The symbol [index] of [src], or of the [symbols] that follow the full ones. *)
Definition symbol_at (src : bytes) (symbol_len num_full : nat) (symbols : list symbol) (index : nat) : exec symbol :=
  if bool_decide (index < num_full)%nat then Ret (full_symbol src symbol_len index)
  else expect (symbols !! (index - num_full)%nat).

(** The elements of row [i] among the calls of [set_element]. *)
Definition row_of (i : nat) (elements : list (nat * nat)) : list nat := map snd (filter (λ ij, ij.1 = i) elements).

Definition make_redundant_symbol (source : nat → exec symbol) (symbol_len : nat) (source_set : list nat) : exec symbol :=
  sources ← mapM source source_set;
  xor_sources (replicate symbol_len 0) sources.

(** The partial symbol at the end of [src], padded. *)
Definition last_source_symbol (src : bytes) (symbol_len num_full : nat) : list symbol :=
  let last_source_symbol_len := (length src mod symbol_len)%nat in
  if bool_decide (last_source_symbol_len ≠ 0)%nat
  then [drop (num_full * symbol_len) src ++ replicate (symbol_len - last_source_symbol_len) 0]
  else [].

Fixpoint half_symbols_loop (g_half_right : list (list nat)) (ldpc_symbols half_symbols : list symbol) :
    exec (list symbol) :=
  match g_half_right, half_symbols with
  | row :: g_half_right, symbol :: half_symbols =>
      sources ← mapM (λ index, expect (ldpc_symbols !! index)) row;
      symbol ← xor_sources symbol sources;
      rest ← half_symbols_loop g_half_right ldpc_symbols half_symbols;
      Ret (symbol :: rest)
  | _, _ => Ret half_symbols
  end.

Definition encoder_new (src : bytes) (symbol_len : nat) : exec (option Encoder) :=
  if bool_decide (symbol_len = 0%nat) then Ret None else
  let num_full_source_symbols := (length src / symbol_len)%nat in
  let shadowed := last_source_symbol src symbol_len num_full_source_symbols in
  let num_source_symbols := (num_full_source_symbols + length shadowed)%nat in
  let padding := (Z.to_nat SOURCE_SYMBOLS_MIN - num_source_symbols)%nat in
  let shadowed := shadowed ++ replicate padding (replicate symbol_len 0) in
  let num_source_symbols := (num_source_symbols + padding)%nat in
  if bool_decide (SOURCE_SYMBOLS_MIN <= Z.of_nat num_source_symbols <= SOURCE_SYMBOLS_MAX) then
    match code_parameters_new (Z.of_nat num_source_symbols) with
    | None => Ret None
    | Some params =>
        let k := RaptorCode.num_source_symbols params in
        let ldpc := g_ldpc params in
        half ← g_half params;
        let left := filter (λ ij : nat * nat, ij.2 < k)%nat half in
        let right := map (λ ij : nat * nat, (ij.1, (ij.2 - k)%nat)) (filter (λ ij : nat * nat, ¬ (ij.2 < k)%nat) half) in
        let g_ldpc_half := map (λ i, row_of i ldpc) (seq 0 (num_ldpc_symbols params)) ++
                           map (λ i, row_of i left) (seq 0 (num_half_symbols params)) in
        let g_half_right := map (λ i, row_of i right) (seq 0 (num_half_symbols params)) in
        ldpc_half_symbols ← mapM (make_redundant_symbol (symbol_at src symbol_len num_full_source_symbols shadowed)
                                    symbol_len) g_ldpc_half;
        let ldpc_symbols := take (num_ldpc_symbols params) ldpc_half_symbols in
        half_symbols ← half_symbols_loop g_half_right ldpc_symbols (drop (num_ldpc_symbols params) ldpc_half_symbols);
        Ret (Some (mkEncoder src symbol_len params num_full_source_symbols (shadowed ++ ldpc_symbols ++ half_symbols)))
    end
  else Ret None.

Definition encoder_buffer (e : Encoder) (index : nat) : exec symbol :=
  symbol_at (src e) (symbol_len e) (num_full_source_symbols e) (derived_symbols e) index.

(** [encode_symbol] into a buffer of zeros. *)
Definition encode_symbol (e : Encoder) (encoding_symbol_id : nat) : exec symbol :=
  indices ← lt_sequence_op (params e) encoding_symbol_id;
  sources ← mapM (encoder_buffer e) indices;
  xor_sources (replicate (symbol_len e) 0) sources.
