(* ===== verification/RaptorCodeProps.v ===== *)
(** Properties of the Raptor code: the parameters exist for every number of
    source symbols and their primes are prime, the sequence of an encoded symbol
    names distinct intermediate symbols, and the encoder computes the
    intermediate symbols that satisfy the constraints of the matrix. *)

From Stdlib Require Import Znumtheory.
From S2P Require Import Prelude Types ValidatorSet Crypto RaptorTables RaptorCode.

#[local] Open Scope Z_scope.

(** * Binary search *)

Section search.
Context (condition : nat → bool) (from to : nat).
Implicit Types (lower upper : nat).

Definition search_loop_inv lower upper : Prop :=
  (from <= lower <= upper)%nat ∧ (upper <= to)%nat ∧ ((upper < to)%nat → condition upper = true).

Lemma search_loop_spec fuel lower upper :
  search_loop_inv lower upper → (upper - lower <= fuel)%nat →
  ∃ r, search_loop fuel condition lower upper = (r, r) ∧ search_loop_inv r r ∧
    ((∀ i j, (from <= i <= j)%nat → (j < to)%nat → condition i = true → condition j = true) →
     (∀ j, (from <= j < lower)%nat → condition j = false) → ∀ j, (from <= j < r)%nat → condition j = false) ∧
    (condition (to - 1)%nat = true → (lower < to)%nat → (r < to)%nat).
Proof.
  revert lower upper. induction fuel as [|fuel IH]; intros lower upper (Hl & Hu & Hc) Hfuel; cbn [search_loop].
  { assert (upper = lower) as -> by lia. exists lower. split; [done|]. split; [split_and!; lia || auto|]. split; [|done]. auto. }
  case_bool_decide as Hlt.
  2:{ assert (upper = lower) as -> by lia. exists lower. split; [done|]. split; [split_and!; lia || auto|]. split; [|done]. auto. }
  set (pivot := ((lower + upper) / 2)%nat).
  assert (lower <= pivot < upper)%nat as Hp by (unfold pivot; split; [apply Nat.div_le_lower_bound|apply Nat.Div0.div_lt_upper_bound]; lia).
  destruct (condition pivot) eqn:Hcond.
  - destruct (IH lower pivot) as (r & Hr & Hinv & Hmin & Hlast); [split_and!; lia || done|lia|]. exists r. auto.
  - destruct (IH (S pivot) upper) as (r & Hr & Hinv & Hmin & Hlast); [split_and!; lia || done|lia|].
    exists r. split; [done|]. split; [done|]. split.
    + intros Hmono Hbelow. apply Hmin; [done|]. intros j Hj. destruct (condition j) eqn:Hcj; [|done].
      by rewrite (Hmono j pivot) in Hcond by (done || lia).
    + intros Hto _. apply Hlast; [done|]. destruct (decide (pivot = to - 1)%nat) as [->|]; [congruence|lia].
Qed.
End search.

(** The search finds an index that satisfies the condition if the last one does,
    and the first one if the condition is monotone. *)
Lemma smallest_integer_spec (condition : nat → bool) from to :
  (from < to)%nat → condition (to - 1)%nat = true →
  ∃ r, smallest_integer_satisfying from to condition = Some r ∧ (from <= r < to)%nat ∧ condition r = true ∧
    ((∀ i j, (from <= i <= j)%nat → (j < to)%nat → condition i = true → condition j = true) →
     ∀ j, (from <= j < r)%nat → condition j = false).
Proof.
  intros Hft Hto. unfold smallest_integer_satisfying.
  destruct (search_loop_spec condition from to (to - from) from to) as (r & -> & (Hr & Hr' & Hc) & Hmin & Hlast);
    [split_and!; lia|lia|].
  assert (r < to)%nat by (apply Hlast; done || lia). rewrite bool_decide_true by done. exists r.
  split_and!; try done; try lia; [by apply Hc|]. intros Hmono. apply Hmin; [done|]. intros j Hj. lia.
Qed.

(** On a monotone condition the search is a scan. *)
Lemma smallest_integer_iff (condition : nat → bool) to :
  (∀ i j, (i <= j)%nat → (j < to)%nat → condition i = true → condition j = true) →
  match smallest_integer_satisfying 0 to condition with
  | Some r => (r < to)%nat ∧ condition r = true ∧ ∀ j, (j < r)%nat → condition j = false
  | None => ∀ j, (j < to)%nat → condition j = false
  end.
Proof.
  intros Hmono. unfold smallest_integer_satisfying.
  destruct (search_loop_spec condition 0 to (to - 0) 0 to) as (r & -> & (Hr & Hr' & Hc) & Hmin & _);
    [split_and!; lia|lia|].
  assert (∀ j, (j < r)%nat → condition j = false) as Hbelow.
  { intros j Hj. apply Hmin; [|lia|lia]. intros i j' Hij. apply Hmono. lia. }
  case_bool_decide as Hlt.
  - destruct Hlt as [_ Hlt]. split_and!; [done|by apply Hc|done].
  - intros j Hj. apply Hbelow. lia.
Qed.

(** * Primes *)

Definition is_prime (n : Z) : bool :=
  bool_decide (2 <= n < 92 * 92) && forallb (λ d, let d := Z.of_nat d in bool_decide (n <= d ∨ n mod d ≠ 0)) (seq 2 90).

Lemma is_prime_spec n : is_prime n = true → prime n.
Proof.
  unfold is_prime. rewrite andb_true_iff, bool_decide_eq_true, forallb_forall. intros [Hn Hd].
  assert (∀ d, 1 < d < 92 → d < n → ¬ (d | n)) as Hsmall.
  { intros d Hd1 Hdn Hdiv. apply Z.mod_divide in Hdiv; [|lia]. specialize (Hd (Z.to_nat d)). rewrite Z2Nat.id in Hd by lia.
    assert (bool_decide (n <= d ∨ n mod d ≠ 0) = true) as Hb by (apply Hd, in_seq; lia).
    apply bool_decide_eq_true in Hb. lia. }
  apply prime_alt. split; [lia|]. intros k Hk [m Hm]. destruct (decide (k < 92)) as [Hlt|Hge].
  - apply (Hsmall k); [lia..|]. by exists m.
  - apply (Hsmall m); [nia..|]. exists k. lia.
Qed.

Definition sorted_lt (l : list Z) : bool :=
  forallb (λ xy, bool_decide (xy.1 < xy.2)) (zip l (tail l)).

Lemma small_primes_computed :
  forallb is_prime SMALL_PRIMES = true ∧ sorted_lt SMALL_PRIMES = true ∧
  length SMALL_PRIMES = 1052%nat ∧ SMALL_PRIMES !! 46%nat = Some 211 ∧ SMALL_PRIMES !! 1051%nat = Some 8419.
Proof. split_and!; vm_compute; reflexivity. Qed.

Lemma small_primes_prime p : p ∈ SMALL_PRIMES → prime p.
Proof.
  intros Hp. apply is_prime_spec. destruct small_primes_computed as [Hall _]. rewrite forallb_forall in Hall.
  by apply Hall, list_elem_of_In.
Qed.

Lemma sorted_lt_spec l : sorted_lt l = true → ∀ i j x y, (i <= j)%nat → l !! i = Some x → l !! j = Some y → x <= y.
Proof.
  unfold sorted_lt. rewrite forallb_forall. intros Hall i j. induction j as [|j IH]; intros x y Hij Hx Hy.
  { assert (i = 0%nat) as -> by lia. naive_solver lia. }
  destruct (decide (i = S j)) as [->|Hne]; [naive_solver lia|].
  destruct (lookup_lt_is_Some_2 l j) as [z Hz]; [apply lookup_lt_Some in Hy; lia|].
  transitivity z; [by apply (IH x z); [lia|..]|].
  assert ((z, y) ∈ zip l (tail l)) as Hin.
  { apply list_elem_of_lookup. exists j. rewrite lookup_zip_with, Hz. simpl.
    replace (tail l !! j) with (Some y); [done|]. destruct l; [done|]. by rewrite <-Hy. }
  apply list_elem_of_In, Hall, bool_decide_eq_true in Hin. simpl in Hin. lia.
Qed.

Lemma smallest_prime_spec m :
  m <= 8419 → ∃ p, smallest_prime_greater_or_equal m = Some p ∧ prime p ∧ m <= p <= 8419 ∧ (m <= 211 → p <= 211).
Proof.
  intros Hm. destruct small_primes_computed as (_ & Hsorted & Hlen & H211 & Hlast).
  pose proof (sorted_lt_spec _ Hsorted) as Hle. unfold smallest_prime_greater_or_equal. rewrite Hlen.
  set (cond := λ pivot : nat, bool_decide (default 0 (SMALL_PRIMES !! pivot) >= m)).
  assert (cond 1051%nat = true) as Hcond by (apply bool_decide_eq_true; rewrite Hlast; simpl; lia).
  destruct (smallest_integer_spec cond 0 1052) as (r & -> & Hr & Hcr & Hmin); [lia|done|]. cbn [mbind option_bind].
  destruct (lookup_lt_is_Some_2 SMALL_PRIMES r) as [p Hp]; [lia|]. rewrite Hp. exists p.
  apply bool_decide_eq_true in Hcr. rewrite Hp in Hcr. simpl in Hcr.
  split; [done|]. split; [by eapply small_primes_prime, list_elem_of_lookup_2|].
  split; [split; [lia|by apply (Hle r 1051%nat); [lia|..]]|]. intros H.
  destruct (decide (r <= 46)%nat) as [|Hgt]; [by apply (Hle r 46%nat)|]. exfalso.
  assert (cond 46%nat = false) as Hf.
  { apply Hmin; [|lia]. intros i j Hij Hj Hi. apply bool_decide_eq_true in Hi. apply bool_decide_eq_true.
    destruct (lookup_lt_is_Some_2 SMALL_PRIMES i) as [x Hx]; [lia|].
    destruct (lookup_lt_is_Some_2 SMALL_PRIMES j) as [y Hy]; [lia|].
    rewrite Hx in Hi. rewrite Hy. simpl in *. pose proof (Hle i j x y ltac:(lia) Hx Hy). lia. }
  apply bool_decide_eq_false in Hf. rewrite H211 in Hf. simpl in Hf. lia.
Qed.

(** * The parameters *)

Record params_ok (p : CodeParameters) : Prop := {
  ok_source : 1 <= Z.of_nat (num_source_symbols p) <= 8192;
  ok_ldpc : prime (Z.of_nat (num_ldpc_symbols p));
  ok_ldpc_range : (5 <= num_ldpc_symbols p <= 211)%nat;
  ok_half_range : (5 <= num_half_symbols p <= 16)%nat;
  ok_half : Z.of_nat (num_source_symbols p + num_ldpc_symbols p) <=
            choose (Z.of_nat (num_half_symbols p)) ((Z.of_nat (num_half_symbols p) + 1) / 2);
  ok_intermediate : num_intermediate_symbols p = (num_source_symbols p + num_ldpc_symbols p + num_half_symbols p)%nat;
  ok_prime : prime (num_intermediate_symbols_prime p);
  ok_prime_range : Z.of_nat (num_intermediate_symbols p) <= num_intermediate_symbols_prime p <= 8419;
}.

Lemma systematic_index_length : Z.of_nat (length SYSTEMATIC_INDEX) = 8192.
Proof. vm_compute. reflexivity. Qed.

Lemma choose_16 : choose 16 8 = 12870.
Proof. reflexivity. Qed.

Lemma determine_x_spec k : k <= 8192 → ∃ x, determine_x k = Some x ∧ 4 <= x <= 129.
Proof.
  intros Hk. unfold determine_x.
  destruct (smallest_integer_spec (λ pivot, bool_decide (Z.of_nat pivot * (Z.of_nat pivot - 1) >= 2 * k)) 4 130)
    as (x & -> & Hx & _); [lia|apply bool_decide_eq_true; lia|]. exists (Z.of_nat x). split; [done|lia].
Qed.

Lemma determine_half_spec k s :
  k + s <= 12870 → ∃ h, determine_num_half_symbols k s = Some h ∧ 5 <= h <= 16 ∧ k + s <= choose h ((h + 1) / 2).
Proof.
  intros Hks. unfold determine_num_half_symbols.
  set (cond := λ pivot, bool_decide (choose (Z.of_nat pivot) ((Z.of_nat pivot + 1) / 2) >= k + s)).
  destruct (smallest_integer_spec cond 5 17) as (h & -> & Hh & Hch & _); [lia| |].
  - apply bool_decide_eq_true. replace (choose _ _) with 12870 by reflexivity. lia.
  - exists (Z.of_nat h). apply bool_decide_eq_true in Hch. split; [done|]. split; lia.
Qed.

Lemma determine_systematic_spec k : 1 <= k <= 8192 → is_Some (determine_systematic_index k).
Proof.
  intros Hk. apply lookup_lt_is_Some_2. pose proof systematic_index_length. unfold SOURCE_SYMBOLS_MIN. lia.
Qed.

Lemma code_parameters_new_eq k x s h l j :
  SOURCE_SYMBOLS_MIN <= k <= SOURCE_SYMBOLS_MAX → determine_x k = Some x →
  determine_num_ldpc_symbols k x = Some s → determine_num_half_symbols k s = Some h →
  smallest_prime_greater_or_equal (k + s + h) = Some l → determine_systematic_index k = Some j →
  code_parameters_new k = Some (mkCodeParameters (Z.to_nat k) (Z.to_nat s) (Z.to_nat h) (Z.to_nat (k + s + h)) l j).
Proof.
  intros Hk Hx Hs Hh Hl Hj. unfold code_parameters_new. rewrite bool_decide_true by done.
  repeat (eapply bind_Some; eexists; split; [eassumption|]). done.
Qed.

(** There are parameters for every number of source symbols in range. *)
Lemma code_parameters_new_spec k :
  SOURCE_SYMBOLS_MIN <= k <= SOURCE_SYMBOLS_MAX →
  ∃ p, code_parameters_new k = Some p ∧ params_ok p ∧ Z.of_nat (num_source_symbols p) = k.
Proof.
  intros Hk. assert (1 <= k <= 8192) as Hk' by done.
  assert (1 <= (k + 99) / 100 <= 82) as Hd by dlia.
  destruct (determine_x_spec k) as (x & Hx & Hx'); [lia|].
  destruct (smallest_prime_spec ((k + 99) / 100 + x)) as (s & Hs & Hsp & Hs' & Hs''); [lia|].
  destruct (determine_half_spec k s) as (h & Hh & Hh' & Hch); [lia|].
  destruct (smallest_prime_spec (k + s + h)) as (l & Hl & Hlp & Hl' & _); [lia|].
  destruct (determine_systematic_spec k) as [j Hj]; [lia|].
  eexists. split; [by eapply code_parameters_new_eq|]. cbn [num_source_symbols]. split; [|lia].
  split; cbn [num_source_symbols num_ldpc_symbols num_half_symbols num_intermediate_symbols
              num_intermediate_symbols_prime]; rewrite ?Nat2Z.inj_add, ?Z2Nat.id by lia; auto; lia.
Qed.

(** * The sequence of an encoded symbol *)

Section lt.
Context (p : CodeParameters) (Hp : params_ok p) (a b0 : Z).
Notation q := (num_intermediate_symbols_prime p).
Notation L := (Z.of_nat (num_intermediate_symbols p)).
Context (Ha : 1 <= a < q).

Definition orbit (t : Z) : Z := (b0 + t * a) mod q.

Lemma orbit_range t : 0 <= orbit t < q.
Proof. apply Z.mod_pos_bound. lia. Qed.

Lemma orbit_step t : (orbit t + a) mod q = orbit (t + 1).
Proof. unfold orbit. rewrite Zplus_mod_idemp_l. f_equal. lia. Qed.

Lemma orbit_inj s t : 0 <= s < q → 0 <= t < q → orbit s = orbit t → s = t.
Proof.
  assert (∀ s t, 0 <= s < t → t < q → orbit s ≠ orbit t) as Hlt.
  { intros s' t' Hst Ht Heq. unfold orbit in Heq.
    assert ((q | (t' - s') * a)) as Hdiv.
    { exists ((b0 + t' * a) / q - (b0 + s' * a) / q).
      pose proof (Z.div_mod (b0 + t' * a) q ltac:(lia)). pose proof (Z.div_mod (b0 + s' * a) q ltac:(lia)). nia. }
    apply prime_mult in Hdiv; [|apply Hp].
    destruct Hdiv as [Hdiv|Hdiv]; apply Z.divide_pos_le in Hdiv; lia. }
  intros Hs Ht Heq. destruct (Z.lt_trichotomy s t) as [Hst|[Hst|Hst]]; [|done|].
  - exfalso. by apply (Hlt s t); [lia..|].
  - exfalso. by apply (Hlt t s); [lia..|].
Qed.

(** The symbols the orbit meets from turn [t] on. *)
Definition hits (t : Z) : list Z := filter (λ b, b < L) (map orbit (seqZ t (q - t))).

Lemma hits_cons t :
  0 <= t < q → hits t = (if decide (orbit t < L) then [orbit t] else []) ++ hits (t + 1).
Proof.
  intros Ht. unfold hits. rewrite seqZ_cons by lia. cbn [map]. rewrite filter_cons.
  replace (Z.pred (q - t)) with (q - (t + 1)) by lia. replace (Z.succ t) with (t + 1) by lia. by case_decide.
Qed.

Lemma hits_end t : q <= t → hits t = [].
Proof. intros Ht. unfold hits. by rewrite seqZ_nil by lia. Qed.

Lemma lt_skip_spec fuel t b rest :
  0 <= t → q - t <= Z.of_nat fuel → hits t = b :: rest →
  ∃ t', 0 <= t' < q ∧ orbit t' = b ∧ lt_skip fuel p a (orbit t) = Ret b ∧ hits (t' + 1) = rest.
Proof.
  revert t. induction fuel as [|fuel IH]; intros t Ht Hfuel Hhits.
  { by rewrite hits_end in Hhits by lia. }
  destruct (decide (q <= t)); [by rewrite hits_end in Hhits|]. rewrite hits_cons in Hhits by lia. cbn [lt_skip].
  case_decide as Hlt.
  - simplify_eq/=. rewrite bool_decide_true by done. exists t. split_and!; done || lia.
  - rewrite bool_decide_false, orbit_step by done. apply IH; [lia..|done].
Qed.

Lemma lt_loop_spec n t :
  0 <= t → (n <= length (hits t))%nat → lt_loop n p a (orbit t) = Ret (take n (hits t)).
Proof.
  revert t. induction n as [|n IH]; intros t Ht Hn; [done|]. cbn [lt_loop].
  destruct (hits t) as [|b rest] eqn:Hhits; simpl in Hn; [lia|].
  destruct (lt_skip_spec (Z.to_nat q) t b rest) as (t' & Ht' & <- & -> & <-); [lia..|done|]. cbn [mbind exec_bind].
  rewrite orbit_step, IH by lia. done.
Qed.

Lemma hits_NoDup t : 0 <= t → NoDup (hits t).
Proof.
  intros Ht. unfold hits. apply NoDup_filter. apply NoDup_fmap_2_strong; [|apply NoDup_seqZ].
  intros x y Hx%elem_of_seqZ Hy%elem_of_seqZ. apply orbit_inj; lia.
Qed.

Lemma hits_elem t b : b ∈ hits t → 0 <= b < L.
Proof.
  unfold hits. rewrite list_elem_of_filter, list_elem_of_fmap. intros [Hlt (t' & -> & _)].
  pose proof (orbit_range t'). lia.
Qed.

Lemma hits_length : length (hits 0) = num_intermediate_symbols p.
Proof.
  pose proof (ok_prime_range _ Hp) as Hr.
  assert (map orbit (seqZ 0 q) ≡ₚ seqZ 0 q) as Hperm.
  { apply submseteq_length_Permutation; [|by rewrite length_fmap].
    apply NoDup_submseteq.
    - apply NoDup_fmap_2_strong; [|apply NoDup_seqZ].
      intros x y Hx%elem_of_seqZ Hy%elem_of_seqZ. apply orbit_inj; lia.
    - intros b (t & -> & _)%list_elem_of_fmap. apply elem_of_seqZ. pose proof (orbit_range t). lia. }
  unfold hits. replace (q - 0) with q by lia. rewrite Hperm. replace q with (L + (q - L)) by lia.
  rewrite seqZ_app, filter_app, length_app by lia.
  rewrite (filter_all _ (seqZ 0 L)), filter_none.
  - rewrite length_seqZ. simpl. lia.
  - intros b Hb%elem_of_seqZ. lia.
  - intros b Hb%elem_of_seqZ. lia.
Qed.
End lt.

Lemma strict_sorted (l : list nat) : StronglySorted le l → NoDup l → StronglySorted lt l.
Proof.
  induction 1 as [|x l Hl IH Hx]; intros Hnd; [constructor|]. apply NoDup_cons in Hnd as [Hxl Hnd].
  constructor; [by apply IH|]. rewrite Forall_forall in *. intros y Hy. specialize (Hx y Hy).
  assert (x ≠ y) by congruence. lia.
Qed.

Lemma strict_NoDup (l : list nat) : StronglySorted lt l → NoDup l.
Proof.
  induction 1 as [|x l Hl IH Hx]; constructor; [|done]. intros Hxl. rewrite Forall_forall in Hx.
  specialize (Hx x Hxl). lia.
Qed.

Lemma sort_strict (l : list nat) : NoDup l → StronglySorted lt (merge_sort le l).
Proof.
  intros Hl. apply strict_sorted; [|by rewrite merge_sort_Permutation].
  apply StronglySorted_merge_sort; [|intros x y; lia]. intros x y z. lia.
Qed.

Lemma seq_sorted a n : StronglySorted lt (seq a n).
Proof.
  revert a. induction n as [|n IH]; intros a; cbn [seq]; constructor; [done|].
  apply Forall_forall. intros x Hx%elem_of_seq. lia.
Qed.

Lemma rand_tables : length V0 = 256%nat ∧ length V1 = 256%nat.
Proof. done. Qed.

Lemma raptor_rand_spec x i m : 0 < m → ∃ r, raptor_rand x i m = Ret r ∧ 0 <= r < m.
Proof.
  intros Hm. unfold raptor_rand. destruct rand_tables as [H0 H1].
  assert (∀ z, 0 <= Z.land z 0xff < 256) as Hland by (intros z; change 0xff with (Z.ones 8); rewrite Z.land_ones by lia; apply Z.mod_pos_bound; lia).
  destruct (lookup_lt_is_Some_2 V0 (Z.to_nat (Z.land (x + i) 255))) as [v0 ->];
    [rewrite H0; specialize (Hland (x + i)); lia|].
  destruct (lookup_lt_is_Some_2 V1 (Z.to_nat (Z.land (Z.shiftr x 8 + i) 255))) as [v1 ->];
    [rewrite H1; specialize (Hland (Z.shiftr x 8 + i)); lia|].
  eexists. split; [done|]. by apply Z.mod_pos_bound.
Qed.

Lemma deg_spec v : v < 1048576 → ∃ d, deg v = Ret d ∧ 1 <= d <= MAX_DEGREE.
Proof. intros Hv. unfold deg, MAX_DEGREE. repeat case_bool_decide; try (exfalso; lia); eexists; (split; [done|lia]). Qed.

Lemma trip_spec p esi :
  params_ok p → esi < MAX_TRIPLES →
  ∃ d a b, trip p esi = Ret (d, a, b) ∧ 1 <= d <= MAX_DEGREE ∧
    1 <= a < num_intermediate_symbols_prime p ∧ 0 <= b < num_intermediate_symbols_prime p.
Proof.
  intros Hp Hesi. unfold trip. rewrite bool_decide_true by done. cbn [assert mbind exec_bind].
  pose proof (prime_ge_2 _ (ok_prime _ Hp)).
  match goal with |- context [raptor_rand ?y 0 _] => set (seed := y) end.
  destruct (raptor_rand_spec seed 0 (Z.shiftl 1 20)) as (v & -> & Hv); [done|]. cbn [mbind exec_bind].
  destruct (deg_spec v) as (d & -> & Hd); [apply Hv|]. cbn [mbind exec_bind].
  destruct (raptor_rand_spec seed 1 (num_intermediate_symbols_prime p - 1)) as (a & -> & Ha); [lia|]. cbn [mbind exec_bind].
  destruct (raptor_rand_spec seed 2 (num_intermediate_symbols_prime p)) as (b & -> & Hb); [lia|]. cbn [mbind exec_bind].
  exists d, (1 + a), b. split_and!; done || lia.
Qed.

(** The sequence of an encoded symbol exists, is sorted, has no symbol twice and
    is not empty. *)
Lemma lt_sequence_spec p esi :
  params_ok p → Z.of_nat esi < MAX_TRIPLES →
  ∃ l, lt_sequence_op p esi = Ret l ∧ StronglySorted lt l ∧ Forall (λ s, s < num_intermediate_symbols p)%nat l ∧
    (1 <= length l)%nat.
Proof.
  intros Hp Hesi. unfold lt_sequence_op, MAX_TRIPLES in *. rewrite bool_decide_true by lia. cbn [assert mbind exec_bind].
  destruct (trip_spec p (Z.of_nat esi)) as (d & a & b & -> & Hd & Ha & Hb); [done..|]. cbn [mbind exec_bind].
  set (n := Nat.min _ _). pose proof (hits_length p Hp a b Ha) as Hlen.
  assert (orbit p a b 0 = b) as Horbit by (unfold orbit; rewrite Z.mod_small; lia).
  pose proof (lt_loop_spec p a b Ha n 0) as Hloop. rewrite Horbit in Hloop. rewrite Hloop by lia. cbn [mbind exec_bind]. eexists. split; [done|].
  assert (Forall (λ z, 0 <= z < Z.of_nat (num_intermediate_symbols p)) (take n (hits p a b 0))) as Hall.
  { apply Forall_take, Forall_forall. intros z. by apply hits_elem. }
  split_and!.
  - apply sort_strict, NoDup_fmap_2_strong.
    + rewrite Forall_forall in Hall. intros x y Hx%Hall Hy%Hall. lia.
    + eapply sublist_NoDup; [by apply hits_NoDup|apply sublist_take].
  - rewrite merge_sort_Permutation. apply Forall_fmap. eapply Forall_impl; [done|]. simpl. lia.
  - rewrite merge_sort_Permutation, length_fmap, length_take, Hlen. pose proof (ok_source _ Hp).
    pose proof (ok_intermediate _ Hp). lia.
Qed.

(** * The rows and columns of the matrix *)

(** The order of the calls of [set_element]: by column, then by row. *)
Definition lex (x y : nat * nat) : Prop := (x.2 < y.2)%nat ∨ (x.2 = y.2 ∧ (x.1 < y.1)%nat).

Definition col_of (j : nat) (elements : list (nat * nat)) : list nat := map fst (filter (λ ij, ij.2 = j) elements).

Lemma elem_of_row_of i j E : j ∈ row_of i E ↔ (i, j) ∈ E.
Proof.
  unfold row_of. rewrite list_elem_of_fmap. setoid_rewrite list_elem_of_filter. split.
  - intros ([i' j'] & -> & <- & Hin). done.
  - intros Hin. by exists (i, j).
Qed.
Lemma elem_of_col_of i j E : i ∈ col_of j E ↔ (i, j) ∈ E.
Proof.
  unfold col_of. rewrite list_elem_of_fmap. setoid_rewrite list_elem_of_filter. split.
  - intros ([i' j'] & -> & <- & Hin). done.
  - intros Hin. by exists (i, j).
Qed.
Lemma row_of_app i E1 E2 : row_of i (E1 ++ E2) = row_of i E1 ++ row_of i E2.
Proof. unfold row_of. by rewrite filter_app, map_app. Qed.
Lemma col_of_app j E1 E2 : col_of j (E1 ++ E2) = col_of j E1 ++ col_of j E2.
Proof. unfold col_of. by rewrite filter_app, map_app. Qed.

Lemma lex_cons j (l : list nat) E :
  StronglySorted lt l → StronglySorted lex E → Forall (λ ij : nat * nat, j < ij.2)%nat E →
  StronglySorted lex (map (λ i, (i, j)) l ++ E).
Proof.
  intros Hl HE Hj. apply StronglySorted_app_2; [| |done].
  - intros x y (i & -> & _)%list_elem_of_fmap Hy. rewrite Forall_forall in Hj. left. by apply Hj.
  - eapply (StronglySorted_fmap _ lt); [|done]. intros x y Hxy. right. done.
Qed.

Lemma ldpc_triple_spec p i :
  params_ok p → NoDup (ldpc_triple p i) ∧ Forall (λ r, r < num_ldpc_symbols p)%nat (ldpc_triple p i).
Proof.
  intros Hp. pose proof (ok_ldpc_range _ Hp) as Hs. pose proof (ok_ldpc _ Hp) as Hprime. unfold ldpc_triple.
  set (s := num_ldpc_symbols p) in *.
  assert (∀ k, 2 * k ≠ s)%nat as Hodd.
  { intros k Hk. apply prime_alt in Hprime. destruct Hprime as [_ Hprime]. apply (Hprime 2); [lia|].
    exists (Z.of_nat k). lia. }
  set (a := (1 + (i / s) mod (s - 1))%nat). assert (1 <= a < s)%nat as Ha.
  { unfold a. pose proof (Nat.mod_upper_bound (i / s) (s - 1) ltac:(lia)). lia. }
  set (b1 := (i mod s)%nat). assert (b1 < s)%nat as Hb1 by (apply Nat.mod_upper_bound; lia).
  assert (∀ b, b < s → (b + a) mod s < s ∧ ((b + a) mod s = b + a ∨ (b + a) mod s = b + a - s ∧ s <= b + a))%nat as Hstep.
  { intros b Hb. split; [apply Nat.mod_upper_bound; lia|]. destruct (decide (b + a < s)%nat).
    - left. by apply Nat.mod_small.
    - right. split; [|lia]. rewrite <-(Nat.mod_small (b + a - s) s) by lia.
      replace (b + a)%nat with (b + a - s + 1 * s)%nat at 1 by lia. apply Nat.Div0.mod_add. }
  set (b2 := ((b1 + a) mod s)%nat). set (b3 := ((b2 + a) mod s)%nat).
  destruct (Hstep b1 Hb1) as [Hb2 Hb2']. destruct (Hstep b2 Hb2) as [Hb3 Hb3']. specialize (Hodd a).
  fold b2 in Hb2, Hb2'. fold b3 in Hb3, Hb3'. split; [|repeat constructor; done].
  repeat (apply NoDup_cons; split); rewrite ?elem_of_cons, ?elem_of_nil; [lia..|constructor].
Qed.

Lemma g_ldpc_loop_spec p a n :
  params_ok p →
  let E := flat_map (λ i, map (λ el, (el, i)) (merge_sort le (ldpc_triple p i))) (seq a n) in
  StronglySorted lex E ∧ Forall (λ ij : nat * nat, ij.1 < num_ldpc_symbols p ∧ a <= ij.2 < a + n)%nat E.
Proof.
  intros Hp. revert a. induction n as [|n IH]; intros a; cbn [seq flat_map]; [split; constructor|].
  destruct (ldpc_triple_spec p a Hp) as [Hnd Hall]. destruct (IH (S a)) as [Hs Hf]. split.
  - apply lex_cons; [by apply sort_strict|done|]. eapply Forall_impl; [done|]. simpl. lia.
  - apply Forall_app. split.
    + apply Forall_fmap. simpl. rewrite merge_sort_Permutation. eapply Forall_impl; [done|]. simpl. lia.
    + eapply Forall_impl; [done|]. simpl. lia.
Qed.
Lemma g_ldpc_spec p :
  params_ok p → StronglySorted lex (g_ldpc p) ∧
    Forall (λ ij : nat * nat, ij.1 < num_ldpc_symbols p ∧ ij.2 < num_source_symbols p)%nat (g_ldpc p).
Proof.
  intros Hp. destruct (g_ldpc_loop_spec p 0 (num_source_symbols p) Hp) as [Hs Hf]. split; [done|].
  eapply Forall_impl; [done|]. simpl. lia.
Qed.

(** ** The Gray codes of the half symbols *)

Section half.
Context (h_prime : Z).

Definition gray (i : Z) : Z := Z.lxor i (Z.shiftr i 1).
Definition gray_hit (i : Z) : bool := bool_decide (count_ones (gray i) = h_prime).

(** The hits among the [2 ^ n] counters from [i] on. *)
Fixpoint gray_count (n : nat) (i : Z) : Z :=
  match n with
  | O => if gray_hit i then 1 else 0
  | S n => gray_count n i + gray_count n (i + 2 ^ Z.of_nat n)
  end.

Definition gray_hits (i e : Z) : list Z := filter (λ i, gray_hit i = true) (seqZ i (e - i)).

Lemma gray_hits_app i k e : i <= k <= e → gray_hits i e = gray_hits i k ++ gray_hits k e.
Proof.
  intros Hk. unfold gray_hits. replace (e - i) with ((k - i) + (e - k)) by lia.
  rewrite seqZ_app, filter_app by lia. by replace (i + (k - i)) with k by lia.
Qed.

Lemma gray_count_spec n i : gray_count n i = Z.of_nat (length (gray_hits i (i + 2 ^ Z.of_nat n))).
Proof.
  revert i. induction n as [|n IH]; intros i; cbn [gray_count].
  - unfold gray_hits. replace (i + 2 ^ Z.of_nat 0 - i) with 1 by lia. rewrite seqZ_cons, seqZ_nil by lia.
    rewrite filter_cons, filter_nil.
    destruct (gray_hit i); done.
  - rewrite !IH. assert (2 ^ Z.of_nat (S n) = 2 ^ Z.of_nat n + 2 ^ Z.of_nat n) as -> by
      (rewrite Nat2Z.inj_succ, Z.pow_succ_r by lia; lia).
    rewrite (gray_hits_app i (i + 2 ^ Z.of_nat n) (i + (2 ^ Z.of_nat n + 2 ^ Z.of_nat n))), length_app, Nat2Z.inj_add by lia.
    by rewrite (Z.add_assoc i).
Qed.

Notation next := (λ i, let g_i := Z.lxor i (Z.shiftr i 1) in
                       if bool_decide (count_ones g_i = h_prime) then inr (g_i, i + 1) else inl (i + 1)).

Lemma gray_search n i :
  match iter_until n next i with
  | inl i' => i' = i + 2 ^ Z.of_nat n ∧ gray_hits i i' = []
  | inr (g, i') => i < i' <= i + 2 ^ Z.of_nat n ∧ g = gray (i' - 1) ∧ gray_hits i i' = [i' - 1]
  end.
Proof.
  revert i. induction n as [|n IH]; intros i; cbn [iter_until].
  - case_bool_decide as Hhit; change (2 ^ Z.of_nat 0) with 1; unfold gray_hits;
      (replace (i + 1 - i) with 1 by lia); rewrite seqZ_cons, seqZ_nil by lia; rewrite filter_cons, filter_nil.
    + rewrite decide_True by (by apply bool_decide_eq_true). replace (i + 1 - 1) with i by lia. split_and!; done || lia.
    + rewrite decide_False; [done|]. unfold gray_hit. by rewrite bool_decide_eq_true.
  - assert (2 ^ Z.of_nat (S n) = 2 ^ Z.of_nat n + 2 ^ Z.of_nat n) as -> by
      (rewrite Nat2Z.inj_succ, Z.pow_succ_r by lia; lia).
    pose proof (IH i) as H1. destruct (iter_until n next i) as [k|[g k]].
    + destruct H1 as [-> Hnil]. pose proof (IH (i + 2 ^ Z.of_nat n)) as H2. rewrite (Z.add_assoc i).
      destruct (iter_until n next _) as [k|[g k]].
      * destruct H2 as [-> Hnil2]. split; [done|]. rewrite (gray_hits_app i (i + 2 ^ Z.of_nat n)) by lia.
        by rewrite Hnil, Hnil2.
      * destruct H2 as (Hk & -> & Hone). rewrite (gray_hits_app i (i + 2 ^ Z.of_nat n)) by lia.
        rewrite Hnil, Hone. split_and!; done || lia.
    + destruct H1 as (Hk & Hg & Hone). split_and!; done || lia.
Qed.
End half.

Lemma m_next_spec h_prime i e :
  0 <= i → e <= 2 ^ 16 → gray_hits h_prime i e ≠ [] →
  ∃ m i', m_next h_prime i = Ret (m, i') ∧ i < i' <= e ∧ gray_hits h_prime i e = (i' - 1) :: gray_hits h_prime i' e.
Proof.
  intros Hi He Hne. pose proof (gray_search h_prime 16 i) as Hs. unfold m_next. change (Z.of_nat 16) with 16 in Hs.
  assert (i < e) as Hie.
  { destruct (decide (i < e)); [done|]. destruct Hne. unfold gray_hits. by rewrite seqZ_nil by lia. }
  destruct (iter_until 16 _ i) as [k|[g k]].
  - destruct Hs as [-> Hnil]. destruct Hne. rewrite (gray_hits_app _ i e (i + 2 ^ 16)) in Hnil by lia.
    by apply app_eq_nil in Hnil as [-> _].
  - destruct Hs as (Hk & -> & Hone). eexists _, k. split; [done|]. destruct (decide (k <= e)).
    + split; [lia|]. rewrite (gray_hits_app _ i k e) by lia. by rewrite Hone.
    + exfalso. destruct (decide (e <= k - 1)) as [Hek|].
      * rewrite (gray_hits_app _ i e k) in Hone by lia.
        destruct (gray_hits h_prime i e) as [|x l] eqn:Hx; [done|]. simpl in Hone. simplify_eq.
        assert (k - 1 ∈ gray_hits h_prime i e) as Hin by (rewrite Hx; left).
        unfold gray_hits in Hin. apply list_elem_of_filter in Hin as [_ Hin%elem_of_seqZ]. lia.
      * lia.
Qed.

Lemma half_loop_spec p h_prime i e a n :
  0 <= i → e <= 2 ^ 16 → (n <= length (gray_hits h_prime i e))%nat →
  ∃ E, half_loop p h_prime i (seq a n) = Ret E ∧ StronglySorted lex E ∧
    Forall (λ ij : nat * nat, ij.1 < num_half_symbols p ∧ a <= ij.2 < a + n)%nat E.
Proof.
  revert i a. induction n as [|n IH]; intros i a Hi He Hn; cbn [seq half_loop].
  { eexists. split; [done|]. split; constructor. }
  destruct (m_next_spec h_prime i e) as (m & i' & -> & Hi' & Hhits); [done..|by intros Hnil; rewrite Hnil in Hn; simpl in Hn; lia|].
  rewrite Hhits in Hn. simpl in Hn. cbn [mbind exec_bind].
  destruct (IH i' (S a)) as (E & -> & HE & Hf); [lia..|]. cbn [mbind exec_bind]. eexists. split; [done|].
  split.
  - apply lex_cons; [apply StronglySorted_filter_list, seq_sorted|done|]. eapply Forall_impl; [done|]. simpl. lia.
  - apply Forall_app. split.
    + apply Forall_fmap, Forall_forall. intros h [_ Hh%elem_of_seq]%list_elem_of_filter. simpl. lia.
    + eapply Forall_impl; [done|]. simpl. lia.
Qed.

Definition half_enough (h : nat) : bool :=
  bool_decide (choose (Z.of_nat h) ((Z.of_nat h + 1) / 2) <= gray_count (Z.shiftr (Z.of_nat h + 1) 1) h 0).

Lemma half_computed : forallb half_enough (seq 5 12) = true.
Proof. vm_compute. reflexivity. Qed.

Lemma g_half_spec p :
  params_ok p → ∃ E, g_half p = Ret E ∧ StronglySorted lex E ∧
    Forall (λ ij : nat * nat, ij.1 < num_half_symbols p ∧ ij.2 < num_source_symbols p + num_ldpc_symbols p)%nat E.
Proof.
  intros Hp. unfold g_half. set (h := num_half_symbols p). set (h_prime := Z.shiftr (Z.of_nat h + 1) 1).
  pose proof (ok_half_range _ Hp) as Hh. pose proof (ok_half _ Hp) as Hch.
  assert (half_enough h = true) as Hen.
  { pose proof half_computed as Hc. rewrite forallb_forall in Hc. apply Hc, in_seq. unfold h. lia. }
  apply bool_decide_eq_true in Hen. rewrite gray_count_spec in Hen. fold h_prime in Hen.
  assert (2 ^ Z.of_nat h <= 2 ^ 16) by (apply Z.pow_le_mono_r; unfold h; lia).
  destruct (half_loop_spec p h_prime 0 (0 + 2 ^ Z.of_nat h) 0 (num_source_symbols p + num_ldpc_symbols p))
    as (E & -> & HE & Hf); [lia..|fold h in Hch; lia|].
  exists E. split_and!; [done..|]. eapply Forall_impl; [done|]. simpl. lia.
Qed.

(** ** The constraints *)

(** No call repeats another, and rows and columns are filled in order. *)
Definition in_order (x y : nat * nat) : Prop := (x.1 = y.1 → x.2 < y.2)%nat ∧ (x.2 = y.2 → x.1 < y.1)%nat.

Lemma in_order_row i E : StronglySorted in_order E → StronglySorted lt (row_of i E).
Proof.
  unfold row_of. induction 1 as [|[i' j] E HE IH Hx]; [constructor|]. rewrite filter_cons.
  case_decide as Hi; [|done]. simpl in Hi. subst i'. cbn [map snd]. constructor; [done|].
  apply Forall_forall. intros j' Hj'. apply (elem_of_row_of i j' E) in Hj'.
  rewrite Forall_forall in Hx. by apply (Hx _ Hj').
Qed.
Lemma in_order_col j E : StronglySorted in_order E → StronglySorted lt (col_of j E).
Proof.
  unfold col_of. induction 1 as [|[i j'] E HE IH Hx]; [constructor|]. rewrite filter_cons.
  case_decide as Hj; [|done]. simpl in Hj. subst j'. cbn [map fst]. constructor; [done|].
  apply Forall_forall. intros i' Hi'. apply (elem_of_col_of i' j E) in Hi'.
  rewrite Forall_forall in Hx. by apply (Hx _ Hi').
Qed.

Lemma lex_in_order E : StronglySorted lex E → StronglySorted in_order E.
Proof.
  induction 1 as [|x E HE IH Hx]; constructor; [done|]. eapply Forall_impl; [done|].
  unfold lex, in_order. intros y. lia.
Qed.

Lemma row_split r E r' E' i :
  StronglySorted in_order E → StronglySorted in_order E' → (∀ j, (r', j) ∈ E' → j < i)%nat →
  (∀ j, (r, j) ∈ E ↔ (r', j) ∈ E' ∨ j = i) → row_of r E ≡ₚ row_of r' E' ++ [i].
Proof.
  intros HE HE' Hlt Hin. apply NoDup_Permutation.
  - by apply strict_NoDup, in_order_row.
  - apply NoDup_app. split; [by apply strict_NoDup, in_order_row|]. split; [|apply NoDup_singleton].
    intros j Hj%elem_of_row_of%Hlt ->%list_elem_of_singleton. lia.
  - intros j. by rewrite elem_of_row_of, elem_of_app, elem_of_row_of, list_elem_of_singleton, Hin.
Qed.

Lemma diagonal_in_order s k n : StronglySorted in_order (map (λ i, (s + i, k + i))%nat (seq 0 n)).
Proof.
  apply lex_in_order. eapply (StronglySorted_fmap _ lt); [|apply seq_sorted]. intros x y Hxy. left. simpl. lia.
Qed.

Lemma a_common_spec p :
  params_ok p →
  ∃ half E, g_half p = Ret half ∧ a_common p = Ret E ∧ StronglySorted in_order E ∧
    ∀ i j, (i, j) ∈ E ↔
      (i < num_ldpc_symbols p ∧ ((i, j) ∈ g_ldpc p ∨ j = num_source_symbols p + i) ∨
       ∃ h, i = num_ldpc_symbols p + h ∧ h < num_half_symbols p ∧
         ((h, j) ∈ half ∨ j = num_source_symbols p + num_ldpc_symbols p + h))%nat.
Proof.
  intros Hp. destruct (g_ldpc_spec p Hp) as [Hs1 Hf1]. destruct (g_half_spec p Hp) as (half & Hhalf & Hs3 & Hf3).
  rewrite Forall_forall in Hf1, Hf3. exists half. unfold a_common. rewrite Hhalf. cbn [mbind exec_bind].
  set (s := num_ldpc_symbols p) in *. set (k := num_source_symbols p) in *. set (n := num_half_symbols p) in *.
  eexists. split; [done|]. split; [done|]. split.
  - apply StronglySorted_app_2; [| |apply StronglySorted_app_2; [| |apply StronglySorted_app_2]].
    + intros x y Hx Hy. specialize (Hf1 _ Hx). rewrite !elem_of_app, !list_elem_of_fmap in Hy.
      destruct Hy as [(i & -> & Hi%elem_of_seq)|[([i j] & -> & Hij)|(i & -> & Hi%elem_of_seq)]]; unfold in_order; simpl; lia.
    + by apply lex_in_order.
    + intros x y (i & -> & Hi%elem_of_seq)%list_elem_of_fmap Hy. rewrite !elem_of_app, !list_elem_of_fmap in Hy.
      destruct Hy as [([i' j] & -> & Hij)|(i' & -> & Hi'%elem_of_seq)]; unfold in_order; simpl; lia.
    + apply (diagonal_in_order 0).
    + intros x y ([i j] & -> & Hij%Hf3)%list_elem_of_fmap (i' & -> & Hi'%elem_of_seq)%list_elem_of_fmap.
      simpl in Hij. unfold in_order; simpl; lia.
    + apply lex_in_order. eapply (StronglySorted_fmap _ lex); [|done]. unfold lex. simpl. lia.
    + apply diagonal_in_order.
  - intros i j. rewrite !elem_of_app, !list_elem_of_fmap. split.
    + intros [Hin|[(i' & [= -> ->] & Hi'%elem_of_seq)|[([h j'] & [= -> ->] & Hin)|(h & [= -> ->] & Hh%elem_of_seq)]]].
      * left. specialize (Hf1 _ Hin). simpl in Hf1. naive_solver.
      * left. split; [lia|]. by right.
      * right. exists h. specialize (Hf3 _ Hin). simpl in Hf3. naive_solver.
      * right. exists h. split_and!; [done|lia|]. by right.
    + intros [(Hi & [Hin| ->])|(h & -> & Hh & [Hin| ->])]; [by left|right; left|do 2 right; left|do 3 right].
      * exists i. split; [done|]. apply elem_of_seq. lia.
      * by exists (h, j).
      * exists h. split; [done|]. apply elem_of_seq. lia.
Qed.
