(* ===== verification/RaptorEncoderProps.v ===== *)
(** The encoder of the Raptor code computes the intermediate symbols: the source
    symbols come first, the constraints hold, and an encoded symbol is the sum of
    the intermediate symbols of its sequence. *)

From S2P Require Import Prelude Types ValidatorSet Crypto RaptorTables RaptorCode RaptorCodeProps.

#[local] Open Scope nat_scope.

(** * Sums of symbols *)

Definition zero_symbol (n : nat) : symbol := replicate n 0%Z.

Lemma xor_bytes_comm x y : xor_bytes x y = xor_bytes y x.
Proof.
  unfold xor_bytes. revert y. induction x as [|a x IH]; intros [|b y]; simpl; auto. by rewrite IH, Z.lxor_comm.
Qed.
Lemma xor_bytes_assoc x y z : xor_bytes x (xor_bytes y z) = xor_bytes (xor_bytes x y) z.
Proof.
  unfold xor_bytes. revert y z. induction x as [|a x IH]; intros [|b y] [|c z]; simpl; auto.
  by rewrite IH, Z.lxor_assoc.
Qed.
Lemma xor_bytes_length n x y : length x = n → length y = n → length (xor_bytes x y) = n.
Proof. intros Hx Hy. unfold xor_bytes. rewrite length_zip_with. lia. Qed.
Lemma xor_bytes_zero_r n x : length x = n → xor_bytes x (zero_symbol n) = x.
Proof. intros <-. unfold xor_bytes, zero_symbol. induction x as [|a x IH]; [done|]. simpl. by rewrite IH, Z.lxor_0_r. Qed.
Lemma xor_bytes_zero_l n x : length x = n → xor_bytes (zero_symbol n) x = x.
Proof. rewrite xor_bytes_comm. apply xor_bytes_zero_r. Qed.
Lemma xor_bytes_self n x : length x = n → xor_bytes x x = zero_symbol n.
Proof. intros <-. unfold xor_bytes, zero_symbol. induction x as [|a x IH]; [done|]. simpl. by rewrite IH, Z.lxor_nilpotent. Qed.
Lemma xor_bytes_cancel n x y : length x = n → length y = n → xor_bytes (xor_bytes x y) y = x.
Proof. intros Hx Hy. by rewrite <-xor_bytes_assoc, (xor_bytes_self n), xor_bytes_zero_r. Qed.

Section xsum.
Context (n : nat) (C : nat → symbol) (HC : ∀ i, length (C i) = n).

(** The sum of the symbols [C] at the indices [l]. *)
Definition xsum (l : list nat) : symbol := foldr (λ i acc, xor_bytes (C i) acc) (zero_symbol n) l.

Lemma xsum_length l : length (xsum l) = n.
Proof. induction l as [|i l IH]; [apply length_replicate|]. simpl. by apply xor_bytes_length. Qed.
Lemma xsum_singleton i : xsum [i] = C i.
Proof. simpl. by apply xor_bytes_zero_r. Qed.
Lemma xsum_app l k : xsum (l ++ k) = xor_bytes (xsum l) (xsum k).
Proof.
  induction l as [|i l IH]; simpl; [by rewrite xor_bytes_zero_l by apply xsum_length|].
  by rewrite IH, xor_bytes_assoc.
Qed.
#[export] Instance xsum_Permutation : Proper ((≡ₚ) ==> (=)) xsum.
Proof.
  intros l k Hlk. induction Hlk; simpl; [done|congruence| |congruence].
  by rewrite xor_bytes_assoc, (xor_bytes_comm (C y)), <-xor_bytes_assoc.
Qed.
Lemma foldl_xor dst l : length dst = n → foldl xor_bytes dst (map C l) = xor_bytes dst (xsum l).
Proof.
  revert dst. induction l as [|i l IH]; intros dst Hdst; simpl; [by rewrite xor_bytes_zero_r|].
  rewrite IH by (by apply xor_bytes_length). by rewrite xor_bytes_assoc.
Qed.
End xsum.

Lemma xsum_ext n C C' l : (∀ i, i ∈ l → C i = C' i) → xsum n C l = xsum n C' l.
Proof.
  induction l as [|i l IH]; intros H; [done|]. simpl. rewrite IH by (intros; apply H; by right).
  by rewrite H by left.
Qed.

(** * [xor_sources] *)

Lemma chunks_aux_concat {A} fuel n (l : list A) :
  0 < n → length l <= fuel →
  concat (chunks_aux fuel n l) = l ∧ Forall (λ c, 1 <= length c <= n) (chunks_aux fuel n l).
Proof.
  intros Hn. revert l. induction fuel as [|fuel IH]; intros l Hl.
  { destruct l; [split; [done|constructor]|simpl in Hl; lia]. }
  destruct l as [|x l]; [split; [done|constructor]|]. cbn [chunks_aux].
  assert (length (drop n (x :: l)) <= fuel) as Hd by (rewrite length_drop; simpl in *; lia).
  destruct (IH _ Hd) as [IH1 IH2]. cbn [concat]. rewrite IH1, take_drop. split; [done|].
  constructor; [|done]. rewrite length_take. simpl. lia.
Qed.

Lemma xor_chunks_spec n dst l :
  length dst = n → Forall (λ c, 1 <= length c <= MAX_SOURCES) l → Forall (λ s, length s = n) (concat l) →
  xor_chunks dst l = Ret (foldl xor_bytes dst (concat l)).
Proof.
  revert dst. induction l as [|c l IH]; intros dst Hdst Hc Hs; [done|]. cbn [xor_chunks concat] in *.
  apply Forall_cons in Hc as [Hc Hl]. apply Forall_app in Hs as [Hs Hsl]. unfold xor_eq.
  rewrite bool_decide_true by done. cbn [assert mbind exec_bind].
  assert (forallb (λ s, bool_decide (length dst = length s)) c = true) as ->.
  { apply forallb_forall. intros s Hin%list_elem_of_In. apply bool_decide_eq_true.
    rewrite Forall_forall in Hs. by rewrite (Hs s). }
  cbn [assert mbind exec_bind]. rewrite IH; [by rewrite foldl_app| |done|done].
  clear -Hdst Hs. revert dst Hdst. induction Hs as [|s c Hs Hc IH]; intros dst Hdst; [done|]. simpl.
  apply IH. by apply xor_bytes_length.
Qed.

Lemma xor_sources_spec n C dst l :
  (∀ i, length (C i) = n) → length dst = n → xor_sources dst (map C l) = Ret (xor_bytes dst (xsum n C l)).
Proof.
  intros HC Hdst. unfold xor_sources, chunks.
  destruct (chunks_aux_concat (length (map C l)) MAX_SOURCES (map C l)) as [Hcat Hch]; [unfold MAX_SOURCES; lia|done|].
  rewrite (xor_chunks_spec n); [|done|done|]; rewrite Hcat; [by rewrite (foldl_xor n)|].
  apply Forall_fmap, Forall_forall. auto.
Qed.

Lemma mapM_sources (source : nat → exec symbol) C l :
  (∀ i, i ∈ l → source i = Ret (C i)) → mapM source l = Ret (map C l).
Proof.
  induction l as [|i l IH]; intros H; [done|]. simpl. rewrite H by left. cbn [mbind exec_bind].
  rewrite IH by (intros; apply H; by right). done.
Qed.

Lemma make_redundant_spec source n C l :
  (∀ i, length (C i) = n) → (∀ i, i ∈ l → source i = Ret (C i)) → make_redundant_symbol source n l = Ret (xsum n C l).
Proof.
  intros HC Hl. unfold make_redundant_symbol. rewrite (mapM_sources _ C) by done. cbn [mbind exec_bind].
  change (replicate n 0%Z) with (zero_symbol n). rewrite (xor_sources_spec n) by (done || apply length_replicate).
  by rewrite xor_bytes_zero_l by (by apply xsum_length).
Qed.

(** * The source symbols *)

Section source.
Context (src : bytes) (n : nat) (Hn : 0 < n).

Notation num_full := (length src / n).
Definition shadowed : list symbol :=
  let shadowed := last_source_symbol src n num_full in
  shadowed ++ replicate (Z.to_nat SOURCE_SYMBOLS_MIN - (num_full + length shadowed)) (zero_symbol n).
Definition num_sources : nat := num_full + length shadowed.

Definition source_symbol (i : nat) : symbol :=
  match symbol_at src n num_full shadowed i with Ret x => x | _ => zero_symbol n end.

Lemma full_bound : num_full * n <= length src < num_full * n + n.
Proof. pose proof (Nat.div_mod_eq (length src) n). pose proof (Nat.mod_upper_bound (length src) n ltac:(lia)). lia. Qed.

Lemma last_source_symbol_spec :
  last_source_symbol src n num_full = [] ∧ length src = num_full * n ∨
  ∃ x, last_source_symbol src n num_full = [x] ∧ length src ≠ num_full * n ∧ length x = n ∧
    x = drop (num_full * n) src ++ replicate ((num_full + 1) * n - length src) 0%Z.
Proof.
  pose proof (Nat.div_mod_eq (length src) n) as Hdm. pose proof full_bound. unfold last_source_symbol.
  case_bool_decide as Hmod; [right|left].
  - eexists. split; [done|]. split; [lia|]. split; [rewrite length_app, length_drop, length_replicate; lia|].
    do 2 f_equal. lia.
  - split; [done|]. assert (length src mod n = 0) by lia. lia.
Qed.

Lemma shadowed_length : Forall (λ x, length x = n) shadowed.
Proof.
  unfold shadowed. apply Forall_app. split.
  - destruct last_source_symbol_spec as [[-> _]|(x & -> & _ & Hx & _)]; by repeat constructor.
  - apply Forall_replicate, length_replicate.
Qed.

Lemma source_symbol_at i : i < num_sources → symbol_at src n num_full shadowed i = Ret (source_symbol i).
Proof.
  intros Hi. unfold source_symbol, symbol_at. case_bool_decide as Hf; [done|].
  destruct (lookup_lt_is_Some_2 shadowed (i - num_full)) as [x ->]; [|done]. unfold num_sources in Hi. lia.
Qed.

Lemma source_symbol_length i : length (source_symbol i) = n.
Proof.
  unfold source_symbol, symbol_at. case_bool_decide as Hf.
  - unfold full_symbol. rewrite length_take, length_drop. pose proof full_bound.
    assert ((i + 1) * n <= num_full * n) by (apply Nat.mul_le_mono_r; lia). lia.
  - destruct (shadowed !! (i - num_full)) eqn:Hx; simpl; [|apply length_replicate].
    pose proof shadowed_length as Hall. rewrite Forall_lookup in Hall. by eapply Hall.
Qed.

Lemma full_symbols_concat m :
  m * n <= length src → concat (map (full_symbol src n) (seq 0 m)) = take (m * n) src.
Proof.
  induction m as [|m IH]; intros Hm; [done|].
  rewrite seq_S, map_app, concat_app, IH by lia. cbn [map concat]. rewrite app_nil_r.
  unfold full_symbol. replace (S m * n) with (m * n + n) by lia. apply take_take_drop.
Qed.

(** The source symbols are the source, padded. *)
Lemma source_symbols_concat :
  concat (map source_symbol (seq 0 num_sources)) = src ++ replicate (num_sources * n - length src) 0%Z.
Proof.
  pose proof full_bound as Hb. unfold num_sources. rewrite seq_app, map_app, concat_app.
  assert (map source_symbol (seq 0 num_full) = map (full_symbol src n) (seq 0 num_full)) as ->.
  { apply map_ext_in. intros i Hi%list_elem_of_In%elem_of_seq. unfold source_symbol, symbol_at.
    by rewrite bool_decide_true by lia. }
  assert (map source_symbol (seq (0 + num_full) (length shadowed)) = shadowed) as ->.
  { apply list_eq. intros i. rewrite list_lookup_fmap. destruct (decide (i < length shadowed)) as [Hi|Hi].
    - rewrite lookup_seq_lt by done. simpl. unfold source_symbol, symbol_at. rewrite bool_decide_false by lia.
      destruct (lookup_lt_is_Some_2 shadowed i Hi) as [x Hx].
      replace (num_full + i - num_full) with i by lia. by rewrite Hx.
    - rewrite lookup_seq_ge by lia. simpl. by rewrite lookup_ge_None_2 by lia. }
  rewrite full_symbols_concat by lia. unfold shadowed.
  destruct last_source_symbol_spec as [[-> Hlen]|(x & -> & Hlen & _ & ->)].
  - rewrite take_ge by lia. f_equal. cbn [app length]. rewrite length_replicate, Nat.add_0_r.
    unfold SOURCE_SYMBOLS_MIN. destruct (decide (num_full = 0)) as [H0|H0].
    + rewrite H0 in *. simpl. unfold zero_symbol. rewrite app_nil_r. f_equal. lia.
    + replace (Z.to_nat 1 - num_full) with 0 by lia. simpl. symmetry. apply (f_equal (λ k, replicate k 0%Z) (y := 0)). lia.
  - cbn [length]. unfold SOURCE_SYMBOLS_MIN. replace (Z.to_nat 1 - (num_full + 1)) with 0 by lia.
    rewrite app_nil_r. cbn [concat length]. rewrite app_nil_r, app_assoc, take_drop. done.
Qed.
End source.

Lemma xsum_map n C f l : xsum n C (map f l) = xsum n (λ i, C (f i)) l.
Proof. induction l as [|i l IH]; [done|]. simpl. by rewrite IH. Qed.

Lemma mapM_map {A B} (f : A → exec B) (g : A → B) l : (∀ x, x ∈ l → f x = Ret (g x)) → mapM f l = Ret (map g l).
Proof.
  induction l as [|x l IH]; intros H; [done|]. simpl. rewrite H by left. cbn [mbind exec_bind].
  rewrite IH by (intros; apply H; by right). done.
Qed.

(** * The intermediate symbols *)

Section intermediate.
Context (n : nat) (p : CodeParameters) (half : list (nat * nat)) (source : nat → symbol).
Context (Hp : params_ok p) (Hhalf : g_half p = Ret half) (Hsource : ∀ i, length (source i) = n).
Notation k := (num_source_symbols p).
Notation s := (num_ldpc_symbols p).
Notation h := (num_half_symbols p).

Definition ldpc_symbol (i : nat) : symbol := xsum n source (row_of i (g_ldpc p)).
Definition lower_symbol (i : nat) : symbol := if decide (i < k) then source i else ldpc_symbol (i - k).
Definition half_symbol (i : nat) : symbol := xsum n lower_symbol (row_of i half).
Definition intermediate (i : nat) : symbol := if decide (i < k + s) then lower_symbol i else half_symbol (i - (k + s)).

Lemma lower_symbol_length i : length (lower_symbol i) = n.
Proof. unfold lower_symbol. case_decide; [done|]. by apply xsum_length. Qed.
Lemma intermediate_length i : length (intermediate i) = n.
Proof. unfold intermediate. case_decide; [apply lower_symbol_length|]. apply xsum_length, lower_symbol_length. Qed.

(** The constraints of the matrix hold. *)
Lemma intermediate_constraints E r :
  a_common p = Ret E → r < s + h → xsum n intermediate (row_of r E) = zero_symbol n.
Proof.
  intros HE Hr. destruct (a_common_spec p Hp) as (half' & E' & Hhalf' & HE' & Hord & Hin).
  rewrite Hhalf in Hhalf'. rewrite HE in HE'. injection Hhalf' as <-. injection HE' as <-.
  destruct (g_ldpc_spec p Hp) as [Hl1 Hl2]. destruct (g_half_spec p Hp) as (half'' & Hh & Hh1 & Hh2).
  rewrite Hhalf in Hh. injection Hh as <-. apply lex_in_order in Hl1, Hh1. rewrite Forall_forall in Hl2, Hh2.
  assert (∃ l i, row_of r E ≡ₚ l ++ [i] ∧ xsum n intermediate l = intermediate i) as (l & i & -> & Hsum).
  2:{ rewrite (xsum_app n intermediate intermediate_length), (xsum_singleton n), Hsum by apply intermediate_length.
      apply xor_bytes_self, intermediate_length. }
  destruct (decide (r < s)) as [Hrs|Hrs].
  - exists (row_of r (g_ldpc p)), (k + r). split.
    + apply row_split; [done..| |].
      * intros j Hj%Hl2. simpl in Hj. lia.
      * intros j. rewrite Hin. split; [|tauto]. intros [[_ ?]|(? & ? & _)]; [tauto|lia].
    + unfold intermediate at 2, lower_symbol. rewrite decide_True, decide_False by lia.
      replace (k + r - k) with r by lia. unfold ldpc_symbol. apply xsum_ext. intros j Hj%elem_of_row_of%Hl2. simpl in Hj.
      unfold intermediate, lower_symbol. by rewrite !decide_True by lia.
  - exists (row_of (r - s) half), (k + s + (r - s)). split.
    + apply row_split; [done..| |].
      * intros j Hj%Hh2. simpl in Hj. lia.
      * intros j. rewrite Hin. split; [|intros Hj; right; exists (r - s); split_and!; [lia..|done]].
        intros [[? _]|(i & -> & ? & ?)]; [lia|]. by replace (s + i - s) with i by lia.
    + unfold intermediate at 2. rewrite decide_False by lia. replace (k + s + (r - s) - (k + s)) with (r - s) by lia.
      unfold half_symbol. apply xsum_ext. intros j Hj%elem_of_row_of%Hh2. simpl in Hj.
      unfold intermediate. by rewrite decide_True by lia.
Qed.
End intermediate.

(** * The encoder *)

Lemma half_symbols_loop_spec n (D : nat → symbol) (lds : list symbol) (X : nat → symbol) R (js : list nat) :
  (∀ i, length (D i) = n) → (∀ j, length (X j) = n) → (∀ j i, j ∈ js → i ∈ R j → lds !! i = Some (D i)) →
  half_symbols_loop (map R js) lds (map X js) = Ret (map (λ j, xor_bytes (X j) (xsum n D (R j))) js).
Proof.
  intros HD HX. induction js as [|j js IH]; intros HR; [done|]. cbn [map half_symbols_loop].
  rewrite (mapM_sources _ D). 2:{ intros i Hi. by rewrite (HR j i) by (done || left). }
  cbn [mbind exec_bind]. rewrite (xor_sources_spec n) by done. cbn [mbind exec_bind].
  rewrite IH by (intros j' i Hj'; apply HR; by right). done.
Qed.

(** Row [i] of the half symbols, in two parts. *)
Lemma half_symbol_split n p source (half : list (nat * nat)) i :
  (∀ i, length (source i) = n) →
  let k := num_source_symbols p in
  let left := filter (λ ij : nat * nat, ij.2 < k) half in
  let right := map (λ ij : nat * nat, (ij.1, ij.2 - k)) (filter (λ ij : nat * nat, ¬ ij.2 < k) half) in
  half_symbol n p half source i = xor_bytes (xsum n source (row_of i left)) (xsum n (ldpc_symbol n p source) (row_of i right)).
Proof.
  intros Hsource k left right. subst left right. unfold half_symbol.
  assert (∀ i, length (ldpc_symbol n p source i) = n) as Hldpc by (intros; by apply xsum_length).
  induction half as [|[i' j] half IH]; [symmetry; apply xor_bytes_zero_l, length_replicate|].
  rewrite !filter_cons. unfold row_of in *. rewrite filter_cons. cbn [fst snd].
  assert (∀ j, lower_symbol n p source j = if decide (j < k) then source j else ldpc_symbol n p source (j - k)) as Hlow by done.
  destruct (decide (i' = i)) as [->|Hne], (decide (j < k)) as [Hj|Hj], (decide (¬ j < k)) as [Hj'|Hj'];
    try (exfalso; tauto); cbn [map fst snd]; rewrite ?filter_cons; cbn [fst snd];
    rewrite ?(decide_True (P := i = i)), ?(decide_False (P := i' = i)) by done; cbn [map fst snd];
    try done; unfold xsum in *; cbn [foldr]; rewrite IH, Hlow.
  - rewrite decide_True by done. by rewrite xor_bytes_assoc.
  - rewrite decide_False by done. rewrite !xor_bytes_assoc. f_equal. apply xor_bytes_comm.
Qed.

(** [C] are the intermediate symbols of [e], the encoder of [src]. *)
Record encoder_ok (src : bytes) (e : Encoder) (C : nat → symbol) : Prop := {
  enc_params : params_ok (params e);
  enc_code : code_parameters_new (Z.of_nat (num_source_symbols (params e))) = Some (params e);
  enc_source_symbols : num_source_symbols (params e) = num_sources src (symbol_len e);
  enc_length : ∀ i, length (C i) = symbol_len e;
  enc_buffer : ∀ i, i < num_intermediate_symbols (params e) → encoder_buffer e i = Ret (C i);
  enc_source : concat (map C (seq 0 (num_source_symbols (params e)))) =
               src ++ replicate (num_source_symbols (params e) * symbol_len e - length src) 0%Z;
  enc_constraints : ∀ E r, a_common (params e) = Ret E → r < num_ldpc_symbols (params e) + num_half_symbols (params e) →
                    xsum (symbol_len e) C (row_of r E) = zero_symbol (symbol_len e);
}.

Lemma num_sources_ceil src n : 0 < n → num_sources src n = Nat.max 1 ((length src + n - 1) / n).
Proof.
  intros Hn. unfold num_sources, shadowed. rewrite length_app, length_replicate. unfold SOURCE_SYMBOLS_MIN.
  pose proof (full_bound src n Hn) as Hb.
  destruct (last_source_symbol_spec src n Hn) as [[-> Hlen]|(x & -> & Hlen & _)]; cbn [length].
  - replace (length src + n - 1) with (n - 1 + length src / n * n) by lia.
    rewrite Nat.div_add, (Nat.div_small (n - 1)) by lia. lia.
  - assert ((length src + n - 1) / n = length src / n + 1) as ->; [|lia].
    symmetry. apply (Nat.div_unique _ _ _ (length src - length src / n * n - 1)); lia.
Qed.

Section encoder_new.
Context (src : bytes) (n : nat) (Hn : 0 < n) (p : CodeParameters) (half : list (nat * nat)).
Context (Hp : params_ok p) (Hk : num_source_symbols p = num_sources src n) (Hhalf : g_half p = Ret half).
Notation k := (num_source_symbols p).
Notation source := (source_symbol src n).
Notation C := (intermediate n p half source).
Notation left := (filter (λ ij : nat * nat, ij.2 < k) half).
Notation right := (map (λ ij : nat * nat, (ij.1, ij.2 - k)) (filter (λ ij : nat * nat, ¬ ij.2 < k) half)).

Lemma ldpc_half_spec :
  mapM (make_redundant_symbol (symbol_at src n (length src / n) (shadowed src n)) n)
    (map (λ i, row_of i (g_ldpc p)) (seq 0 (num_ldpc_symbols p)) ++ map (λ i, row_of i left) (seq 0 (num_half_symbols p))) =
  Ret (map (ldpc_symbol n p source) (seq 0 (num_ldpc_symbols p)) ++
       map (λ i, xsum n source (row_of i left)) (seq 0 (num_half_symbols p))).
Proof.
  rewrite (mapM_map _ (xsum n source)); [by rewrite map_app, !map_map|]. intros row Hrow.
  apply make_redundant_spec; [by apply source_symbol_length|]. intros j Hj. apply source_symbol_at; [done|]. rewrite <-Hk.
  destruct (g_ldpc_spec p Hp) as [_ Hl]. rewrite Forall_forall in Hl. rewrite elem_of_app, !list_elem_of_fmap in Hrow.
  destruct Hrow as [(i & -> & _)|(i & -> & _)]; apply elem_of_row_of in Hj.
  - apply (Hl _ Hj).
  - by apply list_elem_of_filter in Hj as [Hj _].
Qed.

Lemma half_spec :
  half_symbols_loop (map (λ i, row_of i right) (seq 0 (num_half_symbols p)))
    (map (ldpc_symbol n p source) (seq 0 (num_ldpc_symbols p)))
    (map (λ i, xsum n source (row_of i left)) (seq 0 (num_half_symbols p))) =
  Ret (map (half_symbol n p half source) (seq 0 (num_half_symbols p))).
Proof.
  pose proof (source_symbol_length src n Hn) as Hs.
  rewrite (half_symbols_loop_spec n (ldpc_symbol n p source)).
  - f_equal. apply map_ext. intros i. by rewrite half_symbol_split.
  - intros i. by apply xsum_length.
  - intros i. by apply xsum_length.
  - intros i j _ Hj. rewrite elem_of_row_of, list_elem_of_fmap in Hj. destruct Hj as ([i' j'] & Heq & Hin).
    apply list_elem_of_filter in Hin as [Hj Hin]. injection Heq as -> ->.
    destruct (g_half_spec p Hp) as (half' & Hh & _ & Hf). rewrite Hhalf in Hh. injection Hh as <-.
    rewrite Forall_forall in Hf. specialize (Hf _ Hin). simpl in *.
    rewrite list_lookup_fmap, lookup_seq_lt by lia. done.
Qed.

Lemma derived_spec i :
  i < num_intermediate_symbols p →
  symbol_at src n (length src / n)
    (shadowed src n ++ map (ldpc_symbol n p source) (seq 0 (num_ldpc_symbols p)) ++
     map (half_symbol n p half source) (seq 0 (num_half_symbols p))) i = Ret (C i).
Proof.
  intros Hi. rewrite (ok_intermediate _ Hp) in Hi. unfold intermediate, lower_symbol. unfold num_sources in Hk.
  destruct (decide (i < k)) as [Hik|Hik].
  - rewrite decide_True by lia. rewrite <-source_symbol_at by (unfold num_sources; lia). unfold symbol_at.
    case_bool_decide; [done|]. by rewrite lookup_app_l by lia.
  - unfold symbol_at. rewrite bool_decide_false by lia. rewrite lookup_app_r by lia.
    replace (i - length src / n - length (shadowed src n)) with (i - k) by lia. case_decide as Hks.
    + rewrite lookup_app_l by (rewrite length_map, length_seq; lia). by rewrite list_lookup_fmap, lookup_seq_lt by lia.
    + rewrite lookup_app_r by (rewrite length_map, length_seq; lia).
      rewrite length_map, length_seq, list_lookup_fmap, lookup_seq_lt by lia. simpl. do 2 f_equal. lia.
Qed.
End encoder_new.

(** An encoder of at most 8192 source symbols exists, and one of more does not. *)
Lemma encoder_new_spec src n :
  0 < n →
  if decide (num_sources src n <= Z.to_nat SOURCE_SYMBOLS_MAX)
  then ∃ e C, encoder_new src n = Ret (Some e) ∧ RaptorCode.src e = src ∧ symbol_len e = n ∧ encoder_ok src e C
  else encoder_new src n = Ret None.
Proof.
  intros Hn. pose proof (num_sources_ceil src n Hn) as Hceil. unfold encoder_new. rewrite bool_decide_false by lia.
  change (replicate n 0%Z) with (zero_symbol n). fold (shadowed src n).
  match goal with |- context [Z.of_nat (length src / n + _ + ?pad)] =>
    replace (length src / n + length (last_source_symbol src n (length src / n)) + pad) with (num_sources src n) end.
  2:{ unfold num_sources, shadowed. rewrite length_app, length_replicate. lia. }
  case_decide as Hmax.
  2:{ rewrite bool_decide_false; [done|]. unfold SOURCE_SYMBOLS_MIN. lia. }
  assert (SOURCE_SYMBOLS_MIN <= Z.of_nat (num_sources src n) <= SOURCE_SYMBOLS_MAX)%Z as Hr
    by (unfold SOURCE_SYMBOLS_MIN in *; lia).
  rewrite bool_decide_true by done.
  destruct (code_parameters_new_spec _ Hr) as (p & Hcode & Hp & Hk). rewrite Hcode. apply Nat2Z.inj in Hk.
  destruct (g_half_spec p Hp) as (half & Hhalf & _). rewrite Hhalf. cbn [mbind exec_bind].
  rewrite ldpc_half_spec by done. cbn [mbind exec_bind].
  rewrite take_app_le, drop_app_ge by (rewrite length_map, length_seq; lia).
  rewrite take_ge by (rewrite length_map, length_seq; lia).
  rewrite length_map, length_seq, Nat.sub_diag, drop_0. rewrite half_spec by done. cbn [mbind exec_bind].
  eexists _, (intermediate n p half (source_symbol src n)). split_and!; [done..|].
  assert (∀ i, length (source_symbol src n i) = n) as Hs by (by apply source_symbol_length).
  split; cbn [params symbol_len]; [done|rewrite Hk; exact Hcode|done| | | |].
  - intros i. by apply intermediate_length.
  - intros i. by apply derived_spec.
  - rewrite Hk, <-source_symbols_concat by done. f_equal. apply map_ext_in.
    intros i Hi%list_elem_of_In%elem_of_seq. unfold intermediate, lower_symbol. by rewrite !decide_True by lia.
  - intros E r. by apply intermediate_constraints.
Qed.

(** An encoded symbol is the sum of the intermediate symbols of its sequence. *)
Lemma encode_symbol_spec src e C esi :
  encoder_ok src e C → (Z.of_nat esi < MAX_TRIPLES)%Z →
  ∃ l, lt_sequence_op (params e) esi = Ret l ∧ encode_symbol e esi = Ret (xsum (symbol_len e) C l).
Proof.
  intros He Hesi. destruct (lt_sequence_spec (params e) esi) as (l & Hl & _ & Hlt & _); [apply He|done|].
  exists l. split; [done|]. unfold encode_symbol. rewrite Hl. cbn [mbind exec_bind]. rewrite Forall_forall in Hlt.
  apply (make_redundant_spec _ _ C); [apply He|]. intros i Hi. apply He. by apply Hlt.
Qed.
