(* ===== verification/RaptorStructs.v ===== *)
(** The data structures of the Raptor decoder: ordered sets of indices
    (src/monad-raptor/src/ordered_set.rs), the heap of buffers by weight
    (r10/nonsystematic/decoder/buffer_weight_map.rs) and the elimination of binary
    matrices (matrix/). A [u16] or [usize] is a [nat], with the conversions that
    can fail written out; a [debug_assert!] is an assertion. *)

From S2P Require Import Prelude Types ValidatorSet Crypto RaptorTables RaptorCode.

#[local] Open Scope nat_scope.

(** * Helpers *)

Fixpoint foldM {A B} (f : B → A → exec B) (b : B) (l : list A) : exec B :=
  match l with
  | [] => Ret b
  | x :: l => b ← f b x; foldM f b l
  end.

(** [u16::try_from(n).unwrap()] *)
Definition to_u16 (n : nat) : exec nat := if bool_decide (Z.of_nat n <= 65535)%Z then Ret n else Panic.

(** [n - 1], checked *)
Definition decrement (n : nat) : exec nat := match n with O => Panic | S n => Ret n end.

(** [Vec::swap] *)
Definition vec_swap {A} (l : list A) (a b : nat) : exec (list A) :=
  x ← expect (l !! a);
  y ← expect (l !! b);
  Ret (<[a := y]> (<[b := x]> l)).

(** [v[i] = x] *)
Definition vec_set {A} (l : list A) (i : nat) (x : A) : exec (list A) :=
  _ ← expect (l !! i);
  Ret (<[i := x]> l).

(** [Vec::resize], to a length that is not smaller *)
Definition vec_resize {A} (l : list A) (len : nat) (x : A) : list A := l ++ replicate (len - length l) x.

(** * Ordered sets *)

Module OrderedSet.

Notation t := (list nat) (only parsing).

Definition BINARY_SEARCH_THRESHOLD : nat := 250.

Definition append (data : t) (value : nat) : t := data ++ [value].

(** The first index at or above [value], by a scan. *)
Fixpoint scan (data : t) (value : nat) : nat :=
  match data with
  | [] => 0
  | x :: data => if bool_decide (value <= x) then 0 else S (scan data value)
  end.

Definition placement_index (data : t) (value : nat) : nat :=
  if bool_decide (length data < BINARY_SEARCH_THRESHOLD) then scan data value
  else default (length data)
         (smallest_integer_satisfying 0 (length data) (λ pivot, bool_decide (value <= default 0 (data !! pivot)))).

Definition contains (data : t) (value : nat) : bool := bool_decide (data !! placement_index data value = Some value).

Definition first (data : t) : option nat := head data.

(** The two [copy_within]: make room at [index], or close the gap at [index]. *)
Definition insert_at (data : t) (index value : nat) : t := take index data ++ value :: drop index data.
Definition remove_at (data : t) (index : nat) : t := take index data ++ drop (S index) data.

Definition insert (data : t) (value : nat) : t * bool :=
  let index := placement_index data value in
  if bool_decide (data !! index = Some value) then (data, false) else (insert_at data index value, true).

Definition insert_or_remove (data : t) (value : nat) : t * bool :=
  let index := placement_index data value in
  if bool_decide (data !! index = Some value) then (remove_at data index, false)
  else (insert_at data index value, true).

Definition remove (data : t) (value : nat) : t * bool :=
  let index := placement_index data value in
  if bool_decide (data !! index = Some value) then (remove_at data index, true) else (data, false).

End OrderedSet.

(** * The buffers by weight *)

Record BufferWeightMap := mkBufferWeightMap {
  heap_index_to_buffer_index : list nat;
  buffer_index_to_weight : list (option nat);
  buffer_index_to_heap_index : list nat;
}.

Module WeightMap.

Definition empty : BufferWeightMap := mkBufferWeightMap [] [] [].

Definition is_empty (h : BufferWeightMap) : bool := bool_decide (heap_index_to_buffer_index h = []).

(** [self.buffer_index_to_weight[buffer_index].unwrap()] *)
Definition weight_of (h : BufferWeightMap) (buffer_index : nat) : exec nat :=
  weight ← expect (buffer_index_to_weight h !! buffer_index);
  expect weight.

Definition peek_min (h : BufferWeightMap) : exec (option (nat * nat)) :=
  match heap_index_to_buffer_index h with
  | [] => Ret None
  | buffer_index :: _ => weight ← weight_of h buffer_index; Ret (Some (buffer_index, weight))
  end.

Definition heap_index_to_weight (h : BufferWeightMap) (heap_index : nat) : exec nat :=
  buffer_index ← expect (heap_index_to_buffer_index h !! heap_index);
  weight_of h buffer_index.

Definition swap (h : BufferWeightMap) (heap_index_a heap_index_b : nat) : exec BufferWeightMap :=
  buffer_index_a ← expect (heap_index_to_buffer_index h !! heap_index_a);
  buffer_index_b ← expect (heap_index_to_buffer_index h !! heap_index_b);
  heap ← vec_swap (heap_index_to_buffer_index h) heap_index_a heap_index_b;
  places ← vec_swap (buffer_index_to_heap_index h) buffer_index_a buffer_index_b;
  Ret (mkBufferWeightMap heap (buffer_index_to_weight h) places).

(** The index decreases: [fuel] is the index. *)
Fixpoint pull_up_loop (fuel : nat) (h : BufferWeightMap) (heap_index : nat) : exec BufferWeightMap :=
  if bool_decide (heap_index = 0) then Ret h
  else match fuel with
       | O => OutOfFuel
       | S fuel =>
           let parent_heap_index := (heap_index - 1) / 2 in
           parent_weight ← heap_index_to_weight h parent_heap_index;
           weight ← heap_index_to_weight h heap_index;
           if bool_decide (parent_weight <= weight) then Ret h
           else h ← swap h heap_index parent_heap_index;
                pull_up_loop fuel h parent_heap_index
       end.
Definition pull_up (h : BufferWeightMap) (heap_index : nat) : exec BufferWeightMap := pull_up_loop heap_index h heap_index.

Definition set_weight (h : BufferWeightMap) (buffer_index : nat) (weight : option nat) : BufferWeightMap :=
  mkBufferWeightMap (heap_index_to_buffer_index h) (<[buffer_index := weight]> (buffer_index_to_weight h))
    (buffer_index_to_heap_index h).

Definition insert_buffer_weight (h : BufferWeightMap) (buffer_index weight : nat) : exec BufferWeightMap :=
  let heap_index := length (heap_index_to_buffer_index h) in
  buffer_index_u16 ← to_u16 buffer_index;
  let heap := heap_index_to_buffer_index h ++ [buffer_index_u16] in
  let '(weights, places) :=
    if bool_decide (length (buffer_index_to_weight h) < buffer_index + 1)
    then (vec_resize (buffer_index_to_weight h) (buffer_index + 1) None,
          vec_resize (buffer_index_to_heap_index h) (buffer_index + 1) 0)
    else (buffer_index_to_weight h, buffer_index_to_heap_index h) in
  previous ← expect (weights !! buffer_index);
  _ ← assert (bool_decide (previous = None));
  heap_index_u16 ← to_u16 heap_index;
  places ← vec_set places buffer_index heap_index_u16;
  pull_up (mkBufferWeightMap heap (<[buffer_index := Some weight]> weights) places) heap_index.

(** The smaller of [heap_index_min] and a child of the index, if there is one. *)
Definition smaller_child (h : BufferWeightMap) (child_heap_index heap_index_min : nat) : exec nat :=
  if bool_decide (child_heap_index < length (heap_index_to_buffer_index h)) then
    child_weight ← heap_index_to_weight h child_heap_index;
    weight ← heap_index_to_weight h heap_index_min;
    Ret (if bool_decide (child_weight < weight) then child_heap_index else heap_index_min)
  else Ret heap_index_min.

(** The index increases: the length of the heap is enough fuel. *)
Fixpoint push_down_loop (fuel : nat) (h : BufferWeightMap) (heap_index : nat) : exec BufferWeightMap :=
  match fuel with
  | O => OutOfFuel
  | S fuel =>
      heap_index_min ← smaller_child h (2 * heap_index + 1) heap_index;
      heap_index_min ← smaller_child h (2 * heap_index + 2) heap_index_min;
      if bool_decide (heap_index = heap_index_min) then Ret h
      else h ← swap h heap_index heap_index_min;
           push_down_loop fuel h heap_index_min
  end.
Definition push_down (h : BufferWeightMap) (heap_index : nat) : exec BufferWeightMap :=
  push_down_loop (S (length (heap_index_to_buffer_index h))) h heap_index.

Definition remove_heap_index (h : BufferWeightMap) (heap_index buffer_index : nat) : exec BufferWeightMap :=
  _ ← assert (bool_decide (heap_index_to_buffer_index h !! heap_index = Some buffer_index));
  _ ← assert (bool_decide (buffer_index_to_heap_index h !! buffer_index = Some heap_index));
  last_heap_index ← decrement (length (heap_index_to_buffer_index h));
  h ← (if bool_decide (heap_index ≠ last_heap_index) then swap h heap_index last_heap_index else Ret h);
  let h := mkBufferWeightMap (take last_heap_index (heap_index_to_buffer_index h)) (buffer_index_to_weight h)
             (buffer_index_to_heap_index h) in
  prev_weight ← weight_of h buffer_index;
  let h := set_weight h buffer_index None in
  if bool_decide (heap_index ≠ last_heap_index) then
    weight ← heap_index_to_weight h heap_index;
    if bool_decide (weight < prev_weight) then pull_up h heap_index
    else if bool_decide (prev_weight < weight) then push_down h heap_index
    else Ret h
  else Ret h.

Definition remove_min (h : BufferWeightMap) : exec BufferWeightMap :=
  buffer_index ← expect (heap_index_to_buffer_index h !! 0);
  remove_heap_index h 0 buffer_index.

Definition remove_buffer_weight (h : BufferWeightMap) (buffer_index : nat) : exec (BufferWeightMap * nat) :=
  weight ← weight_of h buffer_index;
  heap_index ← expect (buffer_index_to_heap_index h !! buffer_index);
  buffer_index_u16 ← to_u16 buffer_index;
  h ← remove_heap_index h heap_index buffer_index_u16;
  Ret (h, weight).

Definition update_buffer_weight (h : BufferWeightMap) (buffer_index weight : nat) : exec BufferWeightMap :=
  prev_weight ← weight_of h buffer_index;
  if bool_decide (prev_weight = weight) then Ret h
  else
    let h := set_weight h buffer_index (Some weight) in
    heap_index ← expect (buffer_index_to_heap_index h !! buffer_index);
    if bool_decide (weight < prev_weight) then pull_up h heap_index else push_down h heap_index.

(** [enumerate], as the list of the calls *)
Definition enumerate (h : BufferWeightMap) : exec (list (nat * nat)) :=
  mapM (λ buffer_index, weight ← weight_of h buffer_index; Ret (buffer_index, weight)) (heap_index_to_buffer_index h).

End WeightMap.

(** * Matrices *)

Record DenseMatrix := mkDenseMatrix { data : list bool; nrows : nat; ncols : nat }.

Definition from_element (nrows ncols : nat) (elem : bool) : DenseMatrix :=
  mkDenseMatrix (replicate (nrows * ncols) elem) nrows ncols.

Definition from_fn (nrows ncols : nat) (f : nat → nat → exec bool) : exec DenseMatrix :=
  data ← mapM (λ ij, f ij.1 ij.2) (flat_map (λ i, map (λ j, (i, j)) (seq 0 ncols)) (seq 0 nrows));
  Ret (mkDenseMatrix data nrows ncols).

Definition matrix_get (m : DenseMatrix) (i j : nat) : exec bool := expect (data m !! (i * ncols m + j)).
Definition matrix_set (m : DenseMatrix) (i j : nat) (elem : bool) : exec DenseMatrix :=
  data ← vec_set (data m) (i * ncols m + j) elem;
  Ret (mkDenseMatrix data (nrows m) (ncols m)).

Record RCPermutation := mkRCPermutation { virt_to_phys : list nat; phys_to_virt : list nat }.

Definition permutation_new (len : nat) : exec RCPermutation :=
  len ← to_u16 len;
  Ret (mkRCPermutation (seq 0 len) (seq 0 len)).
Definition permutation_index (p : RCPermutation) (a : nat) : exec nat := expect (virt_to_phys p !! a).
Definition permutation_swap (p : RCPermutation) (a b : nat) : exec RCPermutation :=
  v ← vec_swap (virt_to_phys p) a b;
  va ← expect (v !! a);
  vb ← expect (v !! b);
  w ← vec_swap (phys_to_virt p) va vb;
  Ret (mkRCPermutation v w).

Record RCSwapMatrix := mkRCSwapMatrix {
  mat : DenseMatrix;
  row_permutation : RCPermutation;
  column_permutation : RCPermutation;
}.

Module Matrix.

Definition from_dmatrix (m : DenseMatrix) : exec RCSwapMatrix :=
  rows ← permutation_new (nrows m);
  columns ← permutation_new (ncols m);
  Ret (mkRCSwapMatrix m rows columns).

Definition swap_rows (a : RCSwapMatrix) (i j : nat) : exec RCSwapMatrix :=
  rows ← permutation_swap (row_permutation a) i j;
  Ret (mkRCSwapMatrix (mat a) rows (column_permutation a)).
Definition swap_columns (a : RCSwapMatrix) (i j : nat) : exec RCSwapMatrix :=
  columns ← permutation_swap (column_permutation a) i j;
  Ret (mkRCSwapMatrix (mat a) (row_permutation a) columns).

Definition cell_at (a : RCSwapMatrix) (i j : nat) : exec bool :=
  i ← permutation_index (row_permutation a) i;
  j ← permutation_index (column_permutation a) j;
  matrix_get (mat a) i j.

Definition sub_assign_cell (a_phys b_phys : nat) (m : DenseMatrix) (k : nat) : exec DenseMatrix :=
  x ← matrix_get m a_phys k;
  y ← matrix_get m b_phys k;
  matrix_set m a_phys k (xorb x y).
Definition row_sub_assign (a : RCSwapMatrix) (i j : nat) : exec RCSwapMatrix :=
  a_phys ← permutation_index (row_permutation a) i;
  b_phys ← permutation_index (row_permutation a) j;
  mat ← foldM (sub_assign_cell a_phys b_phys) (mat a) (seq 0 (ncols (mat a)));
  Ret (mkRCSwapMatrix mat (row_permutation a) (column_permutation a)).

(** The weight of a row and its first column, if it has one. *)
Definition weigh (a : RCSwapMatrix) (row : nat) (acc : nat * option nat) (col : nat) : exec (nat * option nat) :=
  let '(weight, lead_column) := acc in
  set ← cell_at a row col;
  Ret (if (set : bool) then (S weight, match lead_column with None => Some col | Some _ => lead_column end) else acc).
Definition row_weight (a : RCSwapMatrix) (row : nat) : exec (nat * option nat) :=
  foldM (weigh a row) (0, None) (seq 0 (ncols (mat a))).

(** The strategy of [rowwise_elimination_gaussian_full_pivot]: the best row so far,
    its weight and its first column. *)
Definition best_row (a : RCSwapMatrix) (best : option (nat * nat * nat)) (row : nat) : exec (option (nat * nat * nat)) :=
  '(weight, lead_column) ← row_weight a row;
  if bool_decide (weight = 0) then Ret best
  else
    lead_column ← expect lead_column;
    Ret (match best with
         | None => Some (row, weight, lead_column)
         | Some (_, best_weight, _) =>
             if bool_decide (weight < best_weight) then Some (row, weight, lead_column) else best
         end).
Definition full_pivot (a : RCSwapMatrix) (step : nat) : exec (option (nat * nat)) :=
  best ← foldM (best_row a) None (seq step (nrows (mat a) - step));
  Ret (match best with Some (row, _, lead_column) => Some (row, lead_column) | None => None end).

(** [SubAssign { i, j }] is the pair [(i, j)]. One row, and the rows of a step: *)
Definition eliminate_row (step : nat) (acc : RCSwapMatrix * list (nat * nat)) (i : nat) :
    exec (RCSwapMatrix * list (nat * nat)) :=
  let '(a, ops) := acc in
  if bool_decide (i = step) then Ret (a, ops)
  else
    set ← cell_at a i step;
    if (set : bool) then
      a ← row_sub_assign a i step;
      i ← permutation_index (row_permutation a) i;
      j ← permutation_index (row_permutation a) step;
      Ret (a, ops ++ [(i, j)])
    else Ret (a, ops).
Definition eliminate (a : RCSwapMatrix) (step : nat) (ops : list (nat * nat)) : exec (RCSwapMatrix * list (nat * nat)) :=
  foldM (eliminate_row step) (a, ops) (seq 0 (nrows (mat a))).

(** The steps, with the operations so far; [false] when the strategy fails. *)
Fixpoint elimination_steps (strategy : RCSwapMatrix → nat → exec (option (nat * nat))) (steps : list nat)
    (a : RCSwapMatrix) (ops : list (nat * nat)) : exec (RCSwapMatrix * list (nat * nat) * bool) :=
  match steps with
  | [] => Ret (a, ops, true)
  | step :: steps =>
      pivot ← strategy a step;
      match pivot with
      | None => Ret (a, ops, false)
      | Some (row, col) =>
          a ← (if bool_decide (row ≠ step) then swap_rows a row step else Ret a);
          a ← (if bool_decide (col ≠ step) then swap_columns a col step else Ret a);
          '(a, ops) ← eliminate a step ops;
          elimination_steps strategy steps a ops
      end
  end.

(** [rowwise_elimination_schedule]: the calls of [row_operation], and whether the
    result is [Ok]. *)
Definition rowwise_elimination_schedule (m : DenseMatrix)
    (strategy : RCSwapMatrix → nat → exec (option (nat * nat))) : exec (list (nat * nat) * bool) :=
  _ ← assert (bool_decide (ncols m <= nrows m));
  a ← from_dmatrix m;
  '(a, ops, ok) ← elimination_steps strategy (seq 0 (ncols m)) a [];
  _ ← (if (ok : bool) then
         foldM (λ _ ij, set ← cell_at a ij.1 ij.2; assert (eqb set (bool_decide (ij.1 = ij.2)))) tt
           (flat_map (λ i, map (λ j, (i, j)) (seq 0 (ncols m))) (seq 0 (nrows m)))
       else Ret tt);
  Ret (ops, ok).

Definition rowwise_elimination_gaussian_full_pivot (m : DenseMatrix) : exec (list (nat * nat) * bool) :=
  rowwise_elimination_schedule m full_pivot.

End Matrix.
