(* ===== verification/RaptorSetProps.v ===== *)
(** Properties of the ordered sets of the Raptor decoder: the binary search finds
    the place the scan finds, and the operations are those of a set. *)

From S2P Require Import Prelude Types ValidatorSet Crypto RaptorTables RaptorCode RaptorCodeProps RaptorStructs.

#[local] Open Scope nat_scope.

Section ordered_set.
Implicit Types (data : list nat) (value i : nat).
Import OrderedSet.

Lemma scan_le data value : scan data value <= length data.
Proof. induction data as [|x data IH]; simpl; [done|]. case_bool_decide; lia. Qed.

Lemma scan_below data value i x : i < scan data value → data !! i = Some x → x < value.
Proof.
  revert i. induction data as [|y data IH]; intros i; simpl; [lia|]. case_bool_decide as Hy; [lia|].
  destruct i as [|i]; simpl; [naive_solver lia|]. intros Hi. apply IH. lia.
Qed.

Lemma scan_at data value x : data !! scan data value = Some x → value <= x.
Proof. induction data as [|y data IH]; simpl; [done|]. case_bool_decide; [naive_solver|done]. Qed.

Lemma sorted_lookup data i j x y :
  StronglySorted lt data → i < j → data !! i = Some x → data !! j = Some y → x < y.
Proof.
  intros Hs. revert i j. induction Hs as [|z data Hs IH Hz]; intros i j Hij Hi Hj; [done|].
  destruct j as [|j]; [lia|]. destruct i as [|i]; simpl in *; [|by apply (IH i j); [lia|..]].
  simplify_eq. rewrite Forall_forall in Hz. by eapply Hz, list_elem_of_lookup_2.
Qed.

(** The binary search and the scan find the same place. *)
Lemma placement_index_scan data value : StronglySorted lt data → placement_index data value = scan data value.
Proof.
  intros Hs. unfold placement_index. case_bool_decide as Hlen; [done|].
  set (cond := λ pivot, bool_decide (value <= default 0 (data !! pivot))).
  pose proof (smallest_integer_iff cond (length data)) as Hsearch. pose proof (scan_le data value) as Hle.
  assert (∀ i x, data !! i = Some x → cond i = bool_decide (value <= x)) as Hcond by (intros i x Hx; unfold cond; by rewrite Hx).
  assert (∀ i j, i <= j → j < length data → cond i = true → cond j = true) as Hmono.
  { intros i j Hij Hj Hi. destruct (lookup_lt_is_Some_2 data i) as [x Hx]; [lia|].
    destruct (lookup_lt_is_Some_2 data j) as [y Hy]; [lia|]. rewrite (Hcond _ _ Hx) in Hi. rewrite (Hcond _ _ Hy).
    apply bool_decide_eq_true in Hi. apply bool_decide_eq_true. destruct (decide (i = j)); [naive_solver|].
    pose proof (sorted_lookup data i j x y Hs ltac:(lia) Hx Hy). lia. }
  specialize (Hsearch Hmono). destruct (smallest_integer_satisfying 0 (length data) cond) as [r|]; simpl.
  - destruct Hsearch as (Hr & Hcr & Hbelow).
    destruct (lookup_lt_is_Some_2 data r Hr) as [x Hx]. rewrite (Hcond _ _ Hx) in Hcr. apply bool_decide_eq_true in Hcr.
    destruct (Nat.lt_trichotomy r (scan data value)) as [Hlt|[Heq|Hgt]]; [|done|].
    + pose proof (scan_below _ _ _ _ Hlt Hx). lia.
    + pose proof (Hbelow _ Hgt) as Hf. destruct (lookup_lt_is_Some_2 data (scan data value)) as [y Hy]; [lia|].
      rewrite (Hcond _ _ Hy) in Hf. apply bool_decide_eq_false in Hf. apply scan_at in Hy. lia.
  - destruct (decide (scan data value < length data)) as [Hlt|]; [|lia]. exfalso.
    destruct (lookup_lt_is_Some_2 data _ Hlt) as [y Hy]. pose proof (scan_at _ _ _ Hy).
    pose proof (Hsearch _ Hlt) as Hf.
    rewrite (Hcond _ _ Hy) in Hf. apply bool_decide_eq_false in Hf. lia.
Qed.

Lemma scan_elem data value : StronglySorted lt data → data !! scan data value = Some value ↔ value ∈ data.
Proof.
  intros Hs. split; [apply list_elem_of_lookup_2|]. intros [i Hi]%list_elem_of_lookup.
  destruct (Nat.lt_trichotomy i (scan data value)) as [Hlt|[<-|Hgt]]; [|done|].
  - pose proof (scan_below _ _ _ _ Hlt Hi). lia.
  - destruct (lookup_lt_is_Some_2 data (scan data value)) as [y Hy]; [apply lookup_lt_Some in Hi; lia|].
    pose proof (sorted_lookup _ _ _ _ _ Hs Hgt Hy Hi). apply scan_at in Hy. lia.
Qed.

Lemma set_contains_spec data value : StronglySorted lt data → contains data value = bool_decide (value ∈ data).
Proof.
  intros Hs. unfold contains. rewrite placement_index_scan by done. by apply bool_decide_ext, scan_elem.
Qed.

Lemma insert_at_perm data i value : insert_at data i value ≡ₚ value :: data.
Proof. unfold insert_at. by rewrite <-Permutation_middle, take_drop. Qed.
Lemma remove_at_perm data i value : data !! i = Some value → data ≡ₚ value :: remove_at data i.
Proof. intros Hi. unfold remove_at. rewrite <-(take_drop_middle data i value Hi) at 1. by rewrite <-Permutation_middle. Qed.

Lemma remove_at_sorted data i : StronglySorted lt data → StronglySorted lt (remove_at data i).
Proof.
  intros Hs. unfold remove_at. rewrite <-(take_drop i data) in Hs. apply StronglySorted_app in Hs as (H1 & H2 & H3).
  replace (drop (S i) data) with (drop 1 (drop i data)) by (rewrite drop_drop; f_equal; lia).
  destruct (drop i data) as [|x l]; [by rewrite app_nil_r|]. apply StronglySorted_app_2; [|done|by inversion H3].
  intros y z Hy Hz. apply H1; [done|]. by right.
Qed.
Lemma insert_at_sorted data value :
  StronglySorted lt data → value ∉ data → StronglySorted lt (insert_at data (scan data value) value).
Proof.
  induction 1 as [|x data Hs IH Hx]; intros Hv; [by repeat constructor|]. simpl. apply not_elem_of_cons in Hv as [Hne Hv].
  case_bool_decide as Hle.
  - constructor; [by constructor|]. constructor; [lia|]. eapply Forall_impl; [done|]. simpl. lia.
  - constructor; [by apply IH|]. change (Forall (lt x) (insert_at data (scan data value) value)).
    rewrite insert_at_perm. constructor; [lia|done].
Qed.

(** [data'] is [data] with [value] taken out or put in. *)
Definition toggled data value data' : Prop :=
  StronglySorted lt data' ∧ (if decide (value ∈ data) then data ≡ₚ value :: data' else data' ≡ₚ value :: data).

Lemma insert_or_remove_spec data value :
  StronglySorted lt data →
  toggled data value (insert_or_remove data value).1 ∧ (insert_or_remove data value).2 = bool_decide (value ∉ data).
Proof.
  intros Hs. unfold insert_or_remove, toggled. rewrite placement_index_scan by done. pose proof (scan_elem data value Hs) as Hiff.
  destruct (decide (value ∈ data)) as [Hin|Hin].
  - rewrite bool_decide_true by tauto. simpl. rewrite bool_decide_false by tauto.
    split_and!; [by apply remove_at_sorted|by apply remove_at_perm, Hiff|done].
  - rewrite bool_decide_false by tauto. simpl. rewrite bool_decide_true by tauto.
    split_and!; [by apply insert_at_sorted|apply insert_at_perm|done].
Qed.

Lemma set_remove_spec data value :
  StronglySorted lt data → value ∈ data →
  ∃ data', remove data value = (data', true) ∧ StronglySorted lt data' ∧ data ≡ₚ value :: data'.
Proof.
  intros Hs Hin. unfold remove. rewrite placement_index_scan by done. pose proof (scan_elem data value Hs) as Hiff.
  rewrite bool_decide_true by tauto. eexists. split; [done|].
  split; [by apply remove_at_sorted|]. by apply remove_at_perm, Hiff.
Qed.

Lemma set_insert_spec data value :
  StronglySorted lt data → value ∉ data →
  ∃ data', insert data value = (data', true) ∧ StronglySorted lt data' ∧ data' ≡ₚ value :: data.
Proof.
  intros Hs Hin. unfold insert. rewrite placement_index_scan by done. pose proof (scan_elem data value Hs) as Hiff.
  rewrite bool_decide_false by tauto. eexists. split; [done|].
  split; [by apply insert_at_sorted|apply insert_at_perm].
Qed.
End ordered_set.

(** C36. The ordered vector is a set, whichever of its two searches it uses: a
    binary search over many elements and a scan of few find the same place, and on
    the set of the elements the membership test, the insertion, the removal and the
    toggle are the operations of sets, keep the vector ordered and report whether
    they changed it. *)
Theorem ordered_set_equivalent (data : list nat) (value : nat) :
  StronglySorted lt data →
  let set := list_to_set data : gset nat in
  OrderedSet.placement_index data value = OrderedSet.scan data value ∧
  OrderedSet.contains data value = bool_decide (value ∈ set) ∧
  (let '(data', changed) := OrderedSet.insert data value in
   StronglySorted lt data' ∧ list_to_set data' = {[value]} ∪ set ∧ changed = bool_decide (value ∉ set)) ∧
  (let '(data', changed) := OrderedSet.remove data value in
   StronglySorted lt data' ∧ list_to_set data' = set ∖ {[value]} ∧ changed = bool_decide (value ∈ set)) ∧
  (let '(data', inserted) := OrderedSet.insert_or_remove data value in
   StronglySorted lt data' ∧ list_to_set data' = (if decide (value ∈ set) then set ∖ {[value]} else {[value]} ∪ set) ∧
   inserted = bool_decide (value ∉ set)).
Proof.
  intros Hs set. assert (value ∈ set ↔ value ∈ data) as Hset by (unfold set; apply elem_of_list_to_set).
  assert (∀ data', data' ≡ₚ value :: data → list_to_set data' = {[value]} ∪ set) as Hins by (intros data' ->; done).
  assert (∀ data', data ≡ₚ value :: data' → NoDup data → list_to_set data' = set ∖ {[value]}) as Hrem.
  { intros data' Hp Hnd. unfold set. rewrite Hp in Hnd |- *. apply NoDup_cons in Hnd as [Hv _]. set_solver. }
  pose proof (strict_NoDup _ Hs) as Hnd. pose proof (placement_index_scan data value Hs) as Hplace.
  pose proof (scan_elem data value Hs) as Hscan. split_and!; [done|rewrite set_contains_spec by done; by apply bool_decide_ext| | |].
  - destruct (decide (value ∈ data)) as [Hin|Hin].
    + unfold OrderedSet.insert. rewrite Hplace, bool_decide_true by tauto. rewrite (bool_decide_false (value ∉ set)) by tauto. split_and!; [done|set_solver|done].
    + destruct (set_insert_spec data value Hs Hin) as (data' & -> & Hs' & Hp). rewrite bool_decide_true by tauto. auto.
  - destruct (decide (value ∈ data)) as [Hin|Hin].
    + destruct (set_remove_spec data value Hs Hin) as (data' & -> & Hs' & Hp). rewrite bool_decide_true by tauto. auto.
    + unfold OrderedSet.remove. rewrite Hplace, bool_decide_false by tauto. rewrite (bool_decide_false (value ∈ set)) by tauto. split_and!; [done|set_solver|done].
  - pose proof (insert_or_remove_spec data value Hs) as [Ht Hc]. destruct (OrderedSet.insert_or_remove data value) as [data' inserted].
    simpl in Ht, Hc. destruct Ht as [Hs' Ht]. rewrite Hc. split_and!; [done| |by apply bool_decide_ext; rewrite Hset].
    destruct (decide (value ∈ data)) as [Hin|Hin]; [rewrite decide_True by tauto|rewrite decide_False by tauto].
    + by apply Hrem.
    + by apply Hins.
Qed.
Lemma ordered_set_equivalent_witness :
  OrderedSet.contains [2; 5; 7] 5 = true ∧ (OrderedSet.insert [2; 5; 7] 6).2 = true ∧
  list_to_set (OrderedSet.insert [2; 5; 7] 6).1 = ({[6]} ∪ {[2; 5; 7]} : gset nat) ∧
  (OrderedSet.remove [2; 5; 7] 6).2 = false.
Proof.
  assert (StronglySorted lt [2; 5; 7]) as Hs by (repeat constructor; lia).
  destruct (ordered_set_equivalent [2; 5; 7] 5 Hs) as (_ & Hc & _).
  destruct (ordered_set_equivalent [2; 5; 7] 6 Hs) as (_ & _ & Hi & Hr & _).
  destruct (OrderedSet.insert [2; 5; 7] 6) as [data inserted], (OrderedSet.remove [2; 5; 7] 6) as [data' removed].
  destruct Hi as (_ & Hset & Hins), Hr as (_ & _ & Hrem). cbn [fst snd].
  rewrite Hc, Hins, Hset, Hrem. split; [reflexivity|]. split; [reflexivity|]. split; [set_solver|reflexivity].
Defined.
