(* ===== verification/RaptorHeapProps.v ===== *)
(** The heap of buffers by weight is a finite map from buffers to weights, with the
    least weight at hand. *)

From S2P Require Import Prelude Types ValidatorSet Crypto RaptorTables RaptorCode RaptorCodeProps RaptorStructs.

#[local] Open Scope nat_scope.

Lemma to_u16_ok n : (Z.of_nat n <= 65535)%Z → to_u16 n = Ret n.
Proof. intros Hn. unfold to_u16. by rewrite bool_decide_true. Qed.

Lemma vec_swap_spec {A} (l : list A) a b :
  a < length l → b < length l →
  ∃ l', vec_swap l a b = Ret l' ∧ length l' = length l ∧
    ∀ k, l' !! k = if decide (k = a) then l !! b else if decide (k = b) then l !! a else l !! k.
Proof.
  intros Ha Hb. unfold vec_swap. destruct (lookup_lt_is_Some_2 l a Ha) as [x Hx].
  destruct (lookup_lt_is_Some_2 l b Hb) as [y Hy]. rewrite Hx, Hy. eexists. split; [done|].
  rewrite !length_insert. split; [done|]. intros k.
  destruct (decide (k = a)) as [->|Hka]; [by rewrite list_lookup_insert_eq by (by rewrite length_insert)|].
  rewrite list_lookup_insert_ne by done.
  destruct (decide (k = b)) as [->|Hkb]; [by rewrite list_lookup_insert_eq|by rewrite list_lookup_insert_ne].
Qed.

(** * Orders on the indices of a heap *)

Definition parent (k : nat) : nat := (k - 1) / 2.

Lemma parent_lt k : 0 < k → parent k < k.
Proof. intros Hk. unfold parent. apply Nat.Div0.div_lt_upper_bound. lia. Qed.
Lemma parent_children k i : 0 < k → parent k = i ↔ k = 2 * i + 1 ∨ k = 2 * i + 2.
Proof.
  intros Hk. unfold parent. pose proof (Nat.div_mod_eq (k - 1) 2). pose proof (Nat.mod_upper_bound (k - 1) 2). lia.
Qed.

Section order.
Context (n : nat).
Implicit Types (f : nat → nat) (i k : nat).

Definition ordered f : Prop := ∀ k, 0 < k < n → f (parent k) <= f k.
(** Ordered, but that the weight at [i] may be too small. *)
Definition ordered_up f i : Prop :=
  (∀ k, 0 < k < n → k ≠ i → f (parent k) <= f k) ∧ (∀ k, 0 < k < n → 0 < i → parent k = i → f (parent i) <= f k).
(** Ordered, but that the weight at [i] may be too large. *)
Definition ordered_down f i : Prop :=
  (∀ k, 0 < k < n → parent k ≠ i → f (parent k) <= f k) ∧ (∀ k, 0 < k < n → 0 < i → parent k = i → f (parent i) <= f k).

Lemma ordered_min f k : ordered f → k < n → f 0 <= f k.
Proof.
  intros Hf. induction (lt_wf k) as [k _ IH]. intros Hk. destruct (decide (k = 0)) as [->|]; [done|].
  pose proof (parent_lt k ltac:(lia)). pose proof (Hf k ltac:(lia)). pose proof (IH (parent k) ltac:(lia) ltac:(lia)). lia.
Qed.

Lemma ordered_up_done f i : i < n → ordered_up f i → (0 < i → f (parent i) <= f i) → ordered f.
Proof. intros Hi [H1 H2] Hp k Hk. destruct (decide (k = i)) as [->|Hki]; [apply Hp; lia|by apply H1]. Qed.

Lemma ordered_down_done f i : ordered_down f i → (∀ k, 0 < k < n → parent k = i → f i <= f k) → ordered f.
Proof. intros [H1 H2] Hc k Hk. destruct (decide (parent k = i)) as [<-|Hki]; [by apply Hc|by apply H1]. Qed.

Lemma ordered_up_step f f' i :
  0 < i < n → ordered_up f i → f i < f (parent i) →
  f' i = f (parent i) → f' (parent i) = f i → (∀ k, k ≠ i → k ≠ parent i → f' k = f k) → ordered_up f' (parent i).
Proof.
  intros Hi [H1 H2] Hlt Hfi Hfp Hne. set (p := parent i) in *. pose proof (parent_lt i ltac:(lia)) as Hpi. fold p in Hpi.
  split; intros k Hk.
  - intros Hkp. destruct (decide (k = i)) as [->|Hki]; [fold p; lia|]. rewrite (Hne k) by done.
    destruct (decide (parent k = i)) as [Hpk|Hpk]; [rewrite Hpk, Hfi; by apply H2; [|lia|]|].
    destruct (decide (parent k = p)) as [Hpk'|Hpk']; [rewrite Hpk', Hfp; specialize (H1 k Hk Hki); rewrite Hpk' in H1; lia|].
    rewrite (Hne (parent k)) by done. by apply H1.
  - intros Hp Hpk. assert (f (parent p) <= f p) as Hpp by (apply H1; lia).
    pose proof (parent_lt p ltac:(lia)). rewrite (Hne (parent p)) by lia.
    destruct (decide (k = i)) as [->|Hki]; [lia|]. pose proof (parent_lt k ltac:(lia)).
    rewrite (Hne k) by lia. specialize (H1 k Hk Hki). rewrite Hpk in H1. lia.
Qed.

Lemma ordered_down_step f f' i m :
  0 < m < n → parent m = i → ordered_down f i → f m < f i → (∀ k, 0 < k < n → parent k = i → f m <= f k) →
  f' i = f m → f' m = f i → (∀ k, k ≠ i → k ≠ m → f' k = f k) → ordered_down f' m.
Proof.
  intros Hm Hpm [H1 H2] Hlt Hmin Hfi Hfm Hne. pose proof (parent_lt m ltac:(lia)) as Him. rewrite Hpm in Him.
  split; intros k Hk.
  - intros Hkm. destruct (decide (parent k = i)) as [Hpk|Hpk].
    + rewrite Hpk, Hfi. destruct (decide (k = m)) as [->|]; [lia|]. pose proof (parent_lt k ltac:(lia)).
      rewrite (Hne k) by lia. by apply Hmin.
    + rewrite (Hne (parent k)) by done. assert (k ≠ m) by congruence. destruct (decide (k = i)) as [->|Hki].
      * rewrite Hfi. apply H2; [lia..|done].
      * rewrite (Hne k) by done. by apply H1.
  - intros _ Hpk. rewrite Hpm, Hfi. pose proof (parent_lt k ltac:(lia)). rewrite (Hne k) by lia.
    rewrite <-Hpk. apply H1; [done|lia].
Qed.

(** One weight changes. *)
Lemma ordered_change f f' i :
  i < n → ordered f → (∀ k, k < n → k ≠ i → f' k = f k) →
  (f' i <= f i → ordered_up f' i) ∧ (f i <= f' i → ordered_down f' i) ∧ (f' i = f i → ordered f').
Proof.
  intros Hi Hf Hne.
  assert (∀ k, 0 < k < n → k ≠ i → parent k ≠ i → f' (parent k) <= f' k) as Hother.
  { intros k Hk Hki Hpk. pose proof (parent_lt k ltac:(lia)). rewrite !Hne by lia. by apply Hf. }
  assert (∀ k, 0 < k < n → 0 < i → parent k = i → f' (parent i) <= f' k) as Hgrand.
  { intros k Hk H0 Hpk. pose proof (parent_lt k ltac:(lia)). pose proof (parent_lt i H0). rewrite !Hne by lia.
    pose proof (Hf k Hk) as Hfk. rewrite Hpk in Hfk. pose proof (Hf i ltac:(lia)). lia. }
  assert (∀ k, 0 < k < n → parent k = i → f i <= f' k) as Hchild.
  { intros k Hk Hpk. pose proof (parent_lt k ltac:(lia)). rewrite Hne by lia. rewrite <-Hpk. by apply Hf. }
  assert (0 < i → f' (parent i) <= f i) as Hpar.
  { intros H0. pose proof (parent_lt i H0). rewrite Hne by lia. apply Hf. lia. }
  split_and!.
  - intros Hle. split; [|done]. intros k Hk Hki. destruct (decide (parent k = i)) as [Hpk|]; [|by apply Hother].
    rewrite Hpk. specialize (Hchild k Hk Hpk). lia.
  - intros Hle. split; [|done]. intros k Hk Hpk. destruct (decide (k = i)) as [->|]; [|by apply Hother].
    specialize (Hpar ltac:(lia)). lia.
  - intros Heq k Hk. destruct (decide (k = i)) as [->|]; [rewrite Heq; apply Hpar; lia|].
    destruct (decide (parent k = i)) as [Hpk|]; [|by apply Hother]. rewrite Hpk, Heq. by apply Hchild.
Qed.
End order.

(** * The heap *)

Section heap.
Import WeightMap.
Implicit Types (h : BufferWeightMap) (b i k w : nat).
Notation heap := heap_index_to_buffer_index.
Notation places := buffer_index_to_heap_index.

(** The map that the heap holds. *)
Definition wlookup h b : option nat := mjoin (buffer_index_to_weight h !! b).

Record heap_wf h : Prop := {
  wf_length : length (buffer_index_to_weight h) = length (places h);
  wf_heap : ∀ i b, heap h !! i = Some b → is_Some (wlookup h b) ∧ places h !! b = Some i ∧ (Z.of_nat b <= 65535)%Z;
  wf_places : ∀ b, is_Some (wlookup h b) → ∃ i, heap h !! i = Some b;
}.

Definition wt h k : nat := default 0 (heap h !! k ≫= wlookup h).
Notation size h := (length (heap h)).

Definition heap_ok h : Prop := heap_wf h ∧ ordered (size h) (wt h).

Lemma weight_of_spec h b w : wlookup h b = Some w → weight_of h b = Ret w.
Proof. unfold wlookup, weight_of. destruct (buffer_index_to_weight h !! b) as [[w'|]|]; simpl; naive_solver. Qed.

Lemma wf_place h b w : heap_wf h → wlookup h b = Some w → ∃ i, places h !! b = Some i ∧ heap h !! i = Some b ∧ wt h i = w.
Proof.
  intros Hwf Hw. destruct (wf_places h Hwf b) as [i Hi]; [by eexists|]. destruct (wf_heap h Hwf i b Hi) as (_ & Hp & _).
  exists i. split_and!; [done..|]. unfold wt. rewrite Hi. simpl. by rewrite Hw.
Qed.

Lemma heap_weight_spec h k : heap_wf h → k < size h → heap_index_to_weight h k = Ret (wt h k).
Proof.
  intros Hwf Hk. unfold heap_index_to_weight, wt. destruct (lookup_lt_is_Some_2 _ _ Hk) as [b Hb]. rewrite Hb. simpl.
  destruct (wf_heap h Hwf k b Hb) as ([w Hw] & _). rewrite Hw. by apply weight_of_spec.
Qed.

Lemma wf_inj h i j b : heap_wf h → heap h !! i = Some b → heap h !! j = Some b → i = j.
Proof. intros Hwf Hi%(wf_heap h Hwf) Hj%(wf_heap h Hwf). destruct Hi as (_ & ? & _), Hj as (_ & ? & _). congruence. Qed.

Lemma wf_NoDup h : heap_wf h → NoDup (heap h).
Proof. intros Hwf. apply NoDup_alt. intros i j b. by apply wf_inj. Qed.

(** Exchanging two indices keeps the map. *)
Lemma heap_swap_spec h i j :
  heap_wf h → i < size h → j < size h →
  ∃ h', swap h i j = Ret h' ∧ heap_wf h' ∧ (∀ b, wlookup h' b = wlookup h b) ∧ size h' = size h ∧
    (∀ k, heap h' !! k = if decide (k = i) then heap h !! j else if decide (k = j) then heap h !! i else heap h !! k) ∧
    wt h' i = wt h j ∧ wt h' j = wt h i ∧ (∀ k, k ≠ i → k ≠ j → wt h' k = wt h k).
Proof.
  intros Hwf Hi Hj. unfold swap. destruct (lookup_lt_is_Some_2 _ _ Hi) as [bi Hbi]. destruct (lookup_lt_is_Some_2 _ _ Hj) as [bj Hbj].
  rewrite Hbi, Hbj. cbn [expect mbind exec_bind].
  destruct (vec_swap_spec (heap h) i j Hi Hj) as (hp & -> & Hlen & Hhp). cbn [mbind exec_bind].
  destruct (wf_heap h Hwf i bi Hbi) as (_ & Hpi & _). destruct (wf_heap h Hwf j bj Hbj) as (_ & Hpj & _).
  destruct (vec_swap_spec (places h) bi bj) as (pl & -> & Hlenp & Hpl); [by eapply lookup_lt_Some..|]. cbn [mbind exec_bind].
  eexists. split; [done|].
  assert (∀ k b, hp !! k = Some b → heap h !! (if decide (k = i) then j else if decide (k = j) then i else k) = Some b) as Hold.
  { intros k b. rewrite Hhp. by repeat case_decide. }
  assert (∀ k, wt (mkBufferWeightMap hp (buffer_index_to_weight h) pl) k =
               if decide (k = i) then wt h j else if decide (k = j) then wt h i else wt h k) as Hwt.
  { intros k. unfold wt. simpl. rewrite Hhp. by repeat case_decide. }
  split_and!; [|done|exact Hlen|by rewrite <-Hbi, <-Hbj| | |].
  - split; simpl; [by rewrite Hlenp; apply Hwf| |].
    + intros k b Hk%Hold. destruct (wf_heap h Hwf _ _ Hk) as (Hw & Hp & Hb). split_and!; [done| |done].
      rewrite Hpl. destruct (decide (k = i)) as [->|]; [|destruct (decide (k = j)) as [->|]];
        repeat case_decide; simplify_eq; try done; exfalso; naive_solver.
    + intros b Hw. destruct (wf_places h Hwf b Hw) as [k Hk].
      exists (if decide (k = i) then j else if decide (k = j) then i else k). rewrite Hhp. by repeat case_decide; simplify_eq.
  - rewrite Hwt. by rewrite decide_True.
  - rewrite Hwt. case_decide; [by subst|by rewrite decide_True].
  - intros k Hki Hkj. rewrite Hwt. by rewrite !decide_False.
Qed.

Lemma pull_up_spec h i fuel :
  heap_wf h → i < size h → i <= fuel → ordered_up (size h) (wt h) i →
  ∃ h', pull_up_loop fuel h i = Ret h' ∧ heap_ok h' ∧ ∀ b, wlookup h' b = wlookup h b.
Proof.
  revert h i. induction fuel as [|fuel IH]; intros h i Hwf Hi Hfuel Hup; cbn [pull_up_loop].
  { assert (i = 0) as -> by lia. rewrite bool_decide_true by done. exists h. split; [done|]. split; [|done]. split; [done|].
    eapply ordered_up_done; [done..|lia]. }
  case_bool_decide as H0.
  { exists h. split; [done|]. split; [|done]. split; [done|]. eapply ordered_up_done; [done..|lia]. }
  fold (parent i). pose proof (parent_lt i ltac:(lia)) as Hp.
  rewrite !heap_weight_spec by (done || lia). cbn [mbind exec_bind]. case_bool_decide as Hle.
  { exists h. split; [done|]. split; [|done]. split; [done|]. by eapply ordered_up_done. }
  destruct (heap_swap_spec h i (parent i) Hwf Hi) as (h' & -> & Hwf' & Hl & Hlen & _ & Hwi & Hwp & Hne); [lia|].
  cbn [mbind exec_bind].
  destruct (IH h' (parent i)) as (h'' & -> & Hok & Hl'); [done|lia..| |].
  { rewrite Hlen. eapply (ordered_up_step _ (wt h) _ i); auto; lia. }
  exists h''. split_and!; [done|done|]. intros b. by rewrite Hl'.
Qed.

Lemma smaller_child_spec h c m :
  heap_wf h → m < size h →
  ∃ m', smaller_child h c m = Ret m' ∧ m' < size h ∧ (m' = m ∨ m' = c) ∧ wt h m' <= wt h m ∧
    (c < size h → wt h m' <= wt h c) ∧ (m' ≠ m → wt h m' < wt h m).
Proof.
  intros Hwf Hm. unfold smaller_child. case_bool_decide as Hc; [|exists m; split_and!; auto; lia].
  rewrite !heap_weight_spec by done. cbn [mbind exec_bind]. eexists. split; [done|]. case_bool_decide; split_and!; auto; lia.
Qed.

Lemma push_down_spec h i fuel :
  heap_wf h → i < size h → size h - i <= fuel → ordered_down (size h) (wt h) i →
  ∃ h', push_down_loop fuel h i = Ret h' ∧ heap_ok h' ∧ ∀ b, wlookup h' b = wlookup h b.
Proof.
  revert h i. induction fuel as [|fuel IH]; intros h i Hwf Hi Hfuel Hdown; [lia|]. cbn [push_down_loop].
  destruct (smaller_child_spec h (2 * i + 1) i Hwf Hi) as (m1 & -> & Hm1 & Heq1 & Hle1 & Hc1 & Hlt1). cbn [mbind exec_bind].
  destruct (smaller_child_spec h (2 * i + 2) m1 Hwf Hm1) as (m & -> & Hm & Heq & Hle & Hc & Hlt). cbn [mbind exec_bind].
  assert (∀ k, 0 < k < size h → parent k = i → wt h m <= wt h k) as Hmin.
  { intros k Hk Hpk. apply parent_children in Hpk as [-> | ->]; lia. }
  case_bool_decide as Him.
  { subst m. exists h. split; [done|]. split; [|done]. split; [done|]. by eapply ordered_down_done. }
  assert (0 < m ∧ parent m = i) as [Hm0 Hpm].
  { destruct Heq as [->| ->]; [destruct Heq1 as [->| ->]; [done|]|]; (split; [lia|]); apply parent_children; lia. }
  destruct (heap_swap_spec h i m Hwf Hi Hm) as (h' & -> & Hwf' & Hl & Hlen & _ & Hwi & Hwm & Hne). cbn [mbind exec_bind].
  pose proof (parent_lt m Hm0). destruct (IH h' m) as (h'' & -> & Hok & Hl'); [done|lia..| |].
  { rewrite Hlen. eapply (ordered_down_step _ (wt h) _ i); auto. destruct (decide (m = m1)); [subst; lia|lia]. }
  exists h''. split_and!; [done|done|]. intros b. by rewrite Hl'.
Qed.

(** ** The operations *)

Lemma peek_min_spec h :
  heap_ok h →
  ∃ r, peek_min h = Ret r ∧
    match r with
    | Some (b, w) => wlookup h b = Some w ∧ ∀ b' w', wlookup h b' = Some w' → w <= w'
    | None => ∀ b, wlookup h b = None
    end.
Proof.
  intros [Hwf Hord]. unfold peek_min. destruct (heap h) as [|b l] eqn:Hh.
  - eexists. split; [done|]. intros b. destruct (wlookup h b) eqn:Hb; [|done].
    destruct (wf_places h Hwf b) as [i Hi]; [by eexists|]. by rewrite Hh in Hi.
  - destruct (wf_heap h Hwf 0 b) as ([w Hw] & _); [by rewrite Hh|]. rewrite (weight_of_spec h b w Hw). eexists. split; [done|].
    split; [done|]. intros b' w' Hw'. destruct (wf_place h b' w' Hwf Hw') as (i & _ & Hi & <-).
    replace w with (wt h 0); [apply (ordered_min (size h)); [by rewrite Hh|by eapply lookup_lt_Some]|]. unfold wt. rewrite Hh. simpl. by rewrite Hw.
Qed.

Lemma heap_is_empty_spec h : heap_wf h → is_empty h = true ↔ ∀ b, wlookup h b = None.
Proof.
  intros Hwf. unfold is_empty. rewrite bool_decide_eq_true. split.
  - intros Hh b. destruct (wlookup h b) eqn:Hb; [|done]. destruct (wf_places h Hwf b) as [i Hi]; [by eexists|]. by rewrite Hh in Hi.
  - intros Hnone. destruct (heap h) as [|b l] eqn:Hh; [done|].
    destruct (wf_heap h Hwf 0 b) as ([w Hw] & _); [by rewrite Hh|]. by rewrite Hnone in Hw.
Qed.

Lemma enumerate_spec h :
  heap_wf h → ∃ l, enumerate h = Ret l ∧ NoDup l.*1 ∧ (∀ b w, (b, w) ∈ l ↔ wlookup h b = Some w) ∧ l.*1 = heap h.
Proof.
  intros Hwf. exists (map (λ b, (b, default 0 (wlookup h b))) (heap h)).
  assert ((map (λ b, (b, default 0 (wlookup h b))) (heap h)).*1 = heap h) as Hfst.
  { rewrite <-list_fmap_compose. apply list_fmap_id. }
  split_and!; [|rewrite Hfst; by apply wf_NoDup| |done].
  - unfold enumerate. assert (∀ b, b ∈ heap h → is_Some (wlookup h b)) as Hall.
    { intros b [i Hi]%list_elem_of_lookup. by apply (wf_heap h Hwf i). }
    clear Hfst. induction (heap h) as [|b l IH]; [done|]. simpl. destruct (Hall b) as [w Hw]; [left|].
    rewrite (weight_of_spec h b w Hw), Hw. cbn [mbind exec_bind]. rewrite IH by (intros; apply Hall; by right). done.
  - intros b w. rewrite list_elem_of_fmap. split.
    + intros (b' & [= -> ->] & [i Hi]%list_elem_of_lookup). destruct (wf_heap h Hwf i b' Hi) as ([w Hw] & _). by rewrite Hw.
    + intros Hw. destruct (wf_places h Hwf b) as [i Hi]; [by eexists|]. exists b. rewrite Hw. split; [done|].
      by eapply list_elem_of_lookup_2.
Qed.

Lemma set_weight_lookup h b x b' :
  b < length (buffer_index_to_weight h) →
  wlookup (set_weight h b x) b' = if decide (b' = b) then x else wlookup h b'.
Proof.
  intros Hb. unfold wlookup, set_weight. simpl. case_decide as Heq.
  - subst. by rewrite list_lookup_insert_eq.
  - by rewrite list_lookup_insert_ne.
Qed.

Lemma wlookup_lt h b w : wlookup h b = Some w → b < length (buffer_index_to_weight h).
Proof. unfold wlookup. intros Hw. apply lookup_lt_is_Some_1. destruct (buffer_index_to_weight h !! b); [by eexists|done]. Qed.

Lemma heap_update_spec h b w0 w :
  heap_ok h → wlookup h b = Some w0 →
  ∃ h', update_buffer_weight h b w = Ret h' ∧ heap_ok h' ∧
    ∀ b', wlookup h' b' = if decide (b' = b) then Some w else wlookup h b'.
Proof.
  intros [Hwf Hord] Hb. unfold update_buffer_weight. rewrite (weight_of_spec h b w0 Hb). cbn [mbind exec_bind].
  case_bool_decide as Heq.
  { subst w0. exists h. split; [done|]. split; [done|]. intros b'. by case_decide as Heq; [subst|]. }
  pose proof (λ b', set_weight_lookup h b (Some w) b' (wlookup_lt _ _ _ Hb)) as Hlook.
  set (h1 := WeightMap.set_weight h b (Some w)) in *. destruct (wf_place h b w0 Hwf Hb) as (i & Hp & Hi & Hwi).
  assert (heap_wf h1) as Hwf1.
  { split; simpl; [rewrite length_insert; apply Hwf| |].
    - intros j b' Hj. destruct (wf_heap h Hwf j b' Hj) as (Hs & Hpl & Hr). split_and!; [|done..].
      rewrite Hlook. case_decide; [by eexists|done].
    - intros b'. rewrite Hlook. case_decide as Hbb; [intros _; subst; by exists i|apply Hwf]. }
  assert (∀ k, wt h1 k = if decide (k = i) then w else wt h k) as Hwt.
  { intros k. unfold wt. change (heap h1) with (heap h). case_decide as Hk.
    - subst k. rewrite Hi. simpl. by rewrite Hlook, decide_True.
    - destruct (heap h !! k) as [b'|] eqn:Hk'; [|done]. simpl. rewrite Hlook. rewrite decide_False; [done|].
      intros ->. by eapply Hk, wf_inj. }
  change (places h1) with (places h). rewrite Hp. cbn [expect mbind exec_bind].
  assert (i < size h) as Hilt by (by eapply lookup_lt_Some).
  destruct (ordered_change (size h) (wt h) (wt h1) i) as (Hup & Hdown & _); [done..|by intros k _ Hk; rewrite Hwt, decide_False|].
  rewrite Hwt, decide_True in Hup, Hdown by done.
  unfold pull_up, push_down. case_bool_decide as Hlt.
  - destruct (pull_up_spec h1 i i) as (h' & -> & Hok & Hl); [done|done|done|apply Hup; lia|].
    exists h'. split; [done|]. split; [done|]. intros b'. by rewrite Hl.
  - destruct (push_down_spec h1 i (S (size h1))) as (h' & -> & Hok & Hl); [done|done|lia|apply Hdown; lia|].
    exists h'. split; [done|]. split; [done|]. intros b'. by rewrite Hl.
Qed.

(** A heap without its last element, [b] *)
Lemma pop_spec h b last :
  heap_wf h → size h = S last → heap h !! last = Some b →
  let h' := WeightMap.set_weight (mkBufferWeightMap (take last (heap h)) (buffer_index_to_weight h) (places h)) b None in
  heap_wf h' ∧ (∀ b', wlookup h' b' = if decide (b' = b) then None else wlookup h b') ∧ size h' = last ∧
  (∀ k, k < last → wt h' k = wt h k).
Proof.
  intros Hwf Hlen Hlast h'. destruct (wf_heap h Hwf last b Hlast) as ([w Hw] & Hp & _).
  assert (∀ b', wlookup h' b' = if decide (b' = b) then None else wlookup h b') as Hlook.
  { intros b'. unfold h'. rewrite set_weight_lookup; [done|]. simpl. by eapply wlookup_lt. }
  assert (∀ k, k < last → heap h' !! k = heap h !! k) as Hheap.
  { intros k Hk. unfold h'. simpl. by rewrite lookup_take_lt. }
  split_and!; [|done|simpl; rewrite length_take; lia|].
  - split; [simpl; rewrite length_insert; apply Hwf| |].
    + intros i b' Hi. assert (i < last) as Hil.
      { apply lookup_lt_Some in Hi. simpl in Hi. rewrite length_take in Hi. lia. }
      rewrite Hheap in Hi by done. destruct (wf_heap h Hwf i b' Hi) as (Hs & Hpl & Hr). split_and!; [|done..].
      rewrite Hlook. rewrite decide_False; [done|]. intros ->. pose proof (wf_inj h i last b Hwf Hi Hlast). lia.
    + intros b'. rewrite Hlook. case_decide as Hbb; [intros [? [=]]|]. intros Hs. destruct (wf_places h Hwf b' Hs) as [i Hi].
      exists i. rewrite Hheap; [done|]. assert (i < size h) by (by eapply lookup_lt_Some).
      assert (i ≠ last) by congruence. lia.
  - intros k Hk. unfold wt. rewrite Hheap by done. destruct (heap h !! k) as [b'|] eqn:Hb'; [|done]. simpl.
    rewrite Hlook. rewrite decide_False; [done|]. intros ->. pose proof (wf_inj h k last b Hwf Hb' Hlast). lia.
Qed.

Lemma remove_heap_index_spec h b w i :
  heap_ok h → wlookup h b = Some w → heap h !! i = Some b →
  ∃ h', remove_heap_index h i b = Ret h' ∧ heap_ok h' ∧
    ∀ b', wlookup h' b' = if decide (b' = b) then None else wlookup h b'.
Proof.
  intros [Hwf Hord] Hb Hi. unfold remove_heap_index. destruct (wf_heap h Hwf i b Hi) as (_ & Hp & _).
  assert (wt h i = w) as Hwi by (unfold wt; rewrite Hi; simpl; by rewrite Hb).
  rewrite !bool_decide_true by done. cbn [assert mbind exec_bind].
  assert (i < size h) as Hilt by (by eapply lookup_lt_Some). destruct (size h) as [|last] eqn:Hlen; [lia|].
  cbn [decrement mbind exec_bind]. destruct (decide (i = last)) as [->|Hne].
  - rewrite !bool_decide_false by (intros []; done). cbn [mbind exec_bind].
    destruct (pop_spec h b last Hwf Hlen Hi) as (Hwf' & Hl & Hs & Hk).
    rewrite (weight_of_spec _ b w) by done. cbn [mbind exec_bind]. eexists. split; [done|]. split; [|done].
    split; [done|]. rewrite Hs. intros k Hk'. rewrite !Hk by (pose proof (parent_lt k); lia). apply Hord. lia.
  - rewrite !bool_decide_true by done.
    destruct (heap_swap_spec h i last Hwf) as (h1 & -> & Hwf1 & Hl1 & Hlen1 & Hh1 & Hwi1 & _ & Hne1); [lia..|].
    cbn [mbind exec_bind]. assert (heap h1 !! last = Some b) as Hlast1 by (rewrite Hh1, decide_False, decide_True by done; done).
    destruct (pop_spec h1 b last Hwf1 ltac:(lia) Hlast1) as (Hwf2 & Hl2 & Hs2 & Hk2).
    rewrite (weight_of_spec _ b w) by (by rewrite <-Hb, <-Hl1). cbn [mbind exec_bind].
    set (h2 := WeightMap.set_weight _ b None) in *.
    rewrite (heap_weight_spec h2 i) by (done || lia). cbn [mbind exec_bind].
    destruct (ordered_change last (wt h) (wt h2) i) as (Hup & Hdown & Heq); [lia| | |].
    { intros k Hk. apply Hord. lia. }
    { intros k Hk Hki. rewrite Hk2, Hne1 by lia. done. }
    rewrite Hwi in Hup, Hdown, Heq. rewrite <-Hs2 in Hup, Hdown, Heq.
    assert (∀ h', (∀ b', wlookup h' b' = wlookup h2 b') →
            ∀ b', wlookup h' b' = if decide (b' = b) then None else wlookup h b') as Hfin.
    { intros h' Hl b'. rewrite Hl, Hl2. case_decide; [done|]. apply Hl1. }
    unfold pull_up, push_down. case_bool_decide as Hlt; [|case_bool_decide as Hgt].
    + destruct (pull_up_spec h2 i i) as (h' & -> & Hok & Hl); [done|lia|done|apply Hup; lia|].
      exists h'. split; [done|]. split; [done|]. by apply Hfin.
    + destruct (push_down_spec h2 i (S (size h2))) as (h' & -> & Hok & Hl); [done|lia..|apply Hdown; lia|].
      exists h'. split; [done|]. split; [done|]. by apply Hfin.
    + exists h2. split; [done|]. split; [split; [done|apply Heq; lia]|]. by apply Hfin.
Qed.

Lemma heap_remove_spec h b w :
  heap_ok h → wlookup h b = Some w →
  ∃ h', remove_buffer_weight h b = Ret (h', w) ∧ heap_ok h' ∧
    ∀ b', wlookup h' b' = if decide (b' = b) then None else wlookup h b'.
Proof.
  intros Hok Hb. pose proof Hok as [Hwf Hord]. unfold remove_buffer_weight. rewrite (weight_of_spec h b w Hb).
  cbn [mbind exec_bind]. destruct (wf_place h b w Hwf Hb) as (i & Hp & Hi & _). rewrite Hp. cbn [expect mbind exec_bind].
  rewrite to_u16_ok by (by apply (wf_heap h Hwf i b)). cbn [mbind exec_bind].
  destruct (remove_heap_index_spec h b w i) as (h' & -> & Hok' & Hl); [done..|]. by exists h'.
Qed.

(** There are fewer buffers than indices. *)
Lemma heap_capacity h b :
  heap_wf h → wlookup h b = None → (Z.of_nat b <= 65535)%Z → (Z.of_nat (size h) <= 65535)%Z.
Proof.
  intros Hwf Hb Hr. assert (S (size h) <= Z.to_nat 65536); [|lia].
  change (S (size h)) with (length (b :: heap h)). rewrite <-(length_seq (Z.to_nat 65536) 0).
  apply submseteq_length, NoDup_submseteq.
  - apply NoDup_cons. split; [|by apply wf_NoDup]. intros [i Hi]%list_elem_of_lookup.
    destruct (wf_heap h Hwf i b Hi) as ([w Hw] & _). congruence.
  - intros b' Hb'. apply elem_of_seq. apply elem_of_cons in Hb' as [->|[i Hi]%list_elem_of_lookup]; [lia|].
    destruct (wf_heap h Hwf i b' Hi) as (_ & _ & Hr'). lia.
Qed.

(** The heap with room for buffer [b] *)
Lemma resized_spec h b :
  heap_wf h →
  let '(weights, pl) :=
    if bool_decide (length (buffer_index_to_weight h) < b + 1)
    then (vec_resize (buffer_index_to_weight h) (b + 1) None, vec_resize (places h) (b + 1) 0)
    else (buffer_index_to_weight h, places h) in
  length weights = length pl ∧ b < length weights ∧ (∀ b', mjoin (weights !! b') = wlookup h b') ∧
  (∀ b' i, places h !! b' = Some i → pl !! b' = Some i).
Proof.
  intros Hwf. pose proof (wf_length h Hwf) as Hlen. case_bool_decide as Hlt; [|split_and!; auto; lia].
  unfold vec_resize. rewrite !length_app, !length_replicate. split_and!; [lia|lia| |].
  - intros b'. unfold wlookup. destruct (decide (b' < length (buffer_index_to_weight h))) as [Hb'|Hb'].
    + by rewrite lookup_app_l.
    + rewrite lookup_app_r by lia. rewrite (lookup_ge_None_2 (buffer_index_to_weight h)) by lia.
      destruct (replicate _ None !! _) as [x|] eqn:Hx; [|done]. by apply lookup_replicate in Hx as [-> _].
  - intros b' i Hi. by apply lookup_app_l_Some.
Qed.

Lemma heap_insert_spec h b w :
  heap_ok h → wlookup h b = None → (Z.of_nat b <= 65535)%Z →
  ∃ h', insert_buffer_weight h b w = Ret h' ∧ heap_ok h' ∧
    ∀ b', wlookup h' b' = if decide (b' = b) then Some w else wlookup h b'.
Proof.
  intros [Hwf Hord] Hb Hr. unfold insert_buffer_weight. rewrite (to_u16_ok b) by done. cbn [mbind exec_bind].
  pose proof (resized_spec h b Hwf) as Hres.
  destruct (if bool_decide _ then _ else _) as [weights pl]. destruct Hres as (Hlen & Hblt & Hw & Hpl).
  destruct (lookup_lt_is_Some_2 weights b Hblt) as [x Hx]. rewrite Hx. cbn [expect mbind exec_bind].
  assert (x = None) as -> by (specialize (Hw b); rewrite Hx, Hb in Hw; by destruct x).
  rewrite bool_decide_true by done. cbn [assert mbind exec_bind].
  rewrite to_u16_ok by (by eapply heap_capacity). cbn [mbind exec_bind]. unfold vec_set.
  destruct (lookup_lt_is_Some_2 pl b) as [y ->]; [lia|]. cbn [expect mbind exec_bind].
  set (h1 := mkBufferWeightMap _ _ _). set (n := size h).
  assert (∀ b', wlookup h1 b' = if decide (b' = b) then Some w else wlookup h b') as Hlook.
  { intros b'. unfold wlookup at 1. simpl. case_decide as Hbb; [subst; by rewrite list_lookup_insert_eq|].
    rewrite list_lookup_insert_ne by done. apply Hw. }
  assert (∀ i b', i < n → heap h !! i = Some b' → b' ≠ b) as Hne.
  { intros i b' _ Hi ->. destruct (wf_heap h Hwf i b Hi) as ([w' Hw'] & _). congruence. }
  assert (∀ i, i < n → heap h1 !! i = heap h !! i) as Hold by (intros i Hi; simpl; by rewrite lookup_app_l).
  assert (heap h1 !! n = Some b) as Hnew by (simpl; rewrite lookup_app_r by done; by rewrite Nat.sub_diag).
  assert (size h1 = S n) as Hsize by (simpl; rewrite length_app; simpl; lia).
  assert (heap_wf h1) as Hwf1.
  { split; [simpl; by rewrite !length_insert| |].
    - intros i b' Hi. assert (i < S n) as Hin by (rewrite <-Hsize; by eapply lookup_lt_Some). rewrite Hlook.
      destruct (decide (i = n)) as [->|Hin'].
      + rewrite Hnew in Hi. simplify_eq. rewrite decide_True by done. simpl. rewrite list_lookup_insert_eq by lia. by split; [eexists|].
      + rewrite Hold in Hi by lia. pose proof (Hne i b' ltac:(lia) Hi). rewrite decide_False by done.
        destruct (wf_heap h Hwf i b' Hi) as (Hs & Hp & Hr'). simpl. rewrite list_lookup_insert_ne by done. auto.
    - intros b'. rewrite Hlook. case_decide as Hbb; [intros _; subst; by exists n|]. intros Hs.
      destruct (wf_places h Hwf b' Hs) as [i Hi]. exists i. rewrite Hold; [done|]. by eapply lookup_lt_Some. }
  assert (∀ k, k < n → wt h1 k = wt h k) as Hwt.
  { intros k Hk. unfold wt. rewrite Hold by done. destruct (heap h !! k) as [b'|] eqn:Hb'; [|done]. simpl.
    rewrite Hlook, decide_False; [done|]. by eapply Hne. }
  destruct (pull_up_spec h1 n n) as (h' & Hpull & Hok & Hl); [done|lia|done| |].
  { rewrite Hsize. split.
    - intros k Hk Hkn. pose proof (parent_lt k ltac:(lia)). rewrite !Hwt by lia. apply Hord. fold n. lia.
    - intros k Hk _ Hpk. pose proof (parent_lt k ltac:(lia)). lia. }
  exists h'. split; [exact Hpull|]. split; [done|]. intros b'. by rewrite Hl.
Qed.

Lemma heap_empty_ok : heap_ok empty ∧ ∀ b, wlookup empty b = None.
Proof. split; [|done]. split; [split; [done|by intros i b|by intros b [w Hw]]|]. intros k. simpl. lia. Qed.
End heap.

(** * Refinement of a finite map *)

Inductive WeightOp := OpInsert (b w : nat) | OpUpdate (b w : nat) | OpRemove (b : nat) | OpPopMin.

(** The promise: a finite map from buffers to weights *)
Inductive weight_spec (M : gmap nat nat) : WeightOp → option (nat * nat) → gmap nat nat → Prop :=
  | spec_insert b w : M !! b = None → (Z.of_nat b <= 65535)%Z → weight_spec M (OpInsert b w) None (<[b := w]> M)
  | spec_update b w : is_Some (M !! b) → weight_spec M (OpUpdate b w) None (<[b := w]> M)
  | spec_remove b w : M !! b = Some w → weight_spec M (OpRemove b) (Some (b, w)) (delete b M)
  | spec_pop b w : M !! b = Some w → (∀ b' w', M !! b' = Some w' → w <= w') → weight_spec M OpPopMin (Some (b, w)) (delete b M).

Definition weight_step (h : BufferWeightMap) (op : WeightOp) : exec (BufferWeightMap * option (nat * nat)) :=
  match op with
  | OpInsert b w => h ← WeightMap.insert_buffer_weight h b w; Ret (h, None)
  | OpUpdate b w => h ← WeightMap.update_buffer_weight h b w; Ret (h, None)
  | OpRemove b => '(h, w) ← WeightMap.remove_buffer_weight h b; Ret (h, Some (b, w))
  | OpPopMin => min ← WeightMap.peek_min h; min ← expect min; h ← WeightMap.remove_min h; Ret (h, Some min)
  end.

Definition enabled (M : gmap nat nat) (op : WeightOp) : Prop :=
  match op with
  | OpInsert b _ => M !! b = None ∧ (Z.of_nat b <= 65535)%Z
  | OpUpdate b _ | OpRemove b => is_Some (M !! b)
  | OpPopMin => M ≠ ∅
  end.

(** The heap [h] stands for the map [M]. *)
Definition represents (h : BufferWeightMap) (M : gmap nat nat) : Prop := heap_ok h ∧ ∀ b, wlookup h b = M !! b.

Lemma represents_insert h h' M b w :
  represents h M → heap_ok h' → (∀ b', wlookup h' b' = if decide (b' = b) then Some w else wlookup h b') →
  represents h' (<[b := w]> M).
Proof.
  intros [_ Hl] Hok Hl'. split; [done|]. intros b'. rewrite Hl', Hl. case_decide as Hb.
  - subst. by rewrite lookup_insert_eq.
  - by rewrite lookup_insert_ne.
Qed.
Lemma represents_delete h h' M b :
  represents h M → heap_ok h' → (∀ b', wlookup h' b' = if decide (b' = b) then None else wlookup h b') →
  represents h' (delete b M).
Proof.
  intros [_ Hl] Hok Hl'. split; [done|]. intros b'. rewrite Hl', Hl. case_decide as Hb.
  - subst. by rewrite lookup_delete_eq.
  - by rewrite lookup_delete_ne.
Qed.
Lemma represents_empty h M : represents h M → WeightMap.is_empty h = true ↔ M = ∅.
Proof.
  intros [[Hwf _] Hl]. rewrite heap_is_empty_spec by done. split.
  - intros Hn. apply map_empty. intros b. by rewrite <-Hl.
  - intros -> b. rewrite Hl. apply lookup_empty.
Qed.

Lemma weight_of_missing h b : wlookup h b = None → WeightMap.weight_of h b = Panic.
Proof. unfold wlookup, WeightMap.weight_of. by destruct (buffer_index_to_weight h !! b) as [[]|]. Qed.

(** A step that the map allows *)
Lemma weight_step_enabled h M op :
  represents h M → enabled M op → ∃ h' r M', weight_step h op = Ret (h', r) ∧ weight_spec M op r M' ∧ represents h' M'.
Proof.
  intros Hrep Hen. pose proof Hrep as [Hok Hl]. destruct op as [b w|b w|b|]; simpl in *.
  - destruct Hen as [Hb Hr]. destruct (heap_insert_spec h b w Hok) as (h' & -> & Hok' & Hl'); [by rewrite Hl|done|].
    eexists _, _, _. split; [done|]. split; [by constructor|by eapply represents_insert].
  - destruct Hen as [w0 Hb]. rewrite <-Hl in Hb. destruct (heap_update_spec h b w0 w Hok Hb) as (h' & -> & Hok' & Hl').
    eexists _, _, _. split; [done|]. split; [constructor; rewrite <-Hl; by eexists|by eapply represents_insert].
  - destruct Hen as [w Hb]. rewrite <-Hl in Hb. destruct (heap_remove_spec h b w Hok Hb) as (h' & -> & Hok' & Hl').
    eexists _, _, _. split; [done|]. split; [constructor; by rewrite <-Hl|by eapply represents_delete].
  - destruct (peek_min_spec h Hok) as (min & Hpeek & Hmin). rewrite Hpeek. destruct min as [[b w]|].
    + destruct Hmin as [Hb Hle]. cbn [mbind exec_bind expect]. unfold WeightMap.remove_min.
      assert (heap_index_to_buffer_index h !! 0 = Some b) as H0.
      { unfold WeightMap.peek_min in Hpeek. destruct (heap_index_to_buffer_index h) as [|b0 l]; [done|].
        destruct (WeightMap.weight_of h b0); simpl in Hpeek; by simplify_eq. }
      rewrite H0. cbn [expect mbind exec_bind]. destruct (remove_heap_index_spec h b w 0 Hok Hb H0) as (h' & -> & Hok' & Hl').
      eexists _, _, _. split; [done|]. split; [|by eapply represents_delete]. constructor; [by rewrite <-Hl|]. intros b' w'. rewrite <-Hl. apply Hle.
    + destruct Hen. apply map_empty. intros b. by rewrite <-Hl.
Qed.

(** A step that the map forbids *)
Lemma weight_step_disabled h M op : represents h M → ¬ enabled M op → weight_step h op = Panic.
Proof.
  intros Hrep Hen. pose proof Hrep as [Hok Hl]. destruct op as [b w|b w|b|]; simpl in *.
  - unfold WeightMap.insert_buffer_weight. destruct (decide (Z.of_nat b <= 65535)%Z) as [Hr|Hr].
    2:{ assert (to_u16 b = Panic) as -> by (unfold to_u16; by rewrite (bool_decide_false _ Hr)). done. }
    rewrite (to_u16_ok b) by done. cbn [mbind exec_bind].
    pose proof (resized_spec h b (proj1 Hok)) as Hres.
    destruct (if bool_decide _ then _ else _) as [weights pl]. destruct Hres as (_ & Hblt & Hw & _).
    destruct (lookup_lt_is_Some_2 weights b Hblt) as [x Hx]. rewrite Hx. cbn [expect mbind exec_bind].
    rewrite bool_decide_false; [done|]. intros ->. apply Hen. split; [|done]. specialize (Hw b). rewrite Hx in Hw. by rewrite <-Hl, <-Hw.
  - unfold WeightMap.update_buffer_weight. rewrite weight_of_missing; [done|]. rewrite Hl. by apply eq_None_not_Some.
  - unfold WeightMap.remove_buffer_weight. rewrite weight_of_missing; [done|]. rewrite Hl. by apply eq_None_not_Some.
  - destruct (peek_min_spec h Hok) as (min & -> & Hmin). destruct min as [[b w]|]; [|done]. destruct Hmin as [Hb _].
    destruct Hen. intros ->. rewrite Hl, lookup_empty in Hb. done.
Qed.

(** C8. The heap of buffers by weight refines a finite map: it stands for the
    empty map at first, every operation that the map allows gives the result and
    the state of the map, every other panics, and the least weight, the emptiness
    test and the enumeration are those of the map. *)
Theorem weight_map_refines h M :
  represents WeightMap.empty ∅ ∧
  (represents h M →
   (∀ op, enabled M op → ∃ h' r M', weight_step h op = Ret (h', r) ∧ weight_spec M op r M' ∧ represents h' M') ∧
   (∀ op, ¬ enabled M op → weight_step h op = Panic) ∧
   (WeightMap.is_empty h = true ↔ M = ∅) ∧
   (∃ min, WeightMap.peek_min h = Ret min ∧
      match min with
      | Some (b, w) => M !! b = Some w ∧ ∀ b' w', M !! b' = Some w' → w <= w'
      | None => M = ∅
      end) ∧
   ∃ l, WeightMap.enumerate h = Ret l ∧ l ≡ₚ map_to_list M).
Proof.
  split; [split; [apply heap_empty_ok|intros b; by rewrite (proj2 heap_empty_ok b), lookup_empty]|].
  intros Hrep. pose proof Hrep as [Hok Hl]. split_and!.
  - intros op. by apply weight_step_enabled.
  - intros op. by apply weight_step_disabled.
  - by apply represents_empty.
  - destruct (peek_min_spec h Hok) as (min & -> & Hmin). exists min. split; [done|]. destruct min as [[b w]|].
    + setoid_rewrite <-Hl. done.
    + apply map_empty. intros b. by rewrite <-Hl.
  - destruct (enumerate_spec h (proj1 Hok)) as (l & -> & Hnd & Hin & _). exists l. split; [done|].
    apply NoDup_Permutation; [by eapply NoDup_fmap_1|apply NoDup_map_to_list|]. intros [b w]. by rewrite elem_of_map_to_list, Hin, Hl.
Qed.

Lemma weight_map_refines_witness :
  ∃ h h', weight_step WeightMap.empty (OpInsert 3 5) = Ret (h, None) ∧ weight_step h OpPopMin = Ret (h', Some (3, 5)).
Proof.
  destruct (weight_map_refines WeightMap.empty ∅) as [Hempty Hsteps].
  destruct (proj1 (Hsteps Hempty) (OpInsert 3 5)) as (h & r & M & Hh & Hspec & Hrep); [split; [apply lookup_empty|lia]|].
  inversion Hspec; subst. destruct (weight_map_refines h (<[3 := 5]> ∅)) as [_ Hsteps'].
  destruct (proj1 (Hsteps' Hrep) OpPopMin) as (h' & r & M & Hh' & Hspec' & _); [apply insert_non_empty|].
  inversion Hspec' as [| | |b w Hb]; subst. apply lookup_insert_Some in Hb as [[<- <-]|[_ Hb]]; [|by rewrite lookup_empty in Hb].
  exists h, h'. by split.
Defined.
