(* ===== verification/RaptorMatrixProps.v ===== *)
(** Elimination with full pivoting: the row operations are in range and between
    different rows, and they leave at most one symbol in each row, or a row without
    symbols. *)

From S2P Require Import Prelude Types ValidatorSet Crypto RaptorTables RaptorCode RaptorCodeProps RaptorEncoderProps.
From S2P Require Import RaptorStructs RaptorHeapProps.

#[local] Open Scope nat_scope.

(** * [foldM] *)

Lemma foldM_app {A B} (f : B → A → exec B) b l k : foldM f b (l ++ k) = foldM f b l ≫= λ b, foldM f b k.
Proof. revert b. induction l as [|x l IH]; intros b; [done|]. simpl. destruct (f b x); simpl; auto. Qed.

(** A loop keeps an invariant that the index of the element may occur in. *)
Lemma foldM_inv {A B} (P : nat → B → Prop) (f : B → A → exec B) b l :
  P 0 b → (∀ i b x, l !! i = Some x → P i b → ∃ b', f b x = Ret b' ∧ P (S i) b') →
  ∃ b', foldM f b l = Ret b' ∧ P (length l) b'.
Proof.
  revert P b. induction l as [|x l IH]; intros P b H0 Hstep; [by exists b|]. simpl.
  destruct (Hstep 0 b x) as (b1 & -> & H1); [done..|]. cbn [mbind exec_bind].
  apply (IH (λ i, P (S i))); [done|]. intros i b' x' Hx'. by apply (Hstep (S i)).
Qed.

(** * Permutations *)

Record perm_ok (n : nat) (l : list nat) : Prop := {
  perm_length : length l = n;
  perm_range : ∀ i v, l !! i = Some v → v < n;
  perm_surj : ∀ v, v < n → ∃ i, l !! i = Some v;
  perm_inj : ∀ i j v, l !! i = Some v → l !! j = Some v → i = j;
}.

Lemma perm_ok_seq n : perm_ok n (seq 0 n).
Proof.
  split; [apply length_seq| | |].
  - intros i v Hi%lookup_seq. lia.
  - intros v Hv. exists v. rewrite lookup_seq. lia.
  - intros i j v Hi%lookup_seq Hj%lookup_seq. lia.
Qed.

Definition at_index (l : list nat) (i : nat) : nat := default 0 (l !! i).

Section perm.
Context (n : nat) (p : RCPermutation) (Hp : perm_ok n (virt_to_phys p)).

Lemma perm_at i : i < n → virt_to_phys p !! i = Some (at_index (virt_to_phys p) i).
Proof.
  intros Hi. unfold at_index. destruct (lookup_lt_is_Some_2 (virt_to_phys p) i) as [v Hv]; [rewrite (perm_length n) by done; lia|].
  by rewrite Hv.
Qed.
Lemma perm_at_lt i : i < n → at_index (virt_to_phys p) i < n.
Proof. intros Hi. eapply perm_range; [done|by apply perm_at]. Qed.
Lemma perm_at_inj i j : i < n → j < n → at_index (virt_to_phys p) i = at_index (virt_to_phys p) j → i = j.
Proof. intros Hi Hj Heq. eapply perm_inj; [done|by apply perm_at|]. rewrite Heq. by apply perm_at. Qed.

Lemma perm_index_spec i : i < n → permutation_index p i = Ret (at_index (virt_to_phys p) i).
Proof. intros Hi. unfold permutation_index. by rewrite perm_at. Qed.

Lemma perm_swap_spec a b :
  length (phys_to_virt p) = n → a < n → b < n →
  ∃ p', permutation_swap p a b = Ret p' ∧ perm_ok n (virt_to_phys p') ∧ length (phys_to_virt p') = n ∧
    ∀ k, at_index (virt_to_phys p') k =
         at_index (virt_to_phys p) (if decide (k = a) then b else if decide (k = b) then a else k).
Proof.
  intros Hlen Ha Hb. unfold permutation_swap. pose proof (perm_length n _ Hp) as Hlv.
  destruct (vec_swap_spec (virt_to_phys p) a b) as (l & -> & Hl & Hlk); [lia..|]. cbn [mbind exec_bind].
  assert (∀ k, l !! k = virt_to_phys p !! (if decide (k = a) then b else if decide (k = b) then a else k)) as Hlk'.
  { intros k. rewrite Hlk. by repeat case_decide. }
  assert (perm_ok n l) as Hok.
  { split; [lia| | |].
    - intros i v. rewrite Hlk'. by apply perm_range.
    - intros v Hv. destruct (perm_surj n _ Hp v Hv) as [i Hi].
      exists (if decide (i = a) then b else if decide (i = b) then a else i). rewrite Hlk'. by repeat case_decide; simplify_eq.
    - intros i j v. rewrite !Hlk'. intros Hi Hj. pose proof (perm_inj n _ Hp _ _ _ Hi Hj).
      repeat case_decide; simplify_eq; congruence || done. }
  destruct (lookup_lt_is_Some_2 l a) as [va Hva]; [lia|]. destruct (lookup_lt_is_Some_2 l b) as [vb Hvb]; [lia|].
  rewrite Hva, Hvb. cbn [expect mbind exec_bind].
  destruct (vec_swap_spec (phys_to_virt p) va vb) as (w & -> & Hw & _); [rewrite Hlen; by eapply perm_range..|]. cbn [mbind exec_bind].
  eexists. split; [done|]. simpl. split_and!; [done|lia|]. intros k. unfold at_index. by rewrite Hlk'.
Qed.
End perm.

(** * Matrices *)

(** Matrices as functions, and the effect of row operations. *)
Definition row_op (M : nat → nat → bool) (op : nat * nat) : nat → nat → bool :=
  λ x y, if decide (x = op.1) then xorb (M x y) (M op.2 y) else M x y.
Definition row_ops (M : nat → nat → bool) (ops : list (nat * nat)) : nat → nat → bool := foldl row_op M ops.

Definition entry (m : DenseMatrix) (i j : nat) : bool := default false (data m !! (i * ncols m + j)).

Section matrix.
Context (nr nc : nat).

Definition dense_ok (m : DenseMatrix) : Prop := nrows m = nr ∧ ncols m = nc ∧ length (data m) = nr * nc.

Lemma cell_lt i j : i < nr → j < nc → i * nc + j < nr * nc.
Proof. intros Hi Hj. assert ((i + 1) * nc <= nr * nc) by (apply Nat.mul_le_mono_r; lia). lia. Qed.
Lemma cell_inj i j i' j' : j < nc → j' < nc → i * nc + j = i' * nc + j' → i = i' ∧ j = j'.
Proof. intros Hj Hj' Heq. assert (i = i') as -> by nia. lia. Qed.

Lemma matrix_get_spec m i j : dense_ok m → i < nr → j < nc → matrix_get m i j = Ret (entry m i j).
Proof.
  intros (Hr & Hc & Hl) Hi Hj. unfold matrix_get, entry. rewrite Hc.
  destruct (lookup_lt_is_Some_2 (data m) (i * nc + j)) as [x ->]; [rewrite Hl; by apply cell_lt|done].
Qed.

Lemma matrix_set_spec m i j x :
  dense_ok m → i < nr → j < nc →
  ∃ m', matrix_set m i j x = Ret m' ∧ dense_ok m' ∧
    ∀ i' j', j' < nc → entry m' i' j' = if decide (i' = i ∧ j' = j) then x else entry m i' j'.
Proof.
  intros (Hr & Hc & Hl) Hi Hj. unfold matrix_set, vec_set. rewrite Hc. pose proof (cell_lt i j Hi Hj) as Hlt.
  destruct (lookup_lt_is_Some_2 (data m) (i * nc + j)) as [y ->]; [lia|]. cbn [expect mbind exec_bind].
  eexists. split; [done|]. split; [by split_and!; simpl; rewrite ?length_insert|]. intros i' j' Hj'. unfold entry. simpl. rewrite Hc.
  case_decide as Heq.
  - destruct Heq as [-> ->]. by rewrite list_lookup_insert_eq by lia.
  - rewrite list_lookup_insert_ne; [done|]. intros Hcell. apply Heq. by apply cell_inj in Hcell as [-> ->].
Qed.

(** Row [x] plus row [y] *)
Lemma sub_assign_spec m x y :
  dense_ok m → x < nr → y < nr → x ≠ y →
  ∃ m', foldM (Matrix.sub_assign_cell x y) m (seq 0 nc) = Ret m' ∧ dense_ok m' ∧
    ∀ i j, j < nc → entry m' i j = row_op (entry m) (x, y) i j.
Proof.
  intros Hok Hx Hy Hne.
  destruct (foldM_inv (λ k m', dense_ok m' ∧ ∀ i j, j < nc →
      entry m' i j = if decide (j < k) then row_op (entry m) (x, y) i j else entry m i j)
      (Matrix.sub_assign_cell x y) m (seq 0 nc)) as (m' & Hm' & Hok' & Hentry).
  - split; [done|]. intros i j _. by rewrite decide_False by lia.
  - intros k m1 k' Hk [Hok1 He1]. apply lookup_seq in Hk as [-> Hk]. simpl. unfold Matrix.sub_assign_cell.
    rewrite !matrix_get_spec by done. cbn [mbind exec_bind].
    destruct (matrix_set_spec m1 x k (xorb (entry m1 x k) (entry m1 y k))) as (m2 & -> & Hok2 & He2); [done..|].
    exists m2. split; [done|]. split; [done|]. intros i j Hj. rewrite He2 by done. rewrite !He1 by done.
    rewrite !(decide_False (P := k < k)) by lia. unfold row_op. simpl.
    destruct (decide (i = x)) as [->|], (decide (j = k)) as [->|]; repeat case_decide; done || lia || tauto.
  - exists m'. split; [done|]. split; [done|]. intros i j Hj. rewrite Hentry by done. rewrite length_seq. by rewrite decide_True.
Qed.

(** ** Matrices with exchanged rows and columns *)

Record swap_ok (a : RCSwapMatrix) : Prop := {
  swap_dense : dense_ok (mat a);
  swap_row : perm_ok nr (virt_to_phys (row_permutation a));
  swap_row_length : length (phys_to_virt (row_permutation a)) = nr;
  swap_column : perm_ok nc (virt_to_phys (column_permutation a));
  swap_column_length : length (phys_to_virt (column_permutation a)) = nc;
}.

Definition prow (a : RCSwapMatrix) : nat → nat := at_index (virt_to_phys (row_permutation a)).
Definition pcol (a : RCSwapMatrix) : nat → nat := at_index (virt_to_phys (column_permutation a)).
Definition cell (a : RCSwapMatrix) (i j : nat) : bool := entry (mat a) (prow a i) (pcol a j).

Lemma get_spec a i j : swap_ok a → i < nr → j < nc → Matrix.cell_at a i j = Ret (cell a i j).
Proof.
  intros [Hd Hr _ Hc _] Hi Hj. unfold Matrix.cell_at. rewrite (perm_index_spec nr (row_permutation a)) by done. cbn [mbind exec_bind].
  rewrite (perm_index_spec nc (column_permutation a)) by done. cbn [mbind exec_bind]. apply matrix_get_spec; [done| |]; by apply perm_at_lt.
Qed.

Lemma row_sub_assign_spec a i j :
  swap_ok a → i < nr → j < nr → i ≠ j →
  ∃ a', Matrix.row_sub_assign a i j = Ret a' ∧ swap_ok a' ∧ prow a' = prow a ∧ pcol a' = pcol a ∧
    (∀ x y, y < nc → entry (mat a') x y = row_op (entry (mat a)) (prow a i, prow a j) x y) ∧
    (∀ x y, x < nr → y < nc → cell a' x y = row_op (cell a) (i, j) x y).
Proof.
  intros Hok Hi Hj Hne. pose proof Hok as [Hd Hr Hrl Hc Hcl]. unfold Matrix.row_sub_assign.
  rewrite !(perm_index_spec nr) by done. cbn [mbind exec_bind]. fold (prow a i) (prow a j).
  assert (ncols (mat a) = nc) as -> by apply Hd.
  destruct (sub_assign_spec (mat a) (prow a i) (prow a j)) as (m' & -> & Hd' & He); [done|by apply perm_at_lt..| |].
  { intros Heq. by apply Hne, (perm_at_inj nr (row_permutation a) Hr). }
  cbn [mbind exec_bind]. eexists. split; [done|]. split_and!; [by split|done|done|done|].
  intros x y Hx Hy. unfold cell. simpl. unfold prow, pcol. simpl. rewrite He by (by apply perm_at_lt). unfold row_op. simpl.
  destruct (decide (x = i)) as [->|Hxi]; [by rewrite decide_True|]. rewrite decide_False; [done|].
  intros Heq. by apply Hxi, (perm_at_inj nr (row_permutation a) Hr).
Qed.

Lemma swap_rows_spec a i j :
  swap_ok a → i < nr → j < nr →
  ∃ a', Matrix.swap_rows a i j = Ret a' ∧ swap_ok a' ∧ mat a' = mat a ∧
    ∀ x y, cell a' x y = cell a (if decide (x = i) then j else if decide (x = j) then i else x) y.
Proof.
  intros [Hd Hr Hrl Hc Hcl] Hi Hj. unfold Matrix.swap_rows.
  destruct (perm_swap_spec nr (row_permutation a) Hr i j) as (p' & -> & Hp' & Hl' & Hat); [done..|]. cbn [mbind exec_bind].
  eexists. split; [done|]. split; [by split|]. split; [done|]. intros x y. unfold cell, prow, pcol. simpl. by rewrite Hat.
Qed.
Lemma swap_columns_spec a i j :
  swap_ok a → i < nc → j < nc →
  ∃ a', Matrix.swap_columns a i j = Ret a' ∧ swap_ok a' ∧ mat a' = mat a ∧ prow a' = prow a ∧
    ∀ x y, cell a' x y = cell a x (if decide (y = i) then j else if decide (y = j) then i else y).
Proof.
  intros [Hd Hr Hrl Hc Hcl] Hi Hj. unfold Matrix.swap_columns.
  destruct (perm_swap_spec nc (column_permutation a) Hc i j) as (p' & -> & Hp' & Hl' & Hat); [done..|]. cbn [mbind exec_bind].
  eexists. split; [done|]. split; [by split|]. split; [done|]. split; [done|]. intros x y. unfold cell, prow, pcol. simpl. by rewrite Hat.
Qed.

Lemma from_dmatrix_spec m :
  dense_ok m → (Z.of_nat nr <= 65535)%Z → (Z.of_nat nc <= 65535)%Z →
  ∃ a, Matrix.from_dmatrix m = Ret a ∧ swap_ok a ∧ mat a = m.
Proof.
  intros (Hr & Hc & Hl) Hnr Hnc. unfold Matrix.from_dmatrix, permutation_new. rewrite Hr, Hc.
  rewrite (to_u16_ok nr), (to_u16_ok nc) by done. cbn [mbind exec_bind]. eexists. split; [done|]. split; [|done].
  split; simpl; [done|apply perm_ok_seq|apply length_seq|apply perm_ok_seq|apply length_seq].
Qed.

(** ** The pivot *)

Lemma row_weight_spec a row :
  swap_ok a → row < nr →
  ∃ w lead, Matrix.row_weight a row = Ret (w, lead) ∧ (w = 0 → ∀ c, c < nc → cell a row c = false) ∧
    (w ≠ 0 → ∃ c, lead = Some c ∧ c < nc ∧ cell a row c = true).
Proof.
  intros Hok Hrow. unfold Matrix.row_weight. assert (ncols (mat a) = nc) as -> by apply Hok.
  destruct (foldM_inv (λ k '(w, lead), (w = 0 → lead = None ∧ ∀ c, c < k → cell a row c = false) ∧
                        (w ≠ 0 → ∃ c, lead = Some c ∧ c < nc ∧ cell a row c = true))
              (Matrix.weigh a row) (0, None) (seq 0 nc)) as ([w lead] & -> & H0 & H1).
  - split; [|done]. intros _. split; [done|]. lia.
  - intros k [w lead] col Hk [H0 H1]. apply lookup_seq in Hk as [-> Hk]. simpl. rewrite get_spec by done. cbn [mbind exec_bind].
    eexists. split; [done|]. destruct (cell a row k) eqn:Hcell.
    + split; [done|]. intros _. destruct (decide (w = 0)) as [Hw|Hw].
      * destruct (H0 Hw) as [-> _]. by exists k.
      * destruct (H1 Hw) as (c & -> & Hc). by exists c.
    + split; [|done]. intros Hw. destruct (H0 Hw) as [-> Hall]. split; [done|]. intros c Hc.
      destruct (decide (c = k)) as [->|]; [done|]. apply Hall. lia.
  - exists w, lead. split; [done|]. split; [|done]. intros Hw. rewrite length_seq in H0. by apply H0.
Qed.

Lemma full_pivot_spec a s :
  swap_ok a → s <= nr →
  ∃ r, Matrix.full_pivot a s = Ret r ∧
    match r with
    | Some (row, col) => s <= row < nr ∧ col < nc ∧ cell a row col = true
    | None => ∀ row c, s <= row < nr → c < nc → cell a row c = false
    end.
Proof.
  intros Hok Hs. unfold Matrix.full_pivot. assert (nrows (mat a) = nr) as -> by apply Hok.
  destruct (foldM_inv (λ k best, match best with
                       | Some (row, _, col) => s <= row < nr ∧ col < nc ∧ cell a row col = true
                       | None => ∀ row c, s <= row < s + k → c < nc → cell a row c = false
                       end) (Matrix.best_row a) None (seq s (nr - s))) as (best & -> & Hbest).
  - lia.
  - intros k best row Hk Hbest. apply lookup_seq in Hk as [-> Hk]. unfold Matrix.best_row.
    destruct (row_weight_spec a (s + k)) as (w & lead & -> & H0 & H1); [done|lia|]. cbn [mbind exec_bind].
    case_bool_decide as Hw.
    + exists best. split; [done|]. destruct best as [[[row w'] col]|]; [done|]. intros row c Hrow Hc.
      destruct (decide (row = s + k)) as [->|]; [by apply H0|]. apply Hbest; lia.
    + destruct (H1 Hw) as (c & -> & Hc & Hcell). cbn [expect mbind exec_bind]. eexists. split; [done|].
      destruct best as [[[row w'] col]|]; [case_bool_decide; [|done]|]; split_and!; done || lia.
  - cbn [mbind exec_bind]. eexists. split; [done|]. rewrite length_seq in Hbest.
    destruct best as [[[row w] col]|]; [done|]. intros row c Hrow. apply Hbest. lia.
Qed.

(** ** The elimination *)

(** Operations between different rows that have a symbol in common *)
Definition valid_op (M : nat → nat → bool) (op : nat * nat) : Prop :=
  op.1 < nr ∧ op.2 < nr ∧ op.1 ≠ op.2 ∧ ∃ c, c < nc ∧ M op.1 c = true ∧ M op.2 c = true.
Definition valid_ops (M : nat → nat → bool) (ops : list (nat * nat)) : Prop :=
  ∀ k op, ops !! k = Some op → valid_op (row_ops M (take k ops)) op.

Lemma valid_ops_snoc M ops op : valid_ops M ops → valid_op (row_ops M ops) op → valid_ops M (ops ++ [op]).
Proof.
  intros Hops Hop k op' Hk. destruct (decide (k < length ops)) as [Hlt|Hge].
  - rewrite lookup_app_l in Hk by done. rewrite take_app_le by lia. by apply Hops.
  - rewrite lookup_app_r in Hk by lia. assert (k = length ops) as ->.
    { apply lookup_lt_Some in Hk. simpl in Hk. lia. }
    rewrite Nat.sub_diag in Hk. injection Hk as <-. by rewrite take_app_length.
Qed.

(** After [s] steps: *)
Record elim_inv (M : nat → nat → bool) (s : nat) (a : RCSwapMatrix) (ops : list (nat * nat)) : Prop := {
  elim_ok : swap_ok a;
  elim_entry : ∀ x y, y < nc → entry (mat a) x y = row_ops M ops x y;
  elim_ops : valid_ops M ops;
  elim_unit : ∀ r c, r < nr → c < s → cell a r c = bool_decide (r = c);
}.

Lemma eliminate_spec M s a ops :
  elim_inv M s a ops → s < nr → s < nc → cell a s s = true →
  ∃ a' ops', Matrix.eliminate a s ops = Ret (a', ops') ∧ elim_inv M (S s) a' ops'.
Proof.
  intros Hinv Hsr Hsc Hss. unfold Matrix.eliminate.
  assert (nrows (mat a) = nr) as -> by apply Hinv.
  destruct (foldM_inv (λ k '(a', ops'), elim_inv M s a' ops' ∧ cell a' s s = true ∧
                         ∀ r, r < k → cell a' r s = bool_decide (r = s))
              (Matrix.eliminate_row s) (a, ops) (seq 0 nr)) as ([a' ops'] & -> & Hinv' & Hss' & Hcol).
  - split_and!; [done..|lia].
  - intros k [a1 ops1] i Hk (Hinv1 & Hss1 & Hcol1). apply lookup_seq in Hk as [-> Hk]. cbn [Nat.add].
    pose proof Hinv1 as [Hok1 He1 Hops1 Hu1]. unfold Matrix.eliminate_row. case_bool_decide as Hks.
    { subst k. eexists. split; [done|]. split_and!; [done..|]. intros r Hr. destruct (decide (r = s)) as [->|]; [by rewrite bool_decide_true|].
      apply Hcol1. lia. }
    rewrite get_spec by done. cbn [mbind exec_bind]. destruct (cell a1 k s) eqn:Hks1.
    + destruct (row_sub_assign_spec a1 k s) as (a2 & -> & Hok2 & Hpr & Hpc & He2 & Hc2); [done..|]. cbn [mbind exec_bind].
      rewrite !(perm_index_spec nr) by (apply Hok2 || done). cbn [mbind exec_bind]. fold (prow a2 k) (prow a2 s). rewrite Hpr.
      eexists. split; [done|]. split_and!; [split; [done| | |]| |].
      * intros x y Hy. rewrite He2 by done. unfold row_ops. rewrite foldl_app. cbn [foldl]. unfold row_op at 1. unfold row_op at 1.
        by rewrite !He1 by done.
      * apply valid_ops_snoc; [done|]. split_and!; [by apply perm_at_lt; [apply Hok1|]..| |].
        { intros Heq. by apply Hks, (perm_at_inj nr (row_permutation a1)); [apply Hok1|..]. }
        exists (pcol a1 s). assert (pcol a1 s < nc) as Hpc1 by (by apply perm_at_lt; [apply Hok1|]).
        split; [done|]. by rewrite <-!He1.
      * intros r c Hr Hc. rewrite Hc2 by lia. unfold row_op. simpl. case_decide as Hrk; [|by apply Hu1].
        subst r. rewrite !Hu1 by done. rewrite (bool_decide_false (s = c)) by lia. by rewrite xorb_false_r.
      * rewrite Hc2 by done. unfold row_op. simpl. by rewrite decide_False.
      * intros r Hr. rewrite Hc2 by lia. unfold row_op. simpl. case_decide as Hrk.
        -- subst r. rewrite Hks1, Hss1. by rewrite bool_decide_false.
        -- apply Hcol1. lia.
    + eexists. split; [done|]. split_and!; [done..|]. intros r Hr. destruct (decide (r = k)) as [->|]; [by rewrite bool_decide_false|].
      apply Hcol1. lia.
  - exists a', ops'. split; [done|]. rewrite length_seq in Hcol. destruct Hinv' as [Hok' He' Hops' Hu']. split; [done..|].
    intros r c Hr Hc. destruct (decide (c = s)) as [->|]; [by apply Hcol|]. apply Hu'; lia.
Qed.

(** The result of the elimination: at most one symbol in each row, or a row
    without symbols. *)
Definition reduced (M : nat → nat → bool) (ok : bool) : Prop :=
  if ok then ∀ x y y', x < nr → y < nc → y' < nc → M x y = true → M x y' = true → y = y'
  else ∃ x, x < nr ∧ ∀ y, y < nc → M x y = false.

Lemma elimination_steps_spec M n s a ops :
  s + n = nc → nc <= nr → elim_inv M s a ops →
  ∃ a' ops' ok, Matrix.elimination_steps Matrix.full_pivot (seq s n) a ops = Ret (a', ops', ok) ∧
    if ok then elim_inv M nc a' ops' else valid_ops M ops' ∧ reduced (row_ops M ops') false.
Proof.
  revert s a ops. induction n as [|n IH]; intros s a ops Hsn Hle Hinv; cbn [seq Matrix.elimination_steps].
  { exists a, ops, true. split; [done|]. by replace nc with s by lia. }
  pose proof Hinv as [Hok He Hops Hu].
  destruct (full_pivot_spec a s) as (r & -> & Hr); [done|lia|]. cbn [mbind exec_bind]. destruct r as [[row col]|].
  - destruct Hr as (Hrow & Hcol & Hcell).
    assert (s <= col) as Hsc.
    { destruct (decide (s <= col)); [done|]. rewrite Hu in Hcell by lia. apply bool_decide_eq_true in Hcell. lia. }
    assert (∃ a1, (if bool_decide (row ≠ s) then Matrix.swap_rows a row s else Ret a) = Ret a1 ∧ elim_inv M s a1 ops ∧
              cell a1 s col = true) as (a1 & -> & Hinv1 & Hcell1).
    { case_bool_decide as Hrs; [|assert (row = s) as -> by (by destruct (decide (row = s))); by exists a].
      destruct (swap_rows_spec a row s) as (a1 & -> & Hok1 & Hm & Hc1); [done|lia..|]. exists a1. split; [done|].
      split; [split; [done|by rewrite Hm|done|]|rewrite Hc1, decide_False, decide_True by done; done].
      intros x c Hx Hc. rewrite Hc1. repeat case_decide; subst; rewrite Hu by lia; apply bool_decide_ext; lia. }
    cbn [mbind exec_bind]. pose proof Hinv1 as [Hok1 He1 _ Hu1].
    assert (∃ a2, (if bool_decide (col ≠ s) then Matrix.swap_columns a1 col s else Ret a1) = Ret a2 ∧ elim_inv M s a2 ops ∧
              cell a2 s s = true) as (a2 & -> & Hinv2 & Hcell2).
    { case_bool_decide as Hcs; [|assert (col = s) as -> by (by destruct (decide (col = s))); by exists a1].
      destruct (swap_columns_spec a1 col s) as (a2 & -> & Hok2 & Hm & _ & Hc2); [done|lia..|]. exists a2. split; [done|].
      split; [split; [done|by rewrite Hm|done|]|rewrite Hc2, decide_False, decide_True by done; done].
      intros x c Hx Hc. rewrite Hc2. rewrite !decide_False by lia. by apply Hu1. }
    cbn [mbind exec_bind]. destruct (eliminate_spec M s a2 ops) as (a3 & ops3 & -> & Hinv3); [done|lia..|done|]. cbn [mbind exec_bind].
    apply IH; [lia|done..].
  - exists a, ops, false. split; [done|]. split; [done|]. exists (prow a s). split; [apply perm_at_lt; [apply Hok|lia]|].
    intros y Hy. rewrite <-He by done.
    destruct (perm_surj nc _ (swap_column a Hok) y Hy) as [c Hc]. assert (c < nc) as Hcn.
    { apply lookup_lt_Some in Hc. by rewrite (perm_length nc) in Hc by apply Hok. }
    replace y with (pcol a c) by (unfold pcol, at_index; by rewrite Hc). apply (Hr s c); lia.
Qed.

Lemma elim_reduced M a ops : elim_inv M nc a ops → reduced (row_ops M ops) true.
Proof.
  intros [Hok He Hops Hu] x y y' Hx Hy Hy'. rewrite <-!He by done. intros H1 H2.
  destruct (perm_surj nr _ (swap_row a Hok) x Hx) as [r Hr]. assert (r < nr) as Hrn.
  { apply lookup_lt_Some in Hr. by rewrite (perm_length nr) in Hr by apply Hok. }
  assert (∀ y, y < nc → entry (mat a) x y = true → pcol a r = y) as Hcol.
  { intros z Hz Hxz. destruct (perm_surj nc _ (swap_column a Hok) z Hz) as [c Hc]. assert (c < nc) as Hcn.
    { apply lookup_lt_Some in Hc. by rewrite (perm_length nc) in Hc by apply Hok. }
    assert (cell a r c = true) as Hcell by (unfold cell, prow, pcol, at_index; by rewrite Hr, Hc).
    rewrite Hu in Hcell by done. apply bool_decide_eq_true in Hcell as ->. unfold pcol, at_index. by rewrite Hc. }
  by rewrite <-(Hcol y), <-(Hcol y').
Qed.

Lemma gaussian_spec m :
  dense_ok m → nc <= nr → (Z.of_nat nr <= 65535)%Z →
  ∃ ops ok, Matrix.rowwise_elimination_gaussian_full_pivot m = Ret (ops, ok) ∧ valid_ops (entry m) ops ∧
    reduced (row_ops (entry m) ops) ok.
Proof.
  intros Hok Hle Hnr. pose proof Hok as (Hr & Hc & Hl).
  unfold Matrix.rowwise_elimination_gaussian_full_pivot, Matrix.rowwise_elimination_schedule.
  rewrite Hr, Hc, bool_decide_true by done. cbn [assert mbind exec_bind].
  destruct (from_dmatrix_spec m) as (a & -> & Ha & Hm); [done|done|lia|]. cbn [mbind exec_bind].
  destruct (elimination_steps_spec (entry m) nc 0 a []) as (a' & ops & ok & -> & Hres); [done|done|..].
  { split; [done|by rewrite Hm|by intros k op|lia]. }
  cbn [mbind exec_bind]. exists ops, ok. destruct ok; [|done].
  assert (foldM (λ _ ij, set ← Matrix.cell_at a' ij.1 ij.2; assert (eqb set (bool_decide (ij.1 = ij.2)))) tt
            (flat_map (λ i, map (λ j, (i, j)) (seq 0 nc)) (seq 0 nr)) = Ret tt) as ->.
  { destruct (foldM_inv (λ _ (_ : unit), True) (λ _ ij, set ← Matrix.cell_at a' ij.1 ij.2; assert (eqb set (bool_decide (ij.1 = ij.2)))) tt
      (flat_map (λ i, map (λ j, (i, j)) (seq 0 nc)) (seq 0 nr))) as ([] & Hfold & _); [done| |done].
    intros k [] [i j] Hij%list_elem_of_lookup_2 _. exists tt. split; [|done].
    apply list_elem_of_In, in_flat_map in Hij as (i' & Hi & Hij). apply in_map_iff in Hij as (j' & [= -> ->] & Hj).
    apply in_seq in Hi, Hj. simpl. rewrite get_spec by (apply Hres || lia). cbn [mbind exec_bind].
    rewrite (elim_unit _ _ _ _ Hres) by lia. by rewrite eqb_reflx. }
  cbn [mbind exec_bind]. split; [done|]. split; [by eapply elim_ops|]. by eapply elim_reduced.
Qed.
End matrix.

(** Row operations depend on the entries in range only. *)
Lemma row_ops_ext nr nc M M' ops :
  Forall (λ op, op.2 < nr) ops → (∀ x y, x < nr → y < nc → M x y = M' x y) →
  ∀ x y, x < nr → y < nc → row_ops M ops x y = row_ops M' ops x y.
Proof.
  revert M M'. induction ops as [|op ops IH]; intros M M' Hops HM; [done|]. apply Forall_cons in Hops as [Hop Hops].
  apply (IH (row_op M op) (row_op M' op) Hops). intros x y Hx Hy. unfold row_op. case_decide; rewrite ?HM by done; done.
Qed.

Lemma valid_ops_range nr nc M ops : valid_ops nr nc M ops → Forall (λ op, op.2 < nr) ops.
Proof. intros Hops. apply Forall_lookup. intros k op Hk. by destruct (Hops k op Hk) as (_ & ? & _). Qed.

Lemma valid_ops_ext nr nc M M' ops :
  valid_ops nr nc M ops → (∀ x y, x < nr → y < nc → M x y = M' x y) → valid_ops nr nc M' ops.
Proof.
  intros Hops HM k op Hk. destruct (Hops k op Hk) as (H1 & H2 & H3 & c & Hc & Hc1 & Hc2).
  assert (Forall (λ op, op.2 < nr) (take k ops)) as Hf by (by eapply Forall_take, valid_ops_range).
  pose proof (row_ops_ext nr nc M M' _ Hf HM) as Heq. split_and!; [done..|]. exists c. by rewrite <-!Heq.
Qed.

(** * [from_fn] *)

Lemma grid_lookup nc a nr i j :
  i < nr → j < nc → flat_map (λ i, map (λ j, (i, j)) (seq 0 nc)) (seq a nr) !! (i * nc + j) = Some (a + i, j).
Proof.
  revert a i. induction nr as [|nr IH]; intros a i Hi Hj; [lia|]. cbn [seq flat_map]. destruct i as [|i].
  - rewrite lookup_app_l by (rewrite length_map, length_seq; lia). rewrite list_lookup_fmap, lookup_seq_lt by lia. simpl. do 2 f_equal. lia.
  - rewrite lookup_app_r by (rewrite length_map, length_seq; lia). rewrite length_map, length_seq.
    replace (S i * nc + j - nc) with (i * nc + j) by lia. rewrite IH by lia. do 2 f_equal. lia.
Qed.
Lemma grid_length nc a nr : length (flat_map (λ i, map (λ j, (i, j)) (seq 0 nc)) (seq a nr)) = nr * nc.
Proof. revert a. induction nr as [|nr IH]; intros a; [done|]. cbn [seq flat_map]. rewrite length_app, length_map, length_seq, IH. lia. Qed.

Lemma from_fn_spec nr nc f g :
  (∀ i j, i < nr → j < nc → f i j = Ret (g i j)) →
  ∃ m, from_fn nr nc f = Ret m ∧ dense_ok nr nc m ∧ ∀ i j, i < nr → j < nc → entry m i j = g i j.
Proof.
  intros Hf. unfold from_fn. rewrite (mapM_map _ (λ ij, g ij.1 ij.2)).
  - cbn [mbind exec_bind]. eexists. split; [done|]. split; [split_and!; simpl; [done..|]; by rewrite length_map, grid_length|].
    intros i j Hi Hj. unfold entry. simpl. rewrite list_lookup_fmap, grid_lookup by done. done.
  - intros [i j] Hij. apply list_elem_of_In, in_flat_map in Hij as (i' & Hi & Hij). apply in_map_iff in Hij as (j' & [= -> ->] & Hj).
    apply in_seq in Hi, Hj. apply Hf; simpl; lia.
Qed.
