(* ===== verification/RaptorDecoder.v ===== *)
(** The decoder of the Raptor code (src/monad-raptor/src/r10/nonsystematic/decoder):
    peeling and inactivation decoding over the buffers received, and
    [ManagedDecoder], which owns the buffers. A [debug_assert!] is an assertion; the
    calls of [check] are left out of the operations, since [check_force] is defined
    beside them. *)

From S2P Require Import Prelude Types ValidatorSet Crypto RaptorTables RaptorCode RaptorStructs.

#[local] Open Scope nat_scope.

(** * Buffers and intermediate symbols *)

Record Buffer := mkBuffer { intermediate_symbol_ids : list nat; active_used_weight : nat; used : bool }.

Definition buffer_new : Buffer := mkBuffer [] 0 false.

Definition append_intermediate_symbol_id (b : Buffer) (intermediate_symbol_id : nat)
    (increment_active_used_weight : bool) : exec Buffer :=
  intermediate_symbol_id ← to_u16 intermediate_symbol_id;
  Ret (mkBuffer (OrderedSet.append (intermediate_symbol_ids b) intermediate_symbol_id)
         (if increment_active_used_weight then S (active_used_weight b) else active_used_weight b) (used b)).

Definition first_intermediate_symbol_id (b : Buffer) : exec nat := expect (OrderedSet.first (intermediate_symbol_ids b)).

Definition set_ids (b : Buffer) (ids : list nat) : Buffer := mkBuffer ids (active_used_weight b) (used b).
Definition set_weight (b : Buffer) (weight : nat) : Buffer := mkBuffer (intermediate_symbol_ids b) weight (used b).

Definition buffer_xor_eq (b other : Buffer) : Buffer :=
  set_ids b (foldl (λ ids id, (OrderedSet.insert_or_remove ids id).1) (intermediate_symbol_ids b)
               (intermediate_symbol_ids other)).

Inductive BufferState := BufferActive | BufferUsable | BufferUsed | BufferInactivated | BufferRedundant.
#[global] Instance BufferState_eq_dec : EqDecision BufferState.
Proof. solve_decision. Defined.

Definition state (b : Buffer) : BufferState :=
  if bool_decide (1 < active_used_weight b) then BufferActive
  else if bool_decide (active_used_weight b = 1) && negb (used b) then BufferUsable
  else if bool_decide (active_used_weight b = 1) && used b then BufferUsed
  else if bool_decide (intermediate_symbol_ids b ≠ []) then BufferInactivated
  else BufferRedundant.

Definition is_paired (b : Buffer) : bool :=
  bool_decide (state b = BufferUsed) && bool_decide (length (intermediate_symbol_ids b) = 1).

Inductive IntermediateSymbol :=
  | Active (buffer_indices : list nat)
  | Inactivated (buffer_indices : list nat)
  | Used (buffer_index : nat).

Definition intermediate_symbol_new : IntermediateSymbol := Active [].

Definition is_active (s : IntermediateSymbol) : bool := match s with Active _ => true | _ => false end.
Definition is_inactivated (s : IntermediateSymbol) : bool := match s with Inactivated _ => true | _ => false end.
Definition is_used (s : IntermediateSymbol) : bool := match s with Used _ => true | _ => false end.
Definition is_used_buffer_index (s : IntermediateSymbol) : option nat := match s with Used i => Some i | _ => None end.

Definition active_push (s : IntermediateSymbol) (buffer_index : nat) : exec IntermediateSymbol :=
  match s with
  | Active buffer_indices => buffer_index ← to_u16 buffer_index; Ret (Active (OrderedSet.append buffer_indices buffer_index))
  | _ => Panic
  end.
Definition active_inactivated_push (s : IntermediateSymbol) (buffer_index : nat) : exec IntermediateSymbol :=
  match s with
  | Active buffer_indices => Ret (Active (OrderedSet.append buffer_indices buffer_index))
  | Inactivated buffer_indices => Ret (Inactivated (OrderedSet.append buffer_indices buffer_index))
  | Used _ => Panic
  end.
Definition active_make_used (s : IntermediateSymbol) (buffer_index : nat) : exec (IntermediateSymbol * list nat) :=
  match s with Active buffer_indices => Ret (Used buffer_index, buffer_indices) | _ => Panic end.
Definition active_inactivate (s : IntermediateSymbol) : exec IntermediateSymbol :=
  '(_, buffer_indices) ← active_make_used s (Z.to_nat 65535);
  Ret (Inactivated buffer_indices).
Definition inactivated_values (s : IntermediateSymbol) : exec (list nat) :=
  match s with Inactivated buffer_indices => Ret buffer_indices | _ => Panic end.
Definition inactivated_insert (s : IntermediateSymbol) (buffer_index : nat) : exec IntermediateSymbol :=
  match s with
  | Inactivated buffer_indices =>
      let '(buffer_indices, ret) := OrderedSet.insert buffer_indices buffer_index in
      _ ← assert ret;
      Ret (Inactivated buffer_indices)
  | _ => Panic
  end.
Definition inactivated_remove (s : IntermediateSymbol) (buffer_index : nat) : exec IntermediateSymbol :=
  match s with
  | Inactivated buffer_indices =>
      let '(buffer_indices, ret) := OrderedSet.remove buffer_indices buffer_index in
      _ ← assert ret;
      Ret (Inactivated buffer_indices)
  | _ => Panic
  end.
Definition inactivated_make_used (s : IntermediateSymbol) (buffer_index : nat) : exec (IntermediateSymbol * list nat) :=
  match s with Inactivated buffer_indices => Ret (Used buffer_index, buffer_indices) | _ => Panic end.

(** * The decoder *)

Record Decoder := mkDecoder {
  decoder_params : CodeParameters;
  buffer_state : list Buffer;
  intermediate_symbol_state : list IntermediateSymbol;
  buffers_active_usable : BufferWeightMap;
  buffers_inactivated : BufferWeightMap;
  num_redundant_buffers : nat;
  num_source_symbols_paired : nat;
}.

Definition set_buffer_state (d : Decoder) (b : list Buffer) : Decoder :=
  mkDecoder (decoder_params d) b (intermediate_symbol_state d) (buffers_active_usable d) (buffers_inactivated d)
    (num_redundant_buffers d) (num_source_symbols_paired d).
Definition set_symbol_state (d : Decoder) (s : list IntermediateSymbol) : Decoder :=
  mkDecoder (decoder_params d) (buffer_state d) s (buffers_active_usable d) (buffers_inactivated d)
    (num_redundant_buffers d) (num_source_symbols_paired d).
Definition set_active_usable (d : Decoder) (h : BufferWeightMap) : Decoder :=
  mkDecoder (decoder_params d) (buffer_state d) (intermediate_symbol_state d) h (buffers_inactivated d)
    (num_redundant_buffers d) (num_source_symbols_paired d).
Definition set_inactivated (d : Decoder) (h : BufferWeightMap) : Decoder :=
  mkDecoder (decoder_params d) (buffer_state d) (intermediate_symbol_state d) (buffers_active_usable d) h
    (num_redundant_buffers d) (num_source_symbols_paired d).
(** [self.num_redundant_buffers += 1], of a [u16] *)
Definition add_redundant (d : Decoder) : exec Decoder :=
  n ← to_u16 (S (num_redundant_buffers d));
  Ret (mkDecoder (decoder_params d) (buffer_state d) (intermediate_symbol_state d) (buffers_active_usable d)
         (buffers_inactivated d) n (num_source_symbols_paired d)).
Definition add_paired (d : Decoder) : Decoder :=
  mkDecoder (decoder_params d) (buffer_state d) (intermediate_symbol_state d) (buffers_active_usable d)
    (buffers_inactivated d) (num_redundant_buffers d) (S (num_source_symbols_paired d)).

Definition num_redundant_intermediate_symbols (d : Decoder) : nat :=
  num_ldpc_symbols (decoder_params d) + num_half_symbols (decoder_params d).
Definition num_temp_buffers_required (d : Decoder) : nat := num_redundant_intermediate_symbols d.
Definition num_encoded_symbols_received (d : Decoder) : nat :=
  length (buffer_state d) - num_redundant_intermediate_symbols d.
Definition num_redundant_encoded_symbols (d : Decoder) : nat := num_redundant_buffers d.

Inductive BufferId := TempBuffer (index : nat) | ReceiveBuffer (index : nat).

Definition buffer_index_to_buffer_id (d : Decoder) (index : nat) : BufferId :=
  if bool_decide (index < num_redundant_intermediate_symbols d) then TempBuffer index
  else ReceiveBuffer (index - num_redundant_intermediate_symbols d).

(** ** Construction (init.rs) *)

(** The body of the callbacks of [with_capacity] *)
Definition set_element (acc : list Buffer * list IntermediateSymbol) (element : nat * nat) :
    exec (list Buffer * list IntermediateSymbol) :=
  let '(buffers, symbols) := acc in
  let '(buffer_index, intermediate_symbol_id) := element in
  buffer ← expect (buffers !! buffer_index);
  buffer ← append_intermediate_symbol_id buffer intermediate_symbol_id true;
  symbol ← expect (symbols !! intermediate_symbol_id);
  symbol ← active_push symbol buffer_index;
  Ret (<[buffer_index := buffer]> buffers, <[intermediate_symbol_id := symbol]> symbols).

Definition nonzero_u16 (weight : nat) : exec nat := _ ← assert (bool_decide (weight ≠ 0)); Ret weight.

Definition insert_constraint (h : BufferWeightMap) (i_buffer : nat * Buffer) : exec BufferWeightMap :=
  weight ← nonzero_u16 (active_used_weight i_buffer.2);
  WeightMap.insert_buffer_weight h i_buffer.1 weight.

(** The four parts of the constraints are the calls of [a_common], in the same
    order. The capacity only sizes the vectors. *)
Definition with_capacity (num_source_symbols : Z) : exec (option Decoder) :=
  if bool_decide (SOURCE_SYMBOLS_MIN <= num_source_symbols <= SOURCE_SYMBOLS_MAX)%Z then
    match code_parameters_new num_source_symbols with
    | None => Ret None
    | Some params =>
        let buffer_state := replicate (num_ldpc_symbols params + num_half_symbols params) buffer_new in
        let intermediate_symbol_state := replicate (num_intermediate_symbols params) intermediate_symbol_new in
        elements ← a_common params;
        '(buffer_state, intermediate_symbol_state) ← foldM set_element (buffer_state, intermediate_symbol_state) elements;
        buffers_active_usable ← foldM insert_constraint WeightMap.empty (imap pair buffer_state);
        Ret (Some (mkDecoder params buffer_state intermediate_symbol_state buffers_active_usable WeightMap.empty 0 0))
    end
  else Ret None.

(** ** Completion (decode_finished.rs) *)

Definition decoding_done (d : Decoder) : bool :=
  bool_decide (num_source_symbols_paired d = num_source_symbols (decoder_params d)).

Definition source_symbol_to_buffer_id (d : Decoder) (source_symbol_id : nat) : exec (option BufferId) :=
  if bool_decide (source_symbol_id < num_source_symbols (decoder_params d)) then
    symbol ← expect (intermediate_symbol_state d !! source_symbol_id);
    match is_used_buffer_index symbol with
    | None => Ret None
    | Some buffer_index =>
        buffer ← expect (buffer_state d !! buffer_index);
        if bool_decide (length (intermediate_symbol_ids buffer) = 1) then
          _ ← assert (is_paired buffer);
          Ret (Some (buffer_index_to_buffer_id d buffer_index))
        else Ret None
    end
  else Ret None.

(** ** Helpers of the operations (decode.rs) *)

(** [NonZeroU16::new(len.try_into().unwrap()).unwrap()] *)
Definition weight_u16 (len : nat) : exec nat := len ← to_u16 len; nonzero_u16 len.

(** The first element of [ids] that satisfies a test that may panic. *)
Fixpoint find_first (f : nat → exec bool) (ids : list nat) : exec (option nat) :=
  match ids with
  | [] => Ret None
  | id :: ids => b ← f id; if (b : bool) then Ret (Some id) else find_first f ids
  end.

Definition buffer_first_active_intermediate_symbol (d : Decoder) (buffer_index : nat) : exec nat :=
  buffer ← expect (buffer_state d !! buffer_index);
  found ← find_first (λ id, symbol ← expect (intermediate_symbol_state d !! id); Ret (is_active symbol))
            (intermediate_symbol_ids buffer);
  expect found.

Definition decrement_buffer_weight (d : Decoder) (buffer_index : nat) : exec Decoder :=
  buffer ← expect (buffer_state d !! buffer_index);
  weight ← decrement (active_used_weight buffer);
  let buffer := set_weight buffer weight in
  let d := set_buffer_state d (<[buffer_index := buffer]> (buffer_state d)) in
  if bool_decide (0 < weight) then
    h ← WeightMap.update_buffer_weight (buffers_active_usable d) buffer_index weight;
    Ret (set_active_usable d h)
  else
    '(h, weight) ← WeightMap.remove_buffer_weight (buffers_active_usable d) buffer_index;
    _ ← assert (bool_decide (weight = 1));
    let d := set_active_usable d h in
    let weight := length (intermediate_symbol_ids buffer) in
    if bool_decide (0 < weight) then
      weight ← weight_u16 weight;
      h ← WeightMap.insert_buffer_weight (buffers_inactivated d) buffer_index weight;
      Ret (set_inactivated d h)
    else add_redundant d.

(** The loop of [buffer_peel_xor_eq] and [buffer_inactivated_xor_eq]: the
    identifiers of buffer [a] and the symbols, by each identifier of the other
    buffer. *)
Definition xor_eq_id (a : nat) (acc : list nat * list IntermediateSymbol) (intermediate_symbol_id : nat) :
    exec (list nat * list IntermediateSymbol) :=
  let '(ids, symbols) := acc in
  symbol ← expect (symbols !! intermediate_symbol_id);
  if negb (is_inactivated symbol) then
    let '(ids, ret) := OrderedSet.remove ids intermediate_symbol_id in
    _ ← assert ret;
    Ret (ids, symbols)
  else
    let '(ids, inserted) := OrderedSet.insert_or_remove ids intermediate_symbol_id in
    symbol ← (if (inserted : bool) then inactivated_insert symbol a else inactivated_remove symbol a);
    Ret (ids, <[intermediate_symbol_id := symbol]> symbols).

(** [get_two_mut], the assertions on the states, and the loop *)
Definition buffer_two_xor_eq (check_a check_b : BufferState → bool) (d : Decoder) (a b : nat) : exec Decoder :=
  _ ← assert (bool_decide (a ≠ b));
  aref ← expect (buffer_state d !! a);
  bref ← expect (buffer_state d !! b);
  _ ← assert (check_a (state aref));
  _ ← assert (check_b (state bref));
  '(ids, symbols) ← foldM (xor_eq_id a) (intermediate_symbol_ids aref, intermediate_symbol_state d)
                      (intermediate_symbol_ids bref);
  Ret (set_symbol_state (set_buffer_state d (<[a := set_ids aref ids]> (buffer_state d))) symbols).

Definition buffer_peel_xor_eq : Decoder → nat → nat → exec Decoder :=
  buffer_two_xor_eq (λ s, bool_decide (s = BufferActive ∨ s = BufferUsable)) (λ s, bool_decide (s = BufferUsed)).
Definition buffer_inactivated_xor_eq : Decoder → nat → nat → exec Decoder :=
  buffer_two_xor_eq (λ s, bool_decide (s = BufferInactivated)) (λ s, bool_decide (s = BufferInactivated)).

(** ** The operations, over the buffers of the caller *)

Section operations.
Context {St : Type} (xor_buffers : BufferId → BufferId → St → exec St).

(** [xor_buffers(self.buffer_index_to_buffer_id(a), self.buffer_index_to_buffer_id(b))] *)
Definition xor_indices (d : Decoder) (a b : nat) (st : St) : exec St :=
  xor_buffers (buffer_index_to_buffer_id d a) (buffer_index_to_buffer_id d b) st.

(** *** receive_symbol.rs *)

Definition append_sequence (d : Decoder) (acc : Buffer * list nat) (intermediate_symbol_id : nat) : exec (Buffer * list nat) :=
  let '(buffer, used_buffer_indices) := acc in
  symbol ← expect (intermediate_symbol_state d !! intermediate_symbol_id);
  buffer ← append_intermediate_symbol_id buffer intermediate_symbol_id (negb (is_inactivated symbol));
  Ret (buffer, match is_used_buffer_index symbol with
               | Some used_buffer_index => used_buffer_indices ++ [used_buffer_index]
               | None => used_buffer_indices
               end).

Definition reduce_by_used (d : Decoder) (buffer_index : nat) (acc : Buffer * St) (used_buffer_index : nat) : exec (Buffer * St) :=
  let '(buffer, st) := acc in
  other ← expect (buffer_state d !! used_buffer_index);
  let buffer := buffer_xor_eq buffer other in
  weight ← decrement (active_used_weight buffer);
  let buffer := set_weight buffer weight in
  st ← xor_indices d buffer_index used_buffer_index st;
  Ret (buffer, st).

Definition push_buffer_index (buffer_index : nat) (symbols : list IntermediateSymbol) (id : nat) :
    exec (list IntermediateSymbol) :=
  symbol ← expect (symbols !! id);
  symbol ← active_inactivated_push symbol buffer_index;
  Ret (<[id := symbol]> symbols).

Definition received_encoded_symbol (d : Decoder) (encoding_symbol_id : nat) (st : St) : exec (Decoder * St) :=
  buffer_index ← to_u16 (length (buffer_state d));
  sequence ← lt_sequence_op (decoder_params d) encoding_symbol_id;
  '(buffer, used_buffer_indices) ← foldM (append_sequence d) (buffer_new, []) sequence;
  '(buffer, st) ← foldM (reduce_by_used d buffer_index) (buffer, st) used_buffer_indices;
  symbols ← foldM (push_buffer_index buffer_index) (intermediate_symbol_state d) (intermediate_symbol_ids buffer);
  let d := set_symbol_state d symbols in
  let weight := length (intermediate_symbol_ids buffer) in
  let active_used_weight := active_used_weight buffer in
  let d := set_buffer_state d (buffer_state d ++ [buffer]) in
  if bool_decide (0 < active_used_weight) then
    h ← WeightMap.insert_buffer_weight (buffers_active_usable d) buffer_index active_used_weight;
    Ret (set_active_usable d h, st)
  else if bool_decide (0 < weight) then
    weight ← weight_u16 weight;
    h ← WeightMap.insert_buffer_weight (buffers_inactivated d) buffer_index weight;
    Ret (set_inactivated d h, st)
  else d ← add_redundant d; Ret (d, st).

(** *** decode_peel.rs *)

Definition peel_reducee (reducing_buffer_index : nat) (acc : Decoder * St) (reducee_buffer_index : nat) : exec (Decoder * St) :=
  let '(d, st) := acc in
  if bool_decide (reducee_buffer_index ≠ reducing_buffer_index) then
    d ← buffer_peel_xor_eq d reducee_buffer_index reducing_buffer_index;
    d ← decrement_buffer_weight d reducee_buffer_index;
    st ← xor_indices d reducee_buffer_index reducing_buffer_index st;
    Ret (d, st)
  else Ret (d, st).

(** [self.buffer_state[i].used = true] *)
Definition set_used (b : Buffer) : Buffer := mkBuffer (intermediate_symbol_ids b) (active_used_weight b) true.

Definition peel_one (d : Decoder) (reducing_buffer_index active_used_weight : nat) (st : St) : exec (Decoder * St) :=
  '(h, weight) ← WeightMap.remove_buffer_weight (buffers_active_usable d) reducing_buffer_index;
  _ ← assert (bool_decide (weight = active_used_weight));
  let d := set_active_usable d h in
  intermediate_symbol_id ← buffer_first_active_intermediate_symbol d reducing_buffer_index;
  reducing_buffer ← expect (buffer_state d !! reducing_buffer_index);
  let d := set_buffer_state d (<[reducing_buffer_index := set_used reducing_buffer]> (buffer_state d)) in
  symbol ← expect (intermediate_symbol_state d !! intermediate_symbol_id);
  '(symbol, reducee_buffer_indices) ← active_make_used symbol reducing_buffer_index;
  let d := set_symbol_state d (<[intermediate_symbol_id := symbol]> (intermediate_symbol_state d)) in
  '(d, st) ← foldM (peel_reducee reducing_buffer_index) (d, st) reducee_buffer_indices;
  reducing_buffer ← expect (buffer_state d !! reducing_buffer_index);
  Ret (if bool_decide (length (intermediate_symbol_ids reducing_buffer) = 1) &&
          bool_decide (intermediate_symbol_id < num_source_symbols (decoder_params d))
       then add_paired d else d, st).

(** Each turn makes an active or an inactivated symbol used, and none becomes
    active: twice the number of symbols is enough fuel. *)
Fixpoint peel_loop (fuel : nat) (d : Decoder) (st : St) (made_progress : bool) : exec (Decoder * St * bool) :=
  min ← WeightMap.peek_min (buffers_active_usable d);
  match min with
  | None => Ret (d, st, made_progress)
  | Some (reducing_buffer_index, active_used_weight) =>
      if decoding_done d || bool_decide (active_used_weight ≠ 1) then Ret (d, st, made_progress)
      else match fuel with
           | O => OutOfFuel
           | S fuel => '(d, st) ← peel_one d reducing_buffer_index active_used_weight st; peel_loop fuel d st true
           end
  end.
Definition try_peel (d : Decoder) (st : St) : exec (Decoder * St * bool) :=
  peel_loop (2 * length (intermediate_symbol_state d)) d st false.

(** *** decode_reactivate.rs *)

(** The new weight of an inactivated buffer, here and after the elimination *)
Definition update_inactivated (d : Decoder) (buffer_index weight : nat) : exec Decoder :=
  if bool_decide (0 < weight) then
    weight ← weight_u16 weight;
    h ← WeightMap.update_buffer_weight (buffers_inactivated d) buffer_index weight;
    Ret (set_inactivated d h)
  else
    '(h, _) ← WeightMap.remove_buffer_weight (buffers_inactivated d) buffer_index;
    add_redundant (set_inactivated d h).

Definition reactivate_reducee (reducing_buffer_index intermediate_symbol_id : nat) (acc : Decoder * St)
    (reducee_buffer_index : nat) : exec (Decoder * St) :=
  let '(d, st) := acc in
  if bool_decide (reducee_buffer_index ≠ reducing_buffer_index) then
    reducee_buffer ← expect (buffer_state d !! reducee_buffer_index);
    let '(ids, ret) := OrderedSet.remove (intermediate_symbol_ids reducee_buffer) intermediate_symbol_id in
    _ ← assert ret;
    let reducee_buffer := set_ids reducee_buffer ids in
    let d := set_buffer_state d (<[reducee_buffer_index := reducee_buffer]> (buffer_state d)) in
    d ← (if bool_decide (active_used_weight reducee_buffer = 0)
         then update_inactivated d reducee_buffer_index (length ids) else Ret d);
    d ← (if is_paired reducee_buffer then
           first ← first_intermediate_symbol_id reducee_buffer;
           Ret (if bool_decide (first < num_source_symbols (decoder_params d)) then add_paired d else d)
         else Ret d);
    st ← xor_indices d reducee_buffer_index reducing_buffer_index st;
    Ret (d, st)
  else Ret (d, st).

Definition reactivate_one (d : Decoder) (reducing_buffer_index : nat) (st : St) : exec (Decoder * St) :=
  reducing_buffer ← expect (buffer_state d !! reducing_buffer_index);
  '(h, _) ← WeightMap.remove_buffer_weight (buffers_inactivated d) reducing_buffer_index;
  let d := set_inactivated d h in
  intermediate_symbol_id ← first_intermediate_symbol_id reducing_buffer;
  let reducing_buffer := set_used (set_weight reducing_buffer 1) in
  let d := set_buffer_state d (<[reducing_buffer_index := reducing_buffer]> (buffer_state d)) in
  symbol ← expect (intermediate_symbol_state d !! intermediate_symbol_id);
  '(symbol, reducee_buffer_indices) ← inactivated_make_used symbol reducing_buffer_index;
  let d := set_symbol_state d (<[intermediate_symbol_id := symbol]> (intermediate_symbol_state d)) in
  '(d, st) ← foldM (reactivate_reducee reducing_buffer_index intermediate_symbol_id) (d, st) reducee_buffer_indices;
  Ret (if bool_decide (intermediate_symbol_id < num_source_symbols (decoder_params d)) then add_paired d else d, st).

Fixpoint reactivate_loop (fuel : nat) (d : Decoder) (st : St) (made_progress : bool) : exec (Decoder * St * bool) :=
  min ← WeightMap.peek_min (buffers_inactivated d);
  match min with
  | None => Ret (d, st, made_progress)
  | Some (reducing_buffer_index, weight) =>
      if decoding_done d || bool_decide (weight ≠ 1) then Ret (d, st, made_progress)
      else match fuel with
           | O => OutOfFuel
           | S fuel => '(d, st) ← reactivate_one d reducing_buffer_index st; reactivate_loop fuel d st true
           end
  end.
Definition try_reactivate_symbols (d : Decoder) (st : St) : exec (Decoder * St * bool) :=
  reactivate_loop (2 * length (intermediate_symbol_state d)) d st false.

(** *** decode_inactive_gaussian.rs *)

(** [BTreeSet<u16>], collected and iterated *)
Definition btree_set (l : list nat) : list nat := merge_sort le (unique l).

Definition apply_row_operation (inactivated_buffer_indices : list nat) (acc : Decoder * St) (op : nat * nat) :
    exec (Decoder * St) :=
  let '(d, st) := acc in
  reducee_buffer_index ← expect (inactivated_buffer_indices !! op.1);
  reducing_buffer_index ← expect (inactivated_buffer_indices !! op.2);
  d ← buffer_inactivated_xor_eq d reducee_buffer_index reducing_buffer_index;
  st ← xor_indices d reducee_buffer_index reducing_buffer_index st;
  Ret (d, st).

Definition refresh_inactivated (d : Decoder) (buffer_index : nat) : exec Decoder :=
  buffer ← expect (buffer_state d !! buffer_index);
  update_inactivated d buffer_index (length (intermediate_symbol_ids buffer)).

(** The element of the matrix at [i], [j] *)
Definition inactivated_cell (d : Decoder) (buffers symbols : list nat) (i j : nat) : exec bool :=
  buffer_index ← expect (buffers !! i);
  intermediate_symbol_id ← expect (symbols !! j);
  buffer ← expect (buffer_state d !! buffer_index);
  Ret (OrderedSet.contains (intermediate_symbol_ids buffer) intermediate_symbol_id).

Definition try_inactive_gaussian (d : Decoder) (st : St) : exec (Decoder * St * bool) :=
  if WeightMap.is_empty (buffers_inactivated d) then Ret (d, st, false)
  else
    min ← WeightMap.peek_min (buffers_inactivated d);
    '(_, min_weight) ← expect min;
    if bool_decide (min_weight = 1) then Ret (d, st, false)
    else
      entries ← WeightMap.enumerate (buffers_inactivated d);
      let inactivated_buffer_indices := entries.*1 in
      ids ← mapM (λ buffer_index, buffer ← expect (buffer_state d !! buffer_index); Ret (intermediate_symbol_ids buffer))
              inactivated_buffer_indices;
      let inactivated_intermediate_symbol_ids := btree_set (concat ids) in
      if bool_decide (length inactivated_buffer_indices < length inactivated_intermediate_symbol_ids)
      then Ret (d, st, false)
      else
        mat ← from_fn (length inactivated_buffer_indices) (length inactivated_intermediate_symbol_ids)
                (inactivated_cell d inactivated_buffer_indices inactivated_intermediate_symbol_ids);
        '(ops, _) ← Matrix.rowwise_elimination_gaussian_full_pivot mat;
        '(d, st) ← foldM (apply_row_operation inactivated_buffer_indices) (d, st) ops;
        d ← foldM refresh_inactivated d inactivated_buffer_indices;
        Ret (d, st, true).

(** *** decode_inactivate.rs *)

Definition inactivate_one (d : Decoder) (buffer_index : nat) : exec Decoder :=
  intermediate_symbol_id ← buffer_first_active_intermediate_symbol d buffer_index;
  symbol ← expect (intermediate_symbol_state d !! intermediate_symbol_id);
  symbol ← active_inactivate symbol;
  let d := set_symbol_state d (<[intermediate_symbol_id := symbol]> (intermediate_symbol_state d)) in
  buffer_indices ← inactivated_values symbol;
  foldM decrement_buffer_weight d buffer_indices.

Definition try_inactivate_one_symbol (d : Decoder) : exec (Decoder * bool) :=
  min ← WeightMap.peek_min (buffers_active_usable d);
  match min with
  | Some (buffer_index, active_used_weight) =>
      if bool_decide (1 < active_used_weight) then d ← inactivate_one d buffer_index; Ret (d, true)
      else Ret (d, false)
  | None => Ret (d, false)
  end.

(** *** decode.rs *)

Inductive DecodingState := ReactivateSymbols | Peeling | MaybeInactiveGaussian | InactivateSymbol | Done.

Definition decode_step (try_harder : bool) (operation : DecodingState) (d : Decoder) (st : St) :
    exec (DecodingState * Decoder * St) :=
  match operation with
  | ReactivateSymbols =>
      '(d, st, _) ← try_reactivate_symbols d st;
      Ret (Peeling, d, st)
  | Peeling =>
      '(d, st, progress) ← try_peel d st;
      Ret (if (progress : bool) then ReactivateSymbols else MaybeInactiveGaussian, d, st)
  | MaybeInactiveGaussian =>
      if negb try_harder then Ret (Done, d, st)
      else '(d, st, progress) ← try_inactive_gaussian d st;
           Ret (if (progress : bool) then ReactivateSymbols else InactivateSymbol, d, st)
  | InactivateSymbol =>
      if negb try_harder then Ret (Done, d, st)
      else '(d, progress) ← try_inactivate_one_symbol d;
           Ret (if (progress : bool) then ReactivateSymbols else Done, d, st)
  | Done => Panic
  end.

Fixpoint decode_loop (fuel : nat) (try_harder : bool) (operation : DecodingState) (d : Decoder) (st : St) :
    exec (Decoder * St * bool) :=
  if decoding_done d then Ret (d, st, true)
  else match operation with
       | Done => Ret (d, st, false)
       | _ =>
           match fuel with
           | O => OutOfFuel
           | S fuel =>
               '(operation, d, st) ← decode_step try_harder operation d st;
               decode_loop fuel try_harder operation d st
           end
       end.

(** Six turns at most before an active symbol becomes inactivated, a symbol used or
    a buffer redundant. *)
Definition decode_fuel (d : Decoder) : nat :=
  6 * (2 * length (intermediate_symbol_state d) + length (buffer_state d)) + 5.

Definition try_decode (d : Decoder) (inactivation_symbol_threshold : nat) (st : St) : exec (Decoder * St * bool) :=
  _ ← assert (bool_decide (num_source_symbols (decoder_params d) <= inactivation_symbol_threshold));
  let usable_buffers := length (buffer_state d) - num_redundant_buffers d in
  let try_harder := bool_decide (inactivation_symbol_threshold <= usable_buffers) in
  decode_loop (decode_fuel d) try_harder ReactivateSymbols d st.

End operations.

(** * The buffers and [ManagedDecoder] (managed_decoder.rs) *)

Definition INACTIVATION_SYMBOL_THRESHOLD_MULTIPLIER : nat := 384.
Definition INACTIVATION_SYMBOL_THRESHOLD_SHIFT : nat := 8.

Record BufferSet := mkBufferSet { num_temp_buffers : nat; buffers : list bytes }.

Definition buffer_set_new (num_temp_buffers symbol_len : nat) : BufferSet :=
  mkBufferSet num_temp_buffers (replicate num_temp_buffers (replicate symbol_len 0%Z)).
Definition push_buffer (s : BufferSet) (buf : bytes) : BufferSet := mkBufferSet (num_temp_buffers s) (buffers s ++ [buf]).

Definition buffer_index (s : BufferSet) (buffer_id : BufferId) : nat :=
  match buffer_id with TempBuffer index => index | ReceiveBuffer index => num_temp_buffers s + index end.

Definition xor_buffers (a b : BufferId) (s : BufferSet) : exec BufferSet :=
  let a_index := buffer_index s a in
  let b_index := buffer_index s b in
  _ ← assert (bool_decide (a_index ≠ b_index));
  dst ← expect (buffers s !! a_index);
  src ← expect (buffers s !! b_index);
  _ ← assert (bool_decide (length dst = length src));
  Ret (mkBufferSet (num_temp_buffers s) (<[a_index := xor_bytes dst src]> (buffers s))).

Definition buffer (s : BufferSet) (buffer_id : BufferId) : exec bytes := expect (buffers s !! buffer_index s buffer_id).

Record ManagedDecoder := mkManagedDecoder {
  managed_num_source_symbols : nat;
  managed_symbol_len : nat;
  decoder : Decoder;
  buffer_set : BufferSet;
}.

Definition managed_new (num_source_symbols symbol_len : nat) : exec (option ManagedDecoder) :=
  decoder ← with_capacity (Z.of_nat num_source_symbols);
  Ret (match decoder with
       | Some decoder =>
           Some (mkManagedDecoder num_source_symbols symbol_len decoder
                   (buffer_set_new (num_temp_buffers_required decoder) symbol_len))
       | None => None
       end).

Definition managed_received_encoded_symbol (m : ManagedDecoder) (data : bytes) (encoding_symbol_id : nat) : exec ManagedDecoder :=
  _ ← assert (bool_decide (managed_symbol_len m = length data));
  let buffer_set := push_buffer (buffer_set m) data in
  '(decoder, buffer_set) ← RaptorDecoder.received_encoded_symbol xor_buffers (decoder m) encoding_symbol_id buffer_set;
  Ret (mkManagedDecoder (managed_num_source_symbols m) (managed_symbol_len m) decoder buffer_set).

Definition inactivation_symbol_threshold (m : ManagedDecoder) : nat :=
  Nat.shiftr (INACTIVATION_SYMBOL_THRESHOLD_MULTIPLIER * managed_num_source_symbols m) INACTIVATION_SYMBOL_THRESHOLD_SHIFT.

Definition managed_try_decode (m : ManagedDecoder) : exec (ManagedDecoder * bool) :=
  '(decoder, buffer_set, done) ← RaptorDecoder.try_decode xor_buffers (decoder m) (inactivation_symbol_threshold m) (buffer_set m);
  Ret (mkManagedDecoder (managed_num_source_symbols m) (managed_symbol_len m) decoder buffer_set, done).

Definition managed_decoding_done (m : ManagedDecoder) : bool := RaptorDecoder.decoding_done (decoder m).
Definition managed_num_encoded_symbols_received (m : ManagedDecoder) : nat := RaptorDecoder.num_encoded_symbols_received (decoder m).

Fixpoint reconstruct_loop (m : ManagedDecoder) (ids : list nat) : exec (option bytes) :=
  match ids with
  | [] => Ret (Some [])
  | i :: ids =>
      buffer_id ← source_symbol_to_buffer_id (decoder m) i;
      match buffer_id with
      | None => Ret None
      | Some buffer_id =>
          data ← buffer (buffer_set m) buffer_id;
          rest ← reconstruct_loop m ids;
          Ret (match rest with Some rest => Some (data ++ rest) | None => None end)
      end
  end.
Definition reconstruct_source_data (m : ManagedDecoder) : exec (option bytes) :=
  reconstruct_loop m (seq 0 (managed_num_source_symbols m)).
