(* ===== verification/RaptorDecoderInv.v ===== *)
(** The invariant of the Raptor decoder: what [check_force] checks (check.rs), and
    that the contents of the buffers have the same solutions as the symbols
    received. *)

From S2P Require Import Prelude Types ValidatorSet Crypto RaptorTables RaptorCode RaptorCodeProps RaptorEncoderProps.
From S2P Require Import RaptorStructs RaptorSetProps RaptorHeapProps RaptorMatrixProps RaptorDecoder.

#[local] Open Scope nat_scope.

(** * Symmetric differences *)

Definition symdiff (l k r : list nat) : Prop :=
  StronglySorted lt r ∧ ∀ x, x ∈ r ↔ (x ∈ l ∧ x ∉ k) ∨ (x ∉ l ∧ x ∈ k).

Lemma toggled_symdiff l v r : StronglySorted lt l → toggled l v r → symdiff l [v] r.
Proof.
  intros Hl [Hr Hperm]. split; [done|]. intros x. apply strict_NoDup in Hl, Hr. rewrite list_elem_of_singleton.
  case_decide as Hv.
  - rewrite Hperm in Hl. apply NoDup_cons in Hl as [Hvr _]. rewrite Hperm, elem_of_cons.
    destruct (decide (x = v)) as [->|]; tauto.
  - rewrite Hperm, elem_of_cons. destruct (decide (x = v)) as [->|]; tauto.
Qed.

Lemma symdiff_cons l v k r r' : v ∉ k → symdiff l [v] r → symdiff r k r' → symdiff l (v :: k) r'.
Proof.
  intros Hv [_ H1] [Hs H2]. split; [done|]. intros x. rewrite H2, H1, list_elem_of_singleton, elem_of_cons.
  destruct (decide (x = v)) as [->|]; tauto.
Qed.

Lemma insert_or_remove_symdiff l k :
  StronglySorted lt l → NoDup k → symdiff l k (foldl (λ ids id, (OrderedSet.insert_or_remove ids id).1) l k).
Proof.
  revert l. induction k as [|v k IH]; intros l Hl Hk; simpl.
  { split; [done|]. intros x. rewrite elem_of_nil. tauto. }
  apply NoDup_cons in Hk as [Hv Hk]. destruct (insert_or_remove_spec l v Hl) as [Ht _].
  eapply symdiff_cons; [done|by apply toggled_symdiff|]. apply IH; [apply Ht|done].
Qed.

Section symdiff.
Context (l k r : list nat).
Context (Hl : NoDup l) (Hk : NoDup k) (Hr : symdiff l k r).

Lemma symdiff_perm :
  l ≡ₚ filter (.∉ k) l ++ filter (.∈ k) l ∧ k ≡ₚ filter (.∉ l) k ++ filter (.∈ k) l ∧
  r ≡ₚ filter (.∉ k) l ++ filter (.∉ l) k.
Proof.
  destruct Hr as [Hs Hin]. apply strict_NoDup in Hs.
  split_and!; apply NoDup_Permutation; rewrite ?NoDup_app; try done;
    try (split_and!; [by apply NoDup_filter| |by apply NoDup_filter]; intros x; rewrite !list_elem_of_filter; tauto);
    intros x; rewrite elem_of_app, !list_elem_of_filter, ?Hin; destruct (decide (x ∈ l)), (decide (x ∈ k)); tauto.
Qed.

(** Contents add up. *)
Lemma symdiff_xsum n C : (∀ i, length (C i) = n) → xsum n C r = xor_bytes (xsum n C l) (xsum n C k).
Proof.
  intros HC. destruct symdiff_perm as (Hpl & Hpk & Hpr).
  rewrite (xsum_Permutation n C _ _ Hpr), (xsum_Permutation n C _ _ Hpl), (xsum_Permutation n C _ _ Hpk).
  rewrite !(xsum_app n C HC). set (x := xsum n C (filter (.∉ k) l)). set (y := xsum n C (filter (.∈ k) l)).
  set (z := xsum n C (filter (.∉ l) k)). rewrite xor_bytes_assoc, <-(xor_bytes_assoc x y z), (xor_bytes_comm y z).
  rewrite xor_bytes_assoc, (xor_bytes_cancel n); [done| |]; [apply xor_bytes_length|]; by apply xsum_length.
Qed.

(** The weight drops by one when one counted symbol is reduced. *)
Lemma symdiff_weight (Q : nat → bool) s :
  s ∈ l → s ∈ k → Q s = true → (∀ x, x ∈ k → Q x = true → x = s) →
  length (filter (λ x, Q x = true) l) = S (length (filter (λ x, Q x = true) r)).
Proof.
  intros Hsl Hsk HQ Honly. destruct Hr as [Hs Hin]. apply strict_NoDup in Hs.
  change (S (length (filter (λ x, Q x = true) r))) with (length (s :: filter (λ x, Q x = true) r)).
  apply Permutation_length, NoDup_Permutation; [by apply NoDup_filter| |].
  - apply NoDup_cons. split; [|by apply NoDup_filter]. rewrite list_elem_of_filter, Hin. tauto.
  - intros x. rewrite elem_of_cons, !list_elem_of_filter, Hin. destruct (decide (x = s)) as [->|Hne]; [tauto|].
    destruct (decide (x ∈ k)); naive_solver.
Qed.
End symdiff.

(** * Counting over the buffers *)

Definition b2n (b : bool) : nat := if b then 1 else 0.

Fixpoint count_from (f : nat → Buffer → bool) (i : nat) (l : list Buffer) : nat :=
  match l with [] => 0 | b :: l => b2n (f i b) + count_from f (S i) l end.
Notation count f l := (count_from f 0 l).

Lemma count_from_insert f i l a b b' :
  l !! a = Some b → count_from f i (<[a := b']> l) + b2n (f (i + a) b) = count_from f i l + b2n (f (i + a) b').
Proof.
  revert i a. induction l as [|x l IH]; intros i [|a] Ha; simpl in *; simplify_eq.
  - rewrite Nat.add_0_r. lia.
  - specialize (IH (S i) a Ha). replace (S i + a) with (i + S a) in IH by lia. lia.
Qed.
Lemma count_insert f l a b b' : l !! a = Some b → count f (<[a := b']> l) + b2n (f a b) = count f l + b2n (f a b').
Proof. apply count_from_insert. Qed.

Lemma count_from_ext f g i l :
  (∀ j b, l !! j = Some b → f (i + j) b = g (i + j) b) → count_from f i l = count_from g i l.
Proof.
  revert i. induction l as [|x l IH]; intros i H; [done|]. simpl. rewrite (IH (S i)).
  - specialize (H 0 x eq_refl). rewrite Nat.add_0_r in H. by rewrite H.
  - intros j b Hj. specialize (H (S j) b Hj). by replace (S i + j) with (i + S j) by lia.
Qed.
Lemma count_ext f g l : (∀ j b, l !! j = Some b → f j b = g j b) → count f l = count g l.
Proof. apply (count_from_ext f g 0). Qed.

(** Two tests that differ at one buffer *)
Lemma count_from_change f g i l a b :
  l !! a = Some b → (∀ j b, l !! j = Some b → j ≠ a → f (i + j) b = g (i + j) b) →
  count_from f i l + b2n (g (i + a) b) = count_from g i l + b2n (f (i + a) b).
Proof.
  revert i a. induction l as [|x l IH]; intros i [|a] Ha Hne; simpl in *; simplify_eq.
  - rewrite Nat.add_0_r, (count_from_ext f g (S i)); [lia|]. intros j y Hj.
    specialize (Hne (S j) y Hj ltac:(lia)). by replace (S i + j) with (i + S j) by lia.
  - specialize (IH (S i) a Ha). replace (S i + a) with (i + S a) in IH by lia. rewrite <-Nat.add_assoc, IH, Nat.add_assoc.
    + specialize (Hne 0 x eq_refl ltac:(lia)). rewrite Nat.add_0_r in Hne. rewrite Hne. lia.
    + intros j y Hj Hja. specialize (Hne (S j) y Hj ltac:(lia)). by replace (S i + j) with (i + S j) by lia.
Qed.
Lemma count_change f g l a b :
  l !! a = Some b → (∀ j b, l !! j = Some b → j ≠ a → f j b = g j b) → count f l + b2n (g a b) = count g l + b2n (f a b).
Proof. apply (count_from_change f g 0). Qed.

Lemma count_from_app f i l k : count_from f i (l ++ k) = count_from f i l + count_from f (i + length l) k.
Proof.
  revert i. induction l as [|x l IH]; intros i; simpl; [by rewrite Nat.add_0_r|]. rewrite IH.
  replace (S i + length l) with (i + S (length l)) by lia. lia.
Qed.
Lemma count_snoc f l b : count f (l ++ [b]) = count f l + b2n (f (length l) b).
Proof. rewrite count_from_app. simpl. lia. Qed.
Lemma count_le f i l : count_from f i l <= length l.
Proof. revert i. induction l as [|x l IH]; intros i; simpl; [done|]. specialize (IH (S i)). destruct (f i x); simpl; lia. Qed.

(** * The counters and the heaps *)

(** Simplify the fields of a decoder and the monad. *)
Ltac dsimpl :=
  cbn [set_buffer_state set_symbol_state set_active_usable set_inactivated add_paired decoder_params buffer_state
       intermediate_symbol_state buffers_active_usable buffers_inactivated num_redundant_buffers
       num_source_symbols_paired set_ids set_weight set_used intermediate_symbol_ids active_used_weight used
       mbind exec_bind assert expect].

Definition act_w (b : Buffer) : option nat :=
  match state b with BufferActive | BufferUsable => Some (active_used_weight b) | _ => None end.
Definition ina_w (b : Buffer) : option nat :=
  match state b with BufferInactivated => Some (length (intermediate_symbol_ids b)) | _ => None end.
Definition red (b : Buffer) : bool := bool_decide (state b = BufferRedundant).
Definition paired (k : nat) (b : Buffer) : bool :=
  is_paired b && match intermediate_symbol_ids b with s :: _ => bool_decide (s < k) | [] => false end.

(** [stale] are the buffers whose weight among the inactivated ones is not up to
    date, and [extra] the paired symbols that are not counted yet. *)
Record book (d : Decoder) (stale : list nat) (extra : nat) : Prop := {
  bk_act_ok : heap_ok (buffers_active_usable d);
  bk_ina_ok : heap_ok (buffers_inactivated d);
  bk_act : ∀ b, wlookup (buffers_active_usable d) b = buffer_state d !! b ≫= act_w;
  bk_ina : ∀ b, b ∉ stale → wlookup (buffers_inactivated d) b = buffer_state d !! b ≫= ina_w;
  bk_stale : ∀ b, b ∈ stale → is_Some (wlookup (buffers_inactivated d) b) ∧ b < length (buffer_state d);
  bk_red : num_redundant_buffers d = count (λ b buf, red buf && bool_decide (b ∉ stale)) (buffer_state d);
  bk_paired : num_source_symbols_paired d + extra =
              count (λ _ buf, paired (num_source_symbols (decoder_params d)) buf) (buffer_state d);
  bk_length : (Z.of_nat (length (buffer_state d)) <= 65535)%Z;
}.

(** Buffer [a] changes from [buf] to [buf'], with the heaps and the counters. *)
Lemma book_update d stale extra a buf buf' act ina nred npaired syms extra' :
  book d stale extra → buffer_state d !! a = Some buf → a ∉ stale →
  heap_ok act → (∀ b, wlookup act b = if decide (b = a) then act_w buf' else wlookup (buffers_active_usable d) b) →
  heap_ok ina → (∀ b, wlookup ina b = if decide (b = a) then ina_w buf' else wlookup (buffers_inactivated d) b) →
  nred + b2n (red buf) = num_redundant_buffers d + b2n (red buf') →
  npaired + extra' + b2n (paired (num_source_symbols (decoder_params d)) buf) =
  num_source_symbols_paired d + extra + b2n (paired (num_source_symbols (decoder_params d)) buf') →
  book (mkDecoder (decoder_params d) (<[a := buf']> (buffer_state d)) syms act ina nred npaired) stale extra'.
Proof.
  intros [] Ha Hst Hact Hactl Hina Hinal Hred Hpair. assert (a < length (buffer_state d)) as Halt by (by eapply lookup_lt_Some).
  split; cbn [buffers_active_usable buffers_inactivated buffer_state num_redundant_buffers num_source_symbols_paired decoder_params];
    [done|done| | | | | |by rewrite length_insert].
  - intros b. rewrite Hactl. case_decide as Hb; [subst; by rewrite list_lookup_insert_eq|by rewrite list_lookup_insert_ne].
  - intros b Hb'. rewrite Hinal. case_decide as Hb; [subst; by rewrite list_lookup_insert_eq|].
    rewrite list_lookup_insert_ne by done. auto.
  - intros b Hb. rewrite length_insert, Hinal. rewrite decide_False by (intros ->; done). auto.
  - pose proof (count_insert (λ b buf, red buf && bool_decide (b ∉ stale)) (buffer_state d) a buf buf' Ha) as Hc. simpl in Hc.
    rewrite (bool_decide_true (a ∉ stale)), !andb_true_r in Hc by done. lia.
  - pose proof (count_insert (λ _ buf, paired (num_source_symbols (decoder_params d)) buf) _ _ _ buf' Ha) as Hc. simpl in Hc. lia.
Qed.

(** A heap that does not change *)
Lemma wlookup_same (f : Buffer → option nat) h (bufs : list Buffer) a buf buf' :
  (wlookup h a = bufs !! a ≫= f) → bufs !! a = Some buf → f buf = f buf' →
  ∀ b, wlookup h b = if decide (b = a) then f buf' else wlookup h b.
Proof. intros Hl Ha Heq b. case_decide as Hb; [|done]. subst. rewrite Hl, Ha. by rewrite <-Heq. Qed.

(** The state of a buffer by its weight *)
Lemma state_spec b :
  (1 < active_used_weight b ∧ state b = BufferActive) ∨
  (active_used_weight b = 1 ∧ used b = false ∧ state b = BufferUsable) ∨
  (active_used_weight b = 1 ∧ used b = true ∧ state b = BufferUsed) ∨
  (active_used_weight b = 0 ∧ intermediate_symbol_ids b ≠ [] ∧ state b = BufferInactivated) ∨
  (active_used_weight b = 0 ∧ intermediate_symbol_ids b = [] ∧ state b = BufferRedundant).
Proof.
  unfold state. case_bool_decide as H1; [by left|]. destruct (decide (active_used_weight b = 1)) as [Hw|Hw].
  - rewrite bool_decide_true by done. destruct (used b); simpl; tauto.
  - rewrite !bool_decide_false by done. simpl. case_bool_decide as H2; [|assert (intermediate_symbol_ids b = []) by (destruct (intermediate_symbol_ids b); [done|by destruct H2])];
      do 3 right; [left|right]; split_and!; done || lia.
Qed.

(** What a buffer is in the heaps and the counters, by its weight *)
Lemma active_facts b :
  0 < active_used_weight b → used b = false →
  act_w b = Some (active_used_weight b) ∧ ina_w b = None ∧ red b = false ∧ ∀ k, paired k b = false.
Proof.
  intros Hw Hu. unfold act_w, ina_w, red, paired, is_paired.
  destruct (state_spec b) as [[? ->]|[(? & ? & ->)|[(? & ? & ->)|[(? & ? & ->)|(? & ? & ->)]]]]; done || congruence || lia.
Qed.
Lemma used_facts b :
  active_used_weight b = 1 → used b = true →
  act_w b = None ∧ ina_w b = None ∧ red b = false ∧
  ∀ k, paired k b = match intermediate_symbol_ids b with [s] => bool_decide (s < k) | _ => false end.
Proof.
  intros Hw Hu. unfold act_w, ina_w, red, paired, is_paired.
  destruct (state_spec b) as [[? ->]|[(? & ? & ->)|[(? & ? & ->)|[(? & ? & ->)|(? & ? & ->)]]]]; try (congruence || lia).
  split_and!; [done..|]. intros k. rewrite bool_decide_true by done. by destruct (intermediate_symbol_ids b) as [|s [|]].
Qed.
Lemma inactivated_facts b :
  active_used_weight b = 0 → intermediate_symbol_ids b ≠ [] →
  act_w b = None ∧ ina_w b = Some (length (intermediate_symbol_ids b)) ∧ red b = false ∧ ∀ k, paired k b = false.
Proof.
  intros Hw Hids. unfold act_w, ina_w, red, paired, is_paired.
  destruct (state_spec b) as [[? ->]|[(? & ? & ->)|[(? & ? & ->)|[(? & ? & ->)|(? & ? & ->)]]]]; done || congruence || lia.
Qed.
Lemma redundant_facts b :
  active_used_weight b = 0 → intermediate_symbol_ids b = [] →
  act_w b = None ∧ ina_w b = None ∧ red b = true ∧ ∀ k, paired k b = false.
Proof.
  intros Hw Hids. unfold act_w, ina_w, red, paired, is_paired.
  destruct (state_spec b) as [[? ->]|[(? & ? & ->)|[(? & ? & ->)|[(? & ? & ->)|(? & ? & ->)]]]]; done || congruence || lia.
Qed.

Lemma ids_small L (ids : list nat) : StronglySorted lt ids → Forall (λ s, s < L) ids → length ids <= L.
Proof.
  intros Hs Hf. rewrite <-(length_seq L 0). apply submseteq_length, NoDup_submseteq; [by apply strict_NoDup|].
  rewrite Forall_forall in Hf. intros x Hx%Hf. apply elem_of_seq. lia.
Qed.

Lemma weight_u16_ok n : (0 < Z.of_nat n <= 65535)%Z → weight_u16 n = Ret n.
Proof. intros Hn. unfold weight_u16, nonzero_u16. rewrite to_u16_ok by lia. cbn [mbind exec_bind]. by rewrite bool_decide_true by lia. Qed.

Lemma count_lt f l a b : l !! a = Some b → f a b = false → count f l < length l.
Proof.
  intros Ha Hf. set (g := λ j x, if decide (j = a) then true else f j x).
  assert (count f l + b2n (g a b) = count g l + b2n (f a b)) as Hc.
  { apply count_change; [done|]. intros j x _ Hj. unfold g. by rewrite decide_False. }
  unfold g at 1 in Hc. rewrite decide_True, Hf in Hc by done. simpl in Hc. pose proof (count_le g 0 l). lia.
Qed.

(** One more redundant buffer *)
Lemma add_redundant_spec d stale extra h a buf :
  book d stale extra → buffer_state d !! a = Some buf → red buf = false ∨ a ∈ stale →
  num_redundant_buffers h = num_redundant_buffers d →
  add_redundant h = Ret (mkDecoder (decoder_params h) (buffer_state h) (intermediate_symbol_state h) (buffers_active_usable h)
                           (buffers_inactivated h) (S (num_redundant_buffers d)) (num_source_symbols_paired h)).
Proof.
  intros [] Ha Hred Heq. unfold add_redundant. rewrite Heq, to_u16_ok; [done|].
  pose proof (count_lt (λ b buf, red buf && bool_decide (b ∉ stale)) (buffer_state d) a buf Ha) as Hlt. simpl in Hlt.
  rewrite <-bk_red0 in Hlt. assert (num_redundant_buffers d < length (buffer_state d)); [|lia]. apply Hlt.
  destruct Hred as [->|Hst]; [done|]. by rewrite (bool_decide_false (a ∉ stale)), andb_false_r by tauto.
Qed.

(** [decrement_buffer_weight] of a buffer that is not used *)
Lemma decrement_spec d stale extra a buf w :
  book d stale extra → buffer_state d !! a = Some buf → a ∉ stale →
  active_used_weight buf = S w → used buf = false → (Z.of_nat (length (intermediate_symbol_ids buf)) <= 65535)%Z →
  ∃ d', decrement_buffer_weight d a = Ret d' ∧ book d' stale extra ∧ decoder_params d' = decoder_params d ∧
    intermediate_symbol_state d' = intermediate_symbol_state d ∧
    buffer_state d' = <[a := set_weight buf w]> (buffer_state d).
Proof.
  intros Hbk Ha Hst Hw Hu Hlen. pose proof Hbk as []. unfold decrement_buffer_weight. rewrite Ha. cbn [expect mbind exec_bind].
  rewrite Hw. cbn [decrement mbind exec_bind].
  destruct (active_facts buf) as (Hact & Hinaw & Hred & Hpaired); [lia|done|]. rewrite Hw in Hact.
  assert (wlookup (buffers_active_usable d) a = Some (S w)) as Hlook by (by rewrite bk_act0, Ha).
  assert (wlookup (buffers_inactivated d) a = None) as Hlooki by (rewrite bk_ina0, Ha by done; done).
  set (buf' := set_weight buf w). case_bool_decide as Hw0.
  - destruct (active_facts buf') as (Hact' & Hina' & Hred' & Hpaired'); [done..|]. dsimpl.
    destruct (heap_update_spec (buffers_active_usable d) a (S w) w) as (h & -> & Hok & Hl); [done..|]. dsimpl.
    eexists. split; [done|]. split; [|done]. eapply (book_update d stale extra a buf); rewrite ?Hred, ?Hred', ?Hpaired, ?Hpaired'; try done.
    + by rewrite Hact'.
    + eapply wlookup_same; [by apply bk_ina0|done|congruence].
  - assert (w = 0) as -> by lia. dsimpl.
    destruct (heap_remove_spec (buffers_active_usable d) a 1) as (h & -> & Hok & Hl); [done..|]. dsimpl.
    rewrite (bool_decide_true (1 = 1)) by done. dsimpl.
    unfold buf'. dsimpl. fold buf'. case_bool_decide as Hids.
    + rewrite weight_u16_ok by lia. dsimpl.
      destruct (heap_insert_spec (buffers_inactivated d) a (length (intermediate_symbol_ids buf))) as (h' & -> & Hok' & Hl'); [done..| |].
      { apply lookup_lt_Some in Ha. lia. }
      destruct (inactivated_facts buf') as (Hact' & Hina' & Hred' & Hpaired'); [done|by intros Heq; simpl in Heq; rewrite Heq in Hids; simpl in Hids; lia|].
      dsimpl. eexists. split; [done|]. split; [|done].
      eapply (book_update d stale extra a buf); rewrite ?Hred, ?Hred', ?Hpaired, ?Hpaired', ?Hact', ?Hina'; done.
    + destruct (redundant_facts buf') as (Hact' & Hina' & Hred' & Hpaired');
        [done|simpl; by destruct (intermediate_symbol_ids buf); [|simpl in Hids; lia]|].
      erewrite (add_redundant_spec d stale extra); [|done..|by left|done].
      dsimpl. eexists. split; [done|]. split; [|done].
      eapply (book_update d stale extra a buf); rewrite ?Hred, ?Hred', ?Hpaired, ?Hpaired', ?Hact'; try done; [|simpl; lia].
      eapply wlookup_same; [by apply bk_ina0|done|congruence].
Qed.

(** * Buffers and symbols *)

Definition sym_buffers (s : IntermediateSymbol) : list nat :=
  match s with Active l | Inactivated l => l | Used b => [b] end.

(** The symbols of [ids] that are inactivated enter or leave buffer [a]. *)
Definition sym_toggle (a : nat) (ids : list nat) (syms syms' : list IntermediateSymbol) : Prop :=
  ∀ s, match syms !! s with
       | Some (Inactivated l) =>
           if decide (s ∈ ids)
           then ∃ l', syms' !! s = Some (Inactivated l') ∧ StronglySorted lt l' ∧ ∀ b, b ∈ l' ↔ if decide (b = a) then a ∉ l else b ∈ l
           else syms' !! s = syms !! s
       | x => syms' !! s = x
       end.

Lemma xor_eq_id_spec a ids syms s sym :
  StronglySorted lt ids → syms !! s = Some sym →
  match sym with Inactivated l => StronglySorted lt l ∧ (a ∈ l ↔ s ∈ ids) | _ => s ∈ ids end →
  ∃ ids' syms', xor_eq_id a (ids, syms) s = Ret (ids', syms') ∧ symdiff ids [s] ids' ∧ sym_toggle a [s] syms syms'.
Proof.
  intros Hids Hs Hsym. unfold xor_eq_id. rewrite Hs. dsimpl.
  assert (∀ sym', syms !! s = Some sym' → ¬ is_inactivated sym' → sym_toggle a [s] syms syms) as Hsame.
  { intros sym' Hs' Hni t. destruct (syms !! t) as [[l|l|b]|] eqn:Ht; [done| |done|done].
    rewrite decide_False; [done|]. intros ->%list_elem_of_singleton. rewrite Ht in Hs'. by simplify_eq. }
  destruct sym as [l|l|b]; cbn [is_inactivated negb].
  - destruct (set_remove_spec ids s) as (ids' & -> & Hs' & Hperm); [done..|]. dsimpl. exists ids', syms.
    split; [done|]. split; [|apply (Hsame (Active l)); [done|intros []]]. apply toggled_symdiff; [done|]. split; [done|]. by rewrite decide_True.
  - destruct Hsym as [Hl Hiff]. destruct (insert_or_remove_spec ids s Hids) as [Htog Hb].
    destruct (OrderedSet.insert_or_remove ids s) as [ids' inserted] eqn:Heq. simpl in Htog, Hb. subst inserted.
    assert (∃ l', (if bool_decide (s ∉ ids) then inactivated_insert (Inactivated l) a else inactivated_remove (Inactivated l) a) =
              Ret (Inactivated l') ∧ StronglySorted lt l' ∧ ∀ b, b ∈ l' ↔ if decide (b = a) then a ∉ l else b ∈ l) as (l' & -> & Hl' & Hin').
    { unfold inactivated_insert, inactivated_remove. case_bool_decide as Hin.
      - destruct (set_insert_spec l a) as (l' & -> & Hl' & Hperm); [done|tauto|]. dsimpl. exists l'. split; [done|]. split; [done|].
        intros b. rewrite Hperm, elem_of_cons. case_decide; [subst; tauto|tauto].
      - destruct (set_remove_spec l a) as (l' & -> & Hl' & Hperm); [done|destruct (decide (s ∈ ids)); tauto|]. dsimpl. exists l'.
        split; [done|]. split; [done|]. intros b. assert (a ∉ l').
        { apply strict_NoDup in Hl. rewrite Hperm in Hl. by apply NoDup_cons in Hl as [? _]. }
        case_decide; rewrite Hperm, elem_of_cons; [subst; tauto|tauto]. }
    dsimpl. eexists _, _. split; [done|]. split; [by apply toggled_symdiff|]. intros t.
    destruct (decide (t = s)) as [->|Hne].
    + rewrite Hs, decide_True by (by apply list_elem_of_singleton). exists l'.
      split; [|done]. apply list_lookup_insert_eq. by eapply lookup_lt_Some.
    + rewrite list_lookup_insert_ne by done. destruct (syms !! t) as [[|l0|]|]; [done| |done|done].
      by rewrite decide_False by (by rewrite list_elem_of_singleton).
  - destruct (set_remove_spec ids s) as (ids' & -> & Hs' & Hperm); [done..|]. dsimpl. exists ids', syms.
    split; [done|]. split; [|apply (Hsame (Used b)); [done|intros []]]. apply toggled_symdiff; [done|]. split; [done|]. by rewrite decide_True.
Qed.

Lemma sym_toggle_cons a s ids syms syms1 syms2 :
  s ∉ ids → sym_toggle a [s] syms syms1 → sym_toggle a ids syms1 syms2 → sym_toggle a (s :: ids) syms syms2.
Proof.
  intros Hs H1 H2 t. specialize (H1 t). specialize (H2 t). destruct (syms !! t) as [[l|l|b]|]; [by rewrite H1 in H2| |by rewrite H1 in H2..].
  destruct (decide (t = s)) as [->|Hne].
  - rewrite decide_True in H1 by (by apply list_elem_of_singleton). rewrite decide_True by left.
    destruct H1 as (l' & Heq & Hl' & Hin). rewrite Heq, decide_False in H2 by done. by exists l'.
  - rewrite decide_False in H1 by (by rewrite list_elem_of_singleton). rewrite H1 in H2.
    destruct (decide (t ∈ ids)) as [Hin|Hin].
    + rewrite decide_True by (by right). done.
    + rewrite decide_False; [done|]. rewrite elem_of_cons. tauto.
Qed.

Lemma xor_eq_fold_spec a ids syms k :
  StronglySorted lt ids → NoDup k →
  (∀ s, s ∈ k → ∃ sym, syms !! s = Some sym ∧
     match sym with Inactivated l => StronglySorted lt l ∧ (a ∈ l ↔ s ∈ ids) | _ => s ∈ ids end) →
  ∃ ids' syms', foldM (xor_eq_id a) (ids, syms) k = Ret (ids', syms') ∧ symdiff ids k ids' ∧ sym_toggle a k syms syms'.
Proof.
  revert ids syms. induction k as [|s k IH]; intros ids syms Hids Hk Hs; cbn [foldM].
  { exists ids, syms. split; [done|]. split; [split; [done|]; intros x; rewrite elem_of_nil; tauto|].
    intros t. destruct (syms !! t) as [[]|]; done. }
  apply NoDup_cons in Hk as [Hsk Hk]. destruct (Hs s) as (sym & Hsym & Hok); [left|].
  destruct (xor_eq_id_spec a ids syms s sym Hids Hsym Hok) as (ids1 & syms1 & -> & Hd1 & Ht1). cbn [mbind exec_bind].
  destruct (IH ids1 syms1) as (ids2 & syms2 & -> & Hd2 & Ht2); [apply Hd1|done| |].
  { intros t Ht. destruct (Hs t) as (symt & Hst & Hokt); [by right|]. assert (t ≠ s) as Hne by congruence.
    assert (syms1 !! t = Some symt) as Hst1.
    { specialize (Ht1 t). rewrite Hst in Ht1. destruct symt; [done| |done].
      by rewrite decide_False in Ht1 by (by rewrite list_elem_of_singleton). }
    exists symt. split; [done|]. destruct Hd1 as [_ Hin1]. specialize (Hin1 t). rewrite list_elem_of_singleton in Hin1.
    destruct symt; [tauto| |tauto]. destruct Hokt. tauto. }
  exists ids2, syms2. split; [done|]. split; [by eapply symdiff_cons|by eapply sym_toggle_cons].
Qed.

Definition holds (syms : list IntermediateSymbol) (s b : nat) : Prop := ∃ sym, syms !! s = Some sym ∧ b ∈ sym_buffers sym.
Definition noninact (syms : list IntermediateSymbol) (s : nat) : bool :=
  match syms !! s with Some (Inactivated _) => false | _ => true end.

Lemma sym_toggle_kind a ids syms syms' s :
  sym_toggle a ids syms syms' →
  noninact syms' s = noninact syms s ∧ (∀ b, syms' !! s = Some (Used b) ↔ syms !! s = Some (Used b)) ∧
  (is_Some (syms' !! s) ↔ is_Some (syms !! s)).
Proof.
  intros Ht. specialize (Ht s). unfold noninact. destruct (syms !! s) as [[l|l|b]|].
  - rewrite Ht. naive_solver.
  - case_decide; [destruct Ht as (l' & Heq & _); rewrite Heq|rewrite Ht]; (split; [done|]); split; naive_solver.
  - rewrite Ht. naive_solver.
  - rewrite Ht. naive_solver.
Qed.

Lemma sym_toggle_length a ids syms syms' : sym_toggle a ids syms syms' → length syms' = length syms.
Proof.
  intros Ht. assert (∀ s, s < length syms' ↔ s < length syms) as Hlt.
  { intros s. rewrite <-!lookup_lt_is_Some. by eapply sym_toggle_kind. }
  pose proof (Hlt (length syms)). pose proof (Hlt (length syms')). lia.
Qed.

Lemma sym_toggle_holds a ids syms syms' s b :
  sym_toggle a ids syms syms' →
  holds syms' s b ↔ if decide (s ∈ ids ∧ noninact syms s = false ∧ b = a) then ¬ holds syms s a else holds syms s b.
Proof.
  intros Ht. specialize (Ht s). unfold holds, noninact. destruct (syms !! s) as [[l|l|b']|].
  - rewrite Ht, decide_False by naive_solver. done.
  - destruct (decide (s ∈ ids)) as [Hs|Hs].
    + destruct Ht as (l' & -> & _ & Hin). case_decide as Hb.
      * destruct Hb as (_ & _ & ->). specialize (Hin a). rewrite decide_True in Hin by done. naive_solver.
      * specialize (Hin b). rewrite decide_False in Hin by tauto. naive_solver.
    + rewrite Ht, decide_False by naive_solver. done.
  - rewrite Ht, decide_False by naive_solver. done.
  - rewrite Ht, decide_False by naive_solver. done.
Qed.

Lemma sym_toggle_sorted a ids syms syms' s sym' :
  (∀ sym, syms !! s = Some sym → StronglySorted lt (sym_buffers sym)) → sym_toggle a ids syms syms' →
  syms' !! s = Some sym' → StronglySorted lt (sym_buffers sym').
Proof.
  intros Hs Ht Hs'. specialize (Ht s). destruct (syms !! s) as [[l|l|b]|];
    [rewrite Hs' in Ht; injection Ht as ->; by apply Hs| |rewrite Hs' in Ht; injection Ht as ->; by apply Hs|congruence].
  case_decide; [destruct Ht as (l' & Heq & Hl' & _); by simplify_eq|].
  rewrite Hs' in Ht. injection Ht as ->. by apply Hs.
Qed.

(** While symbol [s0] is taken out of the buffers [pending]: they still hold it,
    and if [flip] is set their weights count it the way they did before. *)
Definition counted (syms : list IntermediateSymbol) (s0 : nat) (pending : list nat) (flip : bool) (b s : nat) : bool :=
  xorb (noninact syms s) (flip && bool_decide (s = s0 ∧ b ∈ pending)).

Definition wcount (f : nat → bool) (ids : list nat) : nat := length (filter (λ s, f s = true) ids).

Record struct_ok (d : Decoder) (s0 : nat) (pending : list nat) (flip : bool) : Prop := {
  st_params : params_ok (decoder_params d);
  st_length : length (intermediate_symbol_state d) = num_intermediate_symbols (decoder_params d);
  st_ids : ∀ b buf, buffer_state d !! b = Some buf →
    StronglySorted lt (intermediate_symbol_ids buf) ∧
    Forall (λ s, s < num_intermediate_symbols (decoder_params d)) (intermediate_symbol_ids buf);
  st_sym : ∀ s sym, intermediate_symbol_state d !! s = Some sym → StronglySorted lt (sym_buffers sym);
  st_range : ∀ s b, holds (intermediate_symbol_state d) s b → b < length (buffer_state d);
  st_match : ∀ b s buf, buffer_state d !! b = Some buf → s < num_intermediate_symbols (decoder_params d) →
    s ∈ intermediate_symbol_ids buf ↔ holds (intermediate_symbol_state d) s b ∨ (s = s0 ∧ b ∈ pending);
  st_pending : ∀ b, b ∈ pending → b < length (buffer_state d) ∧ intermediate_symbol_state d !! s0 ≠ Some (Used b);
  st_weight : ∀ b buf, buffer_state d !! b = Some buf →
    active_used_weight buf = wcount (counted (intermediate_symbol_state d) s0 pending flip b) (intermediate_symbol_ids buf);
  st_used : ∀ b buf, buffer_state d !! b = Some buf → used buf = true →
    active_used_weight buf = 1 ∧ ∃ s, intermediate_symbol_state d !! s = Some (Used b);
  st_used_sym : ∀ s b, intermediate_symbol_state d !! s = Some (Used b) → ∃ buf, buffer_state d !! b = Some buf ∧ used buf = true;
}.

Lemma wcount_one f ids s :
  NoDup ids → wcount f ids = 1 → s ∈ ids → f s = true → ∀ x, x ∈ ids → f x = true → x = s.
Proof.
  unfold wcount. intros Hnd Hone Hs Hfs x Hx Hfx.
  destruct (filter (λ s, f s = true) ids) as [|y [|]] eqn:Hf; [done| |done].
  assert (s ∈ [y]) as Hsy by (rewrite <-Hf; by apply list_elem_of_filter).
  assert (x ∈ [y]) as Hxy by (rewrite <-Hf; by apply list_elem_of_filter).
  apply list_elem_of_singleton in Hsy, Hxy. congruence.
Qed.
Lemma wcount_pos f ids s : s ∈ ids → f s = true → 0 < wcount f ids.
Proof.
  intros Hs Hf. unfold wcount. assert (s ∈ filter (λ s, f s = true) ids) as Hin by (by apply list_elem_of_filter).
  destruct (filter _ ids); [by apply elem_of_nil in Hin|simpl; lia].
Qed.
Lemma wcount_elem f ids : 0 < wcount f ids → ∃ s, s ∈ ids ∧ f s = true.
Proof.
  unfold wcount. destruct (filter (λ s, f s = true) ids) as [|s l] eqn:Hf; simpl; [lia|]. intros _. exists s.
  assert (s ∈ filter (λ s, f s = true) ids) as Hin by (rewrite Hf; left). apply list_elem_of_filter in Hin. tauto.
Qed.
Lemma wcount_ext f g ids : (∀ s, s ∈ ids → f s = g s) → wcount f ids = wcount g ids.
Proof.
  intros H. unfold wcount. f_equal. apply filter_ext_elem. intros s Hs. by rewrite H.
Qed.

Section struct_facts.
Context (d : Decoder) (s0 : nat) (pending : list nat) (flip : bool) (Hst : struct_ok d s0 pending flip).
Notation syms := (intermediate_symbol_state d).
Notation L := (num_intermediate_symbols (decoder_params d)).

Lemma id_lt b buf s : buffer_state d !! b = Some buf → s ∈ intermediate_symbol_ids buf → s < L.
Proof. intros Hb Hs. destruct (st_ids _ _ _ _ Hst b buf Hb) as [_ Hf]. rewrite Forall_forall in Hf. by apply Hf. Qed.
Lemma id_sym b buf s : buffer_state d !! b = Some buf → s ∈ intermediate_symbol_ids buf → ∃ sym, syms !! s = Some sym.
Proof. intros Hb Hs. apply lookup_lt_is_Some_2. rewrite (st_length _ _ _ _ Hst). by eapply id_lt. Qed.
Lemma ids_length b buf : buffer_state d !! b = Some buf → (Z.of_nat (length (intermediate_symbol_ids buf)) <= 65535)%Z.
Proof.
  intros Hb. destruct (st_ids _ _ _ _ Hst b buf Hb) as [Hs Hf]. pose proof (ids_small _ _ Hs Hf).
  pose proof (ok_prime_range _ (st_params _ _ _ _ Hst)). lia.
Qed.
Lemma holds_lt s b : holds syms s b → s < L.
Proof. intros (sym & Hs & _). rewrite <-(st_length _ _ _ _ Hst). by eapply lookup_lt_Some. Qed.

(** A used buffer holds the symbol it is used for, and counts no other. *)
Lemma used_symbol b buf :
  buffer_state d !! b = Some buf → used buf = true →
  ∃ s, syms !! s = Some (Used b) ∧ s ∈ intermediate_symbol_ids buf ∧
    ∀ x, x ∈ intermediate_symbol_ids buf → counted syms s0 pending flip b x = true → x = s.
Proof.
  intros Hb Hu. destruct (st_used _ _ _ _ Hst b buf Hb Hu) as (Hw & s & Hs). exists s.
  assert (s ∈ intermediate_symbol_ids buf) as Hin.
  { apply (st_match _ _ _ _ Hst b s buf Hb); [rewrite <-(st_length _ _ _ _ Hst); by eapply lookup_lt_Some|].
    left. exists (Used b). split; [done|]. left. }
  split_and!; [done..|]. rewrite (st_weight _ _ _ _ Hst b buf Hb) in Hw.
  apply wcount_one; [|done|done|].
  - by apply strict_NoDup, (st_ids _ _ _ _ Hst b buf Hb).
  - unfold counted, noninact. rewrite Hs. rewrite bool_decide_false, andb_false_r; [done|]. intros [-> Hp].
    by apply (st_pending _ _ _ _ Hst b Hp).
Qed.

(** A counted symbol of a buffer that is not used is active, or [s0]. *)
Lemma unused_symbol b buf s :
  buffer_state d !! b = Some buf → used buf = false → s ∈ intermediate_symbol_ids buf → noninact syms s = true →
  (∃ l, syms !! s = Some (Active l)) ∨ (s = s0 ∧ b ∈ pending).
Proof.
  intros Hb Hu Hs Hn. destruct (id_sym b buf s Hb Hs) as [sym Hsym]. unfold noninact in Hn. rewrite Hsym in Hn.
  destruct sym as [l|l|b']; [left; by exists l|done|].
  apply (st_match _ _ _ _ Hst b s buf Hb) in Hs; [|rewrite <-(st_length _ _ _ _ Hst); by eapply lookup_lt_Some].
  destruct Hs as [(sym & Hs & Hin)|Hs]; [|by right]. assert (sym = Used b') as -> by congruence.
  apply list_elem_of_singleton in Hin as ->.
  destruct (st_used_sym _ _ _ _ Hst s b' Hsym) as (buf' & Hb' & Hu'). congruence.
Qed.
End struct_facts.

(** * The contents of the buffers *)

Definition ids_of (d : Decoder) : list (list nat) := map intermediate_symbol_ids (buffer_state d).

Record data_ok (n : nat) (d : Decoder) (st : BufferSet) : Prop := {
  dt_temp : num_temp_buffers st = num_redundant_intermediate_symbols d;
  dt_length : length (buffers st) = length (buffer_state d);
  dt_symbols : Forall (λ x, length x = n) (buffers st);
}.

(** The intermediate symbols [C] explain the contents [data] of buffers that hold
    [ids]. *)
Definition explains (n : nat) (C : nat → symbol) (ids : list (list nat)) (data : list bytes) : Prop :=
  ∀ b l x, ids !! b = Some l → data !! b = Some x → x = xsum n C l.

Definition same_solutions (n : nat) (ids : list (list nat)) (data : list bytes) (ids' : list (list nat)) (data' : list bytes) : Prop :=
  ∀ C, (∀ i, length (C i) = n) → explains n C ids data ↔ explains n C ids' data'.

Lemma same_solutions_refl n ids data : same_solutions n ids data ids data.
Proof. by intros C. Qed.
Lemma same_solutions_trans n ids data ids1 data1 ids2 data2 :
  same_solutions n ids data ids1 data1 → same_solutions n ids1 data1 ids2 data2 → same_solutions n ids data ids2 data2.
Proof. intros H1 H2 C HC. specialize (H1 C HC). specialize (H2 C HC). tauto. Qed.

(** Adding buffer [b] to buffer [a] keeps the solutions. *)
Lemma row_op_solutions n ids data a b la lb x y l' :
  a ≠ b → ids !! a = Some la → ids !! b = Some lb → data !! a = Some x → data !! b = Some y →
  length x = n → length y = n → NoDup la → NoDup lb → symdiff la lb l' →
  same_solutions n ids data (<[a := l']> ids) (<[a := xor_bytes x y]> data).
Proof.
  intros Hab Ha Hb Hx Hy Hlx Hly Hnda Hndb Hd C HC.
  pose proof (symdiff_xsum la lb l' Hnda Hndb Hd n C HC) as Hsum.
  assert (length (xsum n C la) = n) as Hca by (by apply xsum_length).
  assert (length (xsum n C lb) = n) as Hcb by (by apply xsum_length).
  split; intros H c l z.
  - destruct (decide (c = a)) as [->|Hne].
    + rewrite !list_lookup_insert_eq by (by eapply lookup_lt_Some). intros [= <-] [= <-].
      by rewrite Hsum, (H a la x Ha Hx), (H b lb y Hb Hy).
    + rewrite !list_lookup_insert_ne by done. apply H.
  - assert (y = xsum n C lb) as Hy' by (apply (H b); by rewrite list_lookup_insert_ne).
    destruct (decide (c = a)) as [->|Hne].
    + intros Hl Hz. rewrite Ha in Hl. rewrite Hx in Hz. injection Hl as <-. injection Hz as <-.
      assert (xor_bytes x y = xsum n C l') as Hxy by (apply (H a); by rewrite list_lookup_insert_eq by (by eapply lookup_lt_Some)).
      rewrite Hsum, Hy' in Hxy. apply (f_equal (λ v, xor_bytes v (xsum n C lb))) in Hxy.
      by rewrite !(xor_bytes_cancel n) in Hxy.
    + intros Hl Hz. apply (H c); by rewrite list_lookup_insert_ne.
Qed.

Lemma buffer_index_id d st i :
  num_temp_buffers st = num_redundant_intermediate_symbols d → buffer_index st (buffer_index_to_buffer_id d i) = i.
Proof. intros Ht. unfold buffer_index_to_buffer_id. case_bool_decide; simpl; lia. Qed.

Lemma xor_indices_buffers n d st a b :
  num_temp_buffers st = num_redundant_intermediate_symbols d → Forall (λ x, length x = n) (buffers st) →
  a < length (buffers st) → b < length (buffers st) → a ≠ b →
  ∃ st' x y, xor_indices xor_buffers d a b st = Ret st' ∧ buffers st !! a = Some x ∧ buffers st !! b = Some y ∧
    length x = n ∧ length y = n ∧ num_temp_buffers st' = num_temp_buffers st ∧
    buffers st' = <[a := xor_bytes x y]> (buffers st) ∧ Forall (λ x, length x = n) (buffers st').
Proof.
  intros Ht Hf Ha Hb Hne. unfold xor_indices, xor_buffers. rewrite !buffer_index_id by done.
  rewrite bool_decide_true by done. destruct (lookup_lt_is_Some_2 (buffers st) a Ha) as [x Hx].
  destruct (lookup_lt_is_Some_2 (buffers st) b Hb) as [y Hy]. rewrite Hx, Hy. dsimpl.
  rewrite Forall_lookup in Hf. pose proof (Hf _ _ Hx) as Hlx. pose proof (Hf _ _ Hy) as Hly.
  rewrite bool_decide_true by congruence. dsimpl. eexists _, x, y. split_and!; try done.
  apply Forall_insert; [by apply Forall_lookup|]. by apply xor_bytes_length.
Qed.
Lemma xor_indices_spec n d st a b :
  data_ok n d st → a < length (buffer_state d) → b < length (buffer_state d) → a ≠ b →
  ∃ st' x y, xor_indices xor_buffers d a b st = Ret st' ∧ buffers st !! a = Some x ∧ buffers st !! b = Some y ∧
    length x = n ∧ length y = n ∧ num_temp_buffers st' = num_temp_buffers st ∧
    buffers st' = <[a := xor_bytes x y]> (buffers st) ∧ Forall (λ x, length x = n) (buffers st').
Proof. intros [Ht Hl Hf] Ha Hb Hne. apply xor_indices_buffers; done || lia. Qed.

(** * The parts of the invariant together *)

Definition kind (s : IntermediateSymbol) : nat := match s with Active _ => 2 | Inactivated _ => 1 | Used _ => 0 end.

Record frame (d d' : Decoder) : Prop := {
  fr_params : decoder_params d' = decoder_params d;
  fr_length : length (buffer_state d') = length (buffer_state d);
  fr_redundant : num_redundant_buffers d <= num_redundant_buffers d';
}.

Lemma frame_refl d : frame d d.
Proof. done. Qed.
Lemma frame_trans d1 d2 d3 : frame d1 d2 → frame d2 d3 → frame d1 d3.
Proof. intros [] []. split; congruence || lia. Qed.

Record inv (n : nat) (d : Decoder) (st : BufferSet) (s0 : nat) (pending : list nat) (flip : bool) (stale : list nat) (extra : nat) : Prop := {
  inv_struct : struct_ok d s0 pending flip;
  inv_book : book d stale extra;
  inv_data : data_ok n d st;
}.

Lemma data_ok_frame n d d' st st' :
  data_ok n d st → decoder_params d' = decoder_params d → length (buffer_state d') = length (buffer_state d) →
  num_temp_buffers st' = num_temp_buffers st → length (buffers st') = length (buffers st) →
  Forall (λ x, length x = n) (buffers st') → data_ok n d' st'.
Proof.
  intros [Ht Hl Hf] Hp Hlen Hn Hb Hf'. split; [|lia|done]. rewrite Hn, Ht. unfold num_redundant_intermediate_symbols. by rewrite Hp.
Qed.
