(* ===== verification/RaptorDecoderSteps.v ===== *)
(** Each operation of the Raptor decoder keeps the invariant and the solutions. *)

From S2P Require Import Prelude Types ValidatorSet Crypto RaptorTables RaptorCode RaptorCodeProps RaptorEncoderProps.
From S2P Require Import RaptorStructs RaptorSetProps RaptorHeapProps RaptorMatrixProps RaptorDecoder RaptorDecoderInv.

#[local] Open Scope nat_scope.

(** * One buffer changes *)

Lemma counted_ext syms syms' s0 P P' flip b s :
  noninact syms' s = noninact syms s → (b ∈ P' ↔ b ∈ P) → counted syms' s0 P' flip b s = counted syms s0 P flip b s.
Proof. intros Hn Hp. unfold counted. rewrite Hn. do 2 f_equal. apply bool_decide_ext. tauto. Qed.

Lemma struct_change d d' s0 P P' flip a ba ba' k :
  struct_ok d s0 P flip → buffer_state d !! a = Some ba →
  decoder_params d' = decoder_params d → buffer_state d' = <[a := ba']> (buffer_state d) →
  sym_toggle a k (intermediate_symbol_state d) (intermediate_symbol_state d') →
  (∀ b, b ≠ a → b ∈ P' ↔ b ∈ P) → (a ∈ P' → a ∈ P) →
  StronglySorted lt (intermediate_symbol_ids ba') →
  Forall (λ s, s < num_intermediate_symbols (decoder_params d)) (intermediate_symbol_ids ba') →
  (∀ s, s < num_intermediate_symbols (decoder_params d) →
     s ∈ intermediate_symbol_ids ba' ↔ holds (intermediate_symbol_state d') s a ∨ (s = s0 ∧ a ∈ P')) →
  active_used_weight ba' = wcount (counted (intermediate_symbol_state d) s0 P' flip a) (intermediate_symbol_ids ba') →
  used ba' = used ba → (used ba' = true → active_used_weight ba' = 1) →
  struct_ok d' s0 P' flip.
Proof.
  intros [Hpar Hlen Hids Hsym Hrange Hmatch Hpend Hwt Hus Huss] Ha Hp Hbufs Ht HP HPa Hs Hf Hm Hw Hu Hu1. assert (a < length (buffer_state d)) as Hal by (by eapply lookup_lt_Some).
  assert (∀ s, noninact (intermediate_symbol_state d') s = noninact (intermediate_symbol_state d) s) as Hkind
    by (intros s; by eapply sym_toggle_kind).
  assert (∀ s b, intermediate_symbol_state d' !! s = Some (Used b) ↔ intermediate_symbol_state d !! s = Some (Used b)) as Hused
    by (intros s b; by eapply sym_toggle_kind).
  assert (∀ s b, b ≠ a → holds (intermediate_symbol_state d') s b ↔ holds (intermediate_symbol_state d) s b) as Hholds.
  { intros s b Hb. rewrite (sym_toggle_holds a k _ _ s b Ht). by rewrite decide_False by tauto. }
  assert (∀ b buf, buffer_state d' !! b = Some buf → b = a ∧ buf = ba' ∨ b ≠ a ∧ buffer_state d !! b = Some buf) as Hlook.
  { intros b buf. rewrite Hbufs. destruct (decide (b = a)) as [->|Hb].
    - rewrite list_lookup_insert_eq by done. naive_solver.
    - rewrite list_lookup_insert_ne by done. naive_solver. }
  split; rewrite ?Hp; [done| | | | | | | | |].
  - by rewrite (sym_toggle_length _ _ _ _ Ht).
  - intros b buf [[-> ->]|[_ Hb]]%Hlook; [done|]. by apply (Hids b).
  - intros s sym. eapply sym_toggle_sorted; [|done]. apply Hsym.
  - intros s b. rewrite Hbufs, length_insert. destruct (decide (b = a)) as [->|Hb]; [done|]. rewrite Hholds by done. apply Hrange.
  - intros b s buf [[-> ->]|[Hne Hb]]%Hlook Hs'; [by apply Hm|]. rewrite Hholds, HP by done. by apply Hmatch.
  - intros b Hb. rewrite Hbufs, length_insert, Hused. apply Hpend. destruct (decide (b = a)) as [->|Hne]; [auto|by apply HP].
  - intros b buf [[-> ->]|[Hne Hb]]%Hlook.
    + rewrite Hw. apply wcount_ext. intros s _. symmetry. by apply counted_ext.
    + rewrite (Hwt b buf Hb). apply wcount_ext. intros s _. symmetry. apply counted_ext; [done|by apply HP].
  - intros b buf [[-> ->]|[Hne Hb]]%Hlook Hu'.
    + split; [auto|]. destruct (Hus a ba Ha) as (_ & s & Hs'); [congruence|]. exists s. by apply Hused.
    + destruct (Hus b buf Hb Hu') as (Hw1 & s & Hs'). split; [done|]. exists s. by apply Hused.
  - intros s b Hsb%Hused. destruct (Huss s b Hsb) as (buf & Hb & Hub). rewrite Hbufs.
    destruct (decide (b = a)) as [->|Hne].
    + exists ba'. rewrite list_lookup_insert_eq by done. split; [done|]. congruence.
    + exists buf. by rewrite list_lookup_insert_ne.
Qed.

Lemma sym_toggle_nil a syms : sym_toggle a [] syms syms.
Proof. intros s. destruct (syms !! s) as [[]|]; done. Qed.

Lemma ids_of_insert d a ba' :
  map intermediate_symbol_ids (<[a := ba']> (buffer_state d)) = <[a := intermediate_symbol_ids ba']> (ids_of d).
Proof. apply list_fmap_insert. Qed.
Lemma ids_of_lookup d a ba : buffer_state d !! a = Some ba → ids_of d !! a = Some (intermediate_symbol_ids ba).
Proof. intros Ha. unfold ids_of. by rewrite list_lookup_fmap, Ha. Qed.
Lemma ids_of_same d a ba ba' :
  buffer_state d !! a = Some ba → intermediate_symbol_ids ba' = intermediate_symbol_ids ba →
  map intermediate_symbol_ids (<[a := ba']> (buffer_state d)) = ids_of d.
Proof. intros Ha Heq. rewrite ids_of_insert, Heq. apply list_insert_id. by apply ids_of_lookup. Qed.

Lemma two_xor_spec d ca cb a b ba bb :
  buffer_state d !! a = Some ba → buffer_state d !! b = Some bb → a ≠ b → ca (state ba) = true → cb (state bb) = true →
  StronglySorted lt (intermediate_symbol_ids ba) → NoDup (intermediate_symbol_ids bb) →
  (∀ s, s ∈ intermediate_symbol_ids bb → ∃ sym, intermediate_symbol_state d !! s = Some sym ∧
     match sym with
     | Inactivated l => StronglySorted lt l ∧ (a ∈ l ↔ s ∈ intermediate_symbol_ids ba)
     | _ => s ∈ intermediate_symbol_ids ba
     end) →
  ∃ ids' syms', buffer_two_xor_eq ca cb d a b =
      Ret (set_symbol_state (set_buffer_state d (<[a := set_ids ba ids']> (buffer_state d))) syms') ∧
    symdiff (intermediate_symbol_ids ba) (intermediate_symbol_ids bb) ids' ∧
    sym_toggle a (intermediate_symbol_ids bb) (intermediate_symbol_state d) syms'.
Proof.
  intros Ha Hb Hne Hca Hcb Hsa Hnb Hs. unfold buffer_two_xor_eq. rewrite bool_decide_true, Ha, Hb by done. dsimpl.
  rewrite Hca, Hcb. dsimpl.
  destruct (xor_eq_fold_spec a (intermediate_symbol_ids ba) (intermediate_symbol_state d) (intermediate_symbol_ids bb) Hsa Hnb Hs)
    as (ids' & syms' & -> & Hd & Ht). dsimpl. by exists ids', syms'.
Qed.

(** The identifiers of a buffer that stays active change. *)
Lemma book_set_ids d stale extra a ba ids' syms' :
  book d stale extra → buffer_state d !! a = Some ba → a ∉ stale → 0 < active_used_weight ba → used ba = false →
  book (set_symbol_state (set_buffer_state d (<[a := set_ids ba ids']> (buffer_state d))) syms') stale extra.
Proof.
  intros Hbk Ha Hst Hw Hu. pose proof (bk_act_ok _ _ _ Hbk). pose proof (bk_ina_ok _ _ _ Hbk).
  destruct (active_facts ba) as (Hact & Hina & Hred & Hpaired); [done..|].
  destruct (active_facts (set_ids ba ids')) as (Hact' & Hina' & Hred' & Hpaired'); [done..|].
  eapply (book_update d stale extra a ba); rewrite ?Hred, ?Hred', ?Hpaired, ?Hpaired'; try done.
  - eapply wlookup_same; [by apply (bk_act _ _ _ Hbk)|done|]. by rewrite Hact, Hact'.
  - eapply wlookup_same; [by apply (bk_ina _ _ _ Hbk)|done|congruence].
Qed.

(** Redundant buffers stay redundant. *)
Lemma redundant_mono d d' a ba ba' extra extra' :
  book d [] extra → book d' [] extra' → buffer_state d !! a = Some ba → red ba = false →
  buffer_state d' = <[a := ba']> (buffer_state d) → num_redundant_buffers d <= num_redundant_buffers d'.
Proof.
  intros Hbk Hbk' Ha Hr Hb. rewrite (bk_red _ _ _ Hbk), (bk_red _ _ _ Hbk'), Hb.
  pose proof (count_insert (λ b buf, red buf && bool_decide (b ∉ [])) (buffer_state d) a ba ba' Ha) as Hc.
  cbn beta in Hc. rewrite Hr in Hc. cbn [andb b2n] in Hc. lia.
Qed.

Lemma kinds_toggle a k syms syms' : sym_toggle a k syms syms' → map kind syms' = map kind syms.
Proof.
  intros Ht. apply list_eq. intros s. rewrite !list_lookup_fmap. specialize (Ht s).
  destruct (syms !! s) as [[l|l|b]|]; [by rewrite Ht| |by rewrite Ht..].
  case_decide; [destruct Ht as (l' & Heq & _); by rewrite Heq|by rewrite Ht].
Qed.

(** * Peeling *)

(** What the buffer [b] of a used symbol [s0] holds: no other counted symbol. *)
Lemma reducing_buffer d s0 P flip b :
  struct_ok d s0 P flip → intermediate_symbol_state d !! s0 = Some (Used b) →
  ∃ bb, buffer_state d !! b = Some bb ∧ used bb = true ∧ active_used_weight bb = 1 ∧ b ∉ P ∧
    s0 ∈ intermediate_symbol_ids bb ∧
    ∀ x, x ∈ intermediate_symbol_ids bb → noninact (intermediate_symbol_state d) x = true → x = s0.
Proof.
  intros Hst Hs0. destruct (st_used_sym _ _ _ _ Hst s0 b Hs0) as (bb & Hb & Hub). exists bb.
  destruct (st_used _ _ _ _ Hst b bb Hb Hub) as [Hw _].
  assert (b ∉ P) as HbP by (intros HbP; by destruct (st_pending _ _ _ _ Hst b HbP) as [_ []]).
  assert (∀ s, counted (intermediate_symbol_state d) s0 P flip b s = noninact (intermediate_symbol_state d) s) as Hcount.
  { intros s. unfold counted. rewrite bool_decide_false by tauto. by rewrite andb_false_r, xorb_false_r. }
  assert (noninact (intermediate_symbol_state d) s0 = true) as Hn by (unfold noninact; by rewrite Hs0).
  assert (s0 ∈ intermediate_symbol_ids bb) as Hin.
  { apply (st_match _ _ _ _ Hst b s0 bb Hb); [rewrite <-(st_length _ _ _ _ Hst); by eapply lookup_lt_Some|].
    left. exists (Used b). split; [done|left]. }
  destruct (used_symbol d s0 P flip Hst b bb Hb Hub) as (s & Hs & Hsin & Honly).
  assert (s0 = s) as <- by (apply Honly; [done|by rewrite Hcount]).
  split_and!; try done. intros x Hx Hnx. apply Honly; [done|by rewrite Hcount].
Qed.

Lemma counted_false syms s0 P b s : counted syms s0 P false b s = noninact syms s.
Proof. unfold counted. by rewrite andb_false_l, xorb_false_r. Qed.

(** A buffer [a] from which [s0] is still to be taken out, while its weight counts
    [s0] *)
Lemma pending_buffer d s0 P flip b a :
  struct_ok d s0 P flip → a ∈ P → intermediate_symbol_state d !! s0 = Some (Used b) →
  counted (intermediate_symbol_state d) s0 P flip a s0 = true →
  ∃ ba, buffer_state d !! a = Some ba ∧ s0 ∈ intermediate_symbol_ids ba ∧ used ba = false ∧ 0 < active_used_weight ba.
Proof.
  intros Hst HaP Hs0 Hc. destruct (st_pending _ _ _ _ Hst a HaP) as [Hal Hne]. destruct (lookup_lt_is_Some_2 _ _ Hal) as [ba Ha].
  assert (s0 ∈ intermediate_symbol_ids ba) as Hsa.
  { apply (st_match _ _ _ _ Hst a s0 ba Ha); [rewrite <-(st_length _ _ _ _ Hst); by eapply lookup_lt_Some|by right]. }
  exists ba. split_and!; [done..| |].
  - destruct (used ba) eqn:Hu; [|done]. destruct (used_symbol d s0 _ _ Hst a ba Ha Hu) as (s & Hs & _ & Hall).
    assert (s0 = s) as <- by (by apply Hall). congruence.
  - rewrite (st_weight _ _ _ _ Hst a ba Ha). by eapply wcount_pos.
Qed.

(** The symbols of the reducing buffer, in the reduced one *)
Lemma peel_symbols d s0 P b a ba bb s :
  struct_ok d s0 P false → intermediate_symbol_state d !! s0 = Some (Used b) →
  buffer_state d !! a = Some ba → buffer_state d !! b = Some bb → s0 ∈ intermediate_symbol_ids ba →
  (∀ x, x ∈ intermediate_symbol_ids bb → noninact (intermediate_symbol_state d) x = true → x = s0) →
  s ∈ intermediate_symbol_ids bb →
  ∃ sym, intermediate_symbol_state d !! s = Some sym ∧
    match sym with
    | Inactivated l => StronglySorted lt l ∧ (a ∈ l ↔ s ∈ intermediate_symbol_ids ba)
    | _ => s ∈ intermediate_symbol_ids ba
    end.
Proof.
  intros Hst Hs0 Ha Hb Hsa Honly Hs. destruct (id_sym d s0 _ _ Hst b bb s Hb Hs) as [sym Hsym]. exists sym. split; [done|].
  destruct (decide (s = s0)) as [->|Hne]; [rewrite Hs0 in Hsym; by injection Hsym as <-|].
  specialize (Honly s Hs). unfold noninact in Honly. rewrite Hsym in Honly. destruct sym as [l|l|b']; [naive_solver| |naive_solver].
  split; [by apply (st_sym _ _ _ _ Hst s _ Hsym)|]. rewrite (st_match _ _ _ _ Hst a s ba Ha) by (by eapply id_lt).
  unfold holds. naive_solver.
Qed.

Lemma symdiff_lt L l k r : Forall (λ s, s < L) l → Forall (λ s, s < L) k → symdiff l k r → Forall (λ s, s < L) r.
Proof. rewrite !Forall_forall. intros Hl Hk [_ Hin] x Hx%Hin. naive_solver. Qed.

(** Membership after the symbols of buffer [b] entered or left buffer [a] *)
Lemma symdiff_holds d s0 (P P' : list nat) a ba k ids' syms' :
  (∀ s, s < num_intermediate_symbols (decoder_params d) →
     s ∈ intermediate_symbol_ids ba ↔ holds (intermediate_symbol_state d) s a ∨ (s = s0 ∧ a ∈ P)) →
  symdiff (intermediate_symbol_ids ba) k ids' → sym_toggle a k (intermediate_symbol_state d) syms' →
  (∀ s, s ∈ k → noninact (intermediate_symbol_state d) s = true →
     s = s0 ∧ a ∈ P ∧ ¬ holds (intermediate_symbol_state d) s0 a) →
  (∀ s, s ∈ k → noninact (intermediate_symbol_state d) s = false → s ≠ s0 ∨ a ∉ P) → a ∉ P' → (a ∈ P → s0 ∈ k) →
  ∀ s, s < num_intermediate_symbols (decoder_params d) → s ∈ ids' ↔ holds syms' s a ∨ (s = s0 ∧ a ∈ P').
Proof.
  intros Hm [_ Hin] Ht Hyes Hno HaP' Hk s Hs. rewrite Hin, (sym_toggle_holds a k _ _ s a Ht). specialize (Hm s Hs).
  destruct (decide (s ∈ k)) as [Hsk|Hsk].
  - destruct (noninact (intermediate_symbol_state d) s) eqn:Hn.
    + rewrite decide_False by naive_solver. destruct (Hyes s Hsk Hn) as (-> & ? & ?). tauto.
    + rewrite decide_True by done. destruct (Hno s Hsk Hn); tauto.
  - rewrite decide_False by tauto. destruct (decide (s = s0)) as [->|]; tauto.
Qed.

Lemma peel_reducee_spec n d st s0 P b a extra :
  inv n d st s0 (a :: P) false [] extra → NoDup (a :: P) → intermediate_symbol_state d !! s0 = Some (Used b) →
  ∃ d' st', peel_reducee xor_buffers b (d, st) a = Ret (d', st') ∧ inv n d' st' s0 P false [] extra ∧ frame d d' ∧
    map kind (intermediate_symbol_state d') = map kind (intermediate_symbol_state d) ∧
    intermediate_symbol_state d' !! s0 = Some (Used b) ∧ buffer_state d' !! b = buffer_state d !! b ∧
    same_solutions n (ids_of d) (buffers st) (ids_of d') (buffers st').
Proof.
  intros [Hst Hbk Hdt] Hnd Hs0. apply NoDup_cons in Hnd as [HaP Hnd].
  destruct (reducing_buffer d s0 _ _ b Hst Hs0) as (bb & Hb & Hub & Hwb & HbP & Hsb & Honly).
  assert (a ≠ b) as Hab by (intros ->; apply HbP; left).
  assert (noninact (intermediate_symbol_state d) s0 = true) as Hn0 by (unfold noninact; by rewrite Hs0).
  destruct (pending_buffer d s0 (a :: P) false b a) as (ba & Ha & Hsa & Hua & Hwa); [done|left|done|by rewrite counted_false|].
  destruct (st_ids _ _ _ _ Hst a ba Ha) as [Hsorta Hlta]. destruct (st_ids _ _ _ _ Hst b bb Hb) as [Hsortb Hltb].
  pose proof (strict_NoDup _ Hsorta) as Hnda. pose proof (strict_NoDup _ Hsortb) as Hndb.
  unfold peel_reducee. rewrite bool_decide_true by done. unfold buffer_peel_xor_eq.
  destruct (two_xor_spec d (λ s, bool_decide (s = BufferActive ∨ s = BufferUsable)) (λ s, bool_decide (s = BufferUsed)) a b ba bb)
    as (ids' & syms' & -> & Hd & Ht); try done.
  { apply bool_decide_eq_true. destruct (state_spec ba) as [[? ->]|[(? & ? & ->)|[(? & ? & ->)|[(? & ? & ->)|(? & ? & ->)]]]]; auto; congruence || lia. }
  { apply bool_decide_eq_true. destruct (state_spec bb) as [[? ->]|[(? & ? & ->)|[(? & ? & ->)|[(? & ? & ->)|(? & ? & ->)]]]]; auto; congruence || lia. }
  { intros s. by eapply peel_symbols. }
  cbn [mbind exec_bind].
  pose proof (symdiff_lt _ _ _ _ Hlta Hltb Hd) as Hlt'. pose proof (ids_small _ _ (proj1 Hd) Hlt') as Hlen'.
  pose proof (ok_prime_range _ (st_params _ _ _ _ Hst)) as Hprime.
  pose proof (book_set_ids d [] extra a ba ids' syms' Hbk Ha ltac:(set_solver) Hwa Hua) as Hbk1.
  destruct (active_used_weight ba) as [|w] eqn:Hw; [lia|].
  assert (a < length (buffer_state d)) as Hal by (by eapply lookup_lt_Some).
  destruct (decrement_spec _ [] extra a (set_ids ba ids') w Hbk1) as (d' & -> & Hbk' & Hp' & Hsyms' & Hbufs');
    [by apply list_lookup_insert_eq|set_solver|done|done|simpl; lia|].
  cbn [mbind exec_bind]. simpl in Hp', Hsyms', Hbufs'. rewrite list_insert_insert_eq in Hbufs'.
  assert (length (buffer_state d') = length (buffer_state d)) as Hlenb by (by rewrite Hbufs', length_insert).
  destruct (xor_indices_spec n d' st a b) as (st' & x & y & -> & Hx & Hy & Hlx & Hly & Htemp & Hst' & Hf'); [|lia| |done|].
  { by eapply (data_ok_frame n d d' st st); try apply Hdt. }
  { rewrite Hlenb. by eapply lookup_lt_Some. }
  cbn [mbind exec_bind]. exists d', st'. split; [done|].
  assert (∀ s, s ∈ intermediate_symbol_ids bb → noninact (intermediate_symbol_state d) s = true →
            s = s0 ∧ a ∈ a :: P ∧ ¬ holds (intermediate_symbol_state d) s0 a) as Hyes.
  { intros s Hs Hn. split; [by apply Honly|]. split; [left|]. intros (sym & Hsym & Hin). rewrite Hs0 in Hsym. injection Hsym as <-.
    by apply list_elem_of_singleton in Hin. }
  split_and!.
  - split.
    + eapply (struct_change d d' s0 (a :: P) P false a ba _ (intermediate_symbol_ids bb)); try done.
      * by rewrite Hsyms'.
      * intros c Hc. rewrite elem_of_cons. tauto.
      * apply Hd.
      * rewrite Hsyms'. simpl. eapply (symdiff_holds d s0 (a :: P) P a ba); try done.
        -- intros s. by apply (st_match _ _ _ _ Hst a s ba Ha).
        -- intros s Hs Hn. left. intros ->. congruence.
      * simpl. pose proof (st_weight _ _ _ _ Hst a ba Ha) as Hwt. rewrite Hw in Hwt.
        rewrite (wcount_ext _ (noninact (intermediate_symbol_state d))) in Hwt by (intros; apply counted_false).
        rewrite (wcount_ext _ (noninact (intermediate_symbol_state d))) by (intros; apply counted_false).
        assert (S w = S (wcount (noninact (intermediate_symbol_state d)) ids')) as Heq; [|lia].
        rewrite Hwt. by apply (symdiff_weight _ _ _ Hnda Hd (noninact (intermediate_symbol_state d)) s0).
      * simpl. congruence.
    + done.
    + eapply (data_ok_frame n d d' st st'); try done. by rewrite Hst', length_insert.
  - split; [done|done|]. eapply (redundant_mono d d' a ba); [done..| |done]. by apply active_facts; [rewrite Hw; lia|].
  - rewrite Hsyms'. by eapply kinds_toggle.
  - rewrite Hsyms'. by eapply sym_toggle_kind.
  - by rewrite Hbufs', list_lookup_insert_ne.
  - unfold ids_of at 2. rewrite Hbufs', ids_of_insert, Hst'. simpl.
    by eapply (row_op_solutions n _ _ a b (intermediate_symbol_ids ba) (intermediate_symbol_ids bb) x y); try apply ids_of_lookup.
Qed.

Lemma struct_none d s0 flip s1 flip' : struct_ok d s0 [] flip → struct_ok d s1 [] flip'.
Proof.
  intros [Hpar Hlen Hids Hsym Hrange Hmatch Hpend Hwt Hus Huss]. split; try done.
  - intros b s buf Hb Hs. rewrite (Hmatch b s buf Hb Hs). rewrite elem_of_nil. tauto.
  - intros b. by rewrite elem_of_nil.
  - intros b buf Hb. rewrite (Hwt b buf Hb). apply wcount_ext. intros s _. unfold counted.
    rewrite !bool_decide_false by (rewrite elem_of_nil; tauto). by rewrite !andb_false_r.
Qed.

Lemma counted_none syms s0 flip b s : counted syms s0 [] flip b s = noninact syms s.
Proof. unfold counted. rewrite bool_decide_false by (rewrite elem_of_nil; tauto). by rewrite andb_false_r, xorb_false_r. Qed.

(** Symbol [s] becomes used by buffer [b]. *)
Lemma struct_make_used d d' s sym b bb bb' :
  struct_ok d 0 [] false → intermediate_symbol_state d !! s = Some sym → is_used sym = false →
  buffer_state d !! b = Some bb → s ∈ intermediate_symbol_ids bb → used bb = false →
  decoder_params d' = decoder_params d → intermediate_symbol_state d' = <[s := Used b]> (intermediate_symbol_state d) →
  buffer_state d' = <[b := bb']> (buffer_state d) → intermediate_symbol_ids bb' = intermediate_symbol_ids bb →
  active_used_weight bb' = 1 → used bb' = true → wcount (noninact (intermediate_symbol_state d')) (intermediate_symbol_ids bb) = 1 →
  struct_ok d' s (filter (λ c, c ≠ b) (sym_buffers sym)) (is_inactivated sym).
Proof.
  intros Hst Hs Hnu Hb Hsb Hub Hp Hsyms Hbufs Hids' Hw' Hu' Hcount.
  pose proof Hst as [Hpar Hlen Hids Hsym Hrange Hmatch Hpend Hwt Hus Huss].
  assert (s < length (intermediate_symbol_state d)) as Hsl by (by eapply lookup_lt_Some).
  assert (b < length (buffer_state d)) as Hbl by (by eapply lookup_lt_Some).
  assert (∀ t, t ≠ s → intermediate_symbol_state d' !! t = intermediate_symbol_state d !! t) as Hne.
  { intros t Ht. by rewrite Hsyms, list_lookup_insert_ne. }
  assert (intermediate_symbol_state d' !! s = Some (Used b)) as Heq by (rewrite Hsyms; by apply list_lookup_insert_eq).
  assert (∀ c, holds (intermediate_symbol_state d) s c ↔ c ∈ sym_buffers sym) as Hold.
  { intros c. unfold holds. rewrite Hs. naive_solver. }
  assert (∀ t c, t ≠ s → holds (intermediate_symbol_state d') t c ↔ holds (intermediate_symbol_state d) t c) as Hholds.
  { intros t c Ht. unfold holds. by rewrite Hne. }
  assert (∀ c, holds (intermediate_symbol_state d') s c ↔ c = b) as Hnew.
  { intros c. unfold holds. rewrite Heq. split; [intros (? & [= <-] & Hc); by apply list_elem_of_singleton in Hc|].
    intros ->. eexists. split; [done|left]. }
  assert (∀ c buf, buffer_state d' !! c = Some buf → c = b ∧ buf = bb' ∨ c ≠ b ∧ buffer_state d !! c = Some buf) as Hlook.
  { intros c buf. rewrite Hbufs. destruct (decide (c = b)) as [->|Hc].
    - rewrite list_lookup_insert_eq by done. naive_solver.
    - rewrite list_lookup_insert_ne by done. naive_solver. }
  assert (∀ c t buf, buffer_state d !! c = Some buf → t < num_intermediate_symbols (decoder_params d) →
    t ∈ intermediate_symbol_ids buf ↔ holds (intermediate_symbol_state d') t c ∨ t = s ∧ c ∈ filter (λ c, c ≠ b) (sym_buffers sym)) as Hm.
  { intros c t buf Hc Ht. rewrite (Hmatch c t buf Hc Ht), list_elem_of_filter, elem_of_nil.
    destruct (decide (t = s)) as [->|Hts]; [|rewrite Hholds by done; tauto].
    rewrite Hnew, Hold. destruct (decide (c = b)) as [->|]; [|tauto]. rewrite <-Hold.
    assert (holds (intermediate_symbol_state d) s b); [|tauto]. rewrite Hmatch in Hsb by (done || lia). rewrite elem_of_nil in Hsb. tauto. }
  split; rewrite ?Hp; [done| | | | | | | | |].
  - by rewrite Hsyms, length_insert.
  - intros c buf [[-> ->]|[_ Hc]]%Hlook; [rewrite Hids'|]; by eapply Hids.
  - intros t symt. destruct (decide (t = s)) as [->|Ht]; [rewrite Heq; intros [= <-]; by repeat constructor|]. rewrite Hne by done. apply Hsym.
  - intros t c. rewrite Hbufs, length_insert. destruct (decide (t = s)) as [->|Ht]; [rewrite Hnew; by intros ->|].
    rewrite Hholds by done. apply Hrange.
  - intros c t buf [[-> ->]|[_ Hc]]%Hlook Ht; [rewrite Hids'|]; by apply Hm.
  - intros c [Hcb Hc]%list_elem_of_filter. rewrite Hbufs, length_insert, Heq. split; [|congruence]. apply (Hrange s). by apply Hold.
  - intros c buf [[-> ->]|[Hcb Hc]]%Hlook.
    + rewrite Hw', Hids', <-Hcount. apply wcount_ext. intros t _. unfold counted.
      rewrite bool_decide_false by (rewrite list_elem_of_filter; tauto). by rewrite andb_false_r, xorb_false_r.
    + rewrite (Hwt c buf Hc). apply wcount_ext. intros t Ht. rewrite counted_none. unfold counted.
      destruct (decide (t = s)) as [->|Hts].
      * rewrite (Hm c s buf Hc), Hnew in Ht by (rewrite <-Hlen; done). destruct Ht as [->|[_ Hin]]; [done|].
        rewrite bool_decide_true, andb_true_r by done. unfold noninact. rewrite Hs, Heq. by destruct sym.
      * unfold noninact. rewrite Hne by done. rewrite bool_decide_false by tauto. by rewrite andb_false_r, xorb_false_r.
  - intros c buf [[-> ->]|[Hcb Hc]]%Hlook Hu; [split; [done|by exists s]|].
    destruct (Hus c buf Hc Hu) as (Hw & t & Ht). split; [done|]. exists t. rewrite Hne; [done|]. intros ->. rewrite Hs in Ht. by simplify_eq.
  - intros t c. destruct (decide (t = s)) as [->|Hts].
    + rewrite Heq. intros [= <-]. exists bb'. by rewrite Hbufs, list_lookup_insert_eq.
    + rewrite Hne by done. intros Ht. destruct (Huss t c Ht) as (buf & Hc & Hu). exists buf.
      rewrite Hbufs, list_lookup_insert_ne; [done|]. intros ->. congruence.
Qed.

(** The potential of a symbol falls when it becomes used. *)
Definition potential (syms : list IntermediateSymbol) : nat := sum_list (map kind syms).

Lemma potential_insert syms s sym sym' :
  syms !! s = Some sym → potential (<[s := sym']> syms) + kind sym = potential syms + kind sym'.
Proof.
  unfold potential. revert s. induction syms as [|x syms IH]; intros [|s] Hs; simpl in *; simplify_eq; [lia|].
  specialize (IH s Hs). lia.
Qed.

(** [buffer_first_active_intermediate_symbol] *)
Lemma first_active_spec d b bb :
  struct_ok d 0 [] false → buffer_state d !! b = Some bb → used bb = false → 0 < active_used_weight bb →
  ∃ s l, buffer_first_active_intermediate_symbol d b = Ret s ∧ s ∈ intermediate_symbol_ids bb ∧
    intermediate_symbol_state d !! s = Some (Active l).
Proof.
  intros Hst Hb Hu Hw. rewrite (st_weight _ _ _ _ Hst b bb Hb) in Hw. apply wcount_elem in Hw as (t & Ht & Hc).
  rewrite counted_none in Hc.
  destruct (unused_symbol d 0 [] false Hst b bb t Hb Hu Ht Hc) as [[l Hl]|[_ Hin]]; [|by apply elem_of_nil in Hin].
  unfold buffer_first_active_intermediate_symbol. rewrite Hb. dsimpl.
  assert (∀ ids, (∀ x, x ∈ ids → x ∈ intermediate_symbol_ids bb) → t ∈ ids → ∃ s l',
    find_first (λ id, symbol ← expect (intermediate_symbol_state d !! id); Ret (is_active symbol)) ids = Ret (Some s) ∧
    s ∈ ids ∧ intermediate_symbol_state d !! s = Some (Active l')) as Hfind.
  { induction ids as [|x ids IH]; intros Hsub Hin; [by apply elem_of_nil in Hin|]. cbn [find_first].
    destruct (id_sym d 0 [] false Hst b bb x Hb) as [symx Hx]; [apply Hsub; left|]. rewrite Hx. dsimpl.
    destruct symx as [l'|l'|b']; cbn [is_active]; [exists x, l'; split; [done|]; split; [left|done]|..];
      (apply elem_of_cons in Hin as [->|Hin]; [congruence|]);
      (destruct IH as (s & l0 & -> & Hs & Hsl); [intros y Hy; apply Hsub; by right|done|]);
      exists s, l0; (split; [done|]); (split; [by right|done]). }
  destruct (Hfind (intermediate_symbol_ids bb)) as (s & l' & -> & Hs & Hsl); [done..|]. dsimpl. by exists s, l'.
Qed.

(** The pending buffers of a list of reducees *)
Notation others b l := (filter (λ c : nat, c ≠ b) l).

Lemma peel_fold_spec n s0 b extra l d st :
  inv n d st s0 (others b l) false [] extra → NoDup l → intermediate_symbol_state d !! s0 = Some (Used b) →
  ∃ d' st', foldM (peel_reducee xor_buffers b) (d, st) l = Ret (d', st') ∧ inv n d' st' s0 [] false [] extra ∧ frame d d' ∧
    map kind (intermediate_symbol_state d') = map kind (intermediate_symbol_state d) ∧ buffer_state d' !! b = buffer_state d !! b ∧
    same_solutions n (ids_of d) (buffers st) (ids_of d') (buffers st').
Proof.
  revert d st. induction l as [|a l IH]; intros d st Hinv Hnd Hs0; cbn [foldM].
  { exists d, st. by split_and!. }
  apply NoDup_cons in Hnd as [Hal Hnd]. rewrite filter_cons in Hinv. case_decide as Hab.
  - destruct (peel_reducee_spec n d st s0 (others b l) b a extra) as (d1 & st1 & -> & Hinv1 & Hfr1 & Hk1 & Hs1 & Hb1 & Hsol1);
      [done| |done|].
    { apply NoDup_cons. split; [|by apply NoDup_filter]. rewrite list_elem_of_filter. tauto. }
    cbn [mbind exec_bind]. destruct (IH d1 st1) as (d2 & st2 & -> & Hinv2 & Hfr2 & Hk2 & Hb2 & Hsol2); [done..|].
    exists d2, st2. split_and!; [done|done|by eapply frame_trans|congruence|congruence|by eapply same_solutions_trans].
  - assert (a = b) as -> by (by destruct (decide (a = b))). assert (peel_reducee xor_buffers b (d, st) b = Ret (d, st)) as ->.
    { unfold peel_reducee. by rewrite bool_decide_false by tauto. }
    cbn [mbind exec_bind]. by apply IH.
Qed.

Definition ready (n : nat) (d : Decoder) (st : BufferSet) : Prop := inv n d st 0 [] false [] 0.

Lemma wcount_noninact_used syms s sym b ids :
  syms !! s = Some sym → is_inactivated sym = false → wcount (noninact (<[s := Used b]> syms)) ids = wcount (noninact syms) ids.
Proof.
  intros Hs Hi. apply wcount_ext. intros t _. unfold noninact. destruct (decide (t = s)) as [->|Hne].
  - rewrite list_lookup_insert_eq by (by eapply lookup_lt_Some). rewrite Hs. by destruct sym.
  - by rewrite list_lookup_insert_ne.
Qed.

(** The paired symbol is counted. *)
Lemma paired_inv n d st s0 P flip c :
  inv n d st s0 P flip [] (b2n c) →
  let d' := if c then add_paired d else d in
  inv n d' st s0 P flip [] 0 ∧ frame d d' ∧ intermediate_symbol_state d' = intermediate_symbol_state d ∧ ids_of d' = ids_of d.
Proof.
  intros [Hst Hbk Hdt]. destruct c; [|done]. simpl. split_and!; try done. split.
  - destruct Hst. by split.
  - destruct Hbk. split; try done. simpl in *. lia.
  - destruct Hdt. by split.
Qed.

Lemma peel_one_spec n d st b :
  ready n d st → wlookup (buffers_active_usable d) b = Some 1 →
  ∃ d' st', peel_one xor_buffers d b 1 st = Ret (d', st') ∧ ready n d' st' ∧ frame d d' ∧
    potential (intermediate_symbol_state d') < potential (intermediate_symbol_state d) ∧
    same_solutions n (ids_of d) (buffers st) (ids_of d') (buffers st').
Proof.
  intros [Hst Hbk Hdt] Hmin. pose proof (bk_act _ _ _ Hbk b) as Hact. rewrite Hmin in Hact.
  destruct (buffer_state d !! b) as [bb|] eqn:Hb; [|done]. simpl in Hact.
  assert (active_used_weight bb = 1 ∧ used bb = false) as [Hw Hu].
  { unfold act_w in Hact. destruct (state_spec bb) as [[? Hs]|[(? & ? & Hs)|[(? & ? & Hs)|[(? & ? & Hs)|(? & ? & Hs)]]]]; rewrite Hs in Hact;
      simplify_eq; [lia|done]. }
  unfold peel_one. destruct (heap_remove_spec (buffers_active_usable d) b 1) as (h & -> & Hok & Hl); [apply Hbk|done|].
  dsimpl. rewrite bool_decide_true by done. dsimpl.
  destruct (first_active_spec d b bb Hst Hb Hu) as (s & l & Hfirst & Hs & Hsl); [lia|].
  change (buffer_first_active_intermediate_symbol _ b) with (buffer_first_active_intermediate_symbol d b).
  rewrite Hfirst. dsimpl. rewrite Hb. dsimpl. rewrite Hsl. dsimpl. unfold active_make_used. dsimpl.
  match goal with |- context [foldM _ (?x, st) _] => set (d1 := x) end.
  set (k := num_source_symbols (decoder_params d)). set (extra := b2n (paired k (set_used bb))).
  destruct (active_facts bb) as (Hact0 & Hina0 & Hred0 & Hpaired0); [lia|done|].
  destruct (used_facts (set_used bb)) as (Hact1 & Hina1 & Hred1 & Hpaired1); [done..|].
  assert (struct_ok d1 s (others b l) false) as Hst1.
  { apply (struct_make_used d d1 s (Active l) b bb (set_used bb)); try done. simpl. rewrite (wcount_noninact_used _ s (Active l)) by done.
    rewrite <-Hw, (st_weight _ _ _ _ Hst b bb Hb). apply wcount_ext. intros t _. symmetry. apply counted_none. }
  assert (book d1 [] extra) as Hbk1.
  { eapply (book_update d [] 0 b bb (set_used bb)); rewrite ?Hred0, ?Hred1, ?Hpaired0; try done; [set_solver|by rewrite Hact1|apply Hbk| |].
    - eapply wlookup_same; [apply (bk_ina _ _ _ Hbk); set_solver|done|congruence].
    - unfold extra, k. simpl. lia. }
  assert (data_ok n d1 st) as Hdt1.
  { eapply (data_ok_frame n d d1 st st); try done; [|apply Hdt]. simpl. by rewrite length_insert. }
  destruct (peel_fold_spec n s b extra l d1 st) as (d2 & st2 & -> & [Hst2 Hbk2 Hdt2] & Hfr2 & Hk2 & Hb2 & Hsol2);
    [done|by apply strict_NoDup, (st_sym _ _ _ _ Hst s _ Hsl)| |].
  { simpl. apply list_lookup_insert_eq. by eapply lookup_lt_Some. }
  dsimpl. rewrite Hb2. simpl. rewrite list_lookup_insert_eq by (by eapply lookup_lt_Some). dsimpl.
  rewrite (fr_params _ _ Hfr2). simpl. fold k.
  set (c := bool_decide (length (intermediate_symbol_ids bb) = 1) && bool_decide (s < k)).
  assert (extra = b2n c) as Hextra.
  { unfold extra, c. rewrite Hpaired1. simpl. destruct (intermediate_symbol_ids bb) as [|x [|y ids]]; simpl; try done.
    by apply list_elem_of_singleton in Hs as ->. }
  rewrite Hextra in Hbk2. destruct (paired_inv n d2 st2 s [] false c) as ([Hst3 Hbk3 Hdt3] & Hfr3 & Hsyms3 & Hids3); [done|].
  eexists _, st2. split; [done|]. split_and!.
  - split; [by eapply struct_none|done|done].
  - eapply (frame_trans _ d1); [|by eapply frame_trans]. split; [done|simpl; by rewrite length_insert|done].
  - rewrite Hsyms3. unfold potential at 1. rewrite Hk2.
    pose proof (potential_insert _ s _ (Used b) Hsl) as Hpot. unfold potential in *. simpl in Hpot |- *. lia.
  - rewrite Hids3. eapply same_solutions_trans; [|done]. replace (ids_of d1) with (ids_of d); [done|].
    symmetry. by apply (ids_of_same d b bb).
Qed.

(** * Reactivation *)

Lemma wcount_perm f l l' : l ≡ₚ l' → wcount f l = wcount f l'.
Proof. intros Hp. unfold wcount. by rewrite Hp. Qed.

Lemma paired_step (d : Decoder) (k : nat) (b : Buffer) :
  (if is_paired b then
     first ← first_intermediate_symbol_id b;
     Ret (if bool_decide (first < k) then add_paired d else d)
   else Ret d) = Ret (if paired k b then add_paired d else d).
Proof.
  unfold paired. destruct (is_paired b) eqn:Hp; [|done]. unfold first_intermediate_symbol_id, OrderedSet.first.
  unfold is_paired in Hp. apply andb_true_iff in Hp as [_ Hp]. apply bool_decide_eq_true in Hp.
  by destruct (intermediate_symbol_ids b) as [|s l].
Qed.

Lemma reactivate_book d extra a ba ids' s0 :
  book d [] extra → buffer_state d !! a = Some ba → intermediate_symbol_ids ba ≡ₚ s0 :: ids' →
  (Z.of_nat (length (intermediate_symbol_ids ba)) <= 65535)%Z →
  (used ba = true → active_used_weight ba = 1 ∧ 2 <= length (intermediate_symbol_ids ba)) →
  let d0 := set_buffer_state d (<[a := set_ids ba ids']> (buffer_state d)) in
  ∃ d1, (if bool_decide (active_used_weight (set_ids ba ids') = 0) then update_inactivated d0 a (length ids') else Ret d0) = Ret d1 ∧
    let d' := if paired (num_source_symbols (decoder_params d)) (set_ids ba ids') then add_paired d1 else d1 in
    book d' [] extra ∧ decoder_params d1 = decoder_params d ∧ intermediate_symbol_state d' = intermediate_symbol_state d ∧
    decoder_params d' = decoder_params d ∧ buffer_state d' = <[a := set_ids ba ids']> (buffer_state d).
Proof.
  intros Hbk Ha Hperm Hlen Hused. pose proof (bk_act_ok _ _ _ Hbk) as Hokact. pose proof (bk_ina_ok _ _ _ Hbk) as Hokina.
  assert (a ∉ []) as Hst by apply not_elem_of_nil. pose proof (bk_act _ _ _ Hbk a) as Hact. pose proof (bk_ina _ _ _ Hbk a Hst) as Hina.
  apply Permutation_length in Hperm as Hlen'. simpl in Hlen'.
  assert (intermediate_symbol_ids ba ≠ []) as Hne by (by destruct (intermediate_symbol_ids ba)).
  set (ba' := set_ids ba ids'). set (k := num_source_symbols (decoder_params d)). unfold update_inactivated. dsimpl.
  destruct (decide (active_used_weight ba = 0)) as [Hw|Hw].
  - rewrite (bool_decide_true (active_used_weight ba = 0)) by done.
    destruct (inactivated_facts ba) as (Hact0 & Hina0 & Hred0 & Hpaired0); [done..|].
    rewrite Ha in Hina. simpl in Hina. rewrite Hina0 in Hina. case_bool_decide as Hids.
    + destruct (inactivated_facts ba') as (Hact1 & Hina1 & Hred1 & Hpaired1); [done|by destruct ids'; [simpl in Hids; lia|]|].
      rewrite weight_u16_ok by lia. dsimpl.
      destruct (heap_update_spec (buffers_inactivated d) a (length (intermediate_symbol_ids ba)) (length ids')) as (h & -> & Hok & Hl); [done..|].
      dsimpl. eexists. split; [done|]. rewrite Hpaired1. split; [|done].
      eapply (book_update d [] extra a ba ba'); rewrite ?Hred0, ?Hred1, ?Hpaired0, ?Hpaired1, ?Hina1; try done.
      eapply wlookup_same; [apply (bk_act _ _ _ Hbk)|done|congruence].
    + destruct (redundant_facts ba') as (Hact1 & Hina1 & Hred1 & Hpaired1); [done|by destruct ids'; [|simpl in Hids; lia]|].
      destruct (heap_remove_spec (buffers_inactivated d) a (length (intermediate_symbol_ids ba))) as (h & -> & Hok & Hl); [done..|].
      dsimpl. erewrite (add_redundant_spec d [] extra); [|done..|by left|done]. dsimpl. eexists. split; [done|]. rewrite Hpaired1. split; [|done].
      eapply (book_update d [] extra a ba ba'); rewrite ?Hred0, ?Hred1, ?Hpaired0, ?Hpaired1, ?Hina1; try done; [|simpl; lia].
      eapply wlookup_same; [apply (bk_act _ _ _ Hbk)|done|congruence].
  - rewrite (bool_decide_false (active_used_weight ba = 0)) by done. eexists. split; [done|]. destruct (used ba) eqn:Hu.
    + destruct (Hused eq_refl) as [Hw1 Hlen2]. destruct (used_facts ba) as (Hact0 & Hina0 & Hred0 & Hpaired0); [done..|].
      destruct (used_facts ba') as (Hact1 & Hina1 & Hred1 & _); [done..|].
      assert (paired k ba = false) as Hp0 by (rewrite Hpaired0; by destruct (intermediate_symbol_ids ba) as [|x [|y l]]; simpl in *; [|lia|]).
      split; [|by destruct (paired k ba')].
      assert (book (mkDecoder (decoder_params d) (<[a := ba']> (buffer_state d)) (intermediate_symbol_state d) (buffers_active_usable d)
        (buffers_inactivated d) (num_redundant_buffers d) (b2n (paired k ba') + num_source_symbols_paired d)) [] extra) as Hfin.
      { eapply (book_update d [] extra a ba ba'); rewrite ?Hred0, ?Hred1; try done; [..|fold k; rewrite Hp0; simpl; lia].
        - eapply wlookup_same; [apply (bk_act _ _ _ Hbk)|done|congruence].
        - eapply wlookup_same; [by apply (bk_ina _ _ _ Hbk)|done|congruence]. }
      by destruct (paired k ba').
    + destruct (active_facts ba) as (_ & _ & _ & _); [lia|done|]. destruct (active_facts ba') as (_ & _ & _ & Hpaired1); [unfold ba'; simpl; lia|done|].
      rewrite Hpaired1. split; [|done]. apply (book_set_ids d [] extra a ba ids' (intermediate_symbol_state d)); try done. lia.
Qed.

(** A buffer [a] from which [s0] is still to be taken out, while its weight does not
    count [s0] *)
Lemma reactivate_pending d s0 P b a :
  struct_ok d s0 (a :: P) true → intermediate_symbol_state d !! s0 = Some (Used b) →
  ∃ ba, buffer_state d !! a = Some ba ∧ s0 ∈ intermediate_symbol_ids ba ∧
    (used ba = true → active_used_weight ba = 1 ∧ 2 <= length (intermediate_symbol_ids ba)).
Proof.
  intros Hst Hs0. destruct (st_pending _ _ _ _ Hst a) as [Hal Hne]; [left|]. destruct (lookup_lt_is_Some_2 _ _ Hal) as [ba Ha].
  assert (s0 ∈ intermediate_symbol_ids ba) as Hsa.
  { apply (st_match _ _ _ _ Hst a s0 ba Ha); [rewrite <-(st_length _ _ _ _ Hst); by eapply lookup_lt_Some|].
    right. split; [done|left]. }
  exists ba. split_and!; [done..|]. intros Hu. split; [by apply (st_used _ _ _ _ Hst a ba Ha Hu)|].
  destruct (used_symbol d s0 _ _ Hst a ba Ha Hu) as (s & Hs & Hsin & _). assert (s ≠ s0) as Hss by (intros ->; congruence).
  destruct (intermediate_symbol_ids ba) as [|x [|y l]]; simpl; [by apply elem_of_nil in Hsa| |lia].
  apply list_elem_of_singleton in Hsa, Hsin. congruence.
Qed.

Lemma reactivate_reducee_spec n d st s0 P b a bb extra :
  inv n d st s0 (a :: P) true [] extra → NoDup (a :: P) → intermediate_symbol_state d !! s0 = Some (Used b) →
  buffer_state d !! b = Some bb → intermediate_symbol_ids bb = [s0] →
  ∃ d' st', reactivate_reducee xor_buffers b s0 (d, st) a = Ret (d', st') ∧ inv n d' st' s0 P true [] extra ∧ frame d d' ∧
    intermediate_symbol_state d' = intermediate_symbol_state d ∧ buffer_state d' !! b = buffer_state d !! b ∧
    same_solutions n (ids_of d) (buffers st) (ids_of d') (buffers st').
Proof.
  intros [Hst Hbk Hdt] Hnd Hs0 Hb Hidsb. apply NoDup_cons in Hnd as [HaP Hnd].
  destruct (reactivate_pending d s0 P b a Hst Hs0) as (ba & Ha & Hsa & Hused).
  assert (a ≠ b) as Hab by (intros ->; by destruct (st_pending _ _ _ _ Hst b) as [_ []]; [left|]).
  destruct (st_ids _ _ _ _ Hst a ba Ha) as [Hsorta Hlta]. pose proof (strict_NoDup _ Hsorta) as Hnda.
  unfold reactivate_reducee. rewrite bool_decide_true, Ha by done. cbn [expect mbind exec_bind].
  destruct (set_remove_spec (intermediate_symbol_ids ba) s0) as (ids' & -> & Hsort' & Hperm); [done..|]. cbn [assert mbind exec_bind].
  destruct (reactivate_book d extra a ba ids' s0 Hbk Ha Hperm) as (d1 & Hd1 & Hbk' & Hp1 & Hsyms' & Hp' & Hbufs'); [by eapply ids_length|done|].
  cbn zeta in Hd1. rewrite Hd1. cbn [mbind exec_bind]. rewrite paired_step. cbn [mbind exec_bind]. rewrite Hp1.
  set (d' := if paired _ _ then add_paired d1 else d1) in *.
  assert (length (buffer_state d') = length (buffer_state d)) as Hlenb by (by rewrite Hbufs', length_insert).
  destruct (xor_indices_spec n d' st a b) as (st' & x & y & -> & Hx & Hy & Hlx & Hly & Htemp & Hst' & Hf');
    [by eapply (data_ok_frame n d d' st st); try apply Hdt|rewrite Hlenb; by eapply lookup_lt_Some..|done|].
  dsimpl. exists d', st'. split; [done|].
  assert (s0 ∉ ids') as Hs0' by (rewrite Hperm in Hnda; by apply NoDup_cons in Hnda as [? _]).
  assert (symdiff (intermediate_symbol_ids ba) [s0] ids') as Hd.
  { apply toggled_symdiff; [done|]. split; [done|]. by rewrite decide_True. }
  split_and!; [split| |done| |].
  - eapply (struct_change d d' s0 (a :: P) P true a ba _ []); try done.
    + rewrite Hsyms'. apply sym_toggle_nil.
    + intros c Hc. rewrite elem_of_cons. tauto.
    + simpl. eapply (symdiff_lt _ (intermediate_symbol_ids ba) [s0]); [done| |done]. constructor; [|constructor]. by eapply id_lt.
    + intros s Hs. rewrite Hsyms'. simpl. destruct Hd as [_ Hin]. rewrite Hin, (st_match _ _ _ _ Hst a s ba Ha Hs), list_elem_of_singleton.
      assert (a ∈ a :: P) by left. destruct (decide (s = s0)) as [->|]; [|tauto]. split; [tauto|]. intros [(sym & Hsym & Hin')|[_ ?]]; [|done].
      rewrite Hs0 in Hsym. injection Hsym as <-. by apply list_elem_of_singleton in Hin'.
    + simpl. rewrite (st_weight _ _ _ _ Hst a ba Ha), (wcount_perm _ _ _ Hperm). unfold wcount at 1. rewrite filter_cons, decide_False.
      * apply wcount_ext. intros s Hs. unfold counted. do 2 f_equal. assert (s ≠ s0) by congruence. by rewrite !bool_decide_false by tauto.
      * unfold counted, noninact. rewrite Hs0, bool_decide_true by (split; [done|left]). done.
    + simpl. intros Hu. by apply Hused.
  - done.
  - eapply (data_ok_frame n d d' st st'); try done. by rewrite Hst', length_insert.
  - split; [done..|]. eapply (redundant_mono d d' a ba); [done..| |done].
    destruct (decide (active_used_weight ba = 0)); [apply inactivated_facts; [done|by intros Heq; rewrite Heq in Hsa; apply elem_of_nil in Hsa]|].
    destruct (used ba) eqn:Hu; [by apply used_facts; [apply Hused|]|]. apply active_facts; [lia|done].
  - by rewrite Hbufs', list_lookup_insert_ne.
  - unfold ids_of at 2. rewrite Hbufs', ids_of_insert, Hst'. simpl.
    eapply (row_op_solutions n _ _ a b (intermediate_symbol_ids ba) [s0] x y); try done;
      [by apply ids_of_lookup|by rewrite <-Hidsb; apply ids_of_lookup|apply NoDup_singleton].
Qed.

Lemma reactivate_fold_spec n s0 b bb extra l d st :
  inv n d st s0 (others b l) true [] extra → NoDup l → intermediate_symbol_state d !! s0 = Some (Used b) →
  buffer_state d !! b = Some bb → intermediate_symbol_ids bb = [s0] →
  ∃ d' st', foldM (reactivate_reducee xor_buffers b s0) (d, st) l = Ret (d', st') ∧ inv n d' st' s0 [] true [] extra ∧ frame d d' ∧
    intermediate_symbol_state d' = intermediate_symbol_state d ∧
    same_solutions n (ids_of d) (buffers st) (ids_of d') (buffers st').
Proof.
  revert d st. induction l as [|a l IH]; intros d st Hinv Hnd Hs0 Hb Hids; cbn [foldM].
  { exists d, st. by split_and!. }
  apply NoDup_cons in Hnd as [Hal Hnd]. rewrite filter_cons in Hinv. case_decide as Hab.
  - destruct (reactivate_reducee_spec n d st s0 (others b l) b a bb extra) as (d1 & st1 & -> & Hinv1 & Hfr1 & Hk1 & Hb1 & Hsol1);
      [done| |done..|].
    { apply NoDup_cons. split; [|by apply NoDup_filter]. rewrite list_elem_of_filter. tauto. }
    cbn [mbind exec_bind]. destruct (IH d1 st1) as (d2 & st2 & -> & Hinv2 & Hfr2 & Hk2 & Hsol2); [done|done|congruence|congruence|done|].
    exists d2, st2. split_and!; [done|done|by eapply frame_trans|congruence|by eapply same_solutions_trans].
  - assert (a = b) as -> by (by destruct (decide (a = b))).
    assert (reactivate_reducee xor_buffers b s0 (d, st) b = Ret (d, st)) as ->.
    { unfold reactivate_reducee. by rewrite bool_decide_false by tauto. }
    cbn [mbind exec_bind]. by apply IH.
Qed.

(** An inactivated buffer of one symbol *)
Lemma reactivatable d b :
  struct_ok d 0 [] false → buffer_state d !! b ≫= ina_w = Some 1 →
  ∃ bb s l, buffer_state d !! b = Some bb ∧ active_used_weight bb = 0 ∧ used bb = false ∧ intermediate_symbol_ids bb = [s] ∧
    intermediate_symbol_state d !! s = Some (Inactivated l).
Proof.
  intros Hst Hina. destruct (buffer_state d !! b) as [bb|] eqn:Hb; [|done]. simpl in Hina. unfold ina_w in Hina.
  destruct (state_spec bb) as [[? Hs]|[(? & ? & Hs)|[(? & ? & Hs)|[(Hw & ? & Hs)|(? & ? & Hs)]]]]; rewrite Hs in Hina; try done.
  injection Hina as Hlen. destruct (intermediate_symbol_ids bb) as [|s [|]] eqn:Hids; [done| |done].
  assert (s ∈ intermediate_symbol_ids bb) as Hsin by (rewrite Hids; left).
  destruct (id_sym d 0 [] false Hst b bb s Hb Hsin) as [sym Hsym].
  assert (noninact (intermediate_symbol_state d) s = false) as Hn.
  { rewrite (st_weight _ _ _ _ Hst b bb Hb) in Hw. destruct (noninact _ s) eqn:Hn; [|done].
    pose proof (wcount_pos (counted (intermediate_symbol_state d) 0 [] false b) _ s Hsin) as Hpos. rewrite counted_none in Hpos.
    specialize (Hpos Hn). lia. }
  unfold noninact in Hn. rewrite Hsym in Hn. destruct sym as [|l|]; try done. exists bb, s, l. split_and!; try done.
  destruct (used bb) eqn:Hu; [|done]. destruct (st_used _ _ _ _ Hst b bb Hb Hu). lia.
Qed.

Lemma reactivate_one_spec n d st b :
  ready n d st → wlookup (buffers_inactivated d) b = Some 1 →
  ∃ d' st', reactivate_one xor_buffers d b st = Ret (d', st') ∧ ready n d' st' ∧ frame d d' ∧
    potential (intermediate_symbol_state d') < potential (intermediate_symbol_state d) ∧
    same_solutions n (ids_of d) (buffers st) (ids_of d') (buffers st').
Proof.
  intros [Hst Hbk Hdt] Hmin. assert (b ∉ []) as Hnil by apply not_elem_of_nil.
  pose proof (bk_ina _ _ _ Hbk b Hnil) as Hina. rewrite Hmin in Hina.
  destruct (reactivatable d b Hst) as (bb & s & l & Hb & Hw & Hu & Hids & Hsl); [done|].
  unfold reactivate_one. rewrite Hb. dsimpl.
  destruct (heap_remove_spec (buffers_inactivated d) b 1) as (h & -> & Hok & Hl); [apply Hbk|done|].
  dsimpl. unfold first_intermediate_symbol_id. rewrite Hids. cbn [OrderedSet.first head]. dsimpl. rewrite Hsl. dsimpl.
  unfold inactivated_make_used. dsimpl. match goal with |- context [foldM _ (?x, st) _] => set (d1 := x) end.
  set (bb' := mkBuffer (intermediate_symbol_ids bb) 1 true). set (k := num_source_symbols (decoder_params d)).
  destruct (inactivated_facts bb) as (Hact0 & Hina0 & Hred0 & Hpaired0); [done|by rewrite Hids|].
  destruct (used_facts bb') as (Hact1 & Hina1 & Hred1 & Hpaired1); [done..|].
  assert (s < length (intermediate_symbol_state d)) as Hsl' by (by eapply lookup_lt_Some).
  assert (struct_ok d1 s (others b l) true) as Hst1.
  { apply (struct_make_used d d1 s (Inactivated l) b bb bb'); try done; [by rewrite Hids; left|].
    rewrite Hids. unfold wcount. rewrite filter_cons, decide_True; [done|]. unfold noninact. simpl.
    by rewrite list_lookup_insert_eq. }
  assert (book d1 [] (b2n (bool_decide (s < k)))) as Hbk1.
  { assert (book (mkDecoder (decoder_params d) (<[b := bb']> (buffer_state d)) (intermediate_symbol_state d1) (buffers_active_usable d) h
      (num_redundant_buffers d) (num_source_symbols_paired d)) [] (b2n (bool_decide (s < k)))) as Hfin; [|exact Hfin].
    eapply (book_update d [] 0 b bb bb'); rewrite ?Hred0, ?Hred1, ?Hpaired0, ?Hina1; try done; [apply Hbk| |].
    - eapply wlookup_same; [apply (bk_act _ _ _ Hbk)|done|congruence].
    - fold k. rewrite Hpaired1. unfold bb'. simpl. rewrite Hids. lia. }
  assert (data_ok n d1 st) as Hdt1.
  { eapply (data_ok_frame n d d1 st st); try done; [|apply Hdt]. simpl. by rewrite length_insert. }
  destruct (reactivate_fold_spec n s b bb' (b2n (bool_decide (s < k))) l d1 st) as (d2 & st2 & -> & Hinv2 & Hfr2 & Hk2 & Hsol2);
    [done|by apply (strict_NoDup l), (st_sym _ _ _ _ Hst s _ Hsl)|by apply list_lookup_insert_eq| |done|].
  { apply list_lookup_insert_eq. by eapply lookup_lt_Some. }
  dsimpl. rewrite (fr_params _ _ Hfr2). change (num_source_symbols (decoder_params d1)) with k.
  destruct (paired_inv n d2 st2 s [] true (bool_decide (s < k)) Hinv2) as ([Hst3 Hbk3 Hdt3] & Hfr3 & Hsyms3 & Hids3).
  eexists _, st2. split; [done|]. split_and!.
  - split; [by eapply struct_none|done|done].
  - eapply (frame_trans _ d1); [|by eapply frame_trans]. split; [done|simpl; by rewrite length_insert|done].
  - rewrite Hsyms3, Hk2. pose proof (potential_insert _ s _ (Used b) Hsl) as Hpot. simpl in Hpot |- *. lia.
  - rewrite Hids3. eapply same_solutions_trans; [|done]. replace (ids_of d1) with (ids_of d); [done|].
    symmetry. by apply (ids_of_same d b bb).
Qed.
