(* ===== verification/RaptorDecoderOps.v ===== *)
(** The remaining operations of the Raptor decoder: inactivation, elimination and
    the reception of a symbol. *)

From S2P Require Import Prelude Types ValidatorSet Crypto RaptorTables RaptorCode RaptorCodeProps RaptorEncoderProps.
From S2P Require Import RaptorStructs RaptorSetProps RaptorHeapProps RaptorMatrixProps RaptorDecoder RaptorDecoderInv RaptorDecoderSteps.

#[local] Open Scope nat_scope.

(** * Inactivation *)

Lemma struct_inactivate d d' s l :
  struct_ok d 0 [] false → intermediate_symbol_state d !! s = Some (Active l) →
  decoder_params d' = decoder_params d → buffer_state d' = buffer_state d →
  intermediate_symbol_state d' = <[s := Inactivated l]> (intermediate_symbol_state d) → struct_ok d' s l true.
Proof.
  intros [Hpar Hlen Hids Hsym Hrange Hmatch Hpend Hwt Hus Huss] Hs Hp Hbufs Hsyms.
  assert (s < length (intermediate_symbol_state d)) as Hsl by (by eapply lookup_lt_Some).
  assert (∀ t, t ≠ s → intermediate_symbol_state d' !! t = intermediate_symbol_state d !! t) as Hne.
  { intros t Ht. by rewrite Hsyms, list_lookup_insert_ne. }
  assert (intermediate_symbol_state d' !! s = Some (Inactivated l)) as Heq by (rewrite Hsyms; by apply list_lookup_insert_eq).
  assert (∀ t c, holds (intermediate_symbol_state d') t c ↔ holds (intermediate_symbol_state d) t c) as Hholds.
  { intros t c. unfold holds. destruct (decide (t = s)) as [->|Ht]; [|by rewrite Hne]. rewrite Heq, Hs. naive_solver. }
  assert (∀ c, c ∈ l ↔ holds (intermediate_symbol_state d) s c) as Hl.
  { intros c. unfold holds. rewrite Hs. naive_solver. }
  split; rewrite ?Hp, ?Hbufs; try done.
  - by rewrite Hsyms, length_insert.
  - intros t sym. destruct (decide (t = s)) as [->|Ht]; [|rewrite Hne by done; apply Hsym].
    rewrite Heq. intros [= <-]. by apply (Hsym s (Active l)).
  - intros t c. rewrite Hholds. apply Hrange.
  - intros c t buf Hc Ht. rewrite (Hmatch c t buf Hc Ht), Hholds, elem_of_nil, Hl. naive_solver.
  - intros c Hc. rewrite Heq. split; [by apply (Hrange s), Hl|done].
  - intros c buf Hc. rewrite (Hwt c buf Hc). apply wcount_ext. intros t Ht. rewrite counted_none. unfold counted, noninact.
    destruct (decide (t = s)) as [->|Hts].
    + rewrite Heq, Hs. apply (Hmatch c s buf Hc) in Ht; [|lia]. rewrite bool_decide_true; [done|]. split; [done|].
      apply Hl. rewrite elem_of_nil in Ht. tauto.
    + rewrite Hne by done. rewrite bool_decide_false by tauto. by rewrite andb_false_r, xorb_false_r.
  - intros c buf Hc Hu. destruct (Hus c buf Hc Hu) as (Hw & t & Ht). split; [done|]. exists t. rewrite Hne; [done|]. intros ->. congruence.
  - intros t c Ht. destruct (decide (t = s)) as [->|Hts]; [congruence|]. rewrite Hne in Ht by done. by apply (Huss t).
Qed.

Lemma wcount_less f g ids s :
  NoDup ids → s ∈ ids → f s = true → g s = false → (∀ x, x ∈ ids → x ≠ s → f x = g x) → wcount f ids = S (wcount g ids).
Proof.
  intros Hnd Hs Hf Hg Hne. apply list_elem_of_split in Hs as (l1 & l2 & ->).
  rewrite !(wcount_perm _ _ _ (symmetry (Permutation_middle l1 l2 s))). rewrite <-Permutation_middle in Hnd.
  apply NoDup_cons in Hnd as [Hs Hnd]. unfold wcount. rewrite !filter_cons, decide_True, decide_False by congruence.
  simpl. f_equal. apply (wcount_ext f g). intros x Hx. apply Hne; [|congruence]. rewrite <-Permutation_middle. by right.
Qed.

Lemma inactivate_fold_spec n s0 l P d st :
  inv n d st s0 P true [] 0 → NoDup P → intermediate_symbol_state d !! s0 = Some (Inactivated l) → (∀ a, a ∈ P → a ∈ l) →
  ∃ d', foldM decrement_buffer_weight d P = Ret d' ∧ inv n d' st s0 [] true [] 0 ∧ frame d d' ∧
    intermediate_symbol_state d' = intermediate_symbol_state d ∧ ids_of d' = ids_of d.
Proof.
  revert d. induction P as [|a P IH]; intros d [Hst Hbk Hdt] Hnd Hs0 Hsub; cbn [foldM]; [by exists d|].
  apply NoDup_cons in Hnd as [HaP Hnd].
  destruct (st_pending _ _ _ _ Hst a) as [Hal _]; [left|]. destruct (lookup_lt_is_Some_2 _ _ Hal) as [ba Ha].
  assert (s0 < num_intermediate_symbols (decoder_params d)) as Hs0l by (rewrite <-(st_length _ _ _ _ Hst); by eapply lookup_lt_Some).
  assert (s0 ∈ intermediate_symbol_ids ba) as Hsa by (apply (st_match _ _ _ _ Hst a s0 ba Ha); [done|]; right; split; [done|left]).
  assert (counted (intermediate_symbol_state d) s0 (a :: P) true a s0 = true) as Hc.
  { unfold counted, noninact. rewrite Hs0, bool_decide_true by (split; [done|left]). done. }
  assert (used ba = false) as Hu.
  { destruct (used ba) eqn:Hu; [|done]. destruct (used_symbol d s0 _ _ Hst a ba Ha Hu) as (s & Hs & _ & Hall).
    assert (s0 = s) as <- by (by apply Hall). congruence. }
  pose proof (st_weight _ _ _ _ Hst a ba Ha) as Hw. pose proof (proj1 (st_ids _ _ _ _ Hst a ba Ha)) as Hsort.
  rewrite (wcount_less _ (counted (intermediate_symbol_state d) s0 P true a) _ s0) in Hw; [|by apply strict_NoDup|done|done| |].
  2:{ unfold counted, noninact. rewrite Hs0, bool_decide_false by tauto. done. }
  2:{ intros x _ Hx. unfold counted. by rewrite !bool_decide_false by tauto. }
  destruct (decrement_spec d [] 0 a ba _ Hbk Ha (not_elem_of_nil a) Hw Hu) as (d1 & -> & Hbk1 & Hp1 & Hsyms1 & Hbufs1); [by eapply ids_length|].
  cbn [mbind exec_bind].
  assert (struct_ok d1 s0 P true) as Hst1.
  { eapply (struct_change d d1 s0 (a :: P) P true a ba _ []); try done.
    - rewrite Hsyms1. apply sym_toggle_nil.
    - intros c Hcne. rewrite elem_of_cons. tauto.
    - apply (st_ids _ _ _ _ Hst a ba Ha).
    - intros s Hs. simpl. rewrite (st_match _ _ _ _ Hst a s ba Ha Hs), Hsyms1. split; [|naive_solver].
      intros [Hh|[-> _]]; [by left|]. left. exists (Inactivated l). split; [done|]. simpl. apply Hsub. left.
    - simpl. congruence. }
  assert (length (buffer_state d1) = length (buffer_state d)) as Hlen1 by (by rewrite Hbufs1, length_insert).
  destruct (IH d1) as (d2 & -> & Hinv2 & Hfr2 & Hsyms2 & Hids2); [|done|congruence|intros c Hcl; apply Hsub; by right|].
  { split; [done|done|]. by eapply (data_ok_frame n d d1 st st); try apply Hdt. }
  exists d2. split_and!; [done|done| |congruence|].
  - eapply frame_trans; [|done]. split; [done|done|]. eapply (redundant_mono d d1 a ba); [done..| |done]. by apply active_facts; [lia|].
  - rewrite Hids2. unfold ids_of at 1. rewrite Hbufs1. by apply (ids_of_same d a ba).
Qed.

Lemma inactivate_one_spec n d st b w :
  ready n d st → wlookup (buffers_active_usable d) b = Some w →
  ∃ d', inactivate_one d b = Ret d' ∧ ready n d' st ∧ frame d d' ∧
    potential (intermediate_symbol_state d') < potential (intermediate_symbol_state d) ∧ ids_of d' = ids_of d.
Proof.
  intros [Hst Hbk Hdt] Hmin. pose proof (bk_act _ _ _ Hbk b) as Hact. rewrite Hmin in Hact.
  destruct (buffer_state d !! b) as [bb|] eqn:Hb; [|done]. simpl in Hact.
  assert (0 < active_used_weight bb ∧ used bb = false) as [Hw Hu].
  { destruct (used bb) eqn:Hu.
    - destruct (st_used _ _ _ _ Hst b bb Hb Hu) as [Hw _]. destruct (used_facts bb Hw Hu) as [Hn _]. congruence.
    - split; [|done]. unfold act_w in Hact.
      destruct (state_spec bb) as [[? Hs]|[(? & ? & Hs)|[(? & ? & Hs)|[(? & ? & Hs)|(? & ? & Hs)]]]]; rewrite Hs in Hact; done || lia. }
  unfold inactivate_one. destruct (first_active_spec d b bb Hst Hb Hu Hw) as (s & l & -> & Hs & Hsl). cbn [mbind exec_bind].
  rewrite Hsl. cbn [expect mbind exec_bind]. unfold active_inactivate, active_make_used. cbn [mbind exec_bind inactivated_values].
  set (d1 := set_symbol_state d _).
  destruct (inactivate_fold_spec n s l l d1 st) as (d2 & -> & [Hst2 Hbk2 Hdt2] & Hfr2 & Hsyms2 & Hids2).
  - split; [by apply (struct_inactivate d d1 s l)| |].
    + by destruct Hbk.
    + by destruct Hdt.
  - by apply (strict_NoDup l), (st_sym _ _ _ _ Hst s _ Hsl).
  - apply list_lookup_insert_eq. by eapply lookup_lt_Some.
  - done.
  - exists d2. split_and!; [done|split; [by eapply struct_none|done|done]| | |done].
    + by eapply (frame_trans _ d1).
    + rewrite Hsyms2. pose proof (potential_insert _ s _ (Inactivated l) Hsl) as Hpot. simpl in Hpot |- *. lia.
Qed.

(** * Elimination *)

Lemma book_make_stale d extra l :
  book d [] extra → (∀ b, b ∈ l → is_Some (wlookup (buffers_inactivated d) b)) → book d l extra.
Proof.
  intros Hbk Hl. pose proof Hbk as [Hact Hina Hactl Hinal Hstale Hred Hpair Hlen].
  assert (∀ b, b ∈ l → ∃ buf, buffer_state d !! b = Some buf ∧ is_Some (ina_w buf)) as Hbuf.
  { intros b Hb. destruct (Hl b Hb) as [w Hw]. rewrite (Hinal b (not_elem_of_nil b)) in Hw.
    destruct (buffer_state d !! b) as [buf|]; [|done]. exists buf. split; [done|]. by eexists. }
  split; try done.
  - intros b _. apply Hinal, not_elem_of_nil.
  - intros b Hb. split; [by apply Hl|]. destruct (Hbuf b Hb) as (buf & Hb' & _). by eapply lookup_lt_Some.
  - rewrite Hred. apply count_ext. intros b buf Hb. rewrite (bool_decide_true (b ∉ [])), andb_true_r by apply not_elem_of_nil.
    case_bool_decide as Hbl; [by rewrite andb_true_r|]. destruct (Hbuf b) as (buf' & Hb' & w & Hw); [destruct (decide (b ∈ l)); tauto|].
    assert (buf' = buf) as -> by congruence. rewrite andb_false_r. unfold red, ina_w in *.
    apply bool_decide_eq_false. intros Heq. by rewrite Heq in Hw.
Qed.

(** A stale buffer without active symbols changes. *)
Lemma book_stale_change d stale extra a ba ba' syms' :
  book d stale extra → buffer_state d !! a = Some ba → a ∈ stale →
  active_used_weight ba = 0 → active_used_weight ba' = 0 →
  book (set_symbol_state (set_buffer_state d (<[a := ba']> (buffer_state d))) syms') stale extra.
Proof.
  intros [Hact Hina Hactl Hinal Hstale Hred Hpair Hlen] Ha Hst Hw Hw'. assert (a < length (buffer_state d)) as Hal by (by eapply lookup_lt_Some).
  assert (∀ b, active_used_weight b = 0 → act_w b = None ∧ ∀ k, paired k b = false) as Hzero.
  { intros b Hb. destruct (decide (intermediate_symbol_ids b = [])) as [Hnil|Hnil].
    - by destruct (redundant_facts b Hb Hnil) as (? & _ & _ & ?).
    - by destruct (inactivated_facts b Hb Hnil) as (? & _ & _ & ?). }
  destruct (Hzero ba Hw) as [Ha0 Hp0]. destruct (Hzero ba' Hw') as [Ha1 Hp1].
  split; dsimpl; try done; [| | | | |by rewrite length_insert].
  - intros b. rewrite Hactl. destruct (decide (b = a)) as [->|Hb]; [|by rewrite list_lookup_insert_ne].
    rewrite list_lookup_insert_eq, Ha by done. simpl. congruence.
  - intros b Hb. rewrite list_lookup_insert_ne by (intros ->; done). by apply Hinal.
  - intros b Hb. rewrite length_insert. by apply Hstale.
  - rewrite Hred. pose proof (count_insert (λ b buf, red buf && bool_decide (b ∉ stale)) (buffer_state d) a ba ba' Ha) as Hc. cbn beta in Hc.
    rewrite (bool_decide_false (a ∉ stale)), !andb_false_r in Hc by tauto. cbn [b2n] in Hc. lia.
  - rewrite Hpair. pose proof (count_insert (λ _ buf, paired (num_source_symbols (decoder_params d)) buf) (buffer_state d) a ba ba' Ha) as Hc.
    cbn beta in Hc. rewrite Hp0, Hp1 in Hc. lia.
Qed.

(** The weight of a stale buffer is brought up to date. *)
Lemma refresh_spec d stale extra b buf :
  book d (b :: stale) extra → b ∉ stale → buffer_state d !! b = Some buf → active_used_weight buf = 0 →
  (Z.of_nat (length (intermediate_symbol_ids buf)) <= 65535)%Z →
  ∃ d', refresh_inactivated d b = Ret d' ∧ book d' stale extra ∧ decoder_params d' = decoder_params d ∧
    buffer_state d' = buffer_state d ∧ intermediate_symbol_state d' = intermediate_symbol_state d ∧
    num_redundant_buffers d' = num_redundant_buffers d + b2n (bool_decide (intermediate_symbol_ids buf = [])).
Proof.
  intros Hbk Hbs Hb Hw Hlen. pose proof Hbk as [Hact Hina Hactl Hinal Hstale Hred Hpair Hlenb].
  unfold refresh_inactivated, update_inactivated. rewrite Hb. dsimpl. destruct (Hstale b) as [[w0 Hw0] _]; [left|].
  pose proof (count_change (λ c buf, red buf && bool_decide (c ∉ b :: stale)) (λ c buf, red buf && bool_decide (c ∉ stale))
    (buffer_state d) b buf Hb) as Hc. cbn beta in Hc. rewrite <-Hred in Hc.
  rewrite (bool_decide_false (b ∉ b :: stale)), (bool_decide_true (b ∉ stale)), andb_true_r, andb_false_r in Hc
    by (done || rewrite elem_of_cons; tauto).
  assert (∀ c x, buffer_state d !! c = Some x → c ≠ b →
    red x && bool_decide (c ∉ b :: stale) = red x && bool_decide (c ∉ stale)) as Hsame.
  { intros c x _ Hne. f_equal. apply bool_decide_ext. rewrite elem_of_cons. tauto. }
  specialize (Hc Hsame). cbn [b2n] in Hc. case_bool_decide as Hids.
  - destruct (inactivated_facts buf Hw) as (_ & Hina1 & Hred1 & _); [by intros Heq; rewrite Heq in Hids; simpl in Hids; lia|].
    rewrite weight_u16_ok by lia. dsimpl.
    destruct (heap_update_spec (buffers_inactivated d) b w0 (length (intermediate_symbol_ids buf))) as (h & -> & Hok & Hl); [done..|].
    dsimpl. eexists. split; [done|]. rewrite (bool_decide_false (intermediate_symbol_ids buf = [])) by (by intros Heq; rewrite Heq in Hids; simpl in Hids; lia).
    split; [|dsimpl; cbn [b2n]; split_and!; done || lia]. split; dsimpl; try done.
    + intros c Hcs. rewrite Hl. case_decide as Hcb; [subst; rewrite Hb; simpl; congruence|]. apply Hinal. rewrite elem_of_cons. tauto.
    + intros c Hcs. rewrite Hl. assert (c ≠ b) by congruence. rewrite decide_False by done. apply Hstale. by right.
    + rewrite Hred1 in Hc. cbn [b2n] in Hc. lia.
  - assert (intermediate_symbol_ids buf = []) as Hnil by (destruct (intermediate_symbol_ids buf); [done|simpl in Hids; lia]).
    destruct (redundant_facts buf Hw Hnil) as (_ & Hina1 & Hred1 & _).
    destruct (heap_remove_spec (buffers_inactivated d) b w0) as (h & -> & Hok & Hl); [done..|].
    dsimpl. erewrite (add_redundant_spec d (b :: stale) extra); [|done..|right; left|done]. dsimpl. eexists. split; [done|].
    rewrite (bool_decide_true (intermediate_symbol_ids buf = [])) by done.
    split; [|dsimpl; cbn [b2n]; split_and!; done || lia]. split; dsimpl; try done.
    + intros c Hcs. rewrite Hl. case_decide as Hcb; [subst; rewrite Hb; simpl; congruence|]. apply Hinal. rewrite elem_of_cons. tauto.
    + intros c Hcs. rewrite Hl. assert (c ≠ b) by congruence. rewrite decide_False by done. apply Hstale. by right.
    + rewrite Hred1 in Hc. cbn [b2n] in Hc. lia.
Qed.

Section gauss.
Context (n : nat) (bl syml : list nat) (Hbl : NoDup bl) (Hsyml : NoDup syml).

(** During the row operations: the buffers [bl] hold only the inactivated symbols
    [syml]. *)
Record ginv (d : Decoder) (st : BufferSet) : Prop := {
  g_inv : inv n d st 0 [] false bl 0;
  g_zero : ∀ b, b ∈ bl → ∃ buf, buffer_state d !! b = Some buf ∧ active_used_weight buf = 0 ∧ used buf = false ∧
             ∀ s, s ∈ intermediate_symbol_ids buf → s ∈ syml;
}.

Definition gmat (d : Decoder) (x y : nat) : bool :=
  match bl !! x, syml !! y with
  | Some b, Some s =>
      match buffer_state d !! b with Some buf => bool_decide (s ∈ intermediate_symbol_ids buf) | None => false end
  | _, _ => false
  end.

Lemma gauss_inactive d b buf s :
  struct_ok d 0 [] false → buffer_state d !! b = Some buf → active_used_weight buf = 0 →
  s ∈ intermediate_symbol_ids buf → noninact (intermediate_symbol_state d) s = false.
Proof.
  intros Hst Hb Hw Hs. destruct (noninact _ s) eqn:Hn; [|done]. rewrite (st_weight _ _ _ _ Hst b buf Hb) in Hw.
  pose proof (wcount_pos (counted (intermediate_symbol_state d) 0 [] false b) _ s Hs) as Hpos. rewrite counted_none in Hpos.
  specialize (Hpos Hn). lia.
Qed.

Lemma gauss_op d st i j :
  ginv d st → valid_op (length bl) (length syml) (gmat d) (i, j) →
  ∃ d' st', apply_row_operation xor_buffers bl (d, st) (i, j) = Ret (d', st') ∧ ginv d' st' ∧
    (∀ x y, gmat d' x y = row_op (gmat d) (i, j) x y) ∧ decoder_params d' = decoder_params d ∧
    length (buffer_state d') = length (buffer_state d) ∧ num_redundant_buffers d' = num_redundant_buffers d ∧
    map kind (intermediate_symbol_state d') = map kind (intermediate_symbol_state d) ∧
    same_solutions n (ids_of d) (buffers st) (ids_of d') (buffers st').
Proof.
  intros [[Hst Hbk Hdt] Hzero] (Hi & Hj & Hij & y0 & Hy0 & Hiy & Hjy). simpl in *. unfold apply_row_operation.
  destruct (lookup_lt_is_Some_2 bl i Hi) as [a Ha]. destruct (lookup_lt_is_Some_2 bl j Hj) as [b Hb].
  destruct (lookup_lt_is_Some_2 syml y0 Hy0) as [s1 Hs1]. simpl. rewrite Ha, Hb. cbn [expect mbind exec_bind].
  assert (a ≠ b) as Hab by (intros ->; apply Hij; by eapply (NoDup_lookup bl)).
  destruct (Hzero a) as (ba & Hba & Hwa & Hua & Hsa); [by eapply list_elem_of_lookup_2|].
  destruct (Hzero b) as (bb & Hbb & Hwb & Hub & Hsb); [by eapply list_elem_of_lookup_2|].
  unfold gmat in Hiy, Hjy. rewrite Ha, Hs1, Hba in Hiy. rewrite Hb, Hs1, Hbb in Hjy. apply bool_decide_eq_true in Hiy, Hjy.
  destruct (st_ids _ _ _ _ Hst a ba Hba) as [Hsorta Hlta]. destruct (st_ids _ _ _ _ Hst b bb Hbb) as [Hsortb Hltb].
  pose proof (strict_NoDup _ Hsorta) as Hnda. pose proof (strict_NoDup _ Hsortb) as Hndb.
  assert (∀ s, s ∈ intermediate_symbol_ids bb → noninact (intermediate_symbol_state d) s = false) as Hinb
    by (intros s; by eapply gauss_inactive).
  assert (∀ c buf s, buffer_state d !! c = Some buf → active_used_weight buf = 0 → s ∈ intermediate_symbol_ids buf →
            state buf = BufferInactivated) as Hstate.
  { intros c buf s _ Hw Hs. destruct (state_spec buf) as [[? ->]|[(? & ? & ->)|[(? & ? & ->)|[(? & ? & ->)|(? & Hn & ->)]]]]; try lia; [done|].
    rewrite Hn in Hs. by apply elem_of_nil in Hs. }
  unfold buffer_inactivated_xor_eq.
  destruct (two_xor_spec d (λ s, bool_decide (s = BufferInactivated)) (λ s, bool_decide (s = BufferInactivated)) a b ba bb)
    as (ids' & syms' & -> & Hd & Ht); try done; [apply bool_decide_eq_true; by eapply Hstate..| |].
  { intros s Hs. destruct (id_sym d 0 [] false Hst b bb s Hbb Hs) as [sym Hsym]. exists sym. split; [done|].
    pose proof (Hinb s Hs) as Hn. unfold noninact in Hn. rewrite Hsym in Hn. destruct sym as [|l|]; try done.
    split; [by apply (st_sym _ _ _ _ Hst s _ Hsym)|]. rewrite (st_match _ _ _ _ Hst a s ba Hba) by (by eapply id_lt).
    unfold holds. rewrite elem_of_nil. naive_solver. }
  cbn [mbind exec_bind]. set (d' := set_symbol_state _ _).
  assert (length (buffer_state d') = length (buffer_state d)) as Hlenb by (simpl; by rewrite length_insert).
  destruct (xor_indices_spec n d' st a b) as (st' & x & y & -> & Hx & Hy & Hlx & Hly & Htemp & Hst' & Hf');
    [by eapply (data_ok_frame n d d' st st); try apply Hdt|rewrite Hlenb; by eapply lookup_lt_Some..|done|].
  cbn [mbind exec_bind]. exists d', st'. split; [done|].
  pose proof (symdiff_lt _ _ _ _ Hlta Hltb Hd) as Hlt'.
  split_and!; [split; [split|]| |done|done|done|by eapply kinds_toggle|].
  - eapply (struct_change d d' 0 [] [] false a ba _ (intermediate_symbol_ids bb)); try done.
    + apply Hd.
    + eapply (symdiff_holds d 0 [] [] a ba); try done.
      * intros s Hs. by apply (st_match _ _ _ _ Hst a s ba Hba).
      * intros s Hs Hn. rewrite Hinb in Hn by done. done.
      * intros s _ _. right. apply not_elem_of_nil.
      * apply not_elem_of_nil.
      * by intros ?%elem_of_nil.
    + simpl. rewrite Hwa. destruct (wcount (counted (intermediate_symbol_state d) 0 [] false a) ids') eqn:Hwc; [done|].
      exfalso. destruct (wcount_elem (counted (intermediate_symbol_state d) 0 [] false a) ids') as (s & Hs & Hc); [lia|].
      rewrite counted_none in Hc. apply (proj2 Hd) in Hs as [[Hs _]|[_ Hs]]; [|by rewrite Hinb in Hc].
      by rewrite (gauss_inactive d a ba s) in Hc.
    + simpl. congruence.
  - apply (book_stale_change d bl 0 a ba); try done. by eapply list_elem_of_lookup_2.
  - eapply (data_ok_frame n d d' st st'); try done. by rewrite Hst', length_insert.
  - intros c Hc. simpl. destruct (decide (c = a)) as [->|Hca].
    + exists (set_ids ba ids'). rewrite list_lookup_insert_eq by (by eapply lookup_lt_Some). split_and!; try done.
      intros s Hs. simpl in Hs. apply (proj2 Hd) in Hs. naive_solver.
    + rewrite list_lookup_insert_ne by done. by apply Hzero.
  - intros x' y'. unfold gmat, row_op. simpl. destruct (bl !! x') as [c|] eqn:Hc; [|case_decide; [congruence|done]].
    destruct (decide (x' = i)) as [->|Hne].
    + rewrite Ha in Hc. injection Hc as <-. rewrite Hb. destruct (syml !! y') as [s|]; [|done].
      rewrite list_lookup_insert_eq by (by eapply lookup_lt_Some). rewrite Hba, Hbb. simpl.
      destruct Hd as [_ Hin]. specialize (Hin s). repeat case_bool_decide; done || tauto.
    + assert (c ≠ a) by (intros ->; apply Hne; by eapply (NoDup_lookup bl)). by rewrite list_lookup_insert_ne.
  - unfold ids_of at 2. simpl. rewrite ids_of_insert, Hst'. simpl.
    eapply (row_op_solutions n _ _ a b (intermediate_symbol_ids ba) (intermediate_symbol_ids bb) x y); try done; by apply ids_of_lookup.
Qed.

Lemma gauss_fold d st ops :
  ginv d st → valid_ops (length bl) (length syml) (gmat d) ops →
  ∃ d' st', foldM (apply_row_operation xor_buffers bl) (d, st) ops = Ret (d', st') ∧ ginv d' st' ∧
    (∀ x y, gmat d' x y = row_ops (gmat d) ops x y) ∧ decoder_params d' = decoder_params d ∧
    length (buffer_state d') = length (buffer_state d) ∧ num_redundant_buffers d' = num_redundant_buffers d ∧
    map kind (intermediate_symbol_state d') = map kind (intermediate_symbol_state d) ∧
    same_solutions n (ids_of d) (buffers st) (ids_of d') (buffers st').
Proof.
  intros Hg Hops.
  destruct (foldM_inv (λ k '(d', st'), ginv d' st' ∧
    (∀ x y, gmat d' x y = row_ops (gmat d) (take k ops) x y) ∧ decoder_params d' = decoder_params d ∧
    length (buffer_state d') = length (buffer_state d) ∧ num_redundant_buffers d' = num_redundant_buffers d ∧
    map kind (intermediate_symbol_state d') = map kind (intermediate_symbol_state d) ∧
    same_solutions n (ids_of d) (buffers st) (ids_of d') (buffers st')) (apply_row_operation xor_buffers bl) (d, st) ops)
    as ([d' st'] & Hfold & Hg' & Hm & Hrest).
  - split_and!; try done.
  - intros k [d1 st1] [i j] Hk (Hg1 & Hm1 & Hp1 & Hl1 & Hr1 & Hk1 & Hs1).
    destruct (gauss_op d1 st1 i j Hg1) as (d2 & st2 & -> & Hg2 & Hm2 & Hp2 & Hl2 & Hr2 & Hk2 & Hs2).
    { destruct (Hops k _ Hk) as (H1 & H2 & H3 & c & Hc & Hc1 & Hc2). split_and!; [done..|]. exists c. by rewrite !Hm1. }
    eexists (_, _). split; [done|]. split_and!; [done| |congruence..|by eapply same_solutions_trans].
    intros x y. rewrite Hm2, (take_S_r _ _ (i, j)) by done. unfold row_ops. rewrite foldl_app. cbn [foldl]. unfold row_op at 1 2. simpl.
    fold (row_ops (gmat d) (take k ops)). by rewrite !Hm1.
  - exists d', st'. rewrite take_ge in Hm by done. split_and!; done || apply Hrest.
Qed.

Lemma refresh_fold l d :
  NoDup l → book d l 0 →
  (∀ b, b ∈ l → ∃ buf, buffer_state d !! b = Some buf ∧ active_used_weight buf = 0 ∧
     (Z.of_nat (length (intermediate_symbol_ids buf)) <= 65535)%Z) →
  ∃ d', foldM refresh_inactivated d l = Ret d' ∧ book d' [] 0 ∧ decoder_params d' = decoder_params d ∧
    buffer_state d' = buffer_state d ∧ intermediate_symbol_state d' = intermediate_symbol_state d ∧
    num_redundant_buffers d <= num_redundant_buffers d' ∧
    (∀ b buf, b ∈ l → buffer_state d !! b = Some buf → intermediate_symbol_ids buf = [] → num_redundant_buffers d < num_redundant_buffers d').
Proof.
  revert d. induction l as [|b l IH]; intros d Hnd Hbk Hz; cbn [foldM].
  { exists d. split_and!; try done. by intros b buf ?%elem_of_nil. }
  apply NoDup_cons in Hnd as [Hb Hnd]. destruct (Hz b) as (buf & Hbuf & Hw & Hlen); [left|].
  destruct (refresh_spec d l 0 b buf) as (d1 & -> & Hbk1 & Hp1 & Hb1 & Hs1 & Hr1); [done..|]. cbn [mbind exec_bind].
  destruct (IH d1 Hnd Hbk1) as (d2 & -> & Hbk2 & Hp2 & Hb2 & Hs2 & Hr2 & Hr3).
  { intros c Hc. rewrite Hb1. apply Hz. by right. }
  exists d2. split_and!; [done|done|congruence..|lia|]. intros c cbuf Hc Hcb Hnil. apply elem_of_cons in Hc as [->|Hc].
  - assert (cbuf = buf) as -> by congruence. rewrite bool_decide_true in Hr1 by done. simpl in Hr1. lia.
  - rewrite <-Hb1 in Hcb. specialize (Hr3 c cbuf Hc Hcb Hnil). lia.
Qed.
End gauss.

Lemma elem_of_btree_set l x : x ∈ btree_set l ↔ x ∈ l.
Proof. unfold btree_set. by rewrite merge_sort_Permutation, elem_of_unique. Qed.
Lemma NoDup_btree_set l : NoDup (btree_set l).
Proof. unfold btree_set. rewrite merge_sort_Permutation. apply NoDup_unique. Qed.

(** The inactivated buffers and their symbols *)
Definition inactivated_system (d : Decoder) (bl syml : list nat) : Prop :=
  NoDup bl ∧ NoDup syml ∧ (∀ b, b ∈ bl ↔ is_Some (wlookup (buffers_inactivated d) b)) ∧
  (∀ s, s ∈ syml ↔ ∃ b buf, b ∈ bl ∧ buffer_state d !! b = Some buf ∧ s ∈ intermediate_symbol_ids buf).

Lemma inactivated_entry d b w :
  struct_ok d 0 [] false → book d [] 0 → wlookup (buffers_inactivated d) b = Some w →
  ∃ buf, buffer_state d !! b = Some buf ∧ active_used_weight buf = 0 ∧ used buf = false ∧ intermediate_symbol_ids buf ≠ [] ∧
    w = length (intermediate_symbol_ids buf).
Proof.
  intros Hst Hbk Hw. rewrite (bk_ina _ _ _ Hbk b (not_elem_of_nil b)) in Hw.
  destruct (buffer_state d !! b) as [buf|] eqn:Hb; [|done]. exists buf. split; [done|]. simpl in Hw. unfold ina_w in Hw.
  destruct (state_spec buf) as [[? Hs]|[(? & ? & Hs)|[(? & ? & Hs)|[(Hw0 & ? & Hs)|(? & ? & Hs)]]]]; rewrite Hs in Hw; try done.
  injection Hw as <-. split_and!; try done. destruct (used buf) eqn:Hu; [|done]. destruct (st_used _ _ _ _ Hst b buf Hb Hu). lia.
Qed.

Lemma mapM_ids d bl :
  (∀ b, b ∈ bl → is_Some (buffer_state d !! b)) →
  mapM (λ b, buf ← expect (buffer_state d !! b); Ret (intermediate_symbol_ids buf)) bl =
  Ret (map (λ b, default [] (intermediate_symbol_ids <$> buffer_state d !! b)) bl).
Proof.
  intros Hb. apply mapM_map. intros b Hin. destruct (Hb b Hin) as [buf ->]. done.
Qed.

(** The matrix of the inactivated buffers *)
Lemma gauss_matrix d bl syml :
  struct_ok d 0 [] false → inactivated_system d bl syml → (∀ b, b ∈ bl → is_Some (buffer_state d !! b)) →
  ∃ m, from_fn (length bl) (length syml) (inactivated_cell d bl syml) = Ret m ∧ dense_ok (length bl) (length syml) m ∧
    ∀ i j, i < length bl → j < length syml → entry m i j = gmat bl syml d i j.
Proof.
  intros Hst Hsys Hb. apply from_fn_spec. intros i j Hi Hj. unfold inactivated_cell, gmat.
  destruct (lookup_lt_is_Some_2 bl i Hi) as [b Hib]. destruct (lookup_lt_is_Some_2 syml j Hj) as [s Hjs]. rewrite Hib, Hjs.
  cbn [expect mbind exec_bind]. destruct (Hb b) as [buf Hbuf]; [by eapply list_elem_of_lookup_2|]. rewrite Hbuf.
  cbn [expect mbind exec_bind]. rewrite set_contains_spec; [done|]. by apply (st_ids _ _ _ _ Hst b).
Qed.

(** The elimination leaves a buffer of one symbol or of none. *)
Lemma gauss_progress n bl syml d st ok :
  ginv n bl syml d st → 0 < length bl → NoDup bl → NoDup syml →
  reduced (length bl) (length syml) (gmat bl syml d) ok →
  ∃ b buf, b ∈ bl ∧ buffer_state d !! b = Some buf ∧ active_used_weight buf = 0 ∧ length (intermediate_symbol_ids buf) <= 1.
Proof.
  intros [[Hst _ _] Hz] Hlen Hbl Hsyml Hred.
  assert (∃ i, i < length bl ∧ ∀ y y', y < length syml → y' < length syml →
    gmat bl syml d i y = true → gmat bl syml d i y' = true → y = y') as (i & Hi & Huniq).
  { destruct ok; [exists 0; split; [done|]; intros y y' Hy Hy'; by apply Hred|].
    destruct Hred as (i & Hi & Hnone). exists i. split; [done|]. intros y y' Hy Hy'. by rewrite Hnone. }
  destruct (lookup_lt_is_Some_2 bl i Hi) as [b Hb]. destruct (Hz b) as (buf & Hbuf & Hw & _ & Hsub); [by eapply list_elem_of_lookup_2|].
  exists b, buf. split_and!; [by eapply list_elem_of_lookup_2|done..|].
  destruct (intermediate_symbol_ids buf) as [|s [|s' l]] eqn:Hids; simpl; [lia..|]. exfalso.
  assert (∀ t, t ∈ intermediate_symbol_ids buf → ∃ y, syml !! y = Some t ∧ y < length syml ∧ gmat bl syml d i y = true) as Hy.
  { intros t Ht. destruct (proj1 (list_elem_of_lookup syml t)) as [y Hy]; [apply Hsub; by rewrite <-Hids|].
    exists y. split; [done|]. split; [by eapply lookup_lt_Some|]. unfold gmat. rewrite Hb, Hy, Hbuf. by apply bool_decide_eq_true. }
  destruct (Hy s) as (y & Hsy & Hyl & Hgy); [rewrite Hids; left|]. destruct (Hy s') as (y' & Hsy' & Hyl' & Hgy'); [rewrite Hids; right; left|].
  assert (y = y') as -> by (by apply Huniq). assert (s = s') as -> by congruence.
  pose proof (strict_NoDup _ (proj1 (st_ids _ _ _ _ Hst b buf Hbuf))) as Hnd. rewrite Hids in Hnd.
  apply NoDup_cons in Hnd as [Hnot _]. apply Hnot. left.
Qed.

Lemma gaussian_op_spec n d st :
  ready n d st →
  ∃ d' st' r, try_inactive_gaussian xor_buffers d st = Ret (d', st', r) ∧ ready n d' st' ∧ frame d d' ∧
    map kind (intermediate_symbol_state d') = map kind (intermediate_symbol_state d) ∧
    same_solutions n (ids_of d) (buffers st) (ids_of d') (buffers st') ∧
    if (r : bool)
    then (∀ b, wlookup (buffers_inactivated d) b ≠ Some 1) ∧
         (num_redundant_buffers d < num_redundant_buffers d' ∨ ∃ b, wlookup (buffers_inactivated d') b = Some 1)
    else d' = d ∧ st' = st ∧
         ((∃ b, wlookup (buffers_inactivated d) b = Some 1) ∨
          ∃ bl syml, inactivated_system d bl syml ∧ (bl = [] ∨ length bl < length syml)).
Proof.
  intros Hready. pose proof Hready as [Hst Hbk Hdt]. pose proof (bk_ina_ok _ _ _ Hbk) as Hok. unfold try_inactive_gaussian.
  destruct (WeightMap.is_empty (buffers_inactivated d)) eqn:Hempty.
  { rewrite heap_is_empty_spec in Hempty by apply Hok. exists d, st, false. split_and!; try done. right. exists [], [].
    split; [|by left]. split_and!; [constructor..| |].
    - intros b. rewrite elem_of_nil, Hempty. split; [done|by intros [? [=]]].
    - intros s. rewrite elem_of_nil. split; [done|]. by intros (b & buf & ?%elem_of_nil & _). }
  destruct (peek_min_spec (buffers_inactivated d) Hok) as (r & -> & Hr). cbn [mbind exec_bind].
  destruct r as [[b0 w0]|].
  2:{ apply (heap_is_empty_spec _ (proj1 Hok)) in Hr. congruence. }
  destruct Hr as [Hw0 Hmin]. cbn [expect mbind exec_bind]. case_bool_decide as Hone.
  { subst w0. exists d, st, false. split_and!; try done. left. by exists b0. }
  destruct (enumerate_spec (buffers_inactivated d) (proj1 Hok)) as (entries & -> & Hnd & Hin & _). cbn [mbind exec_bind].
  set (bl := entries.*1) in *.
  assert (∀ b, b ∈ bl ↔ is_Some (wlookup (buffers_inactivated d) b)) as Hbl.
  { intros b. unfold bl. rewrite list_elem_of_fmap. split.
    - intros ([b' w] & -> & Hbw%Hin). by eexists.
    - intros [w Hw%Hin]. by exists (b, w). }
  assert (∀ b, b ∈ bl → ∃ buf, buffer_state d !! b = Some buf ∧ active_used_weight buf = 0 ∧ used buf = false) as Hbuf.
  { intros b [w Hw]%Hbl. destruct (inactivated_entry d b w Hst Hbk Hw) as (buf & ? & ? & ? & _). by exists buf. }
  assert (∀ b, b ∈ bl → is_Some (buffer_state d !! b)) as Hbs by (intros b Hb; destruct (Hbuf b Hb) as (buf & -> & _); by eexists).
  rewrite mapM_ids by done. cbn [mbind exec_bind].
  set (syml := btree_set _). assert (inactivated_system d bl syml) as Hsys.
  { split_and!; [done|apply NoDup_btree_set|done|]. intros s. unfold syml. rewrite elem_of_btree_set, elem_of_concat_map. split.
    - intros (b & Hb & Hs). destruct (Hbs b Hb) as [buf Hb']. rewrite Hb' in Hs. by exists b, buf.
    - intros (b & buf & Hb & Hb' & Hs). exists b. rewrite Hb'. done. }
  case_bool_decide as Hlt.
  { exists d, st, false. split_and!; try done. right. exists bl, syml. split; [done|by right]. }
  destruct (gauss_matrix d bl syml Hst Hsys Hbs) as (m & -> & Hm & Hentry). cbn [mbind exec_bind].
  assert (length bl <= length (buffer_state d)) as Hbll.
  { rewrite <-(length_seq (length (buffer_state d)) 0). apply submseteq_length, NoDup_submseteq; [done|].
    intros b Hb. apply elem_of_seq. destruct (Hbs b Hb) as [buf Hb']. apply lookup_lt_Some in Hb'. lia. }
  pose proof (bk_length _ _ _ Hbk) as Hlenb.
  destruct (gaussian_spec (length bl) (length syml) m Hm) as (ops & ok & -> & Hops & Hred); [lia..|]. cbn [mbind exec_bind].
  pose proof (valid_ops_range _ _ _ _ Hops) as Hrange.
  assert (ginv n bl syml d st) as Hg.
  { split; [split; [done|by apply book_make_stale; [|intros b; apply Hbl]|done]|]. intros b Hb. destruct (Hbuf b Hb) as (buf & Hb' & Hw & Hu).
    exists buf. split_and!; [done..|]. intros s Hs. apply Hsys. by exists b, buf. }
  destruct (gauss_fold n bl syml Hnd d st ops Hg) as (d1 & st1 & -> & Hg1 & Hm1 & Hp1 & Hl1 & Hr1 & Hk1 & Hs1).
  { eapply valid_ops_ext; [done|]. intros x y Hx Hy. by apply Hentry. }
  cbn [mbind exec_bind]. pose proof Hg1 as [[Hst1 Hbk1 Hdt1] Hz1].
  destruct (refresh_fold bl d1 Hnd Hbk1) as (d2 & -> & Hbk2 & Hp2 & Hb2 & Hsy2 & Hr2 & Hr3).
  { intros b Hb. destruct (Hz1 b Hb) as (buf & Hb' & Hw & _). exists buf. split_and!; [done..|]. by eapply ids_length. }
  cbn [mbind exec_bind]. exists d2, st1, true. split_and!; [done| | |congruence| | |].
  - split; [|done|].
    + destruct Hst1. split; rewrite ?Hp2, ?Hb2, ?Hsy2; done.
    + destruct Hdt1. split; rewrite ?Hb2; try done. unfold num_redundant_intermediate_symbols in *. by rewrite Hp2.
  - split; [congruence|congruence|lia].
  - unfold ids_of at 2. rewrite Hb2. done.
  - intros b Hb1. specialize (Hmin b 1 Hb1). destruct (inactivated_entry d b0 w0 Hst Hbk Hw0) as (buf & _ & _ & _ & Hne & ->).
    destruct (intermediate_symbol_ids buf) as [|x [|y l]]; simpl in *; [done|done|lia].
  - destruct (gauss_progress n bl syml d1 st1 ok) as (b & buf & Hb & Hb' & Hw & Hlen1); [done| |done|apply Hsys| |].
    { destruct bl as [|b l]; [|simpl; lia]. exfalso. assert (b0 ∈ []) as Hb0 by (apply Hbl; by eexists). by apply elem_of_nil in Hb0. }
    { destruct ok; simpl in Hred |- *.
      - intros x y y' Hx Hy Hy'. rewrite !Hm1. rewrite <-!(row_ops_ext _ _ _ _ _ Hrange Hentry) by done. by apply Hred.
      - destruct Hred as (x & Hx & Hx'). exists x. split; [done|]. intros y Hy. rewrite Hm1.
        rewrite <-(row_ops_ext _ _ _ _ _ Hrange Hentry) by done. by apply Hx'. }
    destruct (intermediate_symbol_ids buf) as [|s [|]] eqn:Hids; simpl in Hlen1; [| |lia].
    + left. rewrite <-Hr1. by apply (Hr3 b buf).
    + right. exists b. rewrite (bk_ina _ _ _ Hbk2 b (not_elem_of_nil b)), Hb2, Hb'. simpl.
      destruct (inactivated_facts buf Hw) as (_ & -> & _); [by rewrite Hids|]. by rewrite Hids.
Qed.
