(* ===== verification/RaptorDecoderRecv.v ===== *)
(** The construction of the Raptor decoder and the reception of a symbol keep the
    invariant. *)

From S2P Require Import Prelude Types ValidatorSet Crypto RaptorTables RaptorCode RaptorCodeProps RaptorEncoderProps.
From S2P Require Import RaptorStructs RaptorSetProps RaptorHeapProps RaptorMatrixProps RaptorDecoder RaptorDecoderInv RaptorDecoderSteps.

#[local] Open Scope nat_scope.

(** * A new buffer *)

Lemma book_snoc d buf act ina nred syms :
  book d [] 0 → used buf = false → (Z.of_nat (length (buffer_state d)) < 65535)%Z →
  heap_ok act → (∀ b, wlookup act b = if decide (b = length (buffer_state d)) then act_w buf else wlookup (buffers_active_usable d) b) →
  heap_ok ina → (∀ b, wlookup ina b = if decide (b = length (buffer_state d)) then ina_w buf else wlookup (buffers_inactivated d) b) →
  nred = num_redundant_buffers d + b2n (red buf) →
  book (mkDecoder (decoder_params d) (buffer_state d ++ [buf]) syms act ina nred (num_source_symbols_paired d)) [] 0.
Proof.
  intros [Hact Hina Hactl Hinal Hstale Hred Hpair Hlen] Hu Hlt Hok1 Hl1 Hok2 Hl2 Hnred.
  assert (∀ b, (buffer_state d ++ [buf]) !! b = if decide (b = length (buffer_state d)) then Some buf else buffer_state d !! b) as Hlook.
  { intros b. case_decide as Hb; [subst; by rewrite lookup_app_r, Nat.sub_diag by lia|].
    destruct (decide (b < length (buffer_state d))); [by rewrite lookup_app_l|].
    rewrite !lookup_ge_None_2; [done|lia|rewrite length_app; simpl; lia]. }
  split; dsimpl; try done.
  - intros b. rewrite Hl1, Hlook. case_decide; [done|apply Hactl].
  - intros b Hb. rewrite Hl2, Hlook. case_decide; [done|]. by apply Hinal.
  - by intros b ?%elem_of_nil.
  - rewrite count_snoc, Hnred, <-Hred. do 2 f_equal. by rewrite (bool_decide_true (_ ∉ [])), andb_true_r by apply not_elem_of_nil.
  - rewrite count_snoc, <-Hpair. unfold paired, is_paired.
    destruct (state_spec buf) as [[? ->]|[(? & ? & ->)|[(? & ? & ->)|[(? & ? & ->)|(? & ? & ->)]]]]; simpl; congruence || lia.
  - rewrite length_app. simpl. lia.
Qed.

(** The symbols [ids] enter the new buffer [N]. *)
Definition pushed (N : nat) (ids : list nat) (syms syms' : list IntermediateSymbol) : Prop :=
  length syms' = length syms ∧
  ∀ s, syms' !! s = match syms !! s with
                    | Some (Active l) => Some (Active (if decide (s ∈ ids) then l ++ [N] else l))
                    | Some (Inactivated l) => Some (Inactivated (if decide (s ∈ ids) then l ++ [N] else l))
                    | x => x
                    end.

Lemma push_fold_spec N ids syms :
  NoDup ids → (∀ s, s ∈ ids → ∃ sym, syms !! s = Some sym ∧ is_used sym = false) →
  ∃ syms', foldM (push_buffer_index N) syms ids = Ret syms' ∧ pushed N ids syms syms'.
Proof.
  revert syms. induction ids as [|s ids IH]; intros syms Hnd Hs; cbn [foldM].
  { exists syms. split; [done|]. split; [done|]. intros s. destruct (syms !! s) as [[]|]; rewrite ?decide_False by apply not_elem_of_nil; done. }
  apply NoDup_cons in Hnd as [Hsi Hnd]. destruct (Hs s) as (sym & Hsym & Hu); [left|]. 
  assert (s < length syms) as Hlt by (by eapply lookup_lt_Some).
  assert (∃ sym', push_buffer_index N syms s = Ret (<[s := sym']> syms) ∧
    match sym with Active l => sym' = Active (l ++ [N]) | Inactivated l => sym' = Inactivated (l ++ [N]) | Used _ => False end)
    as (sym' & -> & Hsym').
  { unfold push_buffer_index. rewrite Hsym. destruct sym as [l|l|b]; simpl in *; [by eexists..|done]. }
  dsimpl. destruct (IH (<[s := sym']> syms)) as (syms' & -> & Hlen & Hp); [done| |].
  { intros t Ht. destruct (Hs t) as (symt & Hst & Hut); [by right|]. exists symt.
    rewrite list_lookup_insert_ne by congruence. done. }
  exists syms'. split; [done|]. rewrite length_insert in Hlen. split; [done|]. intros t. rewrite Hp.
  destruct (decide (t = s)) as [->|Hne].
  - rewrite list_lookup_insert_eq, Hsym by done.
    destruct sym; [subst sym'; rewrite (decide_False (P := s ∈ ids)), (decide_True (P := s ∈ s :: ids)) by (done || left); done..|done].
  - rewrite list_lookup_insert_ne by done. destruct (syms !! t) as [[l|l|b]|]; try done; do 2 f_equal; apply decide_ext; rewrite elem_of_cons; tauto.
Qed.

Lemma pushed_kind N ids syms syms' : pushed N ids syms syms' → map kind syms' = map kind syms.
Proof.
  intros [_ Hp]. apply list_eq. intros s. rewrite !list_lookup_fmap, Hp. by destruct (syms !! s) as [[]|].
Qed.
Lemma pushed_facts N ids syms syms' s :
  pushed N ids syms syms' →
  noninact syms' s = noninact syms s ∧ (∀ b, syms' !! s = Some (Used b) ↔ syms !! s = Some (Used b)) ∧
  (∀ b, b ≠ N → holds syms' s b ↔ holds syms s b) ∧
  (¬ holds syms s N → (∀ b, syms !! s ≠ Some (Used b)) → s < length syms → holds syms' s N ↔ s ∈ ids) ∧
  (¬ holds syms s N → (∃ b, syms !! s = Some (Used b)) → ¬ holds syms' s N).
Proof.
  intros [_ Hp]. specialize (Hp s). unfold noninact, holds. destruct (syms !! s) as [[l|l|b]|] eqn:Hs; rewrite Hp.
  - split_and!; [done|naive_solver| | |naive_solver].
    + intros b Hb. case_decide; [|naive_solver]. split; intros (sym & [= <-] & Hin); eexists; (split; [done|]); simpl in *;
        rewrite elem_of_app, ?list_elem_of_singleton in *; tauto.
    + intros Hn _ _. split.
      * intros (sym & [= <-] & Hin). case_decide; [done|]. destruct Hn. by eexists.
      * intros Hin. rewrite decide_True by done. eexists. split; [done|]. simpl. rewrite elem_of_app, list_elem_of_singleton. tauto.
  - split_and!; [done|naive_solver| | |naive_solver].
    + intros b Hb. case_decide; [|naive_solver]. split; intros (sym & [= <-] & Hin); eexists; (split; [done|]); simpl in *;
        rewrite elem_of_app, ?list_elem_of_singleton in *; tauto.
    + intros Hn _ _. split.
      * intros (sym & [= <-] & Hin). case_decide; [done|]. destruct Hn. by eexists.
      * intros Hin. rewrite decide_True by done. eexists. split; [done|]. simpl. rewrite elem_of_app, list_elem_of_singleton. tauto.
  - split_and!; [done|done|done|naive_solver|done].
  - split_and!; [done|done|done| |naive_solver]. intros _ _ Hlt. apply lookup_lt_is_Some in Hlt as [? ?]; congruence.
Qed.

(** The symbols enter the buffer, in order. *)
Lemma append_fold_spec d l :
  params_ok (decoder_params d) → length (intermediate_symbol_state d) = num_intermediate_symbols (decoder_params d) →
  Forall (λ s, s < num_intermediate_symbols (decoder_params d)) l →
  ∃ us, foldM (append_sequence d) (buffer_new, []) l =
      Ret (mkBuffer l (wcount (noninact (intermediate_symbol_state d)) l) false, map snd us) ∧
    (∀ s b, (s, b) ∈ us ↔ s ∈ l ∧ intermediate_symbol_state d !! s = Some (Used b)) ∧
    (NoDup l → NoDup (map fst us)).
Proof.
  intros Hp Hlen. pose proof (ok_prime_range _ Hp) as Hrange. induction l as [|s l IH] using rev_ind; intros Hl.
  { exists []. split; [done|]. split; [|intros _; apply NoDup_nil_2]. intros s b. split; [by intros ?%elem_of_nil|by intros [?%elem_of_nil _]]. }
  apply Forall_app in Hl as [Hl Hs]. rewrite Forall_singleton in Hs. destruct (IH Hl) as (us & Heq & Hus & Hnd).
  rewrite foldM_app, Heq. cbn [mbind exec_bind foldM]. unfold append_sequence at 1.
  destruct (lookup_lt_is_Some_2 (intermediate_symbol_state d) s) as [sym Hsym]; [rewrite Hlen; exact Hs|]. rewrite Hsym. cbn [expect mbind exec_bind].
  unfold append_intermediate_symbol_id. rewrite to_u16_ok by lia. cbn [mbind exec_bind intermediate_symbol_ids active_used_weight used OrderedSet.append].
  assert ((if negb (is_inactivated sym) then S (wcount (noninact (intermediate_symbol_state d)) l)
           else wcount (noninact (intermediate_symbol_state d)) l) = wcount (noninact (intermediate_symbol_state d)) (l ++ [s])) as ->.
  { assert (noninact (intermediate_symbol_state d) s = negb (is_inactivated sym)) as Hn by (unfold noninact; rewrite Hsym; by destruct sym).
    unfold wcount. rewrite filter_app, length_app, filter_cons, Hn. destruct (is_inactivated sym); simpl; lia. }
  destruct (is_used_buffer_index sym) as [b|] eqn:Hu.
  - destruct sym; try done. injection Hu as ->. exists (us ++ [(s, b)]). rewrite !map_app. split; [done|]. split.
    + intros t c. rewrite !elem_of_app, !list_elem_of_singleton, Hus. split; [|intros [[?| ->] ?]; [by left|right; congruence]].
      intros [[? ?]|[= -> ->]]; tauto.
    + intros (Hndl & Hdis & _)%NoDup_app. apply NoDup_app. split_and!; [by apply Hnd| |apply NoDup_singleton].
      intros t Ht ->%list_elem_of_singleton. apply list_elem_of_fmap in Ht as ([t' c] & Heqt & Ht). simpl in Heqt. subst t'.
      apply Hus in Ht as [Ht _]. apply (Hdis s Ht). by left.
  - exists us. split; [done|]. split.
    + intros t c. rewrite Hus, elem_of_app, list_elem_of_singleton. split; [tauto|]. intros [[?| ->] Ht]; [done|]. rewrite Hsym in Ht. by injection Ht as ->.
    + intros (Hndl & _)%NoDup_app. by apply Hnd.
Qed.

(** The used symbols are taken out of the new buffer [N]. *)
Lemma reduce_fold_spec n d st (N : nat) us ids w :
  struct_ok d 0 [] false → N = length (buffer_state d) →
  num_temp_buffers st = num_redundant_intermediate_symbols d → length (buffers st) = S N → Forall (λ x, length x = n) (buffers st) →
  StronglySorted lt ids → Forall (λ s, s < num_intermediate_symbols (decoder_params d)) ids →
  w = wcount (noninact (intermediate_symbol_state d)) ids →
  NoDup (map fst us) → (∀ s b, (s, b) ∈ us ↔ s ∈ ids ∧ intermediate_symbol_state d !! s = Some (Used b)) →
  ∃ ids' st', foldM (reduce_by_used xor_buffers d N) (mkBuffer ids w false, st) (map snd us) =
      Ret (mkBuffer ids' (wcount (noninact (intermediate_symbol_state d)) ids') false, st') ∧
    num_temp_buffers st' = num_temp_buffers st ∧ length (buffers st') = S N ∧ Forall (λ x, length x = n) (buffers st') ∧
    StronglySorted lt ids' ∧ Forall (λ s, s < num_intermediate_symbols (decoder_params d)) ids' ∧
    (∀ s b, s ∈ ids' → intermediate_symbol_state d !! s ≠ Some (Used b)) ∧
    same_solutions n (ids_of d ++ [ids]) (buffers st) (ids_of d ++ [ids']) (buffers st').
Proof.
  intros Hst HN. revert st ids w. induction us as [|[s b] us IH]; intros st ids w Ht Hlen Hf Hs Hlt Hw Hnd Hus.
  { cbn [map foldM]. exists ids, st. subst w. split_and!; try done. intros s b Hin Hu. eapply elem_of_nil. apply Hus. by split. }
  change (map snd ((s, b) :: us)) with (b :: map snd us). change (map fst ((s, b) :: us)) with (s :: map fst us) in Hnd. cbn [foldM].
  apply NoDup_cons in Hnd as [Hsu Hnd]. destruct (Hus s b) as [Hsb _]. destruct Hsb as [Hsin Hsb]; [left|].
  destruct (reducing_buffer d s [] false b (struct_none _ _ _ _ _ Hst) Hsb) as (bb & Hb & Hu & Hwb & _ & Hsbb & Hone).
  destruct (st_ids _ _ _ _ Hst b bb Hb) as [Hsortb Hltb].
  assert (b < N) as HbN by (subst N; by eapply lookup_lt_Some).
  assert (noninact (intermediate_symbol_state d) s = true) as Hns by (unfold noninact; by rewrite Hsb).
  set (ids1 := foldl (λ ids id, (OrderedSet.insert_or_remove ids id).1) ids (intermediate_symbol_ids bb)).
  assert (symdiff ids (intermediate_symbol_ids bb) ids1) as Hd by (apply insert_or_remove_symdiff; [done|by apply strict_NoDup]).
  pose proof (symdiff_weight ids (intermediate_symbol_ids bb) ids1 (strict_NoDup _ Hs) Hd
    (noninact (intermediate_symbol_state d)) s Hsin Hsbb Hns Hone) as Hweight.
  destruct (xor_indices_buffers n d st N b Ht Hf) as (st1 & x & y & Hxor & Hx & Hy & Hlx & Hly & Ht1 & Hb1 & Hf1); [lia..|].
  assert (reduce_by_used xor_buffers d N (mkBuffer ids w false, st) b =
    Ret (mkBuffer ids1 (wcount (noninact (intermediate_symbol_state d)) ids1) false, st1)) as ->.
  { unfold reduce_by_used. rewrite Hb. cbn [expect mbind exec_bind]. unfold buffer_xor_eq. dsimpl. fold ids1.
    subst w. unfold decrement, wcount at 1 2. rewrite Hweight. cbn [mbind exec_bind]. by rewrite Hxor. }
  cbn [mbind exec_bind]. pose proof Hd as [Hsort1 Hin1].
  destruct (IH st1 ids1 (wcount (noninact (intermediate_symbol_state d)) ids1) ltac:(congruence) ltac:(rewrite Hb1, length_insert; done) Hf1 Hsort1) as
    (ids' & st' & -> & Ht' & Hlen' & Hf' & Hs' & Hlt' & Hno & Hsol); [exact (symdiff_lt _ _ _ _ Hlt Hltb Hd)|done|done| |].
  { intros t c. split.
    - intros Htc. destruct (Hus t c) as [[Htin Htu] _]; [by right|]. split; [|done]. apply Hin1. left. split; [done|]. intros Htb.
      assert (t = s) as -> by (apply Hone; [done|]; unfold noninact; by rewrite Htu). apply Hsu, list_elem_of_fmap. by exists (s, c).
    - intros [Htin Htu]. assert (t ≠ s) as Hts by (intros ->; apply Hin1 in Htin; tauto).
      apply Hin1 in Htin as [[Htin Htb]|[_ Htb]]; [|destruct Hts; apply Hone; [done|]; unfold noninact; by rewrite Htu].
      destruct (Hus t c) as [_ Hmem]. destruct (proj1 (elem_of_cons _ _ _) (Hmem (conj Htin Htu))); [congruence|done]. }
  exists ids', st'. split_and!; try done; [congruence|]. eapply same_solutions_trans; [|exact Hsol]. rewrite Hb1.
  replace (ids_of d ++ [ids1]) with (<[N := ids1]> (ids_of d ++ [ids])).
  - eapply (row_op_solutions n _ _ N b ids (intermediate_symbol_ids bb)); try done; [lia| | |by apply strict_NoDup..].
    + rewrite lookup_app_r; unfold ids_of; rewrite length_map; [|lia]. by replace (N - length (buffer_state d)) with 0 by lia.
    + rewrite lookup_app_l; [by apply ids_of_lookup|]. unfold ids_of. rewrite length_map. lia.
  - rewrite insert_app_r_alt; unfold ids_of; rewrite length_map; [|lia]. by replace (N - length (buffer_state d)) with 0 by lia.
Qed.

(** The structure with the new buffer *)
Lemma struct_snoc d d' ids syms' :
  struct_ok d 0 [] false → decoder_params d' = decoder_params d →
  buffer_state d' = buffer_state d ++ [mkBuffer ids (wcount (noninact (intermediate_symbol_state d)) ids) false] →
  intermediate_symbol_state d' = syms' → pushed (length (buffer_state d)) ids (intermediate_symbol_state d) syms' →
  StronglySorted lt ids → Forall (λ s, s < num_intermediate_symbols (decoder_params d)) ids →
  (∀ s b, s ∈ ids → intermediate_symbol_state d !! s ≠ Some (Used b)) → struct_ok d' 0 [] false.
Proof.
  intros Hst Hpar Hbuf Hsyms Hp Hsort Hlt Hno. set (N := length (buffer_state d)) in *.
  assert (∀ b buf, buffer_state d' !! b = Some buf →
    buffer_state d !! b = Some buf ∧ b ≠ N ∨ b = N ∧ buf = mkBuffer ids (wcount (noninact (intermediate_symbol_state d)) ids) false) as Hlook.
  { intros b buf. rewrite Hbuf. intros [Hb|[Hb Heq]]%lookup_app_Some.
    - left. split; [done|]. apply lookup_lt_Some in Hb. unfold N. lia.
    - right. apply list_lookup_singleton_Some in Heq as [Hz ->]. unfold N. split; [lia|done]. }
  assert (∀ s, ¬ holds (intermediate_symbol_state d) s N) as HnoN by (intros s Hh%(st_range _ _ _ _ Hst); unfold N in Hh; lia).
  rewrite Forall_forall in Hlt. pose proof Hp as [Hplen Hplook]. pose proof (st_length _ _ _ _ Hst) as Hlen.
  split; rewrite ?Hpar, ?Hsyms.
  - apply Hst.
  - congruence.
  - intros b buf [[Hb _]|[-> ->]]%Hlook; [by eapply st_ids|]. split; [done|by apply Forall_forall].
  - intros s sym Hs. rewrite Hplook in Hs. destruct (intermediate_symbol_state d !! s) as [sym0|] eqn:Hs0; [|done].
    assert (StronglySorted lt (sym_buffers sym0)) as Hs1 by (by eapply st_sym).
    assert (∀ l, sym_buffers sym0 = l → StronglySorted lt (l ++ [N])) as Hs2.
    { intros l Hl. apply StronglySorted_app_2; subst l; [|done|by repeat constructor].
      intros x y Hx Hy%list_elem_of_singleton. subst y. eapply (st_range _ _ _ _ Hst s). by exists sym0. }
    destruct sym0; simplify_eq; simpl; try case_decide; auto.
  - intros s b Hh. rewrite Hbuf, length_app. simpl. destruct (decide (b = N)) as [->|Hne]; [unfold N; lia|].
    destruct (pushed_facts _ _ _ _ s Hp) as (_ & _ & Hold & _). apply Hold in Hh; [|done]. apply (st_range _ _ _ _ Hst) in Hh. lia.
  - intros b s buf Hb Hs. destruct (pushed_facts _ _ _ _ s Hp) as (_ & _ & Hold & Hnew & Hused).
    apply Hlook in Hb as [[Hb Hne]|[-> ->]]; [rewrite (Hold b Hne); by apply Hst|]. simpl.
    destruct (lookup_lt_is_Some_2 (intermediate_symbol_state d) s) as [sym Hsym]; [lia|].
    assert ((∃ b, sym = Used b) ∨ (∀ b, sym ≠ Used b)) as [[b ->]|Hu] by (destruct sym; naive_solver).
    + split; [intros Hin; by destruct (Hno s b Hin)|]. intros [Hh|[_ ?%elem_of_nil]]; [|done]. by destruct (Hused (HnoN s)); [exists b|].
    + rewrite Hnew; [|done|congruence|lia]. rewrite elem_of_nil. tauto.
  - by intros b ?%elem_of_nil.
  - intros b buf Hb. apply Hlook in Hb as [[Hb Hne]|[-> ->]].
    + rewrite (st_weight _ _ _ _ Hst b buf Hb). apply wcount_ext. intros s Hs. rewrite !counted_none. symmetry. by apply (pushed_facts _ _ _ _ s Hp).
    + simpl. apply wcount_ext. intros s Hs. rewrite counted_none. symmetry. by apply (pushed_facts _ _ _ _ s Hp).
  - intros b buf Hb Hu. apply Hlook in Hb as [[Hb Hne]|[-> ->]]; [|done].
    destruct (st_used _ _ _ _ Hst b buf Hb Hu) as (Hw & s & Hs). split; [done|]. exists s. by apply (pushed_facts _ _ _ _ s Hp).
  - intros s b Hs. apply (pushed_facts _ _ _ _ s Hp) in Hs. destruct (st_used_sym _ _ _ _ Hst s b Hs) as (buf & Hb & Hu).
    exists buf. split; [|done]. rewrite Hbuf. by apply lookup_app_l_Some.
Qed.

(** The new buffer enters a heap, or counts as redundant. *)
Lemma receive_book d buf syms' (st' : BufferSet) :
  book d [] 0 → used buf = false → (Z.of_nat (length (buffer_state d)) < 65535)%Z →
  (Z.of_nat (length (intermediate_symbol_ids buf)) <= 65535)%Z →
  ∃ act ina nred, book (mkDecoder (decoder_params d) (buffer_state d ++ [buf]) syms' act ina nred (num_source_symbols_paired d)) [] 0 ∧
  (if bool_decide (0 < active_used_weight buf) then
     h ← WeightMap.insert_buffer_weight (buffers_active_usable d) (length (buffer_state d)) (active_used_weight buf);
     Ret (set_active_usable (set_buffer_state (set_symbol_state d syms') (buffer_state d ++ [buf])) h, st')
   else if bool_decide (0 < length (intermediate_symbol_ids buf)) then
     weight ← weight_u16 (length (intermediate_symbol_ids buf));
     h ← WeightMap.insert_buffer_weight (buffers_inactivated d) (length (buffer_state d)) weight;
     Ret (set_inactivated (set_buffer_state (set_symbol_state d syms') (buffer_state d ++ [buf])) h, st')
   else d0 ← add_redundant (set_buffer_state (set_symbol_state d syms') (buffer_state d ++ [buf])); Ret (d0, st')) =
  Ret (mkDecoder (decoder_params d) (buffer_state d ++ [buf]) syms' act ina nred (num_source_symbols_paired d), st').
Proof.
  intros Hbk Hu Hroom Hids. pose proof Hbk as [Hok1 Hok2 Hl1 Hl2 _ Hred _ _]. set (N := length (buffer_state d)) in *.
  assert (buffer_state d !! N = None) as HN by (apply lookup_ge_None_2; unfold N; lia).
  assert (wlookup (buffers_active_usable d) N = None) as HN1 by (by rewrite Hl1, HN).
  assert (wlookup (buffers_inactivated d) N = None) as HN2 by (rewrite Hl2, HN by apply not_elem_of_nil; done).
  assert (∀ h, wlookup h N = None → ∀ b, wlookup h b = if decide (b = N) then None else wlookup h b) as Hsame
    by (intros h Hh b; case_decide; congruence).
  case_bool_decide as Hw; [|case_bool_decide as Hl].
  - destruct (active_facts buf Hw Hu) as (Ha & Hi & Hr & _).
    destruct (heap_insert_spec (buffers_active_usable d) N (active_used_weight buf)) as (h & -> & Hok & Hlh); [done|done|lia|]. cbn [mbind exec_bind].
    eexists _, _, _. split; [|done]. apply book_snoc; rewrite ?Ha, ?Hi, ?Hr; try done; (by apply Hsame) || (simpl; lia).
  - assert (intermediate_symbol_ids buf ≠ []) as Hne by (intros Heq; rewrite Heq in Hl; simpl in Hl; lia).
    destruct (inactivated_facts buf) as (Ha & Hi & Hr & _); [lia|done|]. rewrite weight_u16_ok by lia. cbn [mbind exec_bind].
    destruct (heap_insert_spec (buffers_inactivated d) N (length (intermediate_symbol_ids buf))) as (h & -> & Hok & Hlh); [done|done|lia|]. cbn [mbind exec_bind].
    eexists _, _, _. split; [|done]. apply book_snoc; rewrite ?Ha, ?Hi, ?Hr; try done; (by apply Hsame) || (simpl; lia).
  - assert (intermediate_symbol_ids buf = []) as Hnil by (destruct (intermediate_symbol_ids buf); [done|simpl in Hl; lia]).
    destruct (redundant_facts buf) as (Ha & Hi & Hr & _); [lia|done|]. unfold add_redundant. dsimpl.
    pose proof (count_le (λ b buf, red buf && bool_decide (b ∉ [])) 0 (buffer_state d)) as Hle. rewrite <-Hred in Hle. fold N in Hle.
    rewrite to_u16_ok by lia. cbn [mbind exec_bind].
    eexists _, _, _. split; [|done]. apply book_snoc; rewrite ?Ha, ?Hi, ?Hr; try done; (by apply Hsame) || (simpl; lia).
Qed.

Lemma ids_small_u16 p ids :
  params_ok p → StronglySorted lt ids → Forall (λ s, s < num_intermediate_symbols p) ids → (Z.of_nat (length ids) <= 65535)%Z.
Proof. intros Hp Hs Hf. pose proof (ids_small _ _ Hs Hf). pose proof (ok_prime_range _ Hp). lia. Qed.

(** A received symbol adds its equation. *)
Lemma received_spec n d st esi x :
  ready n d st → (Z.of_nat esi < MAX_TRIPLES)%Z → (Z.of_nat (length (buffer_state d)) < 65535)%Z → length x = n →
  ∃ l d' st', lt_sequence_op (decoder_params d) esi = Ret l ∧
    received_encoded_symbol xor_buffers d esi (mkBufferSet (num_temp_buffers st) (buffers st ++ [x])) = Ret (d', st') ∧
    ready n d' st' ∧ decoder_params d' = decoder_params d ∧ length (buffer_state d') = S (length (buffer_state d)) ∧
    same_solutions n (ids_of d ++ [l]) (buffers st ++ [x]) (ids_of d') (buffers st').
Proof.
  intros [Hst Hbk Hdat] Hesi Hroom Hx. destruct (lt_sequence_spec (decoder_params d) esi (st_params _ _ _ _ Hst) Hesi) as (l & Hl & Hsort & Hlt & Hne).
  exists l. unfold received_encoded_symbol. rewrite to_u16_ok by lia. cbn [mbind exec_bind]. rewrite Hl. cbn [mbind exec_bind].
  destruct (append_fold_spec d l (st_params _ _ _ _ Hst) (st_length _ _ _ _ Hst) Hlt) as (us & -> & Hus & Hnd). cbn [mbind exec_bind].
  set (st0 := mkBufferSet (num_temp_buffers st) (buffers st ++ [x])). pose proof Hdat as [Ht Hlen Hf].
  destruct (reduce_fold_spec n d st0 (length (buffer_state d)) us l (wcount (noninact (intermediate_symbol_state d)) l) Hst eq_refl Ht) as
    (ids & st' & -> & Ht' & Hlen' & Hf' & Hs' & Hlt' & Hno & Hsol); [|by apply Forall_app; auto|done..|by apply Hnd, strict_NoDup|done|].
  { simpl. rewrite length_app. simpl. lia. }
  cbn [mbind exec_bind]. dsimpl.
  destruct (push_fold_spec (length (buffer_state d)) ids (intermediate_symbol_state d)) as (syms' & -> & Hp); [by apply strict_NoDup| |].
  { intros s Hs. rewrite Forall_forall in Hlt'. destruct (lookup_lt_is_Some_2 (intermediate_symbol_state d) s) as [sym Hsym].
    - rewrite (st_length _ _ _ _ Hst). by apply Hlt'.
    - exists sym. split; [done|]. destruct sym as [| |b]; [done..|]. by destruct (Hno s b Hs). }
  cbn [mbind exec_bind]. set (buf := mkBuffer ids (wcount (noninact (intermediate_symbol_state d)) ids) false).
  destruct (receive_book d buf syms' st' Hbk eq_refl Hroom) as (act & ina & nred & Hbk' & Heq).
  { exact (ids_small_u16 _ _ (st_params _ _ _ _ Hst) Hs' Hlt'). }
  eexists _, st'. split; [done|]. split; [exact Heq|]. dsimpl. split_and!; [|done|rewrite length_app; simpl; lia|].
  - split; [by eapply struct_snoc|done|]. split; dsimpl; [rewrite Ht'; exact Ht|rewrite length_app; simpl; lia|done].
  - unfold ids_of at 2. dsimpl. rewrite map_app. exact Hsol.
Qed.

(** * The construction *)

Lemma insert_map_seq {A} (f f' : nat → A) R i :
  i < R → (∀ j, j ≠ i → f' j = f j) → <[i := f' i]> (map f (seq 0 R)) = map f' (seq 0 R).
Proof.
  intros Hi Hf. apply list_eq. intros j. destruct (decide (j = i)) as [->|Hne].
  - rewrite list_lookup_insert_eq by (by rewrite length_map, length_seq). by rewrite list_lookup_fmap, lookup_seq_lt.
  - rewrite list_lookup_insert_ne, !list_lookup_fmap by done. destruct (decide (j < R)) as [Hj|Hj].
    + rewrite lookup_seq_lt by done. simpl. by rewrite Hf.
    + by rewrite lookup_seq_ge by lia.
Qed.
Lemma replicate_map_seq {A} (x : A) R : replicate R x = map (λ _, x) (seq 0 R).
Proof.
  apply list_eq. intros j. rewrite list_lookup_fmap. destruct (decide (j < R)) as [Hj|Hj].
  - by rewrite lookup_seq_lt, lookup_replicate_2.
  - rewrite lookup_seq_ge by lia. apply lookup_ge_None_2. rewrite length_replicate. lia.
Qed.

(** The buffer of row [i], and the symbol of column [j] *)
Definition row_buffer (E : list (nat * nat)) (i : nat) : Buffer := mkBuffer (row_of i E) (length (row_of i E)) false.
Definition col_symbol (E : list (nat * nat)) (j : nat) : IntermediateSymbol := Active (col_of j E).

Lemma set_elements_spec R L E :
  (Z.of_nat R <= 65536)%Z → (Z.of_nat L <= 65536)%Z → (∀ i j, (i, j) ∈ E → i < R ∧ j < L) →
  foldM set_element (replicate R buffer_new, replicate L intermediate_symbol_new) E =
  Ret (map (row_buffer E) (seq 0 R), map (col_symbol E) (seq 0 L)).
Proof.
  intros HR HL. induction E as [|[i j] E IH] using rev_ind; intros HE; [by rewrite !replicate_map_seq|].
  rewrite foldM_app, IH by (intros i' j' H; apply HE, elem_of_app; by left). cbn [mbind exec_bind foldM].
  destruct (HE i j) as [Hi Hj]; [apply elem_of_app; right; left|]. unfold set_element.
  rewrite !list_lookup_fmap, !lookup_seq_lt by done. cbn [fmap option_fmap option_map expect mbind exec_bind Nat.add].
  unfold append_intermediate_symbol_id, active_push, col_symbol at 1. rewrite !to_u16_ok by lia. cbn [mbind exec_bind].
  assert (∀ i', row_of i' (E ++ [(i, j)]) = row_of i' E ++ if decide (i' = i) then [j] else []) as Hrow.
  { intros i'. rewrite row_of_app. f_equal. unfold row_of. rewrite filter_cons. simpl. destruct (decide (i' = i)); case_decide; done || congruence. }
  assert (∀ j', col_of j' (E ++ [(i, j)]) = col_of j' E ++ if decide (j' = j) then [i] else []) as Hcol.
  { intros j'. unfold col_of. rewrite filter_app, map_app. f_equal. rewrite filter_cons. simpl. destruct (decide (j' = j)); case_decide; done || congruence. }
  rewrite <-(insert_map_seq (row_buffer E) (row_buffer (E ++ [(i, j)])) R i), <-(insert_map_seq (col_symbol E) (col_symbol (E ++ [(i, j)])) L j); [|done| |done|].
  - assert (row_buffer (E ++ [(i, j)]) i = mkBuffer (row_of i E ++ [j]) (S (length (row_of i E))) false) as ->.
    { unfold row_buffer. rewrite Hrow, decide_True, length_app by done. simpl. f_equal. lia. }
    assert (col_symbol (E ++ [(i, j)]) j = Active (col_of j E ++ [i])) as -> by (unfold col_symbol; by rewrite Hcol, decide_True).
    done.
  - intros j' Hne. unfold col_symbol. by rewrite Hcol, decide_False, app_nil_r.
  - intros i' Hne. unfold row_buffer. by rewrite Hrow, decide_False, app_nil_r.
Qed.

Lemma insert_constraints_spec bufs :
  (Z.of_nat (length bufs) <= 65536)%Z → Forall (λ b, active_used_weight b ≠ 0) bufs →
  ∃ h, foldM insert_constraint WeightMap.empty (imap pair bufs) = Ret h ∧ heap_ok h ∧
    ∀ b, wlookup h b = active_used_weight <$> bufs !! b.
Proof.
  induction bufs as [|buf bufs IH] using rev_ind; intros Hlen Hw.
  { exists WeightMap.empty. split; [done|]. apply heap_empty_ok. }
  rewrite length_app in Hlen. simpl in Hlen. apply Forall_app in Hw as [Hw Hbuf]. rewrite Forall_singleton in Hbuf.
  destruct IH as (h & Heq & Hok & Hl); [lia|done|]. rewrite imap_app, foldM_app, Heq. cbn [mbind exec_bind imap foldM].
  unfold insert_constraint. cbn [fst snd]. unfold nonzero_u16. rewrite bool_decide_true by done. cbn [assert mbind exec_bind]. cbn [compose].
  rewrite Nat.add_0_r. destruct (heap_insert_spec h (length bufs) (active_used_weight buf)) as (h' & -> & Hok' & Hl'); [done| |lia|].
  { rewrite Hl. by rewrite lookup_ge_None_2. }
  exists h'. split; [done|]. split; [done|]. intros b. rewrite Hl', Hl. case_decide as Hb.
  - subst. by rewrite lookup_app_r, Nat.sub_diag by lia.
  - destruct (decide (b < length bufs)); [by rewrite lookup_app_l|]. rewrite !lookup_ge_None_2; [done|rewrite ?length_app; simpl; lia..].
Qed.

(** The intermediate symbols [C] satisfy the constraints of the code. *)
Definition constraints (n : nat) (p : CodeParameters) (C : nat → symbol) : Prop :=
  ∀ E r, a_common p = Ret E → r < num_ldpc_symbols p + num_half_symbols p → xsum n C (row_of r E) = zero_symbol n.

Lemma wcount_all f ids : (∀ s, f s = true) → wcount f ids = length ids.
Proof. intros Hf. unfold wcount. induction ids as [|s ids IH]; [done|]. rewrite filter_cons, decide_True by done. simpl. by rewrite IH. Qed.

Lemma initial_struct p E h :
  params_ok p → StronglySorted in_order E →
  (∀ i j, (i, j) ∈ E → i < num_ldpc_symbols p + num_half_symbols p ∧ j < num_intermediate_symbols p) →
  struct_ok (mkDecoder p (map (row_buffer E) (seq 0 (num_ldpc_symbols p + num_half_symbols p)))
               (map (col_symbol E) (seq 0 (num_intermediate_symbols p))) h WeightMap.empty 0 0) 0 [] false.
Proof.
  intros Hp HE Hr. set (R := num_ldpc_symbols p + num_half_symbols p) in *. set (L := num_intermediate_symbols p) in *.
  assert (∀ b buf, map (row_buffer E) (seq 0 R) !! b = Some buf → b < R ∧ buf = row_buffer E b) as Hbuf.
  { intros b buf. rewrite list_lookup_fmap. intros (b' & Hb & ->)%fmap_Some. apply lookup_seq in Hb as [-> Hb]. done. }
  assert (∀ s sym, map (col_symbol E) (seq 0 L) !! s = Some sym → s < L ∧ sym = col_symbol E s) as Hsym.
  { intros b buf. rewrite list_lookup_fmap. intros (b' & Hb & ->)%fmap_Some. apply lookup_seq in Hb as [-> Hb]. done. }
  assert (∀ s b, holds (map (col_symbol E) (seq 0 L)) s b ↔ (b, s) ∈ E) as Hholds.
  { intros s b. split.
    - intros (sym & [_ ->]%Hsym & Hin). by apply elem_of_col_of.
    - intros Hin. exists (col_symbol E s). split; [|by apply elem_of_col_of].
      destruct (Hr _ _ Hin) as [_ Hs]. by rewrite list_lookup_fmap, lookup_seq_lt. }
  split; dsimpl.
  - done.
  - by rewrite length_map, length_seq.
  - intros b buf [Hb ->]%Hbuf. split; [by apply in_order_row|]. apply Forall_forall. intros s Hs%elem_of_row_of. by apply (Hr b s).
  - intros s sym [_ ->]%Hsym. by apply in_order_col.
  - intros s b Hin%Hholds. rewrite length_map, length_seq. by apply (Hr b s).
  - intros b s buf [Hb ->]%Hbuf Hs. rewrite elem_of_nil, Hholds. simpl. rewrite elem_of_row_of. tauto.
  - by intros b ?%elem_of_nil.
  - intros b buf [Hb ->]%Hbuf. simpl. rewrite wcount_all; [done|]. intros s. rewrite counted_none. unfold noninact.
    destruct (map (col_symbol E) (seq 0 L) !! s) as [sym|] eqn:Hs; [|done]. by apply Hsym in Hs as [_ ->].
  - by intros b buf [Hb ->]%Hbuf.
  - by intros s b [_ ?]%Hsym.
Qed.

Lemma count_none f i l : (∀ j b, l !! j = Some b → f (i + j) b = false) → count_from f i l = 0.
Proof.
  revert i. induction l as [|x l IH]; intros i Hf; [done|]. simpl. rewrite (IH (S i)).
  - specialize (Hf 0 x eq_refl). rewrite Nat.add_0_r in Hf. by rewrite Hf.
  - intros j b Hj. specialize (Hf (S j) b Hj). by replace (S i + j) with (i + S j) by lia.
Qed.

Lemma initial_book p E h :
  params_ok p → (∀ i, i < num_ldpc_symbols p + num_half_symbols p → row_of i E ≠ []) →
  heap_ok h →
  (∀ b, wlookup h b = active_used_weight <$> map (row_buffer E) (seq 0 (num_ldpc_symbols p + num_half_symbols p)) !! b) →
  book (mkDecoder p (map (row_buffer E) (seq 0 (num_ldpc_symbols p + num_half_symbols p)))
               (map (col_symbol E) (seq 0 (num_intermediate_symbols p))) h WeightMap.empty 0 0) [] 0.
Proof.
  intros Hp Hne Hok Hl. set (R := num_ldpc_symbols p + num_half_symbols p) in *. destruct heap_empty_ok as [Hok0 Hl0].
  assert (∀ b buf, map (row_buffer E) (seq 0 R) !! b = Some buf →
    act_w buf = Some (active_used_weight buf) ∧ ina_w buf = None ∧ red buf = false ∧ ∀ k, paired k buf = false) as Hbuf.
  { intros b buf. rewrite list_lookup_fmap. intros (b' & Hb & ->)%fmap_Some. apply lookup_seq in Hb as [-> Hb].
    apply active_facts; [|done]. simpl. destruct (row_of b E) eqn:Heq; [by destruct (Hne b)|simpl; lia]. }
  split; dsimpl; try done.
  - intros b. rewrite Hl. destruct (map (row_buffer E) (seq 0 R) !! b) as [buf|] eqn:Hb; [|done]. simpl. symmetry. by apply (Hbuf b).
  - intros b _. rewrite Hl0. destruct (map (row_buffer E) (seq 0 R) !! b) as [buf|] eqn:Hb; [|done]. simpl. symmetry. by apply (Hbuf b).
  - by intros b ?%elem_of_nil.
  - symmetry. apply count_none. intros b buf Hb. apply Hbuf in Hb as (_ & _ & -> & _). done.
  - symmetry. apply count_none. intros b buf Hb. by apply Hbuf in Hb as (_ & _ & _ & ->).
  - rewrite length_map, length_seq. pose proof (ok_prime_range _ Hp). pose proof (ok_intermediate _ Hp). unfold R. lia.
Qed.

Lemma a_common_range p E :
  params_ok p → a_common p = Ret E →
  ∀ i j, (i, j) ∈ E → i < num_ldpc_symbols p + num_half_symbols p ∧ j < num_intermediate_symbols p.
Proof.
  intros Hp HE i j Hij. destruct (a_common_spec p Hp) as (half & E' & Hhalf & HE' & _ & Hin).
  assert (E' = E) as -> by congruence. destruct (g_ldpc_spec p Hp) as [_ Hf1].
  destruct (g_half_spec p Hp) as (half' & Hhalf' & _ & Hf2). rewrite Hhalf in Hhalf'. injection Hhalf' as <-.
  rewrite Forall_forall in Hf1, Hf2. rewrite (ok_intermediate _ Hp).
  apply Hin in Hij. destruct Hij as [[Hi [Hj|Hj]]|(h & Hh & Hlt & [Hj|Hj])]; [apply Hf1 in Hj|..|apply Hf2 in Hj|]; simpl in *; lia.
Qed.

(** A decoder of 1 to 8192 source symbols holds the constraints. *)
Lemma with_capacity_spec n k p :
  (SOURCE_SYMBOLS_MIN <= Z.of_nat k <= SOURCE_SYMBOLS_MAX)%Z → code_parameters_new (Z.of_nat k) = Some p → params_ok p →
  ∃ d, with_capacity (Z.of_nat k) = Ret (Some d) ∧ ready n d (buffer_set_new (num_temp_buffers_required d) n) ∧
    decoder_params d = p ∧ length (buffer_state d) = num_ldpc_symbols p + num_half_symbols p ∧
    ∀ C, explains n C (ids_of d) (buffers (buffer_set_new (num_temp_buffers_required d) n)) ↔ constraints n p C.
Proof.
  intros Hk Hcode Hp. destruct (a_common_spec p Hp) as (half & E & Hhalf & HE & Hsort & Hin).
  pose proof (ok_prime_range _ Hp) as Hrange. pose proof (ok_intermediate _ Hp) as HL.
  set (R := num_ldpc_symbols p + num_half_symbols p).
  assert (∀ i j, (i, j) ∈ E → i < R ∧ j < num_intermediate_symbols p) as Hr by (apply (a_common_range p E Hp HE)).
  assert (∀ i, i < R → row_of i E ≠ []) as Hne.
  { intros i Hi. destruct (decide (i < num_ldpc_symbols p)) as [Hs|Hs].
    - intros Hnil. eapply (not_elem_of_nil (num_source_symbols p + i)). rewrite <-Hnil. apply elem_of_row_of, Hin. left. auto.
    - intros Hnil. eapply (not_elem_of_nil (num_source_symbols p + num_ldpc_symbols p + (i - num_ldpc_symbols p))).
      rewrite <-Hnil. apply elem_of_row_of, Hin. right. exists (i - num_ldpc_symbols p). unfold R in Hi. split_and!; [lia..|auto]. }
  unfold with_capacity. rewrite bool_decide_true, Hcode, HE by done. cbn [mbind exec_bind].
  rewrite set_elements_spec by (done || unfold R; lia). cbn [mbind exec_bind]. fold R.
  destruct (insert_constraints_spec (map (row_buffer E) (seq 0 R))) as (h & -> & Hok & Hl).
  { rewrite length_map, length_seq. unfold R. lia. }
  { apply Forall_forall. intros buf (i & -> & Hi%elem_of_seq)%list_elem_of_fmap. simpl.
    destruct (row_of i E) eqn:Heq; [by destruct (Hne i); [lia|]|done]. }
  cbn [mbind exec_bind]. eexists. split; [done|]. dsimpl. rewrite length_map, length_seq. split_and!; [|done..|].
  - split; [by apply initial_struct|by apply initial_book|]. unfold num_temp_buffers_required, num_redundant_intermediate_symbols.
    split; dsimpl; simpl; [done|by rewrite length_replicate, length_map, length_seq|].
    apply Forall_replicate. by rewrite length_replicate.
  - intros C. unfold explains, constraints, ids_of, num_temp_buffers_required, num_redundant_intermediate_symbols. dsimpl.
    cbn [buffers buffer_set_new]. fold R. split.
    + intros Hex E' r HE' Hrr. assert (E' = E) as -> by congruence. symmetry. apply (Hex r).
      * by rewrite !list_lookup_fmap, lookup_seq_lt.
      * by apply lookup_replicate_2.
    + intros Hc b l x. rewrite !list_lookup_fmap. intros Hl' (-> & Hb)%lookup_replicate.
      rewrite lookup_seq_lt in Hl' by done. injection Hl' as <-. symmetry. by apply Hc.
Qed.
