(* ===== verification/RaptorDecoderRun.v ===== *)
(** The loops of the Raptor decoder: they terminate, keep the invariant and the
    solutions of the equations, and stop either with all source symbols found or
    with a system that has too few equations. *)

From S2P Require Import Prelude Types ValidatorSet Crypto RaptorTables RaptorCode RaptorCodeProps RaptorEncoderProps.
From S2P Require Import RaptorStructs RaptorSetProps RaptorHeapProps RaptorMatrixProps RaptorDecoder RaptorDecoderInv RaptorDecoderSteps.
From S2P Require Import RaptorDecoderOps RaptorDecoderRecv.

#[local] Open Scope nat_scope.

Notation pot d := (potential (intermediate_symbol_state d)).

(** What an operation keeps *)
Record advances (n : nat) (d : Decoder) (st : BufferSet) (d' : Decoder) (st' : BufferSet) : Prop := {
  adv_ready : ready n d' st';
  adv_frame : frame d d';
  adv_pot : pot d' <= pot d;
  adv_solutions : same_solutions n (ids_of d) (buffers st) (ids_of d') (buffers st');
}.

Lemma advances_refl n d st : ready n d st → advances n d st d st.
Proof. intros Hr. split; [done|done|done|apply same_solutions_refl]. Qed.
Lemma advances_trans n d st d1 st1 d2 st2 : advances n d st d1 st1 → advances n d1 st1 d2 st2 → advances n d st d2 st2.
Proof.
  intros [_ Hf1 Hp1 Hs1] [Hr2 Hf2 Hp2 Hs2]. split; [done|by eapply frame_trans|lia|by eapply same_solutions_trans].
Qed.

(** No usable buffer, and no buffer of one inactivated symbol *)
Definition no_usable (d : Decoder) : Prop := ∀ b, wlookup (buffers_active_usable d) b ≠ Some 1.
Definition no_single (d : Decoder) : Prop := ∀ b, wlookup (buffers_inactivated d) b ≠ Some 1.

Lemma active_weight n d st b w : ready n d st → wlookup (buffers_active_usable d) b = Some w → 0 < w.
Proof.
  intros [_ Hbk _]. rewrite (bk_act _ _ _ Hbk). intros (buf & _ & Hw)%bind_Some. unfold act_w in Hw.
  destruct (state_spec buf) as [[? Hs]|[(? & ? & Hs)|[(? & ? & Hs)|[(? & ? & Hs)|(? & ? & Hs)]]]]; rewrite Hs in Hw; simplify_eq; lia.
Qed.
Lemma inactivated_weight n d st b w : ready n d st → wlookup (buffers_inactivated d) b = Some w → 0 < w.
Proof.
  intros [Hst Hbk _] Hw. destruct (inactivated_entry d b w Hst Hbk Hw) as (buf & _ & _ & _ & Hne & ->).
  destruct (intermediate_symbol_ids buf); [done|simpl; lia].
Qed.

Lemma peel_loop_spec n fuel d st p :
  ready n d st → pot d <= fuel →
  ∃ d' st' r, peel_loop xor_buffers fuel d st p = Ret (d', st', r) ∧ advances n d st d' st' ∧
    (decoding_done d' = true ∨ no_usable d') ∧
    ((r = p ∧ d' = d ∧ st' = st) ∨ (r = true ∧ pot d' < pot d)).
Proof.
  revert d st p. induction fuel as [|fuel IH]; intros d st p Hr Hfuel; cbn [peel_loop];
    destruct (peek_min_spec (buffers_active_usable d)) as (min & -> & Hmin); try apply Hr; cbn [mbind exec_bind];
    (destruct min as [[b w]|]; [|exists d, st, p; split_and!; [done|by apply advances_refl|right; intros b; by rewrite Hmin|auto]]).
  all: destruct Hmin as [Hb Hle]; pose proof (active_weight n d st b w Hr Hb) as Hw0;
    (destruct (decoding_done d) eqn:Hdone; [exists d, st, p; simpl; split_and!; [done|by apply advances_refl|auto|auto]|]); cbn [orb];
    (case_bool_decide as Hw; [exists d, st, p; split_and!; [done|by apply advances_refl| |auto];
       right; intros b' Hb'; specialize (Hle b' 1 Hb'); lia|]);
    assert (w = 1) as -> by lia.
  - destruct (peel_one_spec n d st b Hr Hb) as (? & ? & _ & _ & _ & Hp & _). lia.
  - destruct (peel_one_spec n d st b Hr Hb) as (d1 & st1 & -> & Hr1 & Hf1 & Hp1 & Hs1). cbn [mbind exec_bind].
    destruct (IH d1 st1 true Hr1) as (d' & st' & r & -> & Hadv & Hend & Hor); [lia|]. exists d', st', r.
    split; [done|]. assert (advances n d st d1 st1) as Hadv1 by (split; [done|done|lia|done]).
    split; [by eapply advances_trans|]. split; [done|]. right. pose proof (adv_pot _ _ _ _ _ Hadv).
    destruct Hor as [(-> & -> & ->)|[-> _]]; split; done || lia.
Qed.

Lemma reactivate_loop_spec n fuel d st p :
  ready n d st → pot d <= fuel →
  ∃ d' st' r, reactivate_loop xor_buffers fuel d st p = Ret (d', st', r) ∧ advances n d st d' st' ∧
    (decoding_done d' = true ∨ no_single d') ∧
    ((r = p ∧ d' = d ∧ st' = st) ∨ (r = true ∧ pot d' < pot d)).
Proof.
  revert d st p. induction fuel as [|fuel IH]; intros d st p Hr Hfuel; cbn [reactivate_loop];
    destruct (peek_min_spec (buffers_inactivated d)) as (min & -> & Hmin); try apply Hr; cbn [mbind exec_bind];
    (destruct min as [[b w]|]; [|exists d, st, p; split_and!; [done|by apply advances_refl|right; intros b; by rewrite Hmin|auto]]).
  all: destruct Hmin as [Hb Hle]; pose proof (inactivated_weight n d st b w Hr Hb) as Hw0;
    (destruct (decoding_done d) eqn:Hdone; [exists d, st, p; simpl; split_and!; [done|by apply advances_refl|auto|auto]|]); cbn [orb];
    (case_bool_decide as Hw; [exists d, st, p; split_and!; [done|by apply advances_refl| |auto];
       right; intros b' Hb'; specialize (Hle b' 1 Hb'); lia|]);
    assert (w = 1) as -> by lia.
  - destruct (reactivate_one_spec n d st b Hr Hb) as (? & ? & _ & _ & _ & Hp & _). lia.
  - destruct (reactivate_one_spec n d st b Hr Hb) as (d1 & st1 & -> & Hr1 & Hf1 & Hp1 & Hs1). cbn [mbind exec_bind].
    destruct (IH d1 st1 true Hr1) as (d' & st' & r & -> & Hadv & Hend & Hor); [lia|]. exists d', st', r.
    split; [done|]. assert (advances n d st d1 st1) as Hadv1 by (split; [done|done|lia|done]).
    split; [by eapply advances_trans|]. split; [done|]. right. pose proof (adv_pot _ _ _ _ _ Hadv).
    destruct Hor as [(-> & -> & ->)|[-> _]]; split; done || lia.
Qed.

Lemma potential_bound syms : potential syms <= 2 * length syms.
Proof. unfold potential. induction syms as [|s syms IH]; simpl; [done|]. destruct s; simpl in *; lia. Qed.

(** No operation can go on: all buffers are used, redundant, or inactivated, and
    there are fewer inactivated buffers than symbols in them. *)
Definition stuck (d : Decoder) : Prop :=
  (∀ b, wlookup (buffers_active_usable d) b = None) ∧
  ∃ bl syml, inactivated_system d bl syml ∧ (bl = [] ∨ length bl < length syml).

Definition at_operation (operation : DecodingState) (try_harder : bool) (d : Decoder) : Prop :=
  decoding_done d = true ∨
  match operation with
  | ReactivateSymbols => True
  | Peeling => no_single d
  | MaybeInactiveGaussian => no_single d ∧ no_usable d
  | InactivateSymbol => no_usable d ∧ ∃ bl syml, inactivated_system d bl syml ∧ (bl = [] ∨ length bl < length syml)
  | Done => try_harder = true → stuck d
  end.

(** The decoder has buffers that are not redundant. *)
Lemma redundant_bound n d st : ready n d st → num_redundant_buffers d <= length (buffer_state d).
Proof. intros [_ Hbk _]. rewrite (bk_red _ _ _ Hbk). apply count_le. Qed.

Definition weights_one (d : Decoder) : bool :=
  existsb (λ b, bool_decide (wlookup (buffers_inactivated d) b = Some 1)) (seq 0 (length (buffer_state d))).
Lemma weights_one_spec n d st : ready n d st → weights_one d = true ↔ ∃ b, wlookup (buffers_inactivated d) b = Some 1.
Proof.
  intros [Hst Hbk _]. unfold weights_one. rewrite existsb_exists. split.
  - intros (b & _ & Hb%bool_decide_eq_true). by exists b.
  - intros (b & Hb). exists b. rewrite bool_decide_eq_true. split; [|done].
    destruct (inactivated_entry d b 1 Hst Hbk Hb) as (buf & Hbuf & _). apply in_seq. split; [lia|]. by eapply lookup_lt_Some.
Qed.

Definition level (operation : DecodingState) (d : Decoder) : nat :=
  match operation with
  | Done => 0
  | InactivateSymbol => 1
  | ReactivateSymbols => if weights_one d then 2 else 5
  | MaybeInactiveGaussian => 3
  | Peeling => 4
  end.
Definition measure (operation : DecodingState) (d : Decoder) : nat :=
  6 * (pot d + (length (buffer_state d) - num_redundant_buffers d)) + level operation d.

Lemma level_bound operation d : level operation d <= 5.
Proof. destruct operation; simpl; try lia. destruct (weights_one d); lia. Qed.

Lemma measure_drop n operation operation' d st d' st' :
  advances n d st d' st' → ready n d st →
  pot d' < pot d ∨ num_redundant_buffers d < num_redundant_buffers d' ∨ level operation' d' < level operation d →
  measure operation' d' < measure operation d.
Proof.
  intros [Hr' [_ Hlen Hred] Hpot _] Hr Hor. pose proof (redundant_bound _ _ _ Hr'). pose proof (redundant_bound _ _ _ Hr).
  pose proof (level_bound operation' d'). pose proof (level_bound operation d). unfold measure. destruct Hor as [?|[?|?]]; lia.
Qed.

Lemma try_inactivate_spec n d st :
  ready n d st →
  ∃ d' r, try_inactivate_one_symbol d = Ret (d', r) ∧ advances n d st d' st ∧
    if (r : bool) then pot d' < pot d
    else d' = d ∧ (no_usable d → ∀ b, wlookup (buffers_active_usable d) b = None).
Proof.
  intros Hr. unfold try_inactivate_one_symbol. destruct (peek_min_spec (buffers_active_usable d)) as (min & -> & Hmin); [apply Hr|].
  cbn [mbind exec_bind]. destruct min as [[b w]|]; [|exists d, false; by split_and!; [|apply advances_refl| |]].
  destruct Hmin as [Hb Hle]. case_bool_decide as Hw.
  - destruct (inactivate_one_spec n d st b w Hr Hb) as (d' & -> & Hr' & Hf & Hp & Hids). cbn [mbind exec_bind].
    exists d', true. split_and!; [done| |done]. split; [done|done|lia|]. rewrite Hids. apply same_solutions_refl.
  - exists d, false. split_and!; [done|by apply advances_refl|done|]. intros Hno. pose proof (active_weight n d st b w Hr Hb).
    assert (w = 1) as -> by lia. by destruct (Hno b).
Qed.

(** One turn *)
Lemma decode_step_spec n try_harder operation d st :
  ready n d st → decoding_done d = false → operation ≠ Done → at_operation operation try_harder d →
  ∃ operation' d' st', decode_step xor_buffers try_harder operation d st = Ret (operation', d', st') ∧
    advances n d st d' st' ∧ at_operation operation' try_harder d' ∧ measure operation' d' < measure operation d.
Proof.
  intros Hr Hdone Hop [Hat|Hat]; [congruence|]. pose proof (potential_bound (intermediate_symbol_state d)) as Hfuel.
  destruct operation; cbn [decode_step].
  - unfold try_reactivate_symbols.
    destruct (reactivate_loop_spec n _ d st false Hr Hfuel) as (d' & st' & r & -> & Hadv & Hend & Hor). cbn [mbind exec_bind].
    exists Peeling, d', st'. split_and!; [done|done|done|]. eapply measure_drop; [done..|].
    destruct Hor as [(-> & -> & ->)|[_ ?]]; [|by left]. right. right. destruct Hend as [Hend|Hno]; [congruence|]. simpl.
    destruct (weights_one d) eqn:Hw; [|lia]. apply (weights_one_spec n d st Hr) in Hw as [b Hb]. by destruct (Hno b).
  - unfold try_peel. destruct (peel_loop_spec n _ d st false Hr Hfuel) as (d' & st' & r & -> & Hadv & Hend & Hor). cbn [mbind exec_bind].
    eexists _, d', st'. split_and!; [done|done| |].
    + destruct Hor as [(-> & -> & ->)|[-> _]]; [|by right]. destruct Hend; [by left|by right].
    + eapply measure_drop; [done..|]. destruct Hor as [(-> & -> & ->)|[-> ?]]; [|by left]. right. right. simpl. lia.
  - destruct try_harder; cbn [negb].
    2:{ exists Done, d, st. split_and!; [done|by apply advances_refl|by right|]. eapply measure_drop; [by apply advances_refl|done|]. right. right. simpl. lia. }
    destruct (gaussian_op_spec n d st Hr) as (d' & st' & r & -> & Hr' & Hf & Hkinds & Hsol & Hcase). cbn [mbind exec_bind].
    assert (pot d' = pot d) as Hpot by (unfold potential; by rewrite Hkinds).
    assert (advances n d st d' st') as Hadv by (split; [done|done|lia|done]).
    eexists _, d', st'. split_and!; [done|done| |].
    + destruct r; [by right|]. destruct Hcase as (-> & -> & Hcase). right. destruct Hat as [Hsing Huse]. split; [done|].
      destruct Hcase as [[b Hb]|Hcase]; [by destruct (Hsing b)|done].
    + eapply measure_drop; [done..|]. destruct r; [|right; right; simpl; lia]. destruct Hcase as [_ [?|Hone]]; [by right; left|].
      right. right. simpl. assert (weights_one d' = true) as -> by (by apply (weights_one_spec n d' st')). lia.
  - destruct try_harder; cbn [negb].
    2:{ exists Done, d, st. split_and!; [done|by apply advances_refl|by right|]. eapply measure_drop; [by apply advances_refl|done|]. right. right. simpl. lia. }
    destruct (try_inactivate_spec n d st Hr) as (d' & r & -> & Hadv & Hcase). cbn [mbind exec_bind].
    eexists _, d', st. split_and!; [done|done| |].
    + destruct r; [by right|]. destruct Hcase as [-> Hcase]. right. intros _. split; [by apply Hcase, Hat|apply Hat].
    + eapply measure_drop; [done..|]. destruct r; [by left|]. right. right. simpl. lia.
  - done.
Qed.

Lemma decode_loop_spec n try_harder fuel operation d st :
  ready n d st → at_operation operation try_harder d → measure operation d <= fuel →
  ∃ d' st' r, decode_loop xor_buffers fuel try_harder operation d st = Ret (d', st', r) ∧ advances n d st d' st' ∧
    r = decoding_done d' ∧ (r = false → try_harder = true → stuck d').
Proof.
  revert operation d st. induction fuel as [|fuel IH]; intros operation d st Hr Hat Hm; cbn [decode_loop];
    (destruct (decoding_done d) eqn:Hdone; [exists d, st, true; by split_and!; [|apply advances_refl| |]|]);
    (assert (operation = Done ∨ operation ≠ Done) as [->|Hop] by (destruct operation; auto);
      [exists d, st, false; split_and!; [done|by apply advances_refl|done|]; intros _; by destruct Hat; [congruence|]|]).
  - unfold measure, level in Hm. destruct operation; [destruct (weights_one d)|..]; done || lia.
  - destruct (decode_step_spec n try_harder operation d st Hr Hdone Hop Hat) as (op' & d1 & st1 & Hstep & Hadv1 & Hat1 & Hm1).
    destruct (IH op' d1 st1 (adv_ready _ _ _ _ _ Hadv1) Hat1) as (d' & st' & r & Heq & Hadv & Hdone' & Hstuck); [lia|].
    exists d', st', r. split_and!; [|by eapply advances_trans|done|done].
    destruct operation; try done; rewrite Hstep; exact Heq.
Qed.

Lemma decoder_try_decode_spec n d st threshold :
  ready n d st → num_source_symbols (decoder_params d) <= threshold →
  ∃ d' st' r, RaptorDecoder.try_decode xor_buffers d threshold st = Ret (d', st', r) ∧ advances n d st d' st' ∧
    r = decoding_done d' ∧
    (r = false → threshold <= length (buffer_state d) - num_redundant_buffers d → stuck d').
Proof.
  intros Hr Hth. unfold RaptorDecoder.try_decode. rewrite (bool_decide_true (num_source_symbols (decoder_params d) <= threshold)) by done. cbn [assert mbind exec_bind].
  set (harder := bool_decide _).
  destruct (decode_loop_spec n harder (decode_fuel d) ReactivateSymbols d st Hr) as (d' & st' & r & -> & Hadv & Hdone & Hstuck); [by right| |].
  { unfold measure, decode_fuel. pose proof (potential_bound (intermediate_symbol_state d)). pose proof (level_bound ReactivateSymbols d). lia. }
  exists d', st', r. split_and!; [done..|]. intros Hf Hu. apply Hstuck; [done|]. by apply bool_decide_eq_true.
Qed.
