(* ===== verification/RaptorRuns.v ===== *)
(** The runs of the Raptor decoder: whatever symbols arrive it never panics, what
    it reconstructs is what was encoded, and it finishes as soon as the received
    symbols determine the source. *)

From S2P Require Import Prelude Types ValidatorSet Crypto RaptorTables RaptorCode RaptorCodeProps RaptorEncoderProps.
From S2P Require Import RaptorStructs RaptorSetProps RaptorHeapProps RaptorMatrixProps RaptorDecoder RaptorDecoderInv RaptorDecoderSteps.
From S2P Require Import RaptorDecoderOps RaptorDecoderRecv RaptorDecoderRun.

#[local] Open Scope nat_scope.

(** * The paired source symbols *)

(** Source symbol [s] is alone in the buffer that is used for it. *)
Definition found (d : Decoder) (s : nat) : Prop :=
  ∃ b buf, intermediate_symbol_state d !! s = Some (Used b) ∧ buffer_state d !! b = Some buf ∧ intermediate_symbol_ids buf = [s].

Lemma count_filter (f : nat → Buffer → bool) i (l : list Buffer) :
  count_from f i l = length (filter (λ b, match l !! (b - i) with Some buf => f b buf | None => false end = true) (seq i (length l))).
Proof.
  revert i. induction l as [|x l IH]; intros i; [done|]. simpl. rewrite filter_cons, Nat.sub_diag. cbn [lookup list_lookup].
  assert (filter (λ b, match (x :: l) !! (b - i) with Some buf => f b buf | None => false end = true) (seq (S i) (length l)) =
          filter (λ b, match l !! (b - S i) with Some buf => f b buf | None => false end = true) (seq (S i) (length l))) as Heq.
  { apply filter_ext_elem. intros b Hb%elem_of_seq. by replace (b - i) with (S (b - S i)) by lia. }
  rewrite Heq, IH. destruct (f i x); simpl; lia.
Qed.

Lemma paired_spec d b buf k :
  struct_ok d 0 [] false → buffer_state d !! b = Some buf →
  paired k buf = true ↔ ∃ s, s < k ∧ intermediate_symbol_state d !! s = Some (Used b) ∧ intermediate_symbol_ids buf = [s].
Proof.
  intros Hst Hb. split.
  - intros Hp. unfold paired, is_paired in Hp. apply andb_true_iff in Hp as [[Hs%bool_decide_eq_true Hl%bool_decide_eq_true]%andb_true_iff Hk].
    assert (used buf = true) as Hu.
    { destruct (state_spec buf) as [[? Hs']|[(? & ? & Hs')|[(? & ? & Hs')|[(? & ? & Hs')|(? & ? & Hs')]]]]; congruence. }
    destruct (used_symbol d 0 [] false Hst b buf Hb Hu) as (s & Hsu & Hin & _).
    destruct (intermediate_symbol_ids buf) as [|s' [|]]; [done| |done]. apply list_elem_of_singleton in Hin as ->.
    apply bool_decide_eq_true in Hk. by exists s'.
  - intros (s & Hs & Hsu & Hids). destruct (st_used_sym _ _ _ _ Hst s b Hsu) as (buf' & Hb' & Hu).
    assert (buf' = buf) as -> by congruence. destruct (st_used _ _ _ _ Hst b buf Hb Hu) as [Hw _].
    destruct (used_facts buf Hw Hu) as (_ & _ & _ & ->). rewrite Hids. by apply bool_decide_eq_true.
Qed.

(** The decoder is done when it has found all the source symbols. *)
Lemma done_found n d st :
  ready n d st → decoding_done d = true ↔ ∀ s, s < num_source_symbols (decoder_params d) → found d s.
Proof.
  intros [Hst Hbk _]. unfold decoding_done. rewrite bool_decide_eq_true. pose proof (bk_paired _ _ _ Hbk) as Hpair.
  rewrite Nat.add_0_r, count_filter in Hpair. set (k := num_source_symbols (decoder_params d)) in *.
  set (PB := filter _ _) in Hpair. set (sym_of b := match buffer_state d !! b with Some buf => hd 0 (intermediate_symbol_ids buf) | None => 0 end).
  assert (∀ b, b ∈ PB ↔ ∃ buf s, buffer_state d !! b = Some buf ∧ s < k ∧ sym_of b = s ∧
    intermediate_symbol_state d !! s = Some (Used b) ∧ intermediate_symbol_ids buf = [s]) as HPB.
  { intros b. unfold PB. rewrite list_elem_of_filter, Nat.sub_0_r, elem_of_seq. unfold sym_of. split.
    - intros [Hp _]. destruct (buffer_state d !! b) as [buf|] eqn:Hb; [|done].
      apply (paired_spec d b buf k Hst Hb) in Hp as (s & Hs & Hsu & Hids). exists buf, s. split_and!; try done. by rewrite Hids.
    - intros (buf & s & Hb & Hs & _ & Hsu & Hids). rewrite Hb. split; [apply (paired_spec d b buf k Hst Hb); by exists s|].
      split; [lia|]. by eapply lookup_lt_Some. }
  assert (NoDup (map sym_of PB)) as Hnd.
  { apply NoDup_fmap_2_strong; [|apply NoDup_filter, NoDup_seq].
    intros b b' (buf & s & _ & _ & Hs & Hsu & _)%HPB (buf' & s' & _ & _ & Hs' & Hsu' & _)%HPB Heq.
    assert (s' = s) by congruence. subst s'. congruence. }
  assert (map sym_of PB ⊆+ seq 0 k) as Hsub.
  { apply NoDup_submseteq; [done|]. intros s (b & -> & (buf & s' & _ & Hs & -> & _)%HPB)%list_elem_of_fmap. apply elem_of_seq. lia. }
  split.
  - intros Hk s Hs. assert (map sym_of PB ≡ₚ seq 0 k) as Hperm.
    { apply submseteq_length_Permutation; [done|]. rewrite length_map, length_seq. lia. }
    assert (s ∈ map sym_of PB) as Hin by (rewrite Hperm; apply elem_of_seq; lia).
    apply list_elem_of_fmap in Hin as (b & -> & (buf & s' & Hb & _ & -> & Hsu & Hids)%HPB). by exists b, buf.
  - intros Hall. apply submseteq_length in Hsub. rewrite length_map, length_seq in Hsub.
    assert (seq 0 k ⊆+ map sym_of PB) as Hsup.
    { apply NoDup_submseteq; [apply NoDup_seq|]. intros s [_ Hs]%elem_of_seq. destruct (Hall s Hs) as (b & buf & Hsu & Hb & Hids).
      apply list_elem_of_fmap. exists b. unfold sym_of at 1. rewrite Hb, Hids. split; [done|]. apply HPB. exists buf, s.
      unfold sym_of. by rewrite Hb, Hids. }
    apply submseteq_length in Hsup. rewrite length_map, length_seq in Hsup. lia.
Qed.

(** * Reconstruction *)

Lemma source_symbol_lookup n d st s :
  ready n d st → s < num_source_symbols (decoder_params d) →
  ∃ o, source_symbol_to_buffer_id d s = Ret o ∧
    match o with
    | Some id => found d s ∧ ∃ x, buffer st id = Ret x ∧ length x = n ∧
                   ∀ C, (∀ i, length (C i) = n) → explains n C (ids_of d) (buffers st) → x = C s
    | None => ¬ found d s
    end.
Proof.
  intros [Hst Hbk [Ht Hlen Hf]] Hs. unfold source_symbol_to_buffer_id. rewrite bool_decide_true by done.
  pose proof (ok_intermediate _ (st_params _ _ _ _ Hst)) as HL.
  destruct (lookup_lt_is_Some_2 (intermediate_symbol_state d) s) as [sym Hsym]; [rewrite (st_length _ _ _ _ Hst); lia|].
  rewrite Hsym. cbn [expect mbind exec_bind].
  destruct (is_used_buffer_index sym) as [b|] eqn:Hu.
  2:{ exists None. split; [done|]. intros (b & buf & Hsu & _). rewrite Hsym in Hsu. by injection Hsu as ->. }
  destruct sym as [| |b']; try done. injection Hu as ->.
  destruct (st_used_sym _ _ _ _ Hst s b Hsym) as (buf & Hb & Hused). rewrite Hb. cbn [expect mbind exec_bind].
  destruct (used_symbol d 0 [] false Hst b buf Hb Hused) as (s' & Hsu & Hin & _).
  case_bool_decide as Hone.
  2:{ exists None. split; [done|]. intros (b' & buf' & Hsu' & Hb' & Hids). rewrite Hsym in Hsu'. injection Hsu' as <-.
      rewrite Hb in Hb'. injection Hb' as <-. by rewrite Hids in Hone. }
  assert (intermediate_symbol_ids buf = [s]) as Hids.
  { assert (s ∈ intermediate_symbol_ids buf) as Hin'.
    - apply (st_match _ _ _ _ Hst b s buf Hb); [lia|]. left. exists (Used b). split; [done|]. left.
    - destruct (intermediate_symbol_ids buf) as [|t [|]]; [done| |done]. by apply list_elem_of_singleton in Hin' as ->. }
  assert (paired (num_source_symbols (decoder_params d)) buf = true) as Hp by (apply (paired_spec d b buf _ Hst Hb); by exists s).
  unfold paired in Hp. apply andb_true_iff in Hp as [-> _]. cbn [assert mbind exec_bind]. eexists. split; [done|].
  split; [by exists b, buf|]. unfold buffer. rewrite buffer_index_id by done.
  destruct (lookup_lt_is_Some_2 (buffers st) b) as [x Hx]; [rewrite Hlen; by eapply lookup_lt_Some|]. rewrite Hx.
  exists x. split; [done|]. split; [exact (Forall_lookup_1 _ _ _ _ Hf Hx)|]. intros C HC Hex. rewrite (Hex b [s] x); [by apply xsum_singleton| |done].
  rewrite (ids_of_lookup d b buf Hb). by rewrite Hids.
Qed.

Lemma reconstruct_loop_spec n m ids :
  ready n (decoder m) (buffer_set m) → Forall (λ s, s < num_source_symbols (decoder_params (decoder m))) ids →
  ∃ o, reconstruct_loop m ids = Ret o ∧
    match o with
    | Some out => (∀ s, s ∈ ids → found (decoder m) s) ∧ length out = length ids * n ∧
        ∀ C, (∀ i, length (C i) = n) → explains n C (ids_of (decoder m)) (buffers (buffer_set m)) → out = concat (map C ids)
    | None => ∃ s, s ∈ ids ∧ ¬ found (decoder m) s
    end.
Proof.
  intros Hr Hids. induction Hids as [|s ids Hs Hids IH]; cbn [reconstruct_loop].
  { exists (Some []). split; [done|]. split; [by intros s ?%elem_of_nil|]. split; [done|]. done. }
  destruct (source_symbol_lookup n (decoder m) (buffer_set m) s Hr Hs) as (o & -> & Ho). cbn [mbind exec_bind].
  destruct o as [id|]; [|exists None; split; [done|]; exists s; split; [left|done]].
  destruct Ho as (Hfound & x & -> & Hxl & Hx). cbn [mbind exec_bind]. destruct IH as (rest & -> & Hrest). cbn [mbind exec_bind].
  eexists. split; [done|]. destruct rest as [rest|].
  - destruct Hrest as (Hall & Hlen & Hrest). split; [intros t [->|Ht]%elem_of_cons; auto|].
    split; [rewrite length_app; simpl; lia|]. intros C HC Hex. simpl. by rewrite (Hx C HC Hex), (Hrest C HC Hex).
  - destruct Hrest as (t & Ht & Hno). exists t. split; [by right|done].
Qed.

(** * Runs of the decoder *)

Inductive Event := Received (encoding_symbol_id : nat) (data : bytes) | TryDecode.

Definition event_step (m : ManagedDecoder) (ev : Event) : exec ManagedDecoder :=
  match ev with
  | Received encoding_symbol_id data => managed_received_encoded_symbol m data encoding_symbol_id
  | TryDecode => '(m, _) ← managed_try_decode m; Ret m
  end.
Definition run : ManagedDecoder → list Event → exec ManagedDecoder := foldM event_step.

Definition received (evs : list Event) : list (nat * bytes) :=
  omap (λ ev, match ev with Received esi data => Some (esi, data) | TryDecode => None end) evs.

(** The intermediate symbols [C] satisfy the constraints, and explain every
    received symbol. *)
Definition explains_received (n : nat) (p : CodeParameters) (rx : list (nat * bytes)) (C : nat → symbol) : Prop :=
  constraints n p C ∧ ∀ esi data, (esi, data) ∈ rx → ∃ l, lt_sequence_op p esi = Ret l ∧ data = xsum n C l.

Record managed_ok (n k : nat) (p : CodeParameters) (rx : list (nat * bytes)) (m : ManagedDecoder) : Prop := {
  mg_ready : ready n (decoder m) (buffer_set m);
  mg_params : decoder_params (decoder m) = p;
  mg_source : managed_num_source_symbols m = k;
  mg_sources : num_source_symbols p = k;
  mg_len : managed_symbol_len m = n;
  mg_buffers : length (buffer_state (decoder m)) = num_ldpc_symbols p + num_half_symbols p + length rx;
  mg_solutions : ∀ C, (∀ i, length (C i) = n) →
    explains n C (ids_of (decoder m)) (buffers (buffer_set m)) ↔ explains_received n p rx C;
}.

Lemma managed_new_spec n k :
  (SOURCE_SYMBOLS_MIN <= Z.of_nat k <= SOURCE_SYMBOLS_MAX)%Z →
  ∃ p m, code_parameters_new (Z.of_nat k) = Some p ∧ managed_new k n = Ret (Some m) ∧ managed_ok n k p [] m.
Proof.
  intros Hk. destruct (code_parameters_new_spec _ Hk) as (p & Hcode & Hp & Hsrc). apply Nat2Z.inj in Hsrc.
  destruct (with_capacity_spec n k p Hk Hcode Hp) as (d & Hd & Hr & Hpar & Hlen & Hsol). unfold managed_new. rewrite Hd. cbn [mbind exec_bind].
  eexists p, _. split; [done|]. split; [done|]. split; cbn [decoder buffer_set managed_num_source_symbols managed_symbol_len]; try done; [simpl; lia|].
  intros C HC. rewrite Hsol. unfold explains_received. split; [|tauto]. intros Hc. split; [done|]. by intros esi data ?%elem_of_nil.
Qed.

Lemma managed_received_spec n k p rx m esi data :
  managed_ok n k p rx m → (Z.of_nat esi < MAX_TRIPLES)%Z → length data = n →
  (Z.of_nat (length (buffer_state (decoder m))) < 65535)%Z →
  ∃ m', managed_received_encoded_symbol m data esi = Ret m' ∧ managed_ok n k p (rx ++ [(esi, data)]) m'.
Proof.
  intros [Hr Hp Hk Hsrc Hn Hlen Hsol] Hesi Hdata Hroom. unfold managed_received_encoded_symbol.
  rewrite bool_decide_true by congruence. cbn [assert mbind exec_bind]. unfold push_buffer.
  destruct (received_spec n (decoder m) (buffer_set m) esi data Hr Hesi Hroom Hdata) as (l & d' & st' & Hl & -> & Hr' & Hp' & Hlen' & Hsol').
  cbn [mbind exec_bind]. eexists. split; [done|]. rewrite Hp in Hl.
  split; cbn [decoder buffer_set managed_num_source_symbols managed_symbol_len]; try done; [congruence|rewrite length_app; simpl; lia|].
  intros C HC. rewrite <-(Hsol' C HC). unfold explains_received. pose proof Hr as [_ _ [_ Hd _]].
  assert (length (ids_of (decoder m)) = length (buffers (buffer_set m))) as Hids by (unfold ids_of; by rewrite length_map).
  assert (explains n C (ids_of (decoder m) ++ [l]) (buffers (buffer_set m) ++ [data]) ↔
    explains n C (ids_of (decoder m)) (buffers (buffer_set m)) ∧ data = xsum n C l) as ->.
  { split.
    - intros Hex. split.
      + intros b l' x Hb Hx. apply (Hex b); by apply lookup_app_l_Some.
      + apply (Hex (length (ids_of (decoder m)))); rewrite lookup_app_r by lia; [|rewrite Hids]; by rewrite Nat.sub_diag.
    - intros [Hex Hd'] b l' x [Hb|[Hb Hl']]%lookup_app_Some [Hx|[Hx Hx']]%lookup_app_Some.
      + by apply (Hex b).
      + apply lookup_lt_Some in Hb. lia.
      + apply lookup_lt_Some in Hx. lia.
      + apply list_lookup_singleton_Some in Hl' as [_ <-], Hx' as [_ <-]. done. }
  rewrite (Hsol C HC). unfold explains_received. split.
  - intros [[Hc Hrx] Hd']. split; [done|]. intros e x [Hin|Heq%list_elem_of_singleton]%elem_of_app; [by apply Hrx|]. simplify_eq. by exists l.
  - intros [Hc Hrx]. split; [split; [done|]|].
    + intros e x Hin. apply Hrx, elem_of_app. by left.
    + destruct (Hrx esi data) as (l' & Hl' & Hx); [apply elem_of_app; right; left|]. congruence.
Qed.

Lemma threshold_le k : k <= Nat.shiftr (INACTIVATION_SYMBOL_THRESHOLD_MULTIPLIER * k) INACTIVATION_SYMBOL_THRESHOLD_SHIFT.
Proof.
  unfold INACTIVATION_SYMBOL_THRESHOLD_MULTIPLIER, INACTIVATION_SYMBOL_THRESHOLD_SHIFT. rewrite Nat.shiftr_div_pow2.
  apply Nat.div_le_lower_bound; [done|]. change (2 ^ 8) with 256. lia.
Qed.

Lemma managed_try_decode_spec n k p rx m :
  managed_ok n k p rx m →
  ∃ m' r, managed_try_decode m = Ret (m', r) ∧ managed_ok n k p rx m' ∧ r = managed_decoding_done m' ∧
    (r = false → inactivation_symbol_threshold m <=
       length (buffer_state (decoder m)) - num_redundant_buffers (decoder m) → stuck (decoder m')).
Proof.
  intros [Hr Hp Hk Hsrc Hn Hlen Hsol]. unfold managed_try_decode.
  destruct (decoder_try_decode_spec n (decoder m) (buffer_set m) (inactivation_symbol_threshold m) Hr) as
    (d' & st' & r & -> & [Hr' [Hfp Hfl _] _ Hs] & Hdone & Hstuck).
  { rewrite Hp, Hsrc. unfold inactivation_symbol_threshold. rewrite Hk. apply threshold_le. }
  cbn [mbind exec_bind]. eexists _, r. split_and!; [done| |done|done].
  split; cbn [decoder buffer_set managed_num_source_symbols managed_symbol_len]; try done; [congruence..|].
  intros C HC. rewrite <-(Hs C HC). by apply Hsol.
Qed.

Lemma managed_try_decode_frame n k p rx m m' r :
  managed_ok n k p rx m → managed_try_decode m = Ret (m', r) →
  inactivation_symbol_threshold m' = inactivation_symbol_threshold m ∧
  length (buffer_state (decoder m')) - num_redundant_buffers (decoder m') <=
    length (buffer_state (decoder m)) - num_redundant_buffers (decoder m).
Proof.
  intros [Hr Hp Hk Hsrc Hn Hlen Hsol]. unfold managed_try_decode.
  destruct (decoder_try_decode_spec n (decoder m) (buffer_set m) (inactivation_symbol_threshold m) Hr) as
    (d' & st' & r' & -> & [_ [_ Hfl Hfr] _ _] & _).
  { rewrite Hp, Hsrc. unfold inactivation_symbol_threshold. rewrite Hk. apply threshold_le. }
  cbn [mbind exec_bind]. intros [= <- <-]. cbn [decoder]. split; [done|lia].
Qed.
