(* ===== verification/RaptorKernel.v ===== *)
(** A decoder that is stuck has more than one solution: fewer equations than
    symbols have a common solution that is not zero, and it extends to all the
    buffers. *)

From S2P Require Import Prelude Types ValidatorSet Crypto RaptorTables RaptorCode RaptorCodeProps RaptorEncoderProps.
From S2P Require Import RaptorStructs RaptorSetProps RaptorHeapProps RaptorMatrixProps RaptorDecoder RaptorDecoderInv RaptorDecoderSteps.
From S2P Require Import RaptorDecoderOps RaptorDecoderRecv RaptorDecoderRun RaptorRuns.

#[local] Open Scope nat_scope.

(** * Homogeneous equations *)

(** The sum of [f] over [l], in the field of two elements *)
Fixpoint parity (f : nat → bool) (l : list nat) : bool :=
  match l with [] => false | i :: l => xorb (f i) (parity f l) end.

Lemma parity_ext f g l : (∀ i, i ∈ l → f i = g i) → parity f l = parity g l.
Proof. induction l as [|i l IH]; intros H; simpl; [done|]. rewrite IH by (intros; apply H; by right). by rewrite H by left. Qed.
Lemma parity_false f l : (∀ i, i ∈ l → f i = false) → parity f l = false.
Proof. induction l as [|i l IH]; intros H; simpl; [done|]. rewrite IH by (intros; apply H; by right). by rewrite H by left. Qed.
Lemma parity_xor f g l : parity (λ i, xorb (f i) (g i)) l = xorb (parity f l) (parity g l).
Proof. induction l as [|i l IH]; simpl; [done|]. rewrite IH. by destruct (f i), (g i), (parity f l), (parity g l). Qed.
Lemma parity_scale c f l : parity (λ i, c && f i) l = c && parity f l.
Proof. induction l as [|i l IH]; simpl; [by rewrite andb_false_r|]. rewrite IH. by destruct c. Qed.

Lemma parity_perm f l l' : l ≡ₚ l' → parity f l = parity f l'.
Proof. induction 1; simpl; [done|congruence| |congruence]. by destruct (f x), (f y), (parity f l). Qed.
Lemma parity_filter f l U : NoDup l → NoDup U → l ⊆ U → parity (λ i, bool_decide (i ∈ l) && f i) U = parity f l.
Proof.
  intros Hl HU Hsub. assert (∀ V, parity (λ i, bool_decide (i ∈ l) && f i) V = parity f (filter (.∈ l) V)) as ->.
  { induction V as [|i V IH]; [done|]. simpl. rewrite filter_cons, IH. by destruct (decide (i ∈ l)) as [Hi|Hi];
      [rewrite bool_decide_true by done|rewrite bool_decide_false by done; destruct (parity f (filter (.∈ l) V))]. }
  apply parity_perm, NoDup_Permutation; [by apply NoDup_filter|done|]. intros i. rewrite list_elem_of_filter. set_solver.
Qed.

(** One value changes. *)
Lemma parity_change f g s l :
  NoDup l → s ∈ l → (∀ i, i ∈ l → i ≠ s → g i = f i) → parity g l = xorb (xorb (f s) (g s)) (parity f l).
Proof.
  induction 1 as [|i l Hi Hnd IH]; intros Hs Hne; [by apply elem_of_nil in Hs|]. simpl.
  destruct (decide (i = s)) as [->|His].
  - rewrite (parity_ext g f) by (intros j Hj; apply Hne; [by right|congruence]). by destruct (f s), (g s), (parity f l).
  - apply elem_of_cons in Hs as [?|Hs]; [congruence|]. rewrite (IH Hs) by (intros j Hj; apply Hne; by right).
    rewrite (Hne i) by (done || left). by destruct (f i), (f s), (g s), (parity f l).
Qed.

(** Fewer equations than unknowns have a solution that is not zero. *)
Lemma kernel (eqs : list (nat → bool)) (U : list nat) :
  NoDup U → length eqs < length U →
  ∃ v, (∃ u, u ∈ U ∧ v u = true) ∧ (∀ u, u ∉ U → v u = false) ∧ ∀ e, e ∈ eqs → parity (λ i, e i && v i) U = false.
Proof.
  remember (length eqs) as m eqn:Hm. revert eqs U Hm. induction m as [|m IH]; intros eqs U Hm Hnd Hlt.
  { destruct eqs; [|done]. destruct U as [|u U]; [simpl in Hlt; lia|]. exists (λ i, bool_decide (i = u)). split_and!.
    - exists u. rewrite bool_decide_true by done. split; [left|done].
    - intros i Hi. apply bool_decide_eq_false. intros ->. apply Hi. left.
    - by intros e ?%elem_of_nil. }
  destruct eqs as [|e eqs]; [done|]. simpl in Hm. injection Hm as Hm.
  destruct (decide (Exists (λ u, e u = true) U)) as [(p & Hp & Hep)%Exists_exists|Hno].
  - apply list_elem_of_split in Hp as (U1 & U2 & ->). set (U' := U1 ++ U2).
    assert (U1 ++ p :: U2 ≡ₚ p :: U') as Hperm by (symmetry; apply Permutation_middle).
    rewrite Hperm in Hnd. apply Permutation_length in Hperm as Hpl. rewrite Hpl in Hlt. simpl in Hlt. apply NoDup_cons in Hnd as [Hp Hnd].
    destruct (IH (map (λ e' i, xorb (e' i) (e' p && e i)) eqs) U') as (v & (u & Hu & Hvu) & Hout & Hv); [by rewrite length_map|done|lia|].
    set (c := parity (λ i, e i && v i) U'). set (v' i := if decide (i = p) then c else v i).
    assert (∀ f, parity (λ i, f i && v' i) (U1 ++ p :: U2) = xorb (f p && c) (parity (λ i, f i && v i) U')) as Hsum.
    { intros f. rewrite (parity_perm _ _ _ Hperm). simpl. unfold v' at 1. rewrite decide_True by done. f_equal. apply parity_ext. intros i Hi.
      unfold v'. rewrite decide_False; [done|]. intros ->. done. }
    exists v'. split_and!.
    + exists u. rewrite Hperm. split; [by right|]. unfold v'. rewrite decide_False; [done|]. by intros ->.
    + intros i Hi. rewrite Hperm in Hi. unfold v'. rewrite decide_False by (intros ->; apply Hi; left). apply Hout. intros ?. apply Hi. by right.
    + intros e' [->|He']%elem_of_cons; rewrite Hsum.
      * rewrite Hep. fold c. by destruct c.
      * specialize (Hv (λ i, xorb (e' i) (e' p && e i)) ltac:(apply list_elem_of_fmap; by exists e')). cbn beta in Hv.
        rewrite (parity_ext _ (λ i, xorb (e' i && v i) (e' p && (e i && v i)))) in Hv
          by (intros i _; by destruct (e' i), (e' p), (e i), (v i)).
        rewrite parity_xor, (parity_scale (e' p) (λ i, e i && v i)) in Hv. fold c in Hv.
        by destruct (e' p), c, (parity (λ i, e' i && v i) U').
  - destruct (IH eqs U Hm Hnd) as (v & Hnz & Hout & Hv); [lia|]. exists v. split_and!; [done..|].
    intros e' [->|He']%elem_of_cons; [|by apply Hv]. apply parity_false. intros i Hi.
    destruct (e i) eqn:He; [|done]. destruct Hno. apply Exists_exists. by exists i.
Qed.

(** * A second solution *)

Definition ones (n : nat) : symbol := replicate n 1%Z.
Definition shift (n : nat) (v : nat → bool) (C : nat → symbol) (i : nat) : symbol :=
  if v i then xor_bytes (C i) (ones n) else C i.

Lemma shift_length n v C i : (∀ i, length (C i) = n) → length (shift n v C i) = n.
Proof. intros HC. unfold shift. destruct (v i); [|done]. apply xor_bytes_length; [done|]. apply length_replicate. Qed.

Lemma xsum_shift n v C l :
  (∀ i, length (C i) = n) → xsum n (shift n v C) l = if parity v l then xor_bytes (xsum n C l) (ones n) else xsum n C l.
Proof.
  intros HC. assert (length (ones n) = n) as Ho by apply length_replicate.
  induction l as [|i l IH]; [done|]. simpl. rewrite IH. unfold shift at 1. destruct (v i), (parity v l); simpl.
  - rewrite <-xor_bytes_assoc, (xor_bytes_assoc (ones n)), (xor_bytes_comm (ones n)), <-xor_bytes_assoc, (xor_bytes_self n), (xor_bytes_zero_r n);
      [done|by apply xsum_length|done].
  - by rewrite <-!xor_bytes_assoc, (xor_bytes_comm (ones n)).
  - by rewrite <-xor_bytes_assoc.
  - done.
Qed.

Lemma shift_explains n v C ids data :
  (∀ i, length (C i) = n) → (∀ b l, ids !! b = Some l → parity v l = false) →
  explains n C ids data → explains n (shift n v C) ids data.
Proof. intros HC Hv Hex b l x Hb Hx. rewrite xsum_shift, (Hv b l Hb) by done. by apply (Hex b). Qed.

Section stuck.
Context (n : nat) (d : Decoder) (st : BufferSet) (Hr : ready n d st) (Hstuck : stuck d).
Notation syms := (intermediate_symbol_state d).

(** Every buffer is used, or holds inactivated symbols only. *)
Lemma stuck_buffer b buf :
  buffer_state d !! b = Some buf →
  (∃ s, syms !! s = Some (Used b) ∧ s ∈ intermediate_symbol_ids buf ∧
     ∀ x, x ∈ intermediate_symbol_ids buf → x ≠ s → noninact syms x = false) ∨
  (active_used_weight buf = 0 ∧ ∀ x, x ∈ intermediate_symbol_ids buf → noninact syms x = false).
Proof.
  destruct Hr as [Hst Hbk _]. intros Hb. destruct (used buf) eqn:Hu.
  - left. destruct (used_symbol d 0 [] false Hst b buf Hb Hu) as (s & Hs & Hin & Hone). exists s. split_and!; [done..|].
    intros x Hx Hne. destruct (noninact syms x) eqn:Hn; [|done]. destruct Hne. apply Hone; [done|]. by rewrite counted_none.
  - right. destruct Hstuck as [Hact _]. specialize (Hact b). rewrite (bk_act _ _ _ Hbk), Hb in Hact. simpl in Hact.
    assert (active_used_weight buf = 0) as Hw.
    { unfold act_w in Hact.
      destruct (state_spec buf) as [[? Hs]|[(? & ? & Hs)|[(? & ? & Hs)|[(? & ? & Hs)|(? & ? & Hs)]]]]; rewrite Hs in Hact; congruence || lia. }
    split; [done|]. intros x Hx. by eapply gauss_inactive.
Qed.

Lemma noninact_false s : noninact syms s = false ↔ ∃ l, syms !! s = Some (Inactivated l).
Proof. unfold noninact. destruct (syms !! s) as [[]|]; naive_solver. Qed.

(** The inactivated symbols have a solution that is not zero. *)
Lemma stuck_inactivated t :
  noninact syms t = false →
  ∃ v, (∃ s, v s = true) ∧ (∀ s, noninact syms s = true → v s = false) ∧
    ∀ b buf, buffer_state d !! b = Some buf → active_used_weight buf = 0 → parity v (intermediate_symbol_ids buf) = false.
Proof.
  intros Ht. pose proof Hr as [Hst Hbk _]. destruct Hstuck as (_ & bl & syml & (Hnb & Hns & Hbl & Hsyml) & Hcase).
  assert (∀ b buf, buffer_state d !! b = Some buf → active_used_weight buf = 0 → intermediate_symbol_ids buf = [] ∨ b ∈ bl) as Hin.
  { intros b buf Hb Hw. destruct (decide (intermediate_symbol_ids buf = [])) as [?|Hne]; [by left|]. right.
    destruct (inactivated_facts buf Hw Hne) as (_ & Hi & _). apply Hbl. rewrite (bk_ina _ _ _ Hbk) by apply not_elem_of_nil. rewrite Hb. simpl. by rewrite Hi. }
  assert (∀ b, b ∈ bl → ∃ buf, buffer_state d !! b = Some buf ∧ active_used_weight buf = 0) as Hblz.
  { intros b [w Hw]%Hbl. destruct (inactivated_entry d b w Hst Hbk Hw) as (buf & Hb & Hz & _). by exists buf. }
  destruct Hcase as [->|Hlt].
  - exists (λ s, bool_decide (s = t)). split_and!.
    + exists t. by apply bool_decide_true.
    + intros s Hs. apply bool_decide_false. intros ->. congruence.
    + intros b buf Hb Hw. destruct (Hin b buf Hb Hw) as [->|?%elem_of_nil]; done.
  - set (ids b := match buffer_state d !! b with Some buf => intermediate_symbol_ids buf | None => [] end).
    destruct (kernel (map (λ b i, bool_decide (i ∈ ids b)) bl) syml Hns) as (v & (s & _ & Hs) & Hout & Hv); [by rewrite length_map|].
    exists v. split_and!; [by exists s| |].
    + intros x Hx. apply Hout. intros (b & buf & Hb & Hbuf & Hxin)%Hsyml. destruct (Hblz b Hb) as (buf' & Hbuf' & Hz).
      assert (buf' = buf) as -> by congruence. assert (noninact syms x = false) by (by eapply gauss_inactive). congruence.
    + intros b buf Hb Hw. destruct (Hin b buf Hb Hw) as [->|Hbin]; [done|].
      specialize (Hv (λ i, bool_decide (i ∈ ids b)) ltac:(apply list_elem_of_fmap; by exists b)). cbn beta in Hv.
      assert (ids b = intermediate_symbol_ids buf) as Hids by (unfold ids; by rewrite Hb). rewrite Hids in Hv.
      rewrite parity_filter in Hv; [done| |done|].
      * by apply strict_NoDup, (st_ids _ _ _ _ Hst b buf Hb).
      * intros x Hx. apply Hsyml. by exists b, buf.
Qed.

(** A decoder that is stuck before it is done has a solution that is not zero. *)
Lemma stuck_solution :
  decoding_done d = false →
  ∃ v s, s < num_intermediate_symbols (decoder_params d) ∧ v s = true ∧
    ∀ b l, ids_of d !! b = Some l → parity v l = false.
Proof.
  intros Hdone. pose proof Hr as [Hst Hbk _]. pose proof (st_length _ _ _ _ Hst) as Hlen.
  assert (∀ v, (∀ b buf, buffer_state d !! b = Some buf → parity v (intermediate_symbol_ids buf) = false) →
    ∀ b l, ids_of d !! b = Some l → parity v l = false) as Hbufs.
  { intros v Hv b l Hl. unfold ids_of in Hl. rewrite list_lookup_fmap in Hl. apply fmap_Some in Hl as (buf & Hb & ->). by apply (Hv b). }
  destruct (decide (Exists (λ s, is_active s = true) syms)) as [(sym & (s & Hs)%list_elem_of_lookup & Hact)%Exists_exists|Hnoact].
  { exists (λ i, bool_decide (i = s)), s. rewrite bool_decide_true by done. split_and!; [rewrite <-Hlen; by eapply lookup_lt_Some|done|].
    apply Hbufs. intros b buf Hb. apply parity_false. intros i Hi. apply bool_decide_eq_false. intros ->. destruct sym; try done.
    assert (noninact syms s = true) as Hn by (unfold noninact; by rewrite Hs).
    destruct (stuck_buffer b buf Hb) as [(s' & Hs' & _ & Hother)|[_ Hother]]; [|by rewrite (Hother s Hi) in Hn].
    destruct (decide (s = s')) as [->|Hne]; [congruence|]. by rewrite (Hother s Hi Hne) in Hn. }
  destruct (decide (Exists (λ s, is_inactivated s = true) syms)) as [(sym & (t & Ht)%list_elem_of_lookup & Hina)%Exists_exists|Hnoina].
  - destruct (stuck_inactivated t) as (vi & (s & Hs) & Hout & Hvi); [apply noninact_false; destruct sym; naive_solver|].
    set (v i := match syms !! i with
                | Some (Used b) => match buffer_state d !! b with Some buf => parity vi (intermediate_symbol_ids buf) | None => false end
                | _ => vi i
                end).
    assert (∀ i, noninact syms i = false → v i = vi i) as Hsame by (intros i (l & Hl)%noninact_false; unfold v; by rewrite Hl).
    assert (noninact syms s = false) as Hsn by (destruct (noninact syms s) eqn:Hn; [rewrite (Hout s Hn) in Hs|]; done).
    exists v, s. split_and!.
    + apply noninact_false in Hsn as [l Hl]. rewrite <-Hlen. by eapply lookup_lt_Some.
    + by rewrite Hsame.
    + apply Hbufs. intros b buf Hb. destruct (stuck_buffer b buf Hb) as [(s' & Hs' & Hin & Hother)|[Hw Hother]].
      * rewrite (parity_change vi v s'); [|by apply strict_NoDup, (st_ids _ _ _ _ Hst b buf Hb)|done|intros i Hi Hne; by apply Hsame, Hother].
        rewrite Hout by (unfold noninact; by rewrite Hs'). unfold v. rewrite Hs', Hb. by destruct (parity vi (intermediate_symbol_ids buf)).
      * rewrite (parity_ext v vi) by (intros i Hi; by apply Hsame, Hother). by apply (Hvi b).
  - exfalso. assert (decoding_done d = true); [|congruence]. apply (done_found n d st Hr). intros s Hs.
    pose proof (ok_intermediate _ (st_params _ _ _ _ Hst)) as HL.
    destruct (lookup_lt_is_Some_2 syms s) as [sym Hsym]; [lia|]. rewrite <-Forall_Exists_neg, !Forall_lookup in *.
    destruct sym as [l|l|b]; [by destruct (Hnoact s _ Hsym)|by destruct (Hnoina s _ Hsym)|].
    destruct (st_used_sym _ _ _ _ Hst s b Hsym) as (buf & Hb & Hu). exists b, buf. split_and!; [done..|].
    assert (∀ x, noninact syms x = true) as Hall.
    { intros x. destruct (noninact syms x) eqn:Hn; [done|]. apply noninact_false in Hn as [l Hl]. by destruct (Hnoina x _ Hl). }
    destruct (reducing_buffer d s [] false b (struct_none _ _ _ _ _ Hst) Hsym) as (bb & Hb' & _ & _ & _ & Hin & Hone).
    assert (bb = buf) as -> by congruence. destruct (st_ids _ _ _ _ Hst b buf Hb) as [Hsort _].
    apply Permutation_singleton_r, NoDup_Permutation; [by apply strict_NoDup|apply NoDup_singleton|].
    intros x. rewrite list_elem_of_singleton. split; [intros Hx; by apply Hone|by intros ->].
Qed.
End stuck.
