(* ===== verification/RaptorProps.v ===== *)
(** What the Raptor code guarantees, from the encoder to the reconstruction. *)

From S2P Require Import Prelude Types ValidatorSet Crypto RaptorTables RaptorCode RaptorCodeProps RaptorEncoderProps.
From S2P Require Import RaptorStructs RaptorSetProps RaptorHeapProps RaptorMatrixProps RaptorDecoder RaptorDecoderInv RaptorDecoderSteps.
From S2P Require Import RaptorDecoderOps RaptorDecoderRecv RaptorDecoderRun RaptorRuns RaptorKernel.

#[local] Open Scope nat_scope.

(** * The source symbols determine the intermediate symbols *)

Lemma row_determines n C C' l i :
  (∀ i, length (C i) = n) → (∀ i, length (C' i) = n) → NoDup l → i ∈ l → (∀ j, j ∈ l → j ≠ i → C j = C' j) →
  xsum n C l = xsum n C' l → C i = C' i.
Proof.
  intros HC HC' Hnd Hi Hne Heq. apply list_elem_of_split in Hi as (l1 & l2 & ->).
  assert (l1 ++ i :: l2 ≡ₚ i :: (l1 ++ l2)) as Hperm by (symmetry; apply Permutation_middle).
  rewrite Hperm in Hnd. apply NoDup_cons in Hnd as [Hi _].
  rewrite (xsum_Permutation n C _ _ Hperm), (xsum_Permutation n C' _ _ Hperm) in Heq. simpl in Heq.
  rewrite (xsum_ext n C C' (l1 ++ l2)) in Heq.
  - apply (f_equal (λ x, xor_bytes x (xsum n C' (l1 ++ l2)))) in Heq. by rewrite !(xor_bytes_cancel n) in Heq by (done || by apply xsum_length).
  - intros j Hj. apply Hne; [rewrite Hperm; by right|]. by intros ->.
Qed.

Lemma constraints_determine n p C C' :
  params_ok p → (∀ i, length (C i) = n) → (∀ i, length (C' i) = n) → constraints n p C → constraints n p C' →
  (∀ i, i < num_source_symbols p → C i = C' i) → ∀ i, i < num_intermediate_symbols p → C i = C' i.
Proof.
  intros Hp HC HC' Hc Hc' Hsrc. destruct (a_common_spec p Hp) as (half & E & Hhalf & HE & Hsort & Hin).
  destruct (g_ldpc_spec p Hp) as [_ Hf1]. destruct (g_half_spec p Hp) as (half' & Hhalf' & _ & Hf2).
  rewrite Hhalf in Hhalf'. injection Hhalf' as <-. rewrite Forall_forall in Hf1, Hf2.
  set (k := num_source_symbols p) in *. set (s := num_ldpc_symbols p) in *. set (h := num_half_symbols p) in *.
  assert (∀ r i, r < s + h → (r, i) ∈ E → (∀ j, (r, j) ∈ E → j ≠ i → C j = C' j) → C i = C' i) as Hrow.
  { intros r i Hr Hi Hne. apply (row_determines n C C' (row_of r E)); [done..|by apply strict_NoDup, in_order_row|by apply elem_of_row_of| |].
    - intros j Hj. apply Hne. by apply elem_of_row_of.
    - by rewrite (Hc E r HE Hr), (Hc' E r HE Hr). }
  assert (∀ i, i < k + s → C i = C' i) as Hldpc.
  { intros i Hi. destruct (decide (i < k)) as [?|Hik]; [by apply Hsrc|]. apply (Hrow (i - k)); [lia| |].
    - apply Hin. left. split; [lia|]. right. lia.
    - intros j Hj Hji. apply Hsrc. apply Hin in Hj. destruct Hj as [[_ [Hj| ->]]|(t & Ht & _)]; [apply Hf1 in Hj; simpl in Hj; lia|lia|lia]. }
  intros i Hi. rewrite (ok_intermediate _ Hp) in Hi. fold k s h in Hi. destruct (decide (i < k + s)) as [?|His]; [by apply Hldpc|].
  apply (Hrow (i - k)); [lia| |].
  - apply Hin. right. exists (i - k - s). split_and!; [lia..|]. right. lia.
  - intros j Hj Hji. apply Hldpc. apply Hin in Hj. destruct Hj as [[? _]|(t & Ht & _ & [Hj| ->])]; [lia|apply Hf2 in Hj; simpl in Hj; lia|lia].
Qed.

(** * Runs *)

(** An event with a symbol of the right size and an identifier of the code *)
Definition symbol_event_ok (n : nat) (ev : Event) : Prop :=
  match ev with Received esi data => (Z.of_nat esi < MAX_TRIPLES)%Z ∧ length data = n | TryDecode => True end.

Lemma run_spec n k p rx m evs :
  managed_ok n k p rx m → Forall (symbol_event_ok n) evs →
  (Z.of_nat (length (buffer_state (decoder m)) + length (received evs)) <= 65535)%Z →
  ∃ m', run m evs = Ret m' ∧ managed_ok n k p (rx ++ received evs) m'.
Proof.
  intros Hm Hevs. revert rx m Hm. induction Hevs as [|ev evs Hev Hevs IH]; intros rx m Hm Hroom; unfold run; cbn [foldM].
  { exists m. split; [done|]. by rewrite app_nil_r. }
  destruct ev as [esi data|]; cbn [event_step].
  - destruct Hev as [Hesi Hlen]. change (received (Received esi data :: evs)) with ((esi, data) :: received evs) in *. simpl in Hroom.
    destruct (managed_received_spec n k p rx m esi data Hm Hesi Hlen) as (m1 & -> & Hm1); [lia|]. cbn [mbind exec_bind].
    destruct (IH _ m1 Hm1) as (m' & Hrun & Hm').
    + rewrite (mg_buffers _ _ _ _ _ Hm1), length_app. rewrite (mg_buffers _ _ _ _ _ Hm) in Hroom. simpl. lia.
    + exists m'. split; [done|]. by rewrite <-app_assoc in Hm'.
  - change (received (TryDecode :: evs)) with (received evs) in *.
    destruct (managed_try_decode_spec n k p rx m Hm) as (m1 & r & -> & Hm1 & _). cbn [mbind exec_bind].
    destruct (IH _ m1 Hm1) as (m' & Hrun & Hm'); [|by exists m'].
    rewrite (mg_buffers _ _ _ _ _ Hm1). by rewrite (mg_buffers _ _ _ _ _ Hm) in Hroom.
Qed.

Lemma new_ok n k m :
  managed_new k n = Ret (Some m) → ∃ p, code_parameters_new (Z.of_nat k) = Some p ∧ managed_ok n k p [] m.
Proof.
  intros Hnew. destruct (decide (SOURCE_SYMBOLS_MIN <= Z.of_nat k <= SOURCE_SYMBOLS_MAX)%Z) as [Hk|Hk].
  - destruct (managed_new_spec n k Hk) as (p & m' & Hp & Hnew' & Hm). exists p. split; [done|].
    rewrite Hnew in Hnew'. injection Hnew' as <-. done.
  - exfalso. unfold managed_new, with_capacity in Hnew. by rewrite bool_decide_false in Hnew.
Qed.

Lemma reconstruct_spec n k p rx m :
  managed_ok n k p rx m →
  ∃ o, reconstruct_source_data m = Ret o ∧ (is_Some o ↔ managed_decoding_done m = true) ∧
    (∀ out, o = Some out → length out = k * n) ∧
    ∀ out C, o = Some out → (∀ i, length (C i) = n) → explains_received n p rx C → out = concat (map C (seq 0 k)).
Proof.
  intros Hm. pose proof Hm as [Hr Hp Hk Hsrc _ _ Hsol]. unfold reconstruct_source_data, managed_decoding_done.
  destruct (reconstruct_loop_spec n m (seq 0 k) Hr) as (o & Heq & Ho).
  { apply Forall_forall. intros s [_ Hs]%elem_of_seq. rewrite Hp, Hsrc. lia. }
  rewrite Hk, Heq. exists o. split; [done|]. rewrite (done_found n _ _ Hr), Hp, Hsrc. split.
  - destruct o as [out|].
    + split; [|done]. intros _ s Hs. apply Ho, elem_of_seq. lia.
    + split; [by intros [? ?]|]. intros Hall. destruct Ho as (s & [_ Hs]%elem_of_seq & Hno). by destruct Hno; apply Hall.
  - split; [intros out ->; destruct Ho as (_ & Hlen & _); by rewrite length_seq in Hlen|].
    intros out C -> HC Hex. apply Ho; [done|]. by apply Hsol.
Qed.

(** An event of a run that receives the symbols of the encoder [e] *)
Definition from_encoder (e : Encoder) (ev : Event) : Prop :=
  match ev with Received esi data => (Z.of_nat esi < MAX_TRIPLES)%Z ∧ encode_symbol e esi = Ret data | TryDecode => True end.

Lemma from_encoder_ok src e C evs :
  encoder_ok src e C → Forall (from_encoder e) evs →
  Forall (symbol_event_ok (symbol_len e)) evs ∧ explains_received (symbol_len e) (params e) (received evs) C.
Proof.
  intros He Hevs. split.
  - eapply Forall_impl; [exact Hevs|]. intros [esi data|]; [|done]. intros [Hesi Hdata]. split; [done|].
    destruct (encode_symbol_spec src e C esi He Hesi) as (l & _ & Heq). rewrite Hdata in Heq. injection Heq as ->.
    apply xsum_length, He.
  - split; [intros E r; apply He|]. intros esi data (ev & Hev & Hx)%list_elem_of_omap. destruct ev as [esi' data'|]; [|done].
    injection Hx as -> ->. rewrite Forall_forall in Hevs. destruct (Hevs _ Hev) as [Hesi Hdata].
    destruct (encode_symbol_spec src e C esi He Hesi) as (l & Hl & Heq). exists l. split; [done|]. rewrite Hdata in Heq. by injection Heq as ->.
Qed.

(** The decoder is done: its received symbols determine the source symbols. *)
Definition determines (n : nat) (p : CodeParameters) (rx : list (nat * bytes)) : Prop :=
  ∀ C C', (∀ i, length (C i) = n) → (∀ i, length (C' i) = n) →
    explains_received n p rx C → explains_received n p rx C' → ∀ i, i < num_source_symbols p → C i = C' i.

Lemma done_determines n k p rx m : managed_ok n k p rx m → managed_decoding_done m = true → determines n p rx.
Proof.
  intros [Hr Hp Hk Hsrc _ _ Hsol] Hdone C C' HC HC' Hex Hex' i Hi. rewrite <-Hp in Hi.
  destruct (source_symbol_lookup n _ _ i Hr Hi) as (o & _ & Ho). pose proof (proj1 (done_found n _ _ Hr) Hdone i Hi) as Hf.
  destruct o as [id|]; [|done]. destruct Ho as (_ & x & _ & _ & Hx).
  rewrite <-(Hx C HC (proj2 (Hsol C HC) Hex)). exact (Hx C' HC' (proj2 (Hsol C' HC') Hex')).
Qed.

Lemma stuck_undetermined n k p rx m C :
  0 < n → managed_ok n k p rx m → stuck (decoder m) → managed_decoding_done m = false →
  (∀ i, length (C i) = n) → explains_received n p rx C → ¬ determines n p rx.
Proof.
  intros Hn [Hr Hp _ _ _ _ Hsol] Hstuck Hdone HC Hex Hdet.
  destruct (stuck_solution n _ _ Hr Hstuck Hdone) as (v & s & Hs & Hvs & Hv).
  assert (∀ i, length (shift n v C i) = n) as HC' by (intros i; by apply shift_length).
  assert (explains_received n p rx (shift n v C)) as Hex'.
  { apply Hsol; [done|]. apply shift_explains; [done..|]. by apply Hsol. }
  assert (C s = shift n v C s) as Heq.
  { apply (constraints_determine n p C (shift n v C)); [|done|done|apply Hex|apply Hex'|by apply Hdet|by rewrite <-Hp].
    rewrite <-Hp. apply Hr. }
  unfold shift in Heq. rewrite Hvs in Heq. specialize (HC s). destruct (C s) as [|x y]; [simpl in HC; lia|].
  unfold ones in Heq. destruct n as [|n]; [lia|]. simpl in Heq. injection Heq as Hx _.
  assert (Z.lxor x x = Z.lxor x (Z.lxor x 1)) as Hxx by (by rewrite <-Hx). by rewrite <-Z.lxor_assoc, Z.lxor_nilpotent in Hxx.
Qed.

(** * The guarantees *)

(** C7. Whatever symbols arrive, in whatever order and whenever decoding is tried,
    no operation of the decoder panics or runs on: every run returns, decoding
    returns whether all source symbols are found, and reconstruction returns data
    exactly then. *)
Theorem raptor_runs_total k n evs :
  Forall (symbol_event_ok n) evs →
  match managed_new k n with
  | Ret None => ¬ (1 <= k <= Z.to_nat SOURCE_SYMBOLS_MAX)
  | Ret (Some m) =>
      1 <= k <= Z.to_nat SOURCE_SYMBOLS_MAX ∧
      ((Z.of_nat (length (buffer_state (decoder m)) + length (received evs)) <= 65535)%Z →
       ∃ m' m'' r o, run m evs = Ret m' ∧ managed_try_decode m' = Ret (m'', r) ∧ managed_decoding_done m'' = r ∧
         reconstruct_source_data m'' = Ret o ∧ (is_Some o ↔ r = true))
  | _ => False
  end.
Proof.
  intros Hevs. unfold SOURCE_SYMBOLS_MAX.
  destruct (decide (SOURCE_SYMBOLS_MIN <= Z.of_nat k <= SOURCE_SYMBOLS_MAX)%Z) as [Hk|Hk].
  - destruct (managed_new_spec n k Hk) as (p & m & _ & -> & Hm). unfold SOURCE_SYMBOLS_MIN, SOURCE_SYMBOLS_MAX in Hk. split; [lia|].
    intros Hroom. destruct (run_spec n k p [] m evs Hm Hevs Hroom) as (m' & Hrun & Hm').
    destruct (managed_try_decode_spec n k p _ m' Hm') as (m'' & r & Htry & Hm'' & -> & _).
    destruct (reconstruct_spec n k p _ m'' Hm'') as (o & Ho & Hdone & _). by exists m', m'', (managed_decoding_done m''), o.
  - unfold managed_new, with_capacity. rewrite bool_decide_false by done. cbn [mbind exec_bind].
    unfold SOURCE_SYMBOLS_MIN, SOURCE_SYMBOLS_MAX in Hk. lia.
Qed.

(** C5. What is reconstructed is what was encoded: when the received symbols are
    symbols of the encoder of [src], in any order and with any repetition, the
    reconstructed data is [src], padded with zeros to a whole number of symbols. *)
Theorem raptor_roundtrip src n e m evs :
  0 < n → encoder_new src n = Ret (Some e) → managed_new (num_source_symbols (params e)) n = Ret (Some m) →
  Forall (from_encoder e) evs →
  (Z.of_nat (length (buffer_state (decoder m)) + length (received evs)) <= 65535)%Z →
  let k := Nat.max 1 ((length src + n - 1) / n) in
  ∃ m', run m evs = Ret m' ∧
    reconstruct_source_data m' =
    Ret (if managed_decoding_done m' then Some (src ++ replicate (k * n - length src) 0%Z) else None).
Proof.
  intros Hn Henc Hnew Hevs Hroom k. pose proof (encoder_new_spec src n Hn) as Hspec.
  case_decide as Hmax; [|congruence]. destruct Hspec as (e' & C & He' & _ & Hlen & He).
  rewrite Henc in He'. injection He' as <-. destruct (new_ok _ _ _ Hnew) as (p & Hp & Hm).
  assert (p = params e) as -> by (pose proof (enc_code _ _ _ He); congruence).
  destruct (from_encoder_ok src e C evs He Hevs) as [Hok Hex]. rewrite Hlen in Hok, Hex.
  destruct (run_spec _ _ _ [] m evs Hm Hok Hroom) as (m' & Hrun & Hm'). exists m'. split; [done|].
  destruct (reconstruct_spec _ _ _ _ m' Hm') as (o & -> & Hdone & _ & Hout). f_equal.
  destruct (managed_decoding_done m') eqn:Hd.
  - destruct o as [out|]; [|by destruct (proj2 Hdone eq_refl)]. f_equal.
    rewrite (Hout out C eq_refl) by (done || intros i; rewrite (enc_length _ _ _ He); done).
    rewrite (enc_source _ _ _ He), (enc_source_symbols _ _ _ He), Hlen, num_sources_ceil by done. done.
  - destruct o as [out|]; [|done]. by pose proof (proj1 Hdone (mk_is_Some _ _ eq_refl)).
Qed.

(** C6. Decoding succeeds exactly when it can: with the buffers that decoding in
    earnest asks for, trying to decode finds the source if and only if the received
    symbols determine it, and the source is then reconstructed. *)
Theorem raptor_decodes_iff_determined src n e m m' evs :
  0 < n → encoder_new src n = Ret (Some e) → managed_new (num_source_symbols (params e)) n = Ret (Some m) →
  Forall (from_encoder e) evs →
  (Z.of_nat (length (buffer_state (decoder m)) + length (received evs)) <= 65535)%Z →
  run m evs = Ret m' →
  inactivation_symbol_threshold m' <= length (buffer_state (decoder m')) - num_redundant_buffers (decoder m') →
  ∃ m'' r, managed_try_decode m' = Ret (m'', r) ∧
    (r = true ↔ determines n (params e) (received evs)) ∧
    (r = true → reconstruct_source_data m'' =
       Ret (Some (src ++ replicate (Nat.max 1 ((length src + n - 1) / n) * n - length src) 0%Z))).
Proof.
  intros Hn Henc Hnew Hevs Hroom Hrun Hth. pose proof (encoder_new_spec src n Hn) as Hspec.
  case_decide as Hmax; [|congruence]. destruct Hspec as (e' & C & He' & _ & Hlen & He).
  rewrite Henc in He'. injection He' as <-. destruct (new_ok _ _ _ Hnew) as (p & Hp & Hm).
  assert (p = params e) as -> by (pose proof (enc_code _ _ _ He); congruence).
  destruct (from_encoder_ok src e C evs He Hevs) as [Hok Hex]. rewrite Hlen in Hok, Hex.
  assert (∀ i, length (C i) = n) as HC by (intros i; rewrite (enc_length _ _ _ He); done).
  destruct (run_spec _ _ _ [] m evs Hm Hok Hroom) as (m1 & Hrun1 & Hm'). rewrite Hrun in Hrun1. injection Hrun1 as <-.
  destruct (managed_try_decode_spec _ _ _ _ m' Hm') as (m'' & r & -> & Hm'' & Hr & Hstuck). exists m'', r. split; [done|]. split.
  - split; [intros ->; by eapply done_determines|]. intros Hdet. destruct r; [done|]. exfalso.
    by apply (stuck_undetermined n _ _ _ m'' C Hn Hm'' (Hstuck eq_refl Hth) (eq_sym Hr) HC Hex).
  - intros ->. destruct (reconstruct_spec _ _ _ _ m'' Hm'') as (o & -> & Hdone & _ & Hout).
    destruct o as [out|]; [|by destruct (proj2 Hdone (eq_sym Hr))]. do 2 f_equal.
    rewrite (Hout out C eq_refl HC Hex), (enc_source _ _ _ He), (enc_source_symbols _ _ _ He), Hlen, num_sources_ceil by done. done.
Qed.

(** * Examples *)

Definition demo_src : bytes := [1; 2; 3; 4; 5; 6; 7]%Z.
Definition demo_events (e : Encoder) (ids : list nat) : list Event :=
  omap (λ esi, match encode_symbol e esi with Ret data => Some (Received esi data) | _ => None end) ids.

Lemma demo_from_encoder e ids :
  forallb (λ esi, bool_decide (Z.of_nat esi < MAX_TRIPLES)%Z) ids = true → Forall (from_encoder e) (demo_events e ids ++ [TryDecode]).
Proof.
  intros Hids. apply Forall_app. split; [|by repeat constructor]. apply Forall_forall.
  intros ev (esi & Hin & Hev)%list_elem_of_omap. rewrite forallb_forall in Hids. apply list_elem_of_In, Hids, bool_decide_eq_true in Hin.
  destruct (encode_symbol e esi) eqn:He; simplify_eq. done.
Qed.

Lemma raptor_runs_total_witness :
  ∃ m m' m'' r o, managed_new 4 2 = Ret (Some m) ∧ run m [Received 9 [255; 0]; TryDecode; Received 9 [1; 2]]%Z = Ret m' ∧
    managed_try_decode m' = Ret (m'', r) ∧ reconstruct_source_data m'' = Ret o ∧ (is_Some o ↔ r = true).
Proof.
  assert (Forall (symbol_event_ok 2) [Received 9 [255; 0]; TryDecode; Received 9 [1; 2]]%Z) as Hevs by (repeat constructor).
  pose proof (raptor_runs_total 4 2 _ Hevs) as Hrun.
  let m := eval vm_compute in (managed_new 4 2) in match m with Ret (Some ?m) =>
    assert (managed_new 4 2 = Ret (Some m)) as Hnew by (vm_compute; reflexivity); exists m end.
  rewrite Hnew in Hrun. destruct Hrun as [_ Hrun]. destruct Hrun as (m' & m'' & r & o & Hr & Ht & _ & Ho & Hiff); [vm_compute; discriminate|].
  exists m', m'', r, o. exact (conj Hnew (conj Hr (conj Ht (conj Ho Hiff)))).
Defined.

Lemma raptor_roundtrip_witness :
  ∃ e m m', encoder_new demo_src 2 = Ret (Some e) ∧ managed_new 4 2 = Ret (Some m) ∧
    run m (demo_events e [20; 3; 22; 20; 23; 24; 25] ++ [TryDecode]) = Ret m' ∧
    reconstruct_source_data m' =
    Ret (if managed_decoding_done m' then Some (demo_src ++ [0%Z]) else None).
Proof.
  let e := eval vm_compute in (encoder_new demo_src 2) in match e with Ret (Some ?e) =>
  let m := eval vm_compute in (managed_new 4 2) in match m with Ret (Some ?m) =>
    destruct (raptor_roundtrip demo_src 2 e m (demo_events e [20; 3; 22; 20; 23; 24; 25] ++ [TryDecode])) as (m' & Hrun & Hrec);
      [lia|vm_compute; reflexivity|vm_compute; reflexivity|apply demo_from_encoder; reflexivity|vm_compute; discriminate|];
    exists e, m, m'; split_and!; [vm_compute; reflexivity|vm_compute; reflexivity|exact Hrun|exact Hrec]
  end end.
Defined.

Lemma raptor_decodes_iff_determined_witness :
  ∃ e m m' m'' r, encoder_new demo_src 2 = Ret (Some e) ∧ managed_new 4 2 = Ret (Some m) ∧
    run m (demo_events e [7; 8; 9] ++ [TryDecode]) = Ret m' ∧ managed_try_decode m' = Ret (m'', r) ∧
    (r = true ↔ determines 2 (params e) (received (demo_events e [7; 8; 9] ++ [TryDecode]))).
Proof.
  let e := eval vm_compute in (encoder_new demo_src 2) in match e with Ret (Some ?e) =>
  let m := eval vm_compute in (managed_new 4 2) in match m with Ret (Some ?m) =>
  let m' := eval vm_compute in (run m (demo_events e [7; 8; 9] ++ [TryDecode])) in match m' with Ret ?m' =>
    destruct (raptor_decodes_iff_determined demo_src 2 e m m' (demo_events e [7; 8; 9] ++ [TryDecode])) as (m'' & r & Htry & Hiff & _);
      [lia|vm_compute; reflexivity|vm_compute; reflexivity|apply demo_from_encoder; reflexivity|vm_compute; discriminate
      |vm_compute; reflexivity|vm_compute; lia|];
    exists e, m, m', m'', r; split_and!; [vm_compute; reflexivity|vm_compute; reflexivity|vm_compute; reflexivity|exact Htry|exact Hiff]
  end end end.
Defined.
