(* ===== verification/RaptorCheck.v ===== *)
(** The checks that the Raptor decoder makes of its own state in debug builds
    (check.rs and [check_force] of buffer_weight_map.rs), and that they never
    fail. *)

From S2P Require Import Prelude Types ValidatorSet Crypto RaptorTables RaptorCode RaptorCodeProps RaptorEncoderProps.
From S2P Require Import RaptorStructs RaptorSetProps RaptorHeapProps RaptorMatrixProps RaptorDecoder RaptorDecoderInv RaptorDecoderSteps.
From S2P Require Import RaptorDecoderOps RaptorDecoderRecv RaptorDecoderRun RaptorRuns RaptorKernel RaptorProps.

#[local] Open Scope nat_scope.

#[global] Instance DenseMatrix_eq_dec : EqDecision DenseMatrix.
Proof. solve_decision. Defined.

(** * The heap (buffer_weight_map.rs) *)

Definition collect_weight (h : BufferWeightMap) (weights : list (option nat)) (buffer_index : nat) : exec (list (option nat)) :=
  weight ← expect (buffer_index_to_weight h !! buffer_index);
  vec_set weights buffer_index weight.

Definition check_child (h : BufferWeightMap) (weight child : nat) : exec () :=
  if bool_decide (child < length (heap_index_to_buffer_index h)) then
    child_weight ← WeightMap.heap_index_to_weight h child;
    assert (bool_decide (weight <= child_weight))
  else Ret ().

Definition weight_map_check_force (h : BufferWeightMap) : exec () :=
  weights ← foldM (collect_weight h) (replicate (length (buffer_index_to_weight h)) None) (heap_index_to_buffer_index h);
  _ ← assert (bool_decide (buffer_index_to_weight h = weights));
  _ ← foldM (λ _ i, weight ← WeightMap.heap_index_to_weight h i;
                    _ ← check_child h weight (2 * i + 1);
                    check_child h weight (2 * i + 2)) () (seq 0 (length (heap_index_to_buffer_index h)));
  foldM (λ _ i_buffer, place ← expect (buffer_index_to_heap_index h !! i_buffer.2);
                       assert (bool_decide (place = i_buffer.1))) () (imap pair (heap_index_to_buffer_index h)).

(** * The decoder (check.rs) *)

Definition buffer_state_to_mapping (d : Decoder) : exec DenseMatrix :=
  foldM (λ m i_buffer, foldM (λ m j, matrix_set m i_buffer.1 j true) m (intermediate_symbol_ids i_buffer.2))
    (from_element (length (buffer_state d)) (length (intermediate_symbol_state d)) false) (imap pair (buffer_state d)).

Definition intermediate_symbol_state_to_mapping (d : Decoder) : exec DenseMatrix :=
  foldM (λ m j_symbol,
           match j_symbol.2 with
           | Active buffer_indices => foldM (λ m i, matrix_set m i j_symbol.1 true) m buffer_indices
           | Used buffer_index => matrix_set m buffer_index j_symbol.1 true
           | Inactivated buffer_indices => foldM (λ m i, matrix_set m i j_symbol.1 true) m buffer_indices
           end)
    (from_element (length (buffer_state d)) (length (intermediate_symbol_state d)) false) (imap pair (intermediate_symbol_state d)).

Definition check_elements_match (d : Decoder) : exec () :=
  left ← buffer_state_to_mapping d;
  right ← intermediate_symbol_state_to_mapping d;
  assert (bool_decide (left = right)).

(** The identifiers of a buffer whose symbols are not inactivated *)
Definition active_used_ids (d : Decoder) (acc : list nat) (id : nat) : exec (list nat) :=
  symbol ← expect (intermediate_symbol_state d !! id);
  Ret (if negb (is_inactivated symbol) then acc ++ [id] else acc).

Definition check_used (d : Decoder) : exec () :=
  _ ← foldM (λ _ buffer,
               if used buffer then
                 _ ← assert (bool_decide (active_used_weight buffer = 1));
                 ids ← foldM (active_used_ids d) [] (intermediate_symbol_ids buffer);
                 _ ← assert (bool_decide (length ids = 1));
                 first ← expect (ids !! 0);
                 symbol ← expect (intermediate_symbol_state d !! first);
                 assert (is_used symbol)
               else Ret ()) () (buffer_state d);
  foldM (λ _ symbol,
           match is_used_buffer_index symbol with
           | Some buffer_index =>
               buffer ← expect (buffer_state d !! buffer_index);
               assert (bool_decide (state buffer = BufferUsed))
           | None => Ret ()
           end) () (intermediate_symbol_state d).

(** A [BTreeMap] filled by [enumerate] *)
Definition collect_entries (entries : list (nat * nat)) : gmap nat nat := foldl (λ m e, <[e.1 := e.2]> m) ∅ entries.

Definition active_usable_entry (d : Decoder) (m : gmap nat nat) (i_buffer : nat * Buffer) : exec (gmap nat nat) :=
  ids ← foldM (active_used_ids d) [] (intermediate_symbol_ids i_buffer.2);
  _ ← assert (bool_decide (active_used_weight i_buffer.2 = length ids));
  if bool_decide (state i_buffer.2 = BufferActive) || bool_decide (state i_buffer.2 = BufferUsable) then
    i ← to_u16 i_buffer.1; Ret (<[i := length ids]> m)
  else Ret m.
Definition check_active_usable (d : Decoder) : exec () :=
  entries ← WeightMap.enumerate (buffers_active_usable d);
  expected ← foldM (active_usable_entry d) ∅ (imap pair (buffer_state d));
  assert (bool_decide (collect_entries entries = expected)).

Definition inactivated_map_entry (m : gmap nat nat) (i_buffer : nat * Buffer) : exec (gmap nat nat) :=
  if bool_decide (state i_buffer.2 = BufferInactivated) then
    i ← to_u16 i_buffer.1;
    weight ← to_u16 (length (intermediate_symbol_ids i_buffer.2));
    Ret (<[i := weight]> m)
  else Ret m.
Definition check_inactivated (d : Decoder) : exec () :=
  entries ← WeightMap.enumerate (buffers_inactivated d);
  expected ← foldM inactivated_map_entry ∅ (imap pair (buffer_state d));
  assert (bool_decide (collect_entries entries = expected)).

Definition check_num_redundant_buffers (d : Decoder) : exec () :=
  n ← foldM (λ n buffer, if bool_decide (state buffer = BufferRedundant) then to_u16 (S n) else Ret n) 0 (buffer_state d);
  assert (bool_decide (num_redundant_buffers d = n)).

Definition check_num_source_symbols_paired (d : Decoder) : exec () :=
  n ← foldM (λ n buffer,
               if is_paired buffer then
                 first ← first_intermediate_symbol_id buffer;
                 Ret (if bool_decide (first < num_source_symbols (decoder_params d)) then S n else n)
               else Ret n) 0 (buffer_state d);
  assert (bool_decide (num_source_symbols_paired d = n)).

Definition check_force (d : Decoder) : exec () :=
  _ ← check_elements_match d;
  _ ← check_used d;
  _ ← check_active_usable d;
  _ ← check_inactivated d;
  _ ← check_num_redundant_buffers d;
  check_num_source_symbols_paired d.

(** * The checks never fail *)

Lemma foldM_unit {A} (f : () → A → exec ()) l : (∀ x, x ∈ l → f () x = Ret ()) → foldM f () l = Ret ().
Proof.
  induction l as [|x l IH]; intros Hf; [done|]. cbn [foldM]. rewrite Hf by left. cbn [mbind exec_bind]. apply IH. intros y Hy. apply Hf. by right.
Qed.
Lemma lookup_imap_pair {A} (l : list A) i x : imap pair l !! i = Some x → x.1 = i ∧ l !! i = Some x.2.
Proof. rewrite list_lookup_imap. intros (y & Hy & ->)%fmap_Some. done. Qed.
Lemma length_imap_pair {A} (l : list A) : length (imap pair l) = length l.
Proof. apply length_imap. Qed.

Lemma weight_map_check_spec h : heap_ok h → weight_map_check_force h = Ret ().
Proof.
  intros [Hwf Hord]. unfold weight_map_check_force.
  destruct (foldM_inv (λ k ws, length ws = length (buffer_index_to_weight h) ∧
      ∀ b, mjoin (ws !! b) = if decide (b ∈ take k (heap_index_to_buffer_index h)) then wlookup h b else None)
    (collect_weight h) (replicate (length (buffer_index_to_weight h)) None) (heap_index_to_buffer_index h))
    as (ws & -> & Hlen & Hws).
  { rewrite length_replicate. split; [done|]. intros b. rewrite decide_False by apply not_elem_of_nil.
    destruct (replicate _ None !! b) as [x|] eqn:Hx; [|done]. by apply lookup_replicate in Hx as [-> _]. }
  { intros i ws b Hb [Hlen Hws]. destruct (wf_heap h Hwf i b Hb) as ([w Hw] & _). unfold collect_weight, vec_set.
    assert (∃ x, buffer_index_to_weight h !! b = Some x) as [x Hx] by (unfold wlookup in Hw; destruct (buffer_index_to_weight h !! b); [by eexists|done]).
    rewrite Hx. cbn [expect mbind exec_bind]. assert (b < length ws) as Hlt by (rewrite Hlen; by eapply lookup_lt_Some).
    destruct (lookup_lt_is_Some_2 ws b Hlt) as [y ->]. cbn [expect mbind exec_bind]. eexists. split; [done|].
    rewrite length_insert. split; [done|]. intros b'. rewrite (take_S_r _ _ b Hb). destruct (decide (b' = b)) as [->|Hne].
    - rewrite list_lookup_insert_eq, decide_True by (done || set_solver). unfold wlookup. by rewrite Hx.
    - rewrite list_lookup_insert_ne, Hws by done. apply decide_ext. set_solver. }
  cbn [mbind exec_bind]. rewrite take_ge in Hws by done. rewrite bool_decide_true.
  2:{ apply list_eq. intros b. specialize (Hws b).
      assert (mjoin (ws !! b) = wlookup h b) as Heq.
      { rewrite Hws. case_decide as Hin; [done|]. destruct (wlookup h b) eqn:Hw; [|done].
        destruct (wf_places h Hwf b) as [i Hi]; [by eexists|]. destruct Hin. by eapply list_elem_of_lookup_2. }
      unfold wlookup in Heq. destruct (decide (b < length ws)) as [Hb|Hb].
      - destruct (lookup_lt_is_Some_2 ws b Hb) as [x Hx]. destruct (lookup_lt_is_Some_2 (buffer_index_to_weight h) b) as [y Hy]; [lia|].
        rewrite Hx, Hy in *. simpl in Heq. by rewrite Heq.
      - by rewrite !lookup_ge_None_2 by lia. }
  cbn [assert mbind exec_bind].
  assert (∀ i, i < length (heap_index_to_buffer_index h) → WeightMap.heap_index_to_weight h i = Ret (wt h i)) as Hweight.
  { intros i Hi. destruct (lookup_lt_is_Some_2 (heap_index_to_buffer_index h) i Hi) as [b Hb]. destruct (wf_heap h Hwf i b Hb) as ([w Hw] & _).
    unfold WeightMap.heap_index_to_weight. rewrite Hb. cbn [expect mbind exec_bind]. rewrite (weight_of_spec h b w Hw). unfold wt. rewrite Hb. simpl. by rewrite Hw. }
  rewrite (foldM_unit _ (seq 0 _)).
  - cbn [mbind exec_bind]. apply foldM_unit. intros [i b] (k & Hk)%list_elem_of_lookup. apply lookup_imap_pair in Hk as [Hi Hb]. simpl in Hi, Hb. subst k.
    destruct (wf_heap h Hwf i b Hb) as (_ & Hp & _). simpl. rewrite Hp. cbn [expect mbind exec_bind]. by rewrite bool_decide_true.
  - intros i [_ Hi]%elem_of_seq. rewrite Hweight by done. cbn [mbind exec_bind]. unfold check_child.
    assert (∀ c, c = 2 * i + 1 ∨ c = 2 * i + 2 → (if bool_decide (c < length (heap_index_to_buffer_index h)) then
      child_weight ← WeightMap.heap_index_to_weight h c; assert (bool_decide (wt h i <= child_weight)) else Ret ()) = Ret ()) as Hc.
    { intros c Hc. case_bool_decide as Hlt; [|done]. rewrite Hweight by done. cbn [mbind exec_bind]. rewrite bool_decide_true; [done|].
      assert (parent c = i) as <- by (apply parent_children; lia). apply Hord. lia. }
    rewrite !Hc by auto. done.
Qed.

(** ** The two mappings *)

Section mapping.
Context (nr nc : nat).

(** Cells set one after the other *)
Lemma mark_cells (cells : list (nat * nat)) m :
  dense_ok nr nc m → (∀ i j, (i, j) ∈ cells → i < nr ∧ j < nc) →
  ∃ m', foldM (λ m c, matrix_set m c.1 c.2 true) m cells = Ret m' ∧ dense_ok nr nc m' ∧
    ∀ i j, j < nc → entry m' i j = entry m i j || bool_decide ((i, j) ∈ cells).
Proof.
  revert m. induction cells as [|[i0 j0] cells IH]; intros m Hm Hin; cbn [foldM].
  { exists m. split; [done|]. split; [done|]. intros i j _. rewrite bool_decide_false by apply not_elem_of_nil. by rewrite orb_false_r. }
  destruct (Hin i0 j0) as [Hi Hj]; [left|]. cbn [fst snd].
  destruct (matrix_set_spec nr nc m i0 j0 true Hm Hi Hj) as (m1 & -> & Hm1 & He1). cbn [mbind exec_bind].
  destruct (IH m1 Hm1) as (m' & -> & Hm' & He'); [intros i j H; apply Hin; by right|]. exists m'. split; [done|]. split; [done|].
  intros i j Hjn. rewrite He', He1 by done. case_decide as Heq.
  - destruct Heq as [-> ->]. rewrite (bool_decide_true ((i0, j0) ∈ (i0, j0) :: cells)) by left. by rewrite orb_true_r.
  - f_equal. apply bool_decide_ext. rewrite elem_of_cons. split; [tauto|]. intros [[= -> ->]|?]; tauto.
Qed.

Lemma foldM_map {A B D} (f : B → A → exec B) (g : D → A) b l : foldM f b (map g l) = foldM (λ b x, f b (g x)) b l.
Proof. revert b. induction l as [|x l IH]; intros b; [done|]. cbn [foldM map]. destruct (f b (g x)); [apply IH|done..]. Qed.
Lemma foldM_concat {A B} (f : B → A → exec B) b ls : foldM f b (concat ls) = foldM (λ b l, foldM f b l) b ls.
Proof.
  revert b. induction ls as [|l ls IH]; intros b; [done|]. cbn [concat foldM]. rewrite foldM_app. by destruct (foldM f b l); [apply IH|..].
Qed.
Lemma foldM_ext {A B} (f g : B → A → exec B) b l : (∀ b x, f b x = g b x) → foldM f b l = foldM g b l.
Proof. intros H. revert b. induction l as [|x l IH]; intros b; [done|]. cbn [foldM]. rewrite H. by destruct (g b x); [apply IH|..]. Qed.

Lemma dense_eq m m' :
  dense_ok nr nc m → dense_ok nr nc m' → (∀ i j, j < nc → entry m i j = entry m' i j) → m = m'.
Proof.
  intros (Hr & Hc & Hl) (Hr' & Hc' & Hl') He. destruct m as [da r c], m' as [da' r' c']. simpl in *. subst. f_equal.
  apply list_eq. intros k. destruct (decide (k < length da)) as [Hk|Hk].
  - assert (nc ≠ 0) as Hnc by (intros ->; lia). specialize (He (k / nc) (k mod nc) ltac:(by apply Nat.mod_upper_bound)).
    unfold entry in He. simpl in He. replace (k / nc * nc + k mod nc) with k in He by (pose proof (Nat.div_mod_eq k nc); lia).
    destruct (lookup_lt_is_Some_2 da k) as [x Hx]; [lia|]. destruct (lookup_lt_is_Some_2 da' k) as [y Hy]; [lia|].
    rewrite Hx, Hy in *. simpl in He. by rewrite He.
  - by rewrite !lookup_ge_None_2 by lia.
Qed.
End mapping.

Lemma elements_match_spec d : struct_ok d 0 [] false → check_elements_match d = Ret ().
Proof.
  intros Hst. set (nr := length (buffer_state d)). set (nc := length (intermediate_symbol_state d)).
  set (cells1 := concat (map (λ ib : nat * Buffer, map (λ j, (ib.1, j)) (intermediate_symbol_ids ib.2)) (imap pair (buffer_state d)))).
  set (cells2 := concat (map (λ js : nat * IntermediateSymbol, map (λ i, (i, js.1)) (sym_buffers js.2)) (imap pair (intermediate_symbol_state d)))).
  assert (∀ i j, (i, j) ∈ cells1 ↔ ∃ buf, buffer_state d !! i = Some buf ∧ j ∈ intermediate_symbol_ids buf) as Hcells1.
  { intros i j. unfold cells1. rewrite elem_of_concat_map. split.
    - intros ([i' buf] & (k & Hk)%list_elem_of_lookup & (j' & [= -> ->] & Hj)%list_elem_of_fmap).
      apply lookup_imap_pair in Hk as [Hi Hb]. simpl in *. subst. by exists buf.
    - intros (buf & Hb & Hj). exists (i, buf). split; [|apply list_elem_of_fmap; by exists j].
      apply (list_elem_of_lookup_2 _ i). rewrite list_lookup_imap, Hb. done. }
  assert (∀ i j, (i, j) ∈ cells2 ↔ holds (intermediate_symbol_state d) j i) as Hcells2.
  { intros i j. unfold cells2. rewrite elem_of_concat_map. split.
    - intros ([j' sym] & (k & Hk)%list_elem_of_lookup & (i' & [= -> ->] & Hi)%list_elem_of_fmap).
      apply lookup_imap_pair in Hk as [Hj Hb]. simpl in *. subst. by exists sym.
    - intros (sym & Hs & Hi). exists (j, sym). split; [|apply list_elem_of_fmap; by exists i].
      apply (list_elem_of_lookup_2 _ j). rewrite list_lookup_imap, Hs. done. }
  assert (∀ i j, (i, j) ∈ cells1 ↔ (i, j) ∈ cells2) as Hsame.
  { intros i j. rewrite Hcells1, Hcells2. split.
    - intros (buf & Hb & Hj). apply (st_match _ _ _ _ Hst i j buf Hb) in Hj as [?|[_ ?%elem_of_nil]]; [done|done|]. by eapply id_lt.
    - intros Hh. destruct (lookup_lt_is_Some_2 (buffer_state d) i) as [buf Hb]; [by eapply st_range|]. exists buf. split; [done|].
      apply (st_match _ _ _ _ Hst i j buf Hb); [by eapply holds_lt|]. by left. }
  assert (∀ i j, (i, j) ∈ cells1 → i < nr ∧ j < nc) as Hrange1.
  { intros i j Hc. split; [by apply Hsame, Hcells2, (st_range _ _ _ _ Hst) in Hc|].
    apply Hcells1 in Hc as (buf & Hb & Hj). unfold nc. rewrite (st_length _ _ _ _ Hst). by eapply id_lt. }
  assert (dense_ok nr nc (from_element nr nc false)) as Hm0 by (split_and!; simpl; [done..|]; by rewrite length_replicate).
  destruct (mark_cells nr nc cells1 _ Hm0 Hrange1) as (m1 & Hf1 & Hm1 & He1).
  destruct (mark_cells nr nc cells2 _ Hm0) as (m2 & Hf2 & Hm2 & He2); [intros i j Hc%Hsame; by apply Hrange1|].
  unfold check_elements_match.
  assert (buffer_state_to_mapping d = Ret m1) as ->.
  { rewrite <-Hf1. unfold buffer_state_to_mapping, cells1. fold nr nc. rewrite foldM_concat, foldM_map. apply foldM_ext. intros m [i buf]. by rewrite foldM_map. }
  assert (intermediate_symbol_state_to_mapping d = Ret m2) as ->.
  { rewrite <-Hf2. unfold intermediate_symbol_state_to_mapping, cells2. fold nr nc. rewrite foldM_concat, foldM_map. apply foldM_ext.
    intros m [j sym]. rewrite foldM_map. destruct sym as [l|l|b]; simpl; [done..|]. by destruct (matrix_set m b j true). }
  cbn [mbind exec_bind]. rewrite bool_decide_true; [done|]. apply (dense_eq nr nc); [done..|].
  intros i j Hj. rewrite He1, He2 by done. f_equal. by apply bool_decide_ext.
Qed.

(** ** The other checks *)

Lemma active_used_ids_spec d ids :
  (∀ s, s ∈ ids → is_Some (intermediate_symbol_state d !! s)) →
  foldM (active_used_ids d) [] ids = Ret (filter (λ s, noninact (intermediate_symbol_state d) s = true) ids).
Proof.
  induction ids as [|s ids IH] using rev_ind; intros Hs; [done|].
  rewrite foldM_app, IH by (intros t Ht; apply Hs, elem_of_app; by left). cbn [mbind exec_bind foldM].
  destruct (Hs s) as [sym Hsym]; [apply elem_of_app; right; left|]. unfold active_used_ids. rewrite Hsym. cbn [expect mbind exec_bind].
  rewrite filter_app, filter_cons.
  assert (noninact (intermediate_symbol_state d) s = negb (is_inactivated sym)) as -> by (unfold noninact; rewrite Hsym; by destruct sym).
  destruct (is_inactivated sym); simpl; [by rewrite app_nil_r|done].
Qed.

Lemma check_used_spec d : struct_ok d 0 [] false → check_used d = Ret ().
Proof.
  intros Hst. unfold check_used. rewrite (foldM_unit _ (buffer_state d)).
  - cbn [mbind exec_bind]. apply foldM_unit. intros sym (s & Hs)%list_elem_of_lookup. destruct (is_used_buffer_index sym) as [b|] eqn:Hb; [|done].
    destruct sym; try done. injection Hb as ->. destruct (st_used_sym _ _ _ _ Hst s b Hs) as (buf & Hbuf & Hu). rewrite Hbuf. cbn [expect mbind exec_bind].
    rewrite bool_decide_true; [done|]. destruct (st_used _ _ _ _ Hst b buf Hbuf Hu) as [Hw _].
    destruct (state_spec buf) as [[? Hx]|[(? & ? & Hx)|[(? & ? & Hx)|[(? & ? & Hx)|(? & ? & Hx)]]]]; congruence || lia.
  - intros buf (b & Hb)%list_elem_of_lookup. destruct (used buf) eqn:Hu; [|done].
    destruct (st_used _ _ _ _ Hst b buf Hb Hu) as [Hw _]. rewrite (bool_decide_true (active_used_weight buf = 1)) by done. cbn [assert mbind exec_bind].
    rewrite active_used_ids_spec by (intros s Hs; by eapply id_sym). cbn [mbind exec_bind].
    destruct (used_symbol d 0 [] false Hst b buf Hb Hu) as (s & Hsu & Hin & Hone).
    assert (filter (λ s, noninact (intermediate_symbol_state d) s = true) (intermediate_symbol_ids buf) = [s]) as ->.
    { apply Permutation_singleton_r, NoDup_Permutation; [|apply NoDup_singleton|].
      - by apply NoDup_filter, strict_NoDup, (st_ids _ _ _ _ Hst b buf Hb).
      - intros x. rewrite list_elem_of_filter, list_elem_of_singleton. split.
        + intros [Hn Hx]. apply Hone; [done|]. by rewrite counted_none.
        + intros ->. split; [|done]. unfold noninact. by rewrite Hsu. }
    simpl. by rewrite Hsu.
Qed.

Lemma collect_entries_spec l b w : NoDup l.*1 → collect_entries l !! b = Some w ↔ (b, w) ∈ l.
Proof.
  unfold collect_entries. induction l as [|[b' w'] l IH] using rev_ind; intros Hnd.
  { cbn [foldl]. rewrite lookup_empty, elem_of_nil. by split. }
  rewrite foldl_app. cbn [foldl fst snd]. rewrite fmap_app in Hnd. apply NoDup_app in Hnd as (Hnd & Hdis & _).
  rewrite lookup_insert_Some, IH, elem_of_app, list_elem_of_singleton by done. split.
  - intros [[-> ->]|[_ ?]]; [by right|by left].
  - intros [Hin|[= -> ->]]; [|by left]. right. split; [|done]. intros <-. apply (Hdis b'); [|by left].
    apply list_elem_of_fmap. by exists (b', w).
Qed.

(** A map built over the buffers in order *)
Lemma buffer_map_spec (f : gmap nat nat → nat * Buffer → exec (gmap nat nat)) (g : Buffer → option nat) (bufs : list Buffer) :
  (∀ i buf m, bufs !! i = Some buf → f m (i, buf) = Ret (match g buf with Some w => <[i := w]> m | None => m end)) →
  ∃ m, foldM f ∅ (imap pair bufs) = Ret m ∧ ∀ b, m !! b = bufs !! b ≫= g.
Proof.
  intros Hf. destruct (foldM_inv (λ k m, ∀ b, m !! b = if decide (b < k) then bufs !! b ≫= g else None) f ∅ (imap pair bufs)) as (m & Hm & Hl).
  - intros b. rewrite decide_False by lia. apply lookup_empty.
  - intros i m [i' buf] Hi Hl. apply lookup_imap_pair in Hi as [Hi Hb]. simpl in Hi, Hb. subst i'. rewrite (Hf i buf m Hb). eexists. split; [done|].
    intros b. destruct (decide (b = i)) as [->|Hne].
    + rewrite decide_True, Hb by lia. simpl. destruct (g buf) as [w|]; [apply lookup_insert_eq|]. rewrite Hl. by rewrite decide_False by lia.
    + assert (m !! b = if decide (b < S i) then bufs !! b ≫= g else None) as Hmb.
      { rewrite Hl. apply decide_ext. lia. }
      destruct (g buf); [by rewrite lookup_insert_ne|done].
  - exists m. split; [done|]. intros b. rewrite Hl, length_imap_pair. case_decide; [done|]. by rewrite lookup_ge_None_2 by lia.
Qed.

(** The entries of a heap are those of the map. *)
Lemma heap_entries_spec h m :
  heap_ok h → (∀ b, m !! b = wlookup h b) → ∃ l, WeightMap.enumerate h = Ret l ∧ collect_entries l = m.
Proof.
  intros [Hwf _] Hm. destruct (enumerate_spec h Hwf) as (l & -> & Hnd & Hin & _). exists l. split; [done|]. apply map_eq. intros b.
  apply option_eq. intros w. by rewrite collect_entries_spec, Hin, Hm.
Qed.

Lemma check_active_usable_spec d : struct_ok d 0 [] false → book d [] 0 → check_active_usable d = Ret ().
Proof.
  intros Hst Hbk. unfold check_active_usable.
  destruct (buffer_map_spec (active_usable_entry d) act_w (buffer_state d)) as (m & Hm & Hl).
  { intros i buf m Hb. unfold active_usable_entry. cbn [fst snd]. rewrite active_used_ids_spec by (intros s Hs; by eapply id_sym). cbn [mbind exec_bind].
    pose proof (st_weight _ _ _ _ Hst i buf Hb) as Hw. rewrite (wcount_ext _ (noninact (intermediate_symbol_state d))) in Hw by (intros s _; apply counted_none).
    unfold wcount in Hw. rewrite <-Hw, (bool_decide_true (active_used_weight buf = active_used_weight buf)) by done. cbn [assert mbind exec_bind]. unfold act_w.
    pose proof (bk_length _ _ _ Hbk) as Hlen. apply lookup_lt_Some in Hb. rewrite (to_u16_ok i) by lia.
    destruct (state buf); done. }
  destruct (heap_entries_spec (buffers_active_usable d) m) as (l & -> & Hcol); [apply Hbk|intros b; by rewrite Hl, (bk_act _ _ _ Hbk)|].
  cbn [mbind exec_bind]. rewrite Hm. cbn [mbind exec_bind]. by rewrite bool_decide_true.
Qed.

Lemma check_inactivated_spec d : struct_ok d 0 [] false → book d [] 0 → check_inactivated d = Ret ().
Proof.
  intros Hst Hbk. unfold check_inactivated.
  destruct (buffer_map_spec inactivated_map_entry ina_w (buffer_state d)) as (m & Hm & Hl).
  { intros i buf m Hb. unfold inactivated_map_entry, ina_w. cbn [fst snd]. pose proof (ids_length d 0 [] false Hst i buf Hb) as Hids.
    pose proof (bk_length _ _ _ Hbk) as Hlen. apply lookup_lt_Some in Hb. rewrite (to_u16_ok i), (to_u16_ok (length _)) by lia.
    destruct (state buf); done. }
  destruct (heap_entries_spec (buffers_inactivated d) m) as (l & -> & Hcol).
  { apply Hbk. } { intros b. by rewrite Hl, (bk_ina _ _ _ Hbk) by apply not_elem_of_nil. }
  cbn [mbind exec_bind]. rewrite Hm. cbn [mbind exec_bind]. by rewrite bool_decide_true.
Qed.

(** A counter over the buffers *)
Lemma buffer_count_spec (f : nat → Buffer → exec nat) (g : Buffer → bool) bufs :
  (∀ k n buf, bufs !! k = Some buf → n <= k → f n buf = Ret (n + b2n (g buf))) →
  foldM f 0 bufs = Ret (count (λ _, g) bufs).
Proof.
  intros Hf. assert (∀ k, k <= length bufs → foldM f 0 (take k bufs) = Ret (count (λ _, g) (take k bufs))) as Hk.
  { induction k as [|k IH]; intros Hk; [done|]. destruct (lookup_lt_is_Some_2 bufs k) as [buf Hb]; [lia|].
    rewrite (take_S_r _ _ buf Hb), foldM_app, IH by lia. cbn [mbind exec_bind foldM].
    pose proof (count_le (λ _, g) 0 (take k bufs)) as Hle. rewrite length_take in Hle.
    rewrite (Hf k) by (done || lia). cbn [mbind exec_bind]. by rewrite count_snoc. }
  specialize (Hk (length bufs)). rewrite take_ge in Hk by done. by apply Hk.
Qed.

Lemma check_redundant_spec d : book d [] 0 → check_num_redundant_buffers d = Ret ().
Proof.
  intros Hbk. unfold check_num_redundant_buffers. pose proof (bk_length _ _ _ Hbk) as Hlen.
  rewrite (buffer_count_spec _ red).
  - cbn [mbind exec_bind]. rewrite bool_decide_true; [done|]. rewrite (bk_red _ _ _ Hbk). apply count_ext. intros b buf _.
    by rewrite (bool_decide_true (b ∉ [])), andb_true_r by apply not_elem_of_nil.
  - intros k n buf Hb Hn. apply lookup_lt_Some in Hb. unfold red. rewrite to_u16_ok by lia. case_bool_decide; f_equal; simpl; lia.
Qed.

Lemma check_paired_spec d : book d [] 0 → check_num_source_symbols_paired d = Ret ().
Proof.
  intros Hbk. unfold check_num_source_symbols_paired.
  rewrite (buffer_count_spec _ (paired (num_source_symbols (decoder_params d)))).
  - cbn [mbind exec_bind]. rewrite bool_decide_true; [done|]. pose proof (bk_paired _ _ _ Hbk) as Hp. rewrite Nat.add_0_r in Hp. exact Hp.
  - intros k n buf Hb _. unfold paired, is_paired, first_intermediate_symbol_id, OrderedSet.first.
    case_bool_decide as Hs; cbn [andb]; [|simpl; f_equal; lia]. destruct (intermediate_symbol_ids buf) as [|s [|]]; cbn [length];
      [rewrite bool_decide_false by done; simpl; f_equal; lia| |rewrite bool_decide_false by done; simpl; f_equal; lia].
    rewrite bool_decide_true by done. simpl. case_bool_decide; simpl; f_equal; lia.
Qed.

Lemma check_force_ready n d st :
  ready n d st → check_force d = Ret () ∧ weight_map_check_force (buffers_active_usable d) = Ret () ∧
    weight_map_check_force (buffers_inactivated d) = Ret ().
Proof.
  intros [Hst Hbk _]. split; [|split; apply weight_map_check_spec; apply Hbk].
  unfold check_force. rewrite elements_match_spec, check_used_spec, check_active_usable_spec, check_inactivated_spec, check_redundant_spec by done.
  by apply check_paired_spec.
Qed.

(** C9. The checks of debug builds never fail: after any run, the buffers and the
    symbols agree, the used buffers and the weights are what the symbols say, the
    two heaps hold exactly the buffers in their states, and the counters count. *)
Theorem decoder_checks_pass k n m m' evs :
  managed_new k n = Ret (Some m) → Forall (symbol_event_ok n) evs →
  (Z.of_nat (length (buffer_state (decoder m)) + length (received evs)) <= 65535)%Z →
  run m evs = Ret m' →
  check_force (decoder m') = Ret () ∧ weight_map_check_force (buffers_active_usable (decoder m')) = Ret () ∧
  weight_map_check_force (buffers_inactivated (decoder m')) = Ret ().
Proof.
  intros Hnew Hevs Hroom Hrun. destruct (new_ok n k m Hnew) as (p & _ & Hm).
  destruct (run_spec n k p [] m evs Hm Hevs Hroom) as (m1 & Hrun1 & [Hr _ _ _ _ _ _]). rewrite Hrun in Hrun1. injection Hrun1 as <-.
  by eapply check_force_ready.
Qed.

Lemma decoder_checks_pass_witness :
  ∃ m m', managed_new 4 2 = Ret (Some m) ∧ run m [Received 9 [255; 0]; TryDecode; Received 9 [1; 2]]%Z = Ret m' ∧
    check_force (decoder m') = Ret ().
Proof.
  let m := eval vm_compute in (managed_new 4 2) in match m with Ret (Some ?m) =>
  let m' := eval vm_compute in (run m [Received 9 [255; 0]; TryDecode; Received 9 [1; 2]]%Z) in match m' with Ret ?m' =>
    destruct (decoder_checks_pass 4 2 m m' [Received 9 [255; 0]; TryDecode; Received 9 [1; 2]]%Z) as [Hc _];
      [vm_compute; reflexivity|repeat constructor|vm_compute; discriminate|vm_compute; reflexivity|];
    exists m, m'; split; [vm_compute; reflexivity|split; [vm_compute; reflexivity|exact Hc]]
  end end.
Defined.
