(* ===== verification/F64.v ===== *)
(** Binary floating point at 64 bits: the operations on numbers that are finite
    and not negative, rounded to the nearest, ties to even. *)

From S2P Require Import Prelude.

#[local] Open Scope Z_scope.

(** Every finite number is a multiple of the least one, [2 ^ -1074], and is
    represented by this multiple. *)
Notation f64 := Z (only parsing).
Definition F64_ONE : f64 := 2 ^ 1074.

(** The float nearest to [p / q] multiples: 53 bits are kept. *)
Definition f64_round (p q : Z) : f64 :=
  let k := Z.max 0 (Z.log2 (p / q) - 52) in
  let d := q * 2 ^ k in
  let m := p / d in
  let r := p mod d in
  (if bool_decide (2 * r < d) then m
   else if bool_decide (d < 2 * r) then m + 1
   else if Z.even m then m else m + 1) * 2 ^ k.

(** [n as f64] *)
Definition f64_of_int (n : Z) : f64 := f64_round (n * F64_ONE) 1.
Definition f64_div (a b : f64) : f64 := f64_round (a * F64_ONE) b.
Definition f64_mul (a b : f64) : f64 := f64_round (a * b) F64_ONE.
(** [a as u64]: truncated and saturated. *)
Definition f64_as_u64 (a : f64) : Z := Z.min u64_max (a / F64_ONE).

(** * Rounding is monotone and exact on what can be represented *)

Lemma f64_one_pos : 0 < F64_ONE.
Proof. done. Qed.
#[global] Opaque F64_ONE.

(** Rounding to a multiple of [d]. *)
Definition round_half_even (p d : Z) : Z :=
  let m := p / d in
  let r := p mod d in
  if bool_decide (2 * r < d) then m else if bool_decide (d < 2 * r) then m + 1 else if Z.even m then m else m + 1.

Lemma round_half_even_bounds p d : 0 < d → 2 * p - d <= 2 * d * round_half_even p d <= 2 * p + d.
Proof.
  intros Hd. unfold round_half_even. pose proof (Z.div_mod p d). pose proof (Z.mod_pos_bound p d Hd).
  repeat case_bool_decide; try destruct (Z.even _); nia.
Qed.

Lemma round_half_even_floor p d : 0 < d → p / d <= round_half_even p d <= p / d + 1.
Proof. intros Hd. unfold round_half_even. repeat case_bool_decide; try destruct (Z.even _); lia. Qed.

Lemma round_half_even_exact m d : 0 < d → round_half_even (m * d) d = m.
Proof. intros Hd. unfold round_half_even. rewrite Z.div_mul, Z.mod_mul, bool_decide_true by lia. done. Qed.

(** The same number as a fraction of another denominator. *)
Lemma round_half_even_mono p d p' d' :
  0 < d → 0 < d' → p * d' <= p' * d → round_half_even p d <= round_half_even p' d'.
Proof.
  intros Hd Hd' Hle. destruct (Z.le_gt_cases (round_half_even p d) (round_half_even p' d')) as [|Hgt]; [done|exfalso].
  pose proof (round_half_even_bounds p d Hd) as Hb. pose proof (round_half_even_bounds p' d' Hd') as Hb'.
  set (x := round_half_even p d) in *. set (y := round_half_even p' d') in *.
  (* 2 x <= 2 p / d + 1 and 2 p' / d' - 1 <= 2 y: a tie on both sides *)
  assert (2 * d * x * d' <= (2 * p + d) * d') as H1 by (apply Z.mul_le_mono_nonneg_r; lia).
  assert ((2 * p' - d') * d <= 2 * d' * y * d) as H2 by (apply Z.mul_le_mono_nonneg_r; lia).
  assert (0 < d * d') as Hdd by nia.
  assert (x = y + 1) as Hxy by (apply Z.le_antisymm; [|lia]; apply (Z.mul_le_mono_pos_l _ _ (2 * (d * d'))); lia).
  rewrite Hxy in *.
  assert (2 * p = (2 * y + 1) * d ∧ 2 * p' = (2 * y + 1) * d') as [Hp Hp'].
  { split; apply Z.le_antisymm; try lia.
    - apply (Z.mul_le_mono_pos_r _ _ d'); lia.
    - apply (Z.mul_le_mono_pos_r _ _ d); lia. }
  assert (∀ q e, 0 < e → 2 * q = (2 * y + 1) * e → round_half_even q e = if Z.even y then y else y + 1) as Htie.
  { intros q e He Hq. assert (q = y * e + (q - y * e)) as Heq by lia.
    assert (q / e = y) as Hdiv by (symmetry; apply (Z.div_unique_pos q e y (q - y * e)); lia).
    assert (q mod e = q - y * e) as Hmod by (symmetry; apply (Z.mod_unique_pos q e y); lia).
    unfold round_half_even. rewrite Hdiv, Hmod, !bool_decide_false by lia. done. }
  pose proof (Htie p d Hd Hp) as Hx. pose proof (Htie p' d' Hd' Hp') as Hy. fold x in Hx. fold y in Hy. lia.
Qed.

Lemma f64_round_eq p q : f64_round p q = round_half_even p (q * 2 ^ Z.max 0 (Z.log2 (p / q) - 52)) * 2 ^ Z.max 0 (Z.log2 (p / q) - 52).
Proof. done. Qed.

Lemma f64_round_nonneg p q : 0 <= p → 0 < q → 0 <= f64_round p q.
Proof.
  intros Hp Hq. rewrite f64_round_eq. set (k := Z.max 0 _). pose proof (Z.pow_pos_nonneg 2 k) as Hk.
  pose proof (round_half_even_floor p (q * 2 ^ k) ltac:(nia)) as Hf. pose proof (Z.div_pos p (q * 2 ^ k)). nia.
Qed.

(** A number of 53 bits and an exponent is kept. *)
Lemma f64_round_exact m k q : 0 < q → 0 <= m < 2 ^ 53 → 0 <= k → f64_round (m * 2 ^ k * q) q = m * 2 ^ k.
Proof.
  intros Hq Hm Hk. rewrite f64_round_eq. rewrite Z.div_mul by lia.
  destruct (decide (m = 0)) as [->|Hm0]; [|].
  { rewrite !Z.mul_0_l. change (Z.max 0 (Z.log2 0 - 52)) with 0. 
    by rewrite (round_half_even_exact 0 (q * 2 ^ 0) ltac:(lia) : round_half_even 0 _ = 0). }
  set (j := Z.max 0 _). assert (j <= k) as Hj.
  { unfold j. rewrite Z.log2_mul_pow2 by lia. assert (Z.log2 m < 53) by (apply Z.log2_lt_pow2; lia). lia. }
  assert (0 <= j) by (unfold j; lia). pose proof (Z.pow_pos_nonneg 2 j). pose proof (Z.pow_pos_nonneg 2 (k - j)).
  replace k with ((k - j) + j) by lia. rewrite Z.pow_add_r by lia.
  replace (m * (2 ^ (k - j) * 2 ^ j) * q) with ((m * 2 ^ (k - j)) * (q * 2 ^ j)) by lia.
  rewrite round_half_even_exact by nia. lia.
Qed.

Lemma f64_round_mono p q p' q' : 0 <= p → 0 <= p' → 0 < q → 0 < q' → p * q' <= p' * q → f64_round p q <= f64_round p' q'.
Proof.
  intros Hp Hp' Hq Hq' Hle. rewrite !f64_round_eq.
  assert (p / q <= p' / q') as Hdiv.
  { apply Z.div_le_lower_bound; [done|]. pose proof (Z.mul_div_le p q Hq). nia. }
  pose proof (Z.log2_le_mono _ _ Hdiv) as Hlog. pose proof (Z.div_pos p q Hp Hq) as Hfl.
  set (k := Z.max 0 (Z.log2 (p / q) - 52)). set (k' := Z.max 0 (Z.log2 (p' / q') - 52)).
  assert (0 <= k <= k') as Hk by (unfold k, k'; lia).
  pose proof (Z.pow_pos_nonneg 2 k) as Hpk. pose proof (Z.pow_pos_nonneg 2 k') as Hpk'.
  destruct (decide (k = k')) as [Heq|Hne].
  { rewrite <-Heq. apply Z.mul_le_mono_nonneg_r; [lia|]. apply round_half_even_mono; nia. }
  (* below [2 ^ (53 + k)] on one side, above [2 ^ (52 + k')] on the other *)
  assert (p / q < 2 ^ (53 + k)) as Hlt.
  { destruct (Z.le_gt_cases (p / q) 0) as [H0|H0]; [pose proof (Z.pow_pos_nonneg 2 (53 + k)); lia|].
    apply Z.log2_lt_pow2; [lia|]. unfold k. lia. }
  assert (2 ^ (52 + k') <= p' / q') as Hge.
  { assert (0 < p' / q') by (destruct (Z.le_gt_cases (p' / q') 0); [|lia]; unfold k' in Hne; rewrite Z.log2_nonpos in Hne by lia; unfold k, k' in *; rewrite (Z.log2_nonpos (p' / q')) in * by lia; lia).
    apply Z.log2_le_pow2; [done|]. unfold k' in *. lia. }
  assert (p / (q * 2 ^ k) < 2 ^ 53) as Hlt'.
  { rewrite <-Z.div_div by lia. apply Z.div_lt_upper_bound; [lia|]. by rewrite <-Z.pow_add_r, Z.add_comm by lia. }
  assert (2 ^ 52 <= p' / (q' * 2 ^ k')) as Hge'.
  { rewrite <-Z.div_div by lia. apply Z.div_le_lower_bound; [lia|]. by rewrite <-Z.pow_add_r, Z.add_comm by lia. }
  pose proof (round_half_even_floor p (q * 2 ^ k) ltac:(nia)). pose proof (round_half_even_floor p' (q' * 2 ^ k') ltac:(nia)).
  assert (2 ^ 53 * 2 ^ k <= 2 ^ 52 * 2 ^ k').
  { rewrite <-!Z.pow_add_r by lia. apply Z.pow_le_mono_r; lia. }
  nia.
Qed.

(** ** Shares of a whole *)

Lemma f64_one_eq : F64_ONE = 2 ^ 1074.
Proof. reflexivity. Qed.

Lemma f64_of_int_exact n : 0 <= n < 2 ^ 53 → f64_of_int n = n * F64_ONE.
Proof. intros Hn. unfold f64_of_int. rewrite f64_one_eq. pose proof (f64_round_exact n 1074 1 ltac:(lia) Hn ltac:(lia)) as He. by rewrite Z.mul_1_r in He. Qed.

Lemma f64_div_self a : 0 < a → f64_div a a = F64_ONE.
Proof. intros Ha. unfold f64_div. rewrite f64_one_eq. replace (a * 2 ^ 1074) with (1 * 2 ^ 1074 * a) by lia. rewrite f64_round_exact by lia. lia. Qed.

Lemma f64_mul_one n : 0 <= n < 2 ^ 53 → f64_mul (f64_of_int n) F64_ONE = n * F64_ONE.
Proof.
  intros Hn. rewrite f64_of_int_exact by done. unfold f64_mul. rewrite f64_one_eq. by apply f64_round_exact.
Qed.

Lemma f64_as_u64_int n : 0 <= n <= u64_max → f64_as_u64 (n * F64_ONE) = n.
Proof. intros Hn. unfold f64_as_u64. rewrite Z.div_mul by (pose proof f64_one_pos; lia). lia. Qed.

Lemma f64_div_mono a a' b : 0 <= a <= a' → 0 < b → f64_div a b <= f64_div a' b.
Proof. intros Ha Hb. pose proof f64_one_pos. unfold f64_div. apply f64_round_mono; try nia. apply Z.mul_le_mono_nonneg_r; [lia|]. apply Z.mul_le_mono_nonneg_r; lia. Qed.

Lemma f64_mul_mono a b b' : 0 <= a → 0 <= b <= b' → f64_mul a b <= f64_mul a b'.
Proof. intros Ha Hb. pose proof f64_one_pos. unfold f64_mul. apply f64_round_mono; try nia. apply Z.mul_le_mono_nonneg_r; [lia|]. apply Z.mul_le_mono_nonneg_l; lia. Qed.

Lemma f64_as_u64_mono a b : a <= b → f64_as_u64 a <= f64_as_u64 b.
Proof. intros Hab. unfold f64_as_u64. pose proof (Z.div_le_mono a b F64_ONE f64_one_pos Hab). lia. Qed.
