(* ===== verification/RaptorcastGroups.v ===== *)
(** The groups of nodes that chunks are sent to, and the redundancy they are sent
    with (src/monad-raptorcast/src/util.rs). *)

From S2P Require Import Prelude Types ValidatorSet Crypto Merkle.

#[local] Open Scope Z_scope.

Definition usize_max : Z := u64_max.

(** * Validators of an epoch *)

Record EpochValidators := mkEpochValidators { validators : gmap NodeId Stake }.

(** A view of the validators of an epoch without some of them. *)
Record ValidatorsView := mkValidatorsView { view : gmap NodeId Stake; without : gset NodeId }.

Definition view_without (v : EpochValidators) (without : list NodeId) : ValidatorsView :=
  mkValidatorsView (validators v) (list_to_set without).
Definition epoch_validators_get (v : EpochValidators) (node_id : NodeId) : option Stake := validators v !! node_id.

Definition view_iter (v : ValidatorsView) : list (NodeId * Stake) :=
  filter (λ kv : NodeId * Stake, kv.1 ∉ without v) (btree_iter (view v)).
Definition view_iter_nodes (v : ValidatorsView) : list NodeId :=
  filter (λ id, id ∉ without v) (btree_keys (view v)).
Definition view_len (v : ValidatorsView) : nat :=
  if bool_decide (without v = ∅) then size (view v) else length (view_iter v).
Definition view_total_stake (v : ValidatorsView) : exec Stake := stake_sum (view_iter v).*2.
Definition view_is_empty (v : ValidatorsView) : bool :=
  bool_decide (view v = ∅) || bool_decide (view_len v = 0%nat).

(** [NodesView]: validators without their stakes, or full nodes. *)
Inductive NodesView :=
| NodesView_Validators (view : ValidatorsView)
| NodesView_FullNodes (list : list NodeId).

Definition nodes_view_len (v : NodesView) : nat :=
  match v with NodesView_Validators view => view_len view | NodesView_FullNodes l => length l end.
Definition nodes_view_iter (v : NodesView) : list NodeId :=
  match v with NodesView_Validators view => view_iter_nodes view | NodesView_FullNodes l => l end.

(** * Groups *)

(** [v.binary_search(x)] of the standard library on a slice. *)
Fixpoint binary_search_loop (fuel : nat) (v : list Z) (x : Z) (base size : nat) : nat :=
  match fuel with
  | O => base
  | S fuel =>
      if bool_decide (1 < size)%nat then
        let half := (size / 2)%nat in
        let mid := (base + half)%nat in
        let base := if bool_decide (x < default 0 (v !! mid)) then base else mid in
        binary_search_loop fuel v x base (size - half)
      else base
  end.
Definition binary_search (v : list Z) (x : Z) : option nat :=
  let base := binary_search_loop (length v) v x 0 (length v) in
  if bool_decide (v !! base = Some x) then Some base else None.

Record Group := mkGroup {
  validator_id : option NodeId;
  round_span : RoundSpan;
  sorted_other_peers : list NodeId;
}.

#[export] Instance RoundSpan_eq_dec : EqDecision RoundSpan.
Proof. solve_decision. Defined.
#[export] Instance Group_eq_dec : EqDecision Group.
Proof. solve_decision. Defined.

Definition round_span_default : RoundSpan := mkRoundSpan Round_MIN Round_MIN.
Definition group_default : Group := mkGroup None round_span_default [].

Definition new_validator_group (all_peers : list NodeId) (self_id : NodeId) : Group :=
  mkGroup None round_span_default (merge_sort Z.le (filter (λ peer, peer ≠ self_id) all_peers)).

(** [v.swap_remove(index)]: the last element takes the place of the removed one. *)
Definition swap_remove {A} (v : list A) (index : nat) : exec (list A) :=
  _ ← assert (bool_decide (index < length v)%nat);
  l ← expect (last v);
  Ret (take (length v - 1) (<[index := l]> v)).

Definition new_fullnode_group (all_peers : list NodeId) (self_id validator_id : NodeId) (round_span : RoundSpan) : exec Group :=
  sorted_other_peers ←
    (if bool_decide (self_id ≠ validator_id) then
       self_index ← expect (fst <$> list_find (λ peer, peer = self_id) all_peers);
       swap_remove all_peers self_index
     else Ret all_peers);
  Ret (mkGroup (Some validator_id) round_span (merge_sort Z.le sorted_other_peers)).

Definition size_excl_self (g : Group) : nat := length (sorted_other_peers g).
Definition get_validator_id (g : Group) : exec NodeId := expect (validator_id g).

(** ** Iterating a group *)

Record GroupIterator := mkGroupIterator {
  group : Group;
  num_consumed : Z;
  author_id_ix : Z;
  start_ix : Z;
}.

Definition empty_iterator (g : Group) : GroupIterator := mkGroupIterator g usize_max usize_max 0.

Definition iter_skip_self_and_author (g : Group) (author_id : NodeId) (seed : Z) : GroupIterator :=
  let start_ix := if bool_decide (sorted_other_peers g = []) then 0
                  else seed mod Z.of_nat (length (sorted_other_peers g)) in
  match validator_id g with
  | Some root_vid =>
      if bool_decide (author_id ≠ root_vid) then empty_iterator g
      else mkGroupIterator g 0 usize_max start_ix
  | None =>
      match binary_search (sorted_other_peers g) author_id with
      | None => empty_iterator g
      | Some pos => mkGroupIterator g 0 (Z.of_nat pos) start_ix
      end
  end.

(** [GroupIterator::next] *)
Fixpoint group_next (fuel : nat) (it : GroupIterator) : exec (option (NodeId * GroupIterator)) :=
  match fuel with
  | O => OutOfFuel
  | S fuel =>
      let peers := sorted_other_peers (group it) in
      if bool_decide (num_consumed it < Z.of_nat (length peers)) then
        let index := (num_consumed it + start_ix it) mod Z.of_nat (length peers) in
        let it := mkGroupIterator (group it) (num_consumed it + 1) (author_id_ix it) (start_ix it) in
        if bool_decide (index ≠ author_id_ix it) then
          peer ← expect (peers !! Z.to_nat index);
          Ret (Some (peer, it))
        else group_next fuel it
      else Ret None
  end.

(** [collect] of the iterator. *)
Fixpoint group_collect_loop (fuel : nat) (it : GroupIterator) : exec (list NodeId) :=
  match fuel with
  | O => OutOfFuel
  | S fuel =>
      next ← group_next (S (length (sorted_other_peers (group it)))) it;
      match next with
      | None => Ret []
      | Some (peer, it) => rest ← group_collect_loop fuel it; Ret (peer :: rest)
      end
  end.
Definition group_collect (it : GroupIterator) : exec (list NodeId) :=
  group_collect_loop (S (length (sorted_other_peers (group it)))) it.

Definition check_author_node_id (g : Group) (author_id : NodeId) : bool :=
  match validator_id g with
  | Some root_vid => bool_decide (root_vid = author_id)
  | None => match binary_search (sorted_other_peers g) author_id with Some _ => true | None => false end
  end.

(** * The groups of a node *)

Record ReBroadcastGroupMap := mkReBroadcastGroupMap {
  our_node_id : NodeId;
  validator_map : gmap Epoch Group;
  fullnode_map : gmap NodeId Group;
  is_dynamic_fullnode : bool;
}.

Definition group_map_new (our_node_id : NodeId) (is_dynamic_fullnode : bool) : ReBroadcastGroupMap :=
  mkReBroadcastGroupMap our_node_id ∅ ∅ is_dynamic_fullnode.

Definition check_source (m : ReBroadcastGroupMap) (msg_epoch : Epoch) (author_node_id : NodeId) : bool :=
  if is_dynamic_fullnode m then bool_decide (is_Some (fullnode_map m !! author_node_id))
  else match validator_map m !! msg_epoch with
       | Some group => check_author_node_id group author_node_id
       | None => false
       end.

Definition iterate_rebroadcast_peers (m : ReBroadcastGroupMap) (msg_epoch : Epoch) (msg_author : NodeId) :
    option GroupIterator :=
  let maybe_group := if is_dynamic_fullnode m then fullnode_map m !! msg_author else validator_map m !! msg_epoch in
  match maybe_group with
  | Some group =>
      if bool_decide (size_excl_self group = 0%nat) then None
      else Some (iter_skip_self_and_author group msg_author 0)
  | None => None
  end.

Definition push_group_validator_set (m : ReBroadcastGroupMap) (validator_set : list (NodeId * Stake)) (epoch : Epoch) :
    exec ReBroadcastGroupMap :=
  let new_group := new_validator_group validator_set.*1 (our_node_id m) in
  match validator_map m !! epoch with
  | Some existing_group => _ ← assert (bool_decide (existing_group = new_group)); Ret m
  | None => Ret (mkReBroadcastGroupMap (our_node_id m) (<[epoch := new_group]> (validator_map m))
                   (fullnode_map m) (is_dynamic_fullnode m))
  end.

Definition push_group_fullnodes (m : ReBroadcastGroupMap) (group : Group) : exec ReBroadcastGroupMap :=
  _ ← assert (is_dynamic_fullnode m);
  validator_id ← get_validator_id group;
  Ret (mkReBroadcastGroupMap (our_node_id m) (validator_map m) (<[validator_id := group]> (fullnode_map m))
         (is_dynamic_fullnode m)).

(** [retain] asks about every entry; the sum of epochs may panic. *)
Definition delete_expired_groups (m : ReBroadcastGroupMap) (curr_epoch : Epoch) (curr_round : Round) :
    exec ReBroadcastGroupMap :=
  if is_dynamic_fullnode m then
    Ret (mkReBroadcastGroupMap (our_node_id m) (validator_map m)
           (filter (λ kv : NodeId * Group, curr_round < span_end (round_span kv.2)) (fullnode_map m)) true)
  else
    _ ← mapM (λ key, epoch_add key 1) (btree_keys (validator_map m));
    Ret (mkReBroadcastGroupMap (our_node_id m)
           (filter (λ kv : Epoch * Group, kv.1 + 1 >= curr_epoch) (validator_map m)) (fullnode_map m) false).

(** * Hashes of nodes *)

Section hashes.
Context `{H : Hasher} (pubkey_bytes : PubKey → bytes).

Definition compute_hash (id : NodeId) : bytes := take 20 (hasher (pubkey_bytes id)).
End hashes.

(** * Redundancy *)

(** [FixedU16<U11>] by its bits. *)
Record Redundancy := mkRedundancy { to_bits : Z }.
#[export] Instance Redundancy_eq_dec : EqDecision Redundancy.
Proof. solve_decision. Defined.

Definition Redundancy_ZERO : Redundancy := mkRedundancy 0.
Definition FRAC_BITS : Z := 11.
Definition MAX_MULTIPLIER : Z := usize_max / u16_max.

Definition from_u8 (num : Z) : exec Redundancy :=
  _ ← assert (bool_decide (num <= Z.shiftr u16_max FRAC_BITS));
  Ret (mkRedundancy (Z.shiftl num FRAC_BITS mod 2 ^ 16)).

Definition div_ceil (a b : Z) : Z := (a + b - 1) / b.

Definition scale (r : Redundancy) (base : Z) : option Z :=
  if bool_decide (base > MAX_MULTIPLIER) then None else
  scaled ← (if bool_decide (to_bits r * base <= usize_max) then Some (to_bits r * base) else None);
  Some (div_ceil scaled (Z.shiftl 1 FRAC_BITS)).

(** * Properties *)

(** ** Binary search *)

Lemma sorted_lookup_le (v : list Z) i j a b :
  StronglySorted Z.le v → (i <= j)%nat → v !! i = Some a → v !! j = Some b → a <= b.
Proof.
  intros Hs. revert i j. induction Hs as [|x v Hs IH Hx]; intros i j Hij Ha Hb; [done|].
  destruct i as [|i], j as [|j]; simplify_eq/=; [lia| |lia|apply (IH i j); done || lia].
  rewrite Forall_lookup in Hx. by eapply Hx.
Qed.

Lemma binary_search_loop_spec fuel v x base size :
  StronglySorted Z.le v → (size <= S fuel)%nat → (1 <= size)%nat → (base + size <= length v)%nat →
  (∃ j, (base <= j < base + size)%nat ∧ v !! j = Some x) → v !! binary_search_loop fuel v x base size = Some x.
Proof.
  intros Hs. revert base size. induction fuel as [|fuel IH]; intros base size Hf H1 Hlen (j & Hj & Hx); cbn [binary_search_loop].
  { by replace base with j by lia. }
  case_bool_decide as Hsize; [|by replace base with j by lia].
  assert (1 <= size / 2 /\ size / 2 < size /\ 2 * (size / 2) <= size)%nat as (Hh1 & Hh2 & Hh3).
  { pose proof (Nat.div_mod_eq size 2). pose proof (Nat.mod_upper_bound size 2). lia. }
  destruct (lookup_lt_is_Some_2 v (base + size / 2)) as [y Hy]; [lia|]. rewrite Hy. change (default 0 (Some y)) with y.
  case_bool_decide as Hxy; apply IH; try lia.
  - exists j. split; [|done]. split; [lia|]. destruct (decide (j < base + size / 2)%nat) as [|Hge]; [lia|].
    pose proof (sorted_lookup_le v (base + size / 2) j y x Hs ltac:(lia) Hy Hx). lia.
  - destruct (decide (base + size / 2 <= j)%nat) as [Hge|Hlt]; [exists j; split; [lia|done]|].
    pose proof (sorted_lookup_le v j (base + size / 2) x y Hs ltac:(lia) Hx Hy). exists (base + size / 2)%nat.
    split; [lia|]. rewrite Hy. f_equal. lia.
Qed.

(** The search of a sorted list finds exactly its elements. *)
Lemma binary_search_spec v x :
  StronglySorted Z.le v →
  match binary_search v x with Some i => v !! i = Some x | None => x ∉ v end.
Proof.
  intros Hs. unfold binary_search. case_bool_decide as Hb; [done|]. intros [j Hj]%list_elem_of_lookup. apply Hb.
  apply lookup_lt_Some in Hj as Hlt. apply binary_search_loop_spec; try done; try lia. exists j. split; [lia|done].
Qed.

(** ** Iteration *)

(** The peers from position [c] of the rotation by [start], without [skip]. *)
Definition rotation (g : Group) (skip start : Z) (c : nat) : list NodeId :=
  let n := length (sorted_other_peers g) in
  omap (λ i, let index := (Z.of_nat i + start) mod Z.of_nat n in
             if bool_decide (index ≠ skip) then sorted_other_peers g !! Z.to_nat index else None) (seq c (n - c)).

Lemma rotation_step g skip start c :
  (c < length (sorted_other_peers g))%nat →
  rotation g skip start c =
  let index := (Z.of_nat c + start) mod Z.of_nat (length (sorted_other_peers g)) in
  if bool_decide (index ≠ skip) then option_list (sorted_other_peers g !! Z.to_nat index) ++ rotation g skip start (S c)
  else rotation g skip start (S c).
Proof.
  intros Hc. unfold rotation. replace (length (sorted_other_peers g) - c)%nat with (S (length (sorted_other_peers g) - S c)) by lia.
  cbn [seq omap list_omap]. case_bool_decide; [|done]. by destruct (sorted_other_peers g !! _).
Qed.

Lemma rotation_end g skip start c : (length (sorted_other_peers g) <= c)%nat → rotation g skip start c = [].
Proof. intros Hc. unfold rotation. by replace (length (sorted_other_peers g) - c)%nat with 0%nat by lia. Qed.

Lemma group_next_spec g skip start fuel c :
  (length (sorted_other_peers g) - c < fuel)%nat →
  match group_next fuel (mkGroupIterator g (Z.of_nat c) skip start) with
  | Ret None => rotation g skip start c = []
  | Ret (Some (peer, it)) =>
      ∃ c', (c < c')%nat ∧ it = mkGroupIterator g (Z.of_nat c') skip start ∧ (c < length (sorted_other_peers g))%nat ∧
        rotation g skip start c = peer :: rotation g skip start c'
  | _ => False
  end.
Proof.
  revert c. induction fuel as [|fuel IH]; intros c Hf; cbn [group_next group num_consumed author_id_ix start_ix]; [lia|].
  case_bool_decide as Hc; [|by apply rotation_end; lia].
  assert (c < length (sorted_other_peers g))%nat as Hc' by lia. rewrite rotation_step by done. cbv zeta.
  set (index := (Z.of_nat c + start) mod _). replace (Z.of_nat c + 1) with (Z.of_nat (S c)) by lia.
  assert (0 <= index < Z.of_nat (length (sorted_other_peers g))) by (apply Z.mod_pos_bound; lia).
  case_bool_decide as Hi.
  - destruct (lookup_lt_is_Some_2 (sorted_other_peers g) (Z.to_nat index)) as [peer Hp]; [lia|]. rewrite Hp. cbn.
    exists (S c). split_and!; auto.
  - specialize (IH (S c) ltac:(lia)). destruct (group_next fuel _) as [[[peer it]|]| |]; [|done..].
    destruct IH as (c' & ? & ? & ? & ?). exists c'. split_and!; auto. lia.
Qed.

Lemma group_collect_loop_spec g skip start fuel c :
  (length (sorted_other_peers g) - c < fuel)%nat →
  group_collect_loop fuel (mkGroupIterator g (Z.of_nat c) skip start) = Ret (rotation g skip start c).
Proof.
  revert c. induction fuel as [|fuel IH]; intros c Hf; [lia|]. cbn [group_collect_loop group].
  pose proof (group_next_spec g skip start (S (length (sorted_other_peers g))) c ltac:(lia)) as Hn.
  destruct (group_next _ _) as [[[peer it]|]| |]; [|by rewrite Hn|done..]. cbn.
  destruct Hn as (c' & Hc & -> & Hlt & ->). by rewrite IH by lia.
Qed.

Lemma group_collect_spec g (c : Z) skip start :
  0 <= c → group_collect (mkGroupIterator g c skip start) = Ret (rotation g skip start (Z.to_nat c)).
Proof. intros Hc. unfold group_collect. rewrite <-(Z2Nat.id c) by done. rewrite group_collect_loop_spec by (simpl; lia). by rewrite Nat2Z.id. Qed.

(** Iteration of any group ends. *)
Lemma group_collect_total g author seed :
  ∃ l, group_collect (iter_skip_self_and_author g author seed) = Ret l.
Proof.
  unfold iter_skip_self_and_author, empty_iterator. destruct (validator_id g).
  - case_bool_decide; rewrite group_collect_spec by done; eauto.
  - destruct (binary_search _ _); rewrite group_collect_spec by done; eauto.
Qed.

Lemma omap_map {A B C} (f : B → option C) (g : A → B) (l : list A) : omap f (g <$> l) = omap (λ x, f (g x)) l.
Proof. induction l as [|x l IH]; [done|]. csimpl. by rewrite IH. Qed.
Lemma omap_ext_elem {A B} (f g : A → option B) (l : list A) : (∀ x, x ∈ l → f x = g x) → omap f l = omap g l.
Proof. induction l as [|x l IH]; intros Hl; [done|]. csimpl. by rewrite (Hl x), IH by set_solver. Qed.

(** The positions of a rotation are all positions. *)
Lemma rotation_positions (n : nat) (start : Z) :
  (λ i, (Z.of_nat i + start) mod Z.of_nat n) <$> seq 0 n ≡ₚ Z.of_nat <$> seq 0 n.
Proof.
  symmetry. apply submseteq_length_Permutation; [|by rewrite !length_fmap].
  apply NoDup_submseteq; [apply NoDup_fmap; [apply _|apply NoDup_seq]|].
  intros x (i & -> & Hi%elem_of_seq)%list_elem_of_fmap. apply list_elem_of_fmap.
  exists (Z.to_nat ((Z.of_nat i - start) mod Z.of_nat n)).
  pose proof (Z.mod_pos_bound (Z.of_nat i - start) (Z.of_nat n) ltac:(lia)). split.
  - rewrite Z2Nat.id by lia. rewrite Zplus_mod_idemp_l. replace (Z.of_nat i - start + start) with (Z.of_nat i) by lia.
    symmetry. apply Z.mod_small. lia.
  - apply elem_of_seq. lia.
Qed.

Lemma omap_lookup_filter {A} (l : list A) (P : A → Prop) `{!∀ x, Decision (P x)} (Q : nat → Prop) `{HQ : !∀ i, Decision (Q i)} :
  (∀ i x, l !! i = Some x → P x ↔ Q i) → omap (λ i, if bool_decide (Q i) then l !! i else None) (seq 0 (length l)) = filter P l.
Proof.
  revert Q HQ. induction l as [|x l IH]; intros Q HQ Hl; [done|]. cbn [length seq omap list_omap].
  rewrite filter_cons. rewrite <-fmap_S_seq, omap_map.
  rewrite <-(IH (λ i, Q (S i)) (λ i, HQ (S i)) (λ i y Hy, Hl (S i) y Hy)).
  specialize (Hl 0%nat x eq_refl). destruct (decide (P x)) as [Hx|Hx].
  - rewrite bool_decide_true by tauto. done.
  - rewrite bool_decide_false by tauto. done.
Qed.

(** The rotation from the start has the peers at all positions but one. *)
Lemma rotation_perm g skip start :
  rotation g skip start 0 ≡ₚ
  omap (λ i, if bool_decide (Z.of_nat i ≠ skip) then sorted_other_peers g !! i else None) (seq 0 (length (sorted_other_peers g))).
Proof.
  unfold rotation. rewrite Nat.sub_0_r. set (n := length _). set (f := λ z : Z, if bool_decide (z ≠ skip) then sorted_other_peers g !! Z.to_nat z else None).
  trans (omap f ((λ i, (Z.of_nat i + start) mod Z.of_nat n) <$> seq 0 n)).
  { by rewrite omap_map. }
  rewrite rotation_positions, omap_map. unfold f. erewrite omap_ext_elem; [done|]. intros i _. by rewrite Nat2Z.id.
Qed.

(** ** Who is in a group *)

Lemma swap_remove_perm {A} (v : list A) index :
  (index < length v)%nat → ∃ v', swap_remove v index = Ret v' ∧ v' ≡ₚ delete index v.
Proof.
  intros Hi. unfold swap_remove. rewrite bool_decide_true by done. cbn [assert mbind exec_bind].
  destruct v as [|x v] using rev_ind; [simpl in Hi; lia|]. clear IHv. rewrite last_snoc. cbn [expect mbind exec_bind].
  eexists. split; [done|]. rewrite length_app in *. simpl in *. rewrite Nat.add_sub.
  destruct (decide (index = length v)) as [->|Hne].
  - rewrite insert_app_r_alt, Nat.sub_diag by lia. rewrite take_app_length. rewrite delete_take_drop.
    rewrite take_app_length. rewrite drop_ge by (rewrite length_app; simpl; lia). by rewrite app_nil_r.
  - rewrite insert_app_l by lia. rewrite take_app_length' by (by rewrite length_insert).
    rewrite delete_take_drop, insert_take_drop by lia. rewrite take_app_le, drop_app_le by lia.
    apply Permutation_app_head. by rewrite <-Permutation_cons_append.
Qed.

(** [l] without the first mention of [x], if it has one. *)
Fixpoint remove_one (x : NodeId) (l : list NodeId) : option (list NodeId) :=
  match l with
  | [] => None
  | y :: l => if bool_decide (y = x) then Some l else cons y <$> remove_one x l
  end.

Lemma remove_one_spec x l : match remove_one x l with Some l' => l ≡ₚ x :: l' | None => x ∉ l end.
Proof.
  induction l as [|y l IH]; cbn [remove_one]; [apply not_elem_of_nil|]. case_bool_decide as Hy; [by rewrite Hy|].
  destruct (remove_one x l) as [l'|]; cbn; [rewrite IH; constructor|]. by rewrite not_elem_of_cons.
Qed.

Lemma delete_remove_one l i x k : l !! i = Some x → l ≡ₚ k → ∃ k', remove_one x k = Some k' ∧ delete i l ≡ₚ k'.
Proof.
  intros Hi Hk. pose proof (remove_one_spec x k) as Hr. destruct (remove_one x k) as [k'|].
  - exists k'. split; [done|]. apply (Permutation_cons_inv (a := x)). by rewrite <-Hr, <-Hk, <-delete_Permutation.
  - destruct Hr. rewrite <-Hk. by eapply list_elem_of_lookup_2.
Qed.

(** Without repetitions nothing of [x] is left. *)
Lemma remove_one_NoDup x l l' :
  NoDup l → remove_one x l = Some l' → NoDup l' ∧ ∀ y, y ∈ l' ↔ y ∈ l ∧ y ≠ x.
Proof.
  intros Hnd Hr. pose proof (remove_one_spec x l) as Hp. rewrite Hr in Hp. rewrite Hp in Hnd. apply NoDup_cons in Hnd as [Hx Hnd].
  split; [done|]. intros y. rewrite Hp, elem_of_cons. naive_solver.
Qed.

Lemma omap_lookup_delete {A} (l : list A) (i : nat) :
  omap (λ j, if bool_decide (Z.of_nat j ≠ Z.of_nat i) then l !! j else None) (seq 0 (length l)) = delete i l.
Proof.
  revert i. induction l as [|x l IH]; intros i; [done|]. cbn [length seq omap list_omap]. rewrite <-fmap_S_seq, omap_map.
  destruct i as [|i].
  - rewrite bool_decide_false by lia. rewrite (omap_ext_elem _ (λ j, if bool_decide True then l !! j else None)).
    + rewrite (omap_lookup_filter _ (λ _, True) (λ _, True)) by done. by rewrite filter_all.
    + intros j _. by rewrite !bool_decide_true by (done || lia).
  - rewrite bool_decide_true by lia. cbn [lookup list_lookup]. change (delete (S i) (x :: l)) with (x :: delete i l).
    rewrite <-(IH i). f_equal. apply omap_ext_elem. intros j _.
    by rewrite (bool_decide_ext (Z.of_nat (S j) ≠ Z.of_nat (S i)) (Z.of_nat j ≠ Z.of_nat i)) by lia.
Qed.

Lemma sorted_merge_sort (l : list Z) : StronglySorted Z.le (merge_sort Z.le l).
Proof. apply StronglySorted_merge_sort; apply _. Qed.

(** A group that passes chunks on among validators *)
Definition group_of_validators (g : Group) (self_id : NodeId) (peers : list NodeId) : Prop :=
  validator_id g = None ∧ StronglySorted Z.le (sorted_other_peers g) ∧
  sorted_other_peers g ≡ₚ filter (λ peer, peer ≠ self_id) peers.

(** The others in a group of full nodes: the validator of the group takes the list as
    it is, a full node takes itself out, once; it panics if it is not there. *)
Definition other_fullnodes (self_id validator : NodeId) (peers : list NodeId) : option (list NodeId) :=
  if bool_decide (self_id = validator) then Some peers else remove_one self_id peers.

(** A group of full nodes of a validator, with the others in it *)
Definition group_of_fullnodes (g : Group) (validator : NodeId) (others : list NodeId) : Prop :=
  validator_id g = Some validator ∧ sorted_other_peers g ≡ₚ others.

Lemma new_validator_group_ok peers self_id : group_of_validators (new_validator_group peers self_id) self_id peers.
Proof. split; [done|]. split; [apply sorted_merge_sort|]. cbn. apply merge_sort_Permutation. Qed.

Lemma new_fullnode_group_spec peers self_id validator span :
  match other_fullnodes self_id validator peers with
  | Some others =>
      ∃ g, new_fullnode_group peers self_id validator span = Ret g ∧ round_span g = span ∧ group_of_fullnodes g validator others
  | None => new_fullnode_group peers self_id validator span = Panic
  end.
Proof.
  unfold new_fullnode_group, other_fullnodes. destruct (decide (self_id = validator)) as [->|Hne].
  - rewrite bool_decide_true, bool_decide_false by tauto. cbn. eexists. split; [done|]. split; [done|]. split; [done|]. cbn.
    apply merge_sort_Permutation.
  - rewrite bool_decide_false, bool_decide_true by done. destruct (list_find _ peers) as [[i x]|] eqn:Hf; cbn.
    + apply list_find_Some in Hf as (Hi & -> & _). destruct (swap_remove_perm peers i) as (v & -> & Hv); [by eapply lookup_lt_Some|].
      destruct (delete_remove_one peers i self_id peers Hi) as (k & -> & Hk); [done|]. cbn. eexists. split; [done|]. split; [done|].
      split; [done|]. cbn. by rewrite merge_sort_Permutation, Hv.
    + pose proof (remove_one_spec self_id peers) as Hr. destruct (remove_one self_id peers); [|done].
      apply list_find_None in Hf. rewrite Forall_forall in Hf. destruct (Hf self_id); [rewrite Hr; left|done].
Qed.

(** Iterating a group of validators names every other member but one mention of the
    author, and nobody if the author is not a member. *)
Lemma iterate_validators g self_id peers author seed :
  group_of_validators g self_id peers → Z.of_nat (length peers) <= usize_max →
  let others := filter (λ peer, peer ≠ self_id) peers in
  check_author_node_id g author = bool_decide (author ∈ others) ∧
  ∃ l, group_collect (iter_skip_self_and_author g author seed) = Ret l ∧ l ≡ₚ default [] (remove_one author others).
Proof.
  intros (Hv & Hs & Hp) Hlen others. unfold check_author_node_id, iter_skip_self_and_author. rewrite Hv.
  pose proof (binary_search_spec (sorted_other_peers g) author Hs) as Hb.
  assert (length (sorted_other_peers g) <= length peers)%nat as Hle by (rewrite Hp; apply length_filter).
  destruct (binary_search _ _) as [i|].
  - destruct (delete_remove_one _ i author others Hb Hp) as (k & -> & Hk).
    rewrite bool_decide_true by (unfold others; rewrite <-Hp; by eapply list_elem_of_lookup_2). split; [done|].
    rewrite group_collect_spec by done. eexists. split; [done|]. cbn. by rewrite rotation_perm, omap_lookup_delete.
  - rewrite Hp in Hb. fold others in Hb. rewrite bool_decide_false by done. split; [done|]. unfold empty_iterator.
    rewrite group_collect_spec by done. eexists. split; [done|]. rewrite rotation_end by (unfold usize_max, u64_max in *; lia).
    pose proof (remove_one_spec author others) as Hr. destruct (remove_one author others); [|done]. destruct Hb. rewrite Hr. left.
Qed.

(** Iterating a group of full nodes names every other full node, and nobody if the
    author is not the validator of the group. *)
Lemma iterate_fullnodes g validator others author seed :
  group_of_fullnodes g validator others → Z.of_nat (length others) <= usize_max →
  check_author_node_id g author = bool_decide (author = validator) ∧
  ∃ l, group_collect (iter_skip_self_and_author g author seed) = Ret l ∧
    l ≡ₚ if bool_decide (author = validator) then others else [].
Proof.
  intros [Hv Hp] Hlen. unfold check_author_node_id, iter_skip_self_and_author. rewrite Hv.
  assert (length (sorted_other_peers g) <= length others)%nat as Hle by (by rewrite Hp).
  split; [by apply bool_decide_ext|]. destruct (decide (author = validator)) as [->|Hne].
  - rewrite (bool_decide_false (validator ≠ validator)), (bool_decide_true (validator = validator)) by tauto.
    rewrite group_collect_spec by done. eexists. split; [done|]. cbn. rewrite rotation_perm, <-Hp. rewrite (omap_ext_elem _ (λ i, if bool_decide True then sorted_other_peers g !! i else None)).
    + rewrite (omap_lookup_filter _ (λ _, True) (λ _, True)) by done. by rewrite filter_all.
    + intros i Hi%elem_of_seq. by rewrite !bool_decide_true by (unfold usize_max, u64_max in *; lia || done).
  - rewrite (bool_decide_true (author ≠ validator)), (bool_decide_false (author = validator)) by done. unfold empty_iterator. rewrite group_collect_spec by done.
    eexists. split; [done|]. rewrite rotation_end; [done|]. unfold usize_max, u64_max in *. lia.
Qed.

(** ** Runs of the group map *)

(** What reaches the group map: validator sets of epochs, groups that a validator
    confirmed to this full node, and the current epoch and round. *)
Inductive GroupOp :=
| PushValidatorSet (validator_set : list (NodeId * Stake)) (epoch : Epoch)
| PushFullnodes (peers : list NodeId) (validator : NodeId) (span : RoundSpan)
| DeleteExpired (epoch : Epoch) (round : Round).

Definition group_op (m : ReBroadcastGroupMap) (op : GroupOp) : exec ReBroadcastGroupMap :=
  match op with
  | PushValidatorSet validator_set epoch => push_group_validator_set m validator_set epoch
  | PushFullnodes peers validator span =>
      group ← new_fullnode_group peers (our_node_id m) validator span;
      push_group_fullnodes m group
  | DeleteExpired epoch round => delete_expired_groups m epoch round
  end.
Definition group_run (m : ReBroadcastGroupMap) (ops : list GroupOp) : exec ReBroadcastGroupMap :=
  foldl (λ acc op, m ← acc; group_op m op) (Ret m) ops.

(** The members by epoch, and the full nodes by validator with the end of their
    span, as they were told. *)
Record Members := mkMembers {
  members : gmap Epoch (list NodeId);
  fullnodes : gmap NodeId (list NodeId * Round);
}.

(** What an operation does to them, and when the code panics: on a set of validators
    that is not the one the epoch has, on a group of full nodes at a node that is not
    a dynamic full node or is not in it, and on the end of the last epoch. *)
Definition members_op (dynamic : bool) (self_id : NodeId) (s : Members) (op : GroupOp) : option Members :=
  match op with
  | PushValidatorSet validator_set epoch =>
      match members s !! epoch with
      | Some peers =>
          if bool_decide (filter (λ peer, peer ≠ self_id) peers ≡ₚ filter (λ peer, peer ≠ self_id) validator_set.*1)
          then Some s else None
      | None => Some (mkMembers (<[epoch := validator_set.*1]> (members s)) (fullnodes s))
      end
  | PushFullnodes peers validator span =>
      if dynamic && bool_decide (is_Some (other_fullnodes self_id validator peers))
      then Some (mkMembers (members s) (<[validator := (peers, span_end span)]> (fullnodes s))) else None
  | DeleteExpired epoch round =>
      if dynamic then
        Some (mkMembers (members s) (filter (λ kv : NodeId * (list NodeId * Round), round < kv.2.2) (fullnodes s)))
      else if bool_decide (map_Forall (λ epoch _, epoch < u64_max) (members s)) then
        Some (mkMembers (filter (λ kv : Epoch * list NodeId, epoch <= kv.1 + 1) (members s)) (fullnodes s))
      else None
  end.
Definition members_run (dynamic : bool) (self_id : NodeId) (s : Members) (ops : list GroupOp) : option Members :=
  foldl (λ acc op, s ← acc; members_op dynamic self_id s op) (Some s) ops.

(** The list that the group of a chunk was told with. *)
Definition told (dynamic : bool) (s : Members) (epoch : Epoch) (author : NodeId) : option (list NodeId) :=
  if dynamic then fst <$> fullnodes s !! author else members s !! epoch.
(** Chunks of [author] in [epoch] are accepted, and go to these nodes. *)
Definition accepts (dynamic : bool) (self_id : NodeId) (s : Members) (epoch : Epoch) (author : NodeId) : Prop :=
  ∃ peers, told dynamic s epoch author = Some peers ∧ (dynamic = false → author ∈ peers ∧ author ≠ self_id).
Definition targets_of (dynamic : bool) (self_id : NodeId) (s : Members) (epoch : Epoch) (author : NodeId) : list NodeId :=
  default [] (peers ← told dynamic s epoch author;
              if dynamic then other_fullnodes self_id author peers
              else remove_one author (filter (λ peer, peer ≠ self_id) peers)).

(** Lists have lengths of the machine. *)
Definition group_op_ok (op : GroupOp) : Prop :=
  match op with
  | PushValidatorSet validator_set _ => Z.of_nat (length validator_set) <= usize_max
  | PushFullnodes peers _ _ => Z.of_nat (length peers) <= usize_max
  | DeleteExpired _ _ => True
  end.

Record group_map_ok (dynamic : bool) (self_id : NodeId) (m : ReBroadcastGroupMap) (s : Members) : Prop := {
  gm_self : our_node_id m = self_id;
  gm_dynamic : is_dynamic_fullnode m = dynamic;
  gm_validators epoch :
    match validator_map m !! epoch, members s !! epoch with
    | Some g, Some peers => g = new_validator_group peers self_id ∧ Z.of_nat (length peers) <= usize_max
    | None, None => True
    | _, _ => False
    end;
  gm_fullnodes validator :
    match fullnode_map m !! validator, fullnodes s !! validator with
    | Some g, Some (peers, end_) => span_end (round_span g) = end_ ∧ Z.of_nat (length peers) <= usize_max ∧
        ∃ others, other_fullnodes self_id validator peers = Some others ∧ group_of_fullnodes g validator others
    | None, None => True
    | _, _ => False
    end;
}.

Lemma new_validator_group_eq peers peers' self_id :
  new_validator_group peers self_id = new_validator_group peers' self_id ↔
  filter (λ peer, peer ≠ self_id) peers ≡ₚ filter (λ peer, peer ≠ self_id) peers'.
Proof.
  unfold new_validator_group. split.
  - intros [= Heq]. by rewrite <-(merge_sort_Permutation Z.le), Heq, merge_sort_Permutation.
  - intros Hp. f_equal. apply (StronglySorted_unique Z.le); [apply sorted_merge_sort..|]. by rewrite !merge_sort_Permutation.
Qed.

Lemma delete_expired_spec dynamic self_id m s epoch round :
  group_map_ok dynamic self_id m s →
  match members_op dynamic self_id s (DeleteExpired epoch round) with
  | Some s' => ∃ m', delete_expired_groups m epoch round = Ret m' ∧ group_map_ok dynamic self_id m' s'
  | None => delete_expired_groups m epoch round = Panic
  end.
Proof.
  intros [Hself Hdyn Hv Hf]. unfold delete_expired_groups. rewrite Hdyn. cbn [members_op]. destruct dynamic.
  - eexists. split; [done|]. constructor; cbn; try done. intros v. rewrite !map_lookup_filter. specialize (Hf v).
    destruct (fullnode_map m !! v) as [g|], (fullnodes s !! v) as [[peers end_]|]; cbn; try done.
    destruct Hf as (Hend & Hok). destruct (decide (round < end_)).
    + by rewrite !option_guard_True by (simpl; lia).
    + by rewrite !option_guard_False by (simpl; lia).
  - assert (map_Forall (λ epoch _, epoch < u64_max) (members s) ↔ Forall (λ e, e < u64_max) (btree_keys (validator_map m))) as Hiff.
    { rewrite Forall_forall. setoid_rewrite elem_of_btree_keys. split.
      - intros Hall e [g Hg]. specialize (Hv e). rewrite Hg in Hv. destruct (members s !! e) eqn:He; [|done]. by eapply Hall.
      - intros Hall e peers He. apply Hall. specialize (Hv e). rewrite He in Hv. by destruct (validator_map m !! e). }
    case_bool_decide as Hall; rewrite Hiff in Hall.
    + destruct (mapM_epoch_add _ Hall) as [l' ->]. cbn. eexists. split; [done|]. constructor; cbn; try done.
      intros e. rewrite !map_lookup_filter. specialize (Hv e).
      destruct (validator_map m !! e) as [g|], (members s !! e) as [peers|]; cbn; try done. destruct (decide (epoch <= e + 1)).
      * by rewrite !option_guard_True by (simpl; lia).
      * by rewrite !option_guard_False by (simpl; lia).
    + by rewrite mapM_epoch_add_panic.
Qed.

Lemma group_op_spec dynamic self_id m s op :
  group_map_ok dynamic self_id m s → group_op_ok op →
  match members_op dynamic self_id s op with
  | Some s' => ∃ m', group_op m op = Ret m' ∧ group_map_ok dynamic self_id m' s'
  | None => group_op m op = Panic
  end.
Proof.
  intros Hm Hop. pose proof Hm as [Hself Hdyn Hv Hf]. destruct op as [vs epoch|peers validator span|epoch round]; [| |by apply delete_expired_spec].
  - cbn [group_op members_op]. unfold push_group_validator_set. specialize (Hv epoch) as Hve. rewrite Hself.
    destruct (validator_map m !! epoch) as [g|] eqn:Hg, (members s !! epoch) as [peers|] eqn:Hp; try done.
    + destruct Hve as [-> _].
      rewrite (bool_decide_ext (new_validator_group peers self_id = _) _ (new_validator_group_eq _ _ _)).
      case_bool_decide; cbn; [by exists m|done].
    + eexists. split; [done|]. constructor; cbn; try done. intros e. destruct (decide (e = epoch)) as [->|Hne].
      * rewrite !lookup_insert_eq. split; [done|]. by rewrite length_fmap.
      * rewrite !lookup_insert_ne by done. apply Hv.
  - cbn [group_op members_op]. pose proof (new_fullnode_group_spec peers self_id validator span) as Hg. rewrite Hself.
    unfold push_group_fullnodes, get_validator_id.
    destruct (other_fullnodes self_id validator peers) as [others|] eqn:Ho; [|rewrite bool_decide_false, andb_false_r, Hg by (by intros []); done].
    destruct Hg as (g & -> & Hspan & Hok). rewrite bool_decide_true, andb_true_r by eauto. cbn [mbind exec_bind]. rewrite Hdyn, (proj1 Hok).
    destruct dynamic; [|done]. cbn. eexists. split; [done|]. constructor; cbn; try done.
    intros v. destruct (decide (v = validator)) as [->|Hne].
    + rewrite !lookup_insert_eq. split; [by rewrite Hspan|]. split; [done|]. by exists others.
    + rewrite !lookup_insert_ne by done. apply Hf.
Qed.

Lemma group_run_spec dynamic self_id ops m s :
  group_map_ok dynamic self_id m s → Forall group_op_ok ops →
  match members_run dynamic self_id s ops with
  | Some s' => ∃ m', group_run m ops = Ret m' ∧ group_map_ok dynamic self_id m' s'
  | None => group_run m ops = Panic
  end.
Proof.
  intros Hm Hops. revert m s Hm. unfold group_run, members_run.
  induction Hops as [|op ops Hop Hops IH]; intros m s Hm; cbn [foldl]; [by exists m|].
  pose proof (group_op_spec _ _ _ _ _ Hm Hop) as Hspec. cbn [mbind option_bind exec_bind].
  destruct (members_op dynamic self_id s op) as [s1|].
  - destruct Hspec as (m1 & -> & Hm1). by apply IH.
  - rewrite Hspec. clear. induction ops as [|op ops IH]; [done|]. exact IH.
Qed.

Lemma group_map_new_ok dynamic self_id : group_map_ok dynamic self_id (group_map_new self_id dynamic) (mkMembers ∅ ∅).
Proof. constructor; cbn; try done; intros ?; by rewrite !lookup_empty. Qed.

(** The nodes that a chunk is passed on to. *)
Definition rebroadcast_targets (m : ReBroadcastGroupMap) (epoch : Epoch) (author : NodeId) : exec (list NodeId) :=
  match iterate_rebroadcast_peers m epoch author with Some it => group_collect it | None => Ret [] end.

Lemma rebroadcast_group m epoch author g l others :
  (if is_dynamic_fullnode m then fullnode_map m !! author else validator_map m !! epoch) = Some g →
  group_collect (iter_skip_self_and_author g author 0) = Ret l → l ≡ₚ others →
  (sorted_other_peers g = [] → others = []) →
  ∃ targets, rebroadcast_targets m epoch author = Ret targets ∧ targets ≡ₚ others.
Proof.
  intros Hg Hl Hp Hnil. unfold rebroadcast_targets, iterate_rebroadcast_peers. rewrite Hg.
  case_bool_decide as Hz; [|by exists l]. exists []. split; [done|]. by rewrite Hnil by (by apply nil_length_inv).
Qed.

Lemma group_map_targets dynamic self_id m s epoch author :
  group_map_ok dynamic self_id m s →
  (check_source m epoch author = true ↔ accepts dynamic self_id s epoch author) ∧
  ∃ targets, rebroadcast_targets m epoch author = Ret targets ∧ targets ≡ₚ targets_of dynamic self_id s epoch author.
Proof.
  intros [Hself Hdyn Hv Hf]. unfold check_source, accepts, targets_of, told. rewrite Hdyn. destruct dynamic.
  - specialize (Hf author). rewrite bool_decide_eq_true.
    destruct (fullnode_map m !! author) as [g|] eqn:Hg, (fullnodes s !! author) as [[peers end_]|]; try done.
    2:{ split; [split; [by intros []|by intros (? & ? & _)]|]. exists []. unfold rebroadcast_targets, iterate_rebroadcast_peers. by rewrite Hdyn, Hg. }
    split; [split; eauto; intros _; by exists peers|]. destruct Hf as (_ & Hlen & others & Ho & Hok). cbn. rewrite Ho. cbn.
    assert (Z.of_nat (length others) <= usize_max) as Hlen'.
    { revert Ho. unfold other_fullnodes. case_bool_decide; [by intros [= <-]|]. pose proof (remove_one_spec self_id peers) as Hr.
      intros Ho. rewrite Ho in Hr. apply Permutation_length in Hr. simpl in Hr. lia. }
    destruct (iterate_fullnodes g author others author 0 Hok Hlen') as (_ & l & Hl & Hp). rewrite bool_decide_true in Hp by done.
    eapply rebroadcast_group; [by rewrite Hdyn|done|done|]. intros Hnil. apply Permutation_nil. rewrite <-Hnil. apply Hok.
  - specialize (Hv epoch). destruct (validator_map m !! epoch) as [g|] eqn:Hg, (members s !! epoch) as [peers|]; try done.
    2:{ split; [split; [done|by intros (? & ? & _)]|]. exists []. unfold rebroadcast_targets, iterate_rebroadcast_peers. by rewrite Hdyn, Hg. }
    destruct Hv as [-> Hlen]. pose proof (new_validator_group_ok peers self_id) as Hok.
    destruct (iterate_validators _ self_id peers author 0 Hok Hlen) as (Hc & l & Hl & Hp).
    rewrite Hc, bool_decide_eq_true, list_elem_of_filter. split.
    { split; [intros [? ?]; by exists peers|]. intros (? & [= <-] & Ha). by destruct (Ha eq_refl). }
    eapply rebroadcast_group; [by rewrite Hdyn|done|done|]. intros Hnil. destruct Hok as (_ & _ & Hperm).
    rewrite Hnil in Hperm. apply Permutation_nil in Hperm. cbn. by rewrite Hperm.
Qed.

(** Where no member is named twice, and this node is not its own validator, the
    targets are the members but this node and the author. *)
Lemma targets_of_NoDup dynamic self_id s epoch author peers :
  told dynamic s epoch author = Some peers → NoDup peers → (dynamic = true → author ≠ self_id) →
  accepts dynamic self_id s epoch author →
  (dynamic = true → is_Some (other_fullnodes self_id author peers)) →
  NoDup (targets_of dynamic self_id s epoch author) ∧
  ∀ x, x ∈ targets_of dynamic self_id s epoch author ↔ x ∈ peers ∧ x ≠ self_id ∧ (dynamic = false → x ≠ author).
Proof.
  intros Ht Hnd Hne (peers' & Ht' & Ha) Hsome. assert (peers' = peers) as -> by congruence. unfold targets_of. rewrite Ht. cbn.
  destruct dynamic.
  - destruct (Hsome eq_refl) as [others Ho]. rewrite Ho. cbn. unfold other_fullnodes in Ho.
    rewrite bool_decide_false in Ho by (intros ->; by apply Hne). destruct (remove_one_NoDup _ _ _ Hnd Ho) as [? Hin].
    split; [done|]. intros x. rewrite Hin. naive_solver.
  - pose proof (remove_one_spec author (filter (λ peer, peer ≠ self_id) peers)) as Hr.
    destruct (remove_one author _) as [others|] eqn:Ho.
    + destruct (remove_one_NoDup _ _ _ (NoDup_filter _ _ Hnd) Ho) as [? Hin]. split; [done|]. cbn. intros x.
      rewrite Hin, list_elem_of_filter. naive_solver.
    + destruct Hr. apply list_elem_of_filter. by destruct (Ha eq_refl).
Qed.

Lemma group_map_told dynamic self_id m s epoch author peers :
  group_map_ok dynamic self_id m s → told dynamic s epoch author = Some peers →
  dynamic = true → is_Some (other_fullnodes self_id author peers).
Proof.
  intros Hm Ht ->. apply fmap_Some in Ht as ([peers' end_] & Ht & ->). pose proof (gm_fullnodes _ _ _ _ Hm author) as Hf.
  rewrite Ht in Hf. destruct (fullnode_map m !! author); [|done]. destruct Hf as (_ & _ & others & ? & _). by exists others.
Qed.

(** C14. The group map of a node refines the sets of members that it was told of.
    Over every sequence of validator sets, groups of full nodes and ends of epochs
    and rounds it panics exactly if an epoch is given a second set of validators
    with other members than the first, if a group of full nodes is given to a node
    that is not a dynamic full node or that is neither the group's validator nor
    among its peers, or if groups are expired while one of the last epoch is held.
    Otherwise a chunk is accepted exactly if its author is another member of the
    group of its epoch, or the validator of a group of full nodes; and the binary
    searches and the rotation of the group yield the other members, in the group of
    an epoch without one mention of the author. So if the group was told without
    repetitions, and not by this node itself, a chunk of an accepted author goes to
    every member but this node and the author, once. *)
Theorem group_map_refines (dynamic : bool) (self_id : NodeId) (ops : list GroupOp) (Hops : Forall group_op_ok ops) :
  match members_run dynamic self_id (mkMembers ∅ ∅) ops with
  | None => group_run (group_map_new self_id dynamic) ops = Panic
  | Some s =>
      ∃ m, group_run (group_map_new self_id dynamic) ops = Ret m ∧
        ∀ epoch author,
          (check_source m epoch author = true ↔ accepts dynamic self_id s epoch author) ∧
          ∃ targets, rebroadcast_targets m epoch author = Ret targets ∧
            targets ≡ₚ targets_of dynamic self_id s epoch author ∧
            ∀ peers, told dynamic s epoch author = Some peers → NoDup peers → (dynamic = true → author ≠ self_id) →
              accepts dynamic self_id s epoch author →
              NoDup targets ∧ ∀ x, x ∈ targets ↔ x ∈ peers ∧ x ≠ self_id ∧ (dynamic = false → x ≠ author)
  end.
Proof.
  pose proof (group_run_spec _ _ _ _ _ (group_map_new_ok dynamic self_id) Hops) as Hrun.
  destruct (members_run _ _ _ _) as [s|]; [|done]. destruct Hrun as (m & Hrun & Hm). exists m. split; [done|]. intros epoch author.
  destruct (group_map_targets _ _ _ _ epoch author Hm) as (Hc & targets & Ht & Hp). split; [done|]. exists targets.
  split_and!; [done|done|]. intros peers Htold Hnd Hne Ha. setoid_rewrite Hp.
  eapply targets_of_NoDup; [done..|]. by eapply group_map_told.
Qed.

(** The groups of two epochs, of which one is given again in another order. *)
Definition two_epochs : list GroupOp :=
  [PushValidatorSet [(1, 5); (2, 5); (3, 5)] 1; PushValidatorSet [(3, 5); (4, 5); (2, 5)] 2;
   PushValidatorSet [(3, 5); (1, 5); (2, 5)] 1; DeleteExpired 2 10].

Lemma group_map_refines_witness :
  (∃ m, group_run (group_map_new 2 false) two_epochs = Ret m ∧ check_source m 1 3 = true ∧
     ∃ targets, rebroadcast_targets m 1 1 = Ret targets ∧ NoDup targets ∧ ∀ x, x ∈ targets ↔ x ∈ [1; 2; 3] ∧ x ≠ 2 ∧ x ≠ 1) ∧
  group_run (group_map_new 2 false) (two_epochs ++ [PushValidatorSet [(5, 5)] 2]) = Panic.
Proof.
  split.
  - pose proof (group_map_refines false 2 two_epochs) as Hall.
    specialize (Hall ltac:(repeat constructor; vm_compute; discriminate)).
    change (members_run false 2 (mkMembers ∅ ∅) two_epochs) with (Some (mkMembers {[1 := [1; 2; 3]; 2 := [3; 4; 2]]} ∅)) in Hall.
    destruct Hall as (m & Hm & Hall). exists m. split; [exact Hm|].
    assert (∀ a, a ∈ [1; 3] → accepts false 2 (mkMembers {[1 := [1; 2; 3]; 2 := [3; 4; 2]]} ∅) 1 a) as Hacc.
    { intros a Ha. exists [1; 2; 3]. split; [reflexivity|]. intros _. apply list_elem_of_In in Ha. cbn in Ha.
      destruct Ha as [<-|[<-|[]]]; split; try discriminate; vm_decide. }
    destruct (Hall 1 3) as [Hs _]. destruct (Hall 1 1) as (_ & targets & Ht & _ & Hnd).
    split; [apply Hs, Hacc; vm_decide|]. exists targets. split; [exact Ht|].
    destruct (Hnd [1; 2; 3]) as [Hn Hx]; [reflexivity|vm_decide|discriminate|apply Hacc; vm_decide|].
    split; [exact Hn|]. intros x. rewrite Hx. split; [intros (? & ? & H); split_and!; auto|intros (? & ? & ?); split_and!; auto].
  - apply (group_map_refines false 2 (two_epochs ++ [PushValidatorSet [(5, 5)] 2])). repeat constructor; vm_compute; discriminate.
Defined.

(** A list of full nodes that names this node twice leaves it among the others. *)
Example group_with_self :
  new_fullnode_group [7; 8; 7] 7 1 (mkRoundSpan 3 5) = Ret (mkGroup (Some 1) (mkRoundSpan 3 5) [7; 8]).
Proof. vm_compute. reflexivity. Qed.
