(* ===== verification/Raptorcast.v ===== *)
(** Sending and receiving of messages as signed chunks over UDP
    (src/monad-raptorcast/src/udp.rs): how a message becomes packets, how a packet
    is checked, and how chunks are collected, passed on and decoded. *)

From S2P Require Import Prelude Types ValidatorSet Crypto Merkle F64 RaptorCode RaptorStructs RaptorDecoder RaptorcastGroups.

#[local] Open Scope Z_scope.

(** The certificate signature as bytes, and the bytes of a public key. *)
Class SignatureCodec `{P : Protocol} := {
  st_serialize : ST → bytes;
  st_deserialize : bytes → option ST;
  pubkey_bytes : PubKey → bytes;
}.

(** [lru::LruCache<K, V>]. [cache_get] moves the entry to the front, [cache_set]
    writes through a reference to a value, [cache_push] may evict. *)
Class Lru (K V : Type) := {
  cache : Type;
  cache_new : option Z → cache;
  cache_get : cache → K → option V * cache;
  cache_set : cache → K → V → cache;
  cache_push : cache → K → V → cache;
  cache_pop : cache → K → option V * cache;
  cache_pop_lru : cache → option (K * V * cache);
  cache_len : cache → Z;
}.
Arguments cache K V {_}.

(** * Constants and layout *)

Definition SIGNATURE_SIZE : nat := 65.
Definition HEADER_LEN : nat := SIGNATURE_SIZE + 2 + 1 + 8 + 8 + 20 + 4.
Definition CHUNK_HEADER_LEN : nat := 20 + 1 + 1 + 2.

Definition PENDING_MESSAGE_CACHE_SIZE : Z := 1000.
Definition SIGNATURE_CACHE_SIZE : Z := 10000.
Definition RECENTLY_DECODED_CACHE_SIZE : Z := 10000.
Definition MIN_CHUNK_LENGTH : nat := 960.
Definition MAX_NUM_PACKETS : Z := 65535.
Definition MAX_REDUNDANCY : Redundancy := mkRedundancy (Z.shiftl 7 FRAC_BITS).
Definition MIN_MERKLE_TREE_DEPTH : Z := 1.
Definition MAX_MERKLE_TREE_DEPTH : Z := 9.

(** [buf[off..off + data.len()].copy_from_slice(data)] *)
Definition copy_from_slice (buf : bytes) (off : nat) (data : bytes) : exec bytes :=
  _ ← assert (bool_decide (off + length data <= length buf)%nat);
  Ret (take off buf ++ data ++ drop (off + length data) buf).

(** [&l[start..end]] *)
Definition slice {A} (l : list A) (start end_ : nat) : exec (list A) :=
  _ ← assert (bool_decide (start <= end_ <= length l)%nat);
  Ret (take (end_ - start) (drop start l)).

(** * Building packets *)

Inductive BuildTarget :=
| BT_Broadcast (nodes : NodesView)
| BT_Raptorcast (epoch_validators : ValidatorsView)
| BT_PointToPoint (to : NodeId)
| BT_FullNodeRaptorCast (group : Group).

Definition is_raptor_broadcast (t : BuildTarget) : bool :=
  match t with BT_Raptorcast _ | BT_FullNodeRaptorCast _ => true | _ => false end.

(** A packet under construction: its chunk id, and its bytes after the header and
    the proof. *)
Notation chunk_data := (option Z * bytes)%type (only parsing).

Section build.
Context `{P : Protocol} `{SC : !SignatureCodec} `{H : Hasher}.
Context {SocketAddr : Type}.

Definition tree_depth : Z := 6.
Definition chunks_per_merkle_batch : nat := Z.to_nat (2 ^ (tree_depth - 1)).
Definition proof_size : nat := 20 * Z.to_nat (tree_depth - 1).

Definition app_message_hash_of (app_message : bytes) : bytes := take 20 (hasher app_message).

(** Recipient and id of the chunks of a range, the ids counting from [id]. *)
Fixpoint assign (node_hash : bytes) (id : Z) (chunks : list chunk_data) : exec (list chunk_data) :=
  match chunks with
  | [] => Ret []
  | (_, data) :: chunks =>
      data ← copy_from_slice data 0 node_hash;
      rest ← assign node_hash ((id + 1) mod 2 ^ 16) chunks;
      Ret ((Some (id mod 2 ^ 16), data) :: rest)
  end.
Definition assign_range (node_hash : bytes) (id : Z) (chunks : list chunk_data) (start_idx end_idx : nat) :
    exec (list chunk_data) :=
  range ← slice chunks start_idx end_idx;
  range ← assign node_hash id range;
  Ret (take start_idx chunks ++ range ++ drop end_idx chunks).

(** The packets of one node: their range of the message if its address is known,
    and the chunks assigned to it. *)
Definition assign_node (known_addresses : gmap NodeId SocketAddr) (segment_size : nat) (node_id : NodeId) (id : Z)
    (start_idx end_idx : nat) (st : list chunk_data * list (SocketAddr * (nat * nat))) :
    exec (list chunk_data * list (SocketAddr * (nat * nat))) :=
  let '(chunk_datas, outbound_gso_idx) := st in
  let outbound_gso_idx := match known_addresses !! node_id with
    | Some addr => outbound_gso_idx ++ [(addr, (start_idx * segment_size, end_idx * segment_size)%nat)]
    | None => outbound_gso_idx
    end in
  chunk_datas ← assign_range (compute_hash pubkey_bytes node_id) id chunk_datas start_idx end_idx;
  Ret (chunk_datas, outbound_gso_idx).

(** The loops of [Broadcast] and [FullNodeRaptorCast]: node [i] of [total] gets the
    packets from [num_packets * i / total] on. [restart]: the ids of every node
    start at zero. *)
Fixpoint assign_evenly (restart : bool) (known_addresses : gmap NodeId SocketAddr) (segment_size num_packets total : nat)
    (i : nat) (chunk_idx : Z) (nodes : list NodeId) (st : list chunk_data * list (SocketAddr * (nat * nat))) :
    exec (list chunk_data * list (SocketAddr * (nat * nat))) :=
  match nodes with
  | [] => Ret st
  | node_id :: nodes =>
      _ ← assert (bool_decide (total ≠ 0)%nat);
      let start_idx := (num_packets * i / total)%nat in
      let end_idx := (num_packets * (i + 1) / total)%nat in
      if bool_decide (start_idx = end_idx) then
        assign_evenly restart known_addresses segment_size num_packets total (i + 1) chunk_idx nodes st
      else
        st ← assign_node known_addresses segment_size node_id (if restart then 0 else chunk_idx) start_idx end_idx st;
        let chunk_idx := (chunk_idx + (Z.of_nat end_idx - Z.of_nat start_idx)) mod 2 ^ 16 in
        assign_evenly restart known_addresses segment_size num_packets total (i + 1) chunk_idx nodes st
  end.

(** The loop of [Raptorcast]: packets in proportion to stake. The conversion of a
    stake to a float is the one of the integer library. *)
Context (f64_from_u256 : Z → f64).

Definition stake_div (a b : Stake) : f64 := f64_div (f64_from_u256 a) (f64_from_u256 b).
Definition stake_idx (num_packets : nat) (running_stake total_stake : Stake) : nat :=
  Z.to_nat (f64_as_u64 (f64_mul (f64_of_int (Z.of_nat num_packets)) (stake_div running_stake total_stake))).

Fixpoint assign_by_stake (known_addresses : gmap NodeId SocketAddr) (segment_size num_packets : nat) (total_stake : Stake)
    (running_stake : Stake) (chunk_idx : Z) (nodes : list (NodeId * Stake))
    (st : list chunk_data * list (SocketAddr * (nat * nat))) : exec (list chunk_data * list (SocketAddr * (nat * nat))) :=
  match nodes with
  | [] => Ret st
  | (node_id, stake) :: nodes =>
      let start_idx := stake_idx num_packets running_stake total_stake in
      running_stake ← stake_add running_stake stake;
      let end_idx := stake_idx num_packets running_stake total_stake in
      if bool_decide (start_idx = end_idx) then
        assign_by_stake known_addresses segment_size num_packets total_stake running_stake chunk_idx nodes st
      else
        st ← assign_node known_addresses segment_size node_id chunk_idx start_idx end_idx st;
        let chunk_idx := (chunk_idx + (Z.of_nat end_idx - Z.of_nat start_idx)) mod 2 ^ 16 in
        assign_by_stake known_addresses segment_size num_packets total_stake running_stake chunk_idx nodes st
  end.

(** The randomness of a call: the order of the validators, and the first node of a
    group. *)
Context (shuffle : list (NodeId * Stake) → list (NodeId * Stake)) (seed : Z).

(** [chunk_recipient] and [outbound_gso_idx]; [None] drops the message. *)
Definition assign_chunks (self_id : NodeId) (build_target : BuildTarget) (known_addresses : gmap NodeId SocketAddr)
    (segment_size num_packets : nat) (chunk_datas : list chunk_data) :
    exec (option (list chunk_data * list (SocketAddr * (nat * nat)))) :=
  match build_target with
  | BT_PointToPoint to =>
      match known_addresses !! to with
      | None => Ret None
      | Some addr =>
          chunk_datas ← assign (compute_hash pubkey_bytes to) 0 chunk_datas;
          Ret (Some (chunk_datas, [(addr, (0, segment_size * num_packets)%nat)]))
      end
  | BT_Broadcast nodes =>
      st ← assign_evenly true known_addresses segment_size num_packets (nodes_view_len nodes) 0 0
             (nodes_view_iter nodes) (chunk_datas, []);
      Ret (Some st)
  | BT_Raptorcast epoch_validators =>
      _ ← assert (negb (view_is_empty epoch_validators));
      total_stake ← view_total_stake epoch_validators;
      if bool_decide (total_stake = Stake_ZERO) then Ret None else
      st ← assign_by_stake known_addresses segment_size num_packets total_stake Stake_ZERO 0
             (shuffle (view_iter epoch_validators)) (chunk_datas, []);
      Ret (Some st)
  | BT_FullNodeRaptorCast group =>
      nodes ← group_collect (iter_skip_self_and_author group self_id seed);
      st ← assign_evenly false known_addresses segment_size num_packets (size_excl_self group) 0 0 nodes (chunk_datas, []);
      Ret (Some st)
  end.

(** The chunk id and the symbol of a chunk. *)
Definition fill_chunk (encoder : Encoder) (c : chunk_data) : exec bytes :=
  chunk_id ← expect c.1;
  data ← copy_from_slice c.2 22 (to_le_bytes 2 chunk_id);
  symbol ← encode_symbol encoder (Z.to_nat chunk_id);
  copy_from_slice data CHUNK_HEADER_LEN symbol.

(** The leaf index of a chunk of a batch. *)
Definition set_leaf_idx (chunk_idx : nat) (data : bytes) : exec bytes :=
  _ ← assert (bool_decide (Z.of_nat chunk_idx <= 255));
  copy_from_slice data 20 [Z.of_nat chunk_idx].

Fixpoint set_leaf_idxs (chunk_idx : nat) (batch : list bytes) : exec (list bytes) :=
  match batch with
  | [] => Ret []
  | data :: batch =>
      data ← set_leaf_idx chunk_idx data;
      rest ← set_leaf_idxs (S chunk_idx) batch;
      Ret (data :: rest)
  end.

(** The fields of a header after the signature. *)
Record HeaderFields := mkHeaderFields {
  h_broadcast : bool;
  h_epoch_no : Z;
  h_unix_ts_ms : Z;
  h_app_message_hash : bytes;
  h_app_message_len : Z;
}.
Definition header_body (h : HeaderFields) : bytes :=
  to_le_bytes 2 0 ++ [Z.lor (Z.shiftl (Z.b2z (h_broadcast h)) 7) tree_depth] ++ to_le_bytes 8 (h_epoch_no h) ++
  to_le_bytes 8 (h_unix_ts_ms h) ++ h_app_message_hash h ++ to_le_bytes 4 (h_app_message_len h).

(** The proof of a chunk, written after the header. *)
Fixpoint write_proof (chunk : bytes) (offset : nat) (siblings : list MerkleHash) : exec bytes :=
  match siblings with
  | [] => Ret chunk
  | proof :: siblings =>
      chunk ← copy_from_slice chunk offset proof;
      write_proof chunk (offset + 20) siblings
  end.

Definition finish_chunk (header : bytes) (merkle_tree : MerkleTree) (leaf_idx : nat) (data : bytes) : exec bytes :=
  let chunk := replicate (HEADER_LEN + proof_size) 0 ++ data in
  chunk ← copy_from_slice chunk 0 header;
  proof ← merkle_proof merkle_tree (Z.of_nat leaf_idx mod 256);
  write_proof chunk HEADER_LEN (siblings proof).

Fixpoint finish_chunks (header : bytes) (merkle_tree : MerkleTree) (leaf_idx : nat) (batch : list bytes) : exec (list bytes) :=
  match batch with
  | [] => Ret []
  | data :: batch =>
      chunk ← finish_chunk header merkle_tree leaf_idx data;
      rest ← finish_chunks header merkle_tree (S leaf_idx) batch;
      Ret (chunk :: rest)
  end.

(** The chunks of one Merkle tree. *)
Definition finish_batch (key : ST_KeyPair) (h : HeaderFields) (batch : list bytes) : exec (list bytes) :=
  batch ← set_leaf_idxs 0 batch;
  merkle_tree ← new_with_depth (map hasher batch) tree_depth;
  root ← merkle_root merkle_tree;
  let signature := st_serialize (st_sign SD_RaptorcastChunk (header_body h ++ root) key) in
  _ ← assert (bool_decide (length signature = SIGNATURE_SIZE));
  finish_chunks (signature ++ header_body h) merkle_tree 0 batch.

(** The number of packets of a message; [None] if there are too many. *)
Definition num_packets_for (build_target : BuildTarget) (redundancy : Redundancy) (app_message_len data_size : Z) : exec (option Z) :=
  _ ← assert (bool_decide (data_size ≠ 0));
  let num_packets := Z.max (div_ceil app_message_len data_size) SOURCE_SYMBOLS_MIN in
  num_packets ← expect (scale redundancy num_packets);
  num_packets ←
    match build_target with
    | BT_Broadcast nodes =>
        let n := num_packets * Z.of_nat (nodes_view_len nodes) in
        if bool_decide (n <= usize_max) then Ret n else Panic
    | _ => Ret num_packets
    end;
  Ret (if bool_decide (num_packets > MAX_NUM_PACKETS) then None else Some num_packets).

Definition build_messages_with_length (key : ST_KeyPair) (segment_size : Z) (app_message : bytes) (app_message_len : Z)
    (redundancy : Redundancy) (epoch_no unix_ts_ms : Z) (build_target : BuildTarget)
    (known_addresses : gmap NodeId SocketAddr) : exec (list (SocketAddr * bytes)) :=
  if bool_decide (app_message_len = 0) then Ret [] else
  if bool_decide (redundancy = Redundancy_ZERO) then Ret [] else
  body_size ← checked_sub segment_size (Z.of_nat (HEADER_LEN + CHUNK_HEADER_LEN));
  let self_id := st_pubkey key in
  data_size ← checked_sub body_size (Z.of_nat proof_size);
  num_packets ← num_packets_for build_target redundancy app_message_len data_size;
  match num_packets with
  | None => Ret []
  | Some num_packets =>
      let segment := Z.to_nat segment_size in
      let chunk_datas := replicate (Z.to_nat num_packets) (None, replicate (segment - (HEADER_LEN + proof_size)) 0) in
      assigned ← assign_chunks self_id build_target known_addresses segment (Z.to_nat num_packets) chunk_datas;
      match assigned with
      | None => Ret []
      | Some (chunk_datas, outbound_gso_idx) =>
          encoder ← encoder_new app_message (Z.to_nat data_size);
          match encoder with
          | None => Ret []
          | Some encoder =>
              datas ← mapM (fill_chunk encoder) chunk_datas;
              let h := mkHeaderFields (is_raptor_broadcast build_target) epoch_no unix_ts_ms
                         (app_message_hash_of app_message) app_message_len in
              batches ← mapM (finish_batch key h) (chunks chunks_per_merkle_batch datas);
              let message := concat (concat batches) in
              mapM (λ '(addr, (start_, end_)), bytes ← slice message start_ end_; Ret (addr, bytes)) outbound_gso_idx
          end
      end
  end.

Definition build_messages (key : ST_KeyPair) (segment_size : Z) (app_message : bytes) (redundancy : Redundancy)
    (epoch_no unix_ts_ms : Z) (build_target : BuildTarget) (known_addresses : gmap NodeId SocketAddr) :
    exec (list (SocketAddr * bytes)) :=
  let app_message_len := Z.of_nat (length app_message) in
  _ ← assert (bool_decide (app_message_len <= 2 ^ 32 - 1));
  build_messages_with_length key segment_size app_message app_message_len redundancy epoch_no unix_ts_ms build_target
    known_addresses.
End build.

(** * Parsing a packet *)

Record ValidatedMessage := mkValidatedMessage {
  vm_message : bytes;
  vm_author : NodeId;
  vm_epoch : Z;
  vm_unix_ts_ms : Z;
  vm_app_message_hash : bytes;
  vm_app_message_len : Z;
  vm_broadcast : bool;
  vm_recipient_hash : bytes;
  vm_chunk_id : Z;
  vm_chunk : bytes;
}.

Inductive MessageValidationError :=
| UnknownVersion
| TooShort
| InvalidSignature
| InvalidTreeDepth
| InvalidMerkleProof
| InvalidTimestamp (timestamp max delta : Z).

(** [split_off(mid)?] of the cursor. *)
Definition split_off (mid : nat) (cursor : bytes) : result (bytes * bytes) MessageValidationError :=
  if bool_decide (length cursor < mid)%nat then Err TooShort else Ok (take mid cursor, drop mid cursor).

(** [z as i64], [saturating_sub] of [i64] *)
Definition as_i64 (z : Z) : Z := if bool_decide (z < 2 ^ 63) then z else z - 2 ^ 64.
Definition i64_saturating_sub (a b : Z) : Z := Z.max (- 2 ^ 63) (Z.min (2 ^ 63 - 1) (a - b)).

(** [elapsed] is the time since the epoch in milliseconds, if the clock is not
    before it. *)
Definition ensure_valid_timestamp (elapsed : option Z) (unix_ts_ms max_age_ms : Z) : result unit MessageValidationError :=
  match elapsed with
  | None => Ok tt
  | Some ms =>
      let current_time_ms := ms mod 2 ^ 64 in
      let delta := i64_saturating_sub (as_i64 current_time_ms) (as_i64 unix_ts_ms) in
      if bool_decide (Z.abs delta > max_age_ms) then Err (InvalidTimestamp unix_ts_ms max_age_ms delta) else Ok tt
  end.

(** The siblings of a proof. *)
Fixpoint split_siblings (n : nat) (cursor : bytes) : result (list MerkleHash * bytes) MessageValidationError :=
  match n with
  | O => Ok ([], cursor)
  | S n =>
      match split_off 20 cursor with
      | Err e => Err e
      | Ok (sibling, cursor) =>
          match split_siblings n cursor with
          | Err e => Err e
          | Ok (rest, cursor) => Ok (sibling :: rest, cursor)
          end
      end
  end.

Section parse.
Context `{P : Protocol} `{SC : !SignatureCodec} `{H : Hasher}.
Context `{L : !Lru bytes NodeId}.

(** The signature that is checked covers the header and the root. *)
Definition recover_author (signature : ST) (signed_over : bytes) : result NodeId MessageValidationError :=
  ok_or (st_recover_pubkey SD_RaptorcastChunk (drop SIGNATURE_SIZE signed_over) signature) InvalidSignature.

(** [signature_cache.try_get_or_insert(signed_over, ..)?] *)
Definition cached_author (signature_cache : cache bytes NodeId) (signature : ST) (signed_over : bytes) :
    result NodeId MessageValidationError * cache bytes NodeId :=
  match cache_get signature_cache signed_over with
  | (Some author, signature_cache) => (Ok author, signature_cache)
  | (None, signature_cache) =>
      match recover_author signature signed_over with
      | Ok author => (Ok author, cache_push signature_cache signed_over author)
      | Err e => (Err e, signature_cache)
      end
  end.

(** What a packet contains before its author is known: the message without an
    author, the signature and what it covers. *)
Definition parse_fields (message : bytes) (elapsed : option Z) (max_age_ms : Z) :
    exec (result ((NodeId → ValidatedMessage) * ST * bytes) MessageValidationError) :=
  '(cursor_signature, cursor) <-? Ret (split_off SIGNATURE_SIZE message);
  signature <-? Ret (ok_or (st_deserialize cursor_signature) InvalidSignature);
  '(cursor_version, cursor) <-? Ret (split_off 2 cursor);
  let version := from_le_bytes cursor_version in
  if bool_decide (version ≠ 0) then Ret (Err UnknownVersion) else
  '(cursor_broadcast_tree_depth, cursor) <-? Ret (split_off 1 cursor);
  b ← expect (head cursor_broadcast_tree_depth);
  let broadcast := bool_decide (Z.shiftr b 7 ≠ 0) in
  let tree_depth := Z.land b (Z.lxor 0xff (Z.shiftl 1 7)) in
  if bool_decide (¬ MIN_MERKLE_TREE_DEPTH <= tree_depth <= MAX_MERKLE_TREE_DEPTH) then Ret (Err InvalidTreeDepth) else
  '(cursor_epoch, cursor) <-? Ret (split_off 8 cursor);
  let epoch := from_le_bytes cursor_epoch in
  '(cursor_unix_ts_ms, cursor) <-? Ret (split_off 8 cursor);
  let unix_ts_ms := from_le_bytes cursor_unix_ts_ms in
  _ <-? Ret (ensure_valid_timestamp elapsed unix_ts_ms max_age_ms);
  '(app_message_hash, cursor) <-? Ret (split_off 20 cursor);
  '(cursor_app_message_len, cursor) <-? Ret (split_off 4 cursor);
  let app_message_len := from_le_bytes cursor_app_message_len in
  let proof_size := (20 * Z.to_nat (tree_depth - 1))%nat in
  '(merkle_proof, cursor) <-? Ret (split_siblings (Z.to_nat (tree_depth - 1)) cursor);
  '(recipient_hash, cursor) <-? Ret (split_off 20 cursor);
  '(cursor_merkle_idx, cursor) <-? Ret (split_off 1 cursor);
  merkle_idx ← expect (head cursor_merkle_idx);
  merkle_proof <-? Ret (ok_or (new_from_leaf_idx merkle_proof merkle_idx) InvalidMerkleProof);
  '(_, cursor) <-? Ret (split_off 1 cursor);
  '(cursor_chunk_id, cursor_payload) <-? Ret (split_off 2 cursor);
  let chunk_id := from_le_bytes cursor_chunk_id in
  if bool_decide (cursor_payload = []) then Ret (Err TooShort) else
  leaf ← slice message (HEADER_LEN + proof_size) (length message);
  let leaf_hash := hasher leaf in
  root <-? Ret (ok_or (compute_root merkle_proof leaf_hash) InvalidMerkleProof);
  header ← slice message 0 HEADER_LEN;
  let signed_over := header ++ root in
  Ret (Ok (λ author, mkValidatedMessage message author epoch unix_ts_ms app_message_hash app_message_len broadcast
                       recipient_hash chunk_id cursor_payload, signature, signed_over)).

Definition parse_message (signature_cache : cache bytes NodeId) (message : bytes) (elapsed : option Z) (max_age_ms : Z) :
    exec (result ValidatedMessage MessageValidationError * cache bytes NodeId) :=
  fields ← parse_fields message elapsed max_age_ms;
  match fields with
  | Err e => Ret (Err e, signature_cache)
  | Ok (validated, signature, signed_over) =>
      let '(author, signature_cache) := cached_author signature_cache signature signed_over in
      Ret (match author with Ok author => Ok (validated author) | Err e => Err e end, signature_cache)
  end.
End parse.

(** * Batches of chunks that are passed on *)

Record BroadcastBatch := mkBroadcastBatch {
  batch_author : NodeId;
  batch_targets : list NodeId;
  batch_start_idx : nat;
  batch_end_idx : nat;
}.

(** The calls of [rebroadcast], with the targets, the bytes and the stride. *)
Notation Rebroadcast := (list NodeId * bytes * Z)%type (only parsing).

Record BroadcastBatcher := mkBroadcastBatcher {
  batcher_message : bytes;
  batcher_stride : Z;
  batch : option BroadcastBatch;
  rebroadcasts : list Rebroadcast;
}.

Definition batcher_new (message : bytes) (stride : Z) : BroadcastBatcher := mkBroadcastBatcher message stride None [].

Definition flush (b : BroadcastBatcher) : exec BroadcastBatcher :=
  match batch b with
  | None => Ret b
  | Some batch =>
      bytes ← slice (batcher_message b) (batch_start_idx batch) (batch_end_idx batch);
      Ret (mkBroadcastBatcher (batcher_message b) (batcher_stride b) None
             (rebroadcasts b ++ [(batch_targets batch, bytes, batcher_stride b)]))
  end.

(** A [BatcherGuard] is the batcher and whether dropping the guard flushes it. *)
Notation BatcherGuard := (BroadcastBatcher * bool)%type (only parsing).

Definition create_flush_guard (b : BroadcastBatcher) : BatcherGuard := (b, true).

Definition drop_guard (g : BatcherGuard) : exec BroadcastBatcher := if g.2 then flush g.1 else Ret g.1.

(** [targets] is evaluated for a new batch only. *)
Definition queue_broadcast (g : BatcherGuard) (payload_start_idx payload_end_idx : nat) (author : NodeId)
    (targets : unit → exec (list NodeId)) : exec BatcherGuard :=
  let b := g.1 in
  match batch b with
  | Some current =>
      if bool_decide (batch_author current = author) then
        _ ← assert (bool_decide (batch_end_idx current = payload_start_idx));
        let current := mkBroadcastBatch (batch_author current) (batch_targets current) (batch_start_idx current) payload_end_idx in
        Ret (mkBroadcastBatcher (batcher_message b) (batcher_stride b) (Some current) (rebroadcasts b), false)
      else
        b ← flush b;
        targets ← targets tt;
        Ret (mkBroadcastBatcher (batcher_message b) (batcher_stride b)
               (Some (mkBroadcastBatch author targets payload_start_idx payload_end_idx)) (rebroadcasts b), false)
  | None =>
      targets ← targets tt;
      Ret (mkBroadcastBatcher (batcher_message b) (batcher_stride b)
             (Some (mkBroadcastBatch author targets payload_start_idx payload_end_idx)) (rebroadcasts b), false)
  end.

(** * The receiver *)

Record MessageCacheKey := mkMessageCacheKey {
  key_unix_ts_ms : Z;
  key_author : NodeId;
  key_app_message_hash : bytes;
  key_app_message_len : Z;
}.
#[export] Instance MessageCacheKey_eq_dec : EqDecision MessageCacheKey.
Proof. solve_decision. Defined.
#[export] Instance MessageCacheKey_countable : Countable MessageCacheKey.
Proof.
  refine (inj_countable' (λ k, (key_unix_ts_ms k, key_author k, key_app_message_hash k, key_app_message_len k))
    (λ '(t, a, h, n), mkMessageCacheKey t a h n) _). by intros [].
Defined.

Record DecoderState := mkDecoderState {
  ds_decoder : ManagedDecoder;
  ds_recipient_chunks : gmap bytes nat;
  ds_encoded_symbol_capacity : nat;
  ds_seen_esis : list bool;
}.

Record RecentlyDecodedState := mkRecentlyDecodedState {
  rd_symbol_len : nat;
  rd_encoded_symbol_capacity : nat;
  rd_seen_esis : list bool;
  rd_excess_chunk_count : nat;
}.

Record RecvUdpMsg := mkRecvUdpMsg { payload : bytes; stride : Z }.

(** [seen_esis.set(i, true)] *)
Definition set_seen (seen_esis : list bool) (i : nat) : exec (list bool) :=
  _ ← assert (bool_decide (i < length seen_esis)%nat);
  Ret (<[i := true]> seen_esis).

Definition is_valid_symbol (m : ValidatedMessage) (symbol_len encoded_symbol_capacity : nat) (seen_esis : list bool) : exec bool :=
  let encoding_symbol_id := Z.to_nat (vm_chunk_id m) in
  if bool_decide (symbol_len ≠ length (vm_chunk m)) then Ret false else
  if bool_decide (encoded_symbol_capacity <= encoding_symbol_id)%nat then Ret false else
  seen ← expect (seen_esis !! encoding_symbol_id);
  Ret (negb seen).

(** The closure that makes the decoder of a message; [None] is its error. *)
Definition decoder_state_new (app_message_len symbol_len : nat) : exec (option DecoderState) :=
  _ ← assert (bool_decide (symbol_len ≠ 0)%nat);
  let num_source_symbols := Z.max (div_ceil (Z.of_nat app_message_len) (Z.of_nat symbol_len)) SOURCE_SYMBOLS_MIN in
  encoded_symbol_capacity ← expect (scale MAX_REDUNDANCY num_source_symbols);
  let encoded_symbol_capacity := Z.to_nat encoded_symbol_capacity in
  decoder ← managed_new (Z.to_nat num_source_symbols) symbol_len;
  Ret (match decoder with
       | Some decoder => Some (mkDecoderState decoder ∅ encoded_symbol_capacity (replicate encoded_symbol_capacity false))
       | None => None
       end).

Section receive.
Context `{P : Protocol} `{SC : !SignatureCodec} `{H : Hasher}.
Context `{LS : !Lru bytes NodeId} `{LP : !Lru MessageCacheKey DecoderState} `{LD : !Lru MessageCacheKey RecentlyDecodedState}.

Record UdpState := mkUdpState {
  self_id : NodeId;
  max_age_ms : Z;
  pending_message_cache : cache MessageCacheKey DecoderState;
  signature_cache : cache bytes NodeId;
  recently_decoded_cache : cache MessageCacheKey RecentlyDecodedState;
}.

Definition udp_state_new (self_id : NodeId) (max_age_ms : Z) : UdpState :=
  mkUdpState self_id max_age_ms (cache_new None) (cache_new (Some SIGNATURE_CACHE_SIZE))
    (cache_new (Some RECENTLY_DECODED_CACHE_SIZE)).

Definition with_signature_cache (s : UdpState) (c : cache bytes NodeId) : UdpState :=
  mkUdpState (self_id s) (max_age_ms s) (pending_message_cache s) c (recently_decoded_cache s).
Definition with_pending (s : UdpState) (c : cache MessageCacheKey DecoderState) : UdpState :=
  mkUdpState (self_id s) (max_age_ms s) c (signature_cache s) (recently_decoded_cache s).
Definition with_recently_decoded (s : UdpState) (c : cache MessageCacheKey RecentlyDecodedState) : UdpState :=
  mkUdpState (self_id s) (max_age_ms s) (pending_message_cache s) (signature_cache s) c.

(** [try_rebroadcast_symbol] *)
Definition try_rebroadcast_symbol (s : UdpState) (group_map : ReBroadcastGroupMap) (m : ValidatedMessage)
    (start_idx end_idx : nat) (guard : BatcherGuard) : exec BatcherGuard :=
  let self_hash := compute_hash pubkey_bytes (self_id s) in
  if vm_broadcast m && bool_decide (self_hash = vm_recipient_hash m) then
    match iterate_rebroadcast_peers group_map (vm_epoch m) (vm_author m) with
    | Some targets => queue_broadcast guard start_idx end_idx (vm_author m) (λ _, group_collect targets)
    | None => Ret guard
    end
  else Ret guard.

Definition message_key (m : ValidatedMessage) : MessageCacheKey :=
  mkMessageCacheKey (vm_unix_ts_ms m) (vm_author m) (vm_app_message_hash m) (vm_app_message_len m).

(** The checks before the decoder: a chunk of our own, one that is too small, one
    of an author outside the group and one for somebody else are dropped. *)
Definition chunk_admissible (s : UdpState) (group_map : ReBroadcastGroupMap) (m : ValidatedMessage) : bool :=
  if bool_decide (vm_author m = self_id s) then false else
  if bool_decide (length (vm_chunk m) < MIN_CHUNK_LENGTH)%nat &&
     bool_decide (Z.of_nat (length (vm_chunk m)) < vm_app_message_len m) then false else
  if vm_broadcast m then check_source group_map (vm_epoch m) (vm_author m)
  else bool_decide (compute_hash pubkey_bytes (self_id s) = vm_recipient_hash m).

(** A chunk of a message that was decoded already. *)
Definition handle_excess (s : UdpState) (group_map : ReBroadcastGroupMap) (m : ValidatedMessage) (rd : RecentlyDecodedState)
    (start_idx end_idx : nat) (guard : BatcherGuard) : exec (UdpState * BatcherGuard) :=
  valid ← is_valid_symbol m (rd_symbol_len rd) (rd_encoded_symbol_capacity rd) (rd_seen_esis rd);
  if (valid : bool) then
    seen_esis ← set_seen (rd_seen_esis rd) (Z.to_nat (vm_chunk_id m));
    let rd := mkRecentlyDecodedState (rd_symbol_len rd) (rd_encoded_symbol_capacity rd) seen_esis
                (S (rd_excess_chunk_count rd)) in
    let s := with_recently_decoded s (cache_set (recently_decoded_cache s) (message_key m) rd) in
    guard ← try_rebroadcast_symbol s group_map m start_idx end_idx guard;
    Ret (s, guard)
  else Ret (s, guard).

(** [pending_message_cache.try_get_or_insert_mut(key, ..)] *)
Definition pending_decoder (s : UdpState) (m : ValidatedMessage) : exec (option DecoderState * UdpState) :=
  match cache_get (pending_message_cache s) (message_key m) with
  | (Some ds, c) => Ret (Some ds, with_pending s c)
  | (None, c) =>
      ds ← decoder_state_new (Z.to_nat (vm_app_message_len m)) (length (vm_chunk m));
      match ds with
      | Some ds => Ret (Some ds, with_pending s (cache_push c (message_key m) ds))
      | None => Ret (None, with_pending s c)
      end
  end.

(** A message that is decoded: its hash is compared with the one that was signed. *)
Definition finish_message (s : UdpState) (m : ValidatedMessage) (decoded : bytes) : exec (UdpState * option (NodeId * bytes)) :=
  let decoded := take (Z.to_nat (vm_app_message_len m)) decoded in
  let '(popped, c) := cache_pop (pending_message_cache s) (message_key m) in
  decoded_state ← expect popped;
  let s := with_pending s c in
  if bool_decide (take 20 (hasher decoded) ≠ vm_app_message_hash m) then Ret (s, None) else
  let rd := mkRecentlyDecodedState (managed_symbol_len (ds_decoder decoded_state)) (ds_encoded_symbol_capacity decoded_state)
              (ds_seen_esis decoded_state) 0 in
  Ret (with_recently_decoded s (cache_push (recently_decoded_cache s) (message_key m) rd), Some (vm_author m, decoded)).

(** A chunk of a message that is not decoded yet. *)
Definition handle_pending (s : UdpState) (group_map : ReBroadcastGroupMap) (m : ValidatedMessage) (start_idx end_idx : nat)
    (guard : BatcherGuard) : exec (UdpState * BatcherGuard * option (NodeId * bytes)) :=
  let encoding_symbol_id := Z.to_nat (vm_chunk_id m) in
  '(ds, s) ← pending_decoder s m;
  match ds with
  | None => Ret (s, guard, None)
  | Some ds =>
      valid ← is_valid_symbol m (managed_symbol_len (ds_decoder ds)) (ds_encoded_symbol_capacity ds) (ds_seen_esis ds);
      if (valid : bool) then
        seen_esis ← set_seen (ds_seen_esis ds) encoding_symbol_id;
        guard ← try_rebroadcast_symbol s group_map m start_idx end_idx guard;
        decoder ← managed_received_encoded_symbol (ds_decoder ds) (vm_chunk m) encoding_symbol_id;
        let recipient_chunks := <[vm_recipient_hash m :=
          S (default 0%nat (ds_recipient_chunks ds !! vm_recipient_hash m))]> (ds_recipient_chunks ds) in
        '(decoder, done) ← managed_try_decode decoder;
        let ds := mkDecoderState decoder recipient_chunks (ds_encoded_symbol_capacity ds) seen_esis in
        let s := with_pending s (cache_set (pending_message_cache s) (message_key m) ds) in
        if (done : bool) then
          decoded ← reconstruct_source_data decoder;
          match decoded with
          | None => Ret (s, guard, None)
          | Some decoded => '(s, delivered) ← finish_message s m decoded; Ret (s, guard, delivered)
          end
        else Ret (s, guard, None)
      else Ret (s, guard, None)
  end.

(** The body of the loop over the packets. *)
Definition handle_packet (group_map : ReBroadcastGroupMap) (elapsed : option Z) (msg : RecvUdpMsg) (payload_start_idx : nat)
    (s : UdpState) (guard : BatcherGuard) : exec (UdpState * BatcherGuard * option (NodeId * bytes)) :=
  let payload_end_idx := Nat.min (payload_start_idx + Z.to_nat (stride msg)) (length (payload msg)) in
  packet ← slice (payload msg) payload_start_idx payload_end_idx;
  '(parsed_message, signature_cache) ← parse_message (signature_cache s) packet elapsed (max_age_ms s);
  let s := with_signature_cache s signature_cache in
  match parsed_message with
  | Err _ => Ret (s, guard, None)
  | Ok m =>
      if chunk_admissible s group_map m then
        let '(recently_decoded, c) := cache_get (recently_decoded_cache s) (message_key m) in
        let s := with_recently_decoded s c in
        match recently_decoded with
        | Some rd => '(s, guard) ← handle_excess s group_map m rd payload_start_idx payload_end_idx guard; Ret (s, guard, None)
        | None => handle_pending s group_map m payload_start_idx payload_end_idx guard
        end
      else Ret (s, guard, None)
  end.

(** The loop; [clock] is what the clock says at each packet. *)
Fixpoint handle_packets (group_map : ReBroadcastGroupMap) (clock : nat → option Z) (msg : RecvUdpMsg) (starts : list nat)
    (s : UdpState) (b : BroadcastBatcher) : exec (UdpState * BroadcastBatcher * list (NodeId * bytes)) :=
  match starts with
  | [] => Ret (s, b, [])
  | payload_start_idx :: starts =>
      '(s, guard, delivered) ← handle_packet group_map (clock payload_start_idx) msg payload_start_idx s (create_flush_guard b);
      b ← drop_guard guard;
      '(s, b, rest) ← handle_packets group_map clock msg starts s b;
      Ret (s, b, option_list delivered ++ rest)
  end.

(** [while pending_message_cache.len() > PENDING_MESSAGE_CACHE_SIZE] *)
Fixpoint evict_loop (fuel : nat) (c : cache MessageCacheKey DecoderState) : exec (cache MessageCacheKey DecoderState) :=
  if bool_decide (cache_len c > PENDING_MESSAGE_CACHE_SIZE) then
    match fuel with
    | O => OutOfFuel
    | S fuel =>
        '(_, c) ← expect (cache_pop_lru c);
        evict_loop fuel c
    end
  else Ret c.

(** [(0..payload.len()).step_by(stride)] *)
Definition packet_starts (msg : RecvUdpMsg) : exec (list nat) :=
  _ ← assert (bool_decide (stride msg ≠ 0));
  let n := Z.to_nat (div_ceil (Z.of_nat (length (payload msg))) (stride msg)) in
  Ret (map (λ i, i * Z.to_nat (stride msg))%nat (seq 0 n)).

(** The new state, the calls of [rebroadcast] and the decoded messages. *)
Definition handle_message (s : UdpState) (group_map : ReBroadcastGroupMap) (clock : nat → option Z) (msg : RecvUdpMsg) :
    exec (UdpState * list Rebroadcast * list (NodeId * bytes)) :=
  starts ← packet_starts msg;
  '(s, b, messages) ← handle_packets group_map clock msg starts s (batcher_new (payload msg) (stride msg));
  c ← evict_loop (Z.to_nat (cache_len (pending_message_cache s))) (pending_message_cache s);
  b ← flush b;
  Ret (with_pending s c, rebroadcasts b, messages).
End receive.
