(* ===== verification/RaptorcastRecv.v ===== *)
(** Receiving chunks: whatever bytes arrive, the receiver goes on, and it collects
    for every message the distinct symbols that its author signed. *)

From S2P Require Import Prelude Types ValidatorSet Crypto Merkle F64 RaptorTables RaptorCode RaptorCodeProps RaptorEncoderProps.
From S2P Require Import RaptorStructs RaptorDecoder RaptorDecoderInv RaptorDecoderSteps RaptorDecoderRun RaptorRuns RaptorProps.
From S2P Require Import RaptorcastGroups Raptorcast.

#[local] Open Scope Z_scope.

(** What is relied on of the caches: a lookup finds what was put, unless it was
    evicted, and a cache without a capacity evicts nothing. *)
Class LruLaws {K V : Type} `{Countable K} (L : Lru K V) := {
  cache_view : cache K V → gmap K V;
  cache_unbounded : cache K V → Prop;
  cview_new n : cache_view (cache_new n) = ∅;
  unbounded_new : cache_unbounded (cache_new None);
  cview_get c k : (cache_get c k).1 = cache_view c !! k ∧ cache_view (cache_get c k).2 = cache_view c;
  unbounded_get c k : cache_unbounded c → cache_unbounded (cache_get c k).2;
  cview_set c k v : is_Some (cache_view c !! k) → cache_view (cache_set c k v) = <[k := v]> (cache_view c);
  unbounded_set c k v : cache_unbounded c → cache_unbounded (cache_set c k v);
  cview_push c k v k' v' : cache_view (cache_push c k v) !! k' = Some v' → (k' = k ∧ v' = v) ∨ cache_view c !! k' = Some v';
  cview_push_unbounded c k v : cache_unbounded c → cache_view (cache_push c k v) = <[k := v]> (cache_view c);
  unbounded_push c k v : cache_unbounded c → cache_unbounded (cache_push c k v);
  cview_pop c k : (cache_pop c k).1 = cache_view c !! k ∧ cache_view (cache_pop c k).2 = delete k (cache_view c);
  unbounded_pop c k : cache_unbounded c → cache_unbounded (cache_pop c k).2;
  cview_pop_lru c : match cache_pop_lru c with
                   | Some (k, v, c') => is_Some (cache_view c !! k) ∧ cache_view c' = delete k (cache_view c)
                   | None => cache_view c = ∅
                   end;
  unbounded_pop_lru c k v c' : cache_unbounded c → cache_pop_lru c = Some (k, v, c') → cache_unbounded c';
  cview_len c : cache_len c = Z.of_nat (size (cache_view c));
}.

(** * Slices *)

Lemma slice_ok {A} (l : list A) start end_ : (start <= end_ <= length l)%nat → slice l start end_ = Ret (take (end_ - start) (drop start l)).
Proof. intros H. unfold slice. by rewrite bool_decide_true. Qed.

Lemma copy_ok buf off data :
  (off + length data <= length buf)%nat → copy_from_slice buf off data = Ret (take off buf ++ data ++ drop (off + length data) buf).
Proof. intros H. unfold copy_from_slice. by rewrite bool_decide_true. Qed.

Definition is_byte (b : Z) : Prop := 0 <= b < 256.

Lemma from_le_bytes_range l : Forall is_byte l → 0 <= from_le_bytes l < 256 ^ Z.of_nat (length l).
Proof.
  induction 1 as [|b l Hb Hl IH]; [done|]. cbn [length from_le_bytes foldr]. change (foldr _ 0 l) with (from_le_bytes l).
  rewrite Nat2Z.inj_succ, Z.pow_succ_r by lia. unfold is_byte in Hb. lia.
Qed.

Lemma split_off_inv mid cursor a b :
  split_off mid cursor = Ok (a, b) → cursor = a ++ b ∧ length a = mid.
Proof. unfold split_off. case_bool_decide; [done|]. intros [= <- <-]. rewrite take_drop, length_take. split; [done|lia]. Qed.

Lemma split_siblings_inv n cursor sibs rest :
  split_siblings n cursor = Ok (sibs, rest) → cursor = concat sibs ++ rest ∧ length sibs = n ∧ Forall (λ s, length s = 20%nat) sibs.
Proof.
  revert cursor sibs rest. induction n as [|n IH]; intros cursor sibs rest Hs; cbn [split_siblings] in Hs.
  { simplify_eq. by split_and!. }
  destruct (split_off 20 cursor) as [[a b]|] eqn:Ha; [|done]. destruct (split_siblings n b) as [[sibs' rest']|] eqn:Hb; [|done].
  simplify_eq. apply split_off_inv in Ha as [-> Hlen]. apply IH in Hb as (-> & <- & Hf). cbn [concat length].
  rewrite <-app_assoc. split_and!; [done|done|by constructor].
Qed.

(** * Parsing *)

Section parse.
Context `{P : Protocol} `{SC : !SignatureCodec} `{H : Hasher}.

(** The parts of a packet. *)
Record Packet := mkPacket {
  pk_signature : bytes;
  pk_flags : Z;
  pk_epoch : bytes;
  pk_ts : bytes;
  pk_hash : bytes;
  pk_len : bytes;
  pk_siblings : list MerkleHash;
  pk_recipient : bytes;
  pk_leaf_idx : Z;
  pk_reserved : Z;
  pk_id : bytes;
  pk_chunk : bytes;
}.

Definition pk_header (p : Packet) : bytes :=
  pk_signature p ++ [0; 0] ++ [pk_flags p] ++ pk_epoch p ++ pk_ts p ++ pk_hash p ++ pk_len p.
Definition pk_leaf (p : Packet) : bytes := pk_recipient p ++ [pk_leaf_idx p] ++ [pk_reserved p] ++ pk_id p ++ pk_chunk p.
Definition layout (p : Packet) : bytes := pk_header p ++ concat (pk_siblings p) ++ pk_leaf p.

Definition flags_depth (flags : Z) : Z := Z.land flags (Z.lxor 0xff (Z.shiftl 1 7)).
Definition flags_broadcast (flags : Z) : bool := bool_decide (Z.shiftr flags 7 ≠ 0).

Definition pk_message (p : Packet) (author : NodeId) : ValidatedMessage :=
  mkValidatedMessage (layout p) author (from_le_bytes (pk_epoch p)) (from_le_bytes (pk_ts p)) (pk_hash p)
    (from_le_bytes (pk_len p)) (flags_broadcast (pk_flags p)) (pk_recipient p) (from_le_bytes (pk_id p)) (pk_chunk p).

(** The sizes of the parts. *)
Record packet_sizes (p : Packet) : Prop := {
  ps_signature : length (pk_signature p) = SIGNATURE_SIZE;
  ps_epoch : length (pk_epoch p) = 8%nat;
  ps_ts : length (pk_ts p) = 8%nat;
  ps_hash : length (pk_hash p) = 20%nat;
  ps_len : length (pk_len p) = 4%nat;
  ps_siblings : Forall (λ s, length s = 20%nat) (pk_siblings p);
  ps_depth : Z.of_nat (length (pk_siblings p)) = flags_depth (pk_flags p) - 1;
  ps_depth_max : flags_depth (pk_flags p) <= MAX_MERKLE_TREE_DEPTH;
  ps_recipient : length (pk_recipient p) = 20%nat;
  ps_id : length (pk_id p) = 2%nat;
  ps_chunk : pk_chunk p ≠ [];
}.

(** The root that the proof of a packet leads to. *)
Definition pk_root (p : Packet) : option MerkleHash :=
  proof ← new_from_leaf_idx (pk_siblings p) (pk_leaf_idx p); compute_root proof (hasher (pk_leaf p)).

Lemma split_off_app a b n : length a = n → split_off n (a ++ b) = Ok (a, b).
Proof.
  intros <-. unfold split_off. rewrite bool_decide_false by (rewrite length_app; lia). by rewrite take_app_length, drop_app_length.
Qed.

Lemma split_siblings_app sibs rest :
  Forall (λ s, length s = 20%nat) sibs → split_siblings (length sibs) (concat sibs ++ rest) = Ok (sibs, rest).
Proof.
  induction 1 as [|s sibs Hs Hsibs IH]; [done|]. cbn [length split_siblings concat]. rewrite <-app_assoc.
  by rewrite (split_off_app s _ 20 Hs), IH.
Qed.

Lemma concat_length20 (sibs : list bytes) : Forall (λ s, length s = 20%nat) sibs → length (concat sibs) = (20 * length sibs)%nat.
Proof. induction 1 as [|s sibs Hs _ IH]; [done|]. cbn [concat length]. rewrite length_app, Hs, IH. lia. Qed.

Lemma pk_header_length p : packet_sizes p → length (pk_header p) = HEADER_LEN.
Proof. intros []. unfold pk_header. rewrite !length_app. simpl. unfold HEADER_LEN, SIGNATURE_SIZE in *. lia. Qed.

(** A packet that is laid out so parses, if its signature can be read, its time is
    right and its proof leads to a root. *)
Lemma parse_layout p signature root elapsed max_age_ms :
  packet_sizes p → st_deserialize (pk_signature p) = Some signature → pk_root p = Some root →
  ensure_valid_timestamp elapsed (from_le_bytes (pk_ts p)) max_age_ms = Ok tt →
  parse_fields (layout p) elapsed max_age_ms = Ret (Ok (pk_message p, signature, pk_header p ++ root)).
Proof.
  intros Hs Hsig Hroot Hts. pose proof Hs as [? ? ? ? ? ? Hd Hm ? ? Hc]. unfold parse_fields.
  assert (∀ A B C D E F G X Y : bytes, A ++ B ++ C ++ D ++ E ++ F ++ G ++ X ++ Y = (A ++ B ++ C ++ D ++ E ++ F ++ G) ++ X ++ Y) as Hassoc
    by (intros; by rewrite <-!app_assoc).
  assert (layout p = pk_signature p ++ [0; 0] ++ [pk_flags p] ++ pk_epoch p ++ pk_ts p ++ pk_hash p ++ pk_len p ++
    concat (pk_siblings p) ++ pk_leaf p) as Hl by (unfold layout, pk_header; by rewrite Hassoc).
  rewrite Hl at 1. rewrite split_off_app by done. cbn [try_bind]. rewrite Hsig. cbn [ok_or try_bind].
  rewrite split_off_app by done. cbn [try_bind]. rewrite (bool_decide_false (from_le_bytes [0; 0] ≠ 0)) by (simpl; lia).
  rewrite split_off_app by done. cbn [try_bind head expect mbind exec_bind].
  change (Z.land (pk_flags p) (Z.lxor 255 (Z.shiftl 1 7))) with (flags_depth (pk_flags p)).
  rewrite (bool_decide_false (¬ _)) by (unfold MIN_MERKLE_TREE_DEPTH; lia).
  rewrite split_off_app by done. cbn [try_bind]. rewrite split_off_app by done. cbn [try_bind]. rewrite Hts. cbn [try_bind].
  rewrite split_off_app by done. cbn [try_bind]. rewrite split_off_app by done. cbn [try_bind].
  replace (Z.to_nat (flags_depth (pk_flags p) - 1)) with (length (pk_siblings p)) by lia.
  rewrite split_siblings_app by done. cbn [try_bind]. unfold pk_leaf at 1.
  rewrite split_off_app by done. cbn [try_bind]. rewrite split_off_app by done. cbn [try_bind head expect mbind exec_bind].
  unfold pk_root in Hroot. destruct (new_from_leaf_idx (pk_siblings p) (pk_leaf_idx p)) as [proof|]; [|done]. cbn [ok_or try_bind].
  rewrite split_off_app by done. cbn [try_bind]. rewrite split_off_app by done. cbn [try_bind].
  rewrite (bool_decide_false (pk_chunk p = [])) by done.
  rewrite (slice_ok _ (HEADER_LEN + 20 * length (pk_siblings p)))
    by (unfold layout; rewrite !length_app, pk_header_length, concat_length20 by done; lia). cbn [mbind exec_bind].
  assert (drop (HEADER_LEN + 20 * length (pk_siblings p)) (layout p) = pk_leaf p) as Hleaf.
  { unfold layout. rewrite app_assoc. apply drop_app_length'. rewrite length_app, pk_header_length, concat_length20 by done. lia. }
  rewrite (take_ge (drop (HEADER_LEN + 20 * length (pk_siblings p)) (layout p))) by (rewrite length_drop; lia).
  rewrite Hleaf. cbn in Hroot. rewrite Hroot. cbn [ok_or try_bind].
  rewrite slice_ok by (unfold layout; rewrite !length_app, pk_header_length by done; lia). cbn [mbind exec_bind].
  rewrite Nat.sub_0_r, drop_0. unfold pk_message, flags_broadcast. do 4 f_equal. unfold layout. by rewrite take_app_length' by (symmetry; by apply pk_header_length).
Qed.

Ltac parse_err := eexists; split; [reflexivity|]; intros ???; discriminate.
Ltac parse_step a b Hab :=
  match goal with |- context [split_off ?n ?c] =>
    destruct (split_off n c) as [[a b]|] eqn:Hab; cbn [try_bind]; [apply split_off_inv in Hab as [-> Hab]|parse_err]
  end.

(** Parsing never panics, and what parses is laid out so. *)
Lemma parse_fields_spec message elapsed max_age_ms :
  Forall is_byte message →
  ∃ r, parse_fields message elapsed max_age_ms = Ret r ∧
    ∀ v signature signed_over, r = Ok (v, signature, signed_over) →
      ∃ p root, message = layout p ∧ packet_sizes p ∧ st_deserialize (pk_signature p) = Some signature ∧
        pk_root p = Some root ∧ v = pk_message p ∧ signed_over = pk_header p ++ root.
Proof.
  intros Hbytes. unfold parse_fields. set (msg := message) at 2 3 4 5. parse_step sg c1 Hsig.
  destruct (st_deserialize sg) as [signature|] eqn:Hde; cbn [ok_or try_bind]; [|parse_err].
  parse_step ver c2 Hver. case_bool_decide as Hv0; [parse_err|]. parse_step fl c3 Hfl.
  destruct fl as [|flags []]; try done. cbn [head expect mbind exec_bind].
  change (Z.land flags (Z.lxor 255 (Z.shiftl 1 7))) with (flags_depth flags).
  case_bool_decide as Hd; [parse_err|].
  parse_step ep c4 Hep. parse_step ts c5 Hts.
  destruct (ensure_valid_timestamp _ _ _) as [[]|]; cbn [try_bind]; [|parse_err].
  parse_step h c6 Hh. parse_step ln c7 Hlen.
  destruct (split_siblings _ c7) as [[sibs c8]|] eqn:Hsibs; cbn [try_bind]; [|parse_err].
  apply split_siblings_inv in Hsibs as (-> & Hn & Hs20). parse_step rcp c9 Hrcp. parse_step idx c10 Hidx.
  destruct idx as [|idx []]; try done. cbn [head expect mbind exec_bind].
  destruct (new_from_leaf_idx sibs idx) as [proof|] eqn:Hproof; cbn [ok_or try_bind]; [|parse_err].
  parse_step res c11 Hres. destruct res as [|res []]; try done. parse_step eid chunk Hid.
  case_bool_decide as Hchunk; [parse_err|].
  assert (ver = [0; 0]) as ->.
  { destruct ver as [|a [|b []]]; try done. rewrite !Forall_app, !Forall_cons in Hbytes. unfold is_byte in Hbytes.
    unfold from_le_bytes in Hv0. simpl in Hv0. f_equal; [lia|]. f_equal. lia. }
  set (p := mkPacket sg flags ep ts h ln sibs rcp idx res eid chunk).
  assert (packet_sizes p) as Hp by (constructor; simpl; try done; unfold MIN_MERKLE_TREE_DEPTH in *; lia).
  assert (msg = layout p) as Hmsg by (unfold msg, layout, pk_header, pk_leaf; cbn; rewrite <-!app_assoc; cbn; by rewrite <-!app_assoc).
  rewrite Hmsg.
  rewrite (slice_ok _ (HEADER_LEN + 20 * Z.to_nat (flags_depth flags - 1))).
  2:{ unfold layout. rewrite !length_app, pk_header_length, concat_length20 by done. simpl. lia. }
  cbn [mbind exec_bind].
  assert (drop (HEADER_LEN + 20 * Z.to_nat (flags_depth flags - 1)) (layout p) = pk_leaf p) as Hleaf.
  { unfold layout. rewrite app_assoc. apply drop_app_length'. rewrite length_app, pk_header_length, concat_length20 by done. simpl. lia. }
  rewrite Hleaf. rewrite take_ge by (rewrite <-Hleaf, length_drop; lia).
  destruct (compute_root proof (hasher (pk_leaf p))) as [root|] eqn:Hroot; cbn [ok_or try_bind]; [|parse_err].
  rewrite slice_ok. 2:{ unfold layout. rewrite !length_app, pk_header_length by done. lia. }
  cbn [mbind exec_bind]. rewrite Nat.sub_0_r, drop_0. eexists. split; [reflexivity|]. intros v sig' so [= <- <- <-].
  exists p, root. split_and!; [exact Hmsg|done|done| |done|].
  - unfold pk_root. change (new_from_leaf_idx (pk_siblings p) (pk_leaf_idx p)) with (new_from_leaf_idx sibs idx).
    rewrite Hproof. exact Hroot.
  - unfold layout. by rewrite take_app_length' by (symmetry; by apply pk_header_length).
Qed.
End parse.

(** * The receiver *)

(** The number of source symbols of a message, and the ids that are accepted. *)
Definition source_symbols (app_message_len : Z) (n : nat) : nat := Z.to_nat (Z.max (div_ceil app_message_len (Z.of_nat n)) 1).
Definition symbol_capacity (app_message_len : Z) (n : nat) : nat := 7 * source_symbols app_message_len n.

(** Enough symbols are there for decoding with inactivated symbols. *)
Definition enough_symbols (m : ManagedDecoder) : Prop :=
  (inactivation_symbol_threshold m <= length (buffer_state (decoder m)) - num_redundant_buffers (decoder m))%nat.

(** A decoder that received the symbols [rx] of [n] bytes, and could not decode
    them. *)
Record decoder_ok (app_message_len : Z) (n : nat) (rx : list (nat * bytes)) (ds : DecoderState) (p : CodeParameters) : Prop := {
  dk_params : code_parameters_new (Z.of_nat (source_symbols app_message_len n)) = Some p;
  dk_managed : managed_ok n (source_symbols app_message_len n) p rx (ds_decoder ds);
  dk_pos : (0 < n)%nat;
  dk_capacity : ds_encoded_symbol_capacity ds = symbol_capacity app_message_len n;
  dk_seen_length : length (ds_seen_esis ds) = symbol_capacity app_message_len n;
  dk_seen i : ds_seen_esis ds !! i = Some true ↔ i ∈ rx.*1;
  dk_distinct : NoDup rx.*1;
  dk_tried C : rx ≠ [] → enough_symbols (ds_decoder ds) → (∀ i, length (C i) = n) → explains_received n p rx C → ¬ determines n p rx;
}.

(** The symbols received for every pending message. *)
Notation pending_symbols := (gmap MessageCacheKey (nat * list (nat * bytes))) (only parsing).

Definition symbol_ok (m : ValidatedMessage) (n : nat) (rx : list (nat * bytes)) : Prop :=
  n = length (vm_chunk m) ∧ (Z.to_nat (vm_chunk_id m) < symbol_capacity (vm_app_message_len m) n)%nat ∧
  Z.to_nat (vm_chunk_id m) ∉ rx.*1.
#[export] Instance symbol_ok_dec m n rx : Decision (symbol_ok m n rx).
Proof. unfold symbol_ok. apply _. Defined.

(** ** One chunk *)

Lemma source_symbols_pos len n : (1 <= source_symbols len n)%nat.
Proof. unfold source_symbols. lia. Qed.

Lemma div_ceil_le a b : 0 < b → a <= b * div_ceil a b.
Proof. intros Hb. unfold div_ceil. pose proof (Z.div_mod (a + b - 1) b). pose proof (Z.mod_pos_bound (a + b - 1) b). lia. Qed.

Lemma div_ceil_range a b : 0 <= a → 0 < b → 0 <= div_ceil a b <= a.
Proof.
  intros Ha Hb. unfold div_ceil. split; [apply Z.div_pos; lia|].
  destruct (decide (a = 0)) as [->|]; [rewrite Z.div_small; lia|]. apply Z.div_le_upper_bound; [lia|]. nia.
Qed.

(** The symbols of a message hold the message. *)
Lemma source_symbols_cover len n : 0 <= len → (0 < n)%nat → (Z.to_nat len <= source_symbols len n * n)%nat.
Proof. intros Hlen Hn. unfold source_symbols. pose proof (div_ceil_le len (Z.of_nat n) ltac:(lia)). nia. Qed.

Lemma scale_ok r base : 0 <= base < 2 ^ 32 → 0 <= to_bits r < 2 ^ 16 → scale r base = Some (div_ceil (to_bits r * base) 2048).
Proof.
  intros Hb Hr. unfold scale. rewrite bool_decide_false by (change MAX_MULTIPLIER with 281479271743489; lia).
  rewrite bool_decide_true by (unfold usize_max, u64_max; nia). done.
Qed.

Lemma decoder_state_new_spec len n :
  0 <= len < 2 ^ 32 → (0 < n)%nat →
  ∃ o, decoder_state_new (Z.to_nat len) n = Ret o ∧
    match o with
    | Some ds => ∃ p, decoder_ok len n [] ds p
    | None => (Z.to_nat SOURCE_SYMBOLS_MAX < source_symbols len n)%nat
    end.
Proof.
  intros Hlen Hn. unfold decoder_state_new. rewrite bool_decide_true by lia. cbn [assert mbind exec_bind].
  rewrite Z2Nat.id by lia. pose proof (div_ceil_range len (Z.of_nat n) ltac:(lia) ltac:(lia)) as Hd.
  rewrite scale_ok by (unfold SOURCE_SYMBOLS_MIN; change (to_bits MAX_REDUNDANCY) with 14336; lia). cbn [expect mbind exec_bind].
  set (k := Z.max (div_ceil len (Z.of_nat n)) SOURCE_SYMBOLS_MIN).
  assert (Z.to_nat k = source_symbols len n) as Hk by done.
  assert (Z.to_nat (div_ceil (to_bits MAX_REDUNDANCY * k) 2048) = symbol_capacity len n) as ->.
  { unfold symbol_capacity. rewrite <-Hk. change (to_bits MAX_REDUNDANCY) with (7 * 2048). unfold div_ceil.
    replace (7 * 2048 * k + 2048 - 1) with (2047 + (7 * k) * 2048) by lia. rewrite Z.div_add by lia. change (2047 / 2048) with 0. lia. }
  rewrite Hk. pose proof (source_symbols_pos len n) as Hpos.
  destruct (decide (Z.of_nat (source_symbols len n) <= SOURCE_SYMBOLS_MAX)) as [Hmax|Hmax].
  - destruct (managed_new_spec n (source_symbols len n)) as (p & m & Hp & -> & Hm); [unfold SOURCE_SYMBOLS_MIN; lia|].
    cbn [mbind exec_bind]. eexists. split; [reflexivity|]. exists p.
    constructor; cbn [ds_decoder ds_encoded_symbol_capacity ds_seen_esis]; try done; [by rewrite length_replicate| |constructor].
    intros i. split; [|by intros ?%elem_of_nil]. by intros [? _]%lookup_replicate.
  - unfold managed_new, with_capacity. rewrite bool_decide_false by lia. cbn [mbind exec_bind].
    eexists. split; [reflexivity|]. cbv beta iota. lia.
Qed.

Lemma is_valid_symbol_spec m n cap seen :
  length seen = cap →
  is_valid_symbol m n cap seen =
  Ret (bool_decide (n = length (vm_chunk m) ∧ (Z.to_nat (vm_chunk_id m) < cap)%nat ∧ seen !! Z.to_nat (vm_chunk_id m) = Some false)).
Proof.
  intros Hlen. unfold is_valid_symbol. case_bool_decide as Hn; [by rewrite bool_decide_false by tauto|].
  case_bool_decide as Hc; [by rewrite bool_decide_false by lia|].
  destruct (lookup_lt_is_Some_2 seen (Z.to_nat (vm_chunk_id m))) as [b Hb]; [lia|]. rewrite Hb. cbn. f_equal. symmetry.
  destruct b; simpl; [apply bool_decide_eq_false|apply bool_decide_eq_true]; [naive_solver|]. by split_and!; [|lia|].
Qed.

Lemma decoder_bounds len n rx ds p :
  decoder_ok len n rx ds p →
  (Z.of_nat (source_symbols len n) <= 8192) ∧ (length rx <= symbol_capacity len n)%nat ∧
  Z.of_nat (length (buffer_state (decoder (ds_decoder ds)))) <= 227 + Z.of_nat (length rx).
Proof.
  intros [_ [Hr Hp _ Hsrc _ Hbuf _] _ _ Hlen Hseen Hnd _]. pose proof (st_params _ _ _ _ (inv_struct _ _ _ _ _ _ _ _ Hr)) as Hok.
  rewrite Hp in Hok. destruct Hok. rewrite Hsrc in *. split; [lia|]. split; [|lia].
  assert (rx.*1 ⊆+ seq 0 (symbol_capacity len n)) as Hsub.
  { apply NoDup_submseteq; [done|]. intros i Hi%Hseen%lookup_lt_Some. apply elem_of_seq. lia. }
  apply submseteq_length in Hsub. by rewrite length_fmap, length_seq in Hsub.
Qed.

(** A valid symbol is taken in, and decoding is tried. *)
Lemma symbol_received n rx ds p m :
  decoder_ok (vm_app_message_len m) n rx ds p → symbol_ok m n rx →
  let id := Z.to_nat (vm_chunk_id m) in
  let rx' := rx ++ [(id, vm_chunk m)] in
  ∃ seen d1 d2 r, set_seen (ds_seen_esis ds) id = Ret seen ∧
    managed_received_encoded_symbol (ds_decoder ds) (vm_chunk m) id = Ret d1 ∧ managed_try_decode d1 = Ret (d2, r) ∧
    managed_ok n (source_symbols (vm_app_message_len m) n) p rx' d2 ∧ managed_decoding_done d2 = r ∧
    length seen = ds_encoded_symbol_capacity ds ∧
    ∀ rc, r = false → decoder_ok (vm_app_message_len m) n rx' (mkDecoderState d2 rc (ds_encoded_symbol_capacity ds) seen) p.
Proof.
  intros Hd (Hn & Hid & Hnew) id rx'. pose proof (decoder_bounds _ _ _ _ _ Hd) as (Hk & Hrx & Hbuf).
  destruct Hd as [Hp Hm Hpos Hcap Hlen Hseen Hnd _]. unfold set_seen. rewrite bool_decide_true by lia. cbn [assert mbind exec_bind].
  fold id in Hid, Hnew. unfold symbol_capacity in Hid, Hrx.
  destruct (managed_received_spec n _ p rx (ds_decoder ds) id (vm_chunk m) Hm) as (d1 & -> & Hm1); [unfold MAX_TRIPLES; lia|done|lia|].
  destruct (managed_try_decode_spec _ _ _ _ _ Hm1) as (d2 & r & Htry & Hm2 & Hr & Hstuck).
  destruct (managed_try_decode_frame _ _ _ _ _ _ _ Hm1 Htry) as [Hth Hbuf'].
  eexists _, d1, d2, r. split; [done|]. split; [done|]. split; [done|]. split; [done|]. split; [done|].
  split; [rewrite length_insert; congruence|]. intros rc Hf.
  constructor; cbn [ds_decoder ds_encoded_symbol_capacity ds_seen_esis]; try done.
  - by rewrite length_insert.
  - intros i. subst rx'. rewrite fmap_app, elem_of_app, <-Hseen. cbn. rewrite list_elem_of_singleton. destruct (decide (i = id)) as [->|Hne].
    + rewrite list_lookup_insert_eq by (rewrite Hlen; unfold symbol_capacity; lia). split; [by right|done].
    + rewrite list_lookup_insert_ne by done. naive_solver.
  - subst rx'. rewrite fmap_app. apply NoDup_app. split; [done|]. split; [|apply NoDup_singleton]. intros i Hi Hi'.
    cbn in Hi'. apply list_elem_of_singleton in Hi' as ->. done.
  - intros C _ Henough HC Hex. apply (stuck_undetermined n _ p rx' d2 C Hpos Hm2); try done; [|congruence].
    apply Hstuck; [done|]. unfold enough_symbols in Henough. rewrite Hth in Henough. lia.
Qed.

Section receive.
Context `{P : Protocol} `{SC : !SignatureCodec} `{H : Hasher}.
Context `{LS : !Lru bytes NodeId} `{LP : !Lru MessageCacheKey DecoderState} `{LD : !Lru MessageCacheKey RecentlyDecodedState}.
Context `{!LruLaws LS} `{!LruLaws LP} `{!LruLaws LD}.

(** The header and the root were signed by [author]. *)
Definition signed_by (signed_over : bytes) (author : NodeId) : Prop :=
  ∃ signature, st_deserialize (take SIGNATURE_SIZE signed_over) = Some signature ∧
    st_recover_pubkey SD_RaptorcastChunk (drop SIGNATURE_SIZE signed_over) signature = Some author.

Definition signatures_ok (c : cache bytes NodeId) : Prop :=
  ∀ signed_over author, cache_view c !! signed_over = Some author → signed_by signed_over author.

(** The packet [message] is a chunk that the author of [m] signed. *)
Definition authentic (message : bytes) (m : ValidatedMessage) : Prop :=
  ∃ p root, message = layout p ∧ packet_sizes p ∧ pk_root p = Some root ∧ signed_by (pk_header p ++ root) (vm_author m) ∧
    m = pk_message p (vm_author m).

Lemma take_signature p rest : packet_sizes p → take SIGNATURE_SIZE (pk_header p ++ rest) = pk_signature p.
Proof. intros Hp. unfold pk_header. rewrite <-app_assoc. apply take_app_length'. by rewrite (ps_signature _ Hp). Qed.

Lemma cached_author_spec c signature signed_over :
  signatures_ok c → st_deserialize (take SIGNATURE_SIZE signed_over) = Some signature →
  let r := st_recover_pubkey SD_RaptorcastChunk (drop SIGNATURE_SIZE signed_over) signature in
  (cached_author c signature signed_over).1 = ok_or r InvalidSignature ∧ signatures_ok (cached_author c signature signed_over).2.
Proof.
  intros Hc Hsig r. unfold cached_author, recover_author. fold r.
  destruct (cview_get c signed_over) as [Hget Hview]. destruct (cache_get c signed_over) as [found c']. simpl in Hget, Hview.
  assert (signatures_ok c') as Hc' by (intros so a; rewrite Hview; apply Hc).
  destruct found as [author|].
  - symmetry in Hget. destruct (Hc _ _ Hget) as (sg & Hsg & Hrec). rewrite Hsig in Hsg. injection Hsg as <-. subst r. by rewrite Hrec.
  - destruct r as [author|] eqn:Hr; [|done]. simpl. split; [done|]. intros so a [[-> ->]|Hso]%cview_push; [|by apply Hc'].
    by exists signature.
Qed.

Lemma parse_message_spec c message elapsed age :
  signatures_ok c → Forall is_byte message →
  ∃ r c', parse_message c message elapsed age = Ret (r, c') ∧ signatures_ok c' ∧ ∀ m, r = Ok m → authentic message m.
Proof.
  intros Hc Hb. unfold parse_message. destruct (parse_fields_spec message elapsed age Hb) as (r & -> & Hr). cbn [mbind exec_bind].
  destruct r as [[[v signature] signed_over]|e]; [|by eexists _, _].
  destruct (Hr _ _ _ eq_refl) as (p & root & Hmsg & Hp & Hsig & Hroot & -> & ->).
  rewrite <-(take_signature p root Hp) in Hsig. pose proof (cached_author_spec c signature (pk_header p ++ root) Hc Hsig) as [Ha Hc'].
  destruct (cached_author _ _ _) as [author c']. simpl in *. eexists _, _. split; [done|]. split; [done|]. intros m Hm.
  rewrite Ha in Hm. destruct (st_recover_pubkey _ _ _) as [a|] eqn:Hrec; [|done]. simpl in Hm. injection Hm as <-.
  exists p, root. split_and!; try done. by exists signature.
Qed.

(** What is laid out and signed so is accepted, with whatever is in the cache. *)
Lemma parse_message_accepts c p root author elapsed age :
  signatures_ok c → packet_sizes p → pk_root p = Some root → signed_by (pk_header p ++ root) author →
  ensure_valid_timestamp elapsed (from_le_bytes (pk_ts p)) age = Ok tt →
  ∃ c', parse_message c (layout p) elapsed age = Ret (Ok (pk_message p author), c') ∧ signatures_ok c'.
Proof.
  intros Hc Hp Hroot (signature & Hsig & Hrec) Hts. unfold parse_message.
  rewrite (parse_layout p signature root) by (done || by rewrite take_signature in Hsig). cbn [mbind exec_bind].
  pose proof (cached_author_spec c signature (pk_header p ++ root) Hc Hsig) as [Ha Hc'].
  destruct (cached_author _ _ _) as [a c']. simpl in *. subst a. rewrite Hrec. simpl. by eexists.
Qed.
(** The state holds the decoders of the symbols in [G]. *)
Definition pending_ok (c : cache MessageCacheKey DecoderState) (G : pending_symbols) (k : MessageCacheKey) : Prop :=
  match cache_view c !! k, G !! k with
  | Some ds, Some (n, rx) => ∃ p, decoder_ok (key_app_message_len k) n rx ds p
  | None, None => True
  | _, _ => False
  end.
Record udp_ok (s : UdpState) (G : pending_symbols) : Prop := {
  uo_signatures : signatures_ok (signature_cache s);
  uo_unbounded : cache_unbounded (pending_message_cache s);
  uo_pending k : pending_ok (pending_message_cache s) G k;
  uo_recent k rd : cache_view (recently_decoded_cache s) !! k = Some rd → length (rd_seen_esis rd) = rd_encoded_symbol_capacity rd;
}.

Lemma udp_state_new_ok self_id max_age_ms : udp_ok (udp_state_new self_id max_age_ms) ∅.
Proof.
  constructor; cbn.
  - intros so a. rewrite cview_new. by rewrite lookup_empty.
  - apply unbounded_new.
  - intros k. unfold pending_ok. rewrite cview_new. by rewrite !lookup_empty.
  - intros k rd. rewrite cview_new. by rewrite lookup_empty.
Qed.

(** [out] is what the symbols [rx] encode. *)
Definition decodes (n k : nat) (p : CodeParameters) (rx : list (nat * bytes)) (out : bytes) : Prop :=
  length out = (k * n)%nat ∧ determines n p rx ∧
  ∀ C, (∀ i, length (C i) = n) → explains_received n p rx C → out = concat (map C (seq 0 k)).

(** The effect of a chunk on the symbols of its message, and what it delivers. *)
Inductive chunk_step (m : ValidatedMessage) (G : pending_symbols) : pending_symbols → option (NodeId * bytes) → Prop :=
| cs_too_large :
    G !! message_key m = None →
    (Z.to_nat SOURCE_SYMBOLS_MAX < source_symbols (vm_app_message_len m) (length (vm_chunk m)))%nat →
    chunk_step m G G None
| cs_invalid n rx :
    default (length (vm_chunk m), []) (G !! message_key m) = (n, rx) → ¬ symbol_ok m n rx →
    chunk_step m G (<[message_key m := (n, rx)]> G) None
| cs_kept n rx :
    default (length (vm_chunk m), []) (G !! message_key m) = (n, rx) → symbol_ok m n rx →
    chunk_step m G (<[message_key m := (n, rx ++ [(Z.to_nat (vm_chunk_id m), vm_chunk m)])]> G) None
| cs_decoded n rx p out :
    default (length (vm_chunk m), []) (G !! message_key m) = (n, rx) → symbol_ok m n rx →
    code_parameters_new (Z.of_nat (source_symbols (vm_app_message_len m) n)) = Some p →
    decodes n (source_symbols (vm_app_message_len m) n) p (rx ++ [(Z.to_nat (vm_chunk_id m), vm_chunk m)]) out →
    let message := take (Z.to_nat (vm_app_message_len m)) out in
    chunk_step m G (delete (message_key m) G)
      (if bool_decide (take 20 (hasher message) = vm_app_message_hash m) then Some (vm_author m, message) else None).

(** A message comes with the bounds of its fields. *)
Definition message_ok (m : ValidatedMessage) : Prop := 0 <= vm_app_message_len m < 2 ^ 32 ∧ vm_chunk m ≠ [].

Lemma authentic_ok message m : Forall is_byte message → authentic message m → message_ok m.
Proof.
  intros Hb (p & root & -> & Hp & _ & _ & ->). split; [|apply (ps_chunk _ Hp)]. cbn.
  assert (Forall is_byte (pk_len p)) as Hl.
  { unfold layout, pk_header in Hb. rewrite !Forall_app in Hb. tauto. }
  apply from_le_bytes_range in Hl. by rewrite (ps_len _ Hp) in Hl.
Qed.

(** The recently decoded messages stay the same, but for the one of [m]. *)
Definition recent_kept (s s' : UdpState) (m : ValidatedMessage) (delivered : option (NodeId * bytes)) : Prop :=
  ∀ k, is_Some (cache_view (recently_decoded_cache s') !! k) →
    is_Some (cache_view (recently_decoded_cache s) !! k) ∨ k = message_key m ∧ is_Some delivered.

(** The decoder of a message, old or new *)
Lemma pending_decoder_spec s G m :
  udp_ok s G → message_ok m →
  ∃ o s', pending_decoder s m = Ret (o, s') ∧ self_id s' = self_id s ∧ max_age_ms s' = max_age_ms s ∧
    recently_decoded_cache s' = recently_decoded_cache s ∧
    match o with
    | None => G !! message_key m = None ∧ udp_ok s' G ∧
        (Z.to_nat SOURCE_SYMBOLS_MAX < source_symbols (vm_app_message_len m) (length (vm_chunk m)))%nat
    | Some ds => ∃ n rx p, default (length (vm_chunk m), []) (G !! message_key m) = (n, rx) ∧
        decoder_ok (vm_app_message_len m) n rx ds p ∧ udp_ok s' (<[message_key m := (n, rx)]> G) ∧
        is_Some (cache_view (pending_message_cache s') !! message_key m)
    end.
Proof.
  intros [Hsig Hunb Hpend Hrec] [Hlen Hchunk]. unfold pending_decoder. set (key := message_key m).
  destruct (cview_get (pending_message_cache s) key) as [Hget Hview]. pose proof (unbounded_get (pending_message_cache s) key Hunb) as Hunb'.
  pose proof (Hpend key) as Hk. unfold pending_ok in *. destruct (cache_get _ key) as [found c]. simpl in Hget, Hview, Hunb'. rewrite <-Hget in Hk.
  destruct found as [ds|].
  - destruct (G !! key) as [[n rx]|] eqn:HG; [|done]. destruct Hk as [p Hd]. eexists (Some ds), _. split; [done|]. do 3 (split; [done|]).
    exists n, rx, p. split; [done|]. split; [done|]. rewrite insert_id by done. cbn. rewrite Hview, <-Hget. split; [|done].
    constructor; cbn; try done. intros k. unfold pending_ok. rewrite Hview. apply Hpend.
  - destruct (G !! key) as [[n rx]|] eqn:HG; [done|].
    assert (0 < length (vm_chunk m))%nat as Hpos by (destruct (vm_chunk m); [done|simpl; lia]).
    destruct (decoder_state_new_spec _ _ Hlen Hpos) as (o & -> & Ho). cbn [mbind exec_bind]. destruct o as [ds|].
    + destruct Ho as [p Hd]. eexists (Some ds), _. split; [done|]. do 3 (split; [done|]). exists (length (vm_chunk m)), [], p.
      split; [done|]. split; [done|]. cbn. rewrite cview_push_unbounded by done. rewrite lookup_insert_eq. split; [|done].
      constructor; cbn; try done; [by apply unbounded_push|]. intros k. unfold pending_ok. rewrite cview_push_unbounded by done.
      destruct (decide (k = key)) as [->|Hne]; [rewrite !lookup_insert_eq; by exists p|].
      rewrite !lookup_insert_ne by done. rewrite Hview. apply Hpend.
    + eexists None, _. split; [done|]. do 3 (split; [done|]). split; [done|]. split; [|done].
      constructor; cbn; try done. intros k. unfold pending_ok. rewrite Hview. apply Hpend.
Qed.

(** ** Passing chunks on *)

Section batches.
Context (gm : ReBroadcastGroupMap) (self : NodeId) (msg : RecvUdpMsg).

Definition packet_at (start : nat) : bytes := take (Z.to_nat (stride msg)) (drop start (payload msg)).

(** The packet at [start] is a chunk that this node has to pass on. *)
Definition to_pass_on (author : NodeId) (start : nat) (m : ValidatedMessage) : Prop :=
  authentic (packet_at start) m ∧ vm_author m = author ∧ vm_broadcast m = true ∧
  vm_recipient_hash m = compute_hash pubkey_bytes self ∧ check_source gm (vm_epoch m) author = true.

(** The [n] packets from the [i]th on are such chunks, all of one author, and the
    targets are the peers for the first of them. *)
Record passed_on (author : NodeId) (targets : list NodeId) (i n : nat) : Prop := {
  pa_some : (0 < n)%nat;
  pa_range : ((i + n - 1) * Z.to_nat (stride msg) < length (payload msg))%nat;
  pa_first : ∃ m, to_pass_on author (i * Z.to_nat (stride msg)) m ∧ rebroadcast_targets gm (vm_epoch m) author = Ret targets;
  pa_all j : (i <= j < i + n)%nat → ∃ m, to_pass_on author (j * Z.to_nat (stride msg)) m;
}.

Definition packets_from (i n : nat) : bytes := concat (map (λ j, packet_at (j * Z.to_nat (stride msg))) (seq i n)).

(** What is passed on are whole packets of the datagram, one after the other. *)
Definition rebroadcast_ok (r : list NodeId * bytes * Z) : Prop :=
  ∃ author i n, passed_on author r.1.1 i n ∧ r.1.2 = packets_from i n ∧ r.2 = stride msg.

(** The end of the [n] packets from the [i]th on. *)
Definition packets_end (i n : nat) : nat := Nat.min ((i + n) * Z.to_nat (stride msg)) (length (payload msg)).

Lemma packets_from_slice i n :
  (0 < n)%nat → ((i + n - 1) * Z.to_nat (stride msg) < length (payload msg))%nat →
  take (packets_end i n - i * Z.to_nat (stride msg)) (drop (i * Z.to_nat (stride msg)) (payload msg)) = packets_from i n.
Proof.
  set (st := Z.to_nat (stride msg)). destruct n as [|n]; [lia|]. intros _. revert i. induction n as [|n IH]; intros i Hlt.
  - unfold packets_from, packets_end, packet_at. cbn. rewrite app_nil_r. fold st.
    destruct (decide ((i + 1) * st <= length (payload msg))%nat); [f_equal; lia|]. rewrite !take_ge; [done|rewrite length_drop; lia..].
  - change (packets_from i (S (S n))) with (packet_at (i * st) ++ packets_from (S i) (S n)). rewrite <-IH by lia. unfold packet_at, packets_end.
    fold st. replace (S i * st)%nat with (i * st + st)%nat by lia. rewrite <-drop_drop, take_take_drop. f_equal.
    replace ((S i + S n) * st)%nat with ((i + S (S n)) * st)%nat by lia. nia.
Qed.

(** The batch ends at [pos]. *)
Record batcher_ok (b : BroadcastBatcher) (pos : nat) : Prop := {
  bo_message : batcher_message b = payload msg;
  bo_stride : batcher_stride b = stride msg;
  bo_batch c : batch b = Some c → batch_end_idx c = pos ∧
    ∃ i n, batch_start_idx c = (i * Z.to_nat (stride msg))%nat ∧ pos = packets_end i n ∧ passed_on (batch_author c) (batch_targets c) i n;
  bo_rebroadcasts : Forall rebroadcast_ok (rebroadcasts b);
}.

Lemma flush_spec b pos pos' :
  batcher_ok b pos → ∃ b', flush b = Ret b' ∧ batch b' = None ∧ batcher_ok b' pos'.
Proof.
  intros [Hm Hs Hb Hr]. unfold flush. destruct (batch b) as [c|] eqn:Hbc.
  - destruct (Hb c eq_refl) as [-> (i & n & -> & -> & Hp)]. destruct (Hp) as [Hn Hlt _ _].
    rewrite slice_ok by (rewrite Hm; unfold packets_end; nia). cbn. eexists. split; [done|]. split; [done|].
    constructor; cbn; try done. apply Forall_app. split; [done|]. rewrite Forall_singleton. rewrite Hm, packets_from_slice by done.
    by exists (batch_author c), i, n.
  - exists b. split; [done|]. split; [done|]. constructor; try done. intros c Hc. congruence.
Qed.

Lemma queue_broadcast_spec b f i m targets tl :
  let start := (i * Z.to_nat (stride msg))%nat in
  let end_ := Nat.min (start + Z.to_nat (stride msg)) (length (payload msg)) in
  0 < stride msg → (start < length (payload msg))%nat → batcher_ok b start → to_pass_on (vm_author m) start m →
  targets tt = Ret tl → rebroadcast_targets gm (vm_epoch m) (vm_author m) = Ret tl →
  ∃ b', queue_broadcast (b, f) start end_ (vm_author m) targets = Ret (b', false) ∧ batcher_ok b' end_.
Proof.
  intros start end_ Hstride Hstart Hb Hpass Htl Hreb. unfold queue_broadcast. cbn [fst].
  assert (passed_on (vm_author m) tl i 1 ∧ end_ = packets_end i 1) as [Hnew Hend].
  { split; [|unfold end_, packets_end, start; f_equal; lia]. constructor; [lia|by replace (i + 1 - 1)%nat with i by lia|by exists m|].
    intros t Ht. replace t with i by lia. by exists m. }
  destruct (batch b) as [c|] eqn:Hbc.
  - case_bool_decide as Ha.
    + destruct (bo_batch _ _ Hb c Hbc) as [He (i0 & n0 & Hs0 & Hp0 & Hp)]. rewrite bool_decide_true by done. cbn. eexists. split; [done|].
      assert (i0 + n0 = i)%nat as Hi by (unfold packets_end, start in *; nia).
      destruct Hb. constructor; cbn; try done. intros c' [= <-]. cbn. split; [done|]. rewrite Ha in *. exists i0, (n0 + 1)%nat. split; [done|].
      split; [rewrite Hend; unfold packets_end; by replace (i0 + (n0 + 1))%nat with (i + 1)%nat by lia|].
      destruct Hp as [Hn Hr Hf Hall]. constructor; [lia|by replace (i0 + (n0 + 1) - 1)%nat with i by lia|done|]. intros t Ht.
      destruct (decide (t = i)) as [->|Hne]; [by exists m|apply Hall; lia].
    + destruct (flush_spec b start end_ Hb) as (b1 & -> & Hnone & [Hm1 Hs1 _ Hr1]). cbn. rewrite Htl. cbn. eexists. split; [done|].
      constructor; cbn; try done. intros c' [= <-]. split; [done|]. by exists i, 1%nat.
  - rewrite Htl. cbn. eexists. split; [done|]. destruct Hb. constructor; cbn; try done. intros c' [= <-]. split; [done|]. by exists i, 1%nat.
Qed.

(** [try_rebroadcast_symbol] queues the chunk or leaves the batcher alone. *)
Lemma try_rebroadcast_spec s m b i :
  let start := (i * Z.to_nat (stride msg))%nat in
  let end_ := Nat.min (start + Z.to_nat (stride msg)) (length (payload msg)) in
  self_id s = self → 0 < stride msg → (start < length (payload msg))%nat → batcher_ok b start →
  authentic (packet_at start) m → chunk_admissible s gm m = true →
  ∃ b' f, try_rebroadcast_symbol s gm m start end_ (b, true) = Ret (b', f) ∧
    (f = true ∧ b' = b ∨ f = false ∧ batcher_ok b' end_).
Proof.
  intros start end_ Hself Hstride Hstart Hb Hauth Hadm. unfold try_rebroadcast_symbol. rewrite Hself.
  destruct (vm_broadcast m) eqn:Hbc; [|exists b, true; cbn; auto]. cbn [andb].
  case_bool_decide as Hh; [|exists b, true; auto].
  destruct (iterate_rebroadcast_peers gm (vm_epoch m) (vm_author m)) as [it|] eqn:Hit; [|exists b, true; auto].
  assert (∃ tl, group_collect it = Ret tl) as [tl Htl].
  { unfold iterate_rebroadcast_peers in Hit. repeat case_match; simplify_eq; apply group_collect_total. }
  destruct (queue_broadcast_spec b true i m (λ _, group_collect it) tl Hstride Hstart Hb) as (b' & Hq & Hb').
  - unfold chunk_admissible in Hadm. rewrite Hbc in Hadm. repeat case_match; try done; by split_and!.
  - done.
  - unfold rebroadcast_targets. by rewrite Hit.
  - exists b', false. split; [exact Hq|]. auto.
Qed.

(** ** Handling a chunk *)

Definition same_config (s s' : UdpState) : Prop := self_id s' = self_id s ∧ max_age_ms s' = max_age_ms s.

Lemma admissible_config s s' m : same_config s s' → chunk_admissible s' gm m = chunk_admissible s gm m.
Proof. intros [Hs _]. unfold chunk_admissible. by rewrite Hs. Qed.

Lemma handle_excess_spec s G m rd b i :
  let start := (i * Z.to_nat (stride msg))%nat in
  let end_ := Nat.min (start + Z.to_nat (stride msg)) (length (payload msg)) in
  udp_ok s G → self_id s = self → 0 < stride msg → (start < length (payload msg))%nat → batcher_ok b start →
  authentic (packet_at start) m → chunk_admissible s gm m = true →
  cache_view (recently_decoded_cache s) !! message_key m = Some rd →
  ∃ s' b' f, handle_excess s gm m rd start end_ (b, true) = Ret (s', (b', f)) ∧ udp_ok s' G ∧ same_config s s' ∧
    recent_kept s s' m None ∧ (f = true ∧ b' = b ∨ f = false ∧ batcher_ok b' end_).
Proof.
  intros start end_ Hs Hself Hstride Hstart Hb Hauth Hadm Hrd. pose proof (uo_recent _ _ Hs _ _ Hrd) as Hlen.
  unfold handle_excess. rewrite is_valid_symbol_spec by done. cbn [mbind exec_bind]. case_bool_decide as Hv.
  2:{ exists s, b, true. split; [done|]. split; [done|]. split; [done|]. split; [by intros k; left|auto]. }
  destruct Hv as (_ & Hid & _). unfold set_seen. rewrite bool_decide_true by lia. cbn [assert mbind exec_bind].
  set (rd' := mkRecentlyDecodedState _ _ _ _). set (s1 := with_recently_decoded s _).
  destruct (try_rebroadcast_spec s1 m b i) as (b' & f & Hq & Hbf); try done. fold start end_ in Hq. rewrite Hq. cbn [mbind exec_bind].
  exists s1, b', f. split; [done|]. split.
  { destruct Hs. constructor; cbn; try done. intros k rd''. rewrite cview_set by eauto. intros [[<- <-]|[_ ?]]%lookup_insert_Some; [|eauto].
    cbn. by rewrite length_insert. }
  split; [done|]. split; [|done]. intros k. cbn. rewrite cview_set by eauto. intros [v [[<- _]|[_ ?]]%lookup_insert_Some]; left; eauto.
Qed.

Lemma finish_message_spec s G m ds out :
  signatures_ok (signature_cache s) → cache_unbounded (pending_message_cache s) →
  (∀ k, k ≠ message_key m → pending_ok (pending_message_cache s) G k) →
  (∀ k rd, cache_view (recently_decoded_cache s) !! k = Some rd → length (rd_seen_esis rd) = rd_encoded_symbol_capacity rd) →
  cache_view (pending_message_cache s) !! message_key m = Some ds → length (ds_seen_esis ds) = ds_encoded_symbol_capacity ds →
  let message := take (Z.to_nat (vm_app_message_len m)) out in
  let delivered := if bool_decide (take 20 (hasher message) = vm_app_message_hash m) then Some (vm_author m, message) else None in
  ∃ s', finish_message s m out = Ret (s', delivered) ∧ udp_ok s' (delete (message_key m) G) ∧ same_config s s' ∧ recent_kept s s' m delivered.
Proof.
  intros Hsig Hunb Hpend Hrec Hview Hcap message delivered. unfold finish_message. fold message.
  destruct (cview_pop (pending_message_cache s) (message_key m)) as [Hpop Hview'].
  pose proof (unbounded_pop (pending_message_cache s) (message_key m) Hunb) as Hunb'.
  destruct (cache_pop _ _) as [popped c]. cbn in Hpop, Hview', Hunb'. rewrite Hpop, Hview. cbn [expect mbind exec_bind].
  assert (∀ k, pending_ok c (delete (message_key m) G) k) as Hpend'.
  { intros k. unfold pending_ok. rewrite Hview'. destruct (decide (k = message_key m)) as [->|Hne]; [by rewrite !lookup_delete_eq|].
    rewrite !lookup_delete_ne by done. by apply Hpend. }
  subst delivered. destruct (decide (take 20 (hasher message) = vm_app_message_hash m)) as [Hh|Hh].
  - rewrite bool_decide_false by tauto. rewrite bool_decide_true by done. eexists. split; [done|]. split.
    + constructor; cbn; try done. intros k rd [[-> ->]|?]%cview_push; [done|by eapply Hrec].
    + split; [done|]. intros k. cbn. intros [v [[-> _]|?]%cview_push]; [right|left; eauto]. split; [done|]. by eexists.
  - rewrite bool_decide_true by done. rewrite bool_decide_false by done. eexists. split; [done|]. split; [by constructor|].
    split; [done|]. intros k ?. by left.
Qed.

Lemma valid_symbol_ok n rx ds p m :
  decoder_ok (vm_app_message_len m) n rx ds p →
  n = length (vm_chunk m) ∧ (Z.to_nat (vm_chunk_id m) < ds_encoded_symbol_capacity ds)%nat ∧
    ds_seen_esis ds !! Z.to_nat (vm_chunk_id m) = Some false ↔ symbol_ok m n rx.
Proof.
  intros Hd. unfold symbol_ok. rewrite (dk_capacity _ _ _ _ _ Hd). pose proof (dk_seen _ _ _ _ _ Hd (Z.to_nat (vm_chunk_id m))) as Hse.
  pose proof (dk_seen_length _ _ _ _ _ Hd). split; intros (Ha & Hi & Hx); split_and!; try done.
  - rewrite <-Hse, Hx. done.
  - destruct (lookup_lt_is_Some_2 (ds_seen_esis ds) (Z.to_nat (vm_chunk_id m))) as [[] He]; [lia| |done]. by destruct Hx; apply Hse.
Qed.

Lemma handle_pending_spec s G m b i :
  let start := (i * Z.to_nat (stride msg))%nat in
  let end_ := Nat.min (start + Z.to_nat (stride msg)) (length (payload msg)) in
  udp_ok s G → self_id s = self → 0 < stride msg → (start < length (payload msg))%nat → batcher_ok b start →
  authentic (packet_at start) m → message_ok m → chunk_admissible s gm m = true →
  ∃ s' b' f o G', handle_pending s gm m start end_ (b, true) = Ret (s', (b', f), o) ∧ udp_ok s' G' ∧ chunk_step m G G' o ∧
    same_config s s' ∧ recent_kept s s' m o ∧ (f = true ∧ b' = b ∨ f = false ∧ batcher_ok b' end_).
Proof.
  intros start end_ Hs Hself Hstride Hstart Hb Hauth Hm Hadm. unfold handle_pending.
  destruct (pending_decoder_spec s G m Hs Hm) as (o & s1 & -> & Hc1 & Hc2 & Hrc & Ho). cbn [mbind exec_bind].
  assert (same_config s s1) as Hcfg by done.
  assert (∀ s', recently_decoded_cache s' = recently_decoded_cache s1 → recent_kept s s' m None) as Hkept.
  { intros s' Heq k. rewrite Heq, Hrc. by left. }
  destruct o as [ds|].
  2:{ destruct Ho as (HG & Hs1 & Hbig). exists s1, b, true, None, G. split; [done|]. split; [done|]. split; [by apply cs_too_large|].
      split; [done|]. split; [by apply Hkept|auto]. }
  destruct Ho as (n & rx & p & HG & Hd & Hs1 & Hin). pose proof (mg_len _ _ _ _ _ (dk_managed _ _ _ _ _ Hd)) as Hn.
  rewrite is_valid_symbol_spec by (rewrite (dk_seen_length _ _ _ _ _ Hd); symmetry; apply Hd). cbn [mbind exec_bind]. rewrite Hn.
  rewrite (bool_decide_ext _ _ (valid_symbol_ok n rx ds p m Hd)).
  case_bool_decide as Hv.
  2:{ exists s1, b, true, None, (<[message_key m := (n, rx)]> G). split; [done|]. split; [done|]. split; [by eapply cs_invalid|].
      split; [done|]. split; [by apply Hkept|auto]. }
  destruct (symbol_received n rx ds p m Hd Hv) as (seen & d1 & d2 & r & -> & Hd1 & Hd2 & Hm2 & Hr & Hsl & Hdok). cbn [mbind exec_bind].
  destruct (try_rebroadcast_spec s1 m b i) as (b' & f & Hq & Hbf); try done; [congruence|by rewrite (admissible_config s s1)|].
  fold start end_ in Hq. rewrite Hq. cbn [mbind exec_bind]. rewrite Hd1. cbn [mbind exec_bind]. rewrite Hd2. cbn [mbind exec_bind].
  set (rc := <[vm_recipient_hash m := _]> _). set (ds' := mkDecoderState _ _ _ _). set (s2 := with_pending s1 _).
  destruct Hs1 as [Hsig Hunb Hpend Hrec].
  assert (cache_view (pending_message_cache s2) = <[message_key m := ds']> (cache_view (pending_message_cache s1))) as Hview2
    by (by apply cview_set).
  assert (cache_unbounded (pending_message_cache s2)) as Hunb2 by (by apply unbounded_set).
  assert (∀ k, k ≠ message_key m → pending_ok (pending_message_cache s2) G k) as Hothers.
  { intros k Hne. specialize (Hpend k). unfold pending_ok in *. rewrite lookup_insert_ne in Hpend by done.
    by rewrite Hview2, lookup_insert_ne by done. }
  destruct (reconstruct_spec _ _ _ _ _ Hm2) as (out & Hout & Hdone & Hlen & Hcon). rewrite Hr in Hdone.
  destruct r.
  - rewrite Hout. cbn [mbind exec_bind]. destruct out as [out|]; [|by destruct Hdone as [_ []]; [done|]].
    destruct (finish_message_spec s2 G m ds' out) as (s' & Hfin & Hs' & Hcfg' & Hkept'); try done.
    { rewrite Hview2. by rewrite lookup_insert_eq. }
    rewrite Hfin. cbn [mbind exec_bind]. eexists s', b', f, _, _. split; [done|]. split; [done|]. split.
    { eapply cs_decoded; [done|done|apply Hd|]. split; [by apply Hlen|]. split; [by eapply done_determines|]. intros C HC Hex. by eapply Hcon. }
    split; [destruct Hcfg, Hcfg'; split; etrans; done|]. split; [|done]. intros k Hk. destruct (Hkept' k Hk) as [Hk'|?]; [left|by right].
    cbn in Hk'. by rewrite Hrc in Hk'.
  - exists s2, b', f, None, (<[message_key m := (n, rx ++ [(Z.to_nat (vm_chunk_id m), vm_chunk m)])]> G). split; [done|]. split.
    { constructor; try done. intros k. destruct (decide (k = message_key m)) as [->|Hne].
      - unfold pending_ok. rewrite Hview2, !lookup_insert_eq. exists p. by apply Hdok.
      - specialize (Hothers k Hne). unfold pending_ok in *. by rewrite lookup_insert_ne by done. }
    split; [by eapply cs_kept|]. split; [done|]. split; [by apply Hkept|done].
Qed.

(** ** Handling packets *)

(** The effect of the packet at [start]: nothing, if it does not parse, is not
    wanted, or belongs to a message that was decoded; or that of its chunk. *)
Definition packet_step (elapsed : option Z) (start : nat) (s : UdpState) (G G' : pending_symbols) (o : option (NodeId * bytes)) : Prop :=
  G' = G ∧ o = None ∧
    (∀ c m, parse_message (signature_cache s) (packet_at start) elapsed (max_age_ms s) = Ret (Ok m, c) →
       chunk_admissible s gm m = true → is_Some (cache_view (recently_decoded_cache s) !! message_key m)) ∨
  ∃ m, authentic (packet_at start) m ∧ chunk_admissible s gm m = true ∧
    cache_view (recently_decoded_cache s) !! message_key m = None ∧ chunk_step m G G' o.

(** A message is decoded recently only if it was before or is delivered now. *)
Definition recent_step (start : nat) (s s' : UdpState) (o : option (NodeId * bytes)) : Prop :=
  ∀ k, is_Some (cache_view (recently_decoded_cache s') !! k) →
    is_Some (cache_view (recently_decoded_cache s) !! k) ∨ ∃ m, authentic (packet_at start) m ∧ k = message_key m ∧ is_Some o.

Lemma packet_slice start :
  (start <= length (payload msg))%nat →
  slice (payload msg) start (Nat.min (start + Z.to_nat (stride msg)) (length (payload msg))) = Ret (packet_at start).
Proof.
  intros Hs. rewrite slice_ok by lia. f_equal. unfold packet_at.
  destruct (decide (start + Z.to_nat (stride msg) <= length (payload msg))%nat) as [Hle|Hgt].
  - f_equal. lia.
  - rewrite !take_ge; [done|rewrite length_drop; lia..].
Qed.

Lemma handle_packet_spec s G b i elapsed :
  let start := (i * Z.to_nat (stride msg))%nat in
  let end_ := Nat.min (start + Z.to_nat (stride msg)) (length (payload msg)) in
  udp_ok s G → self_id s = self → 0 < stride msg → (start < length (payload msg))%nat → Forall is_byte (payload msg) → batcher_ok b start →
  ∃ s' b' f o G', handle_packet gm elapsed msg start s (b, true) = Ret (s', (b', f), o) ∧ udp_ok s' G' ∧
    packet_step elapsed start s G G' o ∧ same_config s s' ∧ recent_step start s s' o ∧ (f = true ∧ b' = b ∨ f = false ∧ batcher_ok b' end_).
Proof.
  intros start end_ Hs Hself Hstride Hstart Hbytes Hb. unfold handle_packet. rewrite packet_slice by lia. cbn [mbind exec_bind]. fold end_.
  assert (Forall is_byte (packet_at start)) as Hpb by (by apply Forall_take, Forall_drop).
  destruct (parse_message_spec (signature_cache s) (packet_at start) elapsed (max_age_ms s) (uo_signatures _ _ Hs) Hpb)
    as (r & c & Hparse & Hc & Hr). rewrite Hparse. cbn [mbind exec_bind].
  set (s1 := with_signature_cache s c). assert (udp_ok s1 G) as Hs1 by (destruct Hs; by constructor).
  destruct r as [m|e].
  2:{ exists s1, b, true, None, G. split; [done|]. split; [done|]. split; [left; split_and!; [done|done|]; intros ?? Hp; by rewrite Hparse in Hp|].
      split; [done|]. split; [intros k ?; by left|auto]. }
  specialize (Hr m eq_refl). pose proof (authentic_ok _ _ Hpb Hr) as Hmok.
  change (chunk_admissible s1 gm m) with (chunk_admissible s gm m). destruct (chunk_admissible s gm m) eqn:Hadm.
  2:{ exists s1, b, true, None, G. split; [done|]. split; [done|]. split.
      - left. split_and!; [done|done|]. intros c' m' Hp. rewrite Hparse in Hp. injection Hp as <- <-. congruence.
      - split; [done|]. split; [intros k ?; by left|auto]. }
  destruct (cview_get (recently_decoded_cache s1) (message_key m)) as [Hget Hview]. destruct (cache_get _ _) as [found rc]. cbn in Hget, Hview.
  set (s2 := with_recently_decoded s1 rc).
  assert (udp_ok s2 G) as Hs2 by (destruct Hs1; constructor; cbn in *; try done; intros k rd; rewrite Hview; eauto).
  destruct found as [rd|].
  - destruct (handle_excess_spec s2 G m rd b i) as (s' & b' & f & Hex & Hs' & Hcfg & Hk & Hbf); try done; [cbn; by rewrite Hview|].
    fold start end_ in Hex, Hbf. rewrite Hex. cbn [mbind exec_bind]. exists s', b', f, None, G. split; [done|]. split; [done|]. split.
    { left. split_and!; [done|done|]. intros c' m' Hp _. rewrite Hparse in Hp. injection Hp as <- <-. by rewrite <-Hget. }
    split; [done|]. split; [|done]. intros k Hk'. destruct (Hk k Hk') as [Hk2|[_ []]]; [|done]. left. cbn in Hk2. by rewrite Hview in Hk2.
  - destruct (handle_pending_spec s2 G m b i) as (s' & b' & f & o & G' & Hp & Hs' & Hstep & Hcfg & Hk & Hbf); try done.
    fold start end_ in Hp, Hbf. rewrite Hp. exists s', b', f, o, G'. split; [done|]. split; [done|]. split; [right; by exists m|].
    split; [done|]. split; [|done]. intros k Hk'. destruct (Hk k Hk') as [Hk2|[-> Ho]]; [left|right; by exists m].
    cbn in Hk2. by rewrite Hview in Hk2.
Qed.

(** A run over the packets at [starts] *)
Inductive packets_run (clock : nat → option Z) : UdpState → pending_symbols → list nat → UdpState → pending_symbols → list (NodeId * bytes) → Prop :=
| pr_nil s G : packets_run clock s G [] s G []
| pr_cons s G start starts s1 G1 o s' G' rest :
    udp_ok s G → packet_step (clock start) start s G G1 o → same_config s s1 → recent_step start s s1 o →
    packets_run clock s1 G1 starts s' G' rest → packets_run clock s G (start :: starts) s' G' (option_list o ++ rest).

Lemma handle_packets_spec clock cnt i s G b :
  udp_ok s G → self_id s = self → 0 < stride msg → Forall is_byte (payload msg) →
  (∀ j, (i <= j < i + cnt)%nat → (j * Z.to_nat (stride msg) < length (payload msg))%nat) →
  batcher_ok b (i * Z.to_nat (stride msg)) →
  let starts := map (λ i, i * Z.to_nat (stride msg))%nat (seq i cnt) in
  ∃ s' b' G' msgs pos, handle_packets gm clock msg starts s b = Ret (s', b', msgs) ∧ udp_ok s' G' ∧
    packets_run clock s G starts s' G' msgs ∧ same_config s s' ∧ batcher_ok b' pos.
Proof.
  intros Hs Hself Hstride Hbytes. revert i s G b Hs Hself. induction cnt as [|cnt IH]; intros i s G b Hs Hself Hall Hb; cbn [seq map handle_packets].
  { exists s, b, G, [], (i * Z.to_nat (stride msg))%nat. split; [done|]. split; [done|]. split; [constructor|]. done. }
  destruct (handle_packet_spec s G b i (clock (i * Z.to_nat (stride msg))%nat)) as (s1 & b1 & f & o & G1 & Heq & Hs1 & Hstep & Hcfg & Hrec & Hbf);
    try done; [apply Hall; lia|]. unfold create_flush_guard. rewrite Heq. cbn [mbind exec_bind].
  assert (∃ b2, drop_guard (b1, f) = Ret b2 ∧ ((cnt ≠ 0)%nat → batcher_ok b2 (S i * Z.to_nat (stride msg))) ∧ ∃ pos, batcher_ok b2 pos)
    as (b2 & Hdrop & Hb2 & pos2 & Hpos2).
  { unfold drop_guard. cbn [fst snd]. destruct Hbf as [[-> ->]|[-> Hb1]].
    - destruct (flush_spec b _ (S i * Z.to_nat (stride msg)) Hb) as (b2 & -> & _ & Hb2). eauto.
    - exists b1. split; [done|]. split; [|eauto]. intros Hcnt. specialize (Hall (S i) ltac:(lia)).
      replace (S i * Z.to_nat (stride msg))%nat with (Nat.min (i * Z.to_nat (stride msg) + Z.to_nat (stride msg)) (length (payload msg))) by lia. done. }
  rewrite Hdrop. cbn [mbind exec_bind].
  assert (self_id s1 = self) as Hself1 by (destruct Hcfg; congruence).
  destruct (decide (cnt = 0)%nat) as [->|Hcnt].
  - cbn. exists s1, b2, G1, (option_list o ++ []), pos2. split; [done|]. split; [done|]. split; [|done].
    eapply pr_cons; try done. constructor.
  - destruct (IH (S i) s1 G1 b2 Hs1 Hself1) as (s' & b' & G' & msgs & pos & Heq' & Hs' & Hrun & Hcfg' & Hb'); [intros; apply Hall; lia|by apply Hb2|].
    rewrite Heq'. cbn [mbind exec_bind]. exists s', b', G', (option_list o ++ msgs), pos. split; [done|]. split; [done|].
    split; [by eapply pr_cons|]. split; [|done]. destruct Hcfg, Hcfg'; split; etrans; done.
Qed.

(** ** Handling a message *)

Lemma evict_loop_spec fuel c G :
  cache_unbounded c → (∀ k, pending_ok c G k) → (size (cache_view c) <= fuel)%nat →
  ∃ c' G', evict_loop fuel c = Ret c' ∧ cache_unbounded c' ∧ (∀ k, pending_ok c' G' k) ∧ G' ⊆ G ∧
    cache_len c' <= PENDING_MESSAGE_CACHE_SIZE ∧ (cache_len c <= PENDING_MESSAGE_CACHE_SIZE → c' = c ∧ G' = G).
Proof.
  revert c G. induction fuel as [|fuel IH]; intros c G Hunb Hpend Hfuel; cbn [evict_loop]; case_bool_decide as Hlen.
  1: { rewrite cview_len in Hlen. unfold PENDING_MESSAGE_CACHE_SIZE in Hlen. lia. }
  1, 3: exists c, G; split_and!; try done; lia.
  pose proof (cview_pop_lru c) as Hpop. destruct (cache_pop_lru c) as [[[k v] c']|] eqn:Hc.
  2:{ rewrite cview_len, Hpop, map_size_empty in Hlen. unfold PENDING_MESSAGE_CACHE_SIZE in Hlen. lia. }
  destruct Hpop as [[v' Hk] Hview]. cbn [expect mbind exec_bind].
  destruct (IH c' (delete k G)) as (c2 & G2 & -> & Hunb2 & Hpend2 & Hsub & Hlen2 & _).
  - by eapply unbounded_pop_lru.
  - intros k'. specialize (Hpend k'). unfold pending_ok in *. rewrite Hview. destruct (decide (k' = k)) as [->|Hne].
    + by rewrite !lookup_delete_eq.
    + by rewrite !lookup_delete_ne by done.
  - rewrite Hview. rewrite map_size_delete_Some by (rewrite Hk; eauto). lia.
  - exists c2, G2. split; [done|]. split; [done|]. split; [done|]. split; [|split; [done|lia]]. trans (delete k G); [done|apply delete_subseteq].
Qed.

Lemma packet_starts_spec :
  0 < stride msg →
  ∃ n, packet_starts msg = Ret (map (λ i, i * Z.to_nat (stride msg))%nat (seq 0 n)) ∧
    (∀ j, (j < n)%nat ↔ (j * Z.to_nat (stride msg) < length (payload msg))%nat).
Proof.
  intros Hs. unfold packet_starts. rewrite bool_decide_true by lia. cbn. eexists. split; [done|]. intros j. unfold div_ceil.
  set (len := Z.of_nat (length (payload msg))). pose proof (Z.div_mod (len + stride msg - 1) (stride msg) ltac:(lia)).
  pose proof (Z.mod_pos_bound (len + stride msg - 1) (stride msg) Hs). set (q := (len + stride msg - 1) / stride msg) in *.
  assert (0 <= q) by (unfold q, len; apply Z.div_pos; lia). split; intros Hj; subst len; nia.
Qed.

Lemma handle_message_spec s G clock :
  udp_ok s G → self_id s = self → 0 < stride msg → Forall is_byte (payload msg) →
  ∃ starts s1 b1 G1 s' G' outs msgs, packet_starts msg = Ret starts ∧
    handle_packets gm clock msg starts s (batcher_new (payload msg) (stride msg)) = Ret (s1, b1, msgs) ∧
    handle_message s gm clock msg = Ret (s', outs, msgs) ∧ packets_run clock s G starts s1 G1 msgs ∧ udp_ok s1 G1 ∧
    udp_ok s' G' ∧ same_config s s' ∧ recently_decoded_cache s' = recently_decoded_cache s1 ∧
    G' ⊆ G1 ∧ cache_len (pending_message_cache s') <= PENDING_MESSAGE_CACHE_SIZE ∧
    (Z.of_nat (size G1) <= PENDING_MESSAGE_CACHE_SIZE → G' = G1) ∧ Forall rebroadcast_ok outs.
Proof.
  intros Hs Hself Hstride Hbytes. destruct (packet_starts_spec Hstride) as (n & Hst & Hn). unfold handle_message. rewrite Hst.
  cbn [mbind exec_bind].
  destruct (handle_packets_spec clock n 0 s G (batcher_new (payload msg) (stride msg))) as
    (s1 & b1 & G1 & msgs & pos & Hps & Hs1 & Hrun & Hcfg & Hb1); try done.
  { intros j Hj. apply Hn. lia. }
  rewrite Hps.
  cbn [mbind exec_bind]. pose proof Hs1 as [Hsig Hunb Hpend Hrec].
  assert (dom (cache_view (pending_message_cache s1)) = dom G1) as Hdom.
  { apply set_eq. intros k. rewrite !elem_of_dom. specialize (Hpend k). unfold pending_ok in Hpend.
    destruct (cache_view _ !! k), (G1 !! k) as [[]|]; split; intros []; eauto; done. }
  destruct (evict_loop_spec (Z.to_nat (cache_len (pending_message_cache s1))) (pending_message_cache s1) G1) as
    (c & G' & -> & Hunb' & Hpend' & Hsub & Hlen & Hsame); [done|done|rewrite cview_len; lia|].
  cbn [mbind exec_bind]. destruct (flush_spec b1 pos pos Hb1) as (b2 & -> & _ & [_ _ _ Hout]). cbn [mbind exec_bind].
  eexists _, s1, b1, G1, _, G', _, msgs. split; [done|]. split; [done|]. split; [done|]. split; [done|]. split; [done|]. split; [by constructor|].
  split; [done|]. split; [done|]. split; [done|]. split; [done|]. split; [|done]. intros Hsz. apply Hsame. rewrite cview_len.
  by rewrite <-size_dom, Hdom, size_dom.
Qed.
End batches.
End receive.
