(* ===== verification/RaptorcastBuild.v ===== *)
(** Building packets: every chunk of a message is given to a node, is encoded, and
    is laid out, proved and signed as the receivers expect. *)

From S2P Require Import Prelude Types ValidatorSet Crypto Merkle F64 RaptorTables RaptorCode RaptorCodeProps RaptorEncoderProps.
From S2P Require Import RaptorStructs RaptorDecoder RaptorRuns RaptorProps RaptorcastGroups Raptorcast RaptorcastRecv.

#[local] Open Scope Z_scope.

(** What is relied on of the conversion of stakes to floats. *)
Class F64FromLaws (f : Z → f64) := {
  f64_from_zero : f 0 = 0;
  f64_from_pos a : 0 < a → 0 < f a;
  f64_from_mono a b : 0 <= a <= b → f a <= f b;
}.

Section build.
Context `{P : Protocol} `{SC : !SignatureCodec} `{H : Hasher} `{HL : !HasherLaws}.
Context {SocketAddr : Type}.
Implicit Types (known : gmap NodeId SocketAddr).

(** * Recipients *)

(** The nodes and ids given to the packets so far, of [np] packets with [n] bytes
    after the header and the proof. *)
Notation plan := (list (NodeId * Z)) (only parsing).
Definition given (n : nat) (x : NodeId * Z) : option Z * bytes := (Some x.2, compute_hash pubkey_bytes x.1 ++ replicate (n - 20) 0).
Definition chunks_of (n np : nat) (pl : plan) : list (option Z * bytes) :=
  map (given n) pl ++ replicate (np - length pl) (None, replicate n 0).

(** The ranges of bytes that are sent: one for every node that packets were given
    to and whose address is known, in their order. *)
Inductive outbound_ok known (segment : nat) : plan → list (SocketAddr * (nat * nat)) → Prop :=
| ob_nil : outbound_ok known segment [] []
| ob_node pl outs node ids : outbound_ok known segment pl outs → Forall (λ x, x.1 = node) ids →
    outbound_ok known segment (pl ++ ids)
      match known !! node with
      | Some addr => outs ++ [(addr, (length pl * segment, (length pl + length ids) * segment)%nat)]
      | None => outs
      end.

Lemma compute_hash_length id : length (compute_hash pubkey_bytes id) = 20%nat.
Proof. unfold compute_hash. by rewrite length_take, hasher_length. Qed.

Definition ids_from (node : NodeId) (id : Z) (c : nat) : plan := map (λ i, (node, (id + Z.of_nat i) mod 2 ^ 16)) (seq 0 c).

Lemma ids_from_node node id c : Forall (λ x : NodeId * Z, x.1 = node) (ids_from node id c).
Proof. unfold ids_from. change (map ?f ?l) with (f <$> l). by apply Forall_fmap, Forall_true. Qed.

Lemma assign_fresh n node id c :
  (20 <= n)%nat →
  assign (compute_hash pubkey_bytes node) id (replicate c (None, replicate n 0)) = Ret (map (given n) (ids_from node id c)).
Proof.
  intros Hn. revert id. induction c as [|c IH]; intros id; [done|]. cbn [replicate assign].
  rewrite copy_ok by (rewrite compute_hash_length, length_replicate; lia). cbn [mbind exec_bind]. rewrite IH. cbn [mbind exec_bind].
  unfold ids_from. cbn [seq map]. rewrite <-seq_shift. f_equal. f_equal.
  - unfold given. cbn [fst snd]. rewrite Z.add_0_r. f_equal. rewrite take_0, compute_hash_length, drop_replicate. done.
  - rewrite !map_map. apply map_ext. intros i. unfold given. cbn [fst snd]. do 2 f_equal.
    rewrite Zplus_mod_idemp_l. f_equal. lia.
Qed.

Lemma assign_node_spec known segment n np pl outs node id end_ :
  (20 <= n)%nat → (length pl <= end_ <= np)%nat → outbound_ok known segment pl outs →
  let pl' := pl ++ ids_from node id (end_ - length pl) in
  ∃ outs', assign_node known segment node id (length pl) end_ (chunks_of n np pl, outs) = Ret (chunks_of n np pl', outs') ∧
    length pl' = end_ ∧ outbound_ok known segment pl' outs'.
Proof.
  intros Hn Hend Hob pl'. unfold assign_node, assign_range.
  assert (length (ids_from node id (end_ - length pl)) = end_ - length pl)%nat as Hil by (unfold ids_from; by rewrite length_map, length_seq).
  assert (length pl' = end_) as Hlen by (unfold pl'; rewrite length_app; lia).
  assert (length (map (given n) pl) = length pl) as Hlm by apply length_map.
  rewrite slice_ok by (unfold chunks_of; rewrite length_app, length_replicate; lia). cbn [mbind exec_bind].
  assert (take (end_ - length pl) (drop (length pl) (chunks_of n np pl)) = replicate (end_ - length pl) (None, replicate n 0)) as ->.
  { unfold chunks_of. rewrite drop_app_length' by done. rewrite take_replicate. f_equal. lia. }
  rewrite assign_fresh by done. cbn [mbind exec_bind].
  eexists. split; [|split; [done|]].
  - f_equal. f_equal. unfold chunks_of, pl'. rewrite take_app_length' by done. rewrite map_app, <-!app_assoc. do 2 f_equal.
    rewrite drop_app_ge by lia. rewrite drop_replicate. f_equal. fold pl'. rewrite Hlen. lia.
  - pose proof (ob_node _ _ _ _ node _ Hob (ids_from_node node id (end_ - length pl))) as Hok. rewrite Hil in Hok.
    replace (length pl + (end_ - length pl))%nat with end_ in Hok by lia. exact Hok.
Qed.

(** The ids: each node has its own from zero, or the packets are numbered. *)
Definition ids_ok (restart : bool) (np : nat) (pl : plan) : Prop :=
  if restart then Forall (λ id, 0 <= id < Z.of_nat np) pl.*2 else pl.*2 = map Z.of_nat (seq 0 (length pl)).

Lemma ids_from_snd node id c : 0 <= id → id + Z.of_nat c <= 2 ^ 16 → (ids_from node id c).*2 = map (λ i, id + Z.of_nat i) (seq 0 c).
Proof.
  intros Hid Hc. unfold ids_from. change (map ?f (seq 0 c)) with (f <$> seq 0 c). rewrite <-list_fmap_compose. apply list_fmap_ext.
  intros j i [-> Hi]%lookup_seq. cbn. apply Z.mod_small. lia.
Qed.

Lemma ids_ok_app restart np pl node (c : nat) :
  ids_ok restart np pl → (length pl + c <= np)%nat → Z.of_nat np <= MAX_NUM_PACKETS →
  ids_ok restart np (pl ++ ids_from node (if restart then 0 else Z.of_nat (length pl)) c).
Proof.
  unfold ids_ok, MAX_NUM_PACKETS. intros Hids Hc Hnp. rewrite fmap_app. destruct restart.
  - apply Forall_app. split; [done|]. rewrite ids_from_snd by lia. change (map ?f ?l) with (f <$> l). apply Forall_fmap, Forall_forall.
    intros i Hi%elem_of_seq. cbn. lia.
  - rewrite ids_from_snd by lia. rewrite length_app. unfold ids_from. rewrite length_map, length_seq, seq_app, map_app, Hids. f_equal.
    change (map ?f (seq 0 c)) with (f <$> seq 0 c). apply list_eq. intros i. change (map ?f ?l) with (f <$> l).
    rewrite !list_lookup_fmap. destruct (decide (i < c)%nat).
    + rewrite !lookup_seq_lt by done. cbn. f_equal. lia.
    + rewrite !lookup_seq_ge by lia. done.
Qed.

Lemma assign_evenly_spec known segment n np total restart nodes i pl outs :
  (20 <= n)%nat → (i + length nodes <= total)%nat → Z.of_nat np <= MAX_NUM_PACKETS →
  length pl = (np * i / total)%nat → ids_ok restart np pl → outbound_ok known segment pl outs →
  ∃ pl' outs', assign_evenly restart known segment np total i (Z.of_nat (length pl)) nodes (chunks_of n np pl, outs) =
      Ret (chunks_of n np pl', outs') ∧
    length pl' = (np * (i + length nodes) / total)%nat ∧ ids_ok restart np pl' ∧ outbound_ok known segment pl' outs' ∧
    (∀ x, x ∈ pl'.*1 → x ∈ pl.*1 ∨ x ∈ nodes).
Proof.
  intros Hn. revert i pl outs. induction nodes as [|node nodes IH]; intros i pl outs Hi Hnp Hlen Hids Hout; cbn [assign_evenly].
  { exists pl, outs. rewrite Nat.add_0_r. split; [done|]. split; [done|]. split; [done|]. split; [done|]. by left. }
  cbn [length] in *. rewrite (bool_decide_true (total ≠ 0)%nat) by lia. cbn [assert mbind exec_bind]. rewrite <-Hlen.
  replace (i + S (length nodes))%nat with (i + 1 + length nodes)%nat by lia.
  assert (length pl <= np * (i + 1) / total <= np)%nat as Hend.
  { rewrite Hlen. split; [apply Nat.Div0.div_le_mono; nia|]. apply Nat.Div0.div_le_upper_bound. nia. }
  case_bool_decide as Heq.
  - destruct (IH (i + 1)%nat pl outs) as (pl' & outs' & ? & ? & ? & ? & Hx); try done; [lia|].
    exists pl', outs'. split_and!; try done. intros x Hxx. destruct (Hx x Hxx); [by left|right; by right].
  - destruct (assign_node_spec known segment n np pl outs node (if restart then 0 else Z.of_nat (length pl)) (np * (i + 1) / total)%nat)
      as (outs1 & Hnode & Hlen1 & Hout1); try done. set (pl1 := pl ++ ids_from _ _ _) in *. rewrite Hnode. cbn [mbind exec_bind].
    replace ((Z.of_nat (length pl) + (Z.of_nat (np * (i + 1) / total) - Z.of_nat (length pl))) mod 2 ^ 16) with (Z.of_nat (length pl1)).
    2:{ rewrite Hlen1, Z.mod_small by (unfold MAX_NUM_PACKETS in *; lia). lia. }
    destruct (IH (i + 1)%nat pl1 outs1) as (pl' & outs' & ? & ? & ? & ? & Hx); try done; [lia|apply ids_ok_app; try done; lia|].
    exists pl', outs'. split_and!; try done. intros x Hxx. destruct (Hx x Hxx) as [Hx1|Hx1]; [|right; by right].
    unfold pl1 in Hx1. rewrite fmap_app, elem_of_app in Hx1. destruct Hx1 as [?|Hx1]; [by left|right].
    unfold ids_from in Hx1. change (map ?f ?l) with (f <$> l) in Hx1. rewrite <-list_fmap_compose in Hx1.
    apply list_elem_of_fmap in Hx1 as (? & -> & _). left.
Qed.

(** ** Recipients of a target *)

Lemma view_len_iter v : view_len v = length (view_iter v).
Proof.
  unfold view_len. case_bool_decide as He; [|done]. unfold view_iter. rewrite filter_all by (rewrite He; set_solver).
  unfold btree_iter. by rewrite merge_sort_Permutation, length_map_to_list.
Qed.
Lemma view_iter_nodes_fst v : view_iter_nodes v = (view_iter v).*1.
Proof. unfold view_iter_nodes, view_iter, btree_keys. by rewrite filter_fmap. Qed.
Lemma nodes_view_len_iter v : nodes_view_len v = length (nodes_view_iter v).
Proof. destruct v; cbn; [|done]. by rewrite view_len_iter, view_iter_nodes_fst, length_fmap. Qed.

(** A target as the callers choose it: groups are not empty, and a group of full
    nodes is the one of this validator. *)
Definition target_ok (self_id : NodeId) (t : BuildTarget) : Prop :=
  match t with
  | BT_PointToPoint _ | BT_Broadcast _ => True
  | BT_Raptorcast v => view_iter v ≠ [] ∧ Forall (λ s, 0 <= s) (view_iter v).*2 ∧ zsum (view_iter v).*2 <= u256_max
  | BT_FullNodeRaptorCast g => validator_id g = Some self_id ∧ sorted_other_peers g ≠ [] ∧
      Z.of_nat (length (sorted_other_peers g)) <= usize_max
  end.
Definition target_nodes (t : BuildTarget) : list NodeId :=
  match t with
  | BT_PointToPoint to => [to]
  | BT_Broadcast nodes => nodes_view_iter nodes
  | BT_Raptorcast v => (view_iter v).*1
  | BT_FullNodeRaptorCast g => sorted_other_peers g
  end.
Definition is_broadcast_target (t : BuildTarget) : bool := match t with BT_Broadcast _ => true | _ => false end.

(** Nothing is sent to a node without an address, and by validators without stake. *)
Definition target_dropped known (t : BuildTarget) : Prop :=
  match t with
  | BT_PointToPoint to => known !! to = None
  | BT_Raptorcast v => zsum (view_iter v).*2 = 0
  | _ => False
  end.

Lemma outbound_nil known segment : outbound_ok known segment [] [].
Proof. constructor. Qed.

(** ** Shares of stake *)

Section stake.
Context (f64_from : Z → f64) `{FL : !F64FromLaws f64_from}.

Lemma stake_share_nonneg r t : 0 <= r → 0 < t → 0 <= stake_div f64_from r t.
Proof.
  intros Hr Ht. unfold stake_div, f64_div. pose proof f64_one_pos. apply f64_round_nonneg; [|by apply f64_from_pos].
  pose proof (f64_from_mono 0 r ltac:(lia)) as Hm. rewrite f64_from_zero in Hm. nia.
Qed.

Lemma stake_idx_zero np t : 0 < t → stake_idx f64_from np 0 t = 0%nat.
Proof.
  intros Ht. unfold stake_idx, stake_div. rewrite f64_from_zero. unfold f64_div. rewrite Z.mul_0_l.
  pose proof (f64_round_exact 0 0 (f64_from t) (f64_from_pos t Ht) ltac:(lia) ltac:(lia)) as He. rewrite !Z.mul_0_l in He. rewrite He.
  unfold f64_mul. rewrite Z.mul_0_r.
  pose proof (f64_round_exact 0 0 F64_ONE f64_one_pos ltac:(lia) ltac:(lia)) as He'. rewrite !Z.mul_0_l in He'. rewrite He'.
  unfold f64_as_u64. rewrite Z.div_0_l by (pose proof f64_one_pos; lia). done.
Qed.

Lemma stake_idx_total (np : nat) t : Z.of_nat np <= MAX_NUM_PACKETS → 0 < t → stake_idx f64_from np t t = np.
Proof.
  unfold MAX_NUM_PACKETS. intros Hnp Ht. unfold stake_idx, stake_div. rewrite f64_div_self by (by apply f64_from_pos).
  rewrite f64_mul_one by lia. rewrite f64_as_u64_int by (unfold u64_max; lia). lia.
Qed.

Lemma stake_idx_mono (np : nat) r r' t :
  Z.of_nat np <= MAX_NUM_PACKETS → 0 <= r <= r' → 0 < t → (stake_idx f64_from np r t <= stake_idx f64_from np r' t)%nat.
Proof.
  unfold MAX_NUM_PACKETS. intros Hnp Hr Ht. unfold stake_idx. apply Z2Nat.inj_le.
  3: apply f64_as_u64_mono, f64_mul_mono.
  - unfold f64_as_u64. apply Z.min_glb; [unfold u64_max; lia|]. apply Z.div_pos; [|apply f64_one_pos].
    apply f64_round_nonneg; [|apply f64_one_pos]. apply Z.mul_nonneg_nonneg; [|apply stake_share_nonneg; lia].
    rewrite f64_of_int_exact by lia. pose proof f64_one_pos. nia.
  - unfold f64_as_u64. apply Z.min_glb; [unfold u64_max; lia|]. apply Z.div_pos; [|apply f64_one_pos].
    apply f64_round_nonneg; [|apply f64_one_pos]. apply Z.mul_nonneg_nonneg; [|apply stake_share_nonneg; lia].
    rewrite f64_of_int_exact by lia. pose proof f64_one_pos. nia.
  - rewrite f64_of_int_exact by lia. pose proof f64_one_pos. nia.
  - split; [apply stake_share_nonneg; lia|]. unfold stake_div. apply f64_div_mono; [|by apply f64_from_pos].
    split; [|by apply f64_from_mono]. pose proof (f64_from_mono 0 r ltac:(lia)) as Hm. by rewrite f64_from_zero in Hm.
Qed.

Lemma assign_by_stake_spec known segment n np total nodes running pl outs :
  (20 <= n)%nat → Z.of_nat np <= MAX_NUM_PACKETS → 0 < total <= u256_max → 0 <= running → Forall (λ s, 0 <= s) nodes.*2 →
  running + zsum nodes.*2 = total → length pl = stake_idx f64_from np running total →
  ids_ok false np pl → outbound_ok known segment pl outs →
  ∃ pl' outs', assign_by_stake f64_from known segment np total running (Z.of_nat (length pl)) nodes (chunks_of n np pl, outs) =
      Ret (chunks_of n np pl', outs') ∧
    length pl' = np ∧ ids_ok false np pl' ∧ outbound_ok known segment pl' outs' ∧ (∀ x, x ∈ pl'.*1 → x ∈ pl.*1 ∨ x ∈ nodes.*1).
Proof.
  intros Hn Hnp Htot. revert running pl outs. induction nodes as [|[node stake] nodes IH]; intros running pl outs Hrun Hst Hsum Hlen Hids Hout; cbn [assign_by_stake].
  { change (zsum [].*2) with 0 in Hsum. rewrite Z.add_0_r in Hsum. subst running. rewrite stake_idx_total in Hlen by (done || lia).
    exists pl, outs. split_and!; try done. by left. }
  csimpl in Hst. csimpl in Hsum. rewrite zsum_cons in Hsum. rewrite fmap_cons. apply Forall_cons in Hst as [Hs0 Hst]. pose proof (zsum_nonneg _ Hst) as Hz.
  rewrite (checked_add_ok u256_max running stake : _ → stake_add running stake = _) by lia. cbn [mbind exec_bind]. rewrite <-Hlen.
  assert (length pl <= stake_idx f64_from np (running + stake) total <= np)%nat as Hend.
  { rewrite Hlen. split; [apply stake_idx_mono; lia|]. rewrite <-(stake_idx_total np total) at 2 by lia. apply stake_idx_mono; lia. }
  set (end_ := stake_idx f64_from np (running + stake) total) in *. case_bool_decide as Heq.
  - destruct (IH (running + stake) pl outs) as (pl' & outs' & ? & ? & ? & ? & Hx); try done; try lia.
    exists pl', outs'. split_and!; try done. intros x Hxx. destruct (Hx x Hxx); [by left|right; by right].
  - destruct (assign_node_spec known segment n np pl outs node (Z.of_nat (length pl)) end_) as (outs1 & Hnode & Hlen1 & Hout1); try done.
    set (pl1 := pl ++ ids_from _ _ _) in *. rewrite Hnode. cbn [mbind exec_bind].
    replace ((Z.of_nat (length pl) + (Z.of_nat end_ - Z.of_nat (length pl))) mod 2 ^ 16) with (Z.of_nat (length pl1)).
    2:{ rewrite Hlen1, Z.mod_small by (unfold MAX_NUM_PACKETS in *; lia). lia. }
    destruct (IH (running + stake) pl1 outs1) as (pl' & outs' & ? & ? & ? & ? & Hx); try done; try lia; [apply (ids_ok_app false); try done; lia|].
    exists pl', outs'. split_and!; try done. intros x Hxx. destruct (Hx x Hxx) as [Hx1|Hx1]; [|right; by right].
    unfold pl1 in Hx1. rewrite fmap_app, elem_of_app in Hx1. destruct Hx1 as [?|Hx1]; [by left|right].
    unfold ids_from in Hx1. change (map ?f ?l) with (f <$> l) in Hx1. rewrite <-list_fmap_compose in Hx1.
    apply list_elem_of_fmap in Hx1 as (? & -> & _). left.
Qed.

Context (shuffle : list (NodeId * Stake) → list (NodeId * Stake)) (Hshuffle : ∀ l, shuffle l ≡ₚ l) (seed : Z).

(** The chunks are given to nodes of the target, under consecutive ids. *)
Definition assigned known (t : BuildTarget) (segment n np : nat)
    (o : option (list (option Z * bytes) * list (SocketAddr * (nat * nat)))) : Prop :=
  match o with
  | None => target_dropped known t
  | Some (chunks, outs) => ∃ pl, chunks = chunks_of n np pl ∧ length pl = np ∧ ids_ok (is_broadcast_target t) np pl ∧
      outbound_ok known segment pl outs ∧ ∀ x, x ∈ pl.*1 → x ∈ target_nodes t
  end.

Lemma assign_broadcast_spec known self_id nodes segment n (np : nat) :
  (20 <= n)%nat → Z.of_nat np <= MAX_NUM_PACKETS → (target_nodes (BT_Broadcast nodes) = [] → np = 0%nat) → 
  ∃ o, assign_chunks f64_from shuffle seed self_id (BT_Broadcast nodes) known segment np (chunks_of n np []) = Ret o ∧ assigned known (BT_Broadcast nodes) segment n np o.
Proof.
  intros Hn Hnp Hempty. cbn [assign_chunks target_nodes is_broadcast_target target_dropped] in *.
  destruct (assign_evenly_spec known segment n np (nodes_view_len nodes) true (nodes_view_iter nodes) 0 [] []) as
    (pl & outs & Heq & Hlen & Hids & Hout & Hx); try done; [rewrite nodes_view_len_iter; lia|by rewrite Nat.mul_0_r, Nat.Div0.div_0_l|by apply Forall_nil|apply outbound_nil|].
  change (Z.of_nat (length [])) with 0 in Heq. rewrite Heq. cbn [mbind exec_bind]. eexists. split; [reflexivity|]. exists pl. split; [done|]. split; [|split_and!; try done].
  - rewrite Hlen, <-nodes_view_len_iter. cbn. destruct (decide (nodes_view_len nodes = 0)%nat) as [Hz|Hz]; [|by apply Nat.div_mul].
    rewrite nodes_view_len_iter in Hz. rewrite (Hempty (nil_length_inv _ Hz)). apply Nat.Div0.div_0_l.
  - intros x Hxx. destruct (Hx x Hxx) as [?%elem_of_nil|?]; done.
Qed.

Lemma assign_raptorcast_spec known self_id v segment n (np : nat) :
  (20 <= n)%nat → Z.of_nat np <= MAX_NUM_PACKETS → target_ok self_id (BT_Raptorcast v) → 
  ∃ o, assign_chunks f64_from shuffle seed self_id (BT_Raptorcast v) known segment np (chunks_of n np []) = Ret o ∧ assigned known (BT_Raptorcast v) segment n np o.
Proof.
  intros Hn Hnp Hok. cbn [assign_chunks target_nodes is_broadcast_target target_dropped].
  destruct Hok as (Hne & Hst & Hmax). unfold view_is_empty. rewrite view_len_iter.
  rewrite (bool_decide_false (view v = ∅)). 2:{ intros He. apply Hne. unfold view_iter. rewrite He. done. }
  rewrite (bool_decide_false (length (view_iter v) = 0%nat)) by (intros ?%nil_length_inv; done). cbn [orb negb assert mbind exec_bind].
  unfold view_total_stake. rewrite stake_sum_ok by done. cbn [mbind exec_bind]. unfold Stake_ZERO.
  pose proof (zsum_nonneg _ Hst) as Hnn. case_bool_decide as Hz; [by exists None|].
  assert ((shuffle (view_iter v)).*2 ≡ₚ (view_iter v).*2) as Hperm by (by rewrite Hshuffle).
  destruct (assign_by_stake_spec known segment n np (zsum (view_iter v).*2) (shuffle (view_iter v)) 0 [] []) as
    (pl & outs & Heq & Hlen & Hids & Hout & Hx); try done; try lia.
  - by rewrite Hperm.
  - by rewrite Hperm.
  - by rewrite stake_idx_zero by lia.
  - apply outbound_nil.
  - change (Z.of_nat (length [])) with 0 in Heq. rewrite Heq. cbn [mbind exec_bind]. eexists. split; [reflexivity|]. exists pl. split_and!; try done.
    intros x Hxx. destruct (Hx x Hxx) as [?%elem_of_nil|Hin]; [done|]. by rewrite Hshuffle in Hin.
Qed.

Lemma assign_point_to_point_spec known self_id to segment n (np : nat) :
  (20 <= n)%nat → Z.of_nat np <= MAX_NUM_PACKETS → 
  ∃ o, assign_chunks f64_from shuffle seed self_id (BT_PointToPoint to) known segment np (chunks_of n np []) = Ret o ∧ assigned known (BT_PointToPoint to) segment n np o.
Proof.
  intros Hn Hnp. cbn [assign_chunks target_nodes is_broadcast_target target_dropped].
  destruct (known !! to) as [addr|] eqn:Hk; [|by exists None].
  unfold chunks_of. cbn [length map app]. rewrite Nat.sub_0_r. rewrite assign_fresh by done. cbn [mbind exec_bind]. eexists. split; [reflexivity|].
  assert (length (ids_from to 0 np) = np) as Hl by (unfold ids_from; by rewrite length_map, length_seq).
  exists (ids_from to 0 np). split; [unfold chunks_of; by rewrite Hl, Nat.sub_diag, app_nil_r|]. split; [done|].
  split; [apply (ids_ok_app false np [] to np); done|].
  split.
  - pose proof (ob_node known segment [] [] to _ (ob_nil _ _) (ids_from_node to 0 np)) as Hob. rewrite Hk, Hl in Hob.
    rewrite Nat.mul_comm. exact Hob.
  - intros x (y & -> & Hin)%list_elem_of_fmap. pose proof (ids_from_node to 0 np) as Hnode. rewrite Forall_forall in Hnode.
    rewrite (Hnode y Hin). left.
Qed.

Lemma assign_fullnodes_spec known self_id g segment n (np : nat) :
  (20 <= n)%nat → Z.of_nat np <= MAX_NUM_PACKETS → target_ok self_id (BT_FullNodeRaptorCast g) → 
  ∃ o, assign_chunks f64_from shuffle seed self_id (BT_FullNodeRaptorCast g) known segment np (chunks_of n np []) = Ret o ∧ assigned known (BT_FullNodeRaptorCast g) segment n np o.
Proof.
  intros Hn Hnp Hok. cbn [assign_chunks target_nodes is_broadcast_target target_dropped].
  destruct Hok as (Hv & Hne & Hmax). unfold iter_skip_self_and_author. rewrite Hv. rewrite bool_decide_false by tauto.
  rewrite group_collect_spec by done. cbn [mbind exec_bind]. set (nodes := rotation _ _ _ _).
  assert (nodes ≡ₚ sorted_other_peers g) as Hperm.
  { unfold nodes. change (Z.to_nat 0) with 0%nat. rewrite rotation_perm.
    rewrite (omap_ext_elem _ (λ i, if bool_decide True then sorted_other_peers g !! i else None)).
    - rewrite (omap_lookup_filter _ (λ _, True) (λ _, True)) by done. by rewrite filter_all.
    - intros i Hi%elem_of_seq. by rewrite !bool_decide_true by (unfold usize_max, u64_max in *; lia || done). }
  assert (length nodes = size_excl_self g) as Hsize by (by rewrite Hperm).
  destruct (assign_evenly_spec known segment n np (size_excl_self g) false nodes 0 [] []) as
    (pl & outs & Heq & Hlen & Hids & Hout & Hx); try done; [lia|by rewrite Nat.mul_0_r, Nat.Div0.div_0_l|apply outbound_nil|].
  change (Z.of_nat (length [])) with 0 in Heq. rewrite Heq. cbn [mbind exec_bind]. eexists. split; [reflexivity|]. exists pl. split; [done|].
  split; [|split_and!; try done].
  - rewrite Hlen, Hsize, Nat.add_0_l. apply Nat.div_mul. unfold size_excl_self. by intros ?%nil_length_inv.
  - intros x Hxx. destruct (Hx x Hxx) as [?%elem_of_nil|Hin]; [done|]. by rewrite Hperm in Hin.
Qed.

Lemma assign_chunks_spec known self_id t segment n (np : nat) :
  (20 <= n)%nat → Z.of_nat np <= MAX_NUM_PACKETS → target_ok self_id t → (target_nodes t = [] → np = 0%nat) →
  ∃ o, assign_chunks f64_from shuffle seed self_id t known segment np (replicate np (None, replicate n 0)) = Ret o ∧
    assigned known t segment n np o.
Proof.
  intros Hn Hnp Hok Hempty.
  assert (replicate np (None, replicate n 0) = chunks_of n np []) as -> by (unfold chunks_of; cbn; by rewrite Nat.sub_0_r).
  destruct t; [by apply assign_broadcast_spec|by apply assign_raptorcast_spec|by apply assign_point_to_point_spec|by apply assign_fullnodes_spec].
Qed.
End stake.

(** * Contents *)

(** The bytes of a chunk after the proof. *)
Definition chunk_body (leaf_idx : Z) (x : NodeId * Z * bytes) : bytes :=
  compute_hash pubkey_bytes x.1.1 ++ [leaf_idx] ++ [0] ++ to_le_bytes 2 x.1.2 ++ x.2.

Lemma copy_app (a b c data : bytes) :
  length data = length b → copy_from_slice (a ++ b ++ c) (length a) data = Ret (a ++ data ++ c).
Proof.
  intros Hl. rewrite copy_ok by (rewrite !length_app; lia). rewrite take_app_length. do 3 f_equal.
  rewrite app_assoc. apply drop_app_length'. rewrite length_app. lia.
Qed.

Lemma fill_chunk_spec src e C n x :
  encoder_ok src e C → n = (CHUNK_HEADER_LEN + symbol_len e)%nat → 0 <= x.2 < MAX_TRIPLES →
  ∃ symbol, encode_symbol e (Z.to_nat x.2) = Ret symbol ∧ length symbol = symbol_len e ∧
    fill_chunk e (given n x) = Ret (chunk_body 0 (x, symbol)).
Proof.
  intros He -> Hid. unfold MAX_TRIPLES in *.
  destruct (encode_symbol_spec src e C (Z.to_nat x.2) He) as (l & _ & Henc); [unfold MAX_TRIPLES; lia|].
  assert (length (xsum (symbol_len e) C l) = symbol_len e) as Hlen by (apply xsum_length, He).
  exists (xsum (symbol_len e) C l). split; [done|]. split; [done|]. unfold fill_chunk, given, chunk_body. cbn [fst snd expect mbind exec_bind].
  set (hash := compute_hash pubkey_bytes x.1). pose proof (compute_hash_length x.1) as Hh. fold hash in Hh.
  replace (CHUNK_HEADER_LEN + symbol_len e - 20)%nat with (2 + (2 + symbol_len e))%nat by (unfold CHUNK_HEADER_LEN; lia).
  rewrite !replicate_add. rewrite (app_assoc hash). replace 22%nat with (length (hash ++ replicate 2 0)) at 1 by (rewrite length_app, Hh; done).
  rewrite copy_app by (by rewrite length_to_le_bytes). cbn [mbind exec_bind]. rewrite Henc. cbn [mbind exec_bind].
  rewrite (app_assoc (hash ++ replicate 2 0)). rewrite <-(app_nil_r (replicate (symbol_len e) 0)).
  replace CHUNK_HEADER_LEN with (length ((hash ++ replicate 2 0) ++ to_le_bytes 2 x.2))
    by (rewrite !length_app, length_to_le_bytes, Hh; done).
  rewrite copy_app by (by rewrite length_replicate). rewrite app_nil_r. by rewrite <-!app_assoc.
Qed.

Lemma set_leaf_idx_spec (idx : nat) x : (idx <= 255)%nat → set_leaf_idx idx (chunk_body 0 x) = Ret (chunk_body (Z.of_nat idx) x).
Proof.
  intros Hidx. unfold set_leaf_idx. rewrite bool_decide_true by lia. cbn [assert mbind exec_bind]. unfold chunk_body.
  rewrite <-(compute_hash_length x.1.1). by rewrite copy_app.
Qed.

Lemma set_leaf_idxs_spec (idx : nat) xs :
  (idx + length xs <= 256)%nat → set_leaf_idxs idx (map (chunk_body 0) xs) = Ret (imap (λ i x, chunk_body (Z.of_nat (idx + i)) x) xs).
Proof.
  revert idx. induction xs as [|x xs IH]; intros idx Hl; [done|]. cbn [map set_leaf_idxs length imap] in *.
  rewrite set_leaf_idx_spec by lia. cbn [mbind exec_bind]. rewrite IH by lia. cbn [mbind exec_bind]. rewrite Nat.add_0_r. do 2 f_equal.
  apply imap_ext. intros i y _. cbn. do 2 f_equal. lia.
Qed.

Lemma write_proof_spec pre sibs leaf :
  Forall (λ s, length s = 20%nat) sibs →
  write_proof (pre ++ replicate (20 * length sibs) 0 ++ leaf) (length pre) sibs = Ret (pre ++ concat sibs ++ leaf).
Proof.
  intros Hs. revert pre. induction Hs as [|s sibs Hs Hsibs IH]; intros pre; [done|]. cbn [write_proof length concat].
  replace (20 * S (length sibs))%nat with (20 + 20 * length sibs)%nat by lia. rewrite replicate_add, <-!app_assoc.
  rewrite copy_app by (by rewrite length_replicate). cbn [mbind exec_bind]. rewrite (app_assoc pre s).
  replace (length pre + 20)%nat with (length (pre ++ s)) by (rewrite length_app; lia). rewrite IH. by rewrite <-!app_assoc.
Qed.

(** * Signed batches *)

(** What is relied on of the signatures of a key. *)
Record key_ok (key : ST_KeyPair) : Prop := {
  key_size msg : length (st_serialize (st_sign SD_RaptorcastChunk msg key)) = SIGNATURE_SIZE;
  key_roundtrip msg : st_deserialize (st_serialize (st_sign SD_RaptorcastChunk msg key)) = Some (st_sign SD_RaptorcastChunk msg key);
  key_recover msg : st_recover_pubkey SD_RaptorcastChunk msg (st_sign SD_RaptorcastChunk msg key) = Some (st_pubkey key);
}.

(** Header fields in their ranges *)
Record header_ok (h : HeaderFields) : Prop := {
  hd_epoch : is_u64 (h_epoch_no h);
  hd_ts : is_u64 (h_unix_ts_ms h);
  hd_hash : length (h_app_message_hash h) = 20%nat;
  hd_len : 0 <= h_app_message_len h < 2 ^ 32;
}.

(** The message that a receiver reads from the packet of a chunk *)
Definition message_for (h : HeaderFields) (author : NodeId) (packet : bytes) (x : NodeId * Z * bytes) : ValidatedMessage :=
  mkValidatedMessage packet author (h_epoch_no h) (h_unix_ts_ms h) (h_app_message_hash h) (h_app_message_len h) (h_broadcast h)
    (compute_hash pubkey_bytes x.1.1) x.1.2 x.2.

(** [packet] is laid out, proved and signed for the chunk [x]. *)
Definition packet_for (h : HeaderFields) (author : NodeId) (x : NodeId * Z * bytes) (packet : bytes) : Prop :=
  ∃ p root, packet = layout p ∧ packet_sizes p ∧ pk_root p = Some root ∧ signed_by (pk_header p ++ root) author ∧
    from_le_bytes (pk_ts p) = h_unix_ts_ms h ∧ pk_message p author = message_for h author packet x ∧
    length packet = (HEADER_LEN + proof_size + CHUNK_HEADER_LEN + length x.2)%nat.

Definition flags_of (broadcast : bool) : Z := Z.lor (Z.shiftl (Z.b2z broadcast) 7) tree_depth.
Definition packet_of (h : HeaderFields) (signature : bytes) (sibs : list MerkleHash) (leaf_idx : Z) (x : NodeId * Z * bytes) : Packet :=
  mkPacket signature (flags_of (h_broadcast h)) (to_le_bytes 8 (h_epoch_no h)) (to_le_bytes 8 (h_unix_ts_ms h)) (h_app_message_hash h)
    (to_le_bytes 4 (h_app_message_len h)) sibs (compute_hash pubkey_bytes x.1.1) leaf_idx 0 (to_le_bytes 2 x.1.2) x.2.

Lemma packet_of_header h signature sibs leaf_idx x : pk_header (packet_of h signature sibs leaf_idx x) = signature ++ header_body h.
Proof. done. Qed.
Lemma packet_of_leaf h signature sibs leaf_idx x : pk_leaf (packet_of h signature sibs leaf_idx x) = chunk_body leaf_idx x.
Proof. done. Qed.

Lemma packet_of_sizes h signature sibs leaf_idx x :
  header_ok h → length signature = SIGNATURE_SIZE → Forall (λ s, length s = 20%nat) sibs → length sibs = 5%nat → x.2 ≠ [] →
  packet_sizes (packet_of h signature sibs leaf_idx x).
Proof.
  intros [] Hs Hsibs Hl Hx. constructor; cbn [packet_of pk_signature pk_flags pk_epoch pk_ts pk_hash pk_len pk_siblings pk_recipient pk_id pk_chunk];
    try done; try apply length_to_le_bytes; [| |apply compute_hash_length]; rewrite ?Hl; by destruct (h_broadcast h).
Qed.

Lemma packet_of_message h signature sibs leaf_idx x author :
  header_ok h → 0 <= x.1.2 < 2 ^ 16 →
  pk_message (packet_of h signature sibs leaf_idx x) author = message_for h author (layout (packet_of h signature sibs leaf_idx x)) x.
Proof.
  intros [He Ht _ Hl] Hid. unfold pk_message, message_for. unfold is_u64, u64_max in *.
  cbn [packet_of pk_signature pk_flags pk_epoch pk_ts pk_hash pk_len pk_siblings pk_recipient pk_id pk_chunk].
  rewrite !from_to_le_bytes by (simpl; lia). f_equal. by destruct (h_broadcast h).
Qed.

Lemma finish_chunks_spec header t xs idx (proofs : nat → MerkleProof) :
  length header = HEADER_LEN → (idx + length xs <= 256)%nat →
  (∀ i, (idx <= i < idx + length xs)%nat → merkle_proof t (Z.of_nat i) = Ret (proofs i) ∧ length (siblings (proofs i)) = 5%nat ∧
     Forall (λ s, length s = 20%nat) (siblings (proofs i))) →
  finish_chunks header t idx (imap (λ i x, chunk_body (Z.of_nat (idx + i)) x) xs) =
  Ret (imap (λ i x, header ++ concat (siblings (proofs (idx + i)%nat)) ++ chunk_body (Z.of_nat (idx + i)) x) xs).
Proof.
  intros Hh. revert idx. induction xs as [|x xs IH]; intros idx Hl Hp; [done|]. cbn [imap finish_chunks length] in *.
  destruct (Hp idx) as (Hproof & H5 & H20); [lia|]. unfold finish_chunk.
  replace (HEADER_LEN + proof_size)%nat with (length header + 100)%nat by (rewrite Hh; done). rewrite replicate_add, <-app_assoc.
  pose proof (copy_app [] (replicate (length header) 0) (replicate 100 0 ++ chunk_body (Z.of_nat (idx + 0)) x) header) as Hc.
  cbn [app length] in Hc. rewrite Hc by (by rewrite length_replicate). cbn [mbind exec_bind].
  rewrite Z.mod_small by lia. rewrite Hproof. cbn [mbind exec_bind]. rewrite <-Hh.
  replace 100%nat with (20 * length (siblings (proofs idx)))%nat by lia. rewrite write_proof_spec by done. cbn [mbind exec_bind].
  rewrite Hh in *. specialize (IH (S idx) ltac:(lia)).
  rewrite (imap_ext _ (λ i x, chunk_body (Z.of_nat (S idx + i)) x)) by (intros; cbn; do 2 f_equal; lia).
  rewrite IH by (intros i Hi; apply Hp; lia). cbn [mbind exec_bind]. rewrite Nat.add_0_r. do 2 f_equal.
  apply imap_ext. intros i y _. cbn. rewrite Nat.add_succ_r. done.
Qed.

Lemma batch_proofs xs t root :
  let leaves := map hasher (imap (λ i x, chunk_body (Z.of_nat i) x) xs) in
  tree_ok t 5 → tree t !! 0%nat = Some root → (length xs <= 32)%nat →
  (∀ i, 0 <= i < 2 ^ Z.of_nat 5 →
     tree t !! Z.to_nat (tree_leaf_start_idx t + i) = Some (default merkle_default (hash_to_merkle <$> leaves !! Z.to_nat i))) →
  Forall (λ s, length s = 20%nat) (tree t) →
  ∀ i x, xs !! i = Some x → ∃ p, merkle_proof t (Z.of_nat i) = Ret p ∧ length (siblings p) = 5%nat ∧
    Forall (λ s, length s = 20%nat) (siblings p) ∧ new_from_leaf_idx (siblings p) (Z.of_nat i) = Some p ∧
    compute_root p (hasher (chunk_body (Z.of_nat i) x)) = Some root.
Proof.
  intros leaves Hok Hroot Hlen Hleaves H20 i x Hx. apply lookup_lt_Some in Hx as Hlt.
  destruct (merkle_complete t 5 leaves root (Z.of_nat i) (hasher (chunk_body (Z.of_nat i) x))) as (p & Hp & Hps & Hnew & Hcr); try done; [lia|simpl; lia| |].
  { unfold leaves. rewrite Nat2Z.id. change (map ?f ?l) with (f <$> l). rewrite list_lookup_fmap, list_lookup_imap, Hx. done. }
  exists p. split; [done|]. split; [lia|]. split; [|done]. unfold merkle_proof in Hp.
  apply bind_Ret_inv in Hp as (sibs & Hsibs%siblings_in_tree & Hp). injection Hp as <-. cbn [siblings].
  apply Forall_reverse. eapply Forall_impl; [done|]. intros s' Hs'. rewrite Forall_forall in H20. by apply H20.
Qed.

Lemma finish_batch_spec key h xs :
  key_ok key → header_ok h → (length xs <= chunks_per_merkle_batch)%nat →
  Forall (λ x : NodeId * Z * bytes, x.2 ≠ [] ∧ 0 <= x.1.2 < 2 ^ 16) xs →
  ∃ packets, finish_batch key h (map (chunk_body 0) xs) = Ret packets ∧ Forall2 (packet_for h (st_pubkey key)) xs packets.
Proof.
  intros Hkey Hh Hlen Hxs. change chunks_per_merkle_batch with 32%nat in Hlen. unfold finish_batch.
  rewrite set_leaf_idxs_spec by lia. cbn [mbind exec_bind]. cbn [Nat.add].
  set (bodies := imap (λ i x, chunk_body (Z.of_nat i) x) xs). set (leaves := map hasher bodies).
  destruct (new_with_depth_spec leaves 5) as (t & Ht & Hok & Hlookup); [lia|]. change (Z.of_nat 5 + 1) with tree_depth in Ht.
  rewrite Ht. cbn [mbind exec_bind]. destruct (Hok) as [_ Htl _].
  destruct (lookup_lt_is_Some_2 (tree t) 0) as [root Hroot]; [lia|]. unfold merkle_root. rewrite Hroot. cbn [expect mbind exec_bind].
  rewrite (key_size _ Hkey). rewrite bool_decide_true by done. cbn [assert mbind exec_bind].
  set (signature := st_serialize _). assert (length signature = SIGNATURE_SIZE) as Hsl by apply Hkey.
  assert (Forall (λ s, length s = 20%nat) (tree t)) as H20.
  { apply (tree_lengths t 5 leaves Hok); [|done]. unfold leaves. change (map ?f ?l) with (f <$> l). apply Forall_fmap, Forall_true.
    intros x. apply hasher_length. }
  pose proof (batch_proofs xs t root Hok Hroot Hlen Hlookup H20) as Hproofs.
  set (proofs := λ i, match merkle_proof t (Z.of_nat i) with Ret p => p | _ => mkMerkleProof 0 [] end).
  assert (finish_chunks (signature ++ header_body h) t 0 bodies =
    Ret (imap (λ i x, (signature ++ header_body h) ++ concat (siblings (proofs i)) ++ chunk_body (Z.of_nat i) x) xs)) as ->.
  { apply (finish_chunks_spec (signature ++ header_body h) t xs 0 proofs).
    - rewrite length_app, Hsl. unfold header_body. rewrite !length_app, !length_to_le_bytes, (hd_hash _ Hh). done.
    - lia.
    - intros i Hi. destruct (lookup_lt_is_Some_2 xs i) as [x Hx]; [lia|]. destruct (Hproofs i x Hx) as (p & Hp & H5 & Hs20 & _).
      unfold proofs. by rewrite Hp. }
  eexists. split; [done|]. apply Forall2_same_length_lookup_2; [by rewrite length_imap|].
  intros i x packet Hx Hpacket. rewrite list_lookup_imap, Hx in Hpacket. cbn [fmap option_fmap option_map] in Hpacket. injection Hpacket as <-.
  destruct (Hproofs i x Hx) as (p & Hp & H5 & Hs20 & Hnew & Hcr). unfold proofs. rewrite Hp.
  rewrite Forall_forall in Hxs. destruct (Hxs x) as [Hne Hid]; [by eapply list_elem_of_lookup_2|].
  exists (packet_of h signature (siblings p) (Z.of_nat i) x), root. split; [done|]. split; [by apply packet_of_sizes|]. split.
  { unfold pk_root. cbn [pk_siblings pk_leaf_idx packet_of]. rewrite Hnew. exact Hcr. }
  split; [|split; [|split; [by apply packet_of_message|]]].
  - rewrite packet_of_header. exists (st_sign SD_RaptorcastChunk (header_body h ++ root) key). rewrite <-app_assoc.
    rewrite take_app_length' by done. rewrite drop_app_length' by done. split; [apply Hkey|apply Hkey].
  - destruct Hh as [_ Hts _ _]. cbn [packet_of pk_ts]. apply from_to_le_bytes. unfold is_u64, u64_max in Hts. simpl. lia.
  - rewrite !length_app, Hsl, concat_length20, H5 by done. unfold header_body, chunk_body.
    rewrite !length_app, !length_to_le_bytes, (hd_hash _ Hh), compute_hash_length. cbn [length]. unfold HEADER_LEN, CHUNK_HEADER_LEN. simpl. lia.
Qed.

(** * Whole messages *)

Lemma chunks_aux_map {A B} (f : A → B) fuel n (l : list A) : chunks_aux fuel n (map f l) = map (map f) (chunks_aux fuel n l).
Proof.
  revert l. induction fuel as [|fuel IH]; intros [|x l]; try done. cbn [map chunks_aux].
  change (f x :: map f l) with (map f (x :: l)). rewrite firstn_map, skipn_map, IH. done.
Qed.

Lemma chunks_concat {A} n (l : list (list A)) : (0 < n)%nat → Forall (λ x, length x = n) l → chunks n (concat l) = l.
Proof.
  intros Hn Hl. unfold chunks. assert (∀ fuel, (length (concat l) <= fuel)%nat → chunks_aux fuel n (concat l) = l) as Haux; [|by apply Haux].
  induction Hl as [|x l Hx Hl IH]; intros fuel Hf; [by destruct fuel|]. cbn [concat] in *. rewrite length_app in Hf.
  destruct fuel as [|fuel]; [lia|]. destruct (x ++ concat l) as [|y rest] eqn:Hy.
  { apply (f_equal length) in Hy. rewrite length_app in Hy. simpl in Hy. lia. }
  cbn [chunks_aux]. rewrite <-Hy. rewrite take_app_length', drop_app_length' by done. rewrite IH by lia. done.
Qed.

Lemma mapM_fill src e C n pl :
  encoder_ok src e C → n = (CHUNK_HEADER_LEN + symbol_len e)%nat → Forall (λ id, 0 <= id < MAX_TRIPLES) pl.*2 →
  ∃ xs, mapM (fill_chunk e) (map (given n) pl) = Ret (map (chunk_body 0) xs) ∧ xs.*1 = pl ∧
    Forall (λ x : NodeId * Z * bytes, encode_symbol e (Z.to_nat x.1.2) = Ret x.2 ∧ length x.2 = symbol_len e) xs.
Proof.
  intros He Hn. induction pl as [|x pl IH]; intros Hids; [by exists []|]. csimpl in Hids. apply Forall_cons in Hids as [Hid Hids].
  destruct (IH Hids) as (xs & Hm & Hfst & Hall). destruct (fill_chunk_spec src e C n x He Hn Hid) as (symbol & Hsym & Hlen & Hfill).
  exists ((x, symbol) :: xs). cbn [map mapM]. rewrite Hfill. cbn [mbind exec_bind]. rewrite Hm. cbn [mbind exec_bind]. split; [done|].
  split; [csimpl; by rewrite Hfst|]. by constructor.
Qed.

Lemma mapM_finish key h xss :
  key_ok key → header_ok h → Forall (λ xs, length xs <= chunks_per_merkle_batch)%nat xss →
  Forall (λ x : NodeId * Z * bytes, x.2 ≠ [] ∧ 0 <= x.1.2 < 2 ^ 16) (concat xss) →
  ∃ batches, mapM (finish_batch key h) (map (map (chunk_body 0)) xss) = Ret batches ∧
    Forall2 (packet_for h (st_pubkey key)) (concat xss) (concat batches).
Proof.
  intros Hkey Hh. induction xss as [|xs xss IH]; intros Hlen Hall; [by exists []; split; [|constructor]|].
  apply Forall_cons in Hlen as [Hl Hlen]. cbn [concat] in *. apply Forall_app in Hall as [Ha Hall]. destruct (IH Hlen Hall) as (batches & Hm & Hf).
  destruct (finish_batch_spec key h xs Hkey Hh Hl Ha) as (packets & Hp & Hf2). exists (packets :: batches).
  cbn [map mapM]. rewrite Hp. cbn [mbind exec_bind]. rewrite Hm. cbn [mbind exec_bind concat]. split; [done|]. by apply Forall2_app.
Qed.

(** The datagrams that are sent: the bytes for an address, cut at the size of a
    segment. *)
Definition sent (segment : nat) (out : list (SocketAddr * bytes)) : list (SocketAddr * bytes) :=
  concat (map (λ '(addr, bs), map (pair addr) (chunks segment bs)) out).

Lemma elem_of_sent segment out addr packet :
  (addr, packet) ∈ sent segment out ↔ ∃ bs, (addr, bs) ∈ out ∧ packet ∈ chunks segment bs.
Proof.
  unfold sent. rewrite list_elem_of_In, in_concat. split.
  - intros (l & ([addr' bs] & <- & Hin)%in_map_iff & (pk & [= <- <-] & Hpk)%in_map_iff). exists bs. by rewrite !list_elem_of_In.
  - intros (bs & Hin & Hpk). exists (map (pair addr) (chunks segment bs)). rewrite !list_elem_of_In in *. split.
    + apply in_map_iff. by exists (addr, bs).
    + by apply in_map.
Qed.

Lemma slice_concat (segment a b : nat) (packets : list bytes) :
  Forall (λ p, length p = segment) packets → (a <= b <= length packets)%nat →
  slice (concat packets) (a * segment) (b * segment) = Ret (concat (take (b - a) (drop a packets))).
Proof.
  intros Hl Hab. assert (∀ l : list bytes, Forall (λ p, length p = segment) l → length (concat l) = (length l * segment)%nat) as Hc.
  { induction 1 as [|x l Hx _ IH]; [done|]. cbn [concat length]. rewrite length_app. lia. }
  assert (∀ c (l : list bytes), Forall (λ p, length p = segment) l → (c <= length l)%nat → drop (c * segment) (concat l) = concat (drop c l)) as Hd.
  { intros c l Hll Hcl. rewrite <-(take_drop c l) at 1. rewrite concat_app. apply drop_app_length'.
    rewrite Hc by (by apply Forall_take). rewrite length_take. f_equal. lia. }
  rewrite slice_ok by (rewrite Hc by done; nia). f_equal. rewrite Hd by (done || lia).
  rewrite <-(take_drop (b - a) (drop a packets)) at 1. rewrite concat_app. apply take_app_length'.
  rewrite Hc by (by apply Forall_take, Forall_drop). rewrite length_take, length_drop. nia.
Qed.

(** The number of packets of a message *)
Definition packets_for (t : BuildTarget) (redundancy : Redundancy) (len data_size : Z) : Z :=
  div_ceil (to_bits redundancy * Z.max (div_ceil len data_size) 1) 2048 *
  match t with BT_Broadcast nodes => Z.of_nat (nodes_view_len nodes) | _ => 1 end.

Lemma num_packets_for_spec t redundancy len data_size :
  0 < data_size → 0 <= len < 2 ^ 32 → 0 <= to_bits redundancy < 2 ^ 16 → packets_for t redundancy len data_size <= usize_max →
  num_packets_for t redundancy len data_size =
  Ret (if bool_decide (packets_for t redundancy len data_size > MAX_NUM_PACKETS) then None else Some (packets_for t redundancy len data_size)).
Proof.
  intros Hds Hlen Hr Hmax. unfold num_packets_for. rewrite (bool_decide_true (data_size ≠ 0)) by lia. cbn [assert mbind exec_bind].
  pose proof (div_ceil_range len data_size ltac:(lia) Hds). rewrite scale_ok by (unfold SOURCE_SYMBOLS_MIN; lia). cbn [expect mbind exec_bind].
  unfold packets_for, SOURCE_SYMBOLS_MIN in *. destruct t; cbn [mbind exec_bind]; rewrite ?Z.mul_1_r; try done.
  rewrite (bool_decide_true (_ <= usize_max)) by done. done.
Qed.

Context (f64_from : Z → f64) `{FL : !F64FromLaws f64_from}.
Context (shuffle : list (NodeId * Stake) → list (NodeId * Stake)) (Hshuffle : ∀ l, shuffle l ≡ₚ l) (seed : Z).

(** The chunks of a message: their recipients, ids and symbols. *)
Record chunks_ok (t : BuildTarget) (e : Encoder) (np : nat) (xs : list (NodeId * Z * bytes)) : Prop := {
  ck_length : length xs = np;
  ck_ids : ids_ok (is_broadcast_target t) np xs.*1;
  ck_nodes x : x ∈ xs → x.1.1 ∈ target_nodes t;
  ck_symbols x : x ∈ xs → encode_symbol e (Z.to_nat x.1.2) = Ret x.2 ∧ 0 <= x.1.2 < Z.of_nat np;
}.

Lemma ids_ok_range restart np pl : ids_ok restart np pl → length pl = np → Forall (λ id, 0 <= id < Z.of_nat np) pl.*2.
Proof.
  unfold ids_ok. intros Hids <-. destruct restart; [done|]. rewrite Hids. change (map ?f ?l) with (f <$> l). apply Forall_fmap, Forall_forall.
  intros i Hi%elem_of_seq. cbn. lia.
Qed.

(** The packets of nodes with an address, each with this address, in their order. *)
Definition addressed known (xs : list (NodeId * Z * bytes)) (packets : list bytes) : list (SocketAddr * bytes) :=
  omap (λ '(x, packet), (λ addr, (addr, packet)) <$> known !! x.1.1) (zip xs packets).

Lemma elem_of_addressed known xs packets addr packet :
  (addr, packet) ∈ addressed known xs packets ↔
  ∃ j x, xs !! j = Some x ∧ packets !! j = Some packet ∧ known !! x.1.1 = Some addr.
Proof.
  unfold addressed. rewrite list_elem_of_omap. split.
  - intros ([x p] & [j Hj]%list_elem_of_lookup & Hk). apply lookup_zip_with_Some in Hj as (? & ? & [= <- <-] & Hx & Hp).
    apply fmap_Some in Hk as (? & Hk & [= <- <-]). by exists j, x.
  - intros (j & x & Hx & Hp & Hk). exists (x, packet). rewrite Hk. split; [|done]. apply list_elem_of_lookup. exists j.
    apply lookup_zip_with_Some. by exists x, packet.
Qed.

Lemma mapM_snoc {A B} (f : A → exec B) l r x y : mapM f l = Ret r → f x = Ret y → mapM f (l ++ [x]) = Ret (r ++ [y]).
Proof.
  revert r. induction l as [|z l IH]; intros r; cbn [mapM app].
  - intros [= <-] ->. done.
  - intros (z' & Hz & Hr)%bind_Ret_inv Hx. apply bind_Ret_inv in Hr as (r' & Hr & [= <-]). rewrite Hz. cbn [mbind exec_bind].
    by rewrite (IH r' Hr Hx).
Qed.

(** The packets of one node *)
Lemma addressed_node known (ids : list (NodeId * Z)) (packets : list bytes) node :
  Forall (λ x, x.1 = node) ids → (length ids <= length packets)%nat →
  omap (λ '(x, packet), (λ addr, (addr, packet)) <$> known !! x.1) (zip ids packets) =
  match known !! node with Some addr => map (pair addr) (take (length ids) packets) | None => [] end.
Proof.
  intros Hids. revert packets. induction Hids as [|x ids Hx Hids IH]; intros packets Hlen; [by destruct (known !! node)|].
  destruct packets as [|packet packets]; [simpl in Hlen; lia|]. cbn [zip zip_with omap list_omap length take map]. rewrite Hx.
  rewrite IH by (simpl in Hlen; lia). by destruct (known !! node).
Qed.

Lemma sent_plan known segment (pl : list (NodeId * Z)) packets outs :
  (0 < segment)%nat → Forall (λ p, length p = segment) packets → outbound_ok known segment pl outs → (length pl <= length packets)%nat →
  ∃ out, mapM (λ '(addr, (start_, end_)), bs ← slice (concat packets) start_ end_; Ret (addr, bs)) outs = Ret out ∧
    sent segment out = omap (λ '(x, packet), (λ addr, (addr, packet)) <$> known !! x.1) (zip pl packets).
Proof.
  intros Hseg Hlen Hob. induction Hob as [|pl outs node ids Hob IH Hnode]; intros Hle; [by exists []|].
  rewrite length_app in Hle. destruct IH as (out & Hm & Hout); [lia|].
  rewrite zip_with_app_l, omap_app, zip_with_take_r by lia. rewrite (addressed_node known ids _ node) by (done || rewrite length_drop; lia).
  rewrite <-Hout. destruct (known !! node) as [addr|]; [|exists out; by rewrite app_nil_r].
  exists (out ++ [(addr, concat (take (length ids) (drop (length pl) packets)))]). split.
  - apply mapM_snoc; [done|]. rewrite slice_concat by (done || lia). cbn [mbind exec_bind]. do 4 f_equal. lia.
  - unfold sent. rewrite map_app, concat_app. cbn [map concat]. rewrite app_nil_r, chunks_concat; [done|done|by apply Forall_take, Forall_drop].
Qed.

(** The packets are cut out of the message again, and each goes to its node. *)
Lemma sent_spec known segment (xs : list (NodeId * Z * bytes)) packets outs :
  (0 < segment)%nat → Forall (λ p, length p = segment) packets → length packets = length xs → outbound_ok known segment xs.*1 outs →
  ∃ out, mapM (λ '(addr, (start_, end_)), bs ← slice (concat packets) start_ end_; Ret (addr, bs)) outs = Ret out ∧
    sent segment out = addressed known xs packets.
Proof.
  intros Hseg Hlen Hxs Hob. destruct (sent_plan known segment xs.*1 packets outs Hseg Hlen Hob) as (out & Hm & Hout); [rewrite length_fmap; lia|].
  exists out. split; [done|]. rewrite Hout. unfold addressed. clear. revert packets.
  induction xs as [|x xs IH]; intros [|p packets]; [done..|]. csimpl. by rewrite IH.
Qed.

Lemma np_empty self_id t redundancy len data_size :
  target_ok self_id t → target_nodes t = [] → Z.to_nat (packets_for t redundancy len data_size) = 0%nat.
Proof.
  intros Hok Hnil. destruct t as [nodes|v|to|g]; cbn in *.
  - unfold packets_for. rewrite nodes_view_len_iter, Hnil. simpl. lia.
  - destruct Hok as (Hne & _). by apply fmap_nil_inv in Hnil.
  - done.
  - by destruct Hok as (_ & ? & _).
Qed.

Lemma app_hash_length app : length (app_message_hash_of app) = 20%nat.
Proof. unfold app_message_hash_of. by rewrite length_take, hasher_length. Qed.

Lemma sources_bound (app : bytes) data_size :
  0 < data_size → div_ceil (Z.of_nat (length app)) data_size <= SOURCE_SYMBOLS_MAX →
  (num_sources app (Z.to_nat data_size) <= Z.to_nat SOURCE_SYMBOLS_MAX)%nat.
Proof.
  intros Hds Hs. rewrite num_sources_ceil by lia. unfold div_ceil in Hs. unfold SOURCE_SYMBOLS_MAX in *.
  apply Nat.max_lub; [lia|]. apply Nat2Z.inj_le. rewrite Nat2Z.inj_div. rewrite Z2Nat.id by lia.
  rewrite Nat2Z.inj_sub by lia. rewrite Nat2Z.inj_add, Z2Nat.id by lia. done.
Qed.

(** From the plan to the packets *)
Lemma packets_spec key h app e C n pl :
  key_ok key → header_ok h → encoder_ok app e C → (0 < symbol_len e)%nat → n = (CHUNK_HEADER_LEN + symbol_len e)%nat →
  Forall (λ id, 0 <= id < MAX_TRIPLES) pl.*2 →
  ∃ xs batches, mapM (fill_chunk e) (map (given n) pl) = Ret (map (chunk_body 0) xs) ∧ xs.*1 = pl ∧
    mapM (finish_batch key h) (chunks chunks_per_merkle_batch (map (chunk_body 0) xs)) = Ret batches ∧
    (∀ x, x ∈ xs → encode_symbol e (Z.to_nat x.1.2) = Ret x.2) ∧ Forall2 (packet_for h (st_pubkey key)) xs (concat batches) ∧
    Forall (λ p, length p = HEADER_LEN + proof_size + n)%nat (concat batches).
Proof.
  intros Hkey Hh He Hpos Hn Hids. destruct (mapM_fill app e C n pl He Hn Hids) as (xs & Hm & Hfst & Hall).
  assert (chunks chunks_per_merkle_batch (map (chunk_body 0) xs) = map (map (chunk_body 0)) (chunks_aux (length xs) chunks_per_merkle_batch xs))
    as Hch by (unfold chunks; by rewrite chunks_aux_map, length_map).
  destruct (chunks_aux_concat (length xs) chunks_per_merkle_batch xs) as [Hcc Hcl]; [change chunks_per_merkle_batch with 32%nat; lia|done|].
  rewrite Forall_forall in Hall. rewrite Forall_forall in Hids.
  destruct (mapM_finish key h (chunks_aux (length xs) chunks_per_merkle_batch xs)) as (batches & Hb & Hf2); [done|done|by eapply Forall_impl; [exact Hcl|]; intros ? []| |].
  { rewrite Hcc. apply Forall_forall. intros x Hx. destruct (Hall x Hx) as [_ Hl].
    assert (x.1.2 ∈ pl.*2) as Hin by (rewrite <-Hfst, <-list_fmap_compose; apply list_elem_of_fmap; by exists x).
    specialize (Hids _ Hin). unfold MAX_TRIPLES in Hids. split; [intros Hz; rewrite Hz in Hl; simpl in Hl; lia|lia]. }
  exists xs, batches. rewrite Hcc in Hf2. rewrite Hch. split_and!; try done.
  - intros x Hx. by apply Hall.
  - apply Forall_forall. intros p Hp. apply list_elem_of_lookup in Hp as [j Hj]. destruct (Forall2_lookup_r _ _ _ _ _ Hf2 Hj) as (x & Hx & Hpx).
    destruct Hpx as (? & ? & _ & _ & _ & _ & _ & _ & ->). destruct (Hall x) as [_ ->]; [by eapply list_elem_of_lookup_2|]. lia.
Qed.

Definition data_size_of (segment_size : Z) : Z := segment_size - Z.of_nat (HEADER_LEN + CHUNK_HEADER_LEN + proof_size).

(** A message that can be sent: there is room for data in a packet, the message is
    not too long for the code, and its packets have ids. *)
Record sendable (key : ST_KeyPair) (segment_size : Z) (app : bytes) (redundancy : Redundancy) (epoch_no unix_ts_ms : Z)
    (t : BuildTarget) known : Prop := {
  sd_key : key_ok key;
  sd_target : target_ok (st_pubkey key) t;
  sd_address : ¬ target_dropped known t;
  sd_segment : 0 < data_size_of segment_size;
  sd_redundancy : 0 < to_bits redundancy < 2 ^ 16;
  sd_epoch : is_u64 epoch_no;
  sd_ts : is_u64 unix_ts_ms;
  sd_app : app ≠ [];
  sd_len : Z.of_nat (length app) < 2 ^ 32;
  sd_sources : div_ceil (Z.of_nat (length app)) (data_size_of segment_size) <= SOURCE_SYMBOLS_MAX;
  sd_packets : packets_for t redundancy (Z.of_nat (length app)) (data_size_of segment_size) <= MAX_TRIPLES;
}.
Definition header_for (t : BuildTarget) (app : bytes) (epoch_no unix_ts_ms : Z) : HeaderFields :=
  mkHeaderFields (is_raptor_broadcast t) epoch_no unix_ts_ms (app_message_hash_of app) (Z.of_nat (length app)).

Lemma build_spec key segment_size app redundancy epoch_no unix_ts_ms t known :
  sendable key segment_size app redundancy epoch_no unix_ts_ms t known →
  let data_size := data_size_of segment_size in
  let np := packets_for t redundancy (Z.of_nat (length app)) data_size in
  let h := header_for t app epoch_no unix_ts_ms in
  ∃ out e C xs packets,
    build_messages f64_from shuffle seed key segment_size app redundancy epoch_no unix_ts_ms t known = Ret out ∧
    encoder_new app (Z.to_nat data_size) = Ret (Some e) ∧ encoder_ok app e C ∧ symbol_len e = Z.to_nat data_size ∧
    chunks_ok t e (Z.to_nat np) xs ∧ Forall2 (packet_for h (st_pubkey key)) xs packets ∧
    Forall (λ p, Z.of_nat (length p) = segment_size) packets ∧
    sent (Z.to_nat segment_size) out = addressed known xs packets.
Proof.
  intros [Hkey Htarget Hdrop Hseg Hred Hep Hts Happ Hlen Hsrc Hnp] data_size np h. fold data_size np in Hseg, Hsrc, Hnp.
  assert (data_size = segment_size - Z.of_nat (HEADER_LEN + CHUNK_HEADER_LEN + proof_size)) as Hdse by done.
  unfold build_messages. rewrite bool_decide_true by lia. cbn [assert mbind exec_bind]. unfold build_messages_with_length.
  assert (0 < Z.of_nat (length app)) as Hpos by (destruct app; [done|simpl; lia]).
  rewrite (bool_decide_false (Z.of_nat (length app) = 0)) by lia.
  rewrite (bool_decide_false (redundancy = Redundancy_ZERO)). 2:{ intros ->. simpl in Hred. lia. }
  rewrite checked_sub_ok by lia. cbn [mbind exec_bind]. rewrite checked_sub_ok by lia. cbn [mbind exec_bind].
  replace (segment_size - Z.of_nat (HEADER_LEN + CHUNK_HEADER_LEN) - Z.of_nat proof_size) with data_size by lia.
  assert (0 < data_size) as Hds by lia. unfold MAX_TRIPLES in Hnp.
  rewrite num_packets_for_spec by (fold np; unfold usize_max, u64_max; lia). fold np.
  rewrite (bool_decide_false (np > MAX_NUM_PACKETS)) by (unfold MAX_NUM_PACKETS; lia). cbn [mbind exec_bind].
  set (n := (Z.to_nat segment_size - (HEADER_LEN + proof_size))%nat).
  assert (n = CHUNK_HEADER_LEN + Z.to_nat data_size)%nat as Hn by (unfold n; lia).
  destruct (assign_chunks_spec f64_from shuffle Hshuffle seed known (st_pubkey key) t (Z.to_nat segment_size) n (Z.to_nat np)) as (o & -> & Ho);
    [rewrite Hn; unfold CHUNK_HEADER_LEN; lia|unfold MAX_NUM_PACKETS; lia|done|by apply (np_empty (st_pubkey key))|]. cbn [mbind exec_bind].
  destruct o as [[cds outs]|]; [|done]. destruct Ho as (pl & -> & Hpl & Hids & Hout & Hnodes).
  unfold chunks_of. rewrite Hpl, Nat.sub_diag. cbn [replicate]. rewrite app_nil_r.
  pose proof (encoder_new_spec app (Z.to_nat data_size) ltac:(lia)) as Henc. rewrite decide_True in Henc by (by apply sources_bound).
  destruct Henc as (e & C & Henc & _ & Hel & Hok). rewrite Henc. cbn [mbind exec_bind].
  pose proof (ids_ok_range _ _ _ Hids Hpl) as Hrange.
  destruct (packets_spec key h app e C n pl) as (xs & batches & -> & Hfst & Hb & Hsym & Hf2 & Hpl2); try done; [|lia|by rewrite Hel| |].
  { constructor; try done; [apply app_hash_length|simpl; lia]. }
  { eapply Forall_impl; [exact Hrange|]. unfold MAX_TRIPLES. lia. }
  cbn [mbind exec_bind]. change (mkHeaderFields _ _ _ _ _) with h. rewrite Hb. cbn [mbind exec_bind].
  assert (length xs = Z.to_nat np) as Hxl by (by rewrite <-Hpl, <-Hfst, length_fmap).
  replace (HEADER_LEN + proof_size + n)%nat with (Z.to_nat segment_size) in Hpl2 by (unfold n; lia).
  rewrite <-Hfst in Hout. apply Forall2_length in Hf2 as Hlens.
  destruct (sent_spec known (Z.to_nat segment_size) xs (concat batches) outs) as (out & Hm & Hsent); [lia|done|done|done|].
  exists out, e, C, xs, (concat batches). split; [exact Hm|]. split; [done|]. split; [done|]. split; [done|]. split.
  { constructor; [done|by rewrite Hfst| |].
    - intros x Hx. apply Hnodes. rewrite <-Hfst, <-list_fmap_compose. apply list_elem_of_fmap. by exists x.
    - intros x Hx. split; [by apply Hsym|]. rewrite Forall_forall in Hrange. apply Hrange.
      rewrite <-Hfst, <-list_fmap_compose. apply list_elem_of_fmap. by exists x. }
  split; [done|]. split; [|done]. eapply Forall_impl; [exact Hpl2|]. cbn. lia.
Qed.
End build.
