(* ===== verification/RaptorcastNop.v ===== *)
(** Concrete instances for evaluating Raptorcast: a cache in the order of use, the
    encoding of the test signatures, a hash, and the conversion of stakes to floats. *)

From S2P Require Import Prelude Types ValidatorSet Crypto MultiSig Merkle F64 RaptorcastGroups Raptorcast RaptorcastRecv RaptorcastBuild.

#[local] Open Scope Z_scope.

(** * A cache: its capacity, and its entries with the most recent first *)

Section lru.
Context {K V : Type} `{Countable K}.

Definition lru_remove (k : K) (l : list (K * V)) : list (K * V) := filter (λ kv, kv.1 ≠ k) l.
Definition lru_view (l : list (K * V)) : gmap K V := list_to_map l.
Definition lru_put (k : K) (v : V) (l : list (K * V)) : list (K * V) := (k, v) :: lru_remove k l.
Definition lru_evict (capacity : option Z) (l : list (K * V)) : list (K * V) :=
  match capacity, last l with
  | Some n, Some (k, _) => if bool_decide (n < Z.of_nat (length l)) then lru_remove k l else l
  | _, _ => l
  end.

#[local] Arguments lru_put : simpl never.
#[local] Arguments lru_view : simpl never.

#[export] Instance lru_list : Lru K V := {|
  cache := option Z * list (K * V);
  cache_new n := (n, []);
  cache_get c k := match lru_view c.2 !! k with
                   | Some v => (Some v, (c.1, lru_put k v c.2))
                   | None => (None, c)
                   end;
  cache_set c k v := (c.1, lru_put k v c.2);
  cache_push c k v := (c.1, lru_evict c.1 (lru_put k v c.2));
  cache_pop c k := (lru_view c.2 !! k, (c.1, lru_remove k c.2));
  cache_pop_lru c := match last c.2 with Some (k, v) => Some (k, v, (c.1, lru_remove k c.2)) | None => None end;
  cache_len c := Z.of_nat (size (lru_view c.2));
|}.

Lemma lru_view_remove k l : lru_view (lru_remove k l) = delete k (lru_view l).
Proof.
  unfold lru_view, lru_remove. induction l as [|[k' v] l IH]; [cbn; by rewrite delete_empty|]. rewrite filter_cons. cbn. case_decide as Hk; cbn.
  - by rewrite IH, delete_insert_ne.
  - subst k'. by rewrite IH, delete_insert_eq.
Qed.

Lemma lru_view_put k v l : lru_view (lru_put k v l) = <[k := v]> (lru_view l).
Proof. unfold lru_put. change (lru_view ((k, v) :: ?r)) with (<[k := v]> (lru_view r)). by rewrite lru_view_remove, insert_delete_eq. Qed.

#[export] Instance lru_list_laws : LruLaws lru_list.
Proof.
  refine {| cache_view c := lru_view c.2 : gmap K V; cache_unbounded c := c.1 = None |}; cbn.
  - done.
  - done.
  - intros c k. destruct (lru_view c.2 !! k) eqn:Hk; [|done]. cbn. split; [done|]. rewrite lru_view_put. by apply insert_id.
  - intros c k Hc. by destruct (lru_view c.2 !! k).
  - intros c k v _. apply lru_view_put.
  - done.
  - intros c k v k' v' Hv.
    assert (lru_view (lru_put k v c.2) !! k' = Some v') as Hp.
    { unfold lru_evict in Hv. destruct c.1 as [n|]; [|done]. destruct (last _) as [[k0 v0]|]; [|done]. case_bool_decide; [|done].
      rewrite lru_view_remove in Hv. by apply lookup_delete_Some in Hv as [_ Hv]. }
    rewrite lru_view_put in Hp. apply lookup_insert_Some in Hp. naive_solver.
  - intros c k v ->. cbn. apply lru_view_put.
  - done.
  - intros c k. split; [done|]. apply lru_view_remove.
  - done.
  - intros [n l]. cbn. destruct (last l) as [[k v]|] eqn:Hl; [|by apply last_None in Hl as ->]. split; [|apply lru_view_remove].
    destruct (lru_view l !! k) eqn:Hk; [done|]. apply not_elem_of_list_to_map in Hk. destruct Hk.
    apply last_Some_elem_of in Hl. apply list_elem_of_fmap. by exists (k, v).
  - intros [n l] k v c' Hn. cbn in *. destruct (last l) as [[]|]; [|done]. by intros [= _ _ <-].
  - done.
Defined.
End lru.

(** * Signatures of 65 bytes *)

Definition nop_serialize (s : NopSignature) : bytes := to_le_bytes 8 (nop_id s) ++ to_le_bytes 57 (nop_pubkey s).
Definition nop_deserialize (b : bytes) : option NopSignature :=
  Some (mkNopSignature (from_le_bytes (drop 8 b)) (from_le_bytes (take 8 b))).

#[export] Instance nop_codec : @SignatureCodec NopProtocol :=
  @Build_SignatureCodec NopProtocol nop_serialize nop_deserialize (to_le_bytes 33).

Lemma poly_hash_range (l : bytes) : 0 <= poly_hash l < 2 ^ 61.
Proof.
  unfold poly_hash. enough (∀ acc, 0 <= acc < 2 ^ 61 → 0 <= foldl (λ h b, (h * 65599 + b + 7) mod 2 ^ 61) acc l < 2 ^ 61) as H by (apply H; lia).
  induction l as [|b l IH]; intros acc Hacc; cbn [foldl]; [done|]. apply IH, Z.mod_pos_bound. lia.
Qed.

Lemma nop_key_ok (key : Z) : 0 <= key < 2 ^ 64 → @key_ok NopProtocol nop_codec key.
Proof.
  intros Hk. constructor; intros msg.
  - change (length (nop_serialize (nop_sign poly_hash SD_RaptorcastChunk msg key)) = 65%nat). unfold nop_serialize. by rewrite length_app, !length_to_le_bytes.
  - change (nop_deserialize (nop_serialize (nop_sign poly_hash SD_RaptorcastChunk msg key)) = Some (nop_sign poly_hash SD_RaptorcastChunk msg key)).
    unfold nop_deserialize, nop_serialize, nop_sign. cbn [nop_id nop_pubkey].
    rewrite take_app_length', drop_app_length' by (by rewrite length_to_le_bytes).
    pose proof (poly_hash_range (PREFIX SD_RaptorcastChunk ++ msg)). rewrite !from_to_le_bytes; [done| |]; simpl Z.of_nat; lia.
  - apply nop_recover_sign.
Qed.

(** * A hash of 32 bytes *)

Definition sum_hasher : Hasher := λ data, to_le_bytes 32 (foldl (λ acc b, Z.land (257 * acc + b + 1) (2 ^ 61 - 1)) 7 data).
#[export] Instance sum_hasher_laws : @HasherLaws sum_hasher.
Proof. intros data. apply length_to_le_bytes. Qed.

(** * Stakes as floats *)

#[export] Instance f64_of_int_laws : F64FromLaws f64_of_int.
Proof.
  assert (∀ a b, 0 <= a <= b → f64_of_int a <= f64_of_int b) as Hmono.
  { intros a b Hab. unfold f64_of_int. pose proof f64_one_pos. apply f64_round_mono; nia. }
  constructor; [by rewrite f64_of_int_exact| |done].
  intros a Ha. pose proof (Hmono 1 a ltac:(lia)) as H1. rewrite (f64_of_int_exact 1) in H1 by lia. pose proof f64_one_pos. lia.
Qed.
