(* ===== verification/RaptorcastProps.v ===== *)
(** What sending and receiving with Raptorcast guarantee: packets that are built
    are accepted, nothing is delivered that its author did not sign, and a message
    is delivered when the symbols that arrived determine it. *)

From S2P Require Import Prelude Types ValidatorSet Crypto Merkle F64 RaptorTables RaptorCode RaptorCodeProps RaptorEncoderProps.
From S2P Require Import RaptorStructs RaptorDecoder RaptorDecoderRun RaptorRuns RaptorProps RaptorcastGroups Raptorcast RaptorcastRecv RaptorcastBuild MultiSig RaptorcastNop.

#[local] Open Scope Z_scope.

Section props.
Context `{P : Protocol} `{SC : !SignatureCodec} `{H : Hasher} `{HL : !HasherLaws}.
Context `{LS : !Lru bytes NodeId} `{LP : !Lru MessageCacheKey DecoderState} `{LD : !Lru MessageCacheKey RecentlyDecodedState}.
Context `{!LruLaws LS} `{!LruLaws LP} `{!LruLaws LD}.

(** * What is delivered *)

(** [message] of [author] was delivered for a chunk of this payload that [author]
    signed together with the hash and the length of the message. *)
Definition delivery_ok (gm : ReBroadcastGroupMap) (s : UdpState) (msg : RecvUdpMsg) (author : NodeId) (message : bytes) : Prop :=
  ∃ start m, authentic (packet_at msg start) m ∧ chunk_admissible s gm m = true ∧ vm_author m = author ∧
    Z.of_nat (length message) = vm_app_message_len m ∧ take 20 (hasher message) = vm_app_message_hash m.

Lemma chunk_step_delivery m G G' o author message :
  message_ok m → chunk_step m G G' o → o = Some (author, message) →
  vm_author m = author ∧ Z.of_nat (length message) = vm_app_message_len m ∧ take 20 (hasher message) = vm_app_message_hash m.
Proof.
  intros [Hlen Hne] Hstep Ho. destruct Hstep as [| | |n rx p out HG Hsym Hp (Hout & _ & _) msg]; [done..|].
  case_bool_decide as Hh; [|done]. injection Ho as <- <-. split; [done|]. split; [|done]. unfold msg. rewrite length_take, Hout.
  destruct Hsym as (Hn & _ & _). assert (0 < n)%nat as Hpos by (rewrite Hn; destruct (vm_chunk m); [done|simpl; lia]).
  pose proof (source_symbols_cover (vm_app_message_len m) n ltac:(lia) Hpos). lia.
Qed.

Lemma delivered_signed gm msg clock s G starts s' G' msgs :
  Forall is_byte (payload msg) → packets_run gm msg clock s G starts s' G' msgs →
  ∀ author message, (author, message) ∈ msgs → delivery_ok gm s msg author message.
Proof.
  intros Hb Hrun. induction Hrun as [|s G start starts s1 G1 o s' G' rest Hs Hstep Hcfg _ Hrun IH]; intros author message Hin;
    [by apply elem_of_nil in Hin|].
  apply elem_of_app in Hin as [Hin|Hin].
  - destruct o as [[a x]|]; [|by apply elem_of_nil in Hin]. apply list_elem_of_singleton in Hin. injection Hin as -> ->.
    destruct Hstep as [(_ & ? & _)|(m & Hauth & Hadm & _ & Hstep)]; [done|]. exists start, m. split; [done|]. split; [done|].
    eapply chunk_step_delivery; [|done|done]. eapply authentic_ok; [|done]. by apply Forall_take, Forall_drop.
  - destruct (IH _ _ Hin) as (st & m & Hauth & Hadm & Hrest). exists st, m. split; [done|]. split; [|done].
    by rewrite <-(admissible_config gm s s1).
Qed.

(** * Runs of a receiver *)

(** A datagram with the groups and the clock at the time it is handled. *)
Record Input := mkInput { in_groups : ReBroadcastGroupMap; in_clock : nat → option Z; in_msg : RecvUdpMsg }.

Fixpoint udp_run (s : UdpState) (inputs : list Input) : exec (UdpState * list (list (list NodeId * bytes * Z) * list (NodeId * bytes))) :=
  match inputs with
  | [] => Ret (s, [])
  | i :: inputs =>
      '(s, rebroadcasts, messages) ← handle_message s (in_groups i) (in_clock i) (in_msg i);
      '(s, rest) ← udp_run s inputs;
      Ret (s, (rebroadcasts, messages) :: rest)
  end.

Definition input_ok (i : Input) : Prop := 0 < stride (in_msg i) ∧ Forall is_byte (payload (in_msg i)).

Lemma udp_run_spec s G inputs :
  udp_ok s G → Forall input_ok inputs →
  ∃ s' G' outs, udp_run s inputs = Ret (s', outs) ∧ udp_ok s' G' ∧ same_config s s' ∧
    (cache_len (pending_message_cache s) <= PENDING_MESSAGE_CACHE_SIZE → cache_len (pending_message_cache s') <= PENDING_MESSAGE_CACHE_SIZE) ∧
    Forall2 (λ i out, Forall (rebroadcast_ok (in_groups i) (self_id s) (in_msg i)) out.1 ∧
               ∀ author message, (author, message) ∈ out.2 → delivery_ok (in_groups i) s (in_msg i) author message) inputs outs.
Proof.
  intros Hs Hin. revert s G Hs. induction Hin as [|i inputs [Hst Hb] Hin IH]; intros s G Hs; cbn [udp_run].
  { exists s, G, []. split; [done|]. split; [done|]. split; [done|]. split; [done|constructor]. }
  destruct (handle_message_spec (in_groups i) (self_id s) (in_msg i) s G (in_clock i) Hs eq_refl Hst Hb) as
    (starts & s1 & b1 & G1 & s2 & G2 & rb & msgs & _ & _ & -> & Hrun & _ & Hs2 & Hcfg & _ & _ & Hlen & _ & Hrb). cbn [mbind exec_bind].
  destruct (IH s2 G2 Hs2) as (s' & G' & outs & -> & Hs' & Hcfg' & Hlen' & Hall). cbn [mbind exec_bind].
  exists s', G', ((rb, msgs) :: outs). split; [done|]. split; [done|]. split; [destruct Hcfg, Hcfg'; split; etrans; done|].
  split; [by intros _; apply Hlen'|]. constructor.
  - split; [done|]. cbn. intros author message Hm. by eapply delivered_signed.
  - eapply Forall2_impl; [exact Hall|]. intros j out [Hrb' Hdel]. destruct Hcfg as [Hself Hage]. rewrite Hself in Hrb'. split; [done|].
    intros author message Hm. destruct (Hdel _ _ Hm) as (st & m & Ha & Hadm & Hrest). exists st, m. split; [done|]. split; [|done].
    by rewrite <-(admissible_config (in_groups j) s s2).
Qed.

(** * Delivery *)

Lemma packet_for_authentic h author x packet : packet_for h author x packet → authentic packet (message_for h author packet x).
Proof. intros (p & root & Hl & Hp & Hr & Hs & _ & Hm & _). exists p, root. by rewrite <-Hm. Qed.

(** A packet is the chunk of one author. *)
Lemma authentic_unique packet m m' : authentic packet m → authentic packet m' → m = m'.
Proof.
  intros (p & root & Hl & Hp & Hr & (sg & Hsg & Hrec) & Hm) (p' & root' & Hl' & Hp' & Hr' & (sg' & Hsg' & Hrec') & Hm').
  pose proof (parse_layout p sg root None 0 Hp ltac:(by rewrite take_signature in Hsg) Hr eq_refl) as H1.
  pose proof (parse_layout p' sg' root' None 0 Hp' ltac:(by rewrite take_signature in Hsg') Hr' eq_refl) as H2.
  rewrite <-Hl in H1. rewrite <-Hl', H1 in H2. injection H2 as Hpk Hs Hh. rewrite <-Hh, <-Hs, Hrec in Hrec'. injection Hrec' as Ha.
  rewrite Hm, Hm', <-Ha. by rewrite Hpk.
Qed.

Lemma source_symbols_num (app : bytes) n : (0 < n)%nat → source_symbols (Z.of_nat (length app)) n = num_sources app n.
Proof.
  intros Hn. rewrite num_sources_ceil by done. unfold source_symbols, div_ceil. rewrite Z2Nat.inj_max.
  rewrite Nat.max_comm. f_equal. rewrite Z2Nat.inj_div by lia. rewrite Nat2Z.id. f_equal. lia.
Qed.

Section honest.
Context (app : bytes) (e : Encoder) (C : nat → symbol) (He : encoder_ok app e C).
Context (h : HeaderFields) (author : NodeId) (xs : list (NodeId * Z * bytes)) (packets : list bytes).
Context (Hhash : h_app_message_hash h = app_message_hash_of app) (Hlen : h_app_message_len h = Z.of_nat (length app)).
Context (Hpackets : Forall2 (packet_for h author) xs packets).
Context (Hsymbols : ∀ x, x ∈ xs → encode_symbol e (Z.to_nat x.1.2) = Ret x.2 ∧ (Z.to_nat x.1.2 < 7 * num_sources app (symbol_len e))%nat).
Context (Hsrc : Z.of_nat (num_sources app (symbol_len e)) <= SOURCE_SYMBOLS_MAX) (Hds : (0 < symbol_len e)%nat).

Definition the_key : MessageCacheKey := mkMessageCacheKey (h_unix_ts_ms h) author (h_app_message_hash h) (h_app_message_len h).

(** Symbols of the encoder *)
Definition honest_symbols (rx : list (nat * bytes)) : Prop :=
  ∀ id data, (id, data) ∈ rx → (id < 7 * num_sources app (symbol_len e))%nat ∧ encode_symbol e id = Ret data.

Lemma honest_explains rx : honest_symbols rx → explains_received (symbol_len e) (params e) rx C.
Proof.
  intros Hrx. split; [intros E r; apply He|]. intros id data Hin. destruct (Hrx id data Hin) as [Hid Hdata].
  destruct (encode_symbol_spec app e C id He) as (l & Hl & Heq); [unfold MAX_TRIPLES, SOURCE_SYMBOLS_MAX in *; lia|].
  exists l. split; [done|]. rewrite Hdata in Heq. by injection Heq as ->.
Qed.

(** What the symbols decode to *)
Lemma honest_decodes rx out :
  honest_symbols rx → decodes (symbol_len e) (num_sources app (symbol_len e)) (params e) rx out → take (length app) out = app.
Proof.
  intros Hrx (_ & _ & Hdec). rewrite (Hdec C (enc_length _ _ _ He) (honest_explains rx Hrx)).
  rewrite <-(enc_source_symbols _ _ _ He), (enc_source _ _ _ He). by rewrite take_app_length.
Qed.

(** The decoder of a message that is pending *)
Lemma honest_pending s G rx :
  udp_ok s G → G !! the_key = Some (symbol_len e, rx) → honest_symbols rx →
  ∃ ds, cache_view (pending_message_cache s) !! the_key = Some ds ∧
    managed_ok (symbol_len e) (num_source_symbols (params e)) (params e) rx (ds_decoder ds) ∧
    (rx ≠ [] → ¬ (enough_symbols (ds_decoder ds) ∧ determines (symbol_len e) (params e) rx)).
Proof.
  intros Hs HG Hrx. pose proof (uo_pending _ _ Hs the_key) as Hp. unfold pending_ok in Hp. rewrite HG in Hp.
  destruct (cache_view (pending_message_cache s) !! the_key) as [ds|]; [|done]. destruct Hp as (p & [Hpar Hman _ _ _ _ _ Htried]).
  change (key_app_message_len the_key) with (h_app_message_len h) in Hpar, Hman. rewrite Hlen, source_symbols_num in Hpar, Hman by done.
  pose proof (enc_source_symbols _ _ _ He) as Hsym.
  assert (p = params e) as -> by (rewrite <-Hsym, (enc_code _ _ _ He) in Hpar; congruence).
  exists ds. rewrite Hsym. split; [done|]. split; [done|]. intros Hne [Hen Hdet].
  apply (Htried C Hne Hen); [apply He|by apply honest_explains|done].
Qed.

Context (gm : ReBroadcastGroupMap) (msg : RecvUdpMsg) (clock : nat → option Z) (s0 : UdpState).
Context (Hclock : ∀ start, ensure_valid_timestamp (clock start) (h_unix_ts_ms h) (max_age_ms s0) = Ok tt).

(** The packet at [start] is a chunk of the message, and is let in. *)
Definition wanted (start : nat) (m : ValidatedMessage) : Prop :=
  authentic (packet_at msg start) m ∧ message_key m = the_key ∧ chunk_admissible s0 gm m = true.

(** The author signed no other chunk for this message. *)
Definition honest_at (start : nat) : Prop := ∀ m, authentic (packet_at msg start) m → message_key m = the_key → packet_at msg start ∈ packets.

Lemma honest_chunk start m :
  honest_at start → authentic (packet_at msg start) m → message_key m = the_key →
  ∃ x, x ∈ xs ∧ packet_for h author x (packet_at msg start) ∧ m = message_for h author (packet_at msg start) x.
Proof.
  intros Hh Hauth Hk. apply (Hh m Hauth), list_elem_of_lookup in Hk as [j Hj].
  destruct (Forall2_lookup_r _ _ _ _ _ Hpackets Hj) as (x & Hx & Hp). exists x. split; [by eapply list_elem_of_lookup_2|]. split; [done|].
  eapply authentic_unique; [done|]. by apply packet_for_authentic.
Qed.

(** The symbols that were collected of the packets at [starts] *)
Definition collected (s : UdpState) (G : pending_symbols) (starts : list nat) : Prop :=
  cache_view (recently_decoded_cache s) !! the_key = None ∧
  match G !! the_key with
  | Some (n, rx) => n = symbol_len e ∧ honest_symbols rx ∧
      ∀ start m, start ∈ starts → wanted start m → Z.to_nat (vm_chunk_id m) ∈ rx.*1
  | None => ∀ start m, start ∈ starts → ¬ wanted start m
  end.

Definition old_symbols (G : pending_symbols) : nat * list (nat * bytes) := default (symbol_len e, []) (G !! the_key).

Lemma honest_chunk_step packet x G G' o :
  x ∈ xs → packet_for h author x packet → chunk_step (message_for h author packet x) G G' o →
  (old_symbols G).1 = symbol_len e → honest_symbols (old_symbols G).2 →
  o = Some (author, app) ∨
  o = None ∧ ∃ rx, G' !! the_key = Some (symbol_len e, rx) ∧ honest_symbols rx ∧ Z.to_nat x.1.2 ∈ rx.*1 ∧
    ∀ id, id ∈ (old_symbols G).2.*1 → id ∈ rx.*1.
Proof.
  intros Hx Hp Hstep Hn Hrx. destruct (Hsymbols x Hx) as [Hsym Hid].
  assert (length x.2 = symbol_len e) as Hxl.
  { destruct (encode_symbol_spec app e C (Z.to_nat x.1.2) He) as (l & _ & Heq); [unfold MAX_TRIPLES, SOURCE_SYMBOLS_MAX in *; lia|].
    rewrite Hsym in Heq. injection Heq as ->. apply xsum_length, He. }
  assert (source_symbols (h_app_message_len h) (symbol_len e) = num_sources app (symbol_len e)) as Hk by (rewrite Hlen; by apply source_symbols_num).
  assert (∀ n rx, default (length x.2, []) (G !! the_key) = (n, rx) → n = symbol_len e ∧ rx = (old_symbols G).2) as Hold.
  { intros n rx. unfold old_symbols in *. rewrite Hxl. by destruct (G !! the_key) as [[]|]; intros [= <- <-]. }
  assert (honest_symbols ((old_symbols G).2 ++ [(Z.to_nat x.1.2, x.2)])) as Hrx'.
  { intros id data [Hin|Hin%list_elem_of_singleton]%elem_of_app; [by apply Hrx|]. by injection Hin as -> ->. }
  change (message_key (message_for h author packet x)) with the_key in Hstep.
  destruct Hstep as [HG Hbig|n rx HG Hinv|n rx HG Hok|n rx p out HG Hok Hpar Hdec mes];
    change (message_key (message_for h author packet x)) with the_key in *;
    cbn [message_for vm_chunk vm_chunk_id vm_app_message_len vm_app_message_hash vm_author] in *.
  - rewrite Hxl, Hk in Hbig. unfold SOURCE_SYMBOLS_MAX in *. lia.
  - destruct (Hold n rx HG) as [-> ->]. right. split; [done|]. eexists. rewrite lookup_insert_eq. split; [done|]. split; [done|].
    split; [|done]. destruct (decide (Z.to_nat x.1.2 ∈ (old_symbols G).2.*1)) as [|Hno]; [done|]. destruct Hinv.
    unfold symbol_ok, symbol_capacity. cbn. rewrite Hk. by split_and!.
  - destruct (Hold n rx HG) as [-> ->]. right. split; [done|]. eexists. rewrite lookup_insert_eq. split; [done|]. split; [done|].
    rewrite fmap_app. split; [apply elem_of_app; right; left|]. intros id Hin. apply elem_of_app. by left.
  - destruct (Hold n rx HG) as [-> ->]. left. rewrite Hk in Hdec, Hpar.
    assert (p = params e) as -> by (rewrite <-(enc_source_symbols _ _ _ He), (enc_code _ _ _ He) in Hpar; congruence).
    assert (mes = app) as -> by (unfold mes; rewrite Hlen, Nat2Z.id; by eapply honest_decodes).
    by rewrite bool_decide_true.
Qed.

Lemma recent_none s s1 start o :
  cache_view (recently_decoded_cache s) !! the_key = None → recent_step msg start s s1 o →
  (∀ m, authentic (packet_at msg start) m → message_key m = the_key → o = None) →
  cache_view (recently_decoded_cache s1) !! the_key = None.
Proof.
  intros Hnone Hrec Hm. destruct (cache_view (recently_decoded_cache s1) !! the_key) eqn:Hr; [|done].
  destruct (Hrec the_key) as [Hx|(m & Ha & Hk & Ho)]; [by rewrite Hr| |].
  - rewrite Hnone in Hx. by destruct Hx.
  - rewrite (Hm m Ha (eq_sym Hk)) in Ho. by destruct Ho.
Qed.

Lemma collected_keep s s1 G G1 start starts :
  collected s G starts → cache_view (recently_decoded_cache s1) !! the_key = None → G1 !! the_key = G !! the_key →
  (∀ m, ¬ wanted start m) → collected s1 G1 (start :: starts).
Proof.
  intros [_ Hcol] Hnone HG Hnw. split; [done|]. rewrite HG. destruct (G !! the_key) as [[n rx]|].
  - destruct Hcol as (-> & Hrx & Hall). split; [done|]. split; [done|]. intros st m [->|Hin]%elem_of_cons Hw; [by destruct (Hnw m)|eauto].
  - intros st m [->|Hin]%elem_of_cons; [apply Hnw|eauto].
Qed.

(** A chunk of the message parses. *)
Lemma honest_parses s G start m :
  udp_ok s G → same_config s0 s → honest_at start → wanted start m →
  ∃ c, parse_message (signature_cache s) (packet_at msg start) (clock start) (max_age_ms s) = Ret (Ok m, c).
Proof.
  intros Hs [_ ->] Hhon (Hauth & Hk & _).
  destruct (honest_chunk start m Hhon Hauth Hk) as (x & _ & (p & root & Hl & Hp & Hr & Hsig & Hts & Hm & _) & ->). rewrite <-Hm, Hl.
  destruct (parse_message_accepts (signature_cache s) p root author (clock start) (max_age_ms s0)) as (c & Hc & _); try done;
    [apply Hs|by rewrite Hts|by exists c].
Qed.

(** One packet: it delivers the message or its symbol is collected. *)
Lemma honest_packet_step s G start s1 G1 o starts :
  udp_ok s G → same_config s0 s → honest_at start → packet_step gm msg (clock start) start s G G1 o → recent_step msg start s s1 o →
  collected s G starts → o = Some (author, app) ∨ collected s1 G1 (start :: starts).
Proof.
  intros Hs Hcfg Hhon Hstep Hrec Hcol. pose proof Hcol as [Hnone Hsyms].
  destruct Hstep as [(-> & -> & Hno)|(m & Hauth & Hadm & Hm & Hstep)].
  { right. apply (collected_keep s s1 G); try done; [by eapply recent_none|]. intros m Hw.
    destruct (honest_parses s G start m Hs Hcfg Hhon Hw) as [c Hc]. destruct Hw as (_ & Hk & Hadm).
    specialize (Hno c m Hc). rewrite (admissible_config gm s0 s m Hcfg) in Hno. specialize (Hno Hadm). rewrite Hk, Hnone in Hno. by destruct Hno. }
  assert (∀ m', authentic (packet_at msg start) m' → m' = m) as Huniq by (intros m' Ha; by eapply authentic_unique).
  destruct (decide (message_key m = the_key)) as [Hk|Hk].
  2:{ right. apply (collected_keep s s1 G); [done| | |].
      - eapply recent_none; [done..|]. intros m' Ha Hk'. by rewrite (Huniq m' Ha) in Hk'.
      - destruct Hstep; [done|by rewrite lookup_insert_ne|by rewrite lookup_insert_ne|by rewrite lookup_delete_ne].
      - intros m' (Ha & Hk' & _). by rewrite (Huniq m' Ha) in Hk'. }
  destruct (honest_chunk start m Hhon Hauth Hk) as (x & Hx & Hpf & Heq). rewrite Heq in Hstep.
  assert ((old_symbols G).1 = symbol_len e ∧ honest_symbols (old_symbols G).2 ∧
    ∀ st m, st ∈ starts → wanted st m → Z.to_nat (vm_chunk_id m) ∈ (old_symbols G).2.*1) as (Hn & Hrx & Hall).
  { unfold old_symbols. destruct (G !! the_key) as [[n rx]|]; cbn; [done|]. split; [done|]. split; [by intros ?? ?%elem_of_nil|].
    intros st m' Hin Hw. by destruct (Hsyms st m' Hin). }
  destruct (honest_chunk_step (packet_at msg start) x G G1 o Hx Hpf Hstep Hn Hrx) as [Ho|(-> & rx & HG1 & Hrx1 & Hid & Hold)]; [by left|right].
  split; [by eapply recent_none|]. rewrite HG1. split; [done|]. split; [done|].
  intros st m' [->|Hin]%elem_of_cons Hw; [|eauto]. rewrite (Huniq m' (proj1 Hw)), Heq. done.
Qed.

Lemma honest_run s G starts s' G' msgs done :
  packets_run gm msg clock s G starts s' G' msgs → same_config s0 s → (∀ start, start ∈ starts → honest_at start) →
  collected s G done → (author, app) ∈ msgs ∨ collected s' G' (reverse starts ++ done).
Proof.
  intros Hrun. revert done. induction Hrun as [|s G start starts s1 G1 o s' G' rest Hs Hstep Hcfg1 Hrec Hrun IH]; intros done Hcfg Hhon Hcol; [by right|].
  destruct (honest_packet_step s G start s1 G1 o done) as [->|Hcol1]; try done; [apply Hhon; left|left; apply elem_of_app; left; left|].
  destruct (IH (start :: done)) as [Hin|Hc]; [destruct Hcfg, Hcfg1; split; etrans; done|intros st Hst; apply Hhon; by right|done| |].
  - left. apply elem_of_app. by right.
  - right. by rewrite reverse_cons, <-app_assoc.
Qed.
End honest.
End props.

(** With a redundancy of at most seven the ids stay below the capacity of the
    decoders. *)
Lemma ids_in_capacity t redundancy (app : bytes) data_size :
  is_broadcast_target t = false → 0 < data_size → 0 < to_bits redundancy <= 7 * 2048 →
  packets_for t redundancy (Z.of_nat (length app)) data_size <= 7 * Z.of_nat (num_sources app (Z.to_nat data_size)).
Proof.
  intros Ht Hds Hred. rewrite <-source_symbols_num by lia. unfold packets_for, source_symbols. rewrite Z2Nat.id by lia.
  set (k := Z.max (div_ceil _ _) 1). rewrite Z2Nat.id by lia.
  replace (match t with BT_Broadcast nodes => Z.of_nat (nodes_view_len nodes) | _ => 1 end) with 1 by (by destruct t).
  rewrite Z.mul_1_r. unfold div_ceil at 1. apply Z.lt_succ_r, Z.div_lt_upper_bound; nia.
Qed.

(** * Properties *)

Section claims.
Context `{P : Protocol} `{SC : !SignatureCodec} `{H : Hasher} `{HL : !HasherLaws}.
Context `{LS : !Lru bytes NodeId} `{LP : !Lru MessageCacheKey DecoderState} `{LD : !Lru MessageCacheKey RecentlyDecodedState}.
Context `{LLS : !LruLaws LS} `{LLP : !LruLaws LP} `{LLD : !LruLaws LD}.
Context {SocketAddr : Type} (f64_from : Z → f64) `{FL : !F64FromLaws f64_from}.
Context (shuffle : list (NodeId * Stake) → list (NodeId * Stake)) (Hshuffle : ∀ l, shuffle l ≡ₚ l) (seed : Z).

(** C12. What is sent is accepted. A message that can be sent is cut into symbols,
    numbered, given to nodes, proved and signed without panic: there is one packet
    for each of the chunks, as many as the redundancy asks for. What is sent is
    exactly the packets of nodes with an address, in their order, each once and to
    its node; and every packet parses, whatever is in the signature cache, to the
    symbol, the id, the recipient and the header it was built from, under the name
    of the sender. *)
Theorem raptorcast_build_parse (key : ST_KeyPair) (segment_size : Z) (app : bytes) (redundancy : Redundancy) (epoch_no unix_ts_ms : Z)
    (t : BuildTarget) (known : gmap NodeId SocketAddr)
    (Hsend : sendable key segment_size app redundancy epoch_no unix_ts_ms t known) :
  let np := Z.to_nat (packets_for t redundancy (Z.of_nat (length app)) (data_size_of segment_size)) in
  ∃ out e xs (packets : list bytes),
    build_messages f64_from shuffle seed key segment_size app redundancy epoch_no unix_ts_ms t known = Ret out ∧
    encoder_new app (Z.to_nat (data_size_of segment_size)) = Ret (Some e) ∧ chunks_ok t e np xs ∧
    length packets = length xs ∧ sent (Z.to_nat segment_size) out = addressed known xs packets ∧
    ∀ j x packet, xs !! j = Some x → packets !! j = Some packet →
      ∀ c elapsed age, signatures_ok c → ensure_valid_timestamp elapsed unix_ts_ms age = Ok tt →
        ∃ c', parse_message c packet elapsed age =
                Ret (Ok (message_for (header_for t app epoch_no unix_ts_ms) (st_pubkey key) packet x), c') ∧ signatures_ok c'.
Proof.
  intros np. destruct (build_spec f64_from shuffle Hshuffle seed key segment_size app redundancy epoch_no unix_ts_ms t known Hsend)
    as (out & e & C & xs & packets & Hb & He & _ & _ & Hck & Hf2 & _ & Hsent).
  exists out, e, xs, packets. split; [done|]. split; [done|]. split; [done|]. split; [by rewrite (Forall2_length _ _ _ Hf2)|]. split; [done|].
  intros j x packet Hx Hp c elapsed age Hc Hts.
  destruct (Forall2_lookup_lr _ _ _ _ _ _ Hf2 Hx Hp) as (p & root & -> & Hps & Hr & Hsig & Hpts & Hm & _). rewrite <-Hm.
  apply (parse_message_accepts c p root); try done. by rewrite Hpts.
Qed.

(** C11. A receiver is safe against everything that arrives. Over every sequence of
    datagrams, whatever their bytes and positive strides, whatever groups and clock:
    it never panics and its loops end; the decoders it keeps stay bounded; what it
    delivers has the hash and the length that the author signed, in a chunk whose
    proof leads to the signed root, and is let in by the groups; and what it passes
    on are runs of whole packets of the datagram, unchanged and one after the other,
    each of them a chunk for this node that the same member of a group signed, to
    the peers that the group has for the first of them. *)
Theorem raptorcast_receive_safe (self : NodeId) (age : Z) (inputs : list Input) (Hin : Forall input_ok inputs) :
  ∃ s outs, udp_run (udp_state_new self age) inputs = Ret (s, outs) ∧
    cache_len (pending_message_cache s) <= PENDING_MESSAGE_CACHE_SIZE ∧
    Forall2 (λ i out, Forall (rebroadcast_ok (in_groups i) self (in_msg i)) out.1 ∧
               ∀ author message, (author, message) ∈ out.2 →
                 delivery_ok (in_groups i) (udp_state_new self age) (in_msg i) author message) inputs outs.
Proof.
  destruct (udp_run_spec _ _ inputs (udp_state_new_ok self age) Hin) as (s & G & outs & Hrun & Hs & _ & Hlen & Hall).
  exists s, outs. split; [done|]. split; [|done]. apply Hlen. cbn. rewrite cview_len, cview_new, map_size_empty.
  unfold PENDING_MESSAGE_CACHE_SIZE. lia.
Qed.

(** C13. A message gets through. When a datagram carries packets of a message that
    was built for validators, full nodes or one node with a redundancy of at most
    seven, and no other chunk that the author signed under the same key, to a
    receiver that knows nothing of it yet, the message is delivered, whole and
    under the name of its author, while the datagram is handled; unless no packet
    of it was let in, or the decoder holds every symbol that was let in and these
    are fewer than it waits for or do not determine the message. *)
Theorem raptorcast_delivers (key : ST_KeyPair) (segment_size : Z) (app : bytes) (redundancy : Redundancy) (epoch_no unix_ts_ms : Z)
    (t : BuildTarget) (known : gmap NodeId SocketAddr) out (s : UdpState) G (i : Input)
    (Hsend : sendable key segment_size app redundancy epoch_no unix_ts_ms t known)
    (Ht : is_broadcast_target t = false) (Hred : to_bits redundancy <= 7 * 2048)
    (Hout : build_messages f64_from shuffle seed key segment_size app redundancy epoch_no unix_ts_ms t known = Ret out)
    (Hs : udp_ok s G) (Hi : input_ok i) :
  let h := header_for t app epoch_no unix_ts_ms in
  let k := the_key h (st_pubkey key) in
  G !! k = None → cache_view (recently_decoded_cache s) !! k = None →
  (∀ start, ensure_valid_timestamp (in_clock i start) unix_ts_ms (max_age_ms s) = Ok tt) →
  (∀ starts start m, packet_starts (in_msg i) = Ret starts → start ∈ starts → authentic (packet_at (in_msg i) start) m →
     message_key m = k → packet_at (in_msg i) start ∈ (sent (Z.to_nat segment_size) out).*2) →
  ∃ starts s1 b s' rebroadcasts messages, packet_starts (in_msg i) = Ret starts ∧
    handle_packets (in_groups i) (in_clock i) (in_msg i) starts s (batcher_new (payload (in_msg i)) (stride (in_msg i))) = Ret (s1, b, messages) ∧
    handle_message s (in_groups i) (in_clock i) (in_msg i) = Ret (s', rebroadcasts, messages) ∧
    ((st_pubkey key, app) ∈ messages ∨
     (∀ start m, start ∈ starts → ¬ wanted h (st_pubkey key) (in_groups i) (in_msg i) s start m) ∨
     ∃ e ds rx, encoder_new app (Z.to_nat (data_size_of segment_size)) = Ret (Some e) ∧
       cache_view (pending_message_cache s1) !! k = Some ds ∧
       managed_ok (symbol_len e) (num_source_symbols (params e)) (params e) rx (ds_decoder ds) ∧ honest_symbols app e rx ∧
       (∀ start m, start ∈ starts → wanted h (st_pubkey key) (in_groups i) (in_msg i) s start m → Z.to_nat (vm_chunk_id m) ∈ rx.*1) ∧
       ¬ (enough_symbols (ds_decoder ds) ∧ determines (symbol_len e) (params e) rx)).
Proof.
  intros h k HG Hrec Hclock Hhon. destruct Hi as [Hst Hb].
  destruct (build_spec f64_from shuffle Hshuffle seed key segment_size app redundancy epoch_no unix_ts_ms t known Hsend)
    as (out' & e & C & xs & packets & Hb' & He & Hok & Hel & Hck & Hf2 & _ & Hsent). rewrite Hout in Hb'. injection Hb' as <-.
  destruct Hsend as [_ _ _ Hseg [Hr0 _] _ _ _ _ Hsrc _].
  pose proof (ids_in_capacity t redundancy app (data_size_of segment_size) Ht Hseg (conj Hr0 Hred)) as Hcap.
  assert (Z.of_nat (num_sources app (symbol_len e)) <= SOURCE_SYMBOLS_MAX) as Hsrc'.
  { rewrite <-source_symbols_num by lia. unfold source_symbols. rewrite Hel, (Z2Nat.id (data_size_of _)), Z2Nat.id by lia.
    unfold SOURCE_SYMBOLS_MAX in *. lia. }
  destruct (handle_message_spec (in_groups i) (self_id s) (in_msg i) s G (in_clock i) Hs eq_refl Hst Hb) as
    (starts & s1 & b1 & G1 & s2 & G2 & rb & msgs & Hps & Hhp & Hh & Hrun & Hs1 & _).
  exists starts, s1, b1, s2, rb, msgs. split; [done|]. split; [done|]. split; [done|].
  destruct (honest_run app e C Hok h (st_pubkey key) xs packets eq_refl eq_refl Hf2) with
    (gm := in_groups i) (msg := in_msg i) (clock := in_clock i) (s0 := s) (s := s) (G := G) (starts := starts) (s' := s1) (G' := G1)
    (msgs := msgs) (done := @nil nat) as [Hin|[_ Hcol]]; try done; [..|by left|right].
  - intros x Hx. destruct (ck_symbols _ _ _ _ Hck x Hx) as [? ?]. split; [done|]. rewrite Hel. lia.
  - lia.
  - intros start Hin m Ha Hk. apply (Hhon starts start m Hps) in Hk; [|done..]. apply list_elem_of_fmap in Hk as ([addr p] & -> & Hk).
    rewrite Hsent in Hk. apply elem_of_addressed in Hk as (j & x & _ & Hp & _). by eapply list_elem_of_lookup_2.
  - split; [done|]. fold k. rewrite HG. by intros ?? ?%elem_of_nil.
  - fold k in Hcol. destruct (G1 !! k) as [[n rx]|] eqn:HG1.
    2:{ left. intros start m Hin. apply Hcol, elem_of_app. left. by apply elem_of_reverse. }
    destruct Hcol as (-> & Hrx & Hall). destruct (honest_pending app e C Hok h (st_pubkey key) eq_refl Hsrc' ltac:(lia) s1 G1 rx Hs1 HG1 Hrx)
      as (ds & Hds & Hman & Htried).
    assert (∀ start m, start ∈ starts → wanted h (st_pubkey key) (in_groups i) (in_msg i) s start m → Z.to_nat (vm_chunk_id m) ∈ rx.*1) as Hall'.
    { intros start m Hin. apply Hall, elem_of_app. left. by apply elem_of_reverse. }
    destruct (decide (rx = [])) as [->|Hne]; [left; intros start m Hin Hw; by apply Hall', elem_of_nil in Hw|right].
    exists e, ds, rx. split_and!; eauto.
Qed.
End claims.

(** * A concrete run: validator 1 sends to the full nodes 2 and 3 *)

Section nop.
#[local] Existing Instances NopProtocol nop_codec sum_hasher.

Definition nop_app : bytes := [1; 2; 3; 4; 5].
Definition nop_target : BuildTarget := BT_FullNodeRaptorCast (mkGroup (Some 1) (mkRoundSpan 0 10) [2; 3]).
Definition nop_known : gmap NodeId Z := {[2 := 12; 3 := 13]}.
#[local] Notation nop_build :=
  (build_messages f64_of_int id 0 (1 : @ST_KeyPair NopProtocol) 242 nop_app (mkRedundancy 4096) 7 1000 nop_target nop_known).

Definition nop_packet : bytes :=
  [74; 112; 33; 157; 186; 112; 93; 17; 1; 0; 0; 0; 0; 0; 0; 0; 0; 0; 0; 0; 0; 0; 0; 0; 0; 0; 0; 0; 0; 0; 0; 0; 0;
   0; 0; 0; 0; 0; 0; 0; 0; 0; 0; 0; 0; 0; 0; 0; 0; 0; 0; 0; 0; 0; 0; 0; 0; 0; 0; 0; 0; 0; 0; 0; 0; 0; 0; 134; 7; 0;
   0; 0; 0; 0; 0; 0; 232; 3; 0; 0; 0; 0; 0; 0; 27; 65; 95; 81; 37; 7; 0; 0; 0; 0; 0; 0; 0; 0; 0; 0; 0; 0; 0; 0; 5;
   0; 0; 0; 253; 166; 41; 58; 2; 175; 19; 7; 0; 0; 0; 0; 0; 0; 0; 0; 0; 0; 0; 0; 125; 179; 34; 46; 241; 37; 200; 9;
   0; 0; 0; 0; 0; 0; 0; 0; 0; 0; 0; 0; 1; 237; 50; 186; 77; 36; 69; 23; 0; 0; 0; 0; 0; 0; 0; 0; 0; 0; 0; 0; 47; 36;
   240; 97; 189; 227; 9; 28; 0; 0; 0; 0; 0; 0; 0; 0; 0; 0; 0; 0; 219; 187; 204; 27; 137; 111; 12; 6; 0; 0; 0; 0; 0;
   0; 0; 0; 0; 0; 0; 0; 42; 55; 163; 239; 75; 112; 206; 0; 0; 0; 0; 0; 0; 0; 0; 0; 0; 0; 0; 0; 0; 0; 0; 0; 1; 2; 3;
   4; 5; 0; 0; 0; 0; 0].
Definition nop_packet_3 : bytes :=
  [74; 112; 33; 157; 186; 112; 93; 17; 1; 0; 0; 0; 0; 0; 0; 0; 0; 0; 0; 0; 0; 0; 0; 0; 0; 0; 0; 0; 0; 0; 0; 0; 0;
   0; 0; 0; 0; 0; 0; 0; 0; 0; 0; 0; 0; 0; 0; 0; 0; 0; 0; 0; 0; 0; 0; 0; 0; 0; 0; 0; 0; 0; 0; 0; 0; 0; 0; 134; 7; 0;
   0; 0; 0; 0; 0; 0; 232; 3; 0; 0; 0; 0; 0; 0; 27; 65; 95; 81; 37; 7; 0; 0; 0; 0; 0; 0; 0; 0; 0; 0; 0; 0; 0; 0; 5;
   0; 0; 0; 253; 166; 41; 58; 2; 175; 19; 7; 0; 0; 0; 0; 0; 0; 0; 0; 0; 0; 0; 0; 125; 179; 34; 46; 241; 37; 200; 9;
   0; 0; 0; 0; 0; 0; 0; 0; 0; 0; 0; 0; 1; 237; 50; 186; 77; 36; 69; 23; 0; 0; 0; 0; 0; 0; 0; 0; 0; 0; 0; 0; 47; 36;
   240; 97; 189; 227; 9; 28; 0; 0; 0; 0; 0; 0; 0; 0; 0; 0; 0; 0; 180; 3; 78; 254; 229; 181; 23; 28; 0; 0; 0; 0; 0;
   0; 0; 0; 0; 0; 0; 0; 43; 87; 147; 81; 215; 156; 177; 23; 0; 0; 0; 0; 0; 0; 0; 0; 0; 0; 0; 0; 1; 0; 1; 0; 1; 2;
   3; 4; 5; 0; 0; 0; 0; 0].

Definition nop_groups : ReBroadcastGroupMap := mkReBroadcastGroupMap 2 ∅ {[1 := mkGroup (Some 1) (mkRoundSpan 0 10) [3]]} true.
Definition nop_input : Input := mkInput nop_groups (λ _, Some 1000) (mkRecvUdpMsg nop_packet 242).

Lemma nop_built : nop_build = Ret [(12, nop_packet); (13, nop_packet_3)].
Proof. vm_compute. reflexivity. Qed.

Lemma nop_sendable : sendable (1 : @ST_KeyPair NopProtocol) 242 nop_app (mkRedundancy 4096) 7 1000 nop_target nop_known.
Proof.
  constructor.
  - apply nop_key_ok. lia.
  - split; [done|]. split; [done|]. cbn. unfold usize_max, u64_max. lia.
  - by intros [].
  - unfold data_size_of. vm_compute. reflexivity.
  - cbn. lia.
  - unfold is_u64, u64_max. lia.
  - unfold is_u64, u64_max. lia.
  - done.
  - cbn. lia.
  - vm_compute. congruence.
  - vm_compute. congruence.
Qed.

Lemma nop_input_ok : input_ok nop_input.
Proof.
  split; [done|]. change (Forall (λ b, 0 <= b < 256) nop_packet). apply (bool_decide_unpack (Forall (λ b, 0 <= b < 256) nop_packet)).
  vm_compute. exact I.
Qed.

Lemma raptorcast_build_parse_witness :
  ∃ out, nop_build = Ret out ∧ length (sent 242 out) = 2%nat ∧ ∀ addr packet, (addr, packet) ∈ sent 242 out →
    ∃ m c, parse_message (cache_new None) packet (Some 1000) 100 = Ret (Ok m, c) ∧ vm_author m = 1.
Proof.
  destruct (raptorcast_build_parse f64_of_int id (λ l, reflexivity l) 0 (1 : @ST_KeyPair NopProtocol) 242 nop_app (mkRedundancy 4096) 7 1000
    nop_target nop_known nop_sendable) as (out & e & xs & packets & Hb & _ & _ & _ & Hsent & Hparse).
  exists out. split; [exact Hb|]. split.
  - rewrite nop_built in Hb. injection Hb as <-. vm_compute. reflexivity.
  - intros addr packet Hin. change (Z.to_nat 242) with 242%nat in Hsent. rewrite Hsent in Hin.
    apply elem_of_addressed in Hin as (j & x & Hx & Hp & _).
    destruct (Hparse j x packet Hx Hp (cache_new None) (Some 1000) 100) as (c & Hc & _); [by intros ??; rewrite cview_new, lookup_empty|done|].
    eexists _, c. split; [exact Hc|reflexivity].
Defined.

(** The message is delivered, and its chunk is passed on. *)
Lemma nop_delivered :
  match handle_message (udp_state_new 2 100) (in_groups nop_input) (in_clock nop_input) (in_msg nop_input) with
  | Ret (_, rebroadcasts, messages) => rebroadcasts = [([3], nop_packet, 242)] ∧ messages = [(1, nop_app)]
  | _ => False
  end.
Proof. vm_compute. split; reflexivity. Qed.

(** A chunk is passed on, as a whole packet. *)
Lemma raptorcast_receive_safe_witness :
  ∃ s rebroadcasts messages, udp_run (udp_state_new 2 100) [nop_input] = Ret (s, [(rebroadcasts, messages)]) ∧
    cache_len (pending_message_cache s) <= PENDING_MESSAGE_CACHE_SIZE ∧
    ([3], nop_packet, 242) ∈ rebroadcasts ∧ Forall (rebroadcast_ok nop_groups 2 (in_msg nop_input)) rebroadcasts.
Proof.
  destruct (raptorcast_receive_safe 2 100 [nop_input]) as (s & outs & Hrun & Hlen & Hall); [constructor; [apply nop_input_ok|constructor]|].
  destruct outs as [|[rebroadcasts messages] [|]]; [inversion Hall| |inversion Hall as [|? ? ? ? ? Hnil]; inversion Hnil].
  exists s, rebroadcasts, messages. split; [exact Hrun|]. split; [exact Hlen|]. apply Forall2_cons in Hall as [[Hre _] _].
  split; [|exact Hre]. pose proof nop_delivered as Hd. cbn [udp_run] in Hrun.
  destruct (handle_message _ _ _ _) as [[[s1 rs] ms]| |]; [|destruct Hd..]. cbn in Hrun. injection Hrun as _ <- _. destruct Hd as [-> _]. left.
Defined.

Lemma raptorcast_delivers_witness :
  ∃ s' rebroadcasts messages,
    handle_message (udp_state_new 2 100) (in_groups nop_input) (in_clock nop_input) (in_msg nop_input) = Ret (s', rebroadcasts, messages) ∧
    (1, nop_app) ∈ messages.
Proof.
  assert (to_bits (mkRedundancy 4096) <= 7 * 2048) as Hred by (cbn; lia).
  pose proof (raptorcast_delivers f64_of_int id (λ l, reflexivity l) 0 (1 : @ST_KeyPair NopProtocol) 242 nop_app (mkRedundancy 4096) 7 1000
    nop_target nop_known [(12, nop_packet); (13, nop_packet_3)] (udp_state_new 2 100) ∅ nop_input) as Hd.
  destruct (Hd nop_sendable eq_refl Hred nop_built (udp_state_new_ok 2 100) nop_input_ok) as (starts & s1 & b & s' & rebroadcasts & messages & _ & _ & Hh & _).
  - apply lookup_empty.
  - cbn [udp_state_new recently_decoded_cache]. by rewrite cview_new, lookup_empty.
  - reflexivity.
  - intros starts start m Hst Hin _ _. assert (starts = [0%nat]) as -> by (vm_compute in Hst; congruence).
    apply list_elem_of_singleton in Hin as ->. vm_compute. left.
  - exists s', rebroadcasts, messages. split; [exact Hh|]. pose proof nop_delivered as Hm. rewrite Hh in Hm.
    destruct Hm as [_ ->]. left.
Defined.

(** A packet of another message of node 1, for epoch 8 *)
Definition nop_packet_epoch_8 : bytes :=
  [88; 72; 126; 43; 45; 135; 149; 0; 1; 0; 0; 0; 0; 0; 0; 0; 0; 0; 0; 0; 0; 0; 0; 0; 0; 0; 0; 0; 0; 0; 0; 0; 0; 0;
   0; 0; 0; 0; 0; 0; 0; 0; 0; 0; 0; 0; 0; 0; 0; 0; 0; 0; 0; 0; 0; 0; 0; 0; 0; 0; 0; 0; 0; 0; 0; 0; 0; 134; 8; 0; 0;
   0; 0; 0; 0; 0; 232; 3; 0; 0; 0; 0; 0; 0; 34; 50; 31; 7; 0; 0; 0; 0; 0; 0; 0; 0; 0; 0; 0; 0; 0; 0; 0; 0; 3; 0; 0;
   0; 253; 166; 41; 58; 2; 175; 19; 7; 0; 0; 0; 0; 0; 0; 0; 0; 0; 0; 0; 0; 125; 179; 34; 46; 241; 37; 200; 9; 0; 0;
   0; 0; 0; 0; 0; 0; 0; 0; 0; 0; 1; 237; 50; 186; 77; 36; 69; 23; 0; 0; 0; 0; 0; 0; 0; 0; 0; 0; 0; 0; 47; 36; 240;
   97; 189; 227; 9; 28; 0; 0; 0; 0; 0; 0; 0; 0; 0; 0; 0; 0; 228; 30; 123; 23; 88; 236; 113; 29; 0; 0; 0; 0; 0; 0;
   0; 0; 0; 0; 0; 0; 42; 55; 163; 239; 75; 112; 206; 0; 0; 0; 0; 0; 0; 0; 0; 0; 0; 0; 0; 0; 0; 0; 0; 0; 9; 8; 7; 0;
   0; 0; 0; 0; 0; 0].

(** A batch of chunks keeps the targets of its first chunk: of two chunks of one
    author, for epochs with different validators, the second goes to the validators
    of the first epoch. *)
Example batch_mixes_epochs :
  let groups := mkReBroadcastGroupMap 2 {[7 := new_validator_group [1; 2; 3] 2; 8 := new_validator_group [1; 2; 4] 2]} ∅ false in
  rebroadcast_targets groups 7 1 = Ret [3] ∧ rebroadcast_targets groups 8 1 = Ret [4] ∧
  match handle_message (udp_state_new 2 100) groups (λ _, Some 1000) (mkRecvUdpMsg (nop_packet ++ nop_packet_epoch_8) 242) with
  | Ret (_, rebroadcasts, _) => rebroadcasts = [([3], nop_packet ++ nop_packet_epoch_8, 242)]
  | _ => False
  end.
Proof. split; [by vm_compute|]. split; [by vm_compute|]. vm_compute. reflexivity. Qed.
End nop.
