(* ===== verification/RaptorcastSecondary.v ===== *)
(** Groups of full nodes that a validator sends its messages to
    (src/monad-raptorcast/src/raptorcast_secondary): the publisher that invites
    full nodes to future groups, and the client that accepts invitations. *)

From S2P Require Import Prelude Types ValidatorSet Crypto RaptorcastGroups.

#[local] Open Scope Z_scope.

(** * Messages (group_message.rs) *)

Record PrepareGroup := mkPrepareGroup {
  pg_validator_id : NodeId;
  pg_max_group_size : Z;
  pg_start_round : Round;
  pg_end_round : Round;
}.
Record PrepareGroupResponse := mkPrepareGroupResponse {
  pr_req : PrepareGroup;
  pr_node_id : NodeId;
  pr_accept : bool;
}.

#[export] Instance PrepareGroup_eq_dec : EqDecision PrepareGroup.
Proof. solve_decision. Defined.

(** The publisher leaves the name records to the next layer. *)
Record ConfirmGroup {R : Type} := mkConfirmGroup {
  cg_prepare : PrepareGroup;
  cg_peers : list NodeId;
  cg_name_records : list R;
}.
Arguments ConfirmGroup : clear implicits.

Inductive FullNodesGroupMessage {R : Type} :=
| FNG_PrepareGroup (inner_msg : PrepareGroup)
| FNG_PrepareGroupResponse (inner_msg : PrepareGroupResponse)
| FNG_ConfirmGroup (inner_msg : ConfirmGroup R).
Arguments FullNodesGroupMessage : clear implicits.

(** * The publisher (publisher.rs) *)

Record GroupSchedulingConfig := mkGroupSchedulingConfig {
  cfg_max_group_size : Z;
  cfg_round_span : Round;
  cfg_invite_lookahead : Round;
  cfg_max_invite_wait : Round;
  cfg_deadline_round_dist : Round;
  cfg_init_empty_round_span : Round;
}.

Record GroupAsPublisher := mkGroupAsPublisher {
  full_nodes_accepted : list NodeId;
  full_nodes_candidates : list NodeId;
  num_invites_sent : Z;
  num_invites_rejected : Z;
  gp_start_round : Round;
  gp_end_round : Round;
  next_invite_tp : Round;
}.

Section publisher.
Context {R : Type}.

Definition is_locked (g : GroupAsPublisher) : bool := bool_decide (next_invite_tp g = Round_MAX).

(** [advance_invites]: the group and what is sent to whom. *)
Definition advance_invites (g : GroupAsPublisher) (curr_timestamp : Round) (cfg : GroupSchedulingConfig) (validator_id : NodeId) :
    exec (GroupAsPublisher * option (FullNodesGroupMessage R * list NodeId)) :=
  if bool_decide (curr_timestamp < next_invite_tp g) then Ret (g, None) else
  let prep_grp_data := mkPrepareGroup validator_id (cfg_max_group_size cfg) (gp_start_round g) (gp_end_round g) in
  let accepted := Z.of_nat (length (full_nodes_accepted g)) in
  confirm ←
    (if bool_decide (accepted >= cfg_max_group_size cfg) || bool_decide (num_invites_sent g >= Z.of_nat (length (full_nodes_candidates g)))
     then Ret true
     else deadline ← round_add curr_timestamp (cfg_deadline_round_dist cfg); Ret (bool_decide (deadline >= gp_start_round g)));
  if (confirm : bool) then
    let g := mkGroupAsPublisher (full_nodes_accepted g) (full_nodes_candidates g) (num_invites_sent g) (num_invites_rejected g)
               (gp_start_round g) (gp_end_round g) Round_MAX in
    Ret (g, Some (FNG_ConfirmGroup (mkConfirmGroup R prep_grp_data (full_nodes_accepted g) []), full_nodes_accepted g))
  else
    next_invite_tp ← round_add curr_timestamp (cfg_max_invite_wait cfg);
    num_missing ← checked_sub (cfg_max_group_size cfg) accepted;
    let next_invitees := take (Z.to_nat num_missing) (drop (Z.to_nat (num_invites_sent g)) (full_nodes_candidates g)) in
    let g := mkGroupAsPublisher (full_nodes_accepted g) (full_nodes_candidates g)
               (num_invites_sent g + Z.of_nat (length next_invitees)) (num_invites_rejected g)
               (gp_start_round g) (gp_end_round g) next_invite_tp in
    Ret (g, Some (FNG_PrepareGroup prep_grp_data, next_invitees)).

Definition candidate_response (g : GroupAsPublisher) (candidate : NodeId) (accepted : bool) : GroupAsPublisher :=
  if is_locked g then g else
  if bool_decide (candidate ∉ full_nodes_candidates g) then g else
  if bool_decide (candidate ∈ full_nodes_accepted g) then g else
  if accepted then
    mkGroupAsPublisher (full_nodes_accepted g ++ [candidate]) (full_nodes_candidates g) (num_invites_sent g) (num_invites_rejected g)
      (gp_start_round g) (gp_end_round g) (next_invite_tp g)
  else
    mkGroupAsPublisher (full_nodes_accepted g) (full_nodes_candidates g) (num_invites_sent g) (num_invites_rejected g + 1)
      (gp_start_round g) (gp_end_round g) (next_invite_tp g).

Definition to_finalized_group (g : GroupAsPublisher) (validator_id : NodeId) : exec Group :=
  round_span ← expect (round_span_new (gp_start_round g) (gp_end_round g));
  new_fullnode_group (full_nodes_accepted g) validator_id validator_id round_span.

(** The generator that shuffles candidates, with its state. *)
Context {Rng : Type} (shuffle : Rng → list NodeId → list NodeId * Rng).

Definition new_randomized (start_round round_span : Round) (rng : Rng) (always_ask_full_nodes peer_disc_full_nodes : list NodeId) :
    exec (GroupAsPublisher * Rng) :=
  end_round ← round_add start_round round_span;
  let '(rand_public_nodes, rng) := shuffle rng peer_disc_full_nodes in
  Ret (mkGroupAsPublisher [] (always_ask_full_nodes ++ rand_public_nodes) 0 0 start_round end_round Round_MIN, rng).

Record Publisher := mkPublisher {
  validator_node_id : NodeId;
  scheduling_cfg : GroupSchedulingConfig;
  group_schedule : gmap Round GroupAsPublisher;
  always_ask_full_nodes : list NodeId;
  peer_disc_full_nodes : list NodeId;
  rng : Rng;
  pub_curr_round : Round;
  curr_group : Group;
}.

Definition with_schedule (p : Publisher) (s : gmap Round GroupAsPublisher) : Publisher :=
  mkPublisher (validator_node_id p) (scheduling_cfg p) s (always_ask_full_nodes p) (peer_disc_full_nodes p) (rng p)
    (pub_curr_round p) (curr_group p).
Definition with_group (p : Publisher) (g : Group) : Publisher :=
  mkPublisher (validator_node_id p) (scheduling_cfg p) (group_schedule p) (always_ask_full_nodes p) (peer_disc_full_nodes p) (rng p)
    (pub_curr_round p) g.
Definition with_pub_round (p : Publisher) (r : Round) : Publisher :=
  mkPublisher (validator_node_id p) (scheduling_cfg p) (group_schedule p) (always_ask_full_nodes p) (peer_disc_full_nodes p) (rng p)
    r (curr_group p).
Definition with_rng (p : Publisher) (r : Rng) : Publisher :=
  mkPublisher (validator_node_id p) (scheduling_cfg p) (group_schedule p) (always_ask_full_nodes p) (peer_disc_full_nodes p) r
    (pub_curr_round p) (curr_group p).
Definition with_peer_disc (p : Publisher) (l : list NodeId) : Publisher :=
  mkPublisher (validator_node_id p) (scheduling_cfg p) (group_schedule p) (always_ask_full_nodes p) l (rng p)
    (pub_curr_round p) (curr_group p).

(** Without duplicates, in the original order *)
Fixpoint dedup_nodes (seen : gset NodeId) (l : list NodeId) : list NodeId :=
  match l with
  | [] => []
  | node :: l => if bool_decide (node ∈ seen) then dedup_nodes seen l else node :: dedup_nodes ({[node]} ∪ seen) l
  end.

Definition publisher_new (validator_node_id : NodeId) (full_nodes_prioritized : list NodeId) (cfg : GroupSchedulingConfig) (rng : Rng) :
    exec Publisher :=
  min_allowed_init_span ← round_add (cfg_max_invite_wait cfg) (cfg_deadline_round_dist cfg);
  _ ← assert (bool_decide (min_allowed_init_span <= cfg_init_empty_round_span cfg));
  _ ← assert (bool_decide (min_allowed_init_span <= cfg_invite_lookahead cfg));
  Ret (mkPublisher validator_node_id cfg ∅ (dedup_nodes ∅ full_nodes_prioritized) [] rng Round_MIN group_default).

Definition new_empty_group (p : Publisher) (start_round : Round) : exec Group :=
  end_round ← round_add start_round (cfg_init_empty_round_span (scheduling_cfg p));
  round_span ← expect (round_span_new start_round end_round);
  new_fullnode_group [] (validator_node_id p) (validator_node_id p) round_span.

(** [enter_round]: the current group, and groups that are over are dropped. *)
Definition publisher_enter_round (p : Publisher) (new_round : Round) : exec Publisher :=
  _ ← assert (bool_decide (new_round ≠ Round_MAX));
  if bool_decide (new_round < span_end (RaptorcastGroups.round_span (curr_group p))) then
    _ ← assert (bool_decide (new_round >= span_start (RaptorcastGroups.round_span (curr_group p))));
    Ret p
  else
    let p := with_schedule p (filter (λ kv : Round * GroupAsPublisher, gp_end_round kv.2 >= new_round) (group_schedule p)) in
    match head (btree_iter (group_schedule p)) with
    | None => g ← new_empty_group p new_round; Ret (with_group p g)
    | Some (group_start_round, next_group) =>
        if bool_decide (group_start_round > new_round) then g ← new_empty_group p new_round; Ret (with_group p g)
        else
          g ← to_finalized_group next_group (validator_node_id p);
          Ret (with_group (with_schedule p (delete group_start_round (group_schedule p))) g)
    end.

(** The first scheduled group that has something to send. *)
Fixpoint advance_schedule (p : Publisher) (time_point : Round) (groups : list (Round * GroupAsPublisher)) :
    exec (Publisher * option (FullNodesGroupMessage R * list NodeId)) :=
  match groups with
  | [] => Ret (p, None)
  | (start, g) :: groups =>
      '(g, out_msg) ← advance_invites g time_point (scheduling_cfg p) (validator_node_id p);
      let p := with_schedule p (<[start := g]> (group_schedule p)) in
      match out_msg with
      | Some out_msg => Ret (p, Some out_msg)
      | None => advance_schedule p time_point groups
      end
  end.

Definition step_until (p : Publisher) (time_point : Round) : exec (Publisher * option (FullNodesGroupMessage R * list NodeId)) :=
  let schedule_end := match last (btree_iter (group_schedule p)) with
                      | Some (_, grp) => gp_end_round grp
                      | None => span_end (RaptorcastGroups.round_span (curr_group p))
                      end in
  '(p, out_msg) ← advance_schedule p time_point (btree_iter (group_schedule p));
  match out_msg with
  | Some out_msg => Ret (p, Some out_msg)
  | None =>
      lookahead ← round_add time_point (cfg_invite_lookahead (scheduling_cfg p));
      if bool_decide (schedule_end < lookahead) then
        '(new_group, rng) ← new_randomized schedule_end (cfg_round_span (scheduling_cfg p)) (rng p)
                              (always_ask_full_nodes p) (peer_disc_full_nodes p);
        '(new_group, maybe_invites) ← advance_invites new_group time_point (scheduling_cfg p) (validator_node_id p);
        Ret (with_schedule (with_rng p rng) (<[gp_start_round new_group := new_group]> (group_schedule p)), maybe_invites)
      else Ret (p, None)
  end.

Definition enter_round_and_step_until (p : Publisher) (round : Round) :
    exec (Publisher * option (FullNodesGroupMessage R * list NodeId)) :=
  if bool_decide (round < pub_curr_round p) then Ret (p, None) else
  _ ← round_add (pub_curr_round p) 1;
  p ← publisher_enter_round (with_pub_round p round) round;
  step_until p round.

Definition on_candidate_response (p : Publisher) (msg : FullNodesGroupMessage R) : Publisher :=
  match msg with
  | FNG_PrepareGroupResponse response =>
      let start_round := pg_start_round (pr_req response) in
      match group_schedule p !! start_round with
      | Some group =>
          with_schedule p (<[start_round := candidate_response group (pr_node_id response) (pr_accept response)]> (group_schedule p))
      | None => p
      end
  | _ => p
  end.

Definition get_current_raptorcast_group (p : Publisher) : option Group :=
  if round_span_contains (RaptorcastGroups.round_span (curr_group p)) (pub_curr_round p) then Some (curr_group p) else None.

Definition upsert_peer_disc_full_nodes (p : Publisher) (additional_fn : list NodeId) : Publisher :=
  foldl (λ p node,
    if bool_decide (node ∈ peer_disc_full_nodes p) || bool_decide (node ∈ always_ask_full_nodes p) || bool_decide (node = validator_node_id p)
    then p else with_peer_disc p (peer_disc_full_nodes p ++ [node])) p additional_fn.

Definition update_always_ask_full_nodes (p : Publisher) (prioritized_full_nodes : list NodeId) : Publisher :=
  mkPublisher (validator_node_id p) (scheduling_cfg p) (group_schedule p) prioritized_full_nodes
    (filter (λ node, node ∉ prioritized_full_nodes) (peer_disc_full_nodes p)) (rng p) (pub_curr_round p) (curr_group p).
End publisher.

(** * The client (client.rs) *)

(** [iset::IntervalMap<Round, V>]: several values may have the same interval. A
    query names a range of rounds, from its first to the one after its last. *)
Class IntervalMap (V : Type) := {
  interval_map : Type;
  interval_new : interval_map;
  interval_values : interval_map → Round → Round → list V;
  interval_intervals_to : interval_map → Round → list (Round * Round);
  interval_remove : interval_map → Round * Round → interval_map;
  interval_force_insert : interval_map → Round * Round → V → interval_map;
}.
Arguments interval_map V {_}.

Record ClientConfig := mkClientConfig {
  max_num_group : Z;
  max_group_size : Z;
  invite_future_dist_min : Round;
  invite_future_dist_max : Round;
  invite_accept_heartbeat : Z;
}.

Section client.
Context {R : Type} `{IM : !IntervalMap Group}.

(** Points in time are numbers, the time of a call is an argument. *)
Record Client := mkClient {
  client_node_id : NodeId;
  client_config : ClientConfig;
  confirmed_groups : interval_map Group;
  pending_confirms : gmap Round (gmap NodeId PrepareGroup);
  client_curr_round : Round;
  last_round_heartbeat : Z;
}.

Definition client_new (client_node_id : NodeId) (config : ClientConfig) (now : Z) : exec Client :=
  _ ← assert (bool_decide (max_num_group config > 0));
  Ret (mkClient client_node_id config interval_new ∅ GENESIS_ROUND (now - invite_accept_heartbeat config)).

(** [enter_round]: the groups that are sent to the primary instance are returned. *)
Definition client_enter_round (c : Client) (curr_round : Round) (now : Z) : exec (Client * list Group) :=
  if bool_decide (curr_round < client_curr_round c) then Ret (c, []) else
  _ ← round_add (client_curr_round c) 1;
  let pending := filter (λ kv : Round * gmap NodeId PrepareGroup, kv.1 > curr_round) (pending_confirms c) in
  consume_end ← round_add curr_round 1;
  let groups := interval_values (confirmed_groups c) curr_round consume_end in
  let confirmed := foldl interval_remove (confirmed_groups c) (interval_intervals_to (confirmed_groups c) consume_end) in
  Ret (mkClient (client_node_id c) (client_config c) confirmed pending curr_round now, groups).

Definition is_receiving_proposals (c : Client) (now : Z) : bool :=
  bool_decide (now < last_round_heartbeat c + invite_accept_heartbeat (client_config c)).

Definition overlaps (begin end_ : Round) (group : PrepareGroup) : exec bool :=
  _ ← assert (bool_decide (begin <= end_));
  _ ← assert (bool_decide (pg_start_round group <= pg_end_round group));
  Ret (bool_decide (pg_start_round group < end_) && bool_decide (pg_end_round group > begin)).

(** The number of groups that the client is in already, or [None] if the invitation
    is rejected. *)
Fixpoint check_confirmed (max_num : Z) (invite_msg : PrepareGroup) (groups : list Group) (num : Z) : exec (option Z) :=
  match groups with
  | [] => Ret (Some num)
  | group :: groups =>
      validator_id ← get_validator_id group;
      if bool_decide (validator_id = pg_validator_id invite_msg) then Ret None else
      if bool_decide (num + 1 + 1 > max_num) then Ret None else check_confirmed max_num invite_msg groups (num + 1)
  end.

Fixpoint check_invites (max_num : Z) (invite_msg : PrepareGroup) (others : list PrepareGroup) (num : Z) : exec (option Z) :=
  match others with
  | [] => Ret (Some num)
  | other :: others =>
      o ← overlaps (pg_start_round other) (pg_end_round other) invite_msg;
      if (o : bool) then
        if bool_decide (num + 1 + 1 > max_num) then Ret None else check_invites max_num invite_msg others (num + 1)
      else check_invites max_num invite_msg others num
  end.

Fixpoint check_pending (max_num : Z) (invite_msg : PrepareGroup) (pending : list (Round * gmap NodeId PrepareGroup)) (num : Z) :
    exec (option Z) :=
  match pending with
  | [] => Ret (Some num)
  | (key, other_invites) :: pending =>
      if bool_decide (key >= pg_end_round invite_msg) then Ret (Some num) else
      o ← check_invites max_num invite_msg (btree_iter other_invites).*2 num;
      match o with Some num => check_pending max_num invite_msg pending num | None => Ret None end
  end.

Definition outside_bounds (c : Client) (invite_msg : PrepareGroup) : exec bool :=
  first ← round_add (client_curr_round c) (invite_future_dist_min (client_config c));
  if bool_decide (pg_start_round invite_msg < first) then Ret true else
  last ← round_add (client_curr_round c) (invite_future_dist_max (client_config c));
  Ret (bool_decide (pg_start_round invite_msg > last)).

Definition validate_prepare_group_message (c : Client) (invite_msg : PrepareGroup) (now : Z) : exec bool :=
  if bool_decide (pg_start_round invite_msg >= pg_end_round invite_msg) then Ret false else
  if bool_decide (pg_start_round invite_msg <= client_curr_round c) then Ret false else
  outside ← outside_bounds c invite_msg;
  if outside && is_receiving_proposals c now then Ret false else
  if bool_decide (pg_max_group_size invite_msg > max_group_size (client_config c)) then Ret false else
  let max_num := max_num_group (client_config c) in
  o ← check_confirmed max_num invite_msg
        (interval_values (confirmed_groups c) (pg_start_round invite_msg) (pg_end_round invite_msg)) 0;
  match o with
  | None => Ret false
  | Some num => o ← check_pending max_num invite_msg (btree_iter (pending_confirms c)) num; Ret (bool_decide (is_Some o))
  end.

Definition with_client_pending (c : Client) (p : gmap Round (gmap NodeId PrepareGroup)) : Client :=
  mkClient (client_node_id c) (client_config c) (confirmed_groups c) p (client_curr_round c) (last_round_heartbeat c).

Definition handle_prepare_group_message (c : Client) (invite_msg : PrepareGroup) (now : Z) : exec (Client * PrepareGroupResponse) :=
  accept ← validate_prepare_group_message c invite_msg now;
  let start_round := pg_start_round invite_msg in
  let c := if (accept : bool) then
             with_client_pending c
               (<[start_round := <[pg_validator_id invite_msg := invite_msg]> (default ∅ (pending_confirms c !! start_round))]> (pending_confirms c))
           else c in
  Ret (c, mkPrepareGroupResponse invite_msg (client_node_id c) accept).

(** The groups that are sent to the primary instance are returned. *)
Definition handle_confirm_group_message (c : Client) (confirm_msg : ConfirmGroup R) (now : Z) : exec (Client * list Group) :=
  let prepare := cg_prepare confirm_msg in
  let start_round := pg_start_round prepare in
  match round_span_new start_round (pg_end_round prepare) with
  | None => Ret (c, [])
  | Some round_span =>
      if bool_decide (start_round <= client_curr_round c) then Ret (c, []) else
      match pending_confirms c !! start_round with
      | None => Ret (c, [])
      | Some invites =>
          match invites !! pg_validator_id prepare with
          | None => Ret (c, [])
          | Some old_invite =>
              if bool_decide (old_invite ≠ prepare) then Ret (c, []) else
              if bool_decide (Z.of_nat (length (cg_peers confirm_msg)) > pg_max_group_size prepare) then Ret (c, []) else
              if bool_decide (client_node_id c ∉ cg_peers confirm_msg) then Ret (c, []) else
              group ← new_fullnode_group (cg_peers confirm_msg) (client_node_id c) (pg_validator_id prepare) round_span;
              let '(sent, heartbeat) := if is_receiving_proposals c now then ([], last_round_heartbeat c) else ([group], now) in
              let confirmed := interval_force_insert (confirmed_groups c) (span_start round_span, span_end round_span) group in
              let pending := <[start_round := delete (pg_validator_id prepare) invites]> (pending_confirms c) in
              Ret (mkClient (client_node_id c) (client_config c) confirmed pending (client_curr_round c) heartbeat, sent)
          end
      end
  end.

(** The state, the response with its destination, and the groups for the primary. *)
Definition on_receive_group_message (c : Client) (msg : FullNodesGroupMessage R) (now : Z) :
    exec (Client * option (PrepareGroupResponse * NodeId) * list Group) :=
  match msg with
  | FNG_PrepareGroup invite_msg =>
      '(c, resp) ← handle_prepare_group_message c invite_msg now;
      Ret (c, Some (resp, pg_validator_id invite_msg), [])
  | FNG_ConfirmGroup confirm_msg => '(c, sent) ← handle_confirm_group_message c confirm_msg now; Ret (c, None, sent)
  | FNG_PrepareGroupResponse _ => Ret (c, None, [])
  end.
End client.
