(* ===== verification/RaptorcastSecondaryProps.v ===== *)
(** What the publisher of groups of full nodes guarantees: it schedules consecutive
    groups, confirms each at most once, and invites every node once, unless a new
    list of prioritized nodes repeats it. *)

From S2P Require Import Prelude Types ValidatorSet Crypto RaptorcastGroups RaptorcastSecondary.

#[local] Open Scope Z_scope.

(** * First and last entry of a map *)

Lemma btree_head {V} (m : gmap Z V) :
  match head (btree_iter m) with
  | Some (k, v) => m !! k = Some v ∧ ∀ k', is_Some (m !! k') → k <= k'
  | None => m = ∅
  end.
Proof.
  pose proof (btree_iter_sorted m) as Hs. destruct (btree_iter m) as [|[k v] l] eqn:Hm; cbn.
  - apply map_empty. intros k. destruct (m !! k) eqn:Hk; [|done]. apply elem_of_btree_iter in Hk. rewrite Hm in Hk. by apply elem_of_nil in Hk.
  - split; [apply elem_of_btree_iter; rewrite Hm; left|]. intros k' [v' Hv']. apply elem_of_btree_iter in Hv'. rewrite Hm in Hv'.
    apply elem_of_cons in Hv' as [[= -> ->]|Hin]; [done|]. apply StronglySorted_inv in Hs as [_ Hall]. rewrite Forall_forall in Hall.
    by apply (Hall _ Hin).
Qed.

Lemma btree_last {V} (m : gmap Z V) :
  match last (btree_iter m) with
  | Some (k, v) => m !! k = Some v ∧ ∀ k', is_Some (m !! k') → k' <= k
  | None => m = ∅
  end.
Proof.
  pose proof (btree_iter_sorted m) as Hs. destruct (last (btree_iter m)) as [[k v]|] eqn:Hl.
  - apply last_Some in Hl as [l Hl]. split; [apply elem_of_btree_iter; rewrite Hl; apply elem_of_app; right; left|].
    intros k' [v' Hv']. apply elem_of_btree_iter in Hv'. rewrite Hl in Hv', Hs. apply elem_of_app in Hv' as [Hin|Hin%list_elem_of_singleton].
    + clear Hl. induction l as [|x l IH]; [by apply elem_of_nil in Hin|]. apply StronglySorted_inv in Hs as [Hs Hall].
      apply elem_of_cons in Hin as [<-|Hin]; [|by apply IH]. rewrite Forall_forall in Hall. apply (Hall (k, v)), elem_of_app. right. left.
    + by injection Hin as -> ->.
  - apply last_None in Hl. apply map_empty. intros k. destruct (m !! k) eqn:Hk; [|done]. apply elem_of_btree_iter in Hk. rewrite Hl in Hk.
    by apply elem_of_nil in Hk.
Qed.

(** * The publisher *)

(** The keys of a schedule: [n] consecutive groups from round [first] on. *)
Definition consecutive (span first : Z) (n : nat) {V} (m : gmap Z V) : Prop :=
  ∀ k, is_Some (m !! k) ↔ ∃ i, (i < n)%nat ∧ k = first + Z.of_nat i * span.

Lemma consecutive_insert span first n {V} (m : gmap Z V) v :
  consecutive span first n m → consecutive span first (S n) (<[first + Z.of_nat n * span := v]> m).
Proof.
  intros Hm k. destruct (decide (first + Z.of_nat n * span = k)) as [<-|Hne].
  - rewrite lookup_insert_eq. split; [intros _; exists n; lia|done].
  - rewrite lookup_insert_ne by done. rewrite (Hm k). split; intros (i & Hi & ->); exists i; split; try done; [lia|].
    destruct (decide (i = n)) as [->|]; [done|lia].
Qed.

Lemma consecutive_update span first n {V} (m : gmap Z V) k v :
  is_Some (m !! k) → consecutive span first n m → consecutive span first n (<[k := v]> m).
Proof.
  intros Hk Hm k'. rewrite <-(Hm k'). destruct (decide (k = k')) as [->|Hne]; [by rewrite lookup_insert_eq|by rewrite lookup_insert_ne].
Qed.

Lemma schedule_last span first n {V} (m : gmap Z V) k :
  0 < span → consecutive span first n m → is_Some (m !! k) → (∀ k', is_Some (m !! k') → k' <= k) → k + span = first + Z.of_nat n * span.
Proof.
  intros Hspan Hm Hk Hmax. apply Hm in Hk as (i & Hi & ->). destruct n as [|n]; [lia|].
  assert (first + Z.of_nat n * span <= first + Z.of_nat i * span) by (apply Hmax, Hm; exists n; lia). nia.
Qed.

Lemma consecutive_first span first n {V} (m : gmap Z V) k :
  0 < span → consecutive span first n m → is_Some (m !! k) → (∀ k', is_Some (m !! k') → k <= k') →
  k = first ∧ ∃ n', n = S n' ∧ consecutive span (first + span) n' (delete k m).
Proof.
  intros Hspan Hm Hk Hmin. apply Hm in Hk as (i & Hi & ->). destruct n as [|n]; [lia|].
  assert (first + Z.of_nat i * span <= first) by (apply Hmin, Hm; exists 0%nat; lia).
  assert (first + Z.of_nat i * span = first) as -> by nia. split; [done|]. exists n. split; [done|]. intros k.
  rewrite lookup_delete_is_Some, (Hm k). split.
  - intros [Hne ([|j] & Hj & ->)]; [lia|]. exists j. split; [lia|]. nia.
  - intros (j & Hj & ->). split; [nia|]. exists (S j). split; [lia|]. nia.
Qed.

(** The groups that did not end before [r] *)
Lemma consecutive_filter span first n (m : gmap Z GroupAsPublisher) r :
  0 < span → consecutive span first n m → map_Forall (λ k g, gp_end_round g = k + span) m → first <= r →
  ∃ first' n', consecutive span first' n' (filter (λ kv : Z * GroupAsPublisher, gp_end_round kv.2 >= r) m) ∧
    (n' ≠ 0%nat → first' <= r <= first' + span ∧ first' + Z.of_nat n' * span = first + Z.of_nat n * span) ∧
    (n' = 0%nat → first + Z.of_nat n * span <= r).
Proof.
  intros Hspan Hm Hend Hr.
  assert (∀ k, is_Some (filter (λ kv : Z * GroupAsPublisher, gp_end_round kv.2 >= r) m !! k) ↔
    ∃ i, (i < n)%nat ∧ k = first + Z.of_nat i * span ∧ r <= k + span) as Hf.
  { intros k. unfold is_Some. setoid_rewrite map_lookup_filter_Some. split.
    - intros (g & Hg & Hge). cbn in Hge. rewrite (Hend k g Hg) in Hge. assert (is_Some (m !! k)) as (i & Hi & ->)%Hm by eauto. exists i. lia.
    - intros (i & Hi & -> & Hge). destruct (proj2 (Hm _) (ex_intro _ i (conj Hi eq_refl))) as [g Hg]. exists g. split; [done|].
      cbn. rewrite (Hend _ g Hg). lia. }
  set (d := Z.to_nat ((r - first - 1) / span)). assert (first <= r - 1 → Z.of_nat d = (r - first - 1) / span) as Hd.
  { intros H1. unfold d. rewrite Z2Nat.id; [done|]. apply Z.div_pos; lia. }
  destruct (decide (first <= r - 1)) as [Hlt|Hge].
  - specialize (Hd Hlt). pose proof (Z.div_mod (r - first - 1) span ltac:(lia)) as Hdm. pose proof (Z.mod_pos_bound (r - first - 1) span Hspan).
    exists (first + Z.of_nat d * span), (n - d)%nat. split; [|split; intros ?; [split; nia|nia]]. intros k. rewrite Hf. split.
    + intros (i & Hi & -> & Hle). assert (d <= i)%nat by nia. exists (i - d)%nat. split; [lia|]. nia.
    + intros (j & Hj & ->). exists (d + j)%nat. split; [lia|]. split; [nia|nia].
  - exists first, n. split; [|split; [lia|intros ->; lia]]. intros k. rewrite Hf. split.
    + intros (i & Hi & -> & _). by exists i.
    + intros (i & Hi & ->). exists i. split; [done|]. split; [done|]. nia.
Qed.

Section publisher.
Context {R Rng : Type} (shuffle : Rng → list NodeId → list NodeId * Rng) (Hshuffle : ∀ r l, (shuffle r l).1 ≡ₚ l).
(** No new list of prioritized nodes names a node twice: without it a node can be
    invited twice. *)
Context (distinct : Prop).

Notation output := (option (FullNodesGroupMessage R * list NodeId)) (only parsing).

(** Configurations with groups of at least one round. *)
Record cfg_ok (cfg : GroupSchedulingConfig) : Prop := {
  ck_span : 0 < cfg_round_span cfg;
  ck_lookahead : 0 <= cfg_invite_lookahead cfg;
  ck_wait : 0 <= cfg_max_invite_wait cfg;
  ck_deadline : 0 <= cfg_deadline_round_dist cfg;
  ck_empty : 0 < cfg_init_empty_round_span cfg;
}.
(** Rounds so far from the last one that sums with the configuration fit. *)
Definition round_ok (cfg : GroupSchedulingConfig) (r : Round) : Prop :=
  0 <= r ∧ r + cfg_round_span cfg + cfg_invite_lookahead cfg + cfg_max_invite_wait cfg + cfg_deadline_round_dist cfg +
    cfg_init_empty_round_span cfg < Round_MAX.

(** A scheduled group, with the nodes that were invited to it and the peers that it
    was confirmed with. *)
Record group_ok (cfg : GroupSchedulingConfig) (k : Round) (inv : list NodeId) (conf : option (list NodeId)) (g : GroupAsPublisher) : Prop := {
  go_start : gp_start_round g = k;
  go_end : gp_end_round g = k + cfg_round_span cfg;
  go_accepted : NoDup (full_nodes_accepted g);
  go_members x : x ∈ full_nodes_accepted g → x ∈ full_nodes_candidates g;
  go_candidates : distinct → NoDup (full_nodes_candidates g);
  go_sent : 0 <= num_invites_sent g <= Z.of_nat (length (full_nodes_candidates g));
  go_invited : inv = take (Z.to_nat (num_invites_sent g)) (full_nodes_candidates g);
  go_locked : conf = if is_locked g then Some (full_nodes_accepted g) else None;
}.

(** What a message for the group of round [k] adds to its history. *)
Definition emits (k : Round) (inv : list NodeId) (conf : option (list NodeId)) (out : output) (inv' : list NodeId) (conf' : option (list NodeId)) : Prop :=
  match out with
  | None => inv' = inv ∧ conf' = conf
  | Some (FNG_PrepareGroup pg, nodes) => pg_start_round pg = k ∧ inv' = inv ++ nodes ∧ conf' = conf
  | Some (FNG_ConfirmGroup c, nodes) =>
      pg_start_round (cg_prepare c) = k ∧ nodes = cg_peers c ∧ NoDup nodes ∧ inv' = inv ∧ conf = None ∧ conf' = Some (cg_peers c)
  | Some (FNG_PrepareGroupResponse _, _) => False
  end.

Lemma advance_invites_spec cfg k inv conf g t v :
  cfg_ok cfg → round_ok cfg t → group_ok cfg k inv conf g →
  ∃ g' out inv' conf', advance_invites (R := R) g t cfg v = Ret (g', out) ∧ group_ok cfg k inv' conf' g' ∧ emits k inv conf out inv' conf' ∧
    (out = None → g' = g).
Proof.
  intros [] [H0 Hr] [Hs He Ha Hm Hc Hsent Hi Hl]. unfold advance_invites. case_bool_decide as Ht.
  { exists g, None, inv, conf. split; [done|]. split; [by constructor|]. split; [by split|done]. }
  assert (is_locked g = false) as Hul. { unfold is_locked. apply bool_decide_false. unfold Round_MAX in *. lia. }
  rewrite Hul in Hl.
  assert (∃ b, (if bool_decide (Z.of_nat (length (full_nodes_accepted g)) >= cfg_max_group_size cfg) ||
    bool_decide (num_invites_sent g >= Z.of_nat (length (full_nodes_candidates g))) then Ret true
    else deadline ← round_add t (cfg_deadline_round_dist cfg); Ret (bool_decide (deadline >= gp_start_round g))) = Ret b ∧
    (b = false → Z.of_nat (length (full_nodes_accepted g)) < cfg_max_group_size cfg)) as (b & -> & Hb).
  { case_bool_decide; cbn [orb]; [by eexists|]. case_bool_decide; [by eexists|].
    rewrite (checked_add_ok _ _ _ : _ → round_add _ _ = _) by (unfold Round_MAX in *; lia). eexists. split; [done|]. lia. }
  cbn [mbind exec_bind]. destruct b.
  - eexists _, _, inv, (Some (full_nodes_accepted g)). split; [done|]. split.
    { by constructor. }
    split; [|done]. by rewrite <-Hs.
  - rewrite (checked_add_ok _ _ _ : _ → round_add _ _ = _) by (unfold Round_MAX in *; lia). cbn [mbind exec_bind].
    rewrite checked_sub_ok by (specialize (Hb eq_refl); lia). cbn [mbind exec_bind]. set (nodes := take _ (drop _ _)).
    eexists _, _, (inv ++ nodes), None. split; [done|]. split.
    { assert (length nodes <= length (full_nodes_candidates g) - Z.to_nat (num_invites_sent g))%nat as Hn
        by (unfold nodes; rewrite length_take, length_drop; lia).
      constructor; cbn; try done; [lia| |].
      - rewrite Z2Nat.inj_add, Nat2Z.id by lia. rewrite <-take_take_drop, <-Hi. f_equal. unfold nodes. set (l := drop _ _).
        rewrite length_take. destruct (Nat.min_spec (Z.to_nat (cfg_max_group_size cfg - Z.of_nat (length (full_nodes_accepted g)))) (length l))
          as [[_ ->]|[? ->]]; [done|]. by rewrite !take_ge by lia.
      - unfold is_locked. rewrite bool_decide_false; [done|]. cbn. unfold Round_MAX in *. lia. }
    split; [|done]. rewrite Hl. by rewrite <-Hs.
Qed.

Notation history := (gmap Round (list NodeId)) (only parsing).

(** The publisher, with the nodes invited to every group and the peers that groups
    were confirmed with. *)
Record publisher_ok (p : Publisher (Rng := Rng)) (I C : history) : Prop := {
  po_cfg : cfg_ok (scheduling_cfg p);
  po_schedule : ∃ n, consecutive (cfg_round_span (scheduling_cfg p)) (span_end (round_span (curr_group p))) n (group_schedule p) ∧
    ∀ k, is_Some (I !! k) ∨ is_Some (C !! k) →
      k < span_end (round_span (curr_group p)) + Z.of_nat n * cfg_round_span (scheduling_cfg p);
  po_groups k g : group_schedule p !! k = Some g → group_ok (scheduling_cfg p) k (default [] (I !! k)) (C !! k) g;
  po_invited k : distinct → NoDup (default [] (I !! k));
  po_nodes : distinct → NoDup (always_ask_full_nodes p ++ peer_disc_full_nodes p);
  po_round : span_start (round_span (curr_group p)) <= pub_curr_round p <= span_end (round_span (curr_group p));
  po_started k : is_Some (group_schedule p !! k) → span_start (round_span (curr_group p)) < span_end (round_span (curr_group p));
  po_current P : C !! span_start (round_span (curr_group p)) = Some P → sorted_other_peers (curr_group p) ≡ₚ P;
}.

Lemma new_group_self peers v span :
  new_fullnode_group peers v v span = Ret (mkGroup (Some v) span (merge_sort Z.le peers)).
Proof. unfold new_fullnode_group. by rewrite bool_decide_false by tauto. Qed.

Lemma publisher_enter_round_spec p I C r :
  publisher_ok p I C → round_ok (scheduling_cfg p) r → pub_curr_round p <= r →
  ∃ p', publisher_enter_round (with_pub_round p r) r = Ret p' ∧ publisher_ok p' I C ∧ pub_curr_round p' = r ∧
    scheduling_cfg p' = scheduling_cfg p ∧ span_start (round_span (curr_group p')) < span_end (round_span (curr_group p')).
Proof.
  intros [Hcfg (n & Hcons & Hpast) Hg Hinv Hnodes Hround Hst Hcur] [H0 Hr] Hle. pose proof Hcfg as [Hspan ? ? ? Hempty].
  unfold publisher_enter_round. rewrite (bool_decide_true (r ≠ Round_MAX)) by lia. cbn [assert mbind exec_bind with_pub_round curr_group].
  case_bool_decide as Hin.
  { rewrite bool_decide_true by lia. cbn [assert mbind exec_bind]. eexists. split; [done|]. split; [|split; [done|split; [done|cbn; lia]]]. constructor; cbn; try done; [|lia].
    by exists n. }
  cbn [with_schedule with_pub_round group_schedule scheduling_cfg validator_node_id curr_group].
  destruct (consecutive_filter (cfg_round_span (scheduling_cfg p)) (span_end (round_span (curr_group p))) n (group_schedule p) r) as
    (first & n' & Hcons' & Hne & Hz); try done; [intros k g Hk; by eapply go_end, Hg|lia|].
  set (m := filter _ (group_schedule p)) in *. pose proof (btree_head m) as Hhead.
  assert (∀ k g, m !! k = Some g → group_ok (scheduling_cfg p) k (default [] (I !! k)) (C !! k) g) as Hgm.
  { intros k g Hk. apply map_lookup_filter_Some in Hk as [Hk _]. by apply Hg. }
  destruct (head (btree_iter m)) as [[k g]|]; cbv iota beta.
  - destruct Hhead as [Hk Hmin]. destruct (consecutive_first _ _ _ _ _ Hspan Hcons' (mk_is_Some _ _ Hk) Hmin) as (-> & n'' & -> & Hrest).
    destruct Hne as [Hfr Hend]; [done|]. rewrite bool_decide_false by lia. unfold to_finalized_group.
    destruct (Hgm _ _ Hk) as [Hs He _ _ _ _ _ Hl]. rewrite Hs, He. unfold round_span_new. rewrite bool_decide_false by lia.
    cbn [expect mbind exec_bind]. rewrite new_group_self. cbn [mbind exec_bind]. eexists. split; [done|]. split; [|split; [done|split; [done|cbn; lia]]].
    constructor; cbn; try done.
    + exists n''. split; [done|]. intros k' Hk'. specialize (Hpast k' Hk'). lia.
    + intros k' g' Hk'. apply lookup_delete_Some in Hk' as [_ Hk']. by apply Hgm.
    + lia.
    + intros P HP. rewrite Hl in HP. destruct (is_locked g); [|done]. injection HP as <-. by rewrite merge_sort_Permutation.
  - assert (n' = 0%nat) as ->.
    { destruct n' as [|n']; [done|]. destruct (proj2 (Hcons' first)) as [g Hg']; [exists 0%nat; lia|]. by rewrite Hhead, lookup_empty in Hg'. }
    specialize (Hz eq_refl). unfold new_empty_group. cbn [with_schedule with_pub_round scheduling_cfg validator_node_id].
    rewrite (checked_add_ok _ _ _ : _ → round_add _ _ = _) by (unfold Round_MAX in *; lia). cbn [mbind exec_bind].
    unfold round_span_new. rewrite bool_decide_false by lia. cbn [expect mbind exec_bind]. rewrite new_group_self. cbn [mbind exec_bind].
    eexists. split; [done|]. split; [|split; [done|split; [done|cbn; lia]]]. constructor; cbn; try done; [|lia|lia|].
    + exists 0%nat. split; [|intros k Hk; specialize (Hpast k Hk); lia]. intros k. rewrite Hhead, lookup_empty. split; [by intros []|].
      intros (i & Hi & _). lia.
    + intros P HP. specialize (Hpast r (or_intror (mk_is_Some _ _ HP))). lia.
Qed.

(** What a message adds to the histories. *)
Definition record_out (IC : history * history) (out : output) : history * history :=
  match out with
  | Some (FNG_PrepareGroup pg, nodes) => (<[pg_start_round pg := default [] (IC.1 !! pg_start_round pg) ++ nodes]> IC.1, IC.2)
  | Some (FNG_ConfirmGroup c, _) => (IC.1, <[pg_start_round (cg_prepare c) := cg_peers c]> IC.2)
  | _ => IC
  end.

(** A confirmation is the first of its group, and goes to the peers it names. *)
Definition out_ok (C : history) (out : output) : Prop :=
  match out with
  | Some (FNG_ConfirmGroup c, nodes) => nodes = cg_peers c ∧ NoDup nodes ∧ C !! pg_start_round (cg_prepare c) = None
  | _ => True
  end.

Lemma with_schedule_id (p : Publisher (Rng := Rng)) : with_schedule p (group_schedule p) = p.
Proof. by destruct p. Qed.

(** A group of the schedule sends a message. *)
Lemma group_emits p I C k g out inv' conf' :
  publisher_ok p I C → is_Some (group_schedule p !! k) → group_ok (scheduling_cfg p) k inv' conf' g →
  emits k (default [] (I !! k)) (C !! k) out inv' conf' →
  let IC := record_out (I, C) out in publisher_ok (with_schedule p (<[k := g]> (group_schedule p))) IC.1 IC.2 ∧ out_ok C out.
Proof.
  intros [Hcfg (n & Hcons & Hpast) Hg Hinv Hnodes Hround Hst Hcur] Hk Hgok Hem IC.
  assert (k < span_end (round_span (curr_group p)) + Z.of_nat n * cfg_round_span (scheduling_cfg p)) as Hkn.
  { apply Hcons in Hk as (i & Hi & ->). pose proof (ck_span _ Hcfg). nia. }
  assert (default [] (IC.1 !! k) = inv' ∧ IC.2 !! k = conf' ∧ (∀ k', k' ≠ k → IC.1 !! k' = I !! k' ∧ IC.2 !! k' = C !! k') ∧ out_ok C out)
    as (HI & HC & Hother & Hout).
  { unfold IC, record_out. destruct out as [[[pg| |c] nodes]|]; cbn in Hem |- *; [..|by destruct Hem as [-> ->]].
    - destruct Hem as (<- & -> & ->). split; [by rewrite lookup_insert_eq|]. split; [done|]. split; [|done]. intros k' Hne. by rewrite lookup_insert_ne.
    - done.
    - destruct Hem as (<- & -> & Hnd & -> & Hnone & ->). split; [done|]. split; [by rewrite lookup_insert_eq|]. split; [|done].
      intros k' Hne. by rewrite lookup_insert_ne. }
  split; [|done]. constructor; cbn; try done.
  - exists n. split; [by apply consecutive_update|]. intros k' Hk'. destruct (decide (k' = k)) as [->|Hne]; [done|].
    destruct (Hother k' Hne) as [H1 H2]. rewrite H1, H2 in Hk'. by apply Hpast.
  - intros k' g' Hk'. destruct (decide (k' = k)) as [->|Hne].
    + rewrite lookup_insert_eq in Hk'. injection Hk' as <-. by rewrite HI, HC.
    + rewrite lookup_insert_ne in Hk' by done. destruct (Hother k' Hne) as [-> ->]. by apply Hg.
  - intros k'. destruct (decide (k' = k)) as [->|Hne]; [|rewrite (proj1 (Hother k' Hne)); apply Hinv].
    intros Hd. rewrite HI, (go_invited _ _ _ _ _ Hgok). eapply sublist_NoDup; [apply (go_candidates _ _ _ _ _ Hgok Hd)|apply sublist_take].
  - intros k' _. by apply (Hst k).
  - intros P. destruct (decide (span_start (round_span (curr_group p)) = k)) as [Heq|Hne]; [|rewrite (proj2 (Hother _ Hne)); apply Hcur].
    exfalso. pose proof (Hst k Hk). apply Hcons in Hk as (i & _ & ->). pose proof (ck_span _ Hcfg). nia.
Qed.

Lemma advance_schedule_spec p I C t groups :
  publisher_ok p I C → round_ok (scheduling_cfg p) t → (∀ k g, (k, g) ∈ groups → group_schedule p !! k = Some g) →
  ∃ p' out, advance_schedule p t groups = Ret (p', out) ∧
    (let IC := record_out (I, C) out in publisher_ok p' IC.1 IC.2 ∧ out_ok C out) ∧ (out = None → p' = p) ∧ pub_curr_round p' = pub_curr_round p ∧
    scheduling_cfg p' = scheduling_cfg p.
Proof.
  intros Hp Hr. induction groups as [|[k g] groups IH]; intros Hin; cbn [advance_schedule]; [by exists p, None|].
  pose proof (Hin k g ltac:(left)) as Hk.
  destruct (advance_invites_spec (scheduling_cfg p) k (default [] (I !! k)) (C !! k) g t (validator_node_id p)) as
    (g' & out & inv' & conf' & -> & Hg' & Hem & Hnone); [apply Hp|done|by apply (po_groups _ _ _ Hp)|]. cbn [mbind exec_bind].
  destruct out as [o|].
  - eexists _, (Some o). split; [done|]. split; [by eapply group_emits|]. done.
  - rewrite (Hnone eq_refl), insert_id by done. rewrite with_schedule_id. apply IH. intros k' g'' Hin'. apply Hin. by right.
Qed.

Lemma schedule_end_spec p I C n :
  publisher_ok p I C → consecutive (cfg_round_span (scheduling_cfg p)) (span_end (round_span (curr_group p))) n (group_schedule p) →
  match last (btree_iter (group_schedule p)) with
  | Some (_, grp) => gp_end_round grp
  | None => span_end (round_span (curr_group p))
  end = span_end (round_span (curr_group p)) + Z.of_nat n * cfg_round_span (scheduling_cfg p).
Proof.
  intros Hp Hcons. pose proof (ck_span _ (po_cfg _ _ _ Hp)) as Hspan. pose proof (btree_last (group_schedule p)) as Hl.
  destruct (last _) as [[k g]|].
  - destruct Hl as [Hk Hmax]. rewrite (go_end _ _ _ _ _ (po_groups _ _ _ Hp k g Hk)). by eapply schedule_last.
  - destruct n as [|n]; [lia|]. destruct (proj2 (Hcons (span_end (round_span (curr_group p))))) as [g Hg]; [exists 0%nat; lia|].
    by rewrite Hl, lookup_empty in Hg.
Qed.

(** A new group at the end of the schedule. *)
Lemma new_group_ok p I C n rng g :
  publisher_ok p I C → consecutive (cfg_round_span (scheduling_cfg p)) (span_end (round_span (curr_group p))) n (group_schedule p) →
  span_start (round_span (curr_group p)) < span_end (round_span (curr_group p)) →
  let k := span_end (round_span (curr_group p)) + Z.of_nat n * cfg_round_span (scheduling_cfg p) in
  (∀ k', is_Some (I !! k') ∨ is_Some (C !! k') → k' < k) →
  group_ok (scheduling_cfg p) k [] None g → publisher_ok (with_schedule (with_rng p rng) (<[k := g]> (group_schedule p))) I C.
Proof.
  intros [Hcfg _ Hg Hinv Hnodes Hround Hst Hcur] Hcons Hlt k Hpast Hgok. pose proof (ck_span _ Hcfg) as Hspan. constructor; cbn; try done.
  - exists (S n). split; [by apply consecutive_insert|]. intros k' Hk'. specialize (Hpast k' Hk'). lia.
  - intros k' g' Hk'. destruct (decide (k = k')) as [<-|Hne].
    + rewrite lookup_insert_eq in Hk'. injection Hk' as <-.
      destruct (I !! k) eqn:HI; [specialize (Hpast k (or_introl (mk_is_Some _ _ HI))); lia|].
      destruct (C !! k) eqn:HC; [specialize (Hpast k (or_intror (mk_is_Some _ _ HC))); lia|]. done.
    + rewrite lookup_insert_ne in Hk' by done. by apply Hg.
Qed.

Lemma step_until_spec p I C t :
  publisher_ok p I C → round_ok (scheduling_cfg p) t → span_start (round_span (curr_group p)) < span_end (round_span (curr_group p)) →
  ∃ p' out, step_until shuffle p t = Ret (p', out) ∧
    (let IC := record_out (I, C) out in publisher_ok p' IC.1 IC.2 ∧ out_ok C out) ∧ pub_curr_round p' = pub_curr_round p ∧
    scheduling_cfg p' = scheduling_cfg p.
Proof.
  intros Hp Hr Hlt. unfold step_until. pose proof Hp as [Hcfg (n & Hcons & Hpast) _ _ Hnodes _ _ _]. pose proof Hr as [H0 Hr'].
  pose proof Hcfg as [Hspan ? ? ? ?].
  rewrite (schedule_end_spec p I C n Hp Hcons). set (k := span_end _ + _) in *.
  destruct (advance_schedule_spec p I C t (btree_iter (group_schedule p)) Hp Hr) as (p1 & out & -> & Hok & Hnone & Hcr & Hsc).
  { intros k' g. apply elem_of_btree_iter. }
  cbn [mbind exec_bind]. destruct out as [o|]; [by exists p1, (Some o)|]. rewrite (Hnone eq_refl) in *. clear p1 Hnone Hcr Hsc Hok.
  rewrite (checked_add_ok _ _ _ : _ → round_add _ _ = _) by (unfold Round_MAX in *; lia). cbn [mbind exec_bind].
  case_bool_decide as Hk; [|by exists p, None]. unfold new_randomized.
  rewrite (checked_add_ok _ _ _ : _ → round_add _ _ = _) by (unfold Round_MAX in *; lia). cbn [mbind exec_bind].
  pose proof (Hshuffle (rng p) (peer_disc_full_nodes p)) as Hsh. destruct (shuffle _ _) as [nodes rng']. cbn [fst] in Hsh. cbn [mbind exec_bind].
  set (g := mkGroupAsPublisher _ _ _ _ _ _ _).
  assert (group_ok (scheduling_cfg p) k [] None g) as Hg.
  { constructor; cbn; try done; [constructor|by intros ? ?%elem_of_nil|intros Hd; rewrite Hsh; by apply Hnodes|lia]. }
  pose proof (new_group_ok p I C n rng' g Hp Hcons Hlt Hpast Hg) as Hp1. fold k in Hp1.
  destruct (advance_invites_spec (scheduling_cfg p) k [] None g t (validator_node_id p) Hcfg Hr Hg) as (g' & out & inv' & conf' & -> & Hg' & Hem & _).
  cbn [mbind exec_bind]. rewrite (go_start _ _ _ _ _ Hg'). eexists _, out. split; [done|]. split; [|done].
  destruct (group_emits _ I C k g' out inv' conf' Hp1) as [Hok Hout]; try done.
  - cbn. rewrite lookup_insert_eq. by eexists.
  - destruct (po_groups _ _ _ Hp1 k g) as [_ _ _ _ _ _ Hi Hl]; [cbn; by rewrite lookup_insert_eq|]. rewrite Hi, Hl. exact Hem.
  - split; [|done]. cbn in Hok. rewrite insert_insert_eq in Hok. exact Hok.
Qed.

(** ** Runs *)

Inductive PublisherOp :=
| PubRound (round : Round)
| PubResponse (msg : FullNodesGroupMessage R)
| PubNodes (full_nodes : list NodeId)
| PubPrioritized (prioritized : list NodeId).

Definition publisher_op (p : Publisher (Rng := Rng)) (op : PublisherOp) : exec (Publisher (Rng := Rng) * output) :=
  match op with
  | PubRound round => enter_round_and_step_until shuffle p round
  | PubResponse msg => Ret (on_candidate_response p msg, None)
  | PubNodes full_nodes => Ret (upsert_peer_disc_full_nodes p full_nodes, None)
  | PubPrioritized prioritized => Ret (update_always_ask_full_nodes p prioritized, None)
  end.

Fixpoint publisher_run (p : Publisher (Rng := Rng)) (ops : list PublisherOp) : exec (Publisher (Rng := Rng) * list output) :=
  match ops with
  | [] => Ret (p, [])
  | op :: ops => '(p, out) ← publisher_op p op; '(p, outs) ← publisher_run p ops; Ret (p, out :: outs)
  end.

Definition publisher_op_ok (cfg : GroupSchedulingConfig) (op : PublisherOp) : Prop :=
  match op with PubRound round => round_ok cfg round | _ => True end.
Definition distinct_op (op : PublisherOp) : Prop :=
  match op with PubPrioritized prioritized => distinct → NoDup prioritized | _ => True end.

Lemma candidate_response_ok cfg k inv conf g candidate accepted :
  group_ok cfg k inv conf g → group_ok cfg k inv conf (candidate_response g candidate accepted).
Proof.
  intros Hg. pose proof Hg as [Hs He Ha Hm Hc Hsent Hi Hl]. unfold candidate_response. destruct (is_locked g) eqn:Hul; [done|].
  case_bool_decide as Hin; [done|]. case_bool_decide as Hin'; [done|].
  destruct accepted; constructor; cbn [full_nodes_accepted full_nodes_candidates num_invites_sent gp_start_round gp_end_round]; try done;
    try (change (is_locked _) with (is_locked g); by rewrite Hul).
  - apply NoDup_app. split; [done|]. split; [|apply NoDup_singleton]. by intros x Hx ->%list_elem_of_singleton.
  - intros x [Hx| ->%list_elem_of_singleton]%elem_of_app; [by apply Hm|done].
Qed.

Lemma on_candidate_response_ok p I C (msg : FullNodesGroupMessage R) :
  publisher_ok p I C → publisher_ok (on_candidate_response p msg) I C ∧ pub_curr_round (on_candidate_response p msg) = pub_curr_round p ∧
    scheduling_cfg (on_candidate_response p msg) = scheduling_cfg p.
Proof.
  intros Hp. destruct msg as [|resp|]; cbn; [done| |done]. destruct (group_schedule p !! _) as [g|] eqn:Hg; [|done]. split; [|done].
  destruct (group_emits p I C _ (candidate_response g (pr_node_id resp) (pr_accept resp)) None _ _ Hp (mk_is_Some _ _ Hg)
    (candidate_response_ok _ _ _ _ _ _ _ (po_groups _ _ _ Hp _ _ Hg)) (conj eq_refl eq_refl)) as [Hok _]. exact Hok.
Qed.

Lemma upsert_ok p I C nodes :
  publisher_ok p I C → publisher_ok (upsert_peer_disc_full_nodes p nodes) I C ∧
    pub_curr_round (upsert_peer_disc_full_nodes p nodes) = pub_curr_round p ∧
    scheduling_cfg (upsert_peer_disc_full_nodes p nodes) = scheduling_cfg p.
Proof.
  unfold upsert_peer_disc_full_nodes. revert p. induction nodes as [|x nodes IH]; intros p Hp; cbn [foldl]; [done|].
  case_bool_decide as H1; cbn [orb]; [by apply IH|]. case_bool_decide as H2; cbn [orb]; [by apply IH|].
  case_bool_decide as H3; [by apply IH|]. destruct (IH (with_peer_disc p (peer_disc_full_nodes p ++ [x]))) as (? & ? & ?); [|done].
  destruct Hp as [Hcfg Hsch Hg Hinv Hnodes Hround Hst Hcur]. constructor; cbn; try done. intros Hd. specialize (Hnodes Hd). rewrite app_assoc. apply NoDup_app.
  split; [done|]. split; [|apply NoDup_singleton]. intros y [?|?]%elem_of_app ->%list_elem_of_singleton; done.
Qed.

Lemma update_always_ask_ok p I C nodes :
  publisher_ok p I C → (distinct → NoDup nodes) → publisher_ok (update_always_ask_full_nodes p nodes) I C.
Proof.
  intros [Hcfg Hsch Hg Hinv Hnodes Hround Hst Hcur] Hnd. constructor; cbn; try done. intros Hd. specialize (Hnd Hd).
  apply NoDup_app in Hnodes as (_ & _ & Hnodes); [|done].
  apply NoDup_app. split; [done|]. split; [|by apply NoDup_filter]. by intros x Hx [? _]%list_elem_of_filter.
Qed.

Lemma publisher_op_spec p I C op :
  publisher_ok p I C → publisher_op_ok (scheduling_cfg p) op → distinct_op op →
  ∃ p' out, publisher_op p op = Ret (p', out) ∧ (let IC := record_out (I, C) out in publisher_ok p' IC.1 IC.2 ∧ out_ok C out) ∧
    scheduling_cfg p' = scheduling_cfg p.
Proof.
  intros Hp Hop Hdist. destruct op as [r|msg|nodes|nodes]; cbn [publisher_op].
  - unfold enter_round_and_step_until. case_bool_decide as Hr; [by exists p, None|]. pose proof Hop as [H0 Hmax].
    pose proof (po_cfg _ _ _ Hp) as [? ? ? ? ?].
    rewrite (checked_add_ok _ _ _ : _ → round_add _ _ = _) by (unfold Round_MAX in *; lia). cbn [mbind exec_bind].
    destruct (publisher_enter_round_spec p I C r Hp Hop ltac:(lia)) as (p1 & -> & Hp1 & Hr1 & Hcfg & Hlt). cbn [mbind exec_bind].
    destruct (step_until_spec p1 I C r Hp1 ltac:(by rewrite Hcfg) Hlt) as (p' & out & -> & Hok & _ & Hcfg'). exists p', out.
    split; [done|]. split; [done|]. by rewrite Hcfg'.
  - destruct (on_candidate_response_ok p I C msg Hp) as (? & _ & ?). by eexists _, None.
  - destruct (upsert_ok p I C nodes Hp) as (? & _ & ?). by eexists _, None.
  - eexists _, None. split; [done|]. split; [|done]. split; [by apply update_always_ask_ok|done].
Qed.

(** The nodes invited to the group of round [k], and the confirmations of it. *)
Definition invited_to (k : Round) (outs : list output) : list NodeId :=
  concat (map (λ out : output, match out with
                               | Some (FNG_PrepareGroup pg, nodes) => if bool_decide (pg_start_round pg = k) then nodes else []
                               | _ => []
                               end) outs).
Definition confirmations (k : Round) (outs : list output) : list (ConfirmGroup R * list NodeId) :=
  omap (λ out : output, match out with
                        | Some (FNG_ConfirmGroup c, nodes) => if bool_decide (pg_start_round (cg_prepare c) = k) then Some (c, nodes) else None
                        | _ => None
                        end) outs.

Lemma publisher_run_spec p I C ops :
  publisher_ok p I C → Forall (publisher_op_ok (scheduling_cfg p)) ops → Forall distinct_op ops →
  ∃ p' outs I' C', publisher_run p ops = Ret (p', outs) ∧ publisher_ok p' I' C' ∧ scheduling_cfg p' = scheduling_cfg p ∧
    ∀ k, default [] (I' !! k) = default [] (I !! k) ++ invited_to k outs ∧
      match C !! k with
      | Some P => C' !! k = Some P ∧ confirmations k outs = []
      | None => (C' !! k = None ∧ confirmations k outs = []) ∨
          ∃ c, C' !! k = Some (cg_peers c) ∧ NoDup (cg_peers c) ∧ confirmations k outs = [(c, cg_peers c)]
      end.
Proof.
  intros Hp Hops Hdist. revert p I C Hp Hops. induction ops as [|op ops IH]; intros p I C Hp Hops; cbn [publisher_run].
  { exists p, [], I, C. split; [done|]. split; [done|]. split; [done|]. intros k. split; [by rewrite app_nil_r|]. destruct (C !! k); [done|by left]. }
  apply Forall_cons in Hops as [Hop Hops], Hdist as [Hd Hdist].
  destruct (publisher_op_spec p I C op Hp Hop Hd) as (p1 & out & -> & [Hp1 Hout] & Hcfg).
  cbn [mbind exec_bind]. rewrite <-Hcfg in Hops. destruct (IH Hdist p1 _ _ Hp1 Hops) as (p' & outs & I' & C' & -> & Hp' & Hcfg' & Hall). cbn [mbind exec_bind].
  exists p', (out :: outs), I', C'. split; [done|]. split; [done|]. split; [congruence|]. intros k. destruct (Hall k) as [HI HC]. clear Hall IH.
  destruct out as [[[pg| |c] nodes]|]; cbn in HI, HC, Hout |- *; try done.
  - split; [|done]. rewrite HI. case_bool_decide as Hk.
    + rewrite <-Hk, lookup_insert_eq. cbn. by rewrite app_assoc.
    + by rewrite lookup_insert_ne.
  - destruct Hout as (-> & Hnd & Hnone). split; [done|]. case_bool_decide as Hk.
    + rewrite <-Hk in *. rewrite lookup_insert_eq in HC. rewrite Hnone. destruct HC as [HC Hc]. right. exists c. split; [done|]. split; [done|].
      by rewrite <-Hc.
    + by rewrite lookup_insert_ne in HC.
Qed.

Lemma dedup_nodes_ok seen l : NoDup (dedup_nodes seen l) ∧ ∀ x, x ∈ dedup_nodes seen l → x ∉ seen.
Proof.
  revert seen. induction l as [|x l IH]; intros seen; cbn [dedup_nodes]; [split; [constructor|by intros ? ?%elem_of_nil]|].
  case_bool_decide as Hx; [apply IH|]. destruct (IH ({[x]} ∪ seen)) as [Hnd Hns]. split.
  - constructor; [|done]. intros Hin%Hns. set_solver.
  - intros y [->|Hy%Hns]%elem_of_cons; set_solver.
Qed.

Lemma publisher_new_ok v prioritized cfg rng p :
  cfg_ok cfg → publisher_new v prioritized cfg rng = Ret p → publisher_ok p ∅ ∅ ∧ scheduling_cfg p = cfg.
Proof.
  intros Hcfg Hnew. unfold publisher_new in Hnew. apply bind_Ret_inv in Hnew as (min & _ & Hnew).
  apply bind_Ret_inv in Hnew as ([] & _ & Hnew). apply bind_Ret_inv in Hnew as ([] & _ & [= <-]). split; [|done].
  constructor; cbn [scheduling_cfg curr_group group_schedule always_ask_full_nodes peer_disc_full_nodes pub_curr_round].
  - done.
  - exists 0%nat. split; [|intros k; rewrite !lookup_empty; intros [[]|[]]; done]. intros k. rewrite lookup_empty. split; [by intros []|].
    intros (i & Hi & _). lia.
  - intros k g. by rewrite lookup_empty.
  - intros k _. rewrite lookup_empty. constructor.
  - intros _. rewrite app_nil_r. apply dedup_nodes_ok.
  - cbn. lia.
  - intros k. rewrite lookup_empty. by intros [].
  - intros P. by rewrite lookup_empty.
Qed.

End publisher.

(** C15. A publisher schedules groups of full nodes without gaps. Over every sequence
    of rounds that leave room for the sums of the configuration, of responses, forged
    or late, of newly found nodes and of new lists of prioritized nodes it does not
    panic; the scheduled groups follow the current one back to back; its round is
    within the current group or the one after it; a group is confirmed at most once,
    to exactly the nodes that the confirmation names, each once, and these are the
    members when it becomes current. A node is invited to a group at most once, as
    long as no new list of prioritized nodes names a node twice: only the list the
    publisher starts with is freed of repetitions. The groups have at least one
    round, and the shuffle is a permutation. *)
Theorem publisher_schedule_correct {R Rng : Type} (shuffle : Rng → list NodeId → list NodeId * Rng)
    (Hshuffle : ∀ r l, (shuffle r l).1 ≡ₚ l)
    (v : NodeId) (prioritized : list NodeId) (cfg : GroupSchedulingConfig) (rng : Rng)
    (p0 : Publisher (Rng := Rng)) (ops : list (PublisherOp (R := R)))
    (Hcfg : cfg_ok cfg) (Hnew : publisher_new v prioritized cfg rng = Ret p0) (Hops : Forall (publisher_op_ok cfg) ops) :
  ∃ p outs, publisher_run shuffle p0 ops = Ret (p, outs) ∧
    let span := round_span (curr_group p) in
    (∃ n, consecutive (cfg_round_span cfg) (span_end span) n (group_schedule p)) ∧
    span_start span <= pub_curr_round p <= span_end span ∧
    ∀ k, ((∀ l, PubPrioritized l ∈ ops → NoDup l) → NoDup (invited_to k outs)) ∧
      (confirmations k outs = [] ∨
       ∃ c, confirmations k outs = [(c, cg_peers c)] ∧ NoDup (cg_peers c) ∧
         (span_start span = k → sorted_other_peers (curr_group p) ≡ₚ cg_peers c)).
Proof.
  set (distinct := ∀ l, PubPrioritized l ∈ ops → NoDup l).
  destruct (publisher_new_ok shuffle Hshuffle distinct _ _ _ _ _ Hcfg Hnew) as [Hp0 Heq]. rewrite <-Heq in Hops.
  destruct (publisher_run_spec shuffle Hshuffle distinct p0 ∅ ∅ ops Hp0 Hops)
    as (p & outs & I & C & Hrun & [_ (n & Hn & _) _ Hinv _ Hround _ Hcur] & Hc & Hall).
  { apply Forall_forall. intros [] Hin; try done. intros Hd. by apply Hd. }
  rewrite Hc, Heq in Hn. exists p, outs. split; [done|]. split; [by exists n|]. split; [done|]. intros k. destruct (Hall k) as [HI HC].
  rewrite !lookup_empty in HI, HC. cbn in HI. split; [rewrite <-HI; apply Hinv|]. destruct HC as [[_ HC]|(c & HC & Hnd & Hconf)]; [by left|right].
  exists c. split; [done|]. split; [done|]. intros <-. by apply Hcur.
Qed.

(** * A schedule *)

Definition keep_order (rng : unit) (nodes : list NodeId) : list NodeId * unit := (nodes, rng).
Definition small_cfg : GroupSchedulingConfig := mkGroupSchedulingConfig 2 5 8 2 3 7.
Definition small_publisher : Publisher (Rng := unit) := mkPublisher 0 small_cfg ∅ [11; 12] [] tt Round_MIN group_default.
Definition reply (node : NodeId) (start : Round) : PublisherOp (R := unit) :=
  PubResponse (FNG_PrepareGroupResponse (mkPrepareGroupResponse (mkPrepareGroup 0 2 start (start + 5)) node true)).

(** The group of rounds 8 to 13 is confirmed to nodes 11 and 13, the one that comes
    first is empty. *)
Definition small_ops : list (PublisherOp (R := unit)) :=
  [PubNodes [12; 13; 14]; PubPrioritized [11; 12]; PubRound 1; reply 11 8; PubRound 3; reply 13 8; PubRound 5; PubRound 8].

Lemma publisher_schedule_correct_witness :
  publisher_new 0 [11; 12; 11] small_cfg tt = Ret small_publisher ∧
  ∃ p outs, publisher_run keep_order small_publisher small_ops = Ret (p, outs) ∧
    invited_to 8 outs = [11; 12; 13] ∧ NoDup (invited_to 8 outs) ∧
    confirmations 8 outs = [(mkConfirmGroup unit (mkPrepareGroup 0 2 8 13) [11; 13] [], [11; 13])] ∧
    get_current_raptorcast_group p = Some (mkGroup (Some 0) (mkRoundSpan 8 13) [11; 13]).
Proof.
  split; [done|].
  destruct (publisher_schedule_correct (R := unit) keep_order (λ _ _, reflexivity _) 0 [11; 12; 11] small_cfg tt small_publisher small_ops)
    as (p & outs & Hrun & _ & _ & Hall); [by constructor|done|repeat constructor; done|].
  exists p, outs. split; [exact Hrun|]. destruct (Hall 8) as [Hnd _]. clear Hall. split; [|split].
  - vm_compute in Hrun. injection Hrun as <- <-. reflexivity.
  - apply Hnd. intros l Hin. rewrite list_elem_of_In in Hin. cbn in Hin. assert (l = [11; 12]) as -> by (clear -Hin; naive_solver).
    vm_decide.
  - vm_compute in Hrun. injection Hrun as <- <-. split; reflexivity.
Defined.

(** A new list of prioritized nodes that names a node twice has it invited twice. *)
Example prioritized_invited_twice :
  ∃ p outs, publisher_run (R := unit) keep_order small_publisher [PubPrioritized [11; 12; 11]; PubRound 1; PubRound 3] = Ret (p, outs) ∧
    invited_to 8 outs = [11; 12; 11].
Proof. eexists _, _. split; [by vm_compute|]. by vm_compute. Qed.

(** A group is kept in the round after its last, since [end_round] is exclusive: after
    a jump from round 6 to round 13 the group of rounds 8 to 13 becomes current, and
    round 13 has no group, though the next one is scheduled for it. *)
Example ended_group_kept :
  ∃ p outs, publisher_run keep_order small_publisher
      [PubNodes [13]; PubRound 1; reply 11 8; reply 12 8; PubRound 3; PubRound 6; reply 11 13; PubRound 13] = Ret (p, outs) ∧
    get_current_raptorcast_group p = None ∧ full_nodes_accepted <$> group_schedule p !! 13 = Some [11].
Proof. eexists _, _. split; [by vm_compute|]. by vm_compute. Qed.

(** Nodes that answer late make a group larger than its invitations promise. *)
Example late_answers_exceed_size :
  ∃ p outs, publisher_run keep_order small_publisher
      [PubNodes [13; 14]; PubRound 1; PubRound 3; reply 11 8; reply 12 8; reply 13 8; reply 14 8; PubRound 5] = Ret (p, outs) ∧
    confirmations 8 outs = [(mkConfirmGroup unit (mkPrepareGroup 0 2 8 13) [11; 12; 13; 14] [], [11; 12; 13; 14])].
Proof. eexists _, _. split; [by vm_compute|]. by vm_compute. Qed.
