(* ===== verification/RaptorcastClientProps.v ===== *)
(** A client of groups of full nodes is in no more groups than it may be, and only in
    groups that it was invited to, agreed to and got confirmed. *)

From S2P Require Import Prelude Types ValidatorSet Crypto RaptorcastGroups RaptorcastSecondary.

#[local] Open Scope Z_scope.

(** What is relied on of interval maps: a map is a bag of intervals with values. *)
Class IntervalMapLaws {V : Type} (IM : IntervalMap V) := {
  interval_view : interval_map V → list ((Round * Round) * V);
  iview_new : interval_view interval_new = [];
  iview_values m a b : a < b → interval_values m a b ≡ₚ (filter (λ e, e.1.1 < b ∧ a < e.1.2) (interval_view m)).*2;
  iview_intervals m b : interval_intervals_to m b ≡ₚ (filter (λ e, e.1.1 < b) (interval_view m)).*1;
  iview_remove m iv : iv ∈ (interval_view m).*1 → ∃ v, interval_view m ≡ₚ (iv, v) :: interval_view (interval_remove m iv);
  iview_force_insert m iv v : iv.1 < iv.2 → interval_view (interval_force_insert m iv v) ≡ₚ (iv, v) :: interval_view m;
}.

(** * Pending invitations *)

Definition invites_of (x : gmap NodeId PrepareGroup) : list PrepareGroup := (btree_iter x).*2.
Definition pending_invites (m : gmap Round (gmap NodeId PrepareGroup)) : list PrepareGroup :=
  concat (map (λ kv, invites_of kv.2) (btree_iter m)).

Lemma invites_of_split x v : invites_of x ≡ₚ option_list (x !! v) ++ invites_of (delete v x).
Proof.
  unfold invites_of. rewrite !btree_iter_perm. destruct (x !! v) as [a|] eqn:Hv; [|by rewrite delete_id].
  by rewrite <-(map_to_list_delete x v a Hv).
Qed.

Lemma pending_perm m : pending_invites m ≡ₚ concat (map (λ kv, invites_of kv.2) (map_to_list m)).
Proof. unfold pending_invites. by rewrite btree_iter_perm. Qed.

Lemma pending_split m k : pending_invites m ≡ₚ invites_of (default ∅ (m !! k)) ++ pending_invites (delete k m).
Proof.
  rewrite !pending_perm. destruct (m !! k) as [x|] eqn:Hk; [|by rewrite delete_id].
  by rewrite <-(map_to_list_delete m k x Hk).
Qed.

Lemma pending_insert m k x : pending_invites (<[k := x]> m) ≡ₚ invites_of x ++ pending_invites (delete k m).
Proof. rewrite (pending_split _ k), lookup_insert_eq, delete_insert_eq. done. Qed.

Lemma elem_of_pending m pg : pg ∈ pending_invites m ↔ ∃ k x v, m !! k = Some x ∧ x !! v = Some pg.
Proof.
  unfold pending_invites, invites_of. rewrite elem_of_concat_map. split.
  - intros ([k x] & Hx%elem_of_btree_iter & Hin). apply list_elem_of_fmap in Hin as ([v pg'] & -> & Hv%elem_of_btree_iter). by exists k, x, v.
  - intros (k & x & v & Hk & Hv). exists (k, x). split; [by apply elem_of_btree_iter|]. apply list_elem_of_fmap. exists (v, pg).
    split; [done|]. by apply elem_of_btree_iter.
Qed.

Definition tally {A} (P : A → Prop) `{∀ x, Decision (P x)} (l : list A) : Z := Z.of_nat (length (filter P l)).

Section tally.
Context {A : Type} (P : A → Prop) `{∀ x, Decision (P x)}.

Lemma tally_perm l l' : l ≡ₚ l' → tally P l = tally P l'.
Proof. intros Hl. unfold tally. by rewrite Hl. Qed.
Lemma tally_app l l' : tally P (l ++ l') = tally P l + tally P l'.
Proof. unfold tally. rewrite filter_app, length_app. lia. Qed.
Lemma tally_cons x l : tally P (x :: l) = (if decide (P x) then 1 else 0) + tally P l.
Proof. unfold tally. rewrite filter_cons. case_decide; simpl; lia. Qed.
Lemma tally_nonneg l : 0 <= tally P l.
Proof. unfold tally. lia. Qed.
Lemma tally_none l : (∀ x, x ∈ l → ¬ P x) → tally P l = 0.
Proof.
  intros Hl. induction l as [|x l IH]; [done|]. rewrite tally_cons. assert (¬ P x) as Hx by (apply Hl; left). rewrite decide_False by done.
  rewrite IH; [done|]. intros y Hy. apply Hl. by right.
Qed.
End tally.

Lemma tally_le {A} (P Q : A → Prop) `{∀ x, Decision (P x)} `{∀ x, Decision (Q x)} l : (∀ x, x ∈ l → P x → Q x) → tally P l <= tally Q l.
Proof.
  intros Hl. induction l as [|x l IH]; [done|]. rewrite !tally_cons. pose proof (Hl x ltac:(left)). specialize (IH (λ y Hy, Hl y ltac:(by right))).
  destruct (decide (P x)), (decide (Q x)); try lia; tauto.
Qed.

Lemma tally_filter {A} (P Q : A → Prop) `{∀ x, Decision (P x)} `{∀ x, Decision (Q x)} l : tally P (filter Q l) <= tally P l.
Proof.
  induction l as [|x l IH]; [done|]. rewrite filter_cons, tally_cons. case_decide; rewrite ?tally_cons; case_decide; lia.
Qed.

Lemma pending_filter_tally (Q : PrepareGroup → Prop) `{∀ x, Decision (Q x)} (r : Round) m :
  tally Q (pending_invites (filter (λ kv : Round * gmap NodeId PrepareGroup, kv.1 > r) m)) <= tally Q (pending_invites m).
Proof.
  induction m as [|k x m Hk IH] using map_ind; [by rewrite map_filter_empty|].
  rewrite (tally_perm Q (pending_invites (<[k := x]> m)) _ (pending_insert m k x)), delete_id, tally_app by done.
  destruct (decide (k > r)) as [Hr|Hr].
  - rewrite map_filter_insert_True by done. rewrite (tally_perm Q _ _ (pending_insert _ k x)), tally_app.
    rewrite delete_id; [lia|]. by apply map_lookup_filter_None_2; left.
  - rewrite map_filter_insert_not by (intros y; done). pose proof (tally_nonneg Q (invites_of x)). lia.
Qed.

(** * Interval maps *)

Lemma remove_started {V} `{IL : !IntervalMapLaws (V := V) IM} b (l : list (Round * Round)) m :
  l ≡ₚ (filter (λ e, e.1.1 < b) (interval_view m)).*1 →
  interval_view (foldl interval_remove m l) ≡ₚ filter (λ e, ¬ e.1.1 < b) (interval_view m).
Proof.
  revert m. induction l as [|iv l IH]; intros m Hl; cbn [foldl].
  - symmetry in Hl. apply Permutation_nil_r, fmap_nil_inv in Hl. apply Permutation_refl'. symmetry. apply filter_all.
    intros e He Hb. assert (e ∈ filter (λ e, e.1.1 < b) (interval_view m)) as Hin by (by apply list_elem_of_filter).
    rewrite Hl in Hin. by apply elem_of_nil in Hin.
  - assert (iv ∈ (filter (λ e, e.1.1 < b) (interval_view m)).*1) as Hiv by (rewrite <-Hl; left).
    apply list_elem_of_fmap in Hiv as ([iv' v'] & -> & [Hb Hin]%list_elem_of_filter). cbn in Hb.
    destruct (iview_remove m iv') as (v & Hv); [apply list_elem_of_fmap; by exists (iv', v')|].
    rewrite (IH (interval_remove m iv')).
    + rewrite Hv, filter_cons_False; [done|]. cbn. tauto.
    + rewrite Hv, filter_cons_True in Hl by done. by apply Permutation_cons_inv in Hl.
Qed.

(** * The invariant *)

Section client.
Context {R : Type} `{IM : !IntervalMap Group} `{IL : !IntervalMapLaws IM}.

Definition covers (r : Round) (pg : PrepareGroup) : Prop := pg_start_round pg <= r < pg_end_round pg.
#[global] Instance covers_dec r pg : Decision (covers r pg).
Proof. unfold covers. apply _. Defined.
Definition covered (r : Round) (e : (Round * Round) * Group) : Prop := e.1.1 <= r < e.1.2.
#[global] Instance covered_dec r e : Decision (covered r e).
Proof. unfold covered. apply _. Defined.

(** The groups, confirmed or not, of a round. *)
Definition groups_in (c : Client) (r : Round) : Z :=
  tally (covered r) (interval_view (confirmed_groups c)) + tally (covers r) (pending_invites (pending_confirms c)).

(** A group that the client agreed to, and that was confirmed: [A] are the
    invitations it accepted, [Cs] the confirmations it received. *)
Definition agreed (client : NodeId) (cfg : ClientConfig) (A : list PrepareGroup) (Cs : list (ConfirmGroup R)) (g : Group) : Prop :=
  ∃ c, c ∈ Cs ∧ cg_prepare c ∈ A ∧ client ∈ cg_peers c ∧ Z.of_nat (length (cg_peers c)) <= max_group_size cfg ∧
    new_fullnode_group (cg_peers c) client (pg_validator_id (cg_prepare c))
      (mkRoundSpan (pg_start_round (cg_prepare c)) (pg_end_round (cg_prepare c))) = Ret g.

Record client_ok (c : Client) (A : list PrepareGroup) (Cs : list (ConfirmGroup R)) : Prop := {
  cl_max : 0 < max_num_group (client_config c);
  cl_pending k x v pg : pending_confirms c !! k = Some x → x !! v = Some pg →
    pg_start_round pg = k ∧ pg_validator_id pg = v ∧ k < pg_end_round pg ∧ pg_max_group_size pg <= max_group_size (client_config c) ∧ pg ∈ A;
  cl_confirmed iv g : (iv, g) ∈ interval_view (confirmed_groups c) → iv.1 < iv.2 ∧ round_span g = mkRoundSpan iv.1 iv.2 ∧
    agreed (client_node_id c) (client_config c) A Cs g;
  cl_groups r : groups_in c r <= max_num_group (client_config c);
}.

Lemma new_fullnode_group_total peers client v span :
  client ∈ peers → ∃ g, new_fullnode_group peers client v span = Ret g ∧ validator_id g = Some v ∧ round_span g = span.
Proof.
  intros Hin. unfold new_fullnode_group. case_bool_decide as Hne; [|by eexists].
  apply list_elem_of_lookup in Hin as [i Hi].
  destruct (list_find (λ peer, peer = client) peers) as [[j x]|] eqn:Hf.
  - cbn [fmap option_fmap option_map expect fst mbind exec_bind]. apply list_find_Some in Hf as (Hj & _ & _).
    destruct (swap_remove_perm peers j) as (v' & -> & _); [by eapply lookup_lt_Some|]. cbn [mbind exec_bind]. by eexists.
  - apply list_find_None in Hf. rewrite Forall_forall in Hf. destruct (Hf client); [by eapply list_elem_of_lookup_2|done].
Qed.

Lemma agreed_group client cfg A Cs g : agreed client cfg A Cs g → ∃ v, validator_id g = Some v.
Proof.
  intros (c & _ & _ & Hin & _ & Hg). destruct (new_fullnode_group_total (cg_peers c) client (pg_validator_id (cg_prepare c))
    (mkRoundSpan (pg_start_round (cg_prepare c)) (pg_end_round (cg_prepare c))) Hin) as (g' & Hg' & Hv & _). rewrite Hg in Hg'.
  injection Hg' as <-. by eexists.
Qed.

(** ** The checks of an invitation *)

Definition overlapping (inv pg : PrepareGroup) : Prop := pg_start_round inv < pg_end_round pg ∧ pg_start_round pg < pg_end_round inv.
#[global] Instance overlapping_dec inv pg : Decision (overlapping inv pg).
Proof. unfold overlapping. apply _. Defined.

Lemma check_confirmed_spec max inv groups num :
  (∀ g, g ∈ groups → ∃ v, validator_id g = Some v) →
  ∃ o, check_confirmed max inv groups num = Ret o ∧
    ∀ num', o = Some num' → num' = num + Z.of_nat (length groups) ∧ (num + 1 <= max → num' + 1 <= max).
Proof.
  revert num. induction groups as [|g groups IH]; intros num Hg; cbn [check_confirmed]; [eexists; split; [done|]; intros ? [= <-]; simpl; lia|].
  destruct (Hg g ltac:(left)) as [v Hv]. unfold get_validator_id. rewrite Hv. cbn [expect mbind exec_bind].
  case_bool_decide; [by eexists|]. case_bool_decide as Hmax; [by eexists|].
  destruct (IH (num + 1)) as (o & -> & Ho); [intros g' Hg'; apply Hg; by right|]. exists o. split; [done|]. intros num' Hn.
  destruct (Ho num' Hn). cbn [length]. lia.
Qed.

Lemma check_invites_spec max inv others num :
  pg_start_round inv < pg_end_round inv → (∀ pg, pg ∈ others → pg_start_round pg < pg_end_round pg) →
  ∃ o, check_invites max inv others num = Ret o ∧
    ∀ num', o = Some num' → num' = num + tally (overlapping inv) others ∧ (num + 1 <= max → num' + 1 <= max).
Proof.
  intros Hinv. revert num. induction others as [|pg others IH]; intros num Hpg; cbn [check_invites].
  { eexists. split; [done|]. intros ? [= <-]. unfold tally. simpl. lia. }
  pose proof (Hpg pg ltac:(left)) as Hlt. unfold overlaps.
  rewrite (bool_decide_true (pg_start_round pg <= _)), (bool_decide_true (pg_start_round inv <= _)) by lia. cbn [assert mbind exec_bind].
  assert (bool_decide (pg_start_round inv < pg_end_round pg) && bool_decide (pg_end_round inv > pg_start_round pg) =
    bool_decide (overlapping inv pg)) as ->.
  { do 3 case_bool_decide; cbn; try done; unfold overlapping in *; lia. }
  specialize (IH (if decide (overlapping inv pg) then num + 1 else num) (λ y Hy, Hpg y ltac:(by right))).
  rewrite tally_cons. case_bool_decide as Ho; destruct (decide (overlapping inv pg)) as [Hd|Hd]; try tauto.
  case_bool_decide; [by eexists|]. destruct IH as (o & -> & HIH). exists o. split; [done|]. intros num' Hn. destruct (HIH num' Hn). lia.
Qed.

Lemma check_pending_spec max inv pending num :
  pg_start_round inv < pg_end_round inv → StronglySorted key_le pending →
  (∀ k x pg, (k, x) ∈ pending → pg ∈ invites_of x → pg_start_round pg = k ∧ k < pg_end_round pg) →
  ∃ o, check_pending max inv pending num = Ret o ∧
    ∀ num', o = Some num' →
      num' = num + tally (overlapping inv) (concat (map (λ kv, invites_of kv.2) pending)) ∧ (num + 1 <= max → num' + 1 <= max).
Proof.
  intros Hinv. revert num. induction pending as [|[k x] pending IH]; intros num Hs Hpg; cbn [check_pending].
  { eexists. split; [done|]. intros ? [= <-]. unfold tally. simpl. lia. }
  case_bool_decide as Hk.
  { eexists. split; [done|]. intros ? [= <-]. rewrite tally_none; [lia|]. intros pg Hin [_ Hlt].
    apply elem_of_concat_map in Hin as ([k' x'] & Hin & Hx). destruct (Hpg k' x' pg Hin Hx) as [Hst _]. rewrite Hst in Hlt.
    apply StronglySorted_inv in Hs as [_ Hall]. rewrite Forall_forall in Hall. apply elem_of_cons in Hin as [[= -> ->]|Hin]; [lia|].
    specialize (Hall _ Hin). unfold key_le in Hall. cbn in Hall. lia. }
  apply StronglySorted_inv in Hs as [Hs _]. cbn [map concat]. rewrite tally_app.
  destruct (check_invites_spec max inv (btree_iter x).*2 num Hinv) as (o & -> & Ho).
  { intros pg Hin. destruct (Hpg k x pg ltac:(left) Hin). lia. }
  cbn [mbind exec_bind]. destruct o as [num1|]; [|by eexists]. destruct (Ho num1 eq_refl) as [Hn1 Hm1].
  destruct (IH num1 Hs) as (o & -> & Ho'); [intros k' x' pg Hin; apply Hpg; by right|]. exists o. split; [done|]. intros num' Hn'.
  destruct (Ho' num' Hn'). unfold invites_of in *. cbn in *. lia.
Qed.

(** Rounds so far from the last one that sums with the configuration fit. *)
Definition client_round_ok (cfg : ClientConfig) (r : Round) : Prop :=
  0 <= r ∧ 0 <= invite_future_dist_min cfg ∧ 0 <= invite_future_dist_max cfg ∧
  r + invite_future_dist_min cfg + invite_future_dist_max cfg < Round_MAX.

Lemma validate_spec c A Cs inv now :
  client_ok c A Cs → client_round_ok (client_config c) (client_curr_round c) →
  ∃ b, validate_prepare_group_message c inv now = Ret b ∧
    (b = true → pg_start_round inv < pg_end_round inv ∧ client_curr_round c < pg_start_round inv ∧
       pg_max_group_size inv <= max_group_size (client_config c) ∧
       tally (λ e : (Round * Round) * Group, e.1.1 < pg_end_round inv ∧ pg_start_round inv < e.1.2) (interval_view (confirmed_groups c)) +
         tally (overlapping inv) (pending_invites (pending_confirms c)) + 1 <= max_num_group (client_config c)).
Proof.
  intros [Hmax Hp Hc _] (H0 & Hmin & Hmx & Hr). unfold validate_prepare_group_message. case_bool_decide as Hse; [by exists false|].
  case_bool_decide as Hcr; [by exists false|].
  assert (∃ b, outside_bounds c inv = Ret b) as [b ->].
  { unfold outside_bounds. rewrite !(checked_add_ok _ _ _ : _ → round_add _ _ = _) by (unfold Round_MAX in *; lia). cbn [mbind exec_bind].
    case_bool_decide; by eexists. }
  cbn [mbind exec_bind]. destruct (b && _); [by exists false|]. case_bool_decide as Hsz; [by exists false|].
  pose proof (iview_values (confirmed_groups c) (pg_start_round inv) (pg_end_round inv) ltac:(lia)) as Hv.
  destruct (check_confirmed_spec (max_num_group (client_config c)) inv
    (interval_values (confirmed_groups c) (pg_start_round inv) (pg_end_round inv)) 0) as (o & -> & Ho).
  { intros g Hg. rewrite Hv in Hg. apply list_elem_of_fmap in Hg as ([iv g'] & -> & [_ Hin]%list_elem_of_filter).
    destruct (Hc iv g' Hin) as (_ & _ & Hag). by eapply agreed_group. }
  cbn [mbind exec_bind]. destruct o as [num|]; [|by exists false]. destruct (Ho num eq_refl) as [Hn Hm].
  destruct (check_pending_spec (max_num_group (client_config c)) inv (btree_iter (pending_confirms c)) num) as (o & -> & Ho');
    [lia|apply btree_iter_sorted| |].
  { intros k x pg Hk%elem_of_btree_iter Hx. unfold invites_of in Hx. apply list_elem_of_fmap in Hx as ([v pg'] & -> & Hx%elem_of_btree_iter).
    destruct (Hp k x v pg' Hk Hx) as (? & _ & ? & _). done. }
  cbn [mbind exec_bind]. eexists. split; [done|]. intros [num' ->]%bool_decide_eq_true. destruct (Ho' num' eq_refl) as [Hn' Hm'].
  split; [lia|]. split; [lia|]. split; [lia|]. rewrite Hv, length_fmap in Hn. unfold pending_invites. unfold tally at 1. lia.
Qed.

(** ** The handlers *)

Lemma agreed_mono client cfg A Cs A' Cs' g : A ⊆ A' → Cs ⊆ Cs' → agreed client cfg A Cs g → agreed client cfg A' Cs' g.
Proof. intros HA HC (c & Hc & Hp & Hrest). exists c. split; [by apply HC|]. split; [by apply HA|done]. Qed.

Lemma handle_prepare_spec c A Cs inv now :
  client_ok c A Cs → client_round_ok (client_config c) (client_curr_round c) →
  ∃ c' accept, handle_prepare_group_message c inv now = Ret (c', mkPrepareGroupResponse inv (client_node_id c) accept) ∧
    client_ok c' (if accept then inv :: A else A) Cs ∧ client_node_id c' = client_node_id c ∧ client_config c' = client_config c ∧
    client_curr_round c' = client_curr_round c.
Proof.
  intros Hc Hr. unfold handle_prepare_group_message. destruct (validate_spec c A Cs inv now Hc Hr) as (b & -> & Hb). cbn [mbind exec_bind].
  destruct b; [|by eexists _, false]. eexists _, true. split; [done|]. split; [|done]. destruct (Hb eq_refl) as (Hse & Hcr & Hsz & Hcnt).
  destruct Hc as [Hmax Hp Hcf Hg]. constructor; cbn; try done.
  - intros k x v pg Hk Hv. assert (pending_confirms c !! k = Some x ∨ k = pg_start_round inv ∧ (v = pg_validator_id inv ∧ pg = inv ∨
      ∃ x', pending_confirms c !! k = Some x' ∧ x' !! v = Some pg)) as [Hold|(-> & [[-> ->]|(x' & Hx' & Hv')])].
    { apply lookup_insert_Some in Hk as [[<- <-]|[_ Hk]]; [right|by left]. split; [done|].
      apply lookup_insert_Some in Hv as [[<- <-]|[_ Hv]]; [by left|right].
      destruct (pending_confirms c !! pg_start_round inv) as [x'|]; [by exists x'|]. cbn in Hv. by rewrite lookup_empty in Hv. }
    + destruct (Hp _ _ _ _ Hold Hv) as (? & ? & ? & ? & ?). split_and!; try done. by right.
    + split_and!; try done. left.
    + destruct (Hp _ _ _ _ Hx' Hv') as (? & ? & ? & ? & ?). split_and!; try done. by right.
  - intros iv g Hin. destruct (Hcf iv g Hin) as (? & ? & Hag). split; [done|]. split; [done|]. eapply agreed_mono; [|done|done]. by right.
  - intros r. specialize (Hg r). unfold groups_in in *. cbn. set (old := default ∅ (pending_confirms c !! pg_start_round inv)).
    rewrite (tally_perm _ _ _ (pending_insert _ _ _)), tally_app. rewrite (tally_perm _ _ _ (pending_split _ (pg_start_round inv))), tally_app in Hg.
    rewrite (tally_perm _ _ _ (pending_split _ (pg_start_round inv))), tally_app in Hcnt. fold old in Hg, Hcnt.
    rewrite (tally_perm _ _ _ (invites_of_split (<[_ := _]> old) (pg_validator_id inv))), lookup_insert_eq, delete_insert_eq, tally_app.
    rewrite (tally_perm _ _ _ (invites_of_split old (pg_validator_id inv))), tally_app in Hg.
    rewrite (tally_perm _ _ _ (invites_of_split old (pg_validator_id inv))), tally_app in Hcnt.
    change (option_list (Some inv)) with [inv]. rewrite (tally_cons (covers r) inv []). change (tally (covers r) []) with 0.
    pose proof (tally_nonneg (covers r) (option_list (old !! pg_validator_id inv))).
    pose proof (tally_nonneg (overlapping inv) (option_list (old !! pg_validator_id inv))).
    destruct (decide (covers r inv)) as [Hcov|Hcov]; [|lia].
    pose proof (tally_le (covered r) (λ e : (Round * Round) * Group, e.1.1 < pg_end_round inv ∧ pg_start_round inv < e.1.2)
      (interval_view (confirmed_groups c)) ltac:(intros e _; unfold covered, covers in *; lia)).
    pose proof (tally_le (covers r) (overlapping inv) (invites_of (delete (pg_validator_id inv) old))
      ltac:(intros e _; unfold overlapping, covers in *; lia)).
    pose proof (tally_le (covers r) (overlapping inv) (pending_invites (delete (pg_start_round inv) (pending_confirms c)))
      ltac:(intros e _; unfold overlapping, covers in *; lia)). lia.
Qed.

Definition same_client (c c' : Client) : Prop := client_node_id c' = client_node_id c ∧ client_config c' = client_config c.

Lemma client_ok_confirms c A Cs m : client_ok c A Cs → client_ok c A (m :: Cs).
Proof.
  intros [Hmax Hp Hcf Hg]. constructor; try done. intros iv g Hin. destruct (Hcf iv g Hin) as (? & ? & Hag). split; [done|]. split; [done|].
  eapply agreed_mono; [done| |done]. by right.
Qed.

Lemma handle_confirm_spec c A Cs m now :
  client_ok c A Cs →
  ∃ c' sent, handle_confirm_group_message c m now = Ret (c', sent) ∧ client_ok c' A (m :: Cs) ∧ same_client c c' ∧
    client_curr_round c' = client_curr_round c ∧ ∀ g, g ∈ sent → agreed (client_node_id c) (client_config c) A (m :: Cs) g.
Proof.
  intros Hc. pose proof (client_ok_confirms c A Cs m Hc) as Hc'. unfold handle_confirm_group_message.
  assert (∃ c' sent, Ret (c, []) = Ret (c', sent) ∧ client_ok c' A (m :: Cs) ∧ same_client c c' ∧ client_curr_round c' = client_curr_round c ∧
    ∀ g, g ∈ sent → agreed (client_node_id c) (client_config c) A (m :: Cs) g) as Hno.
  { exists c, []. split; [done|]. split; [done|]. split; [done|]. split; [done|]. by intros g ?%elem_of_nil. }
  unfold round_span_new. case_bool_decide as Hse; [done|]. case_bool_decide as Hcr; [done|].
  destruct (pending_confirms c !! _) as [x|] eqn:Hx; [|done]. destruct (x !! _) as [old|] eqn:Hold; [|done].
  case_bool_decide as Hne; [done|]. case_bool_decide as Hsz; [done|]. case_bool_decide as Hself; [done|]. subst old. clear Hno.
  destruct Hc as [Hmax Hp Hcf Hg]. destruct (Hp _ _ _ _ Hx Hold) as (_ & _ & _ & Hsize & HA).
  destruct (new_fullnode_group_total (cg_peers m) (client_node_id c) (pg_validator_id (cg_prepare m))
    (mkRoundSpan (pg_start_round (cg_prepare m)) (pg_end_round (cg_prepare m))) Hself) as (g & Hgr & _ & Hspan).
  rewrite Hgr. cbn [mbind exec_bind span_start span_end].
  assert (agreed (client_node_id c) (client_config c) A (m :: Cs) g) as Hag.
  { exists m. split; [left|]. split; [done|]. split; [done|]. split; [lia|done]. }
  pose proof (iview_force_insert (confirmed_groups c) (pg_start_round (cg_prepare m), pg_end_round (cg_prepare m)) g ltac:(cbn; lia)) as Hview.
  destruct (if is_receiving_proposals c now then _ else _) as [sent hb] eqn:Hs. eexists _, sent. split; [done|]. split; [|split; [done|split; [done|]]].
  2:{ intros g' Hin. destruct (is_receiving_proposals c now); injection Hs as <- <-; [by apply elem_of_nil in Hin|].
      by apply list_elem_of_singleton in Hin as ->. }
  constructor; cbn; try done.
  - intros k y v pg Hk Hv. apply lookup_insert_Some in Hk as [[<- <-]|[_ Hk]]; [|by eapply Hp]. apply lookup_delete_Some in Hv as [_ Hv].
    by eapply Hp.
  - intros iv g' Hin. rewrite Hview in Hin. apply elem_of_cons in Hin as [[= -> ->]|Hin]; [cbn; split; [lia|done]|].
    destruct (cl_confirmed _ _ _ Hc' iv g' Hin) as (? & ? & ?). done.
  - intros r. specialize (Hg r). unfold groups_in in *. cbn. rewrite (tally_perm _ _ _ Hview), tally_cons.
    rewrite (tally_perm _ _ _ (pending_insert _ _ _)), tally_app.
    rewrite (tally_perm _ _ _ (pending_split _ (pg_start_round (cg_prepare m)))), tally_app, Hx in Hg. cbn [default] in Hg.
    rewrite (tally_perm _ _ _ (invites_of_split x (pg_validator_id (cg_prepare m)))), tally_app, Hold in Hg.
    change (option_list (Some (cg_prepare m))) with [cg_prepare m] in Hg. rewrite (tally_cons (covers r) (cg_prepare m) []) in Hg.
    change (tally (covers r) []) with 0 in Hg.
    assert (covered r ((pg_start_round (cg_prepare m), pg_end_round (cg_prepare m)), g) ↔ covers r (cg_prepare m)) as Hiff by done.
    rewrite (decide_ext _ _ _ _ Hiff). lia.
Qed.

Lemma client_enter_round_spec c A Cs r now :
  client_ok c A Cs → client_round_ok (client_config c) (client_curr_round c) → client_round_ok (client_config c) r →
  ∃ c' sent, client_enter_round c r now = Ret (c', sent) ∧ client_ok c' A Cs ∧ same_client c c' ∧
    client_round_ok (client_config c) (client_curr_round c') ∧
    ∀ g, g ∈ sent → round_span_contains (round_span g) r = true ∧ agreed (client_node_id c) (client_config c) A Cs g.
Proof.
  intros Hc Hr0 Hr. unfold client_enter_round. case_bool_decide as Hlt.
  { exists c, []. split; [done|]. split; [done|]. split; [done|]. split; [done|]. by intros g ?%elem_of_nil. }
  pose proof Hr as (H0 & Hmin & Hmx & Hr').
  rewrite !(checked_add_ok _ _ _ : _ → round_add _ _ = _) by (unfold Round_MAX in *; lia). cbn [mbind exec_bind].
  destruct Hc as [Hmax Hp Hcf Hg].
  pose proof (remove_started (r + 1) _ (confirmed_groups c) (iview_intervals (confirmed_groups c) (r + 1))) as Hrm.
  eexists _, _. split; [done|]. split; [|split; [done|split; [done|]]].
  - constructor; cbn; try done.
    + intros k x v pg Hk Hv. apply map_lookup_filter_Some in Hk as [Hk _]. by eapply Hp.
    + intros iv g Hin. rewrite Hrm in Hin. apply list_elem_of_filter in Hin as [_ Hin]. by apply Hcf.
    + intros r'. specialize (Hg r'). unfold groups_in in *. cbn. rewrite (tally_perm _ _ _ Hrm).
      pose proof (pending_filter_tally (covers r') r (pending_confirms c)).
      pose proof (tally_filter (covered r') (λ e : Z * Z * Group, ¬ e.1.1 < r + 1) (interval_view (confirmed_groups c))). lia.
  - intros g Hin. rewrite iview_values in Hin by lia. apply list_elem_of_fmap in Hin as ([iv g'] & -> & [Hov Hin]%list_elem_of_filter).
    destruct (Hcf iv g' Hin) as (Hlt' & Hsp & Hag). split; [|done]. cbn in *. rewrite Hsp. unfold round_span_contains. cbn.
    rewrite !bool_decide_true by lia. done.
Qed.

(** ** Runs *)

Inductive ClientInput :=
| ClientRound (round : Round)
| ClientMessage (msg : FullNodesGroupMessage R).

(** Every input comes at a time. *)
Definition client_input (c : Client) (i : ClientInput * Z) : exec (Client * option (PrepareGroupResponse * NodeId) * list Group) :=
  match i.1 with
  | ClientRound round => '(c, sent) ← client_enter_round c round i.2; Ret (c, None, sent)
  | ClientMessage msg => on_receive_group_message c msg i.2
  end.

Fixpoint client_run (c : Client) (inputs : list (ClientInput * Z)) :
    exec (Client * list (option (PrepareGroupResponse * NodeId) * list Group)) :=
  match inputs with
  | [] => Ret (c, [])
  | i :: inputs => '(c, response, sent) ← client_input c i; '(c, outs) ← client_run c inputs; Ret (c, (response, sent) :: outs)
  end.

Definition client_input_ok (cfg : ClientConfig) (i : ClientInput * Z) : Prop :=
  match i.1 with ClientRound round => client_round_ok cfg round | _ => True end.

(** The invitations that were accepted, and the confirmations that came. *)
Definition accepted_invites (outs : list (option (PrepareGroupResponse * NodeId) * list Group)) : list PrepareGroup :=
  omap (λ out : option (PrepareGroupResponse * NodeId) * list Group,
          match out.1 with Some (resp, _) => if pr_accept resp then Some (pr_req resp) else None | None => None end) outs.
Definition received_confirms (inputs : list (ClientInput * Z)) : list (ConfirmGroup R) :=
  omap (λ i : ClientInput * Z, match i.1 with ClientMessage (FNG_ConfirmGroup c) => Some c | _ => None end) inputs.

Lemma accepted_cons out outs : accepted_invites (out :: outs) = accepted_invites [out] ++ accepted_invites outs.
Proof. exact (omap_app _ [out] outs). Qed.
Lemma received_cons i inputs : received_confirms (i :: inputs) = received_confirms [i] ++ received_confirms inputs.
Proof. exact (omap_app _ [i] inputs). Qed.

Lemma client_input_spec c A Cs i :
  client_ok c A Cs → client_round_ok (client_config c) (client_curr_round c) → client_input_ok (client_config c) i →
  ∃ c' response sent, client_input c i = Ret (c', response, sent) ∧
    client_ok c' (accepted_invites [(response, sent)] ++ A) (received_confirms [i] ++ Cs) ∧ same_client c c' ∧
    client_round_ok (client_config c) (client_curr_round c') ∧
    ∀ g, g ∈ sent → agreed (client_node_id c) (client_config c) A (received_confirms [i] ++ Cs) g.
Proof.
  intros Hc Hr Hi. destruct i as [[r|[inv|resp|m]] now]; cbn [client_input fst snd on_receive_group_message].
  - destruct (client_enter_round_spec c A Cs r now Hc Hr Hi) as (c' & sent & -> & Hc' & Hsame & Hr' & Hsent). cbn [mbind exec_bind].
    exists c', None, sent. split; [done|]. split; [done|]. split; [done|]. split; [done|]. intros g Hg. by apply Hsent.
  - destruct (handle_prepare_spec c A Cs inv now Hc Hr) as (c' & accept & -> & Hc' & Hid & Hcfg & Hcr). cbn [mbind exec_bind].
    eexists c', _, []. split; [done|]. split; [by destruct accept|]. split; [done|]. rewrite Hcr. split; [done|]. by intros g ?%elem_of_nil.
  - exists c, None, []. split; [done|]. split; [done|]. split; [done|]. split; [done|]. by intros g ?%elem_of_nil.
  - destruct (handle_confirm_spec c A Cs m now Hc) as (c' & sent & -> & Hc' & Hsame & Hcr & Hsent). cbn [mbind exec_bind].
    exists c', None, sent. split; [done|]. split; [done|]. split; [done|]. by rewrite Hcr.
Qed.

Lemma client_run_spec c A Cs inputs :
  client_ok c A Cs → client_round_ok (client_config c) (client_curr_round c) → Forall (client_input_ok (client_config c)) inputs →
  ∃ c' outs A' Cs', client_run c inputs = Ret (c', outs) ∧ client_ok c' A' Cs' ∧ same_client c c' ∧
    ∀ j out g, outs !! j = Some out → g ∈ out.2 →
      agreed (client_node_id c) (client_config c) (A ++ accepted_invites (take j outs)) (Cs ++ received_confirms (take (S j) inputs)) g.
Proof.
  revert c A Cs. induction inputs as [|i inputs IH]; intros c A Cs Hc Hr Hin; cbn [client_run]; [by exists c, [], A, Cs|].
  apply Forall_cons in Hin as [Hi Hin]. destruct (client_input_spec c A Cs i Hc Hr Hi) as (c1 & response & sent & -> & Hc1 & [Hid Hcfg] & Hr1 & Hsent).
  cbn [mbind exec_bind]. rewrite <-Hcfg in Hr1, Hin. destruct (IH c1 _ _ Hc1 Hr1 Hin) as (c' & outs & A' & Cs' & -> & Hc' & [Hid' Hcfg'] & Hall).
  cbn [mbind exec_bind]. exists c', ((response, sent) :: outs), A', Cs'. split; [done|]. split; [done|]. split; [split; congruence|].
  intros [|j] out g Hout Hg.
  - injection Hout as <-. eapply agreed_mono; [| |by apply Hsent].
    + intros x Hx. apply elem_of_app. by left.
    + intros x Hx. apply elem_of_app in Hx as [Hx|Hx]; apply elem_of_app; [right|by left]. cbn [take]. destruct inputs; done.
  - rewrite Hid, Hcfg in Hall. cbn [take]. rewrite (accepted_cons (response, sent)), (received_cons i).
    eapply agreed_mono; [| |by eapply Hall]; intros x Hx; rewrite !elem_of_app in *; tauto.
Qed.

Lemma client_new_ok node cfg now c : client_new node cfg now = Ret c → client_ok c [] [] ∧ client_node_id c = node ∧ client_config c = cfg ∧
  client_curr_round c = GENESIS_ROUND.
Proof.
  intros Hnew. unfold client_new in Hnew. apply bind_Ret_inv in Hnew as ([] & Hmax & [= <-]). unfold assert in Hmax.
  case_bool_decide as Hpos; [|done]. split; [|done]. constructor; cbn; [lia| | |].
  - intros k x v pg. by rewrite lookup_empty.
  - intros iv g. rewrite iview_new. by intros ?%elem_of_nil.
  - intros r. unfold groups_in. cbn [confirmed_groups pending_confirms client_config]. rewrite iview_new. change (0 + 0 <= max_num_group cfg). lia.
Qed.

(** C16. A full node joins only groups that it agreed to. Whatever invitations and
    confirmations it receives, in whatever order, and whatever rounds it enters, the
    client does not panic; no round is in more groups, confirmed or pending, than
    [max_num_group]; and each group that it hands to the primary instance at a step is
    the group of a confirmation received by then, for an invitation that it had
    accepted, names this node as a peer, and has at most [max_group_size] peers. *)
Theorem client_groups_safe (node : NodeId) (cfg : ClientConfig) (now : Z) (c0 : Client) (inputs : list (ClientInput * Z))
    (Hnew : client_new node cfg now = Ret c0) (Hcfg : client_round_ok cfg GENESIS_ROUND) (Hin : Forall (client_input_ok cfg) inputs) :
  ∃ c outs, client_run c0 inputs = Ret (c, outs) ∧
    (∀ r, groups_in c r <= max_num_group cfg) ∧
    ∀ j out g, outs !! j = Some out → g ∈ out.2 →
      agreed node cfg (accepted_invites (take j outs)) (received_confirms (take (S j) inputs)) g.
Proof.
  destruct (client_new_ok node cfg now c0 Hnew) as (Hok & <- & <- & Hr). rewrite <-Hr in Hcfg.
  destruct (client_run_spec c0 [] [] inputs Hok Hcfg Hin) as (c & outs & A & Cs & Hrun & [_ _ _ Hg] & [_ Heq] & Hall).
  exists c, outs. split; [done|]. split; [by rewrite <-Heq|done].
Qed.
End client.

(** * Lists as interval maps *)

(** The value of an interval that [remove] takes is the first one. *)
Fixpoint remove_first {V} (m : list ((Round * Round) * V)) (iv : Round * Round) : list ((Round * Round) * V) :=
  match m with
  | [] => []
  | e :: m => if bool_decide (e.1 = iv) then m else e :: remove_first m iv
  end.

#[export] Instance interval_list (V : Type) : IntervalMap V := {
  interval_map := list ((Round * Round) * V);
  interval_new := [];
  interval_values m a b := (filter (λ e : (Round * Round) * V, e.1.1 < b ∧ a < e.1.2) m).*2;
  interval_intervals_to m b := (filter (λ e : (Round * Round) * V, e.1.1 < b) m).*1;
  interval_remove := remove_first;
  interval_force_insert m iv v := (iv, v) :: m;
}.

Lemma remove_first_perm {V} (m : list ((Round * Round) * V)) iv : iv ∈ m.*1 → ∃ v, m ≡ₚ (iv, v) :: remove_first m iv.
Proof.
  induction m as [|[iv' v'] m IH]; cbn; intros Hin; [by apply elem_of_nil in Hin|]. case_bool_decide as Heq; cbn in Heq; [subst; by exists v'|].
  apply elem_of_cons in Hin as [->|Hin]; [done|]. destruct (IH Hin) as (v & Hv). exists v. rewrite Hv at 1. apply Permutation_swap.
Qed.

#[export] Instance interval_list_laws (V : Type) : IntervalMapLaws (interval_list V).
Proof.
  refine {| interval_view := λ m : @interval_map V (interval_list V), (m : list ((Round * Round) * V)) |}; cbn; try done.
  intros m iv Hin. by apply remove_first_perm.
Defined.

(** * A handshake *)

Definition default_client_config : ClientConfig := mkClientConfig 3 50 1 600 10.

(** An invitation is accepted and confirmed, and its group is sent when its first
    round comes. *)
Definition handshake : list (ClientInput (R := unit) * Z) :=
  let invite := mkPrepareGroup 1 50 10 20 in
  [(ClientRound 5, 100); (ClientMessage (FNG_PrepareGroup invite), 101);
   (ClientMessage (FNG_ConfirmGroup (mkConfirmGroup unit invite [3; 7] [])), 102); (ClientRound 10, 103)].

Lemma client_groups_safe_witness : ∃ c0 c outs, client_new 7 default_client_config 100 = Ret c0 ∧ client_run c0 handshake = Ret (c, outs) ∧
  (∀ r, groups_in c r <= 3) ∧
  outs.*2 = [[]; []; []; [mkGroup (Some 1) (mkRoundSpan 10 20) [3]]] ∧
  ∀ g, g ∈ [mkGroup (Some 1) (mkRoundSpan 10 20) [3]] →
    agreed 7 default_client_config (accepted_invites (take 3 outs)) (received_confirms (take 4 handshake)) g.
Proof.
  destruct (client_groups_safe (R := unit) 7 default_client_config 100 (mkClient 7 default_client_config interval_new ∅ GENESIS_ROUND 90) handshake)
    as (c & outs & Hrun & Hmax & Hall); [done|by vm_compute|repeat constructor; vm_compute; done|].
  assert (outs.*2 = [[]; []; []; [mkGroup (Some 1) (mkRoundSpan 10 20) [3]]]) as Hout.
  { vm_compute in Hrun. injection Hrun as <- <-. done. }
  eexists _, c, outs. split; [done|]. split; [done|]. split; [done|]. split; [done|]. intros g Hg.
  assert (∃ out, outs !! 3%nat = Some out ∧ g ∈ out.2) as (out & Hj & Hin).
  { destruct outs as [|a [|b [|d [|e l]]]]; try done. exists e. split; [done|]. injection Hout as _ _ _ -> _. done. }
  by apply (Hall 3%nat out g Hj Hin).
Defined.

(** A confirmation that names more peers than its invitation promised is ignored. *)
Example oversized_confirm_ignored :
  let invite := mkPrepareGroup 0 2 8 13 in
  ∃ c0 c outs, client_new 11 default_client_config 100 = Ret c0 ∧
    client_run c0 [(ClientRound 1, 100); (ClientMessage (FNG_PrepareGroup invite), 101);
                   (ClientMessage (FNG_ConfirmGroup (mkConfirmGroup unit invite [11; 12; 13; 14] [])), 102); (ClientRound 8, 103)] = Ret (c, outs) ∧
    accepted_invites outs = [invite] ∧ concat outs.*2 = [].
Proof. eexists _, _, _. split; [by vm_compute|]. split; [by vm_compute|]. by vm_compute. Qed.

(** Two overlapping invitations of one validator are accepted, as long as none of
    them is confirmed. *)
Example overlapping_invites_accepted :
  let invite1 := mkPrepareGroup 0 2 8 13 in
  let invite2 := mkPrepareGroup 0 2 10 15 in
  ∃ c0 c outs, client_new 11 default_client_config 100 = Ret c0 ∧
    client_run (R := unit) c0 [(ClientRound 1, 100); (ClientMessage (FNG_PrepareGroup invite1), 101);
                               (ClientMessage (FNG_PrepareGroup invite2), 102)] = Ret (c, outs) ∧
    accepted_invites outs = [invite1; invite2].
Proof. eexists _, _, _. split; [by vm_compute|]. split; [by vm_compute|]. by vm_compute. Qed.
