(* ===== verification/PeerDiscovery.v ===== *)
(** Peer discovery (src/monad-peer-discovery/src): how a node finds the addresses of
    its peers, checks that they answer, and prunes them. *)

From S2P Require Import Prelude Types ValidatorSet Crypto.

#[local] Open Scope Z_scope.

(** * Name records (lib.rs) *)

Record SocketAddrV4 := mkSocketAddrV4 { octets : bytes; port : Z }.
Record NameRecord := mkNameRecord { nr_address : SocketAddrV4; nr_seq : Z }.

#[export] Instance SocketAddrV4_eq_dec : EqDecision SocketAddrV4.
Proof. solve_decision. Defined.
#[export] Instance NameRecord_eq_dec : EqDecision NameRecord.
Proof. solve_decision. Defined.

Definition name_record_rlp (r : NameRecord) : rlp :=
  RList [RStr (octets (nr_address r)); RUint (port (nr_address r)); RUint (nr_seq r)].

(** The generator of a node: [next_u32] of [RngCore], and [choose_multiple] of
    [IteratorRandom]. *)
Class RngCore := {
  Rng : Type;
  next_u32 : Rng → Z * Rng;
  choose_multiple {A : Type} : list A → Rng → nat → list A * Rng;
}.

(** Nodes of a [HashSet] and of a [BTreeSet] in the order of iteration *)
Definition hash_nodes `{HashOrder} (X : gset NodeId) : list NodeId := (hash_iter (gset_to_gmap () X)).*1.
Definition btree_nodes (X : gset NodeId) : list NodeId := btree_keys (gset_to_gmap () X).

Section types.
Context `{P : Protocol}.

Record MonadNameRecord := mkMonadNameRecord { name_record : NameRecord; nr_signature : ST }.

#[global] Instance MonadNameRecord_eq_dec : EqDecision MonadNameRecord.
Proof. solve_decision. Defined.

Definition name_record_new (r : NameRecord) (key : ST_KeyPair) : MonadNameRecord :=
  mkMonadNameRecord r (st_sign SD_NameRecord (rlp_bytes (name_record_rlp r)) key).
Definition recover_pubkey (r : MonadNameRecord) : option NodeId :=
  st_recover_pubkey SD_NameRecord (rlp_bytes (name_record_rlp (name_record r))) (nr_signature r).
Definition nr_addr (r : MonadNameRecord) : SocketAddrV4 := nr_address (name_record r).
Definition record_seq (r : MonadNameRecord) : Z := nr_seq (name_record r).

(** [PeerEntry] of src/monad-executor-glue/src/lib.rs *)
Record PeerEntry := mkPeerEntry {
  pe_pubkey : PubKey;
  pe_addr : SocketAddrV4;
  pe_signature : ST;
  pe_record_seq_num : Z;
}.

(** * Messages (message.rs) *)

Record Ping := mkPing { ping_id : Z; local_name_record : MonadNameRecord }.
Record Pong := mkPong { pong_ping_id : Z; local_record_seq : Z }.
Record PeerLookupRequest := mkPeerLookupRequest { req_lookup_id : Z; req_target : NodeId; req_open_discovery : bool }.
Record PeerLookupResponse := mkPeerLookupResponse {
  resp_lookup_id : Z;
  resp_target : NodeId;
  resp_name_records : list MonadNameRecord;
}.

Inductive PeerDiscoveryMessage :=
| PDM_Ping (ping : Ping)
| PDM_Pong (pong : Pong)
| PDM_PeerLookupRequest (request : PeerLookupRequest)
| PDM_PeerLookupResponse (response : PeerLookupResponse)
| PDM_FullNodeRaptorcastRequest
| PDM_FullNodeRaptorcastResponse.

(** * Events and commands (lib.rs) *)

Inductive PeerDiscoveryEvent :=
| PDE_SendPing (to : NodeId) (socket_address : SocketAddrV4) (ping : Ping)
| PDE_PingRequest (from : NodeId) (ping : Ping)
| PDE_PongResponse (from : NodeId) (pong : Pong)
| PDE_PingTimeout (to : NodeId) (ping_id : Z)
| PDE_SendPeerLookup (to target : NodeId) (open_discovery : bool)
| PDE_PeerLookupRequest (from : NodeId) (request : PeerLookupRequest)
| PDE_PeerLookupResponse (from : NodeId) (response : PeerLookupResponse)
| PDE_PeerLookupTimeout (to target : NodeId) (lookup_id : Z)
| PDE_SendFullNodeRaptorcastRequest (to : NodeId)
| PDE_FullNodeRaptorcastRequest (from : NodeId)
| PDE_FullNodeRaptorcastResponse (from : NodeId)
| PDE_UpdateCurrentRound (round : Round) (epoch : Epoch)
| PDE_UpdateValidatorSet (epoch : Epoch) (validators : gset NodeId)
| PDE_UpdatePeers (peers : list PeerEntry)
| PDE_UpdateConfirmGroup (end_round : Round) (peers : gset NodeId)
| PDE_Refresh.

(** [Message::event] *)
Definition discovery_event (m : PeerDiscoveryMessage) (from : NodeId) : PeerDiscoveryEvent :=
  match m with
  | PDM_Ping ping => PDE_PingRequest from ping
  | PDM_Pong pong => PDE_PongResponse from pong
  | PDM_PeerLookupRequest request => PDE_PeerLookupRequest from request
  | PDM_PeerLookupResponse response => PDE_PeerLookupResponse from response
  | PDM_FullNodeRaptorcastRequest => PDE_FullNodeRaptorcastRequest from
  | PDM_FullNodeRaptorcastResponse => PDE_FullNodeRaptorcastResponse from
  end.

Inductive TimerKind :=
| TK_SendPing
| TK_PingTimeout
| TK_RetryPeerLookup (lookup_id : Z)
| TK_Refresh
| TK_FullNodeRaptorcastRequest.

#[global] Instance TimerKind_eq_dec : EqDecision TimerKind.
Proof. solve_decision. Defined.
#[global] Instance TimerKind_countable : Countable TimerKind.
Proof.
  refine (inj_countable'
    (λ k, match k with
          | TK_SendPing => inl 0 | TK_PingTimeout => inl 1 | TK_Refresh => inl 2 | TK_FullNodeRaptorcastRequest => inl 3
          | TK_RetryPeerLookup n => inr n
          end : Z + Z)
    (λ x, match x with
          | inl 0 => TK_SendPing | inl 1 => TK_PingTimeout | inl 2 => TK_Refresh | inl _ => TK_FullNodeRaptorcastRequest
          | inr n => TK_RetryPeerLookup n
          end) _).
  by intros [].
Defined.

Inductive PeerDiscoveryTimerCommand :=
| PDT_Schedule (node_id : NodeId) (timer_kind : TimerKind) (duration : Z) (on_timeout : PeerDiscoveryEvent)
| PDT_ScheduleReset (node_id : NodeId) (timer_kind : TimerKind).

(** The metrics are left out. *)
Inductive PeerDiscoveryCommand :=
| PDC_RouterCommand (target : NodeId) (message : PeerDiscoveryMessage)
| PDC_PingPongCommand (target : NodeId) (socket_address : SocketAddrV4) (message : PeerDiscoveryMessage)
| PDC_TimerCommand (command : PeerDiscoveryTimerCommand)
| PDC_MetricsCommand.
End types.

(** * The state (discovery.rs) *)

Definition MAX_PEER_IN_RESPONSE : nat := 16.
Definition NUM_LOOKUP_PEERS : nat := 3.
Definition NUM_UPSTREAM_VALIDATORS : nat := 3.

Inductive PeerDiscoveryRole := ValidatorNone | ValidatorPublisher | FullNodeNone | FullNodeClient.
#[export] Instance PeerDiscoveryRole_eq_dec : EqDecision PeerDiscoveryRole.
Proof. solve_decision. Defined.

Inductive SecondaryRaptorcastConnectionStatus := SR_Connected | SR_Pending | SR_None.
#[export] Instance SecondaryRaptorcastConnectionStatus_eq_dec : EqDecision SecondaryRaptorcastConnectionStatus.
Proof. solve_decision. Defined.

Record SecondaryRaptorcastInfo := mkSecondaryRaptorcastInfo {
  status : SecondaryRaptorcastConnectionStatus;
  num_retries : Z;
  last_active : Round;
}.

Record LookupInfo := mkLookupInfo {
  lookup_num_retries : Z;
  receiver : NodeId;
  open_discovery : bool;
}.

Section state.
Context `{P : Protocol} `{RC : RngCore}.

Record ConnectionInfo := mkConnectionInfo {
  last_ping : Ping;
  unresponsive_pings : Z;
  ci_name_record : MonadNameRecord;
}.

(** The parameters of a node, which do not change. *)
Record PeerDiscoveryConfig := mkPeerDiscoveryConfig {
  pd_self_id : NodeId;
  self_record : MonadNameRecord;
  pinned_full_nodes : gset NodeId;
  refresh_period : Z;
  request_timeout : Z;
  unresponsive_prune_threshold : Z;
  last_participation_prune_threshold : Round;
  min_num_peers : nat;
  max_num_peers : nat;
}.

Record PeerDiscovery := mkPeerDiscovery {
  pd_config : PeerDiscoveryConfig;
  self_role : PeerDiscoveryRole;
  current_round : Round;
  current_epoch : Epoch;
  epoch_validators : gmap Epoch (gset NodeId);
  routing_info : gmap NodeId MonadNameRecord;
  participation_info : gmap NodeId SecondaryRaptorcastInfo;
  pending_queue : gmap NodeId ConnectionInfo;
  outstanding_lookup_requests : gmap Z LookupInfo;
  pd_rng : Rng;
}.

Definition with_role (s : PeerDiscovery) (x : PeerDiscoveryRole) : PeerDiscovery :=
  mkPeerDiscovery (pd_config s) x (current_round s) (current_epoch s) (epoch_validators s) (routing_info s)
    (participation_info s) (pending_queue s) (outstanding_lookup_requests s) (pd_rng s).
Definition with_round (s : PeerDiscovery) (x : Round) : PeerDiscovery :=
  mkPeerDiscovery (pd_config s) (self_role s) x (current_epoch s) (epoch_validators s) (routing_info s)
    (participation_info s) (pending_queue s) (outstanding_lookup_requests s) (pd_rng s).
Definition with_epoch (s : PeerDiscovery) (x : Epoch) : PeerDiscovery :=
  mkPeerDiscovery (pd_config s) (self_role s) (current_round s) x (epoch_validators s) (routing_info s)
    (participation_info s) (pending_queue s) (outstanding_lookup_requests s) (pd_rng s).
Definition with_validators (s : PeerDiscovery) (x : gmap Epoch (gset NodeId)) : PeerDiscovery :=
  mkPeerDiscovery (pd_config s) (self_role s) (current_round s) (current_epoch s) x (routing_info s)
    (participation_info s) (pending_queue s) (outstanding_lookup_requests s) (pd_rng s).
Definition with_routing (s : PeerDiscovery) (x : gmap NodeId MonadNameRecord) : PeerDiscovery :=
  mkPeerDiscovery (pd_config s) (self_role s) (current_round s) (current_epoch s) (epoch_validators s) x
    (participation_info s) (pending_queue s) (outstanding_lookup_requests s) (pd_rng s).
Definition with_participation (s : PeerDiscovery) (x : gmap NodeId SecondaryRaptorcastInfo) : PeerDiscovery :=
  mkPeerDiscovery (pd_config s) (self_role s) (current_round s) (current_epoch s) (epoch_validators s) (routing_info s)
    x (pending_queue s) (outstanding_lookup_requests s) (pd_rng s).
Definition with_queue (s : PeerDiscovery) (x : gmap NodeId ConnectionInfo) : PeerDiscovery :=
  mkPeerDiscovery (pd_config s) (self_role s) (current_round s) (current_epoch s) (epoch_validators s) (routing_info s)
    (participation_info s) x (outstanding_lookup_requests s) (pd_rng s).
Definition with_lookups (s : PeerDiscovery) (x : gmap Z LookupInfo) : PeerDiscovery :=
  mkPeerDiscovery (pd_config s) (self_role s) (current_round s) (current_epoch s) (epoch_validators s) (routing_info s)
    (participation_info s) (pending_queue s) x (pd_rng s).
Definition with_pd_rng (s : PeerDiscovery) (x : Rng) : PeerDiscovery :=
  mkPeerDiscovery (pd_config s) (self_role s) (current_round s) (current_epoch s) (epoch_validators s) (routing_info s)
    (participation_info s) (pending_queue s) (outstanding_lookup_requests s) x.
End state.

(** * Operations *)

Section operations.
Context `{P : Protocol} `{RC : RngCore} `{HO : HashOrder}.

#[local] Abbreviation self s := (pd_self_id (pd_config s)).

(** The bound of the loops that draw an id until it is not in use *)
Context (fuel : nat).

Definition schedule_ping_timeout (s : PeerDiscovery) (peer : NodeId) (ping_id : Z) : list PeerDiscoveryCommand :=
  [PDC_TimerCommand (PDT_Schedule peer TK_PingTimeout (request_timeout (pd_config s)) (PDE_PingTimeout peer ping_id))].

Definition clear_ping_timeout (peer : NodeId) : list PeerDiscoveryCommand := [PDC_TimerCommand (PDT_ScheduleReset peer TK_PingTimeout)].

Definition reset_refresh_timer (s : PeerDiscovery) : list PeerDiscoveryCommand :=
  [PDC_TimerCommand (PDT_ScheduleReset (self s) TK_Refresh);
   PDC_TimerCommand (PDT_Schedule (self s) TK_Refresh (refresh_period (pd_config s)) PDE_Refresh)].

Definition schedule_full_node_raptorcast_timeout (s : PeerDiscovery) (to : NodeId) : list PeerDiscoveryCommand :=
  [PDC_TimerCommand (PDT_ScheduleReset to TK_FullNodeRaptorcastRequest);
   PDC_TimerCommand (PDT_Schedule to TK_FullNodeRaptorcastRequest (request_timeout (pd_config s)) (PDE_SendFullNodeRaptorcastRequest to))].

Definition schedule_lookup_timeout (s : PeerDiscovery) (to target : NodeId) (lookup_id : Z) : list PeerDiscoveryCommand :=
  [PDC_TimerCommand (PDT_Schedule to (TK_RetryPeerLookup lookup_id) (request_timeout (pd_config s))
     (PDE_PeerLookupTimeout to target lookup_id))].

(** [self.rng.next_u32()] *)
Definition draw (s : PeerDiscovery) : Z * PeerDiscovery := let '(n, r) := next_u32 (pd_rng s) in (n, with_pd_rng s r).

Definition send_ping (s : PeerDiscovery) (to : NodeId) (socket_address : SocketAddrV4) (ping : Ping) : list PeerDiscoveryCommand :=
  schedule_ping_timeout s to (ping_id ping) ++ [PDC_PingPongCommand to socket_address (PDM_Ping ping)].

Definition insert_peer_to_pending (s : PeerDiscovery) (peer_id : NodeId) (name_record : MonadNameRecord) :
    PeerDiscovery * list PeerDiscoveryCommand :=
  if bool_decide (peer_id = self s) then (s, []) else
  if (match routing_info s !! peer_id with
      | Some current_name_record => bool_decide (record_seq name_record <= record_seq current_name_record)
      | None => false
      end) then (s, []) else
  if (match pending_queue s !! peer_id with
      | Some info => bool_decide (record_seq name_record <= record_seq (ci_name_record info))
      | None => false
      end) then (s, []) else
  let '(id, s) := draw s in
  let ping_msg := mkPing id (self_record (pd_config s)) in
  let s := with_queue s (<[peer_id := mkConnectionInfo ping_msg 0 name_record]> (pending_queue s)) in
  (s, send_ping s peer_id (nr_addr name_record) ping_msg).

Definition remove_peer_from_pending (s : PeerDiscovery) (peer_id : NodeId) : PeerDiscovery * list PeerDiscoveryCommand :=
  (with_queue s (delete peer_id (pending_queue s)), clear_ping_timeout peer_id).

(** [entry(peer).and_modify(..).or_insert_with(..)]: a node was active in a round. *)
Definition active_at (round : Round) (info : option SecondaryRaptorcastInfo) : option SecondaryRaptorcastInfo :=
  Some (match info with
        | Some info =>
            if bool_decide (last_active info < round) then mkSecondaryRaptorcastInfo (status info) (num_retries info) round else info
        | None => mkSecondaryRaptorcastInfo SR_None 0 round
        end).

Definition check_validator_membership (s : PeerDiscovery) (peer_id : NodeId) : exec bool :=
  next_epoch ← epoch_add (current_epoch s) 1;
  Ret (bool_decide (peer_id ∈ default ∅ (epoch_validators s !! current_epoch s)) ||
       bool_decide (peer_id ∈ default ∅ (epoch_validators s !! next_epoch))).

Definition is_pinned_node (s : PeerDiscovery) (peer_id : NodeId) : exec bool :=
  is_validator ← check_validator_membership s peer_id;
  Ret (is_validator || bool_decide (peer_id ∈ pinned_full_nodes (pd_config s))).

(** [iter().filter(..)] with a test that may panic *)
Fixpoint filterM {A} (f : A → exec bool) (l : list A) : exec (list A) :=
  match l with
  | [] => Ret []
  | x :: l => keep ← f x; rest ← filterM f l; Ret (if (keep : bool) then x :: rest else rest)
  end.

(** Rounds since a node was active *)
Definition rounds_inactive (s : PeerDiscovery) (info : SecondaryRaptorcastInfo) : Round :=
  Z.max (current_round s) (last_active info) - last_active info.

Definition send_full_node_raptorcast_request (s : PeerDiscovery) (to : NodeId) : PeerDiscovery * list PeerDiscoveryCommand :=
  if bool_decide (self_role s ≠ FullNodeClient) then (s, []) else
  let set x := with_participation s (<[to := x]> (participation_info s)) in
  let request s := (s, PDC_RouterCommand to PDM_FullNodeRaptorcastRequest :: schedule_full_node_raptorcast_timeout s to) in
  match participation_info s !! to with
  | None => (s, [])
  | Some info =>
      match status info with
      | SR_None => request (set (mkSecondaryRaptorcastInfo SR_Pending 0 (last_active info)))
      | SR_Pending =>
          let n := (num_retries info + 1) mod 2 ^ 32 in
          if bool_decide (n >= unresponsive_prune_threshold (pd_config s))
          then (set (mkSecondaryRaptorcastInfo SR_None 0 (last_active info)), [])
          else request (set (mkSecondaryRaptorcastInfo SR_Pending n (last_active info)))
      | SR_Connected => (s, [])
      end
  end.

(** The loop over the validators to connect to *)
Fixpoint connect_upstream (s : PeerDiscovery) (validators : list NodeId) : PeerDiscovery * list PeerDiscoveryCommand :=
  match validators with
  | [] => (s, [])
  | validator :: validators =>
      let '(id, s) := draw s in
      let '(s, request) := send_full_node_raptorcast_request s validator in
      let '(s, rest) := connect_upstream s validators in
      (s, PDC_RouterCommand validator (PDM_Ping (mkPing id (self_record (pd_config s)))) :: request ++ rest)
  end.

Definition look_for_upstream_validators (s : PeerDiscovery) : exec (PeerDiscovery * list PeerDiscoveryCommand) :=
  let s := with_participation s ((λ info : SecondaryRaptorcastInfo,
    if bool_decide (status info = SR_Connected) &&
       bool_decide (rounds_inactive s info >= last_participation_prune_threshold (pd_config s))
    then mkSecondaryRaptorcastInfo SR_None (num_retries info) (last_active info) else info) <$> participation_info s) in
  let connected_validators :=
    dom (D := gset NodeId) (filter (λ kv : NodeId * SecondaryRaptorcastInfo, status kv.2 ≠ SR_None) (participation_info s)) in
  let slots_to_fill := (NUM_UPSTREAM_VALIDATORS - size connected_validators)%nat in
  if bool_decide (0 < slots_to_fill)%nat then
    available_validators ← filterM (λ node_id,
      if bool_decide (node_id ∈ connected_validators) then Ret false else
      is_validator ← check_validator_membership s node_id;
      Ret (is_validator && bool_decide (node_id ≠ self s))) (btree_keys (routing_info s));
    let '(new_upstream_validators, r) := choose_multiple available_validators (pd_rng s) slots_to_fill in
    Ret (connect_upstream (with_pd_rng s r) new_upstream_validators)
  else Ret (s, []).

Definition promote_peer_to_routing_info (s : PeerDiscovery) (peer : NodeId) (name_record : MonadNameRecord) :
    exec (PeerDiscovery * list PeerDiscoveryCommand) :=
  let s := with_routing s (<[peer := name_record]> (routing_info s)) in
  let s := with_participation s (partial_alter (active_at (current_round s)) peer (participation_info s)) in
  let '(s, cmds) := remove_peer_from_pending s peer in
  if bool_decide (self_role s = FullNodeClient) then
    '(s, more) ← look_for_upstream_validators s;
    Ret (s, cmds ++ more)
  else Ret (s, cmds).

Definition handle_ping (s : PeerDiscovery) (from : NodeId) (ping_msg : Ping) : exec (PeerDiscovery * list PeerDiscoveryCommand) :=
  peer_list_full ←
    (if bool_decide (max_num_peers (pd_config s) <= size (routing_info s) + size (pending_queue s))%nat then
       is_validator ← check_validator_membership s from;
       Ret (negb is_validator && bool_decide (from ∉ pinned_full_nodes (pd_config s)) && bool_decide (routing_info s !! from = None))
     else Ret false);
  let pong s := PDC_PingPongCommand from (nr_addr (local_name_record ping_msg))
                  (PDM_Pong (mkPong (ping_id ping_msg) (record_seq (self_record (pd_config s))))) in
  if (peer_list_full : bool) then Ret (s, [pong s]) else
  let peer_name_record := local_name_record ping_msg in
  if (match routing_info s !! from with
      | None => true
      | Some local => bool_decide (record_seq peer_name_record > record_seq local)
      end) then
    if bool_decide (recover_pubkey peer_name_record = Some from) then
      let '(s, cmds) := insert_peer_to_pending s from peer_name_record in
      Ret (s, cmds ++ [pong s])
    else Ret (s, [])
  else
    match routing_info s !! from with
    | Some local =>
        if bool_decide (record_seq peer_name_record < record_seq local) then Ret (s, []) else
        if bool_decide (record_seq peer_name_record = record_seq local) && bool_decide (peer_name_record ≠ local) then Ret (s, [])
        else Ret (s, [pong s])
    | None => Ret (s, [pong s])
    end.

Definition handle_pong (s : PeerDiscovery) (from : NodeId) (pong_msg : Pong) : exec (PeerDiscovery * list PeerDiscoveryCommand) :=
  match pending_queue s !! from with
  | Some info =>
      if bool_decide (ping_id (last_ping info) = pong_ping_id pong_msg)
      then promote_peer_to_routing_info s from (ci_name_record info)
      else Ret (s, [])
  | None => Ret (s, [])
  end.

Definition handle_ping_timeout (s : PeerDiscovery) (to : NodeId) (id : Z) : PeerDiscovery * list PeerDiscoveryCommand :=
  match pending_queue s !! to with
  | None => (s, [])
  | Some info =>
      if bool_decide (ping_id (last_ping info) = id) then
        let n := (unresponsive_pings info + 1) mod 2 ^ 32 in
        if bool_decide (n >= unresponsive_prune_threshold (pd_config s)) then remove_peer_from_pending s to else
        let '(new_id, s) := draw s in
        let ping := mkPing new_id (self_record (pd_config s)) in
        let s := with_queue s (<[to := mkConnectionInfo ping n (ci_name_record info)]> (pending_queue s)) in
        (s, send_ping s to (nr_addr (ci_name_record info)) ping)
      else (s, [])
  end.

(** Draws an id that is not in use. *)
Fixpoint unique_lookup_id (n : nat) (s : PeerDiscovery) : exec (Z * PeerDiscovery) :=
  match n with
  | O => OutOfFuel
  | S n =>
      let '(lookup_id, s) := draw s in
      if bool_decide (is_Some (outstanding_lookup_requests s !! lookup_id)) then unique_lookup_id n s else Ret (lookup_id, s)
  end.

(** The request with a new id, its timer and its entry *)
Definition issue_lookup (s : PeerDiscovery) (to target : NodeId) (info : LookupInfo) : exec (PeerDiscovery * list PeerDiscoveryCommand) :=
  '(lookup_id, s) ← unique_lookup_id fuel s;
  let s := with_lookups s (<[lookup_id := info]> (outstanding_lookup_requests s)) in
  Ret (s, schedule_lookup_timeout s to target lookup_id ++
          [PDC_RouterCommand to (PDM_PeerLookupRequest (mkPeerLookupRequest lookup_id target (open_discovery info)))]).

Definition send_peer_lookup_request (s : PeerDiscovery) (to target : NodeId) (open_discovery : bool) :
    exec (PeerDiscovery * list PeerDiscoveryCommand) :=
  issue_lookup s to target (mkLookupInfo 0 to open_discovery).

Definition handle_peer_lookup_request (s : PeerDiscovery) (from : NodeId) (request : PeerLookupRequest) :
    exec (PeerDiscovery * list PeerDiscoveryCommand) :=
  let target := req_target request in
  let name_records :=
    if bool_decide (target = self s) then [self_record (pd_config s)] else option_list (routing_info s !! target) in
  '(s, name_records) ←
    (if req_open_discovery request then
       validators ← filterM (λ kv : NodeId * MonadNameRecord, check_validator_membership s kv.1) (btree_iter (routing_info s));
       let '(chosen, r) := choose_multiple validators (pd_rng s) (MAX_PEER_IN_RESPONSE - length name_records) in
       Ret (with_pd_rng s r, name_records ++ chosen.*2)
     else Ret (s, name_records));
  Ret (s, [PDC_RouterCommand from (PDM_PeerLookupResponse (mkPeerLookupResponse (req_lookup_id request) target name_records))]).

(** The loop over the records of a response *)
Fixpoint insert_records (s : PeerDiscovery) (name_records : list MonadNameRecord) : PeerDiscovery * list PeerDiscoveryCommand :=
  match name_records with
  | [] => (s, [])
  | name_record :: name_records =>
      let '(s, cmds) := match recover_pubkey name_record with
                        | Some node_id => insert_peer_to_pending s node_id name_record
                        | None => (s, [])
                        end in
      let '(s, rest) := insert_records s name_records in
      (s, cmds ++ rest)
  end.

Definition handle_peer_lookup_response (s : PeerDiscovery) (from : NodeId) (response : PeerLookupResponse) :
    PeerDiscovery * list PeerDiscoveryCommand :=
  if (match outstanding_lookup_requests s !! resp_lookup_id response with
      | None => true
      | Some peer => bool_decide (receiver peer ≠ from)
      end) then (s, []) else
  if bool_decide (MAX_PEER_IN_RESPONSE < length (resp_name_records response))%nat then (s, []) else
  let '(s, cmds) := insert_records s (resp_name_records response) in
  (with_lookups s (delete (resp_lookup_id response) (outstanding_lookup_requests s)), cmds).

Definition handle_peer_lookup_timeout (s : PeerDiscovery) (to target : NodeId) (lookup_id : Z) :
    exec (PeerDiscovery * list PeerDiscoveryCommand) :=
  match outstanding_lookup_requests s !! lookup_id with
  | None => Ret (s, [])
  | Some lookup_info =>
      let removed := with_lookups s (delete lookup_id (outstanding_lookup_requests s)) in
      if bool_decide (lookup_num_retries lookup_info >= unresponsive_prune_threshold (pd_config s)) then Ret (removed, []) else
      issue_lookup removed to target
        (mkLookupInfo ((lookup_num_retries lookup_info + 1) mod 2 ^ 32) to (open_discovery lookup_info))
  end.

Definition handle_full_node_raptorcast_request (s : PeerDiscovery) (from : NodeId) : PeerDiscovery * list PeerDiscoveryCommand :=
  if bool_decide (self_role s ≠ ValidatorPublisher) then (s, []) else
  match participation_info s !! from with
  | Some info =>
      (with_participation s (<[from := mkSecondaryRaptorcastInfo SR_Connected (num_retries info) (last_active info)]> (participation_info s)),
       [PDC_RouterCommand from PDM_FullNodeRaptorcastResponse])
  | None => (s, [])
  end.

Definition handle_full_node_raptorcast_response (s : PeerDiscovery) (from : NodeId) : PeerDiscovery * list PeerDiscoveryCommand :=
  if bool_decide (self_role s ≠ FullNodeClient) then (s, []) else
  match participation_info s !! from with
  | Some info =>
      if bool_decide (status info = SR_Pending)
      then (with_participation s (<[from := mkSecondaryRaptorcastInfo SR_Connected 0 (last_active info)]> (participation_info s)), [])
      else (s, [])
  | None => (s, [])
  end.

Definition remove_nodes (s : PeerDiscovery) (nodes : list NodeId) : PeerDiscovery :=
  foldl (λ s node_id,
    with_routing (with_participation s (delete node_id (participation_info s))) (delete node_id (routing_info s))) s nodes.

(** The first part of [refresh]: nodes that do not participate are removed *)
Definition remove_inactive (s : PeerDiscovery) : exec PeerDiscovery :=
  non_participating_nodes ← filterM (λ kv : NodeId * SecondaryRaptorcastInfo,
    if bool_decide (rounds_inactive s kv.2 >= last_participation_prune_threshold (pd_config s)) then
      pinned ← is_pinned_node s kv.1; Ret (negb pinned)
    else Ret false) (btree_iter (participation_info s));
  Ret (remove_nodes s non_participating_nodes.*1).

(** The second part: full nodes beyond the maximal number of peers are removed. *)
Definition prune_excess (s : PeerDiscovery) : exec PeerDiscovery :=
  if bool_decide (max_num_peers (pd_config s) < size (routing_info s))%nat then
    let num_to_prune := (size (routing_info s) - max_num_peers (pd_config s))%nat in
    excessive_full_nodes ← filterM (λ node, pinned ← is_pinned_node s node; Ret (negb pinned)) (btree_keys (routing_info s));
    let '(nodes_to_prune, r) := choose_multiple excessive_full_nodes (pd_rng s) num_to_prune in
    Ret (remove_nodes (with_pd_rng s r) nodes_to_prune)
  else Ret s.

Fixpoint send_lookups (s : PeerDiscovery) (open_discovery : bool) (requests : list (NodeId * NodeId)) :
    exec (PeerDiscovery * list PeerDiscoveryCommand) :=
  match requests with
  | [] => Ret (s, [])
  | (validator_id, peer) :: requests =>
      '(s, cmds) ← send_peer_lookup_request s peer validator_id open_discovery;
      '(s, rest) ← send_lookups s open_discovery requests;
      Ret (s, cmds ++ rest)
  end.

(** The third part: validators without a record are looked up. *)
Definition look_up_missing (s : PeerDiscovery) : exec (PeerDiscovery * list PeerDiscoveryCommand) :=
  next_epoch ← epoch_add (current_epoch s) 1;
  let missing : gset NodeId := filter (λ validator, routing_info s !! validator = None ∧ validator ≠ self s)
    (default ∅ (epoch_validators s !! current_epoch s) ∪ default ∅ (epoch_validators s !! next_epoch)) in
  let '(missing_validators, r) := choose_multiple (hash_nodes missing) (pd_rng s) NUM_LOOKUP_PEERS in
  let '(chosen_peers, r) := choose_multiple (btree_keys (routing_info s)) r NUM_LOOKUP_PEERS in
  let s := with_pd_rng s r in
  send_lookups s (bool_decide (size (routing_info s) < min_num_peers (pd_config s))%nat) (zip missing_validators chosen_peers).

Definition refresh (s : PeerDiscovery) : exec (PeerDiscovery * list PeerDiscoveryCommand) :=
  s ← remove_inactive s;
  s ← prune_excess s;
  '(s, lookups) ← look_up_missing s;
  '(s, upstream) ← (if bool_decide (self_role s = FullNodeClient) then look_for_upstream_validators s else Ret (s, []));
  Ret (s, lookups ++ upstream ++ reset_refresh_timer s ++ [PDC_MetricsCommand]).

(** The loop over the validators of a node that becomes one *)
Fixpoint advertise (s : PeerDiscovery) (validators : list NodeId) : PeerDiscovery * list PeerDiscoveryCommand :=
  match validators with
  | [] => (s, [])
  | validator :: validators =>
      let '(s, cmds) := match routing_info s !! validator with
                        | Some name_record => insert_peer_to_pending s validator name_record
                        | None => (s, [])
                        end in
      let '(s, rest) := advertise s validators in
      (s, cmds ++ rest)
  end.

(** A full node that is a validator of the new epoch or of the next takes that role. *)
Definition become_validator (s : PeerDiscovery) : exec (PeerDiscovery * list PeerDiscoveryCommand) :=
  if bool_decide (self_role s = FullNodeNone) || bool_decide (self_role s = FullNodeClient) then
    is_validator ← check_validator_membership s (self s);
    if (is_validator : bool) then
      let s := with_role s ValidatorNone in
      next_epoch ← epoch_add (current_epoch s) 1;
      let validators : gset NodeId :=
        default ∅ (epoch_validators s !! current_epoch s) ∪ default ∅ (epoch_validators s !! next_epoch) in
      Ret (advertise s (hash_nodes validators))
    else Ret (s, [])
  else Ret (s, []).

(** A validator that is in neither epoch is a full node. *)
Definition resign_validator (s : PeerDiscovery) : exec PeerDiscovery :=
  if bool_decide (self_role s = ValidatorNone) || bool_decide (self_role s = ValidatorPublisher) then
    is_validator ← check_validator_membership s (self s);
    Ret (if (is_validator : bool) then s else with_role s FullNodeNone)
  else Ret s.

Definition update_current_round (s : PeerDiscovery) (round : Round) (epoch : Epoch) : exec (PeerDiscovery * list PeerDiscoveryCommand) :=
  let s := if bool_decide (round > current_round s) then with_round s round else s in
  '(s, cmds) ←
    (if bool_decide (epoch > current_epoch s) then
       '(s, cmds) ← become_validator (with_epoch s epoch);
       s ← resign_validator s;
       Ret (s, cmds)
     else Ret (s, []));
  _ ← mapM (λ epoch, epoch_add epoch 1) (btree_keys (epoch_validators s));
  Ret (with_validators s (filter (λ kv : Epoch * gset NodeId, kv.1 + 1 >= current_epoch s) (epoch_validators s)), cmds).

Definition update_validator_set (s : PeerDiscovery) (epoch : Epoch) (validators : gset NodeId) : PeerDiscovery :=
  with_validators s (<[epoch := validators]> (epoch_validators s)).

Fixpoint update_peers (s : PeerDiscovery) (peers : list PeerEntry) : PeerDiscovery * list PeerDiscoveryCommand :=
  match peers with
  | [] => (s, [])
  | peer :: peers =>
      let name_record := mkMonadNameRecord (mkNameRecord (pe_addr peer) (pe_record_seq_num peer)) (pe_signature peer) in
      let '(s, cmds) := if bool_decide (recover_pubkey name_record = Some (pe_pubkey peer))
                        then insert_peer_to_pending s (pe_pubkey peer) name_record else (s, []) in
      let '(s, rest) := update_peers s peers in
      (s, cmds ++ rest)
  end.

Definition update_peer_participation (s : PeerDiscovery) (round : Round) (peers : gset NodeId) : PeerDiscovery :=
  foldl (λ s peer,
    if bool_decide (peer = self s) then s
    else with_participation s (partial_alter (active_at round) peer (participation_info s))) s (btree_nodes peers).

Definition get_pending_addr_by_id (s : PeerDiscovery) (id : NodeId) : option SocketAddrV4 :=
  (λ info, nr_addr (ci_name_record info)) <$> pending_queue s !! id.
Definition get_addr_by_id (s : PeerDiscovery) (id : NodeId) : option SocketAddrV4 := nr_addr <$> routing_info s !! id.
Definition get_known_addrs (s : PeerDiscovery) : gmap NodeId SocketAddrV4 := nr_addr <$> routing_info s.

Definition get_secondary_fullnode_addrs (s : PeerDiscovery) : gmap NodeId SocketAddrV4 :=
  nr_addr <$> filter (λ kv : NodeId * MonadNameRecord,
    kv.1 ∉ default ∅ (epoch_validators s !! current_epoch s) ∧ status <$> participation_info s !! kv.1 = Some SR_Connected)
    (routing_info s).

Definition get_name_records (s : PeerDiscovery) : gmap NodeId MonadNameRecord := routing_info s.

(** ** The start *)

Fixpoint insert_bootstrap (s : PeerDiscovery) (peers : list (NodeId * MonadNameRecord)) : PeerDiscovery * list PeerDiscoveryCommand :=
  match peers with
  | [] => (s, [])
  | (peer_id, name_record) :: peers =>
      let '(s, cmds) := insert_peer_to_pending s peer_id name_record in
      let '(s, rest) := insert_bootstrap s peers in
      (s, cmds ++ rest)
  end.

Record PeerDiscoveryBuilder := mkPeerDiscoveryBuilder {
  b_config : PeerDiscoveryConfig;
  b_self_role : PeerDiscoveryRole;
  b_current_round : Round;
  b_current_epoch : Epoch;
  b_epoch_validators : gmap Epoch (gset NodeId);
  b_bootstrap_peers : gmap NodeId MonadNameRecord;
  b_rng : Rng;
}.

Definition pd_build (b : PeerDiscoveryBuilder) : exec (PeerDiscovery * list PeerDiscoveryCommand) :=
  _ ← assert (bool_decide (min_num_peers (b_config b) < max_num_peers (b_config b))%nat);
  let s := mkPeerDiscovery (b_config b) (b_self_role b) (b_current_round b) (b_current_epoch b) (b_epoch_validators b) ∅ ∅ ∅ ∅ (b_rng b) in
  _ ← (if bool_decide (self_role s = ValidatorNone) || bool_decide (self_role s = ValidatorPublisher) then
         is_validator ← check_validator_membership s (self s); assert is_validator
       else Ret ());
  let '(s, cmds) := insert_bootstrap s (btree_iter (b_bootstrap_peers b)) in
  '(s, more) ← refresh s;
  Ret (s, cmds ++ more).
End operations.

(** * The driver (driver.rs) *)

(** [tokio_util::time::DelayQueue]: [dq_insert] gives a key, [dq_remove] panics
    without one, [dq_poll] is an expired entry. Times are numbers. *)
Class DelayQueue (A : Type) := {
  dq : Type;
  dq_key : Type;
  dq_new : dq;
  dq_insert : dq → Z → A → Z → dq_key * dq;
  dq_remove : dq → dq_key → exec dq;
  dq_poll : dq → Z → option (A * dq);
}.
Arguments dq A {_}.
Arguments dq_key A {_}.

Inductive PeerDiscoveryEmit `{P : Protocol} :=
| PDX_RouterCommand (target : NodeId) (message : PeerDiscoveryMessage)
| PDX_PingPongCommand (target : NodeId) (socket_address : SocketAddrV4) (message : PeerDiscoveryMessage)
| PDX_MetricsCommand.

Section driver.
Context `{P : Protocol} `{RC : RngCore} `{HO : HashOrder} `{DQ : !DelayQueue (NodeId * TimerKind)} (fuel : nat).

Record PeerDiscTimers := mkPeerDiscTimers {
  timers : dq (NodeId * TimerKind);
  events : gmap (NodeId * TimerKind) (dq_key (NodeId * TimerKind) * PeerDiscoveryEvent);
}.

Definition schedule_reset (t : PeerDiscTimers) (node_id : NodeId) (timer_kind : TimerKind) : exec PeerDiscTimers :=
  match events t !! (node_id, timer_kind) with
  | Some (key, _) =>
      q ← dq_remove (timers t) key;
      Ret (mkPeerDiscTimers q (delete (node_id, timer_kind) (events t)))
  | None => Ret t
  end.

Definition schedule (t : PeerDiscTimers) (now duration : Z) (node_id : NodeId) (timer_kind : TimerKind) (on_timeout : PeerDiscoveryEvent) :
    exec PeerDiscTimers :=
  t ← schedule_reset t node_id timer_kind;
  let '(key, q) := dq_insert (timers t) now (node_id, timer_kind) duration in
  Ret (mkPeerDiscTimers q (<[(node_id, timer_kind) := (key, on_timeout)]> (events t))).

Definition timers_exec (now : Z) (t : PeerDiscTimers) (cmd : PeerDiscoveryTimerCommand) : exec PeerDiscTimers :=
  match cmd with
  | PDT_Schedule node_id timer_kind duration on_timeout => schedule t now duration node_id timer_kind on_timeout
  | PDT_ScheduleReset node_id timer_kind => schedule_reset t node_id timer_kind
  end.

Fixpoint timers_exec_all (now : Z) (t : PeerDiscTimers) (cmds : list PeerDiscoveryTimerCommand) : exec PeerDiscTimers :=
  match cmds with
  | [] => Ret t
  | cmd :: cmds => t ← timers_exec now t cmd; timers_exec_all now t cmds
  end.

Definition timers_poll (t : PeerDiscTimers) (now : Z) : exec (option (PeerDiscoveryEvent * PeerDiscTimers)) :=
  match dq_poll (timers t) now with
  | Some (event_key, q) =>
      '(_, event) ← expect (events t !! event_key);
      Ret (Some (event, mkPeerDiscTimers q (delete event_key (events t))))
  | None => Ret None
  end.

Record PeerDiscoveryDriver := mkPeerDiscoveryDriver {
  pd : PeerDiscovery;
  pd_timer : PeerDiscTimers;
  pending_emits : list PeerDiscoveryEmit;
}.

Definition emit_of (cmd : PeerDiscoveryCommand) : option PeerDiscoveryEmit :=
  match cmd with
  | PDC_RouterCommand target message => Some (PDX_RouterCommand target message)
  | PDC_PingPongCommand target socket_address message => Some (PDX_PingPongCommand target socket_address message)
  | PDC_TimerCommand _ => None
  | PDC_MetricsCommand => Some PDX_MetricsCommand
  end.
Definition timer_cmd_of (cmd : PeerDiscoveryCommand) : option PeerDiscoveryTimerCommand :=
  match cmd with PDC_TimerCommand cmd => Some cmd | _ => None end.

Definition driver_exec (d : PeerDiscoveryDriver) (now : Z) (cmds : list PeerDiscoveryCommand) : exec PeerDiscoveryDriver :=
  t ← timers_exec_all now (pd_timer d) (omap timer_cmd_of cmds);
  Ret (mkPeerDiscoveryDriver (pd d) t (pending_emits d ++ omap emit_of cmds)).

(** [update] without [exec]: the handler of an event *)
Definition pd_handle (s : PeerDiscovery) (event : PeerDiscoveryEvent) : exec (PeerDiscovery * list PeerDiscoveryCommand) :=
  match event with
  | PDE_SendPing to socket_address ping => Ret (s, send_ping s to socket_address ping)
  | PDE_PingRequest from ping => handle_ping s from ping
  | PDE_PongResponse from pong => handle_pong s from pong
  | PDE_PingTimeout to ping_id => Ret (handle_ping_timeout s to ping_id)
  | PDE_SendPeerLookup to target open_discovery => send_peer_lookup_request fuel s to target open_discovery
  | PDE_PeerLookupRequest from request => handle_peer_lookup_request s from request
  | PDE_PeerLookupResponse from response => Ret (handle_peer_lookup_response s from response)
  | PDE_PeerLookupTimeout to target lookup_id => handle_peer_lookup_timeout fuel s to target lookup_id
  | PDE_SendFullNodeRaptorcastRequest to => Ret (send_full_node_raptorcast_request s to)
  | PDE_FullNodeRaptorcastRequest from => Ret (handle_full_node_raptorcast_request s from)
  | PDE_FullNodeRaptorcastResponse from => Ret (handle_full_node_raptorcast_response s from)
  | PDE_UpdateCurrentRound round epoch => update_current_round s round epoch
  | PDE_UpdateValidatorSet epoch validators => Ret (update_validator_set s epoch validators, [])
  | PDE_UpdatePeers peers => Ret (update_peers s peers)
  | PDE_UpdateConfirmGroup end_round peers => Ret (update_peer_participation s end_round peers, [])
  | PDE_Refresh => refresh fuel s
  end.

Definition driver_update (d : PeerDiscoveryDriver) (now : Z) (event : PeerDiscoveryEvent) : exec PeerDiscoveryDriver :=
  '(s, cmds) ← pd_handle (pd d) event;
  driver_exec (mkPeerDiscoveryDriver s (pd_timer d) (pending_emits d)) now cmds.

Definition driver_new (b : PeerDiscoveryBuilder) (now : Z) : exec PeerDiscoveryDriver :=
  '(s, init_cmds) ← pd_build fuel b;
  driver_exec (mkPeerDiscoveryDriver s (mkPeerDiscTimers dq_new ∅) []) now init_cmds.

(** [poll_next]: the next emitted command, or none. One expired timer is handled per
    turn of the loop. *)
Fixpoint driver_poll (n : nat) (d : PeerDiscoveryDriver) (now : Z) : exec (PeerDiscoveryDriver * option PeerDiscoveryEmit) :=
  match pending_emits d with
  | emit :: rest => Ret (mkPeerDiscoveryDriver (pd d) (pd_timer d) rest, Some emit)
  | [] =>
      expired ← timers_poll (pd_timer d) now;
      match expired with
      | None => Ret (d, None)
      | Some (event, t) =>
          match n with
          | O => OutOfFuel
          | S n => d ← driver_update (mkPeerDiscoveryDriver (pd d) t []) now event; driver_poll n d now
          end
      end
  end.
End driver.
