(* ===== verification/PeerDiscoveryProps.v ===== *)
(** What peer discovery guarantees: addresses are signed by their nodes and answered
    a ping, whatever waits has a timer, and the table of peers stays bounded. *)

From S2P Require Import Prelude Types ValidatorSet Crypto PeerDiscovery.

#[local] Open Scope Z_scope.

(** * What is relied on of the generator and of the queue of timers *)

Fixpoint nth_draw `{RngCore} (n : nat) (r : Rng) : Z :=
  match n with O => (next_u32 r).1 | S n => nth_draw n (next_u32 r).2 end.

(** Draws do not stay in a set that leaves out a number, and a choice is a part of
    what is chosen from. *)
Class RngCoreLaws (RC : RngCore) := {
  draws_escape r (X : gset Z) : Z.of_nat (size X) < 2 ^ 32 → ∃ n, nth_draw n r ∉ X;
  choose_multiple_part {A} (l : list A) r n :
    ∃ rest, l ≡ₚ (choose_multiple l r n).1 ++ rest ∧ length (choose_multiple l r n).1 = Nat.min n (length l);
}.

(** A queue holds items with their deadlines under keys. *)
Class DelayQueueLaws {A} (DQ : DelayQueue A) := {
  #[global] dq_key_eq_dec :: EqDecision (dq_key A);
  #[global] dq_key_countable :: Countable (dq_key A);
  dq_view : dq A → gmap (dq_key A) (A * Z);
  dview_new : dq_view dq_new = ∅;
  dview_insert q now a d :
    dq_view q !! (dq_insert q now a d).1 = None ∧ dq_view (dq_insert q now a d).2 = <[(dq_insert q now a d).1 := (a, now + d)]> (dq_view q);
  dview_remove q k x : dq_view q !! k = Some x → ∃ q', dq_remove q k = Ret q' ∧ dq_view q' = delete k (dq_view q);
  dview_poll q now a q' : dq_poll q now = Some (a, q') → ∃ k t, dq_view q !! k = Some (a, t) ∧ t <= now ∧ dq_view q' = delete k (dq_view q);
}.

(** ** Loops that end *)

(** With enough fuel, the outcome is [a]. *)
Definition settles {A} (m : nat → exec A) (a : A) : Prop := ∃ F, ∀ n, (F <= n)%nat → m n = Ret a.

Lemma settles_ret {A} (a : A) : settles (λ _, Ret a) a.
Proof. by exists 0%nat. Qed.

Lemma settles_bind {A B} (m : nat → exec A) (k : nat → A → exec B) a b :
  settles m a → settles (λ n, k n a) b → settles (λ n, m n ≫= k n) b.
Proof.
  intros [F1 H1] [F2 H2]. exists (F1 + F2)%nat. intros n Hn. rewrite H1 by lia. cbn. apply H2. lia.
Qed.

Lemma filterM_total {A} (f : A → exec bool) (g : A → bool) l :
  (∀ x, x ∈ l → f x = Ret (g x)) → filterM f l = Ret (filter (λ x, g x = true) l).
Proof.
  induction l as [|x l IH]; intros Hf; [done|]. cbn [filterM]. rewrite Hf by left. cbn [mbind exec_bind]. rewrite IH by (intros; apply Hf; by right).
  cbn [mbind exec_bind]. rewrite filter_cons. by destruct (g x).
Qed.

Lemma filterM_ret {A} (f : A → exec bool) l : (∀ x, x ∈ l → ∃ b, f x = Ret b) → ∃ l', filterM f l = Ret l'.
Proof.
  intros Hf. rewrite (filterM_total f (λ x, match f x with Ret b => b | _ => false end)); [by eexists|].
  intros x Hx. by destruct (Hf x Hx) as [b ->].
Qed.

Section props.
Context `{P : Protocol} `{RC : RngCore} `{RL : !RngCoreLaws RC} `{HO : HashOrder}.

#[local] Abbreviation self s := (pd_self_id (pd_config s)).

(** * Timers *)

(** The events of timers by node and kind *)
#[local] Abbreviation alarms := (gmap (NodeId * TimerKind) PeerDiscoveryEvent).

Definition apply_timer (ev : alarms) (cmd : PeerDiscoveryTimerCommand) : alarms :=
  match cmd with
  | PDT_Schedule node_id timer_kind _ on_timeout => <[(node_id, timer_kind) := on_timeout]> ev
  | PDT_ScheduleReset node_id timer_kind => delete (node_id, timer_kind) ev
  end.
Definition apply_cmds (ev : alarms) (cmds : list PeerDiscoveryCommand) : alarms := foldl apply_timer ev (omap timer_cmd_of cmds).

Lemma apply_cmds_app ev cmds cmds' : apply_cmds ev (cmds ++ cmds') = apply_cmds (apply_cmds ev cmds) cmds'.
Proof. unfold apply_cmds. by rewrite omap_app, foldl_app. Qed.

(** What a timer of a kind does *)
Definition alarm_ok (me : NodeId) (node : NodeId) (kind : TimerKind) (event : PeerDiscoveryEvent) : Prop :=
  match kind with
  | TK_SendPing => False
  | TK_PingTimeout => ∃ id, event = PDE_PingTimeout node id
  | TK_RetryPeerLookup lookup_id => ∃ target, event = PDE_PeerLookupTimeout node target lookup_id
  | TK_Refresh => event = PDE_Refresh ∧ node = me
  | TK_FullNodeRaptorcastRequest => event = PDE_SendFullNodeRaptorcastRequest node
  end.

Definition timer_cmd_ok (me : NodeId) (cmd : PeerDiscoveryTimerCommand) : Prop :=
  match cmd with PDT_Schedule node kind duration event => 0 < duration ∧ alarm_ok me node kind event | _ => True end.
Definition cmds_ok (me : NodeId) (cmds : list PeerDiscoveryCommand) : Prop := Forall (timer_cmd_ok me) (omap timer_cmd_of cmds).

Lemma cmds_ok_app me cmds cmds' : cmds_ok me (cmds ++ cmds') ↔ cmds_ok me cmds ∧ cmds_ok me cmds'.
Proof. unfold cmds_ok. by rewrite omap_app, Forall_app. Qed.

(** ** The queue of timers *)

Section timers.
Context `{DQ : !DelayQueue (NodeId * TimerKind)} `{DL : !DelayQueueLaws DQ}.

Record timers_ok (me : NodeId) (t : PeerDiscTimers) : Prop := {
  to_timers nk k e : events t !! nk = Some (k, e) → ∃ deadline, dq_view (timers t) !! k = Some (nk, deadline);
  to_events nk k deadline : dq_view (timers t) !! k = Some (nk, deadline) → ∃ e, events t !! nk = Some (k, e);
  to_alarms n kind k e : events t !! (n, kind) = Some (k, e) → alarm_ok me n kind e;
}.

Definition alarms_of (t : PeerDiscTimers) : alarms := snd <$> events t.

(** Timers that are due *)
Definition due (now : Z) (t : PeerDiscTimers) : nat :=
  size (filter (λ kv : dq_key (NodeId * TimerKind) * ((NodeId * TimerKind) * Z), kv.2.2 <= now) (dq_view (timers t))).

(** What was set at [now] is not due then. *)
Definition set_later (now : Z) (t t' : PeerDiscTimers) : Prop :=
  ∀ k nk deadline, dq_view (timers t') !! k = Some (nk, deadline) → dq_view (timers t) !! k = Some (nk, deadline) ∨ now < deadline.

Lemma set_later_trans now t1 t2 t3 : set_later now t1 t2 → set_later now t2 t3 → set_later now t1 t3.
Proof. intros H1 H2 k nk dl Hk. destruct (H2 _ _ _ Hk) as [Hk'|]; [by apply H1|by right]. Qed.

Lemma timers_new_ok me : timers_ok me (mkPeerDiscTimers dq_new ∅).
Proof.
  constructor; cbn; [by intros ??? ?%lookup_empty_Some| |by intros ???? ?%lookup_empty_Some].
  intros nk k dl. rewrite dview_new. by intros ?%lookup_empty_Some.
Qed.

Lemma due_delete (now : Z) (m : gmap (dq_key (NodeId * TimerKind)) ((NodeId * TimerKind) * Z)) k :
  (size (filter (λ kv, (kv.2.2 <= now)%Z) (delete k m)) <= size (filter (λ kv, (kv.2.2 <= now)%Z) m))%nat.
Proof. rewrite map_filter_delete. apply map_subseteq_size, delete_subseteq. Qed.

Lemma schedule_reset_spec me t now node kind :
  timers_ok me t → ∃ t', schedule_reset t node kind = Ret t' ∧ timers_ok me t' ∧ (due now t' <= due now t)%nat ∧
    alarms_of t' = delete (node, kind) (alarms_of t) ∧ set_later now t t' ∧ events t' !! (node, kind) = None.
Proof.
  intros [H1 H2 H3]. unfold schedule_reset. destruct (events t !! (node, kind)) as [[k e]|] eqn:Hev.
  - destruct (H1 _ _ _ Hev) as [dl Hdl]. destruct (dview_remove _ _ _ Hdl) as (q & -> & Hq). cbn [mbind exec_bind].
    eexists. split; [done|]. unfold due, alarms_of. cbn [timers events]. rewrite Hq. split.
    + constructor; cbn [timers events].
      * intros nk k' e' [Hne Hlk]%lookup_delete_Some. destruct (H1 _ _ _ Hlk) as [dl' Hdl']. exists dl'. rewrite Hq.
        rewrite lookup_delete_ne; [done|]. intros <-. rewrite Hdl in Hdl'. by injection Hdl'.
      * intros nk k' dl'. rewrite Hq. intros [Hne Hlk]%lookup_delete_Some. destruct (H2 _ _ _ Hlk) as [e' He']. exists e'.
        rewrite lookup_delete_ne; [done|]. intros <-. rewrite Hev in He'. by injection He'.
      * intros n kd k' e' [Hne Hlk]%lookup_delete_Some. by eapply H3.
    + split; [apply due_delete|]. split; [by rewrite fmap_delete|]. split; [|apply lookup_delete_eq].
      intros k' nk dl'. cbn [timers]. rewrite Hq. intros [_ ?]%lookup_delete_Some. by left.
  - exists t. split; [done|]. split; [done|]. split; [done|]. split; [|split; [by left|done]]. symmetry. apply delete_id.
    unfold alarms_of. by rewrite lookup_fmap, Hev.
Qed.

Lemma timers_exec_spec me t now cmd :
  timers_ok me t → timer_cmd_ok me cmd →
  ∃ t', timers_exec now t cmd = Ret t' ∧ timers_ok me t' ∧ (due now t' <= due now t)%nat ∧
    alarms_of t' = apply_timer (alarms_of t) cmd ∧ set_later now t t'.
Proof.
  intros Ht Hcmd. destruct cmd as [node kind d e|node kind]; cbn [timers_exec apply_timer].
  2:{ destruct (schedule_reset_spec me t now node kind Ht) as (t' & -> & Ht' & Hdue & Hal & Hold & _). by exists t'. }
  destruct Hcmd as [Hd He]. destruct (schedule_reset_spec me t now node kind Ht) as (t1 & Hr & [H1 H2 H3] & Hdue & Hal & Hold & Hnone).
  unfold schedule. rewrite Hr. cbn [mbind exec_bind]. pose proof (dview_insert (timers t1) now (node, kind) d) as [Hfresh Hview].
  destruct (dq_insert _ _ _ _) as [k q]. cbn [fst snd] in *. eexists. split; [done|]. split; [|split; [|split]].
  - constructor; cbn [timers events].
    + intros nk k' e' [[<- [= <- <-]]|[Hne Hlk]]%lookup_insert_Some; rewrite Hview; [eexists; apply lookup_insert_eq|].
      destruct (H1 _ _ _ Hlk) as [dl Hdl]. exists dl. rewrite lookup_insert_ne; [done|]. intros <-. by rewrite Hfresh in Hdl.
    + intros nk k' dl. rewrite Hview. intros [[<- [= <- <-]]|[Hne Hlk]]%lookup_insert_Some; [eexists; apply lookup_insert_eq|].
      destruct (H2 _ _ _ Hlk) as [e' He']. exists e'. rewrite lookup_insert_ne; [done|]. intros <-. by rewrite Hnone in He'.
    + intros n kd k' e' [[[= <- <-] [= <- <-]]|[Hne Hlk]]%lookup_insert_Some; [done|]. by eapply H3.
  - unfold due in *. cbn [timers]. rewrite Hview. rewrite map_filter_insert_False; [|cbn; lia]. etrans; [|exact Hdue]. apply due_delete.
  - unfold alarms_of. cbn [events]. rewrite fmap_insert. cbn. change (snd <$> events t1) with (alarms_of t1). rewrite Hal.
    by rewrite insert_delete_eq.
  - eapply set_later_trans; [exact Hold|]. intros k' nk dl. cbn [timers]. rewrite Hview.
    intros [[<- [= <- <-]]|[_ ?]]%lookup_insert_Some; [right; lia|by left].
Qed.

Lemma timers_exec_all_spec me t now cmds :
  timers_ok me t → Forall (timer_cmd_ok me) cmds →
  ∃ t', timers_exec_all now t cmds = Ret t' ∧ timers_ok me t' ∧ (due now t' <= due now t)%nat ∧
    alarms_of t' = foldl apply_timer (alarms_of t) cmds ∧ set_later now t t'.
Proof.
  intros Ht Hcmds. revert t Ht. induction Hcmds as [|cmd cmds Hcmd _ IH]; intros t Ht; cbn [timers_exec_all].
  { exists t. split_and!; try done. by left. }
  destruct (timers_exec_spec me t now cmd Ht Hcmd) as (t1 & -> & Ht1 & Hd1 & Hal1 & Ho1). cbn [mbind exec_bind].
  destruct (IH t1 Ht1) as (t' & -> & Ht' & Hd' & Hal' & Ho'). exists t'. split; [done|]. split; [done|].
  split; [lia|]. split; [by rewrite Hal', Hal1|by eapply set_later_trans].
Qed.

(** An expired timer *)
Lemma timers_poll_spec me t now :
  timers_ok me t →
  timers_poll t now = Ret None ∨
  ∃ n kind e t', timers_poll t now = Ret (Some (e, t')) ∧ timers_ok me t' ∧ (due now t' < due now t)%nat ∧
    alarms_of t !! (n, kind) = Some e ∧ alarms_of t' = delete (n, kind) (alarms_of t) ∧ alarm_ok me n kind e ∧
    ∃ k deadline, dq_view (timers t) !! k = Some ((n, kind), deadline) ∧ deadline <= now ∧ dq_view (timers t') = delete k (dq_view (timers t)).
Proof.
  intros [H1 H2 H3]. unfold timers_poll. destruct (dq_poll (timers t) now) as [[[n kind] q]|] eqn:Hp; [right|by left].
  destruct (dview_poll _ _ _ _ Hp) as (k & dl & Hk & Hdl & Hq). destruct (H2 _ _ _ Hk) as [e He]. rewrite He. cbn [expect mbind exec_bind].
  exists n, kind, e. eexists. split; [done|]. split; [|split].
  - constructor; cbn [timers events].
    + intros nk k' e' [Hne Hlk]%lookup_delete_Some. destruct (H1 _ _ _ Hlk) as [dl' Hdl']. exists dl'. rewrite Hq.
      rewrite lookup_delete_ne; [done|]. intros <-. rewrite Hk in Hdl'. by injection Hdl'.
    + intros nk k' dl'. rewrite Hq. intros [Hne Hlk]%lookup_delete_Some. destruct (H2 _ _ _ Hlk) as [e' He']. exists e'.
      rewrite lookup_delete_ne; [done|]. intros <-. rewrite He in He'. by injection He'.
    + intros n' kd k' e' [Hne Hlk]%lookup_delete_Some. by eapply H3.
  - unfold due. cbn [timers]. rewrite Hq, map_filter_delete. eapply map_subset_size, delete_subset. rewrite map_lookup_filter.
    rewrite Hk. cbn. by rewrite option_guard_True.
  - unfold alarms_of. cbn [events]. rewrite lookup_fmap, He, fmap_delete. split; [done|]. split; [done|]. split; [by eapply H3|by exists k, dl].
Qed.
End timers.

(** * The invariant *)

(** Nodes that were pinged: at which address, with which number *)
Definition ping_of (cmd : PeerDiscoveryCommand) : option (NodeId * SocketAddrV4 * Z) :=
  match cmd with PDC_PingPongCommand to addr (PDM_Ping ping) => Some (to, addr, ping_id ping) | _ => None end.
Definition pings (cmds : list PeerDiscoveryCommand) : list (NodeId * SocketAddrV4 * Z) := omap ping_of cmds.

(** [pinged] are the pings that were issued, [ponged] the answers that came. *)
Record pd_ok (s : PeerDiscovery) (pinged : list (NodeId * SocketAddrV4 * Z)) (ponged : list (NodeId * Z)) : Prop := {
  pk_epoch : current_epoch s < u64_max;
  pk_validators e vs : epoch_validators s !! e = Some vs → e < u64_max;
  pk_routing id r : routing_info s !! id = Some r →
    recover_pubkey r = Some id ∧ id ≠ self s ∧ ∃ n, (id, nr_addr r, n) ∈ pinged ∧ (id, n) ∈ ponged;
  pk_pending id i : pending_queue s !! id = Some i →
    recover_pubkey (ci_name_record i) = Some id ∧ id ≠ self s ∧
    (id, nr_addr (ci_name_record i), ping_id (last_ping i)) ∈ pinged ∧
    ∀ r, routing_info s !! id = Some r → record_seq r < record_seq (ci_name_record i);
}.

(** Whatever waits for an answer has a timer. *)
Record armed (s : PeerDiscovery) (ev : alarms) : Prop := {
  ar_pending id i : pending_queue s !! id = Some i → ev !! (id, TK_PingTimeout) = Some (PDE_PingTimeout id (ping_id (last_ping i)));
  ar_lookups n i : outstanding_lookup_requests s !! n = Some i →
    ∃ target, ev !! (receiver i, TK_RetryPeerLookup n) = Some (PDE_PeerLookupTimeout (receiver i) target n);
}.

Lemma pd_ok_mono s pinged pinged' ponged ponged' : pinged ⊆ pinged' → ponged ⊆ ponged' → pd_ok s pinged ponged → pd_ok s pinged' ponged'.
Proof.
  intros Hi Ho [He Hv Hr Hp]. constructor; try done.
  - intros id r H. destruct (Hr id r H) as (? & ? & n & ? & ?). split_and!; [done..|]. exists n. split; [by apply Hi|by apply Ho].
  - intros id i H. destruct (Hp id i H) as (? & ? & ? & ?). split_and!; [done..| |done]. by apply Hi.
Qed.

Definition config_ok (c : PeerDiscoveryConfig) : Prop := 0 < refresh_period c ∧ 0 < request_timeout c.

(** A part of a handler: it keeps the invariant, adds at most [n] requests, and leaves
    the timer of the next refresh alone. *)
Record moves (n : nat) (ponged : list (NodeId * Z)) (s s' : PeerDiscovery) (cmds : list PeerDiscoveryCommand) : Prop := {
  mv_ok pinged : pd_ok s pinged ponged → pd_ok s' (pings cmds ++ pinged) ponged;
  mv_armed ev : armed s ev → armed s' (apply_cmds ev cmds);
  mv_config : pd_config s' = pd_config s;
  mv_cmds : config_ok (pd_config s) → cmds_ok (self s) cmds;
  mv_refresh ev id : apply_cmds ev cmds !! (id, TK_Refresh) = ev !! (id, TK_Refresh);
  mv_lookups : (size (outstanding_lookup_requests s') <= n + size (outstanding_lookup_requests s))%nat;
}.

Section moves.
Context (ponged : list (NodeId * Z)).

Lemma moves_refl s : moves 0 ponged s s [].
Proof. constructor; try done. intros _. constructor. Qed.

Lemma moves_trans n1 n2 s1 s2 s3 c1 c2 : moves n1 ponged s1 s2 c1 → moves n2 ponged s2 s3 c2 → moves (n1 + n2) ponged s1 s3 (c1 ++ c2).
Proof.
  intros [H1 H2 H3 H4 H5 H6] [K1 K2 K3 K4 K5 K6]. constructor.
  - intros pinged Hok. eapply pd_ok_mono; [|done|by apply K1, H1]. unfold pings. rewrite omap_app. intros x. rewrite !elem_of_app. tauto.
  - intros ev Har. rewrite apply_cmds_app. by apply K2, H2.
  - congruence.
  - intros Hc. apply cmds_ok_app. split; [by apply H4|]. rewrite <-H3 in *. by apply K4.
  - intros ev id. by rewrite apply_cmds_app, K5, H5.
  - lia.
Qed.

(** Commands that have nothing to do with the invariant *)
Definition quiet_cmd (c : PeerDiscoveryConfig) (cmd : PeerDiscoveryCommand) : Prop :=
  match cmd with
  | PDC_RouterCommand _ _ | PDC_MetricsCommand => True
  | PDC_PingPongCommand _ _ message => ∀ ping, message ≠ PDM_Ping ping
  | PDC_TimerCommand (PDT_Schedule node kind duration event) =>
      kind = TK_FullNodeRaptorcastRequest ∧ duration = request_timeout c ∧ event = PDE_SendFullNodeRaptorcastRequest node
  | PDC_TimerCommand (PDT_ScheduleReset _ kind) => kind = TK_FullNodeRaptorcastRequest
  end.

(** States that agree on what the invariant is about *)
Record same_core (s s' : PeerDiscovery) : Prop := {
  sc_config : pd_config s' = pd_config s;
  sc_epoch : current_epoch s' = current_epoch s;
  sc_validators : epoch_validators s' = epoch_validators s;
  sc_routing : routing_info s' = routing_info s;
  sc_pending : pending_queue s' = pending_queue s;
  sc_lookups : outstanding_lookup_requests s' = outstanding_lookup_requests s;
}.

Lemma quiet_lookup c ev cmds node kind :
  Forall (quiet_cmd c) cmds → kind ≠ TK_FullNodeRaptorcastRequest → apply_cmds ev cmds !! (node, kind) = ev !! (node, kind).
Proof.
  intros Hq Hk. revert ev. induction Hq as [|cmd cmds Hcmd _ IH]; intros ev; [done|].
  change (cmd :: cmds) with ([cmd] ++ cmds). rewrite apply_cmds_app, IH.
  destruct cmd as [| |[n k d e|n k]|]; try done; cbn in *.
  - destruct Hcmd as (-> & _ & _). apply lookup_insert_ne. congruence.
  - subst k. apply lookup_delete_ne. congruence.
Qed.

Lemma quiet_cmds_ok c me cmds : config_ok c → Forall (quiet_cmd c) cmds → cmds_ok me cmds ∧ pings cmds = [].
Proof.
  intros [_ Hreq] Hq. induction Hq as [|cmd cmds Hcmd _ [IH1 IH2]]; [split; [constructor|done]|].
  change (cmd :: cmds) with ([cmd] ++ cmds). rewrite cmds_ok_app. unfold pings in *. rewrite omap_app, IH2. split; [split; [|done]|].
  - destruct cmd as [| |[n k d e|n k]|]; repeat constructor. all: destruct Hcmd as (-> & -> & ->); done.
  - destruct cmd as [|to addr [p| | | | |]|[]|]; try done. by destruct (Hcmd p).
Qed.

Lemma moves_quiet s s' cmds : same_core s s' → Forall (quiet_cmd (pd_config s)) cmds → moves 0 ponged s s' cmds.
Proof.
  intros [Hc He Hv Hr Hp Hl] Hq. constructor; try done.
  - intros pinged [K1 K2 K3 K4]. constructor; rewrite ?He, ?Hv, ?Hr, ?Hp, ?Hc; try done.
    + intros id r Hid. destruct (K3 id r Hid) as (? & ? & n & ? & ?). split_and!; try done. exists n. split; [apply elem_of_app; by right|done].
    + intros id i Hid. destruct (K4 id i Hid) as (? & ? & ? & ?). split_and!; try done. apply elem_of_app. by right.
  - intros ev [K1 K2]. constructor; rewrite ?Hp, ?Hl.
    + intros id i Hid. rewrite (quiet_lookup (pd_config s)) by done. by apply K1.
    + intros n i Hn. destruct (K2 n i Hn) as [target Ht]. exists target. by rewrite (quiet_lookup (pd_config s)).
  - intros Hcfg. by apply (quiet_cmds_ok (pd_config s)).
  - intros ev id. by apply (quiet_lookup (pd_config s)).
  - by rewrite Hl.
Qed.

(** ** Validators *)

Definition is_validator (s : PeerDiscovery) (id : NodeId) : bool :=
  bool_decide (id ∈ default ∅ (epoch_validators s !! current_epoch s)) ||
  bool_decide (id ∈ default ∅ (epoch_validators s !! (current_epoch s + 1))).
Definition is_pinned (s : PeerDiscovery) (id : NodeId) : bool := is_validator s id || bool_decide (id ∈ pinned_full_nodes (pd_config s)).

Lemma membership_total s id : current_epoch s < u64_max → check_validator_membership s id = Ret (is_validator s id).
Proof.
  intros He. unfold check_validator_membership. rewrite (checked_add_ok _ _ _ : _ → epoch_add _ _ = _) by lia. done.
Qed.
Lemma pinned_total s id : current_epoch s < u64_max → is_pinned_node s id = Ret (is_pinned s id).
Proof. intros He. unfold is_pinned_node. by rewrite membership_total. Qed.

(** ** Pending peers *)

Lemma draw_core s : same_core s (draw s).2.
Proof. unfold draw. by destruct (next_u32 (pd_rng s)). Qed.

Lemma insert_peer_moves s id r :
  recover_pubkey r = Some id →
  moves 0 ponged s (insert_peer_to_pending s id r).1 (insert_peer_to_pending s id r).2.
Proof.
  intros Hrec. unfold insert_peer_to_pending. case_bool_decide as Hself; [apply moves_refl|].
  destruct (match routing_info s !! id with Some r' => bool_decide (record_seq r <= record_seq r') | None => false end) eqn:Hro; [apply moves_refl|].
  destruct (match pending_queue s !! id with Some i => bool_decide (record_seq r <= record_seq (ci_name_record i)) | None => false end);
    [apply moves_refl|].
  pose proof (draw_core s) as [Hc He Hv Hr Hp Hl]. destruct (draw s) as [n s1]. cbn [fst snd] in *.
  constructor; cbn [fst snd with_queue pd_config current_epoch epoch_validators routing_info pending_queue outstanding_lookup_requests];
    rewrite ?Hc, ?He, ?Hv, ?Hr, ?Hp, ?Hl; try done.
  - intros pinged [K1 K2 K3 K4]. constructor;
      cbn [fst snd with_queue pd_config current_epoch epoch_validators routing_info pending_queue]; rewrite ?Hc, ?He, ?Hv, ?Hr, ?Hp; try done.
    + intros id' r' Hid. destruct (K3 id' r' Hid) as (? & ? & m & ? & ?). split_and!; try done. exists m. split; [apply elem_of_app; by right|done].
    + intros id' i [[<- <-]|[Hne Hid]]%lookup_insert_Some.
      * cbn. split_and!; [done..|left|]. intros r' Hr'. rewrite Hr' in Hro. apply bool_decide_eq_false in Hro. lia.
      * destruct (K4 id' i Hid) as (? & ? & ? & ?). split_and!; try done. apply elem_of_app. by right.
  - intros ev [K1 K2]. constructor; cbn [with_queue pending_queue outstanding_lookup_requests]; rewrite ?Hp, ?Hl.
    + intros id' i [[<- <-]|[Hne Hid]]%lookup_insert_Some; unfold apply_cmds; cbn; [by rewrite lookup_insert_eq|].
      rewrite lookup_insert_ne by congruence. by apply K1.
    + intros m i Hm. destruct (K2 m i Hm) as [target Ht]. exists target. unfold apply_cmds. cbn. by rewrite lookup_insert_ne.
  - intros [_ Hreq]. unfold cmds_ok. cbn. repeat constructor; [|by eexists]. by rewrite Hc.
  - intros ev id'. unfold apply_cmds. cbn. by rewrite lookup_insert_ne.
Qed.

Lemma remove_peer_moves s id : moves 0 ponged s (remove_peer_from_pending s id).1 (remove_peer_from_pending s id).2.
Proof.
  constructor; cbn; try done.
  - intros pinged [K1 K2 K3 K4]. constructor; try done. cbn. intros id' i [_ Hid]%lookup_delete_Some. by apply K4.
  - intros ev [K1 K2]. constructor; unfold apply_cmds; cbn.
    + intros id' i [Hne Hid]%lookup_delete_Some. rewrite lookup_delete_ne by congruence. by apply K1.
    + intros m i Hm. destruct (K2 m i Hm) as [target Ht]. exists target. by rewrite lookup_delete_ne.
  - intros _. repeat constructor.
  - intros ev id'. unfold apply_cmds. cbn. by rewrite lookup_delete_ne.
Qed.

Lemma insert_records_moves s rs : moves 0 ponged s (insert_records s rs).1 (insert_records s rs).2.
Proof.
  revert s. induction rs as [|r rs IH]; intros s; cbn [insert_records]; [apply moves_refl|].
  destruct (match recover_pubkey r with Some id => insert_peer_to_pending s id r | None => (s, []) end) as [s1 cmds] eqn:Hm. specialize (IH s1). destruct (insert_records s1 rs) as [s2 rest].
  cbn [fst snd] in *. apply (moves_trans 0 0 s s1); [|done]. destruct (recover_pubkey r) as [id|] eqn:Hr; [|injection Hm as <- <-; apply moves_refl].
  pose proof (insert_peer_moves s id r Hr) as Hmv. by rewrite Hm in Hmv.
Qed.

Lemma update_peers_moves s peers : moves 0 ponged s (update_peers s peers).1 (update_peers s peers).2.
Proof.
  revert s. induction peers as [|p peers IH]; intros s; cbn [update_peers]; [apply moves_refl|].
  destruct (if bool_decide _ then _ else _) as [s1 cmds] eqn:Hm. specialize (IH s1). destruct (update_peers s1 peers) as [s2 rest].
  cbn [fst snd] in *. apply (moves_trans 0 0 s s1); [|done]. case_bool_decide as Hr; [|injection Hm as <- <-; apply moves_refl].
  pose proof (insert_peer_moves s _ _ Hr) as Hmv. by rewrite Hm in Hmv.
Qed.

Lemma insert_bootstrap_moves s peers :
  (∀ id r, (id, r) ∈ peers → recover_pubkey r = Some id) → moves 0 ponged s (insert_bootstrap s peers).1 (insert_bootstrap s peers).2.
Proof.
  revert s. induction peers as [|[id r] peers IH]; intros s Hrec; cbn [insert_bootstrap]; [apply moves_refl|].
  pose proof (insert_peer_moves s id r (Hrec id r ltac:(left))) as Hmv. destruct (insert_peer_to_pending s id r) as [s1 cmds].
  specialize (IH s1 (λ id r Hin, Hrec id r ltac:(by right))). destruct (insert_bootstrap s1 peers) as [s2 rest]. cbn [fst snd] in *.
  by apply (moves_trans 0 0 s s1).
Qed.

(** ** Upstream validators *)

Lemma request_quiet s to :
  same_core s (send_full_node_raptorcast_request s to).1 ∧ Forall (quiet_cmd (pd_config s)) (send_full_node_raptorcast_request s to).2.
Proof.
  unfold send_full_node_raptorcast_request. case_bool_decide; [by split|]. destruct (participation_info s !! to) as [info|]; [|by split].
  destruct (status info); [by split| |]; [case_bool_decide; [by split|]|]; split; try done; repeat constructor.
Qed.

Lemma same_core_trans s1 s2 s3 : same_core s1 s2 → same_core s2 s3 → same_core s1 s3.
Proof. intros [] []. constructor; etrans; done. Qed.

Lemma connect_upstream_quiet s l :
  same_core s (connect_upstream s l).1 ∧ Forall (quiet_cmd (pd_config s)) (connect_upstream s l).2.
Proof.
  revert s. induction l as [|v l IH]; intros s; cbn [connect_upstream]; [by split|].
  pose proof (draw_core s) as Hd. destruct (draw s) as [n s1]. cbn [snd] in Hd.
  destruct (request_quiet s1 v) as [Hr Hq]. destruct (send_full_node_raptorcast_request s1 v) as [s2 request]. cbn [fst snd] in *.
  destruct (IH s2) as [Hc Hq']. destruct (connect_upstream s2 l) as [s3 rest]. cbn [fst snd] in *.
  split; [eapply same_core_trans; [done|by eapply same_core_trans]|]. constructor; [done|]. apply Forall_app.
  rewrite (sc_config _ _ Hr) in Hq'. rewrite (sc_config _ _ Hd) in Hq, Hq'. done.
Qed.

Lemma look_upstream_spec s :
  current_epoch s < u64_max → ∃ s' cmds, look_for_upstream_validators s = Ret (s', cmds) ∧ same_core s s' ∧ Forall (quiet_cmd (pd_config s)) cmds.
Proof.
  intros He. unfold look_for_upstream_validators. set (s1 := with_participation s _). case_bool_decide; [|by eexists _, _].
  match goal with |- context [filterM ?f ?l] => destruct (filterM_ret f l) as [available ->] end.
  { intros id _. case_bool_decide; [by eexists|]. rewrite membership_total by done. by eexists. }
  cbn [mbind exec_bind]. destruct (choose_multiple _ _ _) as [new r].
  pose proof (connect_upstream_quiet (with_pd_rng s1 r) new) as [Hc Hq]. destruct (connect_upstream _ new) as [s2 cmds].
  eexists s2, cmds. split; [done|]. split; [|done]. eapply (same_core_trans _ (with_pd_rng s1 r)); [|done]. by constructor.
Qed.

(** ** Answers *)

Lemma promote_spec s id i :
  current_epoch s < u64_max → pending_queue s !! id = Some i → (id, ping_id (last_ping i)) ∈ ponged →
  ∃ s' cmds, promote_peer_to_routing_info s id (ci_name_record i) = Ret (s', cmds) ∧ moves 0 ponged s s' cmds.
Proof.
  intros He Hi Hpong. unfold promote_peer_to_routing_info.
  set (s1 := with_participation _ _). assert (moves 0 ponged s (remove_peer_from_pending s1 id).1 (remove_peer_from_pending s1 id).2) as Hmv.
  { constructor; cbn; try done.
    - intros pinged [K1 K2 K3 K4]. destruct (K4 id i Hi) as (Hrec & Hself & Hping & _). constructor; cbn; try done.
      + intros id' r [[<- <-]|[_ Hid]]%lookup_insert_Some; [|by apply K3]. split_and!; [done..|]. by eexists.
      + intros id' i' [Hne Hid]%lookup_delete_Some. rewrite lookup_insert_ne by congruence. by apply K4.
    - intros ev Har. destruct (mv_armed _ _ _ _ _ (remove_peer_moves s id) ev Har) as [A B]. by constructor.
    - intros _. repeat constructor.
    - intros ev id'. unfold apply_cmds. cbn. by rewrite lookup_delete_ne. }
  destruct (remove_peer_from_pending s1 id) as [s2 cmds] eqn:Hrm. cbn [fst snd] in Hmv.
  assert (current_epoch s2 = current_epoch s) as He2 by (injection Hrm as <- <-; done).
  case_bool_decide; [|by eexists _, _]. destruct (look_upstream_spec s2) as (s3 & more & -> & Hc & Hq); [lia|]. cbn [mbind exec_bind].
  eexists _, _. split; [done|]. by apply (moves_trans 0 0 s s2); [|apply moves_quiet].
Qed.

Lemma handle_pong_spec s from pong :
  current_epoch s < u64_max → (from, pong_ping_id pong) ∈ ponged →
  ∃ s' cmds, handle_pong s from pong = Ret (s', cmds) ∧ moves 0 ponged s s' cmds.
Proof.
  intros He Hpong. unfold handle_pong. destruct (pending_queue s !! from) as [i|] eqn:Hi; [|by eexists _, _; split; [|apply moves_refl]].
  case_bool_decide as Hid; [|by eexists _, _; split; [|apply moves_refl]]. apply promote_spec; [done..|]. by rewrite Hid.
Qed.

Lemma handle_ping_spec s from ping :
  current_epoch s < u64_max → ∃ s' cmds, handle_ping s from ping = Ret (s', cmds) ∧ moves 0 ponged s s' cmds.
Proof.
  intros He. unfold handle_ping.
  assert (∀ s' addr m, same_core s s' → moves 0 ponged s s' [PDC_PingPongCommand from addr (PDM_Pong m)]) as Hpong.
  { intros s' addr m Hc. by apply moves_quiet; [|repeat constructor]. }
  assert (∃ b, (if bool_decide (max_num_peers (pd_config s) <= size (routing_info s) + size (pending_queue s))%nat then
       is_validator ← check_validator_membership s from;
       Ret (negb is_validator && bool_decide (from ∉ pinned_full_nodes (pd_config s)) && bool_decide (routing_info s !! from = None))
     else Ret false) = Ret b) as [full ->].
  { case_bool_decide; [|by eexists]. rewrite membership_total by done. by eexists. }
  cbn [mbind exec_bind]. destruct full; [eexists _, _; split; [done|by apply Hpong]|].
  destruct (match routing_info s !! from with Some l => bool_decide (record_seq (local_name_record ping) > record_seq l) | None => true end).
  - case_bool_decide as Hrec; [|by eexists _, _; split; [|apply moves_refl]]. pose proof (insert_peer_moves s from _ Hrec) as Hmv.
    destruct (insert_peer_to_pending s from _) as [s1 cmds]. eexists _, _. split; [done|]. apply (moves_trans 0 0 s s1); [done|].
    by apply moves_quiet; [|repeat constructor].
  - destruct (routing_info s !! from) as [l|]; [|eexists _, _; split; [done|by apply Hpong]].
    case_bool_decide; [by eexists _, _; split; [|apply moves_refl]|]. destruct (_ && _); [by eexists _, _; split; [|apply moves_refl]|].
    eexists _, _. split; [done|by apply Hpong].
Qed.

(** ** Requests *)

Lemma unique_id_spec s :
  Z.of_nat (size (outstanding_lookup_requests s)) < 2 ^ 32 →
  ∃ id s', settles (λ n, unique_lookup_id n s) (id, s') ∧ same_core s s' ∧ outstanding_lookup_requests s !! id = None.
Proof.
  intros Hsize. destruct (draws_escape (pd_rng s) (dom (outstanding_lookup_requests s))) as [n Hn]; [by rewrite size_dom|].
  clear Hsize. revert s Hn. induction n as [|n IH]; intros s Hn; cbn [nth_draw] in Hn.
  - pose proof (draw_core s) as Hc. unfold draw in Hc. destruct (next_u32 (pd_rng s)) as [id r] eqn:Hd. cbn [fst snd] in *.
    apply not_elem_of_dom in Hn. exists id, (with_pd_rng s r). split; [|done]. exists 1%nat. intros [|m] Hm; [lia|].
    cbn [unique_lookup_id]. unfold draw. rewrite Hd. rewrite bool_decide_false; [done|]. cbn. rewrite Hn. by intros [].
  - pose proof (draw_core s) as Hc. unfold draw in Hc. destruct (next_u32 (pd_rng s)) as [id r] eqn:Hd. cbn [fst snd] in *.
    destruct (decide (is_Some (outstanding_lookup_requests s !! id))) as [Hid|Hid].
    + destruct (IH (with_pd_rng s r) Hn) as (id' & s' & [F HF] & Hc' & Hnone). exists id', s'.
      split; [|split; [by eapply same_core_trans|done]]. exists (S F). intros [|m] Hm; [lia|]. cbn [unique_lookup_id]. unfold draw.
      rewrite Hd, bool_decide_true by done. apply HF. lia.
    + exists id, (with_pd_rng s r). split; [|split; [done|by apply eq_None_not_Some]]. exists 1%nat. intros [|m] Hm; [lia|].
      cbn [unique_lookup_id]. unfold draw. rewrite Hd. by rewrite bool_decide_false.
Qed.

Lemma issue_lookup_spec s target info :
  Z.of_nat (size (outstanding_lookup_requests s)) < 2 ^ 32 →
  ∃ s' cmds, settles (λ fuel, issue_lookup fuel s (receiver info) target info) (s', cmds) ∧ moves 1 ponged s s' cmds ∧
    routing_info s' = routing_info s ∧ current_epoch s' = current_epoch s.
Proof.
  intros Hsize. destruct (unique_id_spec s Hsize) as (id & s1 & Hid & [Hc He Hv Hr Hp Hl] & Hnone). eexists _, _. split.
  { eapply (settles_bind _ (λ _ x, let '(_, _) := x in _)); [exact Hid|]. apply settles_ret. }
  split; [|done]. constructor;
    cbn [with_lookups pd_config current_epoch epoch_validators routing_info pending_queue outstanding_lookup_requests];
    rewrite ?Hc, ?He, ?Hv, ?Hr, ?Hp, ?Hl; try done.
  - intros pinged [K1 K2 K3 K4]. constructor; cbn [with_lookups pd_config current_epoch epoch_validators routing_info pending_queue];
      by rewrite ?Hc, ?He, ?Hv, ?Hr, ?Hp.
  - intros ev [K1 K2]. constructor; cbn [with_lookups pending_queue outstanding_lookup_requests]; rewrite ?Hp, ?Hl; unfold apply_cmds; cbn.
    + intros id' i Hi. rewrite lookup_insert_ne by done. by apply K1.
    + intros n i [[<- <-]|[Hne Hn]]%lookup_insert_Some; [rewrite lookup_insert_eq; by eexists|].
      destruct (K2 n i Hn) as [t Ht]. exists t. rewrite lookup_insert_ne by congruence. done.
  - intros [_ Hreq]. unfold cmds_ok. cbn. repeat constructor; [|by eexists]. by rewrite Hc.
  - intros ev id'. unfold apply_cmds. cbn. by rewrite lookup_insert_ne.
  - rewrite map_size_insert_None by done. lia.
Qed.

Lemma lookup_request_spec s from request :
  current_epoch s < u64_max → ∃ s' cmds, handle_peer_lookup_request s from request = Ret (s', cmds) ∧ moves 0 ponged s s' cmds.
Proof.
  intros He. unfold handle_peer_lookup_request. set (rs := if bool_decide _ then _ else _). clearbody rs.
  assert (∃ s' rs', (if req_open_discovery request then
       validators ← filterM (λ kv : NodeId * MonadNameRecord, check_validator_membership s kv.1) (btree_iter (routing_info s));
       let '(chosen, r) := choose_multiple validators (pd_rng s) (MAX_PEER_IN_RESPONSE - length rs) in Ret (with_pd_rng s r, rs ++ chosen.*2)
     else Ret (s, rs)) = Ret (s', rs') ∧ same_core s s') as (s' & rs' & -> & Hc).
  { destruct (req_open_discovery request); [|by eexists _, _]. match goal with |- context [filterM ?f ?l] => destruct (filterM_ret f l) as [l' ->] end.
    - intros [id r] _. rewrite membership_total by done. by eexists.
    - cbn [mbind exec_bind]. destruct (choose_multiple _ _ _) as [chosen r]. by eexists _, _. }
  cbn [mbind exec_bind]. eexists _, _. split; [done|]. by apply moves_quiet; [|repeat constructor].
Qed.

Lemma lookup_response_moves s from response :
  moves 0 ponged s (handle_peer_lookup_response s from response).1 (handle_peer_lookup_response s from response).2.
Proof.
  unfold handle_peer_lookup_response.
  destruct (match outstanding_lookup_requests s !! _ with Some peer => bool_decide (receiver peer ≠ from) | None => true end); [apply moves_refl|].
  case_bool_decide; [apply moves_refl|]. pose proof (insert_records_moves s (resp_name_records response)) as Hmv.
  destruct (insert_records s (resp_name_records response)) as [s1 cmds]. cbn [fst snd] in *. destruct Hmv as [H1 H2 H3 H4 H5 H6]. constructor; try done.
  - intros pinged Hok. destruct (H1 pinged Hok) as [K1 K2 K3 K4]. by constructor.
  - intros ev Har. destruct (H2 ev Har) as [K1 K2]. constructor; [done|]. cbn. intros n i [_ Hn]%lookup_delete_Some. by apply K2.
  - cbn. etrans; [apply map_subseteq_size, delete_subseteq|done].
Qed.

Lemma raptorcast_messages_quiet s from :
  moves 0 ponged s (handle_full_node_raptorcast_request s from).1 (handle_full_node_raptorcast_request s from).2 ∧
  moves 0 ponged s (handle_full_node_raptorcast_response s from).1 (handle_full_node_raptorcast_response s from).2.
Proof.
  unfold handle_full_node_raptorcast_request, handle_full_node_raptorcast_response. split.
  - case_bool_decide; [apply moves_refl|]. destruct (participation_info s !! from); [|apply moves_refl]. by apply moves_quiet; [|repeat constructor].
  - case_bool_decide; [apply moves_refl|]. destruct (participation_info s !! from); [|apply moves_refl]. case_bool_decide; [|apply moves_refl].
    by apply moves_quiet.
Qed.

Lemma participation_moves s round peers : moves 0 ponged s (update_peer_participation s round peers) [].
Proof.
  apply moves_quiet; [|done]. unfold update_peer_participation. generalize (btree_nodes peers). intros l. revert s.
  induction l as [|x l IH]; intros s; [done|]. cbn [foldl]. eapply same_core_trans; [|apply IH]. by case_bool_decide.
Qed.

(** ** Rounds *)

(** A record that is known is not inserted again. *)
Lemma insert_known s id r : routing_info s !! id = Some r → insert_peer_to_pending s id r = (s, []).
Proof.
  intros Hr. unfold insert_peer_to_pending. case_bool_decide; [done|]. rewrite Hr. by rewrite bool_decide_true by lia.
Qed.

Lemma advertise_nothing s l : advertise s l = (s, []).
Proof.
  induction l as [|v l IH]; [done|]. cbn [advertise].
  destruct (routing_info s !! v) as [r|] eqn:Hr; [rewrite (insert_known s v r Hr)|]; by rewrite IH.
Qed.

Lemma become_validator_spec s : current_epoch s < u64_max → ∃ role, become_validator s = Ret (with_role s role, []).
Proof.
  intros He. assert (become_validator s = Ret (s, []) → ∃ role, become_validator s = Ret (with_role s role, [])) as Hid.
  { intros Hs. exists (self_role s). rewrite Hs. by destruct s. }
  unfold become_validator in *. destruct (_ || _); [|by apply Hid]. rewrite membership_total in * by done. cbn [mbind exec_bind] in *.
  destruct (is_validator s (self s)); [|by apply Hid]. cbn [with_role current_epoch].
  rewrite (checked_add_ok _ _ _ : _ → epoch_add _ _ = _) by lia. cbn [mbind exec_bind]. rewrite advertise_nothing. by eexists.
Qed.

Lemma resign_validator_spec s : current_epoch s < u64_max → ∃ role, resign_validator s = Ret (with_role s role).
Proof.
  intros He. unfold resign_validator. assert (s = with_role s (self_role s)) as Hid by (by destruct s).
  destruct (_ || _); [|exists (self_role s); by rewrite <-Hid]. rewrite membership_total by done. cbn [mbind exec_bind].
  destruct (is_validator s _); [exists (self_role s); by rewrite <-Hid|by eexists].
Qed.

Lemma update_round_spec s round epoch :
  current_epoch s < u64_max → epoch < u64_max → (∀ e vs, epoch_validators s !! e = Some vs → e < u64_max) →
  ∃ s', update_current_round s round epoch = Ret (s', []) ∧ moves 0 ponged s s' [] ∧ pending_queue s' = pending_queue s.
Proof.
  intros He Hepoch Hv. unfold update_current_round. set (s1 := if bool_decide _ then _ else s).
  assert (current_epoch s1 = current_epoch s ∧ same_core s s1) as [He1 Hc1] by (unfold s1; by case_bool_decide).
  assert (∃ s2, (if bool_decide (epoch > current_epoch s1) then
       '(s, cmds) ← become_validator (with_epoch s1 epoch); s ← resign_validator s; Ret (s, cmds)
     else Ret (s1, [])) = Ret (s2, []) ∧ current_epoch s2 < u64_max ∧ same_core (with_epoch s1 (current_epoch s2)) s2) as (s2 & -> & He2 & Hc2).
  { case_bool_decide; [|exists s1; split; [done|]; split; [lia|by destruct s1]].
    destruct (become_validator_spec (with_epoch s1 epoch)) as [role ->]; [done|]. cbn [mbind exec_bind].
    destruct (resign_validator_spec (with_role (with_epoch s1 epoch) role)) as [role' ->]; [done|]. cbn [mbind exec_bind].
    by eexists. }
  cbn [mbind exec_bind]. destruct Hc1 as [Hc1 _ Hv1 Hr1 Hp1 Hl1]. destruct Hc2 as [Hc2 _ Hv2 Hr2 Hp2 Hl2].
  cbn [with_epoch pd_config epoch_validators routing_info pending_queue outstanding_lookup_requests] in *.
  destruct (mapM_epoch_add (btree_keys (epoch_validators s2))) as [l' ->].
  { apply Forall_forall. intros e [vs Hvs]%elem_of_btree_keys. rewrite Hv2, Hv1 in Hvs. by eapply Hv. }
  cbn [mbind exec_bind]. eexists. split; [done|]. split; [|cbn; by rewrite Hp2, Hp1].
  constructor; cbn [with_validators pd_config current_epoch epoch_validators routing_info pending_queue outstanding_lookup_requests];
    rewrite ?Hc2, ?Hc1, ?Hr2, ?Hr1, ?Hp2, ?Hp1, ?Hl2, ?Hl1; try done.
  - intros pinged [K1 K2 K3 K4]. constructor;
      cbn [with_validators pd_config current_epoch epoch_validators routing_info pending_queue]; rewrite ?Hc2, ?Hc1, ?Hr2, ?Hr1, ?Hp2, ?Hp1; try done.
    intros e vs [Hvs _]%map_lookup_filter_Some. rewrite Hv2, Hv1 in Hvs. by eapply K2.
  - intros ev [K1 K2]. constructor; cbn [with_validators pending_queue outstanding_lookup_requests]; by rewrite ?Hp2, ?Hp1, ?Hl2, ?Hl1.
  - constructor.
Qed.

(** ** Refresh *)

Lemma moves_shrink s s' :
  pd_config s' = pd_config s → current_epoch s' = current_epoch s → epoch_validators s' = epoch_validators s →
  (∀ id r, routing_info s' !! id = Some r → routing_info s !! id = Some r) → pending_queue s' = pending_queue s →
  outstanding_lookup_requests s' = outstanding_lookup_requests s → moves 0 ponged s s' [].
Proof.
  intros Hc He Hv Hr Hp Hl. constructor; rewrite ?Hl; try done.
  - intros pinged [K1 K2 K3 K4]. constructor; rewrite ?Hc, ?He, ?Hv, ?Hp; try done.
    + intros id r Hid. by apply K3, Hr.
    + intros id i Hid. destruct (K4 id i Hid) as (? & ? & ? & Hseq). split_and!; try done. intros r Hid'. by apply Hseq, Hr.
  - intros ev [K1 K2]. by constructor; rewrite ?Hp, ?Hl.
  - constructor.
Qed.

Lemma remove_nodes_spec s l :
  let s' := remove_nodes s l in
  pd_config s' = pd_config s ∧ current_epoch s' = current_epoch s ∧ epoch_validators s' = epoch_validators s ∧
  pending_queue s' = pending_queue s ∧ outstanding_lookup_requests s' = outstanding_lookup_requests s ∧ self_role s' = self_role s ∧
  routing_info s' = foldl (λ m id, delete id m) (routing_info s) l.
Proof.
  cbn zeta. unfold remove_nodes. revert s. induction l as [|x l IH]; intros s; [done|]. cbn [foldl].
  exact (IH (with_routing (with_participation s (delete x (participation_info s))) (delete x (routing_info s)))).
Qed.

Lemma lookup_delete_all {V} (m : gmap NodeId V) l id :
  foldl (λ m id, delete id m) m l !! id = if bool_decide (id ∈ l) then None else m !! id.
Proof.
  revert m. induction l as [|x l IH]; intros m; [by rewrite bool_decide_false by apply not_elem_of_nil|]. cbn [foldl]. rewrite IH.
  case_bool_decide as Hin; [rewrite bool_decide_true; [done|by right]|]. destruct (decide (id = x)) as [->|Hne].
  - rewrite lookup_delete_eq, bool_decide_true; [done|left].
  - rewrite lookup_delete_ne by done. rewrite bool_decide_false; [done|]. by intros [?|?]%elem_of_cons.
Qed.

Lemma size_delete_all {V} (m : gmap NodeId V) l :
  NoDup l → (∀ id, id ∈ l → is_Some (m !! id)) → (size (foldl (λ m id, delete id m) m l) + length l = size m)%nat.
Proof.
  intros Hnd. revert m. induction Hnd as [|x l Hx Hnd IH]; intros m Hl; cbn [foldl length]; [lia|].
  destruct (Hl x ltac:(left)) as [v Hv]. specialize (IH (delete x m)). rewrite (map_size_delete_Some x m) in IH by by eexists.
  assert (size m ≠ 0%nat) by (intros ->%map_size_empty_inv; by rewrite lookup_empty in Hv).
  assert (∀ id, id ∈ l → is_Some (delete x m !! id)) as Hl'; [|specialize (IH Hl'); lia].
  intros id Hid. rewrite lookup_delete_ne by (intros <-; done). apply Hl. by right.
Qed.

(** The unpinned part of the table *)
Definition unpinned (s : PeerDiscovery) : gmap NodeId MonadNameRecord := filter (λ kv : NodeId * MonadNameRecord, is_pinned s kv.1 = false) (routing_info s).

(** What [refresh] does to the table *)
Record pruned (s s' : PeerDiscovery) : Prop := {
  pr_moves : moves 0 ponged s s' [];
  pr_epoch : current_epoch s' = current_epoch s;
  pr_validators : epoch_validators s' = epoch_validators s;
  pr_lookups : outstanding_lookup_requests s' = outstanding_lookup_requests s;
  pr_role : self_role s' = self_role s;
  pr_sub id r : routing_info s' !! id = Some r → routing_info s !! id = Some r;
  pr_pinned id : is_pinned s id = true → routing_info s' !! id = routing_info s !! id;
}.

Lemma pruned_pinned s s' id : pruned s s' → is_pinned s' id = is_pinned s id.
Proof. intros H. unfold is_pinned, is_validator. by rewrite (pr_epoch _ _ H), (pr_validators _ _ H), (mv_config _ _ _ _ _ (pr_moves _ _ H)). Qed.

Lemma remove_nodes_pruned s l : (∀ id, id ∈ l → is_pinned s id = false) → pruned s (remove_nodes s l).
Proof.
  intros Hl. destruct (remove_nodes_spec s l) as (Hc & He & Hv & Hp & Hlk & Hro & Hr).
  assert (∀ id, routing_info (remove_nodes s l) !! id = if bool_decide (id ∈ l) then None else routing_info s !! id) as Hlook
    by (intros id; rewrite Hr; apply lookup_delete_all).
  assert (∀ id r, routing_info (remove_nodes s l) !! id = Some r → routing_info s !! id = Some r) as Hsub.
  { intros id r. rewrite Hlook. by case_bool_decide. }
  constructor; try done; [by apply moves_shrink|]. intros id Hid. rewrite Hlook. rewrite bool_decide_false; [done|].
  intros Hin. by rewrite (Hl id Hin) in Hid.
Qed.

Lemma pruned_trans s1 s2 s3 : pruned s1 s2 → pruned s2 s3 → pruned s1 s3.
Proof.
  intros H K. constructor.
  - apply (moves_trans 0 0 s1 s2 s3 [] []); [apply H|apply K].
  - by rewrite (pr_epoch _ _ K), (pr_epoch _ _ H).
  - by rewrite (pr_validators _ _ K), (pr_validators _ _ H).
  - by rewrite (pr_lookups _ _ K), (pr_lookups _ _ H).
  - by rewrite (pr_role _ _ K), (pr_role _ _ H).
  - intros id r Hr. by apply (pr_sub _ _ H), (pr_sub _ _ K).
  - intros id Hp. rewrite (pr_pinned _ _ K), (pr_pinned _ _ H); [done..|]. by rewrite (pruned_pinned _ _ _ H).
Qed.

Lemma remove_inactive_spec s :
  current_epoch s < u64_max → ∃ s', remove_inactive s = Ret s' ∧ pruned s s' ∧
    ∀ id info, participation_info s !! id = Some info → rounds_inactive s info >= last_participation_prune_threshold (pd_config s) →
      is_pinned s id = false → routing_info s' !! id = None.
Proof.
  intros He. unfold remove_inactive.
  rewrite (filterM_total _ (λ kv : NodeId * SecondaryRaptorcastInfo,
    bool_decide (rounds_inactive s kv.2 >= last_participation_prune_threshold (pd_config s)) && negb (is_pinned s kv.1))).
  2:{ intros [id info] _. case_bool_decide; [|done]. cbn. by rewrite pinned_total. }
  cbn [mbind exec_bind]. eexists. split; [done|]. split.
  - apply remove_nodes_pruned. intros id ([id' info] & -> & [Hf _]%list_elem_of_filter)%list_elem_of_fmap. cbn in *.
    apply andb_true_iff in Hf as [_ Hf]. by apply negb_true_iff in Hf.
  - intros id info Hid Hin Hp. destruct (remove_nodes_spec s (filter (λ kv : NodeId * SecondaryRaptorcastInfo,
      bool_decide (rounds_inactive s kv.2 >= last_participation_prune_threshold (pd_config s)) && negb (is_pinned s kv.1) = true)
      (btree_iter (participation_info s))).*1) as (_ & _ & _ & _ & _ & _ & Hr). rewrite Hr, lookup_delete_all, bool_decide_true; [done|].
    apply list_elem_of_fmap. exists (id, info). split; [done|]. apply list_elem_of_filter. cbn. rewrite bool_decide_true, Hp by done.
    split; [done|]. by apply elem_of_btree_iter.
Qed.

Lemma prune_excess_spec s :
  current_epoch s < u64_max → ∃ s', prune_excess s = Ret s' ∧ pruned s s' ∧
    ((size (routing_info s') <= max_num_peers (pd_config s))%nat ∨ ∀ id r, routing_info s' !! id = Some r → is_pinned s id = true).
Proof.
  intros He. unfold prune_excess. case_bool_decide as Hbig; [|exists s; split; [done|]; split; [|left; lia]].
  2:{ by constructor; [apply moves_refl|..]. }
  rewrite (filterM_total _ (λ id, negb (is_pinned s id))) by (intros id _; by rewrite pinned_total). cbn [mbind exec_bind].
  set (ex := filter (λ id, negb (is_pinned s id) = true) (btree_keys (routing_info s))).
  destruct (choose_multiple_part ex (pd_rng s) (size (routing_info s) - max_num_peers (pd_config s))) as (rest & Hperm & Hlen).
  destruct (choose_multiple ex _ _) as [chosen r]. cbn [fst] in *.
  assert (NoDup ex) as Hnd by apply NoDup_filter, NoDup_btree_keys.
  assert (∀ id, id ∈ ex ↔ is_pinned s id = false ∧ is_Some (routing_info s !! id)) as Hex.
  { intros id. unfold ex. rewrite list_elem_of_filter, negb_true_iff, elem_of_btree_keys. done. }
  assert (NoDup chosen ∧ ∀ id, id ∈ chosen → id ∈ ex) as [Hndc Hsub].
  { split; [rewrite Hperm in Hnd; by apply NoDup_app in Hnd as (? & _)|]. intros id Hid. rewrite Hperm. apply elem_of_app. by left. }
  eexists. split; [done|]. split.
  - apply (pruned_trans s (with_pd_rng s r)); [by constructor; [apply moves_quiet|..]|]. apply remove_nodes_pruned. intros id Hid. by apply Hex, Hsub.
  - destruct (remove_nodes_spec (with_pd_rng s r) chosen) as (_ & _ & _ & _ & _ & _ & ->). cbn [with_pd_rng routing_info].
    pose proof (size_delete_all (routing_info s) chosen Hndc (λ id Hid, proj2 (proj1 (Hex id) (Hsub id Hid)))) as Hsize.
    destruct (decide (size (routing_info s) - max_num_peers (pd_config s) <= length ex)%nat) as [Hle|Hgt]; [left; lia|right].
    assert (rest = []) as -> by (apply Permutation_length in Hperm; rewrite length_app in Hperm; apply nil_length_inv; lia).
    rewrite app_nil_r in Hperm. intros id r'. rewrite lookup_delete_all. case_bool_decide as Hin; [done|]. intros Hid.
    destruct (is_pinned s id) eqn:Hp; [done|]. destruct Hin. rewrite <-Hperm. apply Hex. by split; [|eexists].
Qed.

Lemma send_lookups_spec s b l :
  Z.of_nat (length l + size (outstanding_lookup_requests s)) <= 2 ^ 32 →
  ∃ s' cmds, settles (λ fuel, send_lookups fuel s b l) (s', cmds) ∧ moves (length l) ponged s s' cmds ∧
    routing_info s' = routing_info s ∧ current_epoch s' = current_epoch s.
Proof.
  revert s. induction l as [|[v peer] l IH]; intros s Hsize; cbn [send_lookups length] in *.
  { exists s, []. split; [apply settles_ret|]. split; [apply moves_refl|done]. }
  destruct (issue_lookup_spec s v (mkLookupInfo 0 peer b)) as (s1 & cmds & Hset & Hmv & Hr & He); [lia|].
  pose proof (mv_lookups _ _ _ _ _ Hmv) as Hl. destruct (IH s1) as (s2 & rest & Hset' & Hmv' & Hr' & He'); [lia|].
  exists s2, (cmds ++ rest). split.
  - eapply (settles_bind _ (λ fuel x, let '(s, cmds) := x in '(s, rest) ← send_lookups fuel s b l; Ret (s, cmds ++ rest))); [exact Hset|].
    eapply (settles_bind _ (λ fuel x, let '(s, rest) := x in Ret (s, cmds ++ rest))); [exact Hset'|]. apply settles_ret.
  - split; [by apply (moves_trans 1 (length l) s s1)|]. split; congruence.
Qed.

Lemma look_up_missing_spec s :
  current_epoch s < u64_max → Z.of_nat (size (outstanding_lookup_requests s)) + 3 <= 2 ^ 32 →
  ∃ s' cmds, settles (λ fuel, look_up_missing fuel s) (s', cmds) ∧ moves 3 ponged s s' cmds ∧
    routing_info s' = routing_info s ∧ current_epoch s' = current_epoch s.
Proof.
  intros He Hsize. unfold look_up_missing. rewrite (checked_add_ok _ _ _ : _ → epoch_add _ _ = _) by lia. cbn [mbind exec_bind].
  match goal with |- context [choose_multiple (hash_nodes ?X) ?r ?n] => destruct (choose_multiple_part (hash_nodes X) r n) as (_ & _ & Hlen);
    destruct (choose_multiple (hash_nodes X) r n) as [missing r1] end.
  destruct (choose_multiple (btree_keys (routing_info s)) r1 NUM_LOOKUP_PEERS) as [chosen r2]. cbn [fst] in Hlen.
  assert (length (zip missing chosen) <= 3)%nat as Hzip by (rewrite length_zip_with; unfold NUM_LOOKUP_PEERS in *; lia).
  destruct (send_lookups_spec (with_pd_rng s r2) (bool_decide (size (routing_info (with_pd_rng s r2)) < min_num_peers (pd_config (with_pd_rng s r2)))%nat)
    (zip missing chosen)) as (s' & cmds & Hset & Hmv & Hr & He'); [cbn; lia|]. exists s', cmds. split; [done|]. split; [|done].
  destruct (moves_trans 0 (length (zip missing chosen)) s (with_pd_rng s r2) s' [] cmds) as [H1 H2 H3 H4 H5 H6]; [by apply moves_quiet|done|]. constructor; try done. lia.
Qed.

Lemma pd_refresh_spec s :
  current_epoch s < u64_max → Z.of_nat (size (outstanding_lookup_requests s)) + 3 <= 2 ^ 32 →
  ∃ s' cmds, settles (λ fuel, refresh fuel s) (s', cmds ++ reset_refresh_timer s' ++ [PDC_MetricsCommand]) ∧ moves 3 ponged s s' cmds ∧
    (∀ id r, routing_info s' !! id = Some r → routing_info s !! id = Some r) ∧
    (∀ id, is_pinned s id = true → routing_info s' !! id = routing_info s !! id) ∧
    (∀ id info, participation_info s !! id = Some info → rounds_inactive s info >= last_participation_prune_threshold (pd_config s) →
       is_pinned s id = false → routing_info s' !! id = None) ∧
    ((size (routing_info s') <= max_num_peers (pd_config s))%nat ∨ ∀ id r, routing_info s' !! id = Some r → is_pinned s id = true).
Proof.
  intros He Hsize. destruct (remove_inactive_spec s He) as (s1 & Hrm & Hp1 & Hin).
  destruct (prune_excess_spec s1) as (s2 & Hpr & Hp2 & Hbound); [by rewrite (pr_epoch _ _ Hp1)|].
  pose proof (pruned_trans _ _ _ Hp1 Hp2) as Hp. destruct (look_up_missing_spec s2) as (s3 & cmds & Hset & Hmv & Hr3 & He3);
    [by rewrite (pr_epoch _ _ Hp)|by rewrite (pr_lookups _ _ Hp)|].
  assert (∃ s4 more, (if bool_decide (self_role s3 = FullNodeClient) then look_for_upstream_validators s3 else Ret (s3, [])) = Ret (s4, more) ∧
    same_core s3 s4 ∧ Forall (quiet_cmd (pd_config s3)) more) as (s4 & more & Hlook & Hc & Hq).
  { case_bool_decide; [|by eexists _, _]. apply look_upstream_spec. rewrite He3. by rewrite (pr_epoch _ _ Hp). }
  exists s4, (cmds ++ more). split.
  - rewrite <-app_assoc. unfold refresh. rewrite Hrm. cbn [mbind exec_bind]. rewrite Hpr. cbn [mbind exec_bind].
    eapply (settles_bind _ (λ fuel x, let '(s, lookups) := x in
      '(s, upstream) ← (if bool_decide (self_role s = FullNodeClient) then look_for_upstream_validators s else Ret (s, []));
      Ret (s, lookups ++ upstream ++ reset_refresh_timer s ++ [PDC_MetricsCommand]))); [exact Hset|]. cbn beta iota. rewrite Hlook. cbn [mbind exec_bind].
    apply settles_ret.
  - split.
    { apply (moves_trans 3 0 s s3); [|by apply moves_quiet]. apply (moves_trans 0 3 s s2 s3 [] cmds); [apply Hp|done]. }
    rewrite (sc_routing _ _ Hc), Hr3. split; [apply Hp|]. split; [apply Hp|]. split.
    + intros id info Hid Hi Hpin. destruct (routing_info s2 !! id) as [r|] eqn:Hr; [|done]. apply (pr_sub _ _ Hp2) in Hr.
      by rewrite (Hin id info Hid Hi Hpin) in Hr.
    + rewrite (mv_config _ _ _ _ _ (pr_moves _ _ Hp1)) in Hbound. destruct Hbound as [?|Hall]; [by left|right].
      intros id r Hid. rewrite <-(pruned_pinned _ _ _ Hp1). by eapply Hall.
Qed.

(** ** Expired timers *)

(** A handler of an expired timer, which is no longer set *)
Definition turn_ok (s s' : PeerDiscovery) (n : NodeId) (kind : TimerKind) (e : PeerDiscoveryEvent) (cmds : list PeerDiscoveryCommand) : Prop :=
  ∀ ev pinged, pd_ok s pinged ponged → armed s ev → ev !! (n, kind) = Some e →
    pd_ok s' (pings cmds ++ pinged) ponged ∧ armed s' (apply_cmds (delete (n, kind) ev) cmds) ∧ pd_config s' = pd_config s ∧
    (config_ok (pd_config s) → cmds_ok (self s) cmds) ∧
    (ev !! (self s, TK_Refresh) = Some PDE_Refresh → apply_cmds (delete (n, kind) ev) cmds !! (self s, TK_Refresh) = Some PDE_Refresh) ∧
    (size (outstanding_lookup_requests s') <= (if bool_decide (kind = TK_Refresh) then 3 else 0) + size (outstanding_lookup_requests s))%nat.

(** The handler forgets what waited for the timer, and goes on from there. *)
Lemma turn_from s s0 s' n kind e cmds :
  pd_config s0 = pd_config s → (∀ pinged, pd_ok s pinged ponged → pd_ok s0 pinged ponged) →
  (∀ ev, armed s ev → armed s0 (delete (n, kind) ev)) →
  kind ≠ TK_Refresh → (∃ k, moves k ponged s0 s' cmds ∧ (k + size (outstanding_lookup_requests s0) <= size (outstanding_lookup_requests s))%nat) →
  turn_ok s s' n kind e cmds.
Proof.
  intros Hc Hok Har Hk (k & [H1 H2 H3 H4 H5 H6] & Hsize) ev pinged K1 K2 Hev. rewrite bool_decide_false by done. rewrite Hc in *.
  split; [by apply H1, Hok|]. split; [by apply H2, Har|]. split; [done|]. split; [done|]. split; [|lia]. intros Hre.
  rewrite H5, lookup_delete_ne by congruence. done.
Qed.

(** A timer that nothing waits for *)
Lemma turn_spare s s' n kind e cmds :
  kind ≠ TK_PingTimeout ∨ pending_queue s !! n = None →
  (∀ id, kind = TK_RetryPeerLookup id → outstanding_lookup_requests s !! id = None) →
  kind ≠ TK_Refresh → moves 0 ponged s s' cmds → turn_ok s s' n kind e cmds.
Proof.
  intros Hp Hl Hk Hmv. apply (turn_from s s); try done; [|by exists 0%nat]. intros ev [K1 K2]. constructor.
  - intros id i Hi. rewrite lookup_delete_ne; [by apply K1|]. intros [= -> ->]. destruct Hp as [?|Hp]; [done|]. by rewrite Hi in Hp.
  - intros m i Hm. destruct (K2 m i Hm) as [t Ht]. exists t. rewrite lookup_delete_ne; [done|]. intros [= -> ->]. by rewrite (Hl m eq_refl) in Hm.
Qed.

Lemma clear_moves s id : pending_queue s !! id = None → moves 0 ponged s s (clear_ping_timeout id).
Proof.
  intros Hid. destruct (remove_peer_moves s id) as [H1 H2 H3 H4 H5 H6]. constructor; try done.
  intros ev Har. destruct (H2 ev Har) as [K1 K2]. cbn in *. rewrite (delete_id _ _ Hid) in K1. by constructor.
Qed.

Lemma ping_timeout_turn s n id :
  turn_ok s (handle_ping_timeout s n id).1 n TK_PingTimeout (PDE_PingTimeout n id) (handle_ping_timeout s n id).2.
Proof.
  unfold handle_ping_timeout. destruct (pending_queue s !! n) as [i|] eqn:Hi; [|apply turn_spare; [by right|done|done|apply moves_refl]].
  case_bool_decide as Hid.
  2:{ intros ev pinged _ [K1 _] Hev. rewrite (K1 n i Hi) in Hev. by injection Hev. }
  case_bool_decide as Hthr.
  { apply (turn_from s (with_queue s (delete n (pending_queue s)))); try done.
    - intros pinged [K1 K2 K3 K4]. constructor; try done. cbn. intros id' i' [_ ?]%lookup_delete_Some. by apply K4.
    - intros ev Har. apply (mv_armed _ _ _ _ _ (remove_peer_moves s n) ev Har).
    - exists 0%nat. split; [|done]. apply clear_moves. apply lookup_delete_eq. }
  pose proof (draw_core s) as [Hc He Hv Hr Hp Hl]. destruct (draw s) as [new s1]. cbn [fst snd] in *. intros ev pinged [K1 K2 K3 K4] [A1 A2] Hev.
  destruct (K4 n i Hi) as (Hrec & Hself & Hping & Hseq). split; [|split; [|split; [|split; [|split]]]].
  - constructor; cbn [with_queue pd_config current_epoch epoch_validators routing_info pending_queue]; rewrite ?Hc, ?He, ?Hv, ?Hr, ?Hp; try done.
    + intros id' r Hid'. destruct (K3 id' r Hid') as (? & ? & m & ? & ?). split_and!; try done. exists m. split; [by right|done].
    + intros id' i' [[<- <-]|[Hne Hid']]%lookup_insert_Some; [split_and!; [done..|left|done]|].
      destruct (K4 id' i' Hid') as (? & ? & ? & ?). split_and!; try done. by right.
  - constructor; cbn [with_queue pending_queue outstanding_lookup_requests]; rewrite ?Hp, ?Hl; unfold apply_cmds; cbn.
    + intros id' i' [[<- <-]|[Hne Hid']]%lookup_insert_Some; [by rewrite lookup_insert_eq|].
      rewrite lookup_insert_ne, lookup_delete_ne by congruence. by apply A1.
    + intros m i' Hm. destruct (A2 m i' Hm) as [t Ht]. exists t. by rewrite lookup_insert_ne, lookup_delete_ne.
  - done.
  - intros [_ Hreq]. unfold cmds_ok. cbn. repeat constructor; [by rewrite Hc|by eexists].
  - intros Hre. unfold apply_cmds. cbn. by rewrite lookup_insert_ne, lookup_delete_ne.
  - cbn. by rewrite Hl.
Qed.

Lemma lookup_timeout_turn s n target id :
  Z.of_nat (size (outstanding_lookup_requests s)) + 3 <= 2 ^ 32 →
  ∃ s' cmds, settles (λ fuel, handle_peer_lookup_timeout fuel s n target id) (s', cmds) ∧
    turn_ok s s' n (TK_RetryPeerLookup id) (PDE_PeerLookupTimeout n target id) cmds.
Proof.
  intros Hsize. unfold handle_peer_lookup_timeout. destruct (outstanding_lookup_requests s !! id) as [info|] eqn:Hid.
  2:{ exists s, []. split; [apply settles_ret|]. apply turn_spare; [by left|by intros ? [= <-]|done|apply moves_refl]. }
  set (s0 := with_lookups s (delete id (outstanding_lookup_requests s))).
  assert (S (size (outstanding_lookup_requests s0)) = size (outstanding_lookup_requests s)) as Hs0.
  { cbn. rewrite map_size_delete_Some by by eexists.
    assert (size (outstanding_lookup_requests s) ≠ 0%nat) by (intros Hz%map_size_empty_inv; by rewrite Hz, lookup_empty in Hid). lia. }
  assert (∀ s' k cmds, moves k ponged s0 s' cmds → (k <= 1)%nat → turn_ok s s' n (TK_RetryPeerLookup id) (PDE_PeerLookupTimeout n target id) cmds) as Hturn.
  { intros s' k cmds Hmv Hk. apply (turn_from s s0); try done; [| |exists k; split; [done|lia]].
    - intros pinged [K1 K2 K3 K4]. by constructor.
    - intros ev [A1 A2]. constructor; cbn.
      + intros id' i Hi. rewrite lookup_delete_ne by done. by apply A1.
      + intros m i [Hne Hm]%lookup_delete_Some. destruct (A2 m i Hm) as [t Ht]. exists t. rewrite lookup_delete_ne by congruence. done. }
  case_bool_decide; [exists s0, []; split; [apply settles_ret|]; apply (Hturn s0 0%nat); [apply moves_refl|lia]|].
  destruct (issue_lookup_spec s0 target (mkLookupInfo ((lookup_num_retries info + 1) mod 2 ^ 32) n (open_discovery info))) as
    (s' & cmds & Hset & Hmv & _); [lia|]. exists s', cmds. split; [done|]. by eapply Hturn.
Qed.

Lemma refresh_turn s :
  current_epoch s < u64_max → Z.of_nat (size (outstanding_lookup_requests s)) + 3 <= 2 ^ 32 →
  ∃ s' cmds, settles (λ fuel, refresh fuel s) (s', cmds) ∧ turn_ok s s' (self s) TK_Refresh PDE_Refresh cmds.
Proof.
  intros He Hsize. destruct (pd_refresh_spec s He Hsize) as (s' & cmds & Hset & Hmv & _). exists s'. eexists. split; [exact Hset|].
  destruct Hmv as [H1 H2 H3 H4 H5 H6]. intros ev pinged K1 K2 Hev. rewrite bool_decide_true by done.
  rewrite !apply_cmds_app. assert (∀ ev', apply_cmds (apply_cmds ev' (reset_refresh_timer s')) [PDC_MetricsCommand] = <[(self s, TK_Refresh) := PDE_Refresh]> ev') as Htail.
  { intros ev'. unfold apply_cmds. cbn. rewrite H3. by rewrite insert_delete_eq. }
  rewrite Htail. split; [|split; [|split; [done|split; [|split; [|done]]]]].
  - eapply pd_ok_mono; [|done|by apply H1]. unfold pings. rewrite !omap_app. intros x. rewrite !elem_of_app. tauto.
  - assert (armed s (delete (self s, TK_Refresh) ev)) as K3.
    { destruct K2 as [A1 A2]. constructor.
      - intros id i Hi. rewrite lookup_delete_ne by done. by apply A1.
      - intros n i Hn. destruct (A2 n i Hn) as [t Ht]. exists t. by rewrite lookup_delete_ne. }
    destruct (H2 _ K3) as [A1 A2]. constructor.
    + intros id i Hi. rewrite lookup_insert_ne by done. by apply A1.
    + intros n i Hn. destruct (A2 n i Hn) as [t Ht]. exists t. by rewrite lookup_insert_ne.
  - intros Hcfg. rewrite !cmds_ok_app. split; [by apply H4|]. split; [|by constructor]. unfold cmds_ok. cbn. rewrite H3.
    repeat constructor. by destruct Hcfg.
  - intros _. apply lookup_insert_eq.
Qed.

Lemma turn_spec s n kind e :
  current_epoch s < u64_max → Z.of_nat (size (outstanding_lookup_requests s)) + 3 <= 2 ^ 32 → alarm_ok (self s) n kind e →
  ∃ s' cmds, settles (λ fuel, pd_handle fuel s e) (s', cmds) ∧ turn_ok s s' n kind e cmds.
Proof.
  intros He Hsize Ha. destruct kind as [| |id| |]; cbn in Ha; [done| | | |].
  - destruct Ha as [id ->]. exists (handle_ping_timeout s n id).1, (handle_ping_timeout s n id).2. split; [|apply ping_timeout_turn].
    cbn [pd_handle]. rewrite <-surjective_pairing. apply settles_ret.
  - destruct Ha as [target ->]. by apply lookup_timeout_turn.
  - destruct Ha as [-> ->]. by apply refresh_turn.
  - subst e. destruct (request_quiet s n) as [Hc Hq]. exists (send_full_node_raptorcast_request s n).1, (send_full_node_raptorcast_request s n).2.
    split; [cbn [pd_handle]; rewrite <-surjective_pairing; apply settles_ret|]. apply turn_spare; [by left|done|done|by apply moves_quiet].
Qed.
End moves.

(** * Runs of the driver *)

Section driver.
Context `{DQ : !DelayQueue (NodeId * TimerKind)} `{DL : !DelayQueueLaws DQ}.

Inductive DriverInput :=
| DI_Message (from : NodeId) (message : PeerDiscoveryMessage)
| DI_UpdateCurrentRound (round : Round) (epoch : Epoch)
| DI_UpdateValidatorSet (epoch : Epoch) (validators : gset NodeId)
| DI_UpdatePeers (peers : list PeerEntry)
| DI_UpdateConfirmGroup (end_round : Round) (peers : gset NodeId)
| DI_Poll.

Definition input_event (i : DriverInput) : option PeerDiscoveryEvent :=
  match i with
  | DI_Message from message => Some (discovery_event message from)
  | DI_UpdateCurrentRound round epoch => Some (PDE_UpdateCurrentRound round epoch)
  | DI_UpdateValidatorSet epoch validators => Some (PDE_UpdateValidatorSet epoch validators)
  | DI_UpdatePeers peers => Some (PDE_UpdatePeers peers)
  | DI_UpdateConfirmGroup end_round peers => Some (PDE_UpdateConfirmGroup end_round peers)
  | DI_Poll => None
  end.

(** An input at a time: what is emitted is returned. *)
Definition driver_input (fuel : nat) (d : PeerDiscoveryDriver) (i : DriverInput * Z) : exec (PeerDiscoveryDriver * list PeerDiscoveryEmit) :=
  match input_event i.1 with
  | Some event => d ← driver_update fuel d i.2 event; Ret (d, [])
  | None => '(d, emit) ← driver_poll fuel (size (events (pd_timer d))) d i.2; Ret (d, option_list emit)
  end.

Fixpoint driver_run (fuel : nat) (d : PeerDiscoveryDriver) (inputs : list (DriverInput * Z)) : exec (PeerDiscoveryDriver * list PeerDiscoveryEmit) :=
  match inputs with
  | [] => Ret (d, [])
  | i :: inputs => '(d, out) ← driver_input fuel d i; '(d, outs) ← driver_run fuel d inputs; Ret (d, out ++ outs)
  end.

Definition driver_input_ok (i : DriverInput * Z) : Prop :=
  match i.1 with DI_UpdateCurrentRound _ epoch | DI_UpdateValidatorSet epoch _ => epoch < u64_max | _ => True end.

(** Pings that are emitted, and pongs that are received *)
Definition emit_ping (e : PeerDiscoveryEmit) : option (NodeId * SocketAddrV4 * Z) :=
  match e with PDX_PingPongCommand to addr (PDM_Ping ping) => Some (to, addr, ping_id ping) | _ => None end.
Definition input_pong (i : DriverInput * Z) : option (NodeId * Z) :=
  match i.1 with DI_Message from (PDM_Pong pong) => Some (from, pong_ping_id pong) | _ => None end.

Lemma emit_pings cmds : omap emit_ping (omap emit_of cmds) = pings cmds.
Proof. induction cmds as [|[to m|to addr m|c|] cmds IH]; cbn; by rewrite ?IH. Qed.

(** [emitted] is what was emitted before. *)
Record driver_ok (d : PeerDiscoveryDriver) (emitted : list PeerDiscoveryEmit) (ponged : list (NodeId * Z)) : Prop := {
  dk_pd : pd_ok (pd d) (omap emit_ping (emitted ++ pending_emits d)) ponged;
  dk_armed : armed (pd d) (alarms_of (pd_timer d));
  dk_timers : timers_ok (self (pd d)) (pd_timer d);
  dk_refresh : alarms_of (pd_timer d) !! (self (pd d), TK_Refresh) = Some PDE_Refresh;
  dk_config : config_ok (pd_config (pd d));
}.

Lemma driver_exec_spec d now s' cmds emitted ponged :
  pd_config s' = pd_config (pd d) → timers_ok (self (pd d)) (pd_timer d) → config_ok (pd_config (pd d)) → cmds_ok (self (pd d)) cmds →
  pd_ok s' (pings cmds ++ omap emit_ping (emitted ++ pending_emits d)) ponged → armed s' (apply_cmds (alarms_of (pd_timer d)) cmds) →
  apply_cmds (alarms_of (pd_timer d)) cmds !! (self s', TK_Refresh) = Some PDE_Refresh →
  ∃ d', driver_exec (mkPeerDiscoveryDriver s' (pd_timer d) (pending_emits d)) now cmds = Ret d' ∧ driver_ok d' emitted ponged ∧ pd d' = s' ∧
    (due now (pd_timer d') <= due now (pd_timer d))%nat ∧ set_later now (pd_timer d) (pd_timer d').
Proof.
  intros Hc Ht Hcfg Hcmds Hok Har Hre. unfold driver_exec. cbn [pd_timer pd pending_emits].
  destruct (timers_exec_all_spec (self (pd d)) (pd_timer d) now (omap timer_cmd_of cmds) Ht Hcmds) as (t & -> & Ht' & Hdue & Hal & Hold).
  cbn [mbind exec_bind]. eexists. split; [done|]. split; [|done]. constructor; cbn [pd pd_timer pending_emits]; rewrite ?Hc, ?Hal; try done.
  - eapply pd_ok_mono; [|done|exact Hok]. rewrite !omap_app, emit_pings. intros x. rewrite !elem_of_app. tauto.
  - by rewrite <-Hc.
Qed.

(** ** One input *)

Lemma message_spec ponged s from m :
  current_epoch s < u64_max → (∀ pong, m = PDM_Pong pong → (from, pong_ping_id pong) ∈ ponged) →
  ∃ s' cmds, (∀ fuel, pd_handle fuel s (discovery_event m from) = Ret (s', cmds)) ∧ moves 0 ponged s s' cmds.
Proof.
  intros He Hpong. destruct m as [ping|pong|req|resp| |]; cbn [discovery_event pd_handle].
  - destruct (handle_ping_spec ponged s from ping He) as (s' & cmds & -> & ?). by eexists _, _.
  - destruct (handle_pong_spec ponged s from pong He) as (s' & cmds & -> & ?); [by apply Hpong|]. by eexists _, _.
  - destruct (lookup_request_spec ponged s from req He) as (s' & cmds & -> & ?). by eexists _, _.
  - eexists _, _. split; [intros _; by rewrite <-surjective_pairing|]. apply lookup_response_moves.
  - eexists _, _. split; [intros _; by rewrite <-surjective_pairing|]. apply raptorcast_messages_quiet.
  - eexists _, _. split; [intros _; by rewrite <-surjective_pairing|]. apply raptorcast_messages_quiet.
Qed.

Lemma event_spec ponged s i e pinged :
  pd_ok s pinged ponged → driver_input_ok i → input_event i.1 = Some e → (∀ x, input_pong i = Some x → x ∈ ponged) →
  ∃ s' cmds, (∀ fuel, pd_handle fuel s e = Ret (s', cmds)) ∧ moves 0 ponged s s' cmds.
Proof.
  intros Hok Hi He Hpong. pose proof (pk_epoch _ _ _ Hok) as Hepoch. destruct i as [[from m|round epoch|epoch vs|peers|r peers|] now]; cbn in *;
    try done; injection He as <-.
  - apply message_spec; [done|]. intros pong ->. by apply Hpong.
  - destruct (update_round_spec ponged s round epoch Hepoch Hi (pk_validators _ _ _ Hok)) as (s' & Hu & Hmv & _). by exists s', [].
  - eexists _, _. split; [done|]. constructor; try done; [|intros ev [A1 A2]; by constructor|intros _; constructor]. intros pinged' [K1 K2 K3 K4]. constructor; try done. cbn.
    intros e' vs' [[<- _]|[_ ?]]%lookup_insert_Some; [done|by eapply K2].
  - eexists _, _. split; [intros fuel; cbn [pd_handle]; by rewrite <-surjective_pairing|]. apply update_peers_moves.
  - eexists _, _. split; [done|]. apply participation_moves.
Qed.

Lemma driver_update_spec d now s' cmds emitted ponged e n :
  driver_ok d emitted ponged → moves n ponged (pd d) s' cmds → (∀ fuel, pd_handle fuel (pd d) e = Ret (s', cmds)) →
  ∃ d', (∀ fuel, driver_update fuel d now e = Ret d') ∧ driver_ok d' emitted ponged ∧ pd d' = s'.
Proof.
  intros [K1 K2 K3 K4 K5] [H1 H2 H3 H4 H5 H6] Hh.
  destruct (driver_exec_spec d now s' cmds emitted ponged) as (d' & Hd & Hok & Hpd & _ & _); try done.
  - by apply H4.
  - by apply H1.
  - by apply H2.
  - by rewrite H3, H5.
  - exists d'. split; [|done]. intros fuel. unfold driver_update. by rewrite Hh.
Qed.

(** ** Polls *)

Lemma due_events me now t : timers_ok me t → (due now t <= size (events t))%nat.
Proof.
  intros [H1 H2 H3]. unfold due. etrans; [apply map_subseteq_size, map_filter_subseteq|].
  rewrite <-(size_dom (dq_view (timers t))), <-length_map_to_list, <-(length_fmap (λ x, x.2.1)).
  apply submseteq_length, NoDup_submseteq; [apply NoDup_elements|]. intros k [[nk dl] Hk]%elem_of_elements%elem_of_dom.
  destruct (H2 _ _ _ Hk) as [e He]. apply list_elem_of_fmap. exists (nk, (k, e)). split; [done|]. by apply elem_of_map_to_list.
Qed.

(** No refresh is due. *)
Definition refreshed (d : PeerDiscoveryDriver) (now : Z) : Prop :=
  ∀ k deadline, dq_view (timers (pd_timer d)) !! k = Some ((self (pd d), TK_Refresh), deadline) → now < deadline.

(** An expired timer is taken and handled. *)
Lemma driver_turn_spec d now emitted ponged n kind e t :
  driver_ok d emitted ponged → pending_emits d = [] → Z.of_nat (size (outstanding_lookup_requests (pd d))) + 3 <= 2 ^ 32 →
  timers_ok (self (pd d)) t → alarms_of (pd_timer d) !! (n, kind) = Some e → alarms_of t = delete (n, kind) (alarms_of (pd_timer d)) →
  alarm_ok (self (pd d)) n kind e →
  ∃ d', settles (λ fuel, driver_update fuel (mkPeerDiscoveryDriver (pd d) t []) now e) d' ∧ driver_ok d' emitted ponged ∧
    pd_config (pd d') = pd_config (pd d) ∧ (due now (pd_timer d') <= due now t)%nat ∧ set_later now t (pd_timer d') ∧
    (size (outstanding_lookup_requests (pd d')) <= (if bool_decide (kind = TK_Refresh) then 3 else 0) + size (outstanding_lookup_requests (pd d)))%nat.
Proof.
  intros [K1 K2 K3 K4 K5] Hemits Hsize Ht Hev Hal Ha. rewrite Hemits in K1.
  destruct (turn_spec ponged (pd d) n kind e (pk_epoch _ _ _ K1) Hsize Ha) as (s' & cmds & Hset & Hturn).
  destruct (Hturn _ _ K1 K2 Hev) as (Hok & Har & Hcfg & Hcmds & Hre & Hsz). rewrite <-Hal in Har, Hre.
  destruct (driver_exec_spec (mkPeerDiscoveryDriver (pd d) t []) now s' cmds emitted ponged) as (d' & Hd & Hok' & <- & Hdue & Hold);
    cbn [pd pd_timer pending_emits]; try done; [by apply Hcmds|rewrite Hcfg; by apply Hre|].
  exists d'. split; [|done]. eapply (settles_bind _ (λ _ x, let '(s, cmds) := x in driver_exec (mkPeerDiscoveryDriver s t []) now cmds)); [exact Hset|].
  cbn beta iota. cbn [pd_timer pending_emits] in Hd. rewrite Hd. apply settles_ret.
Qed.

Lemma driver_poll_spec now n d emitted ponged M budget :
  driver_ok d emitted ponged → (due now (pd_timer d) <= n)%nat → Z.of_nat M + 3 <= 2 ^ 32 →
  (size (outstanding_lookup_requests (pd d)) + budget <= M)%nat → (budget = 3%nat ∨ refreshed d now) →
  ∃ d' emit, settles (λ fuel, driver_poll fuel n d now) (d', emit) ∧ driver_ok d' (emitted ++ option_list emit) ponged ∧
    (size (outstanding_lookup_requests (pd d')) <= M)%nat ∧ pd_config (pd d') = pd_config (pd d).
Proof.
  revert d budget. induction n as [|n IH]; intros d budget Hok Hdue HM Hsize Hre; cbn [driver_poll];
    (destruct (pending_emits d) as [|emit rest] eqn:Hemits;
     [|exists (mkPeerDiscoveryDriver (pd d) (pd_timer d) rest), (Some emit); split; [apply settles_ret|]; split; [|cbn; split; [lia|done]];
       destruct Hok as [K1 K2 K3 K4 K5]; constructor; try done; cbn; rewrite Hemits in K1; by rewrite <-app_assoc]);
    pose proof Hok as [K1 K2 K3 K4 K5];
    (destruct (timers_poll_spec _ (pd_timer d) now K3) as [->|(node & kind & e & t & -> & Ht & Hlt & Hev & Hal & Ha & k & dl & Hk & Hdl & Hq)];
     [exists d, None; split; [apply settles_ret|]; rewrite app_nil_r; split; [done|]; split; [lia|done]|]); cbn [mbind exec_bind]; [lia|].
  destruct (driver_turn_spec d now emitted ponged node kind e t Hok Hemits) as (d1 & Hset & Hok1 & Hcfg1 & Hdue1 & Hold1 & Hsz1); try done; [lia|].
  assert (∀ k' dl', dq_view (timers t) !! k' = Some ((self (pd d), TK_Refresh), dl') → kind ≠ TK_Refresh ∧
    dq_view (timers (pd_timer d)) !! k' = Some ((self (pd d), TK_Refresh), dl')) as Ht'.
  { intros k' dl'. rewrite Hq. intros [Hne Hlk]%lookup_delete_Some. split; [|done]. intros ->. destruct Ha as [_ ->].
    destruct (to_events _ _ K3 _ _ _ Hk) as [e1 He1]. destruct (to_events _ _ K3 _ _ _ Hlk) as [e2 He2]. congruence. }
  assert (kind = TK_Refresh → budget = 3%nat) as Hbudget.
  { intros ->. destruct Hre as [?|Hre]; [done|]. destruct Ha as [_ ->]. specialize (Hre _ _ Hk). lia. }
  destruct (IH d1 (if bool_decide (kind = TK_Refresh) then 0%nat else budget)) as (d' & emit & Hset' & Hok' & Hsz' & Hcfg'); try done.
  - lia.
  - case_bool_decide as Hk'; [rewrite (Hbudget Hk') in Hsize|]; lia.
  - unfold refreshed. rewrite Hcfg1. case_bool_decide as Hk'.
    + right. intros k' dl' Hlk. destruct (Hold1 _ _ _ Hlk) as [Hlk'|]; [|done]. by destruct (Ht' _ _ Hlk').
    + destruct Hre as [->|Hre]; [by left|right]. intros k' dl' Hlk. destruct (Hold1 _ _ _ Hlk) as [Hlk'|]; [|done]. eapply Hre. by eapply Ht'.
  - exists d', emit. split; [|by rewrite <-Hcfg1].
    by eapply (settles_bind _ (λ fuel d, driver_poll fuel n d now)); [exact Hset|].
Qed.
End driver.
End props.
