(* ===== verification/PeerDiscoveryRuns.v ===== *)
(** Runs of peer discovery from its start: the properties, and a concrete node. *)

From S2P Require Import Prelude Types ValidatorSet Crypto PeerDiscovery PeerDiscoveryProps MultiSig.

#[local] Open Scope Z_scope.

Section runs.
Context `{P : Protocol} `{RC : RngCore} `{RL : !RngCoreLaws RC} `{HO : HashOrder}.
Context `{DQ : !DelayQueue (NodeId * TimerKind)} `{DL : !DelayQueueLaws DQ}.

#[local] Abbreviation self s := (pd_self_id (pd_config s)).
#[local] Abbreviation lookups s := (size (outstanding_lookup_requests s)).

Lemma driver_ok_mono d emitted ponged ponged' : ponged ⊆ ponged' → driver_ok d emitted ponged → driver_ok d emitted ponged'.
Proof. intros Hsub [K1 K2 K3 K4 K5]. constructor; try done. by eapply pd_ok_mono. Qed.

Lemma driver_input_spec d emitted ponged i M :
  driver_ok d emitted ponged → driver_input_ok i → (lookups (pd d) <= M)%nat → Z.of_nat M + 6 <= 2 ^ 32 →
  ∃ d' out, settles (λ fuel, driver_input fuel d i) (d', out) ∧ driver_ok d' (emitted ++ out) (option_list (input_pong i) ++ ponged) ∧
    (lookups (pd d') <= M + 3)%nat ∧ pd_config (pd d') = pd_config (pd d).
Proof.
  intros Hok Hi Hsize HM. apply (driver_ok_mono _ _ _ (option_list (input_pong i) ++ ponged)) in Hok; [|set_solver].
  unfold driver_input. destruct (input_event i.1) as [e|] eqn:He.
  - destruct (event_spec (option_list (input_pong i) ++ ponged) (pd d) i e _ (dk_pd _ _ _ Hok) Hi He) as (s' & cmds & Hh & Hmv).
    { intros x ->. left. }
    destruct (driver_update_spec d i.2 s' cmds emitted _ e 0 Hok Hmv Hh) as (d' & Hd & Hok' & <-). exists d', []. rewrite app_nil_r.
    split; [|split; [done|split; [|apply Hmv]]]; [exists 0%nat; intros fuel _; by rewrite Hd|]. pose proof (mv_lookups _ _ _ _ _ Hmv). lia.
  - destruct (driver_poll_spec i.2 (size (events (pd_timer d))) d emitted (option_list (input_pong i) ++ ponged) (M + 3) 3 Hok) as
      (d' & emit & Hset & Hok' & Hsz & Hcfg); [by eapply due_events, Hok|lia|lia|by left|]. exists d', (option_list emit).
    split; [|done]. eapply (settles_bind _ (λ _ x, let '(d, emit) := x in Ret (d, option_list emit))); [exact Hset|apply settles_ret].
Qed.

Lemma driver_run_spec d emitted ponged inputs M :
  driver_ok d emitted ponged → Forall driver_input_ok inputs → (lookups (pd d) <= M)%nat → Z.of_nat (M + 3 * length inputs) + 3 <= 2 ^ 32 →
  ∃ d' outs, settles (λ fuel, driver_run fuel d inputs) (d', outs) ∧ driver_ok d' (emitted ++ outs) (omap input_pong inputs ++ ponged) ∧
    (lookups (pd d') <= M + 3 * length inputs)%nat ∧ pd_config (pd d') = pd_config (pd d).
Proof.
  intros Hok Hin. revert d emitted ponged M Hok. induction Hin as [|i inputs Hi Hin IH]; intros d emitted ponged M Hok Hsize HM; cbn [driver_run length] in *.
  { exists d, []. split; [apply settles_ret|]. rewrite app_nil_r. split; [done|]. split; [lia|done]. }
  destruct (driver_input_spec d emitted ponged i M Hok Hi Hsize) as (d1 & out & Hset & Hok1 & Hsz1 & Hcfg1); [lia|].
  destruct (IH d1 (emitted ++ out) _ (M + 3)%nat Hok1 Hsz1) as (d' & outs & Hset' & Hok' & Hsz' & Hcfg'); [lia|].
  exists d', (out ++ outs). split.
  - eapply (settles_bind _ (λ fuel x, let '(d, out) := x in '(d, outs) ← driver_run fuel d inputs; Ret (d, out ++ outs))); [exact Hset|].
    eapply (settles_bind _ (λ _ x, let '(d, outs) := x in Ret (d, out ++ outs))); [exact Hset'|apply settles_ret].
  - split; [|split; [lia|congruence]]. rewrite app_assoc. eapply driver_ok_mono; [|done]. intros x. rewrite !elem_of_app. cbn.
    destruct (input_pong i); cbn; rewrite ?elem_of_cons, ?elem_of_nil, ?elem_of_app; tauto.
Qed.

(** What is relied on of a configuration: the bootstrap peers are signed, and a node
    that starts as a validator is one. *)
Record builder_ok (b : PeerDiscoveryBuilder) : Prop := {
  bo_config : config_ok (b_config b);
  bo_peers : (min_num_peers (b_config b) < max_num_peers (b_config b))%nat;
  bo_epoch : b_current_epoch b < u64_max;
  bo_validators e vs : b_epoch_validators b !! e = Some vs → e < u64_max;
  bo_role : b_self_role b = ValidatorNone ∨ b_self_role b = ValidatorPublisher →
    ∃ e vs, (e = b_current_epoch b ∨ e = b_current_epoch b + 1) ∧ b_epoch_validators b !! e = Some vs ∧ pd_self_id (b_config b) ∈ vs;
  bo_bootstrap id r : b_bootstrap_peers b !! id = Some r → recover_pubkey r = Some id;
}.

Lemma build_role_ok b s :
  builder_ok b → self_role s = b_self_role b → current_epoch s = b_current_epoch b → epoch_validators s = b_epoch_validators b →
  pd_config s = b_config b →
  (if bool_decide (self_role s = ValidatorNone) || bool_decide (self_role s = ValidatorPublisher) then
     is_validator ← check_validator_membership s (self s); assert is_validator else Ret ()) = Ret ().
Proof.
  intros [_ _ He _ Hrole _] Hro Hep Hv Hc. destruct (_ || _) eqn:Hb; [|done]. apply orb_true_iff in Hb. rewrite !bool_decide_eq_true, Hro in Hb.
  rewrite membership_total by (by rewrite Hep). cbn [mbind exec_bind]. destruct (Hrole Hb) as (e & vs & Hor & Hvs & Hin).
  unfold is_validator. rewrite Hep, Hv, Hc. destruct Hor as [-> | ->]; rewrite Hvs; cbn; rewrite (bool_decide_true _ Hin); [done|by rewrite orb_true_r].
Qed.

Lemma driver_new_spec b now :
  builder_ok b → ∃ d, settles (λ fuel, driver_new fuel b now) d ∧ driver_ok d [] [] ∧ (lookups (pd d) <= 3)%nat ∧ pd_config (pd d) = b_config b.
Proof.
  intros Hb. pose proof Hb as [Hcfg Hpeers He Hv _ Hboot]. unfold driver_new, pd_build.
  rewrite (bool_decide_true _ Hpeers). cbn [assert mbind exec_bind].
  set (s0 := mkPeerDiscovery _ _ _ _ _ _ _ _ _ _). rewrite (build_role_ok b s0) by done. cbn [mbind exec_bind].
  destruct (insert_bootstrap_moves [] s0 (btree_iter (b_bootstrap_peers b))) as [H1 H2 H3 H4 H5 H6].
  { intros id r Hin%elem_of_btree_iter. by apply Hboot. }
  destruct (insert_bootstrap s0 _) as [s1 cmds1]. cbn [fst snd] in *.
  assert (pd_ok s0 [] []) as Hok0 by by constructor. assert (armed s0 ∅) as Har0 by by constructor.
  pose proof (H1 [] Hok0) as Hok1. change (outstanding_lookup_requests s0) with (∅ : gmap Z LookupInfo) in H6. rewrite map_size_empty in H6.
  destruct (pd_refresh_spec [] s1 (pk_epoch _ _ _ Hok1)) as (s2 & cmds2 & Hset & [G1 G2 G3 G4 G5 G6] & _); [lia|].
  destruct (driver_exec_spec (mkPeerDiscoveryDriver s2 (mkPeerDiscTimers dq_new ∅) []) now s2
    (cmds1 ++ cmds2 ++ reset_refresh_timer s2 ++ [PDC_MetricsCommand]) [] []) as (d & Hd & Hok & Hpd & _ & _);
    cbn [pd pd_timer pending_emits]; try done; [apply timers_new_ok|by rewrite G3, H3| | | | |].
  - rewrite G3, H3. rewrite !cmds_ok_app. split; [by apply H4|]. rewrite <-H3. split; [apply G4; by rewrite H3|]. split; [|by constructor].
    unfold cmds_ok. cbn. rewrite G3, H3. repeat constructor. by destruct Hcfg.
  - eapply pd_ok_mono; [|done|by apply G1]. unfold pings. rewrite !omap_app. intros x. rewrite !elem_of_app. tauto.
  - unfold alarms_of. cbn [events]. rewrite fmap_empty, !apply_cmds_app. unfold apply_cmds at 1 2. cbn. destruct (G2 _ (H2 _ Har0)) as [A1 A2]. constructor.
    + intros id i Hi. rewrite lookup_insert_ne, lookup_delete_ne by done. by apply A1.
    + intros n i Hn. destruct (A2 n i Hn) as [t Ht]. exists t. by rewrite lookup_insert_ne, lookup_delete_ne.
  - rewrite !apply_cmds_app. unfold apply_cmds at 1 2. cbn. apply lookup_insert_eq.
  - exists d. split; [|split; [done|rewrite Hpd; split; [lia|by rewrite G3, H3]]].
    eapply (settles_bind _ (λ _ x, let '(s, init_cmds) := x in driver_exec (mkPeerDiscoveryDriver s (mkPeerDiscTimers dq_new ∅) []) now init_cmds)).
    + eapply (settles_bind _ (λ _ x, let '(s, more) := x in Ret (s, cmds1 ++ more))); [exact Hset|apply settles_ret].
    + cbn beta iota. cbn [pd_timer pending_emits] in Hd. rewrite Hd. apply settles_ret.
Qed.

(** C17. Peer discovery trusts no address that was not signed and answered. Over every
    sequence of messages, from whomever, of rounds, validator sets, peers and groups,
    and of polls, the node and its timers do not panic and every loop ends; each record
    in the routing table is signed by its node, is not our own, and was pinged at its
    address with a number that the node sent back; each peer that is pending has a newer
    record than the table and a timer for its last ping; each request that is
    outstanding has its timer, and there are at most three for every input; and the next
    refresh is always scheduled. *)
Theorem peer_discovery_safe (b : PeerDiscoveryBuilder) (now : Z) (inputs : list (DriverInput * Z))
    (Hb : builder_ok b) (Hin : Forall driver_input_ok inputs) (Hlen : Z.of_nat (3 * length inputs) + 6 <= 2 ^ 32) :
  ∃ d outs, settles (λ fuel, d ← driver_new fuel b now; driver_run fuel d inputs) (d, outs) ∧
    let s := pd d in
    let issued := omap emit_ping (outs ++ pending_emits d) in
    let alarm node kind := snd <$> events (pd_timer d) !! (node, kind) in
    (∀ id r, routing_info s !! id = Some r →
       recover_pubkey r = Some id ∧ id ≠ pd_self_id (b_config b) ∧
       ∃ n, (id, nr_addr r, n) ∈ issued ∧ (id, n) ∈ omap input_pong inputs) ∧
    (∀ id i, pending_queue s !! id = Some i →
       recover_pubkey (ci_name_record i) = Some id ∧
       (∀ r, routing_info s !! id = Some r → record_seq r < record_seq (ci_name_record i)) ∧
       alarm id TK_PingTimeout = Some (PDE_PingTimeout id (ping_id (last_ping i)))) ∧
    (∀ n i, outstanding_lookup_requests s !! n = Some i →
       ∃ target, alarm (receiver i) (TK_RetryPeerLookup n) = Some (PDE_PeerLookupTimeout (receiver i) target n)) ∧
    (size (outstanding_lookup_requests s) <= 3 * length inputs + 3)%nat ∧
    alarm (pd_self_id (b_config b)) TK_Refresh = Some PDE_Refresh.
Proof.
  destruct (driver_new_spec b now Hb) as (d0 & Hset0 & Hok0 & Hsz0 & Hcfg0).
  destruct (driver_run_spec d0 [] [] inputs 3 Hok0 Hin Hsz0) as (d & outs & Hset & [[_ _ Hr Hp] [Hap Hal] Ht Href _] & Hsz & Hcfg); [lia|].
  rewrite app_nil_r, Hcfg, Hcfg0 in *. exists d, outs. split; [by eapply (settles_bind _ (λ fuel d, driver_run fuel d inputs)); [exact Hset0|]|].
  unfold alarms_of in *. rewrite lookup_fmap in Href. split; [done|]. split; [|split; [|split; [lia|done]]].
  - intros id i Hi. destruct (Hp id i Hi) as (? & _ & _ & ?). split; [done|]. split; [done|]. rewrite <-lookup_fmap. by apply Hap.
  - intros n i Hn. destruct (Hal n i Hn) as [t Ht']. exists t. by rewrite <-lookup_fmap.
Qed.

(** C18. A refresh keeps the routing table bounded. It ends without panic; afterwards the
    table has at most [max_num_peers] peers, or only validators and pinned full nodes;
    no validator and no pinned full node is removed; nothing is added; and full nodes
    that have not participated for [last_participation_prune_threshold] rounds are gone. *)
Theorem refresh_bounds_peers (s : PeerDiscovery) (He : current_epoch s < u64_max)
    (Hlookups : Z.of_nat (size (outstanding_lookup_requests s)) + 3 <= 2 ^ 32) :
  ∃ s' cmds, settles (λ fuel, refresh fuel s) (s', cmds) ∧
    ((size (routing_info s') <= max_num_peers (pd_config s))%nat ∨ ∀ id r, routing_info s' !! id = Some r → is_pinned_node s id = Ret true) ∧
    (∀ id, is_pinned_node s id = Ret true → routing_info s' !! id = routing_info s !! id) ∧
    (∀ id r, routing_info s' !! id = Some r → routing_info s !! id = Some r) ∧
    (∀ id info, participation_info s !! id = Some info → rounds_inactive s info >= last_participation_prune_threshold (pd_config s) →
       is_pinned_node s id = Ret false → routing_info s' !! id = None).
Proof.
  destruct (pd_refresh_spec [] s He Hlookups) as (s' & cmds & Hset & _ & Hsub & Hpin & Hinact & Hbound). exists s'. eexists. split; [exact Hset|].
  split; [|split; [|split; [done|]]].
  - destruct Hbound as [?|Hall]; [by left|right]. intros id r Hid. rewrite pinned_total by done. by rewrite (Hall id r Hid).
  - intros id. rewrite pinned_total by done. intros [= Hid]. by apply Hpin.
  - intros id info Hid Hi. rewrite pinned_total by done. intros [= Hp]. by eapply Hinact.
Qed.

(** C33. A full node that becomes a validator advertises itself to nobody: whatever the
    round and the epoch, [update_current_round] issues no command, since the records it
    wants to insert are the ones of the routing table, and a record that is not newer
    than the table's is not inserted. *)
Theorem promotion_advertises_nothing (s : PeerDiscovery) (round : Round) (epoch : Epoch) (He : current_epoch s < u64_max) (Hepoch : epoch < u64_max)
    (Hv : ∀ e vs, epoch_validators s !! e = Some vs → e < u64_max) :
  ∃ s', update_current_round s round epoch = Ret (s', []) ∧ pending_queue s' = pending_queue s.
Proof.
  destruct (update_round_spec [] s round epoch He Hepoch Hv) as (s' & Hu & Hmv & Hp). by exists s'.
Qed.
End runs.

(** * A concrete node *)

(** A generator that counts, and chooses from the front *)
Definition counter_rng : RngCore :=
  {| Rng := Z; next_u32 r := (r mod 2 ^ 32, r + 1); choose_multiple A l r n := (take n l, r) |}.

Lemma counter_draw n r : @nth_draw counter_rng n r = (r + Z.of_nat n) mod 2 ^ 32.
Proof. revert r. induction n as [|n IH]; intros r; cbn [nth_draw]; [cbn; f_equal; lia|]. rewrite IH. f_equal. cbn. lia. Qed.

Lemma mod_inj m a i j : 0 <= i < m → 0 <= j < m → (a + i) mod m = (a + j) mod m → i = j.
Proof.
  intros Hi Hj Heq. assert ((i - j) mod m = 0) as Hz.
  { replace (i - j) with ((a + i) - (a + j)) by lia. rewrite Zminus_mod, Heq, Z.sub_diag. apply Z.mod_0_l. lia. }
  apply Z.mod_divide in Hz as [q Hq]; [|lia]. assert (q = 0) by nia. lia.
Qed.

Lemma counter_escapes r (X : gset Z) : Z.of_nat (size X) < 2 ^ 32 → ∃ n, @nth_draw counter_rng n r ∉ X.
Proof.
  generalize (@nth_draw counter_rng) (λ n, counter_draw n r). intros draw Hdraw. assert (0 < 2 ^ 32) as Hpos by lia. revert Hdraw Hpos.
  generalize (2 ^ 32). intros m Hdraw Hpos Hsize.
  destruct (decide (Exists (λ n, draw n r ∉ X) (seq 0 (Z.to_nat m)))) as [(n & _ & Hn)%Exists_exists|Hno]; [by exists n|exfalso].
  assert (map (λ n, draw n r) (seq 0 (Z.to_nat m)) ⊆+ elements X) as Hlen%submseteq_length.
  { apply NoDup_submseteq.
    - apply NoDup_fmap_2_strong; [|apply NoDup_seq]. intros i j Hi%elem_of_seq Hj%elem_of_seq. rewrite !Hdraw.
      intros Heq%(mod_inj m); lia.
    - intros x (n & -> & Hn)%list_elem_of_fmap. apply elem_of_elements. destruct (decide (draw n r ∈ X)) as [|Hx]; [done|].
      destruct Hno. apply Exists_exists. by exists n. }
  rewrite length_map, length_seq in Hlen. change (length (elements X)) with (size X) in Hlen. lia.
Qed.

#[export] Instance counter_rng_laws : RngCoreLaws counter_rng.
Proof.
  constructor; [apply counter_escapes|]. intros A l r n. exists (drop n l). cbn. split; [by rewrite take_drop|]. rewrite length_take. lia.
Qed.

(** A queue as a map from keys to items with deadlines *)
Definition dq_find {A} (q : gmap Z (A * Z)) (now : Z) : option (Z * (A * Z)) := head (filter (λ kv : Z * (A * Z), kv.2.2 <= now) (map_to_list q)).

Definition map_queue (A : Type) : DelayQueue A := {|
  dq := gmap Z (A * Z);
  dq_key := Z;
  dq_new := ∅;
  dq_insert q now a d := (fresh (dom q), <[fresh (dom q) := (a, now + d)]> q);
  dq_remove q k := match q !! k with Some _ => Ret (delete k q) | None => Panic end;
  dq_poll q now := match dq_find q now with Some (k, (a, _)) => Some (a, delete k q) | None => None end;
|}.

Definition map_queue_laws (A : Type) : DelayQueueLaws (map_queue A).
Proof.
  refine {| dq_view := λ q : @dq A (map_queue A), (q : gmap Z (A * Z)) |}; cbn; try done.
  - intros q now a d. split; [|done]. apply not_elem_of_dom, is_fresh.
  - intros q k x ->. by eexists.
  - intros q now a q'. unfold dq_find. destruct (head _) as [[k [a' t]]|] eqn:Hh; [|done]. intros [= <- <-]. exists k, t.
    apply head_Some_elem_of in Hh as [Hle Hin]%list_elem_of_filter. apply elem_of_map_to_list in Hin. done.
Defined.

Section nop.
#[local] Existing Instances NopProtocol counter_rng map_order map_queue map_queue_laws.

Definition nop_record (key : NodeId) (seq : Z) : MonadNameRecord :=
  name_record_new (mkNameRecord (mkSocketAddrV4 [10; 0; 0; key] 8000) seq) (key : ST_KeyPair).
Definition nop_pd_config : PeerDiscoveryConfig := mkPeerDiscoveryConfig 1 (nop_record 1 1) ∅ 60 5 3 100 1 2.
Definition nop_pd_builder : PeerDiscoveryBuilder :=
  mkPeerDiscoveryBuilder nop_pd_config FullNodeNone 5 1 {[1 := {[2; 3]}; 2 := {[2; 1]}]} {[2 := nop_record 2 4]} (7 : @Rng counter_rng).

Lemma nop_builder_ok : builder_ok nop_pd_builder.
Proof.
  constructor; try done; try (cbn; lia).
  - intros e vs. cbn. rewrite lookup_insert_Some, lookup_singleton_Some. unfold u64_max. lia.
  - by intros [?|?].
  - intros id r. cbn. intros [<- <-]%lookup_singleton_Some. vm_compute. done.
Qed.

(** The bootstrap peer answers, and peer 4 pings: its record is answered too. *)
Definition nop_pd_inputs : list (DriverInput * Z) :=
  [(DI_Poll, 0); (DI_Message 2 (PDM_Pong (mkPong 7 4)), 1); (DI_Message 4 (PDM_Ping (mkPing 99 (nop_record 4 1))), 2); (DI_Poll, 60);
   (DI_Poll, 60); (DI_Poll, 60); (DI_Message 4 (PDM_Pong (mkPong 8 1)), 61); (DI_UpdateCurrentRound 9 2, 62)].

Lemma nop_pd_run n :
  ret_with (λ '(d, _), bool_decide (is_Some (routing_info (pd d) !! 2)) && bool_decide (is_Some (routing_info (pd d) !! 4)))
    (d ← driver_new (S n) nop_pd_builder 0; driver_run (S n) d nop_pd_inputs) = true.
Proof. vm_compute. reflexivity. Qed.

Lemma peer_discovery_safe_witness :
  ∃ d outs, settles (λ fuel, d ← driver_new fuel nop_pd_builder 0; driver_run fuel d nop_pd_inputs) (d, outs) ∧
    is_Some (routing_info (pd d) !! 2) ∧ is_Some (routing_info (pd d) !! 4) ∧
    ∀ id r, routing_info (pd d) !! id = Some r → recover_pubkey r = Some id ∧ id ≠ 1 ∧
      ∃ n, (id, nr_addr r, n) ∈ omap emit_ping (outs ++ pending_emits d) ∧ (id, n) ∈ omap input_pong nop_pd_inputs.
Proof.
  destruct (peer_discovery_safe nop_pd_builder 0 nop_pd_inputs nop_builder_ok) as (d & outs & Hset & Hr & _);
    [repeat constructor; vm_compute; done|cbn; lia|]. exists d, outs. split; [done|].
  destruct Hset as [F HF]. pose proof (nop_pd_run F) as Hrun. rewrite HF in Hrun by lia. cbn [ret_with] in Hrun.
  apply andb_true_iff in Hrun as [H2%bool_decide_eq_true H4%bool_decide_eq_true]. done.
Defined.

(** A table of validator 2, pinned node 5, and full nodes 6 and 7 *)
Definition nop_full : PeerDiscovery :=
  mkPeerDiscovery (mkPeerDiscoveryConfig 1 (nop_record 1 1) {[5]} 60 5 3 100 1 2) FullNodeClient 50 1 {[1 := {[2; 3]}; 2 := {[2; 1]}]}
    {[2 := nop_record 2 4; 5 := nop_record 5 1; 6 := nop_record 6 1; 7 := nop_record 7 1]} ∅ ∅ ∅ (7 : @Rng counter_rng).

Lemma refresh_bounds_peers_witness :
  ∃ s' cmds, settles (λ fuel, refresh fuel nop_full) (s', cmds) ∧ size (routing_info nop_full) = 4%nat ∧
    routing_info s' !! 2 = Some (nop_record 2 4) ∧ routing_info s' !! 5 = Some (nop_record 5 1) ∧
    ((size (routing_info s') <= 2)%nat ∨ ∀ id r, routing_info s' !! id = Some r → is_pinned_node nop_full id = Ret true).
Proof.
  destruct (refresh_bounds_peers nop_full) as (s' & cmds & Hset & Hbound & Hpin & _); [done|by vm_compute|]. exists s', cmds. split; [done|].
  split; [by vm_compute|]. rewrite (Hpin 2), (Hpin 5) by by vm_compute. split; [reflexivity|]. split; [reflexivity|exact Hbound].
Defined.

(** Node 1 becomes a validator of epoch 2 and knows validator 2. *)
Lemma promotion_advertises_nothing_witness :
  ∃ s', update_current_round nop_full 60 2 = Ret (s', []) ∧ self_role nop_full = FullNodeClient ∧ self_role s' = ValidatorNone ∧
    is_Some (routing_info s' !! 2) ∧ pending_queue s' = ∅.
Proof.
  destruct (promotion_advertises_nothing nop_full 60 2) as (s' & Hu & Hp); [done|done| |].
  { intros e vs. cbn. rewrite lookup_insert_Some, lookup_singleton_Some. unfold u64_max. lia. }
  exists s'. split; [done|]. split; [done|].
  assert (ret_with (λ '(s, _), bool_decide (self_role s = ValidatorNone) && bool_decide (is_Some (routing_info s !! 2)))
    (update_current_round nop_full 60 2) = true) as Hrole by by vm_compute.
  rewrite Hu in Hrole. cbn [ret_with] in Hrole. apply andb_true_iff in Hrole as [H1%bool_decide_eq_true H2%bool_decide_eq_true]. done.
Defined.
End nop.
